(* ===== verification/_CoqProject ===== *)
-Q . S2P
Prelude.v
GoStrings.v
Token.v
Lex.v
LexLoops.v
LexInv.v
Scanner.v
Ast.v
ParseText.v
Parse.v
ParseFacts.v
Validator.v
Earthfile.v
CircBuf.v
GoText.v
Reference.v
Imports.v
KeyValue.v
Scope.v
Collection.v
BuildArgs.v
Numbers.v
SyncCache.v
SyncCacheFacts.v
Effects.v
RuneFacts.v
ShellLex.v
ShellFacts.v
ShellWords.v
ShellWorld.v
Expand.v
Matrix.v
FlagUtil.v
Features.v
Json.v
Platform.v
States.v
RunMount.v
RunShell.v
Llb.v
LocalState.v
WaitBlock.v
Builtin.v
ConvApi.v
Interp.v
InterpCmds.v
InterpBlocks.v
InterpLogic.v
InterpTrack.v
InterpSafety.v
ConvState.v
Conv.v
ConvBuild.v
ConvRun.v
ConvSave.v
ConvFacts.v
WithDocker.v
ConvAnswer.v
ConvSample.v
ConvSafety.v
ConvEnv.v
Conditions.v
Hasher.v
InputGraph.v
InputGraphEnds.v
InputGraphFacts.v
Outcome.v
Home.v
Yaml.v
Config.v
GitLookup.v
GitMeta.v
Complete.v
AllTargets.v
StatsStream.v
BuildContext.v
LogBus.v
ConsLog.v
LogFormatter.v
SolverMon.v
