(* ===== verification/Prelude.v ===== *)
(** * EarthBuild: a verification development

    EarthBuild reads an Earthfile, resolves the references, imports and variables
    it mentions, and builds its targets with BuildKit.  This development models
    the parts of the Go sources that decide what a build means and that need no
    external service: the front end (text to syntax tree), the naming layer
    (references and imports), the features of a version, the variables of a target and
    their expansion, the interpreter that walks the tree, the converter that it drives
    (from the commands to the states that BuildKit executes, the images and what is
    exported), the concurrent conversion of all targets, the walk that hashes the inputs of
    a target, the build contexts and the git remotes they come from, the configuration,
    shell completion, the log of a build from BuildKit's reports to the terminal, and a few
    concurrent or low-level data structures the rest relies on.

    ** The program's parts and their models

    A file holds the translation of a component and then the theorems about it, unless they
    are said to be in a file of their own.

    - [src/internal/earthfile], the front end.
      - [lex.go]: tokens in [Token.v]; the scanner, its state functions and
        [nextItem] in [Lex.v].  [LexLoops.v] gives the coordinates of a position
        and shows that every loop has enough fuel, [LexInv.v] the invariant of the
        scanner, the tokens a state call emits and a measure that every state call
        decreases, [Scanner.v] the stream of tokens as a whole
        and the instance of [TokenSource] the parser is proved against.
      - [earthfile.go]: the tree in [Ast.v], with the passes over source locations.
      - [parse.go]: the text-level helpers (exec form, key=value, escapes, docs) in
        [ParseText.v] with their theory; the recursive
        descent in [Parse.v], written against the class of token sources;
        [ParseFacts.v] proves termination and the origin of source locations for
        any source that satisfies [TokenSourceLaws].
      - [validator.go] in [Validator.v]; [Parse] and the quick VERSION reader of
        [version.go] in [Earthfile.v], where the layers are put together.
    - [src/domain], the naming layer: [reference.go], [target.go] and [command.go] in
      [Reference.v]; [artifact.go] and [importtracker.go] in
      [Imports.v].
    - [src/variables]: [util.go] and [parsenew.go] in [KeyValue.v], [scope.go] in
      [Scope.v], [collection.go] in [Collection.v] (its
      [Expand] in [Expand.v]), [parse.go] and [reserved/names.go] in [BuildArgs.v],
      [builtin.go] (with [util/stringutil/scrub.go]) in [Builtin.v].
    - [src/util/shell/lex.go], the expansion of words: [ShellLex.v], in the monad of
      [Effects.v] (a state, errors, and a third outcome for exhausted fuel); its
      termination and the look-ahead in [ShellFacts.v], quotes and parameters in
      [ShellWords.v], lemmas on runes in [RuneFacts.v].
    - [src/util/flagutil] and [src/util/stringutil]: the matrix of build arguments in
      [Matrix.v] (slices over a shared store), the regrouping and preprocessing of
      arguments, ARG, params and --load in [FlagUtil.v].
    - [src/earthfile2llb]: the options of the commands and the converter as the
      interpreter sees it in [ConvApi.v] (one constructor of [Call] per method, the
      class [Converter] for what it answers); [interpreter.go] in [Interp.v] (the
      commands that build and copy), [InterpCmds.v] (the other commands) and
      [InterpBlocks.v] (statements, blocks and [Run]).  [InterpLogic.v] is a program
      logic over the history of calls, which it and [InterpTrack.v] apply
      to every handler, [InterpSafety.v] draws the conclusions.
    - [src/features] and [buildcontext/parsefeatures.go]: [Features.v].
      [src/util/platutil]: [Platform.v].  [src/states]: the inputs
      of a target and the visited targets in [States.v] (JSON text in
      [Json.v], numbers in [Numbers.v]), the image configuration in [Llb.v], what is
      saved in [WaitBlock.v], the target itself in [ConvState.v].
    - [src/util/llbutil]: the states of BuildKit as data, copies and fake dependencies in
      [Llb.v]; local contexts, include patterns and their cache in [LocalState.v].
    - [src/earthfile2llb], the converter.  [runmount.go] in [RunMount.v], [shell.go] in
      [RunShell.v], [wait_block.go] with its items and [util/gatewaycrafter] in
      [WaitBlock.v].  [converter.go]: the record of the converter and
      its monad in [ConvState.v]; commands on the image and the variables in [Conv.v];
      bases, other targets, scopes, WAIT and the end of a target in [ConvBuild.v]; RUN
      and the commands that are read in [ConvRun.v]; copies, saves and wildcards in
      [ConvSave.v]; the five files of WITH DOCKER in
      [WithDocker.v].  [ConvAnswer.v] answers every [Call] of the interpreter with
      these methods and puts [Interpreter_Run] and [FinalizeStates] together
      ([convert]).  [ConvFacts.v] shows what every method keeps, [ConvSafety.v] and
      [ConvEnv.v] draw the conclusions, [ConvSample.v] has concrete surroundings in which
      whole Earthfiles are converted by evaluation; [ShellWorld.v] says what the
      expansion of a word does to the world.
    - [src/inputgraph], the inputs of a target for auto-skip: conditions that are decided
      without running them in [Conditions.v], the stream that is hashed
      ([util/buildkitskipper/hasher]) in [Hasher.v], the loader with all its handlers in
      [InputGraph.v]; that the walk ends in [InputGraphEnds.v], what the hash covers in
      [InputGraphFacts.v].
    - [src/earthfile2llb/earthfile2llb.go]: concurrent calls of [Earthfile2LLB], with visited
      targets and stack sets, in [AllTargets.v].
    - [src/buildcontext]: the table of remotes ([gitlookup.go], with the part of
      [build_cmd.go] that fills it) in [GitLookup.v]; the resolver of
      local and of git references, its caches and their goroutines, in [BuildContext.v].  [src/util/gitutil]: the metadata of a git directory in
      [GitMeta.v].
    - [src/config] and the config command: trees of YAML in [Yaml.v], the
      configuration in [Config.v].  [src/util/fileutil] and
      [src/util/cliutil]: home directories in [Home.v].
    - [src/autocomplete] with [helper/autocomplete.go]: [Complete.v].
    - [src/util/statsstreamparser]: [StatsStream.v].
    - [src/logbus] with the messages of [src/logstream] and [util/deltautil]: what happens to a
      run is written to a bus and handed to subscribers, [LogBus.v].  [solvermon], which
      turns BuildKit's statuses into steps of the run, with [util/vertexmeta] and
      [util/errutil], in [SolverMon.v]; [formatter], which prints what the bus hands to it,
      with [writersub] and the tracker of [util/execstatssummary], in [LogFormatter.v].
      [src/conslogging] and [util/progressbar]: the console in [ConsLog.v].
    - [src/internal/circbuf]: the circular buffer of captured logs in [CircBuf.v].
    - [src/internal/synccache]: the concurrent cache of loaded values in
      [SyncCache.v] and [SyncCacheFacts.v].

    [GoStrings.v] and [GoText.v] hold what the code uses of Go's strings and of the
    packages strings, strconv, path and unicode/utf8.  This file holds the result
    type of fallible code, the shared tactics and the hint databases.

    ** How Go is represented

    A string is a string of bytes; a rune is a [Z] (with -1 for the end of the
    text, as in the lexer).  A function that can fail returns [res]: [Ok], or [Err]
    with the text of the Go error (a Go panic is an [Err] whose text starts with
    "panic:"); code whose panics matter returns [outcome] of [Outcome.v], where a panic is a
    constructor of its own.  Methods thread the record of their receiver.  A nil and an empty
    slice are identified, and a nil pointer is [None].  Which runes are letters or
    printable is a parameter ([Unicode]), as are the order in which Go visits a map
    ([RangeOrder] and [CacheOrder], with the law that every binding is visited once) and
    what BuildKit, the registry, the gateway, the host and other targets answer
    ([Outside], [LLB], [RunEnv], [DockerEnv], [Services]), and for the input graph the
    resolver, SHA-1 and the files ([InputEnv], [FileSystem]).  The operating system is
    [Machine], git is [Git], and the libraries for YAML, regular expressions, ssh and the
    like are [YamlLib], [GitLibs] and [ContextLibs]; for the log, the order of a delta's maps
    is [DeltaOrder], what a colour does to a text [Paint], and times, sizes and JSON are
    [FormatterEnv] and [MonitorLibs].  What BuildKit documents of
    states is [LLBLaws].  HOME and the process environment are arguments.  Items and
    blocks of WAIT are shared between targets and live in a store; the converter is a
    record that its methods thread.  The goroutines of the cache are processes
    with a program counter; [exec] runs one atomic step of one of them, and the
    theorems hold for every interleaving.

    ** Fuel

    Loops that are not structural take fuel and return [NoFuel] when it runs out,
    which is never a behaviour of the code.  The loops of the lexer get the length
    of the text that is left; [LexLoops.v] proves the equation of the Go loop for
    each.  A call of [nextItem] runs at most [refill_fuel] states, five per byte
    left plus six, by the measure of [LexInv.v].  A text of n bytes has at most
    15n + 18 tokens and the parser uses at most three units of fuel per token and
    two more; [Parse] is run with that amount, and [Parse_finishes] says that it
    always answers.  [process] of the shell lexer gets one unit per rune and one
    more ([process_finishes]).  The interpreter recurses over blocks, functions and
    wildcard builds, which the code bounds by nothing: its fuel is a parameter, and
    its theorems hold for every amount.  The walk over the input graph needs one unit per
    target name that can be resolved and two more, and the expansion of directories one
    per level and two more ([load_finishes]); the search for the root of a project gets one
    per byte of the working directory ([find_root_nearest]), the parser of statistics one
    per byte of its buffer; [evalConditions] gets one per byte of the
    condition and one more ([evalConditions_finishes]).

    ** What the theorems show

    - Front end: [Parse] terminates on every text ([Parse_finishes]); what it
      accepts is well formed ([Parse_valid], against the specification of
      [validateAst_spec]); its locations are coordinates of the text
      ([Parse_locations]) and do not influence the tree ([Parse_source_map]); the
      tokens are ordered disjoint pieces of the text with exact lines and columns
      ([lex_spans]), the stream is bounded and ends in one EOF or error token
      ([lex_stream]), and the scanner's state stays in bounds
      ([scanner_invariant]); exec forms are decoded as the inverse of their
      encoding ([parseExecForm_roundtrip]); quotes, key=value arguments and line
      continuations have their specifications; the VERSION reader refines the
      parser ([readVersion_agrees]).
    - Names: printing and parsing of references are inverse
      ([reference_roundtrip], [ParseRef_canonical]); joining is associative; an
      import resolves to what was imported ([Deref_Add]), and imports never grant
      privilege ([unprivileged_imports]).
    - Variables: escaped keys round trip; the fast path of [ParseKeyValue] is an
      optimisation only; flags and positional arguments are separated; scopes
      combine with the documented precedence whatever the order of Go's maps
      ([CombineScopes_precedence]); the cached scope of a collection is never stale
      ([Collection_Get_precedence]); declarations, SET and call frames behave as
      the language promises; the command line cannot set builtins.
    - Words: expansion ends ([process_finishes]); quoted text is literal
      ([quoted_literal]); the forms of parameter expansion follow the shell's table
      ([parameter_expansion]) at the values the scopes' precedence gives
      ([Expand_precedence], [DeclareVar_then_Expand]); the look-ahead never misses a
      shell-out ([requiresShellOut_sound]).
    - Arguments: regrouping cuts exactly where quotes are closed
      ([ProcessParamsAndQuotes_spec]); the params form reads back
      ([ParseParams_roundtrip]); what ARG accepts ([ParseArgArgs_spec]); the matrix
      is the product of its groups when slices are not shared
      ([BuildArgMatrix_product]).
    - Interpreter, for every converter and every Earthfile: no privilege is used or
      passed on that was not granted ([unprivileged_run]); nothing but pushes
      happens after a push ([push_is_final]); a block restores the privilege and the
      WITH DOCKER state ([block_restores]); FOR visits its values in order
      ([for_iterates]); building ahead leaves the interpreter alone and never shells
      out ([lookahead_harmless]).
    - Features, platforms and inputs: what a VERSION line turns on
      ([parseFeatures_spec], [features_grow], [Features_roundtrip]); two requests share
      a visited target exactly when their inputs agree ([upfront_dedup],
      [legacy_Add_spec]); modes of mounts fit their widths ([parseMounts_modes]).
    - Converter: a converted target is well formed whatever its Earthfile says
      ([convert_well_formed]); calls without a base are refused and change nothing
      ([refused_calls]); pushes wait ([push_is_deferred]); words do not build
      ([words_leave_build]); a target has no more rights than those that ask for it
      ([child_rights]); the environment that BuildKit executes is the one that is
      declared ([environment_agrees]); the shell reads the command line as it was meant
      ([command_line_words]); names of files are escaped ([quoteMeta_spec]).
    - Exports: what is pushed is what is marked for it ([saveImages_pushes]), which
      commands contradict each other ([saveImages_conflicts]), marks and items of blocks
      ([store_invariant]), how often a block runs ([Wait_bounded]), and valid tags
      ([DockerTagSafe_valid]).
    - Built-in arguments: only reserved names, none active, one value under both names
      ([BuiltinArgs_spec]); credentials are hidden ([ScrubCredentials_hides]).
    - Input graph: hashing ends however targets call each other ([load_finishes]); another
      recipe has another hash ([recipe_covered]); so do other bytes in a copied file
      ([files_covered]), and the order of Go's maps does not show ([files_in_order]); what
      a condition is decided to be ([evalConditions_spec]).
    - All targets: without a cycle of calls every schedule of the goroutines ends
      ([conversion_ends]); a cycle that is reported is one ([cycle_error_sound]).
    - Git remotes: the table stays well formed ([table_invariant]); passwords go into https
      URLs only ([password_only_https]); unknown hosts are refused ([strict_checking]); what
      is cloned for a plain reference ([GetCloneURL_default]), and that it is read back as
      that reference ([clone_reads_back]); a protocol is detected once ([detection_sticks]).
    - Build contexts: what is in the cache of projects, and that temporary directories are
      removed ([project_cache_sound]); the nearest Earthfile is found ([root_is_nearest]);
      what is left out ([readExcludes_spec]); the directory within a repository
      ([gitRelDir_spec]).
    - Configuration: setting and deleting a value change nothing else ([Upsert_spec],
      [Delete_spec]); which paths are accepted ([validatePath_classes]); paths read back
      ([splitPath_roundtrip]).
    - Completion: what is offered ([offers_visible], [potentials_extend]), and when it does
      not panic ([completion_no_panic]).
    - Statistics: a stream may be cut anywhere ([stream_in_pieces]).
    - Log: whenever a subscriber comes, the manifest it builds from its deltas is the run's
      ([raw_subscriber_manifest]), whatever the order of maps ([ApplyDelta_order]); an end is
      final ([ended_run_settled]).  The monitor follows no nil pointer and logs no
      credentials ([monitor_safe]); it reads the metadata that the converter wrote
      ([vertex_prefix_roundtrip], [base64_roundtrip]) and tells exit codes apart
      ([exit_code_classes]).  The formatter accepts every delta of a run
      ([formatter_never_fails]), and a terminal, which [LogFormatter.v] models, shows the lines
      of an output however it was cut ([pieces_on_screen]).  What the console prints
      ([Print_spec], [PrintBytes_spec], [Format_spec], [ProgressBar_length]).
    - Circular buffer: it refines a log that keeps its last bytes
      ([circbuf_refines_tail]).
    - Cache: a load deletes only its own entry ([single_deleter]); a shared load is
      cancelled only when every attached caller has gone
      ([abandoned_only_when_all_gone]); a caller with a live context never returns
      another caller's cancellation ([no_foreign_cancellation]); loaded entries are
      permanent ([loaded_entry_is_permanent]); no caller waits for good
      ([Load_progress]).
    - Surprises of the code, as theorems: flags without a key are doubled
      ([parseKeyValueItems_flags_only]), a VERSION after a command
      ([version_after_command]), an empty tag ([empty_tag_becomes_import]), an
      escaped key ([flag_escaping_lost]), combinations that overwrite each other
      ([BuildArgMatrix_shared]), quoted params ([quoted_params_rejected]), a
      privileged IF ([if_privileged_unchecked]), files of TRY that leak
      ([try_files_leak]), TRY without FINALLY ([try_without_finally]), FOR after a
      push ([for_after_push]), overrides whose value is ignored
      ([override_value_ignored]), a name that ends in a backslash
      ([splitWildcards_panics]), sources of --if-exists ([if_exists_star],
      [if_exists_unicode], [if_exists_root]), a message that is never given
      ([no_manifest_list_order]), one tar for two platforms ([pulled_key]), credentials
      without a password or with an at sign ([scrub_without_password], [scrub_at_sign]),
      conditions that are decided wrongly ([commands_are_false], [negation_is_ignored],
      [and_is_ignored], [or_before_and]), and inputs that are not hashed: the base recipe
      ([base_is_not_hashed]), branches ([command_condition_is_not_hashed]), the directories
      of files ([directories_are_ignored]), CATCH and FINALLY ([catch_is_finally]); a
      password that is sent to another host ([password_to_other_host]), references that
      panic ([lookup_panics]), keys that are never used ([serverkey_unused]), a branch that
      is another commit ([override_mixes_up]), a port that becomes a directory
      ([port_becomes_path]), errors that are lost ([error_is_lost]), a repository at the root
      ([gitRelDir_root]), a section that is written beside itself ([Upsert_empty_section]),
      targets that wait for each other ([knot_deadlock]), a stream that is out of step
      ([out_of_step]), homes that make completion panic ([complete_other_home]), an empty
      row for a newline ([newline_adds_row]), interactive commands that never end
      ([interactive_never_ends]), controls on two lines ([control_split]), prefixes that stay
      too long ([prefix_too_long]), internal vertices that are not ([internal_flag_lost]),
      cancellations that are failures ([cancelled_is_failure]), and credentials in the error
      of a command ([error_keeps_credentials]).

    ** What is not modelled

    The writing of artifacts to the host, BuildKit itself and the builder that drives it, the
    control of its daemon and of containers, the debugger, the registry proxy, telemetry,
    the table of statistics and the debug files of the log, and the command-line interface: they are I/O, external programs
    or third-party packages, with little logic of their own between the calls.  docker2earth
    rests on BuildKit's parser of Dockerfiles.  Cancelled contexts are modelled for the cache
    of loaded values only.  A method of the bus is one step, so that two calls of SetStart or
    SetProgress of one command at once are not represented.  The scopes of a collection are values: its callers hand over
    clones.  [AddEnv] is the value it returns; that it may also write into its argument is
    not represented.

    Names of vertices and progress messages are left out of LLB states. *)

From stdpp Require Export base tactics list strings pretty numbers option.
From Stdlib Require Export Ascii ZArith Lia.

(** ** Automation

    [lex], [gostr] and [prs] are the hint databases of the three layers of the
    front end; each file adds the lemmas that close its routine goals. *)

Create HintDb gostr.
Create HintDb lex.
Create HintDb prs.

(** Case analysis on the first stuck [match] or [if] of the goal. *)
Ltac case_goal :=
  match goal with
  | |- context [match ?x with _ => _ end] =>
      first [ is_var x; destruct x | let E := fresh "E" in destruct x eqn:E ]
  end.

(** Case analysis on the first boolean test of the goal. *)
Ltac case_test :=
  match goal with
  | |- context [if ?b then _ else _] => let E := fresh "E" in destruct b eqn:E
  end.

(** The same on a hypothesis. *)
Ltac case_hyp H :=
  match type of H with
  | context [match ?x with _ => _ end] =>
      first [ is_var x; destruct x | let E := fresh "E" in destruct x eqn:E ]
  end.

(** Turn boolean tests on integers, characters and connectives into facts. *)
Ltac to_prop :=
  repeat match goal with
  | H : (_ && _)%bool = true |- _ => apply andb_true_iff in H as [? ?]
  | H : (_ || _)%bool = false |- _ => apply orb_false_iff in H as [? ?]
  | H : (_ || _)%bool = true |- _ => apply orb_true_iff in H
  | H : (_ && _)%bool = false |- _ => apply andb_false_iff in H
  | H : negb _ = true |- _ => apply negb_true_iff in H
  | H : negb _ = false |- _ => apply negb_false_iff in H
  | H : Z.eqb _ _ = true |- _ => apply Z.eqb_eq in H
  | H : Z.eqb _ _ = false |- _ => apply Z.eqb_neq in H
  | H : Z.leb _ _ = true |- _ => apply Z.leb_le in H
  | H : Z.leb _ _ = false |- _ => apply Z.leb_gt in H
  | H : Z.ltb _ _ = true |- _ => apply Z.ltb_lt in H
  | H : Z.ltb _ _ = false |- _ => apply Z.ltb_ge in H
  | H : Nat.eqb _ _ = true |- _ => apply Nat.eqb_eq in H
  | H : Nat.eqb _ _ = false |- _ => apply Nat.eqb_neq in H
  | H : Nat.leb _ _ = true |- _ => apply Nat.leb_le in H
  | H : Nat.leb _ _ = false |- _ => apply Nat.leb_gt in H
  | H : Nat.ltb _ _ = true |- _ => apply Nat.ltb_lt in H
  | H : Nat.ltb _ _ = false |- _ => apply Nat.ltb_ge in H
  | H : String.eqb _ _ = true |- _ => apply String.eqb_eq in H
  | H : String.eqb _ _ = false |- _ => apply String.eqb_neq in H
  end.

(** ** Results of fallible, fuelled code

    [Err] carries the Go error (its message); [NoFuel] is never a behaviour of
    the code: every function that can return it has a theorem that it does not
    for the fuel it is given. *)

Inductive res (A : Type) : Type :=
  | Ok (a : A)
  | Err (msg : string)
  | NoFuel.
Arguments Ok {A} _.
Arguments Err {A} _.
Arguments NoFuel {A}.

Definition rbind {A B} (m : res A) (k : A -> res B) : res B :=
  match m with
  | Ok a => k a
  | Err e => Err e
  | NoFuel => NoFuel
  end.

Declare Scope res_scope.
Delimit Scope res_scope with res.
Notation "'let*' p := m 'in' k" := (rbind m (fun p => k))
  (at level 10, p pattern, m at level 100, k at level 200) : res_scope.

(** The computation produced a value or an error of the program. *)
Definition finished {A} (m : res A) : Prop := m <> NoFuel.

Lemma rbind_finished {A B} (m : res A) (k : A -> res B) :
  finished m -> (forall a, m = Ok a -> finished (k a)) -> finished (rbind m k).
Proof. unfold finished. destruct m; simpl; intros Hm Hk; auto. Qed.

(** The computation finishes, and what it returns satisfies [Q]. *)
Definition result_is {A} (Q : A -> Prop) (m : res A) : Prop :=
  match m with
  | Ok a => Q a
  | Err _ => True
  | NoFuel => False
  end.

Lemma result_is_bind {A B} (Q : A -> Prop) (R : B -> Prop) (m : res A) (k : A -> res B) :
  result_is Q m -> (forall a, Q a -> result_is R (k a)) -> result_is R (rbind m k).
Proof. destruct m; simpl; auto. Qed.

Lemma result_is_mono {A} (Q R : A -> Prop) (m : res A) :
  result_is Q m -> (forall a, Q a -> R a) -> result_is R m.
Proof. destruct m; simpl; auto. Qed.

(** ** Lists *)

Lemma lookup_insert_length {A} (l : list A) (x : A) i :
  i < length l -> firstn (S i) (<[i:=x]> l) = firstn i l ++ [x].
Proof.
  intros Hi. revert i Hi. induction l as [|y l IH]; intros [|i] Hi; simpl in *;
    try lia; [done|]. rewrite <- IH by lia. done.
Qed.
