(* ===== verification/GoStrings.v ===== *)
(** * Go strings

    A Go string is a sequence of bytes, as Rocq's [string] is.  This file holds
    what the modelled code uses of the language (indexing, slicing) and of the
    packages [strings], [unicode/utf8] and [unicode], with the lemmas on slices
    and on UTF-8 decoding that the lexer and the parser share.  Runes are [Z],
    as in Go ([rune] is [int32] and [eof] is -1). *)

From S2P Require Import Prelude.

(** ** Bytes and runes *)

Definition byteZ (c : ascii) : Z := Z.of_N (N_of_ascii c).

Abbreviation rTAB := 9%Z.
Abbreviation rNL := 10%Z.
Abbreviation rCR := 13%Z.
Abbreviation rSP := 32%Z.
Abbreviation rDQuote := 34%Z.
Abbreviation rHash := 35%Z.
Abbreviation rDollar := 36%Z.
Abbreviation rSQuote := 39%Z.
Abbreviation rLParen := 40%Z.
Abbreviation rRParen := 41%Z.
Abbreviation rComma := 44%Z.
Abbreviation rDash := 45%Z.
Abbreviation rDot := 46%Z.
Abbreviation rSlash := 47%Z.
Abbreviation rColon := 58%Z.
Abbreviation rEquals := 61%Z.
Abbreviation rBackslash := 92%Z.
Abbreviation rUnderscore := 95%Z.

(** The one-byte string of a byte value. *)
Definition byte_string (b : Z) : string := String (ascii_of_N (Z.to_N b)) "".

Definition NLs : string := byte_string rNL.
Definition dquote : string := byte_string rDQuote.

(** ** Indexing and slicing *)

(** [s[i]]; [None] is Go's out-of-range panic. *)
Definition at_ (s : string) (i : nat) : option ascii := String.get i s.

Fixpoint stake (n : nat) (s : string) : string :=
  match n, s with
  | S n, String c s => String c (stake n s)
  | _, _ => ""
  end.

(** [s[n:]] *)
Fixpoint sdrop (n : nat) (s : string) : string :=
  match n, s with
  | O, _ => s
  | S n, String _ s => sdrop n s
  | S _, EmptyString => ""
  end.

(** [s[i:j]] *)
Definition slice (i j : nat) (s : string) : string := stake (j - i) (sdrop i s).

(** ** Package [strings] *)

Definition HasPrefix (s p : string) : bool := String.prefix p s.

Definition HasSuffix (s p : string) : bool :=
  (String.length p <=? String.length s)%nat &&
  String.eqb (sdrop (String.length s - String.length p) s) p.

Definition TrimPrefix (s p : string) : string :=
  if HasPrefix s p then sdrop (String.length p) s else s.

Definition TrimSuffix (s p : string) : string :=
  if HasSuffix s p then stake (String.length s - String.length p) s else s.

Fixpoint sall (p : ascii -> bool) (s : string) : bool :=
  match s with
  | "" => true
  | String c s => p c && sall p s
  end.

Definition sexists (p : ascii -> bool) (s : string) : bool := negb (sall (fun c => negb (p c)) s).

(** [strings.ContainsAny], for an ASCII character set. *)
Definition ContainsAny (s chars : string) : bool :=
  sexists (fun c => sexists (Ascii.eqb c) chars) s.

(** [strings.TrimRight], for an ASCII cutset. *)
Fixpoint TrimRight (s cutset : string) : string :=
  match s with
  | "" => ""
  | String c s' =>
      match TrimRight s' cutset with
      | "" => if sexists (Ascii.eqb c) cutset then "" else String c ""
      | t => String c t
      end
  end.

Fixpoint Join (l : list string) (sep : string) : string :=
  match l with
  | [] => ""
  | [x] => x
  | x :: l => x +:+ sep +:+ Join l sep
  end.

Definition sconcat (l : list string) : string := foldr String.append "" l.

(** The UTF-8 encodings of the runes of [unicode.IsSpace]. *)
Definition bytes_string (l : list Z) : string := sconcat (byte_string <$> l).

Definition space_encodings : list string :=
  bytes_string <$>
  [[9]; [10]; [11]; [12]; [13]; [32]; [194; 133]; [194; 160]; [225; 154; 128];
   [226; 128; 128]; [226; 128; 129]; [226; 128; 130]; [226; 128; 131];
   [226; 128; 132]; [226; 128; 133]; [226; 128; 134]; [226; 128; 135];
   [226; 128; 136]; [226; 128; 137]; [226; 128; 138]; [226; 128; 168];
   [226; 128; 169]; [226; 128; 175]; [226; 129; 159]; [227; 128; 128]]%Z.

Fixpoint trim_left_fuel (fuel : nat) (s : string) : string :=
  match fuel with
  | O => s
  | S f =>
      match List.find (HasPrefix s) space_encodings with
      | Some e => trim_left_fuel f (sdrop (String.length e) s)
      | None => s
      end
  end.

Fixpoint trim_right_fuel (fuel : nat) (s : string) : string :=
  match fuel with
  | O => s
  | S f =>
      match List.find (HasSuffix s) space_encodings with
      | Some e => trim_right_fuel f (stake (String.length s - String.length e) s)
      | None => s
      end
  end.

(** [strings.TrimSpace] *)
Definition TrimSpace (s : string) : string :=
  let s := trim_left_fuel (String.length s) s in
  trim_right_fuel (String.length s) s.

(** ** Package [unicode/utf8] *)

Definition RuneError : Z := 65533.
Definition RuneSelf : Z := 128.

Definition in_range (lo hi b : Z) : bool := (lo <=? b)%Z && (b <=? hi)%Z.

(** The number of bytes a lead byte announces and the range it accepts for the
    second byte; [None] for a byte that cannot start a multi-byte sequence. *)
Definition lead (b : Z) : option (nat * Z * Z) :=
  if in_range 194 223 b then Some (2, 128%Z, 191%Z)
  else if (b =? 224)%Z then Some (3, 160%Z, 191%Z)
  else if in_range 225 236 b then Some (3, 128%Z, 191%Z)
  else if (b =? 237)%Z then Some (3, 128%Z, 159%Z)
  else if in_range 238 239 b then Some (3, 128%Z, 191%Z)
  else if (b =? 240)%Z then Some (4, 144%Z, 191%Z)
  else if in_range 241 243 b then Some (4, 128%Z, 191%Z)
  else if (b =? 244)%Z then Some (4, 128%Z, 143%Z)
  else None.

Definition cont_ok (c : ascii) : bool := in_range 128 191 (byteZ c).

(** [utf8.DecodeRuneInString]: the first rune and its width; an invalid
    sequence is [RuneError] of width 1, the empty string [RuneError] of width 0. *)
Definition DecodeRuneInString (s : string) : Z * nat :=
  match s with
  | "" => (RuneError, 0)
  | String c0 s1 =>
      let b0 := byteZ c0 in
      if (b0 <? RuneSelf)%Z then (b0, 1) else
      match lead b0, s1 with
      | Some (2, lo, hi), String c1 _ =>
          if in_range lo hi (byteZ c1)
          then (Z.lor (Z.shiftl (Z.land b0 31) 6) (Z.land (byteZ c1) 63), 2)
          else (RuneError, 1)
      | Some (3, lo, hi), String c1 (String c2 _) =>
          if in_range lo hi (byteZ c1) && cont_ok c2
          then (Z.lor (Z.shiftl (Z.land b0 15) 12)
                 (Z.lor (Z.shiftl (Z.land (byteZ c1) 63) 6) (Z.land (byteZ c2) 63)), 3)
          else (RuneError, 1)
      | Some (4, lo, hi), String c1 (String c2 (String c3 _)) =>
          if in_range lo hi (byteZ c1) && cont_ok c2 && cont_ok c3
          then (Z.lor (Z.shiftl (Z.land b0 7) 18)
                 (Z.lor (Z.shiftl (Z.land (byteZ c1) 63) 12)
                   (Z.lor (Z.shiftl (Z.land (byteZ c2) 63) 6) (Z.land (byteZ c3) 63))), 4)
          else (RuneError, 1)
      | _, _ => (RuneError, 1)
      end
  end.

(** ** Lemmas on slices *)

Lemma byteZ_bound c : (0 <= byteZ c < 256)%Z.
Proof. unfold byteZ. pose proof (N_ascii_bounded c). lia. Qed.

Lemma byteZ_inj c d : byteZ c = byteZ d -> c = d.
Proof.
  unfold byteZ. intros H. apply N2Z.inj in H.
  rewrite <- (ascii_N_embedding c), <- (ascii_N_embedding d). by f_equal.
Qed.

Lemma sall_impl (p q : ascii -> bool) s :
  (forall c, p c = true -> q c = true) -> sall p s = true -> sall q s = true.
Proof. intros Hpq. induction s as [|c s IH]; simpl; [done|]. intros H. to_prop. by rewrite Hpq, IH. Qed.

Lemma length_sapp (s t : string) :
  String.length (s +:+ t) = String.length s + String.length t.
Proof. induction s as [|c s IH]; [done|]. simpl. f_equal. exact IH. Qed.

Lemma sapp_cons c s t : String c s +:+ t = String c (s +:+ t).
Proof. done. Qed.

Lemma sapp_nil_r s : s +:+ "" = s.
Proof. induction s as [|c s IH]; [done|]. by rewrite sapp_cons, IH. Qed.

Lemma sapp_assoc (s t u : string) : s +:+ (t +:+ u) = (s +:+ t) +:+ u.
Proof. induction s as [|c s IH]; [done|]. by rewrite !sapp_cons, IH. Qed.

Lemma sconcat_app l m : sconcat (l ++ m) = sconcat l +:+ sconcat m.
Proof. induction l as [|x l IH]; simpl; [done|]. by rewrite IH, sapp_assoc. Qed.

Lemma sdrop_0 s : sdrop 0 s = s.
Proof. by destruct s. Qed.

Lemma sdrop_nil n : sdrop n "" = "".
Proof. by destruct n. Qed.

Lemma length_sdrop n s : String.length (sdrop n s) = String.length s - n.
Proof.
  revert s. induction n as [|n IH]; intros [|c s]; simpl; auto.
Qed.

Lemma length_stake n s : String.length (stake n s) = n `min` String.length s.
Proof.
  revert s. induction n as [|n IH]; intros [|c s]; simpl; try done. by rewrite IH.
Qed.

Lemma sdrop_sdrop n m s : sdrop n (sdrop m s) = sdrop (m + n) s.
Proof.
  revert s. induction m as [|m IH]; intros s; simpl; [done|].
  destruct s; [apply sdrop_nil|apply IH].
Qed.

Lemma sdrop_all n s : String.length s <= n -> sdrop n s = "".
Proof.
  revert s. induction n as [|n IH]; intros [|c s]; simpl; intros; try done; try lia.
  apply IH. lia.
Qed.

Lemma stake_all n s : String.length s <= n -> stake n s = s.
Proof.
  revert s. induction n as [|n IH]; intros [|c s]; simpl; intros; try done; try lia.
  f_equal. apply IH. lia.
Qed.

Lemma stake_sdrop n s : stake n s +:+ sdrop n s = s.
Proof.
  revert s. induction n as [|n IH]; intros [|c s]; simpl; try done.
  by rewrite sapp_cons, IH.
Qed.

Lemma stake_stake_sdrop n m s : stake n s +:+ stake m (sdrop n s) = stake (n + m) s.
Proof.
  revert s. induction n as [|n IH]; intros s; simpl; [done|].
  destruct s; simpl; [by destruct m|]. by rewrite sapp_cons, IH.
Qed.

Lemma length_slice i j s :
  i <= j <= String.length s -> String.length (slice i j s) = j - i.
Proof. intros. unfold slice. rewrite length_stake, length_sdrop. lia. Qed.

Lemma slice_same i s : slice i i s = "".
Proof. unfold slice. rewrite Nat.sub_diag. done. Qed.

Lemma slice_full s : slice 0 (String.length s) s = s.
Proof. unfold slice. rewrite sdrop_0, Nat.sub_0_r. by apply stake_all. Qed.

Lemma at_sdrop i s : at_ s i = at_ (sdrop i s) 0.
Proof.
  unfold at_. revert s. induction i as [|i IH]; intros s; [by rewrite sdrop_0|].
  destruct s; simpl; [done|]. apply IH.
Qed.

Lemma sdrop_lt i s :
  i < String.length s -> exists c, at_ s i = Some c /\ sdrop i s = String c (sdrop (S i) s).
Proof.
  revert s. induction i as [|i IH]; intros [|c s]; simpl; intros Hi; try lia.
  - by exists c.
  - destruct (IH s) as (d & Hd & Hs); [lia|]. exists d. split; [exact Hd|]. by rewrite Hs.
Qed.

Lemma at_Some_lt s i c : at_ s i = Some c -> i < String.length s.
Proof.
  unfold at_. revert s. induction i as [|i IH]; intros [|d s]; simpl; intros; try done; try lia.
  apply IH in H. lia.
Qed.

Lemma at_lt_Some s i : i < String.length s -> exists c, at_ s i = Some c.
Proof. intros H. destruct (sdrop_lt i s H) as (c & Hc & _). eauto. Qed.

Lemma HasPrefix_spec s p : HasPrefix s p = true <-> exists t, s = p +:+ t.
Proof.
  unfold HasPrefix. revert s. induction p as [|c p IH]; intros s; simpl.
  - split; [|by destruct s]. intros _. by exists s.
  - destruct s as [|d s]; simpl.
    + split; [done|]. intros [t Ht]. done.
    + destruct (ascii_dec c d) as [->|Hn].
      * rewrite IH. split; intros [t Ht]; exists t; [by subst|]. by injection Ht.
      * split; [done|]. intros [t Ht]. rewrite sapp_cons in Ht. congruence.
Qed.

Lemma sdrop_sapp s t : sdrop (String.length s) (s +:+ t) = t.
Proof. induction s as [|c s IH]; simpl; [apply sdrop_0|]. apply IH. Qed.

Lemma stake_sapp s t : stake (String.length s) (s +:+ t) = s.
Proof. induction s as [|c s IH]; simpl; [by destruct t|]. by rewrite IH. Qed.

Lemma sapp_cancel_l (a s t : string) : a +:+ s = a +:+ t -> s = t.
Proof. induction a as [|c a IH]; [done|]. rewrite !sapp_cons. intros [= E]. by apply IH. Qed.

Lemma sapp_cancel_r a b t : a +:+ t = b +:+ t -> a = b.
Proof.
  intros H. assert (String.length a = String.length b) as Hl.
  { apply (f_equal String.length) in H. rewrite !length_sapp in H. lia. }
  rewrite <- (stake_sapp a t), <- (stake_sapp b t), H. by rewrite Hl.
Qed.

Lemma HasSuffix_spec s p : HasSuffix s p = true <-> exists t, s = t +:+ p.
Proof.
  unfold HasSuffix. split.
  - intros H. apply andb_true_iff in H as [Hl He].
    apply Nat.leb_le in Hl. apply String.eqb_eq in He.
    exists (stake (String.length s - String.length p) s).
    rewrite <- He at 2. by rewrite stake_sdrop.
  - intros [t ->]. rewrite length_sapp. apply andb_true_iff. split; [apply Nat.leb_le; lia|].
    apply String.eqb_eq.
    replace (String.length t + String.length p - String.length p) with (String.length t) by lia.
    apply sdrop_sapp.
Qed.

(** ** Lemmas on decoding *)

Lemma lor_ge k a b :
  (0 <= k)%Z -> (0 <= a)%Z -> (0 <= b)%Z -> (2 ^ k <= a \/ 2 ^ k <= b)%Z ->
  (2 ^ k <= Z.lor a b)%Z.
Proof.
  intros Hk Ha Hb H. pose proof (Z.pow_pos_nonneg 2 k ltac:(lia) Hk) as Hp.
  assert (0 < Z.lor a b)%Z as Hl.
  { pose proof (proj2 (Z.lor_nonneg a b) (conj Ha Hb)).
    destruct (Z.eq_dec (Z.lor a b) 0) as [E|]; [|lia].
    apply Z.lor_eq_0_iff in E. lia. }
  apply Z.log2_le_pow2; [done|]. rewrite Z.log2_lor by done.
  destruct H as [H|H]; apply Z.log2_le_pow2 in H; lia.
Qed.

Lemma land_7 x : Z.land x 7 = (x mod 8)%Z.
Proof. apply (Z.land_ones x 3). lia. Qed.
Lemma land_15 x : Z.land x 15 = (x mod 16)%Z.
Proof. apply (Z.land_ones x 4). lia. Qed.
Lemma land_31 x : Z.land x 31 = (x mod 32)%Z.
Proof. apply (Z.land_ones x 5). lia. Qed.
Lemma land_63 x : Z.land x 63 = (x mod 64)%Z.
Proof. apply (Z.land_ones x 6). lia. Qed.

Ltac bits_nonneg :=
  repeat first [ lia | apply Z.lor_nonneg; split | apply Z.shiftl_nonneg
               | apply Z.land_nonneg; right ].

Ltac land_mod :=
  rewrite ?land_7, ?land_15, ?land_31, ?land_63;
  rewrite ?Z.shiftl_mul_pow2 by lia; Z.to_euclidean_division_equations.

Lemma lead_spec b n lo hi :
  lead b = Some (n, lo, hi) ->
  (hi <= 191)%Z /\
  ((n = 2%nat /\ 194 <= b <= 223)%Z \/
   (n = 3%nat /\ 224 <= b <= 239 /\ (b = 224 -> lo = 160))%Z \/
   (n = 4%nat /\ 240 <= b <= 244 /\ (b = 240 -> lo = 144))%Z).
Proof.
  unfold lead, in_range. intros H.
  repeat case_hyp H; simplify_eq; to_prop; lia.
Qed.

(** What the clients of the decoder rely on: a rune is never negative, its
    width is positive and within the string, and a rune below [RuneSelf] is the
    first byte itself. *)
Lemma decode_spec s r w :
  s <> "" -> DecodeRuneInString s = (r, w) ->
  (0 <= r)%Z /\ 1 <= w <= String.length s /\
  ((r < RuneSelf)%Z -> w = 1 /\ exists c s', s = String c s' /\ byteZ c = r).
Proof.
  unfold DecodeRuneInString, RuneSelf. intros Hs H. destruct s as [|c0 s1]; [done|].
  pose proof (byteZ_bound c0).
  destruct (byteZ c0 <? 128)%Z eqn:E0; to_prop.
  { simplify_eq. simpl. repeat split; try lia; eauto. }
  assert (DecodeRuneInString (String c0 s1) = (r, w) -> (128 <= r)%Z /\ 1 <= w <= S (String.length s1)) as Hm;
    [|unfold DecodeRuneInString, RuneSelf in Hm].
  2:{ rewrite (proj2 (Z.ltb_ge _ _) E0) in Hm. apply Hm in H. simpl. repeat split; lia. }
  intros _. clear Hs. unfold RuneError in H.
  destruct (lead (byteZ c0)) as [[[n lo] hi]|] eqn:El; [|simplify_eq; lia].
  apply lead_spec in El.
  destruct El as [Hhi [[-> Hb]|[(-> & Hb & Hlo)|(-> & Hb & Hlo)]]];
    repeat case_hyp H; simplify_eq; simpl; (split; [|lia]); try lia;
    unfold in_range, cont_ok in *; to_prop;
    change 128%Z with (2 ^ 7)%Z; apply lor_ge; try lia.
  all: try bits_nonneg.
  - left. land_mod. lia.
  - destruct (Z.eq_dec (byteZ c0) 224).
    + right. rewrite Hlo in * by done. apply lor_ge; try bits_nonneg. left. land_mod. lia.
    + left. land_mod. lia.
  - destruct (Z.eq_dec (byteZ c0) 240).
    + right. rewrite Hlo in * by done. apply lor_ge; try bits_nonneg. left. land_mod. lia.
    + left. land_mod. lia.
Qed.
