(* ===== verification/Token.v ===== *)
(** * Tokens of the Earthfile language

    The token types, the command names and the token record of
    [internal/earthfile/lex.go], and the formatting verbs the lexer's and the
    parser's error texts use. *)

From S2P Require Import Prelude GoStrings.

(** ** Token types (lex.go, [itemType]) *)

Inductive itemType : Type :=
  | itemError | itemEOF | itemNL | itemIndent | itemDedent | itemWS | itemComment | itemEOLComment
  | itemFrom | itemFromDockerfile | itemLocally | itemCopy | itemSaveArtifact | itemSaveImage
  | itemRun | itemExpose | itemVolume | itemEnv | itemArg | itemSet | itemLet | itemLabel
  | itemBuild | itemWorkdir | itemIf | itemElseIf | itemElse | itemEnd | itemCmd | itemEntrypoint
  | itemGitClone | itemAdd | itemStopSignal | itemOnBuild | itemHealthCheck | itemShell | itemDo
  | itemCommand | itemFunctionKW | itemImport | itemVersion | itemCache | itemHost | itemProject
  | itemUser
  | itemWith | itemDocker | itemTry | itemCatch | itemFinally | itemFor | itemWait
  | itemTarget | itemUserCommand | itemFunction | itemAtom | itemEquals.

#[export] Instance itemType_eq_dec : EqDecision itemType.
Proof. solve_decision. Defined.

(** The value [iota] gives each constant, printed by the parser's ["type %d"]. *)
Definition all_itemTypes : list itemType :=
  [itemError; itemEOF; itemNL; itemIndent; itemDedent; itemWS; itemComment; itemEOLComment;
   itemFrom; itemFromDockerfile; itemLocally; itemCopy; itemSaveArtifact; itemSaveImage;
   itemRun; itemExpose; itemVolume; itemEnv; itemArg; itemSet; itemLet; itemLabel;
   itemBuild; itemWorkdir; itemIf; itemElseIf; itemElse; itemEnd; itemCmd; itemEntrypoint;
   itemGitClone; itemAdd; itemStopSignal; itemOnBuild; itemHealthCheck; itemShell; itemDo;
   itemCommand; itemFunctionKW; itemImport; itemVersion; itemCache; itemHost; itemProject;
   itemUser;
   itemWith; itemDocker; itemTry; itemCatch; itemFinally; itemFor; itemWait;
   itemTarget; itemUserCommand; itemFunction; itemAtom; itemEquals].

Fixpoint index_of (t : itemType) (l : list itemType) : nat :=
  match l with
  | [] => 0
  | u :: l => if decide (t = u) then 0 else S (index_of t l)
  end.

Definition typ_number (t : itemType) : nat := index_of t all_itemTypes.

(** ** Command names (lex.go, [Cmd]) *)

Definition Cmd : Type := string.

Definition CmdAdd : Cmd := "ADD".
Definition CmdArg : Cmd := "ARG".
Definition CmdBuild : Cmd := "BUILD".
Definition CmdCache : Cmd := "CACHE".
Definition CmdCatch : Cmd := "CATCH".
Definition CmdCmd : Cmd := "CMD".
Definition CmdCommand : Cmd := "COMMAND".
Definition CmdCopy : Cmd := "COPY".
Definition CmdDo : Cmd := "DO".
Definition CmdElse : Cmd := "ELSE".
Definition CmdEnd : Cmd := "END".
Definition CmdEntrypoint : Cmd := "ENTRYPOINT".
Definition CmdEnv : Cmd := "ENV".
Definition CmdExpose : Cmd := "EXPOSE".
Definition CmdFinally : Cmd := "FINALLY".
Definition CmdFor : Cmd := "FOR".
Definition CmdFrom : Cmd := "FROM".
Definition CmdFunction : Cmd := "FUNCTION".
Definition CmdHealthCheck : Cmd := "HEALTHCHECK".
Definition CmdHost : Cmd := "HOST".
Definition CmdIf : Cmd := "IF".
Definition CmdImport : Cmd := "IMPORT".
Definition CmdLabel : Cmd := "LABEL".
Definition CmdLet : Cmd := "LET".
Definition CmdLocally : Cmd := "LOCALLY".
Definition CmdOnBuild : Cmd := "ONBUILD".
Definition CmdProject : Cmd := "PROJECT".
Definition CmdRun : Cmd := "RUN".
Definition CmdSet : Cmd := "SET".
Definition CmdShell : Cmd := "SHELL".
Definition CmdStopSignal : Cmd := "STOPSIGNAL".
Definition CmdTry : Cmd := "TRY".
Definition CmdUser : Cmd := "USER".
Definition CmdVersion : Cmd := "VERSION".
Definition CmdVolume : Cmd := "VOLUME".
Definition CmdWait : Cmd := "WAIT".
Definition CmdWith : Cmd := "WITH".
Definition CmdWorkdir : Cmd := "WORKDIR".

(** ** Tokens (lex.go, [item]) *)

Record item : Type := mkItem {
  Val : string;
  Typ : itemType;
  item_pos : nat;
  Line : nat;
  Col : nat
}.

(** Go's zero value. *)
Definition zero_item : item := mkItem "" itemError 0 0 0.

(** ** Formatting verbs *)

(** ["%q"] of a text with nothing to escape: the lexer only quotes keyword
    texts, made of letters, digits and underscores. *)
Definition fmt_q (s : string) : string := dquote +:+ s +:+ dquote.

(** [unicode/utf8.EncodeRune] *)
Definition EncodeRune (r : Z) : string :=
  if (r <? 128)%Z then bytes_string [r]
  else if (r <? 2048)%Z then
    bytes_string [Z.lor 192 (Z.shiftr r 6); Z.lor 128 (Z.land r 63)]
  else if (r <? 65536)%Z then
    bytes_string [Z.lor 224 (Z.shiftr r 12); Z.lor 128 (Z.land (Z.shiftr r 6) 63);
                  Z.lor 128 (Z.land r 63)]
  else
    bytes_string [Z.lor 240 (Z.shiftr r 18); Z.lor 128 (Z.land (Z.shiftr r 12) 63);
                  Z.lor 128 (Z.land (Z.shiftr r 6) 63); Z.lor 128 (Z.land r 63)].

Definition hex_digit (d : Z) : string :=
  byte_string (if (d <? 10)%Z then 48 + d else 55 + d)%Z.

Fixpoint hex_fuel (fuel : nat) (digits : nat) (r : Z) : string :=
  match fuel with
  | O => ""
  | S f =>
      if ((r =? 0)%Z && (digits =? 0)%nat)%bool then ""
      else hex_fuel f (Nat.pred digits) (Z.shiftr r 4) +:+ hex_digit (Z.land r 15)
  end.

(** [strconv.IsPrint] is a table of the Unicode database; the lexer uses it
    only inside one error text, so it is a parameter of the development. *)
Class Unicode : Type := IsPrint : Z -> bool.

(** ["%#U"] *)
Definition fmt_U `{Unicode} (r : Z) : string :=
  "U+" +:+ hex_fuel 8 4 r +:+
  (if IsPrint r then " '" +:+ EncodeRune r +:+ "'" else "").

(** ["%d"] of a natural number. *)
Definition fmt_d (n : nat) : string := pretty n.

Example fmt_U_at : @fmt_U (fun _ => true) 64 = "U+0040 '@'".
Proof. reflexivity. Qed.
