(* ===== verification/Lex.v ===== *)
(** * The Earthfile lexer: definitions

    A translation of [internal/earthfile/lex.go].  The scanner is the record
    [lexer]; a state function becomes a constructor of [stateFn] and [run_state]
    runs it, returning the next state ([None] is Go's nil) and the scanner.

    A Go [for] loop that consumes input becomes a recursion on fuel, started
    with one more than the number of bytes left; [LexLoops.v] proves that this
    fuel is never exhausted, by deriving the loop's own equation. *)

From S2P Require Import Prelude GoStrings Token.

Definition eof : Z := -1.

Inductive stateFn : Type :=
  | lexDefault | lexSpace | lexNL | lexIdentifier | lexRecipe | lexCommandKeyword
  | lexRecipeCommandArgs | lexRecipeSpaceArgs | lexKeyValueCommandArgs
  | lexGlobalCommandArgs | lexGlobalSpaceArgs.

Record lexer : Type := mkLexer {
  input : string;
  name : string;
  keyValueCmdType : Cmd;
  state : option stateFn;
  itemsArr : list item;
  indentArr : list nat;
  itemsStart : nat;
  itemsEnd : nat;
  indentLen : nat;
  line : nat;
  lastPos : nat;
  width : nat;
  start : nat;
  col : nat;
  startLine : nat;
  startCol : nat;
  pos : nat;
  isStartOfLine : bool
}.

(** ** Field updates *)

(** [l.pos], [l.line], [l.col] and [l.width]. *)
Definition set_cursor (p li co w : nat) (l : lexer) : lexer :=
  mkLexer (input l) (name l) (keyValueCmdType l) (state l) (itemsArr l) (indentArr l)
    (itemsStart l) (itemsEnd l) (indentLen l) li (lastPos l) w (start l) co
    (startLine l) (startCol l) p (isStartOfLine l).

(** [l.start], [l.startLine] and [l.startCol]. *)
Definition set_start (p li co : nat) (l : lexer) : lexer :=
  mkLexer (input l) (name l) (keyValueCmdType l) (state l) (itemsArr l) (indentArr l)
    (itemsStart l) (itemsEnd l) (indentLen l) (line l) (lastPos l) (width l) p (col l)
    li co (pos l) (isStartOfLine l).

(** [l.itemsArr], [l.itemsStart] and [l.itemsEnd]. *)
Definition set_items (arr : list item) (s e : nat) (l : lexer) : lexer :=
  mkLexer (input l) (name l) (keyValueCmdType l) (state l) arr (indentArr l)
    s e (indentLen l) (line l) (lastPos l) (width l) (start l) (col l)
    (startLine l) (startCol l) (pos l) (isStartOfLine l).

Definition set_isStartOfLine (b : bool) (l : lexer) : lexer :=
  mkLexer (input l) (name l) (keyValueCmdType l) (state l) (itemsArr l) (indentArr l)
    (itemsStart l) (itemsEnd l) (indentLen l) (line l) (lastPos l) (width l) (start l) (col l)
    (startLine l) (startCol l) (pos l) b.

(** [l.indentArr] and [l.indentLen]. *)
Definition set_indent (arr : list nat) (n : nat) (l : lexer) : lexer :=
  mkLexer (input l) (name l) (keyValueCmdType l) (state l) (itemsArr l) arr
    (itemsStart l) (itemsEnd l) n (line l) (lastPos l) (width l) (start l) (col l)
    (startLine l) (startCol l) (pos l) (isStartOfLine l).

Definition set_state (s : option stateFn) (l : lexer) : lexer :=
  mkLexer (input l) (name l) (keyValueCmdType l) s (itemsArr l) (indentArr l)
    (itemsStart l) (itemsEnd l) (indentLen l) (line l) (lastPos l) (width l) (start l) (col l)
    (startLine l) (startCol l) (pos l) (isStartOfLine l).

Definition set_lastPos (p : nat) (l : lexer) : lexer :=
  mkLexer (input l) (name l) (keyValueCmdType l) (state l) (itemsArr l) (indentArr l)
    (itemsStart l) (itemsEnd l) (indentLen l) (line l) p (width l) (start l) (col l)
    (startLine l) (startCol l) (pos l) (isStartOfLine l).

Definition set_keyValueCmdType (c : Cmd) (l : lexer) : lexer :=
  mkLexer (input l) (name l) c (state l) (itemsArr l) (indentArr l)
    (itemsStart l) (itemsEnd l) (indentLen l) (line l) (lastPos l) (width l) (start l) (col l)
    (startLine l) (startCol l) (pos l) (isStartOfLine l).

(** ** Reading runes *)

Definition input_len (l : lexer) : nat := String.length (input l).

(** The rune at the cursor and its width. *)
Definition rune_at (s : string) (p : nat) : Z * nat := DecodeRuneInString (sdrop p s).

Definition nextUnicode (l : lexer) : Z * lexer :=
  let '(r, w) := rune_at (input l) (pos l) in
  (r, if (r =? rNL)%Z
      then set_cursor (pos l + w) (S (line l)) 1 w l
      else set_cursor (pos l + w) (line l) (S (col l)) w l).

Definition next (l : lexer) : Z * lexer :=
  match at_ (input l) (pos l) with
  | None => (eof, set_cursor (pos l) (line l) (col l) 0 l)
  | Some c =>
      if (byteZ c <? RuneSelf)%Z then
        (byteZ c,
         if (byteZ c =? rNL)%Z
         then set_cursor (S (pos l)) (S (line l)) 1 1 l
         else set_cursor (S (pos l)) (line l) (S (col l)) 1 l)
      else nextUnicode l
  end.

(** [l.next()] for its effect only. *)
Definition skip (l : lexer) : lexer := snd (next l).

Definition peek (l : lexer) : Z :=
  match at_ (input l) (pos l) with
  | None => eof
  | Some c => if (byteZ c <? RuneSelf)%Z then byteZ c else fst (rune_at (input l) (pos l))
  end.

(** ** Emitting tokens *)

Definition ignore (l : lexer) : lexer := set_start (pos l) (line l) (col l) l.

(** Append to [itemsArr] when there is room, as [emit] and [errorf] do. *)
Definition push_item (it : item) (l : lexer) : lexer :=
  if itemsEnd l <? length (itemsArr l)
  then set_items (<[itemsEnd l := it]> (itemsArr l)) (itemsStart l) (S (itemsEnd l)) l
  else l.

Definition emit (t : itemType) (l : lexer) : lexer :=
  let l1 := push_item (mkItem (slice (start l) (pos l) (input l)) t (start l)
                         (startLine l) (startCol l)) l in
  let l2 := ignore l1 in
  if decide (t = itemNL) then set_isStartOfLine true l2
  else if decide (t <> itemWS /\ t <> itemComment) then set_isStartOfLine false l2
  else l2.

(** [if l.pos > l.start { l.emit(t) }] *)
Definition emit_pending (t : itemType) (l : lexer) : lexer :=
  if start l <? pos l then emit t l else l.

Definition errorf (msg : string) (l : lexer) : option stateFn * lexer :=
  (None, push_item (mkItem msg itemError (start l) (startLine l) (startCol l)) l).

(** ** Character classes *)

Definition isSpace (r : Z) : bool := (r =? rSP)%Z || (r =? rTAB)%Z.

Definition isEndOfLine (r : Z) : bool := (r =? rCR)%Z || (r =? rNL)%Z.

Definition isLetter (r : Z) : bool := in_range 97 122 r || in_range 65 90 r.

Definition isAlphaNumeric (r : Z) : bool :=
  isLetter r || in_range 48 57 r || (r =? rUnderscore)%Z.

(** ** Loops *)

(** The bytes left. *)
Definition rem (l : lexer) : nat := input_len l - pos l.

(** [for { r := l.peek(); if !p(r) { break }; l.next() }] *)
Fixpoint next_while_fuel (fuel : nat) (p : Z -> bool) (l : lexer) : lexer :=
  match fuel with
  | O => l
  | S f => if p (peek l) then next_while_fuel f p (skip l) else l
  end.

Definition next_while (p : Z -> bool) (l : lexer) : lexer :=
  next_while_fuel (S (rem l)) p l.

Fixpoint skipSpace_fuel (fuel : nat) (l : lexer) : lexer :=
  match fuel with
  | O => l
  | S f =>
      match at_ (input l) (pos l) with
      | Some c =>
          if isSpace (byteZ c)
          then skipSpace_fuel f (set_cursor (S (pos l)) (line l) (S (col l)) (width l) l)
          else l
      | None => l
      end
  end.

Definition skipSpace (l : lexer) : lexer := skipSpace_fuel (S (rem l)) l.

Definition skipSpaceCount (l : lexer) : nat * lexer :=
  let l' := skipSpace l in (pos l' - pos l, l').

(** [r := l.next(); if r == '\r' && l.peek() == '\n' { l.next() }] *)
Definition next_crlf (l : lexer) : lexer :=
  let '(r, l1) := next l in
  if (r =? rCR)%Z && (peek l1 =? rNL)%Z then skip l1 else l1.

(** The rest of the line, [for !isEndOfLine(l.peek()) && l.peek() != eof]. *)
Definition skip_line (l : lexer) : lexer :=
  next_while (fun r => negb (isEndOfLine r || (r =? eof)%Z)) l.

(** The backward scans: whether only spaces and tabs separate index [i] of the
    text from the line break (or the start of the text) before it. *)
Fixpoint onlySpaceBefore (s : string) (i : nat) : bool :=
  match i with
  | O => true
  | S i' =>
      match at_ s i' with
      | None => true
      | Some c =>
          if isEndOfLine (byteZ c) then true
          else if isSpace (byteZ c) then onlySpaceBefore s i' else false
      end
  end.

Definition lexConsumeComment (l : lexer) : lexer :=
  let l1 := skip_line (skip l) in
  emit (if onlySpaceBefore (input l1) (start l1) then itemComment else itemEOLComment) l1.

Definition isFullLineComment (l : lexer) : bool :=
  (peek l =? rHash)%Z && onlySpaceBefore (input l) (pos l).

Definition isCommentStart (l : lexer) : bool :=
  if negb (peek l =? rHash)%Z then false else
  match pos l with
  | O => true
  | S p =>
      match at_ (input l) p with
      | Some c => isSpace (byteZ c) || isEndOfLine (byteZ c)
      | None => false
      end
  end.

Definition lexConsumeEscape (l : lexer) : lexer := next_crlf l.

(** The look-ahead of [lexConsumeEscapeOrContinuation]: blanks after the
    backslash, then a comment, a line break or the end of the text. *)
Fixpoint continuationAhead (fuel : nat) (s : string) (idx : nat) : bool :=
  match fuel with
  | O => true
  | S f =>
      if String.length s <=? idx then true else
      let '(r, w) := rune_at s idx in
      if isSpace r then continuationAhead f s (idx + w)
      else (r =? rHash)%Z || isEndOfLine r || (r =? eof)%Z
  end.

Fixpoint continuation_loop (fuel : nat) (l : lexer) : lexer :=
  match fuel with
  | O => l
  | S f =>
      let r2 := peek l in
      if (r2 =? eof)%Z then l
      else if isSpace r2 then continuation_loop f (skip l)
      else if (r2 =? rHash)%Z then continuation_loop f (skip_line (skip l))
      else if isEndOfLine r2 then continuation_loop f (next_crlf l)
      else l
  end.

Definition lexConsumeContinuation (shouldIgnore : bool) (l : lexer) : lexer :=
  let l1 := skip l in
  let l2 := continuation_loop (S (rem l1)) l1 in
  if shouldIgnore then ignore l2 else l2.

Definition lexConsumeEscapeOrContinuation (l : lexer) : lexer :=
  if continuationAhead (S (rem l)) (input l) (S (pos l))
  then lexConsumeContinuation (pos l =? start l) l
  else next_crlf (skip l).

(** ** Quotes and shell-outs

    These return a Go error ([None] is nil).  [lexFuel] is the error of an
    exhausted recursion; [LexLoops.v] shows it never happens. *)

Inductive quoteError : Type :=
  | unclosedDouble | unclosedSingle | unclosedShell | lexFuel.

Definition quoteError_text (e : quoteError) : string :=
  match e with
  | unclosedDouble => "unclosed double quote"
  | unclosedSingle => "unclosed single quote"
  | unclosedShell => "unclosed shell substitution"
  | lexFuel => "out of fuel"
  end.

Fixpoint lexSingleQuoteBody (fuel : nat) (l : lexer) : option quoteError * lexer :=
  match fuel with
  | O => (Some lexFuel, l)
  | S f =>
      let '(r, l1) := next l in
      if (r =? eof)%Z then (Some unclosedSingle, l1)
      else if (r =? rSQuote)%Z then (None, l1)
      else if (r =? rBackslash)%Z then lexSingleQuoteBody f (lexConsumeEscape l1)
      else lexSingleQuoteBody f l1
  end.

Fixpoint lexDoubleQuoteBody (fuel : nat) (l : lexer) : option quoteError * lexer :=
  match fuel with
  | O => (Some lexFuel, l)
  | S f =>
      let '(r, l1) := next l in
      if (r =? eof)%Z then (Some unclosedDouble, l1)
      else if (r =? rDQuote)%Z then (None, l1)
      else if (r =? rBackslash)%Z then lexDoubleQuoteBody f (lexConsumeEscape l1)
      else if (r =? rDollar)%Z && (peek l1 =? rLParen)%Z then
        match lexShellOutBody f 1 (skip l1) with
        | (None, l2) => lexDoubleQuoteBody f l2
        | err => err
        end
      else lexDoubleQuoteBody f l1
  end

with lexShellOutBody (fuel : nat) (parenCount : nat) (l : lexer) : option quoteError * lexer :=
  match fuel with
  | O => (Some lexFuel, l)
  | S f =>
      match parenCount with
      | O => (None, l)
      | S p =>
          let '(r, l1) := next l in
          if (r =? eof)%Z then (Some unclosedShell, l1)
          else if (r =? rDQuote)%Z then
            match lexDoubleQuoteBody f l1 with
            | (None, l2) => lexShellOutBody f parenCount l2
            | err => err
            end
          else if (r =? rSQuote)%Z then
            match lexSingleQuoteBody f l1 with
            | (None, l2) => lexShellOutBody f parenCount l2
            | err => err
            end
          else if (r =? rDollar)%Z then
            if (peek l1 =? rLParen)%Z then lexShellOutBody f (S parenCount) (skip l1)
            else lexShellOutBody f parenCount l1
          else if (r =? rRParen)%Z then lexShellOutBody f p l1
          else if (r =? rBackslash)%Z then lexShellOutBody f parenCount (lexConsumeEscape l1)
          else lexShellOutBody f parenCount l1
      end
  end.

(** The fuel a call at this point of the text gets. *)
Definition quote_fuel (l : lexer) : nat := S (S (rem l)).

(** ** Indentation *)

(** [l.input[idx:]] after the line break that ends the current line. *)
Fixpoint after_line (s : string) : string :=
  match s with
  | "" => ""
  | String c s' =>
      if (byteZ c =? rNL)%Z then s'
      else if (byteZ c =? rCR)%Z then
        match s' with
        | String d s'' => if (byteZ d =? rNL)%Z then s'' else s'
        | "" => s'
        end
      else after_line s'
  end.

(** One line: whether it holds a comment, whether it is blank, its indentation,
    and the text after it. *)
Fixpoint scan_line (s : string) (isComment isEmpty : bool) (indent : nat)
    : bool * bool * nat * string :=
  match s with
  | "" => (isComment, isEmpty, indent, "")
  | String c s' =>
      if isEndOfLine (byteZ c) then (isComment, isEmpty, indent, after_line s)
      else if isSpace (byteZ c) then
        scan_line s' isComment isEmpty (if isEmpty then S indent else indent)
      else if (byteZ c =? rHash)%Z then scan_line s' true false indent
      else scan_line s' isComment false indent
  end.

Fixpoint scan_lines (fuel : nat) (s : string) : nat :=
  match fuel, s with
  | S f, String _ _ =>
      let '(isComment, isEmpty, indent, rest) := scan_line s false true 0 in
      if negb isComment && negb isEmpty then indent else scan_lines f rest
  | _, _ => 0
  end.

Definition peekNextNonCommentIndent (l : lexer) : nat :=
  let s := after_line (sdrop (pos l) (input l)) in
  scan_lines (String.length s) s.

Definition checkIndent (indent : nat) (l : lexer) : option stateFn * lexer :=
  let wasIndented := 1 <? indentLen l in
  if negb (peek l =? rHash)%Z then
    if negb (isEndOfLine (peek l)) && negb (peek l =? eof)%Z then
      let isIndented := 0 <? indent in
      if isIndented && negb wasIndented then
        let l1 := if indentLen l <? length (indentArr l)
                  then set_indent (<[indentLen l := 1]> (indentArr l)) (S (indentLen l)) l
                  else l in
        (None, emit itemIndent l1)
      else if negb isIndented && wasIndented then
        (Some lexDefault, emit itemDedent (set_indent (indentArr l) 1 l))
      else if negb isIndented && negb wasIndented then (Some lexDefault, l)
      else (None, l)
    else (None, l)
  else if negb (indent =? 0) then (None, ignore l)
  else if negb (peekNextNonCommentIndent l =? 0) then (None, ignore l)
  else if wasIndented then
    (Some lexDefault, emit itemDedent (set_indent (indentArr l) 1 l))
  else (None, l).

(** [for l.indentLen > 1 { l.indentLen--; l.emit(itemDedent) }] *)
Fixpoint dedent_all (n : nat) (l : lexer) : lexer :=
  match n with
  | S (S _ as m) => dedent_all m (emit itemDedent (set_indent (indentArr l) m l))
  | _ => l
  end.

(** ** State functions *)

Definition run_lexDefault (l : lexer) : option stateFn * lexer :=
  let r := peek l in
  if (r =? eof)%Z then (None, emit itemEOF l)
  else if isSpace r then (Some lexSpace, l)
  else if isEndOfLine r then (Some lexNL, l)
  else if (r =? rHash)%Z then (Some lexDefault, lexConsumeComment l)
  else (Some lexIdentifier, l).

Definition run_lexSpace (l : lexer) : option stateFn * lexer :=
  (Some lexDefault, emit itemWS (skipSpace l)).

Definition run_lexNL (l : lexer) : option stateFn * lexer :=
  (Some lexDefault, emit itemNL (next_crlf l)).

(** [l.indentArr[0] = 0; l.indentLen = 1] *)
Definition reset_indent (l : lexer) : lexer := set_indent (<[0 := 0]> (indentArr l)) 1 l.

Definition isIdentRune (r : Z) : bool := isAlphaNumeric r || (r =? rDash)%Z || (r =? rDot)%Z.

Definition lexUserCommandOrFunction (val : Cmd) (l : lexer) : option stateFn * lexer :=
  let l1 := next_while (fun r => isAlphaNumeric r || (r =? rDash)%Z || (r =? rUnderscore)%Z)
              (skip l) in
  let l2 := if (peek l1 =? rColon)%Z then skip l1 else l1 in
  let typ := if String.eqb val CmdCommand then itemUserCommand else itemFunction in
  (Some lexRecipe, reset_indent (emit typ l2)).

(** The text of the token being scanned, [l.input[l.start:l.pos]]. *)
Definition current (l : lexer) : string := slice (start l) (pos l) (input l).

Section StateFunctions.
Context `{Unicode}.

Definition run_lexIdentifier (l : lexer) : option stateFn * lexer :=
  let '(r, l1) := next l in
  if negb (isIdentRune r) then
    errorf ("unexpected character in identifier: " +:+ fmt_U r) l1
  else
    let l2 := next_while isIdentRune l1 in
    let val := current l2 in
    if String.eqb val CmdVersion then (Some lexGlobalCommandArgs, emit itemVersion l2)
    else if String.eqb val CmdProject then (Some lexGlobalCommandArgs, emit itemProject l2)
    else if (String.eqb val CmdCommand || String.eqb val CmdFunction) && isSpace (peek l2) then
      lexUserCommandOrFunction val l2
    else if (peek l2 =? rColon)%Z then
      (Some lexRecipe, reset_indent (emit itemTarget (skip l2)))
    else
      (Some lexCommandKeyword, set_cursor (start l2) (startLine l2) (startCol l2) (width l2) l2).

Definition run_lexRecipe (l : lexer) : option stateFn * lexer :=
  let '(nextState, l1) :=
    if col l =? 1 then
      let '(indent, l') := skipSpaceCount l in
      checkIndent indent (if start l' <? pos l' then ignore l' else l')
    else (None, l) in
  match nextState with
  | Some s => (Some s, l1)
  | None =>
      let r := peek l1 in
      if (r =? eof)%Z then (None, emit itemEOF (dedent_all (indentLen l1) l1))
      else if isSpace r then (Some lexRecipe, emit itemWS (skipSpace l1))
      else if isEndOfLine r then (Some lexRecipe, emit itemNL (next_crlf l1))
      else if (r =? rHash)%Z then (Some lexRecipe, lexConsumeComment l1)
      else (Some lexCommandKeyword, l1)
  end.

Definition isWordBoundary (p : nat) (l : lexer) : bool :=
  match at_ (input l) p with
  | None => true
  | Some c => isSpace (byteZ c) || isEndOfLine (byteZ c)
  end.

(** [l.isWordBoundary(l.pos+n) && strings.HasPrefix(l.input[l.pos:], suf)] *)
Definition second_word (suf : string) (l : lexer) : bool :=
  isWordBoundary (pos l + String.length suf) l && HasPrefix (sdrop (pos l) (input l)) suf.

(** [l.pos += n; l.col += n] *)
Definition jump (n : nat) (l : lexer) : lexer :=
  set_cursor (pos l + n) (line l) (col l + n) (width l) l.

(** The keywords of one word, with the token each one gives. *)
Definition simpleKeywords : list (Cmd * itemType) :=
  [(CmdLocally, itemLocally); (CmdExpose, itemExpose); (CmdVolume, itemVolume);
   (CmdLabel, itemLabel); (CmdBuild, itemBuild); (CmdUser, itemUser); (CmdCmd, itemCmd);
   (CmdEntrypoint, itemEntrypoint); (CmdAdd, itemAdd); (CmdStopSignal, itemStopSignal);
   (CmdOnBuild, itemOnBuild); (CmdHealthCheck, itemHealthCheck); (CmdShell, itemShell);
   (CmdDo, itemDo); (CmdCommand, itemCommand); (CmdFunction, itemFunctionKW);
   (CmdImport, itemImport); (CmdCache, itemCache); (CmdHost, itemHost);
   (CmdProject, itemProject); (CmdRun, itemRun); (CmdWorkdir, itemWorkdir);
   (CmdCopy, itemCopy); (CmdIf, itemIf); (CmdEnd, itemEnd); (CmdFor, itemFor);
   (CmdTry, itemTry); (CmdCatch, itemCatch); (CmdFinally, itemFinally);
   (CmdWith, itemWith); (CmdWait, itemWait)].

(** The keywords whose arguments are a key and a value. *)
Definition keyValueKeywords : list (Cmd * itemType) :=
  [(CmdEnv, itemEnv); (CmdArg, itemArg); (CmdSet, itemSet); (CmdLet, itemLet)].

Fixpoint keyword (val : Cmd) (l : list (Cmd * itemType)) : option itemType :=
  match l with
  | [] => None
  | (c, t) :: l => if String.eqb val c then Some t else keyword val l
  end.

Definition run_lexCommandKeyword (l0 : lexer) : option stateFn * lexer :=
  let l := next_while isAlphaNumeric l0 in
  let val := current l in
  let unknown := errorf ("unknown command keyword: " +:+ fmt_q val) l in
  let args t l' := (Some lexRecipeCommandArgs, emit t l') in
  if String.eqb val "SAVE" then
    if second_word " ARTIFACT" l then args itemSaveArtifact (jump 9 l)
    else if second_word " IMAGE" l then args itemSaveImage (jump 6 l)
    else unknown
  else if String.eqb val "GIT" then
    if second_word " CLONE" l then args itemGitClone (jump 6 l) else unknown
  else if String.eqb val CmdFrom then
    if second_word " DOCKERFILE" l then args itemFromDockerfile (jump 11 l) else args itemFrom l
  else if String.eqb val CmdElse then
    if second_word " IF" l then args itemElseIf (jump 3 l) else args itemElse l
  else
    match keyword val keyValueKeywords with
    | Some t => (Some lexKeyValueCommandArgs, emit t (set_keyValueCmdType val l))
    | None =>
        match keyword val simpleKeywords with
        | Some t => args t l
        | None => unknown
        end
    end.

(** One iteration of the loops of [lexRecipeCommandArgs] and
    [lexGlobalCommandArgs]: go on, or return the next state. *)
Inductive outcome : Type :=
  | Continue (l : lexer)
  | Return (s : option stateFn) (l : lexer).

Definition quoted (r : option quoteError * lexer) : outcome :=
  match r with
  | (None, l) => Continue l
  | (Some e, l) => let '(s, l') := errorf (quoteError_text e) l in Return s l'
  end.

(** The case [r == '#'], the same in both loops; [self] is the loop's state. *)
Definition args_comment (self : stateFn) (l : lexer) : outcome :=
  if negb (isCommentStart l) then Continue (skip l)
  else if isFullLineComment l then
    let l1 := skip_line (skip l) in
    let l2 := if isEndOfLine (peek l1) then next_crlf l1 else l1 in
    Continue (ignore l2)
  else
    let l1 := emit_pending itemAtom l in
    let isOnlySpace := onlySpaceBefore (input l1) (pos l1) in
    let l2 := lexConsumeComment l1 in
    let l3 := if isOnlySpace && isEndOfLine (peek l2) then next_crlf l2 else l2 in
    Return (Some self) l3.

(** The cases from [r == '#'] on, the same in both loops. *)
Definition args_text (self : stateFn) (r : Z) (l : lexer) : outcome :=
  if (r =? rHash)%Z then args_comment self l
  else if (r =? rBackslash)%Z then Continue (lexConsumeEscapeOrContinuation l)
  else if (r =? rDQuote)%Z then
    let l1 := skip l in quoted (lexDoubleQuoteBody (quote_fuel l1) l1)
  else if (r =? rSQuote)%Z then
    let l1 := skip l in quoted (lexSingleQuoteBody (quote_fuel l1) l1)
  else if (r =? rDollar)%Z then
    let l1 := skip l in
    if (peek l1 =? rLParen)%Z then
      let l2 := skip l1 in quoted (lexShellOutBody (quote_fuel l2) 1 l2)
    else Continue l1
  else Continue (skip l).

Definition recipe_args_step (l : lexer) : outcome :=
  let r := peek l in
  if (r =? eof)%Z then Return None (emit itemEOF (emit_pending itemAtom l))
  else if isSpace r then Return (Some lexRecipeSpaceArgs) (emit_pending itemAtom l)
  else if isEndOfLine r then
    Return (Some lexRecipe) (emit itemNL (next_crlf (emit_pending itemAtom l)))
  else args_text lexRecipeCommandArgs r l.

Definition global_args_step (l : lexer) : outcome :=
  let r := peek l in
  if (r =? eof)%Z then Return None (emit itemEOF (emit_pending itemAtom l))
  else if isSpace r then Return (Some lexGlobalSpaceArgs) (emit_pending itemAtom l)
  else if isEndOfLine r then Return (Some lexNL) (emit_pending itemAtom l)
  else args_text lexGlobalCommandArgs r l.

Fixpoint args_loop (step : lexer -> outcome) (fuel : nat) (l : lexer) : option stateFn * lexer :=
  match fuel with
  | O => (None, l)
  | S f =>
      match step l with
      | Continue l' => args_loop step f l'
      | Return s l' => (s, l')
      end
  end.

Definition run_lexRecipeCommandArgs (l : lexer) : option stateFn * lexer :=
  args_loop recipe_args_step (S (rem l)) l.

Definition run_lexGlobalCommandArgs (l : lexer) : option stateFn * lexer :=
  args_loop global_args_step (S (rem l)) l.

Definition run_lexRecipeSpaceArgs (l : lexer) : option stateFn * lexer :=
  (Some lexRecipeCommandArgs, emit itemWS (skipSpace l)).

Definition run_lexGlobalSpaceArgs (l : lexer) : option stateFn * lexer :=
  (Some lexGlobalCommandArgs, emit itemWS (skipSpace l)).

(** The runes that end a flag or a key of ENV, ARG, SET and LET. *)
Definition isKeyEnd (r : Z) : bool :=
  isSpace r || isEndOfLine r || (r =? eof)%Z || (r =? rHash)%Z || (r =? rEquals)%Z.

Definition isKeyStart (r : Z) : bool := isLetter r || (r =? rUnderscore)%Z.

Definition key_error (l : lexer) : option stateFn * lexer :=
  let l1 := next_while (fun r => negb (isKeyEnd r)) l in
  errorf ("invalid " +:+ keyValueCmdType l1 +:+ " key definition " +:+ current l1) l1.

Definition run_lexKeyValueCommandArgs (l0 : lexer) : option stateFn * lexer :=
  let l := emit_pending itemWS (skipSpace l0) in
  if (peek l =? rDash)%Z then
    (Some lexKeyValueCommandArgs, emit itemAtom (next_while (fun r => negb (isKeyEnd r)) l))
  else
    let r := peek l in
    if (r =? eof)%Z || isEndOfLine r || (r =? rHash)%Z then (Some lexRecipeCommandArgs, l)
    else if negb (isKeyStart r) then key_error l
    else
      let l1 := next_while isAlphaNumeric (skip l) in
      if negb (isKeyEnd (peek l1)) then key_error l1
      else
        let l2 := emit itemAtom l1 in
        if (peek l2 =? rEquals)%Z then (Some lexRecipeCommandArgs, emit itemAtom (skip l2))
        else (Some lexRecipeCommandArgs, l2).

(** Run one state function. *)
Definition run_state (s : stateFn) (l : lexer) : option stateFn * lexer :=
  match s with
  | lexDefault => run_lexDefault l
  | lexSpace => run_lexSpace l
  | lexNL => run_lexNL l
  | lexIdentifier => run_lexIdentifier l
  | lexRecipe => run_lexRecipe l
  | lexCommandKeyword => run_lexCommandKeyword l
  | lexRecipeCommandArgs => run_lexRecipeCommandArgs l
  | lexRecipeSpaceArgs => run_lexRecipeSpaceArgs l
  | lexKeyValueCommandArgs => run_lexKeyValueCommandArgs l
  | lexGlobalCommandArgs => run_lexGlobalCommandArgs l
  | lexGlobalSpaceArgs => run_lexGlobalSpaceArgs l
  end.

(** ** The scanner's interface *)

(** The body of [nextItem]'s loop: empty the queue, run the current state. *)
Definition refill (s : stateFn) (l : lexer) : lexer :=
  let '(s', l') := run_state s (set_items (itemsArr l) 0 0 l) in set_state s' l'.

Fixpoint refill_loop (fuel : nat) (l : lexer) : lexer :=
  match fuel with
  | O => l
  | S f =>
      if itemsStart l =? itemsEnd l then
        match state l with
        | Some s => refill_loop f (refill s l)
        | None => l
        end
      else l
  end.

(** State calls a scan can still make (see [LexInv.v]). *)
Definition refill_fuel (l : lexer) : nat := 5 * rem l + 6.

Definition nextItem (l0 : lexer) : item * lexer :=
  let l := refill_loop (refill_fuel l0) l0 in
  if itemsStart l <? itemsEnd l then
    let itm := nth (itemsStart l) (itemsArr l) zero_item in
    (itm, set_lastPos (item_pos itm) (set_items (itemsArr l) (S (itemsStart l)) (itemsEnd l) l))
  else (mkItem "" itemEOF (pos l) (line l) (col l), l).

End StateFunctions.

Definition lex (name input : string) : lexer :=
  mkLexer input name "" (Some lexDefault) (replicate 32 zero_item) (replicate 16 0)
    0 0 1 1 0 0 0 1 1 1 0 true.
