(* ===== verification/LexLoops.v ===== *)
(** * The lexer's cursor and its loops

    Coordinates of a position ([reach]), the relation "moves the cursor only
    forward, rune by rune" ([adv]) with a lemma per primitive of [Lex.v], and
    the proof that every fuelled loop has enough fuel: each satisfies the
    equation of the Go loop it translates. *)

From S2P Require Import Prelude GoStrings Token Lex.

(** ** Coordinates *)

(** [reach s p li co]: decoding the text rune by rune from its start arrives at
    byte [p], on line [li] and column [co] (both from 1, columns in runes). *)
Inductive reach (s : string) : nat -> nat -> nat -> Prop :=
  | reach_0 : reach s 0 1 1
  | reach_step p li co r w :
      reach s p li co -> p < String.length s -> rune_at s p = (r, w) ->
      reach s (p + w) (if (r =? rNL)%Z then S li else li)
                      (if (r =? rNL)%Z then 1 else S co).

Lemma sdrop_nonempty s p : p < String.length s -> sdrop p s <> "".
Proof. intros H. destruct (sdrop_lt p s H) as (c & _ & ->). done. Qed.

Lemma rune_at_spec s p r w :
  p < String.length s -> rune_at s p = (r, w) ->
  (0 <= r)%Z /\ 1 <= w /\ p + w <= String.length s /\
  ((r < RuneSelf)%Z -> w = 1 /\ exists c, at_ s p = Some c /\ byteZ c = r).
Proof.
  intros Hp Hr. pose proof (decode_spec _ _ _ (sdrop_nonempty s p Hp) Hr) as (H0 & Hw & Ha).
  rewrite length_sdrop in Hw. split_and!; try lia.
  intros H. destruct (Ha H) as (-> & c & s' & Hs & Hc). split; [done|]. exists c.
  rewrite at_sdrop, Hs. done.
Qed.

Lemma rune_at_byte s p c :
  at_ s p = Some c -> (byteZ c < RuneSelf)%Z -> rune_at s p = (byteZ c, 1).
Proof.
  intros Hc Hb. unfold rune_at. pose proof (at_Some_lt _ _ _ Hc) as Hp.
  destruct (sdrop_lt p s Hp) as (d & Hd & ->). rewrite Hd in Hc. simplify_eq.
  unfold DecodeRuneInString. by rewrite (proj2 (Z.ltb_lt _ _) Hb).
Qed.

Lemma reach_le s p li co : reach s p li co -> p <= String.length s.
Proof.
  induction 1; [lia|]. pose proof (rune_at_spec _ _ _ _ H0 H1) as (_ & _ & ? & _). lia.
Qed.

(** The [k]-th rune boundary, with its coordinates. *)
Fixpoint boundary (s : string) (k : nat) : nat * nat * nat :=
  match k with
  | O => (0, 1, 1)
  | S k =>
      let '(p, li, co) := boundary s k in
      let '(r, w) := rune_at s p in
      (p + w, if (r =? rNL)%Z then S li else li, if (r =? rNL)%Z then 1 else S co)
  end.

Lemma reach_boundary s p li co :
  reach s p li co ->
  exists k, boundary s k = (p, li, co) /\
    forall j, j < k -> (boundary s j).1.1 < p.
Proof.
  induction 1 as [|p li co r w Hr (k & Hk & Hlt) Hp Hw].
  - exists 0. split; [done|lia].
  - exists (S k). simpl. rewrite Hk, Hw. split; [done|]. intros j Hj.
    pose proof (rune_at_spec _ _ _ _ Hp Hw) as (_ & ? & _).
    destruct (decide (j = k)) as [->|]; [rewrite Hk; simpl; lia|].
    specialize (Hlt j ltac:(lia)). lia.
Qed.

(** Coordinates are a function of the position. *)
Lemma reach_fun s p li co li' co' :
  reach s p li co -> reach s p li' co' -> li = li' /\ co = co'.
Proof.
  intros (k & Hk & Hlt)%reach_boundary (k' & Hk' & Hlt')%reach_boundary.
  destruct (Nat.lt_trichotomy k k') as [H|[->|H]].
  - apply Hlt' in H. rewrite Hk in H. simpl in H. lia.
  - rewrite Hk in Hk'. by simplify_eq.
  - apply Hlt in H. rewrite Hk' in H. simpl in H. lia.
Qed.

(** ** Moves of the cursor *)

Definition cursor_ok (l : lexer) : Prop := reach (input l) (pos l) (line l) (col l).

(** Nothing but the cursor changes, it does not go back, and it stays on a rune
    boundary with the right coordinates. *)
Record adv (l l' : lexer) : Prop := mkAdv {
  adv_frame : l' = set_cursor (pos l') (line l') (col l') (width l') l;
  adv_pos : pos l <= pos l';
  adv_ok : cursor_ok l -> cursor_ok l'
}.

#[export] Instance adv_refl : Reflexive adv.
Proof. intros l. split; [by destruct l|done|done]. Qed.

#[export] Instance adv_trans : Transitive adv.
Proof.
  intros a b c [Hf1 Hp1 Ho1] [Hf2 Hp2 Ho2]. split; [|lia|auto].
  rewrite Hf2, Hf1. done.
Qed.

Lemma adv_input l l' : adv l l' -> input l' = input l.
Proof. intros [-> _ _]. done. Qed.

Lemma adv_rem l l' : adv l l' -> rem l' <= rem l.
Proof. intros H. unfold rem, input_len. rewrite (adv_input _ _ H). pose proof (adv_pos _ _ H). lia. Qed.

(** A move that consumes at least one byte of the text. *)
Definition adv1 (l l' : lexer) : Prop := adv l l' /\ rem l' < rem l.

Lemma adv1_adv l l' : adv1 l l' -> adv l l'.
Proof. by intros [? _]. Qed.

Lemma adv1_adv_trans a b c : adv1 a b -> adv b c -> adv1 a c.
Proof. intros [H1 H2] H3. split; [by etrans|]. apply adv_rem in H3. lia. Qed.

#[export] Hint Resolve adv1_adv adv_refl : lex.

(** *** Reading one rune *)

Lemma peek_next l : fst (next l) = peek l.
Proof.
  unfold next, peek, nextUnicode. destruct (at_ (input l) (pos l)) as [c|]; [|done].
  destruct (_ <? _)%Z; [done|]. by destruct (rune_at (input l) (pos l)).
Qed.

Lemma peek_eof l : peek l = eof <-> at_ (input l) (pos l) = None.
Proof.
  unfold peek, eof. destruct (at_ (input l) (pos l)) as [c|] eqn:E; [|done].
  split; [|done]. pose proof (byteZ_bound c). destruct (_ <? _)%Z; [lia|].
  destruct (rune_at (input l) (pos l)) as [r w] eqn:Er. simpl.
  apply rune_at_spec in Er; [|by eapply at_Some_lt]. lia.
Qed.

Lemma peek_eof_rem l : peek l = eof -> rem l = 0.
Proof.
  rewrite peek_eof. intros H. unfold rem, input_len.
  destruct (le_lt_dec (String.length (input l)) (pos l)) as [|Hlt]; [lia|].
  apply at_lt_Some in Hlt as [c Hc]. congruence.
Qed.

(** [next] as one decoding step. *)
Lemma next_decode l :
  pos l < input_len l ->
  exists r w, rune_at (input l) (pos l) = (r, w) /\
    next l = (r, if (r =? rNL)%Z
                 then set_cursor (pos l + w) (S (line l)) 1 w l
                 else set_cursor (pos l + w) (line l) (S (col l)) w l).
Proof.
  intros Hp. unfold next, nextUnicode. destruct (at_lt_Some _ _ Hp) as [c Hc]. rewrite Hc.
  destruct (byteZ c <? RuneSelf)%Z eqn:E; to_prop.
  - exists (byteZ c), 1. rewrite Nat.add_1_r. by rewrite (rune_at_byte _ _ _ Hc E).
  - destruct (rune_at (input l) (pos l)) as [r w]. eauto.
Qed.

Lemma next_adv l : adv l (snd (next l)).
Proof.
  destruct (le_lt_dec (input_len l) (pos l)) as [Hge|Hlt].
  - unfold next. destruct (at_ (input l) (pos l)) as [c|] eqn:E.
    + apply at_Some_lt in E. unfold input_len in Hge. lia.
    + by split.
  - destruct (next_decode l Hlt) as (r & w & Hr & ->). simpl.
    split; [by destruct (r =? rNL)%Z|destruct (r =? rNL)%Z; simpl; lia|].
    intros Hok. pose proof (reach_step _ _ _ _ _ _ Hok Hlt Hr) as Hs.
    unfold cursor_ok. by destruct (r =? rNL)%Z.
Qed.

Lemma skip_adv l : adv l (skip l).
Proof. apply next_adv. Qed.

Lemma skip_adv1 l : peek l <> eof -> adv1 l (skip l).
Proof.
  intros Hp. split; [apply next_adv|].
  assert (pos l < input_len l) as Hlt.
  { destruct (le_lt_dec (input_len l) (pos l)) as [Hge|]; [|done].
    exfalso. apply Hp, peek_eof. unfold input_len in Hge.
    destruct (at_ (input l) (pos l)) eqn:E; [|done]. apply at_Some_lt in E. lia. }
  unfold rem. pose proof (adv_input _ _ (skip_adv l)) as Hi.
  unfold input_len in *. rewrite Hi. unfold skip.
  destruct (next_decode l Hlt) as (r & w & Hr & ->). simpl.
  pose proof (rune_at_spec _ _ _ _ Hlt Hr) as (_ & ? & _).
  destruct (r =? rNL)%Z; simpl; lia.
Qed.

#[export] Hint Resolve skip_adv next_adv skip_adv1 : lex.

(** *** Loops over runes *)

Lemma next_while_fuel_adv f p l : adv l (next_while_fuel f p l).
Proof.
  revert l. induction f as [|f IH]; intros l; simpl; [reflexivity|].
  case_goal; [|reflexivity]. etrans; [apply skip_adv|apply IH].
Qed.

Lemma next_while_adv p l : adv l (next_while p l).
Proof. apply next_while_fuel_adv. Qed.

Lemma next_while_fuel_enough p f l :
  p eof = false -> rem l < f -> next_while_fuel f p l = next_while_fuel (S (rem l)) p l.
Proof.
  intros Hp. assert (forall f l, rem l < f -> forall g, rem l < g ->
    next_while_fuel f p l = next_while_fuel g p l) as Hgen; [|intros; apply Hgen; lia].
  clear f l. induction f as [|f IH]; intros l Hf [|g] Hg; try lia. simpl.
  destruct (p (peek l)) eqn:E; [|done].
  assert (peek l <> eof) as Hne by congruence. apply skip_adv1 in Hne as [_ Hr].
  apply IH; lia.
Qed.

(** The loop [for p(l.peek()) { l.next() }] unfolds once, for every [l]. *)
Lemma next_while_unfold p l :
  p eof = false -> next_while p l = if p (peek l) then next_while p (skip l) else l.
Proof.
  intros Hp. unfold next_while. simpl (next_while_fuel (S _) p l).
  destruct (p (peek l)) eqn:E; [|done].
  assert (peek l <> eof) as Hne by congruence. apply skip_adv1 in Hne as [_ Hr].
  by apply next_while_fuel_enough.
Qed.

Lemma next_while_adv1 p l :
  p (peek l) = true -> p eof = false -> adv1 l (next_while p l).
Proof.
  intros Hp He. rewrite next_while_unfold, Hp by done.
  eapply adv1_adv_trans; [apply skip_adv1; congruence|apply next_while_adv].
Qed.

(** What the loop leaves at the cursor. *)
Lemma next_while_stop p l : p eof = false -> p (peek (next_while p l)) = false.
Proof.
  intros Hp. remember (rem l) as n eqn:Hn. revert l Hn.
  induction (lt_wf n) as [n _ IH]. intros l ->.
  rewrite next_while_unfold by done. destruct (p (peek l)) eqn:E; [|done].
  assert (peek l <> eof) as Hne by congruence. apply skip_adv1 in Hne as [_ Hr].
  by eapply IH.
Qed.

Lemma isSpace_byte r : isSpace r = true -> (0 <= r < RuneSelf)%Z /\ (r =? rNL)%Z = false.
Proof. unfold isSpace, RuneSelf. intros. to_prop. split; [lia|]. apply Z.eqb_neq. lia. Qed.

(** A step of [skipSpace] is a move of the cursor. *)
Lemma space_step_adv1 l c :
  at_ (input l) (pos l) = Some c -> isSpace (byteZ c) = true ->
  adv1 l (set_cursor (S (pos l)) (line l) (S (col l)) (width l) l).
Proof.
  intros Hc Hs. apply isSpace_byte in Hs as [Hb Hn].
  pose proof (at_Some_lt _ _ _ Hc) as Hlt. split.
  - split; [done|simpl; lia|]. intros Hok.
    pose proof (reach_step _ _ _ _ _ _ Hok Hlt (rune_at_byte _ _ _ Hc ltac:(lia))) as Hst.
    rewrite Hn, Nat.add_1_r in Hst. exact Hst.
  - unfold rem, input_len. simpl. lia.
Qed.

Lemma skipSpace_fuel_adv f l : adv l (skipSpace_fuel f l).
Proof.
  revert l. induction f as [|f IH]; intros l; simpl; [reflexivity|].
  destruct (at_ (input l) (pos l)) as [c|] eqn:Hc; [|reflexivity].
  destruct (isSpace (byteZ c)) eqn:Hs; [|reflexivity].
  etrans; [apply adv1_adv; by eapply space_step_adv1|apply IH].
Qed.

Lemma skipSpace_adv l : adv l (skipSpace l).
Proof. apply skipSpace_fuel_adv. Qed.

Lemma peek_space_byte l :
  isSpace (peek l) = true ->
  exists c, at_ (input l) (pos l) = Some c /\ isSpace (byteZ c) = true.
Proof.
  intros Hs. pose proof (isSpace_byte _ Hs) as [Hb _]. revert Hs Hb. unfold peek.
  destruct (at_ (input l) (pos l)) as [c|] eqn:E; [|done].
  destruct (byteZ c <? RuneSelf)%Z eqn:Eb; [eauto|]. intros Hs Hb. exfalso.
  destruct (rune_at (input l) (pos l)) as [r w] eqn:Er. simpl in *.
  apply rune_at_spec in Er as (_ & _ & _ & Ha); [|by eapply at_Some_lt].
  destruct (Ha ltac:(lia)) as (_ & d & Hd & Hr). rewrite E in Hd. simplify_eq. to_prop. lia.
Qed.

Lemma skipSpace_adv1 l : isSpace (peek l) = true -> adv1 l (skipSpace l).
Proof.
  intros (c & Hc & Hs)%peek_space_byte. unfold skipSpace. simpl. rewrite Hc, Hs.
  eapply adv1_adv_trans; [by eapply space_step_adv1|apply skipSpace_fuel_adv].
Qed.

Lemma next_crlf_unfold l :
  next_crlf l = if (peek l =? rCR)%Z && (peek (skip l) =? rNL)%Z then skip (skip l) else skip l.
Proof. unfold next_crlf, skip. pose proof (peek_next l). destruct (next l). simpl in *. by subst. Qed.

Lemma next_crlf_adv l : adv l (next_crlf l).
Proof. rewrite next_crlf_unfold. case_goal; [etrans|]; apply skip_adv. Qed.

Lemma next_crlf_adv1 l : peek l <> eof -> adv1 l (next_crlf l).
Proof.
  intros H. rewrite next_crlf_unfold. case_goal; [|by apply skip_adv1].
  eapply adv1_adv_trans; [by apply skip_adv1|apply skip_adv].
Qed.

Lemma skip_line_adv l : adv l (skip_line l).
Proof. apply next_while_adv. Qed.

#[export] Hint Resolve next_while_adv skipSpace_adv next_crlf_adv skip_line_adv
  skipSpace_adv1 next_crlf_adv1 : lex.

(** The rest of a line stops at a line break or at the end of the text. *)
Lemma skip_line_stop l : isEndOfLine (peek (skip_line l)) = true \/ peek (skip_line l) = eof.
Proof.
  pose proof (next_while_stop (fun r => negb (isEndOfLine r || (r =? eof)%Z)) l eq_refl) as H.
  fold (skip_line l) in H. cbv beta in H. to_prop. destruct H as [H|H]; to_prop; auto.
Qed.

Lemma continuation_loop_adv f l : adv l (continuation_loop f l).
Proof.
  revert l. induction f as [|f IH]; intros l; simpl; [reflexivity|].
  repeat case_goal; try reflexivity; (etrans; [|apply IH]); auto with lex.
  etrans; [|apply skip_line_adv]. auto with lex.
Qed.

Lemma continuation_loop_enough f l :
  rem l < f -> continuation_loop f l = continuation_loop (S (rem l)) l.
Proof.
  assert (forall f l, rem l < f -> forall g, rem l < g ->
    continuation_loop f l = continuation_loop g l) as Hgen; [|intros; apply Hgen; lia].
  clear f l. induction f as [|f IH]; intros l Hf [|g] Hg; try lia. simpl.
  destruct (peek l =? eof)%Z eqn:Ee; [done|]. to_prop. apply skip_adv1 in Ee as Hs.
  repeat case_goal; try done.
  - destruct Hs. apply IH; lia.
  - pose proof (adv1_adv_trans _ _ _ Hs (skip_line_adv (skip l))) as [_ ?]. apply IH; lia.
  - destruct (next_crlf_adv1 _ Ee). apply IH; lia.
Qed.

(** The loop of [lexConsumeContinuation] unfolds once, for every [l]. *)
Lemma continuation_loop_unfold l :
  continuation_loop (S (rem l)) l =
    if (peek l =? eof)%Z then l
    else if isSpace (peek l) then continuation_loop (S (rem (skip l))) (skip l)
    else if (peek l =? rHash)%Z then
      let l' := skip_line (skip l) in continuation_loop (S (rem l')) l'
    else if isEndOfLine (peek l) then
      let l' := next_crlf l in continuation_loop (S (rem l')) l'
    else l.
Proof.
  simpl (continuation_loop (S (rem l)) l).
  destruct (peek l =? eof)%Z eqn:Ee; [done|]. to_prop. apply skip_adv1 in Ee as Hs.
  repeat case_goal; try done; simpl; apply continuation_loop_enough.
  - by destruct Hs.
  - by destruct (adv1_adv_trans _ _ _ Hs (skip_line_adv (skip l))).
  - by destruct (next_crlf_adv1 _ Ee).
Qed.

(** *** Quotes and shell-outs *)

(** Expose the rune read by [next]. *)
Ltac read_rune l :=
  let Hp := fresh "Hpk" in let Ha := fresh "Hadv" in
  pose proof (peek_next l) as Hp; pose proof (next_adv l) as Ha;
  let r := fresh "r" in let l1 := fresh "l1" in let E := fresh "En" in
  destruct (next l) as [r l1] eqn:E; simpl in Hp, Ha; subst r.

Lemma lexSingleQuoteBody_adv f l : adv l (snd (lexSingleQuoteBody f l)).
Proof.
  revert l. induction f as [|f IH]; intros l; simpl; [reflexivity|].
  read_rune l. repeat case_test; simpl; try done.
  - etrans; [done|]. etrans; [apply next_crlf_adv|apply IH].
  - etrans; [done|apply IH].
Qed.

Lemma lexQuotes_adv f :
  (forall l, adv l (snd (lexDoubleQuoteBody f l))) /\
  (forall p l, adv l (snd (lexShellOutBody f p l))).
Proof.
  induction f as [|f [IHd IHs]]; split; intros; simpl; try reflexivity.
  - read_rune l. repeat case_test; simpl; try done.
    + etrans; [done|]. etrans; [apply next_crlf_adv|apply IHd].
    + specialize (IHs 1 (skip l1)). destruct (lexShellOutBody f 1 (skip l1)) as [[e|] l2];
        simpl in *; (etrans; [done|]); (etrans; [apply skip_adv|]); [done|].
      etrans; [done|apply IHd].
    + etrans; [done|apply IHd].
  - destruct p as [|p]; [reflexivity|]. read_rune l. repeat case_test; simpl; try done.
    + specialize (IHd l1). destruct (lexDoubleQuoteBody f l1) as [[e|] l2]; simpl in *.
      * by etrans.
      * etrans; [done|]. etrans; [done|apply IHs].
    + pose proof (lexSingleQuoteBody_adv f l1) as Hs.
      destruct (lexSingleQuoteBody f l1) as [[e|] l2]; simpl in *.
      * by etrans.
      * etrans; [done|]. etrans; [done|apply IHs].
    + etrans; [done|]. etrans; [apply skip_adv|apply IHs].
    + etrans; [done|apply IHs].
    + etrans; [done|apply IHs].
    + etrans; [done|]. etrans; [apply next_crlf_adv|apply IHs].
    + etrans; [done|apply IHs].
Qed.

Lemma lexDoubleQuoteBody_adv f l : adv l (snd (lexDoubleQuoteBody f l)).
Proof. apply lexQuotes_adv. Qed.

Lemma lexShellOutBody_adv f p l : adv l (snd (lexShellOutBody f p l)).
Proof. apply lexQuotes_adv. Qed.

#[export] Hint Resolve lexSingleQuoteBody_adv lexDoubleQuoteBody_adv lexShellOutBody_adv : lex.

(** [next] on a rune that is not [eof] consumes input. *)
Lemma next_rem l r l1 : next l = (r, l1) -> r <> eof -> rem l1 < rem l.
Proof.
  intros En Hr. pose proof (peek_next l) as Hp. rewrite En in Hp. simpl in Hp. subst r.
  apply skip_adv1 in Hr as [_ Hr]. unfold skip in Hr. by rewrite En in Hr.
Qed.

Ltac rem_bounds :=
  repeat match goal with
  | H : (_ =? eof)%Z = false |- _ => apply Z.eqb_neq in H
  | H : next ?l = (?r, ?l1), Hn : ?r <> eof |- _ =>
      lazymatch goal with
      | _ : rem l1 < rem l |- _ => fail
      | _ => pose proof (next_rem _ _ _ H Hn)
      end
  end.

Lemma lexSingleQuoteBody_total f l :
  rem l < f -> fst (lexSingleQuoteBody f l) <> Some lexFuel.
Proof.
  revert l. induction f as [|f IH]; intros l Hf; simpl; [lia|].
  read_rune l. repeat case_test; simpl; try done; rem_bounds; apply IH.
  - unfold lexConsumeEscape. pose proof (adv_rem _ _ (next_crlf_adv l1)). lia.
  - lia.
Qed.

Lemma lexQuotes_total f :
  (forall l, rem l < f -> fst (lexDoubleQuoteBody f l) <> Some lexFuel) /\
  (forall p l, rem l < f -> fst (lexShellOutBody f p l) <> Some lexFuel).
Proof.
  induction f as [|f [IHd IHs]]; split; intros; try lia; simpl.
  - read_rune l. repeat case_test; simpl; try done; rem_bounds.
    + apply IHd. unfold lexConsumeEscape. pose proof (adv_rem _ _ (next_crlf_adv l1)). lia.
    + pose proof (adv_rem _ _ (skip_adv l1)).
      pose proof (lexShellOutBody_adv f 1 (skip l1)) as Ha%adv_rem.
      specialize (IHs 1 (skip l1) ltac:(lia)).
      destruct (lexShellOutBody f 1 (skip l1)) as [[e|] l2]; simpl in *; [done|].
      apply IHd. lia.
    + apply IHd. lia.
  - destruct p as [|p]; [done|]. read_rune l. repeat case_test; simpl; try done; rem_bounds.
    + pose proof (lexDoubleQuoteBody_adv f l1) as Ha%adv_rem. specialize (IHd l1 ltac:(lia)).
      destruct (lexDoubleQuoteBody f l1) as [[e|] l2]; simpl in *; [done|]. apply IHs. lia.
    + pose proof (lexSingleQuoteBody_adv f l1) as Ha%adv_rem.
      pose proof (lexSingleQuoteBody_total f l1 ltac:(lia)).
      destruct (lexSingleQuoteBody f l1) as [[e|] l2]; simpl in *; [done|]. apply IHs. lia.
    + apply IHs. pose proof (adv_rem _ _ (skip_adv l1)). lia.
    + apply IHs. lia.
    + apply IHs. lia.
    + apply IHs. unfold lexConsumeEscape. pose proof (adv_rem _ _ (next_crlf_adv l1)). lia.
    + apply IHs. lia.
Qed.

(** The scan from [l] to [l'] consumed something, and last the character [ch]. *)
Definition closing (ch : Z) (l l' : lexer) : Prop :=
  pos l < pos l' /\ exists c, at_ (input l) (Nat.pred (pos l')) = Some c /\ byteZ c = ch.

Lemma next_ascii l r l1 :
  next l = (r, l1) -> (0 <= r < RuneSelf)%Z -> closing r l l1 /\ pos l1 = S (pos l).
Proof.
  intros En Hr. assert (pos l < input_len l) as Hlt.
  { destruct (le_lt_dec (input_len l) (pos l)) as [Hge|]; [|done]. exfalso.
    unfold next in En. destruct (at_ (input l) (pos l)) eqn:E.
    - apply at_Some_lt in E. unfold input_len in Hge. lia.
    - unfold eof in En. simplify_eq. lia. }
  destruct (next_decode l Hlt) as (r' & w & Hw & Hn). rewrite Hn in En. simplify_eq.
  apply rune_at_spec in Hw as (_ & _ & _ & Ha); [|done].
  destruct (Ha ltac:(lia)) as (-> & c & Hc & Hb).
  destruct (r =? rNL)%Z; unfold closing; simpl; rewrite Nat.add_1_r; split;
    (split; [lia|eauto]) || done.
Qed.

Lemma closing_adv ch l l1 l' : adv l l1 -> closing ch l1 l' -> closing ch l l'.
Proof.
  intros Ha (Hp & c & Hc). rewrite (adv_input _ _ Ha) in Hc.
  split; [|eauto]. pose proof (adv_pos _ _ Ha). lia.
Qed.

Lemma lexSingleQuoteBody_closed f l l' :
  lexSingleQuoteBody f l = (None, l') -> closing rSQuote l l'.
Proof.
  revert l. induction f as [|f IH]; intros l; simpl; [done|].
  read_rune l. repeat case_test; try done; to_prop; intros H.
  - simplify_eq. apply next_ascii in En; [|rewrite E0; unfold RuneSelf; lia].
    rewrite E0 in En. apply En.
  - eapply closing_adv; [|by apply IH]. etrans; [done|apply next_crlf_adv].
  - by eapply closing_adv; [|apply IH].
Qed.

Lemma lexQuotes_closed f :
  (forall l l', lexDoubleQuoteBody f l = (None, l') -> closing rDQuote l l') /\
  (forall p l l', lexShellOutBody f (S p) l = (None, l') -> closing rRParen l l').
Proof.
  induction f as [|f [IHd IHs]]; split; intros *; simpl; try done; read_rune l;
    repeat case_test; try done; to_prop; intros Hq.
  - simplify_eq. apply next_ascii in En; [|rewrite E0; unfold RuneSelf; lia].
    rewrite E0 in En. apply En.
  - eapply closing_adv; [|by apply IHd]. etrans; [done|apply next_crlf_adv].
  - destruct (lexShellOutBody f 1 (skip l1)) as [[e|] l2] eqn:Es; [done|].
    eapply closing_adv; [|by apply IHd].
    etrans; [done|]. etrans; [apply skip_adv|].
    pose proof (lexShellOutBody_adv f 1 (skip l1)) as Ha. by rewrite Es in Ha.
  - by eapply closing_adv; [|apply IHd].
  - pose proof (lexDoubleQuoteBody_adv f l1) as Ha.
    destruct (lexDoubleQuoteBody f l1) as [[e|] l2] eqn:Es; [done|].
    eapply closing_adv; [|by eapply IHs]. by etrans.
  - pose proof (lexSingleQuoteBody_adv f l1) as Ha.
    destruct (lexSingleQuoteBody f l1) as [[e|] l2] eqn:Es; [done|].
    eapply closing_adv; [|by eapply IHs]. by etrans.
  - eapply closing_adv; [|by eapply IHs]. etrans; [done|apply skip_adv].
  - by eapply closing_adv; [|eapply IHs].
  - destruct p as [|p].
    + destruct f; simpl in Hq; [done|]. simplify_eq.
      apply next_ascii in En; [|rewrite E3; unfold RuneSelf; lia]. rewrite E3 in En. apply En.
    + by eapply closing_adv; [|eapply IHs].
  - eapply closing_adv; [|by eapply IHs]. etrans; [done|apply next_crlf_adv].
  - by eapply closing_adv; [|eapply IHs].
Qed.

Lemma next_eof_rem l r l1 : next l = (r, l1) -> peek l = eof -> rem l1 = 0.
Proof.
  intros En Hp. pose proof (adv_rem _ _ (next_adv l)) as Ha. rewrite En in Ha.
  apply peek_eof_rem in Hp. simpl in Ha. lia.
Qed.

Lemma lexSingleQuoteBody_error f l e l' :
  lexSingleQuoteBody f l = (Some e, l') -> e <> lexFuel -> e = unclosedSingle /\ rem l' = 0.
Proof.
  revert l. induction f as [|f IH]; intros l; simpl; [naive_solver|].
  read_rune l. repeat case_test; try done; to_prop; intros H He; eauto.
  simplify_eq. split; [done|]. by eapply next_eof_rem.
Qed.

Lemma lexQuotes_error f :
  (forall l e l', lexDoubleQuoteBody f l = (Some e, l') -> e <> lexFuel -> rem l' = 0) /\
  (forall p l e l', lexShellOutBody f p l = (Some e, l') -> e <> lexFuel -> rem l' = 0).
Proof.
  induction f as [|f [IHd IHs]]; split; intros *; simpl; try naive_solver.
  - read_rune l. repeat case_test; try done; to_prop; intros Hq He;
      try (by eauto); try (simplify_eq; by eapply next_eof_rem).
    destruct (lexShellOutBody f 1 (skip l1)) as [[e'|] l2] eqn:Es; simplify_eq; eauto.
  - destruct p as [|p]; [done|]. read_rune l.
    repeat case_test; try done; to_prop; intros Hq He;
      try (by eauto); try (simplify_eq; by eapply next_eof_rem).
    + destruct (lexDoubleQuoteBody f l1) as [[e'|] l2] eqn:Es; simplify_eq; eauto.
    + destruct (lexSingleQuoteBody f l1) as [[e'|] l2] eqn:Es; simplify_eq; eauto.
      by eapply lexSingleQuoteBody_error.
Qed.

(** *** The argument loops *)

Lemma lexConsumeContinuation_rem b l : peek l <> eof -> rem (lexConsumeContinuation b l) < rem l.
Proof.
  intros Hp. unfold lexConsumeContinuation.
  destruct (adv1_adv_trans _ _ _ (skip_adv1 l Hp) (continuation_loop_adv (S (rem (skip l))) (skip l))).
  by destruct b.
Qed.

Lemma lexConsumeEscapeOrContinuation_rem l :
  peek l <> eof -> rem (lexConsumeEscapeOrContinuation l) < rem l.
Proof.
  intros Hp. unfold lexConsumeEscapeOrContinuation. case_test.
  - by apply lexConsumeContinuation_rem.
  - apply (adv1_adv_trans _ _ _ (skip_adv1 l Hp) (next_crlf_adv (skip l))).
Qed.

Lemma quoted_Continue m l' : quoted m = Continue l' -> m = (None, l').
Proof. destruct m as [[e|] l]; simpl; intros; by simplify_eq. Qed.

(** Going round an argument loop consumes input. *)
Lemma args_text_continue self l l' :
  peek l <> eof -> args_text self (peek l) l = Continue l' -> rem l' < rem l.
Proof.
  intros Hp. pose proof (skip_adv1 l Hp) as [Ha Hr]. unfold args_text, args_comment.
  repeat case_test; intros Hc; try (simplify_eq; lia);
    try (apply quoted_Continue in Hc).
  - simplify_eq. unfold ignore, rem, input_len. simpl. fold (input_len l) (rem l).
    pose proof (adv_rem _ _ (skip_line_adv (skip l))).
    pose proof (adv_rem _ _ (next_crlf_adv (skip_line (skip l)))).
    unfold rem, input_len in *. lia.
  - simplify_eq. unfold ignore, rem, input_len. simpl. fold (input_len l) (rem l).
    pose proof (adv_rem _ _ (skip_line_adv (skip l))). unfold rem, input_len in *. lia.
  - simplify_eq. by apply lexConsumeEscapeOrContinuation_rem.
  - pose proof (lexDoubleQuoteBody_adv (quote_fuel (skip l)) (skip l)) as H%adv_rem.
    rewrite Hc in H. simpl in H. lia.
  - pose proof (lexSingleQuoteBody_adv (quote_fuel (skip l)) (skip l)) as H%adv_rem.
    rewrite Hc in H. simpl in H. lia.
  - pose proof (lexShellOutBody_adv (quote_fuel (skip (skip l))) 1 (skip (skip l))) as H%adv_rem.
    rewrite Hc in H. simpl in H. pose proof (adv_rem _ _ (skip_adv (skip l))). lia.
Qed.

Lemma recipe_args_continue l l' : recipe_args_step l = Continue l' -> rem l' < rem l.
Proof.
  unfold recipe_args_step. repeat case_test; try done. to_prop. by apply args_text_continue.
Qed.

Lemma global_args_continue l l' : global_args_step l = Continue l' -> rem l' < rem l.
Proof.
  unfold global_args_step. repeat case_test; try done. to_prop. by apply args_text_continue.
Qed.

Section ArgsLoop.
Variable step : lexer -> outcome.
Hypothesis step_consumes : forall l l', step l = Continue l' -> rem l' < rem l.

Lemma args_loop_enough f l :
  rem l < f -> args_loop step f l = args_loop step (S (rem l)) l.
Proof.
  assert (forall f l, rem l < f -> forall g, rem l < g ->
    args_loop step f l = args_loop step g l) as Hgen; [|intros; apply Hgen; lia].
  clear f l. induction f as [|f IH]; intros l Hf [|g] Hg; try lia. simpl.
  destruct (step l) as [l'|] eqn:E; [|done]. apply step_consumes in E. apply IH; lia.
Qed.

Lemma args_loop_unfold l :
  args_loop step (S (rem l)) l =
    match step l with
    | Continue l' => args_loop step (S (rem l')) l'
    | Return s l' => (s, l')
    end.
Proof.
  simpl. destruct (step l) as [l'|] eqn:E; [|done]. apply args_loop_enough. by apply step_consumes.
Qed.
End ArgsLoop.

(** Induction for a loop that goes round [step] until it returns. *)
Lemma args_loop_ind (step : lexer -> outcome) (P : lexer -> Prop) (Q : option stateFn -> lexer -> Prop) :
  (forall l l', step l = Continue l' -> rem l' < rem l) ->
  (forall l l', P l -> step l = Continue l' -> P l') ->
  (forall l s l', P l -> step l = Return s l' -> Q s l') ->
  forall l, P l -> Q (fst (args_loop step (S (rem l)) l)) (snd (args_loop step (S (rem l)) l)).
Proof.
  intros Hrem Hc Hr l. remember (rem l) as n eqn:Hn. revert l Hn.
  induction (lt_wf n) as [n _ IH]. intros l -> HP.
  rewrite args_loop_unfold by done. destruct (step l) as [l'|s l'] eqn:E; [|by eapply Hr].
  eapply IH; eauto.
Qed.

#[global] Arguments lexSingleQuoteBody : simpl never.
#[global] Arguments lexDoubleQuoteBody : simpl never.
#[global] Arguments lexShellOutBody : simpl never.

(** What a quoting routine returns: closed by [ch], or an error at the end of
    the text. *)
Definition quote_result (ch : Z) (l : lexer) (r : option quoteError * lexer) : Prop :=
  adv l (snd r) /\
  match r with
  | (None, l') => closing ch l l'
  | (Some e, l') => e <> lexFuel /\ rem l' = 0
  end.

(** The bodies of double quotes, single quotes and shell-outs, with their
    nesting, are scanned to the end for every text: each routine moves the
    cursor forward only, and stops either just after its closing character or
    at the end of the text with an "unclosed" error; the recursion between
    double quotes and shell-outs is never cut short. *)
Theorem quote_bodies_spec l :
  quote_result rDQuote l (lexDoubleQuoteBody (quote_fuel l) l) /\
  quote_result rSQuote l (lexSingleQuoteBody (quote_fuel l) l) /\
  quote_result rRParen l (lexShellOutBody (quote_fuel l) 1 l).
Proof.
  assert (rem l < quote_fuel l) as Hf by (unfold quote_fuel; lia).
  pose proof (proj1 (lexQuotes_total (quote_fuel l)) l Hf) as Hd.
  pose proof (lexSingleQuoteBody_total (quote_fuel l) l Hf) as Hs.
  pose proof (proj2 (lexQuotes_total (quote_fuel l)) 1 l Hf) as Hp.
  unfold quote_result. split_and!; auto with lex.
  - destruct (lexDoubleQuoteBody _ l) as [[e|] l'] eqn:E; simpl in *.
    + assert (e <> lexFuel) by congruence. split; [done|]. exact (proj1 (lexQuotes_error _) _ _ _ E ltac:(done)).
    + exact (proj1 (lexQuotes_closed _) _ _ E).
  - destruct (lexSingleQuoteBody _ l) as [[e|] l'] eqn:E; simpl in *.
    + assert (e <> lexFuel) by congruence. split; [done|]. by eapply lexSingleQuoteBody_error.
    + by eapply lexSingleQuoteBody_closed.
  - destruct (lexShellOutBody _ 1 l) as [[e|] l'] eqn:E; simpl in *.
    + assert (e <> lexFuel) by congruence. split; [done|]. exact (proj2 (lexQuotes_error _) _ _ _ _ E ltac:(done)).
    + exact (proj2 (lexQuotes_closed _) _ _ _ E).
Qed.
