(* ===== verification/LexInv.v ===== *)
(** * The lexer: invariant, tokens, progress

    What one call of a state function does ([run_state_ok]): it keeps the
    scanner's invariant, emits at most three tokens (so the array of 32 never
    overflows and no token is dropped), and the tokens are consecutive pieces of
    the text with their exact coordinates.  [run_state_progress] gives the
    measure that bounds the number of calls. *)

From S2P Require Import Prelude GoStrings Token Lex LexLoops.

(** ** Tokens as pieces of the text *)

Definition terminal (it : item) : Prop := Typ it = itemEOF \/ Typ it = itemError.

(** The token's value is the text at its position. *)
Definition is_span (s : string) (it : item) : Prop :=
  Val it = slice (item_pos it) (item_pos it + String.length (Val it)) s.

(** The byte after the token (an error's value is a message, not text). *)
Definition span_end (it : item) : nat :=
  if decide (Typ it = itemError) then item_pos it
  else item_pos it + String.length (Val it).

(** [spans s lo ts hi]: the tokens are pieces of [s] between [lo] and [hi], in
    order and disjoint, each with the coordinates of its first byte. *)
Inductive spans (s : string) : nat -> list item -> nat -> Prop :=
  | spans_nil lo hi : lo <= hi -> spans s lo [] hi
  | spans_cons lo it ts hi :
      lo <= item_pos it ->
      reach s (item_pos it) (Line it) (Col it) ->
      (Typ it <> itemError -> is_span s it) ->
      spans s (span_end it) ts hi ->
      spans s lo (it :: ts) hi.

Lemma spans_app s lo a mid b hi :
  spans s lo a mid -> spans s mid b hi -> spans s lo (a ++ b) hi.
Proof.
  induction 1; simpl; intros Hb; [|econstructor; eauto].
  inversion Hb; subst; econstructor; eauto; lia.
Qed.

Lemma spans_weaken s lo a hi lo' hi' :
  lo' <= lo -> hi <= hi' -> spans s lo a hi -> spans s lo' a hi'.
Proof.
  intros Hlo Hhi H. revert lo' Hlo. induction H; intros lo' Hlo; econstructor; eauto; lia.
Qed.

Lemma spans_le s lo a hi : spans s lo a hi -> lo <= hi.
Proof. induction 1; [done|]. unfold span_end in *. case_decide; lia. Qed.

(** ** The invariant *)

Record LInv (l : lexer) : Prop := mkLInv {
  li_cursor : cursor_ok l;
  li_start : reach (input l) (start l) (startLine l) (startCol l);
  li_le : start l <= pos l;
  li_items : length (itemsArr l) = 32;
  li_indents : length (indentArr l) = 16;
  li_indent : 1 <= indentLen l <= 2
}.

(** The tokens the array holds. *)
Definition queue (l : lexer) : list item := firstn (itemsEnd l) (itemsArr l).

(** [emits l l' ts]: the scanner appended [ts] to its queue. *)
Record emits (l l' : lexer) (ts : list item) : Prop := mkEmits {
  em_inv : LInv l';
  em_input : input l' = input l;
  em_start : itemsStart l' = itemsStart l;
  em_end : itemsEnd l' = itemsEnd l + length ts;
  em_queue : queue l' = queue l ++ ts;
  em_spans : spans (input l) (start l) ts (start l')
}.

(** A step that emits at most [n] tokens, none of them terminal. *)
Definition step (n : nat) (l l' : lexer) : Prop :=
  LInv l -> itemsEnd l + n <= 32 ->
  exists ts, emits l l' ts /\ length ts <= n /\ Forall (fun t => ~ terminal t) ts.

(** A last step: at most [n] tokens, the last one and only it terminal. *)
Definition final (n : nat) (l l' : lexer) : Prop :=
  LInv l -> itemsEnd l + n <= 32 ->
  exists ts t, emits l l' (ts ++ [t]) /\ length ts < n /\
    terminal t /\ Forall (fun t => ~ terminal t) ts.

Lemma emits_trans a b c t1 t2 : emits a b t1 -> emits b c t2 -> emits a c (t1 ++ t2).
Proof.
  intros [_ Hi1 Hs1 He1 Hq1 Hp1] [Hl2 Hi2 Hs2 He2 Hq2 Hp2]. split; try congruence; try done.
  - rewrite length_app. lia.
  - rewrite Hq2, Hq1. by rewrite app_assoc.
  - eapply spans_app; [done|]. by rewrite <- Hi1.
Qed.

Lemma step_trans n m a b c : step n a b -> step m b c -> step (n + m) a c.
Proof.
  intros H1 H2 Hl Hn. destruct (H1 Hl ltac:(lia)) as (t1 & He1 & Hn1 & Hf1).
  destruct (H2 (em_inv _ _ _ He1)) as (t2 & He2 & Hn2 & Hf2).
  { rewrite (em_end _ _ _ He1). lia. }
  exists (t1 ++ t2). split_and!; [by eapply emits_trans|rewrite length_app; lia|].
  by apply Forall_app.
Qed.

Lemma step_final n m a b c : step n a b -> final m b c -> final (n + m) a c.
Proof.
  intros H1 H2 Hl Hn. destruct (H1 Hl ltac:(lia)) as (t1 & He1 & Hn1 & Hf1).
  destruct (H2 (em_inv _ _ _ He1)) as (t2 & t & He2 & Hn2 & Ht & Hf2).
  { rewrite (em_end _ _ _ He1). lia. }
  exists (t1 ++ t2), t. rewrite <- app_assoc.
  split_and!; [by eapply emits_trans|rewrite length_app; lia|done|by apply Forall_app].
Qed.

Lemma step_weaken n m a b : n <= m -> step n a b -> step m a b.
Proof.
  intros Hnm H Hl Hm. destruct (H Hl ltac:(lia)) as (ts & He & Hn & Hf).
  exists ts. split_and!; [done|lia|done].
Qed.

Lemma final_weaken n m a b : n <= m -> final n a b -> final m a b.
Proof.
  intros Hnm H Hl Hm. destruct (H Hl ltac:(lia)) as (ts & t & He & Hn & Ht & Hf).
  exists ts, t. split_and!; [done|lia|done|done].
Qed.

(** ** Primitive steps *)

(** A change that keeps the invariant and touches neither the queue nor,
    backwards, the start of the pending token. *)
Lemma step_silent l l' :
  (LInv l -> LInv l') -> input l' = input l -> itemsStart l' = itemsStart l ->
  itemsEnd l' = itemsEnd l -> itemsArr l' = itemsArr l ->
  (LInv l -> start l <= start l') -> step 0 l l'.
Proof.
  intros Hi Hin Hs He Ha Hst Hl _. exists []. split_and!; [|done|done].
  split; simpl; auto; try lia.
  - unfold queue. rewrite He, Ha. by rewrite app_nil_r.
  - constructor. auto.
Qed.

Lemma step_refl l : step 0 l l.
Proof. by apply step_silent. Qed.

Lemma step_adv l l' : adv l l' -> step 0 l l'.
Proof.
  intros H. pose proof (adv_frame _ _ H) as Hf. apply step_silent.
  - intros [Hc Hs Hle Hi Hd Hn]. pose proof (adv_ok _ _ H Hc) as Hc'. pose proof (adv_pos _ _ H).
    split; try done; rewrite Hf; simpl; try done. lia.
  - by rewrite Hf.
  - by rewrite Hf.
  - by rewrite Hf.
  - by rewrite Hf.
  - intros _. by rewrite Hf.
Qed.

Lemma step_ignore l : step 0 l (ignore l).
Proof.
  apply step_silent; try done.
  - intros [Hc Hs Hle Hi Hd Hn]. by split.
  - apply li_le.
Qed.

Lemma step_set_indent arr n l :
  length arr = 16 -> 1 <= n <= 2 -> step 0 l (set_indent arr n l).
Proof. intros Ha Hn. apply step_silent; try done. intros []. by split. Qed.

Lemma step_set_keyValue c l : step 0 l (set_keyValueCmdType c l).
Proof. apply step_silent; try done. intros []. by split. Qed.

(** Falling back to the start of the pending token. *)
Lemma step_backtrack l w : step 0 l (set_cursor (start l) (startLine l) (startCol l) w l).
Proof. apply step_silent; try done. intros []. by split. Qed.

Lemma push_item_room it l : LInv l -> itemsEnd l < 32 ->
  push_item it l = set_items (<[itemsEnd l := it]> (itemsArr l)) (itemsStart l) (S (itemsEnd l)) l.
Proof.
  intros Hl Hn. unfold push_item. rewrite (li_items _ Hl). by rewrite (proj2 (Nat.ltb_lt _ _) Hn).
Qed.

Lemma queue_push it l : LInv l -> itemsEnd l < 32 ->
  firstn (S (itemsEnd l)) (<[itemsEnd l := it]> (itemsArr l)) = queue l ++ [it].
Proof. intros Hl Hn. apply lookup_insert_length. by rewrite (li_items _ Hl). Qed.

(** The token [emit] appends. *)
Definition pending (t : itemType) (l : lexer) : item :=
  mkItem (slice (start l) (pos l) (input l)) t (start l) (startLine l) (startCol l).

Lemma pending_length t l : LInv l -> String.length (Val (pending t l)) = pos l - start l.
Proof.
  intros Hl. apply length_slice. split; [apply (li_le _ Hl)|].
  eapply reach_le, (li_cursor _ Hl).
Qed.

(** [emit] in one equation, when there is room. *)
Lemma emit_room t l : LInv l -> itemsEnd l < 32 ->
  exists b, emit t l =
    set_isStartOfLine b (ignore (set_items (<[itemsEnd l := pending t l]> (itemsArr l))
                                   (itemsStart l) (S (itemsEnd l)) l)).
Proof.
  intros Hl Hn. unfold emit. rewrite push_item_room by done. fold (pending t l).
  repeat case_decide; eauto.
Qed.

Lemma emit_emits t l : t <> itemError -> LInv l -> itemsEnd l < 32 ->
  emits l (emit t l) [pending t l].
Proof.
  intros Ht Hl Hn. destruct (emit_room t l Hl Hn) as [b ->].
  pose proof (pending_length t l Hl) as Hlen. destruct Hl as [Hc Hst Hle Hi Hd Hx] eqn:El.
  split; simpl; try done; try lia.
  - split; simpl; try done. by rewrite length_insert.
  - apply (queue_push _ _ Hl Hn).
  - constructor; simpl; try done.
    + intros _. unfold is_span. rewrite Hlen. simpl. f_equal. lia.
    + constructor. unfold span_end. rewrite decide_False by done. rewrite Hlen. simpl. lia.
Qed.

Lemma step_emit t l : t <> itemError -> t <> itemEOF -> step 1 l (emit t l).
Proof.
  intros H1 H2 Hl Hn. exists [pending t l]. split_and!; [apply emit_emits; [done|done|lia]|done|].
  constructor; [|done]. intros [?|?]; done.
Qed.

Lemma step_emit_pending t l : t <> itemError -> t <> itemEOF -> step 1 l (emit_pending t l).
Proof.
  intros H1 H2. unfold emit_pending. case_test; [by apply step_emit|].
  eapply step_weaken; [|apply step_refl]. lia.
Qed.

Lemma final_emit_EOF l : final 1 l (emit itemEOF l).
Proof.
  intros Hl Hn. exists [], (pending itemEOF l). split_and!; simpl; auto.
  - apply emit_emits; [done|done|lia].
  - by left.
Qed.

Lemma final_errorf msg l s l' : errorf msg l = (s, l') -> s = None /\ final 1 l l'.
Proof.
  unfold errorf. intros H. simplify_eq. split; [done|]. intros Hl Hn.
  exists [], (mkItem msg itemError (start l) (startLine l) (startCol l)).
  split_and!; [|simpl; lia|by right|done].
  rewrite push_item_room by (try done; lia). destruct Hl as [Hc Hst Hle Hi Hd Hx] eqn:El.
  split; simpl; try done; try lia.
  - split; simpl; try done. by rewrite length_insert.
  - apply (queue_push _ _ Hl). lia.
  - constructor; simpl; try done. constructor. unfold span_end. by rewrite decide_True.
Qed.

(** ** Steps of the helpers *)

Lemma step_adv_l n a b c : adv a b -> step n b c -> step n a c.
Proof. intros H1 H2. apply step_adv in H1. by apply (step_trans 0 n _ _ _ H1). Qed.

Lemma step_adv_r n a b c : step n a b -> adv b c -> step n a c.
Proof.
  intros H1 H2. apply step_adv in H2.
  apply (step_weaken (n + 0)); [lia|]. by eapply step_trans.
Qed.

Lemma final_adv_l n a b c : adv a b -> final n b c -> final n a c.
Proof. intros H1 H2. apply step_adv in H1. by apply (step_final 0 n _ _ _ H1). Qed.

Lemma step_0_r n a b c : step n a b -> step 0 b c -> step n a c.
Proof. intros H1 H2. apply (step_weaken (n + 0)); [lia|]. by eapply step_trans. Qed.

Lemma step_lexConsumeComment l : step 1 l (lexConsumeComment l).
Proof.
  unfold lexConsumeComment. eapply step_adv_l; [apply skip_adv|].
  eapply step_adv_l; [apply skip_line_adv|]. case_test; by apply step_emit.
Qed.

Lemma step_lexConsumeContinuation b l : step 0 l (lexConsumeContinuation b l).
Proof.
  unfold lexConsumeContinuation. eapply step_adv_l; [apply skip_adv|].
  eapply step_adv_l; [apply continuation_loop_adv|]. destruct b; [apply step_ignore|apply step_refl].
Qed.

Lemma step_lexConsumeEscapeOrContinuation l : step 0 l (lexConsumeEscapeOrContinuation l).
Proof.
  unfold lexConsumeEscapeOrContinuation. case_test; [apply step_lexConsumeContinuation|].
  apply step_adv. etrans; [apply skip_adv|apply next_crlf_adv].
Qed.

Lemma step_reset_indent l : step 0 l (reset_indent l).
Proof.
  unfold reset_indent. apply step_silent; try done. intros []. split; simpl; try done; [|lia].
  by rewrite length_insert.
Qed.

(** What a call that returns the state [s] does. *)
Definition outcome_ok (s : option stateFn) (n : nat) (l l' : lexer) : Prop :=
  match s with
  | Some _ => step n l l'
  | None => final n l l'
  end.

Lemma outcome_ok_weaken s n m l l' : n <= m -> outcome_ok s n l l' -> outcome_ok s m l l'.
Proof. destruct s; [apply step_weaken|apply final_weaken]. Qed.

Lemma outcome_ok_step s n m a b c : step n a b -> outcome_ok s m b c -> outcome_ok s (n + m) a c.
Proof. destruct s; [apply step_trans|apply step_final]. Qed.

Lemma outcome_ok_adv s n a b c : adv a b -> outcome_ok s n b c -> outcome_ok s n a c.
Proof. destruct s; [apply step_adv_l|apply final_adv_l]. Qed.

(** ** State functions keep the invariant *)

Definition plain_byte (c : ascii) : bool :=
  (byteZ c <? RuneSelf)%Z && negb (byteZ c =? rNL)%Z.

Lemma reach_plain s p li co suf t :
  reach s p li co -> sdrop p s = suf +:+ t -> sall plain_byte suf = true ->
  reach s (p + String.length suf) li (co + String.length suf).
Proof.
  revert p co. induction suf as [|c suf IH]; intros p co Hr Hd Hs; simpl in *.
  - by rewrite !Nat.add_0_r.
  - to_prop. unfold plain_byte in *. to_prop.
    assert (p < String.length s) as Hlt.
    { pose proof (length_sdrop p s) as Hl. rewrite Hd in Hl. simpl in Hl. lia. }
    destruct (sdrop_lt p s Hlt) as (d & Hc & Hd'). rewrite Hd, sapp_cons in Hd'. simplify_eq.
    pose proof (reach_step _ _ _ _ _ _ Hr Hlt (rune_at_byte _ _ _ Hc ltac:(lia))) as Hst.
    rewrite (proj2 (Z.eqb_neq _ _) ltac:(done)), Nat.add_1_r in Hst.
    specialize (IH _ _ Hst ltac:(done) ltac:(done)).
    replace (p + S (String.length suf)) with (S p + String.length suf) by lia.
    by replace (co + S (String.length suf)) with (S co + String.length suf) by lia.
Qed.

Lemma jump_adv suf l :
  second_word suf l = true -> sall plain_byte suf = true -> adv l (jump (String.length suf) l).
Proof.
  intros H Hs. unfold second_word in H. to_prop. apply HasPrefix_spec in H0 as [t Ht].
  split; [done|simpl; lia|]. intros Hc. by eapply reach_plain.
Qed.

Lemma lexUserCommandOrFunction_ok val l s l' :
  lexUserCommandOrFunction val l = (s, l') -> outcome_ok s 3 l l'.
Proof.
  unfold lexUserCommandOrFunction. intros H. simplify_eq. apply (step_weaken 1); [lia|].
  eapply step_adv_l; [apply skip_adv|]. eapply step_adv_l; [apply next_while_adv|].
  eapply step_0_r; [|apply step_reset_indent].
  repeat case_test;
    first [by apply step_emit | eapply step_adv_l; [apply skip_adv|]; by apply step_emit].
Qed.

(** The tables give no terminal token. *)
Definition plain_type (t : itemType) : Prop := t <> itemError /\ t <> itemEOF.

Lemma keyword_Forall (P : itemType -> Prop) val l t :
  Forall (fun p => P p.2) l -> keyword val l = Some t -> P t.
Proof.
  induction 1 as [|[c u] l Hu _ IH]; simpl; [done|].
  destruct (String.eqb val c); [by intros [= <-]|auto].
Qed.

Lemma simpleKeywords_plain : Forall (fun p => plain_type p.2) simpleKeywords.
Proof. unfold simpleKeywords. repeat (constructor; [done|]). constructor. Qed.

Lemma keyValueKeywords_plain : Forall (fun p => plain_type p.2) keyValueKeywords.
Proof. unfold keyValueKeywords. repeat (constructor; [done|]). constructor. Qed.

Section RunState.
Context `{Unicode}.

Lemma run_lexDefault_ok l s l' : run_lexDefault l = (s, l') -> outcome_ok s 3 l l'.
Proof.
  unfold run_lexDefault. intros E. repeat case_hyp E; simplify_eq; simpl.
  - eapply final_weaken; [|apply final_emit_EOF]. lia.
  - eapply step_weaken; [|apply step_refl]. lia.
  - eapply step_weaken; [|apply step_refl]. lia.
  - eapply step_weaken; [|apply step_lexConsumeComment]. lia.
  - eapply step_weaken; [|apply step_refl]. lia.
Qed.

(** Emit one token after a move of the cursor. *)
Lemma step_adv_emit t l l1 :
  adv l l1 -> t <> itemError -> t <> itemEOF -> step 3 l (emit t l1).
Proof.
  intros. apply (step_weaken 1); [lia|]. eapply step_adv_l; [done|]. by apply step_emit.
Qed.

Lemma run_lexIdentifier_ok l s l' : run_lexIdentifier l = (s, l') -> outcome_ok s 3 l l'.
Proof.
  unfold run_lexIdentifier. read_rune l. intros E. repeat case_hyp E; simplify_eq;
    try apply final_errorf in E as [-> Hf]; simpl.
  - apply (final_weaken 1); [lia|]. by eapply final_adv_l.
  - apply step_adv_emit; try done. etrans; [done|apply next_while_adv].
  - apply step_adv_emit; try done. etrans; [done|apply next_while_adv].
  - eapply outcome_ok_adv; [|by eapply lexUserCommandOrFunction_ok].
    etrans; [done|apply next_while_adv].
  - eapply step_0_r; [|apply step_reset_indent].
    apply step_adv_emit; try done. etrans; [done|].
    etrans; [apply next_while_adv|apply skip_adv].
  - apply (step_weaken 0); [lia|]. eapply step_adv_l; [done|].
    eapply step_adv_l; [apply next_while_adv|apply step_backtrack].
Qed.

Lemma checkIndent_step indent l s l' : checkIndent indent l = (s, l') -> step 1 l l'.
Proof.
  unfold checkIndent. intros E. intros Hl.
  pose proof (li_indents _ Hl). pose proof (li_indent _ Hl). revert Hl.
  assert (step 1 l l) as Hrefl by (eapply step_weaken; [|apply step_refl]; lia).
  assert (step 1 l (ignore l)) as Hign by (eapply step_weaken; [|apply step_ignore]; lia).
  assert (step 1 l (emit itemDedent (set_indent (indentArr l) 1 l))) as Hded.
  { apply (step_trans 0 1 _ _ _ (step_set_indent _ 1 _ ltac:(done) ltac:(lia))).
    by apply step_emit. }
  repeat case_hyp E; simplify_eq; try done; to_prop.
  - eapply (step_trans 0 1); [|by apply step_emit].
    apply step_set_indent; [by rewrite length_insert|lia].
  - by apply step_emit.
Qed.

Lemma dedent_all_step l : step 1 l (dedent_all (indentLen l) l).
Proof.
  intros Hl. pose proof (li_indent _ Hl) as Hi. pose proof (li_indents _ Hl). revert Hl.
  destruct (indentLen l) as [|[|[|n]]] eqn:E; try lia; simpl.
  - eapply step_weaken; [|apply step_refl]. lia.
  - apply (step_trans 0 1 _ _ _ (step_set_indent _ 1 _ ltac:(done) ltac:(lia))).
    by apply step_emit.
Qed.

Lemma recipe_body_ok l s l' :
  (let r := peek l in
   if (r =? eof)%Z then (None, emit itemEOF (dedent_all (indentLen l) l))
   else if isSpace r then (Some lexRecipe, emit itemWS (skipSpace l))
   else if isEndOfLine r then (Some lexRecipe, emit itemNL (next_crlf l))
   else if (r =? rHash)%Z then (Some lexRecipe, lexConsumeComment l)
   else (Some lexCommandKeyword, l)) = (s, l') -> outcome_ok s 2 l l'.
Proof.
  cbv zeta. intros E. repeat case_hyp E; simplify_eq; simpl.
  - apply (step_final 1 1 _ _ _ (dedent_all_step l)). apply final_emit_EOF.
  - apply (step_weaken 1); [lia|]. eapply step_adv_l; [apply skipSpace_adv|by apply step_emit].
  - apply (step_weaken 1); [lia|]. eapply step_adv_l; [apply next_crlf_adv|by apply step_emit].
  - apply (step_weaken 1); [lia|]. apply step_lexConsumeComment.
  - eapply step_weaken; [|apply step_refl]. lia.
Qed.

Lemma run_lexRecipe_ok l s l' : run_lexRecipe l = (s, l') -> outcome_ok s 3 l l'.
Proof.
  unfold run_lexRecipe, skipSpaceCount. cbv zeta.
  destruct (if col l =? 1 then _ else _) as [ns l1] eqn:E1. intros E.
  assert (step 1 l l1) as H1.
  { case_hyp E1; [|simplify_eq; eapply step_weaken; [|apply step_refl]; lia].
    apply checkIndent_step in E1. eapply step_adv_l; [apply skipSpace_adv|].
    case_hyp E1; [|done]. by apply (step_trans 0 1 _ _ _ (step_ignore _)). }
  destruct ns as [ns|].
  - simplify_eq. simpl. eapply step_weaken; [|done]. lia.
  - apply recipe_body_ok in E. by apply (outcome_ok_step s 1 2 _ l1).
Qed.

Lemma run_lexCommandKeyword_ok l s l' : run_lexCommandKeyword l = (s, l') -> outcome_ok s 3 l l'.
Proof.
  unfold run_lexCommandKeyword. cbv zeta. pose proof (next_while_adv isAlphaNumeric l) as Ha.
  assert (forall msg s l', errorf msg (next_while isAlphaNumeric l) = (s, l') -> outcome_ok s 3 l l') as Herr.
  { intros msg s1 l1 [-> Hf]%final_errorf. apply (final_weaken 1); [lia|]. by eapply final_adv_l. }
  intros E. repeat case_hyp E; simplify_eq; eauto; simpl;
    try (apply step_adv_emit; try done; etrans; [done|];
         match goal with Hw : second_word ?suf _ = true |- _ => exact (jump_adv suf _ Hw eq_refl) end);
    try (by apply step_adv_emit).
  - apply (keyword_Forall _ _ _ _ keyValueKeywords_plain) in E4 as [? ?].
    apply (step_weaken 1); [lia|]. eapply step_adv_l; [done|].
    eapply (step_trans 0 1); [apply step_set_keyValue|by apply step_emit].
  - apply (keyword_Forall _ _ _ _ simpleKeywords_plain) in E5 as [? ?]. by apply step_adv_emit.
Qed.

Definition round_ok (l : lexer) (o : outcome) : Prop :=
  match o with
  | Continue l' => step 0 l l'
  | Return s l' => outcome_ok s 2 l l'
  end.

Lemma quoted_ok l m : adv l (snd m) -> round_ok l (quoted m).
Proof.
  destruct m as [[e|] l1]; intros Ha; [|by apply step_adv]. unfold quoted.
  destruct (errorf (quoteError_text e) l1) as [s l2] eqn:E.
  apply final_errorf in E as [-> Hf]. apply (final_weaken 1); [lia|].
  by eapply final_adv_l.
Qed.

Lemma step_pending_atom l : step 1 l (emit_pending itemAtom l).
Proof. by apply step_emit_pending. Qed.

Lemma args_comment_ok self l : round_ok l (args_comment self l).
Proof.
  unfold args_comment. repeat case_test; simpl.
  - apply step_adv, skip_adv.
  - eapply step_0_r; [|apply step_ignore]. apply step_adv.
    etrans; [apply skip_adv|]. etrans; [apply skip_line_adv|apply next_crlf_adv].
  - eapply step_0_r; [|apply step_ignore]. apply step_adv.
    etrans; [apply skip_adv|apply skip_line_adv].
  - eapply step_adv_r; [|apply next_crlf_adv].
    eapply (step_trans 1 1); [apply step_pending_atom|apply step_lexConsumeComment].
  - eapply (step_trans 1 1); [apply step_pending_atom|apply step_lexConsumeComment].
Qed.

Lemma args_text_ok self r l : round_ok l (args_text self r l).
Proof.
  unfold args_text. repeat case_test.
  - apply args_comment_ok.
  - apply step_lexConsumeEscapeOrContinuation.
  - apply quoted_ok. etrans; [apply skip_adv|apply lexDoubleQuoteBody_adv].
  - apply quoted_ok. etrans; [apply skip_adv|apply lexSingleQuoteBody_adv].
  - apply quoted_ok. etrans; [apply skip_adv|]. etrans; [apply skip_adv|apply lexShellOutBody_adv].
  - apply step_adv, skip_adv.
  - apply step_adv, skip_adv.
Qed.

Lemma recipe_args_step_ok l : round_ok l (recipe_args_step l).
Proof.
  unfold recipe_args_step. repeat case_test; try apply args_text_ok; simpl.
  - apply (step_final 1 1 _ _ _ (step_pending_atom l)).
    apply final_emit_EOF.
  - apply (step_weaken 1); [lia|]. apply step_pending_atom.
  - eapply (step_trans 1 1); [apply step_pending_atom|].
    eapply step_adv_l; [apply next_crlf_adv|by apply step_emit].
Qed.

Lemma global_args_step_ok l : round_ok l (global_args_step l).
Proof.
  unfold global_args_step. repeat case_test; try apply args_text_ok; simpl.
  - apply (step_final 1 1 _ _ _ (step_pending_atom l)).
    apply final_emit_EOF.
  - apply (step_weaken 1); [lia|]. apply step_pending_atom.
  - apply (step_weaken 1); [lia|]. apply step_pending_atom.
Qed.

Lemma args_loop_ok round l s l' :
  (forall l l', round l = Continue l' -> rem l' < rem l) ->
  (forall l, round_ok l (round l)) ->
  args_loop round (S (rem l)) l = (s, l') -> outcome_ok s 3 l l'.
Proof.
  intros Hc Hr E. pose proof (args_loop_ind round (step 0 l) (fun s l' => outcome_ok s 2 l l')
    Hc) as Hind. specialize (Hind) as Hi.
  assert (outcome_ok s 2 l l') as Hok.
  { change s with (fst (s, l')). change l' with (snd (s, l')) at 2. rewrite <- E.
    apply Hi; [| |apply step_refl].
    - intros l1 l2 H1 H2. specialize (Hr l1). rewrite H2 in Hr. by eapply step_0_r.
    - intros l1 s2 l2 H1 H2. specialize (Hr l1). rewrite H2 in Hr.
      by apply (outcome_ok_step s2 0 2 _ l1). }
  eapply outcome_ok_weaken; [|done]. lia.
Qed.

Lemma key_error_ok l s l' : key_error l = (s, l') -> outcome_ok s 1 l l'.
Proof.
  unfold key_error. intros [-> Hf]%final_errorf. simpl.
  eapply final_adv_l; [apply next_while_adv|done].
Qed.

Lemma run_lexKeyValueCommandArgs_ok l s l' :
  run_lexKeyValueCommandArgs l = (s, l') -> outcome_ok s 3 l l'.
Proof.
  unfold run_lexKeyValueCommandArgs.
  set (l1 := emit_pending itemWS (skipSpace l)).
  assert (step 1 l l1) as H1.
  { eapply step_adv_l; [apply skipSpace_adv|by apply step_emit_pending]. }
  intros Ek. apply (outcome_ok_step s 1 2 _ l1 _ H1). clearbody l1. revert Ek. repeat case_test; intros Ek;
    try apply key_error_ok in Ek; simplify_eq; simpl.
  - apply (step_weaken 1); [lia|]. eapply step_adv_l; [apply next_while_adv|by apply step_emit].
  - apply (step_weaken 0); [lia|]. apply step_refl.
  - eapply outcome_ok_weaken; [|done]. lia.
  - eapply outcome_ok_weaken; [|eapply outcome_ok_adv; [|done]]; [lia|].
    etrans; [apply skip_adv|apply next_while_adv].
  - eapply step_adv_l; [apply skip_adv|]. eapply step_adv_l; [apply next_while_adv|].
    eapply (step_trans 1 1); [by apply (step_emit itemAtom)|].
    eapply step_adv_l; [apply skip_adv|by apply step_emit].
  - apply (step_weaken 1); [lia|]. eapply step_adv_l; [apply skip_adv|].
    eapply step_adv_l; [apply next_while_adv|by apply step_emit].
Qed.

(** One call of any state function. *)
Lemma run_state_ok s l s' l' : run_state s l = (s', l') -> outcome_ok s' 3 l l'.
Proof.
  destruct s; simpl; intros E.
  - by apply run_lexDefault_ok.
  - unfold run_lexSpace in E. simplify_eq. apply step_adv_emit; try done. apply skipSpace_adv.
  - unfold run_lexNL in E. simplify_eq. apply step_adv_emit; try done. apply next_crlf_adv.
  - by apply run_lexIdentifier_ok.
  - by apply run_lexRecipe_ok.
  - by apply run_lexCommandKeyword_ok.
  - eapply args_loop_ok; [apply recipe_args_continue|apply recipe_args_step_ok|done].
  - unfold run_lexRecipeSpaceArgs in E. simplify_eq. apply step_adv_emit; try done. apply skipSpace_adv.
  - by apply run_lexKeyValueCommandArgs_ok.
  - eapply args_loop_ok; [apply global_args_continue|apply global_args_step_ok|done].
  - unfold run_lexGlobalSpaceArgs in E. simplify_eq. apply step_adv_emit; try done. apply skipSpace_adv.
Qed.

End RunState.

#[global] Arguments emit : simpl never.
#[global] Arguments lexConsumeComment : simpl never.

(** * The lexer: progress

    A measure on the scanner that every state call decreases, so that the state
    machine halts on every text, and the budget of tokens this gives. *)

(** ** What a state function may rely on when it is entered *)

Definition at_start (l : lexer) : Prop := start l = pos l.

Definition ready (s : stateFn) (l : lexer) : Prop :=
  match s with
  | lexSpace | lexRecipeSpaceArgs | lexGlobalSpaceArgs => at_start l /\ isSpace (peek l) = true
  | lexNL => at_start l /\ isEndOfLine (peek l) = true
  | lexIdentifier => at_start l /\ peek l <> eof
  | lexDefault | lexRecipe | lexCommandKeyword | lexKeyValueCommandArgs => at_start l
  | lexRecipeCommandArgs | lexGlobalCommandArgs => start l <= pos l
  end.

(** Calls a state may make before one of them consumes a byte. *)
Definition rank (s : stateFn) : nat :=
  match s with
  | lexRecipe => 4
  | lexDefault | lexKeyValueCommandArgs => 3
  | lexIdentifier | lexRecipeCommandArgs | lexGlobalCommandArgs => 2
  | lexSpace | lexNL | lexCommandKeyword | lexRecipeSpaceArgs | lexGlobalSpaceArgs => 1
  end.

Definition measure (s : stateFn) (l : lexer) : nat := rank s + 5 * rem l.

(** ** Steps that keep the cursor *)

Definition same_cursor (l l' : lexer) : Prop := input l' = input l /\ pos l' = pos l.

Lemma same_cursor_rem l l' : same_cursor l l' -> rem l' = rem l.
Proof. intros [Hi Hp]. unfold rem, input_len. by rewrite Hi, Hp. Qed.

Lemma same_cursor_peek l l' : same_cursor l l' -> peek l' = peek l.
Proof. intros [Hi Hp]. unfold peek. by rewrite Hi, Hp. Qed.

Lemma emit_cursor t l : same_cursor l (emit t l) /\ at_start (emit t l).
Proof.
  unfold emit, at_start, same_cursor, push_item. repeat case_goal; done.
Qed.

Lemma emit_rem t l : rem (emit t l) = rem l.
Proof. apply same_cursor_rem, emit_cursor. Qed.

Lemma emit_peek t l : peek (emit t l) = peek l.
Proof. apply same_cursor_peek, emit_cursor. Qed.

Lemma emit_at_start t l : at_start (emit t l).
Proof. apply emit_cursor. Qed.

Lemma emit_pending_cursor t l :
  start l <= pos l -> same_cursor l (emit_pending t l) /\ at_start (emit_pending t l).
Proof.
  intros Hle. unfold emit_pending. case_test; [apply emit_cursor|]. to_prop.
  split; [done|]. unfold at_start. lia.
Qed.

Lemma emit_pending_rem t l : rem (emit_pending t l) = rem l.
Proof. unfold emit_pending. case_test; [apply emit_rem|done]. Qed.

Lemma emit_pending_peek t l : peek (emit_pending t l) = peek l.
Proof. unfold emit_pending. case_test; [apply emit_peek|done]. Qed.

Lemma at_start_le l : at_start l -> start l <= pos l.
Proof. unfold at_start. lia. Qed.

Lemma adv_le l l' : adv l l' -> start l <= pos l -> start l' <= pos l'.
Proof.
  intros H Hle. pose proof (adv_pos _ _ H). rewrite (adv_frame _ _ H). simpl. lia.
Qed.

Lemma lexConsumeComment_rem l : peek l <> eof -> rem (lexConsumeComment l) < rem l.
Proof.
  intros H. unfold lexConsumeComment. rewrite emit_rem.
  apply (adv1_adv_trans _ _ _ (skip_adv1 l H) (skip_line_adv (skip l))).
Qed.

Lemma lexConsumeComment_at_start l : at_start (lexConsumeComment l).
Proof. apply emit_at_start. Qed.

#[export] Hint Resolve emit_at_start at_start_le lexConsumeComment_at_start : lex.

Lemma isEndOfLine_neq_eof l : isEndOfLine (peek l) = true -> peek l <> eof.
Proof. intros H E. by rewrite E in H. Qed.

Lemma isSpace_neq_eof l : isSpace (peek l) = true -> peek l <> eof.
Proof. intros H E. by rewrite E in H. Qed.

(** ** The argument loops *)

Lemma lexConsumeEscapeOrContinuation_le l :
  start l <= pos l -> start (lexConsumeEscapeOrContinuation l) <= pos (lexConsumeEscapeOrContinuation l).
Proof.
  intros Hle. unfold lexConsumeEscapeOrContinuation, lexConsumeContinuation. repeat case_test.
  - simpl. lia.
  - eapply adv_le; [|done]. etrans; [apply skip_adv|apply continuation_loop_adv].
  - eapply adv_le; [|done]. etrans; [apply skip_adv|apply next_crlf_adv].
Qed.

(** What a round of an argument loop returns, from a cursor with [n] bytes left. *)
Definition round_progress (n : nat) (o : outcome) : Prop :=
  match o with
  | Continue l' => start l' <= pos l'
  | Return (Some s) l' => ready s l' /\ measure s l' < 2 + 5 * n
  | Return None _ => True
  end.

Lemma quoted_progress n m : start (snd m) <= pos (snd m) -> round_progress n (quoted m).
Proof. by destruct m as [[e|] l]; simpl. Qed.

Lemma args_text_progress self l :
  self = lexRecipeCommandArgs \/ self = lexGlobalCommandArgs ->
  start l <= pos l -> peek l <> eof -> round_progress (rem l) (args_text self (peek l) l).
Proof.
  intros Hself Hle Hne. unfold args_text, args_comment.
  assert (forall l', adv l l' -> start l' <= pos l') as Hadv by (intros; by eapply adv_le).
  repeat case_test; simpl; try (apply quoted_progress); auto with lex.
  - assert (peek (emit_pending itemAtom l) <> eof) as He by by rewrite emit_pending_peek.
    pose proof (lexConsumeComment_rem _ He) as Hr. rewrite emit_pending_rem in Hr.
    pose proof (lexConsumeComment_at_start (emit_pending itemAtom l)) as Hs.
    set (l1 := lexConsumeComment (emit_pending itemAtom l)) in *.
    pose proof (adv_rem _ _ (next_crlf_adv l1)).
    assert (start (next_crlf l1) <= pos (next_crlf l1)).
    { eapply adv_le; [apply next_crlf_adv|auto with lex]. }
    unfold measure. destruct Hself as [-> | ->]; simpl; split; done || lia.
  - assert (peek (emit_pending itemAtom l) <> eof) as He by by rewrite emit_pending_peek.
    pose proof (lexConsumeComment_rem _ He) as Hr. rewrite emit_pending_rem in Hr.
    pose proof (lexConsumeComment_at_start (emit_pending itemAtom l)) as Hs%at_start_le.
    unfold measure. destruct Hself as [-> | ->]; simpl; split; done || lia.
  - by apply lexConsumeEscapeOrContinuation_le.
  - apply Hadv. etrans; [apply skip_adv|apply lexDoubleQuoteBody_adv].
  - apply Hadv. etrans; [apply skip_adv|apply lexSingleQuoteBody_adv].
  - apply Hadv. etrans; [apply skip_adv|]. etrans; [apply skip_adv|apply lexShellOutBody_adv].
Qed.

Lemma recipe_args_progress l : start l <= pos l -> round_progress (rem l) (recipe_args_step l).
Proof.
  intros Hle. pose proof (emit_pending_cursor itemAtom l Hle) as [Hc Hs].
  pose proof (same_cursor_rem _ _ Hc) as Hr. pose proof (same_cursor_peek _ _ Hc) as Hp.
  unfold recipe_args_step. repeat case_test; simpl; unfold measure; simpl; to_prop.
  - done.
  - rewrite Hp. split_and!; try done. lia.
  - assert (peek (emit_pending itemAtom l) <> eof) as Hne by by rewrite Hp.
    pose proof (next_crlf_adv1 _ Hne) as [_ ?]. rewrite emit_rem. split; [apply emit_at_start|lia].
  - apply args_text_progress; auto.
Qed.

Lemma global_args_progress l : start l <= pos l -> round_progress (rem l) (global_args_step l).
Proof.
  intros Hle. pose proof (emit_pending_cursor itemAtom l Hle) as [Hc Hs].
  pose proof (same_cursor_rem _ _ Hc) as Hr. pose proof (same_cursor_peek _ _ Hc) as Hp.
  unfold global_args_step. repeat case_test; simpl; unfold measure; simpl; to_prop.
  - done.
  - rewrite Hp. split_and!; try done. lia.
  - rewrite Hp. split_and!; try done. lia.
  - apply args_text_progress; auto.
Qed.

Lemma args_loop_progress round l s l' :
  (forall l l', round l = Continue l' -> rem l' < rem l) ->
  (forall l, start l <= pos l -> round_progress (rem l) (round l)) ->
  start l <= pos l -> args_loop round (S (rem l)) l = (Some s, l') ->
  ready s l' /\ measure s l' < 2 + 5 * rem l.
Proof.
  intros Hc Hr Hle E.
  pose proof (args_loop_ind round (fun l1 => start l1 <= pos l1 /\ rem l1 <= rem l)
    (fun o l1 => match o with
                 | Some s => ready s l1 /\ measure s l1 < 2 + 5 * rem l
                 | None => True end) Hc) as Hi.
  assert (start l <= pos l /\ rem l <= rem l) as H0 by lia.
  specialize (Hi) with (3 := H0). rewrite E in Hi. apply Hi; clear Hi E H0.
  - intros l1 l2 [H1 H2] E. specialize (Hr l1 H1). apply Hc in E as Hlt. rewrite E in Hr.
    simpl in Hr. lia.
  - intros l1 [s1|] l2 [H1 H2] E; [|done]. specialize (Hr l1 H1). rewrite E in Hr.
    destruct Hr as [? ?]. split; [done|]. lia.
Qed.

(** ** The other states *)

Lemma reset_indent_rem l : rem (reset_indent l) = rem l.
Proof. done. Qed.

Lemma reset_indent_at_start t l : at_start (reset_indent (emit t l)).
Proof. apply emit_at_start. Qed.

Lemma lexUserCommandOrFunction_progress val l s l' :
  peek l <> eof -> lexUserCommandOrFunction val l = (Some s, l') ->
  ready s l' /\ measure s l' < 5 * rem l.
Proof.
  intros Hne. unfold lexUserCommandOrFunction.
  set (p := fun r => _). pose proof (skip_adv1 l Hne) as Hs.
  pose proof (adv1_adv_trans _ _ _ Hs (next_while_adv p (skip l))) as [_ H1].
  set (l1 := next_while p (skip l)) in *. clearbody l1.
  pose proof (adv_rem _ _ (skip_adv l1)).
  intros E. injection E as <- <-. unfold measure.
  rewrite reset_indent_rem, emit_rem. split; [apply reset_indent_at_start|].
  case_test; simpl; lia.
Qed.

Section Progress.
Context `{Unicode}.

Lemma run_lexIdentifier_progress l s l' :
  at_start l -> peek l <> eof -> run_lexIdentifier l = (Some s, l') ->
  ready s l' /\ measure s l' < 2 + 5 * rem l.
Proof.
  intros Hs Hne. unfold run_lexIdentifier. pose proof (skip_adv1 l Hne) as Hsk.
  unfold skip in Hsk. destruct (next l) as [r l1]. simpl in Hsk.
  pose proof (adv1_adv_trans _ _ _ Hsk (next_while_adv isIdentRune l1)) as [Ha2 H2].
  set (l2 := next_while isIdentRune l1) in *. clearbody l2.
  pose proof (adv_rem _ _ (skip_adv l2)) as H3.
  repeat case_test; intros E'; try done; unfold measure.
  - injection E' as <- <-. rewrite emit_rem. split; [apply at_start_le, emit_at_start|simpl; lia].
  - injection E' as <- <-. rewrite emit_rem. split; [apply at_start_le, emit_at_start|simpl; lia].
  - to_prop. apply lexUserCommandOrFunction_progress in E' as [? Hm]; [|by apply isSpace_neq_eof].
    unfold measure in Hm. split; [done|lia].
  - injection E' as <- <-. rewrite reset_indent_rem, emit_rem.
    split; [apply reset_indent_at_start|simpl; lia].
  - injection E' as <- <-. pose proof (adv_frame _ _ Ha2) as Hf. pose proof (adv_input _ _ Ha2) as Hi.
    assert (start l2 = pos l) as Hst by (rewrite Hf; exact Hs).
    unfold at_start, rem, input_len. simpl. unfold at_start. simpl. rewrite Hi, Hst. split; [done|lia].
Qed.

Lemma checkIndent_cursor indent l s l' :
  at_start l -> checkIndent indent l = (s, l') ->
  at_start l' /\ rem l' = rem l /\ (forall x, s = Some x -> x = lexDefault).
Proof.
  intros Hs. unfold checkIndent.
  assert (forall t arr n, at_start (emit t (set_indent arr n l)) /\
            rem (emit t (set_indent arr n l)) = rem l) as He.
  { intros. rewrite emit_rem. split; [apply emit_at_start|done]. }
  pose proof (emit_rem itemIndent l). pose proof (emit_at_start itemIndent l).
  intros E. repeat case_hyp E; simplify_eq; split_and!; try done; try apply He; naive_solver.
Qed.

Lemma run_lexRecipe_progress l s l' :
  at_start l -> run_lexRecipe l = (Some s, l') ->
  ready s l' /\ measure s l' < 4 + 5 * rem l.
Proof.
  intros Hs. unfold run_lexRecipe, skipSpaceCount. cbv zeta.
  destruct (if col l =? 1 then _ else _) as [ns l1] eqn:E1.
  assert (at_start l1 /\ rem l1 <= rem l /\ (forall x, ns = Some x -> x = lexDefault)) as (Ha & Hr & Hd).
  { case_hyp E1; [|simplify_eq; split_and!; [done|lia|done]].
    pose proof (skipSpace_adv l) as Hk. pose proof (adv_rem _ _ Hk).
    assert (start (skipSpace l) = pos l) as Hst by (rewrite (adv_frame _ _ Hk); exact Hs).
    pose proof (adv_pos _ _ Hk). case_hyp E1; apply checkIndent_cursor in E1 as (? & Hq & ?);
      try done.
    - unfold rem, input_len in *. simpl in Hq. split_and!; [done|lia|done].
    - split_and!; [done|lia|done].
    - to_prop. unfold at_start. lia. }
  destruct ns as [ns|].
  - intros E. simplify_eq. rewrite (Hd s eq_refl). unfold measure. simpl. split; [done|lia].
  - unfold measure. repeat case_test; intros E'; simplify_eq; simpl; to_prop.
    + rewrite emit_rem. destruct (skipSpace_adv1 l1 ltac:(done)). split; [apply emit_at_start|lia].
    + rewrite emit_rem. destruct (next_crlf_adv1 l1 ltac:(by apply isEndOfLine_neq_eof)).
      split; [apply emit_at_start|lia].
    + pose proof (lexConsumeComment_rem l1 ltac:(done)). split; [auto with lex|lia].
    + split; [done|lia].
Qed.

Lemma run_lexCommandKeyword_progress l s l' :
  at_start l -> run_lexCommandKeyword l = (Some s, l') ->
  ready s l' /\ measure s l' < 1 + 5 * rem l.
Proof.
  intros Hs. unfold run_lexCommandKeyword.
  destruct (isAlphaNumeric (peek l)) eqn:Ep.
  2:{ rewrite next_while_unfold, Ep by done. unfold current. rewrite Hs, slice_same. done. }
  pose proof (next_while_adv1 isAlphaNumeric l Ep eq_refl) as [_ Hr].
  set (l1 := next_while isAlphaNumeric l) in *. clearbody l1. cbv zeta.
  assert (forall t l2, rem l2 <= rem l1 ->
    start (emit t l2) <= pos (emit t l2) /\ 2 + 5 * rem (emit t l2) < 1 + 5 * rem l) as Hem.
  { intros t l2 H2. rewrite emit_rem. split; [apply at_start_le, emit_at_start|lia]. }
  assert (forall n, rem (jump n l1) <= rem l1) as Hj.
  { intros n. unfold rem, input_len, jump. simpl. lia. }
  repeat case_goal; intros E'; simplify_eq; unfold measure; cbn [ready rank]; try (apply Hem; (apply Hj || done)).
  rewrite emit_rem. split; [apply emit_at_start|]. unfold rem, input_len in *. simpl. lia.
Qed.

Lemma run_lexKeyValueCommandArgs_progress l s l' :
  at_start l -> run_lexKeyValueCommandArgs l = (Some s, l') ->
  ready s l' /\ measure s l' < 3 + 5 * rem l.
Proof.
  intros Hs. unfold run_lexKeyValueCommandArgs.
  pose proof (adv_le _ _ (skipSpace_adv l) (at_start_le _ Hs)) as Hle.
  pose proof (emit_pending_cursor itemWS _ Hle) as [Hc Ha]. apply same_cursor_rem in Hc.
  pose proof (adv_rem _ _ (skipSpace_adv l)).
  set (l1 := emit_pending itemWS (skipSpace l)) in *. clearbody l1. unfold measure, key_error.
  pose proof (adv_rem _ _ (next_while_adv isAlphaNumeric (skip l1))).
  pose proof (adv_rem _ _ (skip_adv l1)).
  pose proof (next_while_adv1 (fun r => negb (isKeyEnd r)) l1) as Hflag.
  cbv zeta. set (l2 := next_while isAlphaNumeric (skip l1)) in *. clearbody l2.
  set (l3 := next_while _ l1) in *. clearbody l3.
  pose proof (adv_rem _ _ (skip_adv (emit itemAtom l2))) as Hk. rewrite emit_rem in Hk.
  repeat case_test; intros E'; simplify_eq; cbn [ready rank]; to_prop; rewrite ?emit_rem.
  - split; [apply emit_at_start|]. destruct Hflag as [_ ?]; [|done|lia].
    match goal with Hp : peek l1 = _ |- _ => by rewrite Hp end.
  - split; [auto with lex|lia].
  - split; [auto with lex|lia].
  - split; [auto with lex|lia].
Qed.

(** Every call of a state function leaves the scanner ready for the state it
    returns, and decreases the measure. *)
Lemma run_state_progress s l s' l' :
  ready s l -> run_state s l = (Some s', l') -> ready s' l' /\ measure s' l' < measure s l.
Proof.
  intros Hr E. unfold measure at 2. destruct s; simpl in Hr, E; simpl rank.
  - unfold run_lexDefault in E. unfold measure.
    repeat case_hyp E; simplify_eq; simpl; to_prop; (split; [auto with lex; by split|]); try lia.
    pose proof (lexConsumeComment_rem l ltac:(done)). lia.
  - destruct Hr as [Ha Hsp]. unfold run_lexSpace in E. simplify_eq. unfold measure. simpl.
    rewrite emit_rem. destruct (skipSpace_adv1 l Hsp). split; [auto with lex|lia].
  - destruct Hr as [Ha Hsp]. unfold run_lexNL in E. simplify_eq. unfold measure. simpl.
    rewrite emit_rem. apply isEndOfLine_neq_eof in Hsp. destruct (next_crlf_adv1 l Hsp).
    split; [auto with lex|lia].
  - destruct Hr. by apply run_lexIdentifier_progress.
  - by apply run_lexRecipe_progress.
  - by apply run_lexCommandKeyword_progress.
  - eapply args_loop_progress; [apply recipe_args_continue|apply recipe_args_progress|done|done].
  - destruct Hr as [Ha Hsp]. unfold run_lexRecipeSpaceArgs in E. simplify_eq. unfold measure. simpl.
    rewrite emit_rem. destruct (skipSpace_adv1 l Hsp). split; [auto with lex|lia].
  - by apply run_lexKeyValueCommandArgs_progress.
  - eapply args_loop_progress; [apply global_args_continue|apply global_args_progress|done|done].
  - destruct Hr as [Ha Hsp]. unfold run_lexGlobalSpaceArgs in E. simplify_eq. unfold measure. simpl.
    rewrite emit_rem. destruct (skipSpace_adv1 l Hsp). split; [auto with lex|lia].
Qed.

End Progress.
