(* ===== verification/Scanner.v ===== *)
(** * The scanner as a source of tokens

    The interface [TokenSource] is what the parser needs of its scanner: a
    [nextItem] whose tokens run out.  The lexer implements it; the theorems here
    are the lexer's contract, for every text: the queue is a faithful buffer,
    [nextItem] terminates, and the stream of tokens is an ordered, exact cover
    of pieces of the text that ends with one EOF or error token. *)

From S2P Require Import Prelude GoStrings Token Lex LexLoops LexInv.

(** ** The interface *)

Class TokenSource (S : Type) : Type := nextTok : S -> item * S.

(** The laws the parser's theorems rest on: every token satisfies [good], and
    [budget] bounds the tokens before the source delivers only EOF. *)
Class TokenSourceLaws (S : Type) `{TokenSource S} (good : item -> Prop) : Type := {
  source_ok : S -> Prop;
  budget : S -> nat;
  nextTok_ok s : source_ok s -> source_ok (snd (nextTok s));
  nextTok_good s : source_ok s -> good (fst (nextTok s));
  nextTok_le s : source_ok s -> budget (snd (nextTok s)) <= budget s;
  nextTok_lt s : source_ok s -> Typ (fst (nextTok s)) <> itemEOF ->
                 budget (snd (nextTok s)) < budget s
}.

(** ** The scanner's invariant between two calls of [nextItem] *)

(** The tokens not yet delivered. *)
Definition toks (l : lexer) : list item := skipn (itemsStart l) (queue l).

(** The byte no undelivered token goes beyond. *)
Definition front (l : lexer) : nat :=
  match state l with Some _ => start l | None => pos l end.

(** The queue of a scan that goes on holds no terminal token; the queue of a
    scan that has ended is empty or ends with the only one. *)
Definition tail_ok (l : lexer) : Prop :=
  match state l with
  | Some _ => Forall (fun t => ~ terminal t) (toks l)
  | None => toks l = [] \/
      exists ts t, toks l = ts ++ [t] /\ terminal t /\ Forall (fun t => ~ terminal t) ts
  end.

(** [lo] is the end of the last token delivered. *)
Record SInv (lo : nat) (l : lexer) : Prop := mkSInv {
  si_inv : LInv l;
  si_bounds : itemsStart l <= itemsEnd l <= 3;
  si_ready : forall s, state l = Some s -> ready s l;
  si_spans : spans (input l) lo (toks l) (front l);
  si_tail : tail_ok l
}.

(** State calls left. *)
Definition calls_left (l : lexer) : nat :=
  match state l with Some s => S (measure s l) | None => 0 end.

(** Tokens left, at most. *)
Definition tokens_left (l : lexer) : nat := (itemsEnd l - itemsStart l) + 3 * calls_left l.

Lemma toks_empty l : itemsStart l = itemsEnd l -> toks l = [].
Proof.
  intros H. unfold toks, queue. rewrite H. apply drop_ge. rewrite length_take. lia.
Qed.

Lemma toks_length l : LInv l -> itemsEnd l <= 32 -> length (toks l) = itemsEnd l - itemsStart l.
Proof.
  intros Hl He. unfold toks, queue. rewrite length_drop, length_take, (li_items _ Hl). lia.
Qed.

Section Scanner.
Context `{Unicode}.

Lemma refill_SInv lo s l :
  SInv lo l -> itemsStart l = itemsEnd l -> state l = Some s ->
  SInv lo (refill s l) /\ itemsStart (refill s l) = 0 /\ itemsEnd (refill s l) <= 3 /\
  calls_left (refill s l) < calls_left l /\ input (refill s l) = input l.
Proof.
  intros [Hl Hb Hr Hs Ht] He Hst. unfold refill.
  assert (LInv (set_items (itemsArr l) 0 0 l)) as Hl0 by (destruct Hl; by split).
  assert (ready s (set_items (itemsArr l) 0 0 l)) as Hr0 by (specialize (Hr s Hst); by destruct s).
  rewrite (toks_empty l He) in Hs. apply spans_le in Hs. unfold front in Hs. rewrite Hst in Hs.
  destruct (run_state s _) as [s' l'] eqn:E. apply run_state_ok in E as Hok.
  assert (forall ts, emits (set_items (itemsArr l) 0 0 l) l' ts ->
    toks (set_state s' l') = ts /\ itemsStart l' = 0 /\ itemsEnd l' = length ts /\
    input l' = input l /\ spans (input l) lo ts (start l') /\ LInv l') as Hem.
  { intros ts [Hi Hin Hz Hn Hq Hsp]. simpl in *. unfold toks, queue in *. simpl in *.
    rewrite Hz, Hq. split_and!; try done; try lia.
    eapply spans_weaken; [| |done]; [done|lia]. }
  assert (LInv l' -> LInv (set_state s' l')) as Hset by (intros []; by split).
  destruct s' as [s'|]; simpl in Hok.
  - destruct (Hok Hl0 ltac:(simpl; lia)) as (ts & Hts & Hlen & Hnt).
    destruct (Hem _ Hts) as (Htk & Hz & Hn & Hin & Hsp & Hl').
    apply run_state_progress in E as [Hr' Hm]; [|done].
    split_and!; simpl; try lia; try done.
    + split; simpl; try lia; auto.
      * intros s1 [= <-]. by destruct s'.
      * rewrite Htk. unfold front. simpl. by rewrite Hin.
      * unfold tail_ok. simpl. by rewrite Htk.
    + unfold calls_left. simpl. rewrite Hst. unfold measure, rem, input_len in *. simpl in *. lia.
  - destruct (Hok Hl0 ltac:(simpl; lia)) as (ts & t & Hts & Hlen & Htm & Hnt).
    destruct (Hem _ Hts) as (Htk & Hz & Hn & Hin & Hsp & Hl'). rewrite length_app in Hn. simpl in Hn.
    split_and!; simpl; try lia; try done.
    + split; simpl; try lia; auto.
      * done.
      * rewrite Htk. unfold front. simpl. rewrite Hin. eapply spans_weaken; [| |done]; [lia|].
        apply (li_le _ Hl').
      * unfold tail_ok. simpl. rewrite Htk. right. by exists ts, t.
    + unfold calls_left. simpl. rewrite Hst. lia.
Qed.

(** Enough fuel: the loop of [nextItem] stops because a token is there or the
    scan has ended. *)
Lemma refill_loop_spec f lo l :
  SInv lo l -> calls_left l < f ->
  let l' := refill_loop f l in
  SInv lo l' /\ tokens_left l' <= tokens_left l /\ input l' = input l /\
  (itemsStart l' < itemsEnd l' \/ (itemsStart l' = itemsEnd l' /\ state l' = None)).
Proof.
  revert l. induction f as [|f IH]; intros l Hs Hf; [lia|]. simpl.
  destruct (itemsStart l =? itemsEnd l) eqn:E; to_prop.
  - destruct (state l) as [s|] eqn:Est.
    + destruct (refill_SInv lo s l Hs E Est) as (Hs' & Hz & He & Hc & Hi).
      destruct (IH (refill s l) Hs' ltac:(lia)) as (H1 & H2 & H3 & H4).
      split_and!; try done; [|congruence]. unfold tokens_left in *. lia.
    + split_and!; try done. right. done.
  - split_and!; try done. pose proof (si_bounds _ _ Hs). left. lia.
Qed.

Lemma calls_left_fuel l : calls_left l < refill_fuel l.
Proof.
  unfold calls_left, refill_fuel, measure. destruct (state l) as [[]|]; simpl; lia.
Qed.

(** Delivering the first token of the queue. *)
Lemma deliver_SInv lo l :
  SInv lo l -> itemsStart l < itemsEnd l ->
  let itm := nth (itemsStart l) (itemsArr l) zero_item in
  let l' := set_lastPos (item_pos itm) (set_items (itemsArr l) (S (itemsStart l)) (itemsEnd l) l) in
  toks l = itm :: toks l' /\ SInv (span_end itm) l' /\ tokens_left l' < tokens_left l /\
  lo <= item_pos itm /\ reach (input l) (item_pos itm) (Line itm) (Col itm) /\
  (Typ itm <> itemError -> is_span (input l) itm).
Proof.
  intros [Hl Hb Hr Hs Ht] Hlt. intros itm l'.
  assert (toks l = itm :: toks l') as Htk.
  { unfold toks, queue. simpl itemsStart. simpl itemsEnd. simpl itemsArr.
    assert (take (itemsEnd l) (itemsArr l) !! itemsStart l = Some itm) as Hlk.
    { rewrite lookup_take_lt by done. unfold itm. rewrite nth_lookup.
      destruct (lookup_lt_is_Some_2 (itemsArr l) (itemsStart l)) as [x Hx];
        [rewrite (li_items _ Hl); lia|]. by rewrite Hx. }
    by apply drop_S. }
  assert (LInv l') as Hl' by (destruct Hl; by split).
  rewrite Htk in Hs. inversion Hs as [|? ? ? ? Hp Hre Hsp Hrest]; subst.
  split_and!; try done.
  - split; [done|simpl; lia| |done|].
    + intros s Es. specialize (Hr s Es). by destruct s.
    + unfold tail_ok in *. simpl. destruct (state l).
      * rewrite Htk in Ht. by inversion Ht.
      * destruct Ht as [Ht|(ts & t & Ht & Htm & Hnt)]; rewrite Htk in Ht; [done|].
        destruct ts as [|t0 ts]; simplify_eq/=; [by left|]. right. exists ts, t.
        split_and!; try done. by inversion Hnt.
  - unfold tokens_left, calls_left. simpl. unfold measure, rem, input_len. destruct (state l); simpl; lia.
Qed.

(** ** [nextItem] *)

Definition ended (l : lexer) : Prop := state l = None /\ itemsStart l = itemsEnd l.

(** The EOF token of a scan that has ended. *)
Definition eof_item (l : lexer) : item := mkItem "" itemEOF (pos l) (line l) (col l).

Lemma nextItem_ended l : ended l -> nextItem l = (eof_item l, l).
Proof.
  intros [Hs He]. unfold nextItem. replace (refill_loop (refill_fuel l) l) with l.
  - by rewrite He, Nat.ltb_irrefl.
  - unfold refill_fuel. rewrite Nat.add_comm. simpl. by rewrite He, Nat.eqb_refl, Hs.
Qed.

(** A token as the contract describes it. *)
Record tok_ok (s : string) (lo : nat) (it : item) : Prop := mkTokOk {
  tok_lo : lo <= item_pos it;
  tok_reach : reach s (item_pos it) (Line it) (Col it);
  tok_span : Typ it <> itemError -> is_span s it
}.

Lemma nextItem_spec lo l it l' :
  SInv lo l -> nextItem l = (it, l') ->
  SInv (span_end it) l' /\ input l' = input l /\ tok_ok (input l) lo it /\
  tokens_left l' <= tokens_left l /\
  (Typ it <> itemEOF -> tokens_left l' < tokens_left l) /\
  (terminal it -> ended l') /\ (~ ended l -> ~ terminal it -> tokens_left l' < tokens_left l).
Proof.
  intros Hs E. destruct (refill_loop_spec _ _ _ Hs (calls_left_fuel l)) as (H1 & H2 & H3 & H4).
  unfold nextItem in E. revert E. set (l1 := refill_loop (refill_fuel l) l) in *. clearbody l1.
  destruct H4 as [Hlt|[Heq Hn]].
  - rewrite (proj2 (Nat.ltb_lt _ _) Hlt). intros E.
    destruct (deliver_SInv lo l1 H1 Hlt) as (Htk & Hs' & Hlt' & Hlo & Hre & Hsp).
    injection E as Eit El. rewrite Eit in *. rewrite El in *. rewrite H3 in *.
    split_and!; try lia; [done|by rewrite <- El|by split|].
    intros Ht. pose proof (si_tail _ _ H1) as Htl. unfold tail_ok in Htl.
    assert (itemsStart l' <= itemsEnd l' <= 3) as Hb by apply (si_bounds _ _ Hs').
    assert (state l' = state l1) as Hst by by rewrite <- El.
    clear El Eit. destruct (state l1) eqn:Es.
    + rewrite Htk in Htl. inversion Htl; subst. done.
    + destruct Htl as [Htl|(ts & t & Htl & _ & Hnt)]; rewrite Htk in Htl; [done|].
      destruct ts as [|t0 ts]; simplify_eq/=; [|inversion Hnt; subst; done].
      split; [congruence|]. pose proof (toks_length l' (si_inv _ _ Hs') ltac:(lia)) as Hlen.
      match goal with Hx : toks _ = [] |- _ => rewrite Hx in Hlen end. simpl in Hlen. lia.
  - rewrite Heq, Nat.ltb_irrefl. intros E. injection E as <- <-.
    pose proof (si_spans _ _ H1) as Hsp. pose proof (si_inv _ _ H1) as Hl1.
    rewrite (toks_empty _ Heq) in Hsp. apply spans_le in Hsp. unfold front in Hsp. rewrite Hn in Hsp.
    split_and!; try done.
    + split; try apply H1. rewrite (toks_empty _ Heq). unfold front, span_end. rewrite Hn.
      constructor. simpl. lia.
    + split; simpl; [lia|rewrite <- H3; apply Hl1|].
      intros _. unfold is_span. simpl. by rewrite Nat.add_0_r, slice_same.
    + intros _ Hnt. exfalso. apply Hnt. by left.
Qed.

Lemma lex_SInv name s : SInv 0 (lex name s).
Proof.
  split; simpl.
  - split; simpl; try constructor; try lia; done.
  - lia.
  - by intros ? [= <-].
  - constructor. simpl. lia.
  - unfold tail_ok. simpl. constructor.
Qed.

(** ** The lexer implements the interface *)

#[global] Instance lexer_source : TokenSource lexer := nextItem.

(** The coordinates of a token are those of a byte of the text (or of its end). *)
Definition placed (s : string) (t : item) : Prop := reach s (item_pos t) (Line t) (Col t).

#[global] Program Instance lexer_source_laws s : TokenSourceLaws lexer (placed s) := {|
  source_ok l := input l = s /\ exists lo, SInv lo l;
  budget := tokens_left
|}.
Next Obligation.
  intros s l [Hi [lo Hs]]. unfold nextTok, lexer_source. destruct (nextItem l) as [it l'] eqn:E.
  apply (nextItem_spec lo) in E as (? & ? & _); [|done]. split; [simpl; congruence|eauto].
Qed.
Next Obligation.
  intros s l [<- [lo Hs]]. unfold nextTok, lexer_source. destruct (nextItem l) as [it l'] eqn:E.
  by apply (nextItem_spec lo) in E as (_ & _ & [] & _).
Qed.
Next Obligation.
  intros s l [Hi [lo Hs]]. unfold nextTok, lexer_source. destruct (nextItem l) as [it l'] eqn:E.
  by apply (nextItem_spec lo) in E as (_ & _ & _ & ? & _).
Qed.
Next Obligation.
  intros s l [Hi [lo Hs]]. unfold nextTok, lexer_source. destruct (nextItem l) as [it l'] eqn:E.
  by apply (nextItem_spec lo) in E as (_ & _ & _ & _ & ? & _).
Qed.

(** ** The stream of tokens *)

(** The first [n] tokens. *)
Fixpoint stream (n : nat) (l : lexer) : list item :=
  match n with
  | O => []
  | S n => let '(it, l') := nextItem l in it :: stream n l'
  end.

Lemma stream_spans n lo l : SInv lo l -> exists hi, spans (input l) lo (stream n l) hi.
Proof.
  revert lo l. induction n as [|n IH]; intros lo l Hs; simpl; [by exists lo; constructor|].
  destruct (nextItem l) as [it l'] eqn:E.
  apply (nextItem_spec lo) in E as (Hs' & Hi & [] & _); [|done].
  destruct (IH _ _ Hs') as [hi Hhi]. exists hi. rewrite Hi in Hhi. by constructor.
Qed.

Lemma stream_ended n l : ended l -> stream n l = replicate n (eof_item l).
Proof. intros H1. induction n as [|n IH]; simpl; [done|]. by rewrite nextItem_ended, IH. Qed.

Lemma stream_ends lo l :
  SInv lo l -> ~ ended l ->
  exists ts t last, Forall (fun t => ~ terminal t) ts /\ terminal t /\
    length ts <= tokens_left l /\
    forall n, stream (length ts + S n) l = ts ++ t :: replicate n (eof_item last).
Proof.
  remember (tokens_left l) as b eqn:Hb. revert lo l Hb.
  induction (lt_wf b) as [b _ IH]. intros lo l -> Hs Hne.
  destruct (nextItem l) as [it l'] eqn:E.
  destruct (nextItem_spec lo l it l' Hs E) as (Hs' & _ & _ & _ & _ & Ht & Hlt).
  destruct (decide (Typ it = itemEOF \/ Typ it = itemError)) as [Hterm|Hterm].
  - exists [], it, l'. split_and!; [done|done|simpl; lia|].
    intros n. simpl. rewrite E. f_equal. by apply stream_ended, Ht.
  - specialize (Hlt Hne Hterm). destruct (decide (ended l')) as [He|He].
    + destruct (nextItem l') as [it2 l2] eqn:E2. rewrite (nextItem_ended l' He) in E2.
      exists [it], (eof_item l'), l'. split_and!.
      * by constructor.
      * by left.
      * simpl. lia.
      * intros n. simpl. rewrite E, (nextItem_ended l' He). do 2 f_equal. by apply stream_ended.
    + destruct (IH _ Hlt _ l' eq_refl Hs' He) as (ts & t & last & Hf & Htm & Hlen & Heq).
      exists (it :: ts), t, last. split_and!; [by constructor|done|simpl; lia|].
      intros n. simpl. rewrite E. f_equal. apply Heq.
Qed.

(** Lexing any text terminates and yields a well-formed stream: tokens that
    are neither EOF nor errors (at most 15 per byte of the text, plus 18), then
    one EOF or error token, then EOF for ever. *)
Theorem lex_stream name s :
  exists ts t last, Forall (fun t => ~ terminal t) ts /\ terminal t /\
    length ts <= 15 * String.length s + 18 /\
    forall n, stream (length ts + S n) (lex name s) = ts ++ t :: replicate n (eof_item last).
Proof.
  destruct (stream_ends 0 (lex name s) (lex_SInv name s)) as (ts & t & last & H1 & H2 & H3 & H4).
  { by intros [? _]. }
  exists ts, t, last. split_and!; try done.
  unfold tokens_left, calls_left, measure, rem, input_len in H3. simpl in H3. lia.
Qed.

(** C33. Every token but an error is the piece of the text at its position, the
    tokens are in order and do not overlap, and the line and column of each are
    exactly those of its first byte (counting runes), errors included. *)
Theorem lex_spans n name s : exists hi, spans s 0 (stream n (lex name s)) hi.
Proof. apply (stream_spans n 0 (lex name s) (lex_SInv name s)). Qed.

(** ** Reachable scanners *)

Inductive scanner_reachable (s : string) : lexer -> Prop :=
  | reachable_lex name : scanner_reachable s (lex name s)
  | reachable_next l it l' :
      scanner_reachable s l -> nextItem l = (it, l') -> scanner_reachable s l'.

Lemma reachable_SInv s l : scanner_reachable s l -> input l = s /\ exists lo, SInv lo l.
Proof.
  induction 1 as [name|l it l' Hr [Hi [lo Hs]] E].
  - split; [done|]. exists 0. apply lex_SInv.
  - apply (nextItem_spec lo) in E as (Hs' & Hi' & _); [|done]. split; [congruence|eauto].
Qed.

(** At every point of every scan: the pending token lies within the text,
    the cursor's line and column are those of its byte, at most three of the 32
    slots of the token array are in use (so [emit] and [errorf] never find it
    full and drop a token), and the indentation stack has one or two entries. *)
Theorem scanner_invariant s l :
  scanner_reachable s l ->
  start l <= pos l <= String.length s /\ reach s (pos l) (line l) (col l) /\
  itemsStart l <= itemsEnd l <= 3 /\ length (itemsArr l) = 32 /\ 1 <= indentLen l <= 2.
Proof.
  intros [Hi [lo Hs]]%reachable_SInv. destruct (si_inv _ _ Hs) as [Hc Hst Hle Hit Hd Hn].
  unfold cursor_ok in Hc. rewrite Hi in *. apply reach_le in Hc as Hp.
  pose proof (si_bounds _ _ Hs). split_and!; try done; lia.
Qed.

End Scanner.

Lemma scanner_invariant_witness :
  let u : Unicode := fun _ => true in
  let l := snd (nextItem (lex "Earthfile" "FROM alpine")) in
  scanner_reachable "FROM alpine" l /\ itemsEnd l <= 3.
Proof.
  intros u l.
  assert (scanner_reachable "FROM alpine" l) as H
    by (eapply reachable_next; [apply (reachable_lex _ "Earthfile")|apply surjective_pairing]).
  split; [exact H|]. apply (scanner_invariant _ l H).
Defined.
