(* ===== verification/Ast.v ===== *)
(** * The Earthfile AST

    The tree types of [internal/earthfile/earthfile.go] and the passes over
    source locations of [parse.go].  A pointer is an [option]; a statement,
    documented to have exactly one of its six pointers set, is a tagged union.
    The trees the parser builds share no source location between two nodes, so
    the in-place updates of the passes are pure functions here. *)

From S2P Require Import Prelude GoStrings Token.

(** ** Types *)

Record SourceLocation : Type := mkLoc {
  File : string;
  StartLine : nat;
  StartColumn : nat;
  EndLine : nat;
  EndColumn : nat
}.

Record Command : Type := mkCommand {
  cmd_Name : Cmd;
  cmd_Docs : string;
  cmd_SourceLocation : option SourceLocation;
  cmd_Args : list string;
  cmd_ExecMode : bool
}.

Inductive Statement : Type :=
  | mkStatement (kind : StatementKind) (loc : option SourceLocation)
with StatementKind : Type :=
  | SCommand (c : Command)
  | SWith (w : WithStatement)
  | SIf (i : IfStatement)
  | STry (t : TryStatement)
  | SFor (f : ForStatement)
  | SWait (w : WaitStatement)
with WithStatement : Type :=
  | mkWith (loc : option SourceLocation) (body : list Statement) (c : Command)
with IfStatement : Type :=
  | mkIf (elseBody : option (list Statement)) (loc : option SourceLocation)
      (expression : list string) (elseIf : list ElseIfStatement)
      (ifBody : list Statement) (execMode : bool)
with TryStatement : Type :=
  | mkTry (catchBody finallyBody : option (list Statement)) (loc : option SourceLocation)
      (tryBody : list Statement)
with ElseIfStatement : Type :=
  | mkElseIf (loc : option SourceLocation) (expression : list string)
      (body : list Statement) (execMode : bool)
with ForStatement : Type :=
  | mkFor (loc : option SourceLocation) (args : list string) (body : list Statement)
with WaitStatement : Type :=
  | mkWait (loc : option SourceLocation) (args : list string) (body : list Statement).

Abbreviation Block := (list Statement).

Record Target : Type := mkTarget {
  target_SourceLocation : option SourceLocation;
  target_Name : string;
  target_Docs : string;
  target_Recipe : Block
}.

Record Function_ : Type := mkFunction {
  fn_SourceLocation : option SourceLocation;
  fn_Name : string;
  fn_Recipe : Block
}.

Record Version : Type := mkVersion {
  ver_SourceLocation : option SourceLocation;
  ver_Args : list string
}.

Record Tree : Type := mkTree {
  tree_Version : option Version;
  tree_SourceLocation : option SourceLocation;
  Targets : list Target;
  Functions : list Function_;
  BaseRecipe : Block
}.

(** [Statement{Command: &cmd}] and the like. *)
Definition stmt (k : StatementKind) : Statement := mkStatement k None.

(** ** A pass over the source locations of a tree

    [setSourceLocationFile] and [removeSourceLocations] walk the tree the same
    way and differ only in what they do to a location. *)

Section MapLoc.
Variable f : option SourceLocation -> option SourceLocation.

Definition map_command (c : Command) : Command :=
  mkCommand (cmd_Name c) (cmd_Docs c) (f (cmd_SourceLocation c)) (cmd_Args c) (cmd_ExecMode c).

Fixpoint map_statement (s : Statement) : Statement :=
  match s with mkStatement k loc => mkStatement (map_kind k) (f loc) end
with map_kind (k : StatementKind) : StatementKind :=
  match k with
  | SCommand c => SCommand (map_command c)
  | SWith w => SWith (map_with w)
  | SIf i => SIf (map_if i)
  | STry t => STry (map_try t)
  | SFor w => SFor (map_for w)
  | SWait w => SWait (map_wait w)
  end
with map_with (w : WithStatement) : WithStatement :=
  match w with mkWith loc body c => mkWith (f loc) (List.map map_statement body) (map_command c) end
with map_if (i : IfStatement) : IfStatement :=
  match i with
  | mkIf eb loc e ei ib x =>
      mkIf (option_map (List.map map_statement) eb) (f loc) e (List.map map_elseif ei)
        (List.map map_statement ib) x
  end
with map_try (t : TryStatement) : TryStatement :=
  match t with
  | mkTry cb fb loc tb =>
      mkTry (option_map (List.map map_statement) cb) (option_map (List.map map_statement) fb)
        (f loc) (List.map map_statement tb)
  end
with map_elseif (e : ElseIfStatement) : ElseIfStatement :=
  match e with
  | mkElseIf loc x body m => mkElseIf (f loc) x (List.map map_statement body) m
  end
with map_for (s : ForStatement) : ForStatement :=
  match s with mkFor loc args body => mkFor (f loc) args (List.map map_statement body) end
with map_wait (s : WaitStatement) : WaitStatement :=
  match s with mkWait loc args body => mkWait (f loc) args (List.map map_statement body) end.

Definition map_block (b : Block) : Block := List.map map_statement b.

Definition map_target (t : Target) : Target :=
  mkTarget (f (target_SourceLocation t)) (target_Name t) (target_Docs t) (map_block (target_Recipe t)).

Definition map_function (t : Function_) : Function_ :=
  mkFunction (f (fn_SourceLocation t)) (fn_Name t) (map_block (fn_Recipe t)).

Definition map_version (v : Version) : Version :=
  mkVersion (f (ver_SourceLocation v)) (ver_Args v).

Definition map_tree (t : Tree) : Tree :=
  mkTree (option_map map_version (tree_Version t)) (f (tree_SourceLocation t))
    (List.map map_target (Targets t)) (List.map map_function (Functions t)) (map_block (BaseRecipe t)).
End MapLoc.

(** [if loc != nil { loc.File = filename }] *)
Definition set_file (filename : string) (loc : option SourceLocation) : option SourceLocation :=
  option_map (fun s => mkLoc filename (StartLine s) (StartColumn s) (EndLine s) (EndColumn s)) loc.

Definition setBlockSourceLocationFile (block : Block) (filename : string) : Block :=
  map_block (set_file filename) block.

Definition setSourceLocationFile (ef : Tree) (filename : string) : Tree :=
  map_tree (set_file filename) ef.

Definition removeBlockSourceLocations (block : Block) : Block := map_block (fun _ => None) block.

Definition removeSourceLocations (ef : Tree) : Tree := map_tree (fun _ => None) ef.

(** ** Induction over statements *)

Definition elseif_body (e : ElseIfStatement) : Block :=
  match e with mkElseIf _ _ body _ => body end.

Section StatementInd.
Variable P : Statement -> Prop.
Hypothesis HCommand : forall c loc, P (mkStatement (SCommand c) loc).
Hypothesis HWith : forall l body c loc,
  Forall P body -> P (mkStatement (SWith (mkWith l body c)) loc).
Hypothesis HIf : forall eb l e ei ib x loc,
  Forall P (from_option id [] eb) -> Forall (fun s => Forall P (elseif_body s)) ei ->
  Forall P ib -> P (mkStatement (SIf (mkIf eb l e ei ib x)) loc).
Hypothesis HTry : forall cb fb l tb loc,
  Forall P (from_option id [] cb) -> Forall P (from_option id [] fb) -> Forall P tb ->
  P (mkStatement (STry (mkTry cb fb l tb)) loc).
Hypothesis HFor : forall l args body loc,
  Forall P body -> P (mkStatement (SFor (mkFor l args body)) loc).
Hypothesis HWait : forall l args body loc,
  Forall P body -> P (mkStatement (SWait (mkWait l args body)) loc).

Fixpoint statement_rect (s : Statement) : P s :=
  let fix go (b : Block) : Forall P b :=
    match b with
    | [] => Forall_nil_2 _
    | x :: b => Forall_cons_2 _ _ _ (statement_rect x) (go b)
    end in
  match s with
  | mkStatement (SCommand c) loc => HCommand c loc
  | mkStatement (SWith (mkWith l body c)) loc => HWith l body c loc (go body)
  | mkStatement (SIf (mkIf eb l e ei ib x)) loc =>
      HIf eb l e ei ib x loc
        (match eb with Some b => go b | None => Forall_nil_2 _ end)
        ((fix goe (es : list ElseIfStatement) : Forall (fun s => Forall P (elseif_body s)) es :=
            match es with
            | [] => Forall_nil_2 _
            | mkElseIf l e b m :: es => Forall_cons_2 _ (mkElseIf l e b m) _ (go b) (goe es)
            end) ei)
        (go ib)
  | mkStatement (STry (mkTry cb fb l tb)) loc =>
      HTry cb fb l tb loc
        (match cb with Some b => go b | None => Forall_nil_2 _ end)
        (match fb with Some b => go b | None => Forall_nil_2 _ end)
        (go tb)
  | mkStatement (SFor (mkFor l args body)) loc => HFor l args body loc (go body)
  | mkStatement (SWait (mkWait l args body)) loc => HWait l args body loc (go body)
  end.
End StatementInd.

(** ** The locations of a tree *)

Definition locs_command (c : Command) : list (option SourceLocation) := [cmd_SourceLocation c].

Fixpoint locs_statement (s : Statement) : list (option SourceLocation) :=
  match s with mkStatement k loc => loc :: locs_kind k end
with locs_kind (k : StatementKind) : list (option SourceLocation) :=
  match k with
  | SCommand c => locs_command c
  | SWith (mkWith loc body c) => loc :: locs_command c ++ flat_map locs_statement body
  | SIf (mkIf eb loc _ ei ib _) =>
      loc :: flat_map locs_statement ib ++ flat_map locs_elseif ei ++
      match eb with Some b => flat_map locs_statement b | None => [] end
  | STry (mkTry cb fb loc tb) =>
      loc :: flat_map locs_statement tb ++
      match cb with Some b => flat_map locs_statement b | None => [] end ++
      match fb with Some b => flat_map locs_statement b | None => [] end
  | SFor (mkFor loc _ body) => loc :: flat_map locs_statement body
  | SWait (mkWait loc _ body) => loc :: flat_map locs_statement body
  end
with locs_elseif (e : ElseIfStatement) : list (option SourceLocation) :=
  match e with mkElseIf loc _ body _ => loc :: flat_map locs_statement body end.

Definition locs_tree (t : Tree) : list (option SourceLocation) :=
  tree_SourceLocation t ::
  match tree_Version t with Some v => [ver_SourceLocation v] | None => [] end ++
  flat_map (fun t => target_SourceLocation t :: flat_map locs_statement (target_Recipe t)) (Targets t) ++
  flat_map (fun t => fn_SourceLocation t :: flat_map locs_statement (fn_Recipe t)) (Functions t) ++
  flat_map locs_statement (BaseRecipe t).

(** ** Facts *)

Lemma flat_map_map {A B C} (g : B -> list C) (h : A -> B) (k : A -> list C) (l : list A) :
  Forall (fun x => g (h x) = k x) l -> flat_map g (List.map h l) = flat_map k l.
Proof. induction 1; simpl; [done|]. by f_equal. Qed.

Lemma map_flat_map {A B C} (g : A -> list B) (h : B -> C) (l : list A) :
  List.map h (flat_map g l) = flat_map (fun x => List.map h (g x)) l.
Proof. induction l; simpl; [done|]. rewrite map_app. by f_equal. Qed.

Lemma locs_block_map f body :
  Forall (fun s => locs_statement (map_statement f s) = List.map f (locs_statement s)) body ->
  flat_map locs_statement (List.map (map_statement f) body) =
  List.map f (flat_map locs_statement body).
Proof. intros H. rewrite map_flat_map. by apply flat_map_map. Qed.

Lemma locs_option_map f (o : option Block) :
  Forall (fun s => locs_statement (map_statement f s) = List.map f (locs_statement s)) (from_option id [] o) ->
  match option_map (List.map (map_statement f)) o with
  | Some b => flat_map locs_statement b | None => [] end =
  List.map f match o with Some b => flat_map locs_statement b | None => [] end.
Proof. destruct o; simpl; [apply locs_block_map|done]. Qed.

(** A pass changes every location of a statement and nothing else. *)
Lemma locs_map_statement f s :
  locs_statement (map_statement f s) = List.map f (locs_statement s).
Proof.
  induction s as [c loc|l body c loc Hb|eb l e ei ib x loc He Hei Hib|cb fb l tb loc Hc Hf Ht
                 |l args body loc Hb|l args body loc Hb] using statement_rect; simpl; try done.
  - rewrite locs_block_map by done. done.
  - rewrite !map_app, locs_block_map, locs_option_map by done. do 3 f_equal.
    + apply f_equal2; [|done]. rewrite map_flat_map. apply flat_map_map.
      induction Hei as [|[]]; constructor; [|done]. simpl in *. by rewrite locs_block_map.
  - rewrite !map_app, locs_block_map, !locs_option_map by done. done.
  - by rewrite locs_block_map.
  - by rewrite locs_block_map.
Qed.

Lemma locs_map_block f b :
  flat_map locs_statement (map_block f b) = List.map f (flat_map locs_statement b).
Proof. apply locs_block_map, Forall_true, locs_map_statement. Qed.

Lemma locs_map_tree f t : locs_tree (map_tree f t) = List.map f (locs_tree t).
Proof.
  unfold locs_tree, map_tree. simpl. rewrite !map_app, !map_flat_map. f_equal.
  assert (forall ts, flat_map (fun t => target_SourceLocation t :: flat_map locs_statement (target_Recipe t))
      (List.map (map_target f) ts) =
    flat_map (fun t => List.map f (target_SourceLocation t :: flat_map locs_statement (target_Recipe t))) ts) as ->.
  { intros ts. apply flat_map_map, Forall_true. intros x. simpl. by rewrite locs_map_block. }
  assert (forall ts, flat_map (fun t => fn_SourceLocation t :: flat_map locs_statement (fn_Recipe t))
      (List.map (map_function f) ts) =
    flat_map (fun t => List.map f (fn_SourceLocation t :: flat_map locs_statement (fn_Recipe t))) ts) as ->.
  { intros ts. apply flat_map_map, Forall_true. intros x. simpl. by rewrite locs_map_block. }
  rewrite locs_map_block, map_flat_map. by destruct (tree_Version t).
Qed.

Lemma map_map_Forall {A} (g h k : A -> A) (l : list A) :
  Forall (fun x => g (h x) = k x) l -> List.map g (List.map h l) = List.map k l.
Proof. induction 1; simpl; [done|]. by f_equal. Qed.

Section Compose.
Variables f g : option SourceLocation -> option SourceLocation.

Lemma map_option_compose (o : option Block) :
  Forall (fun s => map_statement g (map_statement f s) = map_statement (g ∘ f) s) (from_option id [] o) ->
  option_map (List.map (map_statement g)) (option_map (List.map (map_statement f)) o) =
  option_map (List.map (map_statement (g ∘ f))) o.
Proof. destruct o; simpl; intros; [|done]. f_equal. by apply map_map_Forall. Qed.

Lemma map_statement_compose s : map_statement g (map_statement f s) = map_statement (g ∘ f) s.
Proof.
  induction s as [c loc|l body c loc Hb|eb l e ei ib x loc He Hei Hib|cb fb l tb loc Hc Hf Ht
                 |l args body loc Hb|l args body loc Hb] using statement_rect; simpl; try done.
  - by rewrite (map_map_Forall _ _ _ _ Hb).
  - rewrite (map_map_Forall _ _ _ _ Hib), map_option_compose by done. do 3 f_equal.
    apply map_map_Forall. induction Hei as [|[]]; constructor; [|done]. simpl in *. f_equal.
    by apply map_map_Forall.
  - by rewrite (map_map_Forall _ _ _ _ Ht), !map_option_compose.
  - by rewrite (map_map_Forall _ _ _ _ Hb).
  - by rewrite (map_map_Forall _ _ _ _ Hb).
Qed.

Lemma map_block_compose b : map_block g (map_block f b) = map_block (g ∘ f) b.
Proof. apply map_map_Forall, Forall_true, map_statement_compose. Qed.

Lemma map_tree_compose t : map_tree g (map_tree f t) = map_tree (g ∘ f) t.
Proof.
  unfold map_tree. simpl. rewrite map_block_compose. f_equal.
  - by destruct (tree_Version t).
  - apply map_map_Forall, Forall_true. intros x. unfold map_target. simpl. by rewrite map_block_compose.
  - apply map_map_Forall, Forall_true. intros x. unfold map_function. simpl. by rewrite map_block_compose.
Qed.
End Compose.

Lemma remove_set t file : removeSourceLocations (setSourceLocationFile t file) = removeSourceLocations t.
Proof. unfold removeSourceLocations, setSourceLocationFile. by rewrite map_tree_compose. Qed.

(** The two passes over source locations reach every node of the tree and
    change nothing else: after [setSourceLocationFile] every location present
    names the file and keeps its coordinates, after [removeSourceLocations] none
    is left, and removing gives the same tree with or without setting first. *)
Theorem source_location_passes t file :
  locs_tree (setSourceLocationFile t file) = List.map (set_file file) (locs_tree t) /\
  Forall (fun l => match l with Some s => File s = file | None => True end)
    (locs_tree (setSourceLocationFile t file)) /\
  Forall (fun l => l = None) (locs_tree (removeSourceLocations t)) /\
  removeSourceLocations (setSourceLocationFile t file) = removeSourceLocations t /\
  removeSourceLocations (removeSourceLocations t) = removeSourceLocations t.
Proof.
  unfold setSourceLocationFile, removeSourceLocations.
  rewrite !locs_map_tree, !map_tree_compose. split_and!; try done.
  - apply Forall_map, Forall_true. by intros [].
  - by apply Forall_map, Forall_true.
Qed.
