(* ===== verification/ParseText.v ===== *)
(** * Text processing of the parser

    The functions of [internal/earthfile/parse.go] that work on the text of
    tokens: doc comments, the exec form, key-value arguments, line continuations
    and escapes.  An index into a string becomes the suffix that starts there. *)

From S2P Require Import Prelude GoStrings Token.

(** ** Character tests on bytes *)

Definition isc (c : ascii) (b : Z) : bool := (byteZ c =? b)%Z.

Definition is_blank (c : ascii) : bool := isc c rSP || isc c rTAB.

Definition is_eol (c : ascii) : bool := isc c rNL || isc c rCR.

(** ** Doc comments *)

(** The blanks a line starts with. *)
Fixpoint leading_blanks (s : string) : string :=
  match s with
  | String c s' => if is_blank c then String c (leading_blanks s') else ""
  | "" => ""
  end.

(** A comment without its hash and the space around it. *)
Definition comment_text (c : string) : string := TrimPrefix (TrimSpace c) "#".

Definition computeDocs (comments : list string) : string :=
  match comments with
  | [] => ""
  | c0 :: _ =>
      let leadingTrim := leading_blanks (comment_text c0) in
      sconcat (List.map (fun c => TrimPrefix (comment_text c) leadingTrim +:+ NLs) comments)
  end.

(** ** The exec form *)

(** What [decodeJSONEscape] writes for an escaped byte. *)
Definition decodeJSONEscape (c : ascii) : string :=
  if isc c rDQuote || isc c rBackslash || isc c rSlash then String c ""
  else if isc c 98 then byte_string 8
  else if isc c 102 then byte_string 12
  else if isc c 110 then byte_string 10
  else if isc c 114 then byte_string 13
  else if isc c 116 then byte_string 9
  else byte_string rBackslash +:+ String c "".

(** The bytes of the [i]-th of [n] arguments that [execFormCharSeq] yields. *)
Definition exec_piece (n i : nat) (arg : string) : string :=
  slice (if i =? 0 then 1 else 0)
        (if i =? n - 1 then String.length arg - 1 else String.length arg) arg.

Definition execFormCharSeq (args : list string) : string :=
  sconcat (imap (exec_piece (length args)) args).

(** The loop of [parseExecForm], from a given state. *)
Fixpoint exec_loop (s : string) (execArgs : list string) (current : string)
    (inString escaped : bool) : option (list string) :=
  match s with
  | "" => if inString || escaped then None else Some execArgs
  | String c s' =>
      if escaped then exec_loop s' execArgs (current +:+ decodeJSONEscape c) inString false
      else if inString then
        if isc c rDQuote then exec_loop s' (execArgs ++ [current]) "" false false
        else if isc c rBackslash then exec_loop s' execArgs current inString true
        else exec_loop s' execArgs (current +:+ String c "") inString false
      else
        if isc c rDQuote then exec_loop s' execArgs current true false
        else if isc c rComma || is_blank c || is_eol c then exec_loop s' execArgs current false false
        else None
  end.

(** [None] when the arguments are not in exec form. *)
Definition parseExecForm (args : list string) : option (list string) :=
  match args with
  | [] => None
  | first :: _ =>
      if HasPrefix first "[" && HasSuffix (List.last args "") "]"
      then exec_loop (execFormCharSeq args) [] "" false false
      else None
  end.

(** ** Key-value arguments *)

(** The index of the first equals sign outside quotes; [None] is -1. *)
Fixpoint separator_from (i : nat) (inSingle inDouble : bool) (s : string) : option nat :=
  match s with
  | "" => None
  | String c s' =>
      if isc c rSQuote && negb inDouble then separator_from (S i) (negb inSingle) inDouble s'
      else if isc c rDQuote && negb inSingle then separator_from (S i) inSingle (negb inDouble) s'
      else if isc c rEquals && negb inSingle && negb inDouble then Some i
      else separator_from (S i) inSingle inDouble s'
  end.

Definition findKeyValueSeparator (s : string) : option nat := separator_from 0 false false s.

Definition splitKeyValueArg (s : string) : list string :=
  match findKeyValueSeparator s with
  | None => if String.eqb s "" then [] else [s]
  | Some idx =>
      (if 0 <? idx then [stake idx s] else []) ++ ["="] ++
      (if S idx <? String.length s then [sdrop (S idx) s] else [])
  end.

Fixpoint skip_ws (items : list item) : list item :=
  match items with
  | it :: items' => if decide (Typ it = itemWS) then skip_ws items' else items
  | [] => []
  end.

Definition is_flag (it : item) : bool :=
  bool_decide (Typ it = itemAtom) && HasPrefix (Val it) "-".

(** The loop that reads the flags: the flags and the items after them. *)
Fixpoint read_flags (items : list item) (flag_read : bool) : list string * list item :=
  match items with
  | it :: items' =>
      if flag_read && bool_decide (Typ it = itemWS) then read_flags items' true
      else if is_flag it then
        let '(fs, rest) := read_flags items' true in (Val it :: fs, rest)
      else ([], items)
  | [] => ([], [])
  end.

Definition all_atoms (items : list item) : list string :=
  omap (fun it => if decide (Typ it = itemAtom) then Some (Val it) else None) items.

Definition vals (items : list item) : string := sconcat (List.map Val items).

(** "Everything else is the value!" *)
Definition join_value (valStart : string) (rest : list item) : string :=
  match rest with
  | [] => valStart
  | [it] => if String.eqb valStart "" then Val it else valStart +:+ vals rest
  | _ => valStart +:+ vals rest
  end.

(** From the key on: the key, the equals sign if any, and the value. *)
Definition key_value (key0 : string) (rest : list item) : list string :=
  let '(key, hasEquals0, valStart) :=
    match findKeyValueSeparator key0 with
    | Some eqIdx => (stake eqIdx key0, true, sdrop (S eqIdx) key0)
    | None => (key0, false, "")
    end in
  let rest1 := if hasEquals0 then rest else skip_ws rest in
  let '(eqs, hasEquals, rest2) :=
    if hasEquals0 then (["="], true, rest1)
    else
      match rest1 with
      | it :: rest' =>
          if bool_decide (Typ it = itemAtom) && String.eqb (Val it) "="
          then (["="], true, skip_ws rest') else ([], false, rest1)
      | [] => ([], false, rest1)
      end in
  let val := TrimRight (join_value valStart rest2) (bytes_string [rSP; rTAB; rCR; rNL]) in
  [key] ++ eqs ++
  (if negb (String.eqb val "") then (if hasEquals then [] else ["="]) ++ [val]
   else if hasEquals then [""] else []).

Definition parseKeyValueItems (items : list item) : list string :=
  let '(flags, rest) := read_flags (skip_ws items) false in
  match rest with
  | it :: rest' =>
      if decide (Typ it = itemAtom) then flags ++ key_value (Val it) rest'
      else flags ++ all_atoms items
  | [] => flags ++ all_atoms items
  end.

(** ** Line continuations and escapes *)

Fixpoint skip_blanks (s : string) : string :=
  match s with
  | String c s' => if is_blank c then skip_blanks s' else s
  | "" => ""
  end.

Fixpoint skip_to_eol (s : string) : string :=
  match s with
  | String c s' => if is_eol c then s else skip_to_eol s'
  | "" => ""
  end.

(** An optional comment. *)
Definition skip_comment (s : string) : string :=
  match s with
  | String c s' => if isc c rHash then skip_to_eol s' else s
  | "" => ""
  end.

(** A newline, or a carriage return and a newline. *)
Definition take_newline (s : string) : option string :=
  match s with
  | String c s' =>
      if isc c rNL then Some s'
      else if isc c rCR then
        match s' with
        | String d s'' => if isc d rNL then Some s'' else None
        | "" => None
        end
      else None
  | "" => None
  end.

(** The lines after a continuation that are blank or comments. *)
Fixpoint blank_lines (fuel : nat) (s : string) : string :=
  match fuel with
  | O => s
  | S f =>
      match take_newline (skip_comment s) with
      | Some s' => blank_lines f (skip_blanks s')
      | None => s
      end
  end.

(** The text after the continuation that starts the text, if there is one. *)
Definition after_continuation (s : string) : option string :=
  match s with
  | String c s' =>
      if isc c rBackslash then
        match take_newline (skip_comment (skip_blanks s')) with
        | Some s1 => let s2 := skip_blanks s1 in Some (blank_lines (String.length s2) s2)
        | None => None
        end
      else None
  | "" => None
  end.

(** The length of the continuation at index [i]; 0 when there is none. *)
Definition matchLineContinuationFrom (s : string) (i : nat) : nat :=
  match after_continuation (sdrop i s) with
  | Some rest => String.length (sdrop i s) - String.length rest
  | None => 0
  end.

(** The loop of [replaceEscape] on the suffix at index [i]. *)
Fixpoint replace_loop (fuel : nat) (inDouble inSingle : bool) (s : string) : string :=
  match fuel, s with
  | S f, String c s' =>
      if isc c rBackslash then
        let n := matchLineContinuationFrom s 0 in
        if 0 <? n then replace_loop f inDouble inSingle (sdrop n s)
        else
          match s' with
          | String d s'' => String c (String d (replace_loop f inDouble inSingle s''))
          | "" => String c ""
          end
      else if isc c rDQuote && negb inSingle then
        String c (replace_loop f (negb inDouble) inSingle s')
      else if isc c rSQuote && negb inDouble then
        String c (replace_loop f inDouble (negb inSingle) s')
      else String c (replace_loop f inDouble inSingle s')
  | _, _ => ""
  end.

Definition replaceEscape (str : string) : string :=
  if negb (ContainsAny str (bytes_string [rBackslash; rSQuote; rDQuote])) then str
  else replace_loop (String.length str) false false str.

(** * Facts about the parser's text processing

    Continuation stripping ([replaceEscape]) as a function of its own and its
    idempotence, the exec form as the inverse of an encoder, and the splitting
    of key-value arguments. *)

(** ** Suffixes *)

Definition suffix_of (r s : string) : Prop := exists p, s = p +:+ r.

#[export] Instance suffix_of_refl : Reflexive suffix_of.
Proof. intros s. by exists "". Qed.

#[export] Instance suffix_of_trans : Transitive suffix_of.
Proof. intros a b c [p ->] [q ->]. exists (q +:+ p). by rewrite sapp_assoc. Qed.

Lemma suffix_cons c r s : suffix_of r s -> suffix_of r (String c s).
Proof. intros [p ->]. by exists (String c p). Qed.

Lemma suffix_length r s : suffix_of r s -> String.length r <= String.length s.
Proof. intros [p ->]. rewrite length_sapp. lia. Qed.

(** Dropping what precedes a suffix leaves the suffix. *)
Lemma suffix_sdrop r s : suffix_of r s -> sdrop (String.length s - String.length r) s = r.
Proof.
  intros [p ->]. rewrite length_sapp.
  replace (_ + _ - _) with (String.length p) by lia. apply sdrop_sapp.
Qed.

#[export] Hint Resolve suffix_cons suffix_of_refl : gostr.

Lemma skip_blanks_suffix s : suffix_of (skip_blanks s) s.
Proof. induction s as [|c s IH]; simpl; [done|]. case_goal; auto with gostr. Qed.

Lemma skip_to_eol_suffix s : suffix_of (skip_to_eol s) s.
Proof. induction s as [|c s IH]; simpl; [done|]. case_goal; auto with gostr. Qed.

Lemma skip_comment_suffix s : suffix_of (skip_comment s) s.
Proof. destruct s; simpl; [done|]. case_goal; auto using skip_to_eol_suffix with gostr. Qed.

Lemma take_newline_suffix s r : take_newline s = Some r -> suffix_of r s /\ String.length r < String.length s.
Proof.
  unfold take_newline. intros E. repeat case_hyp E; simplify_eq; simpl; split; try lia; auto with gostr.
Qed.

Lemma blank_lines_suffix f s : suffix_of (blank_lines f s) s.
Proof.
  revert s. induction f as [|f IH]; intros s; simpl; [done|].
  destruct (take_newline (skip_comment s)) as [s'|] eqn:E; [|done].
  apply take_newline_suffix in E as [E _]. etrans; [apply IH|].
  etrans; [apply skip_blanks_suffix|]. etrans; [done|apply skip_comment_suffix].
Qed.

Lemma after_continuation_suffix s r :
  after_continuation s = Some r -> suffix_of r s /\ String.length r < String.length s.
Proof.
  unfold after_continuation. intros E. destruct s as [|c s]; [done|].
  destruct (isc c rBackslash); [|done].
  destruct (take_newline (skip_comment (skip_blanks s))) as [r0|] eqn:E0; [|done].
  injection E as <-. apply take_newline_suffix in E0 as [E0 _].
  assert (suffix_of (blank_lines (String.length (skip_blanks r0)) (skip_blanks r0)) s) as Hs.
  { etrans; [apply blank_lines_suffix|]. etrans; [apply skip_blanks_suffix|].
    etrans; [apply E0|]. etrans; [apply skip_comment_suffix|apply skip_blanks_suffix]. }
  split; [by apply suffix_cons|]. apply suffix_length in Hs. simpl. lia.
Qed.

(** The number [matchLineContinuationFrom] returns is the length of the
    continuation, and 0 exactly when there is none. *)
Lemma match_continuation s i :
  match after_continuation (sdrop i s) with
  | Some r => 0 < matchLineContinuationFrom s i /\
              sdrop (i + matchLineContinuationFrom s i) s = r
  | None => matchLineContinuationFrom s i = 0
  end.
Proof.
  unfold matchLineContinuationFrom.
  destruct (after_continuation (sdrop i s)) as [r|] eqn:E; [|done].
  apply after_continuation_suffix in E as [Hs Hl]. split; [lia|].
  rewrite <- sdrop_sdrop. by apply suffix_sdrop.
Qed.

(** ** [replaceEscape] without its flags *)

Definition strip (s : string) : string := replace_loop (String.length s) false false s.

(** The quote flags do not change the result, and the fuel is enough. *)
Lemma replace_loop_strip f d q s :
  String.length s <= f -> replace_loop f d q s = strip s.
Proof.
  assert (forall n f g d d' q q' s, String.length s <= n -> n <= f -> n <= g ->
    replace_loop f d q s = replace_loop g d' q' s) as Hgen.
  2:{ intros. apply (Hgen (String.length s)); lia. }
  clear. induction n as [|n IH]; intros f g d d' q q' s Hn Hf Hg.
  { destruct s; [|simpl in Hn; lia]. by destruct f, g. }
  destruct s as [|c s]; [by destruct f, g|]. simpl in Hn.
  destruct f as [|f], g as [|g]; try lia. simpl.
  destruct (isc c rBackslash) eqn:Eb.
  - pose proof (match_continuation (String c s) 0) as Hm. simpl sdrop in Hm.
    destruct (after_continuation (String c s)) as [r|] eqn:Ea.
    + destruct Hm as [Hpos Hr]. rewrite (proj2 (Nat.ltb_lt _ _) Hpos). simpl plus in Hr. rewrite Hr.
      apply after_continuation_suffix in Ea as [_ Hl]. simpl in Hl. apply IH; lia.
    + rewrite Hm. simpl. destruct s as [|e s]; [done|]. simpl in Hn.
      do 2 f_equal. apply IH; lia.
  - destruct (isc c rDQuote), (isc c rSQuote), d, q, d', q'; simpl; f_equal; apply IH; lia.
Qed.

Lemma strip_plain c s : isc c rBackslash = false -> strip (String c s) = String c (strip s).
Proof.
  intros Hc. unfold strip at 1. simpl. rewrite Hc.
  destruct (isc c rDQuote), (isc c rSQuote); simpl; f_equal; by apply replace_loop_strip.
Qed.

Lemma strip_continuation s r : after_continuation s = Some r -> strip s = strip r.
Proof.
  intros E. apply after_continuation_suffix in E as Hl. destruct Hl as [_ Hl].
  unfold strip at 1. destruct s as [|c s]; [done|]. simpl.
  assert (isc c rBackslash = true) as -> by (simpl in E; by destruct (isc c rBackslash)).
  pose proof (match_continuation (String c s) 0) as Hm. simpl sdrop in Hm. rewrite E in Hm.
  destruct Hm as [Hpos Hr]. rewrite (proj2 (Nat.ltb_lt _ _) Hpos). simpl plus in Hr. rewrite Hr.
  apply replace_loop_strip. simpl in Hl. lia.
Qed.

Lemma strip_escape c d s :
  isc c rBackslash = true -> after_continuation (String c (String d s)) = None ->
  strip (String c (String d s)) = String c (String d (strip s)).
Proof.
  intros Hc E. unfold strip at 1. change (String.length (String c ?x)) with (S (String.length x)).
  remember (String.length (String d s)) as f eqn:Hf. simpl. rewrite Hc.
  pose proof (match_continuation (String c (String d s)) 0) as Hm. simpl sdrop in Hm. rewrite E in Hm.
  rewrite Hm. simpl. do 2 f_equal. apply replace_loop_strip. simpl in Hf. lia.
Qed.

(** Induction along the units [strip] reads. *)
Lemma strip_ind (P : string -> Prop) :
  P "" ->
  (forall c s, isc c rBackslash = false -> P s -> P (String c s)) ->
  (forall s r, after_continuation s = Some r -> P r -> P s) ->
  (forall c, isc c rBackslash = true -> P (String c "")) ->
  (forall c d s, isc c rBackslash = true -> after_continuation (String c (String d s)) = None ->
     P s -> P (String c (String d s))) ->
  forall s, P s.
Proof.
  intros H0 H1 H2 H3 H4 s. remember (String.length s) as n eqn:Hn. revert s Hn.
  induction (lt_wf n) as [n _ IH]. intros s ->.
  destruct s as [|c s]; [done|]. destruct (isc c rBackslash) eqn:Ec.
  - destruct (after_continuation (String c s)) as [r|] eqn:E.
    + apply (H2 _ _ E). apply after_continuation_suffix in E as [_ Hl]. by eapply IH.
    + destruct s as [|d s]; [by apply H3|]. apply H4; [done|done|]. eapply IH; [|done]. simpl. lia.
  - apply H1; [done|]. eapply IH; [|done]. simpl. lia.
Qed.

Lemma strip_single c : isc c rBackslash = true -> strip (String c "") = String c "".
Proof.
  intros Hc. unfold strip. simpl. rewrite Hc. unfold matchLineContinuationFrom. simpl. by rewrite Hc.
Qed.

(** ** Idempotence *)

Definition starts_nl (s : string) : bool :=
  match s with String c _ => isc c rNL | "" => false end.

(** A line break ends the current line. *)
Definition nl_after (s : string) : bool := bool_decide (is_Some (take_newline (skip_to_eol s))).

(** What follows a backslash makes it a continuation. *)
Definition continues (s : string) : bool :=
  bool_decide (is_Some (take_newline (skip_comment (skip_blanks s)))).

Ltac isc_cases :=
  repeat match goal with
  | H : isc _ _ = true |- _ => unfold isc in H; apply Z.eqb_eq in H
  | H : isc _ _ = false |- _ => unfold isc in H; apply Z.eqb_neq in H
  end.

(** Rewrite the tests on a byte whose value is known. *)
Ltac isc_known c :=
  repeat match goal with
  | H : byteZ c = ?b |- context [isc c ?x] =>
      replace (isc c x) with (Z.eqb b x) by (unfold isc; by rewrite H); simpl (Z.eqb b x)
  end.

Lemma isc_eq c b : isc c b = true -> byteZ c = b.
Proof. unfold isc. apply Z.eqb_eq. Qed.

Lemma continues_cons d s :
  continues (String d s) =
    if is_blank d then continues s
    else if isc d rHash then nl_after s
    else if isc d rNL then true
    else if isc d rCR then starts_nl s else false.
Proof.
  unfold continues, nl_after, is_blank. simpl skip_blanks. unfold is_blank.
  destruct (isc d rSP || isc d rTAB) eqn:Eb; [done|]. simpl skip_comment.
  destruct (isc d rHash) eqn:Eh; [done|]. simpl take_newline.
  destruct (isc d rNL); [done|]. destruct (isc d rCR); [|done].
  destruct s as [|e s]; simpl; [done|]. by destruct (isc e rNL).
Qed.

Lemma nl_after_cons d s :
  nl_after (String d s) =
    if isc d rNL then true else if isc d rCR then starts_nl s else nl_after s.
Proof.
  unfold nl_after. simpl skip_to_eol. unfold is_eol.
  destruct (isc d rNL) eqn:En; simpl; rewrite ?En; [done|].
  destruct (isc d rCR) eqn:Er; simpl; rewrite ?En, ?Er; [|done].
  destruct s as [|e s]; simpl; [done|]. by destruct (isc e rNL).
Qed.

Lemma after_continuation_continues c s :
  isc c rBackslash = true -> after_continuation (String c s) = None <-> continues s = false.
Proof.
  intros Hc. unfold continues. simpl. rewrite Hc.
  destruct (take_newline (skip_comment (skip_blanks s))); simpl; done.
Qed.

Lemma skip_blanks_idem s : skip_blanks (skip_blanks s) = skip_blanks s.
Proof.
  induction s as [|c s IH]; simpl; [done|]. destruct (is_blank c) eqn:E; [done|]. simpl. by rewrite E.
Qed.

Lemma blank_lines_settled f s :
  String.length s <= f -> skip_blanks s = s ->
  skip_blanks (blank_lines f s) = blank_lines f s /\
  take_newline (skip_comment (blank_lines f s)) = None.
Proof.
  revert s. induction f as [|f IH]; intros s Hf Hs; simpl.
  { destruct s; [done|simpl in Hf; lia]. }
  destruct (take_newline (skip_comment s)) as [s'|] eqn:E; [|done].
  apply take_newline_suffix in E as [E Hl]. pose proof (suffix_length _ _ (skip_comment_suffix s)).
  pose proof (suffix_length _ _ (skip_blanks_suffix s')).
  apply IH; [lia|apply skip_blanks_idem].
Qed.

(** What follows a whole continuation continues neither it nor another. *)
Lemma after_continuation_settled s r :
  after_continuation s = Some r -> continues r = false /\ starts_nl r = false.
Proof.
  unfold after_continuation. intros E. destruct s as [|c s]; [done|].
  destruct (isc c rBackslash); [|done].
  destruct (take_newline (skip_comment (skip_blanks s))) as [r0|]; [|done]. injection E as <-.
  destruct (blank_lines_settled (String.length (skip_blanks r0)) (skip_blanks r0) ltac:(lia)
    (skip_blanks_idem r0)) as [H1 H2].
  assert (continues (blank_lines (String.length (skip_blanks r0)) (skip_blanks r0)) = false) as Hc.
  { unfold continues. by rewrite H1, H2. }
  split; [done|]. destruct (blank_lines _ _) as [|d t]; [done|]. rewrite continues_cons in Hc. simpl.
  destruct (isc d rNL) eqn:En; [|done]. apply isc_eq in En. revert Hc.
  unfold is_blank. isc_known d. done.
Qed.

Lemma backslash_tests c : isc c rBackslash = true ->
  isc c rNL = false /\ isc c rCR = false /\ isc c rHash = false /\ is_blank c = false.
Proof. intros H%isc_eq. unfold is_blank. by isc_known c. Qed.

Lemma starts_nl_strip s : starts_nl (strip s) = true -> starts_nl s = true.
Proof.
  induction s as [|c s Hc IH|s r E IH|c Hc|c d s Hc E IH] using strip_ind.
  - done.
  - by rewrite strip_plain.
  - rewrite (strip_continuation _ _ E). intros H%IH.
    apply after_continuation_settled in E as [_ E]. congruence.
  - by rewrite strip_single.
  - rewrite strip_escape by done. done.
Qed.

Lemma after_continuation_nl_after s r : after_continuation s = Some r -> nl_after s = true.
Proof.
  unfold after_continuation. intros E. destruct s as [|c s]; [done|].
  destruct (isc c rBackslash) eqn:Hc; [|done].
  destruct (take_newline (skip_comment (skip_blanks s))) as [r0|] eqn:E0; [|done].
  destruct (backslash_tests c Hc) as (Hn & Hr & _).
  rewrite nl_after_cons, Hn, Hr. clear E Hc Hn Hr c.
  induction s as [|d s IH]; [done|]. revert E0. simpl skip_blanks. rewrite nl_after_cons.
  destruct (isc d rNL) eqn:En; [done|].
  destruct (is_blank d) eqn:Eb.
  - intros H. rewrite (IH H). destruct (isc d rCR) eqn:Er; [|done].
    apply isc_eq in Er. revert Eb. unfold is_blank. by isc_known d.
  - simpl skip_comment. destruct (isc d rHash) eqn:Eh.
    + apply isc_eq in Eh. isc_known d. unfold nl_after. intros ->. by rewrite bool_decide_eq_true_2.
    + simpl. rewrite En. destruct (isc d rCR); [|done]. destruct s as [|e s]; [done|]. simpl.
      by destruct (isc e rNL).
Qed.

Lemma nl_after_strip s : nl_after (strip s) = true -> nl_after s = true.
Proof.
  induction s as [|c s Hc IH|s r E IH|c Hc|c d s Hc E IH] using strip_ind.
  - done.
  - rewrite strip_plain by done. rewrite !nl_after_cons. repeat case_test; auto using starts_nl_strip.
  - intros _. by eapply after_continuation_nl_after.
  - by rewrite strip_single.
  - rewrite strip_escape by done. rewrite !nl_after_cons.
    destruct (backslash_tests c Hc) as (-> & -> & _).
    repeat case_test; auto using starts_nl_strip.
Qed.

Lemma continues_cons_strip d s :
  (continues (strip s) = true -> continues s = true) ->
  continues (String d (strip s)) = true -> continues (String d s) = true.
Proof.
  intros IH. rewrite !continues_cons.
  repeat case_test; auto using starts_nl_strip, nl_after_strip.
Qed.

Lemma continues_strip s : continues (strip s) = true -> continues s = true.
Proof.
  induction s as [|c s Hc IH|s r E IH|c Hc|c d s Hc E IH] using strip_ind.
  - done.
  - rewrite strip_plain by done. by apply continues_cons_strip.
  - rewrite (strip_continuation _ _ E). intros H%IH.
    apply after_continuation_settled in E as [E _]. congruence.
  - by rewrite strip_single.
  - rewrite strip_escape by done. rewrite !continues_cons.
    by destruct (backslash_tests c Hc) as (-> & -> & -> & ->).
Qed.

Lemma strip_idem s : strip (strip s) = strip s.
Proof.
  induction s as [|c s Hc IH|s r E IH|c Hc|c d s Hc E IH] using strip_ind.
  - done.
  - rewrite strip_plain by done. rewrite strip_plain by done. by rewrite IH.
  - by rewrite (strip_continuation _ _ E).
  - by rewrite !strip_single.
  - rewrite strip_escape by done. rewrite strip_escape; [by rewrite IH|done|].
    rewrite after_continuation_continues in E by done. rewrite after_continuation_continues by done.
    destruct (continues (String d (strip s))) eqn:Ec; [|done].
    apply continues_cons_strip in Ec; [congruence|apply continues_strip].
Qed.

Lemma sexists_false p s : sexists p s = false -> sall (fun c => negb (p c)) s = true.
Proof. unfold sexists. by intros H%negb_false_iff. Qed.

Lemma strip_no_backslash s : sall (fun c => negb (isc c rBackslash)) s = true -> strip s = s.
Proof.
  induction s as [|c s IH]; simpl; [done|]. intros H. to_prop.
  rewrite strip_plain by done. by rewrite IH.
Qed.

Lemma replaceEscape_strip s : replaceEscape s = strip s.
Proof.
  unfold replaceEscape. case_test; [|done]. to_prop. symmetry. apply strip_no_backslash.
  apply sexists_false in E. eapply sall_impl; [|exact E]. intros c. simpl. intros Hc.
  destruct (isc c rBackslash) eqn:Eb; [|done]. exfalso. apply isc_eq in Eb.
  assert (c = "\"%char) as -> by (apply byteZ_inj; by rewrite Eb). done.
Qed.

(** A text on one line. *)
Definition one_line (s : string) : bool := sall (fun c => negb (isc c rNL)) s.

Lemma one_line_suffix r s : suffix_of r s -> one_line s = true -> one_line r = true.
Proof.
  intros [p ->]. unfold one_line. induction p as [|c p IH]; [done|]. rewrite sapp_cons. simpl.
  intros H. to_prop. auto.
Qed.

Lemma take_newline_one_line s : one_line s = true -> take_newline s = None.
Proof.
  unfold one_line. destruct s as [|c s]; simpl; [done|]. intros H. to_prop. rewrite H.
  destruct (isc c rCR); [|done]. destruct s as [|d s]; [done|]. simpl in *. to_prop. by rewrite H0.
Qed.

Lemma after_continuation_one_line s : one_line s = true -> after_continuation s = None.
Proof.
  intros H. destruct s as [|c s]; [done|]. simpl. destruct (isc c rBackslash); [|done].
  rewrite take_newline_one_line; [done|]. eapply one_line_suffix; [|exact H].
  apply suffix_cons. etrans; [apply skip_comment_suffix|apply skip_blanks_suffix].
Qed.

Lemma strip_one_line s : one_line s = true -> strip s = s.
Proof.
  induction s as [|c s Hc IH|s r E IH|c Hc|c d s Hc E IH] using strip_ind; intros H.
  - done.
  - rewrite strip_plain by done. f_equal. apply IH. eapply one_line_suffix; [|done]. auto with gostr.
  - rewrite after_continuation_one_line in E by done. done.
  - by apply strip_single.
  - rewrite strip_escape by done. do 2 f_equal. apply IH.
    eapply one_line_suffix; [|done]. auto with gostr.
Qed.

(** [replaceEscape] is idempotent: what it leaves holds no line continuation,
    even where two pieces of text were joined; it leaves a text of one line
    unchanged, and its quote tracking never changes the result. *)
Theorem replaceEscape_idempotent s :
  replaceEscape (replaceEscape s) = replaceEscape s /\
  (if one_line s then replaceEscape s = s else True) /\
  forall inDouble inSingle, replace_loop (String.length s) inDouble inSingle s = replaceEscape s.
Proof.
  rewrite !replaceEscape_strip. split_and!.
  - apply strip_idem.
  - case_test; [by apply strip_one_line|done].
  - intros. by apply replace_loop_strip.
Qed.

(** ** The exec form *)

(** The encoder: a JSON string with quotes and backslashes escaped. *)
Fixpoint json_escape (s : string) : string :=
  match s with
  | "" => ""
  | String c s =>
      (if isc c rDQuote || isc c rBackslash then byte_string rBackslash else "") +:+
      String c (json_escape s)
  end.

Definition json_string (s : string) : string := dquote +:+ json_escape s +:+ dquote.

Definition exec_encode (args : list string) : string :=
  "[" +:+ Join (List.map json_string args) "," +:+ "]".

Lemma exec_loop_escape s t ea cur :
  exec_loop (json_escape s +:+ t) ea cur true false = exec_loop t ea (cur +:+ s) true false.
Proof.
  revert cur. induction s as [|c s IH]; intros cur; simpl json_escape.
  { by rewrite sapp_nil_r. }
  assert (cur +:+ String c s = (cur +:+ String c "") +:+ s) as -> by by rewrite <- sapp_assoc.
  rewrite <- IH. destruct (isc c rDQuote || isc c rBackslash) eqn:E; simpl.
  - change (exec_loop (String c (json_escape s +:+ t)) ea cur true true =
            exec_loop (json_escape s +:+ t) ea (cur +:+ String c "") true false).
    simpl. unfold decodeJSONEscape. by rewrite E.
  - apply orb_false_iff in E as [E1 E2].
    change (exec_loop (String c (json_escape s +:+ t)) ea cur true false =
            exec_loop (json_escape s +:+ t) ea (cur +:+ String c "") true false).
    simpl. by rewrite E1, E2.
Qed.

Lemma exec_loop_string s t ea :
  exec_loop (json_string s +:+ t) ea "" false false = exec_loop t (ea ++ [s]) "" false false.
Proof.
  unfold json_string. rewrite <- !sapp_assoc.
  change (exec_loop (json_escape s +:+ dquote +:+ t) ea "" true false =
          exec_loop t (ea ++ [s]) "" false false).
  rewrite exec_loop_escape. done.
Qed.

Lemma exec_loop_Join args ea :
  exec_loop (Join (List.map json_string args) ",") ea "" false false = Some (ea ++ args).
Proof.
  revert ea. induction args as [|a args IH]; intros ea; [by rewrite app_nil_r|].
  destruct args as [|b args].
  - change (Join (List.map json_string [a]) ",") with (json_string a).
    rewrite <- (sapp_nil_r (json_string a)), exec_loop_string. done.
  - change (Join (List.map json_string (a :: b :: args)) ",") with
      (json_string a +:+ "," +:+ Join (List.map json_string (b :: args)) ",").
    rewrite exec_loop_string.
    change (exec_loop (Join (List.map json_string (b :: args)) ",") (ea ++ [a]) "" false false =
            Some (ea ++ a :: b :: args)).
    rewrite IH. by rewrite <- app_assoc.
Qed.

(** *** The pieces an argument list yields *)

(** The middle pieces are whole. *)
Lemma exec_pieces_middle n k (l : list string) :
  0 < k -> k + length l < n ->
  sconcat (imap (fun i => exec_piece n (k + i)) l) = sconcat l.
Proof.
  revert k. induction l as [|x l IH]; intros k Hk Hn; simpl; [done|]. simpl in Hn.
  rewrite Nat.add_0_r. unfold exec_piece at 1.
  rewrite (proj2 (Nat.eqb_neq k 0)), (proj2 (Nat.eqb_neq k (n - 1))) by lia.
  rewrite slice_full. f_equal. rewrite <- (IH (S k)) by lia. f_equal.
  apply imap_ext. intros i y _. simpl. by rewrite Nat.add_succ_r.
Qed.

Lemma slice_1 c s : slice 1 (String.length (String c s)) (String c s) = s.
Proof. unfold slice. simpl. rewrite Nat.sub_0_r. by apply stake_all. Qed.

Lemma slice_0_last s c : slice 0 (String.length (s +:+ String c "") - 1) (s +:+ String c "") = s.
Proof.
  unfold slice. rewrite length_sapp, sdrop_0, Nat.sub_0_r. simpl.
  replace (String.length s + 1 - 1) with (String.length s) by lia. apply stake_sapp.
Qed.

Lemma slice_1_last c s d :
  slice 1 (String.length (String c (s +:+ String d "")) - 1) (String c (s +:+ String d "")) = s.
Proof.
  pose proof (slice_0_last s d) as H. unfold slice in *. simpl in *.
  rewrite Nat.sub_0_r in H. by rewrite Nat.sub_0_r.
Qed.

Lemma exec_pieces x mid y :
  sconcat (imap (exec_piece (length (x :: mid ++ [y]))) (x :: mid ++ [y])) =
  slice 1 (String.length x) x +:+ sconcat mid +:+ slice 0 (String.length y - 1) y.
Proof.
  assert (length (x :: mid ++ [y]) = S (S (length mid))) as -> by (simpl; rewrite length_app; simpl; lia).
  set (n := S (S (length mid))). rewrite imap_cons, imap_app.
  change (sconcat (?a :: ?b)) with (a +:+ sconcat b). f_equal.
  rewrite sconcat_app. f_equal.
  - apply (exec_pieces_middle n 1); unfold n; lia.
  - unfold sconcat. simpl foldr. rewrite sapp_nil_r.
    unfold compose, exec_piece. rewrite Nat.add_0_r, (proj2 (Nat.eqb_eq (S (length mid)) (n - 1))) by (unfold n; lia). done.
Qed.

(** The characters yielded are the text of the arguments, put end to end,
    without its first and last byte. *)
Lemma execFormCharSeq_concat args t :
  HasPrefix (hd "" args) "[" = true -> HasSuffix (List.last args "") "]" = true ->
  sconcat args = "[" +:+ t +:+ "]" -> execFormCharSeq args = t.
Proof.
  destruct args as [|x args]; [done|]. intros Hp Hs Ht. unfold execFormCharSeq.
  destruct args as [|y mid _] using rev_ind.
  - simpl in *. rewrite sapp_nil_r in Ht. subst x. unfold exec_piece. simpl.
    rewrite sapp_nil_r. apply slice_1_last.
  - replace (List.last (x :: mid ++ [y]) "") with y in Hs
      by (change (x :: mid ++ [y]) with ((x :: mid) ++ [y]); by rewrite List.last_last).
    simpl hd in Hp. apply HasPrefix_spec in Hp as [x' ->]. apply HasSuffix_spec in Hs as [y' ->].
    rewrite exec_pieces.
    change (slice 1 (String.length ("[" +:+ x')) ("[" +:+ x')) with
      (slice 1 (String.length (String "["%char x')) (String "["%char x')).
    rewrite slice_1, slice_0_last.
    change (sconcat (("[" +:+ x') :: mid ++ [y' +:+ "]"])) with
      (String "["%char (x' +:+ sconcat (mid ++ [y' +:+ "]"]))) in Ht.
    rewrite sconcat_app in Ht. simpl sconcat in Ht. rewrite sapp_nil_r in Ht.
    injection Ht as Ht. rewrite !sapp_assoc in Ht. apply sapp_cancel_r in Ht.
    by rewrite sapp_assoc.
Qed.

(** The exec form is read back exactly: whatever the arguments are, and however
    the lexer cut their JSON text into pieces (the first starting with the
    bracket, the last ending with it), [parseExecForm] returns them. *)
Theorem parseExecForm_roundtrip (args pieces : list string) :
  sconcat pieces = exec_encode args ->
  HasPrefix (hd "" pieces) "[" = true -> HasSuffix (List.last pieces "") "]" = true ->
  parseExecForm pieces = Some args.
Proof.
  intros Hc Hp Hs. unfold parseExecForm. destruct pieces as [|p ps]; [done|].
  simpl hd in Hp. rewrite Hp, Hs. simpl andb. cbv iota.
  rewrite (execFormCharSeq_concat (p :: ps) (Join (List.map json_string args) ",")) by done.
  apply exec_loop_Join.
Qed.

Lemma parseExecForm_roundtrip_witness :
  parseExecForm ["[" +:+ json_string "sh" +:+ ","; json_string "-c" +:+ "]"] = Some ["sh"; "-c"].
Proof. apply parseExecForm_roundtrip; vm_compute; reflexivity. Defined.

(** ** Key-value arguments *)

(** The quotes open after a text. *)
Fixpoint quote_state (inSingle inDouble : bool) (s : string) : bool * bool :=
  match s with
  | "" => (inSingle, inDouble)
  | String c s =>
      if isc c rSQuote && negb inDouble then quote_state (negb inSingle) inDouble s
      else if isc c rDQuote && negb inSingle then quote_state inSingle (negb inDouble) s
      else quote_state inSingle inDouble s
  end.

(** [s] has an equals sign outside quotes at [i]. *)
Definition separates (qs qd : bool) (s : string) (i : nat) : Prop :=
  (exists c, at_ s i = Some c /\ byteZ c = rEquals) /\ quote_state qs qd (stake i s) = (false, false).

Lemma separator_from_spec s k qs qd :
  match separator_from k qs qd s with
  | Some j => exists i, j = k + i /\ separates qs qd s i /\ forall m, m < i -> ~ separates qs qd s m
  | None => forall m, ~ separates qs qd s m
  end.
Proof.
  revert k qs qd. induction s as [|c s IH]; intros k qs qd; simpl.
  { intros m [(c & Hc & _) _]. by destruct m. }
  assert (forall qs' qd', (forall t, quote_state qs qd (String c t) = quote_state qs' qd' t) ->
    (~ separates qs qd (String c s) 0) ->
    match separator_from (S k) qs' qd' s with
    | Some j => exists i, j = k + i /\ separates qs qd (String c s) i /\
                  forall m, m < i -> ~ separates qs qd (String c s) m
    | None => forall m, ~ separates qs qd (String c s) m
    end) as Hstep.
  { intros qs' qd' Hq H0. specialize (IH (S k) qs' qd').
    assert (forall i, separates qs qd (String c s) (S i) <-> separates qs' qd' s i) as HS.
    { intros i. unfold separates. cbn [stake at_ String.get]. by rewrite Hq. }
    destruct (separator_from (S k) qs' qd' s) as [j|].
    - destruct IH as (i & -> & Hi & Hm). exists (S i). split_and!; [lia|by apply HS|].
      intros [|m] Hlt; [done|]. rewrite HS. apply Hm. lia.
    - intros [|m]; [done|]. rewrite HS. apply IH. }
  assert (forall b, isc c b = true -> b <> rEquals -> ~ separates qs qd (String c s) 0) as Hne.
  { intros b Hb%isc_eq Hn [(d & Hd & Hv) _]. unfold at_ in Hd. simpl in Hd. congruence. }
  destruct (isc c rSQuote && negb qd) eqn:E1.
  { apply Hstep; [intros t; simpl; by rewrite E1|]. to_prop. by eapply Hne. }
  destruct (isc c rDQuote && negb qs) eqn:E2.
  { apply Hstep; [intros t; simpl; by rewrite E1, E2|]. to_prop. by eapply Hne. }
  destruct (isc c rEquals && negb qs && negb qd) eqn:E3.
  - exists 0. to_prop. subst. split_and!; [lia| |lia]. split; [|done].
    exists c. split; [done|]. by apply isc_eq.
  - apply Hstep; [intros t; simpl; by rewrite E1, E2|]. intros [(d & Hd & Hv) Hq].
    unfold at_ in Hd. simpl in Hd, Hq. simplify_eq.
    unfold isc in E3. rewrite Hv in E3. done.
Qed.

(** [findKeyValueSeparator] finds the first equals sign outside single and
    double quotes, and nothing when there is none; [splitKeyValueArg] cuts the
    text there and loses nothing. *)
Theorem splitKeyValueArg_spec s :
  match findKeyValueSeparator s with
  | Some i => separates false false s i /\ forall m, m < i -> ~ separates false false s m
  | None => forall m, ~ separates false false s m
  end /\ sconcat (splitKeyValueArg s) = s.
Proof.
  pose proof (separator_from_spec s 0 false false) as H. unfold splitKeyValueArg.
  unfold findKeyValueSeparator. destruct (separator_from 0 false false s) as [j|].
  - destruct H as (i & -> & Hi & Hm). change (0 + i) with i. split; [done|].
    destruct Hi as [(c & Hc & Hv) _]. pose proof (at_Some_lt _ _ _ Hc) as Hlt.
    destruct (sdrop_lt i s Hlt) as (d & Hd & Hs). rewrite Hd in Hc. simplify_eq.
    assert (c = "="%char) as -> by (apply byteZ_inj; by rewrite Hv).
    rewrite !sconcat_app. assert (sconcat (if 0 <? i then [stake i s] else []) = stake i s) as ->.
    { destruct i; simpl; [by destruct s|]. by rewrite sapp_nil_r. }
    assert (sconcat (if S i <? String.length s then [sdrop (S i) s] else []) = sdrop (S i) s) as ->.
    { case_test; [apply sapp_nil_r|]. to_prop. by rewrite sdrop_all. }
    change (sconcat ["="] +:+ sdrop (S i) s) with (String "="%char (sdrop (S i) s)).
    rewrite <- Hs. apply stake_sdrop.
  - split; [done|]. case_test; simpl; [to_prop; by subst|apply sapp_nil_r].
Qed.

(** *** Items of ENV, ARG, SET and LET *)

Definition ws_items (l : list item) : Prop := Forall (fun it => Typ it = itemWS) l.

(** A flag and the white space after it. *)
Definition flag_items (fs : list (item * list item)) : list item :=
  flat_map (fun '(f, ws) => f :: ws) fs.

Definition flags_ok (fs : list (item * list item)) : Prop :=
  Forall (fun '(f, ws) => is_flag f = true /\ ws_items ws) fs.

Definition flag_vals (fs : list (item * list item)) : list string := List.map (fun p => Val p.1) fs.

Lemma is_flag_Typ it : is_flag it = true -> Typ it = itemAtom.
Proof. unfold is_flag. intros H. to_prop. by apply bool_decide_eq_true in H. Qed.

Lemma skip_ws_app ws rest : ws_items ws -> skip_ws (ws ++ rest) = skip_ws rest.
Proof. induction 1 as [|it ws Hit _ IH]; simpl; [done|]. by rewrite decide_True. Qed.

Lemma skip_ws_head it rest : Typ it <> itemWS -> skip_ws (it :: rest) = it :: rest.
Proof. intros H. simpl. by rewrite decide_False. Qed.

(** The items after the flags start with the key, or there are none. *)
Definition no_flag_head (rest : list item) : Prop :=
  match rest with it :: _ => is_flag it = false /\ Typ it <> itemWS | [] => True end.

Lemma read_flags_ws ws rest : ws_items ws -> read_flags (ws ++ rest) true = read_flags rest true.
Proof.
  induction 1 as [|it ws Hit _ IH]; simpl; [done|]. by rewrite bool_decide_eq_true_2.
Qed.

Lemma read_flags_stop b rest : no_flag_head rest -> read_flags rest b = ([], rest).
Proof.
  destruct rest as [|it rest]; simpl; [done|]. intros [-> Hw].
  rewrite bool_decide_eq_false_2 by done. by rewrite andb_false_r.
Qed.

Lemma read_flags_spec fs rest b :
  flags_ok fs -> no_flag_head rest ->
  read_flags (flag_items fs ++ rest) b = (flag_vals fs, rest).
Proof.
  intros Hf Hr. revert b. induction Hf as [|[f ws] fs [Hfl Hws] _ IH]; intros b; simpl.
  - by apply read_flags_stop.
  - rewrite Hfl, <- app_assoc. apply is_flag_Typ in Hfl as ->.
    rewrite andb_false_r, read_flags_ws, IH by done. done.
Qed.

Lemma skip_ws_flags ws fs rest :
  ws_items ws -> flags_ok fs -> no_flag_head rest ->
  skip_ws (ws ++ flag_items fs ++ rest) = flag_items fs ++ rest.
Proof.
  intros Hw Hf Hr. rewrite skip_ws_app by done. destruct Hf as [|[f w] fs [Hfl _] _]; simpl.
  - destruct rest as [|it rest]; [done|]. by apply skip_ws_head, Hr.
  - apply is_flag_Typ in Hfl as ->. by rewrite decide_False.
Qed.

Definition trim_value (s : string) : string := TrimRight s (bytes_string [rSP; rTAB; rCR; rNL]).

(** The three cases of the code are one. *)
Lemma join_value_vals v rest : join_value v rest = v +:+ vals rest.
Proof.
  destruct rest as [|a [|b rest]]; simpl; [by rewrite sapp_nil_r| |done].
  destruct (String.eqb v "") eqn:E; [|done]. apply String.eqb_eq in E as ->.
  unfold vals. simpl. by rewrite sapp_nil_r.
Qed.

Lemma key_value_equals key ws1 eq ws2 value :
  findKeyValueSeparator key = None -> ws_items ws1 -> Typ eq = itemAtom -> Val eq = "=" ->
  ws_items ws2 -> match value with it :: _ => Typ it <> itemWS | [] => True end ->
  key_value key (ws1 ++ eq :: ws2 ++ value) = [key; "="; trim_value (vals value)].
Proof.
  intros Hk H1 He Hv H2 Hh. unfold key_value. rewrite Hk, skip_ws_app by done.
  rewrite skip_ws_head by by rewrite He. rewrite He, Hv. simpl String.eqb. simpl andb. cbv iota.
  rewrite skip_ws_app by done.
  assert (skip_ws value = value) as -> by (destruct value; [done|by apply skip_ws_head]).
  rewrite join_value_vals. change ("" +:+ vals value) with (vals value).
  fold (trim_value (vals value)). destruct (String.eqb (trim_value (vals value)) "") eqn:E; simpl.
  - apply String.eqb_eq in E. by rewrite E.
  - done.
Qed.

(** [ENV], [ARG], [SET] and [LET] with flags, a key, an equals sign and a
    value: the arguments are the flags in order, the key, the sign, and the
    value with the text of all its tokens (white space between them included)
    and its trailing white space removed. *)
Theorem parseKeyValueItems_assignment ws0 fs key ws1 eq ws2 value :
  ws_items ws0 -> flags_ok fs -> Typ key = itemAtom -> is_flag key = false ->
  findKeyValueSeparator (Val key) = None -> ws_items ws1 -> Typ eq = itemAtom -> Val eq = "=" ->
  ws_items ws2 -> match value with it :: _ => Typ it <> itemWS | [] => True end ->
  parseKeyValueItems (ws0 ++ flag_items fs ++ key :: ws1 ++ eq :: ws2 ++ value) =
  flag_vals fs ++ [Val key; "="; trim_value (vals value)].
Proof.
  intros H0 Hf Hk Hkf Hks H1 He Hv H2 Hh. unfold parseKeyValueItems.
  assert (no_flag_head (key :: ws1 ++ eq :: ws2 ++ value)) as Hn by (simpl; by rewrite Hk).
  rewrite skip_ws_flags, read_flags_spec by done. rewrite decide_True by done.
  by rewrite key_value_equals.
Qed.

Lemma parseKeyValueItems_assignment_witness :
  let tok s := mkItem s itemAtom 0 0 0 in
  let ws := mkItem " " itemWS 0 0 0 in
  parseKeyValueItems ([ws] ++ flag_items [(tok "--required", [ws])] ++
    tok "foo" :: [ws] ++ tok "=" :: [ws] ++ [tok "a"; ws; tok "b"; ws]) =
  ["--required"; "foo"; "="; "a b"].
Proof.
  intros tok ws. refine (parseKeyValueItems_assignment [ws] [(tok "--required", [ws])] (tok "foo")
    [ws] (tok "=") [ws] [tok "a"; ws; tok "b"; ws] _ _ _ _ _ _ _ _ _ _);
    try reflexivity; try discriminate; repeat constructor.
Defined.

Lemma all_atoms_app l m : all_atoms (l ++ m) = all_atoms l ++ all_atoms m.
Proof. apply omap_app. Qed.

Lemma all_atoms_ws ws : ws_items ws -> all_atoms ws = [].
Proof.
  induction 1 as [|it ws Hit _ IH]; [done|]. unfold all_atoms in *. simpl.
  by rewrite decide_False by congruence.
Qed.

Lemma all_atoms_flags fs : flags_ok fs -> all_atoms (flag_items fs) = flag_vals fs.
Proof.
  induction 1 as [|[f ws] fs [Hf Hw] _ IH]; [done|]. simpl flag_items.
  change (f :: ws ++ flag_items fs) with ([f] ++ (ws ++ flag_items fs)).
  rewrite !all_atoms_app, IH, (all_atoms_ws ws) by done. apply is_flag_Typ in Hf.
  unfold all_atoms. simpl. by rewrite Hf.
Qed.

(** With flags but no key the fallback appends every atom again: the
    arguments hold each flag twice. *)
Theorem parseKeyValueItems_flags_only ws0 fs :
  ws_items ws0 -> flags_ok fs ->
  parseKeyValueItems (ws0 ++ flag_items fs) = flag_vals fs ++ flag_vals fs.
Proof.
  intros H0 Hf. unfold parseKeyValueItems. rewrite <- (app_nil_r (flag_items fs)) at 1.
  rewrite skip_ws_flags, read_flags_spec by done.
  by rewrite all_atoms_app, all_atoms_ws, all_atoms_flags by done.
Qed.

Lemma parseKeyValueItems_flags_only_witness :
  let tok s := mkItem s itemAtom 0 0 0 in
  let ws := mkItem " " itemWS 0 0 0 in
  parseKeyValueItems ([ws] ++ flag_items [(tok "--required", [])]) = ["--required"; "--required"].
Proof.
  intros tok ws. refine (parseKeyValueItems_flags_only [ws] [(tok "--required", [])] _ _);
    repeat constructor.
Defined.
