(* ===== verification/Parse.v ===== *)
(** * The Earthfile parser: definitions

    A translation of the recursive descent of [internal/earthfile/parse.go], over
    any source of tokens.  A method on the parser takes the parser and returns
    its result with the parser after it; a Go error is [Err] with its message.
    Loops and the recursion between statements take fuel; [ParseFacts.v] proves
    that the fuel [Earthfile.v] gives is never exhausted. *)

From S2P Require Import Prelude GoStrings Token Scanner Ast ParseText.

Open Scope res_scope.

Record parser (S : Type) : Type := mkParser {
  lexS : S;
  itemsBuf : list item;
  token : list item;
  peekCount : nat
}.
Arguments mkParser {S} _ _ _ _.
Arguments lexS {S} _.
Arguments itemsBuf {S} _.
Arguments token {S} _.
Arguments peekCount {S} _.

(** [&parser{lex: l}] *)
Definition new_parser {S} (l : S) : parser S := mkParser l [] (replicate 3 zero_item) 0.

(** ** Token types of commands *)

Definition plain_command (t : itemType) : bool :=
  match t with
  | itemFrom | itemFromDockerfile | itemLocally | itemCopy | itemSaveArtifact
  | itemSaveImage | itemRun | itemExpose | itemVolume | itemEnv | itemArg
  | itemSet | itemLet | itemLabel | itemBuild | itemWorkdir | itemUser
  | itemCmd | itemEntrypoint | itemGitClone | itemAdd | itemStopSignal
  | itemOnBuild | itemHealthCheck | itemShell | itemDo | itemCommand
  | itemFunctionKW | itemImport | itemCache | itemHost | itemProject => true
  | _ => false
  end.

Definition isCommandToken (t : itemType) : bool :=
  plain_command t ||
  match t with
  | itemWith | itemIf | itemFor | itemWait | itemTry => true
  | _ => false
  end.

(** The tokens that start a command inside a recipe. *)
Definition recipe_command (t : itemType) : bool :=
  plain_command t || match t with itemVersion => true | _ => false end.

(** ** Errors *)

Definition errorf_text (pos : nat) (msg : string) : string :=
  "syntax error at pos " +:+ fmt_d pos +:+ ": " +:+ msg.

(** The post-processing of a command's arguments. *)
Definition finish_args (name : Cmd) (args0 : list string) : list string * bool :=
  let args := List.map replaceEscape args0 in
  match args with
  | [] => (args, false)
  | _ =>
      if String.eqb name CmdRun || String.eqb name CmdCmd ||
         String.eqb name CmdEntrypoint || String.eqb name CmdVolume then
        match parseExecForm args with
        | Some execArgs => (execArgs, true)
        | None => (args, false)
        end
      else if String.eqb name CmdLabel then (flat_map splitKeyValueArg args, false)
      else (args, false)
  end.

Definition is_key_value_cmd (name : Cmd) : bool :=
  String.eqb name CmdEnv || String.eqb name CmdArg || String.eqb name CmdSet || String.eqb name CmdLet.

(** [if execArgs, ok := parseExecForm(args); ok { ... }] *)
Definition exec_or_plain (args : list string) : list string * bool :=
  match parseExecForm args with
  | Some execArgs => (execArgs, true)
  | None => (args, false)
  end.

(** Whether the recipe starts with COMMAND or FUNCTION. *)
Definition is_function_recipe (recipe : Block) : bool :=
  match recipe with
  | mkStatement (SCommand c) _ :: _ =>
      String.eqb (cmd_Name c) CmdCommand || String.eqb (cmd_Name c) CmdFunction
  | _ => false
  end.

Definition target_to_function (t : Target) : Function_ :=
  mkFunction (target_SourceLocation t) (target_Name t) (target_Recipe t).

(** The end of [parseEarthfile]: targets whose recipe starts with COMMAND or
    FUNCTION become functions. *)
Definition split_functions (ef : Tree) : Tree :=
  mkTree (tree_Version ef) (tree_SourceLocation ef)
    (List.filter (fun t => negb (is_function_recipe (target_Recipe t))) (Targets ef))
    (Functions ef ++
     List.map target_to_function (List.filter (fun t => is_function_recipe (target_Recipe t)) (Targets ef)))
    (BaseRecipe ef).

Section Parser.
Context {S : Type} `{TokenSource S}.

Abbreviation P := (parser S).

(** ** The token window *)

Definition next (p : P) : item * P :=
  if 0 <? peekCount p then
    let n := peekCount p - 1 in
    (nth n (token p) zero_item, mkParser (lexS p) (itemsBuf p) (token p) n)
  else
    let '(it, l) := nextTok (lexS p) in
    let token' := <[0 := it]> (token p) in
    (nth 0 token' zero_item, mkParser l (itemsBuf p) token' 0).

Definition peek (p : P) : item * P :=
  if 0 <? peekCount p then (nth (peekCount p - 1) (token p) zero_item, p)
  else
    let '(it, l) := nextTok (lexS p) in
    let token' := <[0 := it]> (token p) in
    (nth 0 token' zero_item, mkParser l (itemsBuf p) token' 1).

(** [p.next()] for its effect only. *)
Definition drop_tok (p : P) : P := snd (next p).

Definition errorf {A} (pos : nat) (msg : string) : res A := Err (errorf_text pos msg).

(** ** Arguments *)

Abbreviation Loc2 := (nat * nat)%type (only parsing).

Fixpoint parseArgsUntilNL (fuel : nat) (args : list string) (p : P) : res (list string * Loc2 * P) :=
  match fuel with
  | O => NoFuel
  | Datatypes.S f =>
      let '(t, p) := peek p in
      match Typ t with
      | itemAtom => parseArgsUntilNL f (args ++ [Val t]) (drop_tok p)
      | itemWS | itemComment => parseArgsUntilNL f args (drop_tok p)
      | itemNL | itemEOLComment => Ok (args, (Line t, Col t), drop_tok p)
      | itemEOF | itemDedent => Ok (args, (Line t, Col t), p)
      | itemError => errorf (item_pos t) (Val t)
      | _ => errorf (item_pos t) ("unexpected token in args: " +:+ Val t)
      end
  end.

Definition set_itemsBuf (b : list item) (p : P) : P :=
  mkParser (lexS p) b (token p) (peekCount p).

(** The loop that fills [p.itemsBuf]. *)
Fixpoint collect_items (fuel : nat) (p : P) : res (Loc2 * P) :=
  match fuel with
  | O => NoFuel
  | Datatypes.S f =>
      let '(t, p) := peek p in
      match Typ t with
      | itemNL | itemEOLComment => Ok ((Line t, Col t), drop_tok p)
      | itemEOF | itemDedent => Ok ((Line t, Col t), p)
      | itemError => errorf (item_pos t) (Val t)
      | _ => let p := drop_tok p in collect_items f (set_itemsBuf (itemsBuf p ++ [t]) p)
      end
  end.

Definition parseKeyValueCommandArgs (fuel : nat) (p : P) : res (list string * Loc2 * P) :=
  let* (endLoc, p) := collect_items fuel (set_itemsBuf [] p) in
  Ok (parseKeyValueItems (itemsBuf p), endLoc, p).

Definition parseCommand (fuel : nat) (p : P) : res (Command * P) :=
  let '(tok, p) := next p in
  let name := Val tok in
  let* (args, endLoc, p) :=
    if is_key_value_cmd name then parseKeyValueCommandArgs fuel p
    else parseArgsUntilNL fuel [] p in
  let '(args', execMode) := finish_args name args in
  Ok (mkCommand name "" (Some (mkLoc "" (Line tok) (Col tok) (fst endLoc) (snd endLoc))) args' execMode, p).

Definition set_docs (docs : string) (c : Command) : Command :=
  mkCommand (cmd_Name c) docs (cmd_SourceLocation c) (cmd_Args c) (cmd_ExecMode c).

(** [Statement.SourceLocation] of a statement that has just been opened at [t]. *)
Definition open_loc (t : item) : option SourceLocation := Some (mkLoc "" (Line t) (Col t) 0 0).

(** [for p.peek().Typ == itemWS { p.next() }] *)
Fixpoint skip_ws_toks (fuel : nat) (p : P) : res P :=
  match fuel with
  | O => NoFuel
  | Datatypes.S f =>
      let '(t, p) := peek p in
      if decide (Typ t = itemWS) then skip_ws_toks f (drop_tok p) else Ok p
  end.

(** [if p.peek().Typ == itemDedent { p.next() }] *)
Definition skip_dedent (p : P) : P :=
  let '(t, p) := peek p in
  if decide (Typ t = itemDedent) then drop_tok p else p.

(** The end of FOR, WITH and WAIT: an optional dedent, then END and its line. *)
Definition expect_end (fuel : nat) (what : string) (p : P) : res P :=
  let '(tok, p) := peek (skip_dedent p) in
  if decide (Typ tok = itemEnd) then
    let* (_, _, p) := parseArgsUntilNL fuel [] (drop_tok p) in Ok p
  else errorf (item_pos tok) ("expected END to close " +:+ what +:+ " statement, got " +:+ Val tok).

Definition unexpected_in_recipe {A} (tok : item) : res A :=
  errorf (item_pos tok)
    ("unexpected token in recipe block: type " +:+ fmt_d (typ_number (Typ tok)) +:+ " (" +:+ Val tok +:+ ")").

(** ** Statements *)

(** The loop of [parseStmts]. *)
Fixpoint parseStmts_loop (fuel : nat) (block : Block) (pending : list string) (p : P)
    : res (Block * P) :=
  match fuel with
  | O => NoFuel
  | Datatypes.S f =>
      let '(tok, p) := peek p in
      match Typ tok with
      | itemError => errorf (item_pos tok) (Val tok)
      | itemDedent | itemEOF | itemEnd | itemElseIf | itemElse | itemCatch | itemFinally =>
          Ok (block, p)
      | itemNL | itemWS | itemEOLComment | itemIndent => parseStmts_loop f block pending (drop_tok p)
      | itemComment => parseStmts_loop f block (pending ++ [Val tok]) (drop_tok p)
      | itemIf =>
          let* (s, p) := parseIf f p in parseStmts_loop f (block ++ [stmt (SIf s)]) [] p
      | itemFor =>
          let* (s, p) := parseFor f p in parseStmts_loop f (block ++ [stmt (SFor s)]) [] p
      | itemWait =>
          let* (s, p) := parseWait f p in parseStmts_loop f (block ++ [stmt (SWait s)]) [] p
      | itemTry =>
          let* (s, p) := parseTry f p in parseStmts_loop f (block ++ [stmt (STry s)]) [] p
      | itemWith =>
          let* (s, p) := parseWith f p in parseStmts_loop f (block ++ [stmt (SWith s)]) [] p
      | t =>
          if recipe_command t then
            let* (cmd, p) := parseCommand f p in
            let cmd := match pending with [] => cmd | _ => set_docs (Join pending NLs) cmd end in
            parseStmts_loop f (block ++ [stmt (SCommand cmd)]) [] p
          else unexpected_in_recipe tok
      end
  end

with parseIf (fuel : nat) (p : P) : res (IfStatement * P) :=
  match fuel with
  | O => NoFuel
  | Datatypes.S f =>
      let '(t, p) := next p in
      let* (args, endLoc, p) := parseArgsUntilNL f [] p in
      let '(args, execMode) := exec_or_plain args in
      let loc := Some (mkLoc "" (Line t) (Col t) (fst endLoc) (snd endLoc)) in
      let* (block, p) := parseStmts_loop f [] [] p in
      parseIf_loop f loc args execMode block [] None p
  end

(** The loop of [parseIf] over ELSE IF, ELSE and END. *)
with parseIf_loop (fuel : nat) (loc : option SourceLocation) (expression : list string)
    (execMode : bool) (ifBody : Block) (elseIf : list ElseIfStatement) (elseBody : option Block)
    (p : P) : res (IfStatement * P) :=
  match fuel with
  | O => NoFuel
  | Datatypes.S f =>
      let '(tok, p) := peek p in
      match Typ tok with
      | itemDedent => parseIf_loop f loc expression execMode ifBody elseIf elseBody (drop_tok p)
      | itemElseIf =>
          let* (args, endLoc, p) := parseArgsUntilNL f [] (drop_tok p) in
          let* (eiBlock, p) := parseStmts_loop f [] [] p in
          let '(args, m) := exec_or_plain args in
          let ei := mkElseIf (Some (mkLoc "" (Line tok) (Col tok) (fst endLoc) (snd endLoc)))
                      args eiBlock m in
          parseIf_loop f loc expression execMode ifBody (elseIf ++ [ei]) elseBody p
      | itemElse =>
          let* (_, _, p) := parseArgsUntilNL f [] (drop_tok p) in
          let* (eBlock, p) := parseStmts_loop f [] [] p in
          parseIf_loop f loc expression execMode ifBody elseIf (Some eBlock) p
      | itemEnd =>
          let* (_, _, p) := parseArgsUntilNL f [] (drop_tok p) in
          Ok (mkIf elseBody loc expression elseIf ifBody execMode, p)
      | _ => errorf (item_pos tok) ("expected END to close IF statement, got " +:+ Val tok)
      end
  end

with parseFor (fuel : nat) (p : P) : res (ForStatement * P) :=
  match fuel with
  | O => NoFuel
  | Datatypes.S f =>
      let '(t, p) := next p in
      let* (args, _, p) := parseArgsUntilNL f [] p in
      let* (block, p) := parseStmts_loop f [] [] p in
      let* p := expect_end f "FOR" p in
      Ok (mkFor (open_loc t) args block, p)
  end

with parseTry (fuel : nat) (p : P) : res (TryStatement * P) :=
  match fuel with
  | O => NoFuel
  | Datatypes.S f =>
      let '(t, p) := next p in
      let* (_, _, p) := parseArgsUntilNL f [] p in
      let* (block, p) := parseStmts_loop f [] [] p in
      parseTry_loop f (open_loc t) block None None p
  end

(** The loop of [parseTry] over CATCH, FINALLY and END. *)
with parseTry_loop (fuel : nat) (loc : option SourceLocation) (tryBody : Block)
    (catchBody finallyBody : option Block) (p : P) : res (TryStatement * P) :=
  match fuel with
  | O => NoFuel
  | Datatypes.S f =>
      let '(tok, p) := peek p in
      match Typ tok with
      | itemDedent => parseTry_loop f loc tryBody catchBody finallyBody (drop_tok p)
      | itemCatch =>
          let* (_, _, p) := parseArgsUntilNL f [] (drop_tok p) in
          let* (block, p) := parseStmts_loop f [] [] p in
          parseTry_loop f loc tryBody (Some block) finallyBody p
      | itemFinally =>
          let* (_, _, p) := parseArgsUntilNL f [] (drop_tok p) in
          let* (block, p) := parseStmts_loop f [] [] p in
          parseTry_loop f loc tryBody catchBody (Some block) p
      | itemEnd =>
          let* (_, _, p) := parseArgsUntilNL f [] (drop_tok p) in
          Ok (mkTry catchBody finallyBody loc tryBody, p)
      | _ => errorf (item_pos tok) ("expected END to close TRY statement, got " +:+ Val tok)
      end
  end

with parseWith (fuel : nat) (p : P) : res (WithStatement * P) :=
  match fuel with
  | O => NoFuel
  | Datatypes.S f =>
      let '(t, p) := next p in
      let* p := skip_ws_toks f p in
      let* (cmd, p) := parseCommand f p in
      let* (block, p) := parseStmts_loop f [] [] p in
      let* p := expect_end f "WITH" p in
      Ok (mkWith (open_loc t) block cmd, p)
  end

with parseWait (fuel : nat) (p : P) : res (WaitStatement * P) :=
  match fuel with
  | O => NoFuel
  | Datatypes.S f =>
      let '(t, p) := next p in
      let* (_, _, p) := parseArgsUntilNL f [] p in
      let* (block, p) := parseStmts_loop f [] [] p in
      let* p := expect_end f "WAIT" p in
      Ok (mkWait (open_loc t) [] block, p)
  end.

Definition parseStmts (fuel : nat) (p : P) : res (Block * P) := parseStmts_loop fuel [] [] p.

(** ** Blocks of targets *)

(** The first loop of [parseBlock]: up to the indent ([true]) or to what shows
    that the block is empty ([false]). *)
Fixpoint block_header (fuel : nat) (pending : list string) (p : P) : res (bool * list string * P) :=
  match fuel with
  | O => NoFuel
  | Datatypes.S f =>
      let '(t, p) := peek p in
      match Typ t with
      | itemNL | itemWS | itemEOLComment => block_header f pending (drop_tok p)
      | itemComment => block_header f (pending ++ [Val t]) (drop_tok p)
      | itemIndent => Ok (true, pending, drop_tok p)
      | itemEOF | itemTarget | itemUserCommand | itemFunction => Ok (false, pending, p)
      | _ => errorf (item_pos t) ("expected block indentation, got " +:+ Val t)
      end
  end.

(** [computeDocs] on the comments pending before a command. *)
Definition with_docs (pending : list string) (cmd : Command) : Command :=
  match pending with [] => cmd | _ => set_docs (computeDocs pending) cmd end.

(** The second loop of [parseBlock]. *)
Fixpoint block_body (fuel : nat) (block : Block) (pending : list string) (sawNL : bool) (p : P)
    : res (Block * P) :=
  match fuel with
  | O => NoFuel
  | Datatypes.S f =>
      let '(tok, p) := peek p in
      match Typ tok with
      | itemError => errorf (item_pos tok) (Val tok)
      | itemDedent => Ok (block, drop_tok p)
      | itemEOF => Ok (block, p)
      | itemNL =>
          if sawNL then block_body f block [] false (drop_tok p)
          else block_body f block pending true (drop_tok p)
      | itemWS | itemEOLComment => block_body f block pending sawNL (drop_tok p)
      | itemComment => block_body f block (pending ++ [Val tok]) false (drop_tok p)
      | itemIf =>
          let* (s, p) := parseIf f p in block_body f (block ++ [stmt (SIf s)]) [] false p
      | itemFor =>
          let* (s, p) := parseFor f p in block_body f (block ++ [stmt (SFor s)]) [] false p
      | itemTry =>
          let* (s, p) := parseTry f p in block_body f (block ++ [stmt (STry s)]) [] false p
      | itemWith =>
          let* (s, p) := parseWith f p in block_body f (block ++ [stmt (SWith s)]) pending false p
      | itemWait =>
          let* (s, p) := parseWait f p in block_body f (block ++ [stmt (SWait s)]) [] false p
      | t =>
          if recipe_command t then
            let* (cmd, p) := parseCommand f p in
            block_body f (block ++ [stmt (SCommand (with_docs pending cmd))]) [] false p
          else unexpected_in_recipe tok
      end
  end.

Definition parseBlock (fuel : nat) (p : P) : res (Block * P) :=
  let* (indented, pending, p) := block_header fuel [] p in
  if (indented : bool) then block_body fuel [] pending false p else Ok ([], p).

(** ** The top level *)

Fixpoint parseVersion_args (fuel : nat) (args : list string) (p : P) : res (list string * Loc2 * P) :=
  match fuel with
  | O => NoFuel
  | Datatypes.S f =>
      let '(tok, p) := peek p in
      match Typ tok with
      | itemAtom => parseVersion_args f (args ++ [Val tok]) (drop_tok p)
      | itemWS => parseVersion_args f args (drop_tok p)
      | itemNL | itemComment | itemEOLComment => Ok (args, (Line tok, Col tok), drop_tok p)
      | itemEOF => Ok (args, (Line tok, Col tok), p)
      | _ => errorf (item_pos tok) ("unexpected token in VERSION command: " +:+ Val tok)
      end
  end.

Definition parseVersion (fuel : nat) (p : P) : res (Version * P) :=
  let '(tok, p) := next p in
  let* (args, endLoc, p) := parseVersion_args fuel [] p in
  Ok (mkVersion (Some (mkLoc "" (Line tok) (Col tok) (fst endLoc) (snd endLoc))) args, p).

Definition parseTarget (fuel : nat) (p : P) : res (Target * P) :=
  let '(tok, p) := next p in
  let* (block, p) := parseBlock fuel p in
  let '(e, p) := peek p in
  Ok (mkTarget (Some (mkLoc "" (Line tok) (Col tok) (Line e) (Col e)))
        (TrimSuffix (Val tok) ":") "" block, p).

Definition parseFunction (fuel : nat) (p : P) : res (Function_ * P) :=
  let '(tok, p) := peek p in
  let* (block, p) := parseBlock fuel (drop_tok p) in
  Ok (mkFunction (open_loc tok) (Val tok) block, p).

Definition add_base (s : Statement) (ef : Tree) : Tree :=
  mkTree (tree_Version ef) (tree_SourceLocation ef) (Targets ef) (Functions ef) (BaseRecipe ef ++ [s]).

Definition add_target (t : Target) (ef : Tree) : Tree :=
  mkTree (tree_Version ef) (tree_SourceLocation ef) (Targets ef ++ [t]) (Functions ef) (BaseRecipe ef).

Definition add_function (t : Function_) (ef : Tree) : Tree :=
  mkTree (tree_Version ef) (tree_SourceLocation ef) (Targets ef) (Functions ef ++ [t]) (BaseRecipe ef).

Definition set_version (v : Version) (ef : Tree) : Tree :=
  mkTree (Some v) (tree_SourceLocation ef) (Targets ef) (Functions ef) (BaseRecipe ef).

Definition empty_tree : Tree := mkTree None None [] [] [].

Definition set_target_docs (pending : list string) (t : Target) : Target :=
  match pending with
  | [] => t
  | _ => mkTarget (target_SourceLocation t) (target_Name t) (computeDocs pending) (target_Recipe t)
  end.

(** The loop of [parseEarthfile]. *)
Fixpoint parseEarthfile_loop (fuel : nat) (ef : Tree) (pending : list string) (sawNL : bool) (p : P)
    : res Tree :=
  match fuel with
  | O => NoFuel
  | Datatypes.S f =>
      let '(tok, p) := peek p in
      match Typ tok with
      | itemEOF => Ok (split_functions ef)
      | itemError => errorf (item_pos tok) (Val tok)
      | itemNL =>
          if sawNL then parseEarthfile_loop f ef [] false (drop_tok p)
          else parseEarthfile_loop f ef pending true (drop_tok p)
      | itemWS | itemEOLComment => parseEarthfile_loop f ef pending sawNL (drop_tok p)
      | itemComment => parseEarthfile_loop f ef (pending ++ [Val tok]) false (drop_tok p)
      | itemVersion =>
          if 1 <? Col tok then
            errorf (item_pos tok) "VERSION command must start at the beginning of the line"
          else
            let* (v, p) := parseVersion f p in
            parseEarthfile_loop f (set_version v ef) [] false p
      | itemTarget =>
          if 1 <? Col tok then
            errorf (item_pos tok) "target must start at the beginning of the line"
          else
            let* (t, p) := parseTarget f p in
            parseEarthfile_loop f (add_target (set_target_docs pending t) ef) [] false p
      | itemFunction | itemUserCommand =>
          if 1 <? Col tok then
            errorf (item_pos tok) "function/command must start at the beginning of the line"
          else
            let* (fn, p) := parseFunction f p in
            parseEarthfile_loop f (add_function fn ef) pending false p
      | itemIf =>
          let* (s, p) := parseIf f p in
          parseEarthfile_loop f (add_base (stmt (SIf s)) ef) pending false p
      | itemWith =>
          let* (s, p) := parseWith f p in
          parseEarthfile_loop f (add_base (stmt (SWith s)) ef) pending false p
      | itemFor =>
          let* (s, p) := parseFor f p in
          parseEarthfile_loop f (add_base (stmt (SFor s)) ef) pending false p
      | itemTry =>
          let* (s, p) := parseTry f p in
          parseEarthfile_loop f (add_base (stmt (STry s)) ef) pending sawNL p
      | itemWait =>
          let* (s, p) := parseWait f p in
          parseEarthfile_loop f (add_base (stmt (SWait s)) ef) pending sawNL p
      | t =>
          if isCommandToken t then
            if 1 <? Col tok then
              errorf (item_pos tok) "command at top level must start at the beginning of the line"
            else
              let* (cmd, p) := parseCommand f p in
              parseEarthfile_loop f (add_base (stmt (SCommand (with_docs pending cmd))) ef) [] sawNL p
          else
            errorf (item_pos tok)
              ("unexpected token at top level: type " +:+ fmt_d (typ_number t) +:+ " (" +:+ Val tok +:+
               ") at line " +:+ fmt_d (Line tok))
      end
  end.

Definition parseEarthfile (fuel : nat) (p : P) : res Tree :=
  parseEarthfile_loop fuel empty_tree [] false p.

End Parser.
