(* ===== verification/ParseFacts.v ===== *)
(** * The Earthfile parser: termination and source locations

    For any token source that satisfies [TokenSourceLaws], every function of the
    parser finishes when its fuel is three times the number of tokens left (plus
    two), consumes tokens and never gives any back, and writes in the tree only
    coordinates of tokens it has read. *)

From S2P Require Import Prelude GoStrings Token Scanner Ast ParseText Parse.

Section Facts.
Context {S : Type} `{TokenSource S} (good : item -> Prop) `{!TokenSourceLaws S good}.

Abbreviation P := (parser S).

(** ** The token window *)

(** The token [peek] has put in the window. *)
Definition window (t : item) (p : P) : Prop :=
  peekCount p = 1 /\ nth 0 (token p) zero_item = t.

Record pok (p : P) : Prop := mkPok {
  pok_source : source_ok (lexS p);
  pok_token : length (token p) = 3;
  pok_window : peekCount p = 0 \/ exists t, window t p /\ good t
}.

(** Tokens other than EOF that the parser can still read, at most. *)
Definition tokens_ahead (p : P) : nat :=
  budget (lexS p) +
  if decide (peekCount p = 0 \/ Typ (nth 0 (token p) zero_item) = itemEOF) then 0 else 1.

Definition at_most (n : nat) (p : P) : Prop := pok p /\ tokens_ahead p <= n.

Lemma tokens_ahead_0 p : peekCount p = 0 -> tokens_ahead p = budget (lexS p).
Proof. intros Hz. unfold tokens_ahead. rewrite decide_True by auto. lia. Qed.

Lemma tokens_ahead_budget p : budget (lexS p) <= tokens_ahead p.
Proof. unfold tokens_ahead. lia. Qed.

Lemma nth_insert_0 (l : list item) it : length l = 3 -> nth 0 (<[0 := it]> l) zero_item = it.
Proof. by destruct l. Qed.

Lemma peek_spec n p t p' :
  at_most n p -> peek p = (t, p') -> at_most n p' /\ window t p' /\ good t.
Proof.
  intros [[Hs Ht Hw] Hb] E. unfold peek in E. destruct (0 <? peekCount p) eqn:E0.
  - injection E as <- <-. destruct Hw as [Hw|(t & [Hw1 Hw2] & Hg)]; to_prop; [lia|].
    rewrite Hw1. simpl (1 - 1). rewrite Hw2. split_and!; try done. split; [|done]. split; eauto.
    right. exists t. done.
  - to_prop. pose proof (nextTok_ok _ Hs) as H1. pose proof (nextTok_good _ Hs) as H2.
    pose proof (nextTok_le _ Hs) as H3. pose proof (nextTok_lt _ Hs) as H4.
    destruct (nextTok (lexS p)) as [it l]. injection E as <- <-. simpl in *.
    rewrite nth_insert_0 by done.
    split; [|by split; [split; [done|by apply nth_insert_0]|]]. split.
    + split; simpl; [done|by rewrite length_insert|]. right. exists it.
      split; [split; [done|by apply nth_insert_0]|done].
    + unfold tokens_ahead in *. simpl peekCount. simpl token. simpl lexS. rewrite nth_insert_0 by done.
      repeat case_decide; try lia.
      destruct (decide (Typ it = itemEOF)) as [He|He]; [tauto|]. specialize (H4 He). lia.
Qed.

Lemma peek_window t p : window t p -> peek p = (t, p).
Proof. intros [Hc Ht]. unfold peek. rewrite Hc. simpl (0 <? 1). by rewrite <- Ht. Qed.

Lemma next_window n p t :
  at_most n p -> window t p ->
  fst (next p) = t /\ at_most n (snd (next p)) /\
  (Typ t <> itemEOF -> exists m, n = Datatypes.S m /\ at_most m (snd (next p))).
Proof.
  intros [[Hs Ht Hw] Hb] [Hw1 Hw2]. unfold next. rewrite Hw1. simpl (0 <? 1). cbn [fst snd].
  assert (pok (mkParser (lexS p) (itemsBuf p) (token p) (1 - 1))) as Hp by (split; simpl; auto).
  pose proof (tokens_ahead_budget p).
  split_and!; [done| |].
  - split; [done|]. rewrite tokens_ahead_0; simpl; [lia|done].
  - intros He. unfold tokens_ahead in Hb.
    rewrite decide_False in Hb by (rewrite Hw2; intros [?|?]; [lia|tauto]).
    destruct n as [|m]; [lia|]. exists m. split; [done|]. split; [done|].
    rewrite tokens_ahead_0; simpl; [lia|done].
Qed.

Lemma next_spec n p t p' :
  at_most n p -> next p = (t, p') -> at_most n p' /\ good t.
Proof.
  intros Hp E. destruct (pok_window _ (proj1 Hp)) as [Hw|(u & Hw & Hg)].
  - destruct (peek p) as [u q] eqn:Eq. apply (peek_spec n) in Eq as (Hq & Hwq & Hg) ; [|done].
    destruct Hp as [[Hs Ht _] Hb]. unfold next in E. rewrite Hw in E. simpl in E.
    pose proof (nextTok_ok _ Hs) as H1. pose proof (nextTok_good _ Hs) as H2.
    pose proof (nextTok_le _ Hs) as H3.
    destruct (nextTok (lexS p)) as [it l]. injection E as <- <-. simpl in *.
    rewrite nth_insert_0 by done. split; [|done]. split.
    + split; simpl; [done|by rewrite length_insert|by left].
    + rewrite tokens_ahead_0 in * by done. simpl. lia.
  - destruct (next_window n p u Hp Hw) as (H1 & H2 & _). rewrite E in *. simpl in *. by subst.
Qed.

Lemma drop_left n p t :
  at_most n p -> window t p -> Typ t <> itemEOF ->
  exists m, n = Datatypes.S m /\ at_most m (drop_tok p).
Proof. intros Hp Hw. by apply (next_window n p t Hp Hw). Qed.

Lemma at_most_mono n m p : at_most n p -> n <= m -> at_most m p.
Proof. intros [? ?] ?. split; [done|lia]. Qed.

Lemma at_most_buf n b p : at_most n p -> at_most n (set_itemsBuf b p).
Proof. intros [[Hs Ht Hw] Hb]. split; [|done]. by split. Qed.

(** ** Coordinates *)

Definition here (c : nat * nat) : Prop := exists t, good t /\ c = (Line t, Col t).

(** A location of the tree starts at a token and ends at one, or its end has not
    been set (FOR, TRY, WITH, WAIT and functions). *)
Definition loc_ok (l : option SourceLocation) : Prop :=
  match l with
  | None => True
  | Some s => here (StartLine s, StartColumn s) /\
      (here (EndLine s, EndColumn s) \/ (EndLine s, EndColumn s) = (0, 0))
  end.

Abbreviation block_ok b := (Forall loc_ok (flat_map locs_statement b)).
Abbreviation kind_ok k := (Forall loc_ok (locs_kind k)).

Lemma here_tok t : good t -> here (Line t, Col t).
Proof. intros. by exists t. Qed.

Lemma loc_ok_full t e : good t -> here e -> loc_ok (Some (mkLoc "" (Line t) (Col t) (fst e) (snd e))).
Proof. intros Ht He. destruct e. split; simpl; [by apply here_tok|by left]. Qed.

Lemma loc_ok_open t : good t -> loc_ok (open_loc t).
Proof. intros Ht. split; simpl; [by apply here_tok|by right]. Qed.

Lemma block_ok_snoc b k : block_ok b -> kind_ok k -> block_ok (b ++ [stmt k]).
Proof.
  intros Hb Hk. rewrite flat_map_app. apply Forall_app. split; [done|]. simpl.
  rewrite app_nil_r. by constructor.
Qed.

Hint Resolve here_tok loc_ok_full loc_ok_open block_ok_snoc at_most_buf : prs.

(** What a parsing function promises: at most [n] tokens are left, and the
    result satisfies [Q]. *)
Definition leaves {A} (n : nat) (Q : A -> Prop) (r : res (A * P)) : Prop :=
  result_is (fun x => at_most n (snd x) /\ Q (fst x)) r.

Lemma leaves_result {A B} (Q : A -> Prop) (R : B -> Prop) n m (k : A * P -> res B) :
  leaves n Q m -> (forall a p, at_most n p -> Q a -> result_is R (k (a, p))) -> result_is R (rbind m k).
Proof. intros Hm Hk. eapply result_is_bind; [done|]. intros [a p] [? ?]. by apply Hk. Qed.

Lemma leaves_bind {A B} (Q : A -> Prop) (R : B -> Prop) n n' m (k : A * P -> res (B * P)) :
  leaves n Q m -> (forall a p, at_most n p -> Q a -> leaves n' R (k (a, p))) -> leaves n' R (rbind m k).
Proof. apply leaves_result. Qed.

(** Read the token in the window. *)
Ltac look :=
  match goal with
  | Hp : at_most ?n ?p |- context [peek ?p] =>
      let t := fresh "t" in let q := fresh "p" in let E := fresh "E" in
      let Hq := fresh "Hq" in let Hw := fresh "Hw" in let Hg := fresh "Hg" in
      destruct (peek p) as [t q] eqn:E;
      destruct (peek_spec n p t q Hp E) as (Hq & Hw & Hg); clear E
  end.

(** Consume it, when it is not EOF. *)
Ltac eat :=
  match goal with
  | Hp : at_most ?n ?p, Hw : window ?t ?p, He : Typ ?t = ?k |- _ =>
      let m := fresh "m" in
      destruct (drop_left n p t Hp Hw ltac:(congruence)) as (m & -> & ?)
  end.

Lemma leaves_mono {A} (Q : A -> Prop) m n r : leaves m Q r -> m <= n -> leaves n Q r.
Proof.
  intros Hr Hm. eapply result_is_mono; [exact Hr|]. intros a [? ?]. split; [|done].
  by eapply at_most_mono.
Qed.

(** A branch that returns. *)
Ltac ret :=
  simpl; split; [eapply at_most_mono; [eassumption|lia]|by auto with prs].

(** A branch that goes on with a call covered by [L]. *)
Ltac goes L :=
  eapply leaves_mono; [eapply L; [eassumption|lia|..]; auto with prs|lia].

(** A call covered by [L], and what follows it. *)
Ltac call L :=
  first [eapply leaves_bind|eapply leaves_result];
  [eapply L; [eassumption|lia|..]; auto with prs|].

(** ** Loops over the tokens of a line *)

Lemma parseArgsUntilNL_ok f n args p :
  at_most n p -> n < f -> leaves n (fun x => here (snd x)) (parseArgsUntilNL f args p).
Proof.
  revert n args p. induction f as [|f IH]; intros n args p Hp Hf; [lia|]. simpl. look.
  destruct (Typ t) eqn:Et; try exact I; try ret; eat; first [ret|goes IH].
Qed.

Lemma collect_items_ok f n p :
  at_most n p -> n < f -> leaves n here (collect_items f p).
Proof.
  revert n p. induction f as [|f IH]; intros n p Hp Hf; [lia|]. simpl. look.
  assert (forall m, at_most m (drop_tok p0) -> m < f -> leaves (Datatypes.S m) here
    (collect_items f (set_itemsBuf (itemsBuf (drop_tok p0) ++ [t]) (drop_tok p0)))) as Hgo.
  { intros m Hm Hlt. eapply leaves_mono; [apply IH; [by apply at_most_buf|lia]|lia]. }
  destruct (Typ t) eqn:Et; try exact I; try ret; eat; first [ret|apply Hgo; [done|lia]].
Qed.

Lemma parseKeyValueCommandArgs_ok f n p :
  at_most n p -> n < f -> leaves n (fun x => here (snd x)) (parseKeyValueCommandArgs f p).
Proof.
  intros Hp Hf. unfold parseKeyValueCommandArgs. apply (at_most_buf n []) in Hp.
  call collect_items_ok. intros e q Hq He. done.
Qed.

Lemma parseCommand_after f n p t q :
  next p = (t, q) -> at_most n q -> good t -> n < f ->
  leaves n (fun c => loc_ok (cmd_SourceLocation c)) (parseCommand f p).
Proof.
  intros E Hq Hg Hf. unfold parseCommand. rewrite E.
  eapply (leaves_bind (fun x => here (snd x)) _ n).
  { destruct (is_key_value_cmd _); [by apply parseKeyValueCommandArgs_ok|by apply parseArgsUntilNL_ok]. }
  intros [args e] q' Hq' He. simpl in *. destruct (finish_args _ _). split; [done|by apply loc_ok_full].
Qed.

Lemma parseCommand_ok f n p :
  at_most n p -> n < f -> leaves n (fun c => loc_ok (cmd_SourceLocation c)) (parseCommand f p).
Proof.
  intros Hp Hf. destruct (next p) as [t q] eqn:E. destruct (next_spec n p t q Hp E) as [Hq Hg].
  by eapply parseCommand_after.
Qed.

(** Opening a statement: the keyword in the window is consumed. *)
Lemma next_keyword n t p :
  at_most (Datatypes.S n) p -> window t p -> Typ t <> itemEOF ->
  exists q, next p = (t, q) /\ at_most n q /\ good t.
Proof.
  intros Hp Hw He. destruct (next_window _ p t Hp Hw) as (Ht & _ & Hm).
  destruct (Hm He) as (m & [= <-] & Hq). exists (snd (next p)).
  split_and!; [rewrite (surjective_pairing (next p)); by f_equal|done|].
  destruct (pok_window _ (proj1 Hp)) as [Hz|(u & Hu & Hg)]; [destruct Hw; congruence|].
  destruct Hw, Hu. by simplify_eq.
Qed.

Lemma skip_ws_toks_ok f n p : at_most n p -> n < f -> result_is (at_most n) (skip_ws_toks f p).
Proof.
  revert n p. induction f as [|f IH]; intros n p Hp Hf; [lia|]. simpl. look.
  case_decide as Et; [|done]. eat. eapply result_is_mono; [eapply IH; [done|lia]|].
  intros q Hm. eapply at_most_mono; [done|lia].
Qed.

Lemma skip_dedent_ok n p : at_most n p -> at_most n (skip_dedent p).
Proof.
  intros Hp. unfold skip_dedent. look. case_decide as Et; [|done]. eat.
  eapply at_most_mono; [done|lia].
Qed.

Lemma expect_end_ok f n what p : at_most n p -> n < f -> result_is (at_most n) (expect_end f what p).
Proof.
  intros Hp Hf. apply skip_dedent_ok in Hp. unfold expect_end. look. case_decide as Et; [|done].
  eat. call parseArgsUntilNL_ok. intros [args e] q Hq1 He. simpl in *.
  eapply at_most_mono; [done|lia].
Qed.

(** ** Statements

    The specification of each function at a given fuel; [n] is the number of
    tokens left, after the keyword for the functions that start with one. *)

Definition stmts_ok (f : nat) : Prop := forall n block pending p,
  at_most n p -> 3 * n + 2 <= f -> block_ok block ->
  leaves n (fun b => block_ok b) (parseStmts_loop f block pending p).

Definition keyword_ok {A} (K : A -> StatementKind) (F : nat -> P -> res (A * P)) (f : nat) : Prop :=
  forall n p t, at_most (Datatypes.S n) p -> 3 * n + 4 <= f -> window t p -> Typ t <> itemEOF ->
  leaves n (fun s => kind_ok (K s)) (F f p).

Abbreviation option_ok o := (Forall loc_ok (flat_map locs_statement (from_option id [] o))).

Definition if_loop_ok (f : nat) : Prop := forall n p loc e m ib ei eb,
  at_most n p -> 3 * n + 1 <= f ->
  loc_ok loc -> block_ok ib -> Forall loc_ok (flat_map locs_elseif ei) -> option_ok eb ->
  leaves n (fun s => kind_ok (SIf s)) (parseIf_loop f loc e m ib ei eb p).

Definition try_loop_ok (f : nat) : Prop := forall n p loc tb cb fb,
  at_most n p -> 3 * n + 1 <= f ->
  loc_ok loc -> block_ok tb -> option_ok cb -> option_ok fb ->
  leaves n (fun s => kind_ok (STry s)) (parseTry_loop f loc tb cb fb p).

Ltac keyword :=
  match goal with
  | Hp : at_most (Datatypes.S ?n) ?p, Hw : window ?t ?p |- _ =>
      let q := fresh "q" in let E := fresh "E" in
      destruct (next_keyword n t p Hp Hw ltac:(done)) as (q & E & ? & ?); rewrite E; clear E
  end.

Section Step.
Variable f : nat.
Hypothesis IHs : stmts_ok f.

Lemma parseFor_step : keyword_ok SFor parseFor (Datatypes.S f).
Proof.
  intros n p t Hp Hf Hw He. simpl. keyword.
  call parseArgsUntilNL_ok. intros [args e] p1 Hp1 He1. call IHs. intros b p2 Hp2 Hb.
  eapply result_is_bind; [eapply expect_end_ok; [done|lia]|]. intros p3 Hp3.
  split; [done|]. simpl. constructor; auto with prs.
Qed.

Lemma parseWait_step : keyword_ok SWait parseWait (Datatypes.S f).
Proof.
  intros n p t Hp Hf Hw He. simpl. keyword.
  call parseArgsUntilNL_ok. intros [args e] p1 Hp1 He1. call IHs. intros b p2 Hp2 Hb.
  eapply result_is_bind; [eapply expect_end_ok; [done|lia]|]. intros p3 Hp3.
  split; [done|]. simpl. constructor; auto with prs.
Qed.

Lemma parseWith_step : keyword_ok SWith parseWith (Datatypes.S f).
Proof.
  intros n p t Hp Hf Hw He. simpl. keyword.
  eapply result_is_bind; [eapply skip_ws_toks_ok; [done|lia]|]. intros p0 Hp0.
  call parseCommand_ok. intros c p1 Hp1 Hc. call IHs. intros b p2 Hp2 Hb.
  eapply result_is_bind; [eapply expect_end_ok; [done|lia]|]. intros p3 Hp3.
  split; [done|]. simpl. constructor; auto with prs.
Qed.

Lemma parseIf_step : if_loop_ok f -> keyword_ok SIf parseIf (Datatypes.S f).
Proof.
  intros IHl n p t Hp Hf Hw He. simpl. keyword.
  call parseArgsUntilNL_ok. intros [args e] p1 Hp1 He1. destruct (exec_or_plain args) as [args' m].
  call IHs. intros b p2 Hp2 Hb. apply IHl; auto with prs; lia.
Qed.

Lemma parseTry_step : try_loop_ok f -> keyword_ok STry parseTry (Datatypes.S f).
Proof.
  intros IHl n p t Hp Hf Hw He. simpl. keyword.
  call parseArgsUntilNL_ok. intros [args e] p1 Hp1 He1.
  call IHs. intros b p2 Hp2 Hb. apply IHl; simpl; auto with prs; lia.
Qed.

Lemma parseIf_loop_step : if_loop_ok f -> if_loop_ok (Datatypes.S f).
Proof.
  intros IHl n p loc e m ib ei eb Hp Hf Hl Hib Hei Heb. simpl. look.
  destruct (Typ t) eqn:Et; try exact I; eat; try (by goes IHl);
    (call parseArgsUntilNL_ok; intros [args c] p1 Hp1 Hc).
  - call IHs. intros b p2 Hp2 Hb. destruct (exec_or_plain args) as [args' m'].
    goes IHl. rewrite flat_map_app. apply Forall_app. split; [done|]. simpl. rewrite app_nil_r.
    constructor; auto with prs.
  - call IHs. intros b p2 Hp2 Hb. goes IHl.
  - split; [eapply at_most_mono; [done|lia]|]. simpl. constructor; [done|].
    rewrite !Forall_app. split_and!; try done. by destruct eb.
Qed.

Lemma parseTry_loop_step : try_loop_ok f -> try_loop_ok (Datatypes.S f).
Proof.
  intros IHl n p loc tb cb fb Hp Hf Hl Htb Hcb Hfb. simpl. look.
  destruct (Typ t) eqn:Et; try exact I; eat; try (by goes IHl);
    (call parseArgsUntilNL_ok; intros [args c] p1 Hp1 Hc).
  - split; [eapply at_most_mono; [done|lia]|]. simpl. constructor; [done|].
    rewrite !Forall_app. split_and!; try done; [by destruct cb|by destruct fb].
  - call IHs. intros b p2 Hp2 Hb. goes IHl.
  - call IHs. intros b p2 Hp2 Hb. goes IHl.
Qed.

End Step.

(** A command at the keyword in the window. *)
Lemma parseCommand_keyword f n t p :
  at_most (Datatypes.S n) p -> n < f -> window t p -> Typ t <> itemEOF ->
  leaves n (fun c => loc_ok (cmd_SourceLocation c)) (parseCommand f p).
Proof.
  intros Hp Hf Hw He. destruct (next_keyword n t p Hp Hw He) as (q & E & Hq & Hg).
  by eapply parseCommand_after.
Qed.

Lemma command_ok c : loc_ok (cmd_SourceLocation c) -> kind_ok (SCommand c).
Proof. intros. simpl. by repeat constructor. Qed.

Lemma set_docs_ok d c : loc_ok (cmd_SourceLocation c) -> kind_ok (SCommand (set_docs d c)).
Proof. intros. by apply command_ok. Qed.

Lemma with_docs_ok d c : loc_ok (cmd_SourceLocation c) -> kind_ok (SCommand (with_docs d c)).
Proof. destruct d; [apply command_ok|apply set_docs_ok]. Qed.

Lemma join_docs_ok d c : loc_ok (cmd_SourceLocation c) ->
  kind_ok (SCommand match d with [] => c | _ => set_docs (Join d NLs) c end).
Proof. destruct d; [apply command_ok|apply set_docs_ok]. Qed.

Hint Resolve with_docs_ok join_docs_ok : prs.

(** A statement at the keyword in the window, and what follows it. *)
Ltac statement L :=
  eat; eapply leaves_bind; [eapply L; [eassumption|lia|eassumption|congruence]|];
  let s := fresh "s" in let q := fresh "q" in intros s q ? ?.

Record statements_ok (f : nat) : Prop := mkStatementsOk {
  so_stmts : stmts_ok f;
  so_if : keyword_ok SIf parseIf f;
  so_for : keyword_ok SFor parseFor f;
  so_try : keyword_ok STry parseTry f;
  so_with : keyword_ok SWith parseWith f;
  so_wait : keyword_ok SWait parseWait f;
  so_if_loop : if_loop_ok f;
  so_try_loop : try_loop_ok f
}.

Lemma parseStmts_step f : statements_ok f -> stmts_ok (Datatypes.S f).
Proof.
  intros [IHs Hif Hfor Htry Hwith Hwait _ _] n block pending p Hp Hf Hb. simpl. look.
  destruct (Typ t) eqn:Et; try exact I; try (split; done);
    first [ statement parseCommand_keyword; goes IHs
          | statement Hif; goes IHs | statement Hfor; goes IHs | statement Htry; goes IHs
          | statement Hwith; goes IHs | statement Hwait; goes IHs | eat; goes IHs ].
Qed.

Lemma all_statements_ok f : statements_ok f.
Proof.
  induction f as [|f IH].
  - split; repeat intro; lia.
  - pose proof IH as [IHs Hif Hfor Htry Hwith Hwait Hil Htl].
    split; [by apply parseStmts_step|by apply parseIf_step|by apply parseFor_step|by apply parseTry_step
      |by apply parseWith_step|by apply parseWait_step|by apply parseIf_loop_step|by apply parseTry_loop_step].
Qed.

(** ** Blocks of targets *)

Lemma block_header_ok f n pending p :
  at_most n p -> n < f -> leaves n (fun _ => True) (block_header f pending p).
Proof.
  revert n pending p. induction f as [|f IH]; intros n pending p Hp Hf; [lia|]. simpl. look.
  destruct (Typ t) eqn:Et; try exact I; try ret; eat; first [ret|goes IH].
Qed.

Lemma block_body_ok f n p block pending sawNL :
  at_most n p -> 3 * n + 2 <= f -> block_ok block ->
  leaves n (fun b => block_ok b) (block_body f block pending sawNL p).
Proof.
  revert n p block pending sawNL.
  induction f as [|f IH]; intros n p block pending sawNL Hp Hf Hb; [lia|]. simpl. look.
  pose proof (all_statements_ok f) as [_ Hif Hfor Htry Hwith Hwait _ _].
  destruct (Typ t) eqn:Et; try exact I; try ret;
    first [ statement parseCommand_keyword; goes IH
          | statement Hif; goes IH | statement Hfor; goes IH | statement Htry; goes IH
          | statement Hwith; goes IH | statement Hwait; goes IH
          | eat; ret | eat; goes IH | eat; destruct sawNL; goes IH ].
Qed.

Lemma parseBlock_ok f n p :
  at_most n p -> 3 * n + 2 <= f -> leaves n (fun b => block_ok b) (parseBlock f p).
Proof.
  intros Hp Hf. unfold parseBlock. call block_header_ok.
  intros [[] pending] q Hq _; [|by split]. by apply block_body_ok.
Qed.

(** ** The top level *)

Definition target_ok (t : Target) : Prop :=
  loc_ok (target_SourceLocation t) /\ block_ok (target_Recipe t).

Definition function_ok (t : Function_) : Prop :=
  loc_ok (fn_SourceLocation t) /\ block_ok (fn_Recipe t).

Record tree_ok (t : Tree) : Prop := mkTreeOk {
  to_loc : loc_ok (tree_SourceLocation t);
  to_version : loc_ok (tree_Version t ≫= ver_SourceLocation);
  to_targets : Forall target_ok (Targets t);
  to_functions : Forall function_ok (Functions t);
  to_base : block_ok (BaseRecipe t)
}.

Lemma tree_ok_locs t : tree_ok t -> Forall loc_ok (locs_tree t).
Proof.
  intros [Hl Hv Ht Hf Hb]. unfold locs_tree. constructor; [done|]. rewrite !Forall_app.
  split_and!; [by destruct (tree_Version t); repeat constructor| | |done]; apply Forall_flat_map.
  - eapply List.Forall_impl; [|exact Ht]. intros x [? ?]. by constructor.
  - eapply List.Forall_impl; [|exact Hf]. intros x [? ?]. by constructor.
Qed.

Lemma add_base_ok k t : kind_ok k -> tree_ok t -> tree_ok (add_base (stmt k) t).
Proof. intros ? []. split; simpl; try done. by apply block_ok_snoc. Qed.

Lemma add_target_ok x t : target_ok x -> tree_ok t -> tree_ok (add_target x t).
Proof. intros ? []. split; simpl; try done. by apply Forall_app, conj, Forall_singleton. Qed.

Lemma add_function_ok x t : function_ok x -> tree_ok t -> tree_ok (add_function x t).
Proof. intros ? []. split; simpl; try done. by apply Forall_app, conj, Forall_singleton. Qed.

Lemma set_version_ok v t : loc_ok (ver_SourceLocation v) -> tree_ok t -> tree_ok (set_version v t).
Proof. intros ? []. by split. Qed.

Lemma set_target_docs_ok d t : target_ok t -> target_ok (set_target_docs d t).
Proof. by destruct d. Qed.

Lemma split_functions_ok t : tree_ok t -> tree_ok (split_functions t).
Proof.
  intros [Hl Hv Ht Hf Hb]. split; simpl; try done.
  - rewrite List.Forall_forall in *. intros x [Hx _]%List.filter_In. auto.
  - apply Forall_app. split; [done|]. rewrite List.Forall_forall in *.
    intros y (x & <- & [Hx _]%List.filter_In)%in_map_iff. apply (Ht x Hx).
Qed.

Hint Resolve add_base_ok add_target_ok add_function_ok set_version_ok set_target_docs_ok
  split_functions_ok : prs.

Lemma parseVersion_args_ok f n args p :
  at_most n p -> n < f -> leaves n (fun x => here (snd x)) (parseVersion_args f args p).
Proof.
  revert n args p. induction f as [|f IH]; intros n args p Hp Hf; [lia|]. simpl. look.
  destruct (Typ t) eqn:Et; try exact I; try ret; eat; first [ret|goes IH].
Qed.

Lemma parseVersion_keyword f n p t :
  at_most (Datatypes.S n) p -> n < f -> window t p -> Typ t <> itemEOF ->
  leaves n (fun v => loc_ok (ver_SourceLocation v)) (parseVersion f p).
Proof.
  intros Hp Hf Hw He. unfold parseVersion. keyword. call parseVersion_args_ok.
  intros [args e] q1 Hq1 He1. split; [done|by apply loc_ok_full].
Qed.

Lemma parseTarget_keyword f n p t :
  at_most (Datatypes.S n) p -> 3 * n + 2 <= f -> window t p -> Typ t <> itemEOF ->
  leaves n target_ok (parseTarget f p).
Proof.
  intros Hp Hf Hw He. unfold parseTarget. keyword. call parseBlock_ok.
  intros b q1 Hq1 Hb. look. split; [done|]. split; [|done].
  by apply (loc_ok_full t (Line t0, Col t0)); [|apply here_tok].
Qed.

Lemma parseFunction_keyword f n p t :
  at_most (Datatypes.S n) p -> 3 * n + 2 <= f -> window t p -> Typ t <> itemEOF ->
  leaves n function_ok (parseFunction f p).
Proof.
  intros Hp Hf Hw He. unfold parseFunction, drop_tok. rewrite (peek_window t p Hw). keyword.
  cbn [snd]. call parseBlock_ok. intros b q1 Hq1 Hb. split; [done|]. split; [by apply loc_ok_open|done].
Qed.

(** A part of the file at the keyword in the window, then the rest of the file. *)
Ltac part L IH :=
  eat; try (case_test; [exact I|]);
  eapply leaves_result; [eapply L; [eassumption|lia|eassumption|congruence]|];
  let s := fresh "s" in let q := fresh "q" in intros s q ? ?;
  eapply IH; [eassumption|lia|by auto with prs].

Lemma parseEarthfile_loop_ok f n p ef pending sawNL :
  at_most n p -> 3 * n + 2 <= f -> tree_ok ef ->
  result_is tree_ok (parseEarthfile_loop f ef pending sawNL p).
Proof.
  revert n p ef pending sawNL.
  induction f as [|f IH]; intros n p ef pending sawNL Hp Hf Hef; [lia|]. simpl. look.
  pose proof (all_statements_ok f) as [_ Hif Hfor Htry Hwith Hwait _ _].
  destruct (Typ t) eqn:Et; try exact I; try (simpl; by auto with prs);
    first [ part parseCommand_keyword IH | part Hif IH | part Hfor IH | part Htry IH
          | part Hwith IH | part Hwait IH | part parseTarget_keyword IH
          | part parseFunction_keyword IH | part parseVersion_keyword IH
          | eat; eapply IH; [eassumption|lia|done]
          | eat; destruct sawNL; (eapply IH; [eassumption|lia|done]) ].
Qed.

(** The parser finishes, and every location of its tree is that of a token. *)
Lemma parseEarthfile_ok f n p :
  at_most n p -> 3 * n + 2 <= f ->
  result_is (fun t => Forall loc_ok (locs_tree t)) (parseEarthfile f p).
Proof.
  intros Hp Hf. eapply result_is_mono; [|apply tree_ok_locs].
  eapply parseEarthfile_loop_ok; [done|done|]. by split.
Qed.

Lemma new_parser_ok (l : S) : source_ok l -> at_most (budget l) (new_parser l).
Proof. intros Hl. split; [split; simpl; auto|]. by rewrite tokens_ahead_0. Qed.

End Facts.
