(* ===== verification/Validator.v ===== *)
(** * Validation of a parsed Earthfile

    A translation of [internal/earthfile/validator.go].  An [error] value is an
    [option string], the message of a non-nil error; a Go panic is [Err].  The
    theorem is that the validators accept exactly the valid trees. *)

From stdpp Require Import gmap.
From S2P Require Import Prelude GoStrings Token Ast.

Open Scope res_scope.

Abbreviation error := (option string).

Definition TargetBase : string := "base".

Definition version00 : string := "0.0".
Definition version06 : string := "0.6".
Definition version07 : string := "0.7".
Definition version08 : string := "0.8".

Definition validEarthfileVersions : list string := [version00; version06; version07; version08].

Definition errUnexpectedVersionArgs : string :=
  "unexpected VERSION arguments; should be VERSION [flags] <major-version>.<minor-version>".

(** [errors.Join(a, b)] *)
Definition errors_Join (a b : error) : error :=
  match a with
  | None => b
  | Some x => match b with None => a | Some y => Some (x +:+ NLs +:+ y) end
  end.

(** [for i := 1; i < latestIndex; i++] writes each version and a comma. *)
Definition getValidVersionsFormatted : res string :=
  if negb (String.eqb (nth 0 validEarthfileVersions "") "0.0") then
    Err "panic: validEarthfileVersions should start with 0.0"
  else
    let latestIndex := length validEarthfileVersions - 1 in
    Ok (sconcat (List.map (fun i => nth i validEarthfileVersions "" +:+ ", ") (seq 1 (latestIndex - 1)))
        +:+ "or " +:+ nth latestIndex validEarthfileVersions "").

Definition validVersion (ef : Tree) : res error :=
  match tree_Version ef with
  | None => Ok None
  | Some v =>
      if length (ver_Args v) =? 0 then Ok (Some errUnexpectedVersionArgs)
      else
        let earthFileVersion := nth (length (ver_Args v) - 1) (ver_Args v) "" in
        if existsb (String.eqb earthFileVersion) validEarthfileVersions then Ok None
        else
          let* vs := getValidVersionsFormatted in
          Ok (Some ("invalid VERSION in Earthfile, supported versions are " +:+ vs))
  end.

(** [file line:col] of a target, zero when it has no location. *)
Definition target_where (t : Target) : string :=
  let '(file, line, col) :=
    match target_SourceLocation t with
    | Some l => (File l, StartLine l, StartColumn l)
    | None => ("", 0, 0)
    end in
  file +:+ " line " +:+ fmt_d line +:+ ":" +:+ fmt_d col.

Definition duplicateTargetErr (t : Target) : string :=
  target_where t +:+ " duplicate target " +:+ dquote +:+ target_Name t +:+ dquote.

Definition reservedTargetErr (t : Target) : string :=
  target_where t +:+ " invalid target " +:+ dquote +:+ target_Name t +:+ dquote +:+ ": " +:+
  target_Name t +:+ " is a reserved target name".

Fixpoint same_name_loop (ts : list Target) (seenTargets : gset string) (err : error) : error :=
  match ts with
  | [] => err
  | t :: ts =>
      let err := if decide (target_Name t ∈ seenTargets)
                 then errors_Join err (Some (duplicateTargetErr t)) else err in
      same_name_loop ts ({[target_Name t]} ∪ seenTargets) err
  end.

Definition noTargetsWithSameName (ef : Tree) : res error := Ok (same_name_loop (Targets ef) ∅ None).

Fixpoint keyword_loop (ts : list Target) (err : error) : error :=
  match ts with
  | [] => err
  | t :: ts =>
      keyword_loop ts
        (if String.eqb (target_Name t) TargetBase then errors_Join err (Some (reservedTargetErr t)) else err)
  end.

Definition noTargetsWithKeywords (ef : Tree) : res error := Ok (keyword_loop (Targets ef) None).

Definition astValidations : list (Tree -> res error) :=
  [noTargetsWithSameName; noTargetsWithKeywords; validVersion].

Fixpoint run_validations (vs : list (Tree -> res error)) (err : error) (ef : Tree) : res error :=
  match vs with
  | [] => Ok err
  | v :: vs => let* e := v ef in run_validations vs (errors_Join err e) ef
  end.

Definition validateAst (ef : Tree) : res error :=
  let* err := run_validations astValidations None ef in
  match err with
  | Some e => Ok (Some ("validation issues: " +:+ e))
  | None => Ok None
  end.

(** ** What the validators decide *)

Definition target_names (ef : Tree) : list string := List.map target_Name (Targets ef).

Definition valid_version (ef : Tree) : Prop :=
  match tree_Version ef with
  | None => True
  | Some v => exists flags v0, ver_Args v = flags ++ [v0] /\ v0 ∈ validEarthfileVersions
  end.

Record valid (ef : Tree) : Prop := mkValid {
  valid_names : NoDup (target_names ef);
  valid_base : TargetBase ∉ target_names ef;
  valid_ver : valid_version ef
}.

Lemma errors_Join_None a b : errors_Join a b = None <-> a = None /\ b = None.
Proof. destruct a, b; simpl; naive_solver. Qed.

Lemma same_name_loop_None ts seen err :
  same_name_loop ts seen err = None <->
  err = None /\ NoDup (List.map target_Name ts) /\ Forall (fun t => target_Name t ∉ seen) ts.
Proof.
  revert seen err. induction ts as [|t ts IH]; intros seen err; simpl.
  - split; [intros ->; split_and!; [done|constructor|constructor]|naive_solver].
  - assert (Forall (fun t0 => target_Name t0 ∉ ({[target_Name t]} ∪ seen : gset string)) ts <->
      target_Name t ∉ List.map target_Name ts /\ Forall (fun t0 => target_Name t0 ∉ seen) ts) as Hts.
    { rewrite list_elem_of_fmap, !list.Forall_forall. set_solver. }
    rewrite IH, Hts, list.NoDup_cons, list.Forall_cons. case_decide; rewrite ?errors_Join_None; naive_solver.
Qed.

Lemma keyword_loop_None ts err :
  keyword_loop ts err = None <-> err = None /\ TargetBase ∉ List.map target_Name ts.
Proof.
  revert err. induction ts as [|t ts IH]; intros err; simpl.
  - split; [intros ->; split; [done|apply not_elem_of_nil]|naive_solver].
  - rewrite IH, not_elem_of_cons. destruct (String.eqb _ _) eqn:E; to_prop;
      rewrite ?errors_Join_None; naive_solver.
Qed.

Lemma nth_snoc (l : list string) x : nth (length (l ++ [x]) - 1) (l ++ [x]) "" = x.
Proof. rewrite length_app. simpl. rewrite Nat.add_sub. by rewrite nth_middle. Qed.

Lemma existsb_elem v l : existsb (String.eqb v) l = true <-> v ∈ l.
Proof.
  rewrite existsb_exists, list_elem_of_In. setoid_rewrite String.eqb_eq. naive_solver.
Qed.

(** [validVersion] never panics, and reports an error exactly on invalid versions. *)
Lemma validVersion_spec ef :
  exists e, validVersion ef = Ok e /\ (e = None <-> valid_version ef).
Proof.
  unfold validVersion, valid_version. destruct (tree_Version ef) as [v|]; [|naive_solver].
  destruct (ver_Args v) as [|x flags _] using rev_ind.
  { eexists. split; [done|]. split; [done|]. by intros ([] & ? & ? & _). }
  rewrite nth_snoc. replace (length (flags ++ [x]) =? 0) with false
    by (rewrite length_app; simpl; by rewrite Nat.add_comm).
  destruct (existsb _ _) eqn:Ex.
  - apply existsb_elem in Ex. eexists. split; [done|]. split; [|done]. intros _. eauto.
  - eexists. split; [done|]. split; [done|]. intros (f & v0 & [_ [= <-]]%app_inj_tail & Hv).
    apply existsb_elem in Hv. congruence.
Qed.

(** The composed validator: no panic, and no error exactly on the valid trees. *)
Lemma validateAst_valid ef : exists e, validateAst ef = Ok e /\ (e = None <-> valid ef).
Proof.
  destruct (validVersion_spec ef) as (e3 & E3 & H3).
  set (e1 := same_name_loop (Targets ef) ∅ None). set (e2 := keyword_loop (Targets ef) None).
  assert (valid ef <-> e1 = None /\ e2 = None /\ e3 = None) as Hv.
  { unfold e1, e2. rewrite same_name_loop_None, keyword_loop_None, H3.
    assert (Forall (fun t => target_Name t ∉ (∅ : gset string)) (Targets ef)) by
      (apply Forall_true; set_solver).
    split; [intros []; naive_solver|]. intros. by split; naive_solver. }
  assert (validateAst ef = match errors_Join (errors_Join (errors_Join None e1) e2) e3 with
    | Some e => Ok (Some ("validation issues: " +:+ e)) | None => Ok None end) as Ev.
  { unfold validateAst. simpl. by rewrite E3. }
  rewrite Ev. clear Ev. destruct (errors_Join _ _) eqn:E.
  - eexists. split; [done|]. split; [done|]. intros Hval.
    assert (errors_Join (errors_Join (errors_Join None e1) e2) e3 = None) as E'
      by (rewrite !errors_Join_None; naive_solver). congruence.
  - eexists. split; [done|]. rewrite !errors_Join_None in E. naive_solver.
Qed.

(** The validators accept exactly the valid trees: validation never panics,
    and reports no error if and only if no two targets share a name, none is
    called base, and VERSION, when present, has arguments and the last of them is
    a supported version. *)
Theorem validateAst_spec ef :
  (exists e, validateAst ef = Ok e) /\ (validateAst ef = Ok None <-> valid ef).
Proof.
  destruct (validateAst_valid ef) as (e & E & H). split; [eauto|]. rewrite E, <- H. naive_solver.
Qed.
