(* ===== verification/Earthfile.v ===== *)
(** * Reading an Earthfile

    The entry points of [internal/earthfile]: [Parse] of [parse.go], which
    composes the lexer, the parser, a pass over source locations and the
    validators, and the reader of the VERSION command of [version.go].  The
    options of both are the one boolean [enableSourceMap] they set. *)

From S2P Require Import Prelude GoStrings Token Lex LexLoops LexInv Scanner Ast ParseText Parse ParseFacts Validator.

Open Scope res_scope.

(** Fuel for the parser of a text: three times a bound on its tokens, and two.
    [Parse_finishes] shows that it is enough. *)
Definition parse_fuel (text : string) : nat := 3 * (15 * String.length text + 18) + 2.

(** ** The reader of the VERSION command *)

Section VersionReader.
Context {S : Type} `{TokenSource S}.

Fixpoint version_args (fuel : nat) (args : list string) (l : S) : res (list string * (nat * nat)) :=
  match fuel with
  | O => NoFuel
  | Datatypes.S f =>
      let '(argTok, l) := nextTok l in
      match Typ argTok with
      | itemAtom => version_args f (args ++ [Val argTok]) l
      | itemWS => version_args f args l
      | itemNL | itemComment | itemEOLComment | itemEOF => Ok (args, (Line argTok, Col argTok))
      | _ => Err ("unexpected token in VERSION command: " +:+ Val argTok)
      end
  end.

Fixpoint version_scan (fuel : nat) (name : string) (enableSourceMap : bool) (l : S) : res (option Version) :=
  match fuel with
  | O => NoFuel
  | Datatypes.S f =>
      let '(tok, l) := nextTok l in
      match Typ tok with
      | itemEOF => Ok None
      | itemError => Err ("read earthfile " +:+ name +:+ ": " +:+ Val tok)
      | itemNL | itemWS | itemComment | itemEOLComment => version_scan f name enableSourceMap l
      | itemVersion =>
          let* (args, e) := version_args f [] l in
          let loc := if enableSourceMap
                     then Some (mkLoc name (Line tok) (Col tok) (fst e) (snd e)) else None in
          Ok (Some (mkVersion loc args))
      | _ => Ok None
      end
  end.
End VersionReader.

Section VersionFinishes.
Context {S : Type} `{TokenSource S} (good : item -> Prop) `{!TokenSourceLaws S good}.

Lemma source_step (l : S) it l' n :
  source_ok l -> budget l <= n -> nextTok l = (it, l') ->
  source_ok l' /\ (Typ it <> itemEOF -> budget l' < n).
Proof.
  intros Hl Hn E. pose proof (nextTok_ok l Hl) as H1. pose proof (nextTok_lt l Hl) as H2.
  rewrite E in *. simpl in *. split; [done|]. intros He. specialize (H2 He). lia.
Qed.

Lemma version_args_finishes f args (l : S) :
  source_ok l -> budget l < f -> finished (version_args f args l).
Proof.
  revert args l. induction f as [|f IH]; intros args l Hl Hf; [lia|]. simpl.
  destruct (nextTok l) as [it l'] eqn:E. destruct (source_step l it l' f Hl ltac:(lia) E) as [Hl' Hb].
  destruct (Typ it) eqn:Et; try done; apply IH; auto.
Qed.

Lemma version_scan_finishes f name b (l : S) :
  source_ok l -> budget l < f -> finished (version_scan f name b l).
Proof.
  revert l. induction f as [|f IH]; intros l Hl Hf; [lia|]. simpl.
  destruct (nextTok l) as [it l'] eqn:E. destruct (source_step l it l' f Hl ltac:(lia) E) as [Hl' Hb].
  destruct (Typ it) eqn:Et; try done; try (apply IH; by auto).
  apply rbind_finished; [apply version_args_finishes; auto|]. by intros [].
Qed.
End VersionFinishes.

(** ** The reader of the VERSION command against the parser *)

Section Agreement.
Context {S : Type} `{TokenSource S}.

(** A parser at the state [l] of the source, with an empty window. *)
Definition fresh_at (l : S) (p : parser S) : Prop :=
  lexS p = l /\ peekCount p = 0 /\ length (token p) = 3.

Lemma peek_fresh l p it l' :
  fresh_at l p -> nextTok l = (it, l') ->
  exists q, peek p = (it, q) /\ next q = (it, drop_tok q) /\ fresh_at l' (drop_tok q).
Proof.
  intros (<- & Hc & Hlen) E. unfold peek. rewrite Hc, E. simpl (0 <? 0). cbv iota beta.
  rewrite nth_insert_0 by done. eexists. split; [done|]. unfold drop_tok, next. simpl.
  destruct (token p); [done|]. split; [done|]. by split_and!.
Qed.

Lemma version_args_agree f args l p :
  fresh_at l p ->
  match version_args f args l with
  | Ok (a, e) => exists q, parseVersion_args f args p = Ok (a, e, q)
  | Err _ => exists e, parseVersion_args f args p = Err e
  | NoFuel => parseVersion_args f args p = NoFuel
  end.
Proof.
  revert args l p. induction f as [|f IH]; intros args l p Hp; [done|]. simpl.
  destruct (nextTok l) as [it l'] eqn:E. destruct (peek_fresh l p it l' Hp E) as (q & -> & _ & Hq).
  destruct (Typ it); simpl; eauto; by apply IH.
Qed.

(** Once a VERSION has been read the tree keeps one. *)
Lemma parseEarthfile_loop_version f ef pending sawNL (p : parser S) t :
  parseEarthfile_loop f ef pending sawNL p = Ok t ->
  tree_Version ef <> None -> tree_Version t <> None.
Proof.
  revert ef pending sawNL p. induction f as [|f IH]; intros ef pending sawNL p E Hv; [done|]. simpl in E.
  destruct (peek p) as [it q]. revert E. destruct (Typ it); simpl; try done;
    repeat match goal with
    | |- context [if ?b then _ else _] => destruct b
    | |- rbind ?m _ = _ -> _ => destruct m as [[]| |] eqn:?; simpl; try done
    end; try done; try (intros E; by apply IH in E).
  by intros [= <-].
Qed.

Lemma version_scan_agree f name b l p ef pending sawNL :
  fresh_at l p ->
  match version_scan f name b l with
  | Ok (Some v) => forall t, parseEarthfile_loop f ef pending sawNL p = Ok t -> tree_Version t <> None
  | Ok None => True
  | Err _ => exists e, parseEarthfile_loop f ef pending sawNL p = Err e
  | NoFuel => True
  end.
Proof.
  revert l p ef pending sawNL. induction f as [|f IH]; intros l p ef pending sawNL Hp; [done|].
  simpl. destruct (nextTok l) as [it l'] eqn:E.
  destruct (peek_fresh l p it l' Hp E) as (q & -> & Hn & Hq).
  destruct (Typ it) eqn:Et; simpl; eauto.
  all: try (by apply IH).
  { destruct sawNL; by apply IH. }
  pose proof (version_args_agree f [] l' (drop_tok q) Hq) as Ha.
  unfold parseVersion. rewrite Hn. destruct (version_args f [] l') as [[a e]|e|]; simpl; [|..|done].
  - intros t. destruct (1 <? Col it); [done|]. destruct Ha as [q' ->]. simpl.
    intros Ht. by eapply parseEarthfile_loop_version.
  - destruct (1 <? Col it); [by eexists|]. destruct Ha as [e' ->]. by eexists.
Qed.
End Agreement.

Section Earthfile.
Context `{Unicode}.

(** [parseVersion] of version.go *)
Definition readVersion (text name : string) (enableSourceMap : bool) : res (option Version) :=
  version_scan (parse_fuel text) name enableSourceMap (lex name text).

(** ** [Parse] *)

Definition locate (name : string) (enableSourceMap : bool) (ef : Tree) : Tree :=
  if enableSourceMap then setSourceLocationFile ef name else removeSourceLocations ef.

Definition Parse (name text : string) (enableSourceMap : bool) : res Tree :=
  let* ef := parseEarthfile (parse_fuel text) (new_parser (lex name text)) in
  let ef := locate name enableSourceMap ef in
  let* err := validateAst ef in
  match err with
  | Some e => Err e
  | None => Ok ef
  end.

(** ** Termination and locations *)

(** A location of a tree parsed from [text]. *)
Definition in_text (text : string) (line col : nat) : Prop := exists p, reach text p line col.

Lemma lex_source_ok name text : source_ok (TokenSourceLaws := lexer_source_laws text) (lex name text).
Proof. split; [done|]. exists 0. apply lex_SInv. Qed.

Lemma lex_budget name text : tokens_left (lex name text) <= 15 * String.length text + 18.
Proof. unfold tokens_left, calls_left, measure, rem, input_len. simpl. lia. Qed.

Lemma lex_at_most name text :
  at_most (placed text) (15 * String.length text + 18) (new_parser (lex name text)).
Proof. eapply at_most_mono; [apply new_parser_ok, lex_source_ok|]. apply lex_budget. Qed.

Lemma parseEarthfile_lex name text :
  result_is (fun t => Forall (loc_ok (placed text)) (locs_tree t))
    (parseEarthfile (parse_fuel text) (new_parser (lex name text))).
Proof. eapply parseEarthfile_ok; [apply lex_at_most|]. unfold parse_fuel. lia. Qed.

(** [locate] keeps what the validators look at. *)
Lemma locate_names name b t : target_names (locate name b t) = target_names t.
Proof. destruct b; unfold target_names; simpl; rewrite List.map_map; done. Qed.

Lemma locate_version name b t : valid_version (locate name b t) <-> valid_version t.
Proof. destruct b; unfold valid_version; simpl; by destruct (tree_Version t). Qed.

Lemma locate_valid name b t : valid (locate name b t) <-> valid t.
Proof.
  split; intros [H1 H2 H3]; rewrite ?locate_names, ?locate_version in *; split;
    rewrite ?locate_names, ?locate_version; done.
Qed.

(** [Parse] is the parser, then [locate], on the trees that are valid. *)
Lemma Parse_Ok name text b t :
  Parse name text b = Ok t <->
  exists t0, parseEarthfile (parse_fuel text) (new_parser (lex name text)) = Ok t0 /\
    valid t0 /\ t = locate name b t0.
Proof.
  unfold Parse. destruct (parseEarthfile _ _) as [t0|e|] eqn:E; simpl; [|naive_solver..].
  destruct (validateAst_valid (locate name b t0)) as (e & -> & He). rewrite locate_valid in He.
  destruct e; naive_solver.
Qed.

(** C5. Parsing terminates on every text, with a tree or an error: the fuel is
    never exhausted, with or without the source map. *)
Theorem Parse_finishes name text b : finished (Parse name text b).
Proof.
  unfold Parse. pose proof (parseEarthfile_lex name text) as Hp.
  destruct (parseEarthfile _ _) as [t0|e|]; simpl in *; [|done|done].
  destruct (validateAst_valid (locate name b t0)) as ([] & -> & _); done.
Qed.

(** C32. In a tree parsed with the source map every location names the file, it
    starts at the line and column of a byte of the text (or of its end), and it
    ends at one, unless its end was left unset. *)
Theorem Parse_locations name text t :
  Parse name text true = Ok t ->
  Forall (fun l => match l with
    | None => True
    | Some s => File s = name /\ in_text text (StartLine s) (StartColumn s) /\
        (in_text text (EndLine s) (EndColumn s) \/ (EndLine s = 0 /\ EndColumn s = 0))
    end) (locs_tree t).
Proof.
  intros (t0 & E & _ & ->)%Parse_Ok. pose proof (parseEarthfile_lex name text) as Hp.
  rewrite E in Hp. simpl in *. unfold setSourceLocationFile. rewrite locs_map_tree.
  apply Forall_map. eapply List.Forall_impl; [|exact Hp].
  intros [s|]; simpl; [|done]. intros [(t1 & Ht1 & [= -> ->]) Hend]. split_and!; [done|by eexists|].
  destruct Hend as [(t2 & Ht2 & [= -> ->])|[= -> ->]]; [left; by eexists|by right].
Qed.

Lemma map_is_function f r : is_function_recipe (map_block f r) = is_function_recipe r.
Proof. by destruct r as [|[[] ?] r]. Qed.

Lemma parseEarthfile_loop_split f ef pending sawNL (p : parser lexer) t :
  parseEarthfile_loop f ef pending sawNL p = Ok t -> exists ef', t = split_functions ef'.
Proof.
  revert ef pending sawNL p. induction f as [|f IH]; intros ef pending sawNL p E; [done|]. simpl in E.
  destruct (peek p) as [it q]. revert E. destruct (Typ it); simpl; try done;
    repeat match goal with
    | |- context [if ?b then _ else _] => destruct b
    | |- rbind ?m _ = _ -> _ => destruct m as [[]| |] eqn:?; simpl; try done
    end; try done; try apply IH.
  intros [= <-]. by eexists.
Qed.

Lemma locate_targets name b t :
  Forall (fun t => is_function_recipe (target_Recipe t) = false) (Targets (locate name b (split_functions t))).
Proof.
  assert (Forall (fun t => is_function_recipe (target_Recipe t) = false) (Targets (split_functions t))) as Hs.
  { apply List.Forall_forall. intros x [_ Hx]%List.filter_In. by apply negb_true_iff. }
  destruct b; simpl; apply Forall_map; (eapply List.Forall_impl; [|exact Hs]); intros x Hx; simpl;
    by rewrite map_is_function.
Qed.

(** C11. A tree that [Parse] returns is valid: its targets have distinct names,
    none is called base, its version, when present, is a supported one, and no
    target is a function in disguise (its recipe does not start with COMMAND or
    FUNCTION). *)
Theorem Parse_valid name text b t :
  Parse name text b = Ok t ->
  valid t /\ Forall (fun t => is_function_recipe (target_Recipe t) = false) (Targets t).
Proof.
  intros (t0 & E & Hv & ->)%Parse_Ok. split; [by apply locate_valid|].
  destruct (parseEarthfile_loop_split _ _ _ _ _ _ E) as [ef ->]. apply locate_targets.
Qed.

(** The source map changes only locations: [Parse] accepts the same texts
    with and without it, and the tree without is the tree with it stripped of its
    locations. *)
Theorem Parse_source_map name text t :
  Parse name text false = Ok t <->
  exists t', Parse name text true = Ok t' /\ t = removeSourceLocations t'.
Proof.
  rewrite Parse_Ok. split.
  - intros (t0 & E & Hv & ->). exists (locate name true t0). rewrite Parse_Ok. split; [eauto|].
    simpl. by rewrite remove_set.
  - intros (t' & (t0 & E & Hv & ->)%Parse_Ok & ->). exists t0. split_and!; [done|done|].
    simpl. by rewrite remove_set.
Qed.

(** The quick reader of VERSION agrees with the parser: it terminates; if it
    reports an error, so does [Parse]; and if it finds a version, every tree that
    [Parse] returns has one. *)
Theorem readVersion_agrees text name b b' :
  match readVersion text name b with
  | Ok (Some v) => forall t, Parse name text b' = Ok t -> tree_Version t <> None
  | Ok None => True
  | Err _ => exists e, Parse name text b' = Err e
  | NoFuel => False
  end.
Proof.
  unfold readVersion, Parse, parseEarthfile.
  assert (fresh_at (lex name text) (new_parser (lex name text))) as Hp by done.
  pose proof (version_scan_agree (parse_fuel text) name b _ _ empty_tree [] false Hp) as Ha.
  pose proof (version_scan_finishes (placed text) (parse_fuel text) name b _ (lex_source_ok name text)) as Hf.
  destruct (version_scan _ _ _ _) as [[v|]|e|]; simpl in Ha; [|done|..].
  - destruct (parseEarthfile_loop _ _ _ _ _) as [t0|e|]; simpl; [|done|done].
    intros t Ht. destruct (validateAst _) as [[]| |]; simplify_eq/=. specialize (Ha t0 eq_refl).
    unfold locate. destruct b'; simpl; by destruct (tree_Version t0).
  - destruct Ha as [e' ->]. by eexists.
  - apply Hf; [|done]. simpl. pose proof (lex_budget name text). unfold parse_fuel. lia.
Qed.

End Earthfile.

(** ** Concrete texts *)

Definition sample_text : string :=
  "VERSION 0.8" +:+ NLs +:+ "build:" +:+ NLs +:+ "  FROM alpine" +:+ NLs +:+ "  IF true" +:+ NLs +:+
  "    RUN make" +:+ NLs +:+ "  END" +:+ NLs.

#[local] Instance all_print : Unicode := fun _ => true.

Lemma Parse_locations_witness :
  exists t, Parse "Earthfile" sample_text true = Ok t /\ Forall (fun l => match l with
    | None => True
    | Some s => File s = "Earthfile" /\ in_text sample_text (StartLine s) (StartColumn s) /\
        (in_text sample_text (EndLine s) (EndColumn s) \/ (EndLine s = 0 /\ EndColumn s = 0))
    end) (locs_tree t).
Proof.
  eexists. split; [vm_compute; reflexivity|].
  apply Parse_locations. vm_compute. reflexivity.
Defined.

Lemma Parse_valid_witness :
  exists t, Parse "Earthfile" sample_text false = Ok t /\ valid t.
Proof.
  eexists. split; [vm_compute; reflexivity|].
  apply (Parse_valid "Earthfile" sample_text false). vm_compute. reflexivity.
Defined.

Definition version_last : string := "FROM alpine" +:+ NLs +:+ "VERSION 0.8" +:+ NLs.

(** VERSION need not come first for the parser: in a file whose VERSION comes
    after another command the quick reader finds no version (it relies on VERSION
    being the first command), while [Parse] accepts the file with its version. *)
Theorem version_after_command :
  readVersion version_last "Earthfile" false = Ok None /\
  exists t, Parse "Earthfile" version_last false = Ok t /\
    tree_Version t = Some (mkVersion None ["0.8"]).
Proof.
  split; [vm_compute; reflexivity|]. eexists. split; [vm_compute; reflexivity|reflexivity].
Qed.
