(* ===== verification/CircBuf.v ===== *)
(** * The circular buffer of captured logs

    A translation of [internal/circbuf/circbuf.go].  A Go slice is its backing
    array with a length: growing the slice uncovers what the array holds, so the
    array is part of the state.  The theorem refines the ring to the contract
    its users rely on: the buffer holds the last bytes written to it. *)

From S2P Require Import Prelude.
From Stdlib Require Import Init.Byte.

Abbreviation bytes := (list Byte.byte).

(** [buf]: the backing array, [length arr] its capacity, [blen] the length. *)
Record Buffer : Type := mkBuffer {
  arr : bytes;
  blen : nat;
  off : nat
}.

Definition cap (b : Buffer) : nat := length (arr b).

(** [copy(dst[o:hi], src)] on the backing array. *)
Definition copy_at (o hi : nat) (src dst : bytes) : bytes :=
  take o dst ++ take (hi - o) src ++ drop (o + length (take (hi - o) src)) dst.

Definition ErrInvalidSize : string := "circbuf: size must be a positive int".

(** [make([]byte, 0, size)] is an array of zero bytes. *)
Definition NewBuffer (size : Z) : res Buffer :=
  if (size <=? 0)%Z then Err ErrInvalidSize
  else Ok (mkBuffer (replicate (Z.to_nat size) Byte.x00) 0 0).

(** The last phase of [Write], on a full ring. *)
Definition write_full (p : bytes) (b : Buffer) : Buffer :=
  let size := cap b in
  let rem := size - off b in
  let a := copy_at (off b) (blen b) p (arr b) in
  let a := if rem <? length p then copy_at 0 (blen b) (drop rem p) a else a in
  let o := off b + length p in
  mkBuffer a (blen b) (if size <=? o then o - size else o).

Definition Write (p : bytes) (b : Buffer) : nat * Buffer :=
  let n := length p in
  let size := cap b in
  if size <=? 0 then (n, b)
  else if size <=? n then
    (n, mkBuffer (copy_at 0 size (drop (n - size) p) (arr b)) size 0)
  else
    let free := size - blen b in
    if 0 <? free then
      if n <=? free then
        let m := blen b in
        (n, mkBuffer (copy_at m (m + n) p (arr b)) (m + n) (off b))
      else
        let m := blen b in
        let b := mkBuffer (copy_at m size (take free p) (arr b)) size 0 in
        (n, write_full (drop free p) b)
    else (n, write_full p b).

(** [make([]byte, size)] filled by the two copies. *)
Definition Bytes (b : Buffer) : bytes :=
  let size := cap b in
  if (size =? 0) || (blen b <? size) then take (blen b) (arr b)
  else
    let out := replicate size Byte.x00 in
    let out := copy_at 0 size (drop (off b) (take (blen b) (arr b))) out in
    copy_at (size - off b) size (take (off b) (arr b)) out.

(** ** The contract *)

(** The last [n] elements. *)
Definition lastn {A} (n : nat) (l : list A) : list A := drop (length l - n) l.

(** A ring that is not full has not wrapped. *)
Record wf (b : Buffer) : Prop := mkWf {
  wf_len : blen b <= cap b;
  wf_off : off b < cap b;
  wf_grow : blen b < cap b -> off b = 0
}.

Lemma copy_at_length o hi src dst :
  hi <= length dst -> length (copy_at o hi src dst) = length dst.
Proof.
  intros H. unfold copy_at. rewrite !length_app, length_drop, !length_take. lia.
Qed.

(** A copy that fits writes all of its source. *)
Lemma copy_at_fits o hi src dst :
  length src <= hi - o -> copy_at o hi src dst = take o dst ++ src ++ drop (o + length src) dst.
Proof. intros H. unfold copy_at. by rewrite (take_ge src). Qed.

(** A copy that fills its destination. *)
Lemma copy_at_fills o src dst :
  length dst - o <= length src -> o <= length dst ->
  copy_at o (length dst) src dst = take o dst ++ take (length dst - o) src.
Proof.
  intros H Ho. unfold copy_at. rewrite (drop_ge dst), app_nil_r; [done|].
  rewrite length_take. lia.
Qed.

Lemma lastn_all {A} n (l : list A) : length l <= n -> lastn n l = l.
Proof. intros H. unfold lastn. by replace (length l - n) with 0 by lia. Qed.

Lemma lastn_length {A} n (l : list A) : length (lastn n l) = min n (length l).
Proof. unfold lastn. rewrite length_drop. lia. Qed.

Lemma lastn_lastn {A} n (h p : list A) : lastn n (lastn n h ++ p) = lastn n (h ++ p).
Proof.
  unfold lastn at 1 3. rewrite !length_app, lastn_length. unfold lastn.
  destruct (decide (length h <= n)).
  - replace (length h - n) with 0 by lia. rewrite drop_0. f_equal. lia.
  - replace (h ++ p) with (take (length h - n) h ++ (drop (length h - n) h ++ p))
      by (by rewrite app_assoc, take_drop).
    rewrite (drop_app_ge (take _ _)).
    + f_equal. rewrite length_take. lia.
    + rewrite length_take. lia.
Qed.

(** What [Bytes] returns: the array up to its length, or the ring unrolled. *)
Lemma Bytes_grow b : wf b -> blen b < cap b -> Bytes b = take (blen b) (arr b).
Proof.
  intros [] H. unfold Bytes. rewrite (proj2 (Nat.ltb_lt _ _) H). by rewrite orb_true_r.
Qed.

Lemma Bytes_full b : wf b -> blen b = cap b -> Bytes b = drop (off b) (arr b) ++ take (off b) (arr b).
Proof.
  intros [Hl Ho _] H. unfold Bytes. rewrite H, Nat.ltb_irrefl, orb_false_r.
  rewrite (proj2 (Nat.eqb_neq _ _)) by lia. unfold cap in *. rewrite firstn_all.
  rewrite (copy_at_fits 0) by (rewrite length_drop; lia). simpl.
  rewrite drop_replicate, length_drop.
  rewrite copy_at_fits by (rewrite length_take; lia).
  rewrite take_app_length' by (rewrite length_drop; lia). f_equal.
  rewrite drop_ge, app_nil_r; [done|].
  rewrite !length_app, length_drop, length_replicate, length_take. lia.
Qed.

Lemma Bytes_len b : wf b -> length (Bytes b) = blen b.
Proof.
  intros Hw. pose proof (wf_len b Hw). destruct (decide (blen b < cap b)).
  - rewrite Bytes_grow by done. rewrite length_take. unfold cap in *. lia.
  - rewrite Bytes_full by (try done; lia). rewrite length_app, length_drop, length_take.
    unfold cap in *. lia.
Qed.

(** Writing to a full ring less than its size. *)
Lemma write_full_spec p b :
  wf b -> blen b = cap b -> length p < cap b ->
  let b' := write_full p b in
  wf b' /\ cap b' = cap b /\ Bytes b' = lastn (cap b) (Bytes b ++ p).
Proof.
  intros Hw Hfull Hp b'. pose proof (wf_off b Hw) as Ho.
  assert (cap b' = cap b) as Hcap.
  { unfold b', write_full, cap in *. simpl. case_test; rewrite ?copy_at_length; rewrite ?copy_at_length; lia. }
  assert (blen b' = cap b) as Hlen by done.
  assert (off b' < cap b) as Hoff.
  { unfold b', write_full. simpl. case_test; to_prop; lia. }
  assert (wf b') as Hw' by (split; lia).
  split_and!; [done|done|]. rewrite !Bytes_full by lia || done.
  unfold lastn. rewrite !length_app, length_drop, length_take.
  unfold b', write_full in *. simpl in *. rewrite Hfull in *. unfold cap in *.
  destruct (Nat.ltb_spec (length (arr b) - off b) (length p)) as [Hwrap|Hfit].
  - (* the copy wraps around *)
    rewrite (copy_at_fills (off b)) by lia. set (r := length (arr b) - off b) in *.
    set (a1 := take (off b) (arr b) ++ take r p).
    assert (length a1 = length (arr b)) as Ha1
      by (unfold a1; rewrite length_app, !length_take; lia).
    rewrite (copy_at_fits 0) by (rewrite length_drop; lia). simpl. rewrite length_drop.
    rewrite (proj2 (Nat.leb_le _ _)) by lia.
    replace (off b + length p - length (arr b)) with (length p - r) by lia.
    rewrite drop_app_length' by (rewrite length_drop; lia).
    rewrite take_app_length' by (rewrite length_drop; lia).
    unfold a1. rewrite drop_app_le by (rewrite length_take; lia).
    rewrite <- !app_assoc, take_drop.
    replace (_ - length (arr b)) with (length p) by lia.
    rewrite (drop_app_ge (drop _ _)) by (rewrite length_drop; lia).
    rewrite length_drop. rewrite drop_app_le by (rewrite length_take; lia). f_equal.
  - (* it fits before the end of the array *)
    rewrite copy_at_fits by lia.
    replace (length (arr b) - off b + off b `min` length (arr b) + length p - length (arr b))
      with (length p) by lia.
    rewrite <- (app_assoc (drop _ _)), (drop_app_le (drop (off b) (arr b))) by (rewrite length_drop; lia).
    rewrite drop_drop.
    destruct (Nat.leb_spec (length (arr b)) (off b + length p)) as [Hend|Hend].
    + replace (off b + length p - length (arr b)) with 0 by lia. simpl. rewrite app_nil_r.
      rewrite (drop_ge (arr b)) by lia. by rewrite app_nil_r.
    + rewrite app_assoc, drop_app_length' by (rewrite length_app, length_take; lia).
      rewrite take_app_length' by (rewrite length_app, length_take; lia). by rewrite app_assoc.
Qed.

(** One [Write]: it reports all bytes written, and keeps the last ones. *)
(** What every phase of [Write] achieves. *)
Definition appends (p : bytes) (b b' : Buffer) : Prop :=
  wf b' /\ cap b' = cap b /\ Bytes b' = lastn (cap b) (Bytes b ++ p).

(** The write replaces everything. *)
Lemma write_replaces p b :
  wf b -> cap b <= length p ->
  appends p b (mkBuffer (copy_at 0 (cap b) (drop (length p - cap b) p) (arr b)) (cap b) 0).
Proof.
  intros Hw Hbig. pose proof (wf_len b Hw) as Hlen. pose proof (wf_off b Hw) as Ho.
  set (q := drop (length p - cap b) p).
  assert (length q = cap b) as Hq by (unfold q; rewrite length_drop; lia).
  assert (copy_at 0 (cap b) q (arr b) = q) as ->.
  { rewrite copy_at_fits by lia. simpl. rewrite Hq, drop_ge by done. by rewrite app_nil_r. }
  assert (cap (mkBuffer q (cap b) 0) = cap b) as Hc by exact Hq.
  assert (wf (mkBuffer q (cap b) 0)) as Hw' by (split; rewrite Hc; simpl; lia).
  split_and!; [done|done|]. rewrite Bytes_full by done. simpl. rewrite app_nil_r.
  unfold lastn. rewrite length_app, drop_app_ge by (rewrite !Bytes_len by done; lia).
  unfold q. rewrite drop_0. f_equal. rewrite Bytes_len by done. lia.
Qed.

(** The write fits in the free space. *)
Lemma write_fits p b :
  wf b -> blen b < cap b -> length p <= cap b - blen b ->
  appends p b (mkBuffer (copy_at (blen b) (blen b + length p) p (arr b)) (blen b + length p) (off b)).
Proof.
  intros Hw Hfree Hfit. pose proof (wf_grow b Hw Hfree) as Hz. pose proof (wf_off b Hw) as Ho.
  unfold appends. rewrite (Bytes_grow b) by done. set (b' := mkBuffer _ _ _).
  assert (cap b' = cap b) as Hcap by (unfold b', cap in *; simpl; apply copy_at_length; lia).
  assert (arr b' = take (blen b) (arr b) ++ p ++ drop (blen b + length p) (arr b)) as Ha
    by (unfold b'; simpl; apply copy_at_fits; lia).
  assert (wf b') as Hw' by (split; rewrite Hcap; unfold b'; simpl; lia).
  assert (take (blen b') (arr b') = take (blen b) (arr b) ++ p) as Ht.
  { rewrite Ha, app_assoc. unfold b'. simpl. apply take_app_length'.
    rewrite length_app, length_take. unfold cap in *. lia. }
  split_and!; [done|done|].
  rewrite lastn_all by (rewrite length_app, length_take; unfold cap in *; lia).
  rewrite <- Ht. destruct (decide (blen b' < cap b')); [by apply Bytes_grow|].
  pose proof (wf_len _ Hw'). rewrite Bytes_full by (done || lia).
  replace (off b') with 0 by (unfold b'; simpl; lia). rewrite drop_0, take_0, app_nil_r.
  symmetry. apply take_ge. unfold cap in *. lia.
Qed.

(** The write fills the free space, then wraps around. *)
Lemma write_overflows p b :
  wf b -> blen b < cap b -> cap b - blen b < length p -> length p < cap b ->
  let free := cap b - blen b in
  appends p b (write_full (drop free p) (mkBuffer (copy_at (blen b) (cap b) (take free p) (arr b)) (cap b) 0)).
Proof.
  intros Hw Hfree Hover Hsmall free. pose proof (wf_grow b Hw Hfree) as Hz.
  unfold appends. rewrite (Bytes_grow b) by done.
  set (b1 := mkBuffer (copy_at (blen b) (cap b) (take free p) (arr b)) (cap b) 0).
  assert (arr b1 = take (blen b) (arr b) ++ take free p) as Ha.
  { unfold b1. simpl. unfold cap. rewrite copy_at_fills; [| |unfold cap in *; lia].
    - rewrite take_take. f_equal. f_equal. unfold free, cap. lia.
    - rewrite length_take. unfold free, cap in *. lia. }
  assert (cap b1 = cap b) as Hcap.
  { unfold cap at 1. rewrite Ha, length_app, !length_take. unfold free, cap in *. lia. }
  assert (wf b1) as Hw1 by (split; rewrite Hcap; unfold b1; simpl; lia).
  destruct (write_full_spec (drop free p) b1 Hw1) as (H1 & H2 & H3); [done|rewrite length_drop; lia|].
  rewrite Hcap in *. split_and!; [done|done|]. rewrite H3, Bytes_full by done.
  replace (off b1) with 0 by done. rewrite drop_0, take_0, app_nil_r, Ha, <- app_assoc, take_drop. done.
Qed.

Lemma Write_spec p b :
  wf b -> let '(n, b') := Write p b in n = length p /\ appends p b b'.
Proof.
  intros Hw. pose proof (wf_len b Hw) as Hlen. pose proof (wf_off b Hw) as Ho.
  unfold Write. rewrite (proj2 (Nat.leb_gt _ _)) by lia.
  destruct (Nat.leb_spec (cap b) (length p)) as [Hbig|Hsmall]; [split; [done|by apply write_replaces]|].
  destruct (Nat.ltb_spec 0 (cap b - blen b)) as [Hfree|Hfree].
  - destruct (Nat.leb_spec (length p) (cap b - blen b)) as [Hfit|Hover]; (split; [done|]).
    + apply write_fits; [done|lia|done].
    + apply write_overflows; [done|lia|done|done].
  - split; [done|]. apply write_full_spec; [done|lia|done].
Qed.

(** A buffer after a sequence of writes. *)
Definition write_all (ps : list bytes) (b : Buffer) : Buffer :=
  fold_left (fun b p => snd (Write p b)) ps b.

Lemma write_all_spec ps b :
  wf b ->
  wf (write_all ps b) /\ cap (write_all ps b) = cap b /\
  Bytes (write_all ps b) = lastn (cap b) (Bytes b ++ concat ps).
Proof.
  revert b. induction ps as [|p ps IH]; intros b Hw; simpl.
  - split_and!; [done|done|]. rewrite app_nil_r, lastn_all; [done|].
    rewrite Bytes_len by done. apply Hw.
  - pose proof (Write_spec p b Hw) as Hp. destruct (Write p b) as [n b'].
    destruct Hp as (_ & Hw' & Hc & Hb). destruct (IH b' Hw') as (H1 & H2 & H3).
    simpl. rewrite Hc in *. split_and!; [done|done|]. by rewrite H3, Hb, lastn_lastn, app_assoc.
Qed.

(** C37. The ring buffer refines a log that keeps its last bytes: whatever chunks
    are written to a new buffer of a positive size, [Bytes] returns the last
    [size] bytes of their concatenation, oldest first, and every [Write] reports
    all of its bytes written. *)
Theorem circbuf_refines_tail size ps :
  (0 < size)%Z ->
  exists b, NewBuffer size = Ok b /\
    Bytes (write_all ps b) = lastn (Z.to_nat size) (concat ps) /\
    forall p, fst (Write p (write_all ps b)) = length p.
Proof.
  intros Hs. unfold NewBuffer. rewrite (proj2 (Z.leb_gt _ _) Hs). eexists. split; [done|].
  set (b := mkBuffer _ _ _).
  assert (cap b = Z.to_nat size) as Hc by apply length_replicate.
  assert (wf b) as Hw by (split; rewrite Hc; simpl; lia).
  destruct (write_all_spec ps b Hw) as (Hw' & _ & H). rewrite Hc in H.
  split; [rewrite H, (Bytes_grow b Hw) by (rewrite Hc; simpl; lia); done|].
  intros p. pose proof (Write_spec p _ Hw') as Hp. by destruct (Write p (write_all ps b)), Hp.
Qed.

Lemma circbuf_refines_tail_witness :
  (0 < 3)%Z /\ exists b, NewBuffer 3 = Ok b /\
    Bytes (write_all [[Byte.x61; Byte.x62]; [Byte.x63; Byte.x64]] b) = [Byte.x62; Byte.x63; Byte.x64].
Proof.
  split; [lia|]. destruct (circbuf_refines_tail 3 [[Byte.x61; Byte.x62]; [Byte.x63; Byte.x64]])
    as (b & Hb & H & _); [lia|]. exists b. split; [exact Hb|]. rewrite H. reflexivity.
Defined.
