(* ===== verification/GoText.v ===== *)
(** * More of Go's text packages

    What the reference and variable packages use of [strings], [path] and of
    ranging over the runes of a string. *)

From S2P Require Import Prelude GoStrings Token.

(** ** Package [strings], for one-byte separators *)

(** [strings.Cut] *)
Fixpoint Cut (s : string) (sep : ascii) : string * string * bool :=
  match s with
  | "" => ("", "", false)
  | String c s' =>
      if Ascii.eqb c sep then ("", s', true)
      else let '(before, after, found) := Cut s' sep in (String c before, after, found)
  end.

(** [strings.SplitN(s, sep, 2)] *)
Definition SplitN2 (s : string) (sep : ascii) : list string :=
  let '(before, after, found) := Cut s sep in
  if found : bool then [before; after] else [s].

(** [strings.Split] *)
Fixpoint Split (s : string) (sep : ascii) : list string :=
  match s with
  | "" => [""]
  | String c s' =>
      if Ascii.eqb c sep then "" :: Split s' sep
      else match Split s' sep with
           | w :: ws => String c w :: ws
           | [] => [String c ""]
           end
  end.

Definition ContainsByte (s : string) (c : ascii) : bool := sexists (Ascii.eqb c) s.

(** [strings.ReplaceAll(s, old, new)] for a one-byte [old]. *)
Fixpoint ReplaceAll (s : string) (old : ascii) (new : string) : string :=
  match s with
  | "" => ""
  | String c s' => if Ascii.eqb c old then new +:+ ReplaceAll s' old new else String c (ReplaceAll s' old new)
  end.

(** ** Package [path] *)

Definition slash : ascii := "/"%char.

(** [path.IsAbs], and [filepath.IsAbs] on Unix. *)
Definition IsAbs (p : string) : bool := HasPrefix p "/".

(** One component of a path on a stack of the components before it (last
    first): [.] and empty components are dropped, [..] takes one back. *)
Definition clean_step (rooted : bool) (stack : list string) (c : string) : list string :=
  if String.eqb c "" || String.eqb c "." then stack
  else if String.eqb c ".." then
    match stack with
    | top :: rest => if String.eqb top ".." then c :: stack else rest
    | [] => if rooted then [] else [c]
    end
  else c :: stack.

(** [path.Clean] *)
Definition Clean (p : string) : string :=
  let rooted := IsAbs p in
  let comps := rev (fold_left (clean_step rooted) (Split p slash) []) in
  if rooted then "/" +:+ Join comps "/"
  else match comps with [] => "." | _ => Join comps "/" end.

(** [path.Join] ignores empty elements. *)
Definition path_Join (elems : list string) : string :=
  match List.filter (fun e => negb (String.eqb e "")) elems with
  | [] => ""
  | es => Clean (Join es "/")
  end.

Example Clean_1 : Clean "a//b/./../c/" = "a/c". Proof. reflexivity. Qed.
Example Clean_2 : Clean "/../a/.." = "/". Proof. reflexivity. Qed.
Example Clean_3 : Clean "../x/../.." = "../..". Proof. reflexivity. Qed.
Example Clean_4 : Clean "" = ".". Proof. reflexivity. Qed.
Example Clean_5 : Clean "./a" = "a". Proof. reflexivity. Qed.

(** ** The runes of a string *)

(** [for _, c := range s] *)
Fixpoint runes_fuel (fuel : nat) (s : string) : list Z :=
  match fuel, s with
  | S f, String _ _ => let '(r, w) := DecodeRuneInString s in r :: runes_fuel f (sdrop w s)
  | _, _ => []
  end.

Definition runes (s : string) : list Z := runes_fuel (String.length s) s.

(** [string(rs)] *)
Definition string_of_runes (rs : list Z) : string := sconcat (List.map EncodeRune rs).

(** Well-formed UTF-8: every rune is encoded as its bytes are. *)
Fixpoint utf8_fuel (fuel : nat) (s : string) : bool :=
  match fuel, s with
  | _, "" => true
  | S f, _ => let '(r, w) := DecodeRuneInString s in
              String.eqb (EncodeRune r) (stake w s) && utf8_fuel f (sdrop w s)
  | O, _ => false
  end.

Definition utf8 (s : string) : bool := utf8_fuel (String.length s) s.

(** ** Package [strconv] *)

(** [n] lower-case hexadecimal digits. *)
Fixpoint lower_hex (n : nat) (r : Z) : string :=
  match n with
  | O => ""
  | S n =>
      let d := Z.land (Z.shiftr r (4 * Z.of_nat n)) 15 in
      byte_string (if (d <? 10)%Z then 48 + d else 87 + d)%Z +:+ lower_hex n r
  end.

Definition escape_byte (c : ascii) : string := String "\"%char (String c "").

(** [appendEscapedRune] for the double quote. *)
Definition quote_rune `{Unicode} (r : Z) : string :=
  if ((r =? rDQuote) || (r =? rBackslash))%Z then String "\"%char (EncodeRune r)
  else if IsPrint r then EncodeRune r
  else if (r =? 7)%Z then escape_byte "a"
  else if (r =? 8)%Z then escape_byte "b"
  else if (r =? 12)%Z then escape_byte "f"
  else if (r =? 10)%Z then escape_byte "n"
  else if (r =? 13)%Z then escape_byte "r"
  else if (r =? 9)%Z then escape_byte "t"
  else if (r =? 11)%Z then escape_byte "v"
  else if ((r <? 32) || (r =? 127))%Z then escape_byte "x" +:+ lower_hex 2 r
  else if (r <? 65536)%Z then escape_byte "u" +:+ lower_hex 4 r
  else escape_byte "U" +:+ lower_hex 8 r.

Fixpoint quote_fuel `{Unicode} (fuel : nat) (s : string) : string :=
  match fuel, s with
  | S f, String c _ =>
      let '(r, w) := DecodeRuneInString s in
      (if (w =? 1) && (r =? RuneError)%Z then escape_byte "x" +:+ lower_hex 2 (byteZ c) else quote_rune r) +:+
      quote_fuel f (sdrop w s)
  | _, _ => ""
  end.

(** [strconv.Quote], and the verb [%q] of a string. *)
Definition Quote `{Unicode} (s : string) : string := dquote +:+ quote_fuel (String.length s) s +:+ dquote.

(** ** Facts on [Split] and [Join] *)

Definition no_byte (c : ascii) (s : string) : bool := sall (fun d => negb (Ascii.eqb d c)) s.

Lemma Split_no_byte c s : no_byte c s = true -> Split s c = [s].
Proof.
  induction s as [|d s IH]; simpl; [done|]. intros [Hd Hs]%andb_true_iff.
  apply negb_true_iff in Hd. unfold no_byte in IH. by rewrite Hd, (IH Hs).
Qed.

Lemma Split_app c s t : no_byte c s = true -> Split (s +:+ String c t) c = s :: Split t c.
Proof.
  induction s as [|d s IH]; simpl; [by rewrite Ascii.eqb_refl|]. intros [Hd Hs]%andb_true_iff.
  apply negb_true_iff in Hd. unfold no_byte in IH. rewrite Hd. change (s ++ String c t)%string with (s +:+ String c t).
  by rewrite (IH Hs).
Qed.

Lemma Split_Join c l :
  l <> [] -> Forall (fun w => no_byte c w = true) l -> Split (Join l (String c "")) c = l.
Proof.
  intros Hn Hl. induction Hl as [|w l Hw Hl IH]; [done|]. destruct l as [|v l].
  - by apply Split_no_byte.
  - change (Join (w :: v :: l) (String c "")) with (w +:+ (String c "" +:+ Join (v :: l) (String c ""))).
    change (String c "" +:+ ?x) with (String c x). rewrite Split_app by done. f_equal. by apply IH.
Qed.

Lemma Split_pieces c s : Forall (fun w => no_byte c w = true) (Split s c).
Proof.
  induction s as [|d s IH]; simpl; [by repeat constructor|]. destruct (Ascii.eqb d c) eqn:E.
  - by constructor.
  - destruct (Split s c) as [|w ws]; [constructor; [unfold no_byte; simpl; by rewrite E|constructor]|].
    inversion IH; subst. constructor; [|done]. unfold no_byte in *. simpl. by rewrite E.
Qed.

(** ** [Clean] is idempotent *)

Definition proper (c : string) : Prop :=
  c <> "" /\ c <> "." /\ c <> ".." /\ no_byte slash c = true.

(** The components of a cleaned path, last first: proper names, then some [..],
    none if the path is rooted. *)
Definition clean_stack (rooted : bool) (st : list string) : Prop :=
  exists ns n, st = ns ++ replicate n ".." /\ Forall proper ns /\ (rooted = true -> n = 0).

Lemma clean_step_proper rooted st c : proper c -> clean_step rooted st c = c :: st.
Proof.
  intros (H1 & H2 & H3 & _). unfold clean_step.
  by rewrite !(proj2 (String.eqb_neq _ _)).
Qed.

Lemma clean_step_ok rooted st c :
  clean_stack rooted st -> no_byte slash c = true -> clean_stack rooted (clean_step rooted st c).
Proof.
  intros (ns & n & -> & Hns & Hr) Hc. unfold clean_step.
  destruct (String.eqb c "" || String.eqb c ".") eqn:E1; [by exists ns, n|].
  apply orb_false_iff in E1 as [E1 E2]. destruct (String.eqb c "..") eqn:E3; to_prop.
  - subst c. destruct Hns as [|top ns Htop Hns]; simpl.
    + destruct n as [|n]; simpl.
      * destruct rooted; [by exists [], 0|]. exists [], 1. by split_and!.
      * exists [], (S (S n)). split_and!; [done|constructor|]. intros ?. specialize (Hr ltac:(done)). lia.
    + rewrite (proj2 (String.eqb_neq _ _)) by apply Htop. by exists ns, n.
  - exists (c :: ns), n. split_and!; [done| |done]. by constructor.
Qed.

Lemma clean_fold_ok rooted l st :
  clean_stack rooted st -> Forall (fun w => no_byte slash w = true) l ->
  clean_stack rooted (fold_left (clean_step rooted) l st).
Proof.
  intros Hst Hl. revert st Hst. induction Hl as [|w l Hw Hl IH]; intros st Hst; simpl; [done|].
  by apply IH, clean_step_ok.
Qed.

(** Cleaning clean components changes nothing. *)
Lemma clean_fold_id rooted st :
  clean_stack rooted st -> fold_left (clean_step rooted) (rev st) [] = st.
Proof.
  intros (ns & n & -> & Hns & Hr). rewrite rev_app_distr, fold_left_app.
  assert (fold_left (clean_step rooted) (rev (replicate n "..")) [] = replicate n "..") as ->.
  { rewrite rev_alt, <- (app_nil_r (rev_append _ _)). change (rev_append ?l []) with (reverse l).
    rewrite app_nil_r, reverse_replicate. clear Hns.
    assert (forall m k, (rooted = true -> m + k = 0) ->
      fold_left (clean_step rooted) (replicate m "..") (replicate k "..") = replicate (m + k) "..") as Hup.
    { induction m as [|m IH]; intros k Hk; simpl; [done|].
      assert (clean_step rooted (replicate k "..") ".." = replicate (S k) "..") as ->.
      { destruct k; simpl; [|done]. destruct rooted; [|done]. specialize (Hk eq_refl). lia. }
      rewrite IH; [by rewrite Nat.add_succ_r|]. intros H. specialize (Hk H). lia. }
    specialize (Hup n 0). rewrite Nat.add_0_r in Hup. by apply Hup. }
  clear Hr. induction Hns as [|c ns Hc Hns IH]; simpl; [done|].
  rewrite fold_left_app. simpl. by rewrite IH, clean_step_proper.
Qed.

Lemma clean_stack_bytes rooted st : clean_stack rooted st -> Forall (fun w => no_byte slash w = true) (rev st).
Proof.
  intros (ns & n & -> & Hns & _). apply Forall_rev, Forall_app. split.
  - eapply List.Forall_impl; [|exact Hns]. intros c Hc. apply Hc.
  - by apply Forall_replicate.
Qed.

(** The stack of a path. *)
Definition path_stack (p : string) : list string :=
  fold_left (clean_step (IsAbs p)) (Split p slash) [].

Lemma path_stack_ok p : clean_stack (IsAbs p) (path_stack p).
Proof. apply clean_fold_ok; [|apply Split_pieces]. by exists [], 0. Qed.

(** The text of a stack, as [Clean] writes it. *)
Definition stack_text (rooted : bool) (st : list string) : string :=
  if rooted then "/" +:+ Join (rev st) "/"
  else match rev st with [] => "." | _ => Join (rev st) "/" end.

Lemma Clean_text p : Clean p = stack_text (IsAbs p) (path_stack p).
Proof. done. Qed.

Lemma Join_head l : l <> [] -> Forall (fun w => w <> "") l -> exists c t, Join l "/" = String c t /\
  exists w ws, l = w :: ws /\ exists t', w = String c t'.
Proof.
  intros Hn Hl. destruct Hl as [|w ws Hw Hws]; [done|]. destruct w as [|c w]; [done|].
  destruct ws as [|v ws]; simpl; eexists c, _; split; eauto 10.
Qed.

Lemma clean_stack_nonempty rooted st : clean_stack rooted st -> Forall (fun w => w <> "") (rev st).
Proof.
  intros (ns & n & -> & Hns & _). apply Forall_rev, Forall_app. split.
  - eapply List.Forall_impl; [|exact Hns]. intros c Hc. apply Hc.
  - by apply Forall_replicate.
Qed.

(** Reading back the text of a clean stack. *)
Lemma stack_text_read rooted st :
  clean_stack rooted st ->
  IsAbs (stack_text rooted st) = rooted /\ path_stack (stack_text rooted st) = st.
Proof.
  intros Hst. assert (IsAbs (stack_text rooted st) = rooted) as Ha.
  { unfold stack_text. destruct rooted; [by apply HasPrefix_spec; eexists|]. destruct (rev st) as [|w ws] eqn:E; [done|].
    pose proof (clean_stack_nonempty _ _ Hst) as Hne. pose proof (clean_stack_bytes _ _ Hst) as Hb.
    rewrite E in *. destruct (Join_head (w :: ws)) as (c & t & -> & w' & ws' & [= <- <-] & t' & ->); [done|done|].
    inversion Hb as [|? ? Hw _]; subst. unfold no_byte in Hw. simpl in Hw.
    apply andb_true_iff in Hw as [Hc _]. apply negb_true_iff, Ascii.eqb_neq in Hc.
    apply not_true_is_false. intros [t0 Ht0]%HasPrefix_spec. by injection Ht0. }
  split; [done|]. unfold path_stack. rewrite Ha. unfold stack_text.
  destruct (rev st) as [|w ws] eqn:E.
  - apply (f_equal (@rev _)) in E. rewrite rev_involutive in E. simpl in E. subst st. by destruct rooted.
  - assert (Split (Join (rev st) "/") slash = rev st) as Hsp.
    { apply (Split_Join slash); [by rewrite E|]. by eapply clean_stack_bytes. }
    rewrite E in Hsp. destruct rooted.
    + change ("/" +:+ ?x) with (String slash x). cbn [Split]. rewrite Ascii.eqb_refl. cbn [fold_left].
      change (clean_step true [] "") with (@nil string). rewrite Hsp, <- E. by apply clean_fold_id.
    + rewrite Hsp, <- E. by apply clean_fold_id.
Qed.

Lemma Clean_idem p : Clean (Clean p) = Clean p.
Proof.
  rewrite (Clean_text (Clean p)). rewrite (Clean_text p).
  destruct (stack_text_read _ _ (path_stack_ok p)) as [Ha Hs]. by rewrite Ha, Hs.
Qed.

Lemma IsAbs_Clean p : IsAbs (Clean p) = IsAbs p.
Proof. rewrite Clean_text. apply stack_text_read, path_stack_ok. Qed.

(** A leading [./] is cleaned away. *)
Lemma Clean_dot p : IsAbs p = false -> Clean ("./" +:+ p) = Clean p.
Proof.
  intros Hp. rewrite !Clean_text. unfold path_stack. by rewrite Hp.
Qed.

(** ** [Join] of relative paths *)

Lemma Split_sep c s t : Split (s +:+ String c t) c = Split s c ++ Split t c.
Proof.
  induction s as [|d s IH]; simpl; [by rewrite Ascii.eqb_refl|].
  change (s ++ String c t)%string with (s +:+ String c t). rewrite IH. destruct (Ascii.eqb d c); [done|].
  destruct (Split s c) as [|w ws] eqn:E; [|done]. exfalso. destruct s; simpl in E; [done|].
  destruct (Ascii.eqb _ _); [done|]. by destruct (Split s c).
Qed.

Lemma IsAbs_app s t : s <> "" -> IsAbs (s +:+ t) = IsAbs s.
Proof.
  intros Hs. destruct s as [|d s]; [done|]. apply eq_true_iff_eq. unfold IsAbs. rewrite !HasPrefix_spec.
  split; intros [u Hu]; injection Hu as -> Hu; by eexists.
Qed.

(** Appending a path continues the walk of the first. *)
Lemma path_stack_app a b :
  a <> "" ->
  path_stack (a +:+ "/" +:+ b) = fold_left (clean_step (IsAbs a)) (Split b slash) (path_stack a).
Proof.
  intros Ha. unfold path_stack. rewrite IsAbs_app by done.
  change ("/" +:+ b) with (String slash b). by rewrite Split_sep, fold_left_app.
Qed.

(** Walking the components of a cleaned relative walk is the walk itself. *)
Lemma clean_fold_absorb rooted l st S :
  clean_stack false st -> Forall (fun w => no_byte slash w = true) l ->
  fold_left (clean_step rooted) (rev (fold_left (clean_step false) l st)) S =
  fold_left (clean_step rooted) l (fold_left (clean_step rooted) (rev st) S).
Proof.
  intros Hst Hl. revert st Hst. induction Hl as [|c l Hc Hl IH]; intros st Hst; simpl; [done|].
  rewrite IH by (by apply clean_step_ok). f_equal. destruct Hst as (ns & n & -> & Hns & _).
  unfold clean_step at 2 3. destruct (String.eqb c "" || String.eqb c ".") eqn:E1; [done|].
  destruct (String.eqb c "..") eqn:E2; to_prop.
  - subst c. destruct Hns as [|top ns Htop Hns]; simpl.
    + destruct n as [|n]; simpl; [|rewrite fold_left_app; simpl]; unfold clean_step at 1; done.
    + rewrite (proj2 (String.eqb_neq top "..")) by apply Htop. rewrite fold_left_app. simpl.
      rewrite (clean_step_proper rooted _ top Htop).
      by rewrite (proj2 (String.eqb_neq top "..")) by apply Htop.
  - simpl. rewrite fold_left_app. simpl. by rewrite clean_step_proper.
Qed.

(** The components of a cleaned relative path. *)
Lemma Split_Clean_fold rooted p S :
  IsAbs p = false ->
  fold_left (clean_step rooted) (Split (Clean p) slash) S = fold_left (clean_step rooted) (Split p slash) S.
Proof.
  intros Hp. pose proof (path_stack_ok p) as Hst. rewrite Hp in Hst.
  pose proof (clean_fold_absorb rooted (Split p slash) [] S ltac:(by exists [], 0) (Split_pieces _ _)) as Habs.
  simpl in Habs. rewrite <- Habs. clear Habs.
  rewrite Clean_text, Hp. unfold stack_text. fold (path_stack p).
  replace (fold_left (clean_step false) (Split p slash) []) with (path_stack p)
    by (unfold path_stack; by rewrite Hp).
  destruct (rev (path_stack p)) as [|w ws] eqn:E; [done|]. rewrite <- E.
  rewrite (Split_Join slash); [done|by rewrite E|by eapply clean_stack_bytes].
Qed.

Lemma path_Join2 a b : a <> "" -> b <> "" -> path_Join [a; b] = Clean (a +:+ "/" +:+ b).
Proof.
  intros Ha Hb. unfold path_Join. simpl. by rewrite !(proj2 (String.eqb_neq _ _)).
Qed.

Lemma Clean_nonempty p : Clean p <> "".
Proof.
  rewrite Clean_text. unfold stack_text. destruct (IsAbs p) eqn:Ha; [done|].
  destruct (rev (path_stack p)) as [|w ws] eqn:E; [done|]. rewrite <- E.
  pose proof (clean_stack_nonempty _ _ (path_stack_ok p)) as Hne.
  destruct (Join_head (rev (path_stack p))) as (c & t & -> & _); [by rewrite E|done|done].
Qed.

(** Joining relative paths is associative. *)
Lemma path_Join_assoc a b c :
  a <> "" -> b <> "" -> c <> "" -> IsAbs b = false ->
  path_Join [path_Join [a; b]; c] = path_Join [a; path_Join [b; c]].
Proof.
  intros Ha Hb Hc Hrel. rewrite (path_Join2 a b), (path_Join2 b c) by done.
  rewrite !path_Join2 by (try done; apply Clean_nonempty).
  rewrite (Clean_text (Clean (a +:+ "/" +:+ b) +:+ "/" +:+ c)), (Clean_text (a +:+ "/" +:+ Clean (b +:+ "/" +:+ c))).
  rewrite !IsAbs_app, IsAbs_Clean, IsAbs_app by (try done; apply Clean_nonempty). f_equal.
  rewrite !path_stack_app by (try done; apply Clean_nonempty).
  rewrite IsAbs_Clean, IsAbs_app by done. rewrite Split_Clean_fold by (by rewrite IsAbs_app).
  change ("/" +:+ c) with (String slash c). rewrite Split_sep, fold_left_app. f_equal.
  rewrite Clean_text. destruct (stack_text_read _ _ (path_stack_ok (a +:+ "/" +:+ b))) as [_ ->].
  by rewrite path_stack_app.
Qed.
