(* ===== verification/Reference.v ===== *)
(** * References to targets and commands

    A translation of [domain/reference.go], [target.go] and [command.go].  The two
    implementations of the interface [Reference] have the same fields and the
    same methods, so a reference is one record with its kind.  The environment
    variable HOME is an argument. *)

From S2P Require Import Prelude GoStrings Token GoText.

Open Scope res_scope.

Inductive refKind : Type := KTarget | KCommand.

Record Reference : Type := mkRef {
  kind : refKind;
  GitURL : string;
  Tag : string;
  LocalPath : string;
  ImportRef : string;
  Name : string
}.

#[global] Instance refKind_eq_dec : EqDecision refKind.
Proof. solve_decision. Defined.
#[global] Instance Reference_eq_dec : EqDecision Reference.
Proof. solve_decision. Defined.

Definition streq (a b : string) : bool := String.eqb a b.
Definition strne (a b : string) : bool := negb (String.eqb a b).

Definition IsLocalInternal (r : Reference) : bool := streq (LocalPath r) ".".

Definition IsLocalExternal (r : Reference) : bool := strne (LocalPath r) "." && strne (LocalPath r) "".

Definition IsRemote (r : Reference) : bool :=
  strne (GitURL r) "" && negb (IsLocalInternal r) && negb (IsLocalExternal r).

Definition IsImportReference (r : Reference) : bool := strne (ImportRef r) "".

Definition IsExternal (r : Reference) : bool := IsRemote r || IsLocalExternal r || IsImportReference r.

Definition IsUnresolvedImportReference (r : Reference) : bool :=
  IsImportReference r && negb (IsRemote r) && negb (IsLocalExternal r) && negb (IsLocalInternal r).

(** ** Printing *)

Definition backslash : ascii := "\"%char.
Definition plus : ascii := "+"%char.
Definition colon : ascii := ":"%char.

Definition escapePlus (s : string) : string := ReplaceAll s plus "\+".

(** [gitURL] with [:tag] when there is one. *)
Definition git_string (r : Reference) : string :=
  escapePlus (GitURL r) +:+ (if strne (Tag r) "" then ":" +:+ escapePlus (Tag r) else "").

Definition referenceString (r : Reference) : string :=
  if IsImportReference r then escapePlus (ImportRef r) +:+ "+" +:+ Name r
  else if IsLocalExternal r then escapePlus (LocalPath r) +:+ "+" +:+ Name r
  else if IsRemote r then git_string r +:+ "+" +:+ Name r
  else "+" +:+ Name r.

Definition referenceStringCanonical (r : Reference) : string :=
  if strne (GitURL r) "" then git_string r +:+ "+" +:+ Name r
  else if streq (LocalPath r) "." then "+" +:+ Name r
  else if streq (LocalPath r) "" && strne (ImportRef r) "" then escapePlus (ImportRef r) +:+ "+" +:+ Name r
  else escapePlus (LocalPath r) +:+ "+" +:+ Name r.

Definition referenceProjectCanonical (r : Reference) : string :=
  if strne (GitURL r) "" then git_string r
  else if streq (LocalPath r) "." then ""
  else if streq (LocalPath r) "" && strne (ImportRef r) "" then escapePlus (ImportRef r)
  else escapePlus (LocalPath r).

(** ** Parsing *)

(** The loop of [splitUnescapePlus] over the runes of the string. *)
Fixpoint split_loop (rs : list Z) (escape : bool) (ret : list string) (word : list Z)
    : bool * list string * list Z :=
  match rs with
  | [] => (escape, ret, word)
  | c :: rs =>
      if escape then
        split_loop rs false ret ((if (c =? 43)%Z then word else word ++ [92%Z]) ++ [c])
      else if (c =? 92)%Z then split_loop rs true ret word
      else if (c =? 43)%Z then split_loop rs false (ret ++ [string_of_runes word]) []
      else split_loop rs false ret (word ++ [c])
  end.

Definition splitUnescapePlus (str : string) : res (list string) :=
  let '(escape, ret, word) := split_loop (runes str) false [] [] in
  if (escape : bool) then Err ("cannot split by +: unterminated escape sequence at the end of " +:+ str)
  else Ok (match word with [] => ret | _ => ret ++ [string_of_runes word] end).

(** The path of a local external reference. *)
Definition local_path (HOME p : string) : string :=
  if HasPrefix p "~/" then HOME +:+ "/" +:+ sdrop 2 p
  else if IsAbs p then Clean p
  else let c := Clean p in if HasPrefix c "." then c else "./" +:+ c.

Definition is_local (p : string) : bool := HasPrefix p "." || HasPrefix p "~/" || IsAbs p.

(** The five results of [parseCommon], the name last. *)
Definition parseCommon (HOME fullName : string) : res (string * string * string * string * string) :=
  let* partsPlus := splitUnescapePlus fullName in
  match partsPlus with
  | [p; name] =>
      if streq p "" then Ok ("", "", ".", "", name)
      else if is_local p then Ok ("", "", local_path HOME p, "", name)
      else if ContainsAny p "/:" then
        match SplitN2 p colon with
        | [url; tag] => Ok (url, tag, "", "", name)
        | _ => Ok (p, "", "", "", name)
        end
      else Ok ("", "", "", p, name)
  | _ => Err ("invalid target ref " +:+ fullName)
  end.

Definition is_lower (c : ascii) : bool := in_range 97 122 (byteZ c).
Definition is_upper (c : ascii) : bool := in_range 65 90 (byteZ c).
Definition is_digit (c : ascii) : bool := in_range 48 57 (byteZ c).
Definition is_char (d c : ascii) : bool := Ascii.eqb c d.

(** [^[a-z][a-zA-Z0-9.\-]*$] *)
Definition targetNameRegex (s : string) : bool :=
  match s with
  | "" => false
  | String c s =>
      is_lower c &&
      sall (fun c => is_lower c || is_upper c || is_digit c || is_char "." c || is_char "-" c) s
  end.

(** [^[A-Z][A-Z0-9._]*$] *)
Definition commandNameRegex (s : string) : bool :=
  match s with
  | "" => false
  | String c s =>
      is_upper c && sall (fun c => is_upper c || is_digit c || is_char "." c || is_char "_" c) s
  end.

Definition targetNamePattern : string := "^[a-z][a-zA-Z0-9.\-]*$".
Definition commandNamePattern : string := "^[A-Z][A-Z0-9._]*$".

Definition ParseTarget (HOME fullTargetName : string) : res Reference :=
  let* (gitURL, tag, localPath, importRef, target) := parseCommon HOME fullTargetName in
  if targetNameRegex target then Ok (mkRef KTarget gitURL tag localPath importRef target)
  else Err ("target name " +:+ target +:+ " does not match " +:+ targetNamePattern).

Definition ParseCommand (HOME fullCommandName : string) : res Reference :=
  let* (gitURL, tag, localPath, importRef, command) := parseCommon HOME fullCommandName in
  if commandNameRegex command then Ok (mkRef KCommand gitURL tag localPath importRef command)
  else Err ("command name " +:+ command +:+ " does not match " +:+ commandNamePattern).

(** ** Joining *)

Definition JoinReferences (r1 r2 : Reference) : res Reference :=
  if IsUnresolvedImportReference r1 || IsUnresolvedImportReference r2 then
    Err "unresolved import references cannot be joined"
  else
    let* (gitURL, tag, localPath) :=
      if IsRemote r1 then
        if IsRemote r2 then Ok (GitURL r2, Tag r2, LocalPath r2)
        else if IsLocalExternal r2 then
          if IsAbs (LocalPath r2) then
            Err ("absolute path " +:+ LocalPath r2 +:+
                 " not supported as reference in external target context")
          else Ok (path_Join [GitURL r1; LocalPath r2], Tag r1, "")
        else if IsLocalInternal r2 then Ok (GitURL r1, Tag r1, "")
        else Ok (GitURL r2, Tag r1, LocalPath r2)
      else if IsLocalExternal r2 then
        if IsAbs (LocalPath r2) then Ok (GitURL r2, Tag r2, Clean (LocalPath r2))
        else
          let p := path_Join [LocalPath r1; LocalPath r2] in
          Ok (GitURL r2, Tag r2,
              if negb (HasPrefix p ".") && negb (HasPrefix p "/") then "./" +:+ p else p)
      else if IsLocalInternal r2 then Ok (GitURL r2, Tag r2, LocalPath r1)
      else Ok (GitURL r2, Tag r2, LocalPath r2) in
    Ok (mkRef (kind r2) gitURL tag localPath (ImportRef r2) (Name r2)).

Example parse_1 : ParseTarget "/root" "./a/local/dir-with-\+-in-it+target" =
  Ok (mkRef KTarget "" "" "./a/local/dir-with-+-in-it" "" "target").
Proof. vm_compute. reflexivity. Qed.
Example parse_2 : ParseTarget "/root" "github.com/foo/bar:tag/with/slash+target" =
  Ok (mkRef KTarget "github.com/foo/bar" "tag/with/slash" "" "" "target").
Proof. vm_compute. reflexivity. Qed.
Example parse_3 : ParseCommand "/root" "import+CMD" = Ok (mkRef KCommand "" "" "" "import" "CMD").
Proof. vm_compute. reflexivity. Qed.
Example parse_4 : ParseTarget "/root" "~/x+t" = Ok (mkRef KTarget "" "" "/root/x" "" "t").
Proof. vm_compute. reflexivity. Qed.

(** * References: facts

    Parsing is the inverse of canonical printing.  [splitUnescapePlus] works on
    runes and the rest of the package on bytes; on well-formed UTF-8 the two
    readings agree ([split_runes_bytes]), and the round trip is proved on bytes. *)

(** ** Runes and bytes *)

Definition high (c : ascii) : bool := (128 <=? byteZ c)%Z.

(** A rune of 128 or more is made of bytes of 128 or more. *)
Lemma decode_high s r w :
  s <> "" -> DecodeRuneInString s = (r, w) -> (128 <= r)%Z -> sall high (stake w s) = true.
Proof.
  intros Hs H Hr. destruct s as [|c0 s1]; [done|]. unfold DecodeRuneInString, RuneSelf, RuneError in H.
  destruct (byteZ c0 <? 128)%Z eqn:E0; [to_prop; simplify_eq; lia|].
  assert (high c0 = true) as H0 by (unfold high; to_prop; by apply Z.leb_le).
  assert (forall c lo hi, (128 <= lo)%Z -> in_range lo hi (byteZ c) = true -> high c = true) as Hin.
  { intros c lo hi Hlo [? _]%andb_true_iff. unfold high. to_prop. apply Z.leb_le. lia. }
  assert (forall c, cont_ok c = true -> high c = true) as Hco by (intros c; apply Hin; lia).
  destruct (lead (byteZ c0)) as [[[n lo] hi]|] eqn:El; [|simplify_eq; simpl; by rewrite H0].
  assert (128 <= lo)%Z as Hlo by (unfold lead in El; repeat case_hyp El; simplify_eq; lia).
  repeat case_hyp H; simplify_eq; simpl; rewrite H0; simpl; try done; to_prop;
    rewrite ?(Hin _ _ _ Hlo) by done; rewrite ?Hco by done; done.
Qed.

Lemma EncodeRune_nonempty r : EncodeRune r <> "".
Proof. unfold EncodeRune. repeat case_test; done. Qed.

Lemma string_of_runes_app a b : string_of_runes (a ++ b) = string_of_runes a +:+ string_of_runes b.
Proof.
  unfold string_of_runes. induction a as [|r a IH]; simpl; [done|].
  change (EncodeRune r +:+ sconcat (List.map EncodeRune (a ++ b)) =
    (EncodeRune r +:+ sconcat (List.map EncodeRune a)) +:+ sconcat (List.map EncodeRune b)).
  rewrite IH. apply sapp_assoc.
Qed.

Lemma string_of_rune r : string_of_runes [r] = EncodeRune r.
Proof. apply sapp_nil_r. Qed.

Lemma string_of_runes_nil rs : string_of_runes rs = "" -> rs = [].
Proof.
  destruct rs as [|r rs]; [done|]. intros H. exfalso. apply (EncodeRune_nonempty r).
  unfold string_of_runes in H. simpl in H. by destruct (EncodeRune r).
Qed.

(** ** Splitting on bytes *)

Fixpoint split_bytes (s : string) (escape : bool) (ret : list string) (word : string)
    : bool * list string * string :=
  match s with
  | "" => (escape, ret, word)
  | String c s =>
      if escape then
        split_bytes s false ret
          ((if Ascii.eqb c plus then word else word +:+ String backslash "") +:+ String c "")
      else if Ascii.eqb c backslash then split_bytes s true ret word
      else if Ascii.eqb c plus then split_bytes s false (ret ++ [word]) ""
      else split_bytes s false ret (word +:+ String c "")
  end.

Lemma high_neq c d : high c = true -> (byteZ d < 128)%Z -> Ascii.eqb c d = false.
Proof.
  unfold high. intros H Hd. to_prop. apply Ascii.eqb_neq. intros ->. lia.
Qed.

(** Bytes of a rune of 128 or more are kept, after the backslash of an escape. *)
Lemma split_bytes_high p s e ret word :
  p <> "" -> sall high p = true ->
  split_bytes (p +:+ s) e ret word =
  split_bytes s false ret ((if e then word +:+ String backslash "" else word) +:+ p).
Proof.
  revert e word. induction p as [|c p IH]; intros e word Hp Hh; [done|]. simpl in Hh.
  apply andb_true_iff in Hh as [Hc Hh]. simpl.
  rewrite !(high_neq c) by done. change (p ++ s)%string with (p +:+ s).
  destruct p as [|d p]; [by destruct e|].
  rewrite !(IH _ _ ltac:(done) Hh). destruct e; f_equal; by rewrite <- !sapp_assoc.
Qed.

Lemma byteZ_eqb c d : (byteZ c =? byteZ d)%Z = Ascii.eqb c d.
Proof.
  destruct (Ascii.eqb_spec c d) as [->|Hn]; [apply Z.eqb_refl|]. apply Z.eqb_neq. intros H.
  by apply byteZ_inj in H.
Qed.

Lemma split_runes_fuel f s e ret word :
  utf8_fuel f s = true ->
  (let '(e', ret', word') := split_loop (runes_fuel f s) e ret word in (e', ret', string_of_runes word')) =
  split_bytes s e ret (string_of_runes word).
Proof.
  revert s e ret word. induction f as [|f IH]; intros s e ret word Hs; destruct s as [|c s]; try done.
  cbn [utf8_fuel runes_fuel] in *. destruct (DecodeRuneInString (String c s)) as [r w] eqn:E.
  apply andb_true_iff in Hs as [Hp Hs]. apply String.eqb_eq in Hp.
  destruct (decode_spec (String c s) r w ltac:(done) E) as (Hr0 & Hw & Hlow).
  set (rest := sdrop w (String c s)) in *.
  assert (String c s = EncodeRune r +:+ rest) as Hsplit by (rewrite Hp; unfold rest; by rewrite stake_sdrop).
  destruct (Z.lt_ge_cases r 128) as [Hlt|Hge].
  - destruct (Hlow Hlt) as (-> & c' & s' & [= <- <-] & Hc). simpl in Hp, rest. subst rest.
    assert (EncodeRune r = String c "") as Hec by (rewrite Hp; by destruct s).
    simpl. change 43%Z with (byteZ plus). change 92%Z with (byteZ backslash).
    rewrite <- Hc, !byteZ_eqb.
    destruct e; [|destruct (Ascii.eqb c backslash); [|destruct (Ascii.eqb c plus)]]; rewrite IH by done;
      f_equal; rewrite ?string_of_runes_app, ?string_of_rune, ?Hc, ?Hec; try done.
    destruct (Ascii.eqb c plus); rewrite ?string_of_runes_app, ?string_of_rune; done.
  - rewrite Hsplit, split_bytes_high; [|apply EncodeRune_nonempty|rewrite Hp; by eapply decode_high].
    cbn [split_loop]. rewrite !(proj2 (Z.eqb_neq r _)) by lia.
    destruct e; rewrite IH by done; f_equal; rewrite ?string_of_runes_app, ?string_of_rune; done.
Qed.

(** On well-formed UTF-8, splitting runes is splitting bytes. *)
Lemma split_runes_bytes s :
  utf8 s = true ->
  splitUnescapePlus s =
  let '(escape, ret, word) := split_bytes s false [] "" in
  if (escape : bool) then Err ("cannot split by +: unterminated escape sequence at the end of " +:+ s)
  else Ok (match word with "" => ret | _ => ret ++ [word] end).
Proof.
  intros Hs. unfold splitUnescapePlus, runes.
  pose proof (split_runes_fuel (String.length s) s false [] [] Hs) as H.
  destruct (split_loop _ _ _ _) as [[e ret] word]. change (string_of_runes []) with "" in H.
  rewrite <- H. destruct e; [done|]. f_equal. destruct word as [|r word]; [done|].
  destruct (string_of_runes (r :: word)) eqn:E; [by apply string_of_runes_nil in E|done].
Qed.

(** ** Printing *)

Lemma sall_app p a b : sall p (a +:+ b) = sall p a && sall p b.
Proof.
  induction a as [|c a IH]; simpl; [done|]. change (a ++ b)%string with (a +:+ b).
  by rewrite IH, andb_assoc.
Qed.

Lemma escapePlus_app a b : escapePlus (a +:+ b) = escapePlus a +:+ escapePlus b.
Proof.
  unfold escapePlus. induction a as [|c a IH]; simpl; [done|].
  change (a ++ b)%string with (a +:+ b). rewrite IH. destruct (Ascii.eqb c plus); [|done].
  by rewrite sapp_assoc.
Qed.

(** The part of a reference before its name, as the parser sees it. *)
Definition project_text (r : Reference) : string :=
  if strne (GitURL r) "" then GitURL r +:+ (if strne (Tag r) "" then ":" +:+ Tag r else "")
  else if streq (LocalPath r) "." then ""
  else if streq (LocalPath r) "" && strne (ImportRef r) "" then ImportRef r
  else LocalPath r.

Lemma git_string_escape r :
  git_string r = escapePlus (GitURL r +:+ (if strne (Tag r) "" then ":" +:+ Tag r else "")).
Proof. unfold git_string. rewrite escapePlus_app. by destruct (strne (Tag r) ""). Qed.

Lemma canonical_text r : referenceStringCanonical r = escapePlus (project_text r) +:+ String plus (Name r).
Proof.
  unfold referenceStringCanonical, project_text. rewrite git_string_escape. by repeat case_test.
Qed.

Lemma project_canonical_text r : referenceProjectCanonical r = escapePlus (project_text r).
Proof.
  unfold referenceProjectCanonical, project_text. rewrite git_string_escape. by repeat case_test.
Qed.

Lemma split_bytes_escape w s ret acc :
  no_byte backslash w = true ->
  split_bytes (escapePlus w +:+ s) false ret acc = split_bytes s false ret (acc +:+ w).
Proof.
  revert acc. induction w as [|c w IH]; intros acc Hw.
  - change (escapePlus "" +:+ s) with s. by rewrite sapp_nil_r.
  - unfold no_byte in Hw. simpl in Hw. apply andb_true_iff in Hw as [Hc Hw]. apply negb_true_iff in Hc.
    assert (acc +:+ String c w = (acc +:+ String c "") +:+ w) as -> by by rewrite <- sapp_assoc.
    unfold escapePlus. cbn [ReplaceAll]. fold (escapePlus w).
    destruct (Ascii.eqb c plus) eqn:Ep.
    + apply Ascii.eqb_eq in Ep. subst c. rewrite <- sapp_assoc. simpl. by apply IH.
    + rewrite sapp_cons. simpl. rewrite Hc, Ep. by apply IH.
Qed.

Lemma split_bytes_plain n ret acc :
  no_byte backslash n = true -> no_byte plus n = true ->
  split_bytes n false ret acc = (false, ret, acc +:+ n).
Proof.
  revert acc. induction n as [|c n IH]; intros acc Hb Hp; simpl; [by rewrite sapp_nil_r|].
  unfold no_byte in *. simpl in *. apply andb_true_iff in Hb as [Hb1 Hb2], Hp as [Hp1 Hp2].
  apply negb_true_iff in Hb1, Hp1. rewrite Hb1, Hp1, IH by done. by rewrite <- sapp_assoc.
Qed.

(** Reading a printed reference gives back its two parts. *)
Lemma split_printed p n :
  no_byte backslash p = true -> no_byte backslash n = true -> no_byte plus n = true -> n <> "" ->
  utf8 (escapePlus p +:+ String plus n) = true ->
  splitUnescapePlus (escapePlus p +:+ String plus n) = Ok [p; n].
Proof.
  intros Hp Hn1 Hn2 Hn Hu. rewrite split_runes_bytes, split_bytes_escape by done. simpl.
  rewrite split_bytes_plain by done. by destruct n.
Qed.

(** ** Names *)

Definition nameRegex (k : refKind) (s : string) : bool :=
  match k with KTarget => targetNameRegex s | KCommand => commandNameRegex s end.

Definition ParseRef (k : refKind) (HOME s : string) : res Reference :=
  match k with KTarget => ParseTarget HOME s | KCommand => ParseCommand HOME s end.

Definition name_byte (c : ascii) : bool :=
  is_lower c || is_upper c || is_digit c || is_char "." c || is_char "-" c || is_char "_" c.

Lemma name_byte_not c d : name_byte d = false -> name_byte c = true -> negb (Ascii.eqb c d) = true.
Proof. intros Hd Hc. apply negb_true_iff, Ascii.eqb_neq. intros ->. congruence. Qed.

Lemma nameRegex_bytes k n : nameRegex k n = true ->
  n <> "" /\ no_byte backslash n = true /\ no_byte plus n = true.
Proof.
  intros H. assert (n <> "" /\ sall name_byte n = true) as [Hn Hs].
  { unfold nameRegex, targetNameRegex, commandNameRegex in H. destruct k, n as [|c n]; try done;
      apply andb_true_iff in H as [Hc Hs]; (split; [done|]); simpl;
      (rewrite (sall_impl _ name_byte n) with (2 := Hs));
      try (unfold name_byte; rewrite Hc; by rewrite ?orb_true_r);
      intros d; unfold name_byte; intros Hd; repeat (apply orb_true_iff in Hd as [Hd|Hd]);
      rewrite Hd; by rewrite ?orb_true_r. }
  split_and!; [done|..]; eapply sall_impl; try exact Hs; intros c; by apply name_byte_not.
Qed.

(** ** The four shapes of a reference *)

Record no_git (r : Reference) : Prop := mkNoGit { ng_url : GitURL r = ""; ng_tag : Tag r = "" }.

(** What the parser builds: a reference within the Earthfile, one to another
    local directory (a cleaned path), one to a git repository, or an import. *)
Inductive canonical (HOME : string) (r : Reference) : Prop :=
  | can_internal :
      no_git r -> LocalPath r = "." -> ImportRef r = "" -> canonical HOME r
  | can_external :
      no_git r -> is_local (LocalPath r) = true -> local_path HOME (LocalPath r) = LocalPath r ->
      ImportRef r = "" -> canonical HOME r
  | can_remote :
      GitURL r <> "" -> no_byte colon (GitURL r) = true -> is_local (project_text r) = false ->
      ContainsAny (project_text r) "/:" = true ->
      LocalPath r = "" -> ImportRef r = "" -> canonical HOME r
  | can_import :
      no_git r -> LocalPath r = "" -> ImportRef r <> "" ->
      is_local (ImportRef r) = false -> ContainsAny (ImportRef r) "/:" = false -> canonical HOME r.

(** The body of [parseCommon] on the part before the name. *)
Definition classify (HOME p name : string) : string * string * string * string * string :=
  if streq p "" then ("", "", ".", "", name)
  else if is_local p then ("", "", local_path HOME p, "", name)
  else if ContainsAny p "/:" then
    match SplitN2 p colon with
    | [url; tag] => (url, tag, "", "", name)
    | _ => (p, "", "", "", name)
    end
  else ("", "", "", p, name).

Lemma parseCommon_classify HOME s p name :
  splitUnescapePlus s = Ok [p; name] -> parseCommon HOME s = Ok (classify HOME p name).
Proof.
  intros E. unfold parseCommon, classify. rewrite E. simpl. repeat case_test; try done.
  by destruct (SplitN2 p colon) as [|? [|? [|]]].
Qed.

Lemma classify_name HOME p name :
  exists url tag lp imp, classify HOME p name = (url, tag, lp, imp, name).
Proof.
  unfold classify. repeat case_test; eauto 10. destruct (SplitN2 p colon) as [|? [|? [|]]]; eauto 10.
Qed.

Lemma ParseRef_classify k HOME s p name :
  splitUnescapePlus s = Ok [p; name] -> nameRegex k name = true ->
  ParseRef k HOME s =
  Ok (let '(url, tag, lp, imp, n) := classify HOME p name in mkRef k url tag lp imp n).
Proof.
  intros E Hn.
  destruct (classify_name HOME p name) as (url & tag & lp & imp & Hc).
  rewrite Hc. destruct k; simpl in *; unfold ParseTarget, ParseCommand;
    rewrite (parseCommon_classify HOME s p name E), Hc; simpl; by rewrite Hn.
Qed.

(** ** [SplitN2] *)

Lemma Cut_no_byte c s : no_byte c s = true -> Cut s c = (s, "", false).
Proof.
  induction s as [|d s IH]; simpl; [done|]. intros [Hd Hs]%andb_true_iff. apply negb_true_iff in Hd.
  unfold no_byte in IH. by rewrite Hd, (IH Hs).
Qed.

Lemma Cut_app c s t : no_byte c s = true -> Cut (s +:+ String c t) c = (s, t, true).
Proof.
  induction s as [|d s IH]; simpl; [by rewrite Ascii.eqb_refl|]. intros [Hd Hs]%andb_true_iff.
  apply negb_true_iff in Hd. unfold no_byte in IH. change (s ++ String c t)%string with (s +:+ String c t).
  by rewrite Hd, (IH Hs).
Qed.

Lemma Cut_spec c s :
  (no_byte c s = true /\ Cut s c = (s, "", false)) \/
  exists a b, s = a +:+ String c b /\ no_byte c a = true /\ Cut s c = (a, b, true).
Proof.
  induction s as [|d s IH]; [by left|]. destruct (Ascii.eqb d c) eqn:E.
  - right. apply Ascii.eqb_eq in E. subst. exists "", s. simpl. by rewrite Ascii.eqb_refl.
  - destruct IH as [[Hs Hc]|(a & b & -> & Ha & Hc)].
    + left. unfold no_byte in *. simpl. rewrite E, Hc. by rewrite Hs.
    + right. exists (String d a), b. unfold no_byte in *. simpl. change (a ++ String c b)%string with (a +:+ String c b).
      rewrite E, Hc. by rewrite Ha.
Qed.

(** A reference is read back from its project text. *)
Lemma classify_canonical HOME r :
  canonical HOME r ->
  classify HOME (project_text r) (Name r) = (GitURL r, Tag r, LocalPath r, ImportRef r, Name r).
Proof.
  intros [[Hu Ht] Hl Hi|[Hu Ht] Hil Hlp Hi|Hu Hco Hloc Hany Hl Hi|[Hu Ht] Hl Hi Hloc Hany].
  - unfold project_text, classify. by rewrite Hu, Hl, Ht, Hi.
  - unfold project_text. rewrite Hu, Ht, Hi. simpl.
    destruct (streq (LocalPath r) ".") eqn:E1; [apply String.eqb_eq in E1; by rewrite E1|].
    rewrite andb_false_r. unfold classify. rewrite Hil, Hlp.
    destruct (streq (LocalPath r) "") eqn:E2; [apply String.eqb_eq in E2; by rewrite E2 in Hil|done].
  - unfold classify. rewrite Hloc, Hany, Hl, Hi.
    assert (strne (GitURL r) "" = true) as Hne by (by apply negb_true_iff, String.eqb_neq).
    assert (streq (project_text r) "" = false) as ->.
    { apply String.eqb_neq. unfold project_text. rewrite Hne. by destruct (GitURL r). }
    unfold project_text. rewrite Hne. unfold SplitN2. destruct (strne (Tag r) "") eqn:Et.
    + change (":" +:+ Tag r) with (String colon (Tag r)). by rewrite Cut_app.
    + rewrite sapp_nil_r, Cut_no_byte by done. apply negb_false_iff, String.eqb_eq in Et. by rewrite Et.
  - unfold project_text. rewrite Hu, Ht, Hl. simpl.
    assert (strne (ImportRef r) "" = true) as Hne by (by apply negb_true_iff, String.eqb_neq).
    rewrite Hne. unfold classify. rewrite Hloc, Hany. unfold streq. by rewrite (proj1 (negb_true_iff _) Hne).
Qed.

(** Parsing the canonical text of a reference. *)
Lemma parse_canonical_text HOME r :
  canonical HOME r -> nameRegex (kind r) (Name r) = true ->
  no_byte backslash (project_text r) = true -> utf8 (referenceStringCanonical r) = true ->
  ParseRef (kind r) HOME (referenceStringCanonical r) = Ok r.
Proof.
  intros Hc Hn Hb Hu. rewrite canonical_text in *. destruct (nameRegex_bytes _ _ Hn) as (H1 & H2 & H3).
  rewrite (ParseRef_classify (kind r) HOME _ (project_text r) (Name r)); [|by apply split_printed|done].
  rewrite classify_canonical by done. by destruct r.
Qed.

(** C38. Canonical printing and parsing of references are inverse: a target or
    command of one of the shapes the parser builds, whose parts have no backslash
    (they may contain plus signs), is read back exactly from its canonical text. *)
Theorem reference_roundtrip HOME r :
  canonical HOME r -> nameRegex (kind r) (Name r) = true ->
  no_byte backslash (project_text r) = true -> utf8 (referenceStringCanonical r) = true ->
  ParseRef (kind r) HOME (referenceStringCanonical r) = Ok r.
Proof. apply parse_canonical_text. Qed.

Lemma reference_roundtrip_witness :
  let r := mkRef KTarget "github.com/foo/bar+baz" "v1" "" "" "build" in
  canonical "/root" r /\ ParseTarget "/root" (referenceStringCanonical r) = Ok r.
Proof.
  intros r.
  assert (canonical "/root" r) as Hc by (apply can_remote; done || reflexivity).
  split; [exact Hc|]. apply (reference_roundtrip "/root" r Hc); reflexivity.
Defined.

(** ** What the parser builds *)

Lemma HasPrefix_app s t p : HasPrefix s p = true -> HasPrefix (s +:+ t) p = true.
Proof.
  intros [u ->]%HasPrefix_spec. apply HasPrefix_spec. exists (u +:+ t). by rewrite sapp_assoc.
Qed.

(** Prefixes that differ in their first byte exclude each other. *)
Lemma HasPrefix_excl s c p d q :
  c <> d -> HasPrefix s (String c p) = true -> HasPrefix s (String d q) = false.
Proof.
  intros Hn [t ->]%HasPrefix_spec. apply not_true_is_false. intros [u Hu]%HasPrefix_spec. by injection Hu.
Qed.

Lemma local_path_idem HOME p :
  is_local p = true -> HasPrefix p "~/" = false ->
  is_local (local_path HOME p) = true /\ local_path HOME (local_path HOME p) = local_path HOME p.
Proof.
  intros Hl Hh. destruct (IsAbs p) eqn:Ha.
  - assert (local_path HOME p = Clean p) as -> by (unfold local_path; by rewrite Hh, Ha).
    assert (IsAbs (Clean p) = true) as Hc by by rewrite IsAbs_Clean.
    assert (HasPrefix (Clean p) "~/" = false) as Ht by by apply (HasPrefix_excl _ "/"%char "").
    unfold local_path, is_local. rewrite Ht, Hc, Clean_idem. by rewrite orb_true_r.
  - assert (IsAbs (Clean p) = false) as Hc by by rewrite IsAbs_Clean.
    destruct (HasPrefix (Clean p) ".") eqn:Hd.
    + assert (local_path HOME p = Clean p) as -> by (unfold local_path; by rewrite Hh, Ha, Hd).
      assert (HasPrefix (Clean p) "~/" = false) as Ht by by apply (HasPrefix_excl _ "."%char "").
      unfold local_path, is_local. by rewrite Ht, Hc, Clean_idem, Hd.
    + assert (local_path HOME p = "./" +:+ Clean p) as -> by (unfold local_path; by rewrite Hh, Ha, Hd).
      assert (HasPrefix ("./" +:+ Clean p) "." = true) as Hd2 by (apply HasPrefix_spec; by exists ("/" +:+ Clean p)).
      assert (HasPrefix ("./" +:+ Clean p) "~/" = false) as Ht by by apply (HasPrefix_excl _ "."%char "").
      assert (IsAbs ("./" +:+ Clean p) = false) as Hc2 by by apply (HasPrefix_excl _ "."%char "").
      unfold local_path, is_local. by rewrite Ht, Hc2, Hd2, (Clean_dot _ Hc), Clean_idem, Hd.
Qed.

Lemma is_local_app s t : is_local (s +:+ t) = false -> is_local s = false.
Proof.
  unfold is_local, IsAbs. intros H. apply not_true_is_false. intros Hs. apply not_true_iff_false in H. apply H.
  apply orb_true_iff in Hs as [Hs|Hs]; [apply orb_true_iff in Hs as [Hs|Hs]|];
    apply (HasPrefix_app _ t) in Hs; rewrite Hs; by rewrite ?orb_true_r.
Qed.

(** References the parser accepts although their canonical text means something
    else: an empty URL with a tag, or a URL without slash and an empty tag. *)
Definition degenerate (r : Reference) : Prop :=
  LocalPath r = "" /\ ImportRef r = "" /\
  (GitURL r = "" \/ (Tag r = "" /\ ContainsAny (GitURL r) "/:" = false)).

Lemma classify_shape HOME k p name :
  HasPrefix p "~/" = false ->
  let '(url, tag, lp, imp, n) := classify HOME p name in
  canonical HOME (mkRef k url tag lp imp n) \/ degenerate (mkRef k url tag lp imp n).
Proof.
  intros Hh. unfold classify. destruct (streq p "") eqn:E0.
  { left. by apply can_internal. }
  apply String.eqb_neq in E0. destruct (is_local p) eqn:El.
  { left. destruct (local_path_idem HOME p El Hh). by apply can_external. }
  destruct (ContainsAny p "/:") eqn:Ec; [|left; by apply can_import].
  unfold SplitN2. destruct (Cut_spec colon p) as [[Hnb ->]|(a & b & -> & Ha & ->)].
  - left. apply can_remote; try done; unfold project_text, strne; simpl;
      rewrite (proj2 (String.eqb_neq _ _) E0); simpl; by rewrite sapp_nil_r.
  - destruct (String.eqb_spec a "") as [->|Hna]; [by right; split_and!; try left|].
    destruct (String.eqb_spec b "") as [->|Hnb].
    + destruct (ContainsAny a "/:") eqn:Ea; [|by right; split_and!; try right].
      apply is_local_app in El.
      left. apply can_remote; try done; unfold project_text, strne; simpl;
        rewrite (proj2 (String.eqb_neq _ _) Hna); simpl; by rewrite sapp_nil_r.
    + left. apply can_remote; try done; unfold project_text, strne; simpl;
        rewrite (proj2 (String.eqb_neq _ _) Hna), (proj2 (String.eqb_neq _ _) Hnb); done.
Qed.

(** What the parser builds is canonical: a reference parsed from a text whose
    path does not start with ~/ has one of the four shapes (its local path, for
    instance, is cleaned), except for the degenerate git references. *)
Theorem ParseRef_canonical k HOME s p name r :
  splitUnescapePlus s = Ok [p; name] -> HasPrefix p "~/" = false -> ParseRef k HOME s = Ok r ->
  (canonical HOME r \/ degenerate r) /\ kind r = k /\ nameRegex k (Name r) = true.
Proof.
  intros Es Hh Er. pose proof (classify_shape HOME k p name Hh) as Hs.
  destruct (nameRegex k name) eqn:En.
  - rewrite (ParseRef_classify k HOME s p name Es En) in Er.
    destruct (classify_name HOME p name) as (url & tag & lp & imp & Hc).
    rewrite Hc in *. injection Er as <-. by split_and!.
  - exfalso. assert (exists e, ParseRef k HOME s = Err e) as [e He]; [|congruence].
    destruct (classify_name HOME p name) as (url & tag & lp & imp & Hc).
    destruct k; simpl in *; unfold ParseTarget, ParseCommand;
      rewrite (parseCommon_classify HOME s p name Es), Hc; simpl; rewrite En; by eexists.
Qed.

Lemma ParseRef_canonical_witness :
  exists r, ParseRef KTarget "/root" "../a/./b+build" = Ok r /\ LocalPath r = "../a/b" /\
    (canonical "/root" r \/ degenerate r).
Proof.
  exists (mkRef KTarget "" "" "../a/b" "" "build"). split; [reflexivity|]. split; [reflexivity|].
  apply (ParseRef_canonical KTarget "/root" "../a/./b+build" "../a/./b" "build"); reflexivity.
Defined.

(** A degenerate reference changes its meaning when it is printed: the git
    reference [host:+build] (an empty tag) prints as [host+build], which parses as
    an import. *)
Theorem empty_tag_becomes_import :
  exists r, ParseTarget "/root" "host:+build" = Ok r /\ IsRemote r = true /\
    exists r', ParseTarget "/root" (referenceStringCanonical r) = Ok r' /\ IsImportReference r' = true /\
      IsRemote r' = false.
Proof.
  eexists. split; [vm_compute; reflexivity|]. split; [reflexivity|].
  eexists. split; [vm_compute; reflexivity|]. split; reflexivity.
Qed.
