(* ===== verification/Imports.v ===== *)
(** * Imports and artifacts

    A translation of [domain/importtracker.go] and [domain/artifact.go].  The
    tracker's maps are finite maps; what it prints goes to a list of log lines. *)

From stdpp Require Import gmap.
From S2P Require Import Prelude GoStrings Token GoText Reference.

Open Scope res_scope.

(** ** Artifacts *)

Record Artifact : Type := mkArtifact {
  art_Target : Reference;
  art_Artifact : string
}.

Definition Artifact_String (a : Artifact) : string :=
  referenceString (art_Target a) +:+ path_Join ["/"; escapePlus (art_Artifact a)].

Definition Artifact_StringCanonical (a : Artifact) : string :=
  referenceStringCanonical (art_Target a) +:+ path_Join ["/"; escapePlus (art_Artifact a)].

Definition ParseArtifact (HOME artifactName : string) : res Artifact :=
  let* parts := splitUnescapePlus artifactName in
  match parts with
  | [p0; p1] =>
      match SplitN2 p1 slash with
      | [name; path] =>
          match ParseTarget HOME (escapePlus p0 +:+ "+" +:+ name) with
          | Ok target => Ok (mkArtifact target ("/" +:+ path))
          | Err e => Err ("invalid artifact name " +:+ artifactName +:+ ": " +:+ e)
          | NoFuel => NoFuel
          end
      | _ => Err ("invalid artifact name " +:+ artifactName)
      end
  | _ => Err ("invalid artifact name " +:+ artifactName)
  end.

Example artifact_1 : ParseArtifact "/root" "./a\+b+build/out/bin" =
  Ok (mkArtifact (mkRef KTarget "" "" "./a+b" "" "build") "/out/bin").
Proof. vm_compute. reflexivity. Qed.

(** ** The import tracker *)

Record ImportTrackerVal : Type := mkVal {
  fullPath : string;
  allowPrivileged : bool
}.

Record ImportTracker : Type := mkTracker {
  local : gmap string ImportTrackerVal;
  global : gmap string ImportTrackerVal;
  log : list string
}.

Definition NewImportTracker (g : gmap string ImportTrackerVal) : ImportTracker := mkTracker ∅ g [].

Definition SetGlobal (gi : gmap string ImportTrackerVal) (ir : ImportTracker) : ImportTracker :=
  mkTracker (local ir) gi (log ir).

Definition print_log (line : string) (ir : ImportTracker) : ImportTracker :=
  mkTracker (local ir) (global ir) (log ir ++ [line]).

(** [pathParts[len(pathParts)-1]] of [strings.Split(path, "/")]. *)
Definition last_part (path : string) : string := List.last (Split path slash) "".

(** The path of an import and whether it may be privileged; [None] when the
    reference cannot be imported. *)
Definition import_path (r : Reference) (currentlyPrivileged allowPrivilegedFlag : bool) : option (string * bool) :=
  if IsImportReference r then None
  else if IsRemote r then Some (GitURL r, currentlyPrivileged && allowPrivilegedFlag)
  else if IsLocalExternal r then Some (LocalPath r, currentlyPrivileged)
  else None.

Definition warn_privileged (r : Reference) (allowPrivilegedFlag : bool) (ir : ImportTracker) : ImportTracker :=
  if negb (IsImportReference r) && negb (IsRemote r) && IsLocalExternal r && allowPrivilegedFlag then
    print_log ("the --allow-privileged flag has no effect when referencing a local target" +:+ NLs) ir
  else ir.

(** The tracker after [Add]; its log is kept also when [Add] fails. *)
Definition Add (HOME importStr as_ : string) (isGlobal currentlyPrivileged allowPrivilegedFlag : bool)
    (ir : ImportTracker) : ImportTracker * res unit :=
  if streq importStr "" then (ir, Err "IMPORTing empty string not supported")
  else
    match ParseTarget HOME (importStr +:+ "+none") with
    | NoFuel => (ir, NoFuel)
    | Err e => (ir, Err ("could not parse IMPORT " +:+ importStr +:+ ": " +:+ e))
    | Ok parsedImport =>
        let importStr := referenceProjectCanonical parsedImport in
        match import_path parsedImport currentlyPrivileged allowPrivilegedFlag with
        | None => (ir, Err ("IMPORT " +:+ importStr +:+ " not supported"))
        | Some (path, allow) =>
            let ir := warn_privileged parsedImport allowPrivilegedFlag ir in
            let defaultAs := last_part path in
            if streq defaultAs "" then (ir, Err ("IMPORT " +:+ importStr +:+ " not supported"))
            else if (streq defaultAs "." || streq defaultAs "..") && streq as_ "" then
              (ir, Err ("IMPORT requires AS if the import path ends with " +:+ dquote +:+ "." +:+ dquote +:+
                        " or " +:+ dquote +:+ ".." +:+ dquote))
            else
              let as_ := if streq as_ "" then defaultAs else as_ in
              if ContainsAny as_ "/:" then (ir, Err ("invalid IMPORT AS " +:+ as_))
              else
                let m := if isGlobal then global ir else local ir in
                match m !! as_ with
                | Some _ => (ir, Err ("import ref " +:+ as_ +:+ " already exists in this scope"))
                | None =>
                    let m := <[as_ := mkVal importStr allow]> m in
                    (if isGlobal then mkTracker (local ir) m (log ir) else mkTracker m (global ir) (log ir), Ok tt)
                end
        end
    end.

(** What an import reference stands for: local imports hide global ones. *)
Definition resolve (ir : ImportTracker) (name : string) : option ImportTrackerVal :=
  match local ir !! name with
  | Some v => Some v
  | None => global ir !! name
  end.

(** The reference, and the privilege with whether it was set. *)
Definition Deref (HOME : string) (ref : Reference) (ir : ImportTracker) : res (Reference * bool * bool) :=
  if negb (IsImportReference ref) then Ok (ref, false, false)
  else
    match resolve ir (ImportRef ref) with
    | None => Err ("import reference " +:+ ImportRef ref +:+ " could not be resolved")
    | Some v =>
        let* ref2 := ParseRef (kind ref) HOME (fullPath v +:+ "+" +:+ Name ref) in
        Ok (mkRef (kind ref) (GitURL ref2) (Tag ref2) (LocalPath ref2) (ImportRef ref) (Name ref2),
            allowPrivileged v, true)
    end.

(** ** Facts *)

(** A reference with the place of [t] and another kind, import and name. *)
Definition at_place (t : Reference) (k : refKind) (n : string) : Reference :=
  mkRef k (GitURL t) (Tag t) (LocalPath t) (ImportRef t) n.

Lemma canonical_at_place HOME t k n : canonical HOME t -> canonical HOME (at_place t k n).
Proof.
  intros [[]|[]|? ? ? ? ? ?|[]]; [by apply can_internal|by apply can_external|by apply can_remote|by apply can_import].
Qed.

Lemma at_place_text t k n :
  referenceProjectCanonical t +:+ "+" +:+ n = referenceStringCanonical (at_place t k n).
Proof. by rewrite canonical_text, project_canonical_text. Qed.

(** The name an import is given. *)
Definition import_name (t : Reference) (as_ : string) : string :=
  if streq as_ "" then last_part (if IsRemote t then GitURL t else LocalPath t) else as_.

Lemma Add_Ok HOME s as_ g cur flag ir ir' :
  Add HOME s as_ g cur flag ir = (ir', Ok tt) ->
  exists t v, ParseTarget HOME (s +:+ "+none") = Ok t /\ IsImportReference t = false /\
    v = mkVal (referenceProjectCanonical t) (cur && (flag || negb (IsRemote t))) /\
    let name := import_name t as_ in
    if g then global ir !! name = None /\ local ir' = local ir /\ global ir' = <[name := v]> (global ir)
    else local ir !! name = None /\ global ir' = global ir /\ local ir' = <[name := v]> (local ir).
Proof.
  unfold Add. destruct (streq s ""); [done|]. destruct (ParseTarget _ _) as [t|e|]; [|done|done].
  unfold import_path, import_name. destruct (IsImportReference t) eqn:Ei; [done|].
  destruct (IsRemote t) eqn:Er; [|destruct (IsLocalExternal t) eqn:El; [|done]];
    repeat case_test; try done; intros [= <-]; exists t; eexists;
    (split; [done|]); (split; [done|]); (split; [reflexivity|]);
    unfold warn_privileged in *; rewrite ?Ei, ?Er in *; simpl in *;
    rewrite ?orb_true_r, ?orb_false_r, ?andb_true_r in *;
    repeat case_test; simplify_eq/=; done.
Qed.

(** An import is resolved to what was imported: after [Add] succeeds, a
    reference through the import's name (its AS name, or the last part of the
    path) is dereferenced to the imported place with the reference's own kind and
    name; it may be privileged only if the importer was, and a remote one only
    with the flag as well. *)
Theorem Deref_Add HOME s as_ g cur flag ir ir' t ref :
  Add HOME s as_ g cur flag ir = (ir', Ok tt) ->
  ParseTarget HOME (s +:+ "+none") = Ok t -> canonical HOME t -> no_byte backslash (project_text t) = true ->
  ImportRef ref = import_name t as_ -> ImportRef ref <> "" ->
  (g = true -> local ir !! ImportRef ref = None) ->
  nameRegex (kind ref) (Name ref) = true ->
  utf8 (referenceProjectCanonical t +:+ "+" +:+ Name ref) = true ->
  Deref HOME ref ir' =
    Ok (mkRef (kind ref) (GitURL t) (Tag t) (LocalPath t) (ImportRef ref) (Name ref),
        cur && (flag || negb (IsRemote t)), true).
Proof.
  intros (t' & v & Ht' & _ & Hv & Hm)%Add_Ok Ht Hc Hb Hname Hne Hg Hn Hu. rewrite Ht in Ht'. injection Ht' as <-.
  rewrite <- Hname in Hm. unfold Deref, IsImportReference, strne.
  rewrite (proj2 (String.eqb_neq _ _) Hne). simpl.
  assert (resolve ir' (ImportRef ref) = Some v) as ->.
  { unfold resolve. destruct g; destruct Hm as (Hno & -> & ->); [rewrite Hg by done|]; by rewrite lookup_insert_eq. }
  subst v. simpl. rewrite (at_place_text t (kind ref)) in *.
  pose proof (parse_canonical_text HOME (at_place t (kind ref) (Name ref))) as Hp. simpl in Hp.
  rewrite Hp; [done| |done|exact Hb|done]. by apply canonical_at_place.
Qed.

Lemma Deref_Add_witness :
  let t := mkRef KTarget "github.com/foo/bar" "v1" "" "" "none" in
  let ir' := mkTracker {["bar" := mkVal "github.com/foo/bar:v1" true]} ∅ [] in
  Deref "/root" (mkRef KCommand "" "" "" "bar" "DO_IT") ir' =
    Ok (mkRef KCommand "github.com/foo/bar" "v1" "" "bar" "DO_IT", true, true).
Proof.
  intros t ir'.
  apply (Deref_Add "/root" "github.com/foo/bar:v1" "" false true true (NewImportTracker ∅) ir' t);
    try (vm_compute; reflexivity); try done.
  apply can_remote; done || reflexivity.
Defined.

(** ** Privileges *)

(** No import of the tracker may be privileged. *)
Definition unprivileged (ir : ImportTracker) : Prop :=
  map_Forall (fun _ v => allowPrivileged v = false) (local ir) /\
  map_Forall (fun _ v => allowPrivileged v = false) (global ir).

(** Imports added by code that is not privileged. *)
Inductive reachable_unprivileged (HOME : string) (g : gmap string ImportTrackerVal) : ImportTracker -> Prop :=
  | ru_new : reachable_unprivileged HOME g (NewImportTracker g)
  | ru_add ir s as_ isGlobal flag :
      reachable_unprivileged HOME g ir ->
      reachable_unprivileged HOME g (fst (Add HOME s as_ isGlobal false flag ir)).

Lemma warn_unprivileged r flag ir : unprivileged ir -> unprivileged (warn_privileged r flag ir).
Proof. unfold warn_privileged. by case_test. Qed.

Lemma Add_unprivileged HOME s as_ g flag ir :
  unprivileged ir -> unprivileged (fst (Add HOME s as_ g false flag ir)).
Proof.
  intros Hu. unfold Add. destruct (streq s ""); [done|]. destruct (ParseTarget _ _) as [t|e|]; [|done|done].
  assert (forall path allow, import_path t false flag = Some (path, allow) -> allow = false) as Hp.
  { unfold import_path. intros path allow. by repeat case_test; intros [= <- <-]. }
  destruct (import_path t false flag) as [[path allow]|]; [|done]. rewrite (Hp path allow eq_refl).
  pose proof (warn_unprivileged t flag ir Hu) as [Hl Hg]. set (ir1 := warn_privileged t flag ir) in *.
  destruct g; repeat case_test; simpl; try done; split; simpl; try done; by apply map_Forall_insert_2.
Qed.

(** Privilege is never gained through imports: as long as every IMPORT is
    executed by unprivileged code, and the inherited global imports are not
    privileged, no import reference is ever allowed to be privileged, whatever
    --allow-privileged flags the IMPORTs have. *)
Theorem unprivileged_imports HOME g ir ref r allow set :
  reachable_unprivileged HOME g ir -> map_Forall (fun _ v => allowPrivileged v = false) g ->
  Deref HOME ref ir = Ok (r, allow, set) -> allow = false.
Proof.
  intros Hr Hg. assert (unprivileged ir) as [Hl Hgl].
  { induction Hr as [|ir s as_ ig flag _ IH]; [by split; [apply map_Forall_empty|]|by apply Add_unprivileged]. }
  unfold Deref. case_test; [by intros [= _ <- _]|].
  destruct (resolve ir (ImportRef ref)) as [v|] eqn:Ev; [|done].
  assert (allowPrivileged v = false) as ->.
  { unfold resolve in Ev. destruct (local ir !! _) eqn:El; simplify_eq; [by eapply Hl|by eapply Hgl]. }
  destruct (ParseRef _ _ _); simpl; [by intros [= _ <- _]|done|done].
Qed.

Lemma unprivileged_imports_witness :
  let ir := fst (Add "/root" "github.com/foo/bar" "" false false true (NewImportTracker ∅)) in
  exists r, Deref "/root" (mkRef KTarget "" "" "" "bar" "build") ir = Ok (r, false, true).
Proof.
  intros ir. eexists. 
  assert (exists r a, Deref "/root" (mkRef KTarget "" "" "" "bar" "build") ir = Ok (r, a, true) /\
    r = mkRef KTarget "github.com/foo/bar" "" "" "bar" "build") as (r & a & E & ->)
    by (do 2 eexists; split; [vm_compute; reflexivity|reflexivity]).
  rewrite E. repeat f_equal.
  apply (unprivileged_imports "/root" ∅ ir (mkRef KTarget "" "" "" "bar" "build") _ a true
    ltac:(apply ru_add, ru_new) (map_Forall_empty _) E).
Defined.

(** ** Joining *)

(** The spelling of a joined local path. *)
Definition dotted (p : string) : string :=
  if negb (HasPrefix p ".") && negb (HasPrefix p "/") then "./" +:+ p else p.

Lemma dotted_cases p : dotted p = p \/ (dotted p = "./" +:+ p /\ IsAbs p = false).
Proof.
  unfold dotted. destruct (HasPrefix p "."); simpl; [by left|]. unfold IsAbs.
  destruct (HasPrefix p "/"); simpl; [by left|by right].
Qed.

Lemma dotted_nonempty p : p <> "" -> dotted p <> "".
Proof. by destruct (dotted_cases p) as [->|[-> _]]. Qed.

Lemma dotted_abs p : IsAbs (dotted p) = IsAbs p.
Proof.
  destruct (dotted_cases p) as [->|[-> ->]]; [done|].
  apply (HasPrefix_excl _ "."%char "/"); [done|]. apply HasPrefix_spec. by eexists.
Qed.

Lemma join_dotted_r a p : a <> "" -> p <> "" -> path_Join [a; dotted p] = path_Join [a; p].
Proof.
  intros Ha Hp. destruct (dotted_cases p) as [->|[-> _]]; [done|].
  rewrite !path_Join2, !Clean_text, !IsAbs_app, !path_stack_app by done. done.
Qed.

Lemma join_dotted_l p c : p <> "" -> c <> "" -> path_Join [dotted p; c] = path_Join [p; c].
Proof.
  intros Hp Hc. destruct (dotted_cases p) as [->|[-> Ha]]; [done|]. rewrite !path_Join2 by done.
  rewrite <- sapp_assoc. apply Clean_dot. by rewrite IsAbs_app.
Qed.

(** A reference to another directory by a relative path. *)
Definition relative (r : Reference) : Prop := IsLocalExternal r = true /\ IsAbs (LocalPath r) = false.

Lemma external_path r : IsLocalExternal r = true -> LocalPath r <> "" /\ LocalPath r <> ".".
Proof.
  unfold IsLocalExternal, strne. intros [H1 H2]%andb_true_iff. apply negb_true_iff in H1, H2.
  by apply String.eqb_neq in H1, H2.
Qed.

Lemma external_of r : LocalPath r <> "" -> LocalPath r <> "." -> IsLocalExternal r = true.
Proof. intros H1 H2. unfold IsLocalExternal, strne. by rewrite !(proj2 (String.eqb_neq _ _)). Qed.

Lemma local_not_remote r : LocalPath r <> "" -> IsRemote r = false.
Proof.
  intros H. unfold IsRemote, IsLocalExternal, IsLocalInternal, strne, streq.
  rewrite (proj2 (String.eqb_neq _ _) H). destruct (String.eqb (LocalPath r) "."); simpl; by rewrite ?andb_false_r.
Qed.

Lemma local_resolved r : LocalPath r <> "" -> IsUnresolvedImportReference r = false.
Proof.
  intros H. unfold IsUnresolvedImportReference, IsLocalExternal, IsLocalInternal, strne, streq.
  rewrite (proj2 (String.eqb_neq _ _) H). destruct (String.eqb (LocalPath r) "."); simpl; by rewrite ?andb_false_r.
Qed.

(** Joining a relative reference to a local one, and to a remote one. *)
Lemma join_local r1 r2 :
  LocalPath r1 <> "" -> relative r2 ->
  JoinReferences r1 r2 = Ok (mkRef (kind r2) (GitURL r2) (Tag r2)
    (dotted (path_Join [LocalPath r1; LocalPath r2])) (ImportRef r2) (Name r2)).
Proof.
  intros H1 [He Ha]. destruct (external_path r2 He). unfold JoinReferences.
  by rewrite !local_resolved, local_not_remote, He, Ha.
Qed.

Lemma join_remote r1 r2 :
  IsRemote r1 = true -> relative r2 ->
  JoinReferences r1 r2 = Ok (mkRef (kind r2) (path_Join [GitURL r1; LocalPath r2]) (Tag r1) ""
    (ImportRef r2) (Name r2)).
Proof.
  intros H1 [He Ha]. destruct (external_path r2 He). unfold JoinReferences.
  assert (IsUnresolvedImportReference r1 = false) as ->
    by (unfold IsUnresolvedImportReference; rewrite H1; by rewrite andb_false_r).
  by rewrite local_resolved, H1, local_not_remote, He, Ha.
Qed.

Lemma remote_url r : IsRemote r = true -> GitURL r <> "".
Proof.
  unfold IsRemote, strne. intros [[H _]%andb_true_iff _]%andb_true_iff. apply negb_true_iff in H.
  by apply String.eqb_neq.
Qed.

Lemma path_Join_nonempty a b : a <> "" -> b <> "" -> path_Join [a; b] <> "".
Proof. intros. rewrite path_Join2 by done. apply Clean_nonempty. Qed.

Lemma relative_join r2 r3 :
  relative r2 -> relative r3 -> path_Join [LocalPath r2; LocalPath r3] <> "." ->
  exists r23, JoinReferences r2 r3 = Ok r23 /\ relative r23 /\
    LocalPath r23 = dotted (path_Join [LocalPath r2; LocalPath r3]) /\
    kind r23 = kind r3 /\ GitURL r23 = GitURL r3 /\ Tag r23 = Tag r3 /\
    ImportRef r23 = ImportRef r3 /\ Name r23 = Name r3.
Proof.
  intros H2 H3 Hd. destruct (external_path r2 (proj1 H2)) as [Hp2 _].
  destruct (external_path r3 (proj1 H3)) as [Hp3 _]. eexists. split; [by apply join_local|].
  pose proof (path_Join_nonempty _ _ Hp2 Hp3) as Hne. split; [|done].
  split; [apply external_of; simpl|simpl].
  - by apply dotted_nonempty.
  - destruct (dotted_cases (path_Join [LocalPath r2; LocalPath r3])) as [->|[-> _]]; [done|].
    by intros [= ?].
  - rewrite dotted_abs, path_Join2, IsAbs_Clean, IsAbs_app by done. apply H2.
Qed.

(** Relative references compose: interpreting [r3] relative to [r2], and the
    result relative to [r1], is interpreting [r3] relative to [r2] relative to
    [r1], for a local or a remote [r1]. *)
Theorem JoinReferences_assoc r1 r2 r3 :
  IsRemote r1 = true \/ LocalPath r1 <> "" -> relative r2 -> relative r3 ->
  path_Join [LocalPath r2; LocalPath r3] <> "." ->
  exists r12 r23 r, JoinReferences r1 r2 = Ok r12 /\ JoinReferences r12 r3 = Ok r /\
    JoinReferences r2 r3 = Ok r23 /\ JoinReferences r1 r23 = Ok r.
Proof.
  intros H1 H2 H3 Hd. destruct (external_path r2 (proj1 H2)) as [Hp2 _].
  destruct (external_path r3 (proj1 H3)) as [Hp3 _].
  destruct (relative_join r2 r3 H2 H3 Hd) as (r23 & E23 & Hr23 & L & K & G & T & I & N).
  pose proof (path_Join_nonempty _ _ Hp2 Hp3) as Hne.
  destruct H1 as [H1|H1].
  - pose proof (remote_url r1 H1) as Hu. pose proof (path_Join_nonempty _ _ Hu Hp2) as Hne12.
    do 3 eexists. split_and!; [by apply join_remote| |exact E23|by apply join_remote].
    rewrite join_remote; [|simpl|done].
    + simpl. rewrite L, join_dotted_r, K, I, N by done. by rewrite path_Join_assoc by (done || apply H2).
    + unfold IsRemote, strne. simpl. by rewrite (proj2 (String.eqb_neq _ _) Hne12).
  - pose proof (path_Join_nonempty _ _ H1 Hp2) as Hne12.
    do 3 eexists. split_and!; [by apply join_local| |exact E23|by apply join_local].
    rewrite join_local; [|simpl; by apply dotted_nonempty|done].
    simpl. rewrite L, join_dotted_r, join_dotted_l, K, G, T, I, N by done.
    by rewrite path_Join_assoc by (done || apply H2).
Qed.

Lemma JoinReferences_assoc_witness :
  let r1 := mkRef KTarget "github.com/foo/bar" "v1" "" "" "a" in
  let r2 := mkRef KTarget "" "" "./sub/dir" "" "b" in
  let r3 := mkRef KCommand "" "" "../other" "" "C" in
  exists r12 r23, JoinReferences r1 r2 = Ok r12 /\ JoinReferences r2 r3 = Ok r23 /\
    JoinReferences r12 r3 = JoinReferences r1 r23.
Proof.
  intros r1 r2 r3. destruct (JoinReferences_assoc r1 r2 r3) as (r12 & r23 & r & E1 & E2 & E3 & E4);
    [by left|by split|by split|by vm_compute|].
  exists r12, r23. split; [exact E1|]. split; [exact E3|]. by rewrite E2, E4.
Defined.
