(* ===== verification/KeyValue.v ===== *)
(** * Key-value arguments

    A translation of [variables/util.go] and [variables/parsenew.go]: the escaped
    [key=value] form, environment lists and [--flag] arguments. *)

From S2P Require Import Prelude GoStrings Token GoText Reference.

Open Scope res_scope.

Definition equals : ascii := "="%char.
Definition hyphen : ascii := "-"%char.

(** ** [util.go] *)

(** The loop of [unescapeKey]. *)
Fixpoint unescape_loop (s : string) (escaped : bool) : string :=
  match s with
  | "" => ""
  | String c s =>
      if escaped then String c (unescape_loop s false)
      else if Ascii.eqb c backslash then unescape_loop s true
      else String c (unescape_loop s false)
  end.

Definition unescapeKey (s : string) : string :=
  if negb (ContainsByte s backslash) then s else unescape_loop s false.

(** The scan for the first unescaped equals sign: what is before and after. *)
Fixpoint scan_equals (s : string) (escaped : bool) : option (string * string) :=
  match s with
  | "" => None
  | String c s' =>
      let next e := (fun ba => (String c (fst ba), snd ba)) <$> scan_equals s' e in
      if escaped then next false
      else if Ascii.eqb c backslash then next true
      else if Ascii.eqb c equals then Some ("", s')
      else next false
  end.

(** The slow path of [ParseKeyValue]. *)
Definition parse_escaped (s : string) : string * string * bool :=
  match scan_equals s false with
  | Some (before, after) => (unescapeKey before, after, true)
  | None => (unescapeKey s, "", false)
  end.

Definition ParseKeyValue (s : string) : string * string * bool :=
  if negb (ContainsByte s backslash) then
    let '(before, after, found) := Cut s equals in
    if (found : bool) then (before, after, true) else (s, "", false)
  else parse_escaped s.

Fixpoint AddEnv (envVars : list string) (key value : string) : list string :=
  match envVars with
  | [] => [key +:+ "=" +:+ value]
  | envVar :: rest =>
      let '(k, _, _) := ParseKeyValue envVar in
      if String.eqb k key then (key +:+ "=" +:+ value) :: rest
      else envVar :: AddEnv rest key value
  end.

(** ** [parsenew.go] *)

(** The number of leading hyphens. *)
Fixpoint leading_hyphens (s : string) : nat :=
  match s with
  | String c s => if Ascii.eqb c hyphen then S (leading_hyphens s) else 0
  | "" => 0
  end.

Definition is_flag_start (c : ascii) : bool := is_lower c || is_upper c || Ascii.eqb c "_"%char.

(** The flag and the suggestion of an [InvalidFlagError]. *)
Definition checkInvalidFlag (arg : string) : option (string * string) :=
  let n := leading_hyphens arg in
  if (0 <? n) && (n <? String.length arg) && negb (n =? 2) then
    match sdrop n arg with
    | String firstChar _ =>
        if is_flag_start firstChar then
          let '(flagPart, _, _) := Cut arg equals in Some (flagPart, "--" +:+ sdrop n arg)
        else None
    | "" => None
    end
  else None.

(** [InvalidFlagError.Error] *)
Definition invalidFlagError `{Unicode} (e : string * string) : string :=
  "Invalid flag " +:+ Quote (fst e) +:+ ". Did you mean " +:+ Quote (snd e) +:+ "?".

Definition flag_entry (k v : string) : string := ReplaceAll k equals "\=" +:+ "=" +:+ v.

(** The loop over the arguments; [keyFromPrev] is the flag that waits for its value. *)
Fixpoint flags_loop `{Unicode} (args : list string) (keyFromPrev : string) (flags nonFlags : list string)
    : res (list string * list string) :=
  match args with
  | [] =>
      if strne keyFromPrev "" then Err ("no value provided for --" +:+ keyFromPrev)
      else Ok (flags, nonFlags)
  | arg :: args =>
      if strne keyFromPrev "" then flags_loop args "" (flags ++ [flag_entry keyFromPrev arg]) nonFlags
      else
        match checkInvalidFlag arg with
        | Some e => Err (invalidFlagError e)
        | None =>
            if negb (HasPrefix arg "--") then flags_loop args "" flags (nonFlags ++ [arg])
            else
              let '(k, v, hasValue) := ParseKeyValue (sdrop 2 arg) in
              if (hasValue : bool) then flags_loop args "" (flags ++ [flag_entry k v]) nonFlags
              else flags_loop args k flags nonFlags
        end
  end.

Definition ParseFlagArgsWithNonFlags `{Unicode} (args : list string) : res (list string * list string) :=
  flags_loop args "" [] [].

Definition ParseFlagArgs `{Unicode} (args : list string) : res (list string) :=
  let* (flags, nonFlags) := ParseFlagArgsWithNonFlags args in
  match nonFlags with
  | [] => Ok flags
  | a :: _ => Err ("invalid argument " +:+ a)
  end.

Example kv_1 : ParseKeyValue "f\=oo=bar\=" = ("f=oo", "bar\=", true). Proof. reflexivity. Qed.
Example kv_2 : ParseKeyValue "foo" = ("foo", "", false). Proof. reflexivity. Qed.
Example kv_3 : let u : Unicode := fun _ => true in
  ParseFlagArgsWithNonFlags ["--flag1=value"; "arg1"; "--flag2"; "v"] =
  Ok (["flag1=value"; "flag2=v"], ["arg1"]). Proof. reflexivity. Qed.
Example kv_4 : let u : Unicode := fun _ => true in
  ParseFlagArgs ["-flag=v"] =
  Err ("Invalid flag " +:+ dquote +:+ "-flag" +:+ dquote +:+ ". Did you mean " +:+ dquote +:+ "--flag=v" +:+ dquote +:+ "?").
Proof. vm_compute. reflexivity. Qed.

(** ** The fast path *)

Lemma ContainsByte_no s c : ContainsByte s c = negb (no_byte c s).
Proof.
  unfold ContainsByte, sexists, no_byte. f_equal. induction s as [|d s IH]; simpl; [done|].
  by rewrite IH, Ascii.eqb_sym.
Qed.

Lemma unescape_plain s : no_byte backslash s = true -> unescape_loop s false = s.
Proof.
  induction s as [|c s IH]; simpl; [done|]. intros [Hc Hs]%andb_true_iff. apply negb_true_iff in Hc.
  unfold no_byte in IH. by rewrite Hc, (IH Hs).
Qed.

(** The fast path of [unescapeKey] changes nothing. *)
Lemma unescapeKey_loop s : unescapeKey s = unescape_loop s false.
Proof.
  unfold unescapeKey. rewrite ContainsByte_no, negb_involutive.
  destruct (no_byte backslash s) eqn:E; [|done]. by rewrite unescape_plain.
Qed.

Lemma scan_plain s :
  no_byte backslash s = true ->
  scan_equals s false = let '(a, b, found) := Cut s equals in if (found : bool) then Some (a, b) else None.
Proof.
  induction s as [|c s IH]; simpl; [done|]. intros [Hc Hs]%andb_true_iff. apply negb_true_iff in Hc.
  unfold no_byte in IH. rewrite Hc, (IH Hs). destruct (Ascii.eqb c equals); [done|].
  by destruct (Cut s equals) as [[a b] []].
Qed.

Lemma parse_fast_slow s : ParseKeyValue s = parse_escaped s.
Proof.
  unfold ParseKeyValue, parse_escaped. rewrite ContainsByte_no, negb_involutive.
  destruct (no_byte backslash s) eqn:E; [|done]. rewrite scan_plain by done.
  destruct (Cut_spec equals s) as [[Hn ->]|(a & b & -> & Ha & ->)]; rewrite unescapeKey_loop, unescape_plain; try done.
  unfold no_byte in *. rewrite sall_app in E. by apply andb_true_iff in E as [? _].
Qed.

(** The fast path of [ParseKeyValue] is an optimisation only: on every text,
    with or without backslashes, the result is that of the byte-by-byte scan. *)
Theorem ParseKeyValue_fast_path s : ParseKeyValue s = parse_escaped s.
Proof. apply parse_fast_slow. Qed.

(** ** Escaping keys *)

(** The documented escaping: a backslash before every equals sign and backslash. *)
Fixpoint escapeKey (k : string) : string :=
  match k with
  | "" => ""
  | String c k =>
      if Ascii.eqb c equals || Ascii.eqb c backslash then String backslash (String c (escapeKey k))
      else String c (escapeKey k)
  end.

Lemma unescape_escape k : unescape_loop (escapeKey k) false = k.
Proof.
  induction k as [|c k IH]; simpl; [done|].
  destruct (Ascii.eqb c equals || Ascii.eqb c backslash) eqn:E; simpl; [by rewrite IH|].
  apply orb_false_iff in E as [_ E]. by rewrite E, IH.
Qed.

Lemma scan_escape k v : scan_equals (escapeKey k +:+ String equals v) false = Some (escapeKey k, v).
Proof.
  induction k as [|c k IH]; [done|]. cbn [escapeKey].
  destruct (Ascii.eqb c equals || Ascii.eqb c backslash) eqn:E; rewrite !sapp_cons; simpl.
  - by rewrite IH.
  - apply orb_false_iff in E as [E1 E2]. by rewrite E1, E2, IH.
Qed.

Lemma parse_pair k v : ParseKeyValue (escapeKey k +:+ "=" +:+ v) = (k, v, true).
Proof.
  rewrite parse_fast_slow. unfold parse_escaped. change ("=" +:+ v) with (String equals v).
  by rewrite scan_escape, unescapeKey_loop, unescape_escape.
Qed.

(** [ParseKeyValue] undoes the documented escaping: any key and value, with
    whatever equals signs and backslashes, are read back from the escaped key, an
    equals sign and the value as it is. *)
Theorem ParseKeyValue_roundtrip k v : ParseKeyValue (escapeKey k +:+ "=" +:+ v) = (k, v, true).
Proof. apply parse_pair. Qed.

(** ** Plain keys *)

(** A key that needs no escaping. *)
Definition plain_key (k : string) : bool := no_byte equals k && no_byte backslash k.

Lemma plain_escape k : plain_key k = true -> escapeKey k = k.
Proof.
  unfold plain_key, no_byte. induction k as [|c k IH]; simpl; [done|].
  intros [[H1 H2]%andb_true_iff [H3 H4]%andb_true_iff]%andb_true_iff.
  apply negb_true_iff in H1, H3. rewrite H1, H3. simpl. rewrite IH; [done|]. by rewrite H2, H4.
Qed.

Lemma parse_plain k v : plain_key k = true -> ParseKeyValue (k +:+ "=" +:+ v) = (k, v, true).
Proof. intros Hk. rewrite <- (plain_escape k Hk) at 1. apply parse_pair. Qed.

(** ** Environment lists as maps *)

(** The value of the first entry with a key. *)
Fixpoint env_get (envVars : list string) (key : string) : option string :=
  match envVars with
  | [] => None
  | e :: rest => let '(k, v, _) := ParseKeyValue e in if String.eqb k key then Some v else env_get rest key
  end.

(** [AddEnv] updates an environment list as a map: the key gets the value,
    whether it was there or not, and every other key keeps its own. *)
Theorem AddEnv_get envVars key value k :
  plain_key key = true ->
  env_get (AddEnv envVars key value) k = if String.eqb k key then Some value else env_get envVars k.
Proof.
  intros Hk. induction envVars as [|e rest IH]; cbn [AddEnv env_get].
  - rewrite parse_plain by done. by rewrite String.eqb_sym.
  - destruct (ParseKeyValue e) as [[k0 v0] b0] eqn:E.
    destruct (String.eqb_spec k0 key) as [->|Hne]; cbn [env_get].
    + rewrite parse_plain by done. rewrite (String.eqb_sym key k). by destruct (String.eqb k key).
    + rewrite E, IH. destruct (String.eqb_spec k0 k) as [->|Hk0]; [|done].
      by rewrite (proj2 (String.eqb_neq _ _) Hne).
Qed.

Lemma AddEnv_get_witness :
  plain_key "A" = true /\ env_get (AddEnv ["PATH=/bin"; "A=1"] "A" "2") "A" = Some "2".
Proof. split; [reflexivity|]. rewrite (AddEnv_get ["PATH=/bin"; "A=1"] "A" "2" "A"); reflexivity. Defined.

(** ** Flags *)

Lemma parse_bare k : plain_key k = true -> ParseKeyValue k = (k, "", false).
Proof.
  intros [H1 H2]%andb_true_iff. unfold ParseKeyValue. rewrite ContainsByte_no, H2. simpl.
  by rewrite Cut_no_byte.
Qed.

Lemma flag_entry_plain k v : plain_key k = true -> flag_entry k v = k +:+ "=" +:+ v.
Proof.
  intros [H _]%andb_true_iff. unfold flag_entry. f_equal. induction k as [|c k IH]; simpl; [done|].
  unfold no_byte in *. simpl in H. apply andb_true_iff in H as [Hc Hk]. apply negb_true_iff in Hc.
  by rewrite Hc, (IH Hk).
Qed.

(** The arguments of a command: a flag with its value in the same word or in the
    next one, or a positional argument. *)
Inductive flagArg : Type :=
  | FEq (k v : string)
  | FSep (k v : string)
  | FPos (s : string).

Definition encode_arg (a : flagArg) : list string :=
  match a with
  | FEq k v => ["--" +:+ k +:+ "=" +:+ v]
  | FSep k v => ["--" +:+ k; v]
  | FPos s => [s]
  end.

Definition flags_of (l : list flagArg) : list string :=
  flat_map (fun a => match a with FEq k v | FSep k v => [k +:+ "=" +:+ v] | FPos _ => [] end) l.

Definition positionals_of (l : list flagArg) : list string :=
  flat_map (fun a => match a with FPos s => [s] | _ => [] end) l.

Definition flag_key (k : string) : bool :=
  plain_key k && match k with "" => false | String c _ => negb (Ascii.eqb c hyphen) end.

Definition arg_ok (a : flagArg) : Prop :=
  match a with
  | FEq k _ | FSep k _ => flag_key k = true
  | FPos s => checkInvalidFlag s = None /\ HasPrefix s "--" = false
  end.

Lemma flag_key_word k t :
  flag_key k = true ->
  checkInvalidFlag ("--" +:+ k +:+ t) = None /\ HasPrefix ("--" +:+ k +:+ t) "--" = true /\ strne k "" = true.
Proof.
  intros [_ Hk]%andb_true_iff. destruct k as [|c k]; [done|]. apply negb_true_iff in Hk.
  split_and!; [|apply HasPrefix_spec; by eexists|done].
  unfold checkInvalidFlag. simpl. by rewrite Hk.
Qed.

Lemma flags_loop_args `{Unicode} l flags nonFlags :
  Forall arg_ok l ->
  flags_loop (flat_map encode_arg l) "" flags nonFlags = Ok (flags ++ flags_of l, nonFlags ++ positionals_of l).
Proof.
  intros Hl. revert flags nonFlags. induction Hl as [|a l Ha Hl IH]; intros flags nonFlags.
  { simpl. by rewrite !app_nil_r. }
  destruct a as [k v|k v|s]; cbn [flat_map encode_arg app flags_loop flags_of positionals_of];
    change (strne "" "") with false; cbv iota; cbn [arg_ok] in Ha.
  - destruct (flag_key_word k ("=" +:+ v) Ha) as (-> & -> & _). pose proof Ha as [Hp _]%andb_true_iff.
    cbn [negb]. change (sdrop 2 ("--" +:+ k +:+ "=" +:+ v)) with (k +:+ "=" +:+ v).
    rewrite parse_plain, IH, flag_entry_plain by done. by rewrite <- app_assoc.
  - destruct (flag_key_word k "" Ha) as (H1 & H2 & H3). rewrite sapp_nil_r in *.
    pose proof Ha as [Hp _]%andb_true_iff. rewrite H1, H2. cbn [negb].
    change (sdrop 2 ("--" +:+ k)) with k. rewrite parse_bare by done. rewrite H3, IH, flag_entry_plain by done.
    by rewrite <- app_assoc.
  - destruct Ha as [-> ->]. cbn [negb]. rewrite IH. by rewrite <- app_assoc.
Qed.

(** Flag arguments are told apart from positional ones: whatever mix of
    [--key=value], [--key value] and positional arguments is passed, in any order,
    the flags come out as [key=value] and the positional arguments unchanged,
    each in order. *)
Theorem ParseFlagArgs_mixed `{Unicode} l :
  Forall arg_ok l ->
  ParseFlagArgsWithNonFlags (flat_map encode_arg l) = Ok (flags_of l, positionals_of l).
Proof. intros Hl. unfold ParseFlagArgsWithNonFlags. by rewrite flags_loop_args. Qed.

Lemma ParseFlagArgs_mixed_witness :
  let u : Unicode := fun _ => true in
  let l := [FEq "a" "1"; FPos "pos"; FSep "b" "--x"] in
  Forall arg_ok l /\ ParseFlagArgsWithNonFlags ["--a=1"; "pos"; "--b"; "--x"] = Ok (["a=1"; "b=--x"], ["pos"]).
Proof.
  intros u l. assert (Forall arg_ok l) as Hl by (repeat constructor).
  split; [exact Hl|]. exact (ParseFlagArgs_mixed l Hl).
Defined.
