(* ===== verification/Scope.v ===== *)
(** * Variable scopes

    A translation of [variables/scope.go].  A Go map is a [gmap]; the order in
    which [range] visits a map is unspecified, so the functions that range over a
    map take the visiting order as an argument ([RangeOrder]), and the theorems
    hold for every order. *)

From stdpp Require Import gmap sorting.
From S2P Require Import Prelude GoStrings.

(** ** Ranging over a map *)

(** The order in which [range] visits the entries of a map. *)
Class RangeOrder : Type := range : gmap string string -> list (string * string).

(** [range] visits every entry once, in some order. *)
Class RangeLaws `{RangeOrder} : Prop := range_permutation m : range m ≡ₚ map_to_list m.

(** ** Scopes *)

Record Scope : Type := mkScope {
  variables : gmap string string;
  activeVariables : gmap string bool
}.

Definition NewScope : Scope := mkScope ∅ ∅.

Record scopeOpts : Type := mkOpts {
  active : bool;
  noOverride : bool
}.

Definition ScopeOpt : Type := scopeOpts -> scopeOpts.

Definition WithActive : ScopeOpt := fun o => mkOpts true (noOverride o).
Definition NoOverride : ScopeOpt := fun o => mkOpts (active o) true.

Definition applyOpts (opts : list ScopeOpt) : scopeOpts :=
  fold_left (fun opt o => o opt) opts (mkOpts false false).

(** [s.activeVariables[name]], false when absent. *)
Definition is_active (s : Scope) (name : string) : bool := default false (activeVariables s !! name).

Definition Get (s : Scope) (name : string) (opts : list ScopeOpt) : option string :=
  let opt := applyOpts opts in
  match variables s !! name with
  | None => None
  | Some v => if active opt && negb (is_active s name) then None else Some v
  end.

(** The scope after [Add], and whether the value was set. *)
Definition Add (name value : string) (opts : list ScopeOpt) (s : Scope) : bool * Scope :=
  let opt := applyOpts opts in
  if noOverride opt && bool_decide (is_Some (variables s !! name)) then (false, s)
  else
    (true, mkScope (<[name := value]> (variables s))
             (if active opt then <[name := true]> (activeVariables s) else activeVariables s)).

Definition Remove (name : string) (s : Scope) : Scope :=
  mkScope (delete name (variables s)) (delete name (activeVariables s)).

(** [ret.activeVariables[k] = true] for every key [k]. *)
Definition Clone (s : Scope) : Scope :=
  mkScope (variables s) ((fun _ => true) <$> activeVariables s).

Definition Map (s : Scope) (opts : list ScopeOpt) : gmap string string :=
  let opt := applyOpts opts in
  filter (fun kv => negb (active opt && negb (is_active s (fst kv))) = true) (variables s).

(** Go's order on strings, byte by byte. *)
Definition str_le (a b : string) : Prop := String.leb a b = true.

#[global] Instance str_le_dec a b : Decision (str_le a b) := bool_eq_dec _ _.

Lemma leb_cons c d s t :
  String.leb (String c s) (String d t) = true <->
  (N_of_ascii c < N_of_ascii d)%N \/ (c = d /\ String.leb s t = true).
Proof.
  unfold String.leb. cbn [String.compare]. unfold Ascii.compare. destruct (N.compare_spec (N_of_ascii c) (N_of_ascii d)) as [E|E|E].
  - assert (c = d) as -> by (rewrite <- (ascii_N_embedding c), <- (ascii_N_embedding d); by rewrite E).
    split; [by right|]. intros [?|[_ ?]]; [lia|done].
  - split; [by left|done].
  - split; [done|]. intros [?|[-> _]]; lia.
Qed.

#[global] Instance str_le_trans : Transitive str_le.
Proof.
  unfold str_le. intros a. induction a as [|c a IH]; intros b e Hab Hbe; [by destruct e|].
  destruct b as [|d b]; [done|]. destruct e as [|x e]; [done|].
  apply leb_cons in Hab, Hbe. apply leb_cons. destruct Hab as [?|[-> Hab]], Hbe as [?|[-> Hbe]]; [left; lia|by left|by left|].
  right. split; [done|]. by eapply IH.
Qed.
#[global] Instance str_le_total : Total str_le.
Proof. intros a b. apply String.leb_total. Qed.
#[global] Instance str_le_anti : AntiSymm eq str_le.
Proof. intros a b. apply String.leb_antisym. Qed.

Definition Sorted (s : Scope) (opts : list ScopeOpt) : list string :=
  merge_sort str_le (map_to_list (Map s opts)).*1.

Definition BuildArgs (s : Scope) (opts : list ScopeOpt) : list string :=
  List.map (fun v => v +:+ "=" +:+ default "" (Get s v [])) (Sorted s opts).

Section Range.
Context `{RangeOrder}.

(** [for k, v := range m { s.Add(k, v, opts...) }] *)
Definition add_all (opts : list ScopeOpt) (m : gmap string string) (s : Scope) : Scope :=
  fold_left (fun s kv => snd (Add (fst kv) (snd kv) opts s)) (range m) s.

Definition precedence : list (list ScopeOpt) := [[WithActive; NoOverride]; [NoOverride]].

Definition CombineScopes (scopes : list Scope) : Scope :=
  fold_left (fun s opts => fold_left (fun s scope => add_all opts (Map scope opts) s) scopes s)
    precedence NewScope.

Definition CombineScopesInactive (scopes : list Scope) : Scope :=
  fold_left (fun s scope => add_all [NoOverride] (Map scope []) s) scopes NewScope.

(** [reserved.IsBuiltIn] is an argument. *)
Definition RemoveReservedArgsFromScope (IsBuiltIn : string -> bool) (scope : Scope) : Scope :=
  fold_left (fun s kv =>
    let '(k, v) := kv in
    if IsBuiltIn k then s
    else mkScope (<[k := v]> (variables s))
           (if is_active scope k then <[k := true]> (activeVariables s) else activeVariables s))
    (range (variables scope)) NewScope.
End Range.

(** ** The invariant *)

(** Only variables are active, and the map of active variables holds only true. *)
Record scope_wf (s : Scope) : Prop := mkScopeWf {
  sw_true : map_Forall (fun _ b => b = true) (activeVariables s);
  sw_sub : dom (activeVariables s) ⊆ dom (variables s)
}.

Lemma scope_wf_new : scope_wf NewScope.
Proof. split; [apply map_Forall_empty|set_solver]. Qed.

Lemma scope_wf_Add name value opts s : scope_wf s -> scope_wf (snd (Add name value opts s)).
Proof.
  intros [Ht Hs]. unfold Add. case_test; [done|]. split; simpl; case_test.
  - by apply map_Forall_insert_2.
  - done.
  - rewrite !dom_insert. set_solver.
  - rewrite dom_insert. set_solver.
Qed.

Lemma scope_wf_Remove name s : scope_wf s -> scope_wf (Remove name s).
Proof.
  intros [Ht Hs]. split; simpl; [by apply map_Forall_delete|]. rewrite !dom_delete. set_solver.
Qed.

Lemma Clone_id s : scope_wf s -> Clone s = s.
Proof.
  intros [Ht _]. unfold Clone. destruct s as [v a]. simpl in *. f_equal.
  rewrite <- (map_fmap_id a) at 2. apply map_fmap_ext. intros k b Hk. by rewrite (Ht k b Hk).
Qed.

(** ** What a scope holds *)

(** The value and the activity of a variable: what the rest of the program can
    observe of a well-formed scope. *)
Definition entry (s : Scope) (k : string) : option (string * bool) :=
  (fun v => (v, is_active s k)) <$> variables s !! k.

Lemma scope_ext s t : scope_wf s -> scope_wf t -> (forall k, entry s k = entry t k) -> s = t.
Proof.
  intros [Ht1 Hs1] [Ht2 Hs2] He. destruct s as [v1 a1], t as [v2 a2]. simpl in *.
  assert (v1 = v2) as ->.
  { apply map_eq. intros k. specialize (He k). unfold entry in He. simpl in He.
    destruct (v1 !! k), (v2 !! k); naive_solver. }
  f_equal. apply map_eq. intros k. specialize (He k). unfold entry, is_active in He. simpl in He.
  destruct (v2 !! k) eqn:Ev.
  - destruct (a1 !! k) eqn:E1, (a2 !! k) eqn:E2;
      try (pose proof (Ht1 k _ E1)); try (pose proof (Ht2 k _ E2)); by simplify_eq/=.
  - apply not_elem_of_dom in Ev. rewrite !(proj1 (not_elem_of_dom _ _)); set_solver.
Qed.

Section RangeFacts.
Context `{RangeLaws}.

(** The entry [Add] leaves under a name. *)
Lemma entry_Add name value opts s k :
  scope_wf s ->
  entry (snd (Add name value opts s)) k =
  if decide (k = name) then
    match entry s name with
    | Some e => if noOverride (applyOpts opts) then Some e
                else Some (value, active (applyOpts opts) || snd e)
    | None => Some (value, active (applyOpts opts))
    end
  else entry s k.
Proof.
  intros Hw. unfold Add, entry, is_active. destruct (variables s !! name) as [v|] eqn:Ev.
  - rewrite bool_decide_true by eauto. destruct (noOverride _) eqn:En; simpl.
    + case_decide; subst; [by rewrite Ev|done].
    + destruct (active _) eqn:Ea; simpl; case_decide; subst; simplify_map_eq; done.
  - rewrite bool_decide_false by (intros [? ?]; congruence). rewrite andb_false_r. simpl.
    assert (activeVariables s !! name = None) as Ha.
    { apply not_elem_of_dom. apply not_elem_of_dom in Ev. pose proof (sw_sub _ Hw). set_solver. }
    destruct (active _) eqn:Ea; simpl; case_decide; subst; simplify_map_eq; try done.
Qed.

Lemma Map_Get s opts k : Map s opts !! k = Get s k opts.
Proof.
  unfold Map, Get. rewrite map_lookup_filter. destruct (variables s !! k) as [v|]; [simpl|done].
  by destruct (active _ && _).
Qed.

(** Adding a list of entries without overriding: what was there stays. *)
Lemma entry_add_list opts l s k :
  noOverride (applyOpts opts) = true -> NoDup l.*1 -> scope_wf s ->
  let s' := fold_left (fun s kv => snd (Add (fst kv) (snd kv) opts s)) l s in
  scope_wf s' /\
  entry s' k = match entry s k with
    | Some e => Some e
    | None => (fun v => (v, active (applyOpts opts))) <$> (list_to_map l : gmap string string) !! k
    end.
Proof.
  intros Hn. revert s. induction l as [|[n v] l IH]; intros s Hd Hw; simpl.
  - split; [done|]. by destruct (entry s k).
  - simpl in Hd. apply list.NoDup_cons in Hd as [Hni Hd].
    destruct (IH _ Hd (scope_wf_Add n v opts s Hw)) as [Hw' ->]. split; [done|].
    rewrite entry_Add, Hn by done. case_decide; subst; simplify_map_eq.
    + by destruct (entry s n).
    + done.
Qed.

Lemma range_NoDup m : NoDup (range m).*1.
Proof. rewrite range_permutation. apply NoDup_fst_map_to_list. Qed.

Lemma range_list_to_map m : list_to_map (range m) = m.
Proof.
  rewrite <- (list_to_map_to_list m) at 2. apply list_to_map_proper; [apply range_NoDup|].
  apply range_permutation.
Qed.

(** The same with [range]: the order of the map does not matter. *)
Lemma entry_add_all opts m s k :
  noOverride (applyOpts opts) = true -> scope_wf s ->
  scope_wf (add_all opts m s) /\
  entry (add_all opts m s) k =
    match entry s k with Some e => Some e | None => (fun v => (v, active (applyOpts opts))) <$> m !! k end.
Proof.
  intros Hn Hw. destruct (entry_add_list opts (range m) s k Hn (range_NoDup m) Hw) as [H1 H2].
  rewrite range_list_to_map in H2. done.
Qed.

(** The value of the first scope that has one. *)
Fixpoint first_value (opts : list ScopeOpt) (k : string) (scopes : list Scope) : option string :=
  match scopes with
  | [] => None
  | s :: scopes => match Get s k opts with Some v => Some v | None => first_value opts k scopes end
  end.

Lemma entry_add_scopes opts scopes s k :
  noOverride (applyOpts opts) = true -> scope_wf s ->
  let s' := fold_left (fun s scope => add_all opts (Map scope opts) s) scopes s in
  scope_wf s' /\
  entry s' k = match entry s k with
    | Some e => Some e
    | None => (fun v => (v, active (applyOpts opts))) <$> first_value opts k scopes
    end.
Proof.
  intros Hn. revert s. induction scopes as [|sc scopes IH]; intros s Hw; simpl.
  - split; [done|]. by destruct (entry s k).
  - destruct (entry_add_all opts (Map sc opts) s k Hn Hw) as [Hw1 He].
    destruct (IH _ Hw1) as [Hw2 ->]. split; [done|]. rewrite He, Map_Get.
    destruct (entry s k); [done|]. by destruct (Get sc k opts).
Qed.

(** The specification of [CombineScopes]. *)
Definition combined (scopes : list Scope) (k : string) : option (string * bool) :=
  match first_value [WithActive] k scopes with
  | Some v => Some (v, true)
  | None => (fun v => (v, false)) <$> first_value [] k scopes
  end.

(** The option NoOverride does not change what is read. *)
Lemma first_value_NoOverride a k scopes :
  first_value (a ++ [NoOverride]) k scopes = first_value a k scopes.
Proof.
  induction scopes as [|s scopes IH]; simpl; [done|]. rewrite IH. unfold Get, applyOpts.
  by rewrite fold_left_app.
Qed.

Lemma CombineScopes_entry scopes k :
  scope_wf (CombineScopes scopes) /\ entry (CombineScopes scopes) k = combined scopes k.
Proof.
  unfold CombineScopes, combined. cbn [fold_left precedence].
  destruct (entry_add_scopes [WithActive; NoOverride] scopes NewScope k eq_refl scope_wf_new) as [Hw1 H1].
  destruct (entry_add_scopes [NoOverride] scopes _ k eq_refl Hw1) as [Hw2 H2].
  split; [exact Hw2|]. rewrite H2, H1.
  rewrite (first_value_NoOverride [WithActive]), (first_value_NoOverride []). simpl.
  by destruct (first_value [WithActive] k scopes).
Qed.

Lemma Get_entry s k opts :
  Get s k opts = match entry s k with
    | Some (v, a) => if active (applyOpts opts) && negb a then None else Some v
    | None => None
    end.
Proof. unfold Get, entry. by destruct (variables s !! k). Qed.

Lemma combined_Get scs k :
  Get (CombineScopes scs) k [WithActive] = first_value [WithActive] k scs /\
  Get (CombineScopes scs) k [] = match first_value [WithActive] k scs with
    | Some v => Some v | None => first_value [] k scs end.
Proof.
  destruct (CombineScopes_entry scs k) as [_ He]. rewrite !Get_entry, He. unfold combined.
  destruct (first_value [WithActive] k scs); [done|]. by destruct (first_value [] k scs).
Qed.

End RangeFacts.

(** [CombineScopes] implements its documented precedence, whatever order Go
    visits the maps in: a variable active in some scope has the value of the
    left-most scope where it is active, and is active; one that is only inactive
    has the value of the left-most scope that declares it, and is inactive;
    nothing else is declared. *)
Theorem CombineScopes_precedence `{RangeLaws} scopes k :
  let s := CombineScopes scopes in
  Get s k [WithActive] = first_value [WithActive] k scopes /\
  Get s k [] = match first_value [WithActive] k scopes with
               | Some v => Some v | None => first_value [] k scopes end.
Proof.
  apply combined_Get.
Qed.

Lemma CombineScopes_precedence_witness :
  let o : RangeOrder := map_to_list in
  let a := mkScope {["x" := "1"]} ∅ in
  let b := mkScope {["x" := "2"]} {["x" := true]} in
  Get (CombineScopes [a; b]) "x" [] = Some "2".
Proof.
  intros o a b. assert (@RangeLaws o) as L by (intros m; reflexivity).
  rewrite (proj2 (CombineScopes_precedence (H0 := L) [a; b] "x")). reflexivity.
Defined.

(** Two visiting orders give the same scope. *)
Lemma CombineScopes_order (o1 o2 : RangeOrder) (L1 : @RangeLaws o1) (L2 : @RangeLaws o2) scopes :
  @CombineScopes o1 scopes = @CombineScopes o2 scopes.
Proof.
  apply scope_ext; [apply (@CombineScopes_entry o1 L1 scopes EmptyString)..| |].
  - apply (@CombineScopes_entry o2 L2 scopes EmptyString).
  - intros k. by rewrite (proj2 (@CombineScopes_entry o1 L1 scopes k)), (proj2 (@CombineScopes_entry o2 L2 scopes k)).
Qed.
