(* ===== verification/Collection.v ===== *)
(** * The variables of a target

    A translation of [variables/collection.go] and [variables/parse.go].  A
    collection owns its scopes (callers hand over clones), so the pointers of the
    Go structure are values here; the memo [effectiveCache] is part of the state.
    Methods that fail after a change return the changed collection with the
    error; indexing an empty stack, a Go panic, is [Err].  A callback that
    computes a non-constant value is a function from the name and the expression
    to a value or an error. *)

From stdpp Require Import gmap.
From S2P Require Import Prelude GoStrings Token GoText Reference Imports KeyValue Scope.

Open Scope res_scope.

Definition ErrRedeclared : string := "this variable was declared twice in the same target".
Definition ErrVarNotFound : string := "no matching variable found in this scope".
Definition ErrSetArg : string := "ARG values cannot be reassigned".

(** [hint.Wrapf]: the error's text with its hint. *)
Definition hint_wrap (err hint : string) : string :=
  err +:+ ":Hint: " +:+ hint +:+ (if HasSuffix hint NLs then "" else NLs).

Definition pncv : Type := option (string -> string -> res string).

(** ** [parse.go]: values *)

Definition parseArgValue (name value : string) (pncvf : pncv) : res string :=
  match pncvf with
  | None => Ok value
  | Some f => if HasPrefix value "$(" then f name value else Ok value
  end.

(** ** The collection *)

Record stackFrame : Type := mkFrame {
  absRef : Reference;
  imports : ImportTracker;
  overriding : Scope;
  args : Scope;
  globals : Scope;
  vars : Scope;
  frameName : string
}.

Record Collection : Type := mkColl {
  builtin : Scope;
  envs : Scope;
  effectiveCache : option Scope;
  project : string;
  org : string;
  stack : list stackFrame;
  errorOnRedeclare : bool;
  shelloutAnywhere : bool
}.

(** The frame at the top of the stack, the last of the slice. *)
Definition frame (c : Collection) : option stackFrame := List.last (List.map Some (stack c)) None.

Definition set_cache (e : option Scope) (c : Collection) : Collection :=
  mkColl (builtin c) (envs c) e (project c) (org c) (stack c) (errorOnRedeclare c) (shelloutAnywhere c).

Definition set_stack (s : list stackFrame) (c : Collection) : Collection :=
  mkColl (builtin c) (envs c) (effectiveCache c) (project c) (org c) s (errorOnRedeclare c) (shelloutAnywhere c).

Definition set_builtin (b : Scope) (c : Collection) : Collection :=
  mkColl b (envs c) (effectiveCache c) (project c) (org c) (stack c) (errorOnRedeclare c) (shelloutAnywhere c).

Definition set_envs (e : Scope) (c : Collection) : Collection :=
  mkColl (builtin c) e (effectiveCache c) (project c) (org c) (stack c) (errorOnRedeclare c) (shelloutAnywhere c).

(** Replace the frame at the top of the stack. *)
Definition set_frame (f : stackFrame) (c : Collection) : Collection :=
  set_stack (removelast (stack c) ++ [f]) c.

Definition set_args (s : Scope) (f : stackFrame) : stackFrame :=
  mkFrame (absRef f) (imports f) (overriding f) s (globals f) (vars f) (frameName f).
Definition set_globals (s : Scope) (f : stackFrame) : stackFrame :=
  mkFrame (absRef f) (imports f) (overriding f) (args f) s (vars f) (frameName f).
Definition set_vars (s : Scope) (f : stackFrame) : stackFrame :=
  mkFrame (absRef f) (imports f) (overriding f) (args f) (globals f) s (frameName f).
Definition set_overriding (s : Scope) (f : stackFrame) : stackFrame :=
  mkFrame (absRef f) (imports f) s (args f) (globals f) (vars f) (frameName f).

Definition empty_stack : string := "panic: index out of range [-1]".

Definition reset (c : Collection) : Collection := set_cache None c.

(** [NewCollection], given the scope of builtin arguments. *)
Definition NewCollection (builtinArgs : Scope) (overridingVars : option Scope) (target : Reference)
    (globalImports : gmap string ImportTrackerVal) (argScopeSet shellOutAnywhere : bool) : Collection :=
  mkColl builtinArgs NewScope None "" ""
    [mkFrame target (NewImportTracker globalImports) (default NewScope overridingVars)
       NewScope NewScope NewScope (referenceStringCanonical target)]
    argScopeSet shellOutAnywhere.

Definition ResetEnvVars (e : option Scope) (c : Collection) : Collection :=
  reset (set_envs (default NewScope e) c).

Definition SetOrg (o : string) (c : Collection) : Collection :=
  mkColl (builtin c) (envs c) (effectiveCache c) (project c) o (stack c) (errorOnRedeclare c) (shelloutAnywhere c).

Definition SetProject (p : string) (c : Collection) : Collection :=
  mkColl (builtin c) (envs c) (effectiveCache c) p (org c) (stack c) (errorOnRedeclare c) (shelloutAnywhere c).

(** An update of the top frame; the panic of an empty stack leaves all as it is. *)
Definition on_frame (f : stackFrame -> stackFrame) (c : Collection) : Collection * res unit :=
  match frame c with
  | None => (c, Err empty_stack)
  | Some fr => (reset (set_frame (f fr) c), Ok tt)
  end.

Definition SetGlobals (g : Scope) : Collection -> Collection * res unit := on_frame (set_globals g).

Definition SetOverriding (o : Scope) : Collection -> Collection * res unit := on_frame (set_overriding o).

Definition TopOverriding (c : Collection) : Scope :=
  match stack c with
  | [] => NewScope
  | f :: _ => Clone (overriding f)
  end.

(** [SetPlatformArgs] with the texts of the platform. *)
Definition SetPlatform (platform os arch variant : string) (c : Collection) : Collection :=
  let s := snd (Add "TARGETPLATFORM" platform [] (builtin c)) in
  let s := snd (Add "TARGETOS" os [] s) in
  let s := snd (Add "TARGETARCH" arch [] s) in
  let s := snd (Add "TARGETVARIANT" variant [] s) in
  reset (set_builtin s c).

Definition FormatBool (b : bool) : string := if b then "true" else "false".

Definition SetLocally (locally : bool) (c : Collection) : Collection :=
  let s := snd (Add "EARTHLY_LOCALLY" (FormatBool locally) [] (builtin c)) in
  let s := snd (Add "EARTH_LOCALLY" (FormatBool locally) [] s) in
  reset (set_builtin s c).

Definition SetArg (name value : string) : Collection -> Collection * res unit :=
  on_frame (fun f => set_args (snd (Add name value [WithActive] (args f))) f).

Definition UnsetArg (name : string) : Collection -> Collection * res unit :=
  on_frame (fun f => set_args (Remove name (args f)) f).

Definition DeclareEnv (name value : string) (c : Collection) : Collection :=
  reset (set_envs (snd (Add name value [WithActive] (envs c))) c).

Definition EnterFrame (name : string) (ref : Reference) (over globs : Scope)
    (globalImports : gmap string ImportTrackerVal) (c : Collection) : Collection :=
  reset (set_stack (stack c ++ [mkFrame ref (NewImportTracker globalImports) over NewScope globs NewScope name]) c).

Definition ExitFrame (c : Collection) : Collection * res unit :=
  match stack c with
  | [] => (c, Err "panic: trying to pop an empty argsStack")
  | _ => (reset (set_stack (removelast (stack c)) c), Ok tt)
  end.

Definition IsStackAtBase (c : Collection) : bool := length (stack c) =? 1.

Record declarePrefs : Type := mkPrefs {
  pf_pncvf : pncv;
  pf_val : string;
  pf_global : bool;
  pf_arg : bool
}.

Section Reading.
Context `{RangeOrder} `{Unicode}.

(** The scopes a variable is looked up in, by precedence. *)
Definition scopes (f : stackFrame) (c : Collection) : list Scope :=
  [vars f; overriding f; builtin c; args f; envs c; globals f].

(** [effective]: the memo, computed when it is not there. *)
Definition effective (c : Collection) : Collection * res Scope :=
  match effectiveCache c with
  | Some s => (c, Ok s)
  | None =>
      match frame c with
      | None => (c, Err empty_stack)
      | Some f => let s := CombineScopes (scopes f c) in (set_cache (Some s) c, Ok s)
      end
  end.

Definition Collection_Get (name : string) (opts : list ScopeOpt) (c : Collection) : Collection * res (option string) :=
  let '(c, s) := effective c in (c, let* s := s in Ok (Get s name opts)).

Definition SortedVariables (opts : list ScopeOpt) (c : Collection) : Collection * res (list string) :=
  let '(c, s) := effective c in (c, let* s := s in Ok (Sorted s opts)).

(** ** Declarations *)

Definition overridingOrDefault (name defaultValue : string) (pncvf : pncv) (f : stackFrame) (c : Collection)
    : res string :=
  match Get (overriding f) name [] with
  | Some v => Ok v
  | None =>
      match Get (builtin c) name [] with
      | Some v => Ok v
      | None => parseArgValue name defaultValue pncvf
      end
  end.

Definition declareOldArg (name defaultValue : string) (isGlobal : bool) (pncvf : pncv) (c : Collection)
    : Collection * res (string * string) :=
  let '(c, ef) := effective c in
  match ef, frame c with
  | Ok ef, Some f =>
      match (match Get ef name [] with
             | Some existing => Ok (existing, defaultValue)
             | None => let* v := parseArgValue name defaultValue pncvf in Ok (v, v)
             end) with
      | Ok (finalValue, finalDefaultValue) =>
          let f := set_args (snd (Add name finalValue [WithActive] (args f))) f in
          let f := if isGlobal then set_globals (snd (Add name finalValue [WithActive] (globals f))) f else f in
          (reset (set_frame f c), Ok (finalValue, finalDefaultValue))
      | Err e => (c, Err e)
      | NoFuel => (c, NoFuel)
      end
  | Err e, _ => (c, Err e)
  | _, _ => (c, Err empty_stack)
  end.

(** The errors of a redeclaration. *)
Definition redeclared_let (name val : string) : string :=
  hint_wrap ErrRedeclared ("if you want to change the value of '" +:+ name +:+ "', use 'SET " +:+ name +:+ " = " +:+ Quote val +:+ "'").
Definition redeclared_arg_as_let (name : string) : string :=
  hint_wrap ErrRedeclared ("'" +:+ name +:+ "' was already declared with LET and cannot be redeclared as an ARG").
Definition redeclared_arg (name val : string) : string :=
  hint_wrap ErrRedeclared ("if you want to change the value of '" +:+ name +:+
    "', redeclare it as a non-argument variable with 'LET " +:+ name +:+ " = " +:+ Quote val +:+ "'").
Definition redeclared_global (name : string) : string :=
  hint_wrap ("could not override non-global ARG with global ARG: " +:+ ErrRedeclared)
    ("'" +:+ name +:+ "' was already declared as a non-global ARG in this scope - did you mean to add '--global' to the original declaration?").

(** The part of [DeclareVar] for LET and ARG under --arg-scope-and-set, on the top frame. *)
Definition declare_new (name : string) (prefs : declarePrefs) (f : stackFrame) (c : Collection)
    : Collection * res (string * string) :=
  if negb (pf_arg prefs) then
    let '(ok, s) := Add name (pf_val prefs) [WithActive; NoOverride] (vars f) in
    if (ok : bool) then (set_frame (set_vars s f) c, Ok (pf_val prefs, pf_val prefs))
    else (c, Err (redeclared_let name (pf_val prefs)))
  else
    match Get (vars f) name [WithActive] with
    | Some _ => (c, Err (redeclared_arg_as_let name))
    | None =>
        match overridingOrDefault name (pf_val prefs) (pf_pncvf prefs) f c with
        | Err e => (c, Err e)
        | NoFuel => (c, NoFuel)
        | Ok v =>
            if pf_global prefs then
              match Get (args f) name [] with
              | Some _ => (c, Err (redeclared_global name))
              | None =>
                  let '(ok, s) := Add name v [WithActive; NoOverride] (globals f) in
                  if (ok : bool) then (set_frame (set_globals s f) c, Ok (v, v))
                  else (c, Err (redeclared_arg name (pf_val prefs)))
              end
            else
              let '(ok, s) := Add name v [WithActive; NoOverride] (args f) in
              if (ok : bool) then (set_frame (set_args s f) c, Ok (v, pf_val prefs))
              else (c, Err (redeclared_arg name (pf_val prefs)))
        end
    end.

Definition DeclareVar (name : string) (prefs : declarePrefs) (c : Collection) : Collection * res (string * string) :=
  if negb (errorOnRedeclare c) then
    if negb (pf_arg prefs) then (c, Err "LET requires the --arg-scope-and-set feature")
    else declareOldArg name (pf_val prefs) (pf_global prefs) (pf_pncvf prefs) c
  else if negb (shelloutAnywhere c) then
    (c, Err "the --arg-scope-and-set feature flag requires --shell-out-anywhere")
  else
    let c := reset c in
    match frame c with
    | None => (c, Err empty_stack)
    | Some f => declare_new name prefs f c
    end.

Definition UpdateVar (name value : string) (pncvf : pncv) (c : Collection) : Collection * res unit :=
  let '(c, ef) := effective c in
  match ef, frame c with
  | Ok ef, Some f =>
      match Get ef name [WithActive] with
      | None => (c, Err (hint_wrap ErrVarNotFound
          ("'" +:+ name +:+ "' needs to be declared with 'LET " +:+ name +:+ " = someValue' before it can be used with SET")))
      | Some _ =>
          match Get (vars f) name [WithActive] with
          | None => (c, Err (hint_wrap ErrSetArg
              ("'" +:+ name +:+ "' is an ARG and cannot be used with SET - try declaring 'LET " +:+ name +:+ " = $" +:+ name +:+ "' first")))
          | Some _ =>
              match parseArgValue name value pncvf with
              | Err e => (c, Err ("failed to parse SET value: " +:+ e))
              | NoFuel => (c, NoFuel)
              | Ok v => (reset (set_frame (set_vars (snd (Add name v [WithActive] (vars f))) f) c), Ok tt)
              end
          end
      end
  | Err e, _ => (c, Err e)
  | _, _ => (c, Err empty_stack)
  end.

(** The rows of [StackString], innermost frame first. *)
Definition StackString (c : Collection) : string :=
  Join (List.map (fun f => Join (frameName f :: List.map (fun k =>
      "--" +:+ k +:+ "=" +:+ default "" (Get (overriding f) k [])) (Sorted (args f) [WithActive])) " ")
    (rev (stack c))) (NLs +:+ "called from" +:+ byte_string rTAB).

End Reading.

(** * The variables of a target: facts

    The memo of the combined scopes is coherent after any sequence of operations,
    so every read obeys the documented precedence; declarations, SET and stack
    frames behave as the language promises. *)

Open Scope res_scope.

(** ** Frames *)

Lemma frame_snoc c s f : stack c = s ++ [f] -> frame c = Some f.
Proof. intros E. unfold frame. rewrite E, map_app. simpl. apply last_last. Qed.

Lemma frame_set_frame f f' c : frame c = Some f -> frame (set_frame f' c) = Some f'.
Proof. intros _. by eapply frame_snoc. Qed.

Lemma stack_set_frame f f' c s : stack c = s ++ [f] -> stack (set_frame f' c) = s ++ [f'].
Proof. intros E. unfold set_frame. simpl. by rewrite E, removelast_last. Qed.

(** ** Operations *)

Inductive op : Type :=
  | OResetEnvVars (e : option Scope) | OSetOrg (o : string) | OSetProject (p : string)
  | OSetGlobals (g : Scope) | OSetOverriding (o : Scope)
  | OSetPlatform (p os arch v : string) | OSetLocally (b : bool)
  | OGet (name : string) (opts : list ScopeOpt) | OSortedVariables (opts : list ScopeOpt)
  | ODeclareVar (name : string) (prefs : declarePrefs) | OUpdateVar (name value : string) (f : pncv)
  | OSetArg (name value : string) | OUnsetArg (name : string) | ODeclareEnv (name value : string)
  | OEnterFrame (name : string) (ref : Reference) (over globs : Scope) (gi : gmap string ImportTrackerVal)
  | OExitFrame.

Section Facts.
Context `{RangeLaws} `{Unicode}.

(** The collection after an operation, whatever the operation returns. *)
Definition run (o : op) (c : Collection) : Collection :=
  match o with
  | OResetEnvVars e => ResetEnvVars e c
  | OSetOrg o => SetOrg o c
  | OSetProject p => SetProject p c
  | OSetGlobals g => fst (SetGlobals g c)
  | OSetOverriding o => fst (SetOverriding o c)
  | OSetPlatform p os arch v => SetPlatform p os arch v c
  | OSetLocally b => SetLocally b c
  | OGet name opts => fst (Collection_Get name opts c)
  | OSortedVariables opts => fst (SortedVariables opts c)
  | ODeclareVar name prefs => fst (DeclareVar name prefs c)
  | OUpdateVar name value f => fst (UpdateVar name value f c)
  | OSetArg name value => fst (SetArg name value c)
  | OUnsetArg name => fst (UnsetArg name c)
  | ODeclareEnv name value => DeclareEnv name value c
  | OEnterFrame name ref over globs gi => EnterFrame name ref over globs gi c
  | OExitFrame => fst (ExitFrame c)
  end.

Definition run_all (os : list op) (c : Collection) : Collection := fold_left (fun c o => run o c) os c.

(** The memo is what would be computed now. *)
Definition coherent (c : Collection) : Prop :=
  forall s, effectiveCache c = Some s ->
  exists f, frame c = Some f /\ s = CombineScopes (scopes f c).

Lemma coherent_reset c : effectiveCache c = None -> coherent c.
Proof. intros E s Hs. congruence. Qed.

Lemma effective_spec c f :
  coherent c -> frame c = Some f ->
  exists c', effective c = (c', Ok (CombineScopes (scopes f c))) /\ coherent c' /\
    stack c' = stack c /\ envs c' = envs c /\ builtin c' = builtin c /\
    errorOnRedeclare c' = errorOnRedeclare c /\ shelloutAnywhere c' = shelloutAnywhere c.
Proof.
  intros Hc Hf. unfold effective. destruct (effectiveCache c) as [s|] eqn:E.
  - destruct (Hc s E) as (f' & Hf' & ->). simplify_eq. by exists c.
  - rewrite Hf. eexists. split; [done|]. split; [|done]. intros s [= <-]. by exists f.
Qed.

Lemma effective_coherent c : coherent c -> coherent (fst (effective c)).
Proof.
  intros Hc. destruct (frame c) as [f|] eqn:Hf.
  - destruct (effective_spec c f Hc Hf) as (c' & -> & Hc' & _). done.
  - unfold effective. destruct (effectiveCache c) eqn:E; [done|]. by rewrite Hf.
Qed.

Lemma on_frame_coherent g c : coherent c -> coherent (fst (on_frame g c)).
Proof. intros Hc. unfold on_frame. destruct (frame c); [by apply coherent_reset|done]. Qed.

Lemma declareOldArg_coherent name d g pncvf c :
  coherent c -> coherent (fst (declareOldArg name d g pncvf c)).
Proof.
  intros Hc. apply effective_coherent in Hc. unfold declareOldArg.
  destruct (effective c) as [c' ef]. simpl in Hc.
  destruct ef as [ef|e|]; [|done|by destruct (frame c')].
  destruct (frame c') as [f|]; [|done].
  destruct (match Get ef name [] with Some _ => _ | None => _ end) as [[v w]|e|]; [by apply coherent_reset|done|done].
Qed.

(** A step that leaves the memo empty, or changes nothing. *)
Lemma declare_new_cache name prefs f c :
  effectiveCache (fst (declare_new name prefs f c)) = effectiveCache c.
Proof. unfold declare_new. repeat case_goal; done. Qed.

Lemma UpdateVar_coherent name value pncvf c : coherent c -> coherent (fst (UpdateVar name value pncvf c)).
Proof.
  intros Hc. apply effective_coherent in Hc. unfold UpdateVar.
  destruct (effective c) as [c' ef]. simpl in Hc.
  destruct ef as [ef|e|]; [|done|by destruct (frame c')].
  destruct (frame c') as [f|]; [|done]. destruct (Get ef name _); [|done].
  destruct (Get (vars f) name _); [|done]. destruct (parseArgValue _ _ _); [by apply coherent_reset|done|done].
Qed.

Lemma run_coherent o c : coherent c -> coherent (run o c).
Proof.
  intros Hc. destruct o; cbn [run]; try (by apply coherent_reset); try (by apply on_frame_coherent); try done.
  - unfold Collection_Get. pose proof (effective_coherent c Hc). by destruct (effective c).
  - unfold SortedVariables. pose proof (effective_coherent c Hc). by destruct (effective c).
  - unfold DeclareVar. repeat case_test; try done; [by apply declareOldArg_coherent|].
    destruct (frame (reset c)); [|by apply coherent_reset]. apply coherent_reset. by rewrite declare_new_cache.
  - by apply UpdateVar_coherent.
  - unfold ExitFrame. destruct (stack c); [done|by apply coherent_reset].
Qed.

Lemma run_all_coherent os c : coherent c -> coherent (run_all os c).
Proof.
  revert c. induction os as [|o os IH]; intros c Hc; simpl; [done|]. by apply IH, run_coherent.
Qed.

(** A read through the memo. *)
Lemma Get_coherent name opts c f :
  coherent c -> frame c = Some f ->
  snd (Collection_Get name opts c) = Ok (Get (CombineScopes (scopes f c)) name opts).
Proof.
  intros Hc Hf. unfold Collection_Get. destruct (effective_spec c f Hc Hf) as (c' & -> & _). done.
Qed.

(** C30. The memo is never stale: after any sequence of operations on a new
    collection, in any order, a read returns the value of the current scopes by
    precedence (LET variables, overriding and builtin arguments, ARGs, environment,
    globals; active ones before inactive ones). *)
Theorem Collection_Get_precedence b o t gi ass soa os c f name :
  c = run_all os (NewCollection b o t gi ass soa) -> frame c = Some f ->
  snd (Collection_Get name [WithActive] c) = Ok (first_value [WithActive] name (scopes f c)) /\
  snd (Collection_Get name [] c) = Ok (match first_value [WithActive] name (scopes f c) with
    | Some v => Some v | None => first_value [] name (scopes f c) end).
Proof.
  intros -> Hf. assert (coherent (run_all os (NewCollection b o t gi ass soa))) as Hc
    by (by apply run_all_coherent, coherent_reset).
  rewrite !(Get_coherent _ _ _ f) by done.
  destruct (combined_Get (scopes f (run_all os (NewCollection b o t gi ass soa))) name) as [-> ->]. done.
Qed.

(** ** Declarations *)

Lemma Get_Add_active s name v opts s' :
  Add name v (WithActive :: opts) s = (true, s') ->
  (opts = [] \/ opts = [NoOverride]) -> Get s' name [WithActive] = Some v.
Proof.
  unfold Add. intros E Ho. destruct Ho as [->| ->]; simpl in E; repeat case_hyp E; simplify_eq;
    unfold Get, is_active; simpl; by rewrite !lookup_insert_eq.
Qed.

(** A read of the variable that has just been written in a frame. *)
Lemma read_vars c c' f s name v :
  frame c = Some f -> c' = set_frame (set_vars s f) c -> effectiveCache c' = None ->
  Get s name [WithActive] = Some v -> snd (Collection_Get name [WithActive] c') = Ok (Some v).
Proof.
  intros Hf -> He Hs. rewrite (Get_coherent _ _ _ (set_vars s f)); [|by apply coherent_reset|by eapply frame_set_frame].
  rewrite (proj1 (combined_Get _ _)). simpl. by rewrite Hs.
Qed.

Lemma read_args c c' f s name v :
  frame c = Some f -> c' = set_frame (set_args s f) c -> effectiveCache c' = None ->
  Get (vars f) name [WithActive] = None -> Get (overriding f) name [WithActive] = None ->
  Get (builtin c) name [WithActive] = None ->
  Get s name [WithActive] = Some v -> snd (Collection_Get name [WithActive] c') = Ok (Some v).
Proof.
  intros Hf -> He Hv Ho Hb Hs.
  rewrite (Get_coherent _ _ _ (set_args s f)); [|by apply coherent_reset|by eapply frame_set_frame].
  rewrite (proj1 (combined_Get _ _)). simpl. by rewrite Hv, Ho, Hb, Hs.
Qed.

Lemma declareOldArg_read c f name d pncvf c' v w :
  coherent c -> frame c = Some f ->
  Get (vars f) name [WithActive] = None -> Get (overriding f) name [WithActive] = None ->
  Get (builtin c) name [WithActive] = None ->
  declareOldArg name d false pncvf c = (c', Ok (v, w)) ->
  snd (Collection_Get name [WithActive] c') = Ok (Some v).
Proof.
  intros Hc Hf Hv Ho Hb. unfold declareOldArg.
  destruct (effective_spec c f Hc Hf) as (c1 & -> & _ & Es & _ & Eb & _).
  assert (frame c1 = Some f) as Hf1 by (unfold frame; by rewrite Es). rewrite Hf1.
  destruct (match Get _ name [] with Some _ => _ | None => _ end) as [[v0 w0]|e|]; [|done|done].
  destruct (Add name v0 [WithActive] (args f)) as [ok s] eqn:Ea. cbn [snd]. intros [= <- <- <-].
  eapply (read_args (reset c1) _ f s); try done; [simpl; by rewrite Eb|].
  destruct ok; [by eapply Get_Add_active; [done|left]|].
  unfold Add in Ea. simpl in Ea. simplify_eq.
Qed.

Lemma declare_new_read c f name prefs c' v d :
  effectiveCache c = None -> frame c = Some f -> pf_global prefs = false ->
  Get (overriding f) name [WithActive] = None -> Get (builtin c) name [WithActive] = None ->
  declare_new name prefs f c = (c', Ok (v, d)) ->
  snd (Collection_Get name [WithActive] c') = Ok (Some v).
Proof.
  intros He Hf Hg Ho Hb. unfold declare_new. rewrite Hg. destruct (pf_arg prefs); cbn [negb].
  - destruct (Get (vars f) name [WithActive]) eqn:Ev; [done|].
    destruct (overridingOrDefault _ _ _ _ _) as [v0|e|]; [|done|done].
    destruct (Add name v0 _ (args f)) as [[] s] eqn:Ea; [|done]. intros [= <- <- <-].
    eapply (read_args c _ f s); try done. eapply Get_Add_active; [done|by right].
  - destruct (Add name (pf_val prefs) _ (vars f)) as [[] s] eqn:Ea; [|done]. intros [= <- <- <-].
    eapply (read_vars c _ f s); try done. eapply Get_Add_active; [done|by right].
Qed.

Lemma DeclareVar_read c f name prefs c' v d :
  coherent c -> frame c = Some f -> pf_global prefs = false ->
  Get (overriding f) name [WithActive] = None -> Get (builtin c) name [WithActive] = None ->
  (errorOnRedeclare c = false -> Get (vars f) name [WithActive] = None) ->
  DeclareVar name prefs c = (c', Ok (v, d)) ->
  snd (Collection_Get name [WithActive] c') = Ok (Some v).
Proof.
  intros Hc Hf Hg Ho Hb Hv. unfold DeclareVar. destruct (errorOnRedeclare c) eqn:Er; cbn [negb].
  - case_test; [done|]. change (frame (reset c)) with (frame c). rewrite Hf. by apply declare_new_read.
  - case_test; [done|]. rewrite Hg. apply declareOldArg_read with (f := f); auto.
Qed.

(** A declaration is visible at once: when LET or a (non-global) ARG succeeds,
    under the old or the new scoping rules, reading the variable gives the value
    the declaration returned.  The overriding and builtin scopes hold no active
    variable of the name, as they never do, and in the old mode there are no LET
    variables. *)
Theorem DeclareVar_then_Get b o t gi ass soa os c f name prefs c' v d :
  c = run_all os (NewCollection b o t gi ass soa) -> frame c = Some f ->
  pf_global prefs = false ->
  Get (overriding f) name [WithActive] = None -> Get (builtin c) name [WithActive] = None ->
  (errorOnRedeclare c = false -> Get (vars f) name [WithActive] = None) ->
  DeclareVar name prefs c = (c', Ok (v, d)) ->
  snd (Collection_Get name [WithActive] c') = Ok (Some v).
Proof.
  intros -> Hf. apply DeclareVar_read; [|done]. by apply run_all_coherent, coherent_reset.
Qed.

(** ** SET *)

(** SET changes LET variables only: when it succeeds the variable was declared
    with LET in the current frame, reading it gives the new value, and everything
    but the frame's LET scope is as before; when it fails no scope has changed. *)
Theorem UpdateVar_spec b o t gi ass soa os c f name value pncvf :
  c = run_all os (NewCollection b o t gi ass soa) -> frame c = Some f ->
  let '(c', r) := UpdateVar name value pncvf c in
  match r with
  | Ok tt => exists v s, parseArgValue name value pncvf = Ok v /\
      Get (vars f) name [WithActive] <> None /\
      stack c' = removelast (stack c) ++ [set_vars s f] /\ envs c' = envs c /\ builtin c' = builtin c /\
      snd (Collection_Get name [WithActive] c') = Ok (Some v)
  | _ => stack c' = stack c /\ envs c' = envs c /\ builtin c' = builtin c
  end.
Proof.
  intros Ec Hf. assert (coherent c) as Hc by (subst c; by apply run_all_coherent, coherent_reset). clear Ec.
  unfold UpdateVar. destruct (effective_spec c f Hc Hf) as (c1 & -> & _ & Es & Ee & Eb & _).
  assert (frame c1 = Some f) as Hf1 by (unfold frame; by rewrite Es). rewrite Hf1.
  destruct (Get _ name [WithActive]); [|done]. destruct (Get (vars f) name [WithActive]) eqn:Ev; [|done].
  destruct (parseArgValue name value pncvf) as [v|e|]; [|done|done].
  destruct (Add name v [WithActive] (vars f)) as [ok s'] eqn:Ea. exists v, s'.
  split_and!; [done|done|simpl; by rewrite Es|done|done|].
  eapply (read_vars (reset c1) _ f s'); try done.
  destruct ok; [by eapply Get_Add_active; [done|left]|]. unfold Add in Ea. simpl in Ea. simplify_eq.
Qed.

(** ** Frames *)

(** Operations of the code inside a frame. *)
Definition inner (o : op) : bool :=
  match o with OEnterFrame _ _ _ _ _ | OExitFrame => false | _ => true end.

Lemma effective_stack c : stack (fst (effective c)) = stack c.
Proof. unfold effective. destruct (effectiveCache c); [done|]. by destruct (frame c). Qed.

Lemma set_frame_tail f c s f0 : stack c = s ++ [f0] -> exists f', stack (set_frame f c) = s ++ [f'].
Proof. intros E. exists f. by eapply stack_set_frame. Qed.

Lemma run_inner o c s f :
  inner o = true -> stack c = s ++ [f] -> exists f', stack (run o c) = s ++ [f'].
Proof.
  intros Hi E.
  assert (forall g, exists f', stack (fst (on_frame g c)) = s ++ [f']) as Hon.
  { intros g. unfold on_frame. destruct (frame c); [|by exists f]. by eapply set_frame_tail. }
  pose proof (effective_stack c) as Heff. rewrite E in Heff.
  destruct o; try done; cbn [run]; try (by exists f); try (by apply Hon).
  - unfold Collection_Get. destruct (effective c). by exists f.
  - unfold SortedVariables. destruct (effective c). by exists f.
  - unfold DeclareVar. repeat case_test; try (by exists f).
    + unfold declareOldArg. destruct (effective c) as [c1 ef]. simpl in Heff.
      repeat case_goal; try (by exists f); by eapply set_frame_tail.
    + destruct (frame (reset c)); [|by exists f]. unfold declare_new.
      repeat case_goal; try (by exists f); by eapply set_frame_tail.
  - unfold UpdateVar. destruct (effective c) as [c1 ef]. simpl in Heff.
    repeat case_goal; try (by exists f); by eapply set_frame_tail.
Qed.

Lemma run_all_inner os c s f :
  forallb inner os = true -> stack c = s ++ [f] -> exists f', stack (run_all os c) = s ++ [f'].
Proof.
  revert c f. induction os as [|o os IH]; intros c f Hi E; simpl in *; [by exists f|].
  apply andb_true_iff in Hi as [Ho1 Ho2]. destruct (run_inner o c s f Ho1 E) as [f' E']. by eapply IH.
Qed.

(** A call frame isolates its variables: whatever declarations, assignments
    and reads happen between entering a frame and leaving it, the caller's whole
    stack of frames (its ARGs, LET variables, globals, overriding arguments and
    imports) is restored. *)
Theorem frame_isolation name ref over globs gi os c :
  forallb inner os = true ->
  let c1 := run_all os (EnterFrame name ref over globs gi c) in
  snd (ExitFrame c1) = Ok tt /\ stack (fst (ExitFrame c1)) = stack c /\ frame (fst (ExitFrame c1)) = frame c.
Proof.
  intros Hi c1. edestruct (run_all_inner os (EnterFrame name ref over globs gi c) (stack c)) as [f' E]; [done|done|].
  fold c1 in E. assert (ExitFrame c1 = (reset (set_stack (stack c) c1), Ok tt)) as ->.
  { unfold ExitFrame. rewrite E, removelast_last. by destruct (stack c). }
  done.
Qed.

End Facts.

(** ** Concrete collections *)

#[local] Instance list_order : RangeOrder := map_to_list.
#[local] Instance list_order_laws : RangeLaws.
Proof. intros m. reflexivity. Qed.
#[local] Instance all_print : Unicode := fun _ => true.

Definition sample_target : Reference := mkRef KTarget "" "" "." "" "build".

Definition let_prefs (v : string) : declarePrefs := mkPrefs None v false false.
Definition arg_prefs (v : string) : declarePrefs := mkPrefs None v false true.

Definition sample_ops : list op := [ODeclareVar "x" (let_prefs "1"); OGet "x" []; OUpdateVar "x" "2" None].

Definition sample_new : Collection := NewCollection NewScope None sample_target ∅ true true.

Definition sample : Collection := run_all sample_ops sample_new.

Definition sample_frame : stackFrame :=
  List.last (stack sample) (mkFrame sample_target (NewImportTracker ∅) NewScope NewScope NewScope NewScope "").

Lemma Collection_Get_precedence_witness :
  frame sample = Some sample_frame /\ snd (Collection_Get "x" [WithActive] sample) = Ok (Some "2").
Proof.
  split; [reflexivity|].
  rewrite (proj1 (Collection_Get_precedence NewScope None sample_target ∅ true true sample_ops
    sample sample_frame "x" eq_refl eq_refl)). reflexivity.
Defined.

Lemma DeclareVar_then_Get_witness :
  let c' := fst (DeclareVar "y" (arg_prefs "7") sample) in
  snd (Collection_Get "y" [WithActive] c') = Ok (Some "7").
Proof.
  intros c'.
  apply (DeclareVar_then_Get NewScope None sample_target ∅ true true sample_ops
    sample sample_frame "y" (arg_prefs "7") c' "7" "7"); reflexivity.
Defined.

Lemma UpdateVar_spec_witness : stack (fst (UpdateVar "unknown" "1" None sample)) = stack sample.
Proof.
  pose proof (UpdateVar_spec NewScope None sample_target ∅ true true sample_ops sample
    sample_frame "unknown" "1" None eq_refl eq_refl) as Hu.
  apply Hu.
Defined.

Lemma frame_isolation_witness :
  let os := [ODeclareVar "y" (let_prefs "1"); OSetArg "z" "2"] in
  stack (fst (ExitFrame (run_all os (EnterFrame "f" sample_target NewScope NewScope ∅ sample_new)))) = stack sample_new.
Proof.
  intros os. apply (frame_isolation "f" sample_target NewScope NewScope ∅ os sample_new). reflexivity.
Defined.
