(* ===== verification/BuildArgs.v ===== *)
(** * Build arguments

    A translation of [variables/parse.go] and [variables/reserved/names.go]: the
    arguments of builds, from the command line, from commands of an Earthfile and
    from environment lists.  The process environment is an argument. *)

From stdpp Require Import gmap.
From S2P Require Import Prelude GoStrings Token GoText Reference KeyValue Scope Collection.

Open Scope res_scope.

(** The map [args] of reserved names. *)
Definition reserved_args : list string :=
  ["EARTH_GIT_AUTHOR"; "EARTH_GIT_AUTHOR_EMAIL"; "EARTH_GIT_AUTHOR_NAME"; "EARTH_GIT_BRANCH";
   "EARTH_GIT_CO_AUTHORS"; "EARTH_GIT_COMMIT_AUTHOR_TIMESTAMP"; "EARTH_GIT_COMMIT_TIMESTAMP";
   "EARTH_GIT_CONTENT_HASH"; "EARTH_GIT_HASH"; "EARTH_GIT_ORIGIN_URL";
   "EARTH_GIT_ORIGIN_URL_SCRUBBED"; "EARTH_GIT_PROJECT_NAME"; "EARTH_GIT_REFS";
   "EARTH_GIT_SHORT_HASH"; "EARTH_GIT_TAG"; "EARTH_SOURCE_DATE_EPOCH"; "EARTH_BUILD_SHA";
   "EARTH_LOCALLY"; "EARTH_PUSH"; "EARTH_CI"; "EARTH_CI_RUNNER"; "EARTH_TARGET";
   "EARTH_TARGET_NAME"; "EARTH_TARGET_PROJECT"; "EARTH_TARGET_PROJECT_NO_TAG"; "EARTH_TARGET_TAG";
   "EARTH_TARGET_TAG_DOCKER"; "EARTH_VERSION"; "EARTHLY_BUILD_SHA"; "EARTHLY_GIT_BRANCH";
   "EARTHLY_GIT_COMMIT_TIMESTAMP"; "EARTHLY_GIT_COMMIT_AUTHOR_TIMESTAMP"; "EARTHLY_GIT_AUTHOR";
   "EARTHLY_GIT_AUTHOR_EMAIL"; "EARTHLY_GIT_AUTHOR_NAME"; "EARTHLY_GIT_CO_AUTHORS";
   "EARTHLY_GIT_HASH"; "EARTHLY_GIT_ORIGIN_URL"; "EARTHLY_GIT_ORIGIN_URL_SCRUBBED";
   "EARTHLY_GIT_PROJECT_NAME"; "EARTHLY_GIT_SHORT_HASH"; "EARTHLY_GIT_TAG"; "EARTHLY_GIT_REFS";
   "EARTHLY_LOCALLY"; "EARTHLY_PUSH"; "EARTHLY_CI"; "EARTHLY_CI_RUNNER";
   "EARTHLY_SOURCE_DATE_EPOCH"; "EARTHLY_TARGET"; "EARTHLY_TARGET_NAME"; "EARTHLY_TARGET_PROJECT";
   "EARTHLY_TARGET_PROJECT_NO_TAG"; "EARTHLY_TARGET_TAG"; "EARTHLY_TARGET_TAG_DOCKER";
   "EARTHLY_VERSION"; "NATIVEARCH"; "NATIVEOS"; "NATIVEPLATFORM"; "NATIVEVARIANT"; "TARGETARCH";
   "TARGETOS"; "TARGETPLATFORM"; "TARGETVARIANT"; "USERARCH"; "USEROS"; "USERPLATFORM";
   "USERVARIANT"].

Definition IsBuiltIn (s : string) : bool := existsb (String.eqb s) reserved_args.

(** [strings.SplitN(arg, "=", 2)]: the key, and the value if there is one. *)
Definition split_arg (arg : string) : string * option string :=
  match SplitN2 arg equals with
  | [k; v] => (k, Some v)
  | _ => (arg, None)
  end.

Fixpoint command_line_loop (LookupEnv : string -> option string) (args : list string) (ret : Scope) : res Scope :=
  match args with
  | [] => Ok ret
  | arg :: args =>
      let '(key, value) := split_arg arg in
      if IsBuiltIn key then Err ("built-in arg " +:+ key +:+ " cannot be passed on the command line")
      else
        match (match value with Some v => Some v | None => LookupEnv key end) with
        | None => Err ("env var " +:+ key +:+ " not set")
        | Some v => command_line_loop LookupEnv args (snd (Add key v [] ret))
        end
  end.

Definition ParseCommandLineArgs (LookupEnv : string -> option string) (args : list string) : res Scope :=
  command_line_loop LookupEnv args NewScope.

Fixpoint env_loop (envVars : list string) (ret : Scope) : Scope :=
  match envVars with
  | [] => ret
  | envVar :: envVars => let '(k, v, _) := ParseKeyValue envVar in env_loop envVars (snd (Add k v [WithActive] ret))
  end.

Definition ParseEnvVars (envVars : list string) : Scope := env_loop envVars NewScope.

Section Args.
Context `{RangeOrder}.

(** The collection is read through its memo, so it may change. *)
Definition parseArg (arg : string) (pncvf : pncv) (current : Collection) : Collection * res (string * string) :=
  let '(name, value) := split_arg arg in
  match value with
  | Some value =>
      if IsBuiltIn name then (current, Err ("value cannot be specified for built-in build arg " +:+ name))
      else (current, let* v := parseArgValue name value pncvf in Ok (name, v))
  | None =>
      let '(current, r) := Collection_Get name [WithActive] current in
      (current, let* v := r in
        match v with
        | Some v => Ok (name, v)
        | None => Err ("value not specified for build arg " +:+ name +:+ " and no value can be inferred")
        end)
  end.

Fixpoint args_loop (args : list string) (pncvf : pncv) (current : Collection) (ret : Scope) : Collection * res Scope :=
  match args with
  | [] => (current, Ok ret)
  | arg :: args =>
      let '(current, r) := parseArg arg pncvf current in
      match r with
      | Err e => (current, Err ("parse build arg " +:+ arg +:+ ": " +:+ e))
      | NoFuel => (current, NoFuel)
      | Ok (name, v) => args_loop args pncvf current (snd (Add name v [] ret))
      end
  end.

Definition ParseArgs (args : list string) (pncvf : pncv) (current : Collection) : Collection * res Scope :=
  args_loop args pncvf current NewScope.
End Args.

(** ** Facts *)

Lemma IsBuiltIn_count : length reserved_args = 67 /\ NoDup reserved_args.
Proof. split; [reflexivity|]. apply (bool_decide_unpack _). vm_compute. exact I. Qed.

(** What the entries of a command line give: the last one with a key wins. *)
Fixpoint command_line_value (LookupEnv : string -> option string) (args : list string) (k : string) : option string :=
  match args with
  | [] => None
  | arg :: args =>
      match command_line_value LookupEnv args k with
      | Some v => Some v
      | None =>
          let '(key, value) := split_arg arg in
          if String.eqb k key then match value with Some v => Some v | None => LookupEnv key end else None
      end
  end.

Lemma command_line_loop_spec env args ret s k :
  command_line_loop env args ret = Ok s ->
  Get s k [] = match command_line_value env args k with Some v => Some v | None => Get ret k [] end /\
  (command_line_value env args k <> None -> IsBuiltIn k = false) /\
  activeVariables s = activeVariables ret.
Proof.
  revert ret. induction args as [|arg args IH]; intros ret; cbn [command_line_loop command_line_value].
  { intros [= <-]. done. }
  destruct (split_arg arg) as [key value] eqn:Es. destruct (IsBuiltIn key) eqn:Eb; [done|].
  destruct (match value with Some v => Some v | None => env key end) as [v|] eqn:Ev; [|done].
  intros E. destruct (IH _ E) as (H1 & H2 & H3). rewrite H1, H3.
  assert (Get (snd (Add key v [] ret)) k [] = if String.eqb k key then Some v else Get ret k []) as Ha.
  { unfold Add, Get. simpl. destruct (String.eqb_spec k key) as [->|Hne]; [by rewrite lookup_insert_eq|].
    by rewrite lookup_insert_ne. }
  rewrite Ha. destruct (command_line_value env args k) as [v'|].
  - split_and!; auto.
  - destruct (String.eqb_spec k key) as [->|Hne]; rewrite ?Ev; split_and!; auto.
Qed.

(** Command-line build arguments cannot set builtins: when the command line
    is accepted, the scope holds for every key the value of the last argument with
    that key (given, or taken from the environment), none is a builtin, and no
    variable is active. *)
Theorem ParseCommandLineArgs_spec env args s k :
  ParseCommandLineArgs env args = Ok s ->
  Get s k [] = command_line_value env args k /\ (Get s k [] <> None -> IsBuiltIn k = false) /\
  Get s k [WithActive] = None.
Proof.
  intros E. destruct (command_line_loop_spec env args NewScope s k E) as (H1 & H2 & H3).
  assert (Get s k [] = command_line_value env args k) as HG
    by (rewrite H1; by destruct (command_line_value env args k)).
  rewrite HG. split_and!; [done|done|]. unfold Get, is_active. rewrite H3. simpl.
  by destruct (variables s !! k).
Qed.

Lemma ParseCommandLineArgs_spec_witness :
  let env := fun k => if String.eqb k "HOME" then Some "/root" else None in
  exists s, ParseCommandLineArgs env ["A=1"; "HOME"; "A=2=3"] = Ok s /\ Get s "A" [] = Some "2=3".
Proof.
  intros env. eexists. split; [reflexivity|].
  rewrite (proj1 (ParseCommandLineArgs_spec env ["A=1"; "HOME"; "A=2=3"] _ "A" eq_refl)). reflexivity.
Defined.

(** The escaping of [ParseFlagArgs] is not undone by its consumers: a flag
    whose key has an equals sign is returned with the sign escaped, as the input
    of [ParseCommandLineArgs], which cuts at the first equals sign whatever
    precedes it and so declares another variable. *)
Theorem flag_escaping_lost :
  let u : Unicode := fun _ => true in
  ParseFlagArgs ["--a\=b=c"] = Ok ["a\=b=c"] /\ ParseKeyValue "a\=b=c" = ("a=b", "c", true) /\
  exists s, ParseCommandLineArgs (fun _ => None) ["a\=b=c"] = Ok s /\
    Get s "a=b" [] = None /\ Get s "a\" [] = Some "b=c".
Proof.
  intros u. split; [vm_compute; reflexivity|]. split; [vm_compute; reflexivity|].
  eexists. split; [vm_compute; reflexivity|]. split; vm_compute; reflexivity.
Qed.
