(* ===== verification/Numbers.v ===== *)
(** * Decimal numbers

    [strconv.Atoi], on a machine whose [int] has 64 bits, and its inverse, the verb
    [%d]; [strconv.ParseUint] for octal numbers of 32 bits. *)

From S2P Require Import Prelude GoStrings Token GoText.

Definition decimal_digit (c : ascii) : option Z :=
  if in_range 48 57 (byteZ c) then Some (byteZ c - 48)%Z else None.

(** The loop of [ParseUint]: an overflow of 64 bits is found at its digit, before
    what follows is looked at. *)
Fixpoint uint_loop (s : string) (n : Z) : Z + string :=
  match s with
  | "" => inl n
  | String c s =>
      match decimal_digit c with
      | Some d => let n := (10 * n + d)%Z in
                  if (n <? 2 ^ 64)%Z then uint_loop s n else inr "value out of range"
      | None => inr "invalid syntax"
      end
  end.

Definition split_sign (s : string) : bool * string :=
  match s with
  | String c t => if Ascii.eqb c "-" then (true, t) else if Ascii.eqb c "+" then (false, t) else (false, s)
  | "" => (false, "")
  end.

Definition atoi_error `{Unicode} (s reason : string) : string :=
  "strconv.Atoi: parsing " +:+ Quote s +:+ ": " +:+ reason.

Definition Atoi `{Unicode} (s : string) : res Z :=
  let '(neg, t) := split_sign s in
  match (if String.eqb t "" then inr "invalid syntax" else uint_loop t 0) with
  | inr reason => Err (atoi_error s reason)
  | inl n =>
      if neg : bool then (if (n <=? 2 ^ 63)%Z then Ok (- n)%Z else Err (atoi_error s "value out of range"))
      else if (n <? 2 ^ 63)%Z then Ok n else Err (atoi_error s "value out of range")
  end.

(** [int] *)
Definition is_int (n : Z) : bool := (- 2 ^ 63 <=? n)%Z && (n <? 2 ^ 63)%Z.

(** The verb [%d] of an [int]. *)
Definition fmt_dZ (n : Z) : string := pretty n.

Definition is_decimal (c : ascii) : bool := bool_decide (is_Some (decimal_digit c)).

Lemma decimal_digit_char n : (n < 10)%N -> decimal_digit (pretty_N_char n) = Some (Z.of_N n).
Proof.
  intros Hn. destruct n as [|p]; [done|]. by do 4 (destruct p; try done; try lia).
Qed.

Lemma uint_loop_pretty n s : (Z.of_N n < 2 ^ 64)%Z -> uint_loop (pretty_N_go n s) 0 = uint_loop s (Z.of_N n).
Proof.
  revert s. induction (N.lt_wf_0 n) as [n _ IH]; intros s Hn.
  destruct (decide (n = 0)%N) as [->|Hz]; [done|]. rewrite pretty_N_go_step by lia.
  rewrite IH; [|apply N.div_lt; lia|]; [|rewrite N2Z.inj_div; apply Z.div_lt_upper_bound; lia].
  cbn [uint_loop]. rewrite decimal_digit_char by (apply N.mod_lt; lia).
  replace (10 * Z.of_N (n `div` 10) + Z.of_N (n `mod` 10))%Z with (Z.of_N n).
  2: { rewrite (N.div_mod n 10) at 1 by done. lia. }
  by rewrite (proj2 (Z.ltb_lt _ _) Hn).
Qed.

Lemma pretty_N_go_decimal n s : sall is_decimal s = true -> sall is_decimal (pretty_N_go n s) = true.
Proof.
  revert s. induction (N.lt_wf_0 n) as [n _ IH]; intros s Hs.
  destruct (decide (n = 0)%N) as [->|Hz]; [done|]. rewrite pretty_N_go_step by lia.
  apply IH; [apply N.div_lt; lia|]. simpl. rewrite Hs, andb_true_r. unfold is_decimal.
  rewrite decimal_digit_char by (apply N.mod_lt; lia). by apply bool_decide_eq_true.
Qed.

Lemma pretty_N_go_nonempty n : n <> 0%N -> pretty_N_go n "" <> "".
Proof.
  intros Hn. rewrite pretty_N_go_step by lia.
  cut (forall m c s, pretty_N_go m (String c s) <> ""); [intros Hm; apply Hm|]. clear.
  intros m. induction (N.lt_wf_0 m) as [m _ IH]; intros c s.
  destruct (decide (m = 0)%N) as [->|Hz]; [done|]. rewrite pretty_N_go_step by lia. apply IH, N.div_lt; lia.
Qed.

Lemma pretty_N_decimal (n : N) : sall is_decimal (pretty n) = true /\ pretty n <> "" /\
  ((Z.of_N n < 2 ^ 64)%Z -> uint_loop (pretty n) 0 = inl (Z.of_N n)).
Proof.
  unfold pretty, pretty_N. destruct (decide (n = 0)%N) as [->|Hz]; [done|].
  split_and!; [by apply pretty_N_go_decimal|by apply pretty_N_go_nonempty|apply uint_loop_pretty].
Qed.

Lemma decimal_not_sign s : sall is_decimal s = true -> split_sign s = (false, s).
Proof.
  destruct s as [|c s]; [done|]. simpl. intros [Hc _]%andb_true_iff.
  destruct (Ascii.eqb_spec c "-"); [by subst|]. by destruct (Ascii.eqb_spec c "+"); [subst|].
Qed.

Section Atoi.
Context `{Unicode}.

Lemma Atoi_fmt n : is_int n = true -> Atoi (fmt_dZ n) = Ok n.
Proof.
  unfold is_int. intros [H1%Z.leb_le H2%Z.ltb_lt]%andb_true_iff. unfold Atoi, fmt_dZ.
  destruct n as [|p|p]; [done|..].
  - change (pretty (Z.pos p)) with (pretty (N.pos p)). destruct (pretty_N_decimal (N.pos p)) as (Hd & Hne & Hv).
    rewrite decimal_not_sign by done. rewrite (proj2 (String.eqb_neq _ _) Hne), Hv by lia.
    by rewrite (proj2 (Z.ltb_lt (Z.of_N (N.pos p)) _) H2).
  - change (pretty (Z.neg p)) with ("-" +:+ pretty (N.pos p)). destruct (pretty_N_decimal (N.pos p)) as (Hd & Hne & Hv).
    change (split_sign ("-" +:+ pretty (N.pos p))) with (true, pretty (N.pos p)). cbv iota.
    rewrite (proj2 (String.eqb_neq _ _) Hne), Hv by lia.
    by rewrite (proj2 (Z.leb_le (Z.of_N (N.pos p)) _)) by lia.
Qed.

Lemma uint_loop_nonneg s n m : (0 <= n)%Z -> uint_loop s n = inl m -> (0 <= m)%Z.
Proof.
  revert n. induction s as [|c s IH]; simpl; intros n Hn; [by intros [= <-]|].
  unfold decimal_digit. destruct (in_range 48 57 (byteZ c)) eqn:E; [|done]. unfold in_range in E.
  destruct (_ <? _)%Z; [|done]. apply IH. lia.
Qed.

Lemma Atoi_int s n : Atoi s = Ok n -> is_int n = true.
Proof.
  unfold Atoi, is_int. destruct (split_sign s) as [neg t]. destruct (String.eqb t ""); [done|].
  destruct (uint_loop t 0) as [m|] eqn:E; [|done]. apply uint_loop_nonneg in E; [|done].
  destruct neg; [destruct (Z.leb_spec m (2 ^ 63))|destruct (Z.ltb_spec m (2 ^ 63))]; intros [= <-]; lia.
Qed.

End Atoi.

(** ** Octal numbers *)

Definition octal_digit (c : ascii) : option Z :=
  if in_range 48 55 (byteZ c) then Some (byteZ c - 48)%Z else None.

Definition num_error `{Unicode} (s reason : string) : string := "strconv.ParseUint: parsing " +:+ Quote s +:+ ": " +:+ reason.

Fixpoint octal_loop (s : string) (n : Z) : Z + string :=
  match s with
  | "" => inl n
  | String c s => match octal_digit c with
                  | Some d => let n := (8 * n + d)%Z in
                              if (n <? 2 ^ 32)%Z then octal_loop s n else inr "value out of range"
                  | None => inr "invalid syntax"
                  end
  end.

(** [strconv.ParseUint(s, 8, 32)] *)
Definition ParseUint8_32 `{Unicode} (s : string) : res Z :=
  match (if String.eqb s "" then inr "invalid syntax" else octal_loop s 0) with
  | inl n => Ok n
  | inr reason => Err (num_error s reason)
  end.

Lemma octal_loop_bounds s n m : (0 <= n < 2 ^ 32)%Z -> octal_loop s n = inl m -> (0 <= m < 2 ^ 32)%Z.
Proof.
  revert n. induction s as [|c s IH]; cbn [octal_loop]; intros n Hn; [by intros [= <-]|].
  unfold octal_digit, in_range. destruct ((48 <=? byteZ c) && (byteZ c <=? 55))%Z eqn:E; [|done].
  apply andb_true_iff in E as [E1%Z.leb_le E2%Z.leb_le].
  destruct (Z.ltb_spec (8 * n + (byteZ c - 48)) (2 ^ 32)); [|done]. apply IH. lia.
Qed.

Lemma ParseUint8_32_bounds `{Unicode} s m : ParseUint8_32 s = Ok m -> (0 <= m < 2 ^ 32)%Z.
Proof.
  unfold ParseUint8_32. destruct (String.eqb s ""); [done|]. destruct (octal_loop s 0) as [n|] eqn:E; [|done].
  intros [= <-]. by apply octal_loop_bounds in E.
Qed.
