(* ===== verification/SyncCache.v ===== *)
(** * The concurrent cache of loaded values

    A translation of [internal/synccache].  Goroutines interleave: a caller of
    [Load] and the goroutine that loads an entry are processes with a program
    counter, and [exec] runs one atomic step of one of them (a section under a
    mutex, a channel operation, or the return of a loader, whose outcome the
    environment chooses).  An entry, the bookkeeping of its in-flight load and the
    goroutine that loads it share an identifier, since [getEntry] creates the
    first two together and starts the third once. *)

From stdpp Require Import gmap.
From S2P Require Import Prelude.

Section SyncCache.
Context {V : Type}.

(** ** Data *)

(** Errors of a load: a context failure ([isContextErr]), or another one. *)
Inductive loadErr : Type :=
  | ErrCtx
  | ErrOther (msg : string).

Definition isContextErr (e : loadErr) : bool := match e with ErrCtx => true | _ => false end.

(** How the context of a load was cancelled: all its callers had gone, or the
    load was over ([errClosed]). *)
Inductive cause : Type := Abandoned | Closed.

(** A context attached to a load ([context.AfterFunc], whose [stop] is in
    [stops]) and whether its callback has run. *)
Record sub : Type := mkSub { sub_ctx : nat; sub_fired : bool }.

(** [i_owner] and [i_first] record the caller that started the load and its
    context; the code does not read them.  Of [firstDoneErr] the model keeps that
    the load was cancelled because its callers had gone. *)
Record inflight : Type := mkInflight {
  i_owner : nat;
  i_first : nat;
  i_subs : list sub;
  i_numDone : nat;
  i_closed : bool;
  i_cancel : option cause
}.

(** [e_value] is [None] for the zero value, [e_loaded] says that the channel
    [loaded] is closed and [e_inflight] that the pointer is not [nil]. *)
Record entry : Type := mkEntry {
  e_key : string;
  e_value : option V;
  e_err : option loadErr;
  e_loaded : bool;
  e_inflight : bool
}.

(** The results of [Load]: the loader is [nil], the error of the caller's own
    context, or what [await] returned; [found] tells whether the caller shared a
    load that another caller had started. *)
Inductive result : Type :=
  | RNoLoader
  | ROwnCtx
  | RRet (value : option V) (err : option loadErr) (found : bool).

(** Where a caller of [Load] is. *)
Inductive callerPC : Type :=
  | CGet
  | CLock
  | CFound (e : nat)
  | CAdd (e : nat)
  | CSpawn (e : nat)
  | CAwait (e : nat) (found : bool)
  | CGot (e : nat) (found : bool) (value : option V) (err : option loadErr)
  | CDone (r : result).

Record caller : Type := mkCaller { c_ctx : nat; c_key : string; c_pc : callerPC }.

(** Where the goroutine [load] is: its loader runs, it deletes the entry after a
    context failure, closes [loaded], clears the in-flight load and closes it. *)
Inductive loadPC : Type := LRun | LDelete | LClose | LClear | LInfClose | LEnd.

(** How a loader ends. *)
Inductive outcome : Type := OReturn (v : V) (err : option loadErr) | OPanic | OGoexit.

Record world : Type := mkWorld {
  store : gmap string nat;
  heap : gmap nat entry;
  infs : gmap nat inflight;
  loads : gmap nat loadPC;
  callers : gmap nat caller;
  done_ctx : gset nat
}.

Definition new_world : world := mkWorld ∅ ∅ ∅ ∅ ∅ ∅.

Definition set_store (s : gmap string nat) (w : world) : world :=
  mkWorld s (heap w) (infs w) (loads w) (callers w) (done_ctx w).
Definition set_entry (e : nat) (x : entry) (w : world) : world :=
  mkWorld (store w) (<[e := x]> (heap w)) (infs w) (loads w) (callers w) (done_ctx w).
Definition set_inf (e : nat) (x : inflight) (w : world) : world :=
  mkWorld (store w) (heap w) (<[e := x]> (infs w)) (loads w) (callers w) (done_ctx w).
Definition set_load (e : nat) (x : loadPC) (w : world) : world :=
  mkWorld (store w) (heap w) (infs w) (<[e := x]> (loads w)) (callers w) (done_ctx w).
Definition set_pc (i : nat) (c : caller) (pc : callerPC) (w : world) : world :=
  mkWorld (store w) (heap w) (infs w) (loads w) (<[i := mkCaller (c_ctx c) (c_key c) pc]> (callers w)) (done_ctx w).
Definition add_done (x : nat) (w : world) : world :=
  mkWorld (store w) (heap w) (infs w) (loads w) (callers w) ({[x]} ∪ done_ctx w).

Definition is_done (w : world) (x : nat) : bool := bool_decide (x ∈ done_ctx w).

(** ** [inflight.go] *)


Definition inf_add (w : world) (ctx : nat) (i : inflight) : inflight :=
  if i_closed i then i
  else if is_done w ctx then i
  else mkInflight (i_owner i) (i_first i) (i_subs i ++ [mkSub ctx false]) (i_numDone i) (i_closed i) (i_cancel i).

(** The first caller attaches, or the load is doomed from the outset. *)
Definition newInflight (w : world) (owner firstCtx : nat) : inflight :=
  let inf := mkInflight owner firstCtx [] 0 false None in
  if is_done w firstCtx then mkInflight owner firstCtx [] 0 true (Some Abandoned)
  else inf_add w firstCtx inf.

Definition inf_close (i : inflight) : inflight :=
  if i_closed i then i else mkInflight (i_owner i) (i_first i) [] (i_numDone i) true (Some Closed).

(** The callback of the [j]-th attached context; [None] when it does not run. *)
Definition onSubDone (w : world) (j : nat) (i : inflight) : option inflight :=
  match i_subs i !! j with
  | Some s =>
      if sub_fired s || negb (is_done w (sub_ctx s)) then None
      else
        let subs := <[j := mkSub (sub_ctx s) true]> (i_subs i) in
        if i_closed i then Some (mkInflight (i_owner i) (i_first i) subs (i_numDone i) (i_closed i) (i_cancel i))
        else
          let n := S (i_numDone i) in
          Some (if n =? length subs then mkInflight (i_owner i) (i_first i) subs n true (Some Abandoned)
                else mkInflight (i_owner i) (i_first i) subs n false (i_cancel i))
  | None => None
  end.

(** ** [cache.go] *)

(** The end of an iteration of [Load], with what [await] returned. *)
Definition resolve (w : world) (c : caller) (found : bool) (value : option V) (err : option loadErr) : callerPC :=
  match err with
  | None => CDone (RRet value err found)
  | Some er =>
      if is_done w (c_ctx c) then CDone ROwnCtx
      else if found && isContextErr er then CGet
      else CDone (RRet value err found)
  end.

(** One step of the caller [i]; [fresh] is the identifier of a new entry. *)
Definition step_caller (i fresh : nat) (w : world) : option world :=
  match callers w !! i with
  | None => None
  | Some c =>
      match c_pc c with
      | CGet =>
          match store w !! c_key c with
          | Some e => Some (set_pc i c (CFound e) w)
          | None => Some (set_pc i c CLock w)
          end
      | CLock =>
          match store w !! c_key c with
          | Some e => Some (set_pc i c (CFound e) w)
          | None =>
              match heap w !! fresh with
              | Some _ => None
              | None =>
                  Some (set_pc i c (CSpawn fresh)
                    (set_store (<[c_key c := fresh]> (store w))
                      (set_inf fresh (newInflight w i (c_ctx c))
                        (set_entry fresh (mkEntry (c_key c) None None false true) w))))
              end
          end
      | CSpawn e => Some (set_pc i c (CAwait e false) (set_load e LRun w))
      | CFound e =>
          match heap w !! e with
          | Some en => Some (set_pc i c (if e_inflight en then CAdd e else CAwait e true) w)
          | None => None
          end
      | CAdd e =>
          match infs w !! e with
          | Some inf => Some (set_pc i c (CAwait e true) (set_inf e (inf_add w (c_ctx c) inf) w))
          | None => None
          end
      | CAwait e found =>
          match heap w !! e with
          | Some en =>
              if e_loaded en then Some (set_pc i c (CGot e found (e_value en) (e_err en)) w)
              else if is_done w (c_ctx c) then Some (set_pc i c (CDone ROwnCtx) w)
              else None
          | None => None
          end
      | CGot e found value err => Some (set_pc i c (resolve w c found value err) w)
      | CDone _ => None
      end
  end.

(** [e.value, e.err = loader(execCtx)], or what the deferred function writes when
    the loader does not return. *)
Definition loader_end (o : outcome) (en : entry) : entry :=
  match o with
  | OReturn v err => mkEntry (e_key en) (Some v) err (e_loaded en) (e_inflight en)
  | OPanic => mkEntry (e_key en) None (Some (ErrOther "loader panicked")) (e_loaded en) (e_inflight en)
  | OGoexit => mkEntry (e_key en) None (Some (ErrOther "loader exited without returning a value")) (e_loaded en) (e_inflight en)
  end.

Definition after_loader (o : outcome) : loadPC :=
  match o with
  | OReturn _ (Some er) => if isContextErr er then LDelete else LClose
  | _ => LClose
  end.

(** One step of the goroutine that loads [e]. *)
Definition step_load (e : nat) (o : outcome) (w : world) : option world :=
  match loads w !! e, heap w !! e with
  | Some pc, Some en =>
      match pc with
      | LRun => Some (set_load e (after_loader o) (set_entry e (loader_end o en) w))
      | LDelete => Some (set_load e LClose (set_store (delete (e_key en) (store w)) w))
      | LClose => Some (set_load e LClear (set_entry e (mkEntry (e_key en) (e_value en) (e_err en) true (e_inflight en)) w))
      | LClear => Some (set_load e LInfClose (set_entry e (mkEntry (e_key en) (e_value en) (e_err en) (e_loaded en) false) w))
      | LInfClose =>
          match infs w !! e with
          | Some inf => Some (set_load e LEnd (set_inf e (inf_close inf) w))
          | None => None
          end
      | LEnd => None
      end
  | _, _ => None
  end.

(** [Store]: [None] also when the key is present ([ErrAlreadyExists]). *)
Definition step_store (k : string) (v : V) (fresh : nat) (w : world) : option world :=
  match store w !! k, heap w !! fresh with
  | None, None => Some (set_store (<[k := fresh]> (store w)) (set_entry fresh (mkEntry k (Some v) None true false) w))
  | _, _ => None
  end.

Inductive event : Type :=
  | ECancel (ctx : nat)
  | ECall (i ctx : nat) (k : string) (nilLoader : bool)
  | ECaller (i fresh : nat)
  | ELoad (e : nat) (o : outcome)
  | ESub (e j : nat)
  | EStore (k : string) (v : V) (fresh : nat).

Definition exec (ev : event) (w : world) : option world :=
  match ev with
  | ECancel x => Some (add_done x w)
  | ECall i x k nilLoader =>
      match callers w !! i with
      | Some _ => None
      | None => Some (set_pc i (mkCaller x k CGet) (if nilLoader then CDone RNoLoader else CGet) w)
      end
  | ECaller i fresh => step_caller i fresh w
  | ELoad e o => step_load e o w
  | ESub e j => match infs w !! e with
                | Some inf => (fun inf => set_inf e inf w) <$> onSubDone w j inf
                | None => None
                end
  | EStore k v fresh => step_store k v fresh w
  end.

Fixpoint exec_all (evs : list event) (w : world) : option world :=
  match evs with
  | [] => Some w
  | ev :: evs => exec ev w ≫= exec_all evs
  end.

Inductive reachable : world -> Prop :=
  | reach_new : reachable new_world
  | reach_step w ev w' : reachable w -> exec ev w = Some w' -> reachable w'.

End SyncCache.
