(* ===== verification/SyncCacheFacts.v ===== *)
(** * Properties of the concurrent cache

    The global invariant [inv] of every interleaving, by induction on the steps,
    and what the comments of [internal/synccache] promise: the single-deleter
    invariant, cancellation only when every attached caller has gone, no foreign
    cancellation, permanence of loaded values, and progress. *)

From stdpp Require Import gmap.
From S2P Require Import Prelude SyncCache.

Section Facts.
Context {V : Type}.
Notation world := (@world V).
Notation entry := (@entry V).
Notation caller := (@caller V).

(** ** The invariant *)

Definition here (w : world) (e : nat) (en : entry) : Prop := store w !! e_key en = Some e.

(** What an entry holds once its loader is over: a context failure is out of the
    store, and a success has a value. *)
Definition published (w : world) (e : nat) (en : entry) : Prop :=
  (e_err en = Some ErrCtx -> ~ here w e en) /\ (e_err en = None -> is_Some (e_value en)).

(** The phases of an entry: pre-built by [Store], created and about to be loaded
    by its creator, or at a stage of its load. *)
Definition phase_ok (w : world) (e : nat) (en : entry) : Prop :=
  match loads w !! e with
  | None =>
      (e_loaded en = true /\ e_inflight en = false /\ e_err en = None /\ is_Some (e_value en)) \/
      (e_loaded en = false /\ here w e en /\
       exists inf c, infs w !! e = Some inf /\ callers w !! i_owner inf = Some c /\ c_pc c = CSpawn e)
  | Some pc =>
      is_Some (infs w !! e) /\
      match pc with
      | LRun => e_loaded en = false /\ here w e en
      | LDelete => e_loaded en = false /\ e_err en = Some ErrCtx /\ here w e en
      | LClose => e_loaded en = false /\ published w e en
      | LClear | LInfClose | LEnd => e_loaded en = true /\ published w e en
      end
  end.

Definition fired (l : list sub) : nat := length (filter (fun s => sub_fired s = true) l).

Definition inf_ok (w : world) (i : inflight) : Prop :=
  Forall (fun s => sub_fired s = true -> sub_ctx s ∈ done_ctx w) (i_subs i) /\
  (i_closed i = false ->
     i_cancel i = None /\ i_numDone i = fired (i_subs i) /\ i_numDone i < length (i_subs i) /\
     i_first i ∈ (sub_ctx <$> i_subs i)) /\
  (i_closed i = true -> is_Some (i_cancel i)) /\
  (i_cancel i = Some Abandoned ->
     i_first i ∈ done_ctx w /\ Forall (fun s => sub_ctx s ∈ done_ctx w) (i_subs i)).

(** The entry [e] has the caller's key. *)
Definition refers (w : world) (c : caller) (e : nat) : Prop :=
  exists en, heap w !! e = Some en /\ e_key en = c_key c.

(** The caller [i] started the load of [e]. *)
Definition owns (w : world) (i : nat) (c : caller) (e : nat) : Prop :=
  exists inf, infs w !! e = Some inf /\ i_owner inf = i /\ i_first inf = c_ctx c.

Definition caller_ok (w : world) (i : nat) (c : caller) : Prop :=
  match c_pc c with
  | CGet | CLock => True
  | CFound e => refers w c e
  | CAdd e => refers w c e /\ is_Some (infs w !! e)
  | CSpawn e =>
      (exists en, heap w !! e = Some en /\ e_key en = c_key c /\ e_loaded en = false) /\
      owns w i c e /\ loads w !! e = None
  | CAwait e found => refers w c e /\ (found = false -> owns w i c e)
  | CGot e found value err =>
      (exists en, heap w !! e = Some en /\ e_key en = c_key c /\ e_loaded en = true /\
                  e_value en = value /\ e_err en = err) /\
      (found = false -> owns w i c e)
  | CDone RNoLoader => True
  | CDone ROwnCtx => c_ctx c ∈ done_ctx w
  | CDone (RRet value err found) =>
      (err = Some ErrCtx -> found = false) /\ (err = None -> is_Some value)
  end.

Record inv (w : world) : Prop := mkInv {
  inv_store : forall k e, store w !! k = Some e -> exists en, heap w !! e = Some en /\ e_key en = k;
  inv_entry : forall e en, heap w !! e = Some en -> phase_ok w e en;
  inv_load : forall e pc, loads w !! e = Some pc -> is_Some (heap w !! e);
  inv_inf : forall e i, infs w !! e = Some i -> is_Some (heap w !! e) /\ inf_ok w i;
  inv_caller : forall i c, callers w !! i = Some c -> caller_ok w i c
}.

(** ** How a step extends a world *)

(** Entries keep their key, loaded ones their value and error; loads keep their
    first caller; contexts stay done. *)
Record extends (w w' : world) : Prop := mkExt {
  ext_heap : forall e en, heap w !! e = Some en ->
    exists en', heap w' !! e = Some en' /\ e_key en' = e_key en /\
      (e_loaded en = true -> e_loaded en' = true /\ e_value en' = e_value en /\ e_err en' = e_err en);
  ext_infs : forall e i, infs w !! e = Some i ->
    exists i', infs w' !! e = Some i' /\ i_owner i' = i_owner i /\ i_first i' = i_first i;
  ext_done : done_ctx w ⊆ done_ctx w'
}.

Lemma extends_refl w : extends w w.
Proof. split; naive_solver. Qed.

Lemma extends_trans w1 w2 w3 : extends w1 w2 -> extends w2 w3 -> extends w1 w3.
Proof.
  intros [H1 I1 D1] [H2 I2 D2]. split; [| |set_solver].
  - intros e en He. destruct (H1 _ _ He) as (en1 & He1 & Hk1 & Hl1).
    destruct (H2 _ _ He1) as (en2 & He2 & Hk2 & Hl2).
    exists en2. split; [done|]. split; [congruence|]. intros Hl. naive_solver congruence.
  - intros e i Hi. destruct (I1 _ _ Hi) as (i1 & Hi1 & ? & ?).
    destruct (I2 _ _ Hi1) as (i2 & ? & ? & ?). exists i2. naive_solver congruence.
Qed.

Lemma refers_extends w w' c e : extends w w' -> refers w c e -> refers w' c e.
Proof.
  intros Hx (en & He & Hk). destruct (ext_heap _ _ Hx _ _ He) as (en' & ? & ? & _).
  exists en'. split; congruence.
Qed.

Lemma owns_extends w w' i c e : extends w w' -> owns w i c e -> owns w' i c e.
Proof.
  intros Hx (inf & Hi & ? & ?). destruct (ext_infs _ _ Hx _ _ Hi) as (inf' & ? & ? & ?).
  exists inf'. naive_solver congruence.
Qed.

Lemma infs_extends w w' e : extends w w' -> is_Some (infs w !! e) -> is_Some (infs w' !! e).
Proof. intros Hx [i Hi]. destruct (ext_infs _ _ Hx _ _ Hi) as (i' & ? & _). eauto. Qed.

Lemma inf_ok_extends w w' i : done_ctx w ⊆ done_ctx w' -> inf_ok w i -> inf_ok w' i.
Proof.
  intros Hd (Hf & Ho & Hcl & Ha). split; [|split; [done|split; [done|]]].
  - revert Hf. apply Forall_impl. simpl. intros s Hs Hfs. apply Hd; auto.
  - intros Hc. destruct (Ha Hc) as [? Hall]. split; [set_solver|].
    revert Hall. apply Forall_impl. set_solver.
Qed.

(** A caller that is not about to start a load is unaffected by an extension. *)
Lemma caller_ok_extends w w' i c :
  extends w w' -> (forall e, c_pc c = CSpawn e -> loads w' !! e = loads w !! e /\ heap w' !! e = heap w !! e) ->
  caller_ok w i c -> caller_ok w' i c.
Proof.
  intros Hx Hsp. unfold caller_ok. destruct (c_pc c) as [| |e|e|e|e found|e found v err|r] eqn:Hpc;
    try done.
  - apply refers_extends, Hx.
  - intros []. split; eauto using refers_extends, infs_extends.
  - destruct (Hsp _ eq_refl) as [-> ->]. intros (? & ? & ?). eauto using owns_extends.
  - intros []. split; eauto using refers_extends, owns_extends.
  - intros [(en & He & Hk & Hl & Hv & Her) Ho]. split; [|eauto using owns_extends].
    destruct (ext_heap _ _ Hx _ _ He) as (en' & ? & ? & Hl'). destruct (Hl' Hl) as (? & ? & ?).
    exists en'. naive_solver congruence.
  - destruct r; try done. apply (ext_done _ _ Hx).
Qed.

(** An entry whose load stays where it is, whose presence in the store does not
    change, and whose creator is where it was. *)
Lemma phase_ok_frame w w' e en :
  extends w w' -> loads w' !! e = loads w !! e -> (here w' e en <-> here w e en) ->
  (forall i c, callers w !! i = Some c -> c_pc c = CSpawn e ->
     exists c', callers w' !! i = Some c' /\ c_pc c' = CSpawn e) ->
  phase_ok w e en -> phase_ok w' e en.
Proof.
  intros Hx Hl Hh Hc. unfold phase_ok, published. rewrite Hl.
  destruct (loads w !! e) as [pc|].
  - intros [Hi Hp]. split; [eauto using infs_extends|]. destruct pc; naive_solver.
  - intros [?|(? & ? & inf & c & Hi & Hca & Hpc)]; [by left|right].
    destruct (ext_infs _ _ Hx _ _ Hi) as (inf' & Hi' & Ho & _).
    destruct (Hc _ _ Hca Hpc) as (c' & ? & ?).
    split; [done|]. split; [tauto|]. exists inf', c'. rewrite Ho. done.
Qed.

(** ** Preservation, one kind of step at a time *)

Lemma inv_new : inv (new_world : world).
Proof. split; intros; simplify_map_eq. Qed.

Lemma inv_set_pc w i c pc :
  inv w -> (forall c0 e, callers w !! i = Some c0 -> c_pc c0 <> CSpawn e) ->
  caller_ok w i (mkCaller (c_ctx c) (c_key c) pc) -> inv (set_pc i c pc w).
Proof.
  intros Hw Hsp Hok. assert (extends w (set_pc i c pc w)) as Hx by (split; naive_solver).
  split; simpl; [apply Hw| |apply Hw| |].
  - intros e en He. eapply phase_ok_frame; [done|done|done| |by apply Hw].
    intros j c0 Hj Hpc. exists c0. simpl. split; [|done].
    rewrite lookup_insert_ne; [done|]. intros ->. by eapply Hsp.
  - apply Hw.
  - intros j c0. rewrite lookup_insert_Some. intros [[<- <-]|[Hne Hj]].
    + eapply caller_ok_extends; [done|done|done].
    + eapply caller_ok_extends; [done|done|by apply Hw].
Qed.

Lemma inv_set_inf w e i i' :
  inv w -> infs w !! e = Some i -> i_owner i' = i_owner i -> i_first i' = i_first i ->
  inf_ok w i' -> inv (set_inf e i' w).
Proof.
  intros Hw Hi Ho Hf Hok. assert (extends w (set_inf e i' w)) as Hx.
  { split; simpl; [naive_solver| |done]. intros e0 i0 Hi0.
    destruct (decide (e0 = e)) as [->|]; simplify_map_eq; naive_solver. }
  split; simpl; [apply Hw| |apply Hw| |].
  - intros e0 en He. eapply phase_ok_frame; [done|done|done|eauto|by apply Hw].
  - intros e0 i0. rewrite lookup_insert_Some. intros [[<- <-]|[Hne Hj]].
    + split; [|done]. apply (inv_inf _ Hw _ _ Hi).
    + apply (inv_inf _ Hw _ _ Hj).
  - intros j c0 Hj. eapply caller_ok_extends; [done|done|by apply Hw].
Qed.

Lemma inv_add_done w x : inv w -> inv (add_done x w).
Proof.
  intros Hw. assert (extends w (add_done x w)) as Hx by (split; simpl; [naive_solver|naive_solver|set_solver]).
  split; simpl; [apply Hw| |apply Hw| |].
  - intros e0 en He. eapply phase_ok_frame; [done|done|done|eauto|by apply Hw].
  - intros e i Hi. destruct (inv_inf _ Hw _ _ Hi). split; [done|].
    eapply inf_ok_extends; [apply Hx|done].
  - intros j c0 Hj. eapply caller_ok_extends; [done|done|by apply Hw].
Qed.

(** A step of the goroutine that loads [e]: only its own entry changes, and only
    its own key can leave the store. *)
Definition advance (e : nat) (pc' : loadPC) (en' : entry) (s : gmap string nat) (w : world) : world :=
  set_load e pc' (set_store s (set_entry e en' w)).

Lemma inv_advance w e pc pc' en en' s :
  inv w -> loads w !! e = Some pc -> heap w !! e = Some en -> e_key en' = e_key en ->
  (e_loaded en = true -> e_loaded en' = true /\ e_value en' = e_value en /\ e_err en' = e_err en) ->
  s = store w \/ (here w e en /\ s = delete (e_key en) (store w)) ->
  phase_ok (advance e pc' en' s w) e en' ->
  extends w (advance e pc' en' s w) /\ inv (advance e pc' en' s w).
Proof.
  intros Hw Hl He Hk Hkeep Hs Hp. set (w' := advance e pc' en' s w) in *.
  assert (extends w w') as Hx.
  { split; simpl; [|naive_solver|done]. intros e0 en0 He0.
    destruct (decide (e0 = e)) as [->|]; simplify_map_eq; naive_solver. }
  assert (Hsub : forall k e0, s !! k = Some e0 -> store w !! k = Some e0).
  { intros k e0. destruct Hs as [->|[_ ->]]; [done|]. rewrite lookup_delete_Some. tauto. }
  split; [done|]. split; simpl.
  - intros k e0 Hk0. destruct (inv_store _ Hw _ _ (Hsub _ _ Hk0)) as (en0 & He0 & <-).
    destruct (ext_heap _ _ Hx _ _ He0) as (en1 & ? & ? & _). eauto.
  - intros e0 en0. rewrite lookup_insert_Some. intros [[<- <-]|[Hne He0]]; [done|].
    eapply phase_ok_frame; [exact Hx|by simpl; rewrite lookup_insert_ne| |eauto|by apply Hw].
    unfold here; simpl. split; [apply Hsub|]. intros Hh. destruct Hs as [->|[Hh' ->]]; [done|].
    rewrite lookup_delete_ne; [done|]. intros Hkk. unfold here in Hh'. congruence.
  - intros e0 pc0. rewrite !lookup_insert_Some. intros [[<- <-]|[Hne He0]].
    + rewrite lookup_insert_eq. eauto.
    + rewrite lookup_insert_ne by done. by eapply Hw.
  - intros e0 i Hi. destruct (inv_inf _ Hw _ _ Hi) as [Hsome ?]. split; [|done].
    destruct Hsome as [en0 He0]. destruct (ext_heap _ _ Hx _ _ He0) as (? & ? & _). eauto.
  - intros j c Hj. eapply caller_ok_extends; [exact Hx| |by apply Hw].
    intros e0 Hpc. simpl. cut (e <> e0); [intros; by rewrite !lookup_insert_ne|]. intros ->.
    pose proof (inv_caller _ Hw _ _ Hj) as Hc. unfold caller_ok in Hc. rewrite Hpc in Hc.
    destruct Hc as (_ & _ & ?). congruence.
Qed.

(** *** The bookkeeping of a load *)

Lemma fired_app l l' : fired (l ++ l') = fired l + fired l'.
Proof. unfold fired. rewrite list.filter_app, length_app. done. Qed.

Lemma fired_insert l j s :
  l !! j = Some s -> sub_fired s = false -> fired (<[j := mkSub (sub_ctx s) true]> l) = S (fired l).
Proof.
  intros Hj Hs. pose proof (lookup_lt_Some _ _ _ Hj).
  rewrite insert_take_drop by done. rewrite <- (take_drop_middle l j s Hj) at 3.
  rewrite !fired_app. change (fired (mkSub (sub_ctx s) true :: ?x)) with (S (fired x)).
  assert (fired (s :: drop (S j) l) = fired (drop (S j) l)) as ->.
  { unfold fired. rewrite filter_cons_False; [done|]. congruence. }
  lia.
Qed.

Lemma fired_all l : fired l = length l -> Forall (fun s => sub_fired s = true) l.
Proof.
  unfold fired. induction l as [|s l IH]; [done|]. destruct (sub_fired s) eqn:Hs.
  - rewrite filter_cons_True by done. simpl. intros [=]. constructor; auto.
  - rewrite filter_cons_False by congruence. pose proof (length_filter (fun s => sub_fired s = true) l).
    simpl. lia.
Qed.

Lemma is_done_true (w : world) x : is_done w x = true <-> x ∈ done_ctx w.
Proof. apply bool_decide_eq_true. Qed.

Lemma inf_add_ok w x i :
  inf_ok w i -> inf_ok w (inf_add w x i) /\
  i_owner (inf_add w x i) = i_owner i /\ i_first (inf_add w x i) = i_first i.
Proof.
  intros Hi. unfold inf_add. destruct (i_closed i) eqn:Hc; [done|]. destruct (is_done w x); [done|].
  split; [|done]. destruct Hi as (Hf & Ho & _ & _). destruct (Ho Hc) as (Hn & Hd & Hlt & Hin).
  split; simpl; [|split; [|split]].
  - apply Forall_app. split; [done|]. constructor; done.
  - intros _. rewrite fired_app, length_app. unfold fired at 2. simpl.
    split; [done|]. split; [lia|]. split; [lia|]. rewrite fmap_app. set_solver.
  - congruence.
  - congruence.
Qed.

Lemma newInflight_ok w o x :
  inf_ok w (newInflight w o x) /\ i_owner (newInflight w o x) = o /\ i_first (newInflight w o x) = x.
Proof.
  unfold newInflight, inf_add. simpl. destruct (is_done w x) eqn:Hd; simpl; (split; [|done]).
  - apply is_done_true in Hd. split; simpl; [constructor|]. split; [done|]. split; [eauto|]. intros _. split; [done|constructor].
  - split; simpl; [by constructor|]. split; [|done]. intros _. unfold fired; simpl.
    split; [done|]. split; [done|]. split; [lia|set_solver].
Qed.

Lemma inf_close_ok w i :
  inf_ok w i -> inf_ok w (inf_close i) /\
  i_owner (inf_close i) = i_owner i /\ i_first (inf_close i) = i_first i.
Proof.
  unfold inf_close. destruct (i_closed i); [done|]. intros _. split; [|done].
  split; simpl; [constructor|]. split; [done|]. split; [eauto|done].
Qed.

Lemma onSubDone_ok w j i i' :
  inf_ok w i -> onSubDone w j i = Some i' ->
  inf_ok w i' /\ i_owner i' = i_owner i /\ i_first i' = i_first i.
Proof.
  unfold onSubDone. destruct (i_subs i !! j) as [s|] eqn:Hj; [|done].
  destruct (sub_fired s) eqn:Hs; [done|]. destruct (is_done w (sub_ctx s)) eqn:Hd; [|done].
  cbn [orb negb]. apply is_done_true in Hd. intros (Hf & Ho & Hcl & Ha).
  set (subs := <[j:=_]> (i_subs i)).
  assert (Hf' : Forall (fun s => sub_fired s = true -> sub_ctx s ∈ done_ctx w) subs)
    by by apply Forall_insert.
  assert (Hctx : sub_ctx <$> subs = sub_ctx <$> i_subs i).
  { unfold subs. rewrite list_fmap_insert. simpl. apply list_insert_id. by rewrite list_lookup_fmap, Hj. }
  pose proof (length_insert (i_subs i) j (mkSub (sub_ctx s) true) : length subs = _) as Hlen.
  destruct (i_closed i) eqn:Hc.
  { intros [= <-]. split; [|done]. split; simpl; [done|]. split; [congruence|]. split; [done|].
    intros Hab. destruct (Ha Hab). split; [done|]. by apply Forall_insert. }
  destruct (Ho eq_refl) as (Hn & Hnd & Hlt & Hin).
  pose proof (fired_insert _ _ _ Hj Hs : fired subs = _) as Hfi.
  destruct (Nat.eqb_spec (S (i_numDone i)) (length subs)) as [Heq|Hne]; intros [= <-]; (split; [|done]).
  - assert (Hall : Forall (fun s => sub_ctx s ∈ done_ctx w) subs).
    { assert (fired subs = length subs) as Hfl by lia. apply fired_all in Hfl.
      rewrite list.Forall_forall in Hfl, Hf' |- *. auto. }
    split; simpl; [done|]. split; [done|]. split; [eauto|]. intros _. split; [|done].
    rewrite <- Hctx in Hin. apply list_elem_of_fmap in Hin as (s' & -> & Hs').
    rewrite list.Forall_forall in Hall. auto.
  - split; simpl; [done|]. split; [|split; congruence]. intros _. rewrite Hctx.
    split; [done|]. split; [lia|]. split; [lia|done].
Qed.

(** *** Creation of an entry *)

Lemma fresh_free w e : inv w -> heap w !! e = None ->
  loads w !! e = None /\ infs w !! e = None /\ (forall k, store w !! k <> Some e).
Proof.
  intros Hw He. repeat split.
  - destruct (loads w !! e) eqn:Hl; [|done]. destruct (inv_load _ Hw _ _ Hl). congruence.
  - destruct (infs w !! e) eqn:Hl; [|done]. destruct (inv_inf _ Hw _ _ Hl) as [[] _]. congruence.
  - intros k Hk. destruct (inv_store _ Hw _ _ Hk) as (? & ? & _). congruence.
Qed.

Lemma here_other w k e e0 en0 :
  store w !! k = None -> e0 <> e -> <[k := e]> (store w) !! e_key en0 = Some e0 <-> here w e0 en0.
Proof.
  intros Hk Hne. unfold here. destruct (decide (e_key en0 = k)) as [->|]; simplify_map_eq; naive_solver.
Qed.

Lemma spawning_entry w e x i c :
  inv w -> heap w !! e = None -> callers w !! i = Some c ->
  forall e0, c_pc c = CSpawn e0 -> loads w !! e0 = loads w !! e0 /\ <[e := x]> (heap w) !! e0 = heap w !! e0.
Proof.
  intros Hw He Hc e0 Hpc. pose proof (inv_caller _ Hw _ _ Hc) as Hok. unfold caller_ok in Hok.
  rewrite Hpc in Hok. destruct Hok as ((en & He0 & _) & _). split; [done|].
  apply lookup_insert_ne. congruence.
Qed.

Lemma inv_store_entry w k v e :
  inv w -> store w !! k = None -> heap w !! e = None ->
  let w' := set_store (<[k := e]> (store w)) (set_entry e (mkEntry k (Some v) None true false) w) in
  extends w w' /\ inv w'.
Proof.
  intros Hw Hk He w'. destruct (fresh_free _ _ Hw He) as (Hl & Hi & Hs).
  assert (extends w w') as Hx.
  { split; simpl; [|naive_solver|done]. intros e0 en0 He0.
    assert (e0 <> e) by congruence. simplify_map_eq. naive_solver. }
  split; [done|]. split; simpl.
  - intros k0 e0. rewrite lookup_insert_Some. intros [[<- <-]|[Hne Hk0]].
    + rewrite lookup_insert_eq. eauto.
    + destruct (inv_store _ Hw _ _ Hk0) as (en0 & He0 & <-).
      destruct (ext_heap _ _ Hx _ _ He0) as (? & ? & ? & _). eauto.
  - intros e0 en0. rewrite lookup_insert_Some. intros [[<- <-]|[Hne He0]].
    + unfold phase_ok; simpl. rewrite Hl. left. eauto.
    + eapply phase_ok_frame; [exact Hx|done|by apply here_other|eauto|by apply Hw].
  - intros e0 pc0 Hl0. assert (e0 <> e) by congruence. rewrite lookup_insert_ne by done. by eapply Hw.
  - intros e0 i Hi0. assert (e0 <> e) by congruence. rewrite lookup_insert_ne by done. by apply Hw.
  - intros j c Hj. eapply caller_ok_extends; [exact Hx|exact (spawning_entry w e _ j c Hw He Hj)|by apply Hw].
Qed.

Lemma inv_create w i c e :
  inv w -> callers w !! i = Some c -> c_pc c = CLock -> store w !! c_key c = None -> heap w !! e = None ->
  let w' := set_pc i c (CSpawn e) (set_store (<[c_key c := e]> (store w))
    (set_inf e (newInflight w i (c_ctx c)) (set_entry e (mkEntry (c_key c) None None false true) w))) in
  extends w w' /\ inv w'.
Proof.
  intros Hw Hc Hpc Hk He w'. destruct (fresh_free _ _ Hw He) as (Hl & Hi & Hs).
  destruct (newInflight_ok w i (c_ctx c)) as (Hinf & Hio & Hif).
  assert (extends w w') as Hx.
  { split; simpl; [| |done].
    - intros e0 en0 He0. assert (e0 <> e) by congruence. simplify_map_eq. naive_solver.
    - intros e0 i0 Hi0. assert (e0 <> e) by congruence. simplify_map_eq. naive_solver. }
  split; [done|]. split; simpl.
  - intros k0 e0. rewrite lookup_insert_Some. intros [[<- <-]|[Hne Hk0]].
    + rewrite lookup_insert_eq. eauto.
    + destruct (inv_store _ Hw _ _ Hk0) as (en0 & He0 & <-).
      destruct (ext_heap _ _ Hx _ _ He0) as (? & ? & ? & _). eauto.
  - intros e0 en0. rewrite lookup_insert_Some. intros [[<- <-]|[Hne He0]].
    + unfold phase_ok, here; simpl. rewrite Hl. right. rewrite !lookup_insert_eq.
      split; [done|]. split; [done|]. eexists _, _. rewrite Hio, lookup_insert_eq. done.
    + eapply phase_ok_frame; [exact Hx|done|by apply here_other| |by apply Hw].
      intros j c0 Hj Hpc0. exists c0. simpl. rewrite lookup_insert_ne; [done|]. intros ->. congruence.
  - intros e0 pc0 Hl0. assert (e0 <> e) by congruence. rewrite lookup_insert_ne by done. by eapply Hw.
  - intros e0 i0. rewrite lookup_insert_Some. intros [[<- <-]|[Hne Hi0]].
    + rewrite lookup_insert_eq. eauto.
    + rewrite lookup_insert_ne by done. by apply Hw.
  - intros j c0. rewrite lookup_insert_Some. intros [[<- <-]|[Hne Hj]].
    + unfold caller_ok, refers, owns; simpl. rewrite !lookup_insert_eq. naive_solver.
    + eapply caller_ok_extends; [exact Hx|exact (spawning_entry w e _ j c0 Hw He Hj)|by apply Hw].
Qed.

(** *** [go c.load(...)] *)

Lemma owner_unique w i j c c' e : owns w i c e -> owns w j c' e -> i = j.
Proof. intros (? & ? & ? & _) (? & ? & ? & _). congruence. Qed.

Lemma inv_spawn w i c e :
  inv w -> callers w !! i = Some c -> c_pc c = CSpawn e ->
  let w' := set_pc i c (CAwait e false) (set_load e LRun w) in
  extends w w' /\ inv w'.
Proof.
  intros Hw Hc Hpc w'. pose proof (inv_caller _ Hw _ _ Hc) as Hok. unfold caller_ok in Hok.
  rewrite Hpc in Hok. destruct Hok as ((en & He & Hk & Hul) & Hown & Hl).
  assert (extends w w') as Hx by (split; simpl; naive_solver).
  assert (Hsp : forall j c0 e0, callers w !! j = Some c0 -> c_pc c0 = CSpawn e0 -> j <> i -> e0 <> e).
  { intros j c0 e0 Hj Hpc0 Hne ->. pose proof (inv_caller _ Hw _ _ Hj) as Hok'. unfold caller_ok in Hok'.
    rewrite Hpc0 in Hok'. apply Hne. symmetry. eapply owner_unique; [exact Hown|apply Hok']. }
  split; [done|]. split; simpl; [apply Hw| | |apply Hw|].
  - intros e0 en0 He0. destruct (decide (e0 = e)) as [->|Hne].
    + pose proof (inv_entry _ Hw _ _ He0) as Hp. unfold phase_ok in *. rewrite Hl in Hp. simpl.
      rewrite lookup_insert_eq. replace en0 with en in * by congruence.
      destruct Hown as (inf & Hi & _). split; [eauto|].
      destruct Hp as [(? & _)|(? & ? & _)]; [congruence|done].
    + eapply phase_ok_frame; [exact Hx|by simpl; rewrite lookup_insert_ne|done| |by apply Hw].
      intros j c0 Hj Hpc0. exists c0. simpl. rewrite lookup_insert_ne; [done|]. intros <-. congruence.
  - intros e0 pc0. rewrite lookup_insert_Some. intros [[<- <-]|[? ?]]; [eauto|by eapply Hw].
  - intros j c0. rewrite lookup_insert_Some. intros [[<- <-]|[Hne Hj]].
    + split; simpl; [by exists en|]. intros _. eapply owns_extends; [exact Hx|exact Hown].
    + eapply caller_ok_extends; [exact Hx| |by apply Hw]. intros e0 Hpc0. simpl. split; [|done].
      apply lookup_insert_ne. intros ->. by eapply Hsp.
Qed.

(** *** Every step *)

(** Closes the goals about a caller whose control moves on. *)
Ltac moved := apply inv_set_pc; [done|intros; congruence|].

Lemma step_caller_inv w i fresh w' :
  inv w -> step_caller i fresh w = Some w' -> extends w w' /\ inv w'.
Proof.
  intros Hw. unfold step_caller. destruct (callers w !! i) as [c|] eqn:Hc; [|done].
  pose proof (inv_caller _ Hw _ _ Hc) as Hok. unfold caller_ok in Hok.
  assert (Hpcx : forall pc, extends w (set_pc i c pc w)) by (split; simpl; naive_solver).
  destruct (c_pc c) as [| |e|e|e|e found|e found v err|r] eqn:Hpc.
  - destruct (store w !! c_key c) as [e|] eqn:Hk; intros [= <-]; (split; [done|]); moved; [|done].
    by apply (inv_store _ Hw).
  - destruct (store w !! c_key c) as [e|] eqn:Hk.
    { intros [= <-]. split; [done|]. moved. by apply (inv_store _ Hw). }
    destruct (heap w !! fresh) eqn:He; [done|]. intros [= <-]. by apply inv_create.
  - destruct (heap w !! e) as [en|] eqn:He; [|done]. intros [= <-]. split; [done|]. moved.
    destruct (e_inflight en) eqn:Hi; [|done]. split; [done|].
    pose proof (inv_entry _ Hw _ _ He) as Hp. unfold phase_ok in Hp.
    destruct (loads w !! e); [apply Hp|]. destruct Hp as [(_ & ? & _)|(_ & _ & inf & _ & ? & _)]; [congruence|eauto].
  - destruct (infs w !! e) as [inf|] eqn:Hi; [|done]. intros [= <-]. destruct Hok as [Href _].
    destruct (inv_inf _ Hw _ _ Hi) as [_ Hio]. destruct (inf_add_ok w (c_ctx c) inf Hio) as (Hok' & Ho & Hf).
    assert (inv (set_inf e (inf_add w (c_ctx c) inf) w)) as Hw' by by eapply inv_set_inf.
    split; [|apply inv_set_pc; [done|simpl; intros; congruence|done]].
    split; simpl; [naive_solver| |done]. intros e0 i0 Hi0.
    destruct (decide (e0 = e)) as [->|]; simplify_map_eq; naive_solver.
  - intros [= <-]. by apply inv_spawn.
  - destruct Hok as [Href Hown]. destruct (heap w !! e) as [en|] eqn:He; [|done].
    destruct (e_loaded en) eqn:Hl.
    { intros [= <-]. split; [done|]. moved. split; [|done]. exists en.
      destruct Href as (en0 & ? & ?). naive_solver congruence. }
    destruct (is_done w (c_ctx c)) eqn:Hd; [|done]. intros [= <-]. split; [done|]. moved.
    by apply is_done_true in Hd.
  - intros [= <-]. split; [done|]. moved. destruct Hok as [(en & He & _ & Hl & <- & <-) Hown].
    pose proof (inv_entry _ Hw _ _ He) as Hp. unfold phase_ok, published in Hp. unfold resolve.
    assert (Hval : e_err en = None -> is_Some (e_value en)).
    { destruct (loads w !! e) as [[]|]; try naive_solver congruence. }
    destruct (e_err en) as [er|]; [|split; [done|auto]].
    destruct (is_done w (c_ctx c)) eqn:Hd; [by apply is_done_true in Hd|].
    destruct found; simpl; [|split; [done|congruence]].
    destruct er; simpl; [done|]. split; congruence.
  - done.
Qed.

Lemma set_entry_id (w : world) e en : heap w !! e = Some en -> set_entry e en w = w.
Proof. intros He. destruct w. unfold set_entry; simpl in *. by rewrite insert_id. Qed.

Lemma step_load_inv w e o w' :
  inv w -> step_load e o w = Some w' -> extends w w' /\ inv w'.
Proof.
  intros Hw. unfold step_load. destruct (loads w !! e) as [pc|] eqn:Hl; [|done].
  destruct (heap w !! e) as [en|] eqn:He; [|done].
  pose proof (inv_entry _ Hw _ _ He) as Hp. unfold phase_ok, published, here in Hp. rewrite Hl in Hp.
  destruct Hp as [Hinf Hp]. destruct pc.
  - intros [= <-]. destruct Hp as [Hu Hh].
    apply (inv_advance w e LRun (after_loader o) en (loader_end o en) (store w)); try done.
    + by destruct o.
    + congruence.
    + by left.
    + unfold phase_ok, published, here; simpl. rewrite lookup_insert_eq. split; [done|].
      destruct o as [v [[]|]| |]; simpl; naive_solver.
  - intros [= <-]. destruct Hp as (Hu & Her & Hh).
    destruct (inv_advance w e LDelete LClose en en (delete (e_key en) (store w))) as [Hx2 Hw2]; try done.
    + by right.
    + unfold phase_ok, published, here; simpl. rewrite lookup_insert_eq, lookup_delete_eq. naive_solver.
    + unfold advance in Hx2, Hw2. rewrite (set_entry_id w e en He) in Hx2, Hw2. done.
  - intros [= <-]. destruct Hp as (Hu & Hpub).
    eapply (inv_advance w e LClose LClear en _ (store w)); try done; [by left|].
    unfold phase_ok, published, here; simpl. rewrite lookup_insert_eq. done.
  - intros [= <-]. destruct Hp as (Hu & Hpub).
    eapply (inv_advance w e LClear LInfClose en _ (store w)); try done; [by left|].
    unfold phase_ok, published, here; simpl. rewrite lookup_insert_eq. done.
  - destruct (infs w !! e) as [inf|] eqn:Hi; [|done]. intros [= <-].
    destruct (inv_inf _ Hw _ _ Hi) as [_ Hio]. destruct (inf_close_ok w inf Hio) as (Hok' & Ho & Hf).
    assert (inv (set_inf e (inf_close inf) w)) as Hw' by by eapply inv_set_inf.
    assert (extends w (set_inf e (inf_close inf) w)) as Hx.
    { split; simpl; [naive_solver| |done]. intros e0 i0 Hi0.
      destruct (decide (e0 = e)) as [->|]; simplify_map_eq; naive_solver. }
    destruct (inv_advance (set_inf e (inf_close inf) w) e LInfClose LEnd en en (store w)) as [Hx2 Hw2]; try done.
    + by left.
    + unfold phase_ok, published, here; simpl. rewrite !lookup_insert_eq. naive_solver.
    + unfold advance in Hx2, Hw2. rewrite (set_entry_id (set_inf e _ w) e en He) in Hx2, Hw2.
      split; [eapply extends_trans; [exact Hx|exact Hx2]|exact Hw2].
  - done.
Qed.

Lemma exec_inv w ev w' : inv w -> exec ev w = Some w' -> extends w w' /\ inv w'.
Proof.
  intros Hw. destruct ev as [x|i x k nl|i fresh|e o|e j|k v fresh]; simpl.
  - intros [= <-]. split; [split; simpl; [naive_solver|naive_solver|set_solver]|by apply inv_add_done].
  - destruct (callers w !! i) eqn:Hc; [done|]. intros [= <-].
    split; [split; simpl; naive_solver|]. apply inv_set_pc; [done|congruence|]. by destruct nl.
  - by apply step_caller_inv.
  - by apply step_load_inv.
  - destruct (infs w !! e) as [inf|] eqn:Hi; [|done]. rewrite fmap_Some. intros (inf' & Hs & ->).
    destruct (inv_inf _ Hw _ _ Hi) as [_ Hio]. destruct (onSubDone_ok _ _ _ _ Hio Hs) as (? & ? & ?).
    split; [|by eapply inv_set_inf]. split; simpl; [naive_solver| |done]. intros e0 i0 Hi0.
    destruct (decide (e0 = e)) as [->|]; simplify_map_eq; naive_solver.
  - unfold step_store. destruct (store w !! k) eqn:Hk; [done|]. destruct (heap w !! fresh) eqn:He; [done|].
    intros [= <-]. by apply inv_store_entry.
Qed.

Lemma reachable_inv (w : world) : reachable w -> inv w.
Proof. induction 1 as [|w ev w' _ IH Hs]; [apply inv_new|]. by eapply exec_inv. Qed.

Lemma reachable_all evs (w w' : world) : reachable w -> exec_all evs w = Some w' -> reachable w'.
Proof.
  revert w. induction evs as [|ev evs IH]; simpl; intros w Hr; [by intros [= <-]|].
  rewrite bind_Some. intros (w1 & Hs & Hrest). eapply IH; [|exact Hrest]. by eapply reach_step.
Qed.

(** ** The store *)

Lemma exec_store w ev (w' : world) k e :
  inv w -> exec ev w = Some w' -> store w !! k = Some e ->
  store w' !! k = Some e \/
  exists o en, ev = ELoad e o /\ loads w !! e = Some LDelete /\ heap w !! e = Some en /\ e_key en = k /\
    e_err en = Some ErrCtx /\ store w' = delete k (store w).
Proof.
  intros Hw Hs Hk. destruct ev as [x|i x k0 nl|i fresh|e0 o|e0 j|k0 v fresh]; simpl in Hs.
  - simplify_eq. by left.
  - case_match; simplify_eq. by left.
  - left. unfold step_caller in Hs. repeat (case_match; simplify_eq; try done). simpl.
    by rewrite lookup_insert_ne by congruence.
  - unfold step_load in Hs. destruct (loads w !! e0) as [pc|] eqn:Hl; [|done].
    destruct (heap w !! e0) as [en|] eqn:He; [|done].
    pose proof (inv_entry _ Hw _ _ He) as Hp. unfold phase_ok, here in Hp. rewrite Hl in Hp.
    destruct pc; repeat case_match; simplify_eq; try (by left). simpl.
    destruct Hp as (_ & _ & Her & Hh). destruct (decide (k = e_key en)) as [->|].
    + right. simplify_eq. eauto 10.
    + left. by rewrite lookup_delete_ne.
  - case_match; [|done]. apply fmap_Some in Hs as (? & _ & ->). by left.
  - unfold step_store in Hs. repeat (case_match; simplify_eq). left. simpl.
    by rewrite lookup_insert_ne by congruence.
Qed.

(** The single-deleter invariant of [deleteEntry]: whatever step runs, an entry
    leaves the store only by the delete of its own load goroutine, after its
    loader has failed with a context error, and that delete removes nothing
    else; so deleting by key never evicts a newer entry. *)
Theorem single_deleter (w w' : world) ev k e :
  reachable w -> exec ev w = Some w' -> store w !! k = Some e ->
  store w' !! k = Some e \/
  exists o en, ev = ELoad e o /\ loads w !! e = Some LDelete /\ heap w !! e = Some en /\ e_key en = k /\
    e_err en = Some ErrCtx /\ store w' = delete k (store w).
Proof. intros Hr. apply exec_store. by apply reachable_inv. Qed.

(** A loaded entry of the store is not about to be deleted. *)
Lemma loaded_kept w ev (w' : world) k e en :
  inv w -> exec ev w = Some w' -> store w !! k = Some e -> heap w !! e = Some en -> e_loaded en = true ->
  store w' !! k = Some e.
Proof.
  intros Hw Hs Hk He Hl. destruct (exec_store _ _ _ _ _ Hw Hs Hk) as [|(o & en0 & -> & Hd & He0 & _)]; [done|].
  pose proof (inv_entry _ Hw _ _ He) as Hp. unfold phase_ok in Hp. rewrite Hd in Hp.
  destruct Hp as (_ & ? & _). congruence.
Qed.

(** What has been loaded stays: once the entry under a key is loaded, the key
    keeps that entry, with the same value and error, whatever steps follow. *)
Theorem loaded_entry_is_permanent evs (w w' : world) k e en :
  reachable w -> exec_all evs w = Some w' ->
  store w !! k = Some e -> heap w !! e = Some en -> e_loaded en = true ->
  store w' !! k = Some e /\
  exists en', heap w' !! e = Some en' /\ e_loaded en' = true /\ e_value en' = e_value en /\ e_err en' = e_err en.
Proof.
  intros Hr. apply reachable_inv in Hr. revert w en Hr. induction evs as [|ev evs IH]; simpl; intros w en Hw.
  { intros [= <-] Hk He Hl. eauto 10. }
  rewrite bind_Some. intros (w1 & Hs & Hrest) Hk He Hl.
  pose proof (loaded_kept _ _ _ _ _ _ Hw Hs Hk He Hl) as Hk1.
  destruct (exec_inv _ _ _ Hw Hs) as [Hx Hw1].
  destruct (ext_heap _ _ Hx _ _ He) as (en1 & He1 & _ & Hkeep). destruct (Hkeep Hl) as (Hl1 & Hv1 & Her1).
  destruct (IH w1 en1 Hw1 Hrest Hk1 He1 Hl1) as (Hk' & en' & ? & ? & ? & ?).
  split; [done|]. exists en'. naive_solver congruence.
Qed.

(** Cancellation of a shared load: its context is cancelled as abandoned only
    when the context of its first caller and every attached context are done; it
    is live exactly while the load is open; and once every attached context has
    reported, it has been cancelled. *)
Theorem abandoned_only_when_all_gone (w : world) e inf :
  reachable w -> infs w !! e = Some inf ->
  (i_cancel inf = Some Abandoned ->
     i_first inf ∈ done_ctx w /\ Forall (fun s => sub_ctx s ∈ done_ctx w) (i_subs inf)) /\
  (i_cancel inf = None <-> i_closed inf = false) /\
  (Forall (fun s => sub_fired s = true) (i_subs inf) -> i_cancel inf <> None).
Proof.
  intros Hr Hi. destruct (inv_inf _ (reachable_inv _ Hr) _ _ Hi) as (_ & _ & Hopen & Hclosed & Hab).
  assert (Hiff : i_cancel inf = None <-> i_closed inf = false).
  { destruct (i_closed inf); [|naive_solver]. split; [|done]. intros Hn. destruct (Hclosed eq_refl). congruence. }
  split; [done|]. split; [done|]. intros Hall Hn. apply Hiff in Hn.
  destruct (Hopen Hn) as (_ & Hnd & Hlt & _).
  assert (fired (i_subs inf) = length (i_subs inf)); [|lia].
  unfold fired. clear -Hall. induction Hall as [|s l Hs _ IH]; [done|].
  rewrite filter_cons_True by done. simpl. by rewrite IH.
Qed.

(** C7. No foreign cancellation: a caller whose own context is live and whose load
    failed with a context error retries when another caller started that load,
    and finds the failed entry gone from the store; it returns the error only
    when it started the load itself, which then was not abandoned. *)
Theorem no_foreign_cancellation (w w' : world) i fresh c e found v :
  reachable w -> callers w !! i = Some c -> c_pc c = CGot e found v (Some ErrCtx) ->
  c_ctx c ∉ done_ctx w -> step_caller i fresh w = Some w' ->
  store w !! c_key c <> Some e /\
  if found then callers w' !! i = Some (mkCaller (c_ctx c) (c_key c) CGet)
  else callers w' !! i = Some (mkCaller (c_ctx c) (c_key c) (CDone (RRet v (Some ErrCtx) false))) /\
       exists inf, infs w !! e = Some inf /\ i_owner inf = i /\ i_cancel inf <> Some Abandoned.
Proof.
  intros Hr Hc Hpc Hlive Hs. pose proof (reachable_inv _ Hr) as Hw.
  pose proof (inv_caller _ Hw _ _ Hc) as Hok. unfold caller_ok in Hok. rewrite Hpc in Hok.
  destruct Hok as [(en & He & Hk & Hl & Hv & Her) Hown].
  unfold step_caller, resolve in Hs. rewrite Hc, Hpc in Hs.
  assert (is_done w (c_ctx c) = false) as Hd by by apply bool_decide_eq_false. rewrite Hd in Hs.
  pose proof (inv_entry _ Hw _ _ He) as Hp. unfold phase_ok, published, here in Hp. split.
  - rewrite <- Hk. destruct (loads w !! e) as [[]|]; naive_solver congruence.
  - destruct found; simplify_eq/=; rewrite lookup_insert_eq; [done|]. split; [done|].
    destruct (Hown eq_refl) as (inf & Hi & Ho & Hf). exists inf. split; [done|]. split; [done|].
    intros Hab. destruct (inv_inf _ Hw _ _ Hi) as (_ & _ & _ & _ & Hgone).
    destruct (Hgone Hab). congruence.
Qed.

(** ** Progress *)

(** The load of [e] is over within [n] of its own steps, whatever the loader does. *)
Definition finishes_within (n e : nat) (o : outcome) (w : world) : Prop :=
  exists evs w', length evs <= n /\ Forall (eq (ELoad e o)) evs /\ exec_all evs w = Some w' /\
    callers w' = callers w /\ exists en, heap w' !! e = Some en /\ e_loaded en = true.

Lemma finishes_step n e o w w1 :
  exec (ELoad e o) w = Some w1 -> callers w1 = callers w ->
  finishes_within n e o w1 -> finishes_within (S n) e o w.
Proof.
  intros Hs Hc (evs & w' & Hn & Hall & Hex & Hc' & Hl). exists (ELoad e o :: evs), w'.
  split; [simpl; lia|]. split; [by constructor|]. split; [by cbn; cbn in Hs; rewrite Hs|].
  split; [congruence|done].
Qed.

Lemma finishes_mono m n e o w : m <= n -> finishes_within m e o w -> finishes_within n e o w.
Proof. intros Hmn (evs & w' & Hn & Hrest). exists evs, w'. split; [lia|exact Hrest]. Qed.

Lemma finishes_close e o w en :
  loads w !! e = Some LClose -> heap w !! e = Some en -> finishes_within 1 e o w.
Proof.
  intros Hl He. eapply finishes_step; [by simpl; unfold step_load; rewrite Hl, He|done|].
  eexists [], _. split; [done|]. split; [constructor|]. split; [done|]. split; [done|].
  eexists. simpl. rewrite lookup_insert_eq. done.
Qed.

Lemma finishes_delete e o w en :
  loads w !! e = Some LDelete -> heap w !! e = Some en -> finishes_within 2 e o w.
Proof.
  intros Hl He. eapply finishes_step; [by simpl; unfold step_load; rewrite Hl, He|done|].
  apply (finishes_close _ _ _ en); [apply lookup_insert_eq|done].
Qed.

Lemma finishes_run e o w en :
  loads w !! e = Some LRun -> heap w !! e = Some en -> finishes_within 3 e o w.
Proof.
  intros Hl He. eapply finishes_step; [by simpl; unfold step_load; rewrite Hl, He|done|].
  assert (Hcase : after_loader o = LDelete \/ after_loader o = LClose)
    by (destruct o as [v [[]|]| |]; simpl; auto).
  destruct Hcase as [Ha|Ha]; rewrite Ha.
  - eapply finishes_delete; [apply lookup_insert_eq|apply lookup_insert_eq].
  - eapply (finishes_mono 1); [lia|].
    eapply finishes_close; [apply lookup_insert_eq|apply lookup_insert_eq].
Qed.

Lemma finishes_loaded e o w en :
  heap w !! e = Some en -> e_loaded en = true -> finishes_within 0 e o w.
Proof. intros He Hl. exists [], w. split; [done|]. split; [constructor|]. eauto 10. Qed.

(** C40. No caller is left waiting for good: in every reachable state, a caller of
    [Load] that has not returned can take its next step, or awaits an entry whose
    load the goroutine of that load completes in at most three steps, whatever its
    loader does, possibly after the caller that created the entry has started it. *)
Theorem Load_progress (w : world) i c :
  reachable w -> callers w !! i = Some c -> (forall r, c_pc c <> CDone r) ->
  (exists fresh w', step_caller i fresh w = Some w') \/
  (exists e found, c_pc c = CAwait e found /\ forall o,
     finishes_within 3 e o w \/
     exists j w1, step_caller j 0 w = Some w1 /\ callers w1 !! i = Some c /\ finishes_within 3 e o w1).
Proof.
  intros Hr Hc Hnd. pose proof (reachable_inv _ Hr) as Hw.
  pose proof (inv_caller _ Hw _ _ Hc) as Hok. unfold caller_ok in Hok.
  unfold step_caller at 1. rewrite Hc.
  destruct (c_pc c) as [| |e|e|e|e found|e found v err|r] eqn:Hpc.
  - left. exists 0. destruct (store w !! c_key c); eauto.
  - left. exists (fresh (dom (heap w))). destruct (store w !! c_key c); [eauto|].
    pose proof (is_fresh (dom (heap w))) as Hf. apply not_elem_of_dom in Hf. rewrite Hf. eauto.
  - left. exists 0. destruct Hok as (en & -> & _). eauto.
  - left. exists 0. destruct Hok as [_ [inf ->]]. eauto.
  - left. exists 0. eauto.
  - right. exists e, found. split; [done|]. intros o. destruct Hok as [(en & He & _) _].
    pose proof (inv_entry _ Hw _ _ He) as Hp. unfold phase_ok in Hp.
    destruct (loads w !! e) as [pc|] eqn:Hl.
    + left. destruct Hp as [_ Hp]. destruct pc; [by eapply finishes_run| | |..].
      * eapply (finishes_mono 2); [lia|by eapply finishes_delete].
      * eapply (finishes_mono 1); [lia|by eapply finishes_close].
      * eapply (finishes_mono 0); [lia|]. eapply finishes_loaded; [done|apply Hp].
      * eapply (finishes_mono 0); [lia|]. eapply finishes_loaded; [done|apply Hp].
      * eapply (finishes_mono 0); [lia|]. eapply finishes_loaded; [done|apply Hp].
    + destruct Hp as [(Hld & _)|(_ & _ & inf & c' & Hi & Hj & Hpj)].
      { left. eapply (finishes_mono 0); [lia|]. by eapply finishes_loaded. }
      right. exists (i_owner inf). eexists. split; [unfold step_caller; rewrite Hj, Hpj; done|].
      assert (i_owner inf <> i) by congruence. simpl. rewrite lookup_insert_ne by done. split; [done|].
      eapply finishes_run; [apply lookup_insert_eq|exact He].
  - left. exists 0. eauto.
  - by destruct (Hnd r).
Qed.

End Facts.

(** ** A run with two callers of one key *)

Definition world_after (evs : list (@event nat)) : @world nat := default new_world (exec_all evs new_world).

(** Caller 1 starts a load under context 1, caller 2 joins it under context 2. *)
Definition two_callers : list (@event nat) :=
  [ECall 1 1 "k" false; ECaller 1 0; ECaller 1 0; ECaller 1 0;
   ECall 2 2 "k" false; ECaller 2 1; ECaller 2 1; ECaller 2 1].

(** The loader fails with a context error, and caller 2 has seen the failure. *)
Definition failed_load : list (@event nat) :=
  two_callers ++ [ELoad 0 (OReturn 0 (Some ErrCtx)); ELoad 0 OPanic; ELoad 0 OPanic; ECaller 2 1].

Lemma world_after_reachable evs (w : @world nat) : exec_all evs new_world = Some w -> reachable w.
Proof. apply reachable_all. constructor. Qed.

(** Reachability of the state after a concrete run. *)
Ltac run_reaches evs :=
  apply (world_after_reachable evs); vm_compute; reflexivity.

Lemma single_deleter_witness :
  let w := world_after (two_callers ++ [ELoad 0 (OReturn 0 (Some ErrCtx))]) in
  exists w', exec (ELoad 0 OPanic) w = Some w' /\
    (store w' !! "k" = Some 0 \/
     exists o en, @ELoad nat 0 OPanic = ELoad 0 o /\ loads w !! 0 = Some LDelete /\ heap w !! 0 = Some en /\
       e_key en = "k" /\ e_err en = Some ErrCtx /\ store w' = delete "k" (store w)).
Proof.
  intros w. eexists. split; [vm_compute; reflexivity|].
  apply (single_deleter w _ (ELoad 0 OPanic) "k" 0).
  - run_reaches (two_callers ++ [@ELoad nat 0 (OReturn 0 (Some ErrCtx))]).
  - vm_compute; reflexivity.
  - vm_compute; reflexivity.
Defined.

Lemma loaded_entry_is_permanent_witness :
  let w := world_after (two_callers ++ [ELoad 0 (OReturn 7 None); ELoad 0 OPanic]) in
  let w' := world_after (two_callers ++ [ELoad 0 (OReturn 7 None); ELoad 0 OPanic; ECancel 1; ELoad 0 OPanic]) in
  store w' !! "k" = Some 0 /\
  exists en', heap w' !! 0 = Some en' /\ e_loaded en' = true /\ e_value en' = Some 7 /\ e_err en' = None.
Proof.
  intros w w'.
  apply (loaded_entry_is_permanent [ECancel 1; ELoad 0 OPanic] w w' "k" 0 (mkEntry "k" (Some 7) None true true)).
  - run_reaches (two_callers ++ [@ELoad nat 0 (OReturn 7 None); ELoad 0 OPanic]).
  - vm_compute; reflexivity.
  - vm_compute; reflexivity.
  - vm_compute; reflexivity.
  - reflexivity.
Defined.

Lemma abandoned_only_when_all_gone_witness :
  let w := world_after (two_callers ++ [ECancel 1; ECancel 2; ESub 0 0; ESub 0 1]) in
  exists inf, infs w !! 0 = Some inf /\ i_cancel inf = Some Abandoned /\
    Forall (fun s => sub_ctx s ∈ done_ctx w) (i_subs inf).
Proof.
  intros w. eexists. split; [vm_compute; reflexivity|]. split; [reflexivity|].
  eapply (abandoned_only_when_all_gone w 0).
  - run_reaches (two_callers ++ [@ECancel nat 1; ECancel 2; ESub 0 0; ESub 0 1]).
  - vm_compute; reflexivity.
  - reflexivity.
Defined.

Lemma no_foreign_cancellation_witness :
  let w := world_after failed_load in
  let w' := world_after (failed_load ++ [ECaller 2 1]) in
  store w !! "k" <> Some 0 /\ callers w' !! 2 = Some (mkCaller 2 "k" CGet).
Proof.
  intros w w'.
  apply (no_foreign_cancellation w w' 2 1 (mkCaller 2 "k" (CGot 0 true (Some 0) (Some ErrCtx))) 0 true (Some 0)).
  - run_reaches failed_load.
  - vm_compute; reflexivity.
  - reflexivity.
  - apply (bool_decide_eq_false_1 (2 ∈ done_ctx w)). vm_compute; reflexivity.
  - vm_compute; reflexivity.
Defined.

Lemma Load_progress_witness :
  let w := world_after two_callers in
  (exists fresh w', step_caller 2 fresh w = Some w') \/
  (exists e found, CAwait 0 true = CAwait (V := nat) e found /\ forall o,
     finishes_within 3 e o w \/
     exists j w1, step_caller j 0 w = Some w1 /\ callers w1 !! 2 = Some (mkCaller 2 "k" (CAwait 0 true)) /\
       finishes_within 3 e o w1).
Proof.
  intros w. apply (Load_progress w 2 (mkCaller 2 "k" (CAwait 0 true))).
  - run_reaches two_callers.
  - vm_compute; reflexivity.
  - intros r. discriminate.
Defined.
