(* ===== verification/Effects.v ===== *)
(** * State and errors

    The monad of code that threads a mutable object and can fail: a computation
    takes the state and returns the state with a value, an error, or [Stuck] when
    the fuel of a loop has run out (which is never a behaviour of the code).  The
    state is returned with an error too: what was changed before the failure stays
    changed, as in Go.

    [preserves R m] is the rule for invariants and histories: whatever [m] does,
    the states before and after it are related by [R]. *)

From S2P Require Import Prelude.

Inductive out (E A : Type) : Type :=
  | Ret (a : A)
  | Fail (e : E)
  | Stuck.
Arguments Ret {E A} _.
Arguments Fail {E A} _.
Arguments Stuck {E A}.

Definition Eff (S E A : Type) : Type := S -> S * out E A.

Section Monad.
Context {S E : Type}.

Definition eret {A} (a : A) : Eff S E A := fun s => (s, Ret a).
Definition efail {A} (e : E) : Eff S E A := fun s => (s, Fail e).
Definition estuck {A} : Eff S E A := fun s => (s, Stuck).
Definition eget : Eff S E S := fun s => (s, Ret s).
Definition eset (f : S -> S) : Eff S E unit := fun s => (f s, Ret tt).

Definition ebind {A B} (m : Eff S E A) (k : A -> Eff S E B) : Eff S E B := fun s =>
  match m s with
  | (s, Ret a) => k a s
  | (s, Fail e) => (s, Fail e)
  | (s, Stuck) => (s, Stuck)
  end.

(** [err] becomes [h err]: how callers wrap errors. *)
Definition ewrap {A} (h : E -> E) (m : Eff S E A) : Eff S E A := fun s =>
  match m s with
  | (s, Fail e) => (s, Fail (h e))
  | r => r
  end.

(** Go on with the error as a value. *)
Definition etry {A} (m : Eff S E A) : Eff S E (A + E) := fun s =>
  match m s with
  | (s, Ret a) => (s, Ret (inl a))
  | (s, Fail e) => (s, Ret (inr e))
  | (s, Stuck) => (s, Stuck)
  end.

(** A loop over a list, whose body stops it by failing. *)
Fixpoint eiter {A} (f : A -> Eff S E unit) (l : list A) : Eff S E unit :=
  match l with
  | [] => eret tt
  | x :: l => ebind (f x) (fun _ => eiter f l)
  end.

Fixpoint emap {A B} (f : A -> Eff S E B) (l : list A) : Eff S E (list B) :=
  match l with
  | [] => eret []
  | x :: l => ebind (f x) (fun y => ebind (emap f l) (fun ys => eret (y :: ys)))
  end.

(** ** Histories *)

Section Preserves.
Variable R : S -> S -> Prop.

Definition preserves {A} (m : Eff S E A) : Prop := forall s, R s (fst (m s)).

Context `{!PreOrder R}.

Lemma preserves_ret {A} (a : A) : preserves (eret a).
Proof. intros s. simpl. reflexivity. Qed.

Lemma preserves_fail {A} (e : E) : preserves (efail (A := A) e).
Proof. intros s. simpl. reflexivity. Qed.

Lemma preserves_stuck {A} : preserves (estuck (A := A)).
Proof. intros s. simpl. reflexivity. Qed.

Lemma preserves_get : preserves eget.
Proof. intros s. simpl. reflexivity. Qed.

Lemma preserves_bind {A B} (m : Eff S E A) (k : A -> Eff S E B) :
  preserves m -> (forall a, preserves (k a)) -> preserves (ebind m k).
Proof.
  intros Hm Hk s. unfold ebind. specialize (Hm s). destruct (m s) as [s1 [a|e|]]; simpl in *; [|done..].
  etransitivity; [exact Hm|apply Hk].
Qed.

Lemma preserves_wrap {A} h (m : Eff S E A) : preserves m -> preserves (ewrap h m).
Proof. intros Hm s. unfold ewrap. specialize (Hm s). by destruct (m s) as [s1 [a|e|]]. Qed.

Lemma preserves_try {A} (m : Eff S E A) : preserves m -> preserves (etry m).
Proof. intros Hm s. unfold etry. specialize (Hm s). by destruct (m s) as [s1 [a|e|]]. Qed.

Lemma preserves_iter {A} (f : A -> Eff S E unit) l : (forall x, preserves (f x)) -> preserves (eiter f l).
Proof.
  intros Hf. induction l as [|x l IH]; simpl; [apply preserves_ret|]. by apply preserves_bind.
Qed.

Lemma preserves_map {A B} (f : A -> Eff S E B) l : (forall x, preserves (f x)) -> preserves (emap f l).
Proof.
  intros Hf. induction l as [|x l IH]; simpl; [apply preserves_ret|].
  apply preserves_bind; [done|]. intros y. apply preserves_bind; [done|]. intros ys. apply preserves_ret.
Qed.

End Preserves.

(** ** Postconditions *)

(** From a state that satisfies [P], [m] is not stuck, and a value it returns
    satisfies [Q] with the state after it. *)
Definition achieves {A} (P : S -> Prop) (m : Eff S E A) (Q : A -> S -> Prop) : Prop :=
  forall s, P s -> match m s with
                   | (s', Ret a) => Q a s'
                   | (s', Fail _) => True
                   | (_, Stuck) => False
                   end.

Lemma achieves_bind {A B} (P : S -> Prop) Q R (m : Eff S E A) (k : A -> Eff S E B) :
  achieves P m Q -> (forall a, achieves (Q a) (k a) R) -> achieves P (ebind m k) R.
Proof.
  intros Hm Hk s Hs. unfold ebind. specialize (Hm s Hs). destruct (m s) as [s1 [a|e|]]; [|done..]. by apply Hk.
Qed.

Lemma ebind_Ret {A B} (m : Eff S E A) (k : A -> Eff S E B) s s' b :
  ebind m k s = (s', Ret b) -> exists s1 x, m s = (s1, Ret x) /\ k x s1 = (s', Ret b).
Proof. unfold ebind. destruct (m s) as [s1 [x|e|]]; intros E0; simplify_eq. by exists s1, x. Qed.

End Monad.

Arguments preserves {S E} R {A} m.

Declare Scope eff_scope.
Delimit Scope eff_scope with eff.
Notation "x <- m ;; k" := (ebind m (fun x => k))
  (at level 100, m at next level, right associativity) : eff_scope.
Notation "m ;;; k" := (ebind m (fun _ => k))
  (at level 100, right associativity) : eff_scope.

Create HintDb eff.
#[export] Hint Resolve preserves_ret preserves_fail preserves_stuck preserves_get preserves_wrap preserves_try
  preserves_iter preserves_map : eff.
