(* ===== verification/RuneFacts.v ===== *)
(** * Runes of a string: facts

    Decoding looks at the bytes of one rune only, so the runes of a well-formed
    text are those of its pieces, in order. *)

From S2P Require Import Prelude GoStrings Token GoText Reference.

Lemma decode_take s r w t :
  s <> "" -> DecodeRuneInString s = (r, w) -> EncodeRune r = stake w s ->
  DecodeRuneInString (stake w s +:+ t) = (r, w).
Proof.
  intros Hs Hd He. destruct s as [|c0 s1]; [done|].
  assert (Herr : (r, w) <> (RuneError, 1)).
  { intros [= -> ->]. vm_compute in He. by destruct s1. }
  unfold DecodeRuneInString in Hd. cbv zeta in Hd.
  repeat case_hyp Hd; simplify_eq; try done; unfold DecodeRuneInString; simpl;
    repeat match goal with H : _ = _ |- _ => rewrite H end; done.
Qed.

#[local] Opaque DecodeRuneInString.

Lemma runes_fuel_enough n m s : String.length s <= n -> String.length s <= m -> runes_fuel n s = runes_fuel m s.
Proof.
  revert m s. induction n as [|n IH]; intros [|m] [|c s] Hn Hm; simpl in *; try done; try lia.
  destruct (DecodeRuneInString (String c s)) as [r w] eqn:Hd.
  destruct (decode_spec (String c s) r w ltac:(done) Hd) as (_ & Hw & _).
  f_equal. apply IH; rewrite length_sdrop; simpl in *; lia.
Qed.

Lemma runes_unfold s r w :
  s <> "" -> DecodeRuneInString s = (r, w) -> runes s = r :: runes (sdrop w s).
Proof.
  intros Hs Hd. destruct (decode_spec _ r w Hs Hd) as (_ & Hw & _). unfold runes.
  destruct s as [|c s]; [done|]. cbn [String.length runes_fuel]. rewrite Hd. f_equal.
  apply runes_fuel_enough; rewrite length_sdrop; simpl in *; lia.
Qed.

(** Induction on a well-formed text, one rune at a time. *)
Lemma utf8_ind (P : string -> Prop) :
  P "" ->
  (forall r p s, p <> "" -> EncodeRune r = p -> (forall t, DecodeRuneInString (p +:+ t) = (r, String.length p)) ->
     ((r < 128)%Z -> exists c, p = String c "" /\ byteZ c = r) -> ((128 <= r)%Z -> sall high p = true) ->
     utf8 s = true -> P s -> P (p +:+ s)) ->
  forall s, utf8 s = true -> P s.
Proof.
  intros H0 HS s. unfold utf8. remember (String.length s) as n eqn:Hn.
  assert (Hle : String.length s <= n) by lia. clear Hn. revert s Hle.
  assert (Hfuel : forall n m s, String.length s <= n -> String.length s <= m -> utf8_fuel n s = utf8_fuel m s).
  { clear. induction n as [|n IH]; intros [|m] [|c s] Hn Hm; simpl in *; try done; try lia.
    destruct (DecodeRuneInString (String c s)) as [r w] eqn:Hd.
    destruct (decode_spec (String c s) r w ltac:(done) Hd) as (_ & Hw & _).
    f_equal. apply IH; rewrite length_sdrop; simpl in *; lia. }
  induction n as [|n IH]; intros s Hle Hu; destruct s as [|c s']; try done.
  cbn [utf8_fuel] in Hu. set (s := String c s') in *.
  destruct (DecodeRuneInString s) as [r w] eqn:Hd. apply andb_true_iff in Hu as [He Hu].
  apply String.eqb_eq in He. destruct (decode_spec s r w ltac:(done) Hd) as (Hr & Hw & Hlow).
  assert (Hlen : String.length (sdrop w s) <= n) by (rewrite length_sdrop; lia).
  assert (Hp : String.length (stake w s) = w) by (rewrite length_stake; lia).
  rewrite <- (stake_sdrop w s). apply (HS r).
  - intros E. rewrite E in Hp. simpl in Hp. lia.
  - done.
  - intros t. rewrite Hp. by apply decode_take.
  - intros Hlt. destruct (Hlow Hlt) as (-> & c0 & s0 & Hs & <-). exists c0. rewrite Hs. by destruct s0.
  - intros Hge. by apply (decode_high s r w).
  - unfold utf8. rewrite (Hfuel _ n) by done. exact Hu.
  - by apply IH.
Qed.

Lemma runes_cons p r s :
  p <> "" -> (forall t, DecodeRuneInString (p +:+ t) = (r, String.length p)) -> runes (p +:+ s) = r :: runes s.
Proof.
  intros Hp Hd. rewrite (runes_unfold _ r (String.length p)); [|by destruct p|apply Hd].
  f_equal. f_equal. apply sdrop_sapp.
Qed.

Lemma runes_app s t : utf8 s = true -> runes (s +:+ t) = runes s ++ runes t.
Proof.
  revert s. apply (utf8_ind (fun s => runes (s +:+ t) = runes s ++ runes t)); [done|].
  intros r p s Hp _ Hd _ _ _ IH. rewrite <- sapp_assoc, !(runes_cons p r) by done. by rewrite IH.
Qed.

Lemma string_of_runes_runes s : utf8 s = true -> string_of_runes (runes s) = s.
Proof.
  revert s. apply (utf8_ind (fun s => string_of_runes (runes s) = s)); [done|].
  intros r p s Hp He Hd _ _ _ IH. rewrite (runes_cons p r) by done.
  change (r :: runes s) with ([r] ++ runes s). rewrite string_of_runes_app, string_of_rune, IH. by rewrite He.
Qed.

(** A text of ASCII bytes. *)
Definition ascii_text (s : string) : bool := sall (fun c => (byteZ c <? 128)%Z) s.

Fixpoint codes (s : string) : list Z :=
  match s with "" => [] | String c s => byteZ c :: codes s end.

#[local] Transparent DecodeRuneInString.

Lemma decode_ascii c t : (byteZ c < 128)%Z -> DecodeRuneInString (String c t) = (byteZ c, 1).
Proof. intros Hc. unfold DecodeRuneInString, RuneSelf. by rewrite (proj2 (Z.ltb_lt _ _) Hc). Qed.

Lemma runes_ascii s t : ascii_text s = true -> runes (s +:+ t) = codes s ++ runes t.
Proof.
  induction s as [|c s IH]; [done|]. unfold ascii_text. simpl. intros [Hc Hs]%andb_true_iff. to_prop.
  change (String c s +:+ t) with (String c "" +:+ (s +:+ t)).
  rewrite (runes_cons _ (byteZ c)); [by rewrite IH|done|]. intros t'. by apply decode_ascii.
Qed.

Lemma EncodeRune_ascii c : (byteZ c < 128)%Z -> EncodeRune (byteZ c) = String c "".
Proof.
  intros Hc. unfold EncodeRune. rewrite (proj2 (Z.ltb_lt _ _) Hc). unfold bytes_string, byte_string, byteZ. simpl.
  rewrite N2Z.id, ascii_N_embedding. done.
Qed.

Lemma string_of_codes s : ascii_text s = true -> string_of_runes (codes s) = s.
Proof.
  induction s as [|c s IH]; [done|]. unfold ascii_text. simpl. intros [Hc Hs]%andb_true_iff. to_prop.
  change (byteZ c :: codes s) with ([byteZ c] ++ codes s).
  rewrite string_of_runes_app, string_of_rune, IH by done. by rewrite EncodeRune_ascii.
Qed.
