(* ===== verification/ShellLex.v ===== *)
(** * Expansion of shell words

    A translation of [util/shell/lex.go]: quotes, escapes, [$x], [${x...}] and
    [$(...)] in a word.  The scanner ([text/scanner]) is the list of runes that
    are left: a leading byte order mark is skipped and a byte that is not UTF-8
    is the replacement rune, as in Go.  The callback that evaluates a command
    acts on a world [W] of its own, which is threaded through.  [rawQuotes], the
    only field of the word that changes (inside [$(...)]), is an argument of the
    function that reads it.

    Two loops and the two routines that expand variables call each other; they
    take fuel, and [ShellFacts.v] proves that what [process] gives is enough. *)

From stdpp Require Import gmap.
From S2P Require Import Prelude GoStrings Token GoText KeyValue Effects.

Open Scope eff_scope.

(** ** Package [unicode]

    Below 128 the classes are written out; above, the tables of the Unicode
    database are a parameter. *)

Class UnicodeTables : Type := { wide_letter : Z -> bool; wide_digit : Z -> bool }.

Definition IsSpace (r : Z) : bool :=
  in_range 9 13 r || existsb (Z.eqb r) [32; 133; 160; 5760; 8232; 8233; 8239; 8287; 12288]%Z ||
  in_range 8192 8202 r.

Definition IsDigit `{UnicodeTables} (r : Z) : bool :=
  if (r <? 128)%Z then in_range 48 57 r else wide_digit r.

Definition IsLetter `{UnicodeTables} (r : Z) : bool :=
  if (r <? 128)%Z then in_range 97 122 r || in_range 65 90 r else wide_letter r.

(** ** [text/scanner] *)

Definition scan_init (word : string) : list Z :=
  match runes word with
  | r :: rs => if (r =? 65279)%Z then rs else r :: rs
  | [] => []
  end.

(** ** [wordsStruct] *)

Record wordsStruct : Type := mkWords { wd_word : string; wd_words : list string; wd_inWord : bool }.

Definition no_words : wordsStruct := mkWords "" [] false.

Definition addRawString (str : string) (w : wordsStruct) : wordsStruct :=
  mkWords (wd_word w +:+ str) (wd_words w) true.

Definition addRawChar (ch : Z) (w : wordsStruct) : wordsStruct := addRawString (EncodeRune ch) w.

Definition addChar (ch : Z) (w : wordsStruct) : wordsStruct :=
  if IsSpace ch && wd_inWord w then
    if negb (String.eqb (wd_word w) "") then mkWords "" (wd_words w ++ [wd_word w]) false else w
  else if negb (IsSpace ch) then addRawChar ch w
  else w.

Definition addString (str : string) (w : wordsStruct) : wordsStruct := fold_left (fun w ch => addChar ch w) (runes str) w.

Definition getWords (w : wordsStruct) : list string :=
  if negb (String.eqb (wd_word w) "") then wd_words w ++ [wd_word w] else wd_words w.

(** ** [shellWord] *)

Definition isSpecialParam (r : Z) : bool := existsb (Z.eqb r) [64; 42; 35; 63; 45; 36; 33; 48]%Z.

Abbreviation rDollar := 36%Z.
Abbreviation rLParen := 40%Z.
Abbreviation rRParen := 41%Z.
Abbreviation rLBrace := 123%Z.
Abbreviation rRBrace := 125%Z.
Abbreviation rColon := 58%Z.
Abbreviation rQuestion := 63%Z.
Abbreviation rPercent := 37%Z.
Abbreviation rPlus := 43%Z.
Abbreviation rMinus := 45%Z.
Abbreviation rUnderscore := 95%Z.

Section Shell.
Context {W : Type} `{UnicodeTables} `{Unicode}.

(** The options of [Lex] with the variables of one call. *)
Record shellWord : Type := mkShellWord {
  envs : gmap string string;
  shellOutEnvs : gset string;
  shellOut : option (string -> Eff W string string);
  escapeToken : Z;
  rawQuotes : bool;
  rawEscapes : bool;
  skipUnsetEnv : bool;
  skipProcessQuotes : bool
}.

(** The runes that are left and the callback's world. *)
Definition St : Type := (list Z * W)%type.
Definition Sh (A : Type) : Type := Eff St string A.

(** [scanner.Peek]; [None] is [scanner.EOF]. *)
Definition Peek : Sh (option Z) := fun s => (s, Ret (head (fst s))).

Definition Next : Sh (option Z) := fun s => ((tail (fst s), snd s), Ret (head (fst s))).

Definition lift {A} (m : Eff W string A) : Sh A := fun s =>
  let '(w, r) := m (snd s) in ((fst s, w), r).

Definition ErrNoShellOut : string := "shelling out is not available".

Definition callShellOut (sw : shellWord) (cmd : string) : Sh string :=
  match shellOut sw with
  | Some f => lift (f cmd)
  | None => efail ErrNoShellOut
  end.

(** [None] is [errEnvNotFound]; [EqualEnvKeys] is equality on Unix. *)
Definition getEnv (sw : shellWord) (name : string) : Sh (option string) :=
  match envs sw !! name with
  | Some v => eret (Some v)
  | None =>
      match shellOut sw with
      | Some f =>
          if decide (name ∈ shellOutEnvs sw) then v <- lift (f ("echo $" +:+ name)) ;; eret (Some v)
          else eret None
      | None => eret None
      end
  end.

(** The digits, or the letters, digits and underscores, at the head of the input. *)
Fixpoint take_while (p : Z -> bool) (rs : list Z) : list Z :=
  match rs with
  | r :: rs => if p r then r :: take_while p rs else []
  | [] => []
  end.

Fixpoint drop_while (p : Z -> bool) (rs : list Z) : list Z :=
  match rs with
  | r :: rs' => if p r then drop_while p rs' else rs
  | [] => []
  end.

Definition isNameRune (r : Z) : bool := IsLetter r || IsDigit r || (r =? rUnderscore)%Z.

Definition processName : Sh string := fun s =>
  match fst s with
  | [] => (s, Ret "")
  | r :: rs =>
      if IsDigit r then
        ((drop_while IsDigit (fst s), snd s), Ret (string_of_runes (take_while IsDigit (fst s))))
      else if isSpecialParam r then ((rs, snd s), Ret (EncodeRune r))
      else ((drop_while isNameRune (fst s), snd s), Ret (string_of_runes (take_while isNameRune (fst s))))
  end.

Definition errSingleQuote : string := "unexpected end of statement while looking for matching single-quote".
Definition errDoubleQuote : string := "unexpected end of statement while looking for matching double-quote".

Definition raw (b : bool) (ch : Z) : string := if b then EncodeRune ch else "".

(** The loop of [processSingleQuote], on the input after the opening quote. *)
Fixpoint single_quote_loop (rawQ : bool) (result : string) (rs : list Z) : list Z * out string string :=
  match rs with
  | [] => ([], Fail errSingleQuote)
  | r :: rs =>
      if (r =? rSQuote)%Z then (rs, Ret (result +:+ raw rawQ r))
      else single_quote_loop rawQ (result +:+ EncodeRune r) rs
  end.

Definition processSingleQuote (rawQ : bool) : Sh string := fun s =>
  match fst s with
  | [] => (s, Fail errSingleQuote)
  | q :: rs =>
      let '(rs, r) := single_quote_loop rawQ (raw rawQ q) rs in ((rs, snd s), r)
  end.

(** What may be escaped between double quotes. *)
Definition escapable (sw : shellWord) (r : Z) : bool :=
  (r =? rDQuote)%Z || (r =? rDollar)%Z || (r =? escapeToken sw)%Z.

(** The loop of [processDoubleQuoteIgnoringDollar]. *)
Fixpoint double_quote_raw_loop (sw : shellWord) (result : string) (rs : list Z) : list Z * out string string :=
  match rs with
  | [] => ([], Fail errDoubleQuote)
  | r :: rs =>
      if (r =? rDQuote)%Z then (rs, Ret (result +:+ EncodeRune r))
      else if (r =? escapeToken sw)%Z then
        let result := result +:+ EncodeRune r in
        match rs with
        | [] => ([], Fail errDoubleQuote)
        | c :: rs' =>
            if escapable sw c then double_quote_raw_loop sw (result +:+ EncodeRune c) rs'
            else double_quote_raw_loop sw (result +:+ EncodeRune r) rs
        end
      else double_quote_raw_loop sw (result +:+ EncodeRune r) rs
  end.

Definition processDoubleQuoteIgnoringDollar (sw : shellWord) : Sh string := fun s =>
  let '(rs, r) := double_quote_raw_loop sw (EncodeRune rDQuote) (fst s) in ((rs, snd s), r).

(** The loop of [processDollarShellOut]; [rawQuotes] is set in it. *)
Fixpoint shell_out_loop (fuel : nat) (sw : shellWord) (seenParentheses : nat) (escaped : bool) (result : string)
    : Sh string :=
  match fuel with
  | O => estuck
  | S f =>
      ch <- Peek ;;
      match ch with
      | None => efail "syntax error: missing ')'"
      | Some r =>
          if escaped then Next ;;; shell_out_loop f sw seenParentheses false (result +:+ EncodeRune r)
          else if (r =? rBackslash)%Z then Next ;;; shell_out_loop f sw seenParentheses true result
          else if (r =? rRParen)%Z then
            Next ;;;
            let seenParentheses := seenParentheses - 1 in
            if seenParentheses =? 0 then callShellOut sw result
            else shell_out_loop f sw seenParentheses false (result +:+ EncodeRune r)
          else if (r =? rLParen)%Z then
            Next ;;; shell_out_loop f sw (S seenParentheses) false (result +:+ EncodeRune r)
          else if (r =? rSQuote)%Z then
            q <- processSingleQuote true ;;
            shell_out_loop f sw seenParentheses false (result +:+ q)
          else if (r =? rDQuote)%Z then
            Next ;;;
            q <- processDoubleQuoteIgnoringDollar sw ;;
            shell_out_loop f sw seenParentheses false (result +:+ q)
          else Next ;;; shell_out_loop f sw seenParentheses false (result +:+ EncodeRune r)
      end
  end.

(** Enough for what is left of the input: every iteration reads a rune. *)
Definition processDollarShellOut (sw : shellWord) : Sh string := fun s =>
  shell_out_loop (S (length (fst s))) sw 1 false "" s.

Definition errMissingBrace : string := "syntax error: missing '}'".

(** [processStopOn('}')] and what its callers do with its error. *)
Definition closing (m : Sh (string * list string)) : Sh string := fun s =>
  match m s with
  | (s, Ret (word, _)) => (s, Ret word)
  | (s, Fail e) => (s, Fail (match fst s with [] => errMissingBrace | _ => e end))
  | (s, Stuck) => (s, Stuck)
  end.

Definition braced (s : string) : string := "${" +:+ s +:+ "}".

(** [${name}] *)
Definition subst_plain (sw : shellWord) (name : string) (v : option string) : out string string :=
  match v with
  | Some v => Ret v
  | None => Ret (if skipUnsetEnv sw then braced name else "")
  end.

Definition message (word default : string) : string := if String.eqb word "" then default else word.

(** [${name?word}] *)
Definition subst_required (sw : shellWord) (name word : string) (v : option string) : out string string :=
  match v with
  | Some v => Ret v
  | None =>
      if skipUnsetEnv sw then Ret (braced (name +:+ "?" +:+ word))
      else Fail (name +:+ ": " +:+ message word "is not allowed to be unset")
  end.

(** [${name%word}] and [${name#word}] *)
Definition subst_suffix (sw : shellWord) (name word : string) (v : option string) : out string string :=
  if bool_decide (v = None) && skipUnsetEnv sw then Ret (braced (name +:+ "%" +:+ word))
  else let newValue := default "" v in Ret (TrimSuffix newValue word).

Definition subst_prefix (sw : shellWord) (name word : string) (v : option string) : out string string :=
  if bool_decide (v = None) && skipUnsetEnv sw then Ret (braced (name +:+ "#" +:+ word))
  else let newValue := default "" v in Ret (TrimPrefix newValue word).

(** [${name:+word}], [${name:-word}] and [${name:?word}] *)
Definition subst_modifier (sw : shellWord) (name : string) (modifier : Z) (word : string) (v : option string)
    : out string string :=
  let newValue := default "" v in
  let unset := bool_decide (v = None) && skipUnsetEnv sw in
  let kept := braced (name +:+ ":" +:+ EncodeRune modifier +:+ word) in
  if (modifier =? rPlus)%Z then
    Ret (if unset then kept else if String.eqb newValue "" then newValue else word)
  else if (modifier =? rMinus)%Z then
    Ret (if unset then kept else if String.eqb newValue "" then word else newValue)
  else if (modifier =? rQuestion)%Z then
    if bool_decide (v = None) then
      if skipUnsetEnv sw then Ret kept
      else Fail (name +:+ ": " +:+ message word "is not allowed to be unset")
    else if String.eqb newValue "" then Fail (name +:+ ": " +:+ message word "is not allowed to be empty")
    else Ret newValue
  else Fail ("unsupported modifier (" +:+ EncodeRune modifier +:+ ") in substitution").

Definition done {A} (o : out string A) : Sh A := fun s => (s, o).

(** [modifier] is -1 at the end of the input. *)
Definition rune_or_eof (r : option Z) : Z := default (-1)%Z r.

(** Which routine a character of a word starts. *)
Inductive special : Type := SDollar | SSingle | SDouble | SNone.

Definition charFuncMapping (sw : shellWord) (r : Z) : special :=
  if (r =? rDollar)%Z then SDollar
  else if skipProcessQuotes sw then SNone
  else if (r =? rSQuote)%Z then SSingle
  else if (r =? rDQuote)%Z then SDouble
  else SNone.

Definition stopped (stopChar : option Z) (result : string) (words : wordsStruct) : Sh (string * list string) :=
  match stopChar with
  | None => eret (result, getWords words)
  | Some c => efail ("unexpected end of statement while looking for matching " +:+ EncodeRune c)
  end.

(** The loop of [processStopOn], that of [processDoubleQuote], and the expansion
    of variables. *)
Fixpoint stop_on_loop (fuel : nat) (sw : shellWord) (stopChar : option Z) (result : string) (words : wordsStruct)
    {struct fuel} : Sh (string * list string) :=
  match fuel with
  | O => estuck
  | S f =>
      ch <- Peek ;;
      match ch with
      | None => stopped stopChar result words
      | Some r =>
          if bool_decide (stopChar = Some r) then Next ;;; eret (result, getWords words)
          else
            match charFuncMapping sw r with
            | SDollar =>
                tmp <- processDollar f sw ;;
                stop_on_loop f sw stopChar (result +:+ tmp) (addString tmp words)
            | SSingle =>
                tmp <- processSingleQuote (rawQuotes sw) ;;
                stop_on_loop f sw stopChar (result +:+ tmp) (addRawString tmp words)
            | SDouble =>
                Next ;;;
                tmp <- double_quote_loop f sw (raw (rawQuotes sw) rDQuote) ;;
                stop_on_loop f sw stopChar (result +:+ tmp) (addRawString tmp words)
            | SNone =>
                Next ;;;
                if (r =? escapeToken sw)%Z then
                  let words := if rawEscapes sw then addRawChar r words else words in
                  let result := result +:+ raw (rawEscapes sw) r in
                  c <- Next ;;
                  match c with
                  | None => stopped stopChar result words
                  | Some c => stop_on_loop f sw stopChar (result +:+ EncodeRune c) (addRawChar c words)
                  end
                else stop_on_loop f sw stopChar (result +:+ EncodeRune r) (addChar r words)
            end
      end
  end

with double_quote_loop (fuel : nat) (sw : shellWord) (result : string) {struct fuel} : Sh string :=
  match fuel with
  | O => estuck
  | S f =>
      ch <- Peek ;;
      match ch with
      | None => efail errDoubleQuote
      | Some r =>
          if (r =? rDQuote)%Z then Next ;;; eret (result +:+ raw (rawQuotes sw) r)
          else if (r =? rDollar)%Z then
            value <- processDollar f sw ;; double_quote_loop f sw (result +:+ value)
          else
            Next ;;;
            if (r =? escapeToken sw)%Z then
              let result := result +:+ raw (rawEscapes sw) r in
              c <- Peek ;;
              match c with
              | None => double_quote_loop f sw result
              | Some c =>
                  if escapable sw c then Next ;;; double_quote_loop f sw (result +:+ EncodeRune c)
                  else double_quote_loop f sw (result +:+ EncodeRune r)
              end
            else double_quote_loop f sw (result +:+ EncodeRune r)
      end
  end

with processDollar (fuel : nat) (sw : shellWord) {struct fuel} : Sh string :=
  match fuel with
  | O => estuck
  | S f =>
      Next ;;;
      peek <- Peek ;;
      if bool_decide (peek = Some rLParen) then Next ;;; processDollarShellOut sw
      else if bool_decide (peek = Some rLBrace) then Next ;;; processDollarCurlyBracket f sw
      else
        name <- processName ;;
        if String.eqb name "" then eret "$"
        else
          v <- getEnv sw name ;;
          eret (match v with
                | Some v => v
                | None => if skipUnsetEnv sw then "$" +:+ name else ""
                end)
  end

with processDollarCurlyBracket (fuel : nat) (sw : shellWord) {struct fuel} : Sh string :=
  match fuel with
  | O => estuck
  | S f =>
      peek <- Peek ;;
      match peek with
      | None => efail errMissingBrace
      | Some r =>
          if (r =? rLBrace)%Z || (r =? rRBrace)%Z || (r =? rColon)%Z then
            efail "syntax error: bad substitution"
          else
            name <- processName ;;
            ch <- Next ;;
            let ch := rune_or_eof ch in
            let word := closing (stop_on_loop f sw (Some rRBrace) "" no_words) in
            if (ch =? rRBrace)%Z then v <- getEnv sw name ;; done (subst_plain sw name v)
            else if (ch =? rQuestion)%Z then
              word <- word ;; v <- getEnv sw name ;; done (subst_required sw name word v)
            else if (ch =? rPercent)%Z then
              word <- word ;; v <- getEnv sw name ;; done (subst_suffix sw name word v)
            else if (ch =? rHash)%Z then
              word <- word ;; v <- getEnv sw name ;; done (subst_prefix sw name word v)
            else if (ch =? rColon)%Z then
              modifier <- Next ;;
              word <- word ;; v <- getEnv sw name ;;
              done (subst_modifier sw name (rune_or_eof modifier) word v)
            else efail "missing ':' in substitution"
      end
  end.

(** ** [process] *)

Definition word_fuel (rs : list Z) : nat := S (length rs).

Definition process (sw : shellWord) (word : string) (w : W) : W * out string (string * list string) :=
  let rs := scan_init word in
  let '(s, r) := stop_on_loop (word_fuel rs) sw None "" no_words (rs, w) in
  (snd s, match r with
          | Fail e => Fail ("failed to process " +:+ Quote word +:+ ": " +:+ e)
          | r => r
          end).

(** [NewLex(escapeToken)] with a callback. *)
Definition new_word (escape : Z) (out : option (string -> Eff W string string)) (env : gmap string string)
    (outEnvs : gset string) : shellWord :=
  mkShellWord env outEnvs out escape false false false false.

Definition ProcessWordWithMap (sw : shellWord) (word : string) (w : W) : W * out string string :=
  let '(w, r) := process sw word w in
  (w, match r with Ret (s, _) => Ret s | Fail e => Fail e | Stuck => Stuck end).

Definition ProcessWordsWithMap (sw : shellWord) (word : string) (w : W) : W * out string (list string) :=
  let '(w, r) := process sw word w in
  (w, match r with Ret (_, l) => Ret l | Fail e => Fail e | Stuck => Stuck end).

End Shell.

(** [BuildEnvs] and [BuildShellOutEnvs] *)
Definition BuildEnvs (env : list string) : gmap string string :=
  fold_left (fun m e => let '(k, v, ok) := Cut e equals in if ok : bool then <[k := v]> m else <[e := ""]> m) env ∅.

Definition BuildShellOutEnvs (l : list string) : gset string := fold_left (fun m s => {[s]} ∪ m) l ∅.

(** ** Looking ahead

    [requiresShellOutOrCmdInvalid] of [earthfile2llb/interpreter.go]: expand the
    word without variables, with a callback that only remembers it was called. *)

Definition ShellOutEnvs : gset string := {["HOME"; "PATH"]}.

Definition probe (cmd : string) : Eff bool string string := fun _ => (true, Ret "").

Definition requiresShellOutOrCmdInvalid `{UnicodeTables} `{Unicode} (s : string) : bool :=
  match ProcessWordWithMap (new_word rBackslash (Some probe) ∅ ShellOutEnvs) s false with
  | (required, Ret _) => required
  | _ => true
  end.
