(* ===== verification/ShellFacts.v ===== *)
(** * Shell words: facts

    The expansion of every word ends; quoting a text protects it from expansion;
    the forms of [${...}] follow the table of the shell; and the probe that
    decides whether a word may be expanded ahead of time is sound. *)

From stdpp Require Import gmap.
From S2P Require Import Prelude GoStrings Token GoText Reference KeyValue Effects ShellLex.

Open Scope eff_scope.

Section Facts.
Context {W : Type} `{UnicodeTables} `{Unicode}.
Abbreviation Sh := (@Sh W).
Abbreviation St := (@St W).
Abbreviation shellWord := (@shellWord W).

(** ** Reading forward *)

(** From [s], [m] is not stuck, and when it returns it has read [k] runes or more. *)
Definition reads (k : nat) {A} (m : Sh A) (s : St) : Prop :=
  match m s with
  | (s', Ret _) => length (fst s') + k <= length (fst s)
  | (_, Fail _) => True
  | (_, Stuck) => False
  end.

Lemma reads_bind {A B} j k n (m : Sh A) (f : A -> Sh B) s :
  reads j m s ->
  (forall a s', m s = (s', Ret a) -> length (fst s') + j <= length (fst s) -> reads k (f a) s') ->
  n <= j + k -> reads n (ebind m f) s.
Proof.
  unfold reads, ebind. intros Hm Hf Hn. destruct (m s) as [s1 [a|e|]] eqn:E; [|done..].
  specialize (Hf a s1 eq_refl Hm). destruct (f a s1) as [s2 [b|e|]]; [lia|done..].
Qed.

Lemma reads_weaken {A} j k (m : Sh A) s : k <= j -> reads j m s -> reads k m s.
Proof. unfold reads. destruct (m s) as [s1 [a|e|]]; [lia|done..]. Qed.

Lemma reads_ret {A} (a : A) s : reads 0 (eret a) s.
Proof. unfold reads. simpl. lia. Qed.

Lemma reads_fail {A} k e s : reads k (efail (A := A) e) s.
Proof. done. Qed.

Lemma reads_done {A} (o : out string A) s : o <> Stuck -> reads 0 (done o) s.
Proof. unfold reads, done. destruct o; simpl; [lia|done..]. Qed.

Lemma reads_Peek s : reads 0 Peek s.
Proof. unfold reads, Peek. simpl. lia. Qed.

Lemma reads_Next r rs w : reads 1 Next (r :: rs, w).
Proof. unfold reads. simpl. lia. Qed.

Lemma reads_Next0 s : reads 0 Next s.
Proof. unfold reads. destruct s as [[|r rs] w]; simpl; lia. Qed.

(** The callback always answers. *)
Definition answers (sw : shellWord) : Prop :=
  forall f cmd w, shellOut sw = Some f -> snd (f cmd w) <> Stuck.

Section Reads.
Variable sw : shellWord.
Hypothesis Hsw : answers sw.

Lemma reads_lift f cmd s : shellOut sw = Some f -> reads 0 (lift (f cmd)) s.
Proof.
  intros Hf. unfold reads, lift. pose proof (Hsw f cmd (snd s) Hf) as Hans.
  destruct (f cmd (snd s)) as [w [v|e|]]; simpl in *; [lia|done..].
Qed.

Lemma reads_callShellOut cmd s : reads 0 (callShellOut sw cmd) s.
Proof.
  unfold callShellOut. destruct (shellOut sw) eqn:E; [by apply reads_lift|apply reads_fail].
Qed.

Lemma reads_getEnv name s : reads 0 (getEnv sw name) s.
Proof.
  unfold getEnv. destruct (envs sw !! name); [apply reads_ret|].
  destruct (shellOut sw) eqn:E; [|apply reads_ret]. case_decide; [|apply reads_ret].
  eapply reads_bind; [by apply reads_lift|intros; apply reads_ret|lia].
Qed.

Lemma drop_while_length p rs : length (drop_while p rs) <= length rs.
Proof. induction rs as [|r rs IH]; simpl; [done|]. destruct (p r); simpl; lia. Qed.

Lemma reads_processName s : reads 0 processName s.
Proof.
  unfold reads, processName. destruct s as [[|r rs] w]; cbn [fst snd]; [lia|].
  pose proof (drop_while_length IsDigit (r :: rs)). pose proof (drop_while_length isNameRune (r :: rs)).
  destruct (IsDigit r); [cbn [fst]; lia|]. destruct (isSpecialParam r); cbn [fst]; [simpl; lia|lia].
Qed.

Lemma single_quote_length rawQ rs : forall result,
  let '(rs', r) := single_quote_loop rawQ result rs in r <> Stuck /\ length rs' <= length rs.
Proof.
  induction rs as [|r rs IH]; intros result; simpl; [done|]. case_test; [split; [done|lia]|].
  specialize (IH (result +:+ EncodeRune r)). destruct (single_quote_loop _ _ rs) as [rs' o]. intuition lia.
Qed.

Lemma reads_single rawQ r rs w : reads 1 (processSingleQuote rawQ) (r :: rs, w).
Proof.
  unfold reads, processSingleQuote. simpl. pose proof (single_quote_length rawQ rs (raw rawQ r)) as Hl.
  destruct (single_quote_loop _ _ rs) as [rs' [v|e|]]; simpl; [lia|done|by destruct Hl].
Qed.

Lemma double_quote_raw_length n : forall rs result, length rs <= n ->
  let '(rs', r) := double_quote_raw_loop sw result rs in r <> Stuck /\ length rs' <= length rs.
Proof.
  induction n as [|n IH]; intros [|r rs] result Hn; simpl in *; try done; [lia|].
  assert (Hrec : forall rs0 result, length rs0 <= length rs ->
    let '(rs', r) := double_quote_raw_loop sw result rs0 in r <> Stuck /\ length rs' <= S (length rs)).
  { intros rs0 res0 Hl. specialize (IH rs0 res0 ltac:(lia)). destruct (double_quote_raw_loop _ _ rs0). intuition lia. }
  repeat case_test; try (apply Hrec; lia); [split; [done|lia]|].
  destruct rs as [|c rs]; [by split; [|simpl; lia]|]. case_test; apply Hrec; simpl; lia.
Qed.

Lemma reads_double_raw s : reads 0 (processDoubleQuoteIgnoringDollar sw) s.
Proof.
  unfold reads, processDoubleQuoteIgnoringDollar.
  pose proof (double_quote_raw_length _ (fst s) (EncodeRune rDQuote) (le_n _)) as Hl.
  destruct (double_quote_raw_loop _ _ _) as [rs' [v|e|]]; simpl; [lia|done|by destruct Hl].
Qed.

Lemma reads_peek_bind {A} k (f : option Z -> Sh A) s :
  reads k (f (head (fst s))) s -> reads k (ebind Peek f) s.
Proof. done. Qed.

Lemma reads_next_bind {A} k (f : option Z -> Sh A) r rs w :
  reads k (f (Some r)) (rs, w) -> reads (S k) (ebind Next f) (r :: rs, w).
Proof.
  unfold reads, ebind. simpl. destruct (f (Some r) (rs, w)) as [s' [a|e|]]; simpl; [lia|done..].
Qed.

Lemma shell_out_reads fuel : forall seen escaped result s,
  length (fst s) < fuel -> reads 0 (shell_out_loop fuel sw seen escaped result) s.
Proof using Hsw.
  induction fuel as [|f IH]; intros seen escaped result [rs w] Hf; [simpl in *; lia|].
  simpl shell_out_loop. apply reads_peek_bind. destruct rs as [|r rs]; [done|]. simpl in Hf.
  assert (Hgo : forall seen escaped result, reads 0 (Next ;;; shell_out_loop f sw seen escaped result) (r :: rs, w)).
  { intros. apply (reads_weaken 1); [lia|]. apply reads_next_bind. apply IH. simpl. lia. }
  cbn [fst head]. repeat (case_test; try apply Hgo).
  - apply (reads_weaken 1); [lia|]. apply reads_next_bind, reads_callShellOut.
  - eapply (reads_bind 1 0); [apply reads_single| |lia]. intros q s' _ Hl. apply IH. simpl in *. lia.
  - apply (reads_weaken 1); [lia|]. apply reads_next_bind.
    eapply (reads_bind 0 0); [apply reads_double_raw| |lia]. intros q s' _ Hl. apply IH. simpl in *. lia.
Qed.

Lemma closing_reads k m s : reads k m s -> reads k (closing m) s.
Proof. unfold reads, closing. by destruct (m s) as [s' [[word words]|e|]]. Qed.

Lemma subst_answers name word v modifier :
  subst_plain sw name v <> Stuck /\ subst_required sw name word v <> Stuck /\
  subst_suffix sw name word v <> Stuck /\ subst_prefix sw name word v <> Stuck /\
  subst_modifier sw name modifier word v <> Stuck.
Proof.
  unfold subst_plain, subst_required, subst_suffix, subst_prefix, subst_modifier.
  split_and!; repeat case_goal; done.
Qed.

(** What the four routines need, by their fuel. *)
Record routines_read (f : nat) : Prop := {
  rr_stop : forall stop result words s, length (fst s) < f -> reads 0 (stop_on_loop f sw stop result words) s;
  rr_quote : forall result s, length (fst s) < f -> reads 0 (double_quote_loop f sw result) s;
  rr_dollar : forall r rs w, length rs < f -> reads 1 (processDollar f sw) (r :: rs, w);
  rr_curly : forall s, length (fst s) < f -> reads 0 (processDollarCurlyBracket f sw) s
}.

Lemma stopped_reads stop result words s : reads 0 (stopped stop result words) s.
Proof. destruct stop; [done|apply reads_ret]. Qed.

Lemma stop_step f stop result words s :
  routines_read f -> length (fst s) < S f -> reads 0 (stop_on_loop (S f) sw stop result words) s.
Proof.
  intros [Hstop Hquote Hdollar _] Hf. destruct s as [[|r rs] w]; [apply stopped_reads|]. simpl in Hf.
  simpl stop_on_loop. apply reads_peek_bind. cbn [fst head]. case_test.
  { apply (reads_weaken 1); [lia|]. apply reads_next_bind, reads_ret. }
  destruct (charFuncMapping sw r).
  - eapply (reads_bind 1 0); [apply Hdollar; lia| |lia]. intros tmp s' _ Hl. apply Hstop. simpl in *. lia.
  - eapply (reads_bind 1 0); [apply reads_single| |lia]. intros tmp s' _ Hl. apply Hstop. simpl in *. lia.
  - apply (reads_weaken 1); [lia|]. apply reads_next_bind.
    eapply (reads_bind 0 0); [apply Hquote; simpl; lia| |lia]. intros tmp s' _ Hl. apply Hstop. simpl in *. lia.
  - apply (reads_weaken 1); [lia|]. apply reads_next_bind. case_test; [|apply Hstop; simpl; lia].
    eapply (reads_bind 0 0); [apply reads_Next0| |lia]. intros [c|] s' Hn Hl; [|apply stopped_reads].
    apply Hstop. simpl in *. lia.
Qed.

Lemma quote_step f result s :
  routines_read f -> length (fst s) < S f -> reads 0 (double_quote_loop (S f) sw result) s.
Proof.
  intros [_ Hquote Hdollar _] Hf. destruct s as [[|r rs] w]; [done|]. simpl in Hf.
  simpl double_quote_loop. apply reads_peek_bind. cbn [fst head]. repeat case_test.
  - apply (reads_weaken 1); [lia|]. apply reads_next_bind, reads_ret.
  - eapply (reads_bind 1 0); [apply Hdollar; lia| |lia]. intros v s' _ Hl. apply Hquote. simpl in *. lia.
  - apply (reads_weaken 1); [lia|]. apply reads_next_bind, reads_peek_bind. cbn [fst].
    destruct rs as [|c rs]; cbn [head]; [apply Hquote; simpl in *; lia|].
    simpl in Hf. case_test; [|apply Hquote; simpl; lia].
    apply (reads_weaken 1); [lia|]. apply reads_next_bind, Hquote. simpl. lia.
  - apply (reads_weaken 1); [lia|]. apply reads_next_bind, Hquote. simpl. lia.
Qed.

Lemma dollar_step f r rs w :
  routines_read f -> length rs < S f -> reads 1 (processDollar (S f) sw) (r :: rs, w).
Proof using Hsw.
  intros [_ _ _ Hcurly] Hf. simpl processDollar. apply reads_next_bind, reads_peek_bind. cbn [fst].
  case_test; [|case_test].
  - apply bool_decide_eq_true in E. destruct rs as [|c rs]; [done|]. apply (reads_weaken 1); [lia|].
    apply reads_next_bind. apply shell_out_reads. simpl. lia.
  - apply bool_decide_eq_true in E0. destruct rs as [|c rs]; [done|]. apply (reads_weaken 1); [lia|].
    apply reads_next_bind, Hcurly. simpl in *. lia.
  - eapply (reads_bind 0 0); [apply reads_processName| |lia]. intros name s' _ _.
    case_test; [apply reads_ret|].
    eapply (reads_bind 0 0); [by apply reads_getEnv|intros; apply reads_ret|lia].
Qed.

Lemma curly_step f s :
  routines_read f -> length (fst s) < S f -> reads 0 (processDollarCurlyBracket (S f) sw) s.
Proof using Hsw.
  intros [Hstop _ _ _] Hf. destruct s as [[|r rs] w]; [done|]. simpl processDollarCurlyBracket.
  apply reads_peek_bind. cbn [fst head]. case_test; [done|].
  eapply (reads_bind 0 0); [apply reads_processName| |lia]. intros name s1 _ Hl1.
  assert (Hend : forall (g : string -> option string -> out string string) s',
    length (fst s') < f -> (forall word v, g word v <> Stuck) ->
    reads 0 (word <- closing (stop_on_loop f sw (Some rRBrace) "" no_words) ;;
             v <- getEnv sw name ;; done (g word v)) s').
  { intros g s' Hs Hg. eapply (reads_bind 0 0); [by apply closing_reads, Hstop| |lia]. intros word s2 _ _.
    eapply (reads_bind 0 0); [by apply reads_getEnv| |lia]. intros v s3 _ _. by apply reads_done. }
  pose proof (subst_answers name) as Hans.
  destruct s1 as [[|c rs1] w1].
  { eapply (reads_bind 0 0); [apply reads_Next0| |lia]. intros ch s2 [= <- <-] _. done. }
  apply (reads_weaken 1); [lia|]. apply reads_next_bind. simpl in Hl1, Hf. cbn [rune_or_eof default].
  repeat case_test.
  - eapply (reads_bind 0 0); [by apply reads_getEnv| |lia]. intros v s3 _ _. apply reads_done, (Hans "" v 0%Z).
  - apply (Hend (fun word v => subst_required sw name word v)); [simpl; lia|]. intros. apply (Hans _ _ 0%Z).
  - apply (Hend (fun word v => subst_suffix sw name word v)); [simpl; lia|]. intros. apply (Hans _ _ 0%Z).
  - apply (Hend (fun word v => subst_prefix sw name word v)); [simpl; lia|]. intros. apply (Hans _ _ 0%Z).
  - eapply (reads_bind 0 0); [apply reads_Next0| |lia]. intros m s3 _ Hl3.
    apply (Hend (fun word v => subst_modifier sw name (rune_or_eof m) word v)); [simpl in *; lia|].
    intros. apply (Hans _ _ (rune_or_eof m)).
  - done.
Qed.

Lemma routines_read_all f : routines_read f.
Proof using Hsw.
  induction f as [|f IH]; split; intros; try lia;
    [by apply stop_step|by apply quote_step|by apply dollar_step|by apply curly_step].
Qed.

End Reads.

Lemma process_returns sw word w : answers sw -> snd (process sw word w) <> Stuck.
Proof.
  intros Hsw. unfold process.
  pose proof (rr_stop sw _ (routines_read_all sw Hsw (word_fuel (scan_init word))) None "" no_words
    (scan_init word, w) ltac:(unfold word_fuel; simpl; lia)) as Hr.
  unfold reads in Hr. by destruct (stop_on_loop _ _ _ _ _ _) as [s' [[]|e|]].
Qed.

(** Expansion ends: whatever the word, the variables and the options, and
    whatever the callback answers, [process] returns a word or an error. *)
Theorem process_finishes sw word w : answers sw -> snd (process sw word w) <> Stuck.
Proof. apply process_returns. Qed.

(** ** The probe *)

(** [m1], run with the probe, foresees [m2]: when [m1] returns with the probe not
    called, [m2] has no effect on the callback's world and, if it returns, it has
    read what [m1] has read and their values are related by [R]. *)
Definition foresees {A B} (R : A -> B -> Prop) (m1 : @ShellLex.Sh bool A) (m2 : Sh B) : Prop :=
  (forall rs, snd (fst (m1 (rs, true))) = true) /\
  (forall rs w, match m1 (rs, false) with
                | ((rs', false), Ret a) =>
                    snd (fst (m2 (rs, w))) = w /\
                    forall b, snd (m2 (rs, w)) = Ret b -> fst (fst (m2 (rs, w))) = rs' /\ R a b
                | _ => True
                end).

Lemma foresees_bind {A B C D} (R : A -> B -> Prop) (Q : C -> D -> Prop) m1 m2 f1 f2 :
  foresees R m1 m2 -> (forall a, exists b, R a b) -> (forall a b, R a b -> foresees Q (f1 a) (f2 b)) ->
  foresees Q (ebind m1 f1) (ebind m2 f2).
Proof.
  intros [Ht Hf] HR Hk. assert (Hk1 : forall a rs, snd (fst (f1 a (rs, true))) = true).
  { intros a. destruct (HR a) as [b Hb]. apply (Hk a b Hb). }
  split.
  - intros rs. specialize (Ht rs). unfold ebind. destruct (m1 (rs, true)) as [[rs' b] [a|e|]]; simpl in *; [|done..].
    subst. apply (Hk1 a).
  - intros rs w. specialize (Hf rs w). unfold ebind. destruct (m1 (rs, false)) as [[rs' [|]] [a|e|]]; try done.
    + pose proof (Hk1 a rs') as Htt. by destruct (f1 a (rs', true)) as [[rs'' b] [c|e|]]; simpl in Htt; subst.
    + destruct Hf as [Hw Hb]. destruct (m2 (rs, w)) as [[rs2 w2] [b|e|]]; simpl in *; subst w2.
      * destruct (Hb b eq_refl) as [-> Hab]. apply (Hk a b Hab).
      * by destruct (f1 a (rs', false)) as [[rs'' [|]] [c|e'|]].
      * by destruct (f1 a (rs', false)) as [[rs'' [|]] [c|e'|]].
Qed.

Definition any {A B} (_ : A) (_ : B) : Prop := True.

Lemma any_total {A} (b : A) : forall {B} (a : B), exists b : A, any a b.
Proof. intros. by exists b. Qed.

Lemma eq_total {A} : forall a : A, exists b, a = b.
Proof. eauto. Qed.

(** Operations that only look at the runes that are left. *)
Lemma foresees_scan {A} (g : list Z -> list Z * out string A) :
  foresees eq (fun s => let '(rs, r) := g (fst s) in ((rs, snd s), r))
              (fun s => let '(rs, r) := g (fst s) in ((rs, snd s), r)).
Proof.
  split; intros rs; simpl; [by destruct (g rs)|]. intros w. destruct (g rs) as [rs' [a|e|]]; simpl; [|done..].
  split; [done|]. intros b [= <-]. done.
Qed.

Lemma foresees_mono {A B} (R Q : A -> B -> Prop) m1 m2 :
  (forall a b, R a b -> Q a b) -> foresees R m1 m2 -> foresees Q m1 m2.
Proof.
  intros HRQ [Ht Hf]. split; [done|]. intros rs w. specialize (Hf rs w).
  destruct (m1 (rs, false)) as [[rs' [|]] [a|e|]]; try done. destruct Hf as [Hw Hb]. split; [done|].
  intros b Hr. destruct (Hb b Hr). auto.
Qed.

Lemma foresees_ext {A B} (R : A -> B -> Prop) m1 m1' m2 m2' :
  (forall s, m1 s = m1' s) -> (forall s, m2 s = m2' s) -> foresees R m1 m2 -> foresees R m1' m2'.
Proof.
  intros H1 H2 [Ht Hf]. split; intros rs; [by rewrite <- H1|]. intros w. rewrite <- H1, <- H2. apply Hf.
Qed.

Lemma foresees_ret {A B} (a : A) (b : B) : foresees any (eret a) (eret b).
Proof. split; [done|]. by intros rs w. Qed.

Lemma foresees_done {A B} (o1 : out string A) (o2 : out string B) : foresees any (done o1) (done o2).
Proof. split; [done|]. intros rs w. simpl. by destruct o1. Qed.

Lemma foresees_fail {A B} e (m2 : Sh B) : foresees (A := A) any (efail e) m2.
Proof. split; [done|]. by intros rs w. Qed.

(** The word of the probe with the options of [sw]. *)
Definition probe_word (sw : shellWord) : @ShellLex.shellWord bool :=
  mkShellWord ∅ (shellOutEnvs sw) (Some probe) (escapeToken sw) (rawQuotes sw) (rawEscapes sw)
    (skipUnsetEnv sw) (skipProcessQuotes sw).

Section Probe.
Variable sw : shellWord.
Abbreviation sw1 := (probe_word sw).

Lemma foresees_Peek : foresees eq Peek Peek.
Proof. apply (foresees_scan (fun rs => (rs, Ret (head rs)))). Qed.

Lemma foresees_Next : foresees eq Next Next.
Proof. apply (foresees_scan (fun rs => (tail rs, Ret (head rs)))). Qed.

Lemma foresees_callShellOut {B} cmd (m2 : Sh B) : foresees any (callShellOut sw1 cmd) m2.
Proof. split; [done|]. by intros rs w. Qed.

Lemma foresees_getEnv name : foresees any (getEnv sw1 name) (getEnv sw name).
Proof.
  unfold getEnv. simpl. rewrite lookup_empty. case_decide as Hin.
  { split; [done|]. by intros rs w. }
  destruct (envs sw !! name); [apply foresees_ret|]. destruct (shellOut sw); apply foresees_ret.
Qed.

Lemma foresees_single rawQ : foresees eq (processSingleQuote rawQ) (processSingleQuote rawQ).
Proof.
  eapply foresees_ext; [| |apply (foresees_scan (fun rs =>
    match rs with [] => (rs, Fail errSingleQuote) | q :: rs => single_quote_loop rawQ (raw rawQ q) rs end))];
    by intros [[|q rs] w].
Qed.

Lemma double_quote_raw_probe n : forall rs result, length rs <= n ->
  double_quote_raw_loop sw1 result rs = double_quote_raw_loop sw result rs.
Proof.
  induction n as [|n IH]; intros [|r rs] result Hn; simpl in *; try done; [lia|].
  change (escapable sw1) with (escapable sw).
  repeat case_test; try done; try (apply IH; lia). destruct rs as [|c rs]; [done|].
  case_test; apply IH; simpl in *; lia.
Qed.

Lemma foresees_double_raw : foresees eq (processDoubleQuoteIgnoringDollar sw1) (processDoubleQuoteIgnoringDollar sw).
Proof.
  eapply foresees_ext; [| |apply (foresees_scan (double_quote_raw_loop sw (EncodeRune rDQuote)))];
    intros [rs w]; [|done]. unfold processDoubleQuoteIgnoringDollar. simpl.
  by rewrite (double_quote_raw_probe _ rs _ (le_n _)).
Qed.

Lemma foresees_name : foresees eq processName processName.
Proof.
  eapply foresees_ext; [| |apply (foresees_scan (fun rs =>
    match rs with
    | [] => (rs, Ret "")
    | r :: rs' =>
        if IsDigit r then (drop_while IsDigit rs, Ret (string_of_runes (take_while IsDigit rs)))
        else if isSpecialParam r then (rs', Ret (EncodeRune r))
        else (drop_while isNameRune rs, Ret (string_of_runes (take_while isNameRune rs)))
    end))]; intros [[|r rs] w]; try done; unfold processName; cbn [fst snd]; repeat case_test; done.
Qed.

Lemma foresees_closing m1 m2 : foresees any m1 m2 -> foresees any (closing m1) (closing m2).
Proof.
  intros [Ht Hf]. unfold closing. split; intros rs; [specialize (Ht rs)|intros w; specialize (Hf rs w)].
  - by destruct (m1 (rs, true)) as [s' [[]|e|]].
  - destruct (m1 (rs, false)) as [[rs' [|]] [[]|e|]]; try done. destruct Hf as [Hw Hb].
    destruct (m2 (rs, w)) as [[rs2 w2] [[word2 words2]|e|]]; simpl in *; try done. split; [done|].
    intros b [= <-]. destruct (Hb _ eq_refl). done.
Qed.

Ltac bind_eq L := eapply foresees_bind; [apply L|apply eq_total|intros ? ? <-].
Ltac bind_any L := eapply foresees_bind; [apply L|apply (any_total "")|intros ? ? _].

Lemma foresees_shell_out fuel : forall seen escaped r1 r2,
  foresees any (shell_out_loop fuel sw1 seen escaped r1) (shell_out_loop fuel sw seen escaped r2).
Proof.
  induction fuel as [|f IH]; intros seen escaped r1 r2; [split; [done|]; by intros rs w|]. simpl.
  bind_eq foresees_Peek. destruct a as [r|]; [|apply foresees_fail].
  repeat case_test; try (bind_eq foresees_Next; apply IH).
  - bind_eq foresees_Next. apply foresees_callShellOut.
  - bind_eq foresees_single. apply IH.
  - bind_eq foresees_Next. bind_eq foresees_double_raw. apply IH.
Qed.

Record routines_foresee (f : nat) : Prop := {
  rf_stop : forall stop r1 w1 r2 w2,
    foresees any (stop_on_loop f sw1 stop r1 w1) (stop_on_loop f sw stop r2 w2);
  rf_quote : forall r1 r2, foresees any (double_quote_loop f sw1 r1) (double_quote_loop f sw r2);
  rf_dollar : foresees any (processDollar f sw1) (processDollar f sw);
  rf_curly : foresees any (processDollarCurlyBracket f sw1) (processDollarCurlyBracket f sw)
}.

Lemma foresees_stopped stop r1 w1 r2 w2 : foresees any (stopped stop r1 w1) (stopped (W := W) stop r2 w2).
Proof. destruct stop; [apply foresees_fail|apply foresees_ret]. Qed.

Lemma foresee_stop f : routines_foresee f -> forall stop r1 w1 r2 w2,
  foresees any (stop_on_loop (S f) sw1 stop r1 w1) (stop_on_loop (S f) sw stop r2 w2).
Proof.
  intros [Hstop Hquote Hdollar _] stop r1 w1 r2 w2. simpl. bind_eq foresees_Peek.
  destruct a as [r|]; [|apply foresees_stopped]. case_test; [bind_eq foresees_Next; apply foresees_ret|].
  change (charFuncMapping sw1 r) with (charFuncMapping sw r). destruct (charFuncMapping sw r).
  - bind_any Hdollar. apply Hstop.
  - bind_eq foresees_single. apply Hstop.
  - bind_eq foresees_Next. bind_any Hquote. apply Hstop.
  - bind_eq foresees_Next. case_test; [|apply Hstop].
    bind_eq foresees_Next. destruct a0 as [c|]; [apply Hstop|apply foresees_stopped].
Qed.

Lemma foresee_quote f : routines_foresee f -> forall r1 r2,
  foresees any (double_quote_loop (S f) sw1 r1) (double_quote_loop (S f) sw r2).
Proof.
  intros [_ Hquote Hdollar _] r1 r2. simpl. bind_eq foresees_Peek.
  destruct a as [r|]; [|apply foresees_fail]. change (escapable sw1) with (escapable sw).
  repeat case_test.
  - bind_eq foresees_Next. apply foresees_ret.
  - bind_any Hdollar. apply Hquote.
  - bind_eq foresees_Next. bind_eq foresees_Peek. destruct a0 as [c|]; [|apply Hquote].
    case_test; [bind_eq foresees_Next|]; apply Hquote.
  - bind_eq foresees_Next. apply Hquote.
Qed.

Lemma foresee_dollar f : routines_foresee f -> foresees any (processDollar (S f) sw1) (processDollar (S f) sw).
Proof.
  intros [_ _ _ Hcurly]. simpl. bind_eq foresees_Next. bind_eq foresees_Peek. case_test; [|case_test].
  - bind_eq foresees_Next. split; intros rs.
    + exact (proj1 (foresees_shell_out (S (length rs)) 1 false "" "") rs).
    + exact (proj2 (foresees_shell_out (S (length rs)) 1 false "" "") rs).
  - bind_eq foresees_Next. apply Hcurly.
  - bind_eq foresees_name. case_test; [apply foresees_ret|].
    eapply foresees_bind; [apply foresees_getEnv|apply (any_total None)|intros ? ? _; apply foresees_ret].
Qed.

Lemma foresee_curly f :
  routines_foresee f -> foresees any (processDollarCurlyBracket (S f) sw1) (processDollarCurlyBracket (S f) sw).
Proof.
  intros [Hstop _ _ _]. simpl. bind_eq foresees_Peek. destruct a as [r|]; [|apply foresees_fail].
  case_test; [apply foresees_fail|]. bind_eq foresees_name. bind_eq foresees_Next.
  assert (Henv : forall g1 g2 : option string -> out string string, foresees any (v <- getEnv sw1 a ;; done (g1 v)) (v <- getEnv sw a ;; done (g2 v))).
  { intros. eapply foresees_bind; [apply foresees_getEnv|apply (any_total None)|intros ? ? _; apply foresees_done]. }
  assert (Hend : forall (g1 g2 : string -> option string -> out string string),
    foresees any (word <- closing (stop_on_loop f sw1 (Some rRBrace) "" no_words) ;; v <- getEnv sw1 a ;; done (g1 word v))
                 (word <- closing (stop_on_loop f sw (Some rRBrace) "" no_words) ;; v <- getEnv sw a ;; done (g2 word v))).
  { intros. eapply foresees_bind; [apply foresees_closing, Hstop|apply (any_total "")|intros ? ? _; apply Henv]. }
  repeat case_test; [apply Henv|apply Hend..| |apply foresees_fail]. bind_eq foresees_Next. apply Hend.
Qed.

Lemma routines_foresee_all f : routines_foresee f.
Proof.
  induction f as [|f IH]; split.
  1-4: intros; split; [done|]; by intros rs w.
  - by apply foresee_stop.
  - by apply foresee_quote.
  - by apply foresee_dollar.
  - by apply foresee_curly.
Qed.

End Probe.

(** C31. The look-ahead is sound: a word for which [requiresShellOutOrCmdInvalid]
    answers no is expanded without calling the callback, whatever the variables
    and the callback are when it is really expanded. *)
Theorem requiresShellOut_sound s out env (w : W) :
  requiresShellOutOrCmdInvalid s = false ->
  fst (ProcessWordWithMap (new_word rBackslash out env ShellOutEnvs) s w) = w.
Proof.
  unfold requiresShellOutOrCmdInvalid, ProcessWordWithMap, process. intros Hreq.
  set (sw := new_word rBackslash out env ShellOutEnvs) in *.
  change (new_word rBackslash (Some probe) ∅ ShellOutEnvs) with (probe_word sw) in Hreq.
  pose proof (proj2 (rf_stop sw _ (routines_foresee_all sw (word_fuel (scan_init s))) None "" no_words "" no_words)
    (scan_init s) w) as Hf.
  destruct (stop_on_loop _ (probe_word sw) _ _ _ _) as [[rs' b] [[v ws]|e|]]; simpl in Hreq; [|done..].
  subst b. destruct Hf as [Hw _]. by destruct (stop_on_loop _ sw _ _ _ _) as [[rs2 w2] r2].
Qed.

End Facts.

(** ** Concrete words *)

#[local] Instance ascii_tables : UnicodeTables := {| wide_letter := fun _ => false; wide_digit := fun _ => false |}.
#[local] Instance all_print : Unicode := fun _ => true.

Lemma process_finishes_witness :
  snd (process (new_word rBackslash (Some probe) ∅ ShellOutEnvs) "a${b:-$(c $d" false) <> Stuck.
Proof. refine (process_finishes _ _ _ _). intros f cmd w [= <-]. discriminate. Defined.

Lemma requiresShellOut_sound_witness :
  fst (ProcessWordWithMap (new_word rBackslash (Some probe) (BuildEnvs ["A=$(x)"]) ShellOutEnvs) "a${A:-$B}" false) = false.
Proof. refine (requiresShellOut_sound _ _ _ _ _). vm_compute. reflexivity. Defined.

Example requiresShellOut_cases :
  map requiresShellOutOrCmdInvalid ["$A"; "$(x)"; "'$(x)'"; "$HOME"; "${A:-$(x)}"; "'"] = [false; true; false; true; true; true].
Proof. vm_compute. reflexivity. Qed.
