(* ===== verification/ShellWords.v ===== *)
(** * Shell words: what expansion computes

    Quoting protects a text from expansion, and the forms of [${...}] follow the
    table of the shell. *)

From stdpp Require Import gmap.
From S2P Require Import Prelude GoStrings Token GoText Reference RuneFacts KeyValue Effects ShellLex.

Open Scope eff_scope.

(** A text between double quotes: the three special bytes are escaped. *)
Definition dq_special (c : ascii) : bool := existsb (Z.eqb (byteZ c)) [rDQuote; rDollar; rBackslash].

Fixpoint dq_escape (s : string) : string :=
  match s with
  | "" => ""
  | String c s => if dq_special c then String "\"%char (String c (dq_escape s)) else String c (dq_escape s)
  end.

Definition dq_runes (r : Z) : list Z :=
  if existsb (Z.eqb r) [rDQuote; rDollar; rBackslash] then [rBackslash; r] else [r].

Lemma dq_escape_app s t : dq_escape (s +:+ t) = dq_escape s +:+ dq_escape t.
Proof. induction s as [|c s IH]; [done|]. simpl. rewrite IH. by destruct (dq_special c). Qed.

Lemma dq_escape_high s : sall high s = true -> dq_escape s = s.
Proof.
  induction s as [|c s IH]; [done|]. simpl. intros [Hc Hs]%andb_true_iff. rewrite IH by done.
  unfold dq_special, high in *. to_prop. simpl. repeat (case_match; to_prop; try lia). done.
Qed.

Lemma runes_dq_escape s t :
  utf8 s = true -> runes (dq_escape s +:+ t) = flat_map dq_runes (runes s) ++ runes t.
Proof.
  revert s. apply (utf8_ind (fun s => runes (dq_escape s +:+ t) = flat_map dq_runes (runes s) ++ runes t)); [done|].
  intros r p s Hp He Hd Hlow Hhigh _ IH. rewrite dq_escape_app, <- sapp_assoc.
  rewrite (runes_cons p r) by done. cbn [flat_map]. rewrite <- app_assoc, <- IH.
  destruct (Z.ltb_spec r 128) as [Hr|Hr].
  - destruct (Hlow Hr) as (c & -> & <-). unfold dq_runes. simpl. unfold dq_special. simpl.
    assert (Hc : forall u, runes (String c u) = byteZ c :: runes u)
      by (intros u; apply (runes_ascii (String c "") u); unfold ascii_text; simpl; by rewrite (proj2 (Z.ltb_lt _ _) Hr)).
    destruct (_ || _); [|exact (Hc (dq_escape s +:+ t))].
    etransitivity; [exact (runes_ascii "\" (String c (dq_escape s +:+ t)) eq_refl)|]. simpl. by rewrite Hc.
  - rewrite dq_escape_high by auto. rewrite (runes_cons p r) by done.
    unfold dq_runes. simpl. repeat (case_match; to_prop; try lia). done.
Qed.

Section Words.
Context {W : Type} `{UnicodeTables} `{Unicode}.
Abbreviation shellWord := (@shellWord W).

(** The options of [NewLex('\')]. *)
Record plain_options (sw : shellWord) : Prop := {
  po_escape : escapeToken sw = rBackslash;
  po_quotes : rawQuotes sw = false;
  po_escapes : rawEscapes sw = false;
  po_unset : skipUnsetEnv sw = false;
  po_process : skipProcessQuotes sw = false
}.

Definition words_of (s : string) : list string := if String.eqb s "" then [] else [s].

Lemma single_quote_text rs rest : forall result,
  Forall (fun r => r <> rSQuote) rs ->
  single_quote_loop false result (rs ++ rSQuote :: rest) = (rest, Ret (result +:+ string_of_runes rs)).
Proof.
  induction rs as [|r rs IH]; intros result Hrs; simpl; [done|]. inversion Hrs as [|? ? Hr Hrs']; subst.
  rewrite (proj2 (Z.eqb_neq _ _) Hr), IH by done. by rewrite <- sapp_assoc.
Qed.

(** One iteration of the two loops. *)
Lemma double_quote_cons f (sw : shellWord) result r rs w :
  double_quote_loop (S f) sw result (r :: rs, w) =
  if (r =? rDQuote)%Z then ((rs, w), Ret (result +:+ raw (rawQuotes sw) r))
  else if (r =? rDollar)%Z then
    ebind (processDollar f sw) (fun v => double_quote_loop f sw (result +:+ v)) (r :: rs, w)
  else if (r =? escapeToken sw)%Z then
    match rs with
    | [] => double_quote_loop f sw (result +:+ raw (rawEscapes sw) r) (rs, w)
    | c :: rs' =>
        if escapable sw c then double_quote_loop f sw ((result +:+ raw (rawEscapes sw) r) +:+ EncodeRune c) (rs', w)
        else double_quote_loop f sw ((result +:+ raw (rawEscapes sw) r) +:+ EncodeRune r) (rs, w)
    end
  else double_quote_loop f sw (result +:+ EncodeRune r) (rs, w).
Proof.
  cbn [double_quote_loop]. unfold ebind at 1, Peek at 1. cbn [fst snd head].
  destruct (r =? rDQuote)%Z; [done|]. destruct (r =? rDollar)%Z; [done|].
  destruct (r =? escapeToken sw)%Z; [|done]. destruct rs as [|c rs]; [done|].
  unfold ebind, Next, Peek. cbn [fst snd head tail]. by destruct (escapable sw c).
Qed.

Lemma stop_on_cons f (sw : shellWord) stop result words r rs w :
  stop_on_loop (S f) sw stop result words (r :: rs, w) =
  if bool_decide (stop = Some r) then ((rs, w), Ret (result, getWords words))
  else match charFuncMapping sw r with
  | SDollar => ebind (processDollar f sw)
      (fun tmp => stop_on_loop f sw stop (result +:+ tmp) (addString tmp words)) (r :: rs, w)
  | SSingle => ebind (processSingleQuote (rawQuotes sw))
      (fun tmp => stop_on_loop f sw stop (result +:+ tmp) (addRawString tmp words)) (r :: rs, w)
  | SDouble => ebind (double_quote_loop f sw (raw (rawQuotes sw) rDQuote))
      (fun tmp => stop_on_loop f sw stop (result +:+ tmp) (addRawString tmp words)) (rs, w)
  | SNone =>
      if (r =? escapeToken sw)%Z then
        let words := if rawEscapes sw then addRawChar r words else words in
        let result := result +:+ raw (rawEscapes sw) r in
        match rs with
        | [] => stopped stop result words (rs, w)
        | c :: rs => stop_on_loop f sw stop (result +:+ EncodeRune c) (addRawChar c words) (rs, w)
        end
      else stop_on_loop f sw stop (result +:+ EncodeRune r) (addChar r words) (rs, w)
  end.
Proof.
  cbn [stop_on_loop]. unfold ebind at 1, Peek at 1. cbn [fst snd head]. case_bool_decide; [done|].
  destruct (charFuncMapping sw r); try done. unfold ebind, Next. cbn [fst snd head tail].
  destruct (r =? escapeToken sw)%Z; [|done]. by destruct rs.
Qed.

Lemma double_quote_text (sw : shellWord) rs rest w : forall fuel result,
  plain_options sw -> length rs < fuel ->
  double_quote_loop fuel sw result (flat_map dq_runes rs ++ rDQuote :: rest, w) =
    ((rest, w), Ret (result +:+ string_of_runes rs)).
Proof.
  induction rs as [|r rs IH]; intros [|f] result Hsw Hf; simpl in Hf; try lia.
  - cbn [flat_map app]. rewrite double_quote_cons. by rewrite (po_quotes _ Hsw).
  - assert (Hgo : double_quote_loop f sw (result +:+ EncodeRune r)
        (flat_map dq_runes rs ++ rDQuote :: rest, w) = ((rest, w), Ret (result +:+ string_of_runes (r :: rs)))).
    { rewrite IH by (done || lia). by rewrite <- sapp_assoc. }
    cbn [flat_map]. rewrite <- app_assoc. destruct (existsb (Z.eqb r) [rDQuote; rDollar; rBackslash]) eqn:Es.
    + assert (dq_runes r = [rBackslash; r]) as -> by (unfold dq_runes; by rewrite Es).
      cbn [app]. rewrite double_quote_cons. unfold escapable.
      rewrite (po_escape _ Hsw), (po_escapes _ Hsw). cbn [raw]. rewrite sapp_nil_r.
      simpl in Es. rewrite orb_false_r, orb_assoc in Es. rewrite Es. apply Hgo.
    + assert (dq_runes r = [r]) as -> by (unfold dq_runes; by rewrite Es).
      cbn [app]. rewrite double_quote_cons, (po_escape _ Hsw). simpl in Es.
      destruct (r =? rDQuote)%Z; [done|]. destruct (r =? rDollar)%Z; [done|]. by destruct (r =? rBackslash)%Z.
Qed.

(** Runes that mean nothing to the loop of [processStopOn]. *)
Definition plain_rune (r : Z) : bool :=
  negb (existsb (Z.eqb r) [rDollar; rSQuote; rDQuote; rBackslash; rRBrace]).

Lemma plain_rune_spec (sw : shellWord) r :
  plain_options sw -> plain_rune r = true ->
  charFuncMapping sw r = SNone /\ (r =? escapeToken sw)%Z = false /\ r <> rRBrace.
Proof.
  intros Hsw. unfold plain_rune, charFuncMapping. rewrite (po_process _ Hsw), (po_escape _ Hsw). simpl.
  intros Hr. to_prop. repeat (rewrite (proj2 (Z.eqb_neq _ _)) by done). done.
Qed.

Lemma stop_on_plain (sw : shellWord) stop rs rest w : forall f result words,
  plain_options sw -> stop = None \/ stop = Some rRBrace -> Forall (fun r => plain_rune r = true) rs ->
  exists words', stop_on_loop (length rs + f) sw stop result words (rs ++ rest, w) =
    stop_on_loop f sw stop (result +:+ string_of_runes rs) words' (rest, w).
Proof.
  induction rs as [|r rs IH]; intros f result words Hsw Hstop Hrs.
  { exists words. simpl. by rewrite sapp_nil_r. }
  inversion Hrs as [|? ? Hr Hrs']; subst. destruct (plain_rune_spec sw r Hsw Hr) as (Hm & He & Hne).
  destruct (IH f (result +:+ EncodeRune r) (addChar r words) Hsw Hstop Hrs') as [words' Hw].
  exists words'. rewrite <- sapp_assoc in Hw. etransitivity; [|exact Hw].
  cbn [length Nat.add app]. rewrite stop_on_cons.
  rewrite bool_decide_eq_false_2 by (destruct Hstop; subst; congruence). by rewrite Hm, He.
Qed.

Lemma stop_on_end f (sw : shellWord) result words w :
  stop_on_loop (S f) sw None result words ([], w) = (([], w), Ret (result, getWords words)).
Proof. done. Qed.

Lemma stop_on_brace f (sw : shellWord) result words rest w :
  stop_on_loop (S f) sw (Some rRBrace) result words (rRBrace :: rest, w) = ((rest, w), Ret (result, getWords words)).
Proof. done. Qed.

(** [process] on the runes of a word. *)
Lemma process_runes (sw : shellWord) word rs w v ws :
  scan_init word = rs -> stop_on_loop (S (length rs)) sw None "" no_words (rs, w) = (([], w), Ret (v, ws)) ->
  process sw word w = (w, Ret (v, ws)).
Proof. unfold process, word_fuel. intros -> ->. done. Qed.

Lemma getWords_raw s : getWords (addRawString s no_words) = words_of s.
Proof. unfold getWords, words_of. simpl. by destruct s. Qed.

Lemma scan_init_ascii c s : (byteZ c < 128)%Z -> scan_init (String c s) = byteZ c :: runes s.
Proof.
  intros Hc. unfold scan_init. change (String c s) with (String c "" +:+ s).
  rewrite (runes_ascii (String c "")) by (unfold ascii_text; simpl; by rewrite (proj2 (Z.ltb_lt _ _) Hc)).
  simpl. rewrite (proj2 (Z.eqb_neq _ _)); [done|]. intros E. rewrite E in Hc. lia.
Qed.

Lemma runes_no_byte c s :
  utf8 s = true -> (byteZ c < 128)%Z -> no_byte c s = true -> Forall (fun r => r <> byteZ c) (runes s).
Proof.
  intros Hu Hc. revert s Hu. apply (utf8_ind (fun s => no_byte c s = true -> Forall (fun r => r <> byteZ c) (runes s))).
  { constructor. }
  intros r p s Hp He Hd Hlow Hhigh _ IH Hn. rewrite (runes_cons p r) by done.
  unfold no_byte in Hn. rewrite sall_app in Hn. apply andb_true_iff in Hn as [Hnp Hns].
  constructor; [|by apply IH]. intros ->. destruct (Hlow Hc) as (c0 & -> & Hc0). apply byteZ_inj in Hc0. subst c0.
  simpl in Hnp. by rewrite Ascii.eqb_refl in Hnp.
Qed.

(** C36. Quoting protects: any text between double quotes with its quotes, dollar
    signs and backslashes escaped, and any text without a single quote between
    single quotes, is expanded to itself, as one word. *)
Theorem quoted_literal (sw : shellWord) s w :
  plain_options sw -> utf8 s = true ->
  process sw (dquote +:+ dq_escape s +:+ dquote) w = (w, Ret (s, words_of s)) /\
  (no_byte "'" s = true -> process sw ("'" +:+ s +:+ "'") w = (w, Ret (s, words_of s))).
Proof.
  intros Hsw Hu. split.
  - eapply process_runes; [apply (scan_init_ascii "034"%char (dq_escape s +:+ dquote)); done|].
    rewrite (runes_dq_escape s dquote Hu). change (runes dquote) with [rDQuote]. cbn [length].
    set (n := length (flat_map dq_runes (runes s) ++ [rDQuote])).
    assert (Hn : length (runes s) < n).
    { unfold n. rewrite length_app. simpl. clear. induction (runes s) as [|r rs IH]; simpl; [lia|].
      rewrite length_app. assert (1 <= length (dq_runes r)) by (unfold dq_runes; case_match; simpl; lia). lia. }
    rewrite stop_on_cons, bool_decide_eq_false_2 by done.
    unfold charFuncMapping. rewrite (po_process _ Hsw), (po_quotes _ Hsw). cbn [byteZ].
    change ((byteZ "034" =? rDollar)%Z) with false. change ((byteZ "034" =? rSQuote)%Z) with false.
    change ((byteZ "034" =? rDQuote)%Z) with true. cbv iota. unfold ebind. cbn [raw].
    rewrite double_quote_text by (done || lia). rewrite stop_on_end.
    change ("" +:+ ?x) with x. rewrite string_of_runes_runes by done. by rewrite getWords_raw.
  - intros Hn. eapply process_runes; [apply (scan_init_ascii "'"%char (s +:+ "'")); done|].
    rewrite (runes_app s "'" Hu). change (runes "'") with [rSQuote]. cbn [length].
    rewrite stop_on_cons, bool_decide_eq_false_2 by done.
    unfold charFuncMapping. rewrite (po_process _ Hsw), (po_quotes _ Hsw).
    change ((byteZ "'" =? rDollar)%Z) with false. change ((byteZ "'" =? rSQuote)%Z) with true. cbv iota.
    unfold ebind, processSingleQuote. cbn [fst snd raw].
    rewrite (single_quote_text (runes s) [] "") by (by apply (runes_no_byte "'")).
    rewrite length_app, Nat.add_comm. cbn [length Nat.add]. rewrite stop_on_end.
    change ("" +:+ ?x) with x. rewrite string_of_runes_runes by done. by rewrite getWords_raw.
Qed.

(** ** Parameter expansion *)

Definition id_start (c : ascii) : bool := let b := byteZ c in in_range 97 122 b || in_range 65 90 b || (b =? rUnderscore)%Z.
Definition id_byte (c : ascii) : bool := id_start c || in_range 48 57 (byteZ c).

(** The name of a variable. *)
Definition identifier (s : string) : bool :=
  match s with String c s => id_start c && sall id_byte s | "" => false end.

Lemma id_start_byte c : id_start c = true -> id_byte c = true.
Proof. unfold id_byte. by intros ->. Qed.

Lemma id_byte_rune c : id_byte c = true -> (byteZ c < 128)%Z /\ isNameRune (byteZ c) = true.
Proof.
  unfold id_byte, id_start, isNameRune, IsLetter, IsDigit. intros Hc.
  assert (byteZ c < 128)%Z as Hlt.
  { unfold in_range in Hc. repeat (apply orb_true_iff in Hc as [Hc|Hc]); to_prop; lia. }
  split; [done|]. rewrite (proj2 (Z.ltb_lt _ _) Hlt).
  repeat (apply orb_true_iff in Hc as [Hc|Hc]); rewrite Hc; by rewrite ?orb_true_r.
Qed.

Lemma identifier_codes s : sall id_byte s = true ->
  ascii_text s = true /\ Forall (fun r => isNameRune r = true) (codes s).
Proof.
  induction s as [|c s IH]; [done|]. unfold ascii_text. simpl. intros [Hc Hs]%andb_true_iff.
  destruct (id_byte_rune c Hc) as [Hlt Hn]. destruct (IH Hs) as [Ha Hf].
  split; [|by constructor]. apply andb_true_iff. split; [by apply Z.ltb_lt|done].
Qed.

Lemma take_name rs c rest :
  Forall (fun r => isNameRune r = true) rs -> isNameRune c = false ->
  take_while isNameRune (rs ++ c :: rest) = rs /\ drop_while isNameRune (rs ++ c :: rest) = c :: rest.
Proof.
  intros Hrs Hc. induction Hrs as [|r rs Hr _ [IHt IHd]]; simpl; [by rewrite Hc|]. by rewrite Hr, IHt, IHd.
Qed.

Lemma processName_id name c rest (w : W) :
  identifier name = true -> isNameRune c = false ->
  processName (codes name ++ c :: rest, w) = ((c :: rest, w), Ret name).
Proof.
  intros Hid Hc. destruct name as [|a s]; [done|]. simpl in Hid. apply andb_true_iff in Hid as [Ha Hs].
  destruct (identifier_codes (String a s)) as [Hasc Hcodes].
  { simpl. by rewrite id_start_byte. }
  destruct (take_name _ c rest Hcodes Hc) as [Ht Hd].
  unfold processName. cbn [fst snd]. cbn [codes app] in *.
  assert (IsDigit (byteZ a) = false /\ isSpecialParam (byteZ a) = false) as [-> ->].
  { destruct (id_byte_rune a (id_start_byte a Ha)) as [Hlt _]. unfold IsDigit. rewrite (proj2 (Z.ltb_lt _ _) Hlt).
    unfold id_start, in_range in *. unfold isSpecialParam. simpl.
    split; apply not_true_iff_false; intros Hx;
      repeat (apply orb_true_iff in Ha as [Ha|Ha]); repeat (apply orb_true_iff in Hx as [Hx|Hx]);
      try apply andb_true_iff in Hx as [? ?]; to_prop; lia || done. }
  rewrite Ht, Hd. pose proof (string_of_codes (String a s) Hasc) as Hs'. cbn [codes] in Hs'. by rewrite Hs'.
Qed.

Lemma closing_plain f (sw : shellWord) t rest w :
  plain_options sw -> utf8 t = true -> forallb plain_rune (runes t) = true -> length (runes t) < f ->
  closing (stop_on_loop f sw (Some rRBrace) "" no_words) (runes t ++ rRBrace :: rest, w) = ((rest, w), Ret t).
Proof.
  intros Hsw Hu Hp Hf. pose proof (proj1 (forallb_forall _ _) Hp) as Hp'.
  assert (Forall (fun r => plain_rune r = true) (runes t)) as Hplain by (apply List.Forall_forall; auto).
  destruct (stop_on_plain sw (Some rRBrace) (runes t) (rRBrace :: rest) w (f - length (runes t)) "" no_words
    Hsw (or_intror eq_refl) Hplain) as [ws Hs].
  unfold closing. rewrite Nat.add_comm, Nat.sub_add in Hs by lia. rewrite Hs.
  destruct (f - length (runes t)) as [|g] eqn:E; [lia|]. rewrite stop_on_brace.
  change ("" +:+ ?x) with x. by rewrite string_of_runes_runes.
Qed.

(** The forms of the shell, with the word they carry. *)
Inductive expansion : Type :=
  | EPlain
  | EDefault (t : string)
  | EAlternate (t : string)
  | ENonEmpty (t : string)
  | ESet (t : string)
  | ESuffix (t : string)
  | EPrefix (t : string).

Definition op_text (o : expansion) : string :=
  match o with
  | EPlain => "" | EDefault t => ":-" +:+ t | EAlternate t => ":+" +:+ t | ENonEmpty t => ":?" +:+ t
  | ESet t => "?" +:+ t | ESuffix t => "%" +:+ t | EPrefix t => "#" +:+ t
  end.

Definition op_word (o : expansion) : string :=
  match o with
  | EPlain => "" | EDefault t | EAlternate t | ENonEmpty t | ESet t | ESuffix t | EPrefix t => t
  end.

(** The table of the shell; [None] is an error. *)
Definition expanded (o : expansion) (v : option string) : option string :=
  let non_empty := match v with Some (String _ _) => v | _ => None end in
  match o with
  | EPlain => Some (default "" v)
  | EDefault t => Some (default t non_empty)
  | EAlternate t => Some (if bool_decide (non_empty = None) then "" else t)
  | ENonEmpty _ => non_empty
  | ESet _ => v
  | ESuffix t => Some (TrimSuffix (default "" v) t)
  | EPrefix t => Some (TrimPrefix (default "" v) t)
  end.

(** The variable is not one of those the callback looks up. *)
Definition own_variable (sw : shellWord) (name : string) : Prop :=
  envs sw !! name <> None \/ name ∉ shellOutEnvs sw \/ shellOut sw = None.

Lemma getEnv_own (sw : shellWord) name s :
  own_variable sw name -> getEnv sw name s = (s, Ret (envs sw !! name)).
Proof.
  unfold own_variable, getEnv. destruct (envs sw !! name); [done|].
  intros [?|[Hn|Ho]]; [done| |by rewrite Ho]. destruct (shellOut sw); [|done]. by rewrite decide_False.
Qed.

Lemma processDollar_brace f (sw : shellWord) rs w :
  processDollar (S f) sw (rDollar :: rLBrace :: rs, w) = processDollarCurlyBracket f sw (rs, w).
Proof. done. Qed.

(** The runes of a form after its name, with its operator's apart. *)
Definition op_codes (o : expansion) : list Z :=
  match o with
  | EPlain => []
  | EDefault _ => [rColon; rMinus] | EAlternate _ => [rColon; rPlus] | ENonEmpty _ => [rColon; rQuestion]
  | ESet _ => [rQuestion] | ESuffix _ => [rPercent] | EPrefix _ => [rHash]
  end.

Lemma op_runes o rest :
  utf8 (op_word o) = true -> runes (op_text o +:+ "}" +:+ rest) = op_codes o ++ runes (op_word o) ++ rRBrace :: runes rest.
Proof.
  intros Hu. assert (Hb : runes ("}" +:+ rest) = rRBrace :: runes rest) by exact (runes_ascii "}" rest eq_refl).
  destruct o as [|t|t|t|t|t|t]; simpl op_text; simpl op_word in *; [exact Hb|..];
    rewrite <- sapp_assoc, runes_ascii, runes_app, Hb by done; reflexivity.
Qed.

(** What the code computes for a form. *)
Definition op_result (sw : shellWord) (o : expansion) (name : string) (v : option string) : out string string :=
  match o with
  | EPlain => subst_plain sw name v
  | EDefault t => subst_modifier sw name rMinus t v
  | EAlternate t => subst_modifier sw name rPlus t v
  | ENonEmpty t => subst_modifier sw name rQuestion t v
  | ESet t => subst_required sw name t v
  | ESuffix t => subst_suffix sw name t v
  | EPrefix t => subst_prefix sw name t v
  end.

Lemma op_result_table (sw : shellWord) o name v :
  plain_options sw ->
  match expanded o v with
  | Some x => op_result sw o name v = Ret x
  | None => exists e, op_result sw o name v = Fail e
  end.
Proof.
  intros Hsw. destruct o, v as [[|c v]|]; simpl;
    unfold subst_plain, subst_required, subst_suffix, subst_prefix, subst_modifier;
    rewrite ?(po_unset _ Hsw); simpl; eauto.
Qed.

Lemma name_head name c rest :
  identifier name = true -> exists r rs, codes name ++ c :: rest = r :: rs /\
    (r =? rLBrace)%Z || (r =? rRBrace)%Z || (r =? rColon)%Z = false.
Proof.
  destruct name as [|a s]; [done|]. simpl. intros [Ha _]%andb_true_iff. eexists _, _. split; [done|].
  unfold id_start, in_range in Ha. to_prop.
  repeat (apply orb_false_iff; split); apply Z.eqb_neq; intros E; rewrite E in Ha; simpl in Ha; lia.
Qed.

Lemma curly_expansion f (sw : shellWord) o name w :
  plain_options sw -> identifier name = true -> own_variable sw name ->
  utf8 (op_word o) = true -> forallb plain_rune (runes (op_word o)) = true -> length (runes (op_word o)) < f ->
  processDollarCurlyBracket (S f) sw (codes name ++ op_codes o ++ runes (op_word o) ++ [rRBrace], w) =
    (([], w), op_result sw o name (envs sw !! name)).
Proof.
  intros Hsw Hid Hown Hu Hp Hf.
  assert (exists c rest, op_codes o ++ runes (op_word o) ++ [rRBrace] = c :: rest /\ isNameRune c = false)
    as (c & rest & Hc & Hname).
  { destruct o; eexists _, _; (split; [reflexivity|done]). }
  rewrite Hc. destruct (name_head name c rest Hid) as (r & rs & Hr & Hno).
  cbn [processDollarCurlyBracket]. unfold ebind at 1, Peek. cbn [fst]. rewrite Hr. cbn [head]. rewrite Hno, <- Hr.
  unfold ebind at 1. rewrite processName_id by done. rewrite <- Hc.
  destruct o as [|t|t|t|t|t|t]; cbn [op_codes op_word app] in *;
    unfold ebind, Next; cbn -[getEnv closing stop_on_loop];
    rewrite ?closing_plain by done; rewrite getEnv_own by done; reflexivity.
Qed.

Definition form (name : string) (o : expansion) : string := "${" +:+ name +:+ op_text o +:+ "}".

Lemma form_runes name o :
  identifier name = true -> utf8 (op_word o) = true ->
  scan_init (form name o) = rDollar :: rLBrace :: codes name ++ op_codes o ++ runes (op_word o) ++ [rRBrace].
Proof.
  intros Hid Hu. unfold form. change ("${" +:+ ?x) with (String "$" (String "{" x)). rewrite scan_init_ascii by done.
  change (String "{" ?x) with ("{" +:+ x). rewrite runes_ascii by done.
  destruct name as [|a s]; [done|]. simpl in Hid. pose proof Hid as [Ha Hs]%andb_true_iff.
  destruct (identifier_codes (String a s)) as [Hasc _]; [simpl; by rewrite id_start_byte|].
  rewrite runes_ascii by done. by rewrite (op_runes o "" Hu : runes (op_text o +:+ "}") = _).
Qed.

Lemma process_form (sw : shellWord) o name w :
  plain_options sw -> identifier name = true -> own_variable sw name ->
  utf8 (op_word o) = true -> forallb plain_rune (runes (op_word o)) = true ->
  match expanded o (envs sw !! name) with
  | Some v => exists words, process sw (form name o) w = (w, Ret (v, words))
  | None => exists e, process sw (form name o) w = (w, Fail e)
  end.
Proof.
  intros Hsw Hid Hown Hu Hp. unfold process, word_fuel. rewrite form_runes by done. set (tl := codes name ++ _).
  assert (Hlen : length (runes (op_word o)) < length tl) by (unfold tl; rewrite !length_app; simpl; lia).
  cbn [length]. rewrite stop_on_cons, bool_decide_eq_false_2 by done. unfold charFuncMapping.
  change (rDollar =? rDollar)%Z with true. cbv iota. unfold ebind. rewrite processDollar_brace.
  destruct (length tl) as [|n] eqn:En; [lia|]. unfold tl. rewrite curly_expansion by (done || lia).
  pose proof (op_result_table sw o name (envs sw !! name) Hsw) as Ht.
  destruct (expanded o _) as [v|]; [rewrite Ht|destruct Ht as [e ->]]; simpl; eauto.
Qed.

(** The forms of [${...}] follow the table of the shell: with [v] the value of
    [name], [${name}] is [v], [${name:-t}] is [t] when [v] is unset or empty,
    [${name:+t}] is [t] when it is neither, [${name?t}] and [${name:?t}] are errors
    when it is unset, or unset or empty, and [${name%t}] and [${name#t}] cut [t]
    from the end and from the start of [v]; no form calls the callback. *)
Theorem parameter_expansion (sw : shellWord) o name w :
  plain_options sw -> identifier name = true -> own_variable sw name ->
  utf8 (op_word o) = true -> forallb plain_rune (runes (op_word o)) = true ->
  match expanded o (envs sw !! name) with
  | Some v => exists words, process sw ("${" +:+ name +:+ op_text o +:+ "}") w = (w, Ret (v, words))
  | None => exists e, process sw ("${" +:+ name +:+ op_text o +:+ "}") w = (w, Fail e)
  end.
Proof. apply process_form. Qed.

End Words.

(** ** Concrete words *)

#[local] Instance ascii_tables : UnicodeTables := {| wide_letter := fun _ => false; wide_digit := fun _ => false |}.
#[local] Instance all_print : Unicode := fun _ => true.

(** A callback that logs the commands it is given. *)
Definition logged (cmd : string) : Eff (list string) string string := fun w => (w ++ [cmd], Ret "out").

Definition sample : shellWord := new_word rBackslash (Some logged) (BuildEnvs ["A=a b"; "E="]) ShellOutEnvs.

Lemma sample_options : plain_options sample.
Proof. done. Qed.

Example words_example :
  process sample "x$A-${N:-d}'$A' $(ls (x) '$y') $HOME" [] =
    (["ls (x) '$y'"; "echo $HOME"], Ret ("xa b-d$A out out", ["xa"; "b-d$A"; "out"; "out"])).
Proof. vm_compute. reflexivity. Qed.

Lemma quoted_literal_witness :
  process sample (dquote +:+ dq_escape ("$(x) \" +:+ dquote) +:+ dquote) [] =
    ([], Ret ("$(x) \" +:+ dquote, ["$(x) \" +:+ dquote])).
Proof. refine (proj1 (quoted_literal sample ("$(x) \" +:+ dquote) [] sample_options _)). vm_compute. reflexivity. Defined.

Lemma parameter_expansion_witness :
  exists words, process sample "${E:-none}" [] = ([], Ret ("none", words)).
Proof.
  refine (parameter_expansion sample (EDefault "none") "E" [] sample_options _ _ _ _).
  - vm_compute. reflexivity.
  - left. vm_compute. discriminate.
  - vm_compute. reflexivity.
  - vm_compute. reflexivity.
Defined.
