(* ===== verification/ShellWorld.v ===== *)
(** * Shell words: what expansion does to the world

    The expansion of a word changes the world only by the commands it runs: a relation
    that every command respects holds across the expansion.  No failure is caught, so for
    an expansion that gives a word it is enough that commands that succeed respect it. *)

From stdpp Require Import gmap.
From S2P Require Import Prelude GoStrings Token GoText Effects RuneFacts ShellLex.

#[local] Open Scope eff_scope.

Section World.
Context {W : Type} `{UnicodeTables} `{Unicode}.
Context (strict : bool) (R : W -> W -> Prop) `{!PreOrder R} (sw : shellWord (W := W)).

(** What counts: every outcome, or values only. *)
Definition counts {A} (o : out string A) : Prop := strict = true -> exists a, o = Ret a.

Definition respects {A} (m : Sh (W := W) A) : Prop := forall s, counts (snd (m s)) -> R (snd s) (snd (fst (m s))).

Lemma respects_same {A} (m : Sh (W := W) A) : (forall s, snd (fst (m s)) = snd s) -> respects m.
Proof. intros Hm s _. rewrite Hm. reflexivity. Qed.

Lemma respects_bind {A B} (m : Sh A) (k : A -> Sh B) : respects m -> (forall a, respects (k a)) -> respects (ebind m k).
Proof.
  intros Hm Hk s Hc. specialize (Hm s). unfold ebind in *. destruct (m s) as [s1 [a|e|]]; simpl in *.
  - etransitivity; [apply Hm; by exists a|by apply Hk].
  - apply Hm. intros [b Hb]%Hc. done.
  - apply Hm. intros [b Hb]%Hc. done.
Qed.

Lemma respects_ret {A} (a : A) : respects (eret a).
Proof. by apply respects_same. Qed.

Lemma respects_fail {A} e : respects (efail (A := A) e).
Proof. by apply respects_same. Qed.

Lemma respects_stuck {A} : respects (estuck (A := A)).
Proof. by apply respects_same. Qed.

Lemma respects_Peek : respects Peek.
Proof. by apply respects_same. Qed.

Lemma respects_Next : respects Next.
Proof. by apply respects_same. Qed.

Lemma respects_done {A} (o : out string A) : respects (done o).
Proof. by apply respects_same. Qed.

Lemma respects_processName : respects processName.
Proof. apply respects_same. intros s. unfold processName. by repeat case_match. Qed.

Lemma respects_processSingleQuote b : respects (processSingleQuote b).
Proof. apply respects_same. intros s. unfold processSingleQuote. by repeat case_match. Qed.

Lemma respects_raw_quote : respects (processDoubleQuoteIgnoringDollar sw).
Proof. apply respects_same. intros s. unfold processDoubleQuoteIgnoringDollar. by case_match. Qed.

Lemma respects_closing m : respects m -> respects (closing m).
Proof.
  intros Hm s Hc. specialize (Hm s). unfold closing in *. destruct (m s) as [s' [[x l]|e|]]; simpl in *; apply Hm.
  - by eexists.
  - by intros [b Hb]%Hc.
  - by intros [b Hb]%Hc.
Qed.

Lemma respects_stopped c r w : respects (stopped c r w).
Proof. unfold stopped. destruct c; [apply respects_fail|apply respects_ret]. Qed.

Hypothesis Hout : forall f cmd w, shellOut sw = Some f -> counts (snd (f cmd w)) -> R w (fst (f cmd w)).

Lemma respects_lift f cmd : shellOut sw = Some f -> respects (lift (f cmd)).
Proof. intros E s. unfold lift. pose proof (Hout f cmd (snd s) E) as Hf. by destruct (f cmd (snd s)). Qed.

Lemma respects_callShellOut cmd : respects (callShellOut sw cmd).
Proof. unfold callShellOut. case_eq (shellOut sw); [intros f E; by apply respects_lift|intros _; apply respects_fail]. Qed.

#[local] Hint Resolve respects_ret respects_fail respects_stuck respects_Peek respects_Next respects_done respects_processName
  respects_processSingleQuote respects_raw_quote respects_closing respects_stopped respects_lift respects_callShellOut : core.

Ltac word :=
  repeat match goal with
  | |- respects (ebind _ _) => apply respects_bind; [|intros ?]
  | |- respects (match ?x with _ => _ end) => destruct x eqn:?
  | |- respects (let _ := _ in _) => cbv zeta
  | _ => solve [auto]
  end.

Lemma respects_getEnv name : respects (getEnv sw name).
Proof. unfold getEnv. destruct (envs sw !! name); [word|]. case_eq (shellOut sw); intros; word. Qed.

Lemma respects_shell_out_loop fuel : forall n b r, respects (shell_out_loop fuel sw n b r).
Proof. induction fuel as [|fuel IH]; intros n b r; simpl; word. Qed.

Lemma respects_processDollarShellOut : respects (processDollarShellOut sw).
Proof. intros s. apply respects_shell_out_loop. Qed.

#[local] Hint Resolve respects_getEnv respects_processDollarShellOut : core.

Lemma respects_loops fuel :
  (forall c r w, respects (stop_on_loop fuel sw c r w)) /\ (forall r, respects (double_quote_loop fuel sw r)) /\
  respects (processDollar fuel sw) /\ respects (processDollarCurlyBracket fuel sw).
Proof.
  induction fuel as [|fuel (IH1 & IH2 & IH3 & IH4)]; [split_and!; intros; apply respects_stuck|].
  split_and!; intros; simpl; word.
Qed.

Lemma ProcessWordWithMap_counts word w :
  counts (snd (ProcessWordWithMap sw word w)) -> R w (fst (ProcessWordWithMap sw word w)).
Proof.
  unfold ProcessWordWithMap, process.
  pose proof (proj1 (respects_loops (word_fuel (scan_init word))) None "" no_words (scan_init word, w)) as Hl.
  destruct (stop_on_loop _ _ _ _ _ _) as [[rs w'] r]. simpl in *. intros Hc. apply Hl. intros [a Ha]%Hc. destruct r; try done. by eexists.
Qed.

End World.

Section Expansion.
Context {W : Type} `{UnicodeTables} `{Unicode}.
Context (R : W -> W -> Prop) `{!PreOrder R} (sw : shellWord (W := W)).

Lemma ProcessWordWithMap_respects (Hout : forall f cmd, shellOut sw = Some f -> preserves R (f cmd)) word w :
  R w (fst (ProcessWordWithMap sw word w)).
Proof. apply (ProcessWordWithMap_counts false); [apply _| |done]. intros f cmd s E _. by apply Hout. Qed.

Lemma ProcessWordWithMap_succeeds
    (Hout : forall f cmd w a, shellOut sw = Some f -> snd (f cmd w) = Ret a -> R w (fst (f cmd w))) word w a :
  snd (ProcessWordWithMap sw word w) = Ret a -> R w (fst (ProcessWordWithMap sw word w)).
Proof.
  intros Ha. apply (ProcessWordWithMap_counts true); [apply _| |by exists a]. intros f cmd s E Hc. destruct (Hc eq_refl) as [b Hb].
  by eapply Hout.
Qed.

End Expansion.
