(* ===== verification/Expand.v ===== *)
(** * Expansion with the variables of a collection

    [Collection.Expand] of [variables/collection.go]: the active variables of the
    effective scope are the environment of a shell word. *)

From stdpp Require Import gmap.
From S2P Require Import Prelude GoStrings Token GoText Reference RuneFacts KeyValue Scope.
From S2P Require Import Collection Effects ShellLex ShellWords.

Section Expand.
Context {W : Type} `{RangeLaws} `{UnicodeTables} `{Unicode}.

Definition Expand (word : string) (shellOut : option (string -> Eff W string string)) (c : Collection) (w : W)
    : Collection * (W * out string string) :=
  match effective c with
  | (c, Ok s) => (c, ProcessWordWithMap (new_word rBackslash shellOut (Map s [WithActive]) ShellOutEnvs) word w)
  | (c, Err e) => (c, (w, Fail e))
  | (c, NoFuel) => (c, (w, Stuck))
  end.

Lemma Map_lookup_active s name : Map s [WithActive] !! name = Get s name [WithActive].
Proof.
  unfold Map, Get. simpl. rewrite map_lookup_filter. destruct (variables s !! name) as [v|]; [|done]. simpl.
  by destruct (is_active s name).
Qed.

Lemma Expand_form c c' s o name out (w : W) :
  effective c = (c', Ok s) -> identifier name = true ->
  utf8 (op_word o) = true -> forallb plain_rune (runes (op_word o)) = true ->
  Get s name [WithActive] <> None \/ name ∉ ShellOutEnvs ->
  match expanded o (Get s name [WithActive]) with
  | Some x => snd (Expand (form name o) out c w) = (w, Ret x)
  | None => exists e, snd (Expand (form name o) out c w) = (w, Fail e)
  end.
Proof.
  intros He Hid Hu Hp Hown. unfold Expand. rewrite He.
  set (sw := new_word _ _ _ _).
  assert (Henv : ShellLex.envs sw !! name = Get s name [WithActive]) by apply Map_lookup_active.
  pose proof (process_form sw o name w ltac:(done) Hid) as Hform.
  unfold own_variable in Hform. rewrite Henv in Hform. unfold ProcessWordWithMap. cbn [snd].
  specialize (Hform ltac:(destruct Hown; auto) Hu Hp).
  destruct (expanded o _); destruct Hform as [? ->]; eauto.
Qed.

(** Expansion reads the collection: after any operations on a new collection,
    a form of [${name...}] expands by the table of the shell at the value that
    [name] has in the current scopes by precedence, active variables only. *)
Theorem Expand_precedence b ov t gi ass soa os c f o name out (w : W) :
  c = run_all os (NewCollection b ov t gi ass soa) -> frame c = Some f ->
  identifier name = true -> utf8 (op_word o) = true -> forallb plain_rune (runes (op_word o)) = true ->
  name ∉ ShellOutEnvs ->
  match expanded o (first_value [WithActive] name (scopes f c)) with
  | Some x => snd (Expand ("${" +:+ name +:+ op_text o +:+ "}") out c w) = (w, Ret x)
  | None => exists e, snd (Expand ("${" +:+ name +:+ op_text o +:+ "}") out c w) = (w, Fail e)
  end.
Proof.
  intros -> Hf Hid Hu Hp Hn. set (c := run_all _ _) in *.
  assert (coherent c) as Hc by (by apply run_all_coherent, coherent_reset).
  destruct (effective_spec c f Hc Hf) as (c' & He & _).
  pose proof (Expand_form c c' _ o name out w He Hid Hu Hp (or_intror Hn)) as Hform.
  by rewrite (proj1 (combined_Get _ _)) in Hform.
Qed.

(** A declared variable expands to its value: when LET or a (non-global) ARG
    succeeds, [${name}] then expands to the value the declaration returned, and
    the callback is not called. *)
Theorem DeclareVar_then_Expand b ov t gi ass soa os c f name prefs c' v d out (w : W) :
  c = run_all os (NewCollection b ov t gi ass soa) -> frame c = Some f ->
  pf_global prefs = false ->
  Get (overriding f) name [WithActive] = None -> Get (builtin c) name [WithActive] = None ->
  (errorOnRedeclare c = false -> Get (vars f) name [WithActive] = None) ->
  identifier name = true ->
  DeclareVar name prefs c = (c', Ok (v, d)) ->
  snd (Expand ("${" +:+ name +:+ "}") out c' w) = (w, Ret v).
Proof.
  intros -> Hf Hg Ho Hb Hv Hid Hd.
  assert (Hc : coherent (run_all os (NewCollection b ov t gi ass soa))) by (by apply run_all_coherent, coherent_reset).
  pose proof (DeclareVar_read _ f name prefs c' v d Hc Hf Hg Ho Hb Hv Hd) as Hr.
  unfold Collection_Get in Hr. destruct (effective c') as [c1 [s|e|]] eqn:He; simpl in Hr; simplify_eq.
  pose proof (Expand_form c' c1 s EPlain name out w He Hid eq_refl eq_refl) as Hform.
  rewrite Hr in Hform. apply Hform. by left.
Qed.

End Expand.

(** ** Concrete collections *)

#[local] Instance list_order : RangeOrder := map_to_list.
#[local] Instance list_order_laws : RangeLaws.
Proof. intros m. reflexivity. Qed.
#[local] Instance ascii_tables : UnicodeTables := {| wide_letter := fun _ => false; wide_digit := fun _ => false |}.
#[local] Instance all_print : Unicode := fun _ => true.

Definition expand_new : Collection :=
  NewCollection NewScope None (mkRef KTarget "" "" "." "" "build") ∅ true true.
Definition expand_ops : list op := [ODeclareVar "x" (mkPrefs None "1" false false)].

Lemma Expand_precedence_witness :
  snd (Expand "${x:+set}" None (run_all expand_ops expand_new) tt) = (tt, Ret "set").
Proof.
  refine (Expand_precedence NewScope None (mkRef KTarget "" "" "." "" "build") ∅ true true expand_ops
    (run_all expand_ops expand_new) _ (EAlternate "set") "x" None tt eq_refl eq_refl eq_refl _ _ _);
    vm_compute; try reflexivity. intros Hx. inversion Hx.
Defined.

Lemma DeclareVar_then_Expand_witness :
  snd (Expand "${y}" None (fst (DeclareVar "y" (mkPrefs None "2" false true) (run_all expand_ops expand_new))) tt) =
    (tt, Ret "2").
Proof.
  eapply (DeclareVar_then_Expand NewScope None (mkRef KTarget "" "" "." "" "build") ∅ true true expand_ops
    (run_all expand_ops expand_new) _ "y" (mkPrefs None "2" false true)); try reflexivity.
Defined.
