(* ===== verification/Matrix.v ===== *)
(** * The matrix of build arguments

    A translation of [util/flagutil/matrix.go].  [crossProduct] passes slices that
    share their backing arrays from one recursive call to the next, so slices are
    modelled as the language defines them: a window of a backing array in a store,
    where [append] writes in place when the capacity allows it and moves to a new
    array otherwise.  The capacity of a new array is the runtime's choice and is a
    parameter. *)

From stdpp Require Import list.
From S2P Require Import Prelude GoStrings GoText KeyValue.

(** ** Slices *)

(** The capacity of the array [append] moves to, from the old capacity and the
    length that is needed. *)
Class SliceGrowth : Type := growslice : nat -> nat -> nat.
Class SliceGrowthLaws `{SliceGrowth} : Prop := growslice_enough old need : need <= growslice old need.

(** A slice: its array in the store, its length and its capacity. *)
Record slice : Type := mkSlice { sl_arr : nat; sl_len : nat; sl_cap : nat }.

Abbreviation store := (list (list string)).

Definition nil_slice : slice := mkSlice 0 0 0.

(** The elements of a slice. *)
Definition contents (st : store) (s : slice) : list string := take (sl_len s) (default [] (st !! sl_arr s)).

(** [append(s, x)] *)
Definition append `{SliceGrowth} (s : slice) (x : string) (st : store) : store * slice :=
  if sl_len s <? sl_cap s then
    (alter (fun a => <[sl_len s := x]> a) (sl_arr s) st, mkSlice (sl_arr s) (S (sl_len s)) (sl_cap s))
  else
    let cap := growslice (sl_cap s) (S (sl_len s)) in
    (st ++ [contents st s ++ [x] ++ replicate (cap - S (sl_len s)) ""],
     mkSlice (length st) (S (sl_len s)) cap).

(** ** Groups *)

Record argGroup : Type := mkGroup { ag_key : string; ag_values : list (option string) }.

(** [SplitN] gives at least one piece, so there is no error. *)
Definition parseKeyValue (arg : string) : string * option string :=
  match SplitN2 arg equals with
  | [name; value] => (name, Some value)
  | name :: _ => (name, None)
  | [] => ("", None)
  end.

(** One iteration of the loop of [BuildArgMatrix]. *)
Fixpoint add_value (k : string) (v : option string) (groups : list argGroup) : list argGroup :=
  match groups with
  | [] => [mkGroup k [v]]
  | g :: gs =>
      if String.eqb (ag_key g) k then mkGroup (ag_key g) (ag_values g ++ [v]) :: gs
      else g :: add_value k v gs
  end.

Definition groupArgs (args : list string) : list argGroup :=
  fold_left (fun gs arg => let '(k, v) := parseKeyValue arg in add_value k v gs) args [].

Definition pair_text (key : string) (v : option string) : string :=
  match v with None => key | Some v => key +:+ "=" +:+ v end.

Section Matrix.
Context `{SliceGrowth}.

(** [crossProduct] and the loop over the values of its first group. *)
Fixpoint crossProduct (ga : list argGroup) (prefix : slice) (st : store) {struct ga} : store * list slice :=
  match ga with
  | [] => (st, [prefix])
  | g :: ga =>
      (fix each (vs : list (option string)) (st : store) : store * list slice :=
        match vs with
        | [] => (st, [])
        | v :: vs =>
            let '(st, newPrefix) := append prefix (pair_text (ag_key g) v) st in
            let '(st, cp) := crossProduct ga newPrefix st in
            let '(st, ret) := each vs st in
            (st, cp ++ ret)
        end) (ag_values g) st
  end.

Definition BuildArgMatrix (args : list string) : list (list string) :=
  let '(st, slices) := crossProduct (groupArgs args) nil_slice [] in List.map (contents st) slices.

(** ** The specification *)

Definition group_pairs (g : argGroup) : list string := List.map (pair_text (ag_key g)) (ag_values g).

(** All combinations, the first group varying slowest. *)
Fixpoint combinations (gs : list (list string)) : list (list string) :=
  match gs with
  | [] => [[]]
  | g :: gs => flat_map (fun x => List.map (cons x) (combinations gs)) g
  end.

(** Where the slices can go wrong: a group whose pairs are written in place, in a
    common array, must have one value at most. *)
Fixpoint unshared (len cap : nat) (ga : list argGroup) : bool :=
  match ga with
  | [] => true
  | g :: ga =>
      if len <? cap then (length (ag_values g) <=? 1) && unshared (S len) cap ga
      else unshared (S len) (growslice cap (S len)) ga
  end.

(** ** The slices of a cross product *)

(** A slice within its array. *)
Definition slice_ok (st : store) (s : slice) : Prop :=
  sl_len s <= sl_cap s /\ (sl_cap s = 0 \/ exists a, st !! sl_arr s = Some a /\ length a = sl_cap s).

(** Arrays below [n], but [except], are the same in both stores. *)
Definition same_below (n : nat) (except : option nat) (st st' : store) : Prop :=
  forall i, i < n -> except <> Some i -> st' !! i = st !! i.

(** The arrays a call may write: the new ones, and that of its prefix in place. *)
Definition written (s : slice) : option nat := if sl_len s <? sl_cap s then Some (sl_arr s) else None.

(** The slices a call returns are in new arrays or in that of its prefix. *)
Definition returned (n n' : nat) (prefix s : slice) : Prop :=
  sl_len s = 0 \/ (sl_arr s < n' /\ (n <= sl_arr s \/ sl_arr s = sl_arr prefix)).

Context `{!SliceGrowthLaws}.

Lemma append_full s x st :
  slice_ok st s -> sl_len s = sl_cap s ->
  let '(st', s') := append s x st in
  st' = st ++ [default [] (st' !! length st)] /\ sl_arr s' = length st /\ slice_ok st' s' /\
  sl_len s' = S (sl_len s) /\ sl_cap s' = growslice (sl_cap s) (S (sl_len s)) /\
  contents st' s' = contents st s ++ [x].
Proof.
  intros [Hle Hok] Hfull. unfold append. rewrite (proj2 (Nat.ltb_ge _ _)) by lia. cbv zeta.
  pose proof (growslice_enough (sl_cap s) (S (sl_len s))) as Hg.
  assert (Hlen : length (contents st s) = sl_len s).
  { unfold contents. rewrite length_take. destruct Hok as [Hz|(a & -> & Ha)]; simpl; lia. }
  set (a := contents st s ++ _).
  assert (Hla : length a = growslice (sl_cap s) (S (sl_len s))).
  { unfold a. rewrite !length_app, length_replicate, Hlen. simpl. lia. }
  cbv iota beta. rewrite list_lookup_middle by done. simpl. split_and!; try done; [split; simpl; [lia|]|].
  - right. exists a. split; [|done]. by rewrite list_lookup_middle.
  - unfold contents at 1. cbn [sl_arr sl_len]. rewrite list_lookup_middle by done. cbn [from_option id].
    unfold a. rewrite app_assoc, take_app_le by (rewrite length_app; simpl; lia).
    apply take_ge. rewrite length_app. simpl. lia.
Qed.

Lemma append_room s x st :
  slice_ok st s -> sl_len s < sl_cap s ->
  let '(st', s') := append s x st in
  length st' = length st /\ same_below (length st) (Some (sl_arr s)) st st' /\ sl_arr s' = sl_arr s /\
  slice_ok st' s' /\ sl_len s' = S (sl_len s) /\ sl_cap s' = sl_cap s /\ contents st' s' = contents st s ++ [x].
Proof.
  intros [Hle Hok] Hroom. unfold append. rewrite (proj2 (Nat.ltb_lt _ _)) by lia.
  destruct Hok as [Hz|(a & Ha & Hla)]; [lia|].
  assert (Ha' : alter (fun a => <[sl_len s := x]> a) (sl_arr s) st !! sl_arr s = Some (<[sl_len s := x]> a))
    by (by rewrite list_lookup_alter_eq, Ha).
  split_and!; simpl; try done.
  - apply length_alter.
  - intros i _ Hi. apply list_lookup_alter_ne. congruence.
  - split; simpl; [lia|]. right. eexists. split; [exact Ha'|]. by rewrite length_insert.
  - unfold contents. simpl. rewrite Ha', Ha. simpl. rewrite (take_S_r _ _ x).
    + by rewrite take_insert_ge.
    + apply list_lookup_insert_eq. lia.
Qed.

Lemma contents_same n e st st' s :
  same_below n e st st' -> sl_len s = 0 \/ (sl_arr s < n /\ e <> Some (sl_arr s)) -> contents st' s = contents st s.
Proof. unfold contents. intros Hs [->|[Hn He]]; [done|]. by rewrite Hs. Qed.

Lemma slice_ok_same n st st' s :
  same_below n None st st' -> length st <= n -> slice_ok st s -> slice_ok st' s.
Proof.
  intros Hs Hn [Hle Hok]. split; [done|]. destruct Hok as [Hz|(a & Ha & Hla)]; [by left|right].
  exists a. split; [|done]. rewrite Hs; [done| |done]. apply lookup_lt_Some in Ha. lia.
Qed.

Lemma same_below_weaken n m e e' st st' :
  same_below n e st st' -> m <= n -> (forall i, i < m -> e' <> Some i -> e <> Some i) -> same_below m e' st st'.
Proof. intros Hs Hm He i Hi Hne. apply Hs; [lia|]. by apply He. Qed.

Lemma same_below_trans n e st st' st'' : same_below n e st st' -> same_below n e st' st'' -> same_below n e st st''.
Proof. intros H1 H2 i Hi Hne. by rewrite H2, H1. Qed.

(** What a call promises. *)
Definition crossed (prefix : slice) (st : store) (combos : list (list string)) (r : store * list slice) : Prop :=
  length st <= length (fst r) /\ same_below (length st) (written prefix) st (fst r) /\
  Forall (returned (length st) (length (fst r)) prefix) (snd r) /\
  List.map (contents (fst r)) (snd r) = List.map (app (contents st prefix)) combos.

Lemma crossed_nil prefix st : slice_ok st prefix -> crossed prefix st [[]] (st, [prefix]).
Proof.
  intros [Hle Hok]. split_and!; simpl; [done|by intros i| |by rewrite app_nil_r].
  apply Forall_singleton. unfold returned. destruct Hok as [Hz|(a & Ha & _)]; [left; lia|].
  right. split; [by apply lookup_lt_Some in Ha|by right].
Qed.

(** A pair in place: only one value can be written there. *)
Lemma crossed_room prefix x st combos r :
  slice_ok st prefix -> sl_len prefix < sl_cap prefix ->
  crossed (snd (append prefix x st)) (fst (append prefix x st)) combos r ->
  crossed prefix st (List.map (cons x) combos) r.
Proof.
  intros Hok Hroom. pose proof (append_room prefix x st Hok Hroom) as Ha.
  destruct (append prefix x st) as [st1 p1]. destruct Ha as (Hl & Hs & Harr & _ & Hlen & Hcap & Hc). simpl.
  intros (Hl' & Hs' & Hr & Hm). rewrite Hl in *.
  assert (Hw : written prefix = Some (sl_arr prefix)) by (unfold written; by rewrite (proj2 (Nat.ltb_lt _ _))).
  split_and!; [lia| | |].
  - rewrite Hw. apply (same_below_trans _ _ _ st1); [done|]. eapply same_below_weaken; [done|lia|].
    intros i _ Hi. unfold written. rewrite Harr. by case_match.
  - eapply Forall_impl; [|exact Hr]. unfold returned. intros s. by rewrite Harr.
  - rewrite Hm, Hc, map_map. apply map_ext. intros l. by rewrite <- app_assoc.
Qed.

(** A pair in a new array: any number of values. *)
Lemma crossed_full prefix x st combos r combos' (k : store -> store * list slice) :
  slice_ok st prefix -> sl_len prefix = sl_cap prefix ->
  crossed (snd (append prefix x st)) (fst (append prefix x st)) combos r ->
  crossed prefix (fst r) combos' (k (fst r)) ->
  crossed prefix st (List.map (cons x) combos ++ combos') (fst (k (fst r)), snd r ++ snd (k (fst r))).
Proof.
  intros Hok Hfull. pose proof (append_full prefix x st Hok Hfull) as Ha.
  destruct (append prefix x st) as [st1 p1]. destruct Ha as (Hst & Harr & _ & _ & _ & Hc). simpl.
  assert (Hl1 : length st1 = S (length st)) by (rewrite Hst, length_app; simpl; lia).
  assert (Hw : written prefix = None) by (unfold written; by rewrite (proj2 (Nat.ltb_ge _ _)) by lia).
  intros (Hl2 & Hs2 & Hr2 & Hm2) (Hl3 & Hs3 & Hr3 & Hm3). rewrite Hl1 in *. rewrite Hw in *.
  assert (Hs12 : same_below (length st) None st (fst r)).
  { apply (same_below_trans _ _ _ st1).
    - intros i Hi _. rewrite Hst. by rewrite lookup_app_l.
    - eapply same_below_weaken; [exact Hs2|lia|]. intros i Hi _. unfold written. rewrite Harr.
      case_match; [|done]. intros [= E]. lia. }
  destruct (k (fst r)) as [st3 ret]. simpl in *. unfold crossed. rewrite Hw. cbn [fst snd]. split_and!; [lia| | |].
  - apply (same_below_trans _ _ _ (fst r)); [done|]. eapply same_below_weaken; [exact Hs3|lia|done].
  - apply Forall_app. split; (eapply Forall_impl; [|eassumption]); unfold returned; intros s;
      rewrite ?Harr; intros [Hz|[? [?|?]]]; try (by left); right; (split; [lia|]); try (by left; lia). by right.
  - rewrite !map_app. f_equal.
    + transitivity (List.map (contents (fst r)) (snd r)).
      * apply List.map_ext_Forall. eapply Forall_impl; [|exact Hr2]. intros s Hs.
        apply (contents_same _ _ _ _ _ Hs3). destruct Hs as [Hz|[? _]]; [by left|by right].
      * rewrite Hm2, Hc, map_map. apply map_ext. intros l. by rewrite <- app_assoc.
    + rewrite Hm3. f_equal. f_equal. apply (contents_same _ _ _ _ _ Hs12).
      destruct Hok as [Hle [Hz|(a & Ha & _)]]; [left; lia|right]. split; [by apply lookup_lt_Some in Ha|done].
Qed.

(** The loop over the values of one group. *)
Fixpoint each_value (key : string) (ga : list argGroup) (prefix : slice) (vs : list (option string)) (st : store)
    : store * list slice :=
  match vs with
  | [] => (st, [])
  | v :: vs =>
      let '(st, newPrefix) := append prefix (pair_text key v) st in
      let '(st, cp) := crossProduct ga newPrefix st in
      let '(st, ret) := each_value key ga prefix vs st in
      (st, cp ++ ret)
  end.

Lemma crossProduct_cons g ga prefix st :
  crossProduct (g :: ga) prefix st = each_value (ag_key g) ga prefix (ag_values g) st.
Proof.
  simpl. revert st. induction (ag_values g) as [|v vs IH]; intros st; simpl; [done|].
  destruct (append _ _ _) as [st1 p1]. destruct (crossProduct ga p1 st1) as [st2 cp]. by rewrite IH.
Qed.

Lemma crossed_none prefix st : crossed prefix st [] (st, []).
Proof. split_and!; simpl; [done|by intros i|constructor|done]. Qed.

Lemma each_value_full key ga prefix vs : forall st,
  (forall p st, slice_ok st p -> sl_len p = S (sl_len prefix) -> sl_cap p = growslice (sl_cap prefix) (S (sl_len prefix)) ->
     crossed p st (combinations (List.map group_pairs ga)) (crossProduct ga p st)) ->
  slice_ok st prefix -> sl_len prefix = sl_cap prefix ->
  crossed prefix st (flat_map (fun x => List.map (cons x) (combinations (List.map group_pairs ga))) (List.map (pair_text key) vs))
    (each_value key ga prefix vs st).
Proof.
  induction vs as [|v vs IH]; intros st Hga Hok Hfull; simpl; [apply crossed_none|].
  pose proof (append_full prefix (pair_text key v) st Hok Hfull) as Ha.
  destruct (append _ _ _) as [st1 p1] eqn:Ea. destruct Ha as (Hst & Harr & Hok1 & Hlen & Hcap & _).
  pose proof (Hga p1 st1 Hok1 Hlen Hcap) as Hcr. destruct (crossProduct ga p1 st1) as [st2 cp] eqn:Ec.
  assert (Hok2 : slice_ok st2 prefix).
  { apply (slice_ok_same (length st) st); [|done|done]. destruct Hcr as (_ & Hs & _).
    apply (same_below_trans _ _ _ st1).
    - intros i Hi _. rewrite Hst. by rewrite lookup_app_l.
    - eapply same_below_weaken; [exact Hs|rewrite Hst, length_app; simpl; lia|].
      intros i Hi _. unfold written. rewrite Harr. case_match; [|done]. intros [= E]. lia. }
  specialize (IH st2 Hga Hok2 Hfull). destruct (each_value _ _ _ vs st2) as [st3 ret] eqn:Ev.
  pose proof (fun c c' => crossed_full prefix (pair_text key v) st c (st2, cp) c' (each_value key ga prefix vs) Hok Hfull) as Hx.
  rewrite Ea in Hx. simpl in Hx. rewrite Ev in Hx. by apply Hx.
Qed.

Lemma crossProduct_spec ga : forall prefix st,
  slice_ok st prefix -> unshared (sl_len prefix) (sl_cap prefix) ga = true ->
  crossed prefix st (combinations (List.map group_pairs ga)) (crossProduct ga prefix st).
Proof.
  induction ga as [|g ga IH]; intros prefix st Hok Hun; [by apply crossed_nil|].
  rewrite crossProduct_cons. cbn [unshared] in Hun. destruct (sl_len prefix <? sl_cap prefix) eqn:Er.
  - apply Nat.ltb_lt in Er. apply andb_true_iff in Hun as [H1 Hun]. apply Nat.leb_le in H1.
    destruct g as [key [|v [|v' vs]]]; simpl in *; [apply crossed_none| |lia]. rewrite app_nil_r.
    pose proof (append_room prefix (pair_text key v) st Hok Er) as Ha.
    apply (crossed_room prefix (pair_text key v) st); [done|done|].
    destruct (append _ _ _) as [st1 p1]. destruct Ha as (_ & _ & _ & Hok1 & Hlen & Hcap & _).
    rewrite <- Hlen, <- Hcap in Hun. specialize (IH p1 st1 Hok1 Hun). simpl.
    destruct (crossProduct ga p1 st1) as [st2 cp]. by rewrite app_nil_r.
  - apply Nat.ltb_ge in Er. destruct Hok as [Hle Hok]. cbn [List.map combinations]. apply each_value_full; [|done|lia].
    intros p st' Hok' Hlen Hcap. apply IH; [done|]. by rewrite Hlen, Hcap.
Qed.


End Matrix.

(** ** The growth of the runtime *)

(** [growslice] of the Go runtime for slices of strings below 256 elements, to
    which elements are appended one at a time: the capacity doubles. *)
#[local] Instance doubling : SliceGrowth := fun old need => if 2 * old <? need then need else 2 * old.

#[local] Instance doubling_laws : SliceGrowthLaws.
Proof. intros old need. unfold growslice, doubling. destruct (Nat.ltb_spec (2 * old) need); lia. Qed.

(** Three arguments are safe: with the growth of the runtime, the matrix of at
    most three different arguments, with any number of values each, is their
    product. *)
Lemma BuildArgMatrix_three args :
  length (groupArgs args) <= 3 -> BuildArgMatrix args = combinations (List.map group_pairs (groupArgs args)).
Proof.
  intros Hlen. unfold BuildArgMatrix.
  destruct (crossProduct_spec (groupArgs args) nil_slice []) as (_ & _ & _ & Hm); [split; [done|by left]| |].
  { destruct (groupArgs args) as [|g1 [|g2 [|g3 [|]]]]; simpl in *; done || lia. }
  destruct (crossProduct _ _ _) as [st slices]. simpl in *. rewrite Hm. apply List.map_id.
Qed.

(** The fourth is not: the pairs of the fourth argument are written one over the
    other in the array its combinations share, and only the last value is left. *)
Lemma BuildArgMatrix_shared :
  BuildArgMatrix ["a=1"; "b=1"; "c=1"; "d=1"; "d=2"] =
    [["a=1"; "b=1"; "c=1"; "d=2"]; ["a=1"; "b=1"; "c=1"; "d=2"]] /\
  combinations (List.map group_pairs (groupArgs ["a=1"; "b=1"; "c=1"; "d=1"; "d=2"])) =
    [["a=1"; "b=1"; "c=1"; "d=1"]; ["a=1"; "b=1"; "c=1"; "d=2"]].
Proof. split; vm_compute; reflexivity. Qed.

