(* ===== verification/FlagUtil.v ===== *)
(** * The arguments of commands

    A translation of [util/flagutil/parse.go] and
    [util/stringutil/process_params_and_quotes.go]: how the arguments of a command
    are regrouped around quotes and parentheses, how the values of boolean flags
    are expanded before they are parsed, and the arguments of ARG, of COPY and of
    WITH DOCKER --load.  The parser of flags ([go-flags]) is a parameter. *)

From stdpp Require Import gmap.
From S2P Require Import Prelude GoStrings Token Ast GoText KeyValue Effects.

Open Scope eff_scope.

Definition space : string := " ".

(** ** [ProcessParamsAndQuotes] *)

(** The quote that is open after a rune. *)
Definition quote_step (openQuote : option Z) (ch : Z) : option Z :=
  match openQuote with
  | None => if (ch =? rDQuote)%Z || (ch =? rSQuote)%Z || (ch =? 40)%Z then Some ch else None
  | Some q =>
      if ((q =? rDQuote)%Z && (ch =? rDQuote)%Z) || ((q =? rSQuote)%Z && (ch =? rSQuote)%Z) ||
         ((q =? 40)%Z && (ch =? 41)%Z) then None
      else Some q
  end.

Definition quote_state (openQuote : option Z) (arg : string) : option Z := fold_left quote_step (runes arg) openQuote.

Fixpoint params_loop (args : list string) (openQuote : option Z) (sb : string) (merged : list string) : list string :=
  match args with
  | [] => match openQuote with None => merged | Some _ => merged ++ [sb] end
  | arg :: rest =>
      let sb := sb +:+ arg in
      match quote_state openQuote arg with
      | None => params_loop rest None "" (merged ++ [sb])
      | Some q => params_loop rest (Some q) (match rest with [] => sb | _ => sb +:+ space end) merged
      end
  end.

Definition ProcessParamsAndQuotes (args : list string) : list string := params_loop args None "" [].

(** ** [preprocessArgs] *)

(** [for j, c := range s] *)
Fixpoint range_fuel (fuel : nat) (j : nat) (s : string) : list (nat * Z) :=
  match fuel, s with
  | S f, String _ _ => let '(r, w) := DecodeRuneInString s in (j, r) :: range_fuel f (j + w) (sdrop w s)
  | _, _ => []
  end.

Definition range_string (s : string) : list (nat * Z) := range_fuel (String.length s) 0 s.

(** [strings.FieldsFunc]: the slices between the runes that [sep] accepts. *)
Fixpoint fields_runes (sep : Z -> bool) (s : string) (l : list (nat * Z)) (start : option nat) : list string :=
  match l with
  | [] => match start with Some a => [slice a (String.length s) s] | None => [] end
  | (j, r) :: l =>
      if sep r then match start with Some a => [slice a j s] | None => [] end ++ fields_runes sep s l None
      else fields_runes sep s l (match start with None => Some j | Some a => Some a end)
  end.

Definition FieldsFunc (s : string) (sep : Z -> bool) : list string := fields_runes sep s (range_string s) None.

Section Preprocess.
Context {S E : Type}.

(** The flag's name and its value; [None] asks for the flag without a value. *)
Variable modFunc : string -> string -> Eff S E (option string).
Variable boolFlags : gset string.

Definition is_bool (name : string) : bool := bool_decide (name ∈ boolFlags).

(** The value a short flag is followed by. *)
Definition next_value (rest : list string) : option string :=
  match rest with
  | v :: _ => if HasPrefix v "-" then None else Some v
  | [] => None
  end.

(** A value the modifier makes of the next argument. *)
Definition modify_next (name : string) (rest : list string) : Eff S E (option string) :=
  match next_value rest with
  | Some v => modFunc name v
  | None => eret None
  end.

(** The loop over clustered short flags: the last one may have a value. *)
Fixpoint cluster_loop (n : nat) (flags : list (nat * Z)) (rest : list string) : Eff S E (option string) :=
  match flags with
  | [] => eret None
  | (j, c) :: flags =>
      if negb (is_bool (EncodeRune c)) || negb (j =? n - 1) then cluster_loop n flags rest
      else
        m <- modify_next (EncodeRune c) rest ;;
        match m with
        | Some v => eret (Some v)
        | None => cluster_loop n flags rest
        end
  end.

(** What one argument becomes, and whether the next one was its value. *)
Definition preprocess_arg (arg : string) (rest : list string) : Eff S E (list string * bool) :=
  if HasPrefix arg "--" then
    match SplitN2 (sdrop 2 arg) equals with
    | [flagName; value] =>
        if negb (is_bool flagName) then eret ([arg], false)
        else
          m <- modFunc flagName value ;;
          eret ([match m with Some v => "--" +:+ flagName +:+ "=" +:+ v | None => "--" +:+ flagName end], false)
    | _ => eret ([arg], false)
    end
  else if HasPrefix arg "-" then
    let flagPart := TrimPrefix arg "-" in
    if ContainsByte flagPart equals then
      match SplitN2 flagPart equals with
      | [flagName; value] =>
          if negb (String.length flagName =? 1) || negb (is_bool flagName) then eret ([arg], false)
          else
            m <- modFunc flagName value ;;
            eret ([match m with Some v => "-" +:+ flagName +:+ "=" +:+ v | None => arg end], false)
      | _ => eret ([arg], false)
      end
    else if (String.length flagPart =? 1) && is_bool flagPart then
      m <- modify_next flagPart rest ;;
      eret (match m with Some v => ([arg; v], true) | None => ([arg], false) end)
    else if 1 <? String.length flagPart then
      m <- cluster_loop (String.length flagPart) (range_string flagPart) rest ;;
      eret (match m with Some v => ([arg; v], true) | None => ([arg], false) end)
    else eret ([arg], false)
  else eret ([arg], false).

(** The loop; [skip] when the argument was the value of the one before. *)
Fixpoint preprocess_loop (args : list string) (skip : bool) (result : list string) : Eff S E (list string) :=
  match args with
  | [] => eret result
  | arg :: rest =>
      if skip then preprocess_loop rest false result
      else r <- preprocess_arg arg rest ;; preprocess_loop rest (snd r) (result ++ fst r)
  end.

Definition preprocessArgs (args : list string) : Eff S E (list string) := preprocess_loop args false [].

End Preprocess.

(** ** [SplitFlagString] *)

Definition flag_separator (r : Z) : bool := (r =? rSP)%Z || (r =? rComma)%Z.

Definition SplitFlagString (values : list string) : list string :=
  flat_map (fun val => FieldsFunc val flag_separator) values.

(** ** ARG *)

(** [cmdopts.Arg] *)
Record ArgOpts : Type := mkArgOpts { arg_Required : bool; arg_Global : bool }.

Definition ErrInvalidSyntax : string := "invalid syntax".
Definition ErrRequiredArgHasDefault : string := "required ARG cannot have a default value".
Definition ErrGlobalArgNotInBase : string := "global ARG can only be set in the base target".
Definition errUnknownGlobal : string := "unknown flag --global".

(** A parser of flags into options of type [O], with the arguments that are left. *)
Definition flag_parser (O : Type) : Type := list string -> res (O * list string).

Definition ParseArgsCleaned {O} (parse : flag_parser O) (args : list string) : res (O * list string) :=
  parse (ProcessParamsAndQuotes args).

Definition ParseArgArgs (parse : flag_parser ArgOpts) (cmd : Command) (isBaseTarget explicitGlobalFeature : bool)
    : res (ArgOpts * string * option string) :=
  let* r := ParseArgsCleaned parse (cmd_Args cmd) in
  let '(opts, args) := r in
  if arg_Global opts && negb explicitGlobalFeature then Err errUnknownGlobal
  else if arg_Global opts && negb isBaseTarget then Err ErrGlobalArgNotInBase
  else
    let opts := if negb (arg_Global opts) && negb explicitGlobalFeature
                then mkArgOpts (arg_Required opts) isBaseTarget else opts in
    match args with
    | [key; eq; value] =>
        if negb (String.eqb eq "=") then Err ErrInvalidSyntax
        else if arg_Required opts then Err ErrRequiredArgHasDefault
        else Ok (opts, key, Some value)
    | [key] => Ok (opts, key, None)
    | _ => Err ErrInvalidSyntax
    end.

(** ** Params: "(+target --flag=something)" *)

Definition IsInParamsForm (str : string) : bool :=
  (HasPrefix str (dquote +:+ "(") && HasSuffix str (dquote +:+ ")")) || (HasPrefix str "(" && HasSuffix str ")").

Definition errNotParams : string := "params atom not in ( ... )".
Definition errEscapeEnd : string := "unterminated escape sequence".
Definition errQuoteEnd : string := "no ending quotes".
Definition errEmptyParams : string := "invalid empty params".

Definition is_blank_rune (r : Z) : bool := (r =? rSP)%Z || (r =? rTAB)%Z || (r =? rNL)%Z.

Definition add_part (part : list Z) (parts : list string) : list string :=
  match part with [] => parts | _ => parts ++ [string_of_runes part] end.

Fixpoint param_loop (rs : list Z) (parts : list string) (part : list Z) (nextEscaped inQuotes : bool)
    : res (list string) :=
  match rs with
  | [] =>
      if nextEscaped then Err errEscapeEnd
      else if inQuotes then Err errQuoteEnd
      else Ok (add_part part parts)
  | r :: rs =>
      if (r =? rDQuote)%Z then
        param_loop rs parts (part ++ [r]) false (if nextEscaped then inQuotes else negb inQuotes)
      else if (r =? rBackslash)%Z then param_loop rs parts (part ++ [r]) true inQuotes
      else if is_blank_rune r && negb inQuotes && negb nextEscaped then
        param_loop rs (add_part part parts) [] false inQuotes
      else param_loop rs parts (part ++ [r]) false inQuotes
  end.

Definition ParseParams (str : string) : res (string * list string) :=
  if negb (IsInParamsForm str) then Err errNotParams
  else
    let n := String.length str in
    let str := if HasPrefix str (dquote +:+ "(") then slice 2 (n - 2) str else slice 1 (n - 1) str in
    let* parts := param_loop (runes str) [] [] false false in
    match parts with
    | [] => Err errEmptyParams
    | first :: rest => Ok (first, rest)
    end.

(** The image, the target and the extra arguments. *)
Definition ParseLoad (loadStr : string) : res (string * string * list string) :=
  match SplitN2 loadStr " "%char with
  | [] => Ok ("", "", [])
  | firstWord :: words =>
      let '(image, target) :=
        match SplitN2 firstWord equals with
        | [image; t] => (image, match words with [] => t | _ => Join (t :: words) space end)
        | _ => ("", loadStr)
        end in
      if IsInParamsForm target then
        let* r := ParseParams target in Ok (image, fst r, snd r)
      else Ok (image, target, [])
  end.

Example params_1 :
  ParseParams ("(+target/art --flag=" +:+ dquote +:+ "in quotes" +:+ dquote +:+ ")") =
    Ok ("+target/art", ["--flag=" +:+ dquote +:+ "in quotes" +:+ dquote]).
Proof. vm_compute. reflexivity. Qed.

Example params_2 : ProcessParamsAndQuotes ["hello "; "wor("; "ld)"] = ["hello "; "wor( ld)"].
Proof. vm_compute. reflexivity. Qed.

Example load_1 : ParseLoad "my-image=(+target --arg1 foo --arg2=bar)" =
  Ok ("my-image", "+target", ["--arg1"; "foo"; "--arg2=bar"]).
Proof. vm_compute. reflexivity. Qed.

Example split_flags : SplitFlagString ["linux/amd64, linux/arm64"; "b"] = ["linux/amd64"; "linux/arm64"; "b"].
Proof. vm_compute. reflexivity. Qed.

(** * The arguments of commands: facts

    Regrouping keeps the text of the arguments and splits it exactly where every
    quote is closed; the params form reads back the words it was made of; what ARG
    accepts. *)

From S2P Require Import Reference RuneFacts.

Open Scope eff_scope.

(** ** Scanning runes for ASCII characters *)

Lemma fold_high {A} (f : A -> Z -> A) s a :
  (forall a r, (128 <= r)%Z -> f a r = a) -> sall high s = true -> fold_left f (codes s) a = a.
Proof.
  intros Hf. induction s as [|c s IH]; [done|]. simpl. unfold high at 1. intros [Hc Hs]%andb_true_iff. to_prop.
  rewrite Hf by done. by apply IH.
Qed.

Lemma codes_app s t : codes (s +:+ t) = codes s ++ codes t.
Proof. induction s as [|c s IH]; simpl; [done|]. by rewrite <- IH. Qed.

(** A scan that ignores what is not ASCII sees the same runes as bytes. *)
Lemma fold_runes {A} (f : A -> Z -> A) s : forall a,
  (forall a r, (128 <= r)%Z -> f a r = a) -> fold_left f (runes s) a = fold_left f (codes s) a.
Proof.
  remember (String.length s) as n eqn:Hn. assert (Hle : String.length s <= n) by lia. clear Hn. revert s Hle.
  induction n as [|n IH]; intros s Hle a Hf; [by destruct s; simpl in *; [|lia]|].
  destruct s as [|c s']; [done|]. set (s := String c s') in *.
  destruct (DecodeRuneInString s) as [r w] eqn:Hd. rewrite (runes_unfold s r w) by done.
  destruct (decode_spec s r w ltac:(done) Hd) as (_ & Hw & Hlow).
  change (fold_left f (r :: runes (sdrop w s)) a) with (fold_left f (runes (sdrop w s)) (f a r)).
  rewrite IH by (done || (rewrite length_sdrop; lia)).
  assert (Hcs : codes s = codes (stake w s) ++ codes (sdrop w s)) by (by rewrite <- codes_app, stake_sdrop).
  rewrite Hcs, fold_left_app. f_equal.
  destruct (Z.ltb_spec r 128) as [Hr|Hr].
  - destruct (Hlow Hr) as (-> & c0 & s0 & Hs & <-). rewrite Hs. by destruct s0.
  - rewrite Hf by done. symmetry. apply fold_high; [done|]. by apply (decode_high s r w).
Qed.

Lemma quote_step_high q r : (128 <= r)%Z -> quote_step q r = q.
Proof.
  intros Hr. unfold quote_step. destruct q as [q|]; repeat case_test; try done; to_prop; lia.
Qed.

Lemma quote_state_app q s t : quote_state q (s +:+ t) = quote_state (quote_state q s) t.
Proof.
  unfold quote_state. rewrite !fold_runes by apply quote_step_high. by rewrite codes_app, fold_left_app.
Qed.

Lemma quote_state_space q : quote_state q space = q.
Proof. destruct q as [q|]; [|done]. unfold quote_state. simpl. by rewrite !andb_false_r. Qed.

(** ** Regrouping *)

Definition joined (g : list string) : string := Join g space.

Lemma joined_snoc g a : g <> [] -> joined (g ++ [a]) = joined g +:+ space +:+ a.
Proof.
  intros Hg. unfold joined. induction g as [|x g IH]; [done|]. destruct g as [|y g]; [done|].
  change (Join ((x :: y :: g) ++ [a]) space) with (x +:+ space +:+ Join ((y :: g) ++ [a]) space).
  rewrite IH by done. change (Join (x :: y :: g) space) with (x +:+ space +:+ Join (y :: g) space).
  by rewrite <- !sapp_assoc.
Qed.

(** Every quote of a group is closed. *)
Definition closed (g : list string) : Prop := quote_state None (joined g) = None.

(** A quote is open after every argument of the group. *)
Definition opened (g : list string) : Prop := forall p s, g = p ++ s -> p <> [] -> ~ closed p.

(** A group that does not close before its last argument. *)
Definition group_ok (g : list string) : Prop :=
  g <> [] /\ forall p s, g = p ++ s -> p <> [] -> s <> [] -> ~ closed p.

Lemma opened_group g a : opened g -> group_ok (g ++ [a]).
Proof.
  intros Hg. split; [by destruct g|]. intros p s E Hp Hs. destruct (exists_last Hs) as (s' & x & ->).
  rewrite app_assoc in E. apply app_inj_tail in E as [-> _]. by apply (Hg p s').
Qed.

Lemma opened_snoc g a : opened g -> ~ closed (g ++ [a]) -> opened (g ++ [a]).
Proof.
  intros Hg Ha p s E Hp. destruct s as [|x s]; [by rewrite app_nil_r in E; subst|].
  destruct (opened_group g a Hg) as [_ Hok]. by apply (Hok p (x :: s)).
Qed.

(** The text and the state of the loop, in terms of the group that is open. *)
Definition loop_state (g : list string) (more : bool) : option Z * string :=
  (quote_state None (joined g), match g with [] => "" | _ => if more then joined g +:+ space else joined g end).

Lemma loop_state_step g a :
  quote_state (fst (loop_state g true)) a = quote_state None (joined (g ++ [a])) /\
  snd (loop_state g true) +:+ a = joined (g ++ [a]).
Proof.
  destruct g as [|x g]; [done|]. cbn [loop_state fst snd]. rewrite joined_snoc by done.
  by rewrite !quote_state_app, quote_state_space, sapp_assoc.
Qed.

Lemma params_loop_spec args : forall g merged,
  opened g ->
  let more := match args with [] => false | _ => true end in
  exists groups, concat groups = g ++ args /\
    params_loop args (fst (loop_state g more)) (snd (loop_state g more)) merged = merged ++ List.map joined groups /\
    Forall group_ok groups /\ Forall closed (removelast groups).
Proof.
  induction args as [|a args IH]; intros g merged Hg more; unfold more.
  - destruct g as [|x g].
    { exists []. split_and!; [done| |constructor|constructor]. simpl. by rewrite app_nil_r. }
    destruct (exists_last (l := x :: g) ltac:(done)) as (g' & y & E).
    exists [x :: g]. split_and!; [reflexivity| | |constructor].
    + simpl params_loop. destruct (quote_state None (joined (x :: g))) eqn:Eq; [done|].
      exfalso. apply (Hg (x :: g) []); [by rewrite app_nil_r|done|done].
    + constructor; [|constructor]. rewrite E. apply opened_group. intros p s -> Hp.
      apply (Hg p (s ++ [y])); [|done]. by rewrite E, <- app_assoc.
  - destruct (loop_state_step g a) as [Hq Hsb]. cbn [params_loop]. rewrite Hq, Hsb.
    destruct (quote_state None (joined (g ++ [a]))) as [q|] eqn:Eq.
    + destruct (IH (g ++ [a]) merged) as (groups & Hc & Hp & Hrest).
      { apply opened_snoc; [done|]. unfold closed. by rewrite Eq. }
      exists groups. split; [by rewrite <- app_assoc in Hc|]. split; [|done]. rewrite <- Hp.
      unfold loop_state. cbn [fst snd]. rewrite Eq. destruct g; by destruct args.
    + destruct (IH [] (merged ++ [joined (g ++ [a])])) as (groups & Hc & Hp & Hok & Hcl).
      { intros p s E Hp. by destruct p. }
      exists ((g ++ [a]) :: groups). split_and!.
      * simpl. by rewrite Hc, <- app_assoc.
      * rewrite <- app_assoc in Hp. etransitivity; [|exact Hp]. unfold loop_state. by destruct args.
      * constructor; [by apply opened_group|done].
      * destruct groups as [|g' gs]; [constructor|]. constructor; [exact Eq|done].
Qed.

(** Arguments that are closed already are left alone. *)
Lemma params_loop_closed l : forall merged,
  Forall (fun a => quote_state None a = None) (removelast l) -> params_loop l None "" merged = merged ++ l.
Proof.
  induction l as [|a l IH]; intros merged Hl; simpl; [by rewrite app_nil_r|].
  destruct l as [|b l].
  - destruct (quote_state None a); done.
  - cbn [removelast] in Hl. inversion Hl as [|? ? Ha Hl']; subst. rewrite Ha, IH by done. by rewrite <- app_assoc.
Qed.

Lemma removelast_map {A B} (f : A -> B) l : removelast (List.map f l) = List.map f (removelast l).
Proof. induction l as [|x [|y l] IH]; [done..|]. simpl in *. by rewrite IH. Qed.

(** Regrouping splits exactly where the quotes are closed: the result of
    [ProcessParamsAndQuotes] is the arguments, cut into consecutive groups joined
    by spaces; every group but possibly the last has all its quotes and
    parentheses closed, and none closes before its last argument; regrouping again
    changes nothing. *)
Theorem ProcessParamsAndQuotes_spec args :
  (exists groups, concat groups = args /\
    ProcessParamsAndQuotes args = List.map joined groups /\
    Forall group_ok groups /\ Forall closed (removelast groups)) /\
  ProcessParamsAndQuotes (ProcessParamsAndQuotes args) = ProcessParamsAndQuotes args.
Proof.
  destruct (params_loop_spec args [] []) as (groups & Hc & Hp & Hok & Hcl).
  { intros p s E Hp. by destruct p. }
  assert (E : ProcessParamsAndQuotes args = List.map joined groups) by (unfold ProcessParamsAndQuotes; by destruct args).
  split; [by exists groups|]. rewrite E. unfold ProcessParamsAndQuotes. apply (params_loop_closed _ []).
  rewrite removelast_map. apply List.Forall_map. eapply Forall_impl; [|exact Hcl]. done.
Qed.

(** ** The params form *)

(** A word: quotes are closed in it and its blanks are quoted or escaped. *)
Fixpoint word_scan (rs : list Z) (nextEscaped inQuotes : bool) : bool :=
  match rs with
  | [] => negb nextEscaped && negb inQuotes
  | r :: rs =>
      if (r =? rDQuote)%Z then word_scan rs false (xorb inQuotes (negb nextEscaped))
      else if (r =? rBackslash)%Z then word_scan rs true inQuotes
      else (negb (is_blank_rune r) || inQuotes || nextEscaped) && word_scan rs false inQuotes
  end.

Definition word_ok (w : string) : bool := utf8 w && negb (String.eqb w "") && word_scan (runes w) false false.

Lemma param_loop_word rs rest parts : forall part nextEscaped inQuotes,
  word_scan rs nextEscaped inQuotes = true ->
  param_loop (rs ++ rest) parts part nextEscaped inQuotes = param_loop rest parts (part ++ rs) false false.
Proof.
  induction rs as [|r rs IH]; intros part nextEscaped inQuotes Hw; simpl in Hw.
  { apply andb_true_iff in Hw as [->%negb_true_iff ->%negb_true_iff]. by rewrite app_nil_r. }
  change (r :: rs) with ([r] ++ rs). rewrite (app_assoc part [r] rs). cbn [app param_loop].
  destruct (r =? rDQuote)%Z; [|destruct (r =? rBackslash)%Z].
  - rewrite <- (IH (part ++ [r]) _ _ Hw). by destruct nextEscaped, inQuotes.
  - by apply IH.
  - apply andb_true_iff in Hw as [Hb Hw]. rewrite <- (IH (part ++ [r]) _ _ Hw).
    destruct (is_blank_rune r), inQuotes, nextEscaped; done.
Qed.

Lemma add_part_word w parts : word_ok w = true -> add_part (runes w) parts = parts ++ [w].
Proof.
  unfold word_ok. intros [[Hu He]%andb_true_iff _]%andb_true_iff. pose proof (string_of_runes_runes w Hu) as Hr.
  unfold add_part. destruct (runes w) as [|r rs]; [|by rewrite Hr]. simpl in Hr. by subst w.
Qed.

Lemma runes_space_join w ws : utf8 w = true ->
  runes (joined (w :: ws)) = runes w ++ match ws with [] => [] | _ => rSP :: runes (joined ws) end.
Proof.
  intros Hu. destruct ws as [|v ws]; [by rewrite app_nil_r|]. unfold joined.
  change (Join (w :: v :: ws) space) with (w +:+ space +:+ Join (v :: ws) space).
  rewrite runes_app by done. f_equal.
Qed.

Lemma param_loop_words ws : forall parts,
  Forall (fun w => word_ok w = true) ws -> param_loop (runes (joined ws)) parts [] false false = Ok (parts ++ ws).
Proof.
  induction ws as [|w ws IH]; intros parts Hws; [by simpl; rewrite app_nil_r|].
  inversion Hws as [|? ? Hw Hws']; subst. pose proof Hw as [[Hu _]%andb_true_iff Hs]%andb_true_iff.
  rewrite runes_space_join, param_loop_word by done. cbn [app]. destruct ws as [|v ws].
  - simpl. by rewrite add_part_word.
  - specialize (IH (parts ++ [w]) Hws'). rewrite <- app_assoc in IH. cbn [app] in IH. rewrite <- IH.
    cbn [param_loop]. by rewrite <- add_part_word.
Qed.

Lemma parens_slice t : slice 1 (String.length ("(" +:+ t +:+ ")") - 1) ("(" +:+ t +:+ ")") = t.
Proof.
  change ("(" +:+ ?x) with (String "(" x). unfold slice. cbn [String.length].
  change (sdrop 1 (String "(" ?x)) with (sdrop 0 x). rewrite sdrop_0, length_sapp.
  replace (S (String.length t + String.length ")") - 1 - 1) with (String.length t) by (simpl; lia). apply stake_sapp.
Qed.

(** The params form reads back: words whose blanks are quoted or escaped, joined
    by spaces between parentheses, are the words that [ParseParams] returns. *)
Theorem ParseParams_roundtrip first rest :
  Forall (fun w => word_ok w = true) (first :: rest) ->
  ParseParams ("(" +:+ joined (first :: rest) +:+ ")") = Ok (first, rest).
Proof.
  intros Hws. unfold ParseParams. set (t := joined (first :: rest)).
  assert (IsInParamsForm ("(" +:+ t +:+ ")") = true) as ->.
  { unfold IsInParamsForm. apply orb_true_iff. right. apply andb_true_iff. split; [apply HasPrefix_spec; by exists (t +:+ ")")|].
    apply HasSuffix_spec. exists ("(" +:+ t). by rewrite <- sapp_assoc. }
  assert (HasPrefix ("(" +:+ t +:+ ")") (dquote +:+ "(") = false) as -> by done.
  cbn [negb]. rewrite parens_slice. unfold t. by rewrite param_loop_words.
Qed.

(** The words between quotes and parentheses are not read, whatever they are: the
    closing quote is expected inside the parenthesis. *)
Lemma quoted_params_rejected t : IsInParamsForm (dquote +:+ "(" +:+ t +:+ ")" +:+ dquote) = false.
Proof.
  unfold IsInParamsForm. apply orb_false_iff. split; apply andb_false_iff; [right|by left].
  destruct (HasSuffix _ (dquote +:+ ")")) eqn:E; [|done]. apply HasSuffix_spec in E as [u E]. exfalso.
  assert (Hx : forall a b c d, a +:+ String c "" = b +:+ String d "" -> c = d).
  { induction a as [|x a IH]; intros [|y b] c d Hab; injection Hab; intros; [done|by destruct b|by destruct a|by eapply IH]. }
  rewrite !sapp_assoc in E. by apply (Hx _ (u +:+ dquote)) in E.
Qed.

(** ** ARG *)

(** What ARG accepts: a declaration [name] or [name = value] in the arguments
    that the flag parser leaves, where a required argument has no value and only
    the base target declares global arguments; without the feature the flag is
    unknown and every argument of the base target is global; everything else is an
    error. *)
Theorem ParseArgArgs_spec parse cmd isBase explicit opts args r :
  parse (ProcessParamsAndQuotes (cmd_Args cmd)) = Ok (opts, args) ->
  ParseArgArgs parse cmd isBase explicit = Ok r <->
  exists key value,
    r = (mkArgOpts (arg_Required opts) (if explicit then arg_Global opts else isBase), key, value) /\
    args = match value with Some v => [key; "="; v] | None => [key] end /\
    (arg_Required opts = true -> value = None) /\
    (arg_Global opts = true -> explicit = true /\ isBase = true).
Proof.
  intros Hp. unfold ParseArgArgs, ParseArgsCleaned. rewrite Hp. cbn [rbind]. destruct opts as [req glob]. cbn [arg_Global arg_Required].
  split.
  - assert (Hargs : forall o, match args with
        | [key; eq; value] =>
            if negb (eq =? "=")%string then Err ErrInvalidSyntax
            else if req then Err ErrRequiredArgHasDefault else Ok (o, key, Some value)
        | [key] => Ok (o, key, None)
        | _ => Err ErrInvalidSyntax
        end = Ok r -> exists key value, r = (o, key, value) /\
          args = match value with Some v => [key; "="; v] | None => [key] end /\ (req = true -> value = None)).
    { intros o H. destruct args as [|key [|eq [|v [|]]]]; simplify_eq; [by eexists _, None|].
      destruct (String.eqb_spec eq "="); simplify_eq; destruct req; simpl in *; simplify_eq. by eexists _, (Some v). }
    destruct glob, explicit, isBase; cbn [negb andb arg_Required]; intros H; try done;
      destruct (Hargs _ H) as (key & value & -> & -> & Hr); by exists key, value.
  - intros (key & value & -> & -> & Hr & Hg). destruct glob; [destruct Hg as [-> ->]; [done|]|]; simpl;
      destruct value as [v|], req; simpl; try done; try (by specialize (Hr eq_refl)); by destruct explicit.
Qed.

(** ** Values of boolean flags *)

Lemma SplitN2_pair s sep a b : SplitN2 s sep = [a; b] -> s = a +:+ String sep b.
Proof.
  unfold SplitN2. destruct (Cut s sep) as [[x y] ok] eqn:E. destruct ok; intros [= <- <-].
  revert x y E. induction s as [|c s IH]; intros x y E; simpl in E; [done|].
  destruct (Ascii.eqb_spec c sep) as [->|]; [by simplify_eq|].
  destruct (Cut s sep) as [[x' y'] ok']. simplify_eq. by rewrite (IH x' y eq_refl).
Qed.

Section Same.
Context {S E : Type} (modFunc : string -> string -> Eff S E (option string)) (boolFlags : gset string).
Hypothesis modFunc_same : forall name v s, modFunc name v s = (s, Ret (Some v)).

(** An argument is kept, with the next one when that is its value. *)
Definition kept (arg : string) (rest : list string) (r : list string * bool) : Prop :=
  r = ([arg], false) \/ exists v rest', rest = v :: rest' /\ r = ([arg; v], true).

Lemma modify_next_same name rest s :
  exists m, modify_next modFunc name rest s = (s, Ret m) /\
    kept name rest (match m with Some v => ([name; v], true) | None => ([name], false) end).
Proof using modFunc_same.
  unfold modify_next, next_value. destruct rest as [|v rest]; [exists None; split; [done|by left]|].
  destruct (HasPrefix v "-"); [exists None; split; [done|by left]|]. exists (Some v).
  split; [apply modFunc_same|]. right. by exists v, rest.
Qed.

Lemma cluster_loop_same n flags rest s :
  exists m, cluster_loop modFunc boolFlags n flags rest s = (s, Ret m) /\
    forall v, m = Some v -> exists rest', rest = v :: rest'.
Proof using modFunc_same.
  induction flags as [|[j c] flags IH]; simpl; [by exists None|]. case_test; [done|]. unfold ebind at 1.
  destruct (modify_next_same (EncodeRune c) rest s) as ([v|] & -> & Hk); [|done]. exists (Some v). split; [done|].
  intros v' [= <-]. destruct Hk as [?|(v' & rest' & -> & [= ->])]; [done|]. by exists rest'.
Qed.

Lemma preprocess_arg_same arg rest s :
  exists r, preprocess_arg modFunc boolFlags arg rest s = (s, Ret r) /\ kept arg rest r.
Proof using modFunc_same.
  assert (Hkeep : exists r : list string * bool, eret (S := S) (E := E) ([arg], false) s = (s, Ret r) /\ kept arg rest r)
    by (eexists; split; [done|by left]).
  unfold preprocess_arg. destruct (HasPrefix arg "--") eqn:E2; [|destruct (HasPrefix arg "-") eqn:E1; [|done]].
  - apply HasPrefix_spec in E2 as [t ->]. change (sdrop 2 ("--" +:+ t)) with (sdrop 0 t). rewrite sdrop_0.
    destruct (SplitN2 t equals) as [|a [|b [|]]] eqn:Es; [done|done| |done]. case_test; [done|].
    unfold ebind. rewrite modFunc_same. eexists. split; [done|]. left. by rewrite (SplitN2_pair _ _ _ _ Es).
  - apply HasPrefix_spec in E1 as [t ->]. assert (TrimPrefix ("-" +:+ t) "-" = t) as ->.
    { unfold TrimPrefix. rewrite (proj2 (HasPrefix_spec _ _)) by (by exists t). apply sdrop_0. }
    case_test; [|case_test; [|case_test; [|done]]].
    + destruct (SplitN2 t equals) as [|a [|b [|]]] eqn:Es; [done|done| |done]. case_test; [done|].
      unfold ebind. rewrite modFunc_same. eexists. split; [done|]. left. by rewrite (SplitN2_pair _ _ _ _ Es).
    + unfold ebind. destruct (modify_next_same t rest s) as (m & -> & Hk). eexists. split; [done|].
      destruct m as [v|]; [right|by left]. destruct Hk as [?|(v' & rest' & -> & [= ->])]; [done|]. by exists v', rest'.
    + unfold ebind. destruct (cluster_loop_same (String.length t) (range_string t) rest s) as (m & -> & Hk).
      eexists. split; [done|]. destruct m as [v|]; [right|by left]. destruct (Hk v eq_refl) as [rest' ->]. by exists v, rest'.
Qed.

Lemma preprocess_loop_same args : forall result s,
  preprocess_loop modFunc boolFlags args false result s = (s, Ret (result ++ args)).
Proof using modFunc_same.
  remember (length args) as n eqn:Hn. assert (Hle : length args <= n) by lia. clear Hn. revert args Hle.
  induction n as [|n IH]; intros [|arg rest] Hle result s; simpl in *; try lia; try (by rewrite app_nil_r).
  unfold ebind. destruct (preprocess_arg_same arg rest s) as (r & -> & [->|(v & rest' & -> & ->)]); simpl in *.
  - rewrite IH by lia. by rewrite <- app_assoc.
  - rewrite IH by lia. by rewrite <- app_assoc.
Qed.

(** A modifier that gives back the values it is asked about changes nothing. *)
Lemma preprocessArgs_same args s : preprocessArgs modFunc boolFlags args s = (s, Ret args).
Proof using modFunc_same. apply preprocess_loop_same. Qed.

End Same.

(** ** Concrete arguments *)

Lemma ParseParams_roundtrip_witness :
  ParseParams ("(+target --flag=" +:+ dquote +:+ "a b" +:+ dquote +:+ " c\ d)") =
    Ok ("+target", ["--flag=" +:+ dquote +:+ "a b" +:+ dquote; "c\ d"]).
Proof.
  refine (ParseParams_roundtrip "+target" ["--flag=" +:+ dquote +:+ "a b" +:+ dquote; "c\ d"] _).
  repeat constructor.
Defined.

Definition sample_parse : flag_parser ArgOpts := fun args => Ok (mkArgOpts false true, args).
Definition sample_arg : Command := mkCommand CmdArg "" None ["x"; "="; "1"] false.

Lemma ParseArgArgs_spec_witness :
  ParseArgArgs sample_parse sample_arg true true = Ok (mkArgOpts false true, "x", Some "1").
Proof.
  refine (proj2 (ParseArgArgs_spec sample_parse sample_arg true true (mkArgOpts false true) ["x"; "="; "1"] _ _) _).
  - reflexivity.
  - exists "x", (Some "1"). repeat split; discriminate.
Defined.
