(* ===== verification/Features.v ===== *)
(** * Features

    A translation of [features/features.go] and of [buildcontext/parsefeatures.go]:
    the flags of VERSION, what a version turns on by itself, and the overrides of
    the command line.  The struct of the code is walked by reflection: here it is
    the table of its boolean fields in order, with their tags, and a value is the
    set of the flags that are on.  The parser of flags ([go-flags]) is a parameter;
    it gives the flags that are set and the arguments that are left. *)

From stdpp Require Import gmap sorting.
From S2P Require Import Prelude GoStrings Token Ast GoText Numbers KeyValue Scope Earthfile FlagUtil.

(** ** The struct *)

(** A boolean field: its name and its tags [long] and [enabled_in_version] (empty
    when there is none). *)
Record Field : Type := mkField { fld_name : string; long : string; enabled_in_version : string }.

Definition fields : list Field :=
  [mkField "NoUseRegistryForWithDocker" "no-use-registry-for-with-docker" "";
   mkField "EarthlyCIRunnerArg" "earthly-ci-runner-arg" "";
   mkField "ExecAfterParallel" "exec-after-parallel" "0.5";
   mkField "ParallelLoad" "parallel-load" "0.5";
   mkField "UseRegistryForWithDocker" "use-registry-for-with-docker" "0.5";
   mkField "ForIn" "for-in" "0.6";
   mkField "NoImplicitIgnore" "no-implicit-ignore" "0.6";
   mkField "ReferencedSaveOnly" "referenced-save-only" "0.6";
   mkField "RequireForceForUnsafeSaves" "require-force-for-unsafe-saves" "0.6";
   mkField "UseCopyIncludePatterns" "use-copy-include-patterns" "0.6";
   mkField "CheckDuplicateImages" "check-duplicate-images" "0.7";
   mkField "EarthlyCIArg" "ci-arg" "0.7";
   mkField "EarthlyGitAuthorArgs" "earthly-git-author-args" "0.7";
   mkField "EarthlyLocallyArg" "earthly-locally-arg" "0.7";
   mkField "EarthlyVersionArg" "earthly-version-arg" "0.7";
   mkField "ExplicitGlobal" "explicit-global" "0.7";
   mkField "GitCommitAuthorTimestamp" "git-commit-author-timestamp" "0.7";
   mkField "NewPlatform" "new-platform" "0.7";
   mkField "NoTarBuildOutput" "no-tar-build-output" "0.7";
   mkField "SaveArtifactKeepOwn" "save-artifact-keep-own" "0.7";
   mkField "ShellOutAnywhere" "shell-out-anywhere" "0.7";
   mkField "UseCacheCommand" "use-cache-command" "0.7";
   mkField "UseChmod" "use-chmod" "0.7";
   mkField "UseCopyLink" "use-copy-link" "0.7";
   mkField "UseHostCommand" "use-host-command" "0.7";
   mkField "UseNoManifestList" "use-no-manifest-list" "0.7";
   mkField "UseProjectSecrets" "use-project-secrets" "0.7";
   mkField "WaitBlock" "wait-block" "0.7";
   mkField "NoNetwork" "no-network" "0.8";
   mkField "ArgScopeSet" "arg-scope-and-set" "0.8";
   mkField "UseDockerIgnore" "use-docker-ignore" "0.8";
   mkField "PassArgs" "pass-args" "0.8";
   mkField "GlobalCache" "global-cache" "0.8";
   mkField "CachePersistOption" "cache-persist-option" "0.8";
   mkField "GitRefs" "git-refs" "0.8";
   mkField "UseVisitedUpfrontHashCollection" "use-visited-upfront-hash-collection" "0.8";
   mkField "UseFunctionKeyword" "use-function-keyword" "0.8";
   mkField "TryFinally" "try" "";
   mkField "WildcardBuilds" "wildcard-builds" "";
   mkField "BuildAutoSkip" "build-auto-skip" "";
   mkField "AllowPrivilegedFromDockerfile" "allow-privileged-from-dockerfile" "";
   mkField "RunWithAWS" "run-with-aws" "";
   mkField "WildcardCopy" "wildcard-copy" "";
   mkField "RawOutput" "raw-output" "";
   mkField "GitAuthorEmailNameArgs" "git-author-email-name-args" "";
   mkField "AllowWithoutEarthlyLabels" "allow-without-earthly-labels" "";
   mkField "DockerCache" "docker-cache" "";
   mkField "RunWithAWSOIDC" "run-with-aws-oidc" ""].

(** [strings.ToLower] of an ASCII text *)
Fixpoint ToLower (s : string) : string :=
  match s with
  | "" => ""
  | String c s => String (if in_range 65 90 (byteZ c) then Ascii.ascii_of_nat (32 + Ascii.nat_of_ascii c) else c) (ToLower s)
  end.

(** [Major] and [Minor] have no tags. *)
Record Features : Type := mkFeatures { flags : gset string; Major : Z; Minor : Z }.

Definition has (flag : string) (f : Features) : bool := bool_decide (flag ∈ flags f).

(** [field.SetBool(true)] and [field.SetBool(false)] *)
Definition turn_on (flag : string) (f : Features) : Features := mkFeatures ({[flag]} ∪ flags f) (Major f) (Minor f).
Definition turn_off (flag : string) (f : Features) : Features := mkFeatures (flags f ∖ {[flag]}) (Major f) (Minor f).

(** ** Printing *)

Definition Features_Version (f : Features) : string := fmt_dZ (Major f) +:+ "." +:+ fmt_dZ (Minor f).

Definition Features_String (f : Features) : string :=
  let on := List.map (fun fld => "--" +:+ long fld) (List.filter (fun fld => has (long fld) f) fields) in
  let on := merge_sort str_le on in
  let args := ["VERSION"] ++ (match on with [] => [] | _ => [Join on " "] end) ++ [Features_Version f] in
  Join args " ".

(** ** Overrides *)

Definition comma : ascii := ","%char.

Definition override (m : gmap string string) (flag : string) : gmap string string :=
  let parts := SplitN2 flag equals in
  let flagName := TrimPrefix (TrimSpace (nth 0 parts "")) "--" in
  let flagValue := TrimSpace (nth 1 parts "") in
  <[flagName := flagValue]> m.

Definition parseFlagOverrides (env : string) : gmap string string :=
  let env := TrimSpace env in
  if String.eqb env "" then ∅ else fold_left override (Split env comma) ∅.

Definition processNegativeFlags (f : Features) : Features :=
  if has "no-use-registry-for-with-docker" f then turn_off "use-registry-for-with-docker" f else f.

Definition known (flag : string) : bool := existsb (fun fld => String.eqb (long fld) flag) fields.

(** The loop over the map of overrides; the features are updated in place. *)
Fixpoint override_loop (keys : list string) (f : Features) : Features * option string :=
  match keys with
  | [] => (f, None)
  | key :: keys =>
      if known key then override_loop keys (turn_on key f)
      else (f, Some ("unable to set " +:+ key +:+ ": invalid flag"))
  end.

Definition ApplyFlagOverrides `{RangeOrder} (f : Features) (envOverrides : string) : Features * option string :=
  match override_loop (range (parseFlagOverrides envOverrides)).*1 f with
  | (f, None) => (processNegativeFlags f, None)
  | (f, Some e) => (f, Some e)
  end.

(** ** Versions *)

Definition errUnexpectedArgs : string :=
  "unexpected VERSION arguments; should be VERSION [flags] <major-version>.<minor-version>".

Definition dot : ascii := "."%char.

Definition versionAtLeast (f : Features) (majorVersion minorVersion : Z) : bool :=
  ((majorVersion <? Major f) || ((Major f =? majorVersion) && (minorVersion <=? Minor f)))%Z.

Section Features.
Context `{Unicode}.

Definition mustParseVersion (version : string) : res (Z * Z) :=
  match Split version dot with
  | [x; y] =>
      match Atoi x with
      | Ok major => match Atoi y with Ok minor => Ok (major, minor) | _ => Err ("panic: invalid minor version: " +:+ y) end
      | _ => Err ("panic: invalid major version: " +:+ x)
      end
  | _ => Err ("panic: invalid version format: " +:+ version)
  end.

(** [fmt.Errorf("failed to parse ... version %q: %w", s, err)] *)
Definition parse_number (what s : string) : res Z :=
  match Atoi s with
  | Err e => Err ("failed to parse " +:+ what +:+ " version " +:+ Quote s +:+ ": " +:+ e)
  | r => r
  end.

(** The features, and whether there was a VERSION. *)
Definition Get (parse : flag_parser (gset string)) (version : option Version) : res (Features * bool) :=
  let args := match version with Some v => ver_Args v | None => ["0.5"] end in
  match args with
  | [] => Err errUnexpectedArgs
  | _ =>
      let* r := parse args in
      match r with
      | (on, [v]) =>
          match Split v dot with
          | [x; y] =>
              let* major := parse_number "major" x in
              let* minor := parse_number "minor" y in
              Ok (mkFeatures on major minor, bool_decide (is_Some version))
          | _ => Err errUnexpectedArgs
          end
      | _ => Err errUnexpectedArgs
      end
  end.

(** The loop of [ProcessFlags]: the features so far and the warnings. *)
Fixpoint process_loop (fs : list Field) (f : Features) (warnings : list string) : res (Features * list string) :=
  match fs with
  | [] => Ok (f, warnings)
  | fld :: fs =>
      if String.eqb (enabled_in_version fld) "" then process_loop fs f warnings
      else
        let* v := mustParseVersion (enabled_in_version fld) in
        if versionAtLeast f (fst v) (snd v) then
          let warnings := if has (long fld) f then warnings ++ ["--" +:+ ToLower (long fld)] else warnings in
          process_loop fs (turn_on (long fld) f) warnings
        else process_loop fs f warnings
  end.

Definition errNeedsShellOut : string := "--arg-scope-and-set requires --shell-out-anywhere".

Definition ProcessFlags (f : Features) : res (Features * list string) :=
  let* r := process_loop fields f [] in
  let f := processNegativeFlags (fst r) in
  if has "arg-scope-and-set" f && negb (has "shell-out-anywhere" f) then Err errNeedsShellOut
  else Ok (f, snd r).

(** ** The features of an Earthfile

    [parseFeatures] on the text of the file; the lines it logs are returned. *)

Definition parseFeatures `{RangeOrder} (parse : flag_parser (gset string)) (text path overrides projectRef : string)
    : res (Features * list string) :=
  let* version := readVersion text path false in
  let* r := Get parse version in
  if negb (snd r) then Err ("no version specified in " +:+ projectRef +:+ "/Earthfile")
  else
    let* p := ProcessFlags (fst r) in
    let '(f, warnings) := p in
    let log := match warnings with
               | [] => []
               | _ => ["NOTE: The " +:+ Join warnings ", " +:+ " feature is enabled by default under VERSION " +:+
                         Features_Version f +:+ ", and can be safely removed from the VERSION command"]
               end in
    match ApplyFlagOverrides f overrides with
    | (f, None) => Ok (f, log)
    | (_, Some e) => Err e
    end.

End Features.

(** * Features: theorems

    What [ProcessFlags] makes of the flags of a VERSION, the features that an
    Earthfile ends up with, and the text of a set of features read back. *)

From S2P Require Import Reference.

(** ** The specification *)

(** Versions in order. *)
Definition version_le (v w : Z * Z) : Prop := (v.1 < w.1 \/ v.1 = w.1 /\ v.2 <= w.2)%Z.

(** A negative flag wins over the flag it negates. *)
Definition effective_flags (on : gset string) : gset string :=
  if bool_decide ("no-use-registry-for-with-docker" ∈ on) then on ∖ {["use-registry-for-with-docker"]} else on.

(** SET and the scopes of ARG need words that shell out. *)
Definition consistent (on : gset string) : Prop := "arg-scope-and-set" ∈ on -> "shell-out-anywhere" ∈ on.

#[export] Instance consistent_dec on : Decision (consistent on).
Proof. unfold consistent. apply _. Defined.

Section Facts.
Context `{Unicode}.

(** Whether version [v] has the field's feature by default. *)
Definition due (v : Z * Z) (fld : Field) : bool :=
  negb (String.eqb (enabled_in_version fld) "") &&
  match mustParseVersion (enabled_in_version fld) with
  | Ok w => versionAtLeast (mkFeatures ∅ v.1 v.2) w.1 w.2
  | _ => false
  end.

Definition defaults (v : Z * Z) : gset string := list_to_set (List.map long (List.filter (due v) fields)).

(** The flags that were given although the version has them. *)
Definition redundant (v : Z * Z) (on : gset string) : list string :=
  List.map (fun fld => "--" +:+ ToLower (long fld))
    (List.filter (fun fld => due v fld && bool_decide (long fld ∈ on)) fields).

(** ** [ProcessFlags] *)

Definition tag_ok (fld : Field) : bool :=
  String.eqb (enabled_in_version fld) "" ||
  match mustParseVersion (enabled_in_version fld) with Ok _ => true | _ => false end.

Lemma fields_tags : forallb tag_ok fields = true.
Proof. vm_compute. reflexivity. Qed.

Lemma fields_distinct : NoDup (List.map long fields).
Proof. apply (bool_decide_unpack _). vm_compute. exact I. Qed.

#[local] Opaque fields.

Lemma process_loop_spec fs f ws :
  forallb tag_ok fs = true -> NoDup (List.map long fs) ->
  let v := (Major f, Minor f) in
  process_loop fs f ws =
    Ok (mkFeatures (flags f ∪ list_to_set (List.map long (List.filter (due v) fs))) (Major f) (Minor f),
        ws ++ List.map (fun fld => "--" +:+ ToLower (long fld))
                (List.filter (fun fld => due v fld && bool_decide (long fld ∈ flags f)) fs)).
Proof.
  revert f ws. induction fs as [|fld fs IH]; intros f ws Ht Hn; cbn [process_loop List.filter List.map].
  { rewrite app_nil_r. destruct f as [on M m]. simpl. do 3 f_equal. set_solver. }
  simpl in Ht. apply andb_true_iff in Ht as [Htag Ht]. cbn [List.map] in Hn. inversion Hn as [|? ? Hx Hn']; subst. clear Hn. rename Hn' into Hn.
  assert (Hd : due (Major f, Minor f) fld = negb (String.eqb (enabled_in_version fld) "") &&
    match mustParseVersion (enabled_in_version fld) with Ok w => versionAtLeast f w.1 w.2 | _ => false end) by done.
  rewrite Hd. unfold tag_ok in Htag. destruct (String.eqb (enabled_in_version fld) "") eqn:E; cbn [negb andb orb] in *.
  { by apply IH. }
  destruct (mustParseVersion (enabled_in_version fld)) as [[M m]| |] eqn:Ev; try done. cbn [rbind fst snd].
  destruct (versionAtLeast f M m); [|by apply IH]. rewrite IH by done. cbn [turn_on flags Major Minor andb].
  do 2 f_equal. { f_equal. cbn [List.map]. rewrite list_to_set_cons. set_solver. }
  assert (Hsame : List.filter (fun x => due (Major f, Minor f) x && bool_decide (long x ∈ {[long fld]} ∪ flags f)) fs =
    List.filter (fun x => due (Major f, Minor f) x && bool_decide (long x ∈ flags f)) fs).
  { apply filter_ext_in. intros x Hin. f_equal. apply bool_decide_ext.
    assert (long x <> long fld) by (intros Heq; apply Hx; rewrite <- Heq; apply list_elem_of_In; by apply (in_map long)).
    set_solver. }
  rewrite Hsame. unfold has. destruct (bool_decide (long fld ∈ flags f)); simpl; by rewrite <- ?app_assoc.
Qed.

Lemma processNegative_flags f : processNegativeFlags f = mkFeatures (effective_flags (flags f)) (Major f) (Minor f).
Proof.
  unfold processNegativeFlags, has, effective_flags, turn_off. destruct f as [on M m]. simpl. by case_bool_decide.
Qed.

Lemma has_flags flag on M m : has flag (mkFeatures on M m) = bool_decide (flag ∈ on).
Proof. done. Qed.

Lemma process_fields f :
  process_loop fields f [] =
    Ok (mkFeatures (flags f ∪ defaults (Major f, Minor f)) (Major f) (Minor f), redundant (Major f, Minor f) (flags f)).
Proof. unfold defaults, redundant. exact (process_loop_spec fields f [] fields_tags fields_distinct). Qed.

Lemma ProcessFlags_eq f :
  let v := (Major f, Minor f) in
  let on := effective_flags (flags f ∪ defaults v) in
  ProcessFlags f =
    if decide (consistent on) then Ok (mkFeatures on (Major f) (Minor f), redundant v (flags f))
    else Err errNeedsShellOut.
Proof.
  cbn zeta. unfold ProcessFlags. rewrite process_fields. cbn [rbind fst snd].
  rewrite processNegative_flags. cbn [flags Major Minor]. rewrite !has_flags. unfold consistent.
  set (on := effective_flags _). clearbody on.
  destruct (decide ("arg-scope-and-set" ∈ on -> _)); repeat case_bool_decide; naive_solver.
Qed.

Lemma versionAtLeast_le v w : versionAtLeast (mkFeatures ∅ v.1 v.2) w.1 w.2 = true <-> version_le w v.
Proof. unfold versionAtLeast, version_le. simpl. lia. Qed.

Lemma defaults_grow v w : version_le v w -> defaults v ⊆ defaults w.
Proof.
  intros Hvw flag. unfold defaults. rewrite !elem_of_list_to_set, !list_elem_of_In, !in_map_iff.
  intros (fld & Hl & [Hin Hd]%filter_In). exists fld. split; [done|]. apply filter_In. split; [done|].
  unfold due in *. apply andb_true_iff in Hd as [-> Hd]. simpl. destruct (mustParseVersion _) as [u| |]; try done.
  apply versionAtLeast_le in Hd. apply versionAtLeast_le. unfold version_le in *. lia.
Qed.

(** The features without a version tag are never turned on by a version. *)
Lemma never_due v : "no-use-registry-for-with-docker" ∉ defaults v.
Proof.
  unfold defaults. rewrite elem_of_list_to_set, list_elem_of_In, in_map_iff. intros (fld & Hl & [Hin Hd]%filter_In).
  assert (Hall : forallb (fun fld => negb (String.eqb (long fld) "no-use-registry-for-with-docker") ||
    String.eqb (enabled_in_version fld) "") fields = true) by (vm_compute; reflexivity).
  rewrite forallb_forall in Hall. specialize (Hall _ Hin). rewrite Hl in Hall. unfold due in Hd.
  simpl in Hall. rewrite Hall in Hd. done.
Qed.

Lemma effective_mono a b : a ⊆ b -> "no-use-registry-for-with-docker" ∉ b -> effective_flags a ⊆ effective_flags b.
Proof. unfold effective_flags. intros. repeat case_bool_decide; set_solver. Qed.

Lemma effective_idem a b : effective_flags (effective_flags a ∪ b) = effective_flags (a ∪ b).
Proof. apply set_eq. intros x. unfold effective_flags. repeat case_bool_decide; set_solver. Qed.

(** ** Overrides *)

Lemma override_loop_spec keys f f' r :
  override_loop keys f = (f', r) ->
  (r = None <-> Forall (fun k => known k = true) keys) /\
  (r = None -> f' = mkFeatures (flags f ∪ list_to_set keys) (Major f) (Minor f)).
Proof.
  revert f. induction keys as [|k keys IH]; intros f; cbn [override_loop].
  { intros [= <- <-]. destruct f as [on M m]. split; [done|]. intros _. simpl. f_equal. set_solver. }
  destruct (known k) eqn:Ek.
  - intros Hr. destruct (IH _ Hr) as [Hi Hf]. rewrite Hi, Forall_cons_iff. split; [tauto|].
    intros Hn. rewrite (Hf (proj2 Hi Hn)). simpl. f_equal. set_solver.
  - intros [= <- <-]. rewrite Forall_cons_iff. split; [naive_solver congruence|done].
Qed.

Context `{RangeOrder} `{!RangeLaws}.

Lemma range_keys m : list_to_set (range m).*1 =@{gset string} dom m.
Proof. apply leibniz_equiv. by rewrite range_permutation, dom_alt. Qed.

Lemma ApplyFlagOverrides_spec f env f' r :
  ApplyFlagOverrides f env = (f', r) ->
  let keys := dom (parseFlagOverrides env) in
  (r = None <-> set_Forall (fun k => known k = true) keys) /\
  (r = None -> f' = mkFeatures (effective_flags (flags f ∪ keys)) (Major f) (Minor f)).
Proof.
  unfold ApplyFlagOverrides. destruct (override_loop _ f) as [f1 r1] eqn:E. apply override_loop_spec in E as [Hi Hf].
  assert (Hall : Forall (fun k => known k = true) (range (parseFlagOverrides env)).*1 <->
    set_Forall (fun k => known k = true) (dom (parseFlagOverrides env))).
  { rewrite <- range_keys, list.Forall_forall. split; intros Ha x Hx; apply Ha; by apply (elem_of_list_to_set (C := gset string)). }
  rewrite Hall in Hi. rewrite range_keys in Hf. destruct r1; intros [= <- <-]; [naive_solver|].
  split; [done|]. intros _. by rewrite processNegative_flags, Hf by done.
Qed.
(** ** The features of an Earthfile *)

(** A version of two numbers, as text. *)
Definition version_text (text : string) (M m : Z) : Prop :=
  exists x y, Split text dot = [x; y] /\ Atoi x = Ok M /\ Atoi y = Ok m.

Lemma parse_number_Ok what s n : parse_number what s = Ok n <-> Atoi s = Ok n.
Proof. unfold parse_number. by destruct (Atoi s). Qed.

Lemma Get_spec parse version f b :
  Get parse version = Ok (f, b) <->
  exists text, let args := match version with Some v => ver_Args v | None => ["0.5"] end in
    args <> [] /\ parse args = Ok (flags f, [text]) /\ version_text text (Major f) (Minor f) /\
    b = bool_decide (is_Some version).
Proof.
  unfold Get, version_text. set (args := match version with Some v => _ | None => _ end). clearbody args. split.
  - intros Hg. destruct args as [|a args]; [done|]. destruct (parse (a :: args)) as [[on [|t [|]]]| |]; try done.
    cbn [rbind] in Hg. destruct (Split t dot) as [|x [|y [|]]] eqn:Es; try done.
    destruct (parse_number "major" x) as [M| |] eqn:Ex; try done. apply parse_number_Ok in Ex. cbn [rbind] in Hg.
    destruct (parse_number "minor" y) as [m| |] eqn:Ey; try done. apply parse_number_Ok in Ey.
    injection Hg as <- <-. exists t. split_and!; try done. by exists x, y.
  - intros (t & Hne & Hp & (x & y & Hs & Hx & Hy) & ->). destruct args as [|a args]; [done|].
    rewrite Hp. cbn [rbind]. rewrite Hs. rewrite (proj2 (parse_number_Ok "major" x _) Hx). cbn [rbind].
    rewrite (proj2 (parse_number_Ok "minor" y _) Hy). cbn [rbind]. by destruct f.
Qed.

(** The note about redundant flags. *)
Definition note (f : Features) (warnings : list string) : list string :=
  match warnings with
  | [] => []
  | _ => ["NOTE: The " +:+ Join warnings ", " +:+ " feature is enabled by default under VERSION " +:+
            Features_Version f +:+ ", and can be safely removed from the VERSION command"]
  end.

(** The features of an Earthfile: [parseFeatures] succeeds exactly when the
    file has a VERSION whose flags parse, whose last argument is a version of two
    numbers, whose flags with those of the version are consistent, and when every
    override is a known flag; then the features are the flags given, those the
    version has by default and the overrides, less the registry when it is negated,
    whatever the order of the overrides. *)
Theorem parseFeatures_spec parse text path overrides projectRef f log :
  parseFeatures parse text path overrides projectRef = Ok (f, log) <->
  exists version on arg, let v := (Major f, Minor f) in let keys := dom (parseFlagOverrides overrides) in
    readVersion text path false = Ok (Some version) /\ ver_Args version <> [] /\
    parse (ver_Args version) = Ok (on, [arg]) /\ version_text arg (Major f) (Minor f) /\
    consistent (effective_flags (on ∪ defaults v)) /\ set_Forall (fun k => known k = true) keys /\
    flags f = effective_flags (on ∪ defaults v ∪ keys) /\ log = note f (redundant v on).
Proof.
  unfold parseFeatures. split.
  - destruct (readVersion text path false) as [ov| |]; try done. cbn [rbind].
    destruct (Get parse ov) as [[g b]| |] eqn:Eg; try done. cbn [rbind fst snd]. apply Get_spec in Eg as (arg & Ha & Hp & Hv & ->).
    destruct ov as [version|]; [|done]. cbn [negb]. rewrite bool_decide_eq_true_2 by done. cbn [negb].
    rewrite ProcessFlags_eq. destruct (decide _) as [Hc|]; [|done]. cbn [rbind].
    destruct (ApplyFlagOverrides _ overrides) as [f' [e|]] eqn:Ea; [done|]. intros [= <- <-].
    apply ApplyFlagOverrides_spec in Ea as [Hk Hf]. rewrite Hf by done. cbn [flags Major Minor] in *.
    exists version, (flags g), arg. cbn zeta. split_and!; try done; [by apply Hk|by rewrite effective_idem].
  - intros (version & on & arg & Hr & Ha & Hp & Hv & Hc & Hk & Hf & Hl). rewrite Hr. cbn [rbind].
    assert (Hg : Get parse (Some version) = Ok (mkFeatures on (Major f) (Minor f), true)).
    { apply Get_spec. by exists arg. }
    rewrite Hg. cbn [rbind fst snd negb]. rewrite ProcessFlags_eq. cbn [flags Major Minor].
    destruct (decide _) as [_|Hn]; [|done]. cbn [rbind].
    destruct (ApplyFlagOverrides _ overrides) as [f' r] eqn:Ea. apply ApplyFlagOverrides_spec in Ea as [Hk' Hf'].
    cbn [flags Major Minor] in *. apply Hk' in Hk. rewrite Hk. rewrite (Hf' Hk), effective_idem, <- Hf, Hl.
    by destruct f.
Qed.

(** A later version has the features of an earlier one: with the same flags, when
    the registry is not negated, every feature that is on in a version is on in each
    later one, also after the same overrides. *)
Theorem features_grow f g f' g' wf wg keys :
  flags f = flags g -> version_le (Major f, Minor f) (Major g, Minor g) ->
  "no-use-registry-for-with-docker" ∉ flags f ∪ keys ->
  ProcessFlags f = Ok (f', wf) -> ProcessFlags g = Ok (g', wg) ->
  effective_flags (flags f' ∪ keys) ⊆ effective_flags (flags g' ∪ keys).
Proof.
  intros Hfl Hle Hno. rewrite !ProcessFlags_eq. destruct (decide _); [|done]. intros [= <- <-].
  destruct (decide _); [|done]. intros [= <- <-]. cbn [flags]. rewrite !effective_idem.
  apply effective_mono; rewrite <- Hfl; [apply union_mono_r, union_mono_l, defaults_grow, Hle|].
  assert ("no-use-registry-for-with-docker" ∉ defaults (Major g, Minor g)) by apply never_due. set_solver.
Qed.

(** ** The text of features *)

(** The words of the text: VERSION, the flags and the version. *)
Definition dashed (flag : string) : string := "--" +:+ flag.

Lemma Join_nested a l v : l <> [] -> Join [a; Join l " "; v] " " = Join (a :: l ++ [v]) " ".
Proof.
  intros Hl. destruct l as [|x l]; [done|]. clear Hl. cbn [Join app]. do 2 f_equal.
  revert x. induction l as [|y l IH]; intros x; cbn [Join app]; [done|].
  rewrite <- (sapp_assoc x), <- (sapp_assoc " "). do 2 f_equal. by rewrite IH.
Qed.

Lemma known_plain k : known k = true -> no_byte " " (dashed k) = true.
Proof.
  unfold known. intros (fld & Hin & <-%String.eqb_eq)%existsb_exists.
  assert (Hall : forallb (fun fld => no_byte " " (dashed (long fld))) fields = true) by (vm_compute; reflexivity).
  rewrite forallb_forall in Hall. by apply Hall.
Qed.

(** The flags that are printed: those that are on, in some order. *)
Lemma printed_flags f : set_Forall (fun k => known k = true) (flags f) ->
  exists names, merge_sort str_le (List.map (fun fld => "--" +:+ long fld) (List.filter (fun fld => has (long fld) f) fields)) =
      List.map dashed names /\
    Forall (fun k => known k = true) names /\ list_to_set names = flags f.
Proof.
  intros Hk. set (l := List.filter _ fields). rewrite <- (map_map long dashed).
  destruct (Permutation_map_inv dashed _ (merge_sort_Permutation str_le (List.map dashed (List.map long l))))
    as (names & Hn & Hp).
  exists names. assert (Hs : list_to_set names = flags f).
  { rewrite <- Hp. apply set_eq. intros x. rewrite elem_of_list_to_set, list_elem_of_In, in_map_iff. unfold l. split.
    - intros (fld & <- & [_ Hh]%filter_In). by apply bool_decide_eq_true in Hh.
    - intros Hx. pose proof (Hk x Hx) as (fld & Hin & He%String.eqb_eq)%existsb_exists. exists fld. split; [done|].
      apply filter_In. split; [done|]. apply bool_decide_eq_true. by rewrite He. }
  split_and!; [by rewrite Hn| |done]. apply list.Forall_forall. intros k Hin. apply Hk. rewrite <- Hs.
  by apply elem_of_list_to_set.
Qed.

Lemma fmt_dZ_digits n : sall (fun c => is_decimal c || Ascii.eqb c "-") (fmt_dZ n) = true.
Proof.
  assert (Hd : forall p, sall (fun c => is_decimal c || Ascii.eqb c "-") (pretty (N.pos p)) = true).
  { intros p. destruct (pretty_N_decimal (N.pos p)) as [Hd _]. eapply sall_impl; [|exact Hd]. intros c Hc. simpl in *. by rewrite Hc. }
  unfold fmt_dZ. destruct n as [|p|p]; [done|apply Hd|]. change (pretty (Z.neg p)) with ("-" +:+ pretty (N.pos p)).
  simpl. apply Hd.
Qed.

Lemma fmt_dZ_no_byte b n : is_decimal b = false -> b <> "-"%char -> no_byte b (fmt_dZ n) = true.
Proof.
  intros Hb Hm. unfold no_byte. eapply sall_impl; [|apply fmt_dZ_digits]. intros c Hc. simpl in *.
  apply negb_true_iff, Ascii.eqb_neq. intros ->. rewrite Hb in Hc. simpl in Hc. by apply Ascii.eqb_eq in Hc.
Qed.

Lemma version_reads f : is_int (Major f) = true -> is_int (Minor f) = true ->
  version_text (Features_Version f) (Major f) (Minor f).
Proof.
  intros HM Hm. exists (fmt_dZ (Major f)), (fmt_dZ (Minor f)). split; [|by rewrite !Atoi_fmt].
  apply (Split_Join dot [_; _]); [done|]. repeat constructor; by apply fmt_dZ_no_byte.
Qed.

(** Features read back from their text: for a parser of flags that reads known
    flags before a positional argument, the text that [String] prints is VERSION
    and arguments of which [Get] makes the same features, for every set of known
    flags and every pair of 64-bit numbers with the first not negative; and what
    [Get] reads always is a pair of 64-bit numbers. *)
Theorem Features_roundtrip (parse : flag_parser (gset string)) f sl :
  (forall on v, Forall (fun k => known k = true) on -> HasPrefix v "-" = false ->
    parse (List.map dashed on ++ [v]) = Ok (list_to_set on, [v])) ->
  set_Forall (fun k => known k = true) (flags f) -> (0 <= Major f)%Z ->
  is_int (Major f) = true -> is_int (Minor f) = true ->
  (exists args, Split (Features_String f) " "%char = "VERSION" :: args /\
    Get parse (Some (mkVersion sl args)) = Ok (f, true)) /\
  forall version g b, Get parse version = Ok (g, b) -> is_int (Major g) = true /\ is_int (Minor g) = true.
Proof.
  intros Hparse Hk Hpos HM Hm. split.
  - destruct (printed_flags f Hk) as (names & Hn & Hkn & Hs). exists (List.map dashed names ++ [Features_Version f]). split.
    + unfold Features_String. rewrite Hn. transitivity (Split (Join ("VERSION" :: List.map dashed names ++ [Features_Version f]) " ") " "%char).
      { f_equal. destruct names as [|k names]; [done|]. by apply Join_nested. }
      apply Split_Join; [done|]. constructor; [done|]. apply Forall_app. split.
      * apply List.Forall_map. eapply Forall_impl; [|exact Hkn]. apply known_plain.
      * constructor; [|constructor]. unfold Features_Version, no_byte. rewrite !sall_app.
        apply andb_true_iff. split; [by apply (fmt_dZ_no_byte " "%char)|].
        apply andb_true_iff. split; [done|by apply (fmt_dZ_no_byte " "%char)].
    + apply Get_spec. exists (Features_Version f). cbn [ver_Args]. split_and!.
      * by destruct names.
      * rewrite Hparse; [by rewrite Hs|done|]. unfold Features_Version, fmt_dZ. destruct (Major f) as [|p|p]; [done| |lia].
        change (pretty (Z.pos p)) with (pretty (N.pos p)). destruct (pretty_N_decimal (N.pos p)) as (Hd & Hne & _).
        destruct (pretty (N.pos p)) as [|c t]; [done|].
        apply not_true_iff_false. intros [u Hu]%HasPrefix_spec. injection Hu as -> _. done.
      * by apply version_reads.
      * done.
  - intros version g b (t & _ & _ & (x & y & _ & Hx & Hy) & _)%Get_spec. by apply Atoi_int in Hx, Hy.
Qed.

End Facts.

(** ** Concrete versions *)

Module Sample.

#[local] Instance list_order : RangeOrder := map_to_list.
#[local] Instance list_order_laws : RangeLaws.
Proof. by intros m. Qed.
#[local] Instance all_print : Unicode := fun _ => true.

(** A parser of known flags before positional arguments. *)
Fixpoint leading_flags (args : list string) : gset string * list string :=
  match args with
  | String "-" (String "-" k) :: rest =>
      if known k then ({[k]} ∪ (leading_flags rest).1, (leading_flags rest).2) else (∅, args)
  | _ => (∅, args)
  end.

Definition sample_parse : flag_parser (gset string) := fun args => Ok (leading_flags args).

Definition earthfile (version : string) : string := version +:+ String "010" "".

(** The features are what the specification says. *)
Lemma parseFeatures_spec_witness :
  exists f log, parseFeatures sample_parse (earthfile "VERSION --try --for-in 0.7") "Earthfile" "wildcard-copy" "." = Ok (f, log) /\
    Major f = 0%Z /\ Minor f = 7%Z /\ "wildcard-copy" ∈ flags f /\ "wait-block" ∈ flags f /\ "pass-args" ∉ flags f /\
    exists version on arg, readVersion (earthfile "VERSION --try --for-in 0.7") "Earthfile" false = Ok (Some version) /\
      sample_parse (ver_Args version) = Ok (on, [arg]) /\
      flags f = effective_flags (on ∪ defaults (Major f, Minor f) ∪ dom (parseFlagOverrides "wildcard-copy")).
Proof.
  assert (Hb : match parseFeatures sample_parse (earthfile "VERSION --try --for-in 0.7") "Earthfile" "wildcard-copy" "." with
    | Ok (f, _) => bool_decide (Major f = 0%Z /\ Minor f = 7%Z /\ "wildcard-copy" ∈ flags f /\ "wait-block" ∈ flags f /\
        "pass-args" ∉ flags f)
    | _ => false end = true) by (vm_compute; reflexivity).
  destruct (parseFeatures _ _ _ _ _) as [[f log]| |] eqn:E; [|discriminate Hb..]. apply bool_decide_eq_true in Hb.
  pose proof (proj1 (parseFeatures_spec _ _ _ _ _ _ _) E) as (version & on & arg & Hr & _ & Hp & _ & _ & _ & Hf & _).
  exists f, log. destruct Hb as (H1 & H2 & H3 & H4 & H5). split; [reflexivity|]. split_and!; try assumption.
  exists version, on, arg. split_and!; assumption.
Defined.

Lemma features_grow_witness :
  exists f g, ProcessFlags (mkFeatures {["try"]} 0 6) = Ok f /\ ProcessFlags (mkFeatures {["try"]} 0 8) = Ok g /\
    effective_flags (flags f.1 ∪ {["wildcard-copy"]}) ⊆ effective_flags (flags g.1 ∪ {["wildcard-copy"]}).
Proof.
  destruct (ProcessFlags (mkFeatures {["try"]} 0 6)) as [[f wf]| |] eqn:Ef; [|vm_compute in Ef; discriminate Ef..].
  destruct (ProcessFlags (mkFeatures {["try"]} 0 8)) as [[g wg]| |] eqn:Eg; [|vm_compute in Eg; discriminate Eg..].
  exists (f, wf), (g, wg). split; [exact eq_refl|]. split; [exact eq_refl|].
  refine (features_grow (mkFeatures {["try"]} 0 6) (mkFeatures {["try"]} 0 8) f g wf wg {["wildcard-copy"]} eq_refl _ _ Ef Eg); [unfold version_le; simpl; lia|].
  apply (bool_decide_unpack _). vm_compute. exact I.
Defined.

Lemma leading_dashed on v : Forall (fun k => known k = true) on -> HasPrefix v "-" = false ->
  leading_flags (List.map dashed on ++ [v]) = (list_to_set on, [v]).
Proof.
  intros Hk Hv. induction Hk as [|k on Hk _ IH].
  - destruct v as [|c v]; [done|]. simpl. destruct (ascii_dec c "-") as [->|Hc].
    { assert (HasPrefix (String "-" v) "-" = true) by (apply HasPrefix_spec; by exists v). congruence. }
    destruct c as [[] [] [] [] [] [] [] []]; done.
  - cbn [List.map app]. change (dashed k) with (String "-" (String "-" k)). cbn [leading_flags]. by rewrite Hk, IH.
Qed.

Lemma Features_roundtrip_witness :
  Split (Features_String (mkFeatures {["try"; "wait-block"]} 0 6)) " "%char = ["VERSION"; "--try"; "--wait-block"; "0.6"] /\
  exists args, Get sample_parse (Some (mkVersion None args)) = Ok (mkFeatures {["try"; "wait-block"]} 0 6, true).
Proof.
  split; [vm_compute; reflexivity|].
  destruct (Features_roundtrip sample_parse (mkFeatures {["try"; "wait-block"]} 0 6) None) as [(args & _ & Hg) _];
    [|apply (bool_decide_unpack _); vm_compute; exact I|done..|by exists args].
  intros on v Hk Hv. unfold sample_parse. by rewrite leading_dashed.
Defined.

(** The value of an override is not looked at. *)
Lemma override_value_ignored :
  ApplyFlagOverrides (mkFeatures ∅ 0 6) "for-in=false" = (mkFeatures {["for-in"]} 0 6, None).
Proof. vm_compute. reflexivity. Qed.

(** Overrides are not checked for consistency, as the flags of VERSION are. *)
Lemma overrides_inconsistent :
  ProcessFlags (mkFeatures {["arg-scope-and-set"]} 0 6) = Err errNeedsShellOut /\
  exists f log, parseFeatures sample_parse (earthfile "VERSION 0.6") "Earthfile" "arg-scope-and-set" "." = Ok (f, log) /\
    ~ consistent (flags f).
Proof.
  split; [vm_compute; reflexivity|].
  assert (Hb : match parseFeatures sample_parse (earthfile "VERSION 0.6") "Earthfile" "arg-scope-and-set" "." with
    | Ok (f, _) => negb (bool_decide (consistent (flags f))) | _ => false end = true) by (vm_compute; reflexivity).
  destruct (parseFeatures _ _ _ _ _) as [[f log]| |]; [|discriminate Hb..]. exists f, log. split; [reflexivity|].
  by apply negb_true_iff, bool_decide_eq_false in Hb.
Qed.

End Sample.
