(* ===== verification/Json.v ===== *)
(** * Text in JSON

    What [encoding/json] writes for a string ([json.Marshal], which also escapes the
    characters that matter to HTML), and that nothing is lost: two well-formed texts
    with the same encoding are the same text. *)

From S2P Require Import Prelude GoStrings Token GoText Reference RuneFacts.

Abbreviation bDQuote := "034"%char.
Abbreviation bBackslash := "092"%char.

Definition json_rune (r : Z) : string :=
  if ((r =? rDQuote) || (r =? rBackslash))%Z then String bBackslash (EncodeRune r)
  else if (r =? 8)%Z then escape_byte "b"
  else if (r =? 12)%Z then escape_byte "f"
  else if (r =? 10)%Z then escape_byte "n"
  else if (r =? 13)%Z then escape_byte "r"
  else if (r =? 9)%Z then escape_byte "t"
  else if ((r <? 32) || (r =? 60) || (r =? 62) || (r =? 38) || (r =? 8232) || (r =? 8233))%Z
       then escape_byte "u" +:+ lower_hex 4 r
  else EncodeRune r.

Fixpoint json_fuel (fuel : nat) (s : string) : string :=
  match fuel, s with
  | S f, String _ _ =>
      let '(r, w) := DecodeRuneInString s in
      (if (w =? 1) && (r =? RuneError)%Z then escape_byte "u" +:+ "fffd" else json_rune r) +:+ json_fuel f (sdrop w s)
  | _, _ => ""
  end.

Definition json_string (s : string) : string := dquote +:+ json_fuel (String.length s) s +:+ dquote.

(** ** Nothing is lost *)

(** The runes that are escaped. *)
Definition special_runes : list Z :=
  [34; 92; 8; 12; 10; 13; 9; 60; 62; 38; 8232; 8233; 0; 1; 2; 3; 4; 5; 6; 7; 11; 14; 15; 16; 17; 18; 19; 20; 21; 22; 23;
   24; 25; 26; 27; 28; 29; 30; 31]%Z.

Definition special (r : Z) : bool := existsb (Z.eqb r) special_runes.

Lemma special_spec r : special r = true -> In r special_runes.
Proof. intros (x & Hin & ->%Z.eqb_eq)%existsb_exists. done. Qed.

Lemma json_rune_plain r : (0 <= r)%Z -> special r = false -> json_rune r = EncodeRune r.
Proof.
  intros Hr Hs. unfold special in Hs. simpl in Hs. repeat (apply orb_false_iff in Hs as [? Hs]). to_prop.
  unfold json_rune. repeat (rewrite (proj2 (Z.eqb_neq _ _)) by lia). rewrite (proj2 (Z.ltb_ge _ _)) by lia. done.
Qed.

(** Escapes of equal length are different, and others differ in their second byte. *)
Definition apart (x y : Z) : bool :=
  let a := json_rune x in let b := json_rune y in
  if String.length a =? String.length b then (x =? y)%Z || negb (String.eqb a b)
  else negb (String.eqb (stake 2 a) (stake 2 b)).

Lemma special_apart : forallb (fun x => forallb (apart x) special_runes) special_runes = true.
Proof. vm_compute. reflexivity. Qed.

Definition escape_ok (x : Z) : bool :=
  match json_rune x with
  | String c s => Ascii.eqb c bBackslash && (1 <=? String.length s)
  | "" => false
  end.

Lemma special_escape : forallb escape_ok special_runes = true.
Proof. vm_compute. reflexivity. Qed.

Lemma sapp_split (a b s t : string) : String.length a = String.length b -> a +:+ s = b +:+ t -> a = b /\ s = t.
Proof.
  revert b. induction a as [|c a IH]; intros [|d b] Hl He; simpl in *; try done.
  injection He as <- He. apply IH in He as [-> ->]; [done|lia].
Qed.

Lemma stake_app2 a s : 2 <= String.length a -> stake 2 (a +:+ s) = stake 2 a.
Proof. destruct a as [|c [|d a]]; simpl; [lia|lia|]. done. Qed.

Lemma special_inj x y s t :
  special x = true -> special y = true -> json_rune x +:+ s = json_rune y +:+ t -> x = y /\ s = t.
Proof.
  intros Hx%special_spec Hy%special_spec He. pose proof special_apart as Ha.
  rewrite forallb_forall in Ha. specialize (Ha _ Hx). rewrite forallb_forall in Ha. specialize (Ha _ Hy).
  unfold apart in Ha. destruct (Nat.eqb_spec (String.length (json_rune x)) (String.length (json_rune y))) as [El|El].
  - apply sapp_split in He as [E ->]; [|done]. rewrite E, String.eqb_refl, orb_false_r in Ha. to_prop. done.
  - pose proof special_escape as Hok. rewrite forallb_forall in Hok.
    assert (Hl : forall z, In z special_runes -> 2 <= String.length (json_rune z)).
    { intros z Hz. specialize (Hok _ Hz). unfold escape_ok in Hok. destruct (json_rune z) as [|c e]; [done|].
      apply andb_true_iff in Hok as [_ Hok%Nat.leb_le]. simpl. lia. }
    apply (f_equal (stake 2)) in He. rewrite !stake_app2 in He by auto. by rewrite He, String.eqb_refl in Ha.
Qed.

(** A rune and its bytes. *)
Record rune_of (r : Z) (p : string) : Prop := mkRuneOf {
  ru_nonempty : p <> "";
  ru_encode : EncodeRune r = p;
  ru_decode : forall t, DecodeRuneInString (p +:+ t) = (r, String.length p);
  ru_low : (r < 128)%Z -> exists c, p = String c "" /\ byteZ c = r;
  ru_high : (128 <= r)%Z -> sall high p = true }.

Lemma ru_nonneg r p : rune_of r p -> (0 <= r)%Z.
Proof.
  intros Hr. destruct (Z.ltb_spec r 128) as [Hl|]; [|lia]. destruct (ru_low _ _ Hr Hl) as (c & _ & <-). apply byteZ_bound.
Qed.

Lemma utf8_cases s : utf8 s = true -> s = "" \/ exists r p s', rune_of r p /\ utf8 s' = true /\ s = p +:+ s'.
Proof.
  revert s. apply (utf8_ind (fun s => s = "" \/ _)); [by left|]. intros r p s Hp He Hd Hl Hh Hu _.
  right. by exists r, p, s.
Qed.

(** The first byte of an encoded rune. *)
Lemma json_head r p s c t :
  rune_of r p -> json_rune r +:+ s = String c t ->
  c <> bDQuote /\ (c = bBackslash <-> special r = true).
Proof.
  intros Hr He. destruct (special r) eqn:Es.
  - pose proof special_escape as Hok. rewrite forallb_forall in Hok. specialize (Hok r (special_spec r Es)).
    unfold escape_ok in Hok. destruct (json_rune r) as [|d e]; [done|]. injection He as -> _.
    apply andb_true_iff in Hok as [->%Ascii.eqb_eq _]. done.
  - rewrite json_rune_plain, (ru_encode _ _ Hr) in He by (done || by eapply ru_nonneg).
    assert (Hc : r = byteZ c \/ (128 <= byteZ c)%Z).
    { destruct (Z.ltb_spec r 128) as [Hl|Hh].
      - destruct (ru_low _ _ Hr Hl) as (d & -> & <-). injection He as -> _. by left.
      - pose proof (ru_high _ _ Hr Hh) as Ha. destruct p as [|d p]; [by destruct (ru_nonempty _ _ Hr)|].
        injection He as -> _. simpl in Ha. apply andb_true_iff in Ha as [Ha _]. right. unfold high in Ha. by apply Z.leb_le. }
    split; [|split; [|done]]; intros ->; destruct Hc as [->|Hc]; try done.
Qed.

Lemma json_rune_inj r1 p1 s r2 p2 t :
  rune_of r1 p1 -> rune_of r2 p2 -> json_rune r1 +:+ s = json_rune r2 +:+ t -> r1 = r2 /\ s = t.
Proof.
  intros H1 H2 He.
  assert (Hs : special r1 = special r2).
  { destruct (json_rune r1 +:+ s) as [|c u] eqn:E.
    - unfold json_rune in E. exfalso. revert E. repeat case_test; try done.
      rewrite (ru_encode _ _ H1). by destruct p1; [destruct (ru_nonempty _ _ H1)|].
    - destruct (json_head _ _ _ _ _ H1 E) as [_ Ha]. destruct (json_head _ _ _ _ _ H2 (eq_sym He)) as [_ Hb].
      destruct (special r1), (special r2); naive_solver. }
  destruct (special r1) eqn:E1; [by apply special_inj|].
  rewrite !json_rune_plain in He by (done || by eapply ru_nonneg).
  rewrite (ru_encode _ _ H1), (ru_encode _ _ H2) in He. pose proof (ru_decode _ _ H1 s) as Hd.
  rewrite He, (ru_decode _ _ H2 t) in Hd. injection Hd as Hr Hl. symmetry in Hr, Hl.
  split; [done|]. by apply sapp_split in He as [_ ->].
Qed.

Lemma json_fuel_enough n m s : String.length s <= n -> String.length s <= m -> json_fuel n s = json_fuel m s.
Proof.
  revert m s. induction n as [|n IH]; intros [|m] [|c s] Hn Hm; try done; try (simpl in *; lia).
  cbn [json_fuel]. destruct (DecodeRuneInString (String c s)) as [r w] eqn:Hd.
  destruct (decode_spec (String c s) r w ltac:(done) Hd) as (_ & Hw & _).
  f_equal. apply IH; rewrite length_sdrop; simpl in *; lia.
Qed.

Definition json_body (s : string) : string := json_fuel (String.length s) s.

Lemma json_body_cons r p s : rune_of r p -> json_body (p +:+ s) = json_rune r +:+ json_body s.
Proof.
  intros Hr. unfold json_body.
  assert (Hne : exists n, String.length (p +:+ s) = S n /\ String.length s <= n /\ p +:+ s <> "").
  { destruct p as [|c q]; [by destruct (ru_nonempty _ _ Hr)|]. exists (String.length (q +:+ s)).
    split_and!; [done|rewrite length_sapp; lia|done]. }
  destruct Hne as (n & -> & Hn & Hs).
  assert (Hstep : forall t, t <> "" -> json_fuel (S n) t = let '(r, w) := DecodeRuneInString t in
    (if (w =? 1) && (r =? RuneError)%Z then escape_byte "u" +:+ "fffd" else json_rune r) +:+ json_fuel n (sdrop w t)).
  { intros [|c t]; done. }
  rewrite Hstep, (ru_decode _ _ Hr s) by done.
  assert ((String.length p =? 1) && (r =? RuneError)%Z = false) as ->.
  { apply andb_false_iff. destruct (Z.eqb_spec r RuneError) as [->|]; [left|by right].
    by rewrite <- (ru_encode _ _ Hr). }
  rewrite sdrop_sapp. f_equal. by apply json_fuel_enough.
Qed.

Lemma json_body_inj s1 s2 t1 t2 :
  utf8 s1 = true -> utf8 s2 = true ->
  json_body s1 +:+ String bDQuote t1 = json_body s2 +:+ String bDQuote t2 -> s1 = s2 /\ t1 = t2.
Proof.
  intros H1. revert s2. pattern s1. revert s1 H1. apply utf8_ind.
  - intros s2 [->|(r & p & s' & Hr & _ & ->)]%utf8_cases He; [by injection He as <-|].
    rewrite (json_body_cons r p) in He by done. rewrite <- sapp_assoc in He. symmetry in He.
    by destruct (json_head _ _ _ _ _ Hr He) as [? _].
  - intros r p s Hp Hee Hd Hl Hh Hu IH s2 Hs2 He. assert (Hr : rune_of r p) by done.
    rewrite (json_body_cons r p), <- sapp_assoc in He by done.
    destruct (utf8_cases s2 Hs2) as [->|(r2 & p2 & s' & Hr2 & Hs' & ->)].
    { by destruct (json_head _ _ _ _ _ Hr He) as [? _]. }
    rewrite (json_body_cons r2 p2), <- sapp_assoc in He by done.
    apply (json_rune_inj _ _ _ _ _ _ Hr Hr2) in He as [<- He]. apply IH in He as [-> ->]; [|done].
    by rewrite <- (ru_encode _ _ Hr), <- (ru_encode _ _ Hr2).
Qed.

(** Two texts with the same encoding, whatever follows, are the same text. *)
Lemma json_string_inj s1 s2 t1 t2 :
  utf8 s1 = true -> utf8 s2 = true -> json_string s1 +:+ t1 = json_string s2 +:+ t2 -> s1 = s2 /\ t1 = t2.
Proof.
  intros H1 H2 He. unfold json_string in He. rewrite <- !sapp_assoc in He. injection He as He.
  by apply json_body_inj.
Qed.
