(* ===== verification/Platform.v ===== *)
(** * Platforms

    A translation of [util/platutil/platform.go] and [util/platutil/resolver.go].
    The package [containerd/platforms] (parsing, normalising and printing of a
    specification) is a parameter. *)

From S2P Require Import Prelude GoStrings.

#[local] Open Scope res_scope.

(** [specs.Platform] of the OCI image specification *)
Record Spec : Type := mkSpec {
  Architecture : string; OS : string; OSVersion : string; OSFeatures : list string; Variant : string }.

#[export] Instance Spec_eq_dec : EqDecision Spec.
Proof. solve_decision. Defined.

Class Platforms : Type := {
  platforms_Parse : string -> res Spec;
  Normalize : Spec -> Spec;
  Format : Spec -> string;
  DefaultSpec : Spec }.

(** What [PlatformEquals] looks at. *)
Definition same_spec (p q : Spec) : Prop :=
  OS p = OS q /\ Architecture p = Architecture q /\ Variant p = Variant q.

#[export] Instance same_spec_dec p q : Decision (same_spec p q).
Proof. unfold same_spec. apply _. Defined.

#[export] Instance same_spec_equivalence : Equivalence same_spec.
Proof. unfold same_spec. split; [done|intros ? ? (?&?&?); done|intros ? ? ? (?&?&?) (?&?&?); split_and!; congruence]. Qed.

(** The documented behaviour: normalising twice is normalising once, and the text
    of a normal specification reads back as the same platform. *)
Class PlatformsLaws `{Platforms} : Prop := {
  Normalize_idem p : Normalize (Normalize p) = Normalize p;
  Format_Parse p : exists q, platforms_Parse (Format (Normalize p)) = Ok q /\ same_spec (Normalize q) (Normalize p);
  Format_proper p : Format (Normalize p) <> "native" /\ Format (Normalize p) <> "user" /\ Format (Normalize p) <> "" }.

Module Plat.

Record Platform : Type := mkPlatform { p : option Spec; user : bool; native : bool }.

#[global] Instance Platform_eq_dec : EqDecision Platform.
Proof. solve_decision. Defined.

Definition DefaultPlatform : Platform := mkPlatform None false false.
Definition NativePlatform : Platform := mkPlatform None false true.
Definition UserPlatform : Platform := mkPlatform None true false.

Definition IsPlatformDefined (x : Platform) : bool := bool_decide (x <> DefaultPlatform).

Section Plat.
Context `{Platforms}.

Definition FromLLBPlatform (s : Spec) : Platform := mkPlatform (Some (Normalize s)) false false.

Definition Platform_String (x : Platform) : string :=
  match p x with
  | Some s => Format s
  | None => if native x then "native" else if user x then "user" else ""
  end.

(** ** The resolver *)

Record Resolver : Type := mkResolver {
  currentPlatform : Platform;
  defaultPlatform : Platform;
  userPlatform : Spec;
  nativePlatform : Spec;
  AllowNativeAndUser : bool }.

Definition GetUserPlatform : Spec := Normalize DefaultSpec.

Definition NewResolver (nativePlatform : Spec) : Resolver :=
  mkResolver DefaultPlatform DefaultPlatform GetUserPlatform nativePlatform false.

Definition SubResolver (newPlatform : Platform) (r : Resolver) : Resolver :=
  let newPlatform := if decide (newPlatform = DefaultPlatform) then defaultPlatform r else newPlatform in
  mkResolver newPlatform newPlatform (userPlatform r) (nativePlatform r) (AllowNativeAndUser r).

Definition SubPlatform (x : Platform) (r : Resolver) : Platform :=
  if decide (x = DefaultPlatform) then currentPlatform r else x.

Definition UpdatePlatform (newPlatform : Platform) (r : Resolver) : Resolver * Platform :=
  let newPlatform := if decide (newPlatform = DefaultPlatform) then defaultPlatform r else newPlatform in
  (mkResolver newPlatform (defaultPlatform r) (userPlatform r) (nativePlatform r) (AllowNativeAndUser r), newPlatform).

Definition parse_spec (str : string) : res Platform :=
  let* s := platforms_Parse str in Ok (mkPlatform (Some (Normalize s)) false false).

Definition ParseAllowNativeAndUser (str : string) : res Platform :=
  if String.eqb str "native" then Ok NativePlatform
  else if String.eqb str "user" then Ok UserPlatform
  else if String.eqb str "" then Ok DefaultPlatform
  else parse_spec str.

Definition Parse (r : Resolver) (str : string) : res Platform :=
  if AllowNativeAndUser r then ParseAllowNativeAndUser str
  else if String.eqb str "" then Ok DefaultPlatform
  else parse_spec str.

(** The specification that [Materialize] gives. *)
Definition ToLLBPlatform (r : Resolver) (x : Platform) : Spec :=
  Normalize (match p x with
             | Some s => s
             | None => if user x then userPlatform r else nativePlatform r
             end).

Definition Materialize (r : Resolver) (x : Platform) : Platform := mkPlatform (Some (ToLLBPlatform r x)) false false.

Definition PlatformEquals (r : Resolver) (x y : Platform) : bool :=
  bool_decide (same_spec (ToLLBPlatform r x) (ToLLBPlatform r y)).

(** ** Facts *)

#[export] Instance PlatformEquals_equivalence r : Equivalence (fun x y => PlatformEquals r x y = true).
Proof.
  unfold PlatformEquals. split.
  - intros x. by apply bool_decide_eq_true.
  - intros x y. rewrite !bool_decide_eq_true. by intros ->.
  - intros x y z. rewrite !bool_decide_eq_true. by intros -> ->.
Qed.

Context `{!PlatformsLaws}.

Lemma Materialize_idem r x : Materialize r (Materialize r x) = Materialize r x.
Proof. unfold Materialize, ToLLBPlatform. simpl. by rewrite Normalize_idem. Qed.

(** The text of a materialised platform reads back as an equal platform. *)
Lemma Materialize_reads r x :
  exists y, ParseAllowNativeAndUser (Platform_String (Materialize r x)) = Ok y /\ PlatformEquals r x y = true.
Proof.
  unfold Platform_String, Materialize, ToLLBPlatform. cbn [p]. set (s := match p x with Some s => s | None => _ end).
  destruct (Format_proper s) as (Hn & Hu & He). destruct (Format_Parse s) as (q & Hq & Hs).
  unfold ParseAllowNativeAndUser, parse_spec.
  rewrite (proj2 (String.eqb_neq _ _) Hn), (proj2 (String.eqb_neq _ _) Hu), (proj2 (String.eqb_neq _ _) He), Hq.
  eexists. split; [done|]. unfold PlatformEquals, ToLLBPlatform. apply bool_decide_eq_true. cbn [p].
  fold s. by rewrite Normalize_idem, Hs.
Qed.

End Plat.
End Plat.
