(* ===== verification/States.v ===== *)
(** * Visited targets

    A translation of [states/dedup/targetinput.go], of the collections of visited
    targets ([states/visited-upfront-hash.go], [states/visited-legacy.go]) and of
    what they use of [states/states.go].  A visited target is known by its index in
    the list of the collection, which stands for the pointer.  [digest] stands for
    the hexadecimal SHA-256 of a text, and the identifiers of new targets (fresh
    UUIDs) are arguments.  [Add] of the upfront collection computes the key from its
    arguments alone and does the rest under the lock: it is one step. *)

From stdpp Require Import gmap sorting.
From S2P Require Import Prelude GoStrings Token GoText Json Reference Scope BuildArgs Platform.

#[local] Open Scope res_scope.

(** ** [dedup] *)

Record BuildArgInput : Type := mkBuildArgInput { bai_Name : string; ConstantValue : string; DefaultValue : string }.

#[export] Instance BuildArgInput_eq_dec : EqDecision BuildArgInput.
Proof. solve_decision. Defined.

(** [BuildArgs] is [None] for a nil slice. *)
Record TargetInput : Type := mkTargetInput {
  TargetCanonical : string;
  ti_Platform : string;
  ti_BuildArgs : option (list BuildArgInput);
  AllowPrivileged : bool }.

#[export] Instance TargetInput_eq_dec : EqDecision TargetInput.
Proof. solve_decision. Defined.

Definition args_of (ti : TargetInput) : list BuildArgInput := default [] (ti_BuildArgs ti).

Definition clone (ti : TargetInput) : TargetInput :=
  mkTargetInput (TargetCanonical ti) (ti_Platform ti) (Some (args_of ti)) (AllowPrivileged ti).

(** Without the first argument of a name. *)
Fixpoint remove_arg (name : string) (l : list BuildArgInput) : list BuildArgInput :=
  match l with
  | [] => []
  | b :: l => if String.eqb (bai_Name b) name then l else b :: remove_arg name l
  end.

Definition WithBuildArgInput (bai : BuildArgInput) (ti : TargetInput) : TargetInput :=
  let c := clone ti in
  mkTargetInput (TargetCanonical c) (ti_Platform c) (Some (remove_arg (bai_Name bai) (args_of c) ++ [bai]))
    (AllowPrivileged c).

(** A name is in the map with the value true. *)
Definition WithFilterBuildArgs (buildArgNames : gmap string bool) (ti : TargetInput) : TargetInput :=
  mkTargetInput (TargetCanonical ti) (ti_Platform ti)
    (Some (List.filter (fun b => default false (buildArgNames !! bai_Name b)) (args_of ti))) (AllowPrivileged ti).

Definition cloneNoTag (HOME : string) (ti : TargetInput) : res TargetInput :=
  let* targetStr :=
    if String.eqb (TargetCanonical ti) "" then Ok ""
    else
      let* target := ParseTarget HOME (TargetCanonical ti) in
      Ok (referenceStringCanonical (mkRef (kind target) (GitURL target) "" (LocalPath target) (ImportRef target) (Name target))) in
  Ok (mkTargetInput targetStr (ti_Platform ti) (Some (args_of ti)) (AllowPrivileged ti)).

(** [json.Marshal] of the structs, by their tags. *)
Definition json_member (name value : string) : string := json_string name +:+ ":" +:+ value.

Definition json_bool (b : bool) : string := if b then "true" else "false".

Definition marshal_arg (b : BuildArgInput) : string :=
  "{" +:+ json_member "name" (json_string (bai_Name b)) +:+ "," +:+
  json_member "constantValue" (json_string (ConstantValue b)) +:+ "}".

Definition marshal_args (l : option (list BuildArgInput)) : string :=
  match l with
  | None => "null"
  | Some l => "[" +:+ Join (List.map marshal_arg l) "," +:+ "]"
  end.

Definition marshal (ti : TargetInput) : string :=
  "{" +:+ json_member "targetCanonical" (json_string (TargetCanonical ti)) +:+ "," +:+
  json_member "platform" (json_string (ti_Platform ti)) +:+ "," +:+
  json_member "buildArgs" (marshal_args (ti_BuildArgs ti)) +:+ "," +:+
  json_member "allowPrivileged" (json_bool (AllowPrivileged ti)) +:+ "}".

Definition IsDefaultValue (b : BuildArgInput) : bool :=
  IsBuiltIn (bai_Name b) || String.eqb (ConstantValue b) (DefaultValue b).

Definition Equals (b other : BuildArgInput) : bool :=
  String.eqb (bai_Name b) (bai_Name other) && String.eqb (ConstantValue b) (ConstantValue other).

(** ** Targets *)

(** The fields of [SingleTarget] that the collections use. *)
Record SingleTarget : Type := mkSingleTarget {
  ID : string;
  st_Target : Reference;
  targetInput : TargetInput;
  st_done : bool }.

Section States.
Context `{Platforms}.
Variable digest : string -> string.

Definition Hash (ti : TargetInput) : string := digest (marshal ti).

Definition HashNoTag (HOME : string) (ti : TargetInput) : res string :=
  let* c := cloneNoTag HOME ti in Ok (digest (marshal c)).

Definition addOverridingVarsAsBuildArgInputs (overridingVars : Scope) (ti : TargetInput) : TargetInput :=
  fold_left (fun ti key => WithBuildArgInput (mkBuildArgInput key (default "" (Get overridingVars key [])) "") ti)
    (Sorted overridingVars []) ti.

(** The arguments of [Add]. *)
Record request : Type := mkRequest {
  rq_target : Reference; rq_platr : Plat.Resolver; rq_allowPrivileged : bool; rq_overridingVars : Scope }.

Definition new_input (q : request) : TargetInput :=
  addOverridingVarsAsBuildArgInputs (rq_overridingVars q)
    (mkTargetInput (referenceStringCanonical (rq_target q))
       (Plat.Platform_String (Plat.Materialize (rq_platr q) (Plat.currentPlatform (rq_platr q)))) None
       (rq_allowPrivileged q)).

Definition newSingleTarget (id : string) (q : request) : SingleTarget := mkSingleTarget id (rq_target q) (new_input q) false.

(** ** [visitedUpfrontHashCollection] *)

Record upfront : Type := mkUpfront { visited : gmap string nat; visitedList : list SingleTarget }.

Definition NewVisitedUpfrontHashCollection : upfront := mkUpfront ∅ [].

(** The target, and whether it was there before. *)
Definition upfront_Add (id : string) (q : request) (vc : upfront) : upfront * (nat * bool) :=
  let newSts := newSingleTarget id q in
  let newKey := Hash (targetInput newSts) in
  match visited vc !! newKey with
  | Some i => (vc, (i, true))
  | None =>
      let i := length (visitedList vc) in
      (mkUpfront (<[newKey := i]> (visited vc)) (visitedList vc ++ [newSts]), (i, false))
  end.

Definition update_target (i : nat) (f : SingleTarget -> SingleTarget) (vc : upfront) : upfront :=
  mkUpfront (visited vc) (alter f i (visitedList vc)).

(** [sts.AddBuildArgInput(bai)], on the target that [Add] returned. *)
Definition AddBuildArgInput (bai : BuildArgInput) (t : SingleTarget) : SingleTarget :=
  mkSingleTarget (ID t) (st_Target t) (WithBuildArgInput bai (targetInput t)) (st_done t).

(** ** [legacyVisitedCollection] *)

Record legacy : Type := mkLegacy { lvisited : gmap string (list nat); lvisitedList : list SingleTarget }.

Definition NewLegacyVisitedCollection : legacy := mkLegacy ∅ [].

(** The loop of [compareTargetInputs] over the recorded arguments. *)
Definition same_arg (overridingVars : Scope) (b : BuildArgInput) : bool :=
  match Get overridingVars (bai_Name b) [] with
  | Some v => Equals (mkBuildArgInput (bai_Name b) v (DefaultValue b)) b
  | None => IsDefaultValue b
  end.

Definition compareTargetInputs (q : request) (other : TargetInput) : res bool :=
  if negb (String.eqb (referenceStringCanonical (rq_target q)) (TargetCanonical other)) then Ok false
  else if negb (Bool.eqb (rq_allowPrivileged q) (AllowPrivileged other)) then Ok false
  else
    let* stsPlat := Plat.ParseAllowNativeAndUser (ti_Platform other) in
    if negb (Plat.PlatformEquals (rq_platr q) (Plat.currentPlatform (rq_platr q)) stsPlat) then Ok false
    else Ok (forallb (same_arg (rq_overridingVars q)) (args_of other)).

(** The loop of [Add] under the lock, over the visited targets of the same name;
    [dependents] are the targets that wait for the caller. *)
Fixpoint legacy_find (q : request) (dependents : gset string) (l : list SingleTarget) (ixs : list nat) : res (option nat) :=
  match ixs with
  | [] => Ok None
  | i :: ixs =>
      match l !! i with
      | None => Err "panic: index out of range"
      | Some sts =>
          let* same := compareTargetInputs q (targetInput sts) in
          if same : bool then
            if decide (ID sts ∈ dependents) then
              Err ("infinite recursion detected for target " +:+ referenceString (rq_target q))
            else if negb (st_done sts) then Err "panic: same sts but not done"
            else Ok (Some i)
          else legacy_find q dependents l ixs
      end
  end.

(** [Add] from the point where it holds the lock. *)
Definition legacy_Add (id : string) (q : request) (dependents : gset string) (vc : legacy) : res (legacy * (nat * bool)) :=
  let targetStr := referenceStringCanonical (rq_target q) in
  let ixs := default [] (lvisited vc !! targetStr) in
  let* found := legacy_find q dependents (lvisitedList vc) ixs in
  match found with
  | Some i => Ok (vc, (i, true))
  | None =>
      let i := length (lvisitedList vc) in
      Ok (mkLegacy (<[targetStr := ixs ++ [i]]> (lvisited vc)) (lvisitedList vc ++ [newSingleTarget id q]), (i, false))
  end.

(** The condition on which [waitAllDoneAndLock] returns, with the lock held: every
    visited target of the name is done or waits for the caller. *)
Definition all_done (q : request) (dependents : gset string) (vc : legacy) : bool :=
  forallb (fun i => match lvisitedList vc !! i with
                    | Some sts => st_done sts || bool_decide (ID sts ∈ dependents)
                    | None => false
                    end) (default [] (lvisited vc !! referenceStringCanonical (rq_target q))).

End States.

(** * Visited targets: theorems

    The key of a target loses nothing of what a target is invoked with, so that the
    upfront collection is a map from invocations to targets; and the legacy
    collection finds again what it has built. *)

#[local] Open Scope res_scope.

(** ** The encoding of a target input *)

(** What is hashed of an argument, and of an input. *)
Definition arg_key (b : BuildArgInput) : string * string := (bai_Name b, ConstantValue b).

Definition input_key (ti : TargetInput) : string * string * option (list (string * string)) * bool :=
  (TargetCanonical ti, ti_Platform ti, List.map arg_key <$> ti_BuildArgs ti, AllowPrivileged ti).

Definition utf8_arg (b : BuildArgInput) : bool := utf8 (bai_Name b) && utf8 (ConstantValue b).

Definition utf8_input (ti : TargetInput) : bool :=
  utf8 (TargetCanonical ti) && utf8 (ti_Platform ti) && forallb utf8_arg (args_of ti).

Lemma marshal_arg_inj b1 b2 t1 t2 :
  utf8_arg b1 = true -> utf8_arg b2 = true ->
  marshal_arg b1 +:+ t1 = marshal_arg b2 +:+ t2 -> arg_key b1 = arg_key b2 /\ t1 = t2.
Proof.
  unfold utf8_arg, marshal_arg, json_member. intros [Hn1 Hc1]%andb_true_iff [Hn2 Hc2]%andb_true_iff He.
  rewrite <- !sapp_assoc in He. do 3 apply sapp_cancel_l in He.
  apply json_string_inj in He as [En He]; [|done..]. do 3 apply sapp_cancel_l in He.
  apply json_string_inj in He as [Ec He]; [|done..]. apply sapp_cancel_l in He.
  unfold arg_key. by rewrite En, Ec, He.
Qed.

Lemma marshal_arg_head b t : exists u, marshal_arg b +:+ t = String "{" u.
Proof. unfold marshal_arg. rewrite <- sapp_assoc. by eexists. Qed.

(** The arguments after the first one. *)
Fixpoint more_args (l : list BuildArgInput) : string :=
  match l with [] => "" | b :: l => "," +:+ marshal_arg b +:+ more_args l end.

Lemma Join_more b l : Join (List.map marshal_arg (b :: l)) "," = marshal_arg b +:+ more_args l.
Proof.
  revert b. induction l as [|c l IH]; intros b; [by rewrite sapp_nil_r|].
  change (Join (List.map marshal_arg (b :: c :: l)) ",") with
    (marshal_arg b +:+ "," +:+ Join (List.map marshal_arg (c :: l)) ",").
  by rewrite IH.
Qed.

Lemma more_args_inj l1 l2 t1 t2 :
  forallb utf8_arg l1 = true -> forallb utf8_arg l2 = true ->
  more_args l1 +:+ String "]" t1 = more_args l2 +:+ String "]" t2 ->
  List.map arg_key l1 = List.map arg_key l2 /\ t1 = t2.
Proof.
  revert l2. induction l1 as [|b1 l1 IH]; intros [|b2 l2] H1 H2 He; cbn [more_args] in He.
  - by injection He as <-.
  - rewrite <- sapp_assoc in He. done.
  - rewrite <- sapp_assoc in He. done.
  - simpl in H1, H2. apply andb_true_iff in H1 as [Hb1 H1], H2 as [Hb2 H2].
    rewrite <- !sapp_assoc in He. apply sapp_cancel_l in He.
    apply marshal_arg_inj in He as [Eb He]; [|done..]. apply IH in He as [El ->]; [|done..]. simpl. by rewrite Eb, El.
Qed.

Lemma marshal_args_inj l1 l2 t1 t2 :
  forallb utf8_arg (default [] l1) = true -> forallb utf8_arg (default [] l2) = true ->
  marshal_args l1 +:+ String "," t1 = marshal_args l2 +:+ String "," t2 ->
  List.map arg_key <$> l1 = List.map arg_key <$> l2 /\ t1 = t2.
Proof.
  intros H1 H2 He. destruct l1 as [l1|], l2 as [l2|]; cbn [marshal_args default fmap option_fmap option_map] in *.
  - rewrite <- !sapp_assoc in He. apply sapp_cancel_l in He.
    destruct l1 as [|b1 l1], l2 as [|b2 l2]; rewrite ?Join_more in He.
    + injection He as <-. done.
    + rewrite <- sapp_assoc in He. destruct (marshal_arg_head b2 (more_args l2 +:+ "]" +:+ String "," t2)) as [u Hu].
      rewrite Hu in He. done.
    + rewrite <- sapp_assoc in He. destruct (marshal_arg_head b1 (more_args l1 +:+ "]" +:+ String "," t1)) as [u Hu].
      rewrite Hu in He. done.
    + simpl in H1, H2. apply andb_true_iff in H1 as [Hb1 H1], H2 as [Hb2 H2]. rewrite <- !sapp_assoc in He.
      apply marshal_arg_inj in He as [Eb He]; [|done..].
      apply more_args_inj in He as [El Ht]; [|done..]. injection Ht as ->. simpl. by rewrite Eb, El.
  - rewrite <- sapp_assoc in He. done.
  - rewrite <- sapp_assoc in He. done.
  - by apply sapp_cancel_l in He as [= ->].
Qed.

Lemma marshal_inj ti1 ti2 :
  utf8_input ti1 = true -> utf8_input ti2 = true -> marshal ti1 = marshal ti2 -> input_key ti1 = input_key ti2.
Proof.
  unfold utf8_input, marshal, json_member. intros [[Hc1 Hp1]%andb_true_iff Ha1]%andb_true_iff
    [[Hc2 Hp2]%andb_true_iff Ha2]%andb_true_iff He. rewrite <- !sapp_assoc in He.
  do 3 apply sapp_cancel_l in He. apply json_string_inj in He as [Ec He]; [|done..].
  do 3 apply sapp_cancel_l in He. apply json_string_inj in He as [Ep He]; [|done..].
  do 3 apply sapp_cancel_l in He. apply marshal_args_inj in He as [Ea He]; [|done..].
  do 2 apply sapp_cancel_l in He. unfold input_key. rewrite Ec, Ep, Ea.
  by destruct (AllowPrivileged ti1), (AllowPrivileged ti2).
Qed.

Lemma list_snoc_cases {A} (l : list A) : l = [] \/ exists x l', l = l' ++ [x].
Proof. destruct l as [|x l'] using rev_ind; [by left|right; by exists x, l']. Qed.

(** ** What a target is invoked with *)

(** The variables of a scope, in order. *)
Definition sorted_args (s : Scope) : list BuildArgInput :=
  List.map (fun k => mkBuildArgInput k (default "" (variables s !! k)) "") (Sorted s []).

Lemma Map_all s : Map s [] = variables s.
Proof. unfold Map. simpl. apply map_filter_id. done. Qed.

Lemma Get_all s k : Get s k [] = variables s !! k.
Proof. unfold Get. simpl. by destruct (variables s !! k). Qed.

Lemma Sorted_perm s : Sorted s [] ≡ₚ (map_to_list (variables s)).*1.
Proof. unfold Sorted. rewrite Map_all. apply merge_sort_Permutation. Qed.

Lemma Sorted_NoDup s : NoDup (Sorted s []).
Proof. rewrite Sorted_perm. apply NoDup_fst_map_to_list. Qed.

Lemma remove_arg_absent name l : name ∉ List.map bai_Name l -> remove_arg name l = l.
Proof.
  induction l as [|b l IH]; [done|]. simpl. intros Hn.
  destruct (String.eqb_spec (bai_Name b) name) as [He|_]; [set_solver|]. by rewrite IH by set_solver.
Qed.

Lemma overriding_inputs s ks ti :
  NoDup (List.map bai_Name (args_of ti) ++ ks) ->
  fold_left (fun ti key => WithBuildArgInput (mkBuildArgInput key (default "" (Get s key [])) "") ti) ks ti =
  mkTargetInput (TargetCanonical ti) (ti_Platform ti)
    (match ks with
     | [] => ti_BuildArgs ti
     | _ => Some (args_of ti ++ List.map (fun k => mkBuildArgInput k (default "" (variables s !! k)) "") ks)
     end) (AllowPrivileged ti).
Proof.
  revert ti. induction ks as [|k ks IH]; intros ti Hn; [by destruct ti|]. cbn [fold_left].
  assert (Hk : k ∉ List.map bai_Name (args_of ti)).
  { intros Hin. apply list.NoDup_app in Hn as (_ & Hd & _). apply (Hd k Hin). set_solver. }
  assert (Ha : args_of (WithBuildArgInput (mkBuildArgInput k (default "" (Get s k [])) "") ti) =
    args_of ti ++ [mkBuildArgInput k (default "" (variables s !! k)) ""]).
  { unfold WithBuildArgInput, args_of at 1. cbn [ti_BuildArgs default bai_Name clone].
    change (args_of (clone ti)) with (args_of ti). by rewrite remove_arg_absent, Get_all. }
  rewrite IH; rewrite Ha.
  - destruct ks as [|k' ks]; [|cbn [List.map]; rewrite <- app_assoc; done].
    cbn [List.map]. rewrite <- Ha. done.
  - rewrite map_app, <- app_assoc. done.
Qed.

Section Facts.
Context `{Platforms}.

Definition platform_text (q : request) : string :=
  Plat.Platform_String (Plat.Materialize (rq_platr q) (Plat.currentPlatform (rq_platr q))).

(** What matters of an invocation. *)
Definition request_key (q : request) : string * string * bool * gmap string string :=
  (referenceStringCanonical (rq_target q), platform_text q, rq_allowPrivileged q, variables (rq_overridingVars q)).

Definition utf8_request (q : request) : Prop :=
  utf8 (referenceStringCanonical (rq_target q)) = true /\ utf8 (platform_text q) = true /\
  map_Forall (fun k v => utf8 k = true /\ utf8 v = true) (variables (rq_overridingVars q)).

Lemma new_input_eq q :
  new_input q = mkTargetInput (referenceStringCanonical (rq_target q)) (platform_text q)
    (match sorted_args (rq_overridingVars q) with [] => None | l => Some l end) (rq_allowPrivileged q).
Proof.
  unfold new_input, addOverridingVarsAsBuildArgInputs. rewrite overriding_inputs by apply Sorted_NoDup.
  unfold sorted_args. by destruct (Sorted (rq_overridingVars q) []).
Qed.

Lemma sorted_args_elem s k v : (k, v) ∈ List.map arg_key (sorted_args s) <-> variables s !! k = Some v.
Proof.
  assert (Hin : k ∈ Sorted s [] <-> is_Some (variables s !! k)).
  { rewrite Sorted_perm, list_elem_of_fmap. split.
    - intros ([k' x] & -> & Hx%elem_of_map_to_list). by exists x.
    - intros [x Hx]. exists (k, x). split; [done|]. by apply elem_of_map_to_list. }
  unfold sorted_args. rewrite List.map_map, list_elem_of_In, in_map_iff. unfold arg_key. simpl. split.
  - intros (k' & [= -> <-] & Hk%list_elem_of_In%Hin). by destruct (variables s !! k), Hk.
  - intros Hv. exists k. rewrite Hv. split; [done|]. apply list_elem_of_In, Hin. by eexists.
Qed.

Lemma sorted_args_variables s t :
  List.map arg_key (sorted_args s) = List.map arg_key (sorted_args t) -> variables s = variables t.
Proof.
  intros He. apply map_eq. intros k. apply option_eq. intros v. by rewrite <- !sorted_args_elem, He.
Qed.

Lemma new_input_key q1 q2 : input_key (new_input q1) = input_key (new_input q2) -> request_key q1 = request_key q2.
Proof.
  rewrite !new_input_eq. unfold input_key, request_key. cbn [TargetCanonical ti_Platform ti_BuildArgs AllowPrivileged].
  intros [= -> -> Ha ->]. f_equal. apply sorted_args_variables. revert Ha.
  destruct (sorted_args (rq_overridingVars q1)), (sorted_args (rq_overridingVars q2)); simpl; congruence.
Qed.

Lemma request_key_input q1 q2 : request_key q1 = request_key q2 -> new_input q1 = new_input q2.
Proof.
  rewrite !new_input_eq. unfold request_key. intros [= -> -> -> Hv]. f_equal. unfold sorted_args, Sorted.
  by rewrite !Map_all, Hv.
Qed.

Lemma utf8_new_input q : utf8_request q -> utf8_input (new_input q) = true.
Proof.
  intros (Hc & Hp & Hv). rewrite new_input_eq. unfold utf8_input. cbn [TargetCanonical ti_Platform]. rewrite Hc, Hp. simpl.
  replace (args_of _) with (sorted_args (rq_overridingVars q)) by (unfold args_of; simpl; by destruct (sorted_args _)).
  apply forallb_forall. intros b Hb. assert (Hk : arg_key b ∈ List.map arg_key (sorted_args (rq_overridingVars q))).
  { apply list_elem_of_In. by apply in_map. }
  unfold arg_key in Hk at 1. apply sorted_args_elem, Hv in Hk as [Hn Hx]. unfold utf8_arg. by rewrite Hn, Hx.
Qed.

Variable digest : string -> string.
Hypothesis digest_inj : Inj (=) (=) digest.

Lemma Hash_request q1 q2 : utf8_request q1 -> utf8_request q2 ->
  Hash digest (new_input q1) = Hash digest (new_input q2) <-> request_key q1 = request_key q2.
Proof.
  intros H1%utf8_new_input H2%utf8_new_input. split; [|by intros ->%request_key_input].
  intros He%digest_inj. apply new_input_key. by apply marshal_inj.
Qed.

(** ** The upfront collection *)

(** An invocation, or a change of a visited target. *)
Inductive op : Type := OAdd (id : string) (q : request) | OUpdate (i : nat) (f : SingleTarget -> SingleTarget).

(** The collection after the operations, and the invocations with their answers. *)
Definition step (o : op) (s : upfront * list (request * (nat * bool))) : upfront * list (request * (nat * bool)) :=
  match o with
  | OAdd id q => let '(vc, r) := upfront_Add digest id q (fst s) in (vc, snd s ++ [(q, r)])
  | OUpdate i f => (update_target i f (fst s), snd s)
  end.

Definition run (ops : list op) : upfront * list (request * (nat * bool)) :=
  fold_left (fun s o => step o s) ops (NewVisitedUpfrontHashCollection, []).

Abbreviation hash q := (Hash digest (new_input q)).

(** The table maps the hashes of the invocations to the targets they were given. *)
Record upfront_inv (s : upfront * list (request * (nat * bool))) : Prop := mkUpfrontInv {
  ui_log : forall q i b, (q, (i, b)) ∈ snd s -> visited (fst s) !! hash q = Some i;
  ui_table : forall k i, visited (fst s) !! k = Some i -> i < length (visitedList (fst s)) /\
    exists q b, (q, (i, b)) ∈ snd s /\ hash q = k;
  ui_distinct : forall k1 k2 i, visited (fst s) !! k1 = Some i -> visited (fst s) !! k2 = Some i -> k1 = k2;
  ui_before : forall before q i b after, snd s = before ++ (q, (i, b)) :: after ->
    b = true <-> exists q' r, (q', r) ∈ before /\ hash q' = hash q }.

Lemma upfront_inv_add id q s : upfront_inv s -> upfront_inv (step (OAdd id q) s).
Proof.
  intros [Hl Ht Hd Hb]. destruct s as [vc h]. cbn [fst snd step] in *. unfold upfront_Add. cbn [newSingleTarget targetInput].
  assert (Hflag : forall i b, (b = true <-> exists q' r, (q', r) ∈ h /\ hash q' = hash q) ->
    forall before q0 i0 b0 after, h ++ [(q, (i, b))] = before ++ (q0, (i0, b0)) :: after ->
    b0 = true <-> exists q' r, (q', r) ∈ before /\ hash q' = hash q0).
  { intros i b Hib before q0 i0 b0 after He. destruct (list_snoc_cases after) as [->|(x & after' & ->)].
    - apply app_inj_tail in He as [-> [= <- <- <-]]. done.
    - rewrite app_comm_cons, app_assoc in He. apply app_inj_tail in He as [-> _]. by apply (Hb before q0 i0 b0 after'). }
  destruct (visited vc !! hash q) as [i|] eqn:Eq; split; cbn [fst snd visited visitedList].
  - intros q' i' b' [Hin|[= -> -> ->]%list_elem_of_singleton]%elem_of_app; [by eapply Hl|done].
  - intros k i' Hk. destruct (Ht k i' Hk) as (Hlt & q' & b' & Hin & Hh). split; [done|]. exists q', b'.
    split; [set_solver|done].
  - done.
  - apply Hflag. split; [|done]. intros _. destruct (Ht _ _ Eq) as (_ & q' & b' & Hin & Hh). by exists q', (i, b').
  - intros q' i' b' [Hin|[= -> -> ->]%list_elem_of_singleton]%elem_of_app; [|by rewrite lookup_insert_eq].
    rewrite lookup_insert_ne; [by eapply Hl|]. intros He. apply Hl in Hin. rewrite <- He, Eq in Hin. done.
  - intros k i' Hk. rewrite length_app. apply lookup_insert_Some in Hk as [[<- <-]|[Hne Hk]].
    + split; [simpl; lia|]. exists q, false. split; [set_solver|done].
    + destruct (Ht k i' Hk) as (Hlt & q' & b' & Hin & Hh). split; [simpl; lia|]. exists q', b'. split; [set_solver|done].
  - intros k1 k2 i' [[<- <-]|[Hn1 H1]]%lookup_insert_Some [[<- E2]|[Hn2 H2]]%lookup_insert_Some; try done.
    + apply Ht in H2 as [Hlt _]. lia.
    + subst i'. apply Ht in H1 as [Hlt _]. lia.
    + by eapply Hd.
  - apply Hflag. split; [done|]. intros (q' & [i' b'] & Hin & Hh). apply Hl in Hin. rewrite Hh, Eq in Hin. done.
Qed.

Lemma run_inv ops : upfront_inv (run ops).
Proof.
  unfold run. assert (H0 : upfront_inv (NewVisitedUpfrontHashCollection, [])).
  { split; cbn; try (intros; set_solver). intros ? ? ? ? ? He. by destruct before. }
  revert H0. generalize (NewVisitedUpfrontHashCollection, @nil (request * (nat * bool))).
  induction ops as [|o ops IH]; intros s Hs; [done|]. apply IH. destruct o as [id q|i f]; [by apply upfront_inv_add|].
  destruct Hs as [Hl Ht Hd Hb]. split; cbn [step fst snd update_target visited visitedList] in *; try done.
  intros k j Hk. rewrite length_alter. by apply Ht.
Qed.

(** C34. A target is built once per invocation: in any sequence of calls of [Add] (and
    changes of the targets it returned) on a new collection, two calls are given the
    same target exactly when they agree on the target, the materialised platform, the
    privilege and the values of the overriding variables; and a call is told that its
    target was there before exactly when an earlier call agrees with it. *)
Theorem upfront_dedup ops :
  let log := snd (run ops) in
  Forall (fun e => utf8_request (fst e)) log ->
  (forall q1 i1 b1 q2 i2 b2, (q1, (i1, b1)) ∈ log -> (q2, (i2, b2)) ∈ log ->
     i1 = i2 <-> request_key q1 = request_key q2) /\
  (forall before q i b after, log = before ++ (q, (i, b)) :: after ->
     b = true <-> exists q' r, (q', r) ∈ before /\ request_key q' = request_key q).
Proof.
  intros log Hu. destruct (run_inv ops) as [Hl Ht Hd Hb]. rewrite list.Forall_forall in Hu.
  split.
  - intros q1 i1 b1 q2 i2 b2 H1 H2. rewrite <- Hash_request by (by eapply (Hu (_, _))).
    apply Hl in H1, H2. split; [intros <-; by eapply Hd|]. intros He. rewrite He, H2 in H1. by injection H1.
  - intros before q i b after He. rewrite (Hb _ _ _ _ _ He). split; intros (q' & r & Hin & Hk); exists q', r; (split; [done|]);
      revert Hk; rewrite <- Hash_request; try done.
    all: first [apply (Hu (q', r)) | apply (Hu (q, (i, b)))]; unfold log in *; rewrite He; set_solver.
Qed.

End Facts.

(** ** The legacy collection *)

Section Legacy.
Context `{Platforms} `{!PlatformsLaws}.

(** The lists of the table hold visited targets. *)
Definition legacy_ok (vc : legacy) : Prop :=
  forall k ixs i, lvisited vc !! k = Some ixs -> i ∈ ixs -> is_Some (lvisitedList vc !! i).

(** The visited targets of the name that is asked for. *)
Definition of_name (q : request) (vc : legacy) : list nat :=
  default [] (lvisited vc !! referenceStringCanonical (rq_target q)).

Definition mark_done (i : nat) (vc : legacy) : legacy :=
  mkLegacy (lvisited vc) (alter (fun t => mkSingleTarget (ID t) (st_Target t) (targetInput t) true) i (lvisitedList vc)).

(** An invocation agrees with what was recorded for it. *)
Lemma compare_self q : compareTargetInputs q (new_input q) = Ok true.
Proof.
  rewrite new_input_eq. unfold compareTargetInputs. cbn [TargetCanonical AllowPrivileged ti_Platform].
  rewrite String.eqb_refl, Bool.eqb_reflx. cbn [negb].
  destruct (Plat.Materialize_reads (rq_platr q) (Plat.currentPlatform (rq_platr q))) as (y & Hy & He).
  unfold platform_text. rewrite Hy. cbn [rbind]. rewrite He. cbn [negb]. f_equal.
  replace (args_of _) with (sorted_args (rq_overridingVars q)) by (unfold args_of; simpl; by destruct (sorted_args _)).
  apply forallb_forall. intros b Hb. assert (Hk : arg_key b ∈ List.map arg_key (sorted_args (rq_overridingVars q))).
  { apply list_elem_of_In. by apply in_map. }
  unfold arg_key in Hk at 1. apply sorted_args_elem in Hk. unfold same_arg. rewrite Get_all, Hk.
  unfold Equals. simpl. by rewrite !String.eqb_refl.
Qed.

Definition errRecursion (q : request) : string := "infinite recursion detected for target " +:+ referenceString (rq_target q).

(** What the search finds, when every target is done or waits for the caller. *)
Lemma legacy_find_spec q deps l ixs :
  (forall i, i ∈ ixs -> exists t, l !! i = Some t /\ (st_done t || bool_decide (ID t ∈ deps)) = true) ->
  match legacy_find q deps l ixs with
  | Ok (Some i) => i ∈ ixs /\ exists t, l !! i = Some t /\ st_done t = true /\ ID t ∉ deps /\
      compareTargetInputs q (targetInput t) = Ok true
  | Ok None => forall i t, i ∈ ixs -> l !! i = Some t -> compareTargetInputs q (targetInput t) = Ok false
  | Err e => exists i t, i ∈ ixs /\ l !! i = Some t /\
      ((e = errRecursion q /\ ID t ∈ deps /\ compareTargetInputs q (targetInput t) = Ok true) \/
       compareTargetInputs q (targetInput t) = Err e)
  | NoFuel => exists i t, i ∈ ixs /\ l !! i = Some t /\ compareTargetInputs q (targetInput t) = NoFuel
  end.
Proof.
  induction ixs as [|i ixs IH]; intros Hok; cbn [legacy_find]; [intros i t Hi; set_solver|].
  destruct (Hok i ltac:(set_solver)) as (t & Ht & Hd). rewrite Ht.
  specialize (IH ltac:(intros j Hj; apply Hok; set_solver)).
  destruct (compareTargetInputs q (targetInput t)) as [[]|e|] eqn:Ec; cbn [rbind].
  - destruct (decide (ID t ∈ deps)) as [Hin|Hin].
    + exists i, t. split_and!; [set_solver|done|by left].
    + rewrite bool_decide_eq_false_2, orb_false_r in Hd by done. rewrite Hd. simpl. split; [set_solver|]. by exists t.
  - destruct (legacy_find q deps l ixs) as [[j|]|e|].
    + destruct IH as [Hj IH]. split; [set_solver|done].
    + intros j u [->|Hj]%elem_of_cons Hu; [congruence|by eapply IH].
    + destruct IH as (j & u & Hj & IH). exists j, u. split; [set_solver|done].
    + destruct IH as (j & u & Hj & IH). exists j, u. split; [set_solver|done].
  - exists i, t. split_and!; [set_solver|done|by right].
  - exists i, t. split_and!; [set_solver|done..].
Qed.

Lemma legacy_find_skip q deps l ixs1 ixs2 :
  (forall i, i ∈ ixs1 -> exists t, l !! i = Some t /\ compareTargetInputs q (targetInput t) = Ok false) ->
  legacy_find q deps l (ixs1 ++ ixs2) = legacy_find q deps l ixs2.
Proof.
  induction ixs1 as [|i ixs1 IH]; intros Hf; [done|]. simpl. destruct (Hf i ltac:(set_solver)) as (t & -> & ->).
  simpl. apply IH. intros j Hj. apply Hf. set_solver.
Qed.

(** The legacy collection finds again what it has built: when every visited target
    of the name is done or waits for the caller (which is when [waitAllDoneAndLock]
    returns), [Add] gives a target that is done, does not wait for the caller and
    agrees with the invocation, or a new one when none agrees; a new target is found
    by the same invocation once it is done, and the invocation is an infinite
    recursion when the target waits for it; and [Add] fails only for such a
    recursion or a platform that does not parse. *)
Theorem legacy_Add_spec id q deps vc :
  legacy_ok vc -> all_done q deps vc = true ->
  match legacy_Add id q deps vc with
  | Ok (vc', (i, true)) => vc' = vc /\ exists t, lvisitedList vc !! i = Some t /\ st_done t = true /\ ID t ∉ deps /\
      compareTargetInputs q (targetInput t) = Ok true
  | Ok (vc', (i, false)) =>
      (forall j t, j ∈ of_name q vc -> lvisitedList vc !! j = Some t -> compareTargetInputs q (targetInput t) = Ok false) /\
      lvisitedList vc' !! i = Some (newSingleTarget id q) /\
      forall id' deps', legacy_Add id' q deps' (mark_done i vc') =
        if decide (id ∈ deps') then Err (errRecursion q) else Ok (mark_done i vc', (i, true))
  | Err e => exists j t, j ∈ of_name q vc /\ lvisitedList vc !! j = Some t /\
      ((e = errRecursion q /\ ID t ∈ deps /\ compareTargetInputs q (targetInput t) = Ok true) \/
       compareTargetInputs q (targetInput t) = Err e)
  | NoFuel => exists j t, j ∈ of_name q vc /\ lvisitedList vc !! j = Some t /\
      compareTargetInputs q (targetInput t) = NoFuel
  end.
Proof.
  intros Hok Hdone. unfold legacy_Add. fold (of_name q vc). unfold all_done in Hdone. fold (of_name q vc) in Hdone.
  rewrite forallb_forall in Hdone.
  assert (Hall : forall i, i ∈ of_name q vc ->
    exists t, lvisitedList vc !! i = Some t /\ (st_done t || bool_decide (ID t ∈ deps)) = true).
  { intros i Hi%list_elem_of_In. specialize (Hdone i Hi). destruct (lvisitedList vc !! i) as [t|]; [by exists t|done]. }
  pose proof (legacy_find_spec q deps (lvisitedList vc) (of_name q vc) Hall) as Hf.
  destruct (legacy_find q deps (lvisitedList vc) (of_name q vc)) as [[i|]|e|]; cbn [rbind]; [|..|done|done].
  { destruct Hf as [_ Hf]. by split. }
  set (i := length (lvisitedList vc)). set (t := newSingleTarget id q).
  assert (Hi : (lvisitedList vc ++ [t]) !! i = Some t) by (unfold i; by rewrite lookup_app_r, Nat.sub_diag by lia).
  split_and!; [done|done|]. intros id' deps'. cbn [mark_done lvisited lvisitedList].
  rewrite lookup_insert_eq. cbn [default Datatypes.id].
  assert (Hlow : forall j, j < i -> alter (fun t => mkSingleTarget (ID t) (st_Target t) (targetInput t) true) i
    (lvisitedList vc ++ [t]) !! j = lvisitedList vc !! j).
  { intros j Hj. rewrite list_lookup_alter_ne by lia. by apply lookup_app_l. }
  rewrite legacy_find_skip.
  2: { intros j Hj. destruct (Hall j Hj) as (u & Hu & _). exists u. rewrite Hlow by (by eapply lookup_lt_Some).
       split; [done|]. by apply (Hf j u). }
  cbn [legacy_find]. rewrite list_lookup_alter_eq, Hi. cbn [fmap option_fmap option_map targetInput ID st_done t newSingleTarget].
  rewrite compare_self. cbn [rbind negb]. by destruct (decide (id ∈ deps')).
Qed.

End Legacy.

(** ** Concrete targets *)

Module Sample.

(** A package that knows no aliases: the text of a platform is its parts. *)
#[local] Instance plain_platforms : Platforms := {|
  platforms_Parse := fun s => match Split s slash with
                              | [os; arch] => Ok (mkSpec arch os "" [] "")
                              | _ => Err "unknown platform" end;
  Normalize := fun p => mkSpec "amd64" "linux" "" [] "";
  Format := fun p => OS p +:+ "/" +:+ Architecture p;
  DefaultSpec := mkSpec "amd64" "linux" "" [] "" |}.

#[local] Instance plain_laws : PlatformsLaws.
Proof. split; [done|intros p; by exists (mkSpec "amd64" "linux" "" [] "")|done]. Qed.

Definition resolver : Plat.Resolver := Plat.NewResolver DefaultSpec.
Definition target (name : string) : Reference := mkRef KTarget "" "" "." "" name.
Definition with_args (l : list (string * string)) : Scope := mkScope (list_to_map l) ∅.
Definition ask (name : string) (l : list (string * string)) : request := mkRequest (target name) resolver true (with_args l).

Definition history : list op :=
  [OAdd "1" (ask "build" [("A", "1"); ("B", "2")]); OUpdate 0 (AddBuildArgInput (mkBuildArgInput "C" "x" "y"));
   OAdd "2" (ask "build" [("B", "2"); ("A", "1")]); OAdd "3" (ask "build" [("A", "2")])].

Lemma upfront_dedup_witness :
  List.map snd (snd (run (fun s => s) history)) = [(0, false); (0, true); (1, false)] /\
  request_key (ask "build" [("A", "1"); ("B", "2")]) = request_key (ask "build" [("B", "2"); ("A", "1")]).
Proof.
  assert (Hl : List.map snd (snd (run (fun s => s) history)) = [(0, false); (0, true); (1, false)]) by (vm_compute; reflexivity).
  split; [exact Hl|].
  assert (Hq : List.map fst (snd (run (fun s => s) history)) =
    [ask "build" [("A", "1"); ("B", "2")]; ask "build" [("B", "2"); ("A", "1")]; ask "build" [("A", "2")]]) by (vm_compute; reflexivity).
  destruct (upfront_dedup (fun s => s) _ history) as [Hsame _].
  { apply List.Forall_map with (f := fst) (P := utf8_request). rewrite Hq.
    do 3 (constructor; [unfold utf8_request; apply (bool_decide_unpack _); vm_compute; exact I|]). constructor. }
  destruct (snd (run (fun s => s) history)) as [|[q1 r1] [|[q2 r2] l]]; try discriminate Hl. simpl in Hl, Hq.
  injection Hl as -> -> _. injection Hq as -> -> _.
  apply (Hsame _ 0 false _ 0 true); [left|right; left|reflexivity].
Defined.

Definition one_visited : legacy :=
  mkLegacy {["+build" := [0]]} [mkSingleTarget "1" (target "build") (new_input (ask "build" [("A", "1")])) true].

Lemma legacy_Add_spec_witness :
  exists vc i, legacy_Add "2" (ask "build" [("A", "2")]) ∅ one_visited = Ok (vc, (i, false)) /\
    legacy_Add "3" (ask "build" [("A", "2")]) ∅ (mark_done i vc) = Ok (mark_done i vc, (i, true)).
Proof.
  pose proof (legacy_Add_spec "2" (ask "build" [("A", "2")]) ∅ one_visited) as Hs.
  assert (He : exists vc i, legacy_Add "2" (ask "build" [("A", "2")]) ∅ one_visited = Ok (vc, (i, false))).
  { eexists _, _. vm_compute. reflexivity. }
  destruct He as (vc & i & He). rewrite He in Hs. exists vc, i. split; [exact He|].
  destruct Hs as (_ & _ & Hagain).
  - intros k ixs j Hk Hj. unfold one_visited in Hk; cbn [lvisited] in Hk. apply lookup_singleton_Some in Hk as [<- <-]. apply list_elem_of_singleton in Hj as ->. by eexists.
  - vm_compute. reflexivity.
  - rewrite Hagain. by destruct (decide ("2" ∈ ∅)) as [Hin%elem_of_empty|_].
Defined.

End Sample.
