(* ===== verification/RunMount.v ===== *)
(** * Mounts and secrets of RUN

    A translation of [earthfile2llb/runmount.go] and of the secrets of
    [earthfile2llb/converter.go]: the text of --mount to the options that BuildKit is
    given (known by the calls that make them), the text of --secret to an identifier
    and a variable.  [digest] stands for the hexadecimal SHA-256 of a text. *)

From stdpp Require Import sets.
From S2P Require Import Prelude GoStrings Token GoText Numbers Reference KeyValue.

#[local] Open Scope res_scope.

(** ** What BuildKit is given *)

Inductive sharingMode : Type := CacheMountShared | CacheMountPrivate | CacheMountLocked.

Inductive MountOption : Type :=
  | Readonly | HostBind | Tmpfs
  | SourcePath (path : string)
  | AsPersistentCacheDir (id : string) (sharing : sharingMode).

(** The state that is mounted: an empty one, one of the native platform, or the cache
    context with the directory /cache of a mode. *)
Inductive mountState : Type := Scratch | PlatformScratch | CacheDir (mode : Z).

Inductive RunOption : Type :=
  | AddMount (target : string) (state : mountState) (opts : list MountOption)
  | AddSSHSocket (id : string) (target : option string)
  | AddSecret (target id : string) (mode : Z).

(** The fields of the converter that are read. *)
Record mountContext : Type := mkMountContext {
  mc_target : Reference; GlobalCache : bool; UseProjectSecrets : bool; mc_org : string; mc_project : string }.

(** ** Secrets *)

(** [url.QueryEscape] *)
Definition upper_hex (d : Z) : string := byte_string (if (d <? 10)%Z then 48 + d else 55 + d)%Z.

Definition query_byte (c : ascii) : string :=
  let b := byteZ c in
  if in_range 48 57 b || in_range 65 90 b || in_range 97 122 b || existsb (Ascii.eqb c) ["-"; "_"; "."; "~"]%char
  then String c ""
  else if Ascii.eqb c " " then "+"
  else "%" +:+ upper_hex (Z.shiftr b 4) +:+ upper_hex (Z.land b 15).

Fixpoint QueryEscape (s : string) : string :=
  match s with "" => "" | String c s => query_byte c +:+ QueryEscape s end.

(** [secretID] without options; [Encode] writes the keys in order. *)
Definition secretID (c : mountContext) (name : string) : string :=
  if UseProjectSecrets c then
    "name=" +:+ QueryEscape name +:+ "&org=" +:+ QueryEscape (mc_org c) +:+ "&project=" +:+ QueryEscape (mc_project c) +:+ "&v=1"
  else "name=" +:+ QueryEscape name +:+ "&v=0".

(** ** Modes *)

Section RunMount.
Context `{Unicode}.
Variable digest : string -> string.

Definition ParseMode (s : string) : res Z :=
  match s with
  | String "0" _ => ParseUint8_32 s
  | _ => Err "invalid octal"
  end.

Definition cacheKey (target : Reference) : string :=
  digest (referenceStringCanonical
    (mkRef (kind target) (GitURL target) "" (LocalPath target) (ImportRef target) (Name target))).

(** The verb [%o], of a number of 32 bits. *)
Fixpoint octal_text (digits : nat) (n : Z) : string :=
  match digits with
  | O => ""
  | S d => (if (n <? 8)%Z then "" else octal_text d (n / 8)) +:+ byte_string (48 + n mod 8)%Z
  end.

(** ** The arguments of a mount *)

Record mountArgs : Type := mkMountArgs {
  mountSource : string; mountTarget : string; mountID : string; mountType : string; mountMode : Z;
  mountOpts : list MountOption; sharing_ : sharingMode }.

Definition no_mount_args : mountArgs := mkMountArgs "" "" "" "" 0 [] CacheMountLocked.

Definition invalid_arg {A} (kvPair : string) : res A := Err ("invalid mount arg " +:+ kvPair).

Definition parse_sharing (s : string) : option sharingMode :=
  if String.eqb s "shared" then Some CacheMountShared
  else if String.eqb s "private" then Some CacheMountPrivate
  else if String.eqb s "locked" then Some CacheMountLocked
  else None.

(** One pair of the list. *)
Definition mount_arg (a : mountArgs) (kvPair : string) : res mountArgs :=
  let '(src, tgt, id, typ, mode, opts, sh) :=
    (mountSource a, mountTarget a, mountID a, mountType a, mountMode a, mountOpts a, sharing_ a) in
  let kv := SplitN2 kvPair equals in
  let key := nth 0 kv "" in
  let with_value (f : string -> res mountArgs) :=
    match kv with [_; v] => f v | _ => invalid_arg kvPair end in
  if String.eqb key "id" then with_value (fun v => Ok (mkMountArgs src tgt v typ mode opts sh))
  else if String.eqb key "type" then with_value (fun v => Ok (mkMountArgs src tgt id v mode opts sh))
  else if String.eqb key "source" then with_value (fun v => Ok (mkMountArgs v tgt id typ mode opts sh))
  else if String.eqb key "target" then with_value (fun v => Ok (mkMountArgs src v id typ mode opts sh))
  else if String.eqb key "ro" || String.eqb key "readonly" then
    match kv with [_] => Ok (mkMountArgs src tgt id typ mode (opts ++ [Readonly]) sh) | _ => invalid_arg kvPair end
  else if String.eqb key "uid" || String.eqb key "gid" then Err ("not yet supported " +:+ kvPair)
  else if String.eqb key "mode" || String.eqb key "chmod" then
    with_value (fun v =>
      match ParseMode v with
      | Ok m => Ok (mkMountArgs src tgt id typ m opts sh)
      | Err _ => Err ("failed to parse mount " +:+ key +:+ " " +:+ v)
      | NoFuel => NoFuel
      end)
  else if String.eqb key "sharing" then
    with_value (fun v =>
      match parse_sharing v with
      | Some m => Ok (mkMountArgs src tgt id typ mode opts m)
      | None => invalid_arg kvPair
      end)
  else if String.eqb key "from" then Err ("not yet supported " +:+ kvPair)
  else invalid_arg kvPair.

Fixpoint mount_args (a : mountArgs) (pairs : list string) : res mountArgs :=
  match pairs with
  | [] => Ok a
  | kv :: pairs => let* a := mount_arg a kv in mount_args a pairs
  end.

(** ** The mounts *)

Definition errNoTarget {A} : res A := Err "mount target not specified".

Definition cache_mount (c : mountContext) (a : mountArgs) : res (list RunOption) :=
  if String.eqb (mountTarget a) "" then errNoTarget
  else
    let mode := if (mountMode a =? 0)%Z then 420%Z else mountMode a in
    let cacheID :=
      if GlobalCache c && negb (String.eqb (mountID a) "") then mountID a
      else path_Join ["/run/cache"; cacheKey (mc_target c); Clean (mountTarget a)] in
    Ok [AddMount (mountTarget a) (CacheDir mode)
          (mountOpts a ++ [AsPersistentCacheDir cacheID (sharing_ a); SourcePath "/cache"])].

Definition MaxInt32 : Z := 2147483647.

Definition secret_mount (c : mountContext) (a : mountArgs) : res (list RunOption) :=
  if String.eqb (mountTarget a) "" then errNoTarget
  else
    let mode := if (mountMode a =? 0)%Z then 292%Z else mountMode a in
    if (MaxInt32 <? mode)%Z then Err ("mode is too large: 0" +:+ octal_text 11 mode)
    else
      let id := if String.eqb (mountID a) "" then Clean (mountTarget a) else mountID a in
      Ok [AddSecret (mountTarget a) (secretID c (TrimPrefix id "+secrets/")) mode].

Definition make_mount (c : mountContext) (a : mountArgs) : res (list RunOption) :=
  let has_mode := negb (mountMode a =? 0)%Z in
  if String.eqb (mountType a) "" then Err "mount type not specified"
  else if String.eqb (mountType a) "bind-experimental" then
    if String.eqb (mountSource a) "" then Err "mount source not specified"
    else if String.eqb (mountTarget a) "" then errNoTarget
    else if has_mode then Err "mode is not supported for type=bind-experimental"
    else Ok [AddMount (mountTarget a) Scratch (mountOpts a ++ [HostBind; SourcePath (mountSource a)])]
  else if String.eqb (mountType a) "cache" then cache_mount c a
  else if String.eqb (mountType a) "tmpfs" then
    if String.eqb (mountTarget a) "" then errNoTarget
    else if has_mode then Err "mode is not supported for type=tmpfs"
    else Ok [AddMount (mountTarget a) PlatformScratch (mountOpts a ++ [Tmpfs])]
  else if String.eqb (mountType a) "ssh-experimental" then
    if has_mode then Err "mode is not supported for type=ssh-experimental"
    else Ok [AddSSHSocket (if String.eqb (mountID a) "" then Clean (mountTarget a) else mountID a)
               (if String.eqb (mountTarget a) "" then None else Some (mountTarget a))]
  else if String.eqb (mountType a) "secret" then secret_mount c a
  else Err ("invalid mount type " +:+ mountType a).

Definition bComma : ascii := ","%char.

Definition parseMount (c : mountContext) (mount : string) : res (list RunOption) :=
  let* a := mount_args no_mount_args (Split mount bComma) in make_mount c a.

Fixpoint parseMounts (c : mountContext) (mounts : list string) : res (list RunOption) :=
  match mounts with
  | [] => Ok []
  | m :: mounts =>
      match parseMount c m with
      | Ok opts => let* rest := parseMounts c mounts in Ok (opts ++ rest)
      | Err e => Err ("parse mount: " +:+ e)
      | NoFuel => NoFuel
      end
  end.

(** ** --secret *)

(** [util/shell/env_var_name.go] *)
Definition env_first (c : ascii) : bool := in_range 97 122 (byteZ c) || in_range 65 90 (byteZ c) || Ascii.eqb c "_".

Definition IsValidEnvVarName (name : string) : bool :=
  match name with
  | "" => false
  | String c name => env_first c && sall (fun c => env_first c || in_range 48 57 (byteZ c)) name
  end.

Definition check_env (secret env : string) : res (string * string) :=
  if negb (String.eqb env "") && negb (IsValidEnvVarName env) then Err ("invalid secret environment name: " +:+ env)
  else Ok (secret, env).

(** The secret's identifier and the variable. *)
Definition parseSecretFlag (c : mountContext) (secretKeyValue : string) : res (string * string) :=
  if String.eqb secretKeyValue "" then Ok ("", "")
  else
    match SplitN2 secretKeyValue equals with
    | [env; secret] =>
        if String.eqb secret "" then Ok ("", "")
        else if UseProjectSecrets c then check_env (TrimPrefix secret "+secrets/") env
        else if HasPrefix secret "+secrets/" then check_env (TrimPrefix secret "+secrets/") env
        else Err ("secret definition " +:+ secretKeyValue +:+
               " not supported. Format must be either <env-var>=+secrets/<secret-id> or <secret-id>")
    | _ => check_env secretKeyValue secretKeyValue
    end.

(** ** The order of the arguments *)

(** What an argument changes; it does not depend on the others. *)
Definition mount_update (kvPair : string) : res (mountArgs -> mountArgs) :=
  match mount_arg no_mount_args kvPair with
  | Ok b =>
      let key := nth 0 (SplitN2 kvPair equals) "" in
      Ok (fun a =>
        let '(src, tgt, id, typ, mode, opts, sh) :=
          (mountSource a, mountTarget a, mountID a, mountType a, mountMode a, mountOpts a, sharing_ a) in
        if String.eqb key "id" then mkMountArgs src tgt (mountID b) typ mode opts sh
        else if String.eqb key "type" then mkMountArgs src tgt id (mountType b) mode opts sh
        else if String.eqb key "source" then mkMountArgs (mountSource b) tgt id typ mode opts sh
        else if String.eqb key "target" then mkMountArgs src (mountTarget b) id typ mode opts sh
        else if String.eqb key "ro" || String.eqb key "readonly" then mkMountArgs src tgt id typ mode (opts ++ [Readonly]) sh
        else if String.eqb key "mode" || String.eqb key "chmod" then mkMountArgs src tgt id typ (mountMode b) opts sh
        else mkMountArgs src tgt id typ mode opts (sharing_ b))
  | Err e => Err e
  | NoFuel => NoFuel
  end.

Lemma mount_arg_update a kv : mount_arg a kv = let* f := mount_update kv in Ok (f a).
Proof.
  unfold mount_update, mount_arg. destruct (SplitN2 kv equals) as [|key [|v [|]]]; simpl;
    repeat (case_test; simpl); try done; repeat (case_goal; simpl); done.
Qed.

(** Two spellings of one argument. *)
Definition slot (kvPair : string) : string :=
  let key := nth 0 (SplitN2 kvPair equals) "" in if String.eqb key "chmod" then "mode" else key.

Lemma mount_arg_key a kv b :
  mount_arg a kv = Ok b ->
  In (nth 0 (SplitN2 kv equals) "") ["id"; "type"; "source"; "target"; "ro"; "readonly"; "mode"; "chmod"; "sharing"].
Proof.
  unfold mount_arg. set (key := nth 0 _ _). clearbody key.
  repeat match goal with
  | |- context [String.eqb key ?k] => destruct (String.eqb_spec key k) as [->|_]; [try (simpl; tauto)|]
  end; simpl; try done; unfold invalid_arg; done.
Qed.

Lemma mount_update_commute kv1 kv2 f1 f2 a :
  slot kv1 <> slot kv2 -> mount_update kv1 = Ok f1 -> mount_update kv2 = Ok f2 -> f1 (f2 a) = f2 (f1 a).
Proof.
  unfold slot, mount_update.
  destruct (mount_arg no_mount_args kv1) as [b1| |] eqn:E1; try done. apply mount_arg_key in E1.
  destruct (mount_arg no_mount_args kv2) as [b2| |] eqn:E2; try done. apply mount_arg_key in E2.
  set (k1 := nth 0 (SplitN2 kv1 equals) "") in *. set (k2 := nth 0 (SplitN2 kv2 equals) "") in *.
  intros Hs [= <-] [= <-]. clearbody k1 k2. revert Hs. simpl in E1, E2.
  repeat destruct E1 as [<-|E1]; [..|destruct E1]; repeat destruct E2 as [<-|E2]; try destruct E2; cbv -[app];
    first [intros _; reflexivity | intros Hs; by destruct Hs].
Qed.

(** The same result, or an error on both sides. *)
Definition agree {A} (r1 r2 : res A) : Prop :=
  match r1, r2 with
  | Ok x, Ok y => x = y
  | Ok _, _ | _, Ok _ => False
  | _, _ => True
  end.

#[export] Instance agree_equivalence {A} : Equivalence (@agree A).
Proof.
  unfold agree. split.
  - by intros [].
  - by intros [] [].
  - intros [] [] []; try done; congruence.
Qed.

Lemma agree_bind {A B} (r1 r2 : res A) (f : A -> res B) : agree r1 r2 -> agree (rbind r1 f) (rbind r2 f).
Proof. destruct r1, r2; simpl; try done. intros <-. reflexivity. Qed.

Lemma mount_args_order l1 l2 : l1 ≡ₚ l2 -> NoDup (List.map slot l1) -> forall a, agree (mount_args a l1) (mount_args a l2).
Proof.
  induction 1 as [|kv l1 l2 Hp IH|kv1 kv2 l|l1 l2 l3 H1 IH1 H2 IH2]; intros Hn a; cbn [mount_args].
  - reflexivity.
  - inversion Hn as [|? ? _ Hn']; subst. destruct (mount_arg a kv); [|done..]. cbn [rbind]. by apply IH.
  - inversion Hn as [|? ? Hne _]; subst. rewrite !mount_arg_update.
    destruct (mount_update kv1) as [f1| |] eqn:E1, (mount_update kv2) as [f2| |] eqn:E2; cbn [rbind];
      rewrite ?mount_arg_update, ?E1, ?E2; cbn [rbind]; try done.
    rewrite (mount_update_commute kv1 kv2 f1 f2) by (done || set_solver). reflexivity.
  - etransitivity; [by apply IH1|]. apply IH2. by rewrite <- H1.
Qed.

(** The order of the arguments of a mount does not matter: when no argument is
    given twice (mode and chmod are one), any order of the same arguments gives the
    same mount, or an error. *)
Theorem parseMount_order c l1 l2 :
  l1 ≡ₚ l2 -> NoDup (List.map slot l1) -> l1 <> [] -> Forall (fun w => no_byte bComma w = true) l1 ->
  agree (parseMount c (Join l1 ",")) (parseMount c (Join l2 ",")).
Proof.
  intros Hp Hn Hne Hc. unfold parseMount. rewrite !(Split_Join bComma); [apply agree_bind; by apply mount_args_order|..]; try done.
  - intros ->. by apply Permutation_nil_r in Hp.
  - by rewrite <- Hp.
Qed.

(** ** Modes *)

Lemma mount_arg_mode a kv b : mount_arg a kv = Ok b -> (0 <= mountMode a < 2 ^ 32)%Z -> (0 <= mountMode b < 2 ^ 32)%Z.
Proof.
  intros Hb Ha. unfold mount_arg in Hb. revert Hb. repeat case_test; try done;
    destruct (SplitN2 kv equals) as [|key [|v [|]]]; try done; try (by intros [= <-]).
  - destruct (ParseMode v) as [m| |] eqn:Em; try done. intros [= <-]. simpl. unfold ParseMode in Em.
    destruct v as [|[[] [] [] [] [] [] [] []] v]; try done. by apply ParseUint8_32_bounds in Em.
  - destruct (parse_sharing v); [by intros [= <-]|done].
Qed.

Lemma mount_args_mode a l b : mount_args a l = Ok b -> (0 <= mountMode a < 2 ^ 32)%Z -> (0 <= mountMode b < 2 ^ 32)%Z.
Proof.
  revert a. induction l as [|kv l IH]; intros a; simpl; [by intros [= <-]|].
  destruct (mount_arg a kv) as [a'| |] eqn:E; try done. simpl. intros Hb Ha. eapply IH; [done|]. by eapply mount_arg_mode.
Qed.

Definition mode_ok (o : RunOption) : Prop :=
  match o with
  | AddMount _ (CacheDir mode) _ => (0 < mode < 2 ^ 32)%Z
  | AddSecret _ _ mode => (0 < mode <= MaxInt32)%Z
  | _ => True
  end.

(** C35. Modes stay in bounds: the mode of a cache that [parseMounts] makes is a
    positive number of 32 bits, and that of a secret is positive and fits the signed
    32 bits it is converted to; a larger one is an error. *)
Theorem parseMounts_modes c mounts opts : parseMounts c mounts = Ok opts -> Forall mode_ok opts.
Proof.
  revert opts. induction mounts as [|m mounts IH]; intros opts; cbn [parseMounts]; [intros [= <-]; constructor|].
  destruct (parseMount c m) as [o| |] eqn:Em; try done. destruct (parseMounts c mounts) as [rest| |]; try done.
  intros [= <-]. apply Forall_app. split; [|by apply IH]. clear IH. unfold parseMount in Em.
  destruct (mount_args _ _) as [a| |] eqn:Ea; try done. apply mount_args_mode in Ea; [|done]. cbn [rbind] in Em.
  unfold make_mount, cache_mount, secret_mount in Em. revert Em.
  repeat case_test; intros [= <-]; repeat constructor; unfold mode_ok, MaxInt32 in *; to_prop; lia.
Qed.

End RunMount.

(** ** Concrete mounts *)

#[local] Instance all_print : Unicode := fun _ => true.
Definition sample_context : mountContext := mkMountContext (mkRef KTarget "" "" "." "" "build") true false "" "".

Lemma parseMount_order_witness :
  agree (parseMount (fun s => s) sample_context "type=cache,target=/x,chmod=0755,id=k")
        (parseMount (fun s => s) sample_context "id=k,chmod=0755,type=cache,target=/x").
Proof.
  apply (parseMount_order (fun s => s) sample_context ["type=cache"; "target=/x"; "chmod=0755"; "id=k"]
    ["id=k"; "chmod=0755"; "type=cache"; "target=/x"]).
  - apply (bool_decide_unpack _). vm_compute. exact I.
  - apply (bool_decide_unpack _). vm_compute. exact I.
  - discriminate.
  - repeat constructor.
Defined.

Lemma parseMounts_modes_witness :
  exists opts, parseMounts (fun s => s) sample_context ["type=secret,target=/k,id=key,mode=0400"] = Ok opts /\ Forall mode_ok opts.
Proof.
  eexists. split; [vm_compute; reflexivity|].
  apply (parseMounts_modes (fun s => s) sample_context ["type=secret,target=/k,id=key,mode=0400"]). vm_compute. reflexivity.
Defined.

Lemma secret_mode_too_large :
  parseMount (fun s => s) sample_context "type=secret,target=/k,mode=020000000000" = Err "mode is too large: 020000000000".
Proof. vm_compute. reflexivity. Qed.
