(* ===== verification/RunShell.v ===== *)
(** * The shell commands of RUN

    A translation of [earthfile2llb/shell.go]: how the arguments of RUN, IF, FOR and
    shell-outs become the command line that BuildKit runs, with the variables in
    front of it and the script in single quotes; and [splitWildcards].

    [sh_words] is a reference for the reader on the other side: how the shell splits
    a simple command into words and removes quotes.  It is partial: it answers only
    when no other feature of the shell (expansion, globbing, operators) is involved. *)

From S2P Require Import Prelude GoStrings Token GoText Reference.

Definition squote : ascii := "'"%char.
Definition dqchar : ascii := "034"%char.
Definition backslash_ : ascii := "\"%char.

(** ** Package [path] *)

Definition path_Base (p : string) : string :=
  if String.eqb p "" then "."
  else let b := List.last (Split (TrimRight p "/") slash) "" in if String.eqb b "" then "/" else b.

(** The directory part of [path.Split], with its final slash. *)
Definition dir_part (p : string) : string := sconcat (List.map (fun w => w +:+ "/") (removelast (Split p slash))).

Definition path_Dir (p : string) : string := Clean (dir_part p).

(** ** [shell.go] *)

Definition debuggerPath : string := "/usr/bin/earth_debugger".
Definition dockerdWrapperPath : string := "/var/earthbuild/dockerd-wrapper.sh".

(** The loop of [splitWildcards]: the text before the first unescaped wildcard and
    the text from it; a final backslash leaves the index past the end. *)
Inductive scanned : Type := NoWildcard | Wildcard (before from : string) | PastEnd.

Definition before_scan (s : string) (r : scanned) : scanned :=
  match r with Wildcard b f => Wildcard (s +:+ b) f | r => r end.

Definition is_wildcard (c : ascii) : bool := Ascii.eqb c "*" || Ascii.eqb c "?" || Ascii.eqb c "[".

Fixpoint scan_wildcard (s : string) : scanned :=
  match s with
  | "" => NoWildcard
  | String c s' =>
      if Ascii.eqb c backslash_ then
        match s' with
        | "" => PastEnd
        | String d s'' => before_scan (String c (String d "")) (scan_wildcard s'')
        end
      else if is_wildcard c then Wildcard "" s
      else before_scan (String c "") (scan_wildcard s')
  end.

Definition splitWildcards (name : string) : res (string * string) :=
  match scan_wildcard name with
  | PastEnd => Err "panic: slice bounds out of range"
  | NoWildcard => Ok (name, "")
  | Wildcard before from =>
      let base := if String.eqb before "" || HasSuffix before "/" then "" else path_Base before in
      Ok (path_Dir before, base +:+ from)
  end.

Definition shellCmd (cmd : string) : list string := ["/bin/sh"; "-c"; cmd].

Definition withShell (args : list string) (with_ : bool) : list string :=
  if with_ then shellCmd (Join args " ") else args.

(** The text that closes single quotes, writes one in double quotes, and opens them again. *)
Definition quoted_squote : string := "'" +:+ dquote +:+ "'" +:+ dquote +:+ "'".

Definition escapeShellSingleQuotes (arg : string) : string := ReplaceAll arg squote quoted_squote.

(** A file name in quotes of the inner shell. *)
Definition inner_quoted (file : string) : string :=
  "'" +:+ dquote +:+ "'" +:+ dquote +:+ escapeShellSingleQuotes file +:+ dquote +:+ "'" +:+ dquote +:+ "'".

Definition script_parts (args : list string) (isExpression : bool) (exitCodeFile outputFile : string) : list string :=
  (if String.eqb outputFile "" then [] else ["exec 1<>" +:+ inner_quoted outputFile +:+ " && "]) ++
  (if isExpression then ["echo"] else []) ++
  List.map escapeShellSingleQuotes args ++
  (if String.eqb exitCodeFile "" then [] else ["; echo $? >" +:+ inner_quoted exitCodeFile]).

Definition strWithEnvVarsAndDocker (args envVars : list string)
    (with_ withDebugger forceDebugger withDocker isExpression : bool) (exitCodeFile outputFile : string) : string :=
  Join ([Join envVars " "] ++
    (if withDocker then [dockerdWrapperPath; "execute"] else []) ++
    (if withDebugger then debuggerPath :: (if forceDebugger then ["--force"] else []) else []) ++
    (if with_ then shellCmd ("'" +:+ Join (script_parts args isExpression exitCodeFile outputFile) " " +:+ "'")
     else args)) " ".

(** [shellWrapFun]; the panic of the wrappers that need a shell is [Err]. *)
Definition shellWrapFun : Type := list string -> list string -> bool -> bool -> bool -> res (list string).

Definition withShellAndEnvVars : shellWrapFun := fun args envVars with_ withDebugger forceDebugger =>
  Ok (shellCmd (strWithEnvVarsAndDocker args envVars with_ withDebugger forceDebugger false false "" "")).

Definition exec_mode : string := "panic: unexpected exec mode".

Definition withShellAndEnvVarsExitCode (exitCodeFile : string) : shellWrapFun := fun args envVars with_ withDebugger _ =>
  if negb with_ then Err exec_mode
  else Ok (shellCmd (strWithEnvVarsAndDocker args envVars true withDebugger false false false exitCodeFile "")).

Definition withShellAndEnvVarsOutput (outputFile : string) : shellWrapFun := fun args envVars with_ withDebugger _ =>
  if negb with_ then Err exec_mode
  else Ok (shellCmd (strWithEnvVarsAndDocker args envVars true withDebugger false false false "" outputFile)).

Definition expressionWithShellAndEnvVarsOutput (outputFile : string) : shellWrapFun :=
  fun args envVars with_ withDebugger _ =>
  if negb with_ then Err exec_mode
  else Ok (shellCmd (strWithEnvVarsAndDocker args envVars true withDebugger false false true "" outputFile)).

(** ** How a shell reads a command line *)

(** Bytes that stand for themselves outside quotes. *)
Definition plain_byte (c : ascii) : bool :=
  is_lower c || is_upper c || in_range 48 57 (byteZ c) ||
  existsb (Ascii.eqb c) ["_"; "-"; "."; "/"; "="; ":"; ","; "+"; "@"; "%"]%char.

Inductive quoting : Type := Outside | InSingle | InDouble.

(** [word] is the word that is being read, when one has begun. *)
Fixpoint sh_loop (q : quoting) (word : option string) (s : string) : option (list string) :=
  let push c := Some (default "" word +:+ String c "") in
  match s with
  | "" => match q with Outside => Some (match word with None => [] | Some w => [w] end) | _ => None end
  | String c s =>
      match q with
      | InSingle => if Ascii.eqb c squote then sh_loop Outside word s else sh_loop InSingle (push c) s
      | InDouble =>
          if Ascii.eqb c dqchar then sh_loop Outside word s
          else if existsb (Ascii.eqb c) ["$"; "`"; "\"]%char then None
          else sh_loop InDouble (push c) s
      | Outside =>
          if Ascii.eqb c squote then sh_loop InSingle (Some (default "" word)) s
          else if Ascii.eqb c dqchar then sh_loop InDouble (Some (default "" word)) s
          else if Ascii.eqb c " " then
            match word, sh_loop Outside None s with
            | None, r => r
            | Some w, Some ws => Some (w :: ws)
            | Some _, None => None
            end
          else if plain_byte c then sh_loop Outside (push c) s
          else None
      end
  end.

Definition sh_words (s : string) : option (list string) := sh_loop Outside None s.

Example sh_words_1 : sh_words ("a  b'c d'" +:+ dquote +:+ "'" +:+ dquote +:+ " ''") = Some ["a"; "bc d'"; ""].
Proof. reflexivity. Qed.
Example sh_words_2 : sh_words "a $x" = None. Proof. reflexivity. Qed.

(** ** The script reaches the inner shell unchanged *)

(** The script that the arguments stand for. *)
Definition script (args : list string) (isExpression : bool) (exitCodeFile outputFile : string) : string :=
  Join ((if String.eqb outputFile "" then [] else ["exec 1<>'" +:+ outputFile +:+ "' && "]) ++
        (if isExpression then ["echo"] else []) ++ args ++
        (if String.eqb exitCodeFile "" then [] else ["; echo $? >'" +:+ exitCodeFile +:+ "'"])) " ".

(** Inside single quotes, [p] adds the text [x] to the word. *)
Definition writes (p x : string) : Prop :=
  forall w t, sh_loop InSingle (Some w) (p +:+ t) = sh_loop InSingle (Some (w +:+ x)) t.

Lemma writes_nil : writes "" "".
Proof. intros w t. by rewrite sapp_nil_r. Qed.

Lemma writes_app p q x y : writes p x -> writes q y -> writes (p +:+ q) (x +:+ y).
Proof. intros Hp Hq w t. by rewrite <- sapp_assoc, Hp, Hq, sapp_assoc. Qed.

Lemma writes_literal p : no_byte squote p = true -> writes p p.
Proof.
  induction p as [|c p IH]; [intros _; apply writes_nil|]. intros [Hc Hp]%andb_true_iff w t.
  apply negb_true_iff in Hc. rewrite sapp_cons. cbn [sh_loop]. rewrite Hc.
  change (sh_loop InSingle (Some ((w +:+ String c ""))) (p +:+ t) = sh_loop InSingle (Some (w +:+ String c p)) t).
  rewrite (IH Hp), <- sapp_assoc. done.
Qed.

Lemma writes_squote : writes quoted_squote "'".
Proof. by intros w t. Qed.

Lemma writes_escaped a : writes (escapeShellSingleQuotes a) a.
Proof.
  unfold escapeShellSingleQuotes. induction a as [|c a IH]; [apply writes_nil|]. simpl.
  destruct (Ascii.eqb_spec c squote) as [->|Hc].
  - apply (writes_app _ _ "'" a); [apply writes_squote|done].
  - apply (writes_app (String c "") _ (String c "") a); [|done]. apply writes_literal.
    unfold no_byte. simpl. by rewrite (proj2 (Ascii.eqb_neq _ _) Hc).
Qed.

Lemma plain_loop f w t : sall plain_byte f = true -> sh_loop Outside (Some w) (f +:+ t) = sh_loop Outside (Some (w +:+ f)) t.
Proof.
  revert w. induction f as [|c f IH]; intros w; [by rewrite sapp_nil_r|]. intros [Hc Hf]%andb_true_iff.
  rewrite sapp_cons. cbn [sh_loop].
  destruct (Ascii.eqb_spec c squote); [by subst|]. destruct (Ascii.eqb_spec c dqchar); [by subst|].
  destruct (Ascii.eqb_spec c " "); [by subst|]. rewrite Hc. cbn [default]. rewrite (IH _ Hf), <- sapp_assoc. done.
Qed.

Lemma plain_no_squote f : sall plain_byte f = true -> escapeShellSingleQuotes f = f.
Proof.
  unfold escapeShellSingleQuotes. induction f as [|c f IH]; [done|]. intros [Hc Hf]%andb_true_iff. simpl.
  destruct (Ascii.eqb_spec c squote); [by subst|]. by rewrite IH.
Qed.

Lemma writes_file f : sall plain_byte f = true -> writes (inner_quoted f) ("'" +:+ f +:+ "'").
Proof.
  intros Hf w t. unfold inner_quoted. rewrite plain_no_squote by done.
  assert (forall u, sh_loop InSingle (Some w) ("'" +:+ dquote +:+ "'" +:+ dquote +:+ u) =
                    sh_loop Outside (Some (w +:+ "'")) u) as Hopen by done.
  rewrite <- !sapp_assoc, Hopen, plain_loop by done.
  assert (forall v, sh_loop Outside (Some v) (dquote +:+ "'" +:+ dquote +:+ "'" +:+ t) =
                    sh_loop InSingle (Some (v +:+ "'")) t) as -> by done.
  by rewrite <- !sapp_assoc.
Qed.

Lemma writes_Join ps xs : Forall2 writes ps xs -> writes (Join ps " ") (Join xs " ").
Proof.
  induction 1 as [|p x ps xs Hp Hps IH]; [apply writes_nil|]. destruct Hps as [|p' x' ps xs Hp' Hps]; [done|].
  change (writes (p +:+ " " +:+ Join (p' :: ps) " ") (x +:+ " " +:+ Join (x' :: xs) " ")).
  apply writes_app; [done|]. apply (writes_app " "); [by apply writes_literal|done].
Qed.

Lemma writes_script args isExpression exitCodeFile outputFile :
  sall plain_byte exitCodeFile = true -> sall plain_byte outputFile = true ->
  writes (Join (script_parts args isExpression exitCodeFile outputFile) " ") (script args isExpression exitCodeFile outputFile).
Proof.
  intros He Ho. apply writes_Join. repeat apply Forall2_app.
  - destruct (String.eqb outputFile ""); constructor; [|constructor].
    apply (writes_app "exec 1<>" _ "exec 1<>"); [by apply writes_literal|].
    replace (String "'" _) with (("'" +:+ outputFile +:+ "'") +:+ " && ") by (rewrite <- !sapp_assoc; reflexivity).
    apply writes_app; [by apply writes_file|by apply writes_literal].
  - destruct isExpression; constructor; [|constructor]. by apply writes_literal.
  - induction args; simpl; constructor; [apply writes_escaped|done].
  - destruct (String.eqb exitCodeFile ""); constructor; [|constructor].
    apply (writes_app "; echo $? >" _ "; echo $? >"); [by apply writes_literal|]. by apply writes_file.
Qed.

(** The rest of a command line after a word: nothing, or a blank. *)
Definition blank_start (t : string) : Prop := match t with "" => True | String c _ => c = " "%char end.

(** Outside quotes, [p] is the word [w]. *)
Definition reads (p w : string) : Prop :=
  forall t, blank_start t -> sh_loop Outside None (p +:+ t) = sh_loop Outside (Some w) t.

Lemma plain_start p t : p <> "" -> sall plain_byte p = true -> sh_loop Outside None (p +:+ t) = sh_loop Outside (Some p) t.
Proof.
  intros Hp Hall. destruct p as [|c p]; [done|]. apply andb_true_iff in Hall as [Hc Hall].
  rewrite sapp_cons. cbn [sh_loop].
  destruct (Ascii.eqb_spec c squote); [by subst|]. destruct (Ascii.eqb_spec c dqchar); [by subst|].
  destruct (Ascii.eqb_spec c " "); [by subst|]. rewrite Hc. cbn [default]. by rewrite plain_loop.
Qed.

Lemma reads_plain p : p <> "" -> sall plain_byte p = true -> reads p p.
Proof. intros Hp Hall t _. by apply plain_start. Qed.

Lemma reads_quoted p x : writes p x -> reads ("'" +:+ p +:+ "'") x.
Proof.
  intros Hp t _. rewrite <- !sapp_assoc.
  change (sh_loop InSingle (Some "") (p +:+ "'" +:+ t) = sh_loop Outside (Some x) t). by rewrite Hp.
Qed.

Lemma sh_words_Join ps ws : ps <> [] -> Forall2 reads ps ws -> sh_words (Join ps " ") = Some ws.
Proof.
  intros Hne H. induction H as [|p w ps ws Hp Hps IH]; [done|]. unfold sh_words in *. destruct Hps as [|p' w' ps ws Hp' Hps].
  - simpl. by rewrite <- (sapp_nil_r p), Hp.
  - change (Join (p :: p' :: ps) " ") with (p +:+ String " " (Join (p' :: ps) " ")).
    rewrite Hp by done. cbn [sh_loop]. rewrite IH by done. done.
Qed.

Lemma Join_app_one (l1 l2 : list string) :
  l2 <> [] -> sh_words (Join ([Join l1 " "] ++ l2) " ") = sh_words (Join (l1 ++ l2) " ").
Proof.
  intros Hl2. destruct l2 as [|y l2]; [done|]. destruct l1 as [|x l1]; [done|]. f_equal. clear Hl2.
  revert x. induction l1 as [|x' l1 IH]; intros x; [done|].
  change (Join (x :: x' :: l1) " ") with (x +:+ " " +:+ Join (x' :: l1) " ").
  change (Join ((x :: x' :: l1) ++ y :: l2) " ") with (x +:+ " " +:+ Join ((x' :: l1) ++ y :: l2) " ").
  rewrite <- IH. simpl. by rewrite <- !sapp_assoc.
Qed.

(** The third-party [shellescape.Quote], with what it documents: the shell reads its
    result as the text. *)
Class ShellEscape : Type := shell_quote : string -> string.
Class ShellEscapeLaws `{ShellEscape} : Prop :=
  shell_quote_reads s w t : blank_start t ->
    sh_loop Outside (Some w) (shell_quote s +:+ t) = sh_loop Outside (Some (w +:+ s)) t.

Section Commands.
Context `{ShellEscapeLaws}.

(** A build argument in front of the command, as [internalRun] writes it. *)
Definition env_text (kv : string * string) : string := fst kv +:+ "=" +:+ shell_quote (snd kv).

Lemma reads_env kv : sall plain_byte (fst kv) = true -> reads (env_text kv) (fst kv +:+ "=" +:+ snd kv).
Proof.
  intros Hk t Ht. unfold env_text. rewrite (sapp_assoc (fst kv)), <- sapp_assoc.
  assert (sall plain_byte (fst kv +:+ "=") = true) as Hp.
  { revert Hk. induction (fst kv) as [|c s IH]; [done|]. simpl. intros [-> Hs]%andb_true_iff. by apply IH. }
  rewrite plain_start, shell_quote_reads, sapp_assoc by (try done; by destruct (fst kv)). done.
Qed.

(** What is put in front of the shell. *)
Definition launcher (withDebugger forceDebugger withDocker : bool) : list string :=
  (if withDocker then [dockerdWrapperPath; "execute"] else []) ++
  (if withDebugger then debuggerPath :: (if forceDebugger then ["--force"] else []) else []).


End Commands.

(** ** [splitWildcards] *)

Lemma scan_text s : match scan_wildcard s with
                    | Wildcard b f => s = b +:+ f /\ match f with "" => False | String c _ => is_wildcard c = true end
                    | _ => True
                    end.
Proof.
  induction s as [s IH] using (Wf_nat.induction_ltof1 _ String.length). unfold Wf_nat.ltof in IH.
  destruct s as [|c s]; [done|]. cbn [scan_wildcard]. destruct (Ascii.eqb c backslash_).
  - destruct s as [|d s]; [done|]. specialize (IH s ltac:(simpl; lia)).
    destruct (scan_wildcard s) as [|b f|]; simpl; [done| |done]. destruct IH as [-> ?]. by split.
  - destruct (is_wildcard c) eqn:Ew; [done|]. specialize (IH s ltac:(simpl; lia)).
    destruct (scan_wildcard s) as [|b f|]; simpl; [done| |done]. destruct IH as [-> ?]. by split.
Qed.

(** A path is its directory part and the name after the last slash. *)
Lemma dir_part_base p : p = dir_part p +:+ List.last (Split p slash) "" /\ no_byte slash (List.last (Split p slash) "") = true.
Proof.
  unfold dir_part. induction p as [|c p [IH1 IH2]]; [done|]. cbn [Split].
  destruct (Ascii.eqb_spec c slash) as [->|Hc].
  - assert (Split p slash <> []) as Hne by (destruct p; simpl; [done|]; destruct (Ascii.eqb _ _); [done|]; by destruct (Split p slash)).
    destruct (Split p slash) as [|w ws] eqn:E; [done|]. split; [|exact IH2].
    rewrite IH1 at 1. done.
  - destruct (Split p slash) as [|w ws] eqn:E; simpl in *.
    + split; [by rewrite IH1|]. unfold no_byte. simpl. by rewrite (proj2 (Ascii.eqb_neq _ _) Hc).
    + destruct ws as [|w' ws]; simpl in *.
      * split; [by rewrite IH1|]. unfold no_byte in *. simpl. by rewrite (proj2 (Ascii.eqb_neq _ _) Hc).
      * split; [|done]. by rewrite IH1 at 1.
Qed.

Lemma dir_part_shape p : dir_part p = "" \/ exists x, dir_part p = x +:+ "/".
Proof.
  unfold dir_part. induction (removelast (Split p slash)) as [|w l [IH|[x IH]]]; [by left| |]; right; simpl; rewrite IH.
  - exists w. by rewrite sapp_nil_r.
  - exists (w +:+ "/" +:+ x). by rewrite <- !sapp_assoc.
Qed.

Lemma last_piece b : HasSuffix b "/" = false -> b <> "" -> path_Base b = List.last (Split b slash) "".
Proof.
  intros Hs Hb. unfold path_Base. rewrite (proj2 (String.eqb_neq _ _) Hb).
  assert (TrimRight b "/" = b) as ->.
  { clear Hb. induction b as [|c b IH]; [done|]. simpl. destruct b as [|d b].
    - simpl. unfold sexists. simpl. destruct (Ascii.eqb_spec c "/"); [by subst|done].
    - rewrite IH; [done|]. apply not_true_is_false. intros [t Ht]%HasSuffix_spec. apply not_true_iff_false in Hs.
      apply Hs, HasSuffix_spec. exists (String c t). by rewrite Ht. }
  destruct (String.eqb_spec (List.last (Split b slash) "") "") as [E|]; [|done]. exfalso.
  apply not_true_iff_false in Hs. apply Hs, HasSuffix_spec. destruct (dir_part_base b) as [H _]. rewrite E, sapp_nil_r in H.
  destruct (dir_part_shape b) as [E'|[x E']]; [congruence|]. exists x. congruence.
Qed.

Lemma path_stack_dir x y :
  path_stack (x +:+ "/" +:+ y) = fold_left (clean_step (IsAbs (x +:+ "/"))) (Split y slash) (path_stack (x +:+ "/")).
Proof.
  unfold path_stack. assert (IsAbs (x +:+ "/" +:+ y) = IsAbs (x +:+ "/")) as ->.
  { rewrite sapp_assoc. apply IsAbs_app. by destruct x. }
  change ("/" +:+ y) with (String slash y). change (x +:+ "/") with (x +:+ String slash "").
  by rewrite !Split_sep, !fold_left_app.
Qed.

(** Joining a name to the directory of a path. *)
Lemma path_Join_dir x y : y <> "" -> path_Join [Clean (x +:+ "/"); y] = Clean (x +:+ "/" +:+ y).
Proof.
  intros Hy. rewrite path_Join2 by (try done; apply Clean_nonempty).
  rewrite (Clean_text (Clean _ +:+ _)), (Clean_text (x +:+ "/" +:+ y)). rewrite IsAbs_app by apply Clean_nonempty. rewrite (IsAbs_Clean (x +:+ "/")).
  assert (IsAbs (x +:+ "/" +:+ y) = IsAbs (x +:+ "/")) as -> by (rewrite sapp_assoc; apply IsAbs_app; by destruct x).
  f_equal. rewrite path_stack_app, IsAbs_Clean, path_stack_dir by apply Clean_nonempty. f_equal.
  rewrite Clean_text. by destruct (stack_text_read _ _ (path_stack_ok (x +:+ "/"))) as [_ ->].
Qed.

(** A destination of SAVE ARTIFACT is split at its first wildcard into a directory
    without wildcards and the rest, which together are the destination. *)
Theorem splitWildcards_path name d f :
  splitWildcards name = Ok (d, f) ->
  (scan_wildcard name = NoWildcard /\ d = name /\ f = "") \/
  (exists before from, scan_wildcard name = Wildcard before from /\ d = Clean (dir_part before) /\ f <> "" /\
    path_Join [d; f] = Clean name).
Proof.
  unfold splitWildcards. pose proof (scan_text name) as Ht.
  destruct (scan_wildcard name) as [|b w|] eqn:E; [by intros [= <- <-]; left| |done]. intros [= <- <-]. right. exists b, w.
  destruct Ht as [-> Hw]. destruct w as [|c w]; [done|]. destruct (dir_part_base b) as [Hb Hlast].
  assert ((if String.eqb b "" || HasSuffix b "/" then "" else path_Base b) = List.last (Split b slash) "") as ->.
  { destruct (String.eqb_spec b "") as [->|Hne]; [done|]. destruct (HasSuffix b "/") eqn:Es; [|by apply last_piece].
    apply HasSuffix_spec in Es as [t ->]. simpl. change (t +:+ "/") with (t +:+ String slash "").
    rewrite Split_sep. cbn [Split]. by rewrite List.last_last. }
  set (p := List.last (Split b slash) "") in *. split_and!; [done|done|by destruct p|].
  unfold path_Dir. destruct (dir_part_shape b) as [Ed|[x Ed]]; rewrite Ed in *.
  - simpl in Hb. rewrite Hb. change (Clean "") with ".". rewrite path_Join2 by (by destruct p).
    apply Clean_dot. apply not_true_is_false. intros [u Hu]%HasPrefix_spec. destruct p as [|c' p].
    + injection Hu as -> _. done.
    + injection Hu as -> _. done.
  - rewrite path_Join_dir by (by destruct p). f_equal. rewrite Hb. by rewrite <- !sapp_assoc.
Qed.

(** A destination that ends in a backslash makes the code slice past the end. *)
Lemma splitWildcards_panics : splitWildcards "out\" = Err "panic: slice bounds out of range".
Proof. reflexivity. Qed.

(** ** Samples *)

Module Sample.

#[local] Instance always_quote : ShellEscape := fun s => "'" +:+ escapeShellSingleQuotes s +:+ "'".

#[local] Instance always_quote_laws : ShellEscapeLaws.
Proof.
  intros s w t _. unfold shell_quote, always_quote. rewrite <- !sapp_assoc.
  change (sh_loop InSingle (Some w) (escapeShellSingleQuotes s +:+ "'" +:+ t) = sh_loop Outside (Some (w +:+ s)) t).
  by rewrite writes_escaped.
Qed.


End Sample.

Lemma splitWildcards_path_witness : path_Join ["a/b"; "c*/d"] = Clean "a//b/c*/d".
Proof.
  destruct (splitWildcards_path "a//b/c*/d" "a/b" "c*/d" eq_refl) as [(? & ? & ?)|(? & ? & ? & ? & ? & E)];
    [discriminate|exact E].
Defined.
