(* ===== verification/Llb.v ===== *)
(** * Images and build states

    The configuration of an image ([states/image/image.go]), the states that BuildKit
    executes and the copies that are made with them ([util/llbutil/copyop.go],
    [util/llbutil/fakedep.go]).

    A state of [pllb] is known by the calls that make it; the names that are only
    shown in the output are left out, and [pllb]'s lock has nothing to do here.  What
    BuildKit reads off a state (its working directory, its environment, whether it is
    empty) is the class [LLB], with its documented behaviour in [LLBLaws]. *)

From stdpp Require Import gmap.
From S2P Require Import Prelude GoStrings Token GoText Reference KeyValue Platform RunShell RunMount.

#[local] Open Scope res_scope.

(** ** Images *)

Record HealthConfig : Type := mkHealth {
  hc_Test : list string; hc_Interval : Z; hc_Timeout : Z; hc_StartPeriod : Z; hc_Retries : Z; hc_StartInterval : Z }.

Record Image : Type := mkImage {
  img_Architecture : string; img_OS : string;
  img_User : string; img_Env : list string; img_Entrypoint : list string; img_Cmd : list string;
  WorkingDir : string; StopSignal : string;
  ExposedPorts : gset string; Volumes : gset string; Labels : gmap string string;
  img_Healthcheck : option HealthConfig }.

Definition DefaultPathEnv : string := "/usr/local/sbin:/usr/local/bin:/usr/sbin:/usr/bin:/sbin:/bin".

Definition NewImage : Image :=
  mkImage "" "" "" ["PATH=" +:+ DefaultPathEnv] [] [] "/" "" ∅ ∅ ∅ None.

(** [Clone] copies every slice, map and pointer of the image; of no image it makes a new one. *)
Definition Image_Clone (img : option Image) : Image :=
  match img with
  | None => NewImage
  | Some img =>
      mkImage (img_Architecture img) (img_OS img) (img_User img) (img_Env img) (img_Entrypoint img) (img_Cmd img)
        (WorkingDir img) (StopSignal img) (ExposedPorts img) (Volumes img) (Labels img) (img_Healthcheck img)
  end.

(** ** States *)

Record CopyInfo : Type := mkCopyInfo {
  ci_Mode : option Z; FollowSymlinks : bool; CopyDirContentsOnly : bool; CreateDestPath : bool; AllowWildcard : bool;
  AllowEmptyWildcard : bool; ci_User : option string; CreatedTime : option string }.

(** The options of a state that is uploaded; [OtherOption] is one that is set by the build context. *)
Inductive LocalOption : Type :=
  | IncludePatterns (patterns : list string)
  | SharedKeyHint (key : string)
  | OtherOption (name : string) (values : list string).

Inductive State : Type :=
  | SScratch
  | SImage (ref : string) (platform : Spec)
  | SGit (remote ref sshCommand : string)
  | SLocal (name : string) (opts : list LocalOption)
  | SPlatform (p : Spec) (s : State)
  | SDir (dir : string) (s : State)
  | SUser (user : string) (s : State)
  | SEnv (key value : string) (s : State)
  | SHost (hostname ip : string) (s : State)
  | SFile (a : list FileAction) (s : State)
  | SRun (opts : list ExecOption) (s : State)
  | SExecMount (opts : list ExecOption) (exec : State) (target : string) (source : State)
  | SMerge (inputs : list State)
with FileAction : Type :=
  | FMkdir (path : string) (mode : Z) (user : option string)
  | FCopy (src : State) (from to : string) (info : CopyInfo)
with ExecOption : Type :=
  | XMount (target : string) (state : State) (opts : list MountOption)
  | XRun (o : RunOption)
  | XSecurityInsecure
  | XNetworkNone
  | XSecretEnv (name id : string)
  | XSocket (id target : string) (mode : Z)
  | XReadonlyRootFS
  | XArgs (args : list string)
  | XShlex (command : string)
  | XIgnoreCache.

(** What is read off a state. *)
Class LLB : Type := {
  GetDir : State -> res string;
  GetEnv : State -> string -> option string;
  is_scratch : State -> bool }.

(** The states that describe the same process environment: a directory and variables. *)
Definition same_meta `{LLB} (s t : State) : Prop := GetDir s = GetDir t /\ forall k, GetEnv s k = GetEnv t k.

Class LLBLaws `{LLB} : Prop := {
  meta_scratch : GetDir SScratch = Ok "/" /\ forall k, GetEnv SScratch k = None;
  meta_image ref p : GetDir (SImage ref p) = Ok "/" /\ forall k, GetEnv (SImage ref p) k = None;
  dir_abs d s : IsAbs d = true -> GetDir (SDir d s) = Ok d;
  dir_rel d s prev : IsAbs d = false -> GetDir s = Ok prev -> prev <> "" -> GetDir (SDir d s) = Ok (path_Join [prev; d]);
  dir_env d s k : GetEnv (SDir d s) k = GetEnv s k;
  env_dir k v s : GetDir (SEnv k v s) = GetDir s;
  env_env k v s k' : GetEnv (SEnv k v s) k' = if String.eqb k' k then Some v else GetEnv s k';
  meta_platform p s : same_meta (SPlatform p s) s;
  meta_user u s : same_meta (SUser u s) s;
  meta_host h ip s : same_meta (SHost h ip s) s;
  meta_file a s : same_meta (SFile a s) s;
  meta_run opts s : same_meta (SRun opts s) s;
  meta_mount opts e target s : same_meta (SExecMount opts e target s) s;
  meta_merge s l : is_scratch s = false -> same_meta (SMerge (s :: l)) s }.

(** ** Copies *)

Definition defaultTs : string := "2020-04-16T12:00:00+00:00".

(** [string(b)] of a byte: the rune with that number, in UTF-8. *)
Definition string_of_byte (c : ascii) : string := EncodeRune (byteZ c).

(** The glob for a source that may not exist. *)
Definition if_exists_source (src : string) : res string :=
  if String.eqb src "" then Ok src
  else match TrimPrefix (TrimPrefix src "./") "/" with
       | "" => Err "panic: index out of range [0] with length 0"
       | String c rest => Ok ("[" +:+ string_of_byte c +:+ "]" +:+ rest)
       end.

Fixpoint copy_actions (srcState : State) (dest : string) (ifExists : bool) (info : CopyInfo) (srcs : list string)
    : res (list FileAction) :=
  match srcs with
  | [] => Ok []
  | src :: srcs =>
      let* src := if ifExists then if_exists_source src else Ok src in
      let* rest := copy_actions srcState dest ifExists info srcs in
      Ok (FCopy srcState src dest info :: rest)
  end.

Section Llb.
Context `{LLB} `{Platforms}.

Definition CopyOp (srcState : State) (srcs : list string) (destState : State) (dest : string)
    (allowWildcard isDir keepTs : bool) (chown : string) (chmod : option Z) (ifExists symlinkNoFollow merge : bool)
    : res State :=
  let dest := if String.eqb dest "." || String.eqb dest "" || (1 <? length srcs) then dest +:+ "/" else dest in
  let info := mkCopyInfo chmod (negb symlinkNoFollow) (negb isDir) true allowWildcard ifExists
    (if String.eqb chown "" then None else Some chown) (if keepTs then None else Some defaultTs) in
  let* fa := copy_actions srcState dest ifExists info srcs in
  match fa with
  | [] => Ok destState
  | _ =>
      if merge && String.eqb chown "" then
        let* cwd := GetDir destState in
        Ok (SDir cwd (SMerge [destState; SFile fa (SDir cwd SScratch)]))
      else Ok (SFile fa destState)
  end.

Definition copyImg : string :=
  "docker/dockerfile-copy:v0.1.9@sha256:e8f159d3f00786604b93c675ee2783f8dc194bb565e61ca5788f6a6e9d304061".

Definition CopyWithRunOptions (srcState : State) (src dest : string) (platr : Plat.Resolver) (opts : list ExecOption) : State :=
  let opts := opts ++ [XReadonlyRootFS; XShlex ("copy " +:+ src +:+ " /dest/" +:+ dest)] in
  let copyState := SImage copyImg (Plat.nativePlatform platr) in
  SPlatform (Plat.ToLLBPlatform platr (Plat.currentPlatform platr)) (SExecMount opts copyState "/dest" srcState).

(** [llbutil.Abs] *)
Definition Abs (s : State) (p : string) : res string :=
  if IsAbs p then Ok p
  else match GetDir s with
       | Ok dir => Ok (path_Join [dir; p])
       | Err e => Err ("get dir: " +:+ e)
       | NoFuel => NoFuel
       end.

(** [platr.Scratch] *)
Definition platform_scratch (platr : Plat.Resolver) : State := SPlatform (Plat.nativePlatform platr) SScratch.

Definition fake_info : CopyInfo := mkCopyInfo None false true true true true None None.

Definition WithDependency (state depState : State) (platr : Plat.Resolver) : State :=
  let state := if is_scratch state then SFile [FMkdir "/tmp" 493 None] state else state in
  if is_scratch depState then state
  else
    let intermediate :=
      SFile [FCopy depState "/fake-745cb405-fbfb-4ea7-83b0-a85c26b4aff0-*" "/tmp/" fake_info] (platform_scratch platr) in
    SFile [FCopy intermediate "/fake-5fa01e05-ca9e-45c9-8721-05b9183a2914-*" "/tmp/" fake_info] state.

(** ** What copies keep *)

#[export] Instance same_meta_equivalence : Equivalence same_meta.
Proof.
  split; [by split|by intros s t [? ?]|]. intros s t u [H1 H2] [H3 H4]. split; [congruence|]. intros k. by rewrite H2.
Qed.

Context `{!LLBLaws}.

Lemma CopyOp_meta srcState srcs s dest w d ts chown chmod ie nf merge s' dir :
  CopyOp srcState srcs s dest w d ts chown chmod ie nf merge = Ok s' ->
  GetDir s = Ok dir -> IsAbs dir = true -> chown <> "" \/ merge = false \/ is_scratch s = false ->
  same_meta s' s.
Proof.
  unfold CopyOp. destruct (copy_actions _ _ _ _ _) as [fa|e|]; simpl; [|done..].
  destruct fa as [|a fa]; [by intros [= <-]|]. intros Hc Hdir Habs Hm.
  destruct (merge && String.eqb chown "") eqn:E; [|injection Hc as <-; apply meta_file].
  apply andb_true_iff in E as [-> E%String.eqb_eq]. rewrite Hdir in Hc. simpl in Hc. injection Hc as <-.
  destruct (meta_merge s [SFile (a :: fa) (SDir dir SScratch)]) as [Hd He]; [by destruct Hm as [?|[?|?]]|].
  split; [by rewrite dir_abs, Hdir|]. intros k. by rewrite dir_env, He.
Qed.

Lemma CopyWithRunOptions_meta s src dest platr opts : same_meta (CopyWithRunOptions s src dest platr opts) s.
Proof. unfold CopyWithRunOptions. etransitivity; [apply meta_platform|apply meta_mount]. Qed.

Lemma WithDependency_meta s d platr : same_meta (WithDependency s d platr) s.
Proof.
  unfold WithDependency. assert (same_meta (if is_scratch s then SFile [FMkdir "/tmp" 493 None] s else s) s) as Hs.
  { destruct (is_scratch s); [apply meta_file|done]. }
  destruct (is_scratch d); [done|]. etransitivity; [apply meta_file|done].
Qed.

End Llb.

(** ** Sources that may not exist *)

(** Which names a pattern matches ([filepath.Match], with classes of single bytes). *)
Definition meta_byte (c : ascii) : bool := existsb (Ascii.eqb c) ["*"; "?"; "["; "\"]%char.
Definition class_byte (c : ascii) : bool := negb (existsb (Ascii.eqb c) ["]"; "^"; "\"; "-"]%char).

Inductive matches : string -> string -> Prop :=
  | M_end : matches "" ""
  | M_star_end p s : matches p s -> matches (String "*" p) s
  | M_star p c s : c <> slash -> matches (String "*" p) s -> matches (String "*" p) (String c s)
  | M_any p c s : c <> slash -> matches p s -> matches (String "?" p) (String c s)
  | M_class p c s : class_byte c = true -> matches p s -> matches (String "[" (String c (String "]" p))) (String c s)
  | M_escaped p c s : matches p s -> matches (String "\" (String c p)) (String c s)
  | M_literal p c s : meta_byte c = false -> matches p s -> matches (String c p) (String c s).

(** The class of a first byte that has no meaning in patterns changes nothing. *)
Lemma if_exists_plain c src :
  meta_byte c = false -> class_byte c = true -> (byteZ c < 128)%Z -> c <> slash -> c <> "."%char ->
  exists pattern, if_exists_source (String c src) = Ok pattern /\
    forall name, matches pattern name <-> matches (String c src) name.
Proof.
  intros Hm Hc Ha Hs Hd. unfold if_exists_source. cbn [String.eqb].
  assert (TrimPrefix (TrimPrefix (String c src) "./") "/" = String c src) as ->.
  { unfold TrimPrefix. destruct (HasPrefix (String c src) "./") eqn:E1; [by apply HasPrefix_spec in E1 as [t [= -> _]]|].
    destruct (HasPrefix (String c src) "/") eqn:E2; [by apply HasPrefix_spec in E2 as [t [= -> _]]|]. done. }
  eexists. split; [done|]. intros name.
  assert (string_of_byte c = String c "") as ->.
  { unfold string_of_byte, EncodeRune, byte_string. clear -Ha. revert Ha. by destruct c as [[] [] [] [] [] [] [] []]. }
  split; inversion 1; simplify_eq; try done; by constructor.
Qed.

(** A leading wildcard is taken for a name: nothing is copied. *)
Lemma if_exists_star :
  matches "*.txt" "a.txt" /\ exists pattern, if_exists_source "*.txt" = Ok pattern /\ ~ matches pattern "a.txt".
Proof.
  split.
  - apply M_star; [done|]. apply M_star_end. by repeat constructor.
  - eexists. split; [reflexivity|]. inversion 1; simplify_eq.
Qed.

(** A first byte that is not ASCII is replaced by the encoding of its number. *)
Lemma if_exists_unicode :
  if_exists_source (bytes_string [195; 169]%Z) = Ok ("[" +:+ bytes_string [195; 131]%Z +:+ "]" +:+ bytes_string [169]%Z).
Proof. reflexivity. Qed.

(** The root and the current directory make the code index an empty string. *)
Lemma if_exists_root : if_exists_source "./" = Err "panic: index out of range [0] with length 0".
Proof. reflexivity. Qed.
