(* ===== verification/LocalState.v ===== *)
(** * States of local files

    A translation of [util/llbutil/llbfactory], [earthfile2llb/local_state_cache.go] and
    [earthfile2llb/local_state_cache_escape.go]: how the files that COPY names become
    include patterns, and the cache of the states that upload them.

    [quoteMeta] fills a buffer by index, as the code does: a write outside of it would be
    a panic, and [quoteMeta_spec] shows that there is none and what the result is.  SHA-1 and
    the inodes of files are parameters. *)

From stdpp Require Import gmap.
From S2P Require Import Prelude GoStrings Token GoText Platform RunShell Llb.

#[local] Open Scope res_scope.

(** ** [llbfactory] *)

Record LocalFactory : Type := mkLocalFactory { lf_name : string; sharedKeyHint : string; lf_opts : list LocalOption }.

Inductive Factory : Type := Preconstructed (s : State) | LocalF (f : LocalFactory).

Definition Construct (f : Factory) : State :=
  match f with Preconstructed s => s | LocalF f => SLocal (lf_name f) (lf_opts f) end.

Definition Local_ (name : string) (opts : list LocalOption) : Factory := LocalF (mkLocalFactory name "" opts).

(** The hint is not copied. *)
Definition Copy (f : LocalFactory) : LocalFactory := mkLocalFactory (lf_name f) "" (lf_opts f).

Definition WithInclude (patterns : list string) (f : LocalFactory) : LocalFactory :=
  let f := Copy f in mkLocalFactory (lf_name f) (sharedKeyHint f) (lf_opts f ++ [IncludePatterns patterns]).

Definition WithSharedKeyHint (key : string) (f : LocalFactory) : LocalFactory :=
  let f := Copy f in mkLocalFactory (lf_name f) key (lf_opts f ++ [SharedKeyHint key]).

(** ** Escaping *)

(** The bitmap: bit [b / 16] of byte [b mod 16]. *)
Definition specialBytes : list Z :=
  fold_left (fun m b => alter (fun x => Z.lor x (Z.shiftl 1 (b / 16))) (Z.to_nat (b mod 16)) m) [43; 63; 123; 125]%Z
    (List.repeat 0%Z 16).

Definition special (c : ascii) : bool :=
  let b := byteZ c in
  (b <? 128)%Z && negb (Z.eqb (Z.land (default 0%Z (specialBytes !! Z.to_nat (b mod 16)%Z)) (Z.shiftl 1 (b / 16))) 0).

(** The index after the first loop: of the first special byte, else of the last byte. *)
Fixpoint scan_meta (s : string) (i : nat) : nat :=
  match s with
  | String c (String _ _ as s) => if special c then i else scan_meta s (S i)
  | _ => i
  end.

(** [b[j] = c] *)
Definition write_byte (b : list ascii) (j : nat) (c : ascii) : res (list ascii) :=
  if j <? length b then Ok (<[j := c]> b) else Err "panic: index out of range".

Fixpoint quote_loop (s : string) (b : list ascii) (j : nat) : res (list ascii * nat) :=
  match s with
  | "" => Ok (b, j)
  | String c s =>
      let* (b, j) := if special c then let* b := write_byte b j "\"%char in Ok (b, S j) else Ok (b, j) in
      let* b := write_byte b j c in
      quote_loop s b (S j)
  end.

Definition quoteMeta (s : string) : res string :=
  let i := scan_meta s 0 in
  if String.length s <=? i then Ok s
  else
    let b := String.list_ascii_of_string (stake i s) ++ List.repeat Ascii.zero (2 * String.length s - i - i) in
    let* (b, j) := quote_loop (sdrop i s) b i in
    Ok (String.string_of_list_ascii (firstn j b)).

(** ** Patterns *)

Definition include_pattern (inc : string) : res string :=
  quoteMeta (if String.eqb inc "." then "./*"
             else if HasSuffix inc "/." then stake (String.length inc - 1) inc +:+ "*" else inc).

Fixpoint createIncludePatterns (incl : list string) : res (list string) :=
  match incl with
  | [] => Ok []
  | inc :: incl => let* p := include_pattern inc in let* ps := createIncludePatterns incl in Ok (p :: ps)
  end.

Class FileHash : Type := { sha1_hex : string -> string; GetInodeBestEffort : string -> Z }.

(** [binary.LittleEndian.PutUint64] *)
Definition uint64_bytes (n : Z) : string :=
  sconcat (List.map (fun i => byte_string (Z.land (Z.shiftr n (8 * i)) 255)) [0; 1; 2; 3; 4; 5; 6; 7]%Z).

Definition hashed_path `{FileHash} (path : string) : string := path +:+ uint64_bytes (GetInodeBestEffort path).

Definition getSharedKeyHintFromInclude `{FileHash} (name : string) (incl : list string) : string :=
  sha1_hex (sconcat (List.map hashed_path (name :: incl))).

Definition addIncludePathAndSharedKeyHint `{FileHash} (f : Factory) (src : list string) : res Factory :=
  match f with
  | Preconstructed _ => Ok f
  | LocalF f =>
      let* includePatterns := createIncludePatterns src in
      let sharedKey := getSharedKeyHintFromInclude (lf_name f) includePatterns in
      Ok (LocalF (WithSharedKeyHint sharedKey (WithInclude includePatterns f)))
  end.

(** ** The cache *)

Abbreviation LocalStateCache := (gmap string State).

Definition getOrConstruct (f : Factory) (lsc : LocalStateCache) : LocalStateCache * State :=
  match f with
  | Preconstructed _ => (lsc, Construct f)
  | LocalF lf =>
      match lsc !! sharedKeyHint lf with
      | Some st => (lsc, st)
      | None => (<[sharedKeyHint lf := Construct f]> lsc, Construct f)
      end
  end.

(** ** Escaping is what it should be *)

Definition escaped_byte (c : ascii) : bool := existsb (Ascii.eqb c) ["+"; "?"; "{"; "}"]%char.

Lemma special_byte_spec c : special c = escaped_byte c.
Proof. by destruct c as [[] [] [] [] [] [] [] []]. Qed.

Fixpoint escape_meta (s : string) : string :=
  match s with
  | "" => ""
  | String c s => if escaped_byte c then String "\" (String c (escape_meta s)) else String c (escape_meta s)
  end.

Lemma take_write (b : list ascii) j c t : firstn j b = t -> j < length b -> firstn (S j) (<[j := c]> b) = t ++ [c].
Proof.
  intros <- Hj. rewrite (take_S_r _ _ c); [|by rewrite list_lookup_insert_eq]. by rewrite take_insert_ge.
Qed.

Lemma write_byte_ok b j c : j < length b -> write_byte b j c = Ok (<[j := c]> b).
Proof. intros Hj. unfold write_byte. by apply Nat.ltb_lt in Hj as ->. Qed.

Lemma quote_loop_spec s : forall b j, j + 2 * String.length s <= length b ->
  exists b' j', quote_loop s b j = Ok (b', j') /\
    firstn j' b' = firstn j b ++ String.list_ascii_of_string (escape_meta s).
Proof.
  induction s as [|c s IH]; intros b j Hb; simpl in *; [exists b, j; by rewrite app_nil_r|].
  rewrite special_byte_spec. destruct (escaped_byte c); simpl.
  - rewrite write_byte_ok by lia. simpl. rewrite write_byte_ok by (rewrite length_insert; lia). simpl.
    destruct (IH (<[S j := c]> (<[j := "\"%char]> b)) (S (S j))) as (b' & j' & -> & E).
    { rewrite !length_insert. lia. }
    exists b', j'. split; [done|]. rewrite E.
    rewrite (take_write _ _ _ (firstn j b ++ ["\"%char])); [by rewrite <- !app_assoc| |rewrite length_insert; lia].
    apply take_write; [done|lia].
  - rewrite write_byte_ok by lia. simpl.
    destruct (IH (<[j := c]> b) (S j)) as (b' & j' & -> & E); [rewrite length_insert; lia|].
    exists b', j'. split; [done|]. rewrite E, (take_write _ _ _ (firstn j b)) by (done || lia). by rewrite <- app_assoc.
Qed.

(** The bytes before the index are not special, and there is one at the index. *)
Lemma scan_meta_spec s : forall i, s <> "" ->
  exists k, scan_meta s i = i + k /\ k < String.length s /\ escape_meta (stake k s) = stake k s /\
    escape_meta s = stake k s +:+ escape_meta (sdrop k s).
Proof.
  induction s as [|c [|d s] IH]; intros i Hs; [done|exists 0; simpl; repeat split; lia|].
  change (scan_meta (String c (String d s)) i) with (if special c then i else scan_meta (String d s) (S i)).
  destruct (special c) eqn:E; [exists 0; simpl; repeat split; lia|].
  destruct (IH (S i)) as (k & -> & Hk & H1 & H2); [done|].
  rewrite special_byte_spec in E. exists (S k). split; [lia|]. split; [simpl in *; lia|]. split.
  - change (stake (S k) (String c (String d s))) with (String c (stake k (String d s))).
    remember (String d s) as t. simpl. by rewrite E, H1.
  - change (stake (S k) (String c (String d s))) with (String c (stake k (String d s))).
    change (sdrop (S k) (String c (String d s))) with (sdrop k (String d s)).
    remember (String d s) as t. simpl. by rewrite E, H2.
Qed.

Lemma length_list_ascii s : length (String.list_ascii_of_string s) = String.length s.
Proof. induction s as [|c s IH]; [done|]. simpl. by rewrite IH. Qed.

Lemma list_ascii_app s t : String.list_ascii_of_string (s +:+ t) = String.list_ascii_of_string s ++ String.list_ascii_of_string t.
Proof. induction s as [|c s IH]; [done|]. simpl. by rewrite IH. Qed.

(** Every name is escaped without a write outside of the buffer, and the result is
    the name with a backslash before each byte that has a meaning in patterns. *)
Theorem quoteMeta_spec s : quoteMeta s = Ok (escape_meta s).
Proof.
  unfold quoteMeta. destruct (decide (s = "")) as [->|Hs]; [done|].
  destruct (scan_meta_spec s 0 Hs) as (k & -> & Hk & _ & E). simpl.
  assert (String.length s <=? k = false) as -> by (apply Nat.leb_gt; lia).
  assert (String.length (stake k s) = k) as Hlen by (rewrite length_stake; lia).
  assert (String.length (sdrop k s) = String.length s - k) as Hlen2 by (rewrite length_sdrop; lia).
  destruct (quote_loop_spec (sdrop k s)
    (String.list_ascii_of_string (stake k s) ++ List.repeat Ascii.zero (2 * String.length s - k - k)) k) as (b & j & Hb & Ht).
  { rewrite length_app, length_list_ascii, Hlen, repeat_length, Hlen2. lia. }
  cbn [Nat.mul] in Hb. simpl in Hb. rewrite Hb. cbn [rbind]. rewrite Ht.
  rewrite firstn_app, length_list_ascii, Hlen, Nat.sub_diag, firstn_O, app_nil_r.
  rewrite (firstn_all2 (String.list_ascii_of_string _)) by (rewrite length_list_ascii; lia).
  by rewrite <- list_ascii_app, <- E, String.string_of_list_ascii_of_string.
Qed.

(** Bytes that keep their meaning. *)
Fixpoint no_glob (s : string) : bool :=
  match s with
  | "" => true
  | String c s => negb (existsb (Ascii.eqb c) ["*"; "["; "\"]%char) && no_glob s
  end.

(** A name without [*], [[] and backslash is the one file that its pattern includes. *)
Lemma escape_meta_matches s : no_glob s = true -> forall name, matches (escape_meta s) name <-> name = s.
Proof.
  induction s as [|c s IH]; intros Hg name; [split; [by inversion 1|intros ->; constructor]|].
  simpl in *. apply andb_true_iff in Hg as [Hc Hg]. specialize (IH Hg).
  rewrite !orb_false_r in *. destruct (escaped_byte c) eqn:E.
  - split.
    + inversion 1; simplify_eq; try done. f_equal. by apply IH.
    + intros ->. apply M_escaped. by apply IH.
  - assert (meta_byte c = false) as Hm.
    { unfold meta_byte, escaped_byte in *. simpl in *. rewrite !orb_false_r in *.
      apply negb_true_iff in Hc. repeat (apply orb_false_iff in Hc as [? Hc]). repeat (apply orb_false_iff in E as [? E]).
      by repeat (apply orb_false_iff; split). }
    split.
    + inversion 1; simplify_eq; try done. f_equal. by apply IH.
    + intros ->. apply M_literal; [done|]. by apply IH.
Qed.

(** A sequence of requests, and their answers. *)
Fixpoint serve (fs : list Factory) (lsc : LocalStateCache) : list State :=
  match fs with
  | [] => []
  | f :: fs => let '(lsc, st) := getOrConstruct f lsc in st :: serve fs lsc
  end.

Definition key_of (f : Factory) : option string :=
  match f with Preconstructed _ => None | LocalF f => Some (sharedKeyHint f) end.

(** When keys identify what is uploaded, the cache cannot be observed. *)
Lemma serve_coherent fs lsc :
  (forall f g k, f ∈ fs -> g ∈ fs -> key_of f = Some k -> key_of g = Some k -> Construct f = Construct g) ->
  (forall f k st, f ∈ fs -> key_of f = Some k -> lsc !! k = Some st -> st = Construct f) ->
  serve fs lsc = List.map Construct fs.
Proof.
  revert lsc. induction fs as [|f fs IH]; intros lsc Hk Hc; [done|]. simpl.
  assert (forall lsc' : gmap string State, (forall g k st, g ∈ fs -> key_of g = Some k -> lsc' !! k = Some st -> st = Construct g) ->
    serve fs lsc' = List.map Construct fs) as Hrest.
  { intros lsc' Hc'. apply IH; [|done]. intros g h k Hg Hh. apply Hk; by right. }
  destruct f as [s|f]; simpl.
  - rewrite Hrest; [done|]. intros g k st Hg. apply Hc. by right.
  - destruct (lsc !! sharedKeyHint f) as [st|] eqn:E.
    + rewrite Hrest; [f_equal; apply (Hc (LocalF f) (sharedKeyHint f)); [by left|done..]|].
      intros g k st' Hg. apply Hc. by right.
    + rewrite Hrest; [done|]. intros g k st Hg Hgk. destruct (decide (k = sharedKeyHint f)) as [->|Hne].
      * rewrite lookup_insert_eq. intros [= <-]. apply (Hk (LocalF f) g (sharedKeyHint f)); [by left|by right|done..].
      * rewrite lookup_insert_ne by done. apply Hc; [by right|done].
Qed.
