(* ===== verification/WaitBlock.v ===== *)
(** * What a build exports

    A translation of [earthfile2llb/wait_block.go] and its items, of
    [util/gatewaycrafter], [util/llbutil/dockertag.go] and [platform_name.go], with the
    records of [states/states.go] that describe what is saved.

    Items and blocks are shared between targets, so they live in a store and are known
    by their address.  The three tasks of [Wait] run concurrently in the code and touch
    disjoint parts; here the answer of [Wait] says which are run.  The parser of image
    names ([distribution/reference]) is a class, the gateway that solves states a
    parameter. *)

From stdpp Require Import gmap.
From S2P Require Import Prelude GoStrings Token GoText Platform Llb.

#[local] Open Scope res_scope.

(** ** Docker tags *)

(** [\w], on runes *)
Definition word_rune (r : Z) : bool := in_range 48 57 r || in_range 65 90 r || in_range 97 122 r || Z.eqb r 95.

Definition tag_rune (r : Z) : bool := word_rune r || Z.eqb r 46 || Z.eqb r 45.

(** [ReplaceAllString] with [_] of a class of single runes: each is replaced, the
    others are copied byte by byte. *)
Fixpoint replace_runes (fuel : nat) (keep : Z -> bool) (s : string) : string :=
  match fuel, s with
  | S fuel, String _ _ =>
      let '(r, w) := DecodeRuneInString s in
      (if keep r then stake w s else "_") +:+ replace_runes fuel keep (sdrop w s)
  | _, _ => ""
  end.

(** The replacement at the beginning of the text only. *)
Definition replace_first (keep : Z -> bool) (s : string) : string :=
  match s with
  | "" => ""
  | _ => let '(r, w) := DecodeRuneInString s in if keep r then s else "_" +:+ sdrop w s
  end.

Definition DockerTagSafe (tag : string) : string :=
  match tag with
  | "" => "latest"
  | _ =>
      match replace_first word_rune (stake 128 tag) with
      | String c (String _ _ as rest) => String c (replace_runes (String.length rest) tag_rune rest)
      | newTag => newTag
      end
  end.

(** ** Image names *)

Class ImageNames : Type := {
  Named : Type;
  ParseNormalizedNamed : string -> res Named;
  TagNameOnly : Named -> Named;
  Tag : Named -> option string;
  Named_String : Named -> string;
  WithTag : Named -> string -> res Named;
  FamiliarString : Named -> string }.

Definition PlatformSpecificImageName `{Platforms} `{ImageNames} (imgName : string) (platform : Plat.Platform) : res string :=
  let platformStr := Plat.Platform_String platform in
  let platformStr := if String.eqb platformStr "" then "native" else platformStr in
  match ParseNormalizedNamed imgName with
  | Ok r =>
      match Tag (TagNameOnly r) with
      | None => Err ("not tagged " +:+ Named_String (TagNameOnly r) +:+ ": %!w(<nil>)")
      | Some tag =>
          let platformTag := DockerTagSafe (tag +:+ "_" +:+ platformStr) in
          match WithTag r platformTag with
          | Ok r2 => Ok (FamiliarString r2)
          | Err e => Err ("with tag " +:+ Named_String r +:+ " - " +:+ platformTag +:+ ": " +:+ e)
          | NoFuel => NoFuel
          end
      end
  | Err e => Err ("parse " +:+ imgName +:+ ": " +:+ e)
  | NoFuel => NoFuel
  end.

(** ** What is saved *)

Record SaveLocal : Type := mkSaveLocal { DestPath : string; ArtifactPath : string; Index : nat; sl_IfExists : bool }.

Record SaveImage : Type := mkSaveImage {
  si_State : State; si_Platform : Plat.Platform; si_Image : Image; DockerTag : string; HasPushDependencies : bool;
  CacheHint : bool; InsecurePush : bool; ForceSave : bool; CheckDuplicate : bool; NoManifestList : bool; Push : bool;
  HasPlatform : bool; SkipBuilder : bool }.

(** The items, with the part of their converter that is read: the name of its target,
    its identifier, and whether the local registry is used. *)
Record ItemOwner : Type := mkOwner { ow_target : string; ow_ID : string; ow_UseLocalRegistry : bool; ow_session : string }.

Record saveImageWaitItem : Type := mkImageItem {
  ii_owner : ItemOwner; ii_si : SaveImage; allowPush : bool; doPush : bool; localExport : bool }.

Inductive WaitItem : Type :=
  | WSaveImage (i : saveImageWaitItem)
  | WSaveLocal (owner : ItemOwner) (sl : SaveLocal) (localExport : bool)
  | WState (owner : ItemOwner).

Definition newSaveImage (si : SaveImage) (c : ItemOwner) (allowPush localExport : bool) : WaitItem :=
  WSaveImage (mkImageItem c si allowPush false localExport).

Definition newSaveArtifactLocal (sl : SaveLocal) (c : ItemOwner) (localExport : bool) : WaitItem := WSaveLocal c sl localExport.

Definition newStateWaitItem (c : ItemOwner) : WaitItem := WState c.

Definition SetDoSave (w : WaitItem) : WaitItem :=
  match w with
  | WSaveImage i =>
      if String.eqb (DockerTag (ii_si i)) "" then w
      else WSaveImage (mkImageItem (ii_owner i) (ii_si i) (allowPush i) (doPush i) true)
  | WSaveLocal c sl _ => WSaveLocal c sl true
  | WState _ => w
  end.

Definition SetDoPush (w : WaitItem) : WaitItem :=
  match w with
  | WSaveImage i =>
      if String.eqb (DockerTag (ii_si i)) "" then w
      else WSaveImage (mkImageItem (ii_owner i) (ii_si i) (allowPush i) (allowPush i) (localExport i))
  | _ => w
  end.

(** ** Blocks *)

Record waitBlock : Type := mkBlock {
  seenItems : gset nat; items : list nat; called : bool; pushCalled : bool; localExportCalled : bool }.

Record Store : Type := mkStore { st_items : gmap nat WaitItem; st_blocks : gmap nat waitBlock }.

Definition empty_block : waitBlock := mkBlock ∅ [] false false false.

(** A new object gets an address that is not in use. *)
Definition newWaitBlock (s : Store) : Store * nat :=
  let a := fresh (dom (st_blocks s)) in (mkStore (st_items s) (<[a := empty_block]> (st_blocks s)), a).

Definition alloc_item (w : WaitItem) (s : Store) : Store * nat :=
  let a := fresh (dom (st_items s)) in (mkStore (<[a := w]> (st_items s)) (st_blocks s), a).

(** A method of every item of a list. *)
Definition each_item (f : WaitItem -> WaitItem) (l : list nat) (s : Store) : Store :=
  mkStore (fold_left (fun m a => alter f a m) l (st_items s)) (st_blocks s).

Definition block_items (b : nat) (s : Store) : list nat :=
  match st_blocks s !! b with Some wb => items wb | None => [] end.

Definition SetDoSaves (b : nat) (s : Store) : Store := each_item SetDoSave (block_items b s) s.

Definition SetDoPushes (b : nat) (s : Store) : Store := each_item SetDoPush (block_items b s) s.

Definition AddItem (b a : nat) (s : Store) : Store :=
  mkStore (st_items s)
    (alter (fun wb => if decide (a ∈ seenItems wb) then wb
                      else mkBlock ({[a]} ∪ seenItems wb) (items wb ++ [a]) (called wb) (pushCalled wb) (localExportCalled wb))
       b (st_blocks s)).

Inductive task : Type := TSaveImages | TSaveArtifactLocal | TWaitStates.

(** [Wait] up to the tasks it starts. *)
Definition block_Wait (push export : bool) (wb : waitBlock) : waitBlock * list task :=
  let shortCircuit := called wb in
  let shortCircuit := if push && negb (pushCalled wb) then false else shortCircuit in
  let shortCircuit := if export && negb (localExportCalled wb) then false else shortCircuit in
  (mkBlock (seenItems wb) (items wb) true (push || pushCalled wb) (export || localExportCalled wb),
   if shortCircuit then []
   else [TSaveImages] ++ (if export then [TSaveArtifactLocal] else []) ++ [TWaitStates]).

(** ** The gateway crafter *)

Section Crafter.
(** References that the gateway has solved. *)
Context {Ref : Type}.

(** [AddRef] and [AddMeta] write the maps of the result; a nil reference is not added. *)
Record GatewayCrafter : Type := mkCrafter { gc_refs : gmap string Ref; gc_meta : gmap string string }.

Definition NewGatewayCrafter : GatewayCrafter := mkCrafter ∅ ∅.

Definition AddRef (k : string) (ref : option Ref) (gc : GatewayCrafter) : GatewayCrafter :=
  match ref with None => gc | Some r => mkCrafter (<[k := r]> (gc_refs gc)) (gc_meta gc) end.

Definition AddMeta (k v : string) (gc : GatewayCrafter) : GatewayCrafter :=
  mkCrafter (gc_refs gc) (<[k := v]> (gc_meta gc)).

Definition refKey (refID : nat) : string := "image-" +:+ fmt_d refID.
Definition refPrefix (refID : nat) : string := "ref/" +:+ refKey refID.

(** [exptypes.ExporterImageConfigKey] *)
Definition ExporterImageConfigKey : string := "containerimage.config".

(** The JSON of an image; that it can be written is a parameter. *)
Variable marshal_image : Image -> res string.

Definition AddPushImageEntry (ref : option Ref) (refID : nat) (imageName : string) (shouldPush insecurePush : bool)
    (imageConfig : Image) (platformStr : option string) (gc : GatewayCrafter) : res (GatewayCrafter * string) :=
  match marshal_image imageConfig with
  | Ok config =>
      let gc := AddRef (refKey refID) ref gc in
      let gc := AddMeta (refPrefix refID +:+ "/image.name") imageName gc in
      let gc := if shouldPush then
                  let gc := AddMeta (refPrefix refID +:+ "/export-image-push") "true" gc in
                  if insecurePush then AddMeta (refPrefix refID +:+ "/insecure-push") "true" gc else gc
                else gc in
      let gc := AddMeta (refPrefix refID +:+ "/" +:+ ExporterImageConfigKey) config gc in
      let gc := match platformStr with Some p => AddMeta (refPrefix refID +:+ "/platform") p gc | None => gc end in
      Ok (gc, refPrefix refID)
  | Err e => Err ("marshal save image config: " +:+ e)
  | NoFuel => NoFuel
  end.

(** ** The export coordinator *)

Record imageEntry : Type := mkImageEntry { ie_localImage : string; ie_manifest : option (string * Plat.Platform) }.

Record ExportCoordinator : Type := mkCoordinator {
  imageEntries : gmap string imageEntry; localOutputSummary : list (string * string * string); imgIndex : nat }.

Definition NewExportCoordinator : ExportCoordinator := mkCoordinator ∅ [] 0.

Definition AddImage (sessionID localImage : string) (manifest : option (string * Plat.Platform)) (ec : ExportCoordinator)
    : ExportCoordinator * string :=
  let k := "sess-" +:+ sessionID +:+ "/pullping:img-" +:+ fmt_d (imgIndex ec) in
  (mkCoordinator (<[k := mkImageEntry localImage manifest]> (imageEntries ec)) (localOutputSummary ec) (S (imgIndex ec)), k).

Definition AddLocalOutputSummary (target dockerTag salt : string) (ec : ExportCoordinator) : ExportCoordinator :=
  mkCoordinator (imageEntries ec) (localOutputSummary ec ++ [(target, dockerTag, salt)]) (imgIndex ec).

(** ** [saveImages] *)

(** The first loop: which items are exported, whether a tag is of several platforms. *)
Record collected : Type := mkCollected {
  isMultiPlatform : gmap string bool; noManifestListImgs : gset string; imageWaitItems : list saveImageWaitItem }.

Definition errNotAllPlatform (tag : string) : string :=
  "SAVE IMAGE " +:+ tag +:+ " is defined multiple times, but not all commands defined a --platform value".
Definition errDeclaredTwice (tag : string) : string :=
  "SAVE IMAGE " +:+ tag +:+ " was already declared (none had --platform values)".
Definition errNoManifestList (tag : string) : string :=
  "cannot save image " +:+ tag +:+ " defined multiple times, but declared as SAVE IMAGE --no-manifest-list".

Definition collect_check (c : collected) (si : SaveImage) : res unit :=
  match isMultiPlatform c !! DockerTag si with
  | None => Ok tt
  | Some hasPlatform =>
      if negb (Bool.eqb (HasPlatform si) hasPlatform) then Err (errNotAllPlatform (DockerTag si))
      else if negb hasPlatform then Err (errDeclaredTwice (DockerTag si))
      else if decide (DockerTag si ∈ noManifestListImgs c) then Err (errNoManifestList (DockerTag si))
      else Ok tt
  end.

Definition collect_add (c : collected) (i : saveImageWaitItem) : collected :=
  let tag := DockerTag (ii_si i) in
  let noManifest := HasPlatform (ii_si i) && NoManifestList (ii_si i) in
  mkCollected (<[tag := HasPlatform (ii_si i) && negb (NoManifestList (ii_si i))]> (isMultiPlatform c))
    (if noManifest then {[tag]} ∪ noManifestListImgs c else noManifestListImgs c) (imageWaitItems c ++ [i]).

Fixpoint collect (l : list WaitItem) (c : collected) : res collected :=
  match l with
  | [] => Ok c
  | WSaveImage i :: l =>
      if negb (doPush i) && negb (localExport i) then collect l c
      else let* _ := collect_check c (ii_si i) in collect l (collect_add c i)
  | _ :: l => collect l c
  end.

Context `{Platforms} `{ImageNames}.

(** [llbutil.StateToRef] *)
Variable StateToRef : State -> res (option Ref).

Record saving : Type := mkSaving {
  sv_gc : GatewayCrafter; sv_ec : ExportCoordinator; sv_refID : nat; platformImgNames : gset string;
  singPlatImgNames : gset string; tarPrefixes : list string; tarImages : list string }.

Definition multi (m : gmap string bool) (si : SaveImage) : bool := default false (m !! DockerTag si).

Definition errSamePlatform (si : SaveImage) : string :=
  "image " +:+ DockerTag si +:+ " is defined multiple times for the same platform (" +:+
  Plat.Platform_String (si_Platform si) +:+ ")".
Definition errSameDefault (si : SaveImage) : string :=
  "image " +:+ DockerTag si +:+ " is defined multiple times for the same default platform".

(** The name of the image for its platform, and the check for duplicates. *)
Definition check_duplicate (m : gmap string bool) (si : SaveImage) (s : saving) : res (string * saving) :=
  let checked := CheckDuplicate si && negb (String.eqb (DockerTag si) "") in
  if multi m si then
    let* name := PlatformSpecificImageName (DockerTag si) (si_Platform si) in
    if checked then
      if decide (name ∈ platformImgNames s) then Err (errSamePlatform si)
      else Ok (name, mkSaving (sv_gc s) (sv_ec s) (sv_refID s) ({[name]} ∪ platformImgNames s) (singPlatImgNames s)
                       (tarPrefixes s) (tarImages s))
    else Ok (name, s)
  else if checked then
    if decide (DockerTag si ∈ singPlatImgNames s) then Err (errSameDefault si)
    else Ok ("", mkSaving (sv_gc s) (sv_ec s) (sv_refID s) (platformImgNames s) ({[DockerTag si]} ∪ singPlatImgNames s)
                   (tarPrefixes s) (tarImages s))
  else Ok ("", s).

(** What is written for an image that goes to the local docker. *)
Definition export_locally (m : gmap string bool) (i : saveImageWaitItem) (ref : option Ref) (platformImgName prefix : string)
    (s : saving) : res saving :=
  let si := ii_si i in
  let c := ii_owner i in
  let summary := AddLocalOutputSummary (ow_target c) (DockerTag si) (ow_ID c) in
  if multi m si then
    let* p := AddPushImageEntry ref (sv_refID s) platformImgName false false (si_Image si) None (sv_gc s) in
    let '(gc, prefix) := (p : _ * _) in
    let '(ec, id) := AddImage (ow_session c) (DockerTag si) (Some (platformImgName, si_Platform si)) (sv_ec s) in
    if ow_UseLocalRegistry c then
      Ok (mkSaving (AddMeta (prefix +:+ "/export-image-local-registry") id gc) (summary ec) (S (sv_refID s))
            (platformImgNames s) (singPlatImgNames s) (tarPrefixes s) (tarImages s))
    else
      Ok (mkSaving (AddMeta (prefix +:+ "/export-image-manifest-key") id (AddMeta (prefix +:+ "/export-image") "true" gc))
            (summary ec) (S (sv_refID s)) (platformImgNames s) (singPlatImgNames s)
            (tarPrefixes s ++ [prefix]) (tarImages s ++ [id]))
  else if ow_UseLocalRegistry c then
    let '(ec, id) := AddImage (ow_session c) (DockerTag si) None (sv_ec s) in
    Ok (mkSaving (AddMeta (prefix +:+ "/export-image-local-registry") id (sv_gc s)) (summary ec) (sv_refID s)
          (platformImgNames s) (singPlatImgNames s) (tarPrefixes s) (tarImages s))
  else
    Ok (mkSaving (AddMeta (prefix +:+ "/export-image") "true" (sv_gc s)) (summary (sv_ec s)) (sv_refID s)
          (platformImgNames s) (singPlatImgNames s) (tarPrefixes s) (tarImages s)).

Definition save_one (m : gmap string bool) (i : saveImageWaitItem) (s : saving) : res saving :=
  let si := ii_si i in
  match StateToRef (si_State si) with
  | Ok ref =>
      let* p := check_duplicate m si s in
      let '(name, s) := (p : _ * _) in
      let platformBytes := if multi m si then Some (Plat.Platform_String (si_Platform si)) else None in
      let* p := AddPushImageEntry ref (sv_refID s) (DockerTag si) (doPush i) (InsecurePush si) (si_Image si)
        platformBytes (sv_gc s) in
      let '(gc, prefix) := (p : _ * _) in
      let s := mkSaving gc (sv_ec s) (S (sv_refID s)) (platformImgNames s) (singPlatImgNames s) (tarPrefixes s) (tarImages s) in
      if localExport i then export_locally m i ref name prefix s else Ok s
  | Err e => Err ("failed to solve image required for " +:+ DockerTag si +:+ ": " +:+ e)
  | NoFuel => NoFuel
  end.

Fixpoint save_loop (m : gmap string bool) (l : list saveImageWaitItem) (s : saving) : res saving :=
  match l with
  | [] => Ok s
  | i :: l => let* s := save_one m i s in save_loop m l s
  end.

(** What [saveImages] asks the gateway to export: nothing when there is no image. *)
Definition saveImages (l : list WaitItem) (ec : ExportCoordinator) : res (option GatewayCrafter * ExportCoordinator) :=
  let* c := collect l (mkCollected ∅ ∅ []) in
  match imageWaitItems c with
  | [] => Ok (None, ec)
  | images =>
      let* s := save_loop (isMultiPlatform c) images (mkSaving NewGatewayCrafter ec 0 ∅ ∅ [] []) in
      let waitFor := Join (tarImages s) " " in
      let gc := fold_left (fun gc prefix => AddMeta (prefix +:+ "/export-image-wait-for") waitFor gc) (tarPrefixes s) (sv_gc s) in
      Ok (Some gc, sv_ec s)
  end.

End Crafter.

(** * Facts about exports

    Docker tags are made valid; SAVE IMAGE commands of a block are accepted exactly when
    they do not contradict each other; what the gateway is asked to push is what was
    saved with --push; flags of items only grow, and a block starts its tasks whenever a
    flag is raised for the first time. *)

From S2P Require Import Numbers RuneFacts.

#[local] Open Scope res_scope.

(** ** Docker tags *)

Definition word_byte (c : ascii) : bool := word_rune (byteZ c).
Definition tag_byte (c : ascii) : bool := tag_rune (byteZ c).

(** A tag that docker accepts: [\w][\w.-]{0,127} *)
Definition valid_tag (t : string) : bool :=
  match t with
  | "" => false
  | String c t => word_byte c && sall tag_byte t && (String.length t <? 128)
  end.

Lemma word_ascii r : word_rune r = true -> (r < 128)%Z.
Proof. unfold word_rune, in_range. intros H. to_prop. lia. Qed.

Lemma tag_ascii r : tag_rune r = true -> (r < 128)%Z.
Proof. unfold tag_rune. intros H. destruct (word_rune r) eqn:E; [by apply word_ascii|]. to_prop. lia. Qed.

Lemma replace_runes_tag n s :
  sall tag_byte (replace_runes n tag_rune s) = true /\ String.length (replace_runes n tag_rune s) <= String.length s.
Proof.
  revert s. induction n as [|n IH]; intros s; [by split; [destruct s|destruct s; simpl; lia]|]. destruct s as [|c s]; [done|].
  cbn [replace_runes]. destruct (DecodeRuneInString (String c s)) as [r w] eqn:E.
  destruct (decode_spec (String c s) r w ltac:(done) E) as (_ & Hw & Hr). destruct (IH (sdrop w (String c s))) as [IH1 IH2].
  rewrite length_sdrop in IH2. destruct (tag_rune r) eqn:Et.
  - destruct (Hr (tag_ascii _ Et)) as (-> & c' & s' & [= <- <-] & Hc). clear E.
    change (tag_byte c && sall tag_byte (replace_runes n tag_rune (sdrop 1 (String c s))) = true /\
            S (String.length (replace_runes n tag_rune (sdrop 1 (String c s)))) <= S (String.length s)).
    rewrite IH1. unfold tag_byte at 1. rewrite Hc, Et. simpl in *. split; [done|]. lia.
  - clear E. change (sall tag_byte (replace_runes n tag_rune (sdrop w (String c s))) = true /\
                     S (String.length (replace_runes n tag_rune (sdrop w (String c s)))) <= S (String.length s)).
    split; [done|]. simpl in *. lia.
Qed.

Lemma replace_runes_id n s : String.length s <= n -> sall tag_byte s = true -> replace_runes n tag_rune s = s.
Proof.
  revert s. induction n as [|n IH]; intros s Hn Hs; destruct s as [|c s]; simpl in Hn; try done; [lia|].
  cbn [replace_runes]. apply andb_true_iff in Hs as [Hc Hs]. unfold tag_byte in Hc.
  rewrite decode_ascii by (by apply tag_ascii). rewrite Hc. change (String c (replace_runes n tag_rune (sdrop 0 s)) = String c s). by rewrite sdrop_0, IH by (try done; lia).
Qed.

(** Whatever text it is given, [DockerTagSafe] makes a tag that docker accepts, of at
    most 128 bytes, and it leaves valid tags as they are. *)
Theorem DockerTagSafe_valid tag :
  valid_tag (DockerTagSafe tag) = true /\ (valid_tag tag = true -> DockerTagSafe tag = tag).
Proof.
  split.
  - unfold DockerTagSafe. destruct tag as [|c0 tag]; [done|]. set (t := stake 128 (String c0 tag)).
    assert (String.length t <= 128) as Ht by (unfold t; rewrite length_stake; lia).
    assert (match replace_first word_rune t with
            | String c rest => word_byte c = true /\ String.length rest < 128
            | "" => False
            end) as Hf.
    { unfold replace_first. destruct t as [|c t'] eqn:E; [done|]. destruct (DecodeRuneInString (String c t')) as [r w] eqn:Ed.
      destruct (decode_spec (String c t') r w ltac:(done) Ed) as (_ & Hw & Hr). destruct (word_rune r) eqn:Ew.
      - destruct (Hr (word_ascii _ Ew)) as (_ & c' & s' & [= <- <-] & Hc). unfold word_byte. rewrite Hc. simpl in Ht. split; [done|lia].
      - change (word_byte "_" = true /\ String.length (sdrop w (String c t')) < 128). rewrite length_sdrop. split; [done|lia]. }
    destruct (replace_first word_rune t) as [|c rest]; [done|]. destruct Hf as [Hc Hl].
    assert (forall rest', sall tag_byte rest' = true -> String.length rest' <= String.length rest -> valid_tag (String c rest') = true) as Hv.
    { intros rest' Hr Hl'. simpl. rewrite Hc, Hr. simpl. apply Nat.ltb_lt. lia. }
    destruct rest as [|d rest]; [by apply Hv|]. apply Hv; apply replace_runes_tag.
  - destruct tag as [|c tag]; [done|]. cbn [valid_tag]. intros [[Hc Ht]%andb_true_iff Hl%Nat.ltb_lt]%andb_true_iff.
    unfold DockerTagSafe. rewrite stake_all by (simpl; lia). unfold replace_first.
    rewrite decode_ascii by (by apply word_ascii). unfold word_byte in Hc. rewrite Hc.
    destruct tag as [|d tag]; [done|]. by rewrite replace_runes_id.
Qed.

(** ** Which SAVE IMAGE commands contradict each other *)

Definition tag_of (i : saveImageWaitItem) : string := DockerTag (ii_si i).

(** Saved for a platform, and for a manifest list. *)
Definition listed (i : saveImageWaitItem) : bool := HasPlatform (ii_si i) && negb (NoManifestList (ii_si i)).

(** The images of a block that are pushed or exported. *)
Fixpoint exported (l : list WaitItem) : list saveImageWaitItem :=
  match l with
  | [] => []
  | WSaveImage i :: l => if negb (doPush i) && negb (localExport i) then exported l else i :: exported l
  | _ :: l => exported l
  end.

(** [y] may be saved after [x]. *)
Definition may_follow (x y : saveImageWaitItem) : Prop :=
  tag_of x = tag_of y -> listed x = true /\ HasPlatform (ii_si y) = true.

(** No two commands contradict each other. *)
Fixpoint compatible (l : list saveImageWaitItem) : Prop :=
  match l with
  | [] => True
  | x :: l => Forall (may_follow x) l /\ compatible l
  end.

Lemma compatible_snoc l y : compatible (l ++ [y]) <-> compatible l /\ Forall (fun x => may_follow x y) l.
Proof.
  induction l as [|x l IH]; simpl; [by repeat split; constructor|].
  rewrite Forall_app, !Forall_cons_iff, IH. pose proof (List.Forall_nil (may_follow x)). tauto.
Qed.

Lemma compatible_prefix l k : compatible (l ++ k) -> compatible l.
Proof. induction l as [|x l IH]; simpl; [done|]. rewrite Forall_app. intros [[? ?] ?]. auto. Qed.

Record collect_inv (c : collected) : Prop := mkCollectInv {
  inv_none t : isMultiPlatform c !! t = None -> Forall (fun x => tag_of x <> t) (imageWaitItems c);
  inv_true t : isMultiPlatform c !! t = Some true ->
    Forall (fun x => tag_of x = t -> listed x = true) (imageWaitItems c) /\ Exists (fun x => tag_of x = t) (imageWaitItems c);
  inv_false t : isMultiPlatform c !! t = Some false -> Exists (fun x => tag_of x = t /\ listed x = false) (imageWaitItems c);
  inv_nomanifest t : t ∈ noManifestListImgs c -> isMultiPlatform c !! t = Some false }.

Lemma collect_check_spec c i :
  collect_inv c ->
  match collect_check c (ii_si i) with
  | Ok _ => Forall (fun x => may_follow x i) (imageWaitItems c)
  | Err e => ~ Forall (fun x => may_follow x i) (imageWaitItems c) /\
             (e = errNotAllPlatform (tag_of i) \/ e = errDeclaredTwice (tag_of i))
  | NoFuel => False
  end.
Proof.
  intros [Hn Ht Hf Hm]. unfold collect_check. fold (tag_of i).
  destruct (isMultiPlatform c !! tag_of i) as [b|] eqn:E.
  - destruct (Bool.eqb_spec (HasPlatform (ii_si i)) b) as [Eb|Eb]; cbn [negb].
    + destruct b; cbn [negb].
      * rewrite decide_False by (intros Hin; specialize (Hm _ Hin); congruence).
        eapply List.Forall_impl; [|exact (proj1 (Ht _ E))]. intros x Hx Hxi. split; [by apply Hx|done].
      * split; [|by right]. intros Hall. apply Hf, Exists_exists in E as (x & Hx & Hxt & Hl).
        rewrite Forall_forall in Hall. destruct (Hall x Hx Hxt). congruence.
    + split; [|by left]. intros Hall. destruct b.
      * destruct (Ht _ E) as [_ (x & Hx & Hxt)%Exists_exists]. rewrite Forall_forall in Hall.
        destruct (Hall x Hx Hxt). congruence.
      * apply Hf, Exists_exists in E as (x & Hx & Hxt & Hl).
        rewrite Forall_forall in Hall. destruct (Hall x Hx Hxt). congruence.
  - eapply List.Forall_impl; [|exact (Hn _ E)]. intros x Hx Hxi. congruence.
Qed.

Lemma collect_add_inv c i :
  collect_inv c -> Forall (fun x => may_follow x i) (imageWaitItems c) -> collect_inv (collect_add c i).
Proof.
  intros [Hn Ht Hf Hm] Hall. unfold collect_add. fold (tag_of i). fold (listed i).
  split; cbn [isMultiPlatform noManifestListImgs imageWaitItems]; intros t.
  - destruct (decide (t = tag_of i)) as [->|Hne]; [by rewrite lookup_insert_eq|]. rewrite lookup_insert_ne by done.
    intros E. apply Forall_app. split; [by apply Hn|]. constructor; [congruence|constructor].
  - destruct (decide (t = tag_of i)) as [->|Hne].
    + rewrite lookup_insert_eq. intros [= Hi]. split.
      * apply Forall_app. split; [|by constructor]. eapply List.Forall_impl; [|exact Hall]. intros x Hx Hxi. by apply Hx.
      * apply Exists_app. right. by constructor.
    + rewrite lookup_insert_ne by done. intros E. destruct (Ht _ E) as [H1 H2]. split.
      * apply Forall_app. split; [done|]. constructor; [congruence|constructor].
      * apply Exists_app. by left.
  - destruct (decide (t = tag_of i)) as [->|Hne].
    + rewrite lookup_insert_eq. intros [= Hi]. apply Exists_app. right. by constructor.
    + rewrite lookup_insert_ne by done. intros E. apply Exists_app. left. by apply Hf.
  - assert (t ∈ noManifestListImgs c -> t <> tag_of i) as Hold.
    { intros Hin ->. apply Hm, Hf, Exists_exists in Hin as (x & Hx & Hxt & Hl).
      rewrite Forall_forall in Hall. destruct (Hall x Hx Hxt). congruence. }
    intros Hin. destruct (decide (t = tag_of i)) as [->|Hne].
    + rewrite lookup_insert_eq. f_equal. unfold listed. destruct (HasPlatform (ii_si i)); simpl in *; [|by apply Hold in Hin].
      destruct (NoManifestList (ii_si i)); [done|]. by apply Hold in Hin.
    + rewrite lookup_insert_ne by done. apply Hm. destruct (HasPlatform _ && NoManifestList _); [set_solver|done].
Qed.

Lemma collect_from l c :
  collect_inv c -> compatible (imageWaitItems c) ->
  match collect l c with
  | Ok c' => imageWaitItems c' = imageWaitItems c ++ exported l /\ compatible (imageWaitItems c ++ exported l)
  | Err e => ~ compatible (imageWaitItems c ++ exported l) /\
             exists tag, e = errNotAllPlatform tag \/ e = errDeclaredTwice tag
  | NoFuel => False
  end.
Proof.
  revert c. induction l as [|w l IH]; intros c Hc Hp; simpl; [by rewrite app_nil_r|].
  destruct w as [i|o sl b|o]; simpl; [|by apply IH..]. destruct (negb (doPush i) && negb (localExport i)); [by apply IH|].
  pose proof (collect_check_spec c i Hc) as Hk. destruct (collect_check c (ii_si i)) as [[]|e|]; cbn [rbind]; [|split|done].
  - specialize (IH (collect_add c i) (collect_add_inv c i Hc Hk)). cbn [collect_add imageWaitItems] in IH.
    rewrite <- app_assoc in IH. apply IH. by apply compatible_snoc.
  - intros H. change (i :: exported l) with ([i] ++ exported l) in H. rewrite app_assoc in H. apply compatible_prefix, compatible_snoc in H as [_ H]. by apply Hk.
  - exists (tag_of i). apply Hk.
Qed.

(** The SAVE IMAGE commands of a WAIT block are accepted exactly when none
    contradicts an earlier one of the same tag: a tag may be saved again only for a
    platform, and only when every earlier command was for a platform and without
    --no-manifest-list.  Of the three errors the code has, only two are ever returned. *)
Theorem saveImages_conflicts l :
  match collect l (mkCollected ∅ ∅ []) with
  | Ok c => imageWaitItems c = exported l /\ compatible (exported l)
  | Err e => ~ compatible (exported l) /\ exists tag, e = errNotAllPlatform tag \/ e = errDeclaredTwice tag
  | NoFuel => False
  end.
Proof. apply (collect_from l (mkCollected ∅ ∅ [])); [|done]. by split; intros t; rewrite ?lookup_empty; try done; set_solver. Qed.

(** ** What is pushed *)

(** The metadata keys of an image: [f] is the name of a field. *)
Definition key (id : nat) (f : string) : string := refPrefix id +:+ "/" +:+ f.

Lemma pretty_no_slash (n : nat) : no_byte slash (fmt_d n) = true.
Proof.
  assert (sall is_decimal (fmt_d n) = true) as H by apply pretty_N_decimal. revert H.
  unfold no_byte. apply sall_impl. intros c Hc. destruct (Ascii.eqb_spec c slash); [by subst|done].
Qed.

Lemma key_inj id id' f f' : key id f = key id' f' -> id = id' /\ f = f'.
Proof.
  assert (forall n t, Split (key n t) slash = "ref" :: ("image-" +:+ fmt_d n) :: Split t slash) as Hs.
  { intros n t. unfold key, refPrefix, refKey. rewrite <- !sapp_assoc.
    change ("ref/" +:+ ?x) with ("ref" +:+ String slash x). rewrite Split_app by done. f_equal.
    change ("/" +:+ t) with (String slash t). rewrite (sapp_assoc "image-"). apply Split_app. apply pretty_no_slash. }
  intros E. pose proof (f_equal (fun s => Split s slash) E) as E'. cbv beta in E'. rewrite !Hs in E'.
  injection E' as E1 E2. assert (id = id') as -> by (by apply (inj pretty)). split; [done|].
  unfold key in E. by apply (inj (String.append _)), (inj (String.append "/")) in E.
Qed.

#[local] Hint Resolve pretty_no_slash : core.

Section Pushes.
Context {Ref : Type} (marshal_image : Image -> res string) `{Platforms} `{ImageNames} (StateToRef : State -> res (option Ref)).

Notation crafter := (GatewayCrafter (Ref := Ref)).
Notation state := (saving (Ref := Ref)).

Definition field (gc : crafter) (id : nat) (f : string) : option string := gc_meta gc !! key id f.

Lemma field_AddMeta gc id f v id' f' :
  field (AddMeta (key id f) v gc) id' f' = if decide (id = id' /\ f = f') then Some v else field gc id' f'.
Proof.
  unfold field, AddMeta. cbn [gc_meta]. destruct (decide (id = id' /\ f = f')) as [[-> ->]|Hne]; [apply lookup_insert_eq|].
  rewrite lookup_insert_ne; [done|]. by intros E%key_inj.
Qed.

Lemma field_AddRef k r gc id f : field (AddRef k r gc) id f = field gc id f.
Proof. by destruct r. Qed.

(** Nothing is written for images from number [n] on. *)
Definition unwritten (n : nat) (gc : crafter) : Prop := forall id f, n <= id -> field gc id f = None.

Lemma entry_spec ref id name push insecure img plat gc gc' prefix :
  AddPushImageEntry marshal_image ref id name push insecure img plat gc = Ok (gc', prefix) ->
  prefix = refPrefix id /\ (forall id' f, id' <> id -> field gc' id' f = field gc id' f) /\
  field gc' id "image.name" = Some name /\
  field gc' id "export-image-push" = if push then Some "true" else field gc id "export-image-push".
Proof.
  unfold AddPushImageEntry. destruct (marshal_image img) as [config|e|]; [|done..]. intros [= <- <-].
  change (refPrefix id +:+ "/image.name") with (key id "image.name").
  change (refPrefix id +:+ "/export-image-push") with (key id "export-image-push").
  change (refPrefix id +:+ "/insecure-push") with (key id "insecure-push").
  change (refPrefix id +:+ "/" +:+ ExporterImageConfigKey) with (key id ExporterImageConfigKey).
  change (refPrefix id +:+ "/platform") with (key id "platform").
  split_and!; [done|intros id' f Hid| |]; destruct plat, push, insecure; rewrite !field_AddMeta, ?field_AddRef;
    repeat case_decide; try done; naive_solver.
Qed.

Lemma local_spec m i ref name prefix s s' id :
  export_locally marshal_image m i ref name prefix s = Ok s' -> prefix = refPrefix id -> id < sv_refID s ->
  unwritten (sv_refID s) (sv_gc s) ->
  sv_refID s <= sv_refID s' /\ unwritten (sv_refID s') (sv_gc s') /\
  (forall id' f, id' < sv_refID s -> id' <> id -> field (sv_gc s') id' f = field (sv_gc s) id' f) /\
  (forall id', field (sv_gc s') id' "export-image-push" = field (sv_gc s) id' "export-image-push") /\
  field (sv_gc s') id "image.name" = field (sv_gc s) id "image.name" /\
  (forall p, p ∈ tarPrefixes s' -> p ∈ tarPrefixes s \/ exists id', p = refPrefix id').
Proof.
  unfold export_locally. intros Hx -> Hid Hu. set (n := sv_refID s) in *.
  destruct (multi m (ii_si i)).
  - destruct (AddPushImageEntry _ _ _ _ _ _ _ _ _) as [[gc p]|e|] eqn:Ee; cbn [rbind] in Hx; [|done..].
    apply entry_spec in Ee as (-> & Hother & Hname & Hpush).
    destruct (AddImage _ _ _ _) as [ec k]. set (k1 := key n "export-image-local-registry").
    assert (exists f1 v1 f2 v2, s' = mkSaving (AddMeta (key n f1) v1 (AddMeta (key n f2) v2 gc)) (sv_ec s') (S n) (platformImgNames s')
        (singPlatImgNames s') (tarPrefixes s') (tarImages s') /\ f1 <> "export-image-push" /\ f2 <> "export-image-push" \/
      s' = mkSaving (AddMeta (key n f1) v1 gc) (sv_ec s') (S n) (platformImgNames s')
        (singPlatImgNames s') (tarPrefixes s') (tarImages s') /\ f1 <> "export-image-push") as Hs.
    { destruct (ow_UseLocalRegistry (ii_owner i)); injection Hx as <-; cbn.
      - exists "export-image-local-registry", k, "", "". right. by split.
      - exists "export-image-manifest-key", k, "export-image", "true". left. by split. }
    assert (forall p, p ∈ tarPrefixes s' -> p ∈ tarPrefixes s \/ exists id', p = refPrefix id') as Htar.
    { destruct (ow_UseLocalRegistry (ii_owner i)); injection Hx as <-; cbn; [by left|].
      intros p [?|Hp]%elem_of_app; [by left|]. right. exists n. by apply list_elem_of_singleton in Hp. }
    assert (sv_refID s' = S n /\ (forall id' f, id' <> n -> field (sv_gc s') id' f = field gc id' f) /\
            forall id', field (sv_gc s') id' "export-image-push" = field gc id' "export-image-push") as (Hn & Ho & Hp).
    { destruct Hs as (f1 & v1 & f2 & v2 & [(-> & H1 & H2)|(-> & H1)]); cbn; split_and!; try done; intros;
        rewrite !field_AddMeta; repeat (rewrite decide_False; [|naive_solver]); done. }
    rewrite Hn. split_and!; [lia| | | | |done].
    + intros id' f Hle. rewrite Ho, Hother by lia. apply Hu. lia.
    + intros id' f Hlt _. by rewrite Ho, Hother by lia.
    + intros id'. rewrite Hp. destruct (decide (id' = n)) as [->|]; [done|]. by rewrite Hother.
    + by rewrite Ho, Hother by lia.
  - assert (exists f v, s' = mkSaving (AddMeta (key id f) v (sv_gc s)) (sv_ec s') n (platformImgNames s') (singPlatImgNames s')
      (tarPrefixes s) (tarImages s') /\ f <> "export-image-push" /\ f <> "image.name") as (f & v & -> & Hf1 & Hf2).
    { destruct (ow_UseLocalRegistry (ii_owner i)); [destruct (AddImage _ _ _ _) as [ec k]|]; injection Hx as <-; cbn.
      - by exists "export-image-local-registry", k.
      - by exists "export-image", "true". }
    cbn. split_and!; [done| | | | |by left].
    + intros id' f' Hle. rewrite field_AddMeta, decide_False by (intros [-> _]; lia). by apply Hu.
    + intros id' f' Hlt Hne. by rewrite field_AddMeta, decide_False by (intros [-> _]; done).
    + intros id'. by rewrite field_AddMeta, decide_False by (intros [_ ->]; done).
    + by rewrite field_AddMeta, decide_False by (intros [_ ->]; done).
Qed.

(** Checking for duplicates writes nothing. *)
Lemma duplicate_gc m si s name s' :
  check_duplicate m si s = Ok (name, s') ->
  sv_gc s' = sv_gc s /\ sv_refID s' = sv_refID s /\ tarPrefixes s' = tarPrefixes (Ref := Ref) s.
Proof.
  unfold check_duplicate. intros Hc. destruct (multi m si); [destruct (PlatformSpecificImageName _ _); cbn [rbind] in Hc; [|done..]|];
    repeat case_hyp Hc; by simplify_eq.
Qed.

Lemma save_one_spec m i s s' :
  save_one marshal_image StateToRef m i s = Ok s' -> unwritten (sv_refID s) (sv_gc s) ->
  sv_refID s < sv_refID s' /\ unwritten (sv_refID s') (sv_gc s') /\
  (forall id f, id < sv_refID s -> field (sv_gc s') id f = field (sv_gc s) id f) /\
  field (sv_gc s') (sv_refID s) "image.name" = Some (tag_of i) /\
  (forall id, sv_refID s <= id -> field (sv_gc s') id "export-image-push" =
    if decide (id = sv_refID s) then if doPush i then Some "true" else None else None) /\
  (forall p, p ∈ tarPrefixes s' -> p ∈ tarPrefixes s \/ exists id', p = refPrefix id').
Proof.
  unfold save_one. destruct (StateToRef _) as [ref|e|]; [|done..].
  destruct (check_duplicate m (ii_si i) s) as [[name s1]|e|] eqn:Ed; cbn [rbind]; [|done..].
  apply duplicate_gc in Ed as (Hgc & Hid & Htar). rewrite <- Hgc, <- Hid, <- Htar. clear Hgc Hid Htar s. intros Hx Hu.
  destruct (AddPushImageEntry _ _ _ _ _ _ _ _ _) as [[gc prefix]|e|] eqn:Ee; cbn [rbind] in Hx; [|done..].
  apply entry_spec in Ee as (-> & Hother & Hname & Hpush). set (n := sv_refID s1) in *.
  assert (unwritten (S n) gc) as Hu1 by (intros id f Hle; rewrite Hother by lia; apply Hu; lia).
  assert (forall id, n <= id -> field gc id "export-image-push" =
    if decide (id = n) then if doPush i then Some "true" else None else None) as Hp1.
  { intros id Hle. case_decide as Hd; [subst id; rewrite Hpush; destruct (doPush i); [done|by apply Hu]|]. apply Hu1. lia. }
  destruct (localExport i).
  - destruct (local_spec _ _ _ _ _ _ _ n Hx eq_refl) as (H1 & H2 & H3 & H4 & H5 & H6); [cbn; lia|done|]. cbn in *.
    split_and!; [lia|done| | | |done].
    + intros id f Hlt. rewrite H3, Hother by lia. done.
    + by rewrite H5.
    + intros id Hle. rewrite H4. by apply Hp1.
  - injection Hx as <-. cbn. split_and!; [lia|done| |done|done|by left]. intros id f Hlt. apply Hother. lia.
Qed.

Record pushes_inv (done_ : list saveImageWaitItem) (s : state) : Prop := mkPushesInv {
  pi_unwritten : unwritten (sv_refID s) (sv_gc s);
  pi_only id v : field (sv_gc s) id "export-image-push" = Some v ->
    exists i, In i done_ /\ doPush i = true /\ field (sv_gc s) id "image.name" = Some (tag_of i);
  pi_all i : In i done_ -> doPush i = true ->
    exists id, field (sv_gc s) id "export-image-push" = Some "true" /\ field (sv_gc s) id "image.name" = Some (tag_of i);
  pi_tar p : p ∈ tarPrefixes s -> exists id, p = refPrefix id }.

Lemma save_one_inv m i done_ s s' :
  save_one marshal_image StateToRef m i s = Ok s' -> pushes_inv done_ s -> pushes_inv (done_ ++ [i]) s'.
Proof.
  intros Hx [Hu Honly Hall Htar]. destruct (save_one_spec _ _ _ _ Hx Hu) as (Hlt & Hu' & Hold & Hname & Hpush & Htar').
  assert (forall id f v, field (sv_gc s) id f = Some v -> id < sv_refID s) as Hwritten.
  { intros id f v Hf. destruct (decide (id < sv_refID s)); [done|]. rewrite Hu in Hf by lia. done. }
  split; [done| | |].
  - intros id v Hv. destruct (decide (id < sv_refID s)) as [Hid|Hid].
    + rewrite Hold in Hv by done. destruct (Honly _ _ Hv) as (j & Hj & Hdo & Hnm). exists j.
      rewrite Hold by done. split_and!; [apply in_or_app; by left|done|done].
    + rewrite Hpush in Hv by lia. case_decide as E; [subst id|done]. destruct (doPush i) eqn:Ei; [|done].
      exists i. split_and!; [apply in_or_app; right; by left|done|done].
  - intros j [Hj|[<-|[]]]%in_app_or Hdo.
    + destruct (Hall j Hj Hdo) as (id & H1 & H2). exists id. by rewrite !Hold by (by eapply Hwritten).
    + exists (sv_refID s). rewrite Hpush by lia. rewrite decide_True by done. by rewrite Hdo.
  - intros p [Hp|Hp]%Htar'; [by apply Htar|done].
Qed.

Lemma pushes_none ec : pushes_inv [] (mkSaving NewGatewayCrafter ec 0 ∅ ∅ [] []).
Proof.
  split; [by intros|by intros id v E; unfold field in E; simpl in E; rewrite lookup_empty in E|done|].
  intros p Hp. by apply elem_of_nil in Hp.
Qed.

Lemma save_loop_inv m l done_ s s' :
  save_loop marshal_image StateToRef m l s = Ok s' -> pushes_inv done_ s -> pushes_inv (done_ ++ l) s'.
Proof.
  revert done_ s. induction l as [|i l IH]; intros done_ s; simpl; [intros [= <-]; by rewrite app_nil_r|].
  destruct (save_one _ _ m i s) as [s1|e|] eqn:E; cbn [rbind]; [|done..]. intros Hl Hinv.
  change (i :: l) with ([i] ++ l). rewrite app_assoc. eapply IH; [exact Hl|]. by eapply save_one_inv.
Qed.


End Pushes.

(** ** Items and blocks over time *)

(** What targets do with the shared items and blocks. *)
Inductive op : Type :=
  | ONewBlock
  | ONewImage (si : SaveImage) (c : ItemOwner) (allowPush localExport : bool)
  | ONewLocal (sl : SaveLocal) (c : ItemOwner) (localExport : bool)
  | ONewState (c : ItemOwner)
  | OAddItem (b a : nat)
  | OSetDoSaves (b : nat)
  | OSetDoPushes (b : nat)
  | OItemSave (a : nat)
  | OItemPush (a : nat)
  | OWait (b : nat) (push export : bool).

Definition run (o : op) (s : Store) : Store :=
  match o with
  | ONewBlock => fst (newWaitBlock s)
  | ONewImage si c p e => fst (alloc_item (newSaveImage si c p e) s)
  | ONewLocal sl c e => fst (alloc_item (newSaveArtifactLocal sl c e) s)
  | ONewState c => fst (alloc_item (newStateWaitItem c) s)
  | OAddItem b a => AddItem b a s
  | OSetDoSaves b => SetDoSaves b s
  | OSetDoPushes b => SetDoPushes b s
  | OItemSave a => each_item SetDoSave [a] s
  | OItemPush a => each_item SetDoPush [a] s
  | OWait b p e => mkStore (st_items s) (alter (fun wb => fst (block_Wait p e wb)) b (st_blocks s))
  end.

Definition run_all (os : list op) : Store := fold_left (fun s o => run o s) os (mkStore ∅ ∅).

Definition item_ok (w : WaitItem) : Prop :=
  match w with WSaveImage i => doPush i = true -> allowPush i = true /\ tag_of i <> "" | _ => True end.

Definition block_ok (wb : waitBlock) : Prop := NoDup (items wb) /\ forall a, a ∈ seenItems wb <-> a ∈ items wb.

Definition store_ok (s : Store) : Prop := map_Forall (fun _ => item_ok) (st_items s) /\ map_Forall (fun _ => block_ok) (st_blocks s).

Lemma SetDoSave_ok w : item_ok w -> item_ok (SetDoSave w).
Proof. destruct w as [i| |]; simpl; [|done..]. by destruct (String.eqb _ _). Qed.

Lemma SetDoPush_ok w : item_ok w -> item_ok (SetDoPush w).
Proof.
  destruct w as [i| |]; simpl; [|done..]. destruct (String.eqb_spec (DockerTag (ii_si i)) ""); [done|]. by intros _ ?.
Qed.

Lemma alter_Forall {A} (P : A -> Prop) (f : A -> A) (m : gmap nat A) a :
  (forall x, P x -> P (f x)) -> map_Forall (fun _ => P) m -> map_Forall (fun _ => P) (alter f a m).
Proof.
  intros Hf Hm b x. destruct (decide (a = b)) as [->|Hne].
  - rewrite lookup_alter_eq. destruct (m !! b) as [y|] eqn:E; [|done]. intros [= <-]. apply Hf. by apply (Hm b).
  - rewrite lookup_alter_ne by done. apply Hm.
Qed.

Lemma each_item_ok f l s : (forall w, item_ok w -> item_ok (f w)) -> store_ok s -> store_ok (each_item f l s).
Proof.
  intros Hf [Hi Hb]. split; [|done]. cbn [each_item st_items]. revert Hi. generalize (st_items s).
  induction l as [|a l IH]; intros m Hm; simpl; [done|]. apply IH. by apply alter_Forall.
Qed.

Lemma alloc_item_ok w s : item_ok w -> store_ok s -> store_ok (fst (alloc_item w s)).
Proof. intros Hw [Hi Hb]. split; [|done]. by apply map_Forall_insert_2. Qed.

Lemma run_op_ok o s : store_ok s -> store_ok (run o s).
Proof.
  intros Hs. destruct o; simpl; try (by apply each_item_ok; [apply SetDoSave_ok || apply SetDoPush_ok|done]);
    try (by apply alloc_item_ok); destruct Hs as [Hi Hb]; split; try done; cbn.
  - apply map_Forall_insert_2; [|done]. split; [constructor|]. intros a. cbn. set_solver.
  - apply alter_Forall; [|done]. intros wb [Hnd Hseen]. case_decide as Hin; [done|]. split; cbn.
    + apply list.NoDup_app. split_and!; [done| |apply NoDup_singleton]. intros x Hx Hxa%list_elem_of_singleton.
      subst x. by apply Hin, Hseen.
    + intros x. rewrite elem_of_app, <- Hseen. set_solver.
  - apply alter_Forall; [|done]. by intros wb [Hnd Hseen].
Qed.

(** C39. Whatever targets do with the items and blocks they share, an item is marked for a
    push only when it was made by SAVE IMAGE --push with a tag, and no block holds an
    item twice. *)
Theorem store_invariant os :
  (forall a i, st_items (run_all os) !! a = Some (WSaveImage i) -> doPush i = true -> allowPush i = true /\ tag_of i <> "") /\
  (forall b wb, st_blocks (run_all os) !! b = Some wb -> NoDup (items wb)).
Proof.
  assert (store_ok (run_all os)) as [Hi Hb].
  { unfold run_all. assert (store_ok (mkStore ∅ ∅)) as H by (split; apply map_Forall_empty). revert H.
    generalize (mkStore ∅ ∅). induction os as [|o os IH]; intros s Hs; simpl; [done|]. by apply IH, run_op_ok. }
  split; [intros a i E; exact (Hi a _ E)|]. intros b wb E. exact (proj1 (Hb b wb E)).
Qed.

(** The calls of [Wait] on a block that start its tasks. *)
Fixpoint starts (calls : list (bool * bool)) (wb : waitBlock) : nat :=
  match calls with
  | [] => 0
  | (p, e) :: calls =>
      let '(wb, ts) := block_Wait p e wb in (match ts with [] => 0 | _ => 1 end) + starts calls wb
  end.

Definition to_come (wb : waitBlock) : nat :=
  (if called wb then 0 else 1) + (if pushCalled wb then 0 else 1) + (if localExportCalled wb then 0 else 1).

(** However often a block is waited for, its tasks are started at most three times;
    the first call starts them, and so does the first with pushes and the first with
    exports. *)
Theorem Wait_bounded calls wb :
  called wb = false ->
  starts calls wb <= 3 /\
  (calls <> [] -> 1 <= starts calls wb) /\
  (forall p e wb' ts, block_Wait p e wb = (wb', ts) ->
    ts = [TSaveImages] ++ (if e then [TSaveArtifactLocal] else []) ++ [TWaitStates] /\
    snd (block_Wait p e wb') = [] /\
    (p = false -> snd (block_Wait true false wb') <> [] \/ pushCalled wb = true) /\
    (e = false -> snd (block_Wait false true wb') <> [] \/ localExportCalled wb = true)).
Proof.
  intros Hc. assert (forall calls wb, starts calls wb <= to_come wb) as Hb.
  { clear. induction calls as [|[p e] calls IH]; intros wb; [simpl; lia|]. cbn [starts]. unfold block_Wait at 1.
    etransitivity; [apply Nat.add_le_mono_l, IH|]. destruct wb as [? ? [] [] []]; destruct p, e; cbn; lia. }
  split_and!.
  - etransitivity; [apply Hb|]. unfold to_come. destruct (called wb), (pushCalled wb), (localExportCalled wb); lia.
  - destruct calls as [|[p e] calls]; [done|]. intros _. cbn [starts]. unfold block_Wait. rewrite Hc.
    destruct (p && _), (e && _); simpl; lia.
  - unfold block_Wait. rewrite Hc. intros p e wb' ts [= <- <-]. cbn.
    destruct p, e, (pushCalled wb), (localExportCalled wb); cbn; split_and!; auto; by left.
Qed.

(** ** Samples *)

Module Sample.

#[local] Instance plain_platforms : Platforms := {|
  platforms_Parse := fun s => Ok (mkSpec s "linux" "" [] "");
  Normalize := fun p => p;
  Format := fun p => OS p +:+ "/" +:+ Architecture p;
  DefaultSpec := mkSpec "amd64" "linux" "" [] "" |}.

(** Names are a repository and a tag. *)
#[local] Instance plain_names : ImageNames := {|
  Named := string * option string;
  ParseNormalizedNamed := fun s => match Split s ":"%char with
                                   | [r] => Ok (r, None)
                                   | [r; t] => Ok (r, Some t)
                                   | _ => Err "invalid reference format" end;
  TagNameOnly := fun n => (fst n, Some (default "latest" (snd n)));
  Tag := fun n => snd n;
  Named_String := fun n => fst n;
  WithTag := fun n t => Ok (fst n, Some t);
  FamiliarString := fun n => fst n +:+ ":" +:+ default "" (snd n) |}.

Definition owner : ItemOwner := mkOwner "+build" "id" false "session".

Definition image (tag platform : string) (noManifestList push : bool) : saveImageWaitItem :=
  mkImageItem owner
    (mkSaveImage SScratch (Plat.mkPlatform (Some (mkSpec platform "linux" "" [] "")) false false) NewImage tag false false
       false false true noManifestList push (negb (String.eqb platform "")) false)
    push push true.

Definition two_platforms : list WaitItem :=
  [WState owner; WSaveImage (image "app:v1" "amd64" false true); WSaveImage (image "app:v1" "arm64" false true)].

Definition solve (s : State) : res (option State) := Ok (Some s).
Definition marshal (i : Image) : res string := Ok "{}".


Lemma Wait_bounded_witness : starts [(false, false); (true, false); (true, true); (true, true)] empty_block <= 3.
Proof. apply (Wait_bounded [(false, false); (true, false); (true, true); (true, true)] empty_block). reflexivity. Defined.

(** The image that must not get a manifest list is refused when it comes first, with
    an error about platforms, and accepted when it comes last. *)
Lemma no_manifest_list_order :
  collect [WSaveImage (image "a" "amd64" true true); WSaveImage (image "a" "arm64" false true)] (mkCollected ∅ ∅ []) =
    Err (errNotAllPlatform "a") /\
  exists c, collect [WSaveImage (image "a" "arm64" false true); WSaveImage (image "a" "amd64" true true)] (mkCollected ∅ ∅ []) = Ok c.
Proof. split; [by vm_compute|]. eexists. by vm_compute. Qed.

End Sample.
