(* ===== verification/ConvApi.v ===== *)
(** * Between the interpreter and the converter

    The options of the commands ([earthfile2llb/cmdopts/opts.go]), the records that
    the interpreter hands to the converter, and the converter as the interpreter
    sees it: one constructor of [Call] per method it calls, with the type of the
    answer.  What the converter does with a call is the business of the class
    [Converter].  The parser of flags ([go-flags]) is a parameter, one per command:
    it gives the options and the arguments that are left. *)

From stdpp Require Import gmap.
From S2P Require Import Prelude GoStrings Token Ast GoText Reference Imports Effects FlagUtil.

(** ** Options of commands *)

Record IfOpts : Type := mkIfOpts {
  if_Secrets : list string; if_Mounts : list string; if_Privileged : bool; if_WithSSH : bool; if_NoCache : bool }.

Record ForOpts : Type := mkForOpts {
  for_Separators : string; for_Secrets : list string; for_Mounts : list string; for_Privileged : bool;
  for_WithSSH : bool; for_NoCache : bool }.

(** [run_OIDC] is [None] when the flag is not given (the code marks it with a
    fresh string). *)
Record RunOpts : Type := mkRunOpts {
  run_OIDC : option string; run_Network : string; run_Secrets : list string; run_Mounts : list string;
  run_Push : bool; run_Privileged : bool; run_WithEntrypoint : bool; run_WithDocker : bool; run_WithSSH : bool;
  run_WithAWS : bool; run_NoCache : bool; run_Interactive : bool; run_InteractiveKeep : bool; run_RawOutput : bool }.

Record FromOpts : Type := mkFromOpts {
  from_Platform : string; from_BuildArgs : list string; from_AllowPrivileged : bool; from_PassArgs : bool }.

Record FromDockerfileOpts : Type := mkFromDockerfileOpts {
  fd_Platform : string; fd_Target : string; fd_Path : string; fd_BuildArgs : list string; fd_AllowPrivileged : bool }.

Record CopyOpts : Type := mkCopyOpts {
  copy_From : string; copy_Chown : string; copy_Chmod : string; copy_Platform : string; copy_BuildArgs : list string;
  copy_IsDirCopy : bool; copy_KeepTs : bool; copy_KeepOwn : bool; copy_IfExists : bool; copy_SymlinkNoFollow : bool;
  copy_AllowPrivileged : bool; copy_PassArgs : bool }.

Record SaveArtifactOpts : Type := mkSaveArtifactOpts {
  sa_KeepTs : bool; sa_KeepOwn : bool; sa_IfExists : bool; sa_SymlinkNoFollow : bool; sa_Force : bool }.

Record SaveImageOpts : Type := mkSaveImageOpts {
  si_CacheFrom : list string; si_Push : bool; si_CacheHint : bool; si_Insecure : bool; si_NoManifestList : bool;
  si_WithoutEarthLabels : bool }.

Record BuildOpts : Type := mkBuildOpts {
  build_Platforms : list string; build_BuildArgs : list string; build_AllowPrivileged : bool; build_PassArgs : bool;
  build_AutoSkip : bool }.

Record GitCloneOpts : Type := mkGitCloneOpts { gc_Branch : string; gc_KeepTs : bool }.

(** Durations are in nanoseconds. *)
Record HealthCheckOpts : Type := mkHealthCheckOpts {
  hc_Interval : Z; hc_Timeout : Z; hc_StartPeriod : Z; hc_Retries : Z; hc_StartInterval : Z }.

Record WithDockerOpts : Type := mkWithDockerOpts {
  wd_Platform : string; wd_CacheID : string; wd_ComposeFiles : list string; wd_ComposeServices : list string;
  wd_Loads : list string; wd_BuildArgs : list string; wd_Pulls : list string; wd_AllowPrivileged : bool;
  wd_PassArgs : bool }.

Record DoOpts : Type := mkDoOpts { do_AllowPrivileged : bool; do_PassArgs : bool }.
Record ImportOpts : Type := mkImportOpts { imp_AllowPrivileged : bool; imp_PassArgs : bool }.
Record CacheOpts : Type := mkCacheOpts {
  cache_Sharing : string; cache_Mode : string; cache_ID : string; cache_Persist : bool }.

Class FlagParsers : Type := {
  parse_If : flag_parser IfOpts;
  parse_For : flag_parser ForOpts;
  parse_Run : flag_parser RunOpts;
  parse_From : flag_parser FromOpts;
  parse_FromDockerfile : flag_parser FromDockerfileOpts;
  parse_Copy : flag_parser CopyOpts;
  parse_SaveArtifact : flag_parser SaveArtifactOpts;
  parse_SaveImage : flag_parser SaveImageOpts;
  parse_Build : flag_parser BuildOpts;
  parse_GitClone : flag_parser GitCloneOpts;
  parse_HealthCheck : flag_parser HealthCheckOpts;
  parse_WithDocker : flag_parser WithDockerOpts;
  parse_Do : flag_parser DoOpts;
  parse_Import : flag_parser ImportOpts;
  parse_Arg : flag_parser ArgOpts;
  parse_Set : flag_parser unit;
  parse_Let : flag_parser unit;
  parse_Cache : flag_parser CacheOpts
}.

(** The boolean flags of RUN, which [getBoolFlagNames] reads off the tags of the struct. *)
Definition run_bool_flags : gset string :=
  {["push"; "privileged"; "entrypoint"; "with-docker"; "ssh"; "aws"; "no-cache"; "interactive"; "interactive-keep";
    "raw-output"]}.

(** ** Features that the interpreter reads ([features/features.go]) *)

Class Features : Type := {
  ForIn : bool; WaitBlock : bool; ReferencedSaveOnly : bool; TryFinally : bool; PassArgs : bool; NoNetwork : bool;
  RunWithAWS : bool; RunWithAWSOIDC : bool; RawOutput : bool; AllowPrivilegedFromDockerfile : bool;
  SaveArtifactKeepOwn : bool; AllowWithoutEarthlyLabels : bool; WildcardBuilds : bool; WildcardCopy : bool;
  BuildAutoSkip : bool; ExplicitGlobal : bool; ArgScopeSet : bool; DockerCache : bool; UseCacheCommand : bool;
  UseHostCommand : bool }.

(** ** Errors *)

(** [EText] is an error of the converter or of another package, by its message;
    [EWrapped] is [fmt.Errorf] with a wrapped cause; [EInterp] is an
    [InterpreterError] (its target ID and its stack are left out). *)
Inductive error : Type :=
  | ECannotAsync
  | EShellOutNotPermitted
  | EText (text : string)
  | EWrapped (text : string) (cause : error)
  | EInterp (loc : option SourceLocation) (text : string) (cause : option error)
  | EPanic (text : string).

(** [errors.Is], for an error that is compared by identity. *)
Fixpoint errors_Is (p : error -> bool) (e : error) : bool :=
  p e || match e with
         | EWrapped _ c => errors_Is p c
         | EInterp _ _ (Some c) => errors_Is p c
         | _ => false
         end.

Definition is_CannotAsync (e : error) : bool := match e with ECannotAsync => true | _ => false end.
Definition is_ShellOutNotPermitted (e : error) : bool := match e with EShellOutNotPermitted => true | _ => false end.

(** ** What the interpreter hands over *)

(** [platutil.Platform]; the specification is known by its text. *)
Record Platform : Type := mkPlatform { plat_p : option string; plat_user : bool; plat_native : bool }.
Definition DefaultPlatform : Platform := mkPlatform None false false.

(** [debuggercommon.SaveFilesSettings] *)
Record SaveFile : Type := mkSaveFile { sf_Src : string; sf_Dst : string; sf_IfExists : bool }.

(** [oidcutil.AWSOIDCInfo], by its text. *)
Definition AWSOIDCInfo : Type := string.

Record ConvertRunOpts : Type := mkConvertRunOpts {
  ro_CommandName : string; ro_Args : list string; ro_Locally : bool; ro_Mounts : list string; ro_Secrets : list string;
  ro_WithShell : bool; ro_WithEntrypoint : bool; ro_Privileged : bool; ro_NoNetwork : bool; ro_Push : bool;
  ro_WithSSH : bool; ro_NoCache : bool; ro_Interactive : bool; ro_InteractiveKeep : bool;
  ro_InteractiveSaveFiles : list SaveFile; ro_WithAWSCredentials : bool; ro_OIDCInfo : option AWSOIDCInfo;
  ro_RawOutput : bool; ro_Transient : bool }.

Record DockerLoadOpt : Type := mkDockerLoad {
  dl_Target : string; dl_ImageName : string; dl_Platform : Platform; dl_BuildArgs : list string;
  dl_AllowPrivileged : bool; dl_PassArgs : bool }.

Record DockerPullOpt : Type := mkDockerPull { dp_Platform : Platform; dp_ImageName : string }.

Record WithDockerOpt : Type := mkWithDockerOpt {
  wo_OIDCInfo : option AWSOIDCInfo; wo_CacheID : string; wo_Pulls : list DockerPullOpt; wo_Secrets : list string;
  wo_Mounts : list string; wo_TryCatchSaveArtifacts : list SaveFile; wo_ComposeServices : list string;
  wo_ComposeFiles : list string; wo_Loads : list DockerLoadOpt; wo_WithSSH : bool; wo_WithAWSCredentials : bool;
  wo_interactiveKeep : bool; wo_Interactive : bool; wo_NoCache : bool; wo_WithEntrypoint : bool; wo_WithShell : bool }.

(** [newOnExecutionSuccess(n, f)]: [f] (known by a number, none when it does
    nothing) is called after [n] successes. *)
Record OnSuccess : Type := mkOnSuccess { os_required : nat; os_saveHash : option nat }.

(** What [ResolveReference] answers: the resolved reference, the functions of its
    Earthfile, whether that uses the keyword FUNCTION, and the privilege of the
    import, when there is one. *)
Record Resolved : Type := mkResolved {
  rs_Ref : Reference; rs_Functions : list Function_; rs_UseFunctionKeyword : bool;
  rs_allowPrivileged : bool; rs_allowPrivilegedSet : bool }.

(** ** The calls *)

Inductive Call : Type -> Type :=
  | CFrom (imageName : string) (platform : Platform) (allowPrivileged passArgs : bool) (buildArgs : list string) : Call unit
  | CFromDockerfile (path dfPath dfTarget : string) (platform : Platform) (allowPrivileged : bool)
      (buildArgs : list string) : Call unit
  | CLocally : Call unit
  | CRun (o : ConvertRunOpts) : Call unit
  | CRunExitCode (o : ConvertRunOpts) : Call Z
  | CRunExpression (variable : string) (o : ConvertRunOpts) : Call string
  | CExpandArgs (o : ConvertRunOpts) (word : string) (allowShellOut : bool) : Call string
  | CParsePlatform (platform : string) : Call Platform
  | CWithDockerRun (args : list string) (opt : WithDockerOpt) (allowParallel : bool) : Call unit
  | CWithDockerRunLocal (args : list string) (opt : WithDockerOpt) (allowParallel : bool) : Call unit
  | CCopyClassical (srcs : list string) (dest : string) (isDir keepTs keepOwn : bool) (chown : string)
      (chmod : option Z) (ifExists : bool) : Call unit
  | CCopyArtifact (src dest : string) (platform : Platform) (allowPrivileged passArgs : bool) (buildArgs : list string)
      (isDir keepTs keepOwn : bool) (chown : string) (chmod : option Z) (ifExists symlinkNoFollow : bool) : Call unit
  | CCopyArtifactLocal (src dest : string) (platform : Platform) (allowPrivileged passArgs : bool)
      (buildArgs : list string) (isDir : bool) : Call unit
  | CWhiteListed (src : string) : Call bool
  | CExpandWildcardArtifacts (a : Artifact) : Call (list Artifact)
  | CSaveArtifact (from to asLocal : string) (keepTs keepOwn ifExists symlinkNoFollow force isPush : bool) : Call unit
  | CSaveArtifactFromLocal (from to : string) (keepTs ifExists : bool) (chown : string) : Call unit
  | CSaveImage (names : list string) (push insecure cacheHint : bool) (cacheFrom : list string) (noManifestList : bool)
      : Call unit
  | CBuild (target : string) (platform : Platform) (allowPrivileged passArgs : bool) (buildArgs : list string)
      (onSuccess : OnSuccess) : Call unit
  | CBuildAsync (target : string) (platform : Platform) (allowPrivileged passArgs : bool) (buildArgs : list string)
      : Call unit
  | CCheckAutoSkip (target : string) (allowPrivileged passArgs : bool) (buildArgs : list string) : Call (bool * nat)
  | CExpandWildcardCmds (target : string) (cmd : Command) : Call (list Command)
  | CWorkdir (path : string) : Call unit
  | CUser (user : string) : Call unit
  | CCmd (args : list string) (withShell : bool) : Call unit
  | CEntrypoint (args : list string) (withShell : bool) : Call unit
  | CExpose (ports : list string) : Call unit
  | CVolume (volumes : list string) : Call unit
  | CEnv (key value : string) : Call unit
  | CArg (key value : string) (opts : ArgOpts) : Call unit
  | CLet (key value : string) : Call unit
  | CUpdateArg (key value : string) : Call unit
  | CSetArg (key value : string) : Call unit
  | CUnsetArg (key : string) : Call unit
  | CLabel (labels : gmap string string) : Call unit
  | CConvertCloneURL (url : string) : Call (string * string)
  | CGitClone (url sshCommand branch dest : string) (keepTs : bool) : Call unit
  | CHealthcheck (isNone : bool) (args : list string) (opts : HealthCheckOpts) : Call unit
  | CImport (importStr as_ : string) (isGlobal currentlyPrivileged allowPrivilegedFlag : bool) : Call unit
  | CWorkingDir : Call string
  | CCache (dir : string) (opts : CacheOpts) : Call unit
  | CHost (host ip : string) : Call unit
  | CProject (org project : string) : Call unit
  | CPushWaitBlock : Call unit
  | CPopWaitBlock : Call unit
  | CResolveReference (ref : Reference) : Call Resolved
  | CEnterScopeDo (command baseTarget : Reference) (allowPrivileged passArgs : bool) (scopeName : string)
      (buildArgs : list string) : Call unit
  | CExitScope : Call unit
  | CRecordTargetFailure (e : error) : Call unit.

(** What the converter does with a call, on its own state. *)
Class Converter (W : Type) : Type := answer : forall A, Call A -> Eff W error A.
Arguments answer {W _ A} _.
