(* ===== verification/Interp.v ===== *)
(** * The interpreter: commands

    A translation of the command handlers of [earthfile2llb/interpreter.go].  The
    interpreter's fields, the converter's state and a history of the calls made
    (each with the interpreter's fields at that moment) are threaded through; what
    is printed to logs is left out.  Blocks and statements are in
    [InterpBlocks.v]. *)

From stdpp Require Import gmap.
From S2P Require Import Prelude GoStrings Token Ast GoText Numbers Reference Imports KeyValue Collection.
From S2P Require Import Validator Effects ShellLex FlagUtil Matrix ConvApi.

Open Scope eff_scope.

(** ** Standard library *)

(** [path.Base] *)
Definition path_Base (p : string) : string :=
  if String.eqb p "" then "."
  else
    let p := TrimRight p "/" in
    let p := List.last (Split p slash) "" in
    if String.eqb p "" then "/" else p.

(** [fmt]'s [%v] of a slice of strings *)
Definition vlist (l : list string) : string := "[" +:+ Join l " " +:+ "]".

Definition Contains (s : string) (c : ascii) : bool := ContainsByte s c.

(** [strings.ReplaceAll(str, "\+", new)] *)
Fixpoint replace_slash_plus (new : string) (s : string) : string :=
  match s with
  | String c (String d s' as s1) =>
      if Ascii.eqb c backslash && Ascii.eqb d plus then new +:+ replace_slash_plus new s'
      else String c (replace_slash_plus new s1)
  | s => s
  end.

Definition escapeSlashPlus : string -> string := replace_slash_plus "\\+".
Definition unescapeSlashPlus : string -> string := replace_slash_plus "+".

(** The names of commands of two words, and of the command of WITH ([lex.go]). *)
Definition CmdDocker : Cmd := "DOCKER".
Definition CmdFromDockerfile : Cmd := "FROM DOCKERFILE".
Definition CmdGitClone : Cmd := "GIT CLONE".
Definition CmdSaveArtifact : Cmd := "SAVE ARTIFACT".
Definition CmdSaveImage : Cmd := "SAVE IMAGE".

(** ** The interpreter *)

Record Interpreter : Type := mkInterpreter {
  in_target : Reference;
  withDocker : option WithDockerOpt;
  interactiveSaveFiles : list SaveFile;
  allowPrivileged : bool;
  local : bool;
  withDockerRan : bool;
  parallelConversion : bool;
  pushOnlyAllowed : bool;
  isWith : bool;
  isBase : bool
}.

Definition newInterpreter (t : Reference) (allowPriv parallel : bool) : Interpreter :=
  mkInterpreter t None [] allowPriv false false parallel false false false.

Definition set_withDocker (d : option WithDockerOpt) (i : Interpreter) : Interpreter :=
  mkInterpreter (in_target i) d (interactiveSaveFiles i) (allowPrivileged i) (local i) (withDockerRan i)
    (parallelConversion i) (pushOnlyAllowed i) (isWith i) (isBase i).
Definition set_saveFiles (l : list SaveFile) (i : Interpreter) : Interpreter :=
  mkInterpreter (in_target i) (withDocker i) l (allowPrivileged i) (local i) (withDockerRan i)
    (parallelConversion i) (pushOnlyAllowed i) (isWith i) (isBase i).
Definition set_allowPrivileged (b : bool) (i : Interpreter) : Interpreter :=
  mkInterpreter (in_target i) (withDocker i) (interactiveSaveFiles i) b (local i) (withDockerRan i)
    (parallelConversion i) (pushOnlyAllowed i) (isWith i) (isBase i).
Definition set_local (b : bool) (i : Interpreter) : Interpreter :=
  mkInterpreter (in_target i) (withDocker i) (interactiveSaveFiles i) (allowPrivileged i) b (withDockerRan i)
    (parallelConversion i) (pushOnlyAllowed i) (isWith i) (isBase i).
Definition set_withDockerRan (b : bool) (i : Interpreter) : Interpreter :=
  mkInterpreter (in_target i) (withDocker i) (interactiveSaveFiles i) (allowPrivileged i) (local i) b
    (parallelConversion i) (pushOnlyAllowed i) (isWith i) (isBase i).
Definition set_pushOnly (b : bool) (i : Interpreter) : Interpreter :=
  mkInterpreter (in_target i) (withDocker i) (interactiveSaveFiles i) (allowPrivileged i) (local i) (withDockerRan i)
    (parallelConversion i) b (isWith i) (isBase i).
Definition set_isWith (b : bool) (i : Interpreter) : Interpreter :=
  mkInterpreter (in_target i) (withDocker i) (interactiveSaveFiles i) (allowPrivileged i) (local i) (withDockerRan i)
    (parallelConversion i) (pushOnlyAllowed i) b (isBase i).
Definition set_isBase (b : bool) (i : Interpreter) : Interpreter :=
  mkInterpreter (in_target i) (withDocker i) (interactiveSaveFiles i) (allowPrivileged i) (local i) (withDockerRan i)
    (parallelConversion i) (pushOnlyAllowed i) (isWith i) b.

(** A call, with the interpreter when it was made. *)
Inductive event : Type := mkEvent (i : Interpreter) {A : Type} (c : Call A).

Definition ev_self (e : event) : Interpreter := match e with mkEvent i _ => i end.

Record State (W : Type) : Type := mkState { self_ : Interpreter; world : W; history : list event }.
Arguments mkState {W} _ _ _.
Arguments self_ {W} _.
Arguments world {W} _.
Arguments history {W} _.

(** What the interpreter takes from other packages. *)
Class Packages : Type := {
  HOME : string;
  ParsePortSpecs : list string -> res (list string);
  ParseIP : string -> option string;
  ParseAWSOIDCInfo : string -> res AWSOIDCInfo;
  earthly_labels : gmap string string
}.

Section Interp.
Context {W : Type} `{Converter W} `{FlagParsers} `{Features} `{Packages} `{Unicode} `{UnicodeTables} `{SliceGrowth}.

Definition I (A : Type) : Type := Eff (State W) error A.

Definition self : I Interpreter := fun s => (s, Ret (self_ s)).

Definition update (f : Interpreter -> Interpreter) : I unit :=
  fun s => (mkState (f (self_ s)) (world s) (history s), Ret tt).

Definition call {A} (c : Call A) : I A := fun s =>
  let '(w, r) := answer c (world s) in (mkState (self_ s) w (history s ++ [mkEvent (self_ s) c]), r).

Definition Loc : Type := option SourceLocation.

Definition interp_errorf {A} (sl : Loc) (text : string) : I A := efail (EInterp sl text None).

(** [if err != nil { return i.wrapError(err, sl, text) }] *)
Definition wrapError {A} (sl : Loc) (text : string) (m : I A) : I A :=
  ewrap (fun e => EInterp sl text (Some e)) m.

(** [if err != nil { return i.errorf(sl, text) }] *)
Definition dropError {A} (sl : Loc) (text : string) (m : I A) : I A := ewrap (fun _ => EInterp sl text None) m.

Definition of_res {A} (r : res A) : I A :=
  match r with Ok a => eret a | Err e => efail (EText e) | NoFuel => estuck end.

Definition pushOnlyErr {A} (sl : Loc) : I A := interp_errorf sl "no non-push commands allowed after a --push".

(** [if i.pushOnlyAllowed { return i.pushOnlyErr(sl) }] *)
Definition unless_push_only {A} (sl : Loc) (m : I A) : I A :=
  i <- self ;; if pushOnlyAllowed i then pushOnlyErr sl else m.

(** [flagutil.ParseArgsCleaned] with the error wrapped. *)
Definition cleaned {O} (parse : flag_parser O) (sl : Loc) (text : string) (args : list string) : I (O * list string) :=
  wrapError sl text (of_res (ParseArgsCleaned parse args)).

Definition no_run (name : string) (args : list string) (locally transient : bool) : ConvertRunOpts :=
  mkConvertRunOpts name args locally [] [] true false false false false false false false false [] false None false
    transient.

Definition expandArgs (word : string) (keepPlusEscape async : bool) : I string :=
  i <- self ;;
  ret <- ewrap (fun e => if async && errors_Is is_ShellOutNotPermitted e then ECannotAsync else e)
           (call (CExpandArgs (no_run "expandargs" [] (local i) (negb (local i))) (escapeSlashPlus word) (negb async))) ;;
  eret (if keepPlusEscape then ret else unescapeSlashPlus ret).

Definition expandArgsSlice (words : list string) (async : bool) : I (list string) :=
  emap (fun word => expandArgs word true async) words.

(** [for index, s := range l { l[index], err = i.expandArgs(...) }] *)
Definition expand_each (sl : Loc) (text : string -> string) (keepPlusEscape : bool) (l : list string) : I (list string) :=
  emap (fun s => wrapError sl (text s) (expandArgs s keepPlusEscape false)) l.

Definition isArgLike (cmd : Command) : bool :=
  String.eqb (cmd_Name cmd) CmdArg || String.eqb (cmd_Name cmd) CmdLet || String.eqb (cmd_Name cmd) CmdSet.

Definition isSafeAsyncBuildArgsKVStyle (args : list string) : bool :=
  forallb (fun arg => negb (requiresShellOutOrCmdInvalid (snd (fst (ParseKeyValue arg))))) args.

Definition isSafeAsyncBuildArgs (args : list string) : bool :=
  forallb (fun arg => HasPrefix arg "--" &&
    negb (requiresShellOutOrCmdInvalid (snd (fst (ParseKeyValue (sdrop 2 arg)))))) args.

Definition baseTarget (ref : Reference) : Reference :=
  mkRef KTarget (GitURL ref) (Tag ref) (LocalPath ref) (ImportRef ref) TargetBase.

(** ** Privileges *)

Definition getAllowPrivileged (depTarget : Reference) (allowPriv : bool) : I bool :=
  i <- self ;; eret (if IsRemote depTarget then allowPrivileged i && allowPriv else allowPrivileged i).

Definition getAllowPrivilegedTarget (targetName : string) (allowPriv : bool) : I bool :=
  if negb (Contains targetName plus) then eret false
  else
    depTarget <- ewrap (EWrapped ("parse target name " +:+ targetName)) (of_res (ParseTarget HOME targetName)) ;;
    getAllowPrivileged depTarget allowPriv.

Definition getAllowPrivilegedArtifact (artifactName : string) (allowPriv : bool) : I bool :=
  artifact <- ewrap (EWrapped ("parse artifact name " +:+ artifactName)) (of_res (ParseArtifact HOME artifactName)) ;;
  getAllowPrivileged (art_Target artifact) allowPriv.

(** [variables.ParseFlagArgs] *)
Definition parse_flag_args (sl : Loc) (args : list string) : I (list string) :=
  wrapError sl "parse flag args" (of_res (ParseFlagArgs args)).

Definition parse_platform (sl : Loc) (platform : string) : I Platform :=
  wrapError sl ("parse platform " +:+ platform) (call (CParsePlatform platform)).

(** ** FROM, FROM DOCKERFILE, LOCALLY *)

Definition handleFrom (cmd : Command) : I unit :=
  let sl := cmd_SourceLocation cmd in
  unless_push_only sl (
  p <- cleaned parse_From sl ("invalid FROM arguments " +:+ vlist (cmd_Args cmd)) (cmd_Args cmd) ;;
  let '(opts, args) := p in
  match args with
  | [] => interp_errorf sl ("invalid number of arguments for FROM: " +:+ vlist (cmd_Args cmd))
  | [_; "AS"; _] => interp_errorf sl "AS not supported, use earth targets instead"
  | arg0 :: rest =>
      imageName <- dropError sl ("unable to expand image name for FROM: " +:+ arg0) (expandArgs arg0 true false) ;;
      expandedPlatform <- dropError sl ("unable to expand platform for FROM: " +:+ from_Platform opts)
        (expandArgs (from_Platform opts) false false) ;;
      platform <- parse_platform sl expandedPlatform ;;
      expandedBuildArgs <- dropError sl ("unable to expand build args for FROM: " +:+ vlist (from_BuildArgs opts))
        (expandArgsSlice (from_BuildArgs opts) false) ;;
      expandedFlagArgs <- dropError sl ("unable to expand flag args for FROM: " +:+ vlist rest)
        (expandArgsSlice rest false) ;;
      parsedFlagArgs <- parse_flag_args sl expandedFlagArgs ;;
      allowPriv <- getAllowPrivilegedTarget imageName (from_AllowPrivileged opts) ;;
      if negb PassArgs && from_PassArgs opts then
        interp_errorf sl "the FROM --pass-args flag must be enabled with the VERSION --pass-args feature flag."
      else
        update (set_local false) ;;;
        wrapError sl ("apply FROM " +:+ imageName)
          (call (CFrom imageName platform allowPriv (from_PassArgs opts) (parsedFlagArgs ++ expandedBuildArgs)))
  end).

Definition handleFromDockerfile (cmd : Command) : I unit :=
  let sl := cmd_SourceLocation cmd in
  unless_push_only sl (
  p <- cleaned parse_FromDockerfile sl ("invalid FROM DOCKERFILE arguments " +:+ vlist (cmd_Args cmd)) (cmd_Args cmd) ;;
  let '(opts, args) := p in
  match args with
  | [] => interp_errorf sl "invalid number of arguments for FROM DOCKERFILE"
  | arg0 :: rest =>
      if negb AllowPrivilegedFromDockerfile && fd_AllowPrivileged opts then
        interp_errorf sl ("the FROM DOCKERFILE --allow-privileged flag must be enabled with " +:+
          "the VERSION --allow-privileged-from-dockerfile feature flag.")
      else
        i <- self ;;
        let allowPriv := fd_AllowPrivileged opts && allowPrivileged i in
        let expand := dropError sl ("failed to expand FROM DOCKERFILE path arg " +:+ arg0) (expandArgs arg0 false false) in
        path <- expand ;;
        path <- match ParseArtifact HOME path with Ok _ => eret path | _ => expand end ;;
        expandedBuildArgs <- dropError sl ("failed to expand FROM DOCKERFILE build args " +:+ vlist (fd_BuildArgs opts))
          (expandArgsSlice (fd_BuildArgs opts) false) ;;
        expandedFlagArgs <- dropError sl ("failed to expand FROM DOCKERFILE flag args " +:+ vlist rest)
          (expandArgsSlice rest false) ;;
        parsedFlagArgs <- parse_flag_args sl expandedFlagArgs ;;
        expandedPlatform <- dropError sl ("failed to expand FROM DOCKERFILE platform " +:+ fd_Platform opts)
          (expandArgs (fd_Platform opts) false false) ;;
        platform <- parse_platform sl expandedPlatform ;;
        expandedPath <- wrapError sl ("failed to expand path " +:+ fd_Path opts) (expandArgs (fd_Path opts) false false) ;;
        expandedTarget <- wrapError sl ("failed to expand target " +:+ fd_Target opts)
          (expandArgs (fd_Target opts) false false) ;;
        update (set_local false) ;;;
        wrapError sl "from dockerfile"
          (call (CFromDockerfile path expandedPath expandedTarget platform allowPriv (parsedFlagArgs ++ expandedBuildArgs)))
  end).

Definition permission_denied (what : string) : string :=
  "Permission denied: unwilling to " +:+ what +:+
  "; did you reference a remote Earthfile without the --allow-privileged flag?".

Definition handleLocally (cmd : Command) : I unit :=
  let sl := cmd_SourceLocation cmd in
  i <- self ;;
  if negb (allowPrivileged i) then
    interp_errorf sl (permission_denied "allow locally directive from remote Earthfile")
  else
    unless_push_only sl (
    update (set_local true) ;;;
    wrapError sl "apply LOCALLY" (call CLocally)).

(** ** RUN *)

(** [flagValModifierFuncWithContext] *)
Definition flagValModifier (flagName flagVal : string) : I (option string) :=
  v <- expandArgs flagVal false false ;; eret (Some v).

Definition parse_run (sl : Loc) (args : list string) : I (RunOpts * list string) :=
  wrapError sl ("invalid RUN arguments " +:+ vlist args) (
    args <- preprocessArgs flagValModifier run_bool_flags (ProcessParamsAndQuotes args) ;;
    of_res (parse_Run args)).

Definition handleOIDC (sl : Loc) (opts : RunOpts) : I (option AWSOIDCInfo) :=
  match run_OIDC opts with
  | None => eret None
  | Some oidc =>
      if negb RunWithAWSOIDC then interp_errorf sl "RUN --aws-oidc requires the --run-with-aws-oidc feature flag"
      else if negb (run_WithAWS opts) then interp_errorf sl "RUN --oidc also requires the --aws RUN flag"
      else
        expanded <- dropError sl ("failed to expand oidc arg in RUN: " +:+ oidc) (expandArgs oidc false false) ;;
        match ParseAWSOIDCInfo expanded with
        | Ok info => eret (Some info)
        | Err e => interp_errorf sl ("invalid value for oidc flag: " +:+ e)
        | NoFuel => estuck
        end
  end.

(** [opts.Network], whether it turns the network off. *)
Definition run_network (sl : Loc) (network : string) : I bool :=
  if String.eqb network "" then eret false
  else if negb NoNetwork then
    interp_errorf sl "the RUN --network=none flag must be enabled with the VERSION --no-network feature flag."
  else if negb (String.eqb network "none") then
    interp_errorf sl ("invalid network value " +:+ network +:+ "; only " +:+ Quote "none" +:+ " is currently supported")
  else eret true.

(** The fields that RUN sets in the options of WITH DOCKER. *)
Definition docker_run_opts (o : RunOpts) (mounts secrets : list string) (withShell : bool) (oidc : option AWSOIDCInfo)
    (d : WithDockerOpt) : WithDockerOpt :=
  mkWithDockerOpt oidc (wo_CacheID d) (wo_Pulls d) secrets mounts (wo_TryCatchSaveArtifacts d) (wo_ComposeServices d)
    (wo_ComposeFiles d) (wo_Loads d) (run_WithSSH o) (run_WithAWS o) (run_InteractiveKeep o) (run_Interactive o)
    (run_NoCache o) (run_WithEntrypoint o) withShell.

Definition run_plain (cmd : Command) (opts : RunOpts) (args mounts secrets : list string) (privileged noNetwork : bool)
    (oidc : option AWSOIDCInfo) : I unit :=
  let sl := cmd_SourceLocation cmd in
  if run_WithDocker opts then
    interp_errorf sl "--with-docker is obsolete. Please use WITH DOCKER ... RUN ... END instead"
  else
    i <- self ;;
    wrapError sl "apply RUN" (call (CRun
      {| ro_CommandName := cmd_Name cmd; ro_Args := args; ro_Locally := local i; ro_Mounts := mounts;
         ro_Secrets := secrets; ro_WithShell := negb (cmd_ExecMode cmd); ro_WithEntrypoint := run_WithEntrypoint opts;
         ro_Privileged := privileged; ro_NoNetwork := noNetwork; ro_Push := run_Push opts;
         ro_WithSSH := run_WithSSH opts; ro_NoCache := run_NoCache opts; ro_Interactive := run_Interactive opts;
         ro_InteractiveKeep := run_InteractiveKeep opts; ro_InteractiveSaveFiles := interactiveSaveFiles i;
         ro_WithAWSCredentials := run_WithAWS opts; ro_OIDCInfo := oidc; ro_RawOutput := run_RawOutput opts;
         ro_Transient := false |})) ;;;
    if run_Push opts && negb WaitBlock then update (set_pushOnly true) else eret tt.

Definition run_docker (cmd : Command) (d : WithDockerOpt) (opts : RunOpts) (args mounts secrets : list string)
    (oidc : option AWSOIDCInfo) : I unit :=
  let sl := cmd_SourceLocation cmd in
  i <- self ;;
  if withDockerRan i then interp_errorf sl "only one RUN command allowed in WITH DOCKER"
  else if run_Push opts then interp_errorf sl "RUN --push not allowed in WITH DOCKER"
  else
    let d := docker_run_opts opts mounts secrets (negb (cmd_ExecMode cmd)) oidc d in
    update (set_withDocker (Some d)) ;;;
    let allowParallel := forallb (fun l => isSafeAsyncBuildArgsKVStyle (dl_BuildArgs l)) (wo_Loads d) in
    wrapError sl "with docker run"
      (if local i then call (CWithDockerRunLocal args d allowParallel) else call (CWithDockerRun args d allowParallel)) ;;;
    update (set_withDockerRan true).

Definition handleRun (cmd : Command) : I unit :=
  let sl := cmd_SourceLocation cmd in
  match cmd_Args cmd with
  | [] => interp_errorf sl "not enough arguments for RUN"
  | _ =>
      p <- parse_run sl (cmd_Args cmd) ;;
      let '(opts, args) := p in
      let privileged := run_Privileged opts || run_WithDocker opts in
      i <- self ;;
      if negb (run_Push opts) && pushOnlyAllowed i then pushOnlyErr sl
      else
        secrets <- emap (fun s => dropError sl ("failed to expand secrets arg in RUN: " +:+ s) (expandArgs s true false))
          (run_Secrets opts) ;;
        mounts <- emap (fun m => dropError sl ("failed to expand mount arg in RUN: " +:+ m) (expandArgs m false false))
          (run_Mounts opts) ;;
        if privileged && negb (allowPrivileged i) then
          interp_errorf sl (permission_denied "run privileged command")
        else
          noNetwork <- run_network sl (run_Network opts) ;;
          if run_WithAWS opts && negb RunWithAWS then
            interp_errorf sl "RUN --aws requires the --run-with-aws feature flag"
          else
            oidc <- handleOIDC sl opts ;;
            if run_RawOutput opts && negb RawOutput then
              interp_errorf sl "RUN --raw-output requires the --raw-output feature flag"
            else
              match withDocker i with
              | None => run_plain cmd opts args mounts secrets privileged noNetwork oidc
              | Some d => run_docker cmd d opts args mounts secrets oidc
              end
  end.

(** ** COPY *)

(** A source of COPY: the text it is replaced by, the artifact it names (if it
    does) and its flag arguments. *)
Record copySource : Type := mkSource { cs_src : string; cs_artifact : option Artifact; cs_flags : list string }.

Definition copy_classical_source (sl : Loc) (src : string) (flags : list string) : I copySource :=
  expandedSrc <- wrapError sl ("failed to expand COPY src " +:+ src) (expandArgs src false false) ;;
  listed <- call (CWhiteListed expandedSrc) ;;
  if listed : bool then
    interp_errorf sl ("unable to copy file " +:+ expandedSrc +:+
      ", which has is outputted elsewhere by SAVE ARTIFACT AS LOCAL")
  else eret (mkSource expandedSrc None flags).

Definition copy_source (sl : Loc) (src : string) : I copySource :=
  if IsInParamsForm src then
    p <- wrapError sl ("parse params " +:+ src) (of_res (ParseParams src)) ;;
    let '(artifactStr, flags) := p in
    expandedArtifact <- wrapError sl ("failed to expand COPY artifact " +:+ artifactStr)
      (expandArgs artifactStr true false) ;;
    match ParseArtifact HOME expandedArtifact with
    | Ok a => eret (mkSource (Artifact_String a) (Some a) flags)
    | Err _ => interp_errorf sl "parse artifact"
    | NoFuel => estuck
    end
  else
    expandedSrc <- wrapError sl ("failed to expand COPY src " +:+ src) (expandArgs src true false) ;;
    match ParseArtifact HOME expandedSrc with
    | Ok a => eret (mkSource (Artifact_String a) (Some a) [])
    | Err _ => copy_classical_source sl src []
    | NoFuel => estuck
    end.

Definition copy_chmod (sl : Loc) (opts : CopyOpts) : I (option Z) :=
  if String.eqb (copy_Chmod opts) "" then eret None
  else
    mode <- wrapError sl ("failed to expand COPY chmod: " +:+ copy_Platform opts)
      (expandArgs (copy_Chmod opts) false false) ;;
    mask <- wrapError sl ("failed to parse COPY chmod: " +:+ copy_Platform opts) (of_res (ParseUint8_32 mode)) ;;
    eret (Some mask).

Definition has_star (s : string) : bool := ContainsByte s "*"%char.

(** The artifacts of one source, after its wildcards. *)
Definition copy_wildcards (sl : Loc) (src : copySource) : I (list string) :=
  match cs_artifact src with
  | Some a =>
      if has_star (referenceString (art_Target a)) then
        if negb WildcardCopy then interp_errorf sl "wildcard COPY commands are not enabled"
        else
          expanded <- wrapError sl ("failed to expand wildcard COPY " +:+ Quote (referenceString (art_Target a)))
            (call (CExpandWildcardArtifacts a)) ;;
          eret (List.map Artifact_String expanded)
      else eret [cs_src src]
  | None => eret [cs_src src]
  end.

Definition copy_artifact (sl : Loc) (opts : CopyOpts) (dest chown : string) (chmod : option Z) (platform : Platform)
    (buildArgs : list string) (src : copySource) : I unit :=
  allowPriv <- getAllowPrivilegedArtifact (cs_src src) (copy_AllowPrivileged opts) ;;
  expandedFlagArgs <- wrapError sl ("failed to expand COPY flag " +:+ vlist (cs_flags src))
    (expandArgsSlice (cs_flags src) false) ;;
  parsedFlagArgs <- parse_flag_args sl expandedFlagArgs ;;
  let srcBuildArgs := parsedFlagArgs ++ buildArgs in
  if negb PassArgs && copy_PassArgs opts then
    interp_errorf sl "the COPY --pass-args flag must be enabled with the VERSION --pass-args feature flag."
  else
    expandedSrcs <- copy_wildcards sl src ;;
    eiter (fun expandedSrc =>
      i <- self ;;
      if local i then
        wrapError sl "copy artifact locally" (call (CCopyArtifactLocal expandedSrc dest platform allowPriv
          (copy_PassArgs opts) srcBuildArgs (copy_IsDirCopy opts)))
      else
        wrapError sl "copy artifact" (call (CCopyArtifact expandedSrc dest platform allowPriv (copy_PassArgs opts)
          srcBuildArgs (copy_IsDirCopy opts) (copy_KeepTs opts) (copy_KeepOwn opts) chown chmod (copy_IfExists opts)
          (copy_SymlinkNoFollow opts)))) expandedSrcs.

Definition is_artifact (s : copySource) : bool := bool_decide (is_Some (cs_artifact s)).

Definition handleCopy (cmd : Command) : I unit :=
  let sl := cmd_SourceLocation cmd in
  unless_push_only sl (
  p <- cleaned parse_Copy sl ("invalid COPY arguments " +:+ vlist (cmd_Args cmd)) (cmd_Args cmd) ;;
  let '(opts, args) := p in
  if length args <? 2 then interp_errorf sl ("not enough COPY arguments " +:+ vlist (cmd_Args cmd))
  else if negb (String.eqb (copy_From opts) "") then
    interp_errorf sl "COPY --from not implemented. Use COPY artifacts form instead"
  else
    let srcs := removelast args in
    let last_arg := List.last args "" in
    dest <- wrapError sl ("failed to expand COPY args " +:+ last_arg) (expandArgs last_arg false false) ;;
    buildArgs <- wrapError sl ("failed to expand COPY buildargs " +:+ vlist (copy_BuildArgs opts))
      (expandArgsSlice (copy_BuildArgs opts) false) ;;
    chown <- wrapError sl ("failed to expand COPY chown: " +:+ copy_Chown opts) (expandArgs (copy_Chown opts) false false) ;;
    chmod <- copy_chmod sl opts ;;
    expandedPlatform <- wrapError sl ("failed to expand COPY platform: " +:+ copy_Platform opts)
      (expandArgs (copy_Platform opts) false false) ;;
    platform <- parse_platform sl expandedPlatform ;;
    sources <- emap (copy_source sl) srcs ;;
    if existsb is_artifact sources && negb (forallb is_artifact sources) then
      interp_errorf sl ("combining artifacts and build context arguments in a single COPY command is not allowed: " +:+
        vlist (List.map cs_src sources))
    else if negb (forallb is_artifact sources) then
      if negb (bool_decide (buildArgs = [])) then
        interp_errorf sl ("build args not supported for non +artifact arguments case " +:+ vlist (cmd_Args cmd))
      else
        i <- self ;;
        if local i then interp_errorf sl "unhandled locally artifact copy when allArtifacts is false"
        else
          wrapError sl "copy classical" (call (CCopyClassical (List.map cs_src sources) dest (copy_IsDirCopy opts)
            (copy_KeepTs opts) (copy_KeepOwn opts) chown chmod (copy_IfExists opts)))
    else
      let dest := if String.eqb dest "" || String.eqb dest "." || (1 <? length sources) then dest +:+ "/" else dest in
      eiter (copy_artifact sl opts dest chown chmod platform buildArgs) sources).

(** ** SAVE ARTIFACT, SAVE IMAGE *)

(** The source, the destination and the local destination. *)
Definition parseSaveArtifactArgs (args : list string) : option (string * string * string) :=
  match args with
  | [from] => Some (from, "./", "")
  | [from; to] => Some (from, to, "")
  | [] | [_; _; _] => None
  | from :: rest =>
      let n := length args in
      if String.eqb (Join (firstn 2 (skipn (n - 3) args)) " ") "AS LOCAL" then
        Some (from, if n =? 5 then nth 1 args "" else "./", List.last args "")
      else None
  end.

Definition handleSaveArtifact (cmd : Command) : I unit :=
  let sl := cmd_SourceLocation cmd in
  p <- cleaned parse_SaveArtifact sl ("invalid SAVE ARTIFACT arguments " +:+ vlist (cmd_Args cmd)) (cmd_Args cmd) ;;
  let '(opts, args) := p in
  if length args =? 0 then interp_errorf sl "no arguments provided to the SAVE ARTIFACT command"
  else if 5 <? length args then
    interp_errorf sl ("too many arguments provided to the SAVE ARTIFACT command: " +:+ vlist (cmd_Args cmd))
  else
    match parseSaveArtifactArgs args with
    | None => interp_errorf sl ("invalid arguments for SAVE ARTIFACT command: " +:+ vlist (cmd_Args cmd))
    | Some (saveFrom, saveTo, saveAsLocalTo) =>
        from <- dropError sl ("failed to expand SAVE ARTIFACT src: " +:+ nth 0 args "") (expandArgs saveFrom false false) ;;
        to <- dropError sl ("failed to expand SAVE ARTIFACT dst: " +:+ saveTo) (expandArgs saveTo false false) ;;
        asLocal <- dropError sl ("failed to expand SAVE ARTIFACT local dst: " +:+ saveAsLocalTo)
          (expandArgs saveAsLocalTo false false) ;;
        i <- self ;;
        if local i then
          if negb (String.eqb asLocal "") then
            interp_errorf sl "SAVE ARTIFACT AS LOCAL is not implemented under LOCALLY targets"
          else
            wrapError sl "apply SAVE ARTIFACT"
              (call (CSaveArtifactFromLocal from to (sa_KeepTs opts) (sa_IfExists opts) ""))
        else
          wrapError sl "apply SAVE ARTIFACT"
            (call (CSaveArtifact from to asLocal (sa_KeepTs opts) (sa_KeepOwn opts || SaveArtifactKeepOwn)
              (sa_IfExists opts) (sa_SymlinkNoFollow opts) (sa_Force opts) (pushOnlyAllowed i)))
    end.

Definition handleSaveImage (cmd : Command) : I unit :=
  let sl := cmd_SourceLocation cmd in
  p <- cleaned parse_SaveImage sl ("invalid SAVE IMAGE arguments " +:+ vlist (cmd_Args cmd)) (cmd_Args cmd) ;;
  let '(opts, args) := p in
  cacheFrom <- expand_each sl (fun cf => "failed to expand SAVE IMAGE cache-from: " +:+ cf) false (si_CacheFrom opts) ;;
  if si_Push opts && (length args =? 0) then
    interp_errorf sl ("invalid number of arguments for SAVE IMAGE --push: " +:+ vlist (cmd_Args cmd))
  else
    imageNames <- expand_each sl (fun img => "failed to expand SAVE IMAGE img: " +:+ img) false args ;;
    if (length imageNames =? 0) && negb (si_CacheHint opts) && (length cacheFrom =? 0) then eret tt
    else
      (if si_WithoutEarthLabels opts then
         if negb AllowWithoutEarthlyLabels then
           interp_errorf sl ("the SAVE IMAGE --without-earthly-labels flag must be enabled with " +:+
             "the VERSION --allow-without-earthly-labels feature flag.")
         else eret tt
       else
         wrapError sl "failed to create dev.earthly.* labels during SAVE IMAGE" (call (CLabel earthly_labels))) ;;;
      wrapError sl "save image" (call (CSaveImage imageNames (si_Push opts) (si_Insecure opts) (si_CacheHint opts)
        cacheFrom (si_NoManifestList opts))) ;;;
      if si_Push opts && negb WaitBlock then update (set_pushOnly true) else eret tt.

(** ** BUILD *)

Definition build_platforms (sl : Loc) (platforms : list string) (async : bool) : I (list Platform) :=
  emap (fun p =>
    expandedPlatform <- wrapError sl ("failed to expand BUILD platform " +:+ p) (expandArgs p false async) ;;
    wrapError sl ("parse platform " +:+ p) (call (CParsePlatform expandedPlatform))) platforms.

(** The builds of one combination of arguments, one per platform. *)
Definition build_combination (sl : Loc) (target : string) (platforms : list Platform) (allowPriv : bool)
    (opts : BuildOpts) (async : bool) (buildArgs : list string) : I unit :=
  skip <- (if build_AutoSkip opts then
             wrapError sl "failed to determine whether target can be skipped"
               (r <- call (CCheckAutoSkip target allowPriv (build_PassArgs opts) buildArgs) ;;
                eret (if fst r : bool then None else Some (Some (snd r))))
           else eret (Some None)) ;;
  match skip with
  | None => eret tt
  | Some saveHash =>
      eiter (fun platform =>
        wrapError sl ("apply BUILD " +:+ target)
          (if async then call (CBuildAsync target platform allowPriv (build_PassArgs opts) buildArgs)
           else call (CBuild target platform allowPriv (build_PassArgs opts) buildArgs
                        (mkOnSuccess (length platforms) saveHash)))) platforms
  end.

(** BUILD of a target without wildcards. *)
Definition build_target (cmd : Command) (opts : BuildOpts) (fullTargetName : string) (rest : list string) (async : bool)
    : I unit :=
  let sl := cmd_SourceLocation cmd in
  platforms <- build_platforms sl (build_Platforms opts) async ;;
  let asyncSafeArgs := isSafeAsyncBuildArgsKVStyle (build_BuildArgs opts) && isSafeAsyncBuildArgs rest in
  if async && (negb asyncSafeArgs || build_AutoSkip opts) then efail ECannotAsync
  else
    i <- self ;;
    if local i && negb asyncSafeArgs then
      interp_errorf sl "BUILD args do not currently support shelling-out in combination with LOCALLY"
    else
      expandedBuildArgs <- wrapError sl ("failed to expand BUILD args " +:+ vlist (build_BuildArgs opts))
        (expandArgsSlice (build_BuildArgs opts) async) ;;
      expandedFlagArgs <- wrapError sl ("failed to expand BUILD flags " +:+ vlist rest) (expandArgsSlice rest async) ;;
      parsedFlagArgs <- parse_flag_args sl expandedFlagArgs ;;
      let platforms := match platforms with [] => [DefaultPlatform] | _ => platforms end in
      let matrix := BuildArgMatrix (parsedFlagArgs ++ expandedBuildArgs) in
      allowPriv <- getAllowPrivilegedTarget fullTargetName (build_AllowPrivileged opts) ;;
      if negb PassArgs && build_PassArgs opts then
        interp_errorf sl "the BUILD --pass-args flag must be enabled with the VERSION --pass-args feature flag."
      else if negb BuildAutoSkip && build_AutoSkip opts then
        interp_errorf sl "the BUILD --auto-skip flag must be enabled with the VERSION --build-auto-skip feature flag."
      else eiter (build_combination sl fullTargetName platforms allowPriv opts async) matrix.

(** The BUILDs that wildcards stand for are handled in turn: each takes fuel. *)
Fixpoint handleBuild (fuel : nat) (cmd : Command) (async : bool) : I unit :=
  match fuel with
  | O => estuck
  | S f =>
      let sl := cmd_SourceLocation cmd in
      unless_push_only sl (
      p <- cleaned parse_Build sl ("invalid BUILD arguments " +:+ vlist (cmd_Args cmd)) (cmd_Args cmd) ;;
      let '(opts, args) := p in
      match args with
      | [] => interp_errorf sl ("invalid number of arguments for BUILD: " +:+ vlist (cmd_Args cmd))
      | arg0 :: rest =>
          fullTargetName <- wrapError sl ("failed to expand BUILD target " +:+ arg0) (expandArgs arg0 true async) ;;
          if has_star fullTargetName then
            if negb WildcardBuilds then interp_errorf sl "wildcard BUILD commands are not enabled"
            else
              children <- wrapError sl ("failed to expand wildcard BUILD " +:+ Quote fullTargetName)
                (call (CExpandWildcardCmds fullTargetName cmd)) ;;
              eiter (fun child => handleBuild f child async) children
          else build_target cmd opts fullTargetName rest async
      end)
  end.

End Interp.
