(* ===== verification/InterpCmds.v ===== *)
(** * The interpreter: the other commands

    The command handlers of [earthfile2llb/interpreter.go] that are not in
    [Interp.v]: those that set up the image, the variables, WITH DOCKER, IMPORT and
    the like. *)

From stdpp Require Import gmap.
From S2P Require Import Prelude GoStrings Token Ast GoText Reference Imports KeyValue Collection.
From S2P Require Import Validator Effects ShellLex FlagUtil Matrix ConvApi Interp.

Open Scope eff_scope.

Section Cmds.
Context {W : Type} `{Converter W} `{FlagParsers} `{Features} `{Packages} `{Unicode} `{UnicodeTables} `{SliceGrowth}.
Abbreviation I := (@I W).

(** ** The image *)

Definition handleWorkdir (cmd : Command) : I unit :=
  let sl := cmd_SourceLocation cmd in
  unless_push_only sl
  match cmd_Args cmd with
  | [arg] =>
      workdirPath <- wrapError sl ("failed to expand WORKDIR path " +:+ arg) (expandArgs arg false false) ;;
      wrapError sl "apply WORKDIR" (call (CWorkdir workdirPath))
  | args => interp_errorf sl ("invalid number of arguments for WORKDIR: " +:+ vlist args)
  end.

Definition handleUser (cmd : Command) : I unit :=
  let sl := cmd_SourceLocation cmd in
  unless_push_only sl
  match cmd_Args cmd with
  | [arg] =>
      user <- wrapError sl ("failed to expand USER " +:+ arg) (expandArgs arg false false) ;;
      wrapError sl "apply USER" (call (CUser user))
  | args => interp_errorf sl ("invalid number of arguments for USER: " +:+ vlist args)
  end.

Definition handleCmd (cmd : Command) : I unit :=
  let sl := cmd_SourceLocation cmd in
  unless_push_only sl (
  let withShell := negb (cmd_ExecMode cmd) in
  cmdArgs <- (if withShell then expand_each sl (fun arg => "failed to expand CMD " +:+ arg) false (cmd_Args cmd)
              else eret (cmd_Args cmd)) ;;
  wrapError sl "apply CMD" (call (CCmd cmdArgs withShell))).

Definition handleEntrypoint (cmd : Command) : I unit :=
  let sl := cmd_SourceLocation cmd in
  unless_push_only sl (
  let withShell := negb (cmd_ExecMode cmd) in
  entArgs <- (if withShell then expand_each sl (fun arg => "failed to expand ENTRYPOINT " +:+ arg) false (cmd_Args cmd)
              else eret (cmd_Args cmd)) ;;
  wrapError sl "apply ENTRYPOINT" (call (CEntrypoint entArgs withShell))).

(** The ports come out of a map of [nat.ParsePortSpecs], in its order. *)
Definition handleExpose (cmd : Command) : I unit :=
  let sl := cmd_SourceLocation cmd in
  unless_push_only sl (
  if length (cmd_Args cmd) =? 0 then interp_errorf sl "no arguments provided to the EXPOSE command"
  else
    ports <- expand_each sl (fun port => "failed to expand EXPOSE " +:+ port) false (cmd_Args cmd) ;;
    parsedPorts <- wrapError sl "failed to parse EXPOSE command" (of_res (ParsePortSpecs ports)) ;;
    wrapError sl "apply EXPOSE" (call (CExpose parsedPorts))).

Definition handleVolume (cmd : Command) : I unit :=
  let sl := cmd_SourceLocation cmd in
  unless_push_only sl (
  if length (cmd_Args cmd) =? 0 then interp_errorf sl "no arguments provided to the VOLUME command"
  else
    volumes <- expand_each sl (fun volume => "failed to expand VOLUME " +:+ volume) false (cmd_Args cmd) ;;
    wrapError sl "apply VOLUME" (call (CVolume volumes))).

(** ** Variables *)

Definition handleEnv (cmd : Command) : I unit :=
  let sl := cmd_SourceLocation cmd in
  unless_push_only sl (
  kv <- match cmd_Args cmd with
        | [key; eq; v] =>
            if negb (String.eqb eq "=") then interp_errorf sl "invalid syntax"
            else
              value <- wrapError sl ("failed to expand ENV " +:+ v) (expandArgs v false false) ;;
              eret (key, value)
        | [key] => eret (key, "")
        | _ => interp_errorf sl "invalid syntax"
        end ;;
  wrapError sl "apply ENV" (call (CEnv (fst kv) (snd kv)))).

Definition handleArg (cmd : Command) : I unit :=
  let sl := cmd_SourceLocation cmd in
  unless_push_only sl (
  i <- self ;;
  p <- wrapError sl ("invalid ARG arguments " +:+ vlist (cmd_Args cmd))
    (of_res (ParseArgArgs parse_Arg cmd (isBase i) ExplicitGlobal)) ;;
  let '(opts, key, valueOrNil) := p in
  value <- match valueOrNil with
           | Some v => wrapError sl ("failed to expand ARG " +:+ v) (expandArgs v true false)
           | None => eret ""
           end ;;
  wrapError sl "apply ARG" (call (CArg key value opts))).

Definition handleLet (cmd : Command) : I unit :=
  let sl := cmd_SourceLocation cmd in
  unless_push_only sl (
  p <- ewrap (EWrapped "failed to parse LET args") (of_res (ParseArgsCleaned parse_Let (cmd_Args cmd))) ;;
  match snd p with
  | [key; eq; baseVal] =>
      if negb (String.eqb eq "=") then
        efail (EText (hint_wrap ErrInvalidSyntax "LET requires a variable assignment, e.g. LET foo = bar"))
      else
        val <- wrapError sl ("failed to expand LET value " +:+ Quote baseVal) (expandArgs baseVal true false) ;;
        wrapError sl "apply LET" (call (CLet key val))
  | _ => efail (EText (hint_wrap ErrInvalidSyntax "LET requires a variable assignment, e.g. LET foo = bar"))
  end).

Definition parseSetArgs (cmd : Command) : I (string * string) :=
  p <- ewrap (EWrapped "failed to parse SET args") (of_res (ParseArgsCleaned parse_Set (cmd_Args cmd))) ;;
  match snd p with
  | [name; eq; value] =>
      if negb (String.eqb eq "=") then efail (EText ErrInvalidSyntax) else eret (name, value)
  | _ => efail (EText ErrInvalidSyntax)
  end.

(** There is no test of [pushOnlyAllowed] here. *)
Definition handleSet (cmd : Command) : I unit :=
  if negb ArgScopeSet then efail (EText "unknown command SET")
  else
    p <- ewrap (EWrapped "failed to parse SET arguments") (parseSetArgs cmd) ;;
    newVal <- wrapError (cmd_SourceLocation cmd) ("failed to expand SET " +:+ snd p) (expandArgs (snd p) true false) ;;
    call (CUpdateArg (fst p) newVal).

(** What the next argument of LABEL is. *)
Inductive labelNext : Type := NextKey | NextEqual (key : string) | NextValue (key : string).

Fixpoint label_loop (sl : Loc) (args : list string) (next : labelNext) (labels : gmap string string)
    : I (gmap string string) :=
  match args, next with
  | [], NextKey => eret labels
  | [], _ => interp_errorf sl "syntax error"
  | arg :: args, NextKey =>
      key <- wrapError sl ("failed to expand LABEL key " +:+ arg) (expandArgs arg false false) ;;
      if HasPrefix key "dev.earthly." then
        interp_errorf sl ("LABEL keys starting with " +:+ Quote "dev.earthly." +:+ " are reserved")
      else label_loop sl args (NextEqual key) labels
  | arg :: args, NextEqual key =>
      if negb (String.eqb arg "=") then interp_errorf sl "syntax error" else label_loop sl args (NextValue key) labels
  | arg :: args, NextValue key =>
      value <- wrapError sl ("failed to expand LABEL value " +:+ arg) (expandArgs arg false false) ;;
      label_loop sl args NextKey (<[key := value]> labels)
  end.

Definition handleLabel (cmd : Command) : I unit :=
  let sl := cmd_SourceLocation cmd in
  unless_push_only sl (
  labels <- label_loop sl (cmd_Args cmd) NextKey ∅ ;;
  if bool_decide (labels = ∅) then interp_errorf sl "no labels provided in LABEL command"
  else wrapError sl "apply LABEL" (call (CLabel labels))).

(** ** GIT CLONE, HEALTHCHECK *)

Definition handleGitClone (cmd : Command) : I unit :=
  let sl := cmd_SourceLocation cmd in
  unless_push_only sl (
  p <- cleaned parse_GitClone sl ("invalid GIT CLONE arguments " +:+ vlist (cmd_Args cmd)) (cmd_Args cmd) ;;
  let '(opts, args) := p in
  match args with
  | [url; dest] =>
      gitURL <- wrapError sl ("failed to expand GIT CLONE url: " +:+ url) (expandArgs url false false) ;;
      gitCloneDest <- wrapError sl ("failed to expand GIT CLONE dest: " +:+ dest) (expandArgs dest false false) ;;
      gitBranch <- wrapError sl ("failed to expand GIT CLONE dest: " +:+ gc_Branch opts)
        (expandArgs (gc_Branch opts) false false) ;;
      converted <- wrapError sl ("unable to use " +:+ vlist (cmd_Args cmd) +:+
        " with configured earthly credentials from ~/.earthly/config.yml") (call (CConvertCloneURL gitURL)) ;;
      wrapError sl "git clone" (call (CGitClone (fst converted) (snd converted) gitBranch gitCloneDest (gc_KeepTs opts)))
  | _ => interp_errorf sl ("invalid number of arguments for GIT CLONE: " +:+ vlist (cmd_Args cmd))
  end).

(** Whether the healthcheck is NONE, and its command. *)
Definition healthcheck_args (sl : Loc) (cmdArgs args : list string) : I (bool * list string) :=
  match args with
  | [] => interp_errorf sl ("invalid number of arguments for HEALTHCHECK: " +:+ vlist cmdArgs)
  | kind :: rest =>
      if String.eqb kind "NONE" then
        if negb (length rest =? 0) then interp_errorf sl ("invalid arguments for HEALTHCHECK: " +:+ vlist cmdArgs)
        else eret (true, [])
      else if String.eqb kind "CMD" then
        if length rest =? 0 then
          interp_errorf sl ("invalid number of arguments for HEALTHCHECK CMD: " +:+ vlist cmdArgs)
        else eret (false, rest)
      else if HasPrefix kind "[" then
        interp_errorf sl ("exec form not yet supported for HEALTHCHECK CMD: " +:+ vlist cmdArgs)
      else interp_errorf sl ("invalid arguments for HEALTHCHECK: " +:+ vlist cmdArgs)
  end.

Definition handleHealthcheck (cmd : Command) : I unit :=
  let sl := cmd_SourceLocation cmd in
  unless_push_only sl (
  p <- cleaned parse_HealthCheck sl ("invalid HEALTHCHECK arguments " +:+ vlist (cmd_Args cmd)) (cmd_Args cmd) ;;
  let '(opts, args) := p in
  h <- healthcheck_args sl (cmd_Args cmd) args ;;
  cmdArgs <- expand_each sl (fun arg => "failed to expand HEALTHCHECK arguments " +:+ arg) false (snd h) ;;
  wrapError sl "apply HEALTHCHECK" (call (CHealthcheck (fst h) cmdArgs opts))).

(** ** WITH DOCKER *)

Definition docker_load (sl : Loc) (opts : WithDockerOpts) (platform : Platform) (buildArgs : list string)
    (loadStr : string) : I DockerLoadOpt :=
  p <- wrapError sl "parse load" (of_res (ParseLoad loadStr)) ;;
  let '(loadImg, loadTarget, flagArgs) := p in
  expandedFlagArgs <- wrapError sl ("failed to expand WITH DOCKER load flag: " +:+ vlist flagArgs)
    (expandArgsSlice flagArgs false) ;;
  parsedFlagArgs <- parse_flag_args sl expandedFlagArgs ;;
  allowPriv <- getAllowPrivilegedTarget loadTarget (wd_AllowPrivileged opts) ;;
  if negb PassArgs && wd_PassArgs opts then
    interp_errorf sl "the WITH DOCKER --pass-args flag must be enabled with the VERSION --pass-args feature flag."
  else eret (mkDockerLoad loadTarget loadImg platform (parsedFlagArgs ++ buildArgs) allowPriv (wd_PassArgs opts)).

Definition add_load (l : DockerLoadOpt) (d : WithDockerOpt) : WithDockerOpt :=
  mkWithDockerOpt (wo_OIDCInfo d) (wo_CacheID d) (wo_Pulls d) (wo_Secrets d) (wo_Mounts d) (wo_TryCatchSaveArtifacts d)
    (wo_ComposeServices d) (wo_ComposeFiles d) (wo_Loads d ++ [l]) (wo_WithSSH d) (wo_WithAWSCredentials d)
    (wo_interactiveKeep d) (wo_Interactive d) (wo_NoCache d) (wo_WithEntrypoint d) (wo_WithShell d).

Definition set_CacheID (id : string) (d : WithDockerOpt) : WithDockerOpt :=
  mkWithDockerOpt (wo_OIDCInfo d) id (wo_Pulls d) (wo_Secrets d) (wo_Mounts d) (wo_TryCatchSaveArtifacts d)
    (wo_ComposeServices d) (wo_ComposeFiles d) (wo_Loads d) (wo_WithSSH d) (wo_WithAWSCredentials d)
    (wo_interactiveKeep d) (wo_Interactive d) (wo_NoCache d) (wo_WithEntrypoint d) (wo_WithShell d).

(** [i.withDocker.f = ...], where the pointer is known not to be nil. *)
Definition update_docker (f : WithDockerOpt -> WithDockerOpt) : I unit :=
  update (fun i => set_withDocker (option_map f (withDocker i)) i).

Definition handleWithDocker (cmd : Command) : I unit :=
  let sl := cmd_SourceLocation cmd in
  unless_push_only sl (
  i <- self ;;
  match withDocker i with
  | Some _ => interp_errorf sl "cannot use WITH DOCKER within WITH DOCKER"
  | None =>
      p <- cleaned parse_WithDocker sl ("invalid WITH DOCKER arguments " +:+ vlist (cmd_Args cmd)) (cmd_Args cmd) ;;
      let '(opts, args) := p in
      if negb (length args =? 0) then interp_errorf sl ("invalid WITH DOCKER arguments " +:+ vlist args)
      else
        expandedPlatform <- wrapError sl ("failed to expand WITH DOCKER platform " +:+ wd_Platform opts)
          (expandArgs (wd_Platform opts) false false) ;;
        platform <- parse_platform sl expandedPlatform ;;
        composeFiles <- expand_each sl (fun cf => "failed to expand WITH DOCKER compose: " +:+ cf) false
          (wd_ComposeFiles opts) ;;
        composeServices <- expand_each sl (fun cs => "failed to expand WITH DOCKER compose service: " +:+ cs) false
          (wd_ComposeServices opts) ;;
        loads <- expand_each sl (fun load => "failed to expand WITH DOCKER load: " +:+ load) true (wd_Loads opts) ;;
        buildArgs <- wrapError sl ("failed to expand WITH DOCKER build args " +:+ vlist (wd_BuildArgs opts))
          (expandArgsSlice (wd_BuildArgs opts) false) ;;
        pulls <- expand_each sl (fun p => "failed to expand WITH DOCKER pull: " +:+ p) false (wd_Pulls opts) ;;
        update (set_withDocker (Some (mkWithDockerOpt None "" (List.map (mkDockerPull platform) pulls) [] []
          (interactiveSaveFiles i) composeServices composeFiles [] false false false false false false false))) ;;;
        eiter (fun loadStr =>
          l <- docker_load sl opts platform buildArgs loadStr ;; update_docker (add_load l)) loads ;;;
        if String.eqb (wd_CacheID opts) "" then eret tt
        else if negb DockerCache then
          interp_errorf sl "the WITH DOCKER --cache-id flag must be enabled with the VERSION --docker-cache feature flag."
        else update_docker (set_CacheID (wd_CacheID opts))
  end).

(** ** IMPORT, PROJECT, CACHE, HOST *)

Definition handleImport (cmd : Command) : I unit :=
  let sl := cmd_SourceLocation cmd in
  p <- cleaned parse_Import sl ("invalid IMPORT arguments " +:+ vlist (cmd_Args cmd)) (cmd_Args cmd) ;;
  let '(opts, args) := p in
  match args with
  | [name] | [name; _; _] =>
      if (length args =? 3) && negb (String.eqb (nth 1 args "") "AS") then
        interp_errorf sl ("invalid arguments for IMPORT: " +:+ vlist args)
      else
        importStr <- wrapError sl ("failed to expand IMPORT " +:+ name) (expandArgs name false false) ;;
        as_ <- (if length args =? 3 then
                  wrapError sl "failed to expand IMPORT as: " (expandArgs (nth 2 args "") false false)
                else eret "") ;;
        i <- self ;;
        wrapError sl "apply IMPORT" (call (CImport importStr as_ (String.eqb (Name (in_target i)) TargetBase)
          (allowPrivileged i) (imp_AllowPrivileged opts)))
  | _ => interp_errorf sl ("invalid number of arguments for IMPORT: " +:+ vlist args)
  end.

Definition handleProject (cmd : Command) : I unit :=
  let sl := cmd_SourceLocation cmd in
  match cmd_Args cmd with
  | [] => efail (EPanic "index out of range [0] with length 0")
  | projectVal :: _ =>
      match Split projectVal slash with
      | [org; project] => wrapError sl "failed to process PROJECT" (call (CProject org project))
      | _ => interp_errorf sl "unexpected format for PROJECT statement, should be: <organization>/<project>"
      end
  end.

Definition handleCache (cmd : Command) : I unit :=
  let sl := cmd_SourceLocation cmd in
  if negb UseCacheCommand then interp_errorf sl "the CACHE command is not supported in this version"
  else
    p <- cleaned parse_Cache sl ("invalid CACHE arguments " +:+ vlist (cmd_Args cmd)) (cmd_Args cmd) ;;
    let '(opts, args) := p in
    match args with
    | [arg] =>
        i <- self ;;
        if local i then interp_errorf sl "CACHE command not supported with LOCALLY"
        else
          dir <- wrapError sl ("failed to expand CACHE directory " +:+ arg) (expandArgs arg false false) ;;
          mode <- wrapError sl ("failed to expand CACHE mode " +:+ cache_Mode opts)
            (expandArgs (cache_Mode opts) false false) ;;
          dir <- (if IsAbs dir then eret dir
                  else wdir <- call CWorkingDir ;; eret (Clean (path_Join ["/"; wdir; dir]))) ;;
          id <- (if String.eqb (cache_ID opts) "" then eret ""
                 else wrapError sl "failed to expand CACHE id " (expandArgs (cache_ID opts) false false)) ;;
          wrapError sl "apply CACHE" (call (CCache dir (mkCacheOpts (cache_Sharing opts) mode id (cache_Persist opts))))
    | _ => interp_errorf sl ("invalid number of arguments for CACHE: " +:+ vlist args)
    end.

Definition handleHost (cmd : Command) : I unit :=
  let sl := cmd_SourceLocation cmd in
  if negb UseHostCommand then interp_errorf sl "the HOST command is not supported in this version"
  else
    match cmd_Args cmd with
    | [hostArg; ipArg] =>
        i <- self ;;
        if local i then interp_errorf sl "HOST command not supported with LOCALLY"
        else
          host <- dropError sl ("unable to expand host name for HOST: " +:+ vlist (cmd_Args cmd))
            (expandArgs hostArg true false) ;;
          ipStr <- dropError sl ("unable to expand IP addr for HOST: " +:+ vlist (cmd_Args cmd))
            (expandArgs ipArg true false) ;;
          match ParseIP ipStr with
          | None => interp_errorf sl ("invalid HOST ip " +:+ ipStr)
          | Some ip => wrapError sl "apply HOST" (call (CHost host ip))
          end
    | args => interp_errorf sl ("invalid number of arguments for HOST: " +:+ vlist args)
    end.

(** ** Commands that are only errors *)

Definition handleAdd (cmd : Command) : I unit := interp_errorf (cmd_SourceLocation cmd) "command ADD not yet supported".
Definition handleStopsignal (cmd : Command) : I unit :=
  interp_errorf (cmd_SourceLocation cmd) "command STOPSIGNAL not yet supported".
Definition handleOnbuild (cmd : Command) : I unit := interp_errorf (cmd_SourceLocation cmd) "command ONBUILD not supported".
Definition handleShell (cmd : Command) : I unit := interp_errorf (cmd_SourceLocation cmd) "command SHELL not yet supported".
Definition handleUserCommand (cmd : Command) : I unit :=
  interp_errorf (cmd_SourceLocation cmd) "command COMMAND not allowed in a target definition".
Definition handleFunction (cmd : Command) : I unit :=
  interp_errorf (cmd_SourceLocation cmd) "command FUNCTION not allowed in a target definition".

End Cmds.
