(* ===== verification/InterpBlocks.v ===== *)
(** * The interpreter: blocks and statements

    [Run], the handlers of blocks and of the statements that hold blocks, DO, and
    the dispatch on commands, of [earthfile2llb/interpreter.go].  The handlers that
    go back to blocks take the two recursive routines as arguments, and the knot is
    tied with fuel at the end: a block, a statement and a call of DO take one unit
    each. *)

From stdpp Require Import gmap.
From S2P Require Import Prelude GoStrings Token Ast GoText Reference Imports KeyValue Collection.
From S2P Require Import Validator Effects ShellLex FlagUtil Matrix ConvApi Interp InterpCmds.

Open Scope eff_scope.

Section Blocks.
Context {W : Type} `{Converter W} `{FlagParsers} `{Features} `{Packages} `{Unicode} `{UnicodeTables} `{SliceGrowth}.
Abbreviation I := (@I W).

Definition statement_kind (s : Statement) : StatementKind := match s with mkStatement k _ => k end.
Definition statement_loc (s : Statement) : Loc := match s with mkStatement _ l => l end.

Definition stmt_argLike (s : Statement) : bool :=
  match statement_kind s with SCommand c => isArgLike c | _ => false end.

(** ** Looking ahead *)

Definition stops_lookahead (name : Cmd) : bool :=
  existsb (String.eqb name) [CmdArg; CmdLocally; CmdFrom; CmdFromDockerfile; CmdLet; CmdSet].

(** [handleBlockParallel] from a statement on. *)
Fixpoint lookahead (build : Command -> bool -> I unit) (b : Block) : I unit :=
  match b with
  | [] => eret tt
  | s :: b =>
      match statement_kind s with
      | SCommand c =>
          if stops_lookahead (cmd_Name c) then eret tt
          else if String.eqb (cmd_Name c) CmdBuild then
            r <- etry (build c true) ;;
            match r with
            | inl _ => lookahead build b
            | inr e => if errors_Is is_CannotAsync e then lookahead build b else efail e
            end
          else lookahead build b
      | SWith _ => lookahead build b
      | SIf _ | SFor _ | SWait _ | STry _ => eret tt
      end
  end.

Definition handleBlockParallel (build : Command -> bool -> I unit) (b : Block) : I unit :=
  i <- self ;; if local i then eret tt else lookahead build b.

(** The loop of [handleBlock]. *)
Fixpoint block_loop (build : Command -> bool -> I unit) (statement : Statement -> I unit) (b : Block)
    (prevWasArgLike : bool) : I unit :=
  match b with
  | [] => eret tt
  | s :: rest =>
      i <- self ;;
      (if parallelConversion i && prevWasArgLike then handleBlockParallel build b else eret tt) ;;;
      statement s ;;;
      block_loop build statement rest (stmt_argLike s)
  end.

Section Statements.
Variables (build : Command -> bool -> I unit) (block : Block -> I unit) (statement : Statement -> I unit).

(** ** IF *)

Definition handleIfExpression (expression : list string) (execMode : bool) (sl : Loc) : I bool :=
  if length expression <? 1 then interp_errorf sl "not enough arguments for IF"
  else
    p <- cleaned parse_If sl ("invalid IF arguments " +:+ vlist expression) expression ;;
    let '(opts, args) := p in
    secrets <- expand_each sl (fun s => "failed to expand IF secret " +:+ s) true (if_Secrets opts) ;;
    mounts <- expand_each sl (fun m => "failed to expand IF mount " +:+ m) false (if_Mounts opts) ;;
    i <- self ;;
    exitCode <- wrapError sl "apply IF" (call (CRunExitCode
      {| ro_CommandName := "IF"; ro_Args := args; ro_Locally := local i; ro_Mounts := mounts; ro_Secrets := secrets;
         ro_WithShell := negb execMode; ro_WithEntrypoint := false; ro_Privileged := if_Privileged opts;
         ro_NoNetwork := false; ro_Push := false; ro_WithSSH := if_WithSSH opts; ro_NoCache := if_NoCache opts;
         ro_Interactive := false; ro_InteractiveKeep := false; ro_InteractiveSaveFiles := [];
         ro_WithAWSCredentials := false; ro_OIDCInfo := None; ro_RawOutput := false; ro_Transient := negb (local i) |})) ;;
    eret (exitCode =? 0)%Z.

Fixpoint else_ifs (l : list ElseIfStatement) (elseBody : option Block) : I unit :=
  match l with
  | [] => match elseBody with Some b => block b | None => eret tt end
  | mkElseIf sl expression body execMode :: l =>
      isZero <- handleIfExpression expression execMode sl ;;
      if isZero : bool then block body else else_ifs l elseBody
  end.

Definition handleIf (s : IfStatement) : I unit :=
  match s with
  | mkIf elseBody sl expression elseIf ifBody execMode =>
      i <- self ;;
      if pushOnlyAllowed i then interp_errorf sl "no non-push commands allowed after a --push"
      else
        isZero <- handleIfExpression expression execMode sl ;;
        if isZero : bool then block ifBody else else_ifs elseIf elseBody
  end.

(** ** FOR *)

Definition handleForArgs (forArgs : list string) (sl : Loc) : I (string * list string) :=
  p <- cleaned parse_For sl ("invalid FOR arguments " +:+ vlist forArgs) forArgs ;;
  let '(opts, args) := p in
  match args with
  | variable :: kw :: _ :: _ =>
      if negb (String.eqb kw "IN") then interp_errorf sl ("expected IN, got " +:+ kw)
      else
        i <- self ;;
        output <- wrapError sl "apply FOR ... IN" (call (CRunExpression variable
          {| ro_CommandName := "FOR"; ro_Args := skipn 2 args; ro_Locally := local i; ro_Mounts := for_Mounts opts;
             ro_Secrets := for_Secrets opts; ro_WithShell := true; ro_WithEntrypoint := false;
             ro_Privileged := for_Privileged opts; ro_NoNetwork := false; ro_Push := false;
             ro_WithSSH := for_WithSSH opts; ro_NoCache := for_NoCache opts; ro_Interactive := false;
             ro_InteractiveKeep := false; ro_InteractiveSaveFiles := []; ro_WithAWSCredentials := false;
             ro_OIDCInfo := None; ro_RawOutput := false; ro_Transient := negb (local i) |})) ;;
        eret (variable, FieldsFunc output (fun r => existsb (Z.eqb r) (runes (for_Separators opts))))
  | _ => interp_errorf sl "not enough arguments for FOR"
  end.

Definition for_instance (sl : Loc) (variable : string) (body : Block) (instance : string) : I unit :=
  wrapError sl ("set " +:+ variable +:+ "=" +:+ instance) (call (CSetArg variable instance)) ;;;
  block body ;;;
  wrapError sl ("unset " +:+ variable) (call (CUnsetArg variable)).

(** There is no test of [pushOnlyAllowed] here. *)
Definition handleFor (s : ForStatement) : I unit :=
  match s with
  | mkFor sl args body =>
      if negb ForIn then interp_errorf sl "the FOR command is not supported in this version"
      else
        p <- handleForArgs args sl ;;
        eiter (for_instance sl (fst p) body) (snd p)
  end.

(** ** WAIT *)

Definition handleWait (s : WaitStatement) : I unit :=
  match s with
  | mkWait sl args body =>
      if negb WaitBlock then interp_errorf sl "the WAIT command is not supported in this version"
      else if negb ReferencedSaveOnly then
        interp_errorf sl "the WAIT command requires the --referenced-save-only feature"
      else if negb (length args =? 0) then interp_errorf sl "WAIT does not accept any options"
      else call CPushWaitBlock ;;; block body ;;; call CPopWaitBlock
  end.

(** ** DO *)

Definition find_function (name : string) (l : list Function_) : option Function_ :=
  List.find (fun uc => String.eqb (fn_Name uc) name) l.

Definition scope_name (command : Reference) (l : SourceLocation) : string :=
  referenceStringCanonical command +:+ " (" +:+ File l +:+ ":" +:+ fmt_d (StartLine l) +:+ ":" +:+ fmt_d (StartColumn l) +:+ ")".

Definition handleDoFunction (command relCommand : Reference) (uc : Function_) (do : Command) (buildArgs : list string)
    (allowPriv passArgs useFunctionCmd : bool) : I unit :=
  let cmdName := if useFunctionCmd then CmdFunction else CmdCommand in
  let sl := fn_SourceLocation uc in
  i <- self ;;
  if allowPriv && negb (allowPrivileged i) then interp_errorf sl ("invalid privileged in " +:+ cmdName)
  else
    match fn_Recipe uc with
    | mkStatement (SCommand c) loc :: body =>
        if negb (String.eqb (cmd_Name c) cmdName) then
          interp_errorf sl ((if useFunctionCmd then "function" else "command") +:+ " recipes must start with " +:+ cmdName)
        else if negb (length (cmd_Args c) =? 0) then interp_errorf loc (cmdName +:+ " takes no arguments")
        else
          match cmd_SourceLocation do with
          | None => efail (EPanic "invalid memory address or nil pointer dereference")
          | Some l =>
              wrapError sl "enter scope" (call (CEnterScopeDo command (baseTarget relCommand) allowPriv passArgs
                (scope_name command l) buildArgs)) ;;;
              update (set_allowPrivileged allowPriv) ;;;
              block body ;;;
              wrapError sl "exit scope" (call CExitScope) ;;;
              update (set_allowPrivileged (allowPrivileged i))
          end
    | _ => interp_errorf sl ((if useFunctionCmd then "function" else "command") +:+ " recipes must start with " +:+ cmdName)
    end.

Definition handleDo (cmd : Command) : I unit :=
  let sl := cmd_SourceLocation cmd in
  p <- cleaned parse_Do sl ("invalid DO arguments " +:+ vlist (cmd_Args cmd)) (cmd_Args cmd) ;;
  let '(opts, args) := p in
  match args with
  | [] => interp_errorf sl ("invalid number of arguments for DO: " +:+ vlist args)
  | arg0 :: rest =>
      expandedFlagArgs <- wrapError sl ("failed to expand DO flags " +:+ vlist rest) (expandArgsSlice rest false) ;;
      parsedFlagArgs <- parse_flag_args sl expandedFlagArgs ;;
      ucName <- wrapError sl ("failed to expand user command " +:+ arg0) (expandArgs arg0 false false) ;;
      relCommand <- wrapError sl ("unable to parse user command reference " +:+ ucName)
        (of_res (ParseCommand HOME ucName)) ;;
      i <- self ;;
      let allowPriv := if IsRemote relCommand then allowPrivileged i && do_AllowPrivileged opts else allowPrivileged i in
      bc <- wrapError sl ("unable to resolve user command " +:+ ucName) (call (CResolveReference relCommand)) ;;
      match kind (rs_Ref bc) with
      | KTarget => interp_errorf sl "want domain.Command, got domain.Target"
      | KCommand =>
          let allowPriv := if rs_allowPrivilegedSet bc then allowPriv && rs_allowPrivileged bc else allowPriv in
          if negb PassArgs && do_PassArgs opts then
            interp_errorf sl "the DO --pass-args flag must be enabled with the VERSION --pass-args feature flag."
          else
            match find_function (Name (rs_Ref bc)) (rs_Functions bc) with
            | Some uc =>
                handleDoFunction (rs_Ref bc) relCommand uc cmd parsedFlagArgs allowPriv (do_PassArgs opts)
                  (rs_UseFunctionKeyword bc)
            | None =>
                interp_errorf sl ("user command " +:+ ucName +:+ " not found (available functions: " +:+
                  vlist (List.map fn_Name (rs_Functions bc)) +:+ ")")
            end
      end
  end.

(** ** Commands *)

(** The arguments of the command are values here: the check that they have not
    been modified always succeeds. *)
Definition handleCommand (cmd : Command) : I unit :=
  let sl := cmd_SourceLocation cmd in
  let named n := String.eqb (cmd_Name cmd) n in
  i <- self ;;
  if isWith i then
    if named CmdDocker then handleWithDocker cmd
    else interp_errorf sl ("unexpected WITH command " +:+ cmd_Name cmd)
  else if named CmdFrom then handleFrom cmd
  else if named CmdRun then handleRun cmd
  else if named CmdFromDockerfile then handleFromDockerfile cmd
  else if named CmdLocally then handleLocally cmd
  else if named CmdCopy then handleCopy cmd
  else if named CmdSaveArtifact then handleSaveArtifact cmd
  else if named CmdSaveImage then handleSaveImage cmd
  else if named CmdBuild then build cmd false
  else if named CmdWorkdir then handleWorkdir cmd
  else if named CmdUser then handleUser cmd
  else if named CmdCmd then handleCmd cmd
  else if named CmdEntrypoint then handleEntrypoint cmd
  else if named CmdExpose then handleExpose cmd
  else if named CmdVolume then handleVolume cmd
  else if named CmdEnv then handleEnv cmd
  else if named CmdArg then handleArg cmd
  else if named CmdLet then handleLet cmd
  else if named CmdSet then handleSet cmd
  else if named CmdLabel then handleLabel cmd
  else if named CmdGitClone then handleGitClone cmd
  else if named CmdHealthCheck then handleHealthcheck cmd
  else if named CmdAdd then handleAdd cmd
  else if named CmdStopSignal then handleStopsignal cmd
  else if named CmdOnBuild then handleOnbuild cmd
  else if named CmdShell then handleShell cmd
  else if named CmdCommand then handleUserCommand cmd
  else if named CmdFunction then handleFunction cmd
  else if named CmdDo then handleDo cmd
  else if named CmdImport then handleImport cmd
  else if named CmdCache then handleCache cmd
  else if named CmdHost then handleHost cmd
  else if named CmdProject then handleProject cmd
  else interp_errorf sl ("unexpected command " +:+ Quote (cmd_Name cmd)).

(** ** WITH *)

Definition handleWith (s : WithStatement) : I unit :=
  match s with
  | mkWith sl body cmd =>
      update (set_isWith true) ;;;
      r <- etry (handleCommand cmd) ;;
      update (set_isWith false) ;;;
      match r with
      | inr e => efail e
      | inl _ =>
          i <- self ;;
          if bool_decide (is_Some (withDocker i)) && (1 <? length body) then
            interp_errorf sl "only one command is allowed in WITH DOCKER and it has to be RUN"
          else
            block body ;;;
            update (set_withDocker None) ;;;
            i <- self ;;
            if negb (withDockerRan i) then interp_errorf sl "no RUN command found in WITH DOCKER"
            else update (set_withDockerRan false)
      end
  end.

(** ** TRY *)

Definition nil_dereference : error := EPanic "invalid memory address or nil pointer dereference".

(** The file that a SAVE ARTIFACT of the FINALLY block saves. *)
Definition try_save_file (trySl : Loc) (s : Statement) : I SaveFile :=
  match statement_kind s with
  | SCommand cmd =>
      if negb (String.eqb (cmd_Name cmd) CmdSaveArtifact) then
        interp_errorf trySl ("CATCH/FINALLY body only (currently) supports SAVE ARTIFACT ... AS LOCAL commands; got " +:+
          cmd_Name cmd)
      else
        let sl := cmd_SourceLocation cmd in
        p <- cleaned parse_SaveArtifact sl ("invalid SAVE ARTIFACT arguments " +:+ vlist (cmd_Args cmd)) (cmd_Args cmd) ;;
        let '(opts, args) := p in
        if sa_KeepTs opts || sa_KeepOwn opts || sa_SymlinkNoFollow opts || sa_Force opts then
          interp_errorf sl ("only the SAVE ARTIFACT --if-exists option is allowed in a TRY/FINALLY block: " +:+
            vlist (cmd_Args cmd))
        else
          match parseSaveArtifactArgs args with
          | None => interp_errorf sl ("invalid arguments for SAVE ARTIFACT command: " +:+ vlist (cmd_Args cmd))
          | Some (saveFrom, _, saveAsLocalTo) =>
              if has_star saveFrom then
                interp_errorf sl "TRY/CATCH/FINALLY does not (currently) support wildcard SAVE ARTIFACT paths"
              else if String.eqb saveAsLocalTo "" then
                interp_errorf sl "missing local name for SAVE ARTIFACT within TRY/CATCH/FINALLY"
              else if ContainsByte saveAsLocalTo "$"%char then
                interp_errorf sl
                  "TRY/CATCH/FINALLY does not (currently) support expanding args for SAVE ARTIFACT paths"
              else
                let destIsDir := HasSuffix saveAsLocalTo "/" || String.eqb saveAsLocalTo "." in
                let dst := if destIsDir then path_Join [saveAsLocalTo; path_Base saveFrom] else saveAsLocalTo in
                eret (mkSaveFile saveFrom dst (sa_IfExists opts))
          end
  | _ => efail nil_dereference
  end.

Definition try_body_ok (s : Statement) : option string :=
  match statement_kind s with
  | SWith (mkWith _ body cmd) =>
      if String.eqb (cmd_Name cmd) CmdDocker then
        if negb (length body =? 1) then Some "TRY body can (currently) only contain a single command" else None
      else Some "TRY body must (currently) be a RUN command (or a RUN inside a WITH DOCKER)"
  | SCommand cmd =>
      if String.eqb (cmd_Name cmd) CmdRun then None
      else Some "TRY body must (currently) be a RUN command (or a RUN inside a WITH DOCKER)"
  | _ => Some "TRY body must (currently) be a RUN command (or a RUN inside a WITH DOCKER)"
  end.

Definition handleTry (s : TryStatement) : I unit :=
  match s with
  | mkTry catchBody finallyBody sl tryBody =>
      if negb TryFinally then interp_errorf sl "the TRY/CATCH/FINALLY commands are not supported in this version"
      else
        match tryBody with
        | [] => interp_errorf sl "TRY body is empty"
        | [s0] =>
            if bool_decide (is_Some catchBody) then
              interp_errorf sl "TRY/FINALLY doesn't (currently) support CATCH statements"
            else
              match try_body_ok s0 with
              | Some text => interp_errorf sl text
              | None =>
                  match finallyBody with
                  | None => efail nil_dereference
                  | Some finally =>
                      saveArtifacts <- emap (try_save_file sl) finally ;;
                      update (set_saveFiles saveArtifacts) ;;;
                      statement s0 ;;;
                      eiter statement finally
                  end
              end
        | _ => interp_errorf sl "TRY body can (currently) only contain a single command"
        end
  end.

Definition statement_body (s : Statement) : I unit :=
  match statement_kind s with
  | SCommand c => handleCommand c
  | SWith w => handleWith w
  | SIf s => handleIf s
  | SFor s => handleFor s
  | SWait s => handleWait s
  | STry s => handleTry s
  end.

End Statements.

(** ** The knot *)

Fixpoint handleStatement (fuel : nat) (s : Statement) {struct fuel} : I unit :=
  match fuel with
  | O => estuck
  | S f => statement_body (handleBuild f) (handleBlock f) (handleStatement f) s
  end
with handleBlock (fuel : nat) (b : Block) {struct fuel} : I unit :=
  match fuel with
  | O => estuck
  | S f => block_loop (handleBuild f) (handleStatement f) b true
  end.

(** ** Targets *)

Definition handleTarget (fuel : nat) (t : Target) : I unit :=
  i <- self ;;
  wrapError (target_SourceLocation t) "apply FROM"
    (call (CFrom "+base" DefaultPlatform (allowPrivileged i) false [])) ;;;
  handleBlock fuel (target_Recipe t).

Definition run_tree (fuel : nat) (ef : Tree) : I unit :=
  i <- self ;;
  if String.eqb (Name (in_target i)) TargetBase then
    update (set_isBase true) ;;;
    r <- etry (handleBlock fuel (BaseRecipe ef)) ;;
    update (set_isBase false) ;;;
    match r with inl _ => eret tt | inr e => efail e end
  else
    match List.find (fun t => String.eqb (target_Name t) (Name (in_target i))) (Targets ef) with
    | Some t => handleTarget fuel t
    | None => interp_errorf (tree_SourceLocation ef) ("target " +:+ Name (in_target i) +:+ " not found")
    end.

(** [Interpreter.Run]: the deferred call records a failure. *)
Definition Interpreter_Run (fuel : nat) (ef : Tree) : I unit :=
  r <- etry (run_tree fuel ef) ;;
  match r with
  | inl _ => eret tt
  | inr e => call (CRecordTargetFailure e) ;;; efail e
  end.

End Blocks.
