(* ===== verification/InterpLogic.v ===== *)
(** * The interpreter: a logic for its history

    Two judgements on what a handler does from a given state of the interpreter:
    [quiet], that the interpreter's fields do not change, and [emits], that they
    may.  Both say that the calls made all satisfy a predicate. *)

From stdpp Require Import gmap.
From S2P Require Import Prelude GoStrings Token Ast GoText Reference Imports KeyValue Collection.
From S2P Require Import Validator Effects ShellLex FlagUtil Matrix ConvApi Interp.

Open Scope eff_scope.

Section Logic.
Context {W : Type} `{Converter W}.
Abbreviation I := (@I W).
Variable P : event -> Prop.

(** The calls made between two states satisfy [P]. *)
Definition adds (s s' : State W) : Prop := exists new, history s' = history s ++ new /\ Forall P new.

Lemma adds_refl s s' : history s' = history s -> adds s s'.
Proof. exists []. by rewrite app_nil_r. Qed.

Lemma adds_trans s1 s2 s3 : adds s1 s2 -> adds s2 s3 -> adds s1 s3.
Proof.
  intros (n1 & E1 & F1) (n2 & E2 & F2). exists (n1 ++ n2). split; [by rewrite E2, E1, app_assoc|].
  by apply List.Forall_app.
Qed.

(** From [i]: the fields stay as they are, whatever the outcome, and a value that
    is returned satisfies [Q]. *)
Definition quiet (i : Interpreter) {A} (m : I A) (Q : A -> Prop) : Prop := forall s,
  self_ s = i ->
  self_ (fst (m s)) = i /\ adds s (fst (m s)) /\ forall a, snd (m s) = Ret a -> Q a.

(** From [i]: when a value is returned, it and the fields satisfy [Q]. *)
Definition emits (i : Interpreter) {A} (m : I A) (Q : A -> Interpreter -> Prop) : Prop := forall s,
  self_ s = i -> adds s (fst (m s)) /\ forall a, snd (m s) = Ret a -> Q a (self_ (fst (m s))).

Section Rules.
Variable i : Interpreter.

Lemma quiet_ret {A} (a : A) (Q : A -> Prop) : Q a -> quiet i (eret a) Q.
Proof. intros Ha s Hs. split_and!; [done|by apply adds_refl|]. by intros ? [= <-]. Qed.

Lemma quiet_fail {A} e (Q : A -> Prop) : quiet i (efail e) Q.
Proof. intros s Hs. split_and!; [done|by apply adds_refl|done]. Qed.

Lemma quiet_stuck {A} (Q : A -> Prop) : quiet i estuck Q.
Proof. intros s Hs. split_and!; [done|by apply adds_refl|done]. Qed.

Lemma quiet_self : quiet i self (eq i).
Proof. intros s Hs. split_and!; [done|by apply adds_refl|]. intros ? [= <-]. by rewrite Hs. Qed.

Lemma quiet_call {A} (c : Call A) : P (mkEvent i c) -> quiet i (call c) (fun _ => True).
Proof.
  intros Hc s Hs. unfold call. destruct (answer c (world s)) as [w r]. simpl. rewrite Hs. split_and!; [done| |done].
  eexists. split; [done|]. by constructor.
Qed.

Lemma quiet_bind {A B} (m : I A) (k : A -> I B) R Q :
  quiet i m R -> (forall a, R a -> quiet i (k a) Q) -> quiet i (ebind m k) Q.
Proof.
  intros Hm Hk s Hs. destruct (Hm s Hs) as (Hs' & Hh & Hr). unfold ebind.
  destruct (m s) as [s' [a|e|]]; simpl in *; [|by split_and!..].
  destruct (Hk a (Hr a eq_refl) s' Hs') as (Hs2 & Hh2 & Hr2). split_and!; [done|by eapply adds_trans|done].
Qed.

Lemma quiet_wrap {A} h (m : I A) Q : quiet i m Q -> quiet i (ewrap h m) Q.
Proof.
  intros Hm s Hs. destruct (Hm s Hs) as (Hs' & Hh' & Hr). unfold ewrap. by destruct (m s) as [s' [a|e|]].
Qed.

Lemma quiet_try {A} (m : I A) Q : quiet i m Q -> quiet i (etry m) (fun r => match r with inl a => Q a | inr _ => True end).
Proof.
  intros Hm s Hs. destruct (Hm s Hs) as (Hs' & Hh' & Hr). unfold etry.
  destruct (m s) as [s' [a|e|]]; simpl in *; split_and!; try done; intros ? [= <-]; auto.
Qed.

Lemma quiet_weaken {A} (m : I A) (Q Q' : A -> Prop) : quiet i m Q -> (forall a, Q a -> Q' a) -> quiet i m Q'.
Proof. intros Hm Hq s Hs. destruct (Hm s Hs) as (? & ? & Hr). split_and!; auto. Qed.

Lemma quiet_any {A} (m : I A) (Q : A -> Prop) : quiet i m Q -> quiet i m (fun _ => True).
Proof. intros Hm. by eapply quiet_weaken. Qed.

Lemma quiet_map {A B} (f : A -> I B) l (Q : B -> Prop) :
  (forall x, quiet i (f x) Q) -> quiet i (emap f l) (Forall Q).
Proof.
  intros Hf. induction l as [|x l IH]; simpl; [by apply quiet_ret|].
  eapply quiet_bind; [apply Hf|]. intros y Hy. eapply quiet_bind; [exact IH|]. intros ys Hys.
  apply quiet_ret. by constructor.
Qed.

Lemma quiet_iter {A} (f : A -> I unit) l : (forall x, quiet i (f x) (fun _ => True)) -> quiet i (eiter f l) (fun _ => True).
Proof.
  intros Hf. induction l as [|x l IH]; simpl; [by apply quiet_ret|]. eapply quiet_bind; [apply Hf|]. done.
Qed.

Lemma quiet_res {A} (r : res A) : quiet i (of_res r) (fun a => r = Ok a).
Proof. destruct r; [by apply quiet_ret|apply quiet_fail|apply quiet_stuck]. Qed.

Lemma quiet_cleaned {O} (parse : flag_parser O) sl text args :
  quiet i (cleaned parse sl text args) (fun _ => True).
Proof. apply quiet_wrap. eapply quiet_any, quiet_res. Qed.

(** ** With changes of the fields *)

Lemma emits_quiet {A} (m : I A) R (Q : A -> Interpreter -> Prop) :
  quiet i m R -> (forall a, R a -> Q a i) -> emits i m Q.
Proof.
  intros Hm Hq s Hs. destruct (Hm s Hs) as (Hs' & Hh' & Hr). split; [done|]. intros a Ha. rewrite Hs'. auto.
Qed.

Lemma emits_bind {A B} (m : I A) (k : A -> I B) R Q :
  emits i m R -> (forall a i', R a i' -> emits i' (k a) Q) -> emits i (ebind m k) Q.
Proof.
  intros Hm Hk s Hs. destruct (Hm s Hs) as (Hh' & Hr). unfold ebind.
  destruct (m s) as [s' [a|e|]]; simpl in *; [|by split..].
  destruct (Hk a (self_ s') (Hr a eq_refl) s' eq_refl) as [Hh2 Hr2]. split; [by eapply adds_trans|done].
Qed.

(** The first part does not change the fields. *)
Lemma emits_then {A B} (m : I A) (k : A -> I B) R Q :
  quiet i m R -> (forall a, R a -> emits i (k a) Q) -> emits i (ebind m k) Q.
Proof.
  intros Hm Hk. eapply emits_bind; [by eapply (emits_quiet m R (fun a i' => i' = i /\ R a)); [|auto]|].
  intros a i' [-> Ha]. by apply Hk.
Qed.

Lemma emits_update f (Q : unit -> Interpreter -> Prop) : Q tt (f i) -> emits i (update f) Q.
Proof. intros Hq s Hs. split; [by apply adds_refl|]. intros [] _. simpl. by rewrite Hs. Qed.

Lemma emits_fail {A} e (Q : A -> Interpreter -> Prop) : emits i (efail e) Q.
Proof. intros s Hs. split; [by apply adds_refl|done]. Qed.

Lemma emits_stuck {A} (Q : A -> Interpreter -> Prop) : emits i estuck Q.
Proof. intros s Hs. split; [by apply adds_refl|done]. Qed.

Lemma emits_wrap {A} h (m : I A) Q : emits i m Q -> emits i (ewrap h m) Q.
Proof.
  intros Hm s Hs. destruct (Hm s Hs) as (Hh' & Hr). unfold ewrap. by destruct (m s) as [s' [a|e|]].
Qed.

Lemma emits_weaken {A} (m : I A) (Q Q' : A -> Interpreter -> Prop) :
  emits i m Q -> (forall a i', Q a i' -> Q' a i') -> emits i m Q'.
Proof. intros Hm Hq s Hs. destruct (Hm s Hs) as (? & Hr). split; auto. Qed.

End Rules.

Lemma emits_update_then {B} i f (k : unit -> I B) Q : emits (f i) (k tt) Q -> emits i (ebind (update f) k) Q.
Proof.
  intros Hk. eapply emits_bind; [apply (emits_update i f (fun _ i' => i' = f i)); done|]. by intros [] i' ->.
Qed.

Lemma emits_self_then {B} i (k : Interpreter -> I B) Q : emits i (k i) Q -> emits i (ebind self k) Q.
Proof. intros Hk. eapply emits_then; [apply quiet_self|]. by intros a <-. Qed.

(** A loop whose body keeps an invariant. *)
Lemma emits_iter {A} (f : A -> I unit) l (Inv : Interpreter -> Prop) : forall i,
  (forall x i, Inv i -> emits i (f x) (fun _ => Inv)) -> Inv i -> emits i (eiter f l) (fun _ => Inv).
Proof.
  induction l as [|x l IH]; intros i Hf Hi; simpl; [eapply emits_quiet; [by apply (quiet_ret i tt (fun _ => True))|done]|].
  eapply emits_bind; [by apply Hf|]. intros [] i' Hi'. by apply IH.
Qed.

(** The result is caught: the fields are unknown after a failure. *)
Lemma emits_try_then {A B} i (m : I A) (k : A + error -> I B) R Q :
  emits i m R -> (forall a i', R a i' -> emits i' (k (inl a)) Q) -> (forall e i', emits i' (k (inr e)) Q) ->
  emits i (ebind (etry m) k) Q.
Proof.
  intros Hm Ha He s Hs. destruct (Hm s Hs) as (Hh' & Hr). unfold ebind, etry.
  destruct (m s) as [s' [a|e|]]; simpl in *; [| |by split].
  - destruct (Ha a (self_ s') (Hr a eq_refl) s' eq_refl) as [Hh2 Hr2]. split; [by eapply adds_trans|done].
  - destruct (He e (self_ s') s' eq_refl) as [Hh2 Hr2]. split; [by eapply adds_trans|done].
Qed.

End Logic.

Arguments quiet {W} P i {A} m Q.
Arguments emits {W} P i {A} m Q.

(** One step through a computation that does not change the fields: [solve_event]
    proves what a call must satisfy. *)
Ltac quiet_step solve_event :=
  match goal with
  | |- quiet _ _ (ebind self _) _ => eapply quiet_bind; [apply quiet_self|intros ? <-]
  | |- quiet _ _ (ebind _ _) _ => apply (quiet_bind _ _ _ _ (fun _ => True)); [|intros ? _]
  | |- quiet _ _ (eret _) _ => apply quiet_ret; try done
  | |- quiet _ _ (efail _) _ => apply quiet_fail
  | |- quiet _ _ estuck _ => apply quiet_stuck
  | |- quiet _ _ (interp_errorf _ _) _ => apply quiet_fail
  | |- quiet _ _ (pushOnlyErr _) _ => apply quiet_fail
  | |- quiet _ _ self _ => apply quiet_self
  | |- quiet _ _ (call _) _ => eapply quiet_any, quiet_call; solve_event
  | |- quiet _ _ (ewrap _ _) _ => apply quiet_wrap
  | |- quiet _ _ (wrapError _ _ _) _ => apply quiet_wrap
  | |- quiet _ _ (dropError _ _ _) _ => apply quiet_wrap
  | |- quiet _ _ (cleaned _ _ _ _) _ => eapply quiet_any, quiet_cleaned
  | |- quiet _ _ (of_res _) _ => eapply quiet_any, quiet_res
  | |- quiet _ _ (emap _ _) _ => eapply quiet_any, quiet_map; intros ?
  | |- quiet _ _ (eiter _ _) _ => apply quiet_iter; intros ?
  | |- quiet _ _ (match ?x with _ => _ end) _ => first [is_var x; destruct x | destruct x eqn:?]
  | |- quiet _ _ (let _ := _ in _) _ => cbv zeta
  end.

(** * The interpreter: pushes and privileges

    What the history of a run can hold: after a command with --push only what is
    allowed then, and privileged calls only while the interpreter may be
    privileged.  The fields that a statement must leave as they were are left so. *)

From S2P Require Import InterpCmds.
From S2P Require Import InterpBlocks.

Open Scope eff_scope.

(** ** Calls *)

(** The calls that a command may make after a command with --push. *)
Definition after_push {A} (c : Call A) : bool :=
  match c with
  | CRun o => ro_Push o
  | CFrom _ _ _ _ _ | CFromDockerfile _ _ _ _ _ _ | CLocally | CRunExitCode _ | CWithDockerRun _ _ _
  | CWithDockerRunLocal _ _ _ | CCopyClassical _ _ _ _ _ _ _ _ | CCopyArtifact _ _ _ _ _ _ _ _ _ _ _ _ _
  | CCopyArtifactLocal _ _ _ _ _ _ _ | CWhiteListed _ | CExpandWildcardArtifacts _ | CBuild _ _ _ _ _ _
  | CBuildAsync _ _ _ _ _ | CCheckAutoSkip _ _ _ _ | CExpandWildcardCmds _ _ | CWorkdir _ | CUser _ | CCmd _ _
  | CEntrypoint _ _ | CExpose _ | CVolume _ | CEnv _ _ | CArg _ _ _ | CLet _ _ | CConvertCloneURL _
  | CGitClone _ _ _ _ _ | CHealthcheck _ _ _ => false
  | _ => true
  end.

(** The calls that need the privilege of the interpreter.  [RunExitCode] and
    [RunExpression] carry a flag of their own that is not checked, see
    [if_privileged_unchecked]. *)
Definition privileged {A} (c : Call A) : bool :=
  match c with
  | CFrom _ _ p _ _ | CFromDockerfile _ _ _ _ p _ | CCopyArtifact _ _ _ p _ _ _ _ _ _ _ _ _
  | CCopyArtifactLocal _ _ _ p _ _ _ | CBuild _ _ p _ _ _ | CBuildAsync _ _ p _ _ | CCheckAutoSkip _ p _ _
  | CEnterScopeDo _ _ p _ _ _ | CImport _ _ _ p _ => p
  | CRun o => ro_Privileged o
  | CLocally => true
  | _ => false
  end.

(** The images that WITH DOCKER loads with privilege. *)
Definition loads_privileged (d : WithDockerOpt) : bool := existsb dl_AllowPrivileged (wo_Loads d).

Definition docker_privileged {A} (c : Call A) : bool :=
  match c with CWithDockerRun _ d _ | CWithDockerRunLocal _ d _ => loads_privileged d | _ => false end.

(** [a] is the privilege the run was started with. *)
Definition ok (a : bool) (e : event) : Prop :=
  match e with mkEvent i c =>
    (pushOnlyAllowed i = true -> after_push c = true) /\ (privileged c = true -> allowPrivileged i = true) /\
    (docker_privileged c = true -> a = true)
  end.

(** Between statements. *)
Record Inv (a : bool) (i : Interpreter) : Prop := mkInv {
  inv_isWith : isWith i = false;
  inv_privileged : allowPrivileged i = true -> a = true;
  inv_ran : withDocker i = None -> withDockerRan i = false;
  inv_loads : forall d, withDocker i = Some d -> loads_privileged d = true -> a = true
}.

(** What a statement that succeeds leaves as it was; a push is not forgotten. *)
Record kept (i i' : Interpreter) : Prop := mkKept {
  k_target : in_target i' = in_target i;
  k_privileged : allowPrivileged i' = allowPrivileged i;
  k_parallel : parallelConversion i' = parallelConversion i;
  k_isBase : isBase i' = isBase i;
  k_push : pushOnlyAllowed i = true -> pushOnlyAllowed i' = true;
  k_docker : is_Some (withDocker i) <-> is_Some (withDocker i')
}.

#[export] Instance kept_preorder : PreOrder kept.
Proof.
  split; [by split|]. intros i j k [T1 P1 L1 B1 O1 D1] [T2 P2 L2 B2 O2 D2].
  split; [congruence|congruence|congruence|congruence|auto|by rewrite D1].
Qed.

Section Facts.
Context {W : Type} `{Converter W} `{FlagParsers} `{Features} `{Packages} `{Unicode} `{UnicodeTables} `{SliceGrowth}.
Abbreviation I := (@I W).
Variable a : bool.
Abbreviation quiet := (quiet (W := W) (ok a)).
Abbreviation emits := (emits (W := W) (ok a)).

Definition anything {A} (_ : A) : Prop := True.

Ltac solve_event := split_and!; simpl; intros; try done; auto; try congruence.
Ltac q := repeat quiet_step solve_event.

(** ** Helpers *)

Lemma quiet_expandArgs i word kp async : quiet i (expandArgs word kp async) anything.
Proof. unfold expandArgs. q. Qed.

Lemma quiet_expandArgsSlice i words async : quiet i (expandArgsSlice words async) anything.
Proof. eapply quiet_any, quiet_map. intros w. apply quiet_expandArgs. Qed.

Lemma quiet_expand_each i sl text kp l : quiet i (expand_each sl text kp l) anything.
Proof. eapply quiet_any, quiet_map. intros w. apply quiet_wrap, quiet_expandArgs. Qed.

Lemma quiet_guard {A} i sl (m : I A) Q :
  (pushOnlyAllowed i = false -> quiet i m Q) -> quiet i (unless_push_only sl m) Q.
Proof.
  intros Hm. eapply quiet_bind; [apply quiet_self|]. intros i' <-.
  destruct (pushOnlyAllowed i) eqn:E; [apply quiet_fail|by apply Hm].
Qed.

Lemma quiet_getAllowPrivileged i t p :
  quiet i (getAllowPrivileged t p) (fun b => b = true -> allowPrivileged i = true).
Proof.
  unfold getAllowPrivileged. eapply quiet_bind; [apply quiet_self|]. intros i' <-. apply quiet_ret.
  destruct (IsRemote t); [|done]. by intros [? _]%andb_true_iff.
Qed.

Lemma quiet_getAllowPrivilegedTarget i name p :
  quiet i (getAllowPrivilegedTarget name p) (fun b => b = true -> allowPrivileged i = true).
Proof.
  unfold getAllowPrivilegedTarget. destruct (negb _); [by apply quiet_ret|].
  eapply quiet_bind; [eapply quiet_wrap, quiet_any, quiet_res|]. intros t _. apply quiet_getAllowPrivileged.
Qed.

Lemma quiet_getAllowPrivilegedArtifact i name p :
  quiet i (getAllowPrivilegedArtifact name p) (fun b => b = true -> allowPrivileged i = true).
Proof.
  unfold getAllowPrivilegedArtifact.
  eapply quiet_bind; [eapply quiet_wrap, quiet_any, quiet_res|]. intros t _. apply quiet_getAllowPrivileged.
Qed.

Lemma quiet_parse_flag_args i sl args : quiet i (parse_flag_args sl args) anything.
Proof. apply quiet_wrap. eapply quiet_any, quiet_res. Qed.

Lemma quiet_parse_platform i sl p : quiet i (parse_platform sl p) anything.
Proof. unfold parse_platform. q. Qed.

Ltac quiet_lemma :=
  match goal with
  | |- quiet _ (expandArgs _ _ _) _ => apply quiet_expandArgs
  | |- quiet _ (expandArgsSlice _ _) _ => apply quiet_expandArgsSlice
  | |- quiet _ (expand_each _ _ _ _) _ => apply quiet_expand_each
  | |- quiet _ (unless_push_only _ _) _ => apply quiet_guard; intros ?
  | |- quiet _ (ebind (getAllowPrivilegedTarget _ _) _) _ =>
      eapply quiet_bind; [apply quiet_getAllowPrivilegedTarget|intros ? ?]
  | |- quiet _ (ebind (getAllowPrivilegedArtifact _ _) _) _ =>
      eapply quiet_bind; [apply quiet_getAllowPrivilegedArtifact|intros ? ?]
  | |- quiet _ (parse_flag_args _ _) _ => apply quiet_parse_flag_args
  | |- quiet _ (parse_platform _ _) _ => apply quiet_parse_platform
  end.
Ltac qq := repeat first [quiet_lemma | quiet_step solve_event].

(** ** Commands that do not change the interpreter *)

Lemma quiet_copy_source i sl src : pushOnlyAllowed i = false -> quiet i (copy_source sl src) anything.
Proof. intros Hp. unfold copy_source, copy_classical_source. qq. Qed.

Lemma quiet_copy_chmod i sl opts : quiet i (copy_chmod sl opts) anything.
Proof. unfold copy_chmod. qq. Qed.

Lemma quiet_copy_artifact i sl opts dest chown chmod platform args src :
  pushOnlyAllowed i = false -> quiet i (copy_artifact sl opts dest chown chmod platform args src) anything.
Proof. intros Hp. unfold copy_artifact, copy_wildcards. qq.
Qed.

Lemma quiet_handleCopy i cmd : quiet i (handleCopy cmd) anything.
Proof.
  unfold handleCopy.
  repeat first [apply quiet_copy_artifact; assumption | apply quiet_copy_chmod
    | eapply quiet_any, quiet_map; intros ?; apply quiet_copy_source; assumption | quiet_lemma | quiet_step solve_event].
Qed.

Lemma quiet_handleSaveArtifact i cmd : quiet i (handleSaveArtifact cmd) anything.
Proof. unfold handleSaveArtifact. qq. Qed.

Lemma quiet_build_combination i sl target platforms p opts async args :
  pushOnlyAllowed i = false -> (p = true -> allowPrivileged i = true) ->
  quiet i (build_combination sl target platforms p opts async args) anything.
Proof. intros Hp Ha. unfold build_combination. qq. Qed.

Lemma quiet_build_target i cmd opts name rest async :
  pushOnlyAllowed i = false -> quiet i (build_target cmd opts name rest async) anything.
Proof.
  intros Hp. unfold build_target, build_platforms.
  repeat first [apply quiet_build_combination; assumption | quiet_lemma | quiet_step solve_event].
Qed.

Lemma quiet_handleBuild fuel : forall i cmd async, quiet i (handleBuild fuel cmd async) anything.
Proof.
  induction fuel as [|f IH]; intros i cmd async; [apply quiet_stuck|]. cbn [handleBuild].
  repeat first [apply quiet_build_target; assumption | apply IH | quiet_lemma | quiet_step solve_event].
Qed.

Lemma quiet_label_loop i sl args : forall next labels, quiet i (label_loop sl args next labels) anything.
Proof.
  induction args as [|arg args IH]; intros next labels; cbn [label_loop]; destruct next; qq; apply IH.
Qed.

Lemma quiet_image_commands i cmd :
  quiet i (handleWorkdir cmd) anything /\ quiet i (handleUser cmd) anything /\ quiet i (handleCmd cmd) anything /\
  quiet i (handleEntrypoint cmd) anything /\ quiet i (handleExpose cmd) anything /\ quiet i (handleVolume cmd) anything /\
  quiet i (handleGitClone cmd) anything /\ quiet i (handleHealthcheck cmd) anything.
Proof.
  split_and!; unfold handleWorkdir, handleUser, handleCmd, handleEntrypoint, handleExpose, handleVolume, handleGitClone,
    handleHealthcheck, healthcheck_args; qq.
Qed.

Lemma quiet_variable_commands i cmd :
  quiet i (handleEnv cmd) anything /\ quiet i (handleArg cmd) anything /\ quiet i (handleLet cmd) anything /\
  quiet i (handleSet cmd) anything /\ quiet i (handleLabel cmd) anything.
Proof.
  split_and!; unfold handleEnv, handleArg, handleLet, handleSet, parseSetArgs, handleLabel;
    repeat first [apply quiet_label_loop | quiet_lemma | quiet_step solve_event].
Qed.

Lemma quiet_other_commands i cmd :
  quiet i (handleImport cmd) anything /\ quiet i (handleProject cmd) anything /\ quiet i (handleCache cmd) anything /\
  quiet i (handleHost cmd) anything.
Proof. split_and!; unfold handleImport, handleProject, handleCache, handleHost; qq. Qed.

(** ** Commands that change the interpreter *)

(** What a statement establishes. *)
Definition good (i : Interpreter) {A} (_ : A) (i' : Interpreter) : Prop := Inv a i' /\ kept i i'.

Lemma good_refl i {A} (x : A) : Inv a i -> good i x i.
Proof. intros Hi. by split. Qed.

Lemma good_trans i j {A B} (x : A) (y : B) k : good i x j -> good j y k -> good i y k.
Proof. intros [_ K1] [I2 K2]. split; [done|]. by etransitivity. Qed.

Lemma emits_good i {A} (m : I A) : Inv a i -> quiet i m anything -> emits i m (good i).
Proof. intros Hi Hm. eapply emits_quiet; [exact Hm|]. intros x _. by apply good_refl. Qed.

Lemma emits_guard {A} i sl (m : I A) Q :
  (pushOnlyAllowed i = false -> emits i m Q) -> emits i (unless_push_only sl m) Q.
Proof.
  intros Hm. apply emits_self_then. destruct (pushOnlyAllowed i) eqn:E; [apply emits_fail|by apply Hm].
Qed.

Lemma Inv_local b i : Inv a i -> Inv a (set_local b i).
Proof. by intros [? ? ? ?]. Qed.

Lemma kept_local b i : kept i (set_local b i).
Proof. done. Qed.

Ltac emits_step :=
  match goal with
  | |- emits _ (unless_push_only _ _) _ => apply emits_guard; intros ?
  | |- emits _ (ebind self _) _ => apply emits_self_then
  | |- emits _ (ebind (update _) _) _ => apply emits_update_then
  | |- emits _ (ebind (getAllowPrivilegedTarget _ _) _) _ =>
      eapply emits_then; [apply quiet_getAllowPrivilegedTarget|intros ? ?]
  | |- emits _ (ebind _ _) _ => eapply (emits_then _ _ _ _ anything); [solve [qq]|intros ? _]
  | |- emits _ (efail _) _ => apply emits_fail
  | |- emits _ (interp_errorf _ _) _ => apply emits_fail
  | |- emits _ (pushOnlyErr _) _ => apply emits_fail
  | |- emits _ estuck _ => apply emits_stuck
  | |- emits _ (match ?x with _ => _ end) _ => first [is_var x; destruct x | destruct x eqn:?]
  | |- emits _ (let _ := _ in _) _ => cbv zeta
  end.
Ltac e := repeat emits_step.

Lemma emits_handleFrom i cmd : Inv a i -> emits i (handleFrom cmd) (good i).
Proof.
  intros Hi. unfold handleFrom. e.
  all: eapply emits_quiet; [eapply quiet_wrap, quiet_call; solve_event|]; intros; (split; [by apply Inv_local|done]).
Qed.

Lemma emits_handleFromDockerfile i cmd : Inv a i -> emits i (handleFromDockerfile cmd) (good i).
Proof.
  intros Hi. unfold handleFromDockerfile. e.
  all: eapply emits_quiet; [eapply quiet_wrap, quiet_call; solve_event|]; intros; try (split; [by apply Inv_local|done]).
  all: match goal with H : _ && _ = true |- _ => by apply andb_true_iff in H as [_ ?] end.
Qed.

Lemma emits_handleLocally i cmd : Inv a i -> emits i (handleLocally cmd) (good i).
Proof.
  intros Hi. unfold handleLocally. e. eapply emits_quiet; [eapply quiet_wrap, quiet_call; solve_event|].
  - by apply negb_false_iff.
  - intros. split; [by apply Inv_local|done].
Qed.

Lemma Inv_push i : Inv a i -> Inv a (set_pushOnly true i).
Proof. by intros [? ? ? ?]. Qed.

Ltac push_end Hi :=
  first [apply emits_update; split; [by apply Inv_push|done]
        | apply emits_good; [exact Hi|]; by apply quiet_ret].

Lemma emits_handleSaveImage i cmd : Inv a i -> emits i (handleSaveImage cmd) (good i).
Proof. intros Hi. unfold handleSaveImage. e; push_end Hi. Qed.

(** ** RUN *)

Lemma quiet_modify_next i name rest : quiet i (modify_next flagValModifier name rest) anything.
Proof. unfold modify_next, flagValModifier. qq. Qed.

Lemma quiet_cluster_loop i flags n l rest : quiet i (cluster_loop flagValModifier flags n l rest) anything.
Proof.
  induction l as [|[j c] l IH]; cbn [cluster_loop]; [by apply quiet_ret|].
  repeat first [apply IH | apply quiet_modify_next | quiet_lemma | quiet_step solve_event].
Qed.

Lemma quiet_preprocess i flags args : forall skip result, quiet i (preprocess_loop flagValModifier flags args skip result) anything.
Proof.
  induction args as [|arg args IH]; intros skip result; cbn [preprocess_loop]; [by apply quiet_ret|].
  destruct skip; [apply IH|]. apply (quiet_bind _ _ _ _ (fun _ => True)); [|intros r _; apply IH].
  unfold preprocess_arg, flagValModifier.
  repeat first [apply quiet_modify_next | apply quiet_cluster_loop | quiet_lemma | quiet_step solve_event].
Qed.

Lemma quiet_parse_run i sl args : quiet i (parse_run sl args) anything.
Proof.
  unfold parse_run, preprocessArgs. repeat first [apply quiet_preprocess | quiet_step solve_event].
Qed.

Lemma quiet_handleOIDC i sl opts : quiet i (handleOIDC sl opts) anything.
Proof. unfold handleOIDC. qq. Qed.

Lemma quiet_run_network i sl n : quiet i (run_network sl n) anything.
Proof. unfold run_network. qq. Qed.

Lemma emits_run_plain i cmd opts args mounts secrets p noNetwork oidc :
  Inv a i -> (pushOnlyAllowed i = true -> run_Push opts = true) -> (p = true -> allowPrivileged i = true) ->
  emits i (run_plain cmd opts args mounts secrets p noNetwork oidc) (good i).
Proof. intros Hi Hpush Hp. unfold run_plain. e; push_end Hi. Qed.

Lemma emits_run_docker i cmd d opts args mounts secrets oidc :
  Inv a i -> withDocker i = Some d -> (pushOnlyAllowed i = true -> run_Push opts = true) ->
  emits i (run_docker cmd d opts args mounts secrets oidc) (good i).
Proof.
  intros Hi Hd Hpush. pose proof (inv_loads a i Hi d Hd) as Hl. unfold run_docker. cbv zeta.
  apply emits_self_then. destruct (withDockerRan i); [apply emits_fail|].
  destruct (run_Push opts) eqn:Ep; [apply emits_fail|]. apply emits_update_then.
  set (d' := docker_run_opts _ _ _ _ _ d). set (i' := set_withDocker (Some d') i).
  assert (Hl' : loads_privileged d' = true -> a = true) by done.
  apply (emits_then _ i' _ _ anything).
  - apply quiet_wrap. case_match; eapply quiet_any, quiet_call; solve_event.
  - intros _ _. apply emits_update. destruct Hi as [Iw Ip Ir Il]. split.
    + apply mkInv; [done|done|done|]. by intros d0 [= <-].
    + apply mkKept; [done..|]. simpl. rewrite Hd. split; eauto.
Qed.

Lemma emits_handleRun i cmd : Inv a i -> emits i (handleRun cmd) (good i).
Proof.
  intros Hi. unfold handleRun. destruct (cmd_Args cmd) as [|arg0 rest]; [apply emits_fail|].
  apply (emits_then _ _ _ _ anything); [apply quiet_parse_run|]. intros [opts args] _. apply emits_self_then.
  destruct (negb (run_Push opts) && pushOnlyAllowed i) eqn:Epush; [apply emits_fail|].
  assert (Hpush : pushOnlyAllowed i = true -> run_Push opts = true).
  { intros Hx. rewrite Hx, andb_true_r in Epush. by apply negb_false_iff. }
  do 2 emits_step. emits_step; [apply emits_fail|].
  apply (emits_then _ _ _ _ anything); [apply quiet_run_network|]. intros nn _. emits_step; [apply emits_fail|].
  apply (emits_then _ _ _ _ anything); [apply quiet_handleOIDC|]. intros oidc _. emits_step; [apply emits_fail|].
  destruct (withDocker i) as [d|] eqn:Ed; [by apply emits_run_docker|]. apply emits_run_plain; [done|done|].
  intros Hp. rewrite Hp in *. simpl in *. by apply negb_false_iff.
Qed.

(** ** WITH DOCKER *)

Lemma quiet_docker_load i sl opts platform args load :
  quiet i (docker_load sl opts platform args load) (fun l => dl_AllowPrivileged l = true -> allowPrivileged i = true).
Proof. unfold docker_load. qq. Qed.

Lemma loads_privileged_add l d : loads_privileged (add_load l d) = loads_privileged d || dl_AllowPrivileged l.
Proof. unfold loads_privileged. simpl. rewrite existsb_app. simpl. by rewrite orb_false_r. Qed.

(** WITH DOCKER has set its options. *)
Definition docker_set (i i' : Interpreter) : Prop :=
  exists d, i' = set_withDocker (Some d) i /\ (loads_privileged d = true -> a = true).

Lemma emits_update_docker i j f :
  docker_set i j -> (forall d, (loads_privileged d = true -> a = true) -> loads_privileged (f d) = true -> a = true) ->
  emits j (update_docker f) (fun _ => docker_set i).
Proof.
  intros (d & -> & Hd) Hf. apply emits_update. exists (f d). split; [done|]. by apply Hf.
Qed.

Lemma emits_handleWithDocker i cmd :
  (allowPrivileged i = true -> a = true) ->
  emits i (handleWithDocker cmd) (fun _ i' => withDocker i = None /\ docker_set i i').
Proof.
  intros Ha. unfold handleWithDocker. apply emits_guard. intros Hp. apply emits_self_then.
  destruct (withDocker i) as [d|] eqn:Ed; [apply emits_fail|].
  apply (emits_then _ _ _ _ anything); [qq|]. intros [opts args] _. emits_step; [apply emits_fail|].
  do 7 emits_step. apply emits_update_then. set (i1 := set_withDocker _ i).
  eapply (emits_bind _ _ _ _ (fun _ => docker_set i)).
  - apply (emits_iter _ _ _ (docker_set i)); [|by eexists].
    intros load j Hj. eapply (emits_then _ _ _ _ _); [apply quiet_docker_load|]. intros l Hl. simpl in Hl.
    apply emits_update_docker; [done|]. intros d' Hd'. rewrite loads_privileged_add.
    intros [?|?]%orb_true_iff; [auto|]. apply Ha. destruct Hj as (? & -> & _). by apply Hl.
  - intros _ j Hj. emits_step.
    + eapply (emits_quiet _ _ _ anything); [by apply quiet_ret|]. by intros.
    + emits_step; [apply emits_fail|]. eapply emits_weaken; [by apply (emits_update_docker i)|]. by intros.
Qed.

(** ** Statements *)

Section Statements.
Variables (build : Command -> bool -> I unit) (block : Block -> I unit) (statement : Statement -> I unit).
Hypothesis Hbuild : forall i c async, quiet i (build c async) anything.
Hypothesis Hblock : forall i b, Inv a i -> emits i (block b) (good i).
Hypothesis Hstatement : forall i s, Inv a i -> emits i (statement s) (good i).

Lemma quiet_lookahead i b : quiet i (lookahead build b) anything.
Proof.
  induction b as [|s b IH]; cbn [lookahead]; [by apply quiet_ret|].
  destruct (statement_kind s); try exact IH; try (by apply quiet_ret).
  destruct (stops_lookahead _); [by apply quiet_ret|]. destruct (String.eqb _ _); [|exact IH].
  apply (quiet_bind _ _ _ _ (fun _ => True)); [eapply quiet_any, quiet_try, Hbuild|]. intros [?|er] _; [exact IH|].
  destruct (errors_Is _ _); [exact IH|apply quiet_fail].
Qed.

Lemma emits_block_loop b : forall i prev, Inv a i -> emits i (block_loop build statement b prev) (good i).
Proof.
  induction b as [|s b IH]; intros i prev Hi; cbn [block_loop]; [apply emits_good; [done|by apply quiet_ret]|].
  apply emits_self_then. apply (emits_then _ _ _ _ anything).
  { destruct (_ && _); [|by apply quiet_ret]. unfold handleBlockParallel.
    eapply quiet_bind; [apply quiet_self|]. intros i' <-. destruct (local i); [by apply quiet_ret|apply quiet_lookahead]. }
  intros _ _. eapply emits_bind; [by apply Hstatement|]. intros ? i' Hg.
  eapply emits_weaken; [apply IH, Hg|]. intros x i'' Hg'. by eapply good_trans.
Qed.

Lemma quiet_handleIfExpression i e m sl : pushOnlyAllowed i = false -> quiet i (handleIfExpression e m sl) anything.
Proof. intros Hp. unfold handleIfExpression. qq. Qed.

Lemma emits_else_ifs i l eb : Inv a i -> pushOnlyAllowed i = false -> emits i (else_ifs block l eb) (good i).
Proof.
  intros Hi Hp. induction l as [|[sl e b m] l IH]; cbn [else_ifs].
  - destruct eb; [by apply Hblock|]. apply emits_good; [done|by apply quiet_ret].
  - eapply emits_then; [by apply quiet_handleIfExpression|]. intros [] _; [by apply Hblock|exact IH].
Qed.

Lemma emits_handleIf i s : Inv a i -> emits i (handleIf block s) (good i).
Proof.
  intros Hi. destruct s as [eb sl e ei ib m]. unfold handleIf. apply emits_self_then.
  destruct (pushOnlyAllowed i) eqn:Ep; [apply emits_fail|].
  eapply emits_then; [by apply quiet_handleIfExpression|]. intros [] _; [by apply Hblock|by apply emits_else_ifs].
Qed.

Lemma emits_quiet_then i {A B} (m : I A) (k : A -> I B) Q :
  quiet i m anything -> (forall x, emits i (k x) Q) -> emits i (ebind m k) Q.
Proof. intros Hm Hk. by eapply emits_then; [exact Hm|intros x _]. Qed.

(** A block, then a call. *)
Lemma emits_block_call i b {A} (m : I A) :
  Inv a i -> (forall j, quiet j m anything) -> emits i (block b ;;; m) (good i).
Proof.
  intros Hi Hm. eapply emits_bind; [by apply Hblock|]. intros ? j Hg. eapply emits_quiet; [apply Hm|]. intros x _. exact Hg.
Qed.

Lemma emits_handleFor i s : Inv a i -> emits i (handleFor block s) (good i).
Proof.
  intros Hi. destruct s as [sl args body]. unfold handleFor. destruct (negb ForIn); [apply emits_fail|].
  apply emits_quiet_then; [unfold handleForArgs; qq|]. intros [v instances]. cbn [fst snd].
  apply (emits_iter _ _ _ (good i tt)); [|by apply good_refl].
  intros x j Hj. unfold for_instance. apply emits_quiet_then; [qq|]. intros _.
  eapply emits_weaken; [apply (emits_block_call j); [apply Hj|intros; qq]|]. intros y k Hk. by eapply good_trans.
Qed.

Lemma emits_handleWait i s : Inv a i -> emits i (handleWait block s) (good i).
Proof.
  intros Hi. destruct s as [sl args body]. unfold handleWait. repeat (emits_step; [apply emits_fail|]).
  apply emits_quiet_then; [qq|]. intros _. apply emits_block_call; [done|]. intros. qq.
Qed.

(** ** DO *)

Lemma emits_handleDoFunction i command rel uc do args p passArgs useFn :
  Inv a i -> emits i (handleDoFunction block command rel uc do args p passArgs useFn) (good i).
Proof.
  intros Hi. unfold handleDoFunction. apply emits_self_then.
  destruct (p && negb (allowPrivileged i)) eqn:Ep; [apply emits_fail|].
  assert (Hp : p = true -> allowPrivileged i = true) by (intros ->; by apply negb_false_iff).
  destruct (fn_Recipe uc) as [|[[c| | | | |] loc] body]; try apply emits_fail.
  do 2 (emits_step; [apply emits_fail|]). destruct (cmd_SourceLocation do); [|apply emits_fail].
  apply emits_quiet_then; [qq|]. intros _. apply emits_update_then. set (i1 := set_allowPrivileged p i).
  assert (Hi1 : Inv a i1).
  { destruct Hi as [Iw Ip Ir Il]. apply mkInv; [done| |done|done]. simpl. auto. }
  eapply emits_bind; [by apply Hblock|]. intros ? i2 [Hi2 Hk2]. apply emits_quiet_then; [qq|]. intros _.
  apply emits_update. destruct Hi as [Iw Ip Ir Il], Hi2 as [Jw Jp Jr Jl], Hk2 as [T P L B O D]. split.
  - by apply mkInv.
  - by apply mkKept.
Qed.

Lemma emits_handleDo i cmd : Inv a i -> emits i (handleDo block cmd) (good i).
Proof.
  intros Hi. unfold handleDo. apply emits_quiet_then; [qq|]. intros [opts args].
  destruct args as [|arg0 rest]; [apply emits_fail|]. do 5 emits_step. apply emits_quiet_then; [qq|]. intros bc.
  destruct (kind _); [apply emits_fail|]. emits_step; [apply emits_fail|].
  destruct (find_function _ _); [|apply emits_fail]. by apply emits_handleDoFunction.
Qed.

(** ** Commands *)

Lemma emits_handleCommand i cmd : Inv a i -> emits i (handleCommand build block cmd) (good i).
Proof.
  intros Hi. unfold handleCommand. apply emits_self_then. rewrite (inv_isWith a i Hi).
  destruct (quiet_image_commands i cmd) as (?&?&?&?&?&?&?&?), (quiet_variable_commands i cmd) as (?&?&?&?&?),
    (quiet_other_commands i cmd) as (?&?&?&?).
  pose proof (quiet_handleCopy i cmd). pose proof (quiet_handleSaveArtifact i cmd).
  repeat (destruct (String.eqb _ _);
    [first [ by apply emits_handleFrom | by apply emits_handleRun | by apply emits_handleFromDockerfile
           | by apply emits_handleLocally | by apply emits_handleSaveImage | by apply emits_handleDo
           | by apply emits_good | apply emits_good; [done|apply Hbuild] | apply emits_fail ]|]).
  apply emits_fail.
Qed.

(** ** WITH *)

Lemma emits_handleWith i s : Inv a i -> emits i (handleWith build block s) (good i).
Proof.
  intros Hi. destruct s as [sl body cmd]. unfold handleWith. apply emits_update_then.
  eapply (emits_try_then _ _ _ _ (fun _ i' => withDocker i = None /\ docker_set (set_isWith true i) i')).
  - unfold handleCommand. apply emits_self_then. cbn [isWith set_isWith]. emits_step; [|apply emits_fail].
    eapply emits_weaken; [apply (emits_handleWithDocker (set_isWith true i)), Hi|]. done.
  - intros _ i1 [Hnone (d & -> & Hd)]. apply emits_update_then. apply emits_self_then.
    destruct Hi as [Iw Ip Ir Il]. emits_step; [apply emits_fail|].
    set (i2 := set_isWith false _). assert (Hi2 : Inv a i2).
    { apply mkInv; [done|done|done|]. by intros ? [= <-]. }
    eapply emits_bind; [by apply Hblock|]. intros ? i3 [Hi3 Hk3]. apply emits_update_then, emits_self_then.
    emits_step; [apply emits_fail|]. apply emits_update. destruct Hi3 as [Jw Jp Jr Jl], Hk3 as [T P L B O D]. split.
    + by apply mkInv.
    + apply mkKept; try done. simpl. by rewrite Hnone.
  - intros er i1. apply emits_update_then, emits_fail.
Qed.

(** ** TRY *)

Lemma quiet_try_save_file i sl s : quiet i (try_save_file sl s) anything.
Proof. unfold try_save_file. qq. Qed.

Lemma emits_handleTry i s : Inv a i -> emits i (handleTry statement s) (good i).
Proof.
  intros Hi. destruct s as [cb fb sl tb]. unfold handleTry. emits_step; [apply emits_fail|].
  destruct tb as [|s0 [|]]; try apply emits_fail. emits_step; [apply emits_fail|].
  destruct (try_body_ok s0); [apply emits_fail|]. destruct fb as [fin|]; [|apply emits_fail].
  apply emits_quiet_then; [eapply quiet_any, quiet_map; intros; apply quiet_try_save_file|]. intros files.
  apply emits_update_then. set (i1 := set_saveFiles files i). assert (Hi1 : Inv a i1) by (by destruct Hi).
  eapply emits_bind; [by apply Hstatement|]. intros ? i2 Hg2.
  eapply emits_weaken; [apply (emits_iter _ _ _ (good i1 tt)); [|exact Hg2]|].
  - intros x j Hj. eapply emits_weaken; [apply Hstatement, Hj|]. intros y k Hk. by eapply good_trans.
  - intros [] k [Hk1 Hk2]. split; [done|]. by destruct Hk2.
Qed.

Lemma emits_statement_body i s : Inv a i -> emits i (statement_body build block statement s) (good i).
Proof.
  intros Hi. unfold statement_body. destruct (statement_kind s); auto using emits_handleCommand, emits_handleWith,
    emits_handleIf, emits_handleFor, emits_handleWait, emits_handleTry.
Qed.

End Statements.

Lemma emits_handlers fuel :
  (forall i s, Inv a i -> emits i (handleStatement fuel s) (good i)) /\
  (forall i b, Inv a i -> emits i (handleBlock fuel b) (good i)).
Proof.
  induction fuel as [|f [IHs IHb]]; split; intros; try apply emits_stuck.
  - apply emits_statement_body; auto using quiet_handleBuild.
  - apply emits_block_loop; auto using quiet_handleBuild.
Qed.

End Facts.
