(* ===== verification/InterpTrack.v ===== *)
(** * The interpreter: how its fields evolve

    Along any run: once set, [pushOnlyAllowed] stays set, and the privilege never
    exceeds the one the run was started with.  Both hold of the fields and of the
    history, whatever the converter answers. *)

From stdpp Require Import gmap.
From Stdlib Require Import Sorted.
From S2P Require Import Prelude GoStrings Token Ast GoText Reference Imports KeyValue Collection.
From S2P Require Import Validator Effects ShellLex FlagUtil Matrix ConvApi Interp InterpCmds.
From S2P Require Import InterpBlocks.

Open Scope eff_scope.

(** The second is not before a push when the first is after one. *)
Definition push_order (i i' : Interpreter) : Prop := pushOnlyAllowed i = true -> pushOnlyAllowed i' = true.

Definition event_order (e e' : event) : Prop := push_order (ev_self e) (ev_self e').

(** A relation between the states before and after a computation that all handlers
    respect: a call, the updates that leave the privilege alone and do not forget a
    push, and those that lower the privilege.  [within] is what the relation knows
    of the fields. *)
Class Tracking {W : Type} `{Converter W} (R : State W -> State W -> Prop) (within : Interpreter -> Prop) : Prop := {
  trk_preorder : PreOrder R;
  trk_call {A} (c : Call A) : preserves R (call c);
  trk_update f : (forall i, within i -> within (f i) /\ push_order i (f i)) -> preserves R (update f);
  trk_self {A} (k : Interpreter -> I A) :
    (forall i, within i -> preserves R (k i)) -> preserves R (ebind self k);
  trk_same i j : allowPrivileged i = allowPrivileged j -> within i -> within j;
  trk_lower i j p : within i -> within j -> (p = true -> allowPrivileged i = true) -> within (set_allowPrivileged p j)
}.

Section Track.
Context {W : Type} `{Converter W} `{FlagParsers} `{Features} `{Packages} `{Unicode} `{UnicodeTables} `{SliceGrowth}.
Abbreviation I := (@I W).
Context (R : State W -> State W -> Prop) (within : Interpreter -> Prop) `{!Tracking R within}.

#[local] Existing Instance trk_preorder.

Definition tracks {A} (m : I A) : Prop := preserves R m.

Lemma tracks_self {A} (k : Interpreter -> I A) : (forall i, within i -> tracks (k i)) -> tracks (ebind self k).
Proof. apply trk_self. Qed.
Lemma tracks_call {A} (c : Call A) : tracks (call c).
Proof. apply trk_call. Qed.
Lemma tracks_update f : (forall i, within i -> within (f i) /\ push_order i (f i)) -> tracks (update f).
Proof. apply trk_update. Qed.
Lemma tracks_bind {A B} (m : I A) (k : A -> I B) : tracks m -> (forall x, tracks (k x)) -> tracks (ebind m k).
Proof. apply preserves_bind, _. Qed.
Lemma tracks_ret {A} (x : A) : tracks (eret x).
Proof. apply preserves_ret, _. Qed.
Lemma tracks_fail {A} er : tracks (efail (A := A) er).
Proof. apply preserves_fail, _. Qed.
Lemma tracks_stuck {A} : tracks (estuck (A := A)).
Proof. apply preserves_stuck, _. Qed.
Lemma tracks_wrap {A} h (m : I A) : tracks m -> tracks (ewrap h m).
Proof. apply preserves_wrap. Qed.
Lemma tracks_try {A} (m : I A) : tracks m -> tracks (etry m).
Proof. apply preserves_try. Qed.
Lemma tracks_iter {A} (f : A -> I unit) l : (forall x, tracks (f x)) -> tracks (eiter f l).
Proof. apply preserves_iter, _. Qed.
Lemma tracks_map {A B} (f : A -> I B) l : (forall x, tracks (f x)) -> tracks (emap f l).
Proof. apply preserves_map, _. Qed.

Ltac track_step :=
  match goal with
  | |- tracks (ebind self _) => apply tracks_self; intros ? ?
  | |- tracks (ebind _ _) => apply tracks_bind; [|intros ?]
  | |- tracks (eret _) => apply tracks_ret
  | |- tracks (efail _) => apply tracks_fail
  | |- tracks (interp_errorf _ _) => apply tracks_fail
  | |- tracks (pushOnlyErr _) => apply tracks_fail
  | |- tracks estuck => apply tracks_stuck
  | |- tracks (ewrap _ _) => apply tracks_wrap
  | |- tracks (wrapError _ _ _) => apply tracks_wrap
  | |- tracks (dropError _ _ _) => apply tracks_wrap
  | |- tracks (cleaned _ _ _ _) => apply tracks_wrap
  | |- tracks (of_res ?r) => unfold of_res; destruct r
  | |- tracks (unless_push_only _ _) => unfold unless_push_only
  | |- tracks (etry _) => apply tracks_try
  | |- tracks (eiter _ _) => apply tracks_iter; intros ?
  | |- tracks (emap _ _) => apply tracks_map; intros ?
  | |- tracks (call _) => apply tracks_call
  | |- tracks (update _) => apply tracks_update; intros j Hj; split; [by apply (trk_same j)|by intros ?]
  | |- tracks (match ?x with _ => _ end) => destruct x
  | |- tracks (let _ := _ in _) => cbv zeta
  | H : forall _, _ |- _ => apply H
  end.
Ltac t := repeat track_step.

Lemma tracks_expandArgs word kp async : tracks (expandArgs word kp async).
Proof. unfold expandArgs. t. Qed.

Lemma tracks_expand_each sl text kp l : tracks (expand_each sl text kp l).
Proof. unfold expand_each. t. apply tracks_expandArgs. Qed.

Lemma tracks_expandArgsSlice words async : tracks (expandArgsSlice words async).
Proof. unfold expandArgsSlice. t. apply tracks_expandArgs. Qed.

Ltac tt := repeat first [ apply tracks_expandArgs | apply tracks_expand_each | apply tracks_expandArgsSlice | track_step
  | progress unfold parse_flag_args, parse_platform, getAllowPrivilegedTarget, getAllowPrivilegedArtifact,
      getAllowPrivileged ].

(** ** Commands *)

Lemma tracks_from cmd : tracks (handleFrom cmd) /\ tracks (handleFromDockerfile cmd) /\ tracks (handleLocally cmd).
Proof. split_and!; unfold handleFrom, handleFromDockerfile, handleLocally; tt. Qed.

Lemma tracks_modifier name v : tracks (flagValModifier name v).
Proof. unfold flagValModifier. tt. Qed.

Lemma tracks_modify_next name rest : tracks (modify_next flagValModifier name rest).
Proof. unfold modify_next. destruct (next_value rest); [apply tracks_modifier|apply tracks_ret]. Qed.

Lemma tracks_cluster flags n l rest : tracks (cluster_loop flagValModifier flags n l rest).
Proof.
  induction l as [|[j c] l IH]; cbn [cluster_loop]; [apply tracks_ret|]. case_match; [exact IH|].
  apply tracks_bind; [apply tracks_modify_next|]. intros [v|]; [apply tracks_ret|exact IH].
Qed.

Lemma tracks_preprocess flags args : forall skip result, tracks (preprocess_loop flagValModifier flags args skip result).
Proof.
  induction args as [|arg args IH]; intros skip result; cbn [preprocess_loop]; [apply tracks_ret|].
  destruct skip; [apply IH|]. apply tracks_bind; [|intros r; apply IH]. unfold preprocess_arg.
  repeat first [apply tracks_modifier | apply tracks_modify_next | apply tracks_cluster | track_step].
Qed.

Lemma tracks_handleRun cmd : tracks (handleRun cmd).
Proof.
  unfold handleRun, parse_run, preprocessArgs, run_network, handleOIDC, run_plain, run_docker.
  repeat first [apply tracks_preprocess | apply tracks_expandArgs | track_step].
Qed.

Lemma tracks_handleCopy cmd : tracks (handleCopy cmd).
Proof. unfold handleCopy, copy_chmod, copy_source, copy_classical_source, copy_artifact, copy_wildcards. tt. Qed.

Lemma tracks_save cmd : tracks (handleSaveArtifact cmd) /\ tracks (handleSaveImage cmd).
Proof. split; unfold handleSaveArtifact, handleSaveImage; tt. Qed.

Lemma tracks_handleBuild fuel : forall cmd async, tracks (handleBuild fuel cmd async).
Proof.
  induction fuel as [|f IH]; intros cmd async; [apply tracks_stuck|]. cbn [handleBuild].
  unfold build_target, build_platforms, build_combination. tt.
Qed.

Lemma tracks_label_loop sl args : forall next labels, tracks (label_loop sl args next labels).
Proof. induction args as [|arg args IH]; intros next labels; cbn [label_loop]; destruct next; tt. Qed.

Lemma tracks_image cmd :
  tracks (handleWorkdir cmd) /\ tracks (handleUser cmd) /\ tracks (handleCmd cmd) /\ tracks (handleEntrypoint cmd) /\
  tracks (handleExpose cmd) /\ tracks (handleVolume cmd) /\ tracks (handleGitClone cmd) /\ tracks (handleHealthcheck cmd).
Proof.
  split_and!; unfold handleWorkdir, handleUser, handleCmd, handleEntrypoint, handleExpose, handleVolume, handleGitClone,
    handleHealthcheck, healthcheck_args; tt.
Qed.

Lemma tracks_variables cmd :
  tracks (handleEnv cmd) /\ tracks (handleArg cmd) /\ tracks (handleLet cmd) /\ tracks (handleSet cmd) /\
  tracks (handleLabel cmd).
Proof.
  split_and!; unfold handleEnv, handleArg, handleLet, handleSet, parseSetArgs, handleLabel;
    repeat first [apply tracks_label_loop | apply tracks_expandArgs | track_step].
Qed.

Lemma tracks_other cmd :
  tracks (handleWithDocker cmd) /\ tracks (handleImport cmd) /\ tracks (handleProject cmd) /\ tracks (handleCache cmd) /\
  tracks (handleHost cmd).
Proof.
  split_and!; unfold handleWithDocker, docker_load, update_docker, handleImport, handleProject, handleCache, handleHost; tt.
Qed.

(** ** Statements *)

Section Statements.
Variables (build : Command -> bool -> I unit) (block : Block -> I unit) (statement : Statement -> I unit).
Hypothesis Hbuild : forall c async, tracks (build c async).
Hypothesis Hblock : forall b, tracks (block b).
Hypothesis Hstatement : forall s, tracks (statement s).

Lemma tracks_lookahead b : tracks (lookahead build b).
Proof. induction b as [|s b IH]; cbn [lookahead]; [apply tracks_ret|]. tt; exact IH. Qed.

Lemma tracks_block_loop b : forall prev, tracks (block_loop build statement b prev).
Proof.
  induction b as [|s b IH]; intros prev; cbn [block_loop]; [apply tracks_ret|]. unfold handleBlockParallel.
  repeat first [apply tracks_lookahead | track_step].
Qed.

Lemma tracks_if_expression e m sl : tracks (handleIfExpression e m sl).
Proof. unfold handleIfExpression. tt. Qed.

Lemma tracks_handleIf s : tracks (handleIf block s).
Proof.
  assert (Helse : forall l eb, tracks (else_ifs block l eb)).
  { induction l as [|[sl e b m] l IH]; intros eb; cbn [else_ifs]; [tt|]. apply tracks_bind; [apply tracks_if_expression|].
    intros []; [apply Hblock|apply IH]. }
  destruct s as [eb sl e ei ib m]. unfold handleIf. repeat first [apply tracks_if_expression | track_step].
Qed.

Lemma tracks_loops : (forall s, tracks (handleFor block s)) /\ (forall s, tracks (handleWait block s)).
Proof.
  split; intros [sl args body]; unfold handleFor, handleForArgs, for_instance, handleWait; tt.
Qed.

Lemma tracks_handleDoFunction command rel uc do args p passArgs useFn :
  tracks (handleDoFunction block command rel uc do args p passArgs useFn).
Proof.
  unfold handleDoFunction. apply tracks_self. intros i Hi.
  destruct (p && negb (allowPrivileged i)) eqn:Ep; [apply tracks_fail|].
  assert (Hp : p = true -> allowPrivileged i = true) by (intros ->; by apply negb_false_iff).
  destruct (fn_Recipe uc) as [|[[c| | | | |] loc] body]; try apply tracks_fail.
  destruct (negb (String.eqb _ _)); [apply tracks_fail|]. destruct (negb (_ =? 0)); [apply tracks_fail|].
  destruct (cmd_SourceLocation do); [|apply tracks_fail].
  apply tracks_bind; [t|]. intros _. apply tracks_bind.
  { apply tracks_update. intros j Hj. split; [by apply (trk_lower i)|by intros ?]. }
  intros _. apply tracks_bind; [apply Hblock|]. intros _. apply tracks_bind; [t|]. intros _.
  apply tracks_update. intros j Hj. split; [by apply (trk_lower i)|by intros ?].
Qed.

Lemma tracks_handleDo cmd : tracks (handleDo block cmd).
Proof. unfold handleDo. repeat first [apply tracks_handleDoFunction | apply tracks_expandArgs
  | apply tracks_expandArgsSlice | progress unfold parse_flag_args | track_step]. Qed.

Lemma tracks_handleCommand cmd : tracks (handleCommand build block cmd).
Proof.
  unfold handleCommand. apply tracks_self. intros i _.
  destruct (tracks_from cmd) as (?&?&?), (tracks_save cmd) as (?&?), (tracks_image cmd) as (?&?&?&?&?&?&?&?),
    (tracks_variables cmd) as (?&?&?&?&?), (tracks_other cmd) as (?&?&?&?&?).
  repeat (case_match; try solve [assumption | apply tracks_handleRun | apply tracks_handleCopy | apply tracks_handleDo
    | apply Hbuild | apply tracks_fail]).
Qed.

Lemma tracks_handleWith s : tracks (handleWith build block s).
Proof.
  destruct s as [sl body cmd]. unfold handleWith. repeat first [apply tracks_handleCommand | track_step].
Qed.

Lemma tracks_handleTry s : tracks (handleTry statement s).
Proof. destruct s as [cb fb sl tb]. unfold handleTry, try_save_file. tt. Qed.

Lemma tracks_statement_body s : tracks (statement_body build block statement s).
Proof.
  unfold statement_body. destruct (statement_kind s); auto using tracks_handleCommand, tracks_handleWith, tracks_handleIf,
    tracks_handleTry; apply tracks_loops.
Qed.

End Statements.

Lemma tracks_handlers fuel : (forall s, tracks (handleStatement fuel s)) /\ (forall b, tracks (handleBlock fuel b)).
Proof.
  induction fuel as [|f [IHs IHb]]; split; intros; try apply tracks_stuck.
  - apply tracks_statement_body; auto using tracks_handleBuild.
  - apply tracks_block_loop; auto using tracks_handleBuild.
Qed.

Lemma tracks_run fuel ef : tracks (Interpreter_Run fuel ef).
Proof.
  destruct (tracks_handlers fuel) as [_ Hb].
  unfold Interpreter_Run, run_tree, handleTarget. t.
Qed.

End Track.

(** ** The history grows *)

Section Extends.
Context {W : Type} `{Converter W}.

Definition extends (s s' : State W) : Prop := exists new, history s' = history s ++ new.

#[export] Instance extends_tracking : Tracking extends (fun _ => True).
Proof.
  split; [|intros A c s|intros f Hf s|intros A k Hk s|done|done].
  - split; [intros s; exists []; by rewrite app_nil_r|]. intros s1 s2 s3 [n1 E1] [n2 E2]. exists (n1 ++ n2).
    by rewrite E2, E1, app_assoc.
  - unfold call. destruct (answer c (world s)). by eexists.
  - exists []. simpl. by rewrite app_nil_r.
  - by apply (Hk (self_ s)).
Qed.

End Extends.

(** ** Pushes and privileges along the history *)

Section Evolution.
Context {W : Type} `{Converter W}.
Variable a : bool.

(** The privilege is at most [a]. *)
Definition at_most (i : Interpreter) : Prop := allowPrivileged i = true -> a = true.

Record tracked (s : State W) : Prop := mkTracked {
  tr_within : at_most (self_ s);
  tr_events : Forall (fun e => at_most (ev_self e) /\ push_order (ev_self e) (self_ s)) (history s);
  tr_order : StronglySorted event_order (history s)
}.

Definition later (s s' : State W) : Prop := tracked s -> tracked s'.

Lemma Sorted_snoc (l : list event) e :
  StronglySorted event_order l -> Forall (fun e' => event_order e' e) l -> StronglySorted event_order (l ++ [e]).
Proof.
  induction l as [|x l IH]; intros Hs Hf; simpl; [by repeat constructor|].
  apply StronglySorted_inv in Hs as [Hs Hx]. inversion Hf as [|? ? Hxe Hf']; subst.
  constructor; [by apply IH|]. apply List.Forall_app. by repeat constructor.
Qed.

#[export] Instance later_tracking : Tracking later at_most.
Proof.
  split; [|intros A c s [Hw He Ho]|intros f Hf s [Hw He Ho]|intros A k Hk s Ht| |].
  - split; unfold later; [by intros s|]. intros s1 s2 s3. auto.
  - unfold call. destruct (answer c (world s)) as [w r]. simpl. split; simpl; [done| |].
    + apply List.Forall_app. split; [done|]. repeat constructor; [exact Hw|]. by intros ?.
    + apply Sorted_snoc; [done|]. eapply List.Forall_impl; [|exact He]. by intros e [_ ?].
  - destruct (Hf _ Hw) as [Hw' Hp]. split; simpl; [done| |done].
    eapply List.Forall_impl; [|exact He]. intros e [Hwe Hpe]. split; [done|]. intros Hx. auto.
  - by apply (Hk (self_ s)); [apply Ht|].
  - intros i j E Hi. unfold at_most in *. by rewrite <- E.
  - intros i j p Hi Hj Hp. unfold at_most in *. simpl. auto.
Qed.

End Evolution.
