(* ===== verification/InterpSafety.v ===== *)
(** * The interpreter: what a run may do

    The theorems on whole runs of the interpreter: nothing but pushes after a push,
    no privilege without permission, blocks that leave the interpreter as they
    found it, FOR, and the look-ahead. *)

From stdpp Require Import gmap.
From Stdlib Require Import Sorted.
From S2P Require Import Prelude GoStrings Token Ast GoText Reference Imports KeyValue Collection.
From S2P Require Import Validator Effects ShellLex FlagUtil Matrix ConvApi Interp InterpCmds.
From S2P Require Import InterpBlocks InterpLogic InterpTrack.

Open Scope eff_scope.

Definition event_after_push (e : event) : bool := match e with mkEvent _ c => after_push c end.
Definition event_privileged (e : event) : bool := match e with mkEvent _ c => privileged c || docker_privileged c end.

Section Safety.
Context {W : Type} `{Converter W} `{FlagParsers} `{Features} `{Packages} `{Unicode} `{UnicodeTables} `{SliceGrowth}.
Abbreviation I := (@I W).

(** A run of a new interpreter. *)
Definition start (t : Reference) (allowPriv parallel : bool) (w : W) : State W :=
  mkState (newInterpreter t allowPriv parallel) w [].

Definition run_history (fuel : nat) (ef : Tree) (t : Reference) (allowPriv parallel : bool) (w : W) : list event :=
  history (fst (Interpreter_Run fuel ef (start t allowPriv parallel w))).

Lemma Inv_new t a parallel : Inv a (newInterpreter t a parallel).
Proof. by apply mkInv. Qed.

Lemma emits_run a i fuel ef :
  Inv a i -> pushOnlyAllowed i = false -> emits (W := W) (ok a) i (Interpreter_Run fuel ef) (fun _ _ => True).
Proof.
  intros Hi Hp. destruct (emits_handlers a fuel) as [_ Hb].
  assert (Hquiet : forall A j (m : I A), quiet (ok a) j m (fun _ => True) -> emits (ok a) j m (fun _ _ => True)).
  { intros A j m Hm. eapply emits_quiet; [exact Hm|done]. }
  unfold Interpreter_Run. eapply (emits_try_then _ _ _ _ (fun _ _ => True)).
  - unfold run_tree. apply emits_self_then. destruct (String.eqb _ _).
    + apply emits_update_then. eapply (emits_try_then _ _ _ _ (fun _ _ => True)).
      * eapply emits_weaken; [apply Hb; by destruct Hi|done].
      * intros [] j _. apply emits_update_then, Hquiet. by apply quiet_ret.
      * intros er j. apply emits_update_then, emits_fail.
    + destruct (List.find _ _) as [tg|]; [|apply emits_fail]. unfold handleTarget. apply emits_self_then.
      eapply (emits_then _ _ _ _ (fun _ => True)).
      * eapply quiet_wrap, quiet_call. by split_and!; simpl; [rewrite Hp|..].
      * intros _ _. eapply emits_weaken; [by apply Hb|done].
  - intros [] j _. apply Hquiet. by apply quiet_ret.
  - intros er j. eapply (emits_then _ _ _ _ (fun _ => True)); [by apply quiet_call|]. intros _ _. apply emits_fail.
Qed.

Lemma run_ok fuel ef t a parallel w : Forall (ok a) (run_history fuel ef t a parallel w).
Proof.
  unfold run_history.
  destruct (emits_run a _ fuel ef (Inv_new t a parallel) eq_refl (start t a parallel w) eq_refl) as [(new & -> & Hh) _].
  exact Hh.
Qed.

Lemma run_tracked fuel ef t a parallel w : tracked a (fst (Interpreter_Run fuel ef (start t a parallel w))).
Proof.
  apply (tracks_run (later a) (at_most a) fuel ef (start t a parallel w)).
  split; simpl; [by intros ?|constructor|constructor].
Qed.



(** A block leaves the interpreter as it found it: when it succeeds, the
    target, the privilege (also after a DO with less of it), the mode and whether a
    WITH DOCKER is open are as before, outside WITH DOCKER none has run, and a push
    is not forgotten. *)
Theorem block_restores fuel b (s : State W) s' :
  isWith (self_ s) = false -> (withDocker (self_ s) = None -> withDockerRan (self_ s) = false) ->
  handleBlock fuel b s = (s', Ret tt) ->
  kept (self_ s) (self_ s') /\ isWith (self_ s') = false /\
  (withDocker (self_ s') = None -> withDockerRan (self_ s') = false).
Proof.
  intros Hw Hr Hb. destruct (emits_handlers true fuel) as [_ Hblock].
  assert (Hi : Inv true (self_ s)) by (by apply mkInv).
  destruct (Hblock (self_ s) b Hi s eq_refl) as [_ Hg]. rewrite Hb in Hg. simpl in Hg.
  destruct (Hg tt eq_refl) as [[Iw Ip Ir Il] Hk]. done.
Qed.

(** ** FOR *)

(** The calls of a loop over [xs]: each value is set, the body runs, the variable is
    unset. *)
Inductive iterations (v : string) : list string -> list event -> Prop :=
  | it_nil : iterations v [] []
  | it_cons x xs i body j rest :
      iterations v xs rest ->
      iterations v (x :: xs) (mkEvent i (CSetArg v x) :: body ++ mkEvent j (CUnsetArg v) :: rest).

Lemma call_event {A} (c : Call A) s s' r : call c s = (s', r) -> history s' = history s ++ [mkEvent (self_ s) c].
Proof. unfold call. destruct (answer c (world s)). by intros [= <- <-]. Qed.

Lemma ewrap_Ret {S E A} h (m : Eff S E A) s s' x : ewrap h m s = (s', Ret x) -> m s = (s', Ret x).
Proof. unfold ewrap. by destruct (m s) as [s1 [y|e|]]. Qed.

Lemma for_loop_calls fuel sl v body xs : forall (s s' : State W),
  eiter (for_instance (handleBlock fuel) sl v body) xs s = (s', Ret tt) ->
  exists new, history s' = history s ++ new /\ iterations v xs new.
Proof.
  destruct (tracks_handlers (W := W) extends (fun _ => True) fuel) as [_ Hext].
  induction xs as [|x xs IH]; intros s s' Hrun; simpl in Hrun.
  { injection Hrun as <-. exists []. split; [by rewrite app_nil_r|constructor]. }
  apply ebind_Ret in Hrun as (s4 & [] & Hx & Hrest). destruct (IH _ _ Hrest) as (rest & Hr & Hit).
  unfold for_instance in Hx. apply ebind_Ret in Hx as (s1 & [] & Hc1%ewrap_Ret%call_event & Hx).
  apply ebind_Ret in Hx as (s2 & [] & Hb & Hc3%ewrap_Ret%call_event).
  destruct (Hext body s1) as [new Hnew]. rewrite Hb in Hnew. simpl in Hnew.
  eexists. split; [|by apply (it_cons v x xs (self_ s) new (self_ s2) rest)].
  rewrite Hr, Hc3, Hnew, Hc1. by rewrite <- !app_assoc.
Qed.

(** FOR visits its values in order: when it succeeds, the calls after the
    evaluation of its expression are, for each field of the output in turn, setting
    the variable to it, the calls of the body, and unsetting the variable. *)
Theorem for_iterates fuel sl args body (s s' : State W) :
  handleFor (handleBlock fuel) (mkFor sl args body) s = (s', Ret tt) ->
  exists s1 v xs new, handleForArgs args sl s = (s1, Ret (v, xs)) /\
    history s' = history s1 ++ new /\ iterations v xs new.
Proof.
  unfold handleFor. destruct (negb ForIn); [done|]. intros (s1 & [v xs] & Ha & Hrun)%ebind_Ret.
  destruct (for_loop_calls _ _ _ _ _ _ _ Hrun) as (new & Hn & Hit). by exists s1, v, xs, new.
Qed.

(** ** Looking ahead *)

(** What may be called ahead of time: nothing that shells out or runs a command. *)
Definition ahead (e : event) : Prop :=
  match e with
  | mkEvent _ c =>
      match c with
      | CExpandArgs _ _ allowShellOut => allowShellOut = false
      | CParsePlatform _ | CExpandWildcardCmds _ _ | CBuildAsync _ _ _ _ _ => True
      | _ => False
      end
  end.

Ltac qa := repeat quiet_step ltac:(done).

Lemma ahead_expandArgs i word kp : quiet (W := W) ahead i (expandArgs word kp true) (fun _ => True).
Proof. unfold expandArgs. qa. Qed.

Lemma ahead_expandArgsSlice i words : quiet (W := W) ahead i (expandArgsSlice words true) (fun _ => True).
Proof. eapply quiet_any, quiet_map. intros w. apply ahead_expandArgs. Qed.

Lemma ahead_combination i sl target platforms p opts args :
  build_AutoSkip opts = false ->
  quiet (W := W) ahead i (build_combination sl target platforms p opts true args) (fun _ => True).
Proof.
  intros Ha. unfold build_combination. rewrite Ha.
  eapply (quiet_bind _ _ _ _ (fun _ => True)); [by apply quiet_ret|]. intros [h|] _; qa.
Qed.

Lemma ahead_build fuel : forall i cmd, quiet (W := W) ahead i (handleBuild fuel cmd true) (fun _ => True).
Proof.
  induction fuel as [|f IH]; intros i cmd; [apply quiet_stuck|]. cbn [handleBuild].
  unfold unless_push_only, build_target, build_platforms, getAllowPrivilegedTarget, getAllowPrivileged, parse_flag_args.
  repeat first [ apply ahead_expandArgs | apply ahead_expandArgsSlice | apply IH
    | match goal with
      | |- quiet _ _ (build_combination _ _ _ _ ?o _ _) _ =>
          apply ahead_combination; destruct (build_AutoSkip o); [|done]; rewrite ?orb_true_r in *; done
      end
    | quiet_step ltac:(done) ].
Qed.

(** The statements that the look-ahead does not pass. *)
Definition stmt_stops (s : Statement) : bool :=
  match statement_kind s with SCommand c => stops_lookahead (cmd_Name c) | SWith _ => false | _ => true end.

Lemma lookahead_stops (build : Command -> bool -> I unit) b1 x b2 b2' s :
  stmt_stops x = true -> lookahead build (b1 ++ x :: b2) s = lookahead build (b1 ++ x :: b2') s.
Proof.
  intros Hx. revert s. induction b1 as [|y b1 IH]; intros s; cbn [app lookahead].
  - unfold stmt_stops in Hx. destruct (statement_kind x); try done. by rewrite Hx.
  - destruct (statement_kind y); try apply IH; try done. destruct (stops_lookahead _); [done|].
    destruct (String.eqb _ _); [|apply IH]. unfold ebind. destruct (etry _ _) as [s1 [[?|e]|e|]]; try done; try apply IH.
    destruct (errors_Is _ _); [apply IH|done].
Qed.

(** The look-ahead is harmless: it leaves the interpreter as it is, it only
    starts builds and expands their arguments without shelling out, it does nothing
    under LOCALLY, and what follows a statement that must run first does not matter
    to it. *)
Theorem lookahead_harmless fuel b1 x b2 (s : State W) :
  stmt_stops x = true ->
  let s' := fst (handleBlockParallel (handleBuild fuel) (b1 ++ x :: b2) s) in
  self_ s' = self_ s /\
  (exists new, history s' = history s ++ new /\ Forall ahead new /\ (local (self_ s) = true -> new = [])) /\
  forall b2', s' = fst (handleBlockParallel (handleBuild fuel) (b1 ++ x :: b2') s).
Proof.
  intros Hx. assert (Hq : forall b i, quiet (W := W) ahead i (lookahead (handleBuild fuel) b) (fun _ => True)).
  { induction b as [|y b IH]; intros i; cbn [lookahead]; [by apply quiet_ret|].
    repeat first [apply IH | apply ahead_build | eapply quiet_any, quiet_try | quiet_step ltac:(done)]. }
  assert (Heq : forall b, handleBlockParallel (handleBuild fuel) b s =
    if local (self_ s) then (s, Ret tt) else lookahead (handleBuild fuel) b s).
  { intros b. unfold handleBlockParallel, ebind, self. by destruct (local (self_ s)). }
  cbn zeta. rewrite Heq. destruct (local (self_ s)) eqn:El; rewrite ?El.
  - split_and!; [done| |by intros; rewrite Heq]. exists []. simpl. by rewrite app_nil_r.
  - destruct (Hq (b1 ++ x :: b2) (self_ s) s eq_refl) as (Hs & (new & Hn & Hf) & _). split_and!; [done|by exists new|].
    intros b2'. by rewrite Heq, (lookahead_stops _ b1 x b2 b2').
Qed.

End Safety.

(** ** Concrete runs *)

Module Sample.

(** A converter that accepts everything. *)
#[local] Instance yes : Converter unit := fun A c w =>
  (w, match c in Call A return out error A with
      | CRunExitCode _ => Ret 0%Z
      | CRunExpression _ _ => Ret "a b"
      | CExpandArgs _ word _ => Ret word
      | CParsePlatform _ => Ret DefaultPlatform
      | CWhiteListed _ => Ret false
      | CExpandWildcardArtifacts _ => Ret []
      | CCheckAutoSkip _ _ _ _ => Ret (false, 0)
      | CExpandWildcardCmds _ _ => Ret []
      | CConvertCloneURL _ => Ret ("", "")
      | CWorkingDir => Ret "/"
      | CResolveReference r => Ret (mkResolved r [] true false false)
      | _ => Ret tt
      end).

(** Whether the first argument is the flag. *)
Definition flag (f : string) (args : list string) : bool * list string :=
  match args with x :: rest => if String.eqb x f then (true, rest) else (false, args) | [] => (false, []) end.

#[local] Instance parsers : FlagParsers := {|
  parse_If := fun args => let '(p, r) := flag "--privileged" args in Ok (mkIfOpts [] [] p false false, r);
  parse_For := fun args => Ok (mkForOpts " " [] [] false false false, args);
  parse_Run := fun args => let '(p, r) := flag "--push" args in
    Ok (mkRunOpts None "" [] [] p false false false false false false false false false, r);
  parse_From := fun args => Ok (mkFromOpts "" [] false false, args);
  parse_FromDockerfile := fun args => Ok (mkFromDockerfileOpts "" "" "" [] false, args);
  parse_Copy := fun args => Ok (mkCopyOpts "" "" "" "" [] false false false false false false false, args);
  parse_SaveArtifact := fun args => Ok (mkSaveArtifactOpts false false false false false, args);
  parse_SaveImage := fun args => Ok (mkSaveImageOpts [] false false false false false, args);
  parse_Build := fun args => Ok (mkBuildOpts [] [] false false false, args);
  parse_GitClone := fun args => Ok (mkGitCloneOpts "" false, args);
  parse_HealthCheck := fun args => Ok (mkHealthCheckOpts 0 0 0 0 0, args);
  parse_WithDocker := fun args => Ok (mkWithDockerOpts "" "" [] [] [] [] [] false false, args);
  parse_Do := fun args => Ok (mkDoOpts false false, args);
  parse_Import := fun args => Ok (mkImportOpts false false, args);
  parse_Arg := fun args => Ok (mkArgOpts false false, args);
  parse_Set := fun args => Ok (tt, args);
  parse_Let := fun args => Ok (tt, args);
  parse_Cache := fun args => Ok (mkCacheOpts "" "" "" false, args)
|}.

(** A version without WAIT. *)
#[local] Instance features : Features := {|
  ForIn := true; WaitBlock := false; ReferencedSaveOnly := true; TryFinally := true; PassArgs := true; NoNetwork := true;
  RunWithAWS := true; RunWithAWSOIDC := true; RawOutput := true; AllowPrivilegedFromDockerfile := true;
  SaveArtifactKeepOwn := true; AllowWithoutEarthlyLabels := true; WildcardBuilds := true; WildcardCopy := true;
  BuildAutoSkip := true; ExplicitGlobal := true; ArgScopeSet := true; DockerCache := true; UseCacheCommand := true;
  UseHostCommand := true |}.

#[local] Instance packages : Packages := {|
  HOME := "/root"; ParsePortSpecs := fun l => Ok l; ParseIP := Some; ParseAWSOIDCInfo := fun s => Ok s;
  earthly_labels := ∅ |}.

#[local] Instance ascii_tables : UnicodeTables := {| wide_letter := fun _ => false; wide_digit := fun _ => false |}.
#[local] Instance all_print : Unicode := fun _ => true.
#[local] Instance grow : SliceGrowth := fun _ need => need.

Definition cmd (name : Cmd) (args : list string) : Statement :=
  mkStatement (SCommand (mkCommand name "" None args false)) None.

Definition build : Reference := mkRef KTarget "" "" "." "" "build".

(** A tree with one target. *)
Definition tree (recipe : Block) : Tree := mkTree None None [mkTarget None "build" "" recipe] [] [].

Definition run (recipe : Block) : list event := run_history 5 (tree recipe) build false false tt.

(** The interpreter after a push. *)
Definition pushed : Interpreter := set_pushOnly true (newInterpreter build false false).


Definition idle : State unit := start build false false tt.

Lemma block_restores_witness :
  let s' := fst (handleBlock 3 [cmd CmdRun ["x"]] idle) in
  kept (self_ idle) (self_ s') /\ isWith (self_ s') = false /\
  (withDocker (self_ s') = None -> withDockerRan (self_ s') = false).
Proof.
  refine (block_restores 3 [cmd CmdRun ["x"]] idle _ eq_refl (fun _ => eq_refl) _). vm_compute. reflexivity.
Defined.

Lemma for_iterates_witness :
  exists s1 v xs new, handleForArgs ["x"; "IN"; "list"] None idle = (s1, Ret (v, xs)) /\
    history (fst (handleFor (handleBlock 3) (mkFor None ["x"; "IN"; "list"] [cmd CmdRun ["y"]]) idle)) = history s1 ++ new /\
    iterations v xs new.
Proof.
  refine (for_iterates 3 None ["x"; "IN"; "list"] [cmd CmdRun ["y"]] idle _ _). vm_compute. reflexivity.
Defined.

Lemma lookahead_harmless_witness :
  self_ (fst (handleBlockParallel (handleBuild 2) ([cmd CmdBuild ["+x"]] ++ cmd CmdFrom ["y"] :: []) idle)) = self_ idle.
Proof. refine (proj1 (lookahead_harmless 2 [cmd CmdBuild ["+x"]] (cmd CmdFrom ["y"]) [] idle eq_refl)). Defined.

(** ** What the code lets through *)

(** IF --privileged is not checked: an interpreter that may not be privileged runs
    the condition with privilege (and FOR does the same). *)
Lemma if_privileged_unchecked :
  exists i o, In (mkEvent i (CRunExitCode o))
      (run [mkStatement (SIf (mkIf None None ["--privileged"; "true"] [] [] false)) None]) /\
    allowPrivileged i = false /\ ro_Privileged o = true.
Proof. eexists _, _. split; [vm_compute; right; left; reflexivity|done]. Qed.

(** The files of a TRY stay set: a RUN after it is given them too. *)
Lemma try_files_leak :
  exists i o, In (mkEvent i (CRun o))
      (run [mkStatement (STry (mkTry None (Some [cmd CmdSaveArtifact ["f"; "AS"; "LOCAL"; "g"]]) None [cmd CmdRun ["x"]])) None;
            cmd CmdRun ["y"]]) /\
    ro_Args o = ["y"] /\ ro_InteractiveSaveFiles o = [mkSaveFile "f" "g" false].
Proof.
  eexists _, _. split; [vm_compute; do 6 right; left; reflexivity|]. by split.
Qed.

(** TRY without FINALLY dereferences a nil pointer. *)
Lemma try_without_finally (s : State unit) :
  snd (handleTry (handleStatement 3) (mkTry None None None [cmd CmdRun ["x"]]) s) = Fail nil_dereference.
Proof. reflexivity. Qed.

(** After a push, the expression of a FOR is still run, though a RUN or an IF is not. *)
Lemma for_after_push :
  exists i v o, In (mkEvent i (CRunExpression v o))
      (run [cmd CmdRun ["--push"; "x"]; mkStatement (SFor (mkFor None ["x"; "IN"; "list"] [])) None]) /\
    pushOnlyAllowed i = true /\ ro_Push o = false.
Proof. eexists _, _, _. split; [vm_compute; right; right; left; reflexivity|done]. Qed.

End Sample.
