(* ===== verification/ConvState.v ===== *)
(** * The state of the converter

    The records of [earthfile2llb/converter.go], of [earthfile2llb/earthfile2llb.go] and of
    [states/states.go]: the target that is being converted, the options of the
    conversion, the converter itself, and what it shares with the conversions of other
    targets ([World]).  A setter is an assignment to a field.  The zero value of a state
    is the empty state; channels, mutexes and log objects are left out. *)

From stdpp Require Import gmap.
From S2P Require Import Prelude GoStrings Token GoText Reference Imports Scope Collection Features Platform States.
From S2P Require Import RunMount.
From S2P Require Import Llb LocalState WaitBlock Effects.

(** ** [states/states.go] *)

Record CacheMount : Type := mkCacheMount { cm_RunOption : ExecOption; Persisted : bool }.

Inductive SessionKind : Type := SessionKeep | SessionEphemeral.

Record InteractiveSession : Type := mkSession {
  is_State : State; is_CommandStr : string; is_Kind : option SessionKind; is_Initialized : bool }.

Definition no_session : InteractiveSession := mkSession SScratch "" None false.

Record RunPush : Type := mkRunPush {
  rp_State : State; rp_Session : InteractiveSession; rp_CommandStrs : list string;
  rp_SaveLocals : list SaveLocal; rp_SaveImages : list SaveImage; rp_HasState : bool }.

Definition no_push : RunPush := mkRunPush SScratch no_session [] [] [] false.

Definition set_rp_State (x : State) (r : RunPush) : RunPush :=
  mkRunPush x (rp_Session r) (rp_CommandStrs r) (rp_SaveLocals r) (rp_SaveImages r) (rp_HasState r).
Definition set_rp_Session (x : InteractiveSession) (r : RunPush) : RunPush :=
  mkRunPush (rp_State r) x (rp_CommandStrs r) (rp_SaveLocals r) (rp_SaveImages r) (rp_HasState r).
Definition set_rp_CommandStrs (x : list string) (r : RunPush) : RunPush :=
  mkRunPush (rp_State r) (rp_Session r) x (rp_SaveLocals r) (rp_SaveImages r) (rp_HasState r).
Definition set_rp_SaveLocals (x : list SaveLocal) (r : RunPush) : RunPush :=
  mkRunPush (rp_State r) (rp_Session r) (rp_CommandStrs r) x (rp_SaveImages r) (rp_HasState r).
Definition set_rp_SaveImages (x : list SaveImage) (r : RunPush) : RunPush :=
  mkRunPush (rp_State r) (rp_Session r) (rp_CommandStrs r) (rp_SaveLocals r) x (rp_HasState r).
Definition set_rp_HasState (x : bool) (r : RunPush) : RunPush :=
  mkRunPush (rp_State r) (rp_Session r) (rp_CommandStrs r) (rp_SaveLocals r) (rp_SaveImages r) x.

(** [SingleTarget] *)
Record Sts : Type := mkSts {
  sts_Target : Reference; sts_ID : string; targetInput : TargetInput; MainState : State; ArtifactsState : State;
  SeparateArtifactsState : list State; MainImage : Image; SaveLocals : list SaveLocal;
  SaveImages : list SaveImage; RunPush_ : RunPush; InteractiveSession_ : InteractiveSession;
  WaitBlocks : list nat; WaitItems : list nat; HasDangling : bool; RanFromLike : bool; RanInteractive : bool;
  doSaves : bool; doPushes : bool }.

Definition set_targetInput (x : TargetInput) (s : Sts) : Sts :=
  mkSts (sts_Target s) (sts_ID s) x (MainState s) (ArtifactsState s) (SeparateArtifactsState s) (MainImage s)
    (SaveLocals s) (SaveImages s) (RunPush_ s) (InteractiveSession_ s) (WaitBlocks s) (WaitItems s) (HasDangling s)
    (RanFromLike s) (RanInteractive s) (doSaves s) (doPushes s).
Definition set_MainState (x : State) (s : Sts) : Sts :=
  mkSts (sts_Target s) (sts_ID s) (targetInput s) x (ArtifactsState s) (SeparateArtifactsState s) (MainImage s)
    (SaveLocals s) (SaveImages s) (RunPush_ s) (InteractiveSession_ s) (WaitBlocks s) (WaitItems s) (HasDangling s)
    (RanFromLike s) (RanInteractive s) (doSaves s) (doPushes s).
Definition set_ArtifactsState (x : State) (s : Sts) : Sts :=
  mkSts (sts_Target s) (sts_ID s) (targetInput s) (MainState s) x (SeparateArtifactsState s) (MainImage s)
    (SaveLocals s) (SaveImages s) (RunPush_ s) (InteractiveSession_ s) (WaitBlocks s) (WaitItems s) (HasDangling s)
    (RanFromLike s) (RanInteractive s) (doSaves s) (doPushes s).
Definition set_SeparateArtifactsState (x : list State) (s : Sts) : Sts :=
  mkSts (sts_Target s) (sts_ID s) (targetInput s) (MainState s) (ArtifactsState s) x (MainImage s) (SaveLocals s)
    (SaveImages s) (RunPush_ s) (InteractiveSession_ s) (WaitBlocks s) (WaitItems s) (HasDangling s) (RanFromLike s)
    (RanInteractive s) (doSaves s) (doPushes s).
Definition set_MainImage (x : Image) (s : Sts) : Sts :=
  mkSts (sts_Target s) (sts_ID s) (targetInput s) (MainState s) (ArtifactsState s) (SeparateArtifactsState s) x
    (SaveLocals s) (SaveImages s) (RunPush_ s) (InteractiveSession_ s) (WaitBlocks s) (WaitItems s) (HasDangling s)
    (RanFromLike s) (RanInteractive s) (doSaves s) (doPushes s).
Definition set_SaveLocals (x : list SaveLocal) (s : Sts) : Sts :=
  mkSts (sts_Target s) (sts_ID s) (targetInput s) (MainState s) (ArtifactsState s) (SeparateArtifactsState s)
    (MainImage s) x (SaveImages s) (RunPush_ s) (InteractiveSession_ s) (WaitBlocks s) (WaitItems s) (HasDangling s)
    (RanFromLike s) (RanInteractive s) (doSaves s) (doPushes s).
Definition set_SaveImages (x : list SaveImage) (s : Sts) : Sts :=
  mkSts (sts_Target s) (sts_ID s) (targetInput s) (MainState s) (ArtifactsState s) (SeparateArtifactsState s)
    (MainImage s) (SaveLocals s) x (RunPush_ s) (InteractiveSession_ s) (WaitBlocks s) (WaitItems s) (HasDangling s)
    (RanFromLike s) (RanInteractive s) (doSaves s) (doPushes s).
Definition set_RunPush_ (x : RunPush) (s : Sts) : Sts :=
  mkSts (sts_Target s) (sts_ID s) (targetInput s) (MainState s) (ArtifactsState s) (SeparateArtifactsState s)
    (MainImage s) (SaveLocals s) (SaveImages s) x (InteractiveSession_ s) (WaitBlocks s) (WaitItems s) (HasDangling
    s) (RanFromLike s) (RanInteractive s) (doSaves s) (doPushes s).
Definition set_InteractiveSession_ (x : InteractiveSession) (s : Sts) : Sts :=
  mkSts (sts_Target s) (sts_ID s) (targetInput s) (MainState s) (ArtifactsState s) (SeparateArtifactsState s)
    (MainImage s) (SaveLocals s) (SaveImages s) (RunPush_ s) x (WaitBlocks s) (WaitItems s) (HasDangling s)
    (RanFromLike s) (RanInteractive s) (doSaves s) (doPushes s).
Definition set_WaitBlocks (x : list nat) (s : Sts) : Sts :=
  mkSts (sts_Target s) (sts_ID s) (targetInput s) (MainState s) (ArtifactsState s) (SeparateArtifactsState s)
    (MainImage s) (SaveLocals s) (SaveImages s) (RunPush_ s) (InteractiveSession_ s) x (WaitItems s) (HasDangling s)
    (RanFromLike s) (RanInteractive s) (doSaves s) (doPushes s).
Definition set_WaitItems (x : list nat) (s : Sts) : Sts :=
  mkSts (sts_Target s) (sts_ID s) (targetInput s) (MainState s) (ArtifactsState s) (SeparateArtifactsState s)
    (MainImage s) (SaveLocals s) (SaveImages s) (RunPush_ s) (InteractiveSession_ s) (WaitBlocks s) x (HasDangling
    s) (RanFromLike s) (RanInteractive s) (doSaves s) (doPushes s).
Definition set_HasDangling (x : bool) (s : Sts) : Sts :=
  mkSts (sts_Target s) (sts_ID s) (targetInput s) (MainState s) (ArtifactsState s) (SeparateArtifactsState s)
    (MainImage s) (SaveLocals s) (SaveImages s) (RunPush_ s) (InteractiveSession_ s) (WaitBlocks s) (WaitItems s) x
    (RanFromLike s) (RanInteractive s) (doSaves s) (doPushes s).
Definition set_RanFromLike (x : bool) (s : Sts) : Sts :=
  mkSts (sts_Target s) (sts_ID s) (targetInput s) (MainState s) (ArtifactsState s) (SeparateArtifactsState s)
    (MainImage s) (SaveLocals s) (SaveImages s) (RunPush_ s) (InteractiveSession_ s) (WaitBlocks s) (WaitItems s)
    (HasDangling s) x (RanInteractive s) (doSaves s) (doPushes s).
Definition set_RanInteractive (x : bool) (s : Sts) : Sts :=
  mkSts (sts_Target s) (sts_ID s) (targetInput s) (MainState s) (ArtifactsState s) (SeparateArtifactsState s)
    (MainImage s) (SaveLocals s) (SaveImages s) (RunPush_ s) (InteractiveSession_ s) (WaitBlocks s) (WaitItems s)
    (HasDangling s) (RanFromLike s) x (doSaves s) (doPushes s).
Definition set_doSaves (x : bool) (s : Sts) : Sts :=
  mkSts (sts_Target s) (sts_ID s) (targetInput s) (MainState s) (ArtifactsState s) (SeparateArtifactsState s)
    (MainImage s) (SaveLocals s) (SaveImages s) (RunPush_ s) (InteractiveSession_ s) (WaitBlocks s) (WaitItems s)
    (HasDangling s) (RanFromLike s) (RanInteractive s) x (doPushes s).
Definition set_doPushes (x : bool) (s : Sts) : Sts :=
  mkSts (sts_Target s) (sts_ID s) (targetInput s) (MainState s) (ArtifactsState s) (SeparateArtifactsState s)
    (MainImage s) (SaveLocals s) (SaveImages s) (RunPush_ s) (InteractiveSession_ s) (WaitBlocks s) (WaitItems s)
    (HasDangling s) (RanFromLike s) (RanInteractive s) (doSaves s) x.

(** A target that is done: the fields that [FinalizeStates] sets come with it. *)
Record Built : Type := mkBuilt {
  b_sts : Sts; b_VarCollection : Collection; b_PlatformResolver : Plat.Resolver;
  b_GlobalImports : gmap string ImportTrackerVal }.

(** [LastSaveImage] *)
Definition LastSaveImage (s : Sts) : State * Image :=
  match List.last (List.map Some (SaveImages s)) None with
  | None => (MainState s, MainImage s)
  | Some si => (si_State si, si_Image si)
  end.

Definition AddBuildArgInput_ (bai : BuildArgInput) (s : Sts) : Sts := set_targetInput (WithBuildArgInput bai (targetInput s)) s.

(** ** [earthfile2llb.go]: the options that the converter reads *)

(** What to do when the target has been executed as often as the number says: save a hash,
    known by a number. *)
Definition OnSuccess : Type := option (nat * option nat).

Record ConvertOpt : Type := mkOpt {
  o_OverridingVars : Scope; o_GlobalImports : gmap string ImportTrackerVal; o_PlatformResolver : Plat.Resolver;
  o_waitBlock : option nat; o_parentTargetID : string; o_parentCommandID : string;
  o_OnExecutionSuccess : OnSuccess; o_HasDangling : bool; o_AllowPrivileged : bool; o_DoSaves : bool;
  o_DoPushes : bool; o_ForceSaveImage : bool; o_OnlyFinalTargetImages : bool; o_AllowLocally : bool;
  o_AllowInteractive : bool; o_UseFakeDep : bool; o_UseInlineCache : bool; o_UseLocalRegistry : bool;
  o_InteractiveDebuggerEnabled : bool; o_GlobalWaitBlockFtr : bool; o_sessionID : string }.

(** ** What conversions share *)

Record World : Type := mkWorld {
  w_store : Store; w_CacheImports : gset string; w_whitelist : list string; w_projects : list (string * string);
  w_pushed : list (string * string * string * bool); w_secrets : gmap string string;
  w_localStates : LocalStateCache; w_solveCache : gmap string State }.

Definition set_w_store (x : Store) (w : World) : World :=
  mkWorld x (w_CacheImports w) (w_whitelist w) (w_projects w) (w_pushed w) (w_secrets w) (w_localStates w)
    (w_solveCache w).
Definition set_w_CacheImports (x : gset string) (w : World) : World :=
  mkWorld (w_store w) x (w_whitelist w) (w_projects w) (w_pushed w) (w_secrets w) (w_localStates w) (w_solveCache
    w).
Definition set_w_whitelist (x : list string) (w : World) : World :=
  mkWorld (w_store w) (w_CacheImports w) x (w_projects w) (w_pushed w) (w_secrets w) (w_localStates w) (w_solveCache
    w).
Definition set_w_projects (x : list (string * string)) (w : World) : World :=
  mkWorld (w_store w) (w_CacheImports w) (w_whitelist w) x (w_pushed w) (w_secrets w) (w_localStates w)
    (w_solveCache w).
Definition set_w_pushed (x : list (string * string * string * bool)) (w : World) : World :=
  mkWorld (w_store w) (w_CacheImports w) (w_whitelist w) (w_projects w) x (w_secrets w) (w_localStates w)
    (w_solveCache w).
Definition set_w_secrets (x : gmap string string) (w : World) : World :=
  mkWorld (w_store w) (w_CacheImports w) (w_whitelist w) (w_projects w) (w_pushed w) x (w_localStates w)
    (w_solveCache w).
Definition set_w_localStates (x : LocalStateCache) (w : World) : World :=
  mkWorld (w_store w) (w_CacheImports w) (w_whitelist w) (w_projects w) (w_pushed w) (w_secrets w) x (w_solveCache
    w).
Definition set_w_solveCache (x : gmap string State) (w : World) : World :=
  mkWorld (w_store w) (w_CacheImports w) (w_whitelist w) (w_projects w) (w_pushed w) (w_secrets w) (w_localStates w)
    x.

(** ** [Converter]; [buildContextFactory] constructs the state of the build context, with
    include patterns or without. *)

Record Conv : Type := mkConv {
  target : Reference; opt : ConvertOpt; ftrs : Features; platr : Plat.Resolver; varCollection : Collection;
  persistentCacheDirs : gmap string CacheMount; directDeps : list Built; waitBlockStack : list nat;
  localWorkingDir : string; buildContextFactory : Factory; nextCmdID : nat; cmdSet : bool; ranSave : bool;
  final : Sts; world : World }.

Definition set_ftrs (x : Features) (c : Conv) : Conv :=
  mkConv (target c) (opt c) x (platr c) (varCollection c) (persistentCacheDirs c) (directDeps c) (waitBlockStack c)
    (localWorkingDir c) (buildContextFactory c) (nextCmdID c) (cmdSet c) (ranSave c) (final c) (world c).
Definition set_platr (x : Plat.Resolver) (c : Conv) : Conv :=
  mkConv (target c) (opt c) (ftrs c) x (varCollection c) (persistentCacheDirs c) (directDeps c) (waitBlockStack c)
    (localWorkingDir c) (buildContextFactory c) (nextCmdID c) (cmdSet c) (ranSave c) (final c) (world c).
Definition set_varCollection (x : Collection) (c : Conv) : Conv :=
  mkConv (target c) (opt c) (ftrs c) (platr c) x (persistentCacheDirs c) (directDeps c) (waitBlockStack c)
    (localWorkingDir c) (buildContextFactory c) (nextCmdID c) (cmdSet c) (ranSave c) (final c) (world c).
Definition set_persistentCacheDirs (x : gmap string CacheMount) (c : Conv) : Conv :=
  mkConv (target c) (opt c) (ftrs c) (platr c) (varCollection c) x (directDeps c) (waitBlockStack c)
    (localWorkingDir c) (buildContextFactory c) (nextCmdID c) (cmdSet c) (ranSave c) (final c) (world c).
Definition set_directDeps (x : list Built) (c : Conv) : Conv :=
  mkConv (target c) (opt c) (ftrs c) (platr c) (varCollection c) (persistentCacheDirs c) x (waitBlockStack c)
    (localWorkingDir c) (buildContextFactory c) (nextCmdID c) (cmdSet c) (ranSave c) (final c) (world c).
Definition set_waitBlockStack (x : list nat) (c : Conv) : Conv :=
  mkConv (target c) (opt c) (ftrs c) (platr c) (varCollection c) (persistentCacheDirs c) (directDeps c) x
    (localWorkingDir c) (buildContextFactory c) (nextCmdID c) (cmdSet c) (ranSave c) (final c) (world c).
Definition set_nextCmdID (x : nat) (c : Conv) : Conv :=
  mkConv (target c) (opt c) (ftrs c) (platr c) (varCollection c) (persistentCacheDirs c) (directDeps c)
    (waitBlockStack c) (localWorkingDir c) (buildContextFactory c) x (cmdSet c) (ranSave c) (final c) (world c).
Definition set_cmdSet (x : bool) (c : Conv) : Conv :=
  mkConv (target c) (opt c) (ftrs c) (platr c) (varCollection c) (persistentCacheDirs c) (directDeps c)
    (waitBlockStack c) (localWorkingDir c) (buildContextFactory c) (nextCmdID c) x (ranSave c) (final c) (world c).
Definition set_ranSave (x : bool) (c : Conv) : Conv :=
  mkConv (target c) (opt c) (ftrs c) (platr c) (varCollection c) (persistentCacheDirs c) (directDeps c)
    (waitBlockStack c) (localWorkingDir c) (buildContextFactory c) (nextCmdID c) (cmdSet c) x (final c) (world c).
Definition set_final (x : Sts) (c : Conv) : Conv :=
  mkConv (target c) (opt c) (ftrs c) (platr c) (varCollection c) (persistentCacheDirs c) (directDeps c)
    (waitBlockStack c) (localWorkingDir c) (buildContextFactory c) (nextCmdID c) (cmdSet c) (ranSave c) x (world c).
Definition set_world (x : World) (c : Conv) : Conv :=
  mkConv (target c) (opt c) (ftrs c) (platr c) (varCollection c) (persistentCacheDirs c) (directDeps c)
    (waitBlockStack c) (localWorkingDir c) (buildContextFactory c) (nextCmdID c) (cmdSet c) (ranSave c) (final c) x.

(** ** Operations *)

Definition cop (A : Type) : Type := Eff Conv string A.

Definition read {A} (f : Conv -> A) : cop A := fun c => (c, Ret (f c)).
Definition modify (f : Conv -> Conv) : cop unit := fun c => (f c, Ret tt).
Definition on_final (f : Sts -> Sts) : cop unit := modify (fun c => set_final (f (final c)) c).
Definition on_world (f : World -> World) : cop unit := modify (fun c => set_world (f (world c)) c).

Definition of_res {A} (r : res A) : cop A :=
  match r with Ok a => eret a | Err e => efail e | NoFuel => estuck end.

(** A method of the collection, which is changed also when it fails. *)
Definition on_coll {A} (f : Collection -> Collection * res A) : cop A := fun c =>
  let '(v, r) := f (varCollection c) in of_res r (set_varCollection v c).

Definition on_coll' (f : Collection -> Collection) : cop unit := modify (fun c => set_varCollection (f (varCollection c)) c).

(** A failure with a text in front of it. *)
Definition wrapped {A} (prefix : string) (m : cop A) : cop A := ewrap (fun e => prefix +:+ e) m.

Definition guard (b : bool) (e : string) : cop unit := if b then efail e else eret tt.
