(* ===== verification/Conv.v ===== *)
(** * The converter: commands on the image and the variables

    A translation of the methods of [earthfile2llb/converter.go] that set up a target:
    what is allowed when, the configuration of the image, the environment and the
    variables, imports, caches, hosts and projects.

    In versions without shell-out-anywhere the value of an argument may be the output of
    a command, [process_expression]; it is read from the state at the call, and its
    command numbers are not counted. *)

From stdpp Require Import gmap.
From S2P Require Import Prelude GoStrings Token GoText Reference Imports KeyValue Scope Collection BuildArgs FlagUtil.
From S2P Require Import Features Platform States RunMount RunShell Llb LocalState WaitBlock Effects ConvState.

#[local] Open Scope eff_scope.

Inductive cmdType : Type :=
  | argCmd | buildCmd | cmdCmd | copyCmd | enterScopeDoCmd | entrypointCmd | envCmd | exposeCmd | fromCmd
  | fromDockerfileCmd | gitCloneCmd | healthcheckCmd | importCmd | labelCmd | loadCmd | locallyCmd | runCmd
  | saveArtifactCmd | saveImageCmd | userCmd | volumeCmd | workdirCmd | cacheCmd | hostCmd | projectCmd | setCmd
  | letCmd.

#[export] Instance cmdType_eq_dec : EqDecision cmdType.
Proof. solve_decision. Defined.

(** ** What is allowed *)

Definition errProject : string := "--use-project-secrets must be enabled in order to use PROJECT".
Definition errInteractiveLast : string :=
  "if present, a single --interactive command must be the last command in a target".
Definition errRequiresFrom : string :=
  hint_wrap "requires a FROM, FROM DOCKERFILE, or LOCALLY"
    ("This command needs to run in a shell. " +:+
     "You should be able to solve this by adding 'FROM <image>' on the line before this one.").
Definition errLetSet : string := "--arg-scope-and-set must be enabled in order to use LET and SET".

Definition checkAllowed (command : cmdType) : cop unit := fun c =>
  if bool_decide (command = projectCmd) && negb (has "use-project-secrets" (ftrs c)) then efail errProject c
  else if RanInteractive (final c) && bool_decide (command <> saveImageCmd) && bool_decide (command <> saveArtifactCmd) then
    efail errInteractiveLast c
  else if negb (RanFromLike (final c)) then
    match command with
    | fromCmd | fromDockerfileCmd | locallyCmd | buildCmd | argCmd | letCmd | setCmd | importCmd | projectCmd => eret tt c
    | _ => efail errRequiresFrom c
    end
  else
    match command with
    | setCmd | letCmd => if has "arg-scope-and-set" (ftrs c) then eret tt c else efail errLetSet c
    | _ => eret tt c
    end.

Definition nonSaveCommand : cop unit := fun c =>
  if ranSave c then on_final (set_HasDangling true) c else eret tt c.

(** ** Numbers of commands *)

Definition newCmdID : cop nat := n <- read nextCmdID;; modify (set_nextCmdID (S n));;; eret n.

Section Vertex.
Context `{RangeOrder}.

(** The overriding variables are looked up, which fills the memo of the collection. *)
Definition read_overriding (v : Collection) : Collection * res unit :=
  match frame v with
  | None => (v, Err empty_stack)
  | Some f => match Sorted (overriding f) [] with
              | [] => (v, Ok tt)
              | _ => let '(v, r) := effective v in (v, rbind r (fun _ => Ok tt))
              end
  end.

(** [newVertexMeta] and [newLogbusCommand], without what they print: the identifier of the command. *)
Definition newLogbusCommand : cop string :=
  n <- newCmdID;; s <- read final;; eret (sts_ID s +:+ "/" +:+ fmt_d n).

Definition newVertexMeta : cop string := on_coll read_overriding;;; newLogbusCommand.

End Vertex.

(** ** The image *)

Definition on_image (f : Image -> Image) : cop unit := on_final (fun s => set_MainImage (f (MainImage s)) s).
Definition on_state (f : State -> State) : cop unit := on_final (fun s => set_MainState (f (MainState s)) s).

Definition set_User (x : string) (i : Image) : Image :=
  mkImage (img_Architecture i) (img_OS i) x (img_Env i) (img_Entrypoint i) (img_Cmd i) (WorkingDir i) (StopSignal i)
    (ExposedPorts i) (Volumes i) (Labels i) (img_Healthcheck i).
Definition set_Env (x : list string) (i : Image) : Image :=
  mkImage (img_Architecture i) (img_OS i) (img_User i) x (img_Entrypoint i) (img_Cmd i) (WorkingDir i) (StopSignal i)
    (ExposedPorts i) (Volumes i) (Labels i) (img_Healthcheck i).
Definition set_Entrypoint (x : list string) (i : Image) : Image :=
  mkImage (img_Architecture i) (img_OS i) (img_User i) (img_Env i) x (img_Cmd i) (WorkingDir i) (StopSignal i)
    (ExposedPorts i) (Volumes i) (Labels i) (img_Healthcheck i).
Definition set_Cmd (x : list string) (i : Image) : Image :=
  mkImage (img_Architecture i) (img_OS i) (img_User i) (img_Env i) (img_Entrypoint i) x (WorkingDir i) (StopSignal i)
    (ExposedPorts i) (Volumes i) (Labels i) (img_Healthcheck i).
Definition set_WorkingDir (x : string) (i : Image) : Image :=
  mkImage (img_Architecture i) (img_OS i) (img_User i) (img_Env i) (img_Entrypoint i) (img_Cmd i) x (StopSignal i)
    (ExposedPorts i) (Volumes i) (Labels i) (img_Healthcheck i).
Definition set_ExposedPorts (x : gset string) (i : Image) : Image :=
  mkImage (img_Architecture i) (img_OS i) (img_User i) (img_Env i) (img_Entrypoint i) (img_Cmd i) (WorkingDir i) (StopSignal i)
    x (Volumes i) (Labels i) (img_Healthcheck i).
Definition set_Volumes (x : gset string) (i : Image) : Image :=
  mkImage (img_Architecture i) (img_OS i) (img_User i) (img_Env i) (img_Entrypoint i) (img_Cmd i) (WorkingDir i) (StopSignal i)
    (ExposedPorts i) x (Labels i) (img_Healthcheck i).
Definition set_Labels (x : gmap string string) (i : Image) : Image :=
  mkImage (img_Architecture i) (img_OS i) (img_User i) (img_Env i) (img_Entrypoint i) (img_Cmd i) (WorkingDir i) (StopSignal i)
    (ExposedPorts i) (Volumes i) x (img_Healthcheck i).
Definition set_Healthcheck (x : option HealthConfig) (i : Image) : Image :=
  mkImage (img_Architecture i) (img_OS i) (img_User i) (img_Env i) (img_Entrypoint i) (img_Cmd i) (WorkingDir i) (StopSignal i)
    (ExposedPorts i) (Volumes i) (Labels i) x.

Definition User (user : string) : cop unit :=
  checkAllowed userCmd;;; nonSaveCommand;;; on_state (SUser user);;; on_image (set_User user).

Definition Cmd (cmdArgs : list string) (isWithShell : bool) : cop unit :=
  checkAllowed cmdCmd;;; nonSaveCommand;;; on_image (set_Cmd (withShell cmdArgs isWithShell));;; modify (set_cmdSet true).

Definition Entrypoint (entrypointArgs : list string) (isWithShell : bool) : cop unit :=
  checkAllowed entrypointCmd;;; nonSaveCommand;;;
  on_image (set_Entrypoint (withShell entrypointArgs isWithShell));;;
  set <- read cmdSet;;
  if (set : bool) then eret tt else on_image (set_Cmd []).

Definition Expose (ports : list string) : cop unit :=
  checkAllowed exposeCmd;;; nonSaveCommand;;;
  on_image (fun i => set_ExposedPorts (list_to_set ports ∪ ExposedPorts i) i).

Definition Volume (volumes : list string) : cop unit :=
  checkAllowed volumeCmd;;; nonSaveCommand;;; on_image (fun i => set_Volumes (list_to_set volumes ∪ Volumes i) i).

Definition Label (labels : gmap string string) : cop unit :=
  checkAllowed labelCmd;;; nonSaveCommand;;; on_image (fun i => set_Labels (labels ∪ Labels i) i).

Definition Healthcheck (isNone : bool) (cmdArgs : list string) (interval timeout startPeriod retries startInterval : Z) : cop unit :=
  checkAllowed healthcheckCmd;;; nonSaveCommand;;;
  on_image (set_Healthcheck (Some
    (if isNone then mkHealth ["NONE"] 0 0 0 0 0
     else mkHealth ["CMD-SHELL"; Join cmdArgs " "] interval timeout startPeriod retries startInterval))).

Definition Host (hostname ip : string) : cop unit :=
  checkAllowed hostCmd;;; nonSaveCommand;;; on_state (SHost hostname ip).

(** ** Environment and variables *)

Definition Env (envKey envValue : string) : cop unit :=
  checkAllowed envCmd;;; nonSaveCommand;;;
  on_coll' (DeclareEnv envKey envValue);;;
  on_state (SEnv envKey envValue);;;
  on_image (fun i => set_Env (AddEnv (img_Env i) envKey envValue) i).

Definition SetArg (argKey argValue : string) : cop unit :=
  checkAllowed argCmd;;; nonSaveCommand;;; on_coll (Collection.SetArg argKey argValue).

Definition UnsetArg (argKey : string) : cop unit :=
  checkAllowed argCmd;;; nonSaveCommand;;; on_coll (Collection.UnsetArg argKey).

(** The import tracker of the top frame, changed in place. *)
Definition on_imports {A} (f : ImportTracker -> ImportTracker * res A) (v : Collection) : Collection * res A :=
  match frame v with
  | None => (v, Err empty_stack)
  | Some fr =>
      let '(ir, r) := f (imports fr) in
      (set_frame (mkFrame (absRef fr) ir (overriding fr) (args fr) (globals fr) (vars fr) (frameName fr)) v, r)
  end.

Definition Import (HOME importStr as_ : string) (isGlobal currentlyPrivileged allowPrivilegedFlag : bool) : cop unit :=
  checkAllowed importCmd;;;
  on_coll (on_imports (Imports.Add HOME importStr as_ isGlobal currentlyPrivileged allowPrivilegedFlag)).

Definition Project (org project : string) : cop unit :=
  checkAllowed projectCmd;;; nonSaveCommand;;;
  on_coll' (SetOrg org);;; on_coll' (SetProject project);;;
  on_world (fun w => set_w_projects (w_projects w ++ [(org, project)]) w).

Definition ExitScope : cop unit := on_coll ExitFrame.

Section Conv.
Context `{RangeOrder} `{Unicode}.
Variable digest : string -> string.
Variable process_expression : Conv -> string -> string -> res string.

(** The callback for values that are commands. *)
Definition pncvf : cop pncv :=
  read (fun c => if has "shell-out-anywhere" (ftrs c) then None else Some (process_expression c)).

Definition add_input (key value defaultValue : string) : cop unit :=
  base <- read (fun c => IsStackAtBase (varCollection c));;
  if (base : bool) then on_final (AddBuildArgInput_ (mkBuildArgInput key value defaultValue)) else eret tt.

Definition Arg (argKey defaultArgValue : string) (opts : ArgOpts) : cop unit :=
  checkAllowed argCmd;;; nonSaveCommand;;;
  f <- pncvf;;
  r <- on_coll (DeclareVar argKey (mkPrefs f defaultArgValue (arg_Global opts) true));;
  let '(effective, effectiveDefault) := r in
  guard (arg_Required opts && String.eqb effective "") ("value not supplied for required ARG: " +:+ argKey);;;
  guard (negb (String.eqb defaultArgValue "") && IsBuiltIn argKey)
    ("arg default value supplied for built-in ARG: " +:+ argKey);;;
  add_input argKey effective effectiveDefault.

Definition Let (key value : string) : cop unit :=
  checkAllowed letCmd;;; nonSaveCommand;;;
  guard (IsBuiltIn key) ("LET cannot override built-in variable " +:+ Quote key);;;
  r <- on_coll (DeclareVar key (mkPrefs None value false false));;
  let '(effective, effectiveDefault) := r in
  add_input key effective effectiveDefault.

Definition UpdateArg (argKey argValue : string) : cop unit :=
  checkAllowed setCmd;;; nonSaveCommand;;;
  f <- pncvf;;
  on_coll (UpdateVar argKey argValue f).

(** ** Directories *)

Definition Workdir (workdirPath : string) : cop unit :=
  checkAllowed workdirCmd;;; nonSaveCommand;;;
  on_state (SDir workdirPath);;;
  s <- read final;;
  let workdirAbs := if IsAbs workdirPath then workdirPath
                    else path_Join ["/"; WorkingDir (MainImage s); workdirPath] in
  on_image (set_WorkingDir workdirAbs);;;
  if String.eqb workdirAbs "/" then eret tt
  else
    let user := img_User (MainImage s) in
    newVertexMeta;;;
    on_state (SFile [FMkdir workdirAbs 493 (if String.eqb user "" then None else Some user)]).

(** ** Caches *)

Definition Cache (mountTarget sharing mode ID : string) (persist : bool) : cop unit :=
  checkAllowed cacheCmd;;; nonSaveCommand;;;
  c <- read (fun c => c);;
  let cacheID := path_Join ["/run/cache"; cacheKey digest (target c); Clean mountTarget] in
  let cacheID := if has "global-cache" (ftrs c) && negb (String.eqb ID "") then ID else cacheID in
  match (if String.eqb sharing "" then Some CacheMountLocked else parse_sharing sharing) with
  | None => efail ("invalid cache sharing mode " +:+ Quote sharing)
  | Some shareMode =>
      match persistentCacheDirs c !! mountTarget with
      | Some _ => eret tt
      | None =>
          mountMode <- (if String.eqb mode "" then eret 420%Z
                        else match ParseMode mode with
                             | Ok m => eret m
                             | _ => efail ("failed to parse mount mode " +:+ mode)
                             end);;
          guard (negb (has "cache-persist-option" (ftrs c)) && persist)
            "the --persist flag is only available when VERSION --cache-persist-option is enabled";;;
          let persisted := if has "cache-persist-option" (ftrs c) then persist else true in
          modify (fun c => set_persistentCacheDirs
            (<[mountTarget := mkCacheMount
                 (XMount mountTarget (SFile [FMkdir "/cache" mountMode None] SScratch)
                    [AsPersistentCacheDir cacheID shareMode; SourcePath "/cache"]) persisted]> (persistentCacheDirs c)) c)
      end
  end.

End Conv.

(** The order in which the caches are visited. *)
Class CacheOrder : Type := cache_range : gmap string CacheMount -> list (string * CacheMount).
Class CacheOrderLaws `{CacheOrder} : Prop := cache_range_permutation m : cache_range m ≡ₚ map_to_list m.

Section Persist.
Context `{Platforms} `{CacheOrder}.

Definition persist_step (c : Conv) (dest : State) (kv : string * CacheMount) : State :=
  let '(dir, m) := kv in
  if Persisted m then CopyWithRunOptions dest dir dir (platr c) [cm_RunOption m] else dest.

Definition persistCache (srcState : State) (c : Conv) : State :=
  fold_left (persist_step c) (cache_range (persistentCacheDirs c)) srcState.

(** ** Platforms *)

Definition checkOldPlatformIncompatibility (platform : Plat.Platform) : cop unit := fun c =>
  if has "new-platform" (ftrs c) then eret tt c
  else if bool_decide (Plat.defaultPlatform (platr c) = Plat.DefaultPlatform) || bool_decide (platform = Plat.DefaultPlatform)
  then eret tt c
  else if Plat.PlatformEquals (platr c) (Plat.defaultPlatform (platr c)) platform then eret tt c
  else efail ("platform contradiction: " +:+ dquote +:+ Plat.Platform_String platform +:+ dquote +:+ " vs " +:+ dquote +:+
              Plat.Platform_String (Plat.defaultPlatform (platr c)) +:+ dquote) c.

(** [SetPlatformArgs] of the resolver's platform. *)
Definition set_platform_args (r : Plat.Resolver) : Collection -> Collection :=
  let platform := Plat.Materialize r (Plat.currentPlatform r) in
  let spec := Plat.ToLLBPlatform r platform in
  SetPlatform (Plat.Platform_String platform) (OS spec) (Architecture spec) (Variant spec).

Definition setPlatform (platform : Plat.Platform) : cop Plat.Platform :=
  r <- read platr;;
  let '(r, newPlatform) := Plat.UpdatePlatform platform r in
  modify (set_platr r);;; on_coll' (set_platform_args r);;; eret newPlatform.

Definition rootOwn : string := "root:root".

Definition copyOwner (keepOwn : bool) (chown : string) (c : Conv) : string :=
  let own := img_User (MainImage (final c)) in
  let own := if String.eqb own "" then rootOwn else own in
  let own := if keepOwn then "" else own in
  if String.eqb chown "" then own else chown.

End Persist.
