(* ===== verification/ConvBuild.v ===== *)
(** * The converter: other targets, base images and scopes

    A translation of the methods of [earthfile2llb/converter.go] that refer to other
    targets: how a reference becomes a target and its options, what a target takes over
    from one it builds (FROM, COPY, BUILD, DO), base images, FROM DOCKERFILE, LOCALLY,
    WAIT blocks, and the end of a target.

    The conversion of another target ([Earthfile2LLB]) is an interface: it may change
    what conversions share, and answers with the finished target.  BuildKit, registries,
    build contexts and the file system are part of the same interface.  The goroutine
    that executes a finished target, which only sets the status in the log, is left out. *)

From stdpp Require Import gmap.
From S2P Require Import Prelude GoStrings Token GoText Reference Imports KeyValue Scope Collection BuildArgs FlagUtil.
From S2P Require Import Features Platform States RunMount RunShell Llb LocalState WaitBlock Effects ConvState Conv.

#[local] Open Scope eff_scope.

(** ** The surroundings *)

(** A resolved build context: the file that describes it, and the state of its files. *)
Record Context_ : Type := mkContext { BuildFilePath : string; ContextState : State }.

(** The named images of a registry. *)
Record ImageConfig : Type := mkImageConfig { ic_ref : string; ic_digest : string; ic_image : res Image }.

Class Outside `{ImageNames} : Type := {
  HOME : string;
  Getwd : string;
  Earthfile2LLB : Reference -> ConvertOpt -> World -> World * out string Built;
  ResolveImageConfig : string -> Spec -> res ImageConfig;
  WithDigest : Named -> string -> res Named;
  ResolveContext : Plat.Resolver -> Reference -> res Context_;
  Ref : Type;
  StateToRef : State -> Plat.Resolver -> res (option Ref);
  ReadFile : Ref -> string -> res string;
  ReadDir : Ref -> string -> res unit;
  os_ReadFile : string -> res string;
  DirExists : string -> res bool;
  Dockerfile2LLB : string -> gmap string string -> string -> Spec -> State -> res (State * Image);
  run_tasks : list task -> list WaitItem -> World -> World * out string unit }.

(** [filepath.Abs], on Unix. *)
Definition filepath_Abs `{Outside} (p : string) : string := if IsAbs p then Clean p else path_Join [Getwd; p].

Section Build.
Context `{RangeOrder} `{Unicode} `{Platforms} `{LLB} `{CacheOrder} `{Outside}.
Variable process_expression : Conv -> string -> string -> res string.

#[local] Abbreviation pncvf := (pncvf process_expression).

(** ** References *)

(** [c.varCollection.AbsRef()] *)
Definition AbsRef : cop Reference :=
  on_coll (fun v => (v, match frame v with Some f => Ok (absRef f) | None => Err empty_stack end)).

Definition joinRefs (relRef : Reference) : cop Reference := r <- AbsRef;; of_res (JoinReferences r relRef).

Definition deref (ref : Reference) : cop (Reference * bool * bool) :=
  on_coll (on_imports (fun ir => (ir, Deref HOME ref ir))).

(** [ref.(domain.Target)] *)
Definition as_target (ref : Reference) : cop Reference :=
  match kind ref with
  | KTarget => eret ref
  | KCommand => efail "want domain.Target, got domain.Command"
  end.

(** The absolute target, the one that was written, and the privilege. *)
Definition absolutizeTarget (fullTargetName : string) (allowPrivileged : bool) : cop (Reference * Reference * bool) :=
  relTarget <- wrapped ("earth target parse " +:+ fullTargetName +:+ ": ") (of_res (ParseTarget HOME fullTargetName));;
  d <- deref relTarget;;
  let '(derefedTarget, allowPrivilegedImport, isImport) := d in
  let allowPrivileged := if (isImport : bool) then allowPrivileged && allowPrivilegedImport else allowPrivileged in
  targetRef <- wrapped "join targets: " (joinRefs derefedTarget);;
  target <- as_target targetRef;;
  eret (target, relTarget, allowPrivileged).

Definition ResolveReference (ref : Reference) : cop (Context_ * bool * bool) :=
  d <- deref ref;;
  let '(derefed, allowPrivileged, allowPrivilegedSet) := d in
  refToResolve <- joinRefs derefed;;
  r <- read platr;;
  bc <- of_res (ResolveContext r refToResolve);;
  eret (bc, allowPrivileged, allowPrivilegedSet).

(** ** Arguments for other targets *)

(** A scope of the top frame, as the getters of the collection copy it. *)
Definition frame_scope (f : stackFrame -> Scope) : cop Scope :=
  on_coll (fun v => (v, match frame v with Some fr => Ok (Clone (f fr)) | None => Err empty_stack end)).

(** The overriding variables of the target, and whether arguments are passed on. *)
Definition prepOverridingVars (relTarget : Reference) (passArgs : bool) (buildArgs : list string) : cop (Scope * bool) :=
  f <- pncvf;;
  overriding_ <- wrapped "parse build args: " (on_coll (ParseArgs buildArgs f));;
  let propagateBuildArgs := negb (IsExternal relTarget) in
  if (passArgs : bool) then
    o <- frame_scope overriding;; a <- frame_scope args;; g <- frame_scope globals;;
    eret (RemoveReservedArgsFromScope IsBuiltIn (CombineScopes [overriding_; o; a; g]), propagateBuildArgs)
  else if propagateBuildArgs then
    o <- frame_scope overriding;;
    eret (CombineScopes [overriding_; o], propagateBuildArgs)
  else eret (overriding_, propagateBuildArgs).

(** [c.waitBlock()] *)
Definition waitBlock_ : cop nat := fun c =>
  match List.last (List.map Some (waitBlockStack c)) None with
  | None => efail "panic: waitBlock() called on empty stack" c
  | Some b => eret b c
  end.

Definition prepBuildTarget (fullTargetName : string) (platform : Plat.Platform) (allowPrivileged passArgs : bool)
    (buildArgs : list string) (isDangling : bool) (cmdT : cmdType) (parentCmdID : string) (onExecutionSuccess : OnSuccess)
    : cop (Reference * ConvertOpt * bool) :=
  t <- absolutizeTarget fullTargetName allowPrivileged;;
  let '(target, relTarget, allowPrivileged) := t in
  p <- prepOverridingVars relTarget passArgs buildArgs;;
  let '(overriding, propagateBuildArgs) := p in
  c <- read (fun c => c);;
  wb <- (if bool_decide (cmdT = buildCmd) then b <- waitBlock_;; eret (Some b) else eret None);;
  let o := opt c in
  let isBuild := bool_decide (cmdT = buildCmd) in
  let referencedOnly := has "referenced-save-only" (ftrs c) in
  let doSaves := if referencedOnly then isBuild && o_DoSaves o && negb (o_OnlyFinalTargetImages o)
                 else o_DoSaves o && negb (IsRemote target) in
  let doPushes := if referencedOnly then isBuild && o_DoPushes o else o_DoPushes o && negb (IsRemote target) in
  eret (target,
        mkOpt overriding ∅ (Plat.SubResolver platform (platr c)) wb (sts_ID (final c)) parentCmdID onExecutionSuccess isDangling
          allowPrivileged doSaves doPushes (if referencedOnly then false else o_ForceSaveImage o) (o_OnlyFinalTargetImages o)
          (o_AllowLocally o) (o_AllowInteractive o) (o_UseFakeDep o) (o_UseInlineCache o) (o_UseLocalRegistry o)
          (o_InteractiveDebuggerEnabled o) (o_GlobalWaitBlockFtr o) (o_sessionID o),
        propagateBuildArgs).

Definition earthfile2llb (target : Reference) (o : ConvertOpt) : cop Built := fun c =>
  let '(w, r) := Earthfile2LLB target o (world c) in (set_world w c, r).

(** Arguments of the child become arguments of the target, unless they were overridden. *)
Definition propagate_inputs (overriding : Scope) (l : list BuildArgInput) : cop unit :=
  eiter (fun bai => match Scope.Get overriding (bai_Name bai) [] with
                    | Some _ => eret tt
                    | None => on_final (AddBuildArgInput_ bai)
                    end) l.

(** The default value of an argument of the child. *)
Fixpoint child_default (k : string) (l : list BuildArgInput) : string :=
  match l with
  | [] => ""
  | b :: l => if String.eqb (bai_Name b) k then DefaultValue b else child_default k l
  end.

Definition propagate_global (g : Scope) (l : list BuildArgInput) (k : string) : cop unit :=
  active <- on_coll (Collection_Get k [WithActive]);;
  match active with
  | Some _ => eret tt
  | None => on_final (AddBuildArgInput_ (mkBuildArgInput k (default "" (Scope.Get g k [WithActive])) (child_default k l)))
  end.

(** The globals of a finished target; its collection is at its base. *)
Definition built_globals (b : Built) : Scope :=
  match frame (b_VarCollection b) with Some f => Clone (globals f) | None => NewScope end.

(** What a target takes over from the target it is FROM. *)
Definition adopt_globals (b : Built) : cop unit :=
  let g := built_globals b in
  eiter (propagate_global g (args_of (targetInput (b_sts b)))) (Sorted g [WithActive]);;;
  on_coll (SetGlobals g);;;
  on_coll (on_imports (fun ir => (SetGlobal (b_GlobalImports b) ir, Ok tt)));;;
  on_coll' (SetProject (project (b_VarCollection b)));;;
  on_coll' (SetOrg (org (b_VarCollection b))).

Definition buildTarget (fullTargetName : string) (platform : Plat.Platform) (allowPrivileged passArgs : bool)
    (buildArgs : list string) (isDangling : bool) (cmdT : cmdType) (parentCmdID : string) (onExecutionSuccess : OnSuccess)
    : cop Built :=
  p <- prepBuildTarget fullTargetName platform allowPrivileged passArgs buildArgs isDangling cmdT parentCmdID onExecutionSuccess;;
  let '(target, o, propagateBuildArgs) := p in
  mts <- wrapped ("earthfile2llb for " +:+ fullTargetName +:+ ": ") (earthfile2llb target o);;
  modify (fun c => set_directDeps (directDeps c ++ [mts]) c);;;
  if negb propagateBuildArgs then eret mts
  else
    propagate_inputs (o_OverridingVars o) (args_of (targetInput (b_sts mts)));;;
    if bool_decide (cmdT = fromCmd) then adopt_globals mts;;; eret mts else eret mts.

(** ** Base images *)

Definition applyFromImage (state : State) (img : Image) : State * Image * Scope :=
  let ev := ParseEnvVars (img_Env img) in
  let state := fold_left (fun s name => SEnv name (default "" (Scope.Get ev name [WithActive])) s) (Sorted ev [WithActive]) state in
  let state := if String.eqb (WorkingDir img) "" then state else SDir (WorkingDir img) state in
  let state := if String.eqb (img_User img) "" then state else SUser (img_User img) state in
  (state, img, ev).

(** The state, the image and its environment, none for scratch. *)
Definition internalFromClassical (imageName : string) (platform : Plat.Platform) : cop (State * Image * option Scope) :=
  r <- read platr;;
  let spec := Plat.ToLLBPlatform r platform in
  if String.eqb imageName "scratch" then
    let img := NewImage in
    eret (SPlatform spec SScratch,
          mkImage (Architecture spec) (OS spec) (img_User img) (img_Env img) (img_Entrypoint img) (img_Cmd img) (WorkingDir img)
            (StopSignal img) (ExposedPorts img) (Volumes img) (Labels img) (img_Healthcheck img), None)
  else
    sourceRef <- wrapped ("parse normalized named " +:+ imageName +:+ ": ") (of_res (ParseNormalizedNamed imageName));;
    ic <- wrapped ("resolve image config for " +:+ imageName +:+ ": ")
            (of_res (ResolveImageConfig (Named_String (TagNameOnly sourceRef)) spec));;
    sourceRef <- wrapped ("parse normalized named " +:+ ic_ref ic +:+ ": ") (of_res (ParseNormalizedNamed (ic_ref ic)));;
    img <- wrapped ("unmarshal image config for " +:+ imageName +:+ ": ") (of_res (ic_image ic));;
    sourceRef <- (if String.eqb (ic_digest ic) "" then eret sourceRef
                  else wrapped ("reference add digest " +:+ ic_digest ic +:+ " for " +:+ imageName +:+ ": ")
                         (of_res (WithDigest sourceRef (ic_digest ic))));;
    let '(state, img, envVars) := applyFromImage (SImage (Named_String sourceRef) spec) img in
    eret (state, img, Some envVars).

(** The base of the target is set. *)
Definition set_base (state : State) (img : Image) (envVars : option Scope) : cop unit :=
  on_final (fun s => set_RanFromLike true (set_MainImage img (set_MainState state s)));;;
  on_coll' (ResetEnvVars envVars).

Definition fromClassical (imageName : string) (platform : Plat.Platform) : cop unit :=
  newVertexMeta;;;
  r <- internalFromClassical imageName platform;;
  let '(state, img, envVars) := r in
  set_base state img envVars.

Definition fromTarget (targetName : string) (platform : Plat.Platform) (allowPrivileged passArgs : bool)
    (buildArgs : list string) : cop unit :=
  cmdID <- newLogbusCommand;;
  depTarget <- wrapped ("parse target name " +:+ targetName +:+ ": ") (of_res (ParseTarget HOME targetName));;
  mts <- wrapped ("apply build " +:+ referenceString depTarget +:+ ": ")
           (buildTarget (referenceString depTarget) platform allowPrivileged passArgs buildArgs false fromCmd cmdID None);;
  let dep := b_sts mts in
  guard (RanInteractive dep) "cannot FROM a target ending with an --interactive";;;
  on_state (fun _ => MainState dep);;;
  on_coll' (ResetEnvVars (Some (Clone (envs (b_VarCollection mts)))));;;
  on_final (fun s => set_RanInteractive (RanInteractive dep) (set_RanFromLike (RanFromLike dep)
    (set_MainImage (Image_Clone (Some (snd (LastSaveImage dep)))) s)));;;
  modify (fun c => set_platr (fst (Plat.UpdatePlatform (Plat.currentPlatform (b_PlatformResolver mts)) (platr c))) c).

Definition From (imageName : string) (platform : Plat.Platform) (allowPrivileged passArgs : bool) (buildArgs : list string)
    : cop unit :=
  checkAllowed fromCmd;;; nonSaveCommand;;;
  modify (set_persistentCacheDirs ∅);;;
  modify (set_cmdSet false);;;
  checkOldPlatformIncompatibility platform;;;
  on_coll' (SetLocally false);;;
  platform <- setPlatform platform;;
  if ContainsByte imageName "+" then fromTarget imageName platform allowPrivileged passArgs buildArgs
  else
    guard (negb (length buildArgs =? 0)) "--build-arg not supported in non-target FROM";;;
    fromClassical imageName platform.

Definition Locally : cop unit :=
  checkAllowed locallyCmd;;;
  c <- read (fun c => c);;
  guard (negb (o_AllowLocally (opt c))) "LOCALLY cannot be used when --strict is specified or otherwise implied";;;
  fromClassical "scratch" Plat.NativePlatform;;;
  let workingDir := filepath_Abs (localWorkingDir c) in
  on_coll' (SetLocally true);;;
  on_state (SDir workingDir);;;
  on_image (set_WorkingDir workingDir);;;
  setPlatform Plat.UserPlatform;;; eret tt.

Definition forceExecution (state : State) (r : Plat.Resolver) : cop unit :=
  if is_scratch state then eret tt
  else
    ref <- wrapped "force execution state to ref: " (of_res (StateToRef state r));;
    match ref with
    | None => eret tt
    | Some ref => wrapped "unlazy force execution: " (of_res (ReadDir ref "/"))
    end.

(** A file of a solved reference; there is none when the state is empty. *)
Definition read_ref (ref : option Ref) (name : string) : cop string :=
  match ref with
  | None => efail "panic: invalid memory address or nil pointer dereference"
  | Some ref => of_res (ReadFile ref name)
  end.

Definition readArtifact (mts : Built) (artifact : Artifact) : cop string :=
  let s := ArtifactsState (b_sts mts) in
  if is_scratch s then
    efail ("artifact " +:+ Artifact_String artifact +:+ " not found; no SAVE ARTIFACT command was issued in " +:+
           referenceString (art_Target artifact))
  else
    ref <- wrapped "state to ref solve artifact: " (of_res (StateToRef s (b_PlatformResolver mts)));;
    wrapped ("read artifact " +:+ Artifact_String artifact +:+ ": ") (read_ref ref (art_Artifact artifact)).

(** [buildcontext.DockerfileMetaTarget] *)
Definition DockerfileMetaTarget : string := "@dockerfile:".

(** The build context of a Dockerfile on the host. *)
Definition dockerfile_context (name localPath : string) : cop Context_ :=
  ref <- wrapped "join targets: " (joinRefs (mkRef KTarget "" "" localPath "" (DockerfileMetaTarget +:+ name)));;
  t <- as_target ref;;
  r <- read platr;;
  wrapped "resolve build context for dockerfile: " (of_res (ResolveContext r t)).

Definition read_host (path : string) : cop string := wrapped ("read file " +:+ path +:+ ": ") (of_res (os_ReadFile path)).

(** The Dockerfile that is named, from an artifact or from the host. *)
Definition named_dockerfile (dfPath : string) (platform : Plat.Platform) (allowPrivileged : bool) (buildArgs : list string)
    (cmdID : string) : cop string :=
  if String.eqb dfPath "" then eret ""
  else match ParseArtifact HOME dfPath with
       | Ok dfArtifact =>
           mts <- buildTarget (referenceString (art_Target dfArtifact)) platform allowPrivileged false buildArgs false
                    fromDockerfileCmd cmdID None;;
           readArtifact mts dfArtifact
       | _ => bc <- dockerfile_context (path_Base dfPath) (path_Dir dfPath);; read_host (BuildFilePath bc)
       end.

Definition host_context_path (contextPath : string) : string :=
  if negb (String.eqb contextPath ".") && negb (HasPrefix contextPath "./") && negb (HasPrefix contextPath "../") &&
     negb (HasPrefix contextPath "/")
  then "./" +:+ contextPath else contextPath.

(** The Dockerfile and the state of the build context. *)
Definition dockerfile_and_context (contextPath dfPath : string) (platform : Plat.Platform) (allowPrivileged : bool)
    (buildArgs : list string) (dfData : string) : cop (string * State) :=
  match ParseArtifact HOME contextPath with
  | Ok contextArtifact =>
      cmdID <- newVertexMeta;;
      mts <- buildTarget (referenceString (art_Target contextArtifact)) platform allowPrivileged false buildArgs false
               fromDockerfileCmd cmdID None;;
      dfData <- (if String.eqb dfPath "" then
                   readArtifact mts (mkArtifact (art_Target contextArtifact) (path_Join [art_Artifact contextArtifact; "Dockerfile"]))
                 else eret dfData);;
      c <- read (fun c => c);;
      copyState <- wrapped "copyOp FROM DOCKERFILE: "
        (of_res (CopyOp (ArtifactsState (b_sts mts)) [art_Artifact contextArtifact] (platform_scratch (platr c)) "/" true true
                   false "" None false false (has "use-copy-link" (ftrs c))));;
      eret (dfData, copyState)
  | _ =>
      bc <- dockerfile_context (if String.eqb dfPath "" then "Dockerfile" else dfPath) (path_Join [host_context_path contextPath]);;
      dfData <- (if String.eqb dfPath "" then read_host (BuildFilePath bc) else eret dfData);;
      eret (dfData, ContextState bc)
  end.

Definition FromDockerfile (contextPath dfPath dfTarget : string) (platform : Plat.Platform) (allowPrivileged : bool)
    (buildArgs : list string) : cop unit :=
  checkAllowed fromDockerfileCmd;;;
  checkOldPlatformIncompatibility platform;;;
  platform <- setPlatform platform;;
  r <- read platr;;
  let plat := Plat.ToLLBPlatform r platform in
  nonSaveCommand;;;
  cmdID <- newLogbusCommand;;
  dfData <- named_dockerfile dfPath platform allowPrivileged buildArgs cmdID;;
  dc <- dockerfile_and_context contextPath dfPath platform allowPrivileged buildArgs dfData;;
  let '(dfData, ctxState) := dc in
  f <- pncvf;;
  overriding <- on_coll (ParseArgs buildArgs f);;
  si <- wrapped ("dockerfile2llb " +:+ dfPath +:+ ": ") (of_res (Dockerfile2LLB dfData (Map overriding []) dfTarget plat ctxState));;
  let '(state, img) := si in
  let '(state, img, envVars) := applyFromImage state img in
  set_base state img (Some envVars).

(** ** BUILD and DO *)

Definition Build (fullTargetName : string) (platform : Plat.Platform) (allowPrivileged passArgs : bool)
    (buildArgs : list string) (onExecutionSuccess : OnSuccess) : cop unit :=
  checkAllowed buildCmd;;; nonSaveCommand;;;
  cmdID <- newLogbusCommand;;
  buildTarget fullTargetName platform allowPrivileged passArgs buildArgs true buildCmd cmdID onExecutionSuccess;;;
  eret tt.

(** Reading a nil collection panics. *)
Definition nil_collection : Collection := mkColl NewScope NewScope None "" "" [] false false.

Definition EnterScopeDo (command baseTarget : Reference) (allowPrivileged passArgs : bool) (scopeName : string)
    (buildArgs : list string) : cop unit :=
  c <- read (fun c => c);;
  topArgs <- (if has "arg-scope-and-set" (ftrs c) then
                tmpScope <- of_res (snd (ParseArgs buildArgs None nil_collection));;
                eret (BuildArgs (CombineScopes [tmpScope; TopOverriding (varCollection c)]) [])
              else eret buildArgs);;
  baseMts <- buildTarget (referenceString baseTarget) (Plat.currentPlatform (platr c)) allowPrivileged passArgs topArgs true
               enterScopeDoCmd "" None;;
  f <- pncvf;;
  overriding_ <- on_coll (ParseArgs buildArgs f);;
  overriding_ <- (if (passArgs : bool) then
                    o <- frame_scope overriding;; a <- frame_scope args;; g <- frame_scope globals;;
                    eret (RemoveReservedArgsFromScope IsBuiltIn (CombineScopesInactive [overriding_; o; a; g]))
                  else eret overriding_);;
  on_coll' (EnterFrame scopeName command overriding_ (built_globals baseMts) (b_GlobalImports baseMts)).

(** ** WAIT blocks *)

Definition on_store {A} (f : Store -> Store * A) : cop A := fun c =>
  let '(s, a) := f (w_store (world c)) in (set_world (set_w_store s (world c)) c, Ret a).

Definition PushWaitBlock : cop unit :=
  b <- on_store newWaitBlock;;
  modify (fun c => set_waitBlockStack (waitBlockStack c ++ [b]) c);;;
  on_final (fun s => set_WaitBlocks (WaitBlocks s ++ [b]) s).

(** Who an item belongs to. *)
Definition owner (c : Conv) : ItemOwner :=
  mkOwner (referenceString (target c)) (sts_ID (final c)) (o_UseLocalRegistry (opt c)) (o_sessionID (opt c)).

(** A new item, in the block at the top of the stack. *)
Definition add_item (w : WaitItem) : cop nat :=
  b <- waitBlock_;;
  a <- on_store (alloc_item w);;
  on_store (fun s => (AddItem b a s, tt));;; eret a.

(** [Wait] on a block: the flags, then the tasks that it starts. *)
Definition wait_block (b : nat) (push export : bool) : cop unit := fun c =>
  let s := w_store (world c) in
  match st_blocks s !! b with
  | None => eret tt c
  | Some wb =>
      let '(wb, tasks) := block_Wait push export wb in
      let w := set_w_store (mkStore (st_items s) (<[b := wb]> (st_blocks s))) (world c) in
      match tasks with
      | [] => (set_world w c, Ret tt)
      | _ => let '(w, r) := run_tasks tasks (omap (fun a => st_items s !! a) (items wb)) w in (set_world w c, r)
      end
  end.

Definition PopWaitBlock : cop unit :=
  c <- read (fun c => c);;
  match rev (waitBlockStack c) with
  | [] => efail "waitBlockStack is empty"
  | b :: rest =>
      (if has "wait-block" (ftrs c) then add_item (newStateWaitItem (owner c));;; eret tt else eret tt);;;
      modify (set_waitBlockStack (rev rest));;;
      wait_block b (o_DoPushes (opt c)) (o_DoSaves (opt c))
  end.

(** ** The end of a target *)

Definition fake_dep (dep : Built) : cop unit := fun c =>
  if HasDangling (b_sts dep) then on_state (fun s => WithDependency s (MainState (b_sts dep)) (platr c)) c else eret tt c.

Definition markFakeDeps : cop unit :=
  c <- read (fun c => c);;
  if o_UseFakeDep (opt c) then eiter fake_dep (directDeps c);;; modify (set_directDeps []) else eret tt.

(** [SetDoSaves] and [SetDoPushes] of a target. *)
Definition sts_SetDoSaves : cop unit :=
  on_final (set_doSaves true);;;
  s <- read final;;
  on_store (fun st => (fold_left (fun st b => SetDoSaves b st) (WaitBlocks s) (each_item SetDoSave (WaitItems s) st), tt)).

Definition sts_SetDoPushes : cop unit :=
  on_final (set_doPushes true);;;
  s <- read final;;
  on_store (fun st => (fold_left (fun st b => SetDoPushes b st) (WaitBlocks s) (each_item SetDoPush (WaitItems s) st), tt)).

Definition FinalizeStates : cop Built :=
  markFakeDeps;;;
  c <- read (fun c => c);;
  guard (negb (IsStackAtBase (varCollection c))) "internal error: stack not at base in FinalizeStates";;;
  on_state (fun s => persistCache s c);;;
  (if o_DoSaves (opt c) then sts_SetDoSaves else eret tt);;;
  (if o_DoPushes (opt c) then sts_SetDoPushes else eret tt);;;
  (if has "wait-block" (ftrs c) then add_item (newStateWaitItem (owner c));;; eret tt else eret tt);;;
  read (fun c => mkBuilt (final c) (varCollection c) (platr c)
                   (match frame (varCollection c) with Some f => global (imports f) | None => ∅ end)).

(** [NewConverter], given the scope of builtin arguments. *)
Definition NewConverter (target : Reference) (builtinArgs : Scope) (f : Features) (buildFilePath : string)
    (factory : Factory) (sts : Sts) (o : ConvertOpt) (wb : nat) (w : World) : Conv :=
  let f := if o_GlobalWaitBlockFtr o then turn_on "wait-block" f else f in
  mkConv target o f (o_PlatformResolver o)
    (NewCollection builtinArgs (Some (o_OverridingVars o)) target (o_GlobalImports o)
       (has "arg-scope-and-set" f) (has "shell-out-anywhere" f))
    ∅ [] [wb] (path_Dir buildFilePath) factory 0 false false (set_HasDangling (o_HasDangling o) sts) w.

(** [newSingleTarget], for the fields of the conversion. *)
Definition new_sts (id : string) (target : Reference) (r : Plat.Resolver) (ti : TargetInput) : Sts :=
  mkSts target id ti (platform_scratch r) (platform_scratch r) [] NewImage [] [] no_push no_session [] [] false false false false false.

End Build.
