(* ===== verification/ConvRun.v ===== *)
(** * The converter: RUN

    A translation of [internalRun] and its callers in [earthfile2llb/converter.go]: the
    options, environment, secrets and debugger of a command, where it is executed (the
    build, the pushes after it, an interactive session, or a state that is thrown away),
    and the commands whose exit code or output is read.

    The names of variables and of secrets are those of [variables] and [runmount.go]; the
    JSON of the debugger's settings and the hash of its files are parameters. *)

From stdpp Require Import gmap sorting.
From S2P Require Import Prelude GoStrings Token GoText Numbers Reference Imports KeyValue Scope Collection BuildArgs.
From S2P Require Import FlagUtil ConvApi ShellLex ShellWords Expand.
From S2P Require Import Features Platform States RunMount RunShell Llb LocalState WaitBlock Effects ConvState Conv.
From S2P Require Import ConvBuild.

#[local] Open Scope eff_scope.

(** The options of a command with the internal ones. *)
Record RunRequest : Type := mkRunRequest {
  rr_opts : ConvertRunOpts; shellWrap : option shellWrapFun; statePrep : option (State -> State);
  extraRunOpts : list ExecOption }.

(** [apicaps]: whether BuildKit can mount sockets. *)
Inductive capability : Type := CapSupported | CapError (text : string) | CapUnknown.

Class RunEnv : Type := {
  exec_mount_sock : capability;
  getDebuggerSecretKey : list SaveFile -> string;
  debugger_settings : bool -> list SaveFile -> string;
  new_uuid : string;
  RunOnLocalHostMagicStr : string;
  CopyFileMagicStr : string;
  SendFileMagicStr : string;
  oidc_params : AWSOIDCInfo -> list (string * string);
  temp_dir : string -> res string;
  sha256_hex : string -> string;
  docker_ProcessWord : string -> gmap string string -> res string }.

(** ** Secrets *)

Definition mount_context (c : Conv) : mountContext :=
  mkMountContext (target c) (has "global-cache" (ftrs c)) (has "use-project-secrets" (ftrs c)) (org (varCollection c))
    (project (varCollection c)).

(** [url.Values.Encode] *)
Definition Encode (m : gmap string string) : string :=
  Join (List.map (fun k => QueryEscape k +:+ "=" +:+ QueryEscape (default "" (m !! k))) (merge_sort str_le (map_to_list m).*1)) "&".

(** [secretID] with the values of an identity provider. *)
Definition secretID_with (c : mountContext) (name : string) (values : list (string * string)) : string :=
  let m := if UseProjectSecrets c then
             <["project" := mc_project c]> (<["org" := mc_org c]> (<["v" := "1"]> (<["name" := name]> ∅)))
           else <["v" := "0"]> (<["name" := name]> ∅) in
  Encode (fold_left (fun m kv => <[fst kv := snd kv]> m) values m).

Definition AWSCredentials : list (string * string) :=
  [("aws:access_key", "AWS_ACCESS_KEY_ID"); ("aws:secret_key", "AWS_SECRET_ACCESS_KEY");
   ("aws:session_token", "AWS_SESSION_TOKEN"); ("aws:region", "AWS_REGION")].

Definition secret_env (env path : string) : string := env +:+ "=" +:+ dquote +:+ "$(cat " +:+ path +:+ ")" +:+ dquote.

Definition awsSecrets `{RunEnv} (oidcInfo : option AWSOIDCInfo) (c : Conv) : list ExecOption * list string :=
  let values := match oidcInfo with Some i => oidc_params i | None => [] end in
  let path name := path_Join ["/run/secrets"; name] in
  (List.map (fun s => XRun (AddSecret (path (fst s)) (secretID_with (mount_context c) (fst s) values) 292)) AWSCredentials,
   List.map (fun s => secret_env (snd s) (path (fst s))) AWSCredentials).

Section Run.
Context `{RangeOrder} `{Unicode} `{Platforms} `{LLB} `{CacheOrder} `{Outside} `{ShellEscape} `{RunEnv} `{UnicodeTables}.

(** The --secret flags: the options and the variables. *)
Fixpoint secret_flags (l : list string) (ctx : mountContext) : res (list ExecOption * list string) :=
  match l with
  | [] => Ok ([], [])
  | s :: l =>
      rbind (parseSecretFlag ctx s) (fun p =>
      rbind (secret_flags l ctx) (fun rest =>
      let '(secretName, envVar) := p in
      let '(opts, envs) := rest in
      if String.eqb secretName "" then Ok (opts, envs)
      else
        let secretPath := path_Join ["/run/secrets"; secretName] in
        Ok (XRun (AddSecret secretPath (secretID ctx secretName) 292) :: opts, secret_env envVar secretPath :: envs)))
  end.

(** ** Where files may be saved *)

Definition canSave (saveAsLocalTo : string) (c : Conv) : res bool :=
  let basepath := filepath_Abs (LocalPath (target c)) in
  match DirExists basepath with
  | Err e => Err ("failed to check if " +:+ basepath +:+ " exists: " +:+ e)
  | NoFuel => NoFuel
  | Ok false => Err ("no such directory: " +:+ basepath)
  | Ok true =>
      let basepath := basepath +:+ "/" in
      let hasTrailingSlash := HasSuffix saveAsLocalTo "/" && negb (String.eqb saveAsLocalTo "/") in
      let adj := if HasPrefix saveAsLocalTo "/" then saveAsLocalTo else path_Join [LocalPath (target c); saveAsLocalTo] in
      let adj := filepath_Abs adj in
      let adj := if hasTrailingSlash then adj +:+ "/" else adj in
      Ok (HasPrefix adj basepath)
  end.

(** The files of TRY that may be sent back; each destination is allowed under two names. *)
Definition save_file (f : SaveFile) : cop unit :=
  c <- read (fun c => c);;
  ok <- of_res (canSave (sf_Dst f) c);;
  guard (negb ok) ("unable to save to " +:+ sf_Dst f +:+ "; path must be located under " +:+ LocalPath (target c));;;
  on_world (fun w => set_w_whitelist (w_whitelist w ++ [path_Join [filepath_Abs (LocalPath (target c)); sf_Dst f]; sf_Dst f]) w).

(** ** [internalRun] *)

Definition isInteractive (o : ConvertRunOpts) : bool := ro_Interactive o || ro_InteractiveKeep o.

Definition locally_error (o : ConvertRunOpts) : option string :=
  if negb (length (ro_Secrets o) =? 0) then Some "secrets not yet supported with LOCALLY"
  else if negb (length (ro_Mounts o) =? 0) then Some "mounts not supported with LOCALLY"
  else if ro_WithSSH o then Some "--ssh not supported with LOCALLY"
  else if ro_Privileged o then Some "--privileged not supported with LOCALLY"
  else if isInteractive o then Some "interactive mode not supported with LOCALLY"
  else if ro_Push o then Some "--push not supported with LOCALLY"
  else if ro_Transient o then Some "transient run not supported with LOCALLY"
  else if ro_NoNetwork o then Some "--network=none is not supported with LOCALLY"
  else None.

Definition strIf (condition : bool) (str : string) : string := if condition then str else "".

Definition commandStr (o : ConvertRunOpts) : string :=
  ro_CommandName o +:+ " " +:+ strIf (ro_RawOutput o) "--raw-output " +:+ strIf (ro_Privileged o) "--privileged " +:+
  strIf (ro_Push o) "--push " +:+ strIf (ro_WithSSH o) "--ssh " +:+ strIf (ro_NoCache o) "--no-cache " +:+
  strIf (ro_NoNetwork o) "--network=none " +:+ strIf (ro_Interactive o) "--interactive " +:+
  strIf (ro_InteractiveKeep o) "--interactive-keep " +:+ Join (ro_Args o) " ".

(** The variables in front of the command. *)
Definition variable_envs : cop (list string) :=
  names <- on_coll (SortedVariables [WithActive]);;
  emap (fun name => v <- on_coll (Collection_Get name [WithActive]);; eret (env_text (name, default "" v))) names.

Definition debugger_key : string := "earthly_debugger_settings".

(** What a command in a container needs: sockets, the debugger and its settings, ssh. *)
Definition container_options (o : ConvertRunOpts) : cop (list ExecOption) :=
  c <- read (fun c => c);;
  sockets <- match exec_mount_sock with
             | CapSupported =>
                 eret [XSocket "earthly_interactive" "/var/run/earthly_interactive" 438; XSocket "earthly_save_file" "/var/run/earthly_save" 438]
             | CapError e =>
                 if o_InteractiveDebuggerEnabled (opt c) || isInteractive o then
                   efail ("interactive debugger requires a newer version of buildkit: " +:+ e)
                 else eret []
             | CapUnknown => eret []
             end;;
  eiter save_file (ro_InteractiveSaveFiles o);;;
  let id := secretID (mount_context c) (getDebuggerSecretKey (ro_InteractiveSaveFiles o)) in
  on_world (fun w => set_w_secrets
    (<[id := debugger_settings (o_InteractiveDebuggerEnabled (opt c)) (ro_InteractiveSaveFiles o)]> (w_secrets w)) w);;;
  eret (sockets ++
    [XRun (AddSecret ("/run/secrets/" +:+ debugger_key) id 292);
     XMount debuggerPath SScratch [HostBind; SourcePath "/usr/bin/earth_debugger"]] ++
    (if ro_WithSSH o then [XRun (AddSSHSocket "" None)] else [])).

Definition RunOn (state : State) (opts : list ExecOption) : State := SRun opts state.

Definition set_push (f : RunPush -> RunPush) : cop unit := on_final (fun s => set_RunPush_ (f (RunPush_ s)) s).

(** A command with --interactive, whose result is not part of the build. *)
Definition run_interactive (push : bool) (state : State) (opts : list ExecOption) (str : string) : cop State :=
  let session := mkSession (RunOn state opts) str (Some SessionEphemeral) true in
  if push then set_push (set_rp_Session session);;; read (fun c => rp_State (RunPush_ (final c)))
  else on_final (set_InteractiveSession_ session);;; read (fun c => MainState (final c)).

(** The first command with --push starts from the state of the build. *)
Definition first_push (push : bool) : cop unit :=
  c <- read (fun c => c);;
  if push && negb (rp_HasState (RunPush_ (final c))) then
    set_push (fun r => set_rp_HasState true (set_rp_State (MainState (final c)) r)) else eret tt.

(** Where the command is executed. *)
Definition place (q : RunRequest) (push noCache : bool) (runOpts : list ExecOption) (finalArgs : list string) (str : string) : cop State :=
  let o := rr_opts q in
  let runOpts := runOpts ++ [XArgs finalArgs] ++
    (if noCache || ro_Locally o || push || isInteractive o then [XIgnoreCache] else []) in
  first_push push;;;
  state <- read (fun c => if push then rp_State (RunPush_ (final c)) else MainState (final c));;
  let state := match statePrep q with Some f => f state | None => state end in
  (if isInteractive o then on_final (set_RanInteractive true) else eret tt);;;
  if ro_Interactive o then run_interactive push state runOpts str
  else
    (if ro_InteractiveKeep o then on_final (set_InteractiveSession_ (mkSession SScratch str (Some SessionKeep) true)) else eret tt);;;
    if push then
      set_push (fun r => set_rp_CommandStrs (rp_CommandStrs r ++ [str]) (set_rp_State (RunOn state runOpts) r));;;
      read (fun c => rp_State (RunPush_ (final c)))
    else if ro_Transient o then eret (RunOn state runOpts)
    else
      on_state (fun _ => RunOn state runOpts);;;
      (if ro_Locally o then s <- read (fun c => MainState (final c));; r <- read platr;; forceExecution s r else eret tt);;;
      read (fun c => MainState (final c)).

Definition internalRun (q : RunRequest) : cop State :=
  let o := rr_opts q in
  c <- read (fun c => c);;
  guard (negb (o_AllowInteractive (opt c)) && isInteractive o)
    "interactive options are not allowed, when --strict is specified or otherwise implied";;;
  match (if ro_Locally o then locally_error o else None) with
  | Some e => efail e
  | None =>
      let wrap := match shellWrap q with
                  | None => if ro_WithShell o then Some withShellAndEnvVars else None
                  | w => w
                  end in
      let finalArgs := if ro_WithEntrypoint o then img_Entrypoint (MainImage (final c)) ++ ro_Args o else ro_Args o in
      let runOpts := extraRunOpts q ++ (if ro_Privileged o then [XSecurityInsecure] else []) in
      mountRunOpts <- wrapped "parse mounts: " (of_res (parseMounts sha256_hex (mount_context c) (ro_Mounts o)));;
      let runOpts := runOpts ++ (if ro_NoNetwork o then [XNetworkNone] else []) ++ List.map XRun mountRunOpts in
      newVertexMeta;;;
      envs <- variable_envs;;
      secrets <- of_res (secret_flags (ro_Secrets o) (mount_context c));;
      let '(secretOpts, secretEnvs) := secrets in
      let '(awsOpts, awsEnvs) := if ro_WithAWSCredentials o then awsSecrets (ro_OIDCInfo o) c else ([], []) in
      let envs := envs ++ secretEnvs ++ awsEnvs in
      containerOpts <- (if ro_Locally o then eret [] else container_options o);;
      let runOpts := runOpts ++ secretOpts ++ awsOpts ++ containerOpts in
      finalArgs <- (if ro_WithShell o then
                      match wrap with
                      | Some w => of_res (w finalArgs envs (ro_WithShell o) (negb (ro_Locally o)) (isInteractive o))
                      | None => efail "panic: invalid memory address or nil pointer dereference"
                      end
                    else eret finalArgs);;
      let finalArgs := if ro_NoCache o then finalArgs ++ ["#" +:+ new_uuid] else finalArgs in
      let finalArgs := if ro_Locally o then RunOnLocalHostMagicStr :: finalArgs else finalArgs in
      if has "wait-block" (ftrs c) && ro_Push o then
        if negb (o_DoPushes (opt c)) then read (fun c => MainState (final c))
        else place q false true runOpts finalArgs (commandStr o)
      else place q (ro_Push o) (ro_NoCache o) runOpts finalArgs (commandStr o)
  end.

(** The mounts of the caches, in the order of the map. *)
Definition cache_options (c : Conv) : list ExecOption := List.map (fun kv => cm_RunOption (snd kv)) (cache_range (persistentCacheDirs c)).

Definition Run (o : ConvertRunOpts) : cop unit :=
  checkAllowed runCmd;;; nonSaveCommand;;;
  caches <- read cache_options;;
  internalRun (mkRunRequest o None None caches);;; eret tt.

(** ** Commands that are read *)

(** A file that the command has written: on the host, or in the state that it made. *)
Definition read_back (locally : bool) (file : string) (state : State) (e_local e_ref e_read : string) : cop string :=
  if locally then wrapped e_local (of_res (os_ReadFile file))
  else
    r <- read platr;;
    ref <- wrapped e_ref (of_res (StateToRef state r));;
    wrapped e_read (read_ref ref file).

(** The file for the answer, and the directory that is made for it in a container. *)
Definition answer_file (locally : bool) (tempName hostName file dir : string) (mode : Z) : cop (string * option (State -> State)) :=
  if locally then
    tmp <- wrapped "create temp dir: " (of_res (temp_dir tempName));; eret (path_Join [tmp; hostName], None)
  else newVertexMeta;;; eret (file, Some (SFile [FMkdir dir mode None])).

Definition with_shell (o : ConvertRunOpts) : ConvertRunOpts :=
  mkConvertRunOpts (ro_CommandName o) (ro_Args o) (ro_Locally o) (ro_Mounts o) (ro_Secrets o) true (ro_WithEntrypoint o)
    (ro_Privileged o) (ro_NoNetwork o) (ro_Push o) (ro_WithSSH o) (ro_NoCache o) (ro_Interactive o) (ro_InteractiveKeep o)
    (ro_InteractiveSaveFiles o) (ro_WithAWSCredentials o) (ro_OIDCInfo o) (ro_RawOutput o) (ro_Transient o).

Definition exit_code_file : string := "/tmp/earthbuild_if_statement_exit_code".

Definition RunExitCode (o : ConvertRunOpts) : cop Z :=
  checkAllowed runCmd;;; nonSaveCommand;;;
  caches <- read cache_options;;
  f <- answer_file (ro_Locally o) "earthlyexitcode" "/exit_code" exit_code_file "/run" 493;;
  let '(file, prep) := f in
  state <- internalRun (mkRunRequest (with_shell o) (Some (withShellAndEnvVarsExitCode file)) prep caches);;
  codeDt <- read_back (ro_Locally o) file state "read exit code file: " "run exit code state to ref: " "read exit code: ";;
  wrapped "parse exit code as int: " (of_res (Atoi (TrimSpace codeDt))).

Definition srcBuildArgDir : string := "/run/buildargs".

(** The answer without the newline that echo adds. *)
Definition runCommand (outputFileName : string) (isExpression : bool) (o : ConvertRunOpts) : cop string :=
  caches <- read cache_options;;
  checkAllowed runCmd;;; nonSaveCommand;;;
  guard (negb (ro_WithShell o)) "panic: runCommand must be called WithShell";;;
  guard (Bool.eqb (ro_Locally o) (ro_Transient o)) "panic: runCommand Transient xor Locally must be true";;;
  f <- answer_file (ro_Locally o) "earthlyexproutput" "/output" (path_Join [srcBuildArgDir; outputFileName]) srcBuildArgDir 511;;
  let '(file, prep) := f in
  let wrap := if isExpression then expressionWithShellAndEnvVarsOutput file else withShellAndEnvVarsOutput file in
  state <- internalRun (mkRunRequest o (Some wrap) prep caches);;
  outputDt <- read_back (ro_Locally o) file state "read output file: " "build arg state to ref: "
                "non constant build arg read request: ";;
  eret (TrimSuffix outputDt (String "010" "")).

Definition RunExpression (expressionName : string) (o : ConvertRunOpts) : cop string := runCommand expressionName true o.

Definition RunCommand (commandName : string) (o : ConvertRunOpts) : cop string := runCommand commandName false o.

(** [processNonConstantBuildArgFunc]: the value of an argument that is a command. *)
Definition processNonConstantBuildArg (name expression : string) : cop string :=
  RunExpression name
    (mkConvertRunOpts ("ARG " +:+ name +:+ " = RUN") (Split expression " "%char) false [] [] true false false false false false
       false false false [] false None false true).

Definition process_expression (c : Conv) (name expression : string) : res string :=
  match snd (processNonConstantBuildArg name expression c) with Ret v => Ok v | Fail e => Err e | Stuck => NoFuel end.

Definition with_args (args : list string) (o : ConvertRunOpts) : ConvertRunOpts :=
  mkConvertRunOpts (ro_CommandName o) args (ro_Locally o) (ro_Mounts o) (ro_Secrets o) (ro_WithShell o) (ro_WithEntrypoint o)
    (ro_Privileged o) (ro_NoNetwork o) (ro_Push o) (ro_WithSSH o) (ro_NoCache o) (ro_Interactive o) (ro_InteractiveKeep o)
    (ro_InteractiveSaveFiles o) (ro_WithAWSCredentials o) (ro_OIDCInfo o) (ro_RawOutput o) (ro_Transient o).

Definition errShellOutNotPermitted : string := "shell-out not permitted".

(** The words of a command; a word may run commands, which see the converter as it is. *)
Definition expand_command (runOpts : ConvertRunOpts) (allowShellOut : bool) (cmd : string) : cop string :=
  if allowShellOut then RunCommand "internal-expand-args" (with_args [cmd] runOpts) else efail errShellOutNotPermitted.

(** [ExpandOld]: on an error the word stays as it is. *)
Definition ExpandOld (word : string) : cop string :=
  ef <- on_coll effective;;
  eret (match docker_ProcessWord word (Map ef [WithActive]) with Ok w => w | _ => word end).

Definition ExpandArgs (runOpts : ConvertRunOpts) (word : string) (allowShellOut : bool) : cop string := fun c =>
  if has "shell-out-anywhere" (ftrs c) then
    let v := fst (effective (varCollection c)) in
    snd (Expand word (Some (expand_command runOpts allowShellOut)) v (set_varCollection v c))
  else ExpandOld word c.

End Run.
