(* ===== verification/ConvSave.v ===== *)
(** * The converter: copies, artifacts and images

    A translation of the methods of [earthfile2llb/converter.go] that copy files (COPY,
    GIT CLONE), save artifacts and images, and expand wildcards in the names of targets.

    [SaveImage] and [SaveArtifact] record what they save in the block of the WAIT they are
    in, or in the target for versions without WAIT; what is pushed goes after the
    commands with --push. *)

From stdpp Require Import gmap.
From S2P Require Import Prelude GoStrings Token GoText Ast Reference Imports KeyValue Scope Collection BuildArgs.
From S2P Require Import FlagUtil ConvApi.
From S2P Require Import Features Platform States RunMount RunShell Llb LocalState WaitBlock Effects ShellLex ConvState.
From S2P Require Import Conv ConvBuild ConvRun.

#[local] Open Scope eff_scope.

(** Glob expressions in names of targets. *)
Class Wildcards `{Outside} : Type := {
  ExpandWildcard : Plat.Resolver -> Reference -> Reference -> res (list string);
  target_names : Context_ -> list string;
  earthfile_not_exist : string -> bool }.

Section Save.
Context `{RangeOrder} `{Unicode} `{Platforms} `{LLB} `{CacheOrder} `{Outside} `{!Wildcards} `{ShellEscape} `{RunEnv} `{FileHash}.

#[local] Abbreviation buildTarget := (buildTarget process_expression).

(** [x, err = ...] for a state of the target: an error makes it empty. *)
Definition assign (set : State -> Sts -> Sts) (prefix : string) (r : res State) : cop unit :=
  match r with
  | Ok s => on_final (set s)
  | Err e => on_final (set SScratch);;; efail (prefix +:+ e)
  | NoFuel => estuck
  end.

Definition copy_link (c : Conv) : bool := has "use-copy-link" (ftrs c).

(** ** COPY *)

Definition errChmod : string := "COPY --chmod is not supported in this version".

Definition check_chmod (chmod : option Z) : cop unit :=
  c <- read (fun c => c);; guard (bool_decide (is_Some chmod) && negb (has "use-chmod" (ftrs c))) errChmod.

(** The target of an artifact is built, and its artifacts are the source. *)
Definition artifact_source (artifactName : string) (platform : Plat.Platform) (allowPrivileged passArgs : bool)
    (buildArgs : list string) : cop (Artifact * State) :=
  artifact <- wrapped ("parse artifact name " +:+ artifactName +:+ ": ") (of_res (ParseArtifact HOME artifactName));;
  cmdID <- newVertexMeta;;
  let name := referenceString (art_Target artifact) in
  mts <- wrapped ("apply build " +:+ name +:+ ": ")
           (buildTarget name platform allowPrivileged passArgs buildArgs false copyCmd cmdID None);;
  eret (artifact, ArtifactsState (b_sts mts)).

Definition CopyArtifactLocal (artifactName dest : string) (platform : Plat.Platform) (allowPrivileged passArgs : bool)
    (buildArgs : list string) (isDir : bool) : cop unit :=
  checkAllowed copyCmd;;; nonSaveCommand;;;
  a <- artifact_source artifactName platform allowPrivileged passArgs buildArgs;;
  let '(artifact, artifacts) := a in
  let finalArgs := [SendFileMagicStr] ++ (if isDir then ["--dir"] else []) ++ [art_Artifact artifact; dest] in
  on_state (fun s => RunOn s [XArgs finalArgs; XIgnoreCache; XMount ("/" +:+ SendFileMagicStr) artifacts [Readonly]]);;;
  c <- read (fun c => c);;
  forceExecution (MainState (final c)) (platr c).

Definition CopyArtifact (artifactName dest : string) (platform : Plat.Platform) (allowPrivileged passArgs : bool)
    (buildArgs : list string) (isDir keepTs keepOwn : bool) (chown : string) (chmod : option Z) (ifExists symlinkNoFollow : bool)
    : cop unit :=
  checkAllowed copyCmd;;; check_chmod chmod;;; nonSaveCommand;;;
  a <- artifact_source artifactName platform allowPrivileged passArgs buildArgs;;
  let '(artifact, artifacts) := a in
  c <- read (fun c => c);;
  assign set_MainState "copyOp CopyArtifact: "
    (CopyOp artifacts [art_Artifact artifact] (MainState (final c)) dest true isDir keepTs (copyOwner keepOwn chown c) chmod
       ifExists symlinkNoFollow (copy_link c)).

(** The state of the files of the build context. *)
Definition classical_source (srcs : list string) : cop State :=
  c <- read (fun c => c);;
  if has "use-copy-include-patterns" (ftrs c) then
    f <- of_res (addIncludePathAndSharedKeyHint (buildContextFactory c) srcs);;
    let '(lsc, st) := getOrConstruct f (w_localStates (world c)) in
    on_world (set_w_localStates lsc);;; eret st
  else eret (Construct (buildContextFactory c)).

Definition CopyClassical (srcs : list string) (dest : string) (isDir keepTs keepOwn : bool) (chown : string) (chmod : option Z)
    (ifExists : bool) : cop unit :=
  checkAllowed copyCmd;;; check_chmod chmod;;;
  srcState <- classical_source srcs;;
  nonSaveCommand;;; newVertexMeta;;;
  c <- read (fun c => c);;
  assign set_MainState "copyOp CopyClassical: "
    (CopyOp srcState srcs (MainState (final c)) dest true isDir keepTs (copyOwner keepOwn chown c) chmod ifExists false
       (copy_link c)).

Definition GitClone (gitURL sshCommand branch dest : string) (keepTs : bool) : cop unit :=
  checkAllowed gitCloneCmd;;; nonSaveCommand;;; newVertexMeta;;;
  c <- read (fun c => c);;
  assign set_MainState "copyOp git clone: "
    (CopyOp (SGit gitURL branch sshCommand) ["."] (MainState (final c)) dest false false keepTs (img_User (MainImage (final c)))
       None false false (copy_link c)).

(** ** SAVE ARTIFACT *)

(** Where the artifact goes, and its path among the artifacts. *)
Definition artifact_place (absSaveFrom saveTo : string) : res (string * string) :=
  let adjusted := if String.eqb saveTo "" || String.eqb saveTo "." || HasSuffix saveTo "/" then
                    path_Join [saveTo; path_Base (path_Join ["."; absSaveFrom])]
                  else saveTo in
  rbind (splitWildcards adjusted) (fun df =>
  let '(saveToD, saveToF) := df in
  Ok (if String.eqb saveToF "" then (adjusted, adjusted) else (saveToD +:+ "/", path_Join [saveToD +:+ "/"; saveToF]))).

Definition errRootArtifact : string := "cannot save root dir as artifact".

(** A save is recorded, and the targets that were only built become dependencies. *)
Definition after_save : cop unit := modify (set_ranSave true);;; markFakeDeps.

(** Without --force, a file may only be saved below the directory of the target. *)
Definition check_save (force : bool) (saveAsLocalTo adjusted : string) : cop unit :=
  if force then eret tt
  else
    c <- read (fun c => c);;
    ok <- of_res (canSave adjusted c);;
    guard (negb ok && has "require-force-for-unsafe-saves" (ftrs c))
      ("unable to save to " +:+ saveAsLocalTo +:+ "; path must be located under " +:+ LocalPath (target c)).

(** The artifact is to be written to the host. *)
Definition record_local (sl : SaveLocal) (isPush : bool) : cop unit :=
  c <- read (fun c => c);;
  if has "wait-block" (ftrs c) then
    a <- add_item (newSaveArtifactLocal sl (owner c) (o_DoSaves (opt c)));;
    on_final (fun s => set_WaitItems (WaitItems s ++ [a]) s)
  else if isPush then set_push (fun r => set_rp_SaveLocals (rp_SaveLocals r ++ [sl]) r)
  else on_final (fun s => set_SaveLocals (SaveLocals s ++ [sl]) s).

Definition SaveArtifact (saveFrom saveTo saveAsLocalTo : string) (keepTs keepOwn ifExists symlinkNoFollow force isPush : bool)
    : cop unit :=
  checkAllowed saveArtifactCmd;;;
  c <- read (fun c => c);;
  absSaveFrom <- of_res (Abs (MainState (final c)) saveFrom);;
  guard (String.eqb absSaveFrom "/" || String.eqb absSaveFrom "") errRootArtifact;;;
  p <- of_res (artifact_place absSaveFrom saveTo);;
  let '(saveToAdjusted, artifactPath) := p in
  let copy src dst own := CopyOp src [saveFrom] dst saveToAdjusted true true keepTs own None ifExists symlinkNoFollow (copy_link c) in
  newVertexMeta;;;
  assign set_ArtifactsState "copyOp save artifact: "
    (copy (persistCache (MainState (final c)) c) (ArtifactsState (final c)) (if keepOwn then "" else rootOwn));;;
  if String.eqb saveAsLocalTo "" then after_save
  else
    newVertexMeta;;;
    let from := if isPush then rp_State (RunPush_ (final c)) else MainState (final c) in
    separate <- wrapped "copyOp save artifact as local: "
                  (of_res (copy (persistCache from c) (platform_scratch (platr c)) rootOwn));;
    on_final (fun s => set_SeparateArtifactsState (SeparateArtifactsState s ++ [separate]) s);;;
    let adjusted := if String.eqb saveAsLocalTo "." then "./" else saveAsLocalTo in
    check_save force saveAsLocalTo adjusted;;;
    index <- read (fun c => length (SeparateArtifactsState (final c)) - 1);;
    record_local (mkSaveLocal adjusted artifactPath index ifExists) isPush;;;
    after_save.

Definition SaveArtifactFromLocal (saveFrom saveTo : string) (keepTs keepOwn : bool) (chown : string) : cop unit :=
  checkAllowed saveArtifactCmd;;;
  let src := filepath_Abs saveFrom in
  let saveTo := if String.eqb saveTo "" || String.eqb saveTo "." || HasSuffix saveTo "/" then path_Join [saveTo; path_Base src]
                else saveTo in
  newVertexMeta;;;
  on_state (fun s => RunOn s [XArgs [CopyFileMagicStr; saveFrom; saveTo]; XIgnoreCache]);;;
  let absSaveTo := "/" +:+ saveTo in
  let own := if keepOwn then "" else if String.eqb chown "" then rootOwn else chown in
  c <- read (fun c => c);;
  assign set_ArtifactsState "copyOp save artifact from local: "
    (CopyOp (MainState (final c)) [absSaveTo] (ArtifactsState (final c)) absSaveTo true true keepTs own None false false (copy_link c));;;
  s <- read (fun c => ArtifactsState (final c));; r <- read platr;;
  forceExecution s r;;;
  after_save.

(** ** SAVE IMAGE *)

(** A cache that later builds import. *)
Definition add_cache_import (name : string) : cop unit :=
  on_world (fun w => set_w_CacheImports ({[name]} ∪ w_CacheImports w) w).

(** The image of the pushes, after the commands with --push. *)
Definition push_image (c : Conv) (imageName : string) (push insecurePush cacheHint noManifestList : bool) : SaveImage :=
  mkSaveImage (persistCache (rp_State (RunPush_ (final c))) c) Plat.DefaultPlatform (Image_Clone (Some (MainImage (final c))))
    imageName true cacheHint insecurePush (o_ForceSaveImage (opt c)) (has "check-duplicate-images" (ftrs c)) noManifestList push
    false false.

Definition main_image (c : Conv) (imageName : string) (push insecurePush cacheHint noManifestList : bool) : SaveImage :=
  mkSaveImage (persistCache (MainState (final c)) c) (Plat.Materialize (platr c) (Plat.currentPlatform (platr c)))
    (Image_Clone (Some (MainImage (final c)))) imageName false cacheHint insecurePush (o_ForceSaveImage (opt c))
    (has "check-duplicate-images" (ftrs c)) noManifestList push (Plat.IsPlatformDefined (Plat.currentPlatform (platr c))) false.

Definition skip_builder (si : SaveImage) : SaveImage :=
  mkSaveImage (si_State si) (si_Platform si) (si_Image si) (DockerTag si) (HasPushDependencies si) (CacheHint si)
    (InsecurePush si) (ForceSave si) (CheckDuplicate si) (NoManifestList si) (Push si) (HasPlatform si) true.

(** The item of the WAIT block, and whether the builder has nothing left to do. *)
Definition image_item (si : SaveImage) : cop SaveImage :=
  c <- read (fun c => c);;
  let tagged := negb (String.eqb (DockerTag si) "") in
  a <- add_item (newSaveImage si (owner c) (Push si && tagged) (tagged && o_DoSaves (opt c)));;
  on_final (fun s => set_WaitItems (WaitItems s ++ [a]) s);;;
  (if Push si then
     on_world (fun w => set_w_pushed
       (w_pushed w ++ [(referenceStringCanonical (target c), DockerTag si, sts_ID (final c), o_DoPushes (opt c))]) w)
   else eret tt);;;
  eret (if negb (o_UseInlineCache (opt c)) || (1 <? length (waitBlockStack c)) then skip_builder si else si).

Definition save_image (hasPushFlag insecurePush cacheHint noManifestList : bool) (imageName : string) : cop unit :=
  c <- read (fun c => c);;
  (if rp_HasState (RunPush_ (final c)) then
     guard (has "wait-block" (ftrs c)) "panic: RunPush.HasState should never be true when --wait-block is used";;;
     set_push (fun r => set_rp_SaveImages
       (rp_SaveImages r ++ [push_image c imageName hasPushFlag insecurePush cacheHint noManifestList]) r)
   else
     let si := main_image c imageName hasPushFlag insecurePush cacheHint noManifestList in
     si <- (if has "wait-block" (ftrs c) then image_item si else eret si);;
     on_final (fun s => set_SaveImages (SaveImages s ++ [si]) s));;;
  if hasPushFlag && negb (String.eqb imageName "") && o_UseInlineCache (opt c) then add_cache_import imageName else eret tt.

Definition errManifestList : string := "SAVE IMAGE --no-manifest-list is not supported in this version".

Definition SaveImage (imageNames : list string) (hasPushFlag insecurePush cacheHint : bool) (cacheFrom : list string)
    (noManifestList : bool) : cop unit :=
  checkAllowed saveImageCmd;;;
  c <- read (fun c => c);;
  guard (noManifestList && negb (has "use-no-manifest-list" (ftrs c))) errManifestList;;;
  newLogbusCommand;;;
  eiter add_cache_import cacheFrom;;;
  let justCacheHint := (length imageNames =? 0) && cacheHint in
  eiter (save_image hasPushFlag insecurePush cacheHint noManifestList) (if justCacheHint then [""] else imageNames);;;
  if justCacheHint then eret tt else after_save.

(** ** Wildcards *)

(** [strings.Contains] *)
Fixpoint contains_text (t s : string) : bool :=
  HasPrefix s t || match s with "" => false | String _ s => contains_text t s end.

(** A match that has no Earthfile, or whose Earthfile has no such target, is passed over. *)
Definition wildcard_target (parsed : Reference) (match_ : string) : cop (option string) :=
  let childTargetName := "./" +:+ match_ +:+ "+" +:+ Reference.Name parsed in
  childTarget <- wrapped ("failed to parse target " +:+ Quote childTargetName +:+ ": ") (of_res (ParseTarget HOME childTargetName));;
  r <- etry (ResolveReference childTarget);;
  match r with
  | inr e =>
      if earthfile_not_exist e then eret None
      else efail ("unable to resolve target " +:+ Quote childTargetName +:+ ": " +:+ e)
  | inl (data, _, _) => eret (if existsb (String.eqb (Reference.Name childTarget)) (target_names data) then Some childTargetName else None)
  end.

Definition expandWildcardTargets (fullTargetName : string) : cop (list string) :=
  parsedTarget <- of_res (ParseTarget HOME fullTargetName);;
  guard (contains_text "**" fullTargetName) "globstar (**) pattern not yet supported";;;
  c <- read (fun c => c);;
  matches <- of_res (ExpandWildcard (platr c) (target c) parsedTarget);;
  targets <- emap (wildcard_target parsedTarget) matches;;
  match omap id targets with
  | [] => efail ("no matching targets found for pattern " +:+ Quote (LocalPath parsedTarget))
  | targets => eret targets
  end.

Definition ExpandWildcardArtifacts (artifact : Artifact) : cop (list Artifact) :=
  targets <- expandWildcardTargets (referenceString (art_Target artifact));;
  emap (fun t => target <- of_res (ParseTarget HOME t);; eret (mkArtifact target (art_Artifact artifact))) targets.

(** [strings.ReplaceAll] of a text that is not empty. *)
Fixpoint replace_text (skip : nat) (old new s : string) : string :=
  match s with
  | "" => ""
  | String c rest =>
      match skip with
      | S skip => replace_text skip old new rest
      | 0 => if HasPrefix s old then new +:+ replace_text (String.length old - 1) old new rest
             else String c (replace_text 0 old new rest)
      end
  end.

Definition set_args (args : list string) (cmd : Command) : Command :=
  mkCommand (cmd_Name cmd) (cmd_Docs cmd) (cmd_SourceLocation cmd) args (cmd_ExecMode cmd).

(** The commands for the matches; the pattern of a wildcard is never empty. *)
Definition ExpandWildcardCmds (fullTargetName : string) (cmd : Command) : cop (list Command) :=
  targets <- expandWildcardTargets fullTargetName;;
  eret (List.map (fun t => set_args (List.map (replace_text 0 fullTargetName t) (cmd_Args cmd)) cmd) targets).

End Save.
