(* ===== verification/ConvFacts.v ===== *)
(** * The converter: what every command keeps

    Two things hold of every method of the converter, also when it fails: what has been
    recorded stays recorded ([conv_kept]: the identity of the target, the numbers of commands,
    the saves), and the records are well formed ([conv_ok]: a version with WAIT has
    nothing pushed after the build, one without has no items, and the index of a local
    save is one of the states that were made for it). *)

From stdpp Require Import gmap.
From S2P Require Import Prelude GoStrings Token GoText Ast Reference Imports KeyValue Scope Collection BuildArgs.
From S2P Require Import FlagUtil ConvApi.
From S2P Require Import Features Platform States RunMount RunShell Llb LocalState WaitBlock Effects ShellLex ConvState.
From S2P Require Import Conv ConvBuild.
From S2P Require Import ConvRun ConvSave.

#[local] Open Scope eff_scope.

(** ** What is kept *)

Record sts_kept (s s' : Sts) : Prop := mkStsKept {
  sk_Target : sts_Target s' = sts_Target s;
  sk_ID : sts_ID s' = sts_ID s;
  sk_dangling : HasDangling s = true -> HasDangling s' = true;
  sk_images : SaveImages s `prefix_of` SaveImages s';
  sk_locals : SaveLocals s `prefix_of` SaveLocals s';
  sk_items : WaitItems s `prefix_of` WaitItems s';
  sk_separate : SeparateArtifactsState s `prefix_of` SeparateArtifactsState s';
  sk_push : rp_HasState (RunPush_ s) = true -> rp_HasState (RunPush_ s') = true;
  sk_push_images : rp_SaveImages (RunPush_ s) `prefix_of` rp_SaveImages (RunPush_ s');
  sk_push_locals : rp_SaveLocals (RunPush_ s) `prefix_of` rp_SaveLocals (RunPush_ s');
  sk_push_commands : rp_CommandStrs (RunPush_ s) `prefix_of` rp_CommandStrs (RunPush_ s') }.

Record conv_kept (c c' : Conv) : Prop := mkConvKept {
  ck_target : target c' = target c;
  ck_opt : opt c' = opt c;
  ck_ftrs : ftrs c' = ftrs c;
  ck_cmd : nextCmdID c <= nextCmdID c';
  ck_save : ranSave c = true -> ranSave c' = true;
  ck_final : sts_kept (final c) (final c') }.

(** [wait] says whether the version has WAIT. *)
Record sts_ok (wait : bool) (s : Sts) : Prop := mkStsOk {
  so_wait : wait = true -> rp_HasState (RunPush_ s) = false /\ SaveLocals s = [] /\ rp_SaveLocals (RunPush_ s) = [];
  so_no_wait : wait = false -> WaitItems s = [] /\ Forall (fun si => SkipBuilder si = false) (SaveImages s);
  so_push : rp_HasState (RunPush_ s) = false -> rp_SaveImages (RunPush_ s) = [] /\ rp_CommandStrs (RunPush_ s) = [];
  so_images : Forall (fun si => HasPushDependencies si = false) (SaveImages s);
  so_push_images : Forall (fun si => HasPushDependencies si = true) (rp_SaveImages (RunPush_ s));
  so_index : Forall (fun sl => Index sl < length (SeparateArtifactsState s)) (SaveLocals s ++ rp_SaveLocals (RunPush_ s)) }.

Definition has_wait (c : Conv) : bool := has "wait-block" (ftrs c).

Definition conv_ok (c : Conv) : Prop := sts_ok (has_wait c) (final c).

#[export] Instance sts_kept_preorder : PreOrder sts_kept.
Proof.
  split; [by intros s; split|]. intros s1 s2 s3 [] []. split; try (by etransitivity); (congruence || auto).
Qed.

#[export] Instance conv_kept_preorder : PreOrder conv_kept.
Proof.
  split; [by intros c; split|]. intros c1 c2 c3 [] []. split; try (by etransitivity); (congruence || lia || auto).
Qed.

(** The relation that all methods respect, for a version with the features [F]. *)
Definition good (F : Features) (c c' : Conv) : Prop :=
  ftrs c = F -> conv_kept c c' /\ (conv_ok c -> conv_ok c').

#[export] Instance good_preorder F : PreOrder (good F).
Proof.
  split; [by intros c ?|]. intros c1 c2 c3 H12 H23 E. destruct (H12 E) as [K1 O1].
  destruct H23 as [K2 O2]; [by rewrite (ck_ftrs _ _ K1)|]. split; [by etransitivity|auto].
Qed.

Section Rules.
Context {F : Features}.

#[local] Abbreviation safe m := (preserves (good F) m).

Lemma good_frozen c c' :
  target c' = target c -> opt c' = opt c -> ftrs c' = ftrs c -> nextCmdID c' = nextCmdID c -> ranSave c' = ranSave c ->
  final c' = final c -> good F c c'.
Proof.
  intros E1 E2 E3 E4 E5 E6 _. unfold conv_ok, has_wait. split; [split; rewrite ?E6; congruence || lia || done|].
  by rewrite E3, E6.
Qed.

Lemma safe_bind {A B} (m : cop A) (k : A -> cop B) : safe m -> (forall a, safe (k a)) -> safe (ebind m k).
Proof. apply preserves_bind, _. Qed.

Lemma safe_ret {A} (a : A) : safe (eret a : cop A).
Proof. apply preserves_ret, _. Qed.

Lemma safe_fail {A} e : safe (efail e : cop A).
Proof. apply preserves_fail, _. Qed.

Lemma safe_wrapped {A} p (m : cop A) : safe m -> safe (wrapped p m).
Proof. apply preserves_wrap. Qed.

Lemma safe_try {A} (m : cop A) : safe m -> safe (etry m).
Proof. apply preserves_try. Qed.

Lemma safe_iter {A} (f : A -> cop unit) l : (forall x, safe (f x)) -> safe (eiter f l).
Proof. apply preserves_iter, _. Qed.

Lemma safe_map {A B} (f : A -> cop B) l : (forall x, safe (f x)) -> safe (emap f l).
Proof. apply preserves_map, _. Qed.

Lemma safe_read {A} (f : Conv -> A) : safe (read f).
Proof. intros c. simpl. reflexivity. Qed.

(** What is read comes from a state of the same version. *)
Lemma safe_read_then {A B} (f : Conv -> A) (k : A -> cop B) : (forall c, ftrs c = F -> safe (k (f c))) -> safe (ebind (read f) k).
Proof. intros Hk c E. simpl. by apply (Hk c E c). Qed.

Lemma safe_of_res {A} (r : res A) : safe (of_res r).
Proof. intros c. destruct r; simpl; reflexivity. Qed.

Lemma safe_guard b e : safe (guard b e).
Proof. intros c. destruct b; simpl; reflexivity. Qed.

Lemma safe_on_coll {A} (f : Collection -> Collection * res A) : safe (on_coll f).
Proof. intros c. unfold on_coll. destruct (f _) as [v []]; by apply good_frozen. Qed.

Lemma safe_on_coll' f : safe (on_coll' f).
Proof. intros c. by apply good_frozen. Qed.

Lemma safe_on_world f : safe (on_world f).
Proof. intros c. by apply good_frozen. Qed.

Lemma safe_on_store {A} (f : Store -> Store * A) : safe (on_store f).
Proof. intros c. unfold on_store. destruct (f _). by apply good_frozen. Qed.

(** An assignment that touches none of the records. *)
Lemma safe_modify f :
  (forall c, (target (f c), opt (f c), ftrs (f c), nextCmdID (f c), ranSave (f c), final (f c)) =
             (target c, opt c, ftrs c, nextCmdID c, ranSave c, final c)) -> safe (modify f).
Proof. intros Hf c. specialize (Hf c). simplify_eq. by apply good_frozen. Qed.

Lemma safe_ranSave : safe (modify (set_ranSave true)).
Proof. intros c E. by split; [split|]. Qed.

Definition records (s : Sts) : Reference * string * list WaitBlock.SaveImage * list SaveLocal * list nat * list State * RunPush :=
  (sts_Target s, sts_ID s, SaveImages s, SaveLocals s, WaitItems s, SeparateArtifactsState s, RunPush_ s).

Lemma good_final c s :
  sts_kept (final c) s -> (conv_ok c -> sts_ok (has_wait c) s) -> good F c (set_final s c).
Proof. intros Hk Ho E. split; [by split|]. exact Ho. Qed.

Lemma good_neutral c s :
  records s = records (final c) -> (HasDangling (final c) = true -> HasDangling s = true) -> good F c (set_final s c).
Proof.
  unfold records. intros [= E1 E2 E3 E4 E5 E6 E7] Hd. apply good_final.
  - split; rewrite ?E3, ?E4, ?E5, ?E6, ?E7; done.
  - intros [H1 H2 H3 H4 H5 H6]. split; rewrite ?E3, ?E4, ?E5, ?E6, ?E7; done.
Qed.

(** An assignment of the target that touches none of its records. *)
Lemma safe_on_final f :
  (forall s, records (f s) = records s) -> (forall s, HasDangling s = true -> HasDangling (f s) = true) -> safe (on_final f).
Proof. intros Hf Hd c. apply (good_neutral c (f (final c))); [apply Hf|apply Hd]. Qed.

Lemma safe_on_image f : safe (on_image f).
Proof. apply safe_on_final; [reflexivity|intros s Hs; exact Hs]. Qed.

Lemma safe_on_state f : safe (on_state f).
Proof. apply safe_on_final; [reflexivity|intros s Hs; exact Hs]. Qed.

End Rules.

Create HintDb conv.
#[export] Hint Resolve safe_ret safe_fail safe_wrapped safe_try safe_iter safe_map safe_read safe_of_res safe_guard safe_on_coll
  safe_on_coll' safe_on_world safe_on_store safe_ranSave safe_on_image safe_on_state : conv.

(** One step through the body of a method. *)
Ltac conv_step :=
  match goal with
  | |- preserves _ (ebind (read _) _) => apply safe_read_then; intros ? ?; cbv beta
  | |- preserves _ (ebind _ _) => apply safe_bind; [|intros ?]
  | |- preserves _ (match ?x with _ => _ end) => destruct x eqn:?
  | |- preserves _ (wrapped _ _) => apply safe_wrapped
  | |- preserves _ (etry _) => apply safe_try
  | |- preserves _ (eiter _ _) => apply safe_iter; intros ?
  | |- preserves _ (emap _ _) => apply safe_map; intros ?
  | |- preserves _ (modify _) => first [apply safe_ranSave | apply safe_modify; reflexivity]
  | |- preserves _ (on_final _) => apply safe_on_final; [reflexivity|let Hd := fresh in intros ? Hd; first [exact Hd|reflexivity]]
  | |- preserves _ (let _ := _ in _) => cbv zeta
  | _ => solve [eauto with conv]
  end.
Ltac conv := repeat conv_step.

(** ** The commands of [Conv] *)

Section Commands.
Context {F : Features} `{RangeOrder} `{Unicode}.

#[local] Abbreviation safe m := (preserves (good F) m).

Lemma safe_checkAllowed k : safe (checkAllowed k).
Proof.
  intros c. assert (fst (checkAllowed k c) = c) as ->; [|reflexivity]. unfold checkAllowed.
  repeat (case_match; [done|]). by case_match; destruct k; simpl; try case_match.
Qed.

Lemma safe_nonSaveCommand : safe nonSaveCommand.
Proof.
  intros c. unfold nonSaveCommand. destruct (ranSave c); [|reflexivity]. by apply (good_neutral c (set_HasDangling true (final c))).
Qed.

Lemma safe_newCmdID : safe newCmdID.
Proof. intros c E. simpl. split; [split; simpl; try done; lia|done]. Qed.

#[local] Hint Resolve safe_checkAllowed safe_nonSaveCommand safe_newCmdID : conv.

Lemma safe_newLogbusCommand : safe newLogbusCommand.
Proof. unfold newLogbusCommand. conv. Qed.

#[local] Hint Resolve safe_newLogbusCommand : conv.

Lemma safe_newVertexMeta : safe newVertexMeta.
Proof. unfold newVertexMeta. conv. Qed.

#[local] Hint Resolve safe_newVertexMeta : conv.

Lemma safe_User u : safe (User u).
Proof. unfold User. conv. Qed.

Lemma safe_Cmd a b : safe (Cmd a b).
Proof. unfold Cmd. conv. Qed.

Lemma safe_Entrypoint a b : safe (Entrypoint a b).
Proof. unfold Entrypoint. conv. Qed.

Lemma safe_Expose l : safe (Expose l).
Proof. unfold Expose. conv. Qed.

Lemma safe_Volume l : safe (Volume l).
Proof. unfold Volume. conv. Qed.

Lemma safe_Label l : safe (Label l).
Proof. unfold Label. conv. Qed.

Lemma safe_Healthcheck n a i t p r q : safe (Healthcheck n a i t p r q).
Proof. unfold Healthcheck. conv. Qed.

Lemma safe_Host h ip : safe (Host h ip).
Proof. unfold Host. conv. Qed.

Lemma safe_Env k v : safe (Env k v).
Proof. unfold Env. conv. Qed.

Lemma safe_SetArg k v : safe (SetArg k v).
Proof. unfold SetArg. conv. Qed.

Lemma safe_UnsetArg k : safe (UnsetArg k).
Proof. unfold UnsetArg. conv. Qed.

Lemma safe_Import h i a g p f : safe (Import h i a g p f).
Proof. unfold Import. conv. Qed.

Lemma safe_Project o p : safe (Project o p).
Proof. unfold Project. conv. Qed.

Lemma safe_ExitScope : safe ExitScope.
Proof. unfold ExitScope. conv. Qed.

Lemma safe_pncvf pe : safe (pncvf pe).
Proof. unfold pncvf. conv. Qed.

Lemma safe_add_input k v d : safe (add_input k v d).
Proof. unfold add_input. conv. Qed.

#[local] Hint Resolve safe_pncvf safe_add_input : conv.

Lemma safe_Arg pe k d o : safe (Arg pe k d o).
Proof. unfold Arg. conv. Qed.

Lemma safe_Let k v : safe (Let k v).
Proof. unfold Let. conv. Qed.

Lemma safe_UpdateArg pe k v : safe (UpdateArg pe k v).
Proof. unfold UpdateArg. conv. Qed.

Lemma safe_Workdir p : safe (Workdir p).
Proof. unfold Workdir. conv. Qed.

Lemma safe_Cache h t s m i p : safe (Cache h t s m i p).
Proof. unfold Cache. conv. Qed.

Lemma safe_checkOldPlatform `{Platforms} p : safe (checkOldPlatformIncompatibility p).
Proof.
  intros c. assert (fst (checkOldPlatformIncompatibility p c) = c) as ->; [|reflexivity].
  unfold checkOldPlatformIncompatibility. by repeat case_match.
Qed.

Lemma safe_setPlatform `{Platforms} p : safe (setPlatform p).
Proof. unfold setPlatform. conv. Qed.

End Commands.

#[export] Hint Resolve safe_checkAllowed safe_nonSaveCommand safe_newCmdID safe_newLogbusCommand safe_newVertexMeta safe_User
  safe_Cmd safe_Entrypoint safe_Expose safe_Volume safe_Label safe_Healthcheck safe_Host safe_Env safe_SetArg safe_UnsetArg
  safe_Import safe_Project safe_ExitScope safe_pncvf safe_add_input safe_Arg safe_Let safe_UpdateArg safe_Workdir safe_Cache
  safe_checkOldPlatform safe_setPlatform : conv.

(** ** Other targets *)

Section Targets.
Context {F : Features} `{RangeOrder} `{Unicode} `{Platforms} `{LLB} `{CacheOrder} `{Outside}.
Variable process_expression : Conv -> string -> string -> res string.

#[local] Abbreviation safe m := (preserves (good F) m).

Lemma safe_AbsRef : safe AbsRef.
Proof. apply safe_on_coll. Qed.

#[local] Hint Resolve safe_AbsRef : conv.

Lemma safe_joinRefs r : safe (joinRefs r).
Proof. unfold joinRefs. conv. Qed.

Lemma safe_deref r : safe (deref r).
Proof. apply safe_on_coll. Qed.

Lemma safe_as_target r : safe (as_target r).
Proof. unfold as_target. conv. Qed.

#[local] Hint Resolve safe_joinRefs safe_deref safe_as_target : conv.

Lemma safe_absolutizeTarget n p : safe (absolutizeTarget n p).
Proof. unfold absolutizeTarget. conv. Qed.

Lemma safe_ResolveReference r : safe (ResolveReference r).
Proof. unfold ResolveReference. conv. Qed.

Lemma safe_frame_scope f : safe (frame_scope f).
Proof. apply safe_on_coll. Qed.

#[local] Hint Resolve safe_absolutizeTarget safe_frame_scope : conv.

Lemma safe_prepOverridingVars r p l : safe (prepOverridingVars process_expression r p l).
Proof. unfold prepOverridingVars. conv. Qed.

Lemma safe_waitBlock : safe waitBlock_.
Proof. intros c. unfold waitBlock_. by case_match. Qed.

#[local] Hint Resolve safe_prepOverridingVars safe_waitBlock : conv.

Lemma safe_prepBuildTarget n p a b l d k i o : safe (prepBuildTarget process_expression n p a b l d k i o).
Proof. unfold prepBuildTarget. conv. Qed.

Lemma safe_earthfile2llb t o : safe (earthfile2llb t o).
Proof. intros c. unfold earthfile2llb. destruct (Earthfile2LLB _ _ _). by apply good_frozen. Qed.

Lemma safe_propagate_inputs o l : safe (propagate_inputs o l).
Proof. unfold propagate_inputs. conv. Qed.

Lemma safe_propagate_global g l k : safe (propagate_global g l k).
Proof. unfold propagate_global. conv. Qed.

#[local] Hint Resolve safe_prepBuildTarget safe_earthfile2llb safe_propagate_inputs safe_propagate_global : conv.

Lemma safe_adopt_globals b : safe (adopt_globals b).
Proof. unfold adopt_globals. conv. Qed.

#[local] Hint Resolve safe_adopt_globals : conv.

Lemma safe_buildTarget n p a b l d k i o : safe (buildTarget process_expression n p a b l d k i o).
Proof. unfold buildTarget. conv. Qed.

Lemma safe_internalFromClassical n p : safe (internalFromClassical n p).
Proof. unfold internalFromClassical. conv. Qed.

Lemma safe_set_base s i e : safe (set_base s i e).
Proof. unfold set_base. conv. Qed.

#[local] Hint Resolve safe_buildTarget safe_internalFromClassical safe_set_base : conv.

Lemma safe_fromClassical n p : safe (fromClassical n p).
Proof. unfold fromClassical. conv. Qed.

Lemma safe_fromTarget n p a b l : safe (fromTarget process_expression n p a b l).
Proof. unfold fromTarget. conv. Qed.

#[local] Hint Resolve safe_fromClassical safe_fromTarget : conv.

Lemma safe_From n p a b l : safe (From process_expression n p a b l).
Proof. unfold From. conv. Qed.

Lemma safe_Locally : safe Locally.
Proof. unfold Locally. conv. Qed.

Lemma safe_forceExecution s r : safe (forceExecution s r).
Proof. unfold forceExecution. conv. Qed.

Lemma safe_read_ref r n : safe (read_ref r n).
Proof. unfold read_ref. conv. Qed.

#[local] Hint Resolve safe_read_ref : conv.

Lemma safe_readArtifact b a : safe (readArtifact b a).
Proof. unfold readArtifact. conv. Qed.

Lemma safe_dockerfile_context n p : safe (dockerfile_context n p).
Proof. unfold dockerfile_context. conv. Qed.

Lemma safe_read_host p : safe (read_host p).
Proof. unfold read_host. conv. Qed.

#[local] Hint Resolve safe_readArtifact safe_dockerfile_context safe_read_host : conv.

Lemma safe_named_dockerfile d p a l i : safe (named_dockerfile process_expression d p a l i).
Proof. unfold named_dockerfile. conv. Qed.

Lemma safe_dockerfile_and_context c d p a l t : safe (dockerfile_and_context process_expression c d p a l t).
Proof. unfold dockerfile_and_context. conv. Qed.

#[local] Hint Resolve safe_named_dockerfile safe_dockerfile_and_context : conv.

Lemma safe_FromDockerfile c d t p a l : safe (FromDockerfile process_expression c d t p a l).
Proof. unfold FromDockerfile. conv. Qed.

Lemma safe_Build n p a b l o : safe (Build process_expression n p a b l o).
Proof. unfold Build. conv. Qed.

Lemma safe_EnterScopeDo k b a p n l : safe (EnterScopeDo process_expression k b a p n l).
Proof. unfold EnterScopeDo. conv. Qed.

Lemma safe_PushWaitBlock : safe PushWaitBlock.
Proof. unfold PushWaitBlock. conv. Qed.

Lemma safe_add_item w : safe (add_item w).
Proof. unfold add_item. conv. Qed.

Lemma safe_wait_block b p e : safe (wait_block b p e).
Proof.
  intros c. unfold wait_block. destruct (st_blocks _ !! b) as [wb|]; [|reflexivity]. destruct (block_Wait _ _ _) as [wb' [|t l]].
  - by apply good_frozen.
  - destruct (run_tasks _ _ _). by apply good_frozen.
Qed.

#[local] Hint Resolve safe_add_item safe_wait_block : conv.

Lemma safe_PopWaitBlock : safe PopWaitBlock.
Proof. unfold PopWaitBlock. conv. Qed.

Lemma safe_fake_dep d : safe (fake_dep d).
Proof. intros c. unfold fake_dep. destruct (HasDangling _); [|reflexivity]. apply (safe_on_state _ c). Qed.

#[local] Hint Resolve safe_fake_dep : conv.

Lemma safe_markFakeDeps : safe markFakeDeps.
Proof. unfold markFakeDeps. conv. Qed.

#[local] Hint Resolve safe_markFakeDeps : conv.

Lemma safe_FinalizeStates : safe FinalizeStates.
Proof. unfold FinalizeStates, sts_SetDoSaves, sts_SetDoPushes. conv. Qed.

End Targets.

#[export] Hint Resolve safe_AbsRef safe_joinRefs safe_deref safe_as_target safe_absolutizeTarget safe_ResolveReference safe_frame_scope
  safe_prepOverridingVars safe_waitBlock safe_prepBuildTarget safe_buildTarget safe_From safe_Locally safe_forceExecution
  safe_read_ref safe_FromDockerfile safe_Build safe_EnterScopeDo safe_PushWaitBlock safe_add_item safe_PopWaitBlock
  safe_markFakeDeps safe_FinalizeStates : conv.

(** ** RUN *)

(** A computation that is followed from one state. *)
Lemma good_bind {F A B} (m : cop A) (k : A -> cop B) c :
  good F c (fst (m c)) -> (forall a, snd (m c) = Ret a -> good F (fst (m c)) (fst (k a (fst (m c))))) ->
  good F c (fst (ebind m k c)).
Proof.
  intros Hm Hk. unfold ebind. destruct (m c) as [c' [a|e|]]; simpl in *; [|done..].
  etransitivity; [exact Hm|by apply Hk].
Qed.

(** ... when [P] holds, which nothing that is kept makes false. *)
Definition under (F : Features) {A} (P : Conv -> Prop) (m : cop A) : Prop := forall c, P c -> good F c (fst (m c)).
Definition stable (P : Conv -> Prop) : Prop := forall c c', conv_kept c c' -> P c -> P c'.

Lemma under_safe {F A} P (m : cop A) : preserves (good F) m -> under F P m.
Proof. intros Hm c _. apply Hm. Qed.

Lemma under_bind {F A B} P (m : cop A) (k : A -> cop B) :
  stable P -> under F P m -> (forall a, under F P (k a)) -> under F P (ebind m k).
Proof.
  intros HP Hm Hk c Hc E. destruct (Hm c Hc E) as [K _]. revert E. change (good F c (fst (ebind m k c))).
  apply good_bind; [by apply Hm|]. intros a _. apply Hk. by apply (HP _ _ K).
Qed.

(** The version is known. *)
Lemma good_when F c c' : (ftrs c = F -> good F c c') -> good F c c'.
Proof. intros Hg E. by apply Hg. Qed.

Lemma under_read_then {F A B} P (f : Conv -> A) (k : A -> cop B) :
  (forall c, ftrs c = F -> P c -> good F c (fst (k (f c) c))) -> under F P (ebind (read f) k).
Proof. intros Hk c Hc E. by apply (Hk c E Hc). Qed.

(** The state does not matter any more. *)
Ltac anywhere :=
  let Hm := fresh in match goal with |- good ?F ?c (fst (?m ?c)) => enough (preserves (good F) m) as Hm; [apply Hm|] end.

Section Running.
Context {F : Features} `{RangeOrder} `{Unicode} `{Platforms} `{LLB} `{CacheOrder} `{Outside} `{ShellEscape} `{RunEnv} `{UnicodeTables}.

#[local] Abbreviation safe m := (preserves (good F) m).

Lemma safe_save_file f : safe (save_file f).
Proof. unfold save_file. conv. Qed.

#[local] Hint Resolve safe_save_file : conv.

Lemma safe_variable_envs : safe variable_envs.
Proof. unfold variable_envs. conv. Qed.

Lemma safe_container_options o : safe (container_options o).
Proof. unfold container_options. conv. Qed.

#[local] Hint Resolve safe_variable_envs safe_container_options : conv.

(** The state of the pushes changes in versions without WAIT. *)
Lemma good_push c f :
  has "wait-block" F = false ->
  rp_SaveImages (RunPush_ (final c)) `prefix_of` rp_SaveImages (f (RunPush_ (final c))) ->
  rp_SaveLocals (f (RunPush_ (final c))) = rp_SaveLocals (RunPush_ (final c)) ->
  rp_CommandStrs (RunPush_ (final c)) `prefix_of` rp_CommandStrs (f (RunPush_ (final c))) ->
  rp_HasState (f (RunPush_ (final c))) = true ->
  (Forall (fun si => HasPushDependencies si = true) (rp_SaveImages (RunPush_ (final c))) ->
   Forall (fun si => HasPushDependencies si = true) (rp_SaveImages (f (RunPush_ (final c))))) ->
  good F c (fst (set_push f c)).
Proof.
  intros Hw Hi Hl Hc Hs Hp E. apply (good_final (F := F) c); [|intros [O1 O2 O3 O4 O5 O6]|done].
  - split; simpl; try done. by rewrite Hl.
  - assert (has_wait c = false) as Ew by (unfold has_wait; by rewrite E). rewrite Ew in *. split; simpl; try done.
    + by rewrite Hs.
    + auto.
    + by rewrite Hl.
Qed.

(** Whether the state of the pushes has been set. *)
Definition pushing (push : bool) (c : Conv) : Prop := push = true -> rp_HasState (RunPush_ (final c)) = true.

Lemma stable_pushing push : stable (pushing push).
Proof. intros c c' K Hp E. by apply (sk_push _ _ (ck_final _ _ K)), Hp. Qed.

Lemma under_run_interactive push state opts str :
  has "wait-block" F && push = false -> under F (pushing push) (run_interactive push state opts str).
Proof.
  intros Hw c Hp. unfold run_interactive. destruct push.
  - rewrite andb_true_r in Hw. apply good_bind; [apply good_push; simpl; auto|]. intros; reflexivity.
  - apply good_bind; [|intros; reflexivity]. by apply (good_neutral c (set_InteractiveSession_ _ (final c))).
Qed.

Lemma under_push_command (state : State) opts (str : string) :
  has "wait-block" F = false ->
  under F (pushing true) (set_push (fun r => set_rp_CommandStrs (rp_CommandStrs r ++ [str]) (set_rp_State (RunOn state opts) r))).
Proof. intros Hw c Hp. apply good_push; simpl; auto. by apply prefix_app_r. Qed.

Lemma first_push_spec push c :
  has "wait-block" F && push = false -> good F c (fst (first_push push c)) /\ pushing push (fst (first_push push c)).
Proof.
  intros Hw. unfold first_push, pushing, ebind, read. destruct push; simpl; [|split; [reflexivity|done]].
  rewrite andb_true_r in Hw. destruct (rp_HasState (RunPush_ (final c))) eqn:E; simpl; [by split; [reflexivity|]|]. split; [|done].
  apply (good_push c (fun r => set_rp_HasState true (set_rp_State (MainState (final c)) r))); simpl; auto.
Qed.

Lemma safe_place q push noCache opts fa str : has "wait-block" F && push = false -> safe (place q push noCache opts fa str).
Proof.
  intros Hw c. destruct (first_push_spec push c Hw) as [G Hp]. unfold place. cbv zeta.
  apply good_bind; [done|]. intros [] _.
  match goal with |- good F ?c1 (fst (?m ?c1)) => enough (under F (pushing push) m) as Hu by (by apply Hu) end.
  pose proof (stable_pushing push) as Hs.
  apply under_bind; [done|apply under_safe; conv|]. intros state. apply under_bind; [done|apply under_safe; conv|]. intros [].
  destruct (ro_Interactive _); [by apply under_run_interactive|].
  apply under_bind; [done|apply under_safe; conv|]. intros []. destruct push; [|apply under_safe; conv].
  apply under_bind; [done|apply under_push_command; by rewrite andb_true_r in Hw|]. intros []. apply under_safe. conv.
Qed.

Lemma safe_internalRun q : safe (internalRun q).
Proof.
  unfold internalRun. conv.
  - apply safe_place, andb_false_r.
  - apply safe_place. congruence.
Qed.

#[local] Hint Resolve safe_internalRun : conv.

Lemma safe_Run o : safe (Run o).
Proof. unfold Run. conv. Qed.

Lemma safe_read_back l f s a b d : safe (read_back l f s a b d).
Proof. unfold read_back. conv. Qed.

Lemma safe_answer_file l a b f d m : safe (answer_file l a b f d m).
Proof. unfold answer_file. conv. Qed.

#[local] Hint Resolve safe_read_back safe_answer_file : conv.

Lemma safe_RunExitCode o : safe (RunExitCode o).
Proof. unfold RunExitCode. conv. Qed.

Lemma safe_runCommand n e o : safe (runCommand n e o).
Proof. unfold runCommand. conv. Qed.

Lemma safe_RunExpression n o : safe (RunExpression n o).
Proof. apply safe_runCommand. Qed.

Lemma safe_ExpandOld w : safe (ExpandOld w).
Proof. unfold ExpandOld. conv. Qed.

Lemma safe_expand_command o a w : safe (expand_command o a w).
Proof. unfold expand_command, RunCommand. conv. apply safe_runCommand. Qed.

End Running.

#[export] Hint Resolve safe_internalRun safe_Run safe_RunExitCode safe_runCommand safe_RunExpression : conv.

(** ** Copies and saves *)

Section Saving.
Context {F : Features} `{RangeOrder} `{Unicode} `{Platforms} `{LLB} `{CacheOrder} `{Outside} `{!Wildcards} `{ShellEscape} `{RunEnv} `{FileHash}.

#[local] Abbreviation safe m := (preserves (good F) m).

Lemma safe_assign_MainState p r : safe (assign set_MainState p r).
Proof. unfold assign. conv. apply preserves_stuck, _. Qed.

Lemma safe_assign_ArtifactsState p r : safe (assign set_ArtifactsState p r).
Proof. unfold assign. conv. apply preserves_stuck, _. Qed.

Lemma safe_check_chmod m : safe (check_chmod m).
Proof. unfold check_chmod. conv. Qed.

Lemma safe_artifact_source n p a b l : safe (artifact_source n p a b l).
Proof. unfold artifact_source. conv. Qed.

Lemma safe_classical_source l : safe (classical_source l).
Proof. unfold classical_source. conv. Qed.

#[local] Hint Resolve safe_assign_MainState safe_assign_ArtifactsState safe_check_chmod safe_artifact_source
  safe_classical_source : conv.

Lemma safe_CopyArtifactLocal n d p a b l i : safe (CopyArtifactLocal n d p a b l i).
Proof. unfold CopyArtifactLocal. conv. Qed.

Lemma safe_CopyArtifact n d p a b l i t o h m e y : safe (CopyArtifact n d p a b l i t o h m e y).
Proof. unfold CopyArtifact. conv. Qed.

Lemma safe_CopyClassical l d i t o h m e : safe (CopyClassical l d i t o h m e).
Proof. unfold CopyClassical. conv. Qed.

Lemma safe_GitClone u s b d k : safe (GitClone u s b d k).
Proof. unfold GitClone. conv. Qed.

Lemma safe_after_save : safe after_save.
Proof. unfold after_save. conv. Qed.

Lemma safe_check_save f s a : safe (check_save f s a).
Proof. unfold check_save. conv. Qed.

#[local] Hint Resolve safe_after_save safe_check_save : conv.

Lemma safe_SaveArtifactFromLocal f t k o h : safe (SaveArtifactFromLocal f t k o h).
Proof. unfold SaveArtifactFromLocal. conv. Qed.

Lemma safe_add_cache_import n : safe (add_cache_import n).
Proof. unfold add_cache_import. conv. Qed.

Lemma safe_wildcard_target p m : safe (wildcard_target p m).
Proof. unfold wildcard_target. conv. Qed.

#[local] Hint Resolve safe_add_cache_import safe_wildcard_target : conv.

Lemma safe_expandWildcardTargets n : safe (expandWildcardTargets n).
Proof. unfold expandWildcardTargets. conv. Qed.

#[local] Hint Resolve safe_expandWildcardTargets : conv.

Lemma safe_ExpandWildcardArtifacts a : safe (ExpandWildcardArtifacts a).
Proof. unfold ExpandWildcardArtifacts. conv. Qed.

Lemma safe_ExpandWildcardCmds n k : safe (ExpandWildcardCmds n k).
Proof. unfold ExpandWildcardCmds. conv. Qed.

(** *** Artifacts *)

Lemma safe_wait_item a : has "wait-block" F = true -> safe (on_final (fun s => set_WaitItems (WaitItems s ++ [a]) s)).
Proof.
  intros Hw c E. apply (good_final (F := F) c); [|intros [O1 O2 O3 O4 O5 O6]|done].
  - split; simpl; try done. by apply prefix_app_r.
  - assert (has_wait c = true) as Ew by (unfold has_wait; by rewrite E). rewrite Ew in *. by split.
Qed.

Lemma safe_separate x : safe (on_final (fun s => set_SeparateArtifactsState (SeparateArtifactsState s ++ [x]) s)).
Proof.
  intros c. apply good_final; [|intros [O1 O2 O3 O4 O5 O6]].
  - split; simpl; try done. by apply prefix_app_r.
  - split; simpl; try done. eapply List.Forall_impl; [|exact O6]. intros sl Hi. simpl in *. rewrite length_app. lia.
Qed.

(** There is a state for the save. *)
Definition indexed (n : nat) (c : Conv) : Prop := n < length (SeparateArtifactsState (final c)).

Lemma stable_indexed n : stable (indexed n).
Proof. intros c c' K Hi. pose proof (prefix_length _ _ (sk_separate _ _ (ck_final _ _ K))). unfold indexed in *. lia. Qed.

(** A save that is left to the builder. *)
Lemma under_save_local sl (isPush : bool) :
  has "wait-block" F = false ->
  under F (indexed (Index sl)) (if isPush then set_push (fun r => set_rp_SaveLocals (rp_SaveLocals r ++ [sl]) r)
                                else on_final (fun s => set_SaveLocals (SaveLocals s ++ [sl]) s)).
Proof.
  intros Hw c Hi E. destruct isPush;
    (apply (good_final (F := F) c); [split; simpl; try done; by apply prefix_app_r|intros [O1 O2 O3 O4 O5 O6]|done]);
    (assert (has_wait c = false) as Ew by (unfold has_wait; by rewrite E)); rewrite Ew in *; split; simpl; try done.
  - rewrite app_assoc. apply List.Forall_app. split; [done|]. by repeat constructor.
  - apply List.Forall_app in O6 as [? ?]. rewrite <- app_assoc. apply List.Forall_app. split; [done|]. by constructor.
Qed.

Lemma under_record_local sl isPush : under F (indexed (Index sl)) (record_local sl isPush).
Proof.
  apply under_read_then. intros c E Hi. rewrite E. destruct (has "wait-block" F) eqn:Hw; [|by apply under_save_local].
  anywhere. conv. by apply safe_wait_item.
Qed.

Lemma under_last_artifact adjusted path ifExists isPush :
  under F (indexed 0)
    (index <- read (fun c => length (SeparateArtifactsState (final c)) - 1);;
     record_local (mkSaveLocal adjusted path index ifExists) isPush;;; after_save).
Proof.
  apply under_read_then. intros c E Hi. apply good_bind; [|intros; anywhere; conv].
  apply under_record_local. unfold indexed in *. simpl. lia.
Qed.

Lemma safe_save_as_local x f s adjusted path ifExists isPush :
  safe (on_final (fun s => set_SeparateArtifactsState (SeparateArtifactsState s ++ [x]) s);;;
        check_save f s adjusted;;;
        index <- read (fun c => length (SeparateArtifactsState (final c)) - 1);;
        record_local (mkSaveLocal adjusted path index ifExists) isPush;;; after_save).
Proof.
  intros c. apply good_bind; [apply safe_separate|]. intros [] _.
  match goal with |- good F ?c1 (fst (?m ?c1)) => enough (under F (indexed 0) m) as Hu end.
  - apply Hu. unfold indexed. simpl. rewrite length_app. simpl. lia.
  - apply under_bind; [apply stable_indexed|apply under_safe; conv|]. intros []. apply under_last_artifact.
Qed.

Lemma safe_SaveArtifact f t l k o e y g p : safe (SaveArtifact f t l k o e y g p).
Proof.
  unfold SaveArtifact.
  repeat (match goal with |- preserves _ (ebind (on_final _) _) => fail 1 | _ => conv_step end).
  apply safe_save_as_local.
Qed.

(** *** Images *)

Lemma safe_image_item si : has "wait-block" F = true -> safe (image_item si).
Proof. intros Hw. unfold image_item. conv. by apply safe_wait_item. Qed.

(** What the item of an image leaves for the builder. *)
Lemma image_item_spec si c si' : snd (image_item si c) = Ret si' -> si' = si \/ si' = skip_builder si.
Proof.
  unfold image_item, ebind, read. destruct (add_item _ c) as [c1 [a|e|]]; simpl; [|done..].
  destruct (Push si); simpl; intros [= <-]; destruct (_ || _); auto.
Qed.

Lemma good_save_image c si :
  HasPushDependencies si = false -> (has_wait c = false -> SkipBuilder si = false) ->
  good F c (set_final (set_SaveImages (SaveImages (final c) ++ [si]) (final c)) c).
Proof.
  intros Hp Hs. apply good_final; [split; simpl; try done; by apply prefix_app_r|]. intros [O1 O2 O3 O4 O5 O6].
  split; simpl; try done.
  - intros Hw. destruct (O2 Hw). split; [done|]. apply List.Forall_app. split; [done|]. by repeat constructor; apply Hs.
  - apply List.Forall_app. split; [done|]. by repeat constructor.
Qed.

Lemma good_push_image c si :
  has "wait-block" F = false -> rp_HasState (RunPush_ (final c)) = true -> HasPushDependencies si = true ->
  good F c (fst (set_push (fun r => set_rp_SaveImages (rp_SaveImages r ++ [si]) r) c)).
Proof.
  intros Hw Hs Hp. apply good_push; simpl; auto; [by apply prefix_app_r|]. intros Hf. apply List.Forall_app.
  split; [done|]. by repeat constructor.
Qed.

(** An image of the build, in a version with WAIT or without. *)
Lemma good_main_image c si :
  HasPushDependencies si = false -> SkipBuilder si = false ->
  good F c (fst ((si <- (if has "wait-block" (ftrs c) then image_item si else eret si);;
                  on_final (fun s => set_SaveImages (SaveImages s ++ [si]) s)) c)).
Proof.
  intros Hp Hs. apply good_when. intros E. destruct (has "wait-block" (ftrs c)) eqn:Hw; [|by apply good_save_image].
  assert (good F c (fst (image_item si c))) as G by (apply safe_image_item; congruence).
  apply good_bind; [done|]. intros si' Hi. apply image_item_spec in Hi. apply good_save_image.
  - by destruct Hi as [-> | ->].
  - unfold has_wait. destruct (G E) as [K _]. rewrite (ck_ftrs _ _ K). congruence.
Qed.

Lemma safe_save_image p i h n name : safe (save_image p i h n name).
Proof.
  intros c. apply good_when. intros E. unfold save_image. apply good_bind; [reflexivity|]. intros c0 [= <-].
  apply good_bind; [|intros; anywhere; conv]. cbn [fst read].
  destruct (rp_HasState (RunPush_ (final c))) eqn:Hs; [|by apply good_main_image].
  destruct (has "wait-block" (ftrs c)) eqn:Hw; [reflexivity|]. apply good_push_image; [congruence|done..].
Qed.

#[local] Hint Resolve safe_save_image : conv.

Lemma safe_SaveImage l p i h cf n : safe (SaveImage l p i h cf n).
Proof. unfold SaveImage. conv. Qed.

End Saving.

#[export] Hint Resolve safe_CopyArtifactLocal safe_CopyArtifact safe_CopyClassical safe_GitClone safe_SaveArtifact
  safe_SaveArtifactFromLocal safe_SaveImage safe_expandWildcardTargets safe_ExpandWildcardArtifacts safe_ExpandWildcardCmds : conv.
