(* ===== verification/WithDocker.v ===== *)
(** * The converter: WITH DOCKER

    A translation of [earthfile2llb/with_docker_run_base.go], [with_docker_run_tar.go],
    [with_docker_run_reg.go], [with_docker_run_local_tar.go] and [with_docker_run_local_reg.go],
    with [KeyFromHashAndTag] of [states/solvecache.go]: the images that are loaded into the
    inner docker, and the command that runs beside it.

    The images are solved one after the other; with --parallel-load the code starts them
    together and waits for all.  The solvers of images, docker itself and the parser of
    compose files are a class. *)

From stdpp Require Import gmap sorting.
From S2P Require Import Prelude GoStrings Token GoText Numbers Reference Imports KeyValue Scope Collection BuildArgs.
From S2P Require Import FlagUtil ConvApi.
From S2P Require Import Features Platform States RunMount RunShell Llb LocalState WaitBlock Effects ShellLex ConvState.
From S2P Require Import Conv ConvBuild ConvRun ConvSave.

#[local] Open Scope eff_scope.

(** [ImageDef], and what a solved image is called ([ImageResult]). *)
Record ImageDef : Type := mkImageDef { id_MTS : Built; id_ImageName : string; id_Platform : Plat.Platform }.

Record ImageResult : Type := mkImageResult {
  IntermediateImageName : string; FinalImageName : string; FinalImageNameWithDigest : string; NewInterImgFormat : bool }.

(** [parse_compose] gives the services in the order in which the map is visited. *)
Class DockerEnv : Type := {
  parse_compose : string -> res (list (string * (string * string)));
  input_digest : string -> string;
  SolveImageTar : Built -> string -> string -> bool -> res unit;
  tar_GetID : string -> res string;
  SolveImages_ : list ImageDef -> res (list ImageResult);
  ImageLoadFromFileCommand : string -> string;
  ImagePull : string -> res unit;
  ImageTag_ : string -> string -> res unit;
  ParallelConversion : bool;
  LocalRegistryAddr : string }.

Definition commandName : string := "WITH DOCKER RUN ".
Definition dockerAutoInstallScriptPath : string := "/var/earthbuild/docker-auto-install.sh".
Definition composeConfigFile : string := "compose-config.yml".

(** The platform that the interpreter hands over, by its text, and back. *)
Definition to_plat `{Platforms} (x : ConvApi.Platform) : Plat.Platform :=
  Plat.mkPlatform (match plat_p x with
                   | Some s => match platforms_Parse s with Ok spec => Some (Normalize spec) | _ => None end
                   | None => None
                   end) (plat_user x) (plat_native x).

Definition of_plat `{Platforms} (x : Plat.Platform) : ConvApi.Platform :=
  ConvApi.mkPlatform (option_map Format (Plat.p x)) (Plat.user x) (Plat.native x).

(** An image to pull. *)
Definition pull_opt : Type := (string * Plat.Platform)%type.

(** ** [withDockerRunBase] *)

Definition quoted_param (name value : string) : string := name +:+ "=" +:+ dquote +:+ value +:+ dquote.

Definition composeParams (o : WithDockerOpt) : list string :=
  [quoted_param "EARTHLY_START_COMPOSE" (json_bool (negb (length (wo_ComposeFiles o) =? 0)));
   quoted_param "EARTHLY_COMPOSE_FILES" (Join (wo_ComposeFiles o) " ");
   quoted_param "EARTHLY_COMPOSE_SERVICES" (Join (wo_ComposeServices o) " ")].

Definition makeWithDockerdWrapFun (dindID : string) (tarPaths imgsWithDigests : list string) (o : WithDockerOpt) : shellWrapFun :=
  let params := [quoted_param "EARTHLY_DOCKERD_DATA_ROOT" (path_Join ["/var/earthbuild/dind"; dindID]);
                 quoted_param "EARTHLY_DOCKERD_CACHE_DATA" (json_bool (HasPrefix dindID "cache_"));
                 quoted_param "EARTHLY_DOCKER_LOAD_FILES" (Join tarPaths " ");
                 quoted_param "EARTHLY_IMAGES_WITH_DIGESTS" (Join imgsWithDigests " ")] ++ composeParams o in
  fun args envVars with_ withDebugger forceDebugger =>
  Ok (shellCmd (strWithEnvVarsAndDocker args (params ++ envVars) with_ withDebugger forceDebugger true false "" "")).

(** A file of the host, mounted where it is. *)
Definition host_mount (path source : string) : ExecOption := XMount path SScratch [HostBind; SourcePath source].

Section WithDocker.
Context `{RangeOrder} `{Unicode} `{Platforms} `{LLB} `{CacheOrder} `{Outside} `{ShellEscape} `{RunEnv} `{DockerEnv}.

Definition installDeps (o : WithDockerOpt) : cop unit :=
  newVertexMeta;;;
  on_state (fun s => RunOn s
    [host_mount dockerAutoInstallScriptPath dockerAutoInstallScriptPath;
     XArgs (shellCmd (Join (composeParams o) " " +:+ " " +:+ dockerAutoInstallScriptPath))]).

Definition getComposeConfig (o : WithDockerOpt) : cop string :=
  newVertexMeta;;;
  c <- read (fun c => c);;
  let state := RunOn (MainState (final c))
    [host_mount dockerdWrapperPath dockerdWrapperPath;
     XArgs (shellCmd (Join (composeParams o) " " +:+ " " +:+ dockerdWrapperPath +:+ " get-compose-config"))] in
  ref <- wrapped "state to ref compose config: " (of_res (StateToRef state (platr c)));;
  wrapped "read compose config file: " (read_ref ref ("/tmp/earthbuild/" +:+ composeConfigFile)).

(** The image of a service, if it has one and is wanted. *)
Definition service_pull (o : WithDockerOpt) (r : Plat.Resolver) (s : string * (string * string)) : res (option pull_opt) :=
  let '(serviceName, (image, platform)) := s in
  if String.eqb image "" then Ok None
  else
    rbind (if String.eqb platform "" then Ok (Plat.currentPlatform r)
           else match platforms_Parse platform with
                | Ok spec => Ok (Plat.FromLLBPlatform spec)
                | Err e => Err ("parse platform for image " +:+ image +:+ ": " +:+ platform +:+ ": " +:+ e)
                | NoFuel => NoFuel
                end) (fun platform =>
    Ok (if (length (wo_ComposeServices o) =? 0) || existsb (String.eqb serviceName) (wo_ComposeServices o)
        then Some (image, platform) else None)).

Definition getComposePulls (o : WithDockerOpt) : cop (list pull_opt) :=
  if length (wo_ComposeFiles o) =? 0 then eret []
  else
    dt <- getComposeConfig o;;
    services <- wrapped ("parse compose config for [" +:+ Join (wo_ComposeFiles o) " " +:+ "]: ") (of_res (parse_compose dt));;
    r <- read platr;;
    pulls <- emap (fun s => of_res (service_pull o r s)) services;;
    eret (omap id pulls).

(** An image and the text of its platform. *)
Definition setKey (r : Plat.Resolver) (p : pull_opt) : string * string :=
  (fst p, Plat.Platform_String (Plat.Materialize r (snd p))).

(** The images of compose files that have not been loaded. *)
Definition compose_left (r : Plat.Resolver) (composePulls loaded : list pull_opt) : list pull_opt :=
  let pulls := List.map (fun p => (fst p, Plat.SubPlatform (snd p) r)) composePulls in
  let composeImagesSet : gset (string * string) :=
    list_to_set (List.map (setKey r) pulls) ∖ list_to_set (List.map (setKey r) loaded) in
  List.filter (fun p => bool_decide (setKey r p ∈ composeImagesSet)) pulls.

(** ** Images from other targets *)

Definition errNoImageTag : string :=
  "no docker image tag specified in load and it cannot be inferred from the SAVE IMAGE statement".

(** The name of the image: as given, or that of the one SAVE IMAGE. *)
Definition infer_name (multiple name : string) (mts : Built) : res string :=
  if negb (String.eqb name "") then Ok name
  else match SaveImages (b_sts mts) with
       | [] => Err errNoImageTag
       | si :: rest =>
           if String.eqb (DockerTag si) "" then Err errNoImageTag
           else match rest with [] => Ok (DockerTag si) | _ => Err multiple end
       end.

Definition multiple_tar : string := errNoImageTag +:+ ": multiple tags mentioned in SAVE IMAGE".
Definition multiple_reg : string := "multiple tags mentioned in SAVE IMAGE: " +:+ errNoImageTag.

(** [BuildAsync] and what follows the build, or the build at once. *)
Definition build_loaded (parallel : bool) (cmdID : string) (o : DockerLoadOpt) (platform : Plat.Platform) : cop (string * Built) :=
  depTarget <- wrapped ("parse target " +:+ dl_Target o +:+ ": ") (of_res (ParseTarget HOME (dl_Target o)));;
  let name := referenceString depTarget in
  if parallel then
    p <- prepBuildTarget process_expression name platform (dl_AllowPrivileged o) (dl_PassArgs o) (dl_BuildArgs o) true loadCmd "" None;;
    let '(target, opt, _) := p in
    mts <- wrapped ("async earthfile2llb for " +:+ name +:+ ": ") (earthfile2llb target opt);;
    c <- read (fun c => c);;
    (if has "exec-after-parallel" (ftrs c) then
       wrapped ("async force execution for " +:+ name +:+ ": ") (forceExecution (MainState (b_sts mts)) (b_PlatformResolver mts))
     else eret tt);;;
    eret (name, mts)
  else
    mts <- buildTarget process_expression name platform (dl_AllowPrivileged o) (dl_PassArgs o) (dl_BuildArgs o) false loadCmd cmdID None;;
    eret (name, mts).

(** The zero value of the input of a target. *)
Definition no_input : TargetInput := mkTargetInput "" "" None false.

(** An image that is pulled, as if a target had saved it: it has no input. *)
Definition pulled (c : Conv) (p : pull_opt) (state : State) (img : Image) : Built :=
  let si := mkSaveImage state Plat.DefaultPlatform img (fst p) false false false false false false false false false in
  mkBuilt (mkSts (mkRef KTarget "" "" "" "" "") "" no_input state SScratch [] img [] [si] no_push no_session [] [] false false
             false false false)
    (varCollection c) (Plat.SubResolver (snd p) (platr c)) ∅.

Definition pull_image (p : pull_opt) : cop Built :=
  r <- internalFromClassical (fst p) (snd p);;
  let '(state, img, _) := r in
  read (fun c => pulled c p state img).

(** The options of the command. *)
Definition docker_run_opts (args : list string) (o : WithDockerOpt) (locally : bool) : ConvertRunOpts :=
  mkConvertRunOpts commandName args locally (wo_Mounts o) (wo_Secrets o) (wo_WithShell o) (wo_WithEntrypoint o) (negb locally) false
    false (if locally then false else wo_WithSSH o) (wo_NoCache o) (wo_Interactive o) (wo_interactiveKeep o)
    (wo_TryCatchSaveArtifacts o) (wo_WithAWSCredentials o) (wo_OIDCInfo o) false false.

Definition errPlatform : string := "platform incompatible".

(** The docker daemon runs on the native platform only. *)
Definition check_native : cop unit := fun c =>
  if Plat.PlatformEquals (platr c) (Plat.currentPlatform (platr c)) Plat.NativePlatform then eret tt c else efail errPlatform c.

Definition dind_mounts : list ExecOption :=
  [host_mount "/var/earthbuild/dind" "/tmp/earthbuild/dind"; host_mount dockerdWrapperPath dockerdWrapperPath].

Definition dind_ID (c : Conv) : string := Hash input_digest (targetInput (final c)).

(** ** [withDockerRunTar] *)

Record tarLoad : Type := mkTarLoad { tl_state : State; tl_platform : Plat.Platform; tl_imgName : string }.

Definition KeyFromHashAndTag (mts : Built) (dockerTag : string) : string :=
  dockerTag +:+ "-" +:+ Hash input_digest (targetInput (b_sts mts)).

(** The file of an image, uploaded; the cache of solved images is shared by all targets. *)
Definition solve_tar (mts : Built) (opName dockerTag : string) : cop State :=
  let solveID := KeyFromHashAndTag mts dockerTag in
  c <- read (fun c => c);;
  match w_solveCache (world c) !! solveID with
  | Some s => eret s
  | None =>
      outDir <- wrapped "mk temp dir for docker load: " (of_res (temp_dir "earthly-docker-load"));;
      let outFile := path_Join [outDir; "image.tar"] in
      wrapped ("build target " +:+ opName +:+ " for docker load: ")
        (of_res (SolveImageTar mts dockerTag outFile (negb (has "no-tar-build-output" (ftrs c)))));;;
      dockerImageID <- wrapped "inspect docker tar after build: " (of_res (tar_GetID outFile));;
      let sessionID := sha256_hex (dockerTag +:+ "-" +:+ dockerImageID) in
      newVertexMeta;;;
      let tarContext := SLocal solveID [OtherOption "sessionID" [sessionID];
                                        OtherOption "platform" [Format (Plat.nativePlatform (platr c))]] in
      on_world (fun w => set_w_solveCache (<[solveID := tarContext]> (w_solveCache w)) w);;;
      eret tarContext
  end.

Definition solveImage (mts : Built) (opName dockerTag : string) : cop tarLoad :=
  s <- solve_tar mts opName dockerTag;;
  eret (mkTarLoad s (Plat.currentPlatform (b_PlatformResolver mts)) dockerTag).

(** What is loaded, and the image and platform that it is loaded as. *)
Definition load_tar (parallel : bool) (o : DockerLoadOpt) : cop (tarLoad * pull_opt) :=
  r <- read platr;;
  let platform := Plat.SubPlatform (to_plat (dl_Platform o)) r in
  m <- build_loaded parallel "" o platform;;
  let '(opName, mts) := m in
  name <- of_res (infer_name multiple_tar (dl_ImageName o) mts);;
  tl <- solveImage mts opName name;;
  eret (tl, (name, platform)).

Definition pull_tar (p : pull_opt) : cop tarLoad := mts <- pull_image p;; solveImage mts (fst p) (fst p).

Definition given_pulls (o : WithDockerOpt) : list pull_opt :=
  List.map (fun p => (dp_ImageName p, to_plat (dp_Platform p))) (wo_Pulls o).

Definition prepareImages_tar (parallel : bool) (o : WithDockerOpt) : cop (list tarLoad) :=
  composePulls <- getComposePulls o;;
  loads <- wrapped "load: " (emap (load_tar parallel) (wo_Loads o));;
  r <- read platr;;
  pulls <- wrapped "pull: " (emap pull_tar (given_pulls o ++ compose_left r composePulls loads.*2));;
  eret (loads.*1 ++ pulls).

(** The order of the images, by name and then by platform. *)
Definition tar_le (a b : tarLoad) : Prop :=
  (if String.eqb (tl_imgName a) (tl_imgName b)
   then String.leb (Plat.Platform_String (tl_platform a)) (Plat.Platform_String (tl_platform b))
   else String.leb (tl_imgName a) (tl_imgName b)) = true.

#[export] Instance tar_le_dec a b : Decision (tar_le a b).
Proof. unfold tar_le. apply _. Defined.

(** The directory of each image. *)
Definition load_dir (index : nat) : string := "/var/earthbuild/load-" +:+ fmt_d index.

Definition load_mounts (loads : list tarLoad) : list ExecOption :=
  imap (fun index tl => XMount (load_dir index) (tl_state tl) [Readonly]) loads.

Definition run_tar (parallel : bool) (args : list string) (o : WithDockerOpt) (extra : list ExecOption) : cop unit :=
  checkAllowed runCmd;;; nonSaveCommand;;;
  installDeps o;;;
  loads <- prepareImages_tar parallel o;;
  let loads := merge_sort tar_le loads in
  c <- read (fun c => c);;
  let tarPaths := imap (fun index _ => path_Join [load_dir index; "image.tar"]) loads in
  check_native;;;
  internalRun (mkRunRequest (docker_run_opts args o false) (Some (makeWithDockerdWrapFun (dind_ID c) tarPaths [] o)) None
                 (dind_mounts ++ extra ++ load_mounts loads));;;
  eret tt.

(** ** [withDockerRunRegistry] *)

Definition load_reg (parallel : bool) (cmdID : string) (platform : Plat.Platform) (o : DockerLoadOpt) : cop ImageDef :=
  m <- build_loaded parallel cmdID o platform;;
  let '(_, mts) := m in
  name <- of_res (infer_name multiple_reg (dl_ImageName o) mts);;
  eret (mkImageDef mts name platform).

Definition pull_reg (p : pull_opt) : cop ImageDef := mts <- pull_image p;; eret (mkImageDef mts (fst p) (snd p)).

Definition prepareImages_reg (parallel : bool) (cmdID : string) (o : WithDockerOpt) : cop (list ImageDef) :=
  composePulls <- getComposePulls o;;
  r <- read platr;;
  loads <- wrapped "load: " (emap (fun l => load_reg parallel cmdID (Plat.SubPlatform (to_plat (dl_Platform l)) r) l) (wo_Loads o));;
  let loaded := List.map (fun d => (id_ImageName d, id_Platform d)) loads in
  pulls <- wrapped "pull: " (emap pull_reg (given_pulls o ++ compose_left r composePulls loaded));;
  eret (loads ++ pulls).

Definition result_le (a b : ImageResult) : Prop := str_le (FinalImageNameWithDigest a) (FinalImageNameWithDigest b).

#[export] Instance result_le_dec a b : Decision (result_le a b).
Proof. unfold result_le, str_le. apply _. Defined.

Definition pull_name (x : ImageResult) : string :=
  if NewInterImgFormat x then IntermediateImageName x +:+ "|" +:+ FinalImageName x else IntermediateImageName x.

Definition internalWithDockerSecretPrefix : string := "52804da5-2787-46ad-8478-80c50f305e76".

Definition run_reg (parallel : bool) (args : list string) (o : WithDockerOpt) (extra : list ExecOption) : cop unit :=
  checkAllowed runCmd;;; nonSaveCommand;;;
  cmdID <- newLogbusCommand;;
  installDeps o;;;
  imagesToBuild <- prepareImages_reg parallel cmdID o;;
  results <- wrapped "solving images: " (of_res (SolveImages_ imagesToBuild));;
  let results := merge_sort result_le results in
  c <- read (fun c => c);;
  let dindID := if String.eqb (wo_CacheID o) "" then dind_ID c else "cache_" +:+ wo_CacheID o in
  let secret := internalWithDockerSecretPrefix +:+ "-" +:+ dindID +:+ "-EARTHLY_DOCKER_LOAD_REGISTRY" in
  on_world (fun w => set_w_secrets (<[secret := Join (List.map pull_name results) " "]> (w_secrets w)) w);;;
  check_native;;;
  internalRun (mkRunRequest (docker_run_opts args o false)
                 (Some (makeWithDockerdWrapFun dindID [] (List.map FinalImageNameWithDigest results) o)) None
                 (dind_mounts ++ extra ++ [XSecretEnv "EARTHLY_DOCKER_LOAD_REGISTRY" secret]));;;
  s <- read (fun c => MainState (final c));; r <- read platr;;
  forceExecution s r.

(** ** With LOCALLY *)

(** The name of the image and its file. *)
Definition load_local_tar (parallel : bool) (cmdID : string) (o : DockerLoadOpt) : cop (string * string) :=
  m <- build_loaded parallel cmdID o (to_plat (dl_Platform o));;
  let '(opName, mts) := m in
  name <- of_res (infer_name multiple_tar (dl_ImageName o) mts);;
  outDir <- wrapped "mk temp dir for docker load: " (of_res (temp_dir "earthly-docker-load"));;
  let outFile := path_Join [outDir; "image.tar"] in
  c <- read (fun c => c);;
  wrapped ("build target " +:+ opName +:+ " for docker load: ")
    (of_res (SolveImageTar mts name outFile (negb (has "no-tar-build-output" (ftrs c)))));;;
  eret (name, outFile).

Definition name_le (a b : string * string) : Prop := str_le (fst a) (fst b).

#[export] Instance name_le_dec a b : Decision (name_le a b).
Proof. unfold name_le, str_le. apply _. Defined.

Definition docker_load (tl : string * string) : cop unit :=
  on_state (fun s => RunOn s
    [XIgnoreCache; XArgs [RunOnLocalHostMagicStr; "/bin/sh"; "-c"; ImageLoadFromFileCommand (snd tl)]]).

Definition run_local_tar (parallel : bool) (args : list string) (o : WithDockerOpt) : cop unit :=
  checkAllowed runCmd;;; nonSaveCommand;;;
  cmdID <- newLogbusCommand;;
  loads <- wrapped "load: " (emap (load_local_tar parallel cmdID) (wo_Loads o));;
  eiter docker_load (merge_sort name_le loads);;;
  internalRun (mkRunRequest (docker_run_opts args o true) None None []);;; eret tt.

Definition fetch_image (x : ImageResult) : cop unit :=
  let pullImage := LocalRegistryAddr +:+ "/" +:+ IntermediateImageName x in
  of_res (ImagePull pullImage);;;
  wrapped ("tag image " +:+ Quote (FinalImageName x) +:+ ": ") (of_res (ImageTag_ pullImage (FinalImageName x))).

Definition run_local_reg (parallel : bool) (args : list string) (o : WithDockerOpt) : cop unit :=
  checkAllowed runCmd;;; nonSaveCommand;;;
  newLogbusCommand;;;
  imagesToBuild <- wrapped "load: " (emap (fun l => load_reg parallel "" (to_plat (dl_Platform l)) l) (wo_Loads o));;
  results <- wrapped "solving images: " (of_res (SolveImages_ imagesToBuild));;
  eiter fetch_image results;;;
  internalRun (mkRunRequest (docker_run_opts args o true) None None []);;;
  s <- read (fun c => MainState (final c));; r <- read platr;;
  forceExecution s r.

(** ** [WithDockerRun] and [WithDockerRunLocal] *)

Definition enableParallel (allowParallel : bool) (c : Conv) : bool :=
  allowParallel && ParallelConversion && has "parallel-load" (ftrs c).

Definition WithDockerRun (args : list string) (o : WithDockerOpt) (allowParallel : bool) : cop unit :=
  checkAllowed runCmd;;; nonSaveCommand;;;
  c <- read (fun c => c);;
  let parallel := enableParallel allowParallel c in
  if has "use-registry-for-with-docker" (ftrs c) then run_reg parallel args o (cache_options c)
  else run_tar parallel args o (cache_options c).

Definition WithDockerRunLocal (args : list string) (o : WithDockerOpt) (allowParallel : bool) : cop unit :=
  checkAllowed runCmd;;; nonSaveCommand;;;
  c <- read (fun c => c);;
  let parallel := enableParallel allowParallel c in
  if has "use-registry-for-with-docker" (ftrs c) && o_UseLocalRegistry (opt c) then run_local_reg parallel args o
  else run_local_tar parallel args o.

End WithDocker.

(** * WITH DOCKER: what it loads

    Both forms of WITH DOCKER keep the records of the target.  The images of compose files
    that are pulled are those that no --load provides, and every image has a directory of
    its own. *)

From S2P Require Import ConvFacts.

#[local] Open Scope eff_scope.

Section Records.
Context {F : Features} `{RangeOrder} `{Unicode} `{Platforms} `{LLB} `{CacheOrder} `{Outside} `{ShellEscape} `{RunEnv} `{DockerEnv}.

#[local] Abbreviation safe m := (preserves (good F) m).

Lemma safe_installDeps o : safe (installDeps o).
Proof. unfold installDeps. conv. Qed.

Lemma safe_getComposeConfig o : safe (getComposeConfig o).
Proof. unfold getComposeConfig. conv. Qed.

#[local] Hint Resolve safe_installDeps safe_getComposeConfig safe_earthfile2llb safe_internalFromClassical : conv.

Lemma safe_getComposePulls o : safe (getComposePulls o).
Proof. unfold getComposePulls. conv. Qed.

Lemma safe_build_loaded p i o x : safe (build_loaded p i o x).
Proof. unfold build_loaded. conv. Qed.

Lemma safe_pull_image p : safe (pull_image p).
Proof. unfold pull_image. conv. Qed.

Lemma safe_check_native : safe check_native.
Proof. intros c. unfold check_native. by case_match. Qed.

Lemma safe_solve_tar m o t : safe (solve_tar m o t).
Proof. unfold solve_tar. conv. Qed.

#[local] Hint Resolve safe_getComposePulls safe_build_loaded safe_pull_image safe_check_native safe_solve_tar : conv.

Lemma safe_solveImage m o t : safe (solveImage m o t).
Proof. unfold solveImage. conv. Qed.

#[local] Hint Resolve safe_solveImage : conv.

Lemma safe_run_tar p a o x : safe (run_tar p a o x).
Proof. unfold run_tar, prepareImages_tar, load_tar, pull_tar. conv. Qed.

Lemma safe_load_reg p i x o : safe (load_reg p i x o).
Proof. unfold load_reg. conv. Qed.

#[local] Hint Resolve safe_load_reg : conv.

Lemma safe_run_reg p a o x : safe (run_reg p a o x).
Proof. unfold run_reg, prepareImages_reg, pull_reg. conv. Qed.

Lemma safe_run_local_tar p a o : safe (run_local_tar p a o).
Proof. unfold run_local_tar, load_local_tar, docker_load. conv. Qed.

Lemma safe_run_local_reg p a o : safe (run_local_reg p a o).
Proof. unfold run_local_reg, fetch_image. conv. Qed.

#[local] Hint Resolve safe_run_tar safe_run_reg safe_run_local_tar safe_run_local_reg : conv.

Lemma safe_WithDockerRun a o p : safe (WithDockerRun a o p).
Proof. unfold WithDockerRun. conv. Qed.

Lemma safe_WithDockerRunLocal a o p : safe (WithDockerRunLocal a o p).
Proof. unfold WithDockerRunLocal. conv. Qed.

End Records.

#[export] Hint Resolve safe_WithDockerRun safe_WithDockerRunLocal : conv.

Section Images.
Context `{Platforms} `{DockerEnv}.

(** An image of a compose file is pulled exactly when no load is of the same name and platform. *)
Lemma compose_left_spec r composePulls loaded p :
  p ∈ compose_left r composePulls loaded <->
  (exists q, q ∈ composePulls /\ p = (fst q, Plat.SubPlatform (snd q) r)) /\ (forall l, l ∈ loaded -> setKey r l <> setKey r p).
Proof.
  unfold compose_left. rewrite !list_elem_of_In, filter_In, in_map_iff, bool_decide_eq_true, elem_of_difference, !elem_of_list_to_set.
  rewrite !list_elem_of_In, !in_map_iff. split.
  - intros [(q & <- & Hq) [_ Hl]]. split; [exists q; by rewrite list_elem_of_In|]. intros l Hin E. apply Hl. exists l.
    by rewrite <- list_elem_of_In.
  - intros [(q & Hq & ->) Hl]. rewrite list_elem_of_In in Hq. split; [by exists q|]. split.
    + eexists. split; [reflexivity|]. apply in_map_iff. by exists q.
    + intros (l & E & Hin). apply (Hl l); [by rewrite list_elem_of_In|done].
Qed.

(** The key under which a pulled image is kept does not know its platform: an image that
    is pulled for a second platform is the one of the first. *)
Lemma pulled_key c c' name p p' s s' i i' :
  KeyFromHashAndTag (pulled c (name, p) s i) name = KeyFromHashAndTag (pulled c' (name, p') s' i') name.
Proof. reflexivity. Qed.

End Images.
