(* ===== verification/ConvAnswer.v ===== *)
(** * The converter behind the interpreter

    The interpreter is proved against the interface [ConvApi.Converter]; here the converter
    of this development implements it, call by call, and what all its methods keep is
    carried over to the interpretation of a whole Earthfile.

    What is left of the surroundings is [Services]: the lookup of git URLs, the store of
    skipped targets and the goroutine of a BUILD that is started early, which may change
    what conversions share and nothing else. *)

From stdpp Require Import gmap.
From S2P Require Import Prelude GoStrings Token GoText Ast Reference Imports KeyValue Scope Collection BuildArgs.
From S2P Require Import FlagUtil.
From S2P Require Import Validator Effects ShellLex ShellWords Expand ShellWorld Matrix ConvApi Interp InterpCmds.
From S2P Require Import InterpBlocks InterpTrack.
From S2P Require Import Features Platform States RunMount RunShell Llb LocalState WaitBlock ConvState Conv ConvBuild.
From S2P Require Import ConvRun ConvSave.
From S2P Require Import ConvFacts WithDocker.

#[local] Open Scope eff_scope.

Class Services : Type := {
  ConvertCloneURL : string -> res (string * string);
  go_build : Reference -> ConvertOpt -> World -> World;
  skipper_ready : bool;
  NoAutoSkip : bool;
  HashTarget : Reference -> Scope -> res string;
  skip_Exists : string -> res bool;
  skip_Add : Reference -> string -> nat;
  no_skip_fn : nat;
  ctx_Ref : Context_ -> Reference;
  ctx_Functions : Context_ -> list Function_;
  ctx_UseFunctionKeyword : Context_ -> bool }.

(** The features that the interpreter reads. *)
Definition interpreter_features (f : Features.Features) : ConvApi.Features := {|
  ForIn := has "for-in" f; ConvApi.WaitBlock := has "wait-block" f; ReferencedSaveOnly := has "referenced-save-only" f;
  TryFinally := has "try" f; PassArgs := has "pass-args" f; NoNetwork := has "no-network" f; RunWithAWS := has "run-with-aws" f;
  RunWithAWSOIDC := has "run-with-aws-oidc" f; RawOutput := has "raw-output" f;
  AllowPrivilegedFromDockerfile := has "allow-privileged-from-dockerfile" f; SaveArtifactKeepOwn := has "save-artifact-keep-own" f;
  AllowWithoutEarthlyLabels := has "allow-without-earthly-labels" f; WildcardBuilds := has "wildcard-builds" f;
  WildcardCopy := has "wildcard-copy" f; BuildAutoSkip := has "build-auto-skip" f; ExplicitGlobal := has "explicit-global" f;
  ArgScopeSet := has "arg-scope-and-set" f; DockerCache := has "docker-cache" f; UseCacheCommand := has "use-cache-command" f;
  UseHostCommand := has "use-host-command" f |}.

(** An error of the converter; one cause is told apart by the interpreter. *)
Definition to_error (e : string) : error :=
  if HasSuffix e errShellOutNotPermitted then EWrapped e EShellOutNotPermitted else EText e.

Definition in_error {A} (m : cop A) : Eff Conv error A := fun c =>
  match m c with
  | (c, Ret a) => (c, Ret a)
  | (c, Fail e) => (c, Fail (to_error e))
  | (c, Stuck) => (c, Stuck)
  end.

Section Answer.
Context `{RangeOrder} `{Unicode} `{UnicodeTables} `{Platforms} `{LLB} `{CacheOrder} `{Outside} `{!Wildcards} `{ShellEscape} `{RunEnv}
  `{FileHash} `{DockerEnv} `{Services}.

#[local] Abbreviation pe := process_expression.

(** Whether the target has been built before, and what to do when it has been built now. *)
Definition checkAutoSkip (fullTargetName : string) (allowPrivileged passArgs : bool) (buildArgs : list string) : cop (bool * nat) :=
  c <- read (fun c => c);;
  if negb (has "build-auto-skip" (ftrs c)) || negb skipper_ready || NoAutoSkip then eret (false, no_skip_fn)
  else
    t <- absolutizeTarget fullTargetName allowPrivileged;;
    let '(target, relTarget, _) := t in
    p <- prepOverridingVars pe relTarget passArgs buildArgs;;
    targetHash <- wrapped ("auto-skip is unable to calculate hash for " +:+ referenceString target +:+ ": ")
                    (of_res (HashTarget target (fst p)));;
    match skip_Exists targetHash with
    | Ok true => eret (true, no_skip_fn)
    | Ok false => eret (false, skip_Add target targetHash)
    | _ => eret (false, no_skip_fn)
    end.

(** A BUILD that runs beside the interpretation. *)
Definition BuildAsync (fullTargetName : string) (platform : Plat.Platform) (allowPrivileged passArgs : bool)
    (buildArgs : list string) : cop unit :=
  p <- prepBuildTarget pe fullTargetName platform allowPrivileged passArgs buildArgs true buildCmd "" None;;
  let '(target, o, _) := p in
  on_world (go_build target o).

Definition resolved (ref : Reference) : cop Resolved :=
  r <- ResolveReference ref;;
  let '(bc, allowPrivileged, allowPrivilegedSet) := r in
  eret (mkResolved (ctx_Ref bc) (ctx_Functions bc) (ctx_UseFunctionKeyword bc) allowPrivileged allowPrivilegedSet).

Definition perform {A} (k : Call A) : cop A :=
  match k in Call A return cop A with
  | CFrom i p a b l => From pe i (to_plat p) a b l
  | CFromDockerfile c d t p a l => FromDockerfile pe c d t (to_plat p) a l
  | CLocally => Locally
  | CRun o => Run o
  | CRunExitCode o => RunExitCode o
  | CRunExpression v o => RunExpression v o
  | CExpandArgs o w s => ExpandArgs o w s
  | CParsePlatform s => r <- read platr;; p <- of_res (Plat.Parse r s);; eret (of_plat p)
  | CWithDockerRun a o p => WithDockerRun a o p
  | CWithDockerRunLocal a o p => WithDockerRunLocal a o p
  | CCopyClassical l d i t o h m e => CopyClassical l d i t o h m e
  | CCopyArtifact n d p a b l i t o h m e y => CopyArtifact n d (to_plat p) a b l i t o h m e y
  | CCopyArtifactLocal n d p a b l i => CopyArtifactLocal n d (to_plat p) a b l i
  | CWhiteListed src => read (fun c => existsb (String.eqb src) (w_whitelist (ConvState.world c)))
  | CExpandWildcardArtifacts a => ExpandWildcardArtifacts a
  | CSaveArtifact f t l k o e y g p => SaveArtifact f t l k o e y g p
  | CSaveArtifactFromLocal f t k o h => SaveArtifactFromLocal f t k o h
  | CSaveImage l p i h cf n => SaveImage l p i h cf n
  | CBuild t p a b l o => Build pe t (to_plat p) a b l (Some (os_required o, os_saveHash o))
  | CBuildAsync t p a b l => BuildAsync t (to_plat p) a b l
  | CCheckAutoSkip t a b l => checkAutoSkip t a b l
  | CExpandWildcardCmds t cmd => ExpandWildcardCmds t cmd
  | CWorkdir p => Workdir p
  | CUser u => User u
  | CCmd a s => Cmd a s
  | CEntrypoint a s => Entrypoint a s
  | CExpose l => Expose l
  | CVolume l => Volume l
  | CEnv k v => Env k v
  | CArg k v o => Arg pe k v o
  | CLet k v => Let k v
  | CUpdateArg k v => UpdateArg pe k v
  | CSetArg k v => Conv.SetArg k v
  | CUnsetArg k => Conv.UnsetArg k
  | CLabel l => Label l
  | CConvertCloneURL u => of_res (ConvertCloneURL u)
  | CGitClone u s b d k => GitClone u s b d k
  | CHealthcheck n a o =>
      Healthcheck n a (ConvApi.hc_Interval o) (ConvApi.hc_Timeout o) (ConvApi.hc_StartPeriod o) (ConvApi.hc_Retries o)
        (ConvApi.hc_StartInterval o)
  | CImport i a g p f => Import ConvBuild.HOME i a g p f
  | CWorkingDir => read (fun c => WorkingDir (MainImage (final c)))
  | CCache d o => Cache sha256_hex d (cache_Sharing o) (cache_Mode o) (cache_ID o) (cache_Persist o)
  | CHost h ip => Host h ip
  | CProject o p => Project o p
  | CPushWaitBlock => PushWaitBlock
  | CPopWaitBlock => PopWaitBlock
  | CResolveReference r => resolved r
  | CEnterScopeDo c b a p n l => EnterScopeDo pe c b a p n l
  | CExitScope => ExitScope
  | CRecordTargetFailure _ => eret tt
  end.

#[export] Instance the_converter : Converter Conv := fun A k => in_error (perform k).

(** ** Every call keeps the records *)

Section Calls.
Context {F : Features.Features}.

#[local] Abbreviation safe m := (preserves (good F) m).

Lemma safe_checkAutoSkip t a b l : safe (checkAutoSkip t a b l).
Proof. unfold checkAutoSkip. conv. Qed.

Lemma safe_BuildAsync t p a b l : safe (BuildAsync t p a b l).
Proof. unfold BuildAsync. conv. Qed.

Lemma safe_resolved r : safe (resolved r).
Proof. unfold resolved. conv. Qed.

Lemma safe_ExpandArgs o w s : safe (ExpandArgs o w s).
Proof.
  intros c. unfold ExpandArgs. destruct (has _ _); [|apply safe_ExpandOld]. unfold Expand.
  set (v := fst (effective (varCollection c))). etransitivity; [apply (good_frozen c (set_varCollection v c)); done|].
  destruct (effective v) as [v' [sc|e|]]; simpl; [|reflexivity..]. apply ProcessWordWithMap_respects; [apply _|].
  intros f cmd [= <-]. apply safe_expand_command.
Qed.

#[local] Hint Resolve safe_checkAutoSkip safe_BuildAsync safe_resolved safe_ExpandArgs : conv.

Lemma safe_perform {A} (k : Call A) : safe (perform k).
Proof. destruct k; simpl; conv. Qed.

Lemma answer_good {A} (k : Call A) : preserves (good F) (answer k).
Proof.
  intros c. pose proof (safe_perform k c) as Hs. unfold answer, the_converter, in_error. by destruct (perform k c) as [c' [a|e|]].
Qed.

(** A relation on the converter's state, seen from the interpreter. *)
#[export] Instance good_tracking : Tracking (fun s s' => good F (Interp.world s) (Interp.world s')) (fun _ => True).
Proof.
  split; [|intros A k s|intros f _ s|intros A k Hk s|done|done].
  - split; [intros s; reflexivity|]. intros s1 s2 s3. apply transitivity.
  - unfold call. pose proof (answer_good k (Interp.world s)) as Hg. by destruct (answer k (Interp.world s)).
  - simpl. reflexivity.
  - by apply (Hk (self_ s)).
Qed.

End Calls.

End Answer.

(** ** A whole target *)

Section Whole.
Context `{RangeOrder} `{Unicode} `{UnicodeTables} `{Platforms} `{LLB} `{CacheOrder} `{Outside} `{!Wildcards} `{ShellEscape} `{RunEnv}
  `{FileHash} `{DockerEnv} `{Services} `{FlagParsers} `{Packages} `{SliceGrowth}.

(** The interpretation with this converter. *)
Definition interpret (features : ConvApi.Features) (fuel : nat) (ef : Tree) : @I Conv unit := Interpreter_Run fuel ef.

Lemma interpret_good F features fuel ef s :
  good F (Interp.world s) (Interp.world (fst (interpret features fuel ef s))).
Proof. exact (tracks_run (fun s s' => good F (Interp.world s) (Interp.world s')) (fun _ => True) fuel ef s). Qed.

(** The conversion of a target that has not been visited, from [NewConverter] on: its
    Earthfile is interpreted, then the states are finished. *)
Definition convert (fuel : nat) (ef : Tree) (parallel : bool) (c : Conv) : Conv * out error Built :=
  let '(s, r) := interpret (interpreter_features (ftrs c)) fuel ef
    (mkState (newInterpreter (ConvState.target c) (o_AllowPrivileged (opt c)) parallel) c []) in
  match r with
  | Ret _ => in_error FinalizeStates (Interp.world s)
  | Fail e => (Interp.world s, Fail e)
  | Stuck => (Interp.world s, Stuck)
  end.

Lemma convert_good fuel ef parallel c : good (ftrs c) c (fst (convert fuel ef parallel c)).
Proof.
  unfold convert. set (s0 := mkState _ c []). pose proof (interpret_good (ftrs c) (interpreter_features (ftrs c)) fuel ef s0) as Hg.
  destruct (interpret _ _ _ s0) as [s [a|e|]]; simpl in *; [|done..].
  etransitivity; [exact Hg|]. pose proof (safe_FinalizeStates (F := ftrs c) (Interp.world s)) as Hf.
  unfold in_error. by destruct (FinalizeStates (Interp.world s)) as [c' [b|e|]].
Qed.

(** An answer that is read off the state after the computation. *)
Definition reports {A} (P : A -> Conv -> Prop) (m : cop A) : Prop := forall c a, snd (m c) = Ret a -> P a (fst (m c)).

Lemma reports_bind {A B} P (m : cop A) (k : A -> cop B) : (forall a, reports P (k a)) -> reports P (ebind m k).
Proof. intros Hk c b. unfold ebind. destruct (m c) as [c' [a|e|]]; [apply Hk|done..]. Qed.

Lemma reports_FinalizeStates : reports (fun b c => b_sts b = final c) FinalizeStates.
Proof. unfold FinalizeStates. repeat (apply reports_bind; intros ?). intros c b [= <-]. done. Qed.

(** C6. A converted target is well formed, whatever its Earthfile says: in a version with
    WAIT it has no commands, images or files left for after the build; in one without, no
    items and no image that the builder would skip; the images of the pushes are those that
    depend on them; every local save points to a state that was made for it.  The target is
    the one that was asked for, and the numbers of its commands have only grown. *)
Theorem convert_well_formed fuel ef parallel target builtinArgs f path factory id r ti o wb w :
  let c0 := NewConverter target builtinArgs f path factory (new_sts id target r ti) o wb w in
  let '(c, result) := convert fuel ef parallel c0 in
  conv_kept c0 c /\ conv_ok c /\
  match result with
  | Ret b => sts_ID (b_sts b) = id /\ sts_Target (b_sts b) = target /\ sts_ok (has_wait c) (b_sts b)
  | _ => True
  end.
Proof.
  intros c0. pose proof (convert_good fuel ef parallel c0 eq_refl) as [K Ok].
  assert (conv_ok c0) as Ok0 by (split; try done; by constructor). specialize (Ok Ok0).
  destruct (convert fuel ef parallel c0) as [c result] eqn:E. simpl in K, Ok. split_and!; [done..|].
  destruct result as [b|e|]; [|done..].
  assert (b_sts b = final c) as ->.
  { unfold convert in E. destruct (interpret _ _ _ _) as [s [a|e|]]; [|done..]. unfold in_error in E.
    pose proof (reports_FinalizeStates (Interp.world s)) as Hr. destruct (FinalizeStates _) as [c' [b'|e|]]; [|done..].
    injection E as -> ->. by apply Hr. }
  split_and!; [by rewrite (sk_ID _ _ (ck_final _ _ K))|by rewrite (sk_Target _ _ (ck_final _ _ K))|exact Ok].
Qed.

End Whole.
