(* ===== verification/ConvSample.v ===== *)
(** * The converter: sample surroundings

    Concrete instances of everything that the converter takes from outside: a registry
    where every image is bare, a gateway that solves nothing, a host without files, and a
    reading of states that has the documented behaviour ([state_laws]). *)

From stdpp Require Import gmap.
From S2P Require Import Prelude GoStrings Token GoText Ast Reference Imports KeyValue Scope Collection BuildArgs.
From S2P Require Import FlagUtil.
From S2P Require Import Effects ShellLex ShellWords Expand ConvApi Features Platform States RunMount RunShell Llb.
From S2P Require Import LocalState WaitBlock.
From S2P Require Import ConvState Conv ConvBuild ConvRun ConvSave WithDocker ConvAnswer.

Module Surroundings.

#[export] Instance list_order : RangeOrder := map_to_list.
#[export] Instance cache_order : CacheOrder := map_to_list.
#[export] Instance all_print : Unicode := fun _ => true.
#[export] Instance ascii_tables : UnicodeTables := {| wide_letter := fun _ => false; wide_digit := fun _ => false |}.
#[export] Instance always_quote : ShellEscape := fun s => "'" +:+ escapeShellSingleQuotes s +:+ "'".

#[export] Instance plain_platforms : Platforms := {|
  platforms_Parse := fun s => Ok (mkSpec s "linux" "" [] "");
  Normalize := fun p => p;
  Format := fun p => Architecture p;
  DefaultSpec := mkSpec "amd64" "linux" "" [] "" |}.

#[export] Instance plain_names : ImageNames := {|
  Named := string;
  ParseNormalizedNamed := Ok;
  TagNameOnly := id;
  WaitBlock.Tag := fun _ => None;
  Named_String := id;
  WithTag := fun n t => Ok (n +:+ ":" +:+ t);
  FamiliarString := id |}.

(** ** States *)

(** What is described by the first state that is not empty. *)
Fixpoint state_dir (s : State) : string :=
  match s with
  | SDir d s => if IsAbs d then d else path_Join [state_dir s; d]
  | SPlatform _ s | SUser _ s | SEnv _ _ s | SHost _ _ s | SFile _ s | SRun _ s | SExecMount _ _ _ s | SMerge (s :: _) => state_dir s
  | _ => "/"
  end.

Fixpoint state_env (s : State) (k : string) : option string :=
  match s with
  | SEnv k' v s => if String.eqb k k' then Some v else state_env s k
  | SPlatform _ s | SUser _ s | SDir _ s | SHost _ _ s | SFile _ s | SRun _ s | SExecMount _ _ _ s | SMerge (s :: _) => state_env s k
  | _ => None
  end.

Fixpoint state_empty (s : State) : bool :=
  match s with
  | SScratch => true
  | SPlatform _ s | SUser _ s | SDir _ s | SEnv _ _ s | SHost _ _ s => state_empty s
  | _ => false
  end.

#[export] Instance described : LLB := {|
  GetDir := fun s => Ok (state_dir s); GetEnv := state_env; is_scratch := state_empty |}.

#[export] Instance state_laws : LLBLaws.
Proof.
  split; try (by intros; split); try (by intros).
  - intros d s Hd. simpl. by rewrite Hd.
  - intros d s prev Hd [= <-] _. simpl. by rewrite Hd.
Qed.

(** ** The rest *)

Definition sample_target : Reference := mkRef KTarget "" "" "." "" "build".

#[export] Instance bare_world : Outside := {|
  ConvBuild.HOME := "/root";
  Getwd := "/work";
  Earthfile2LLB := fun _ _ w => (w, Fail "no Earthfile");
  ResolveImageConfig := fun name _ => Ok (mkImageConfig name "" (Ok NewImage));
  WithDigest := fun n d => Ok n;
  ResolveContext := fun _ _ => Err "no build context";
  Ref := unit;
  StateToRef := fun _ _ => Ok (Some tt);
  ReadFile := fun _ _ => Ok "0";
  ReadDir := fun _ _ => Ok tt;
  os_ReadFile := fun _ => Err "no such file";
  DirExists := fun _ => Ok true;
  Dockerfile2LLB := fun _ _ _ _ _ => Ok (SScratch, NewImage);
  run_tasks := fun _ _ w => (w, Ret tt) |}.

#[export] Instance no_wildcards : Wildcards := {|
  ExpandWildcard := fun _ _ _ => Ok []; target_names := fun _ => []; earthfile_not_exist := fun _ => true |}.

#[export] Instance run_env : RunEnv := {|
  exec_mount_sock := CapSupported;
  getDebuggerSecretKey := fun _ => "key";
  debugger_settings := fun _ _ => "{}";
  new_uuid := "uuid";
  RunOnLocalHostMagicStr := "run";
  CopyFileMagicStr := "copy";
  SendFileMagicStr := "send";
  oidc_params := fun _ => [];
  temp_dir := fun n => Ok ("/tmp/" +:+ n);
  sha256_hex := fun s => s;
  docker_ProcessWord := fun w _ => Ok w |}.

#[export] Instance file_hash : FileHash := {| sha1_hex := fun s => s; GetInodeBestEffort := fun _ => 0%Z |}.

#[export] Instance docker_env : DockerEnv := {|
  parse_compose := fun _ => Ok [];
  input_digest := fun s => s;
  SolveImageTar := fun _ _ _ _ => Ok tt;
  tar_GetID := fun _ => Ok "id";
  SolveImages_ := fun _ => Ok [];
  ImageLoadFromFileCommand := fun f => "docker load < " +:+ f;
  ImagePull := fun _ => Ok tt;
  ImageTag_ := fun _ _ => Ok tt;
  ParallelConversion := false;
  LocalRegistryAddr := "localhost:5000" |}.

#[export] Instance services : Services := {|
  ConvertCloneURL := fun u => Ok (u, "");
  go_build := fun _ _ w => w;
  skipper_ready := false;
  NoAutoSkip := false;
  HashTarget := fun _ _ => Ok "";
  skip_Exists := fun _ => Ok false;
  skip_Add := fun _ _ => 1;
  no_skip_fn := 0;
  ctx_Ref := fun _ => sample_target;
  ctx_Functions := fun _ => [];
  ctx_UseFunctionKeyword := fun _ => false |}.

(** ** A converter *)

Definition sample_resolver : Plat.Resolver := Plat.NewResolver (mkSpec "amd64" "linux" "" [] "").

Definition sample_opt : ConvertOpt :=
  mkOpt NewScope ∅ sample_resolver None "" "" None false false true true false false false false false false false false false "session".

Definition sample_world : World := mkWorld (mkStore ∅ ∅) ∅ [] [] [] ∅ ∅ ∅.

(** A new converter for the features [l]. *)
Definition sample_conv (l : list string) : Conv :=
  NewConverter sample_target NewScope (mkFeatures (list_to_set l) 0 8) "/work/Earthfile" (Local_ "context" [])
    (new_sts "id" sample_target sample_resolver (mkTargetInput "+build" "amd64" None false)) sample_opt 0 sample_world.

(** ... after FROM alpine. *)
Definition sample_based (l : list string) : Conv :=
  fst (From process_expression "alpine" Plat.DefaultPlatform false false [] (sample_conv l)).

(** The options of a command. *)
Definition sample_run (args : list string) (push transient : bool) : ConvertRunOpts :=
  mkConvertRunOpts "RUN" args false [] [] true false false false push false false false false [] false None false transient.

End Surroundings.
