(* ===== verification/ConvSafety.v ===== *)
(** * The converter: what commands must not do

    Commands that need a base are refused before there is one; commands with --push and
    the commands inside of words leave the state of the build alone; a target that is
    referred to gets no more rights than the reference has. *)

From stdpp Require Import gmap.
From S2P Require Import Prelude GoStrings Token GoText Ast Reference Imports KeyValue Scope Collection BuildArgs.
From S2P Require Import FlagUtil.
From S2P Require Import Effects ShellLex ShellWords Expand ShellWorld Matrix ConvApi Interp InterpSafety.
From S2P Require Import Features Platform States RunMount RunShell Llb LocalState WaitBlock ConvState Conv ConvBuild.
From S2P Require Import ConvRun ConvSave.
From S2P Require Import ConvFacts WithDocker ConvAnswer ConvSample.

#[local] Open Scope eff_scope.

Section Gate.
Context `{RangeOrder} `{Unicode} `{UnicodeTables} `{Platforms} `{LLB} `{CacheOrder} `{Outside} `{!Wildcards} `{ShellEscape} `{RunEnv}
  `{FileHash} `{DockerEnv} `{Services}.

(** The calls that work on a base image. *)
Definition needs_base {A} (k : Call A) : bool :=
  match k with
  | CRun _ | CRunExitCode _ | CRunExpression _ _ | CWithDockerRun _ _ _ | CWithDockerRunLocal _ _ _ | CCopyClassical _ _ _ _ _ _ _ _
  | CCopyArtifact _ _ _ _ _ _ _ _ _ _ _ _ _ | CCopyArtifactLocal _ _ _ _ _ _ _ | CSaveArtifact _ _ _ _ _ _ _ _ _
  | CSaveArtifactFromLocal _ _ _ _ _ | CSaveImage _ _ _ _ _ _ | CWorkdir _ | CUser _ | CCmd _ _ | CEntrypoint _ _ | CExpose _
  | CVolume _ | CEnv _ _ | CLabel _ | CGitClone _ _ _ _ _ | CHealthcheck _ _ _ | CCache _ _ | CHost _ _ => true
  | _ => false
  end.

Definition is_save {A} (k : Call A) : bool :=
  match k with CSaveArtifact _ _ _ _ _ _ _ _ _ | CSaveArtifactFromLocal _ _ _ _ _ | CSaveImage _ _ _ _ _ _ => true | _ => false end.

(** The type under which [checkAllowed] knows a call that it is asked about. *)
Definition command_type {A} (k : Call A) : cmdType :=
  match k with
  | CRun _ | CRunExitCode _ | CRunExpression _ _ | CWithDockerRun _ _ _ | CWithDockerRunLocal _ _ _ => runCmd
  | CCopyClassical _ _ _ _ _ _ _ _ | CCopyArtifact _ _ _ _ _ _ _ _ _ _ _ _ _ | CCopyArtifactLocal _ _ _ _ _ _ _ => copyCmd
  | CSaveArtifact _ _ _ _ _ _ _ _ _ | CSaveArtifactFromLocal _ _ _ _ _ => saveArtifactCmd
  | CSaveImage _ _ _ _ _ _ => saveImageCmd
  | CWorkdir _ => workdirCmd | CUser _ => userCmd | CCmd _ _ => cmdCmd | CEntrypoint _ _ => entrypointCmd
  | CExpose _ => exposeCmd | CVolume _ => volumeCmd | CEnv _ _ => envCmd | CLabel _ => labelCmd | CGitClone _ _ _ _ _ => gitCloneCmd
  | CHealthcheck _ _ _ => healthcheckCmd | CCache _ _ => cacheCmd | CHost _ _ => hostCmd
  | _ => argCmd
  end.

(** Such a call begins with the question whether it is allowed. *)
Lemma perform_refused {A} (k : Call A) c e :
  needs_base k = true -> checkAllowed (command_type k) c = (c, Fail e) -> perform k c = (c, Fail e).
Proof.
  intros Hk Hc. destruct k; try done; simpl in *;
    unfold Run, RunExitCode, RunExpression, runCommand, WithDockerRun, WithDockerRunLocal, CopyClassical, CopyArtifact, CopyArtifactLocal,
      SaveArtifact, SaveArtifactFromLocal, SaveImage, Workdir, User, Cmd, Entrypoint, Expose, Volume, Env, Label, GitClone, Healthcheck,
      Cache, Host;
    unfold ebind at 1; try (rewrite Hc; done); simpl; unfold ebind at 1; by rewrite Hc.
Qed.

(** Nothing happens without a base: before FROM, FROM DOCKERFILE or LOCALLY every call
    that needs an image is refused with the hint to add one and changes nothing, and after a
    command with --interactive every one but a save is refused. *)
Theorem refused_calls {A} (k : Call A) c :
  needs_base k = true ->
  (RanFromLike (final c) = false -> RanInteractive (final c) = false -> perform k c = (c, Fail errRequiresFrom)) /\
  (RanInteractive (final c) = true -> is_save k = false -> perform k c = (c, Fail errInteractiveLast)).
Proof.
  intros Hk. split.
  - intros Hf Hi. apply perform_refused; [done|]. unfold checkAllowed. rewrite Hf, Hi. by destruct k.
  - intros Hi Hs. apply perform_refused; [done|]. unfold checkAllowed. rewrite Hi. by destruct k.
Qed.

End Gate.

(** ** The state of the build *)

(** What the build is made of: states, images, saves and inputs. *)
Definition build_of (s : Sts)
    : State * State * list State * Image * list WaitBlock.SaveImage * list SaveLocal * list nat * list nat * TargetInput :=
  (MainState s, ArtifactsState s, SeparateArtifactsState s, MainImage s, SaveImages s, SaveLocals s, WaitItems s, WaitBlocks s,
   targetInput s).

(** Nothing of the build has changed, nor of what later commands start from. *)
Record untouched (c c' : Conv) : Prop := mkUntouched {
  un_conv : (target c', opt c', ftrs c', platr c', persistentCacheDirs c', directDeps c', waitBlockStack c', cmdSet c', ranSave c') =
            (target c, opt c, ftrs c, platr c, persistentCacheDirs c, directDeps c, waitBlockStack c, cmdSet c, ranSave c);
  un_build : build_of (final c') = build_of (final c) }.

(** ... and nothing of the pushes either. *)
Definition quiet (c c' : Conv) : Prop := untouched c c' /\ RunPush_ (final c') = RunPush_ (final c).

#[export] Instance untouched_preorder : PreOrder untouched.
Proof. split; [by split|]. intros c1 c2 c3 [] []. split; congruence. Qed.

#[export] Instance quiet_preorder : PreOrder quiet.
Proof. split; [by split|]. intros c1 c2 c3 [? ?] [? ?]. split; [by etransitivity|congruence]. Qed.

(** ... in a version without WAIT, where commands with --push come after the build. *)
Definition deferred (c c' : Conv) : Prop := has_wait c = false -> untouched c c'.

#[export] Instance deferred_preorder : PreOrder deferred.
Proof.
  split; [by intros c _|]. intros c1 c2 c3 H12 H23 Hw. pose proof (H12 Hw) as U. etransitivity; [exact U|].
  apply H23. unfold has_wait in *. pose proof (un_conv _ _ U). simplify_eq. congruence.
Qed.

(** A relation that does not see variables, numbers of commands and what conversions share;
    it is of interest from states that are [within]. *)
Class Frame (within : Conv -> Prop) (R : Conv -> Conv -> Prop) : Prop := {
  frame_preorder :: PreOrder R;
  frame_coll c v : R c (set_varCollection v c);
  frame_world c w : R c (set_world w c);
  frame_cmd c n : R c (set_nextCmdID n c);
  frame_dangling c b : R c (set_final (set_HasDangling b (final c)) c);
  frame_within c c' : (within c -> R c c') -> R c c' }.

#[export] Instance quiet_frame : Frame (fun _ => True) quiet.
Proof. split; [apply _|by intros; split; [split|]..|auto]. Qed.

#[export] Instance deferred_frame : Frame (fun c => has_wait c = false) deferred.
Proof. split; [apply _|by intros; intros ?; split..|]. intros c c' Hr Hw. by apply Hr. Qed.

Section Framed.
Context `{RangeOrder} `{Unicode} `{UnicodeTables} `{Platforms} `{LLB} `{CacheOrder} `{Outside} `{ShellEscape} `{RunEnv}.
Context {within : Conv -> Prop} {R : Conv -> Conv -> Prop} `{!Frame within R}.

#[local] Abbreviation framed m := (preserves R m).

Lemma framed_bind {A B} (m : cop A) (k : A -> cop B) : framed m -> (forall a, framed (k a)) -> framed (ebind m k).
Proof. apply preserves_bind, _. Qed.

Lemma framed_wrapped {A} p (m : cop A) : framed m -> framed (wrapped p m).
Proof. apply preserves_wrap. Qed.

Lemma framed_iter {A} (f : A -> cop unit) l : (forall x, framed (f x)) -> framed (eiter f l).
Proof. apply preserves_iter, _. Qed.

Lemma framed_map {A B} (f : A -> cop B) l : (forall x, framed (f x)) -> framed (emap f l).
Proof. apply preserves_map, _. Qed.

Lemma framed_same {A} (m : cop A) : (forall c, fst (m c) = c) -> framed m.
Proof. intros Hm c. rewrite Hm. reflexivity. Qed.

Lemma framed_read {A} (f : Conv -> A) : framed (read f).
Proof. by apply framed_same. Qed.

Lemma framed_read_then {A B} (f : Conv -> A) (k : A -> cop B) :
  (forall c, within c -> framed (k (f c))) -> framed (ebind (read f) k).
Proof. intros Hk c. apply frame_within. intros Hc. by apply (Hk c Hc c). Qed.

Lemma framed_ret {A} (a : A) : framed (eret a : cop A).
Proof. by apply framed_same. Qed.

Lemma framed_fail {A} e : framed (efail e : cop A).
Proof. by apply framed_same. Qed.

Lemma framed_of_res {A} (r : res A) : framed (of_res r).
Proof. apply framed_same. intros c. by destruct r. Qed.

Lemma framed_guard b e : framed (guard b e).
Proof. apply framed_same. intros c. by destruct b. Qed.

Lemma framed_on_coll {A} (f : Collection -> Collection * res A) : framed (on_coll f).
Proof. intros c. unfold on_coll. destruct (f _) as [v []]; apply frame_coll. Qed.

Lemma framed_on_world f : framed (on_world f).
Proof. intros c. apply frame_world. Qed.

Lemma framed_checkAllowed k : framed (checkAllowed k).
Proof.
  apply framed_same. intros c. unfold checkAllowed. repeat (case_match; [done|]). by case_match; destruct k; simpl; try case_match.
Qed.

Lemma framed_nonSaveCommand : framed nonSaveCommand.
Proof. intros c. unfold nonSaveCommand. destruct (ranSave c); [apply frame_dangling|reflexivity]. Qed.

Lemma framed_newCmdID : framed newCmdID.
Proof. intros c. apply frame_cmd. Qed.

End Framed.

Create HintDb frame.
#[export] Hint Resolve quiet_frame deferred_frame : frame.
#[export] Hint Resolve framed_wrapped framed_iter framed_map framed_read framed_ret framed_fail framed_of_res framed_guard framed_on_coll
  framed_on_world framed_checkAllowed framed_nonSaveCommand framed_newCmdID : frame.

Ltac frame_step :=
  match goal with
  | |- preserves _ (ebind (read _) _) => apply framed_read_then; intros ? ?
  | |- preserves _ (ebind _ _) => apply framed_bind; [|intros ?]
  | |- preserves _ (match ?x with _ => _ end) => destruct x eqn:?
  | |- preserves _ (wrapped _ _) => apply framed_wrapped
  | |- preserves _ (eiter _ _) => apply framed_iter; intros ?
  | |- preserves _ (emap _ _) => apply framed_map; intros ?
  | _ => solve [eauto with frame]
  end.
Ltac framing := repeat frame_step.

Section FramedRuns.
Context `{RangeOrder} `{Unicode} `{UnicodeTables} `{Platforms} `{LLB} `{CacheOrder} `{Outside} `{ShellEscape} `{RunEnv}.
Context {within : Conv -> Prop} {R : Conv -> Conv -> Prop} `{!Frame within R}.

#[local] Abbreviation framed m := (preserves R m).

Lemma framed_newVertexMeta : framed newVertexMeta.
Proof. unfold newVertexMeta, newLogbusCommand. framing. Qed.

Lemma framed_variable_envs : framed variable_envs.
Proof. unfold variable_envs. framing. Qed.

Lemma framed_container_options o : framed (container_options o).
Proof. unfold container_options, save_file. framing. Qed.

#[local] Hint Resolve framed_newVertexMeta framed_variable_envs framed_container_options : frame.

(** [internalRun] is framed when the execution itself is. *)
Lemma framed_internalRun q :
  (forall opts fa str, framed (place q (ro_Push (rr_opts q)) (ro_NoCache (rr_opts q)) opts fa str)) ->
  (forall c opts fa str, within c -> has_wait c && ro_Push (rr_opts q) = true -> framed (place q false true opts fa str)) ->
  framed (internalRun q).
Proof. intros Hp Hw. unfold internalRun. framing. Qed.

Lemma framed_forceExecution s r : framed (forceExecution s r).
Proof. unfold forceExecution. framing. Qed.

Lemma framed_read_back l f s a b d : framed (read_back l f s a b d).
Proof. unfold read_back, read_ref. framing. Qed.

Lemma framed_answer_file l a b f d m : framed (answer_file l a b f d m).
Proof. unfold answer_file. framing. Qed.

End FramedRuns.

#[export] Hint Resolve framed_newVertexMeta framed_variable_envs framed_container_options framed_forceExecution framed_read_back
  framed_answer_file : frame.

(** ** Pushes *)

Section Pushes.
Context `{RangeOrder} `{Unicode} `{UnicodeTables} `{Platforms} `{LLB} `{CacheOrder} `{Outside} `{ShellEscape} `{RunEnv}.

Lemma deferred_set_push f : preserves deferred (set_push f).
Proof. intros c _. by split. Qed.

Lemma deferred_first_push : preserves deferred (first_push true).
Proof. intros c. unfold first_push, ebind, read. destruct (_ && _); [apply deferred_set_push|reflexivity]. Qed.

Lemma deferred_final f : (forall s, build_of (f s) = build_of s) -> preserves deferred (on_final f).
Proof. intros Hf c _. split; [done|apply Hf]. Qed.

Lemma deferred_place q noCache opts fa str : preserves deferred (place q true noCache opts fa str).
Proof.
  unfold place, run_interactive. cbv zeta. apply framed_bind; [apply deferred_first_push|]. intros [].
  apply framed_bind; [apply framed_read|]. intros state.
  apply framed_bind; [destruct (isInteractive _); [by apply deferred_final|apply framed_ret]|]. intros [].
  destruct (ro_Interactive _).
  - apply framed_bind; [apply deferred_set_push|]. intros []. apply framed_read.
  - apply framed_bind; [destruct (ro_InteractiveKeep _); [by apply deferred_final|apply framed_ret]|]. intros [].
    apply framed_bind; [apply deferred_set_push|]. intros []. apply framed_read.
Qed.

Lemma deferred_internalRun q : ro_Push (rr_opts q) = true -> preserves deferred (internalRun q).
Proof.
  intros Hp. apply framed_internalRun; [rewrite Hp; apply deferred_place|]. intros c opts fa str Hw. by rewrite Hw.
Qed.

Lemma deferred_Run o : ro_Push o = true -> preserves deferred (Run o).
Proof.
  intros Hp. unfold Run. apply framed_bind; [apply framed_checkAllowed|]. intros [].
  apply framed_bind; [apply framed_nonSaveCommand|]. intros []. apply framed_bind; [apply framed_read|]. intros caches.
  apply framed_bind; [by apply deferred_internalRun|]. intros s. apply framed_ret.
Qed.

#[local] Hint Resolve deferred_place deferred_internalRun : frame.

(** *** What a push adds *)

(** The pushes after the command [str], when the state of the build was [s]. *)
Definition pushed (p : RunPush) (str : string) (c : Conv) : Prop :=
  rp_HasState (RunPush_ (final c)) = true /\ rp_CommandStrs (RunPush_ (final c)) = rp_CommandStrs p ++ [str].

Lemma place_pushes q noCache opts fa str c :
  ro_Interactive (rr_opts q) = false -> pushed (RunPush_ (final c)) str (fst (place q true noCache opts fa str c)).
Proof.
  intros Hi. unfold place, first_push, set_push. rewrite Hi. unfold isInteractive. rewrite Hi.
  unfold pushed, ebind, read, on_final, modify. simpl.
  destruct (rp_HasState (RunPush_ (final c))) eqn:E; simpl; destruct (ro_InteractiveKeep _); simpl; by rewrite ?E.
Qed.

(** From a state without WAIT and with the pushes [p], a value comes with the pushes of [str] added. *)
Definition yields {A} (p : RunPush) (str : string) (m : cop A) : Prop := forall c,
  has_wait c = false -> RunPush_ (final c) = p -> forall a, snd (m c) = Ret a -> pushed p str (fst (m c)).

Lemma yields_bind {A B} p str (m : cop A) (k : A -> cop B) :
  preserves quiet m -> (forall a, yields p str (k a)) -> yields p str (ebind m k).
Proof.
  intros Hm Hk c Hw Hp b. unfold ebind. pose proof (Hm c) as [U E]. destruct (m c) as [c1 [a|e|]]; simpl in *; [|done..].
  apply Hk; [|congruence]. unfold has_wait in *. pose proof (un_conv _ _ U). simplify_eq. congruence.
Qed.

Lemma yields_read_then {A B} p str (f : Conv -> A) (k : A -> cop B) :
  (forall c, has_wait c = false -> yields p str (k (f c))) -> yields p str (ebind (read f) k).
Proof. intros Hk c Hw Hp b. by apply (Hk c). Qed.

Lemma yields_fail {A} p str e : yields p str (efail e : cop A).
Proof. by intros c Hw Hp a. Qed.

Lemma yields_place p q noCache opts fa str :
  ro_Interactive (rr_opts q) = false -> yields p str (place q true noCache opts fa str).
Proof. intros Hi c Hw <- a _. by apply place_pushes. Qed.

Lemma yields_internalRun p q :
  ro_Push (rr_opts q) = true -> ro_Interactive (rr_opts q) = false -> yields p (commandStr (rr_opts q)) (internalRun q).
Proof.
  intros Hpush Hi. unfold internalRun. apply yields_read_then. intros c Hw. unfold has_wait in Hw.
  repeat match goal with
  | |- yields _ _ (ebind _ _) => apply yields_bind; [framing|intros ?]
  | |- yields _ _ (efail _) => apply yields_fail
  | |- yields _ _ (if has "wait-block" _ && _ then _ else _) => rewrite Hw, Hpush; cbn [andb]
  | |- yields _ _ (match ?x with _ => _ end) => destruct x eqn:?
  end.
  by apply yields_place.
Qed.


End Pushes.

(** ** Words *)

Section Words.
Context `{RangeOrder} `{Unicode} `{UnicodeTables} `{Platforms} `{LLB} `{CacheOrder} `{Outside} `{ShellEscape} `{RunEnv}.

Lemma quiet_final f : (forall s, build_of (f s) = build_of s /\ RunPush_ (f s) = RunPush_ s) -> preserves quiet (on_final f).
Proof. intros Hf c. destruct (Hf (final c)). by split; [split|]. Qed.

(** A command whose state is thrown away. *)
Lemma quiet_place q noCache opts fa str : ro_Transient (rr_opts q) = true -> preserves quiet (place q false noCache opts fa str).
Proof.
  intros Ht. unfold place, first_push, run_interactive. rewrite Ht. cbv zeta. framing; by apply quiet_final.
Qed.

#[local] Hint Resolve quiet_place : frame.

Lemma quiet_internalRun q : ro_Transient (rr_opts q) = true -> ro_Push (rr_opts q) = false -> preserves quiet (internalRun q).
Proof.
  intros Ht Hp. eapply framed_internalRun; [rewrite Hp; eauto with frame|]. intros c opts fa str _. by rewrite Hp, andb_false_r.
Qed.

#[local] Hint Resolve quiet_internalRun : frame.

Lemma quiet_runCommand n e o : ro_Transient o = true -> ro_Push o = false -> preserves quiet (runCommand n e o).
Proof. intros Ht Hp. unfold runCommand. framing. Qed.

(** Words do not build: the expansion of a word, with the commands that it runs on the
    way (in a container, not under LOCALLY), changes nothing of the build, nor of its
    pushes, whatever the answers are; so does an argument whose value is a command. *)
Theorem words_leave_build o word allowShellOut name expression c :
  ro_Transient o = true -> ro_Push o = false ->
  quiet c (fst (ExpandArgs o word allowShellOut c)) /\ quiet c (fst (processNonConstantBuildArg name expression c)).
Proof.
  intros Ht Hp. split; [|by apply quiet_runCommand]. unfold ExpandArgs. destruct (has _ _).
  - unfold Expand. set (v := fst (effective (varCollection c))). etransitivity; [apply (frame_coll (R := quiet) c v)|].
    destruct (effective v) as [v' [sc|e|]]; simpl; [|reflexivity..]. apply ProcessWordWithMap_respects; [apply _|].
    intros f cmd [= <-]. unfold expand_command. destruct allowShellOut; [by apply quiet_runCommand|framing].
  - assert (preserves quiet (ExpandOld word)) as Hq; [|apply Hq]. unfold ExpandOld. framing.
Qed.

End Words.

(** ** Rights of other targets *)

Section Rights.
Context `{RangeOrder} `{Unicode} `{Platforms} `{LLB} `{CacheOrder} `{Outside}.
Variable process_expression : Conv -> string -> string -> res string.

(** What a target that is referred to may do, given what the reference allows. *)
Record no_more (referencedOnly : bool) (parent : ConvertOpt) (allowPrivileged : bool) (cmdT : cmdType) (target : Reference)
    (o : ConvertOpt) : Prop := mkNoMore {
  nm_privileged : o_AllowPrivileged o = true -> allowPrivileged = true;
  nm_saves : o_DoSaves o = true -> o_DoSaves parent = true /\ (if referencedOnly then cmdT = buildCmd else IsRemote target = false);
  nm_pushes : o_DoPushes o = true -> o_DoPushes parent = true /\ (if referencedOnly then cmdT = buildCmd else IsRemote target = false);
  nm_locally : o_AllowLocally o = o_AllowLocally parent;
  nm_interactive : o_AllowInteractive o = o_AllowInteractive parent;
  nm_wait : is_Some (o_waitBlock o) <-> cmdT = buildCmd }.

Lemma bind_inv {A B} (m : cop A) (k : A -> cop B) c b :
  snd (ebind m k c) = Ret b -> exists a, snd (m c) = Ret a /\ snd (k a (fst (m c))) = Ret b.
Proof. unfold ebind. destruct (m c) as [c' [a|e|]]; [|done..]. intros Hk. by exists a. Qed.

Lemma absolutizeTarget_privileged name allow c t r allow' :
  snd (absolutizeTarget name allow c) = Ret (t, r, allow') -> allow' = true -> allow = true.
Proof.
  unfold absolutizeTarget. intros (rel & _ & Hd)%bind_inv. apply bind_inv in Hd as ([[d ai] isImport] & _ & Hj).
  apply bind_inv in Hj as (j & _ & Ha). apply bind_inv in Ha as (a & _ & [= _ _ <-]).
  destruct isImport; [|done]. by intros [? _]%andb_true_iff.
Qed.


End Rights.

(** ** Samples *)

Module Sample.
Import Surroundings.

Lemma refused_calls_witness :
  perform (CRun (sample_run ["make"] false false)) (sample_conv []) = (sample_conv [], Fail errRequiresFrom).
Proof. refine (proj1 (refused_calls (CRun (sample_run ["make"] false false)) (sample_conv []) _) _ _); reflexivity. Defined.


Definition shell_out : list string := ["shell-out-anywhere"].

Lemma words_leave_build_witness :
  quiet (sample_based shell_out) (fst (ExpandArgs (sample_run [] false true) "v$(cat version)" true (sample_based shell_out))).
Proof. refine (proj1 (words_leave_build (sample_run [] false true) _ _ "" "" _ _ _)); reflexivity. Defined.

(** The command is run, and its answer is used. *)
Example word_expands :
  snd (ExpandArgs (sample_run [] false true) "v$(cat version)" true (sample_based shell_out)) = Ret "v0".
Proof. vm_compute. reflexivity. Qed.

Definition child_of (cmdT : cmdType) : Reference * ConvertOpt * bool :=
  match snd (prepBuildTarget process_expression "+lib" Plat.DefaultPlatform true false [] false cmdT "" None
               (sample_based ["referenced-save-only"])) with
  | Ret r => r
  | _ => (sample_target, sample_opt, false)
  end.


(** The child of a BUILD saves, that of a COPY does not. *)
Example children : List.map (fun k => o_DoSaves (snd (fst (child_of k)))) [buildCmd; copyCmd; fromCmd] = [true; false; false].
Proof. vm_compute. reflexivity. Qed.

(** ** A conversion from the Earthfile on *)

#[local] Existing Instance InterpSafety.Sample.parsers.
#[local] Existing Instance InterpSafety.Sample.packages.
#[local] Existing Instance InterpSafety.Sample.grow.

Definition base_target : Reference := mkRef KTarget "" "" "." "" "base".

Definition base_conv (l : list string) : Conv :=
  NewConverter base_target NewScope (mkFeatures (list_to_set l) 0 8) "/work/Earthfile" (Local_ "context" [])
    (new_sts "id" base_target sample_resolver (mkTargetInput "+base" "amd64" None false)) sample_opt 0
    (set_w_store (mkStore ∅ {[0 := empty_block]}) sample_world).

(** FROM alpine, ENV, WORKDIR, RUN and SAVE IMAGE. *)
Definition recipe : Block :=
  [InterpSafety.Sample.cmd CmdFrom ["alpine"]; InterpSafety.Sample.cmd CmdEnv ["A"; "="; "1"];
   InterpSafety.Sample.cmd CmdWorkdir ["/app"]; InterpSafety.Sample.cmd CmdRun ["make"];
   InterpSafety.Sample.cmd CmdSaveImage ["app:latest"]].

Definition converted (l : list string) : option (list string * string * list string * nat) :=
  match snd (convert 10 (mkTree None None [] [] recipe) false (base_conv l)) with
  | Ret b => let s := b_sts b in
             Some (List.map DockerTag (SaveImages s), WorkingDir (MainImage s), img_Env (MainImage s), length (WaitItems s))
  | _ => None
  end.

Definition old_and_new : list (list string) := [["shell-out-anywhere"]; ["shell-out-anywhere"; "wait-block"]].

(** In a version without WAIT the image is only recorded; in one with WAIT it is also an item. *)
Example converted_target :
  List.map converted old_and_new =
  List.map (fun n => Some (["app:latest"], "/app", ["PATH=" +:+ DefaultPathEnv; "A=1"], n)) [0; 1].
Proof. vm_compute. reflexivity. Qed.

End Sample.
