(* ===== verification/ConvEnv.v ===== *)
(** * The converter: the environment of processes

    ENV is written twice: into the state that BuildKit executes, and into the variables
    of the target.  After any sequence of commands that succeed the two agree, so a process
    sees the values that the converter believes it sees.  Copies that are merged
    (use-copy-link) are left out: on an empty base such a copy starts from a new state. *)

From stdpp Require Import gmap sorting.
From S2P Require Import Prelude GoStrings Token GoText Ast Reference Imports KeyValue Scope Collection BuildArgs.
From S2P Require Import FlagUtil.
From S2P Require Import Effects ShellLex ShellWords Expand ShellWorld ConvApi Features Platform States RunMount.
From S2P Require Import RunShell Llb LocalState WaitBlock.
From S2P Require Import ConvState Conv ConvBuild ConvRun ConvSave ConvFacts WithDocker ConvAnswer ConvSample.

#[local] Open Scope eff_scope.

#[local] Abbreviation Get := Scope.Get.
#[local] Abbreviation Add := Scope.Add.
#[local] Abbreviation Sorted := Scope.Sorted.
#[local] Abbreviation envs := Collection.envs.

(** ** Variables *)

Lemma Get_Add_value k v s k' :
  Get (snd (Add k v [WithActive] s)) k' [WithActive] = if String.eqb k' k then Some v else Get s k' [WithActive].
Proof.
  unfold Scope.Get, Scope.Add, is_active. simpl. destruct (String.eqb_spec k' k) as [->|Hne].
  - by rewrite !lookup_insert_eq.
  - by rewrite !lookup_insert_ne.
Qed.

Lemma scope_wf_ParseEnvVars l : scope_wf (ParseEnvVars l).
Proof.
  unfold ParseEnvVars. generalize NewScope, scope_wf_new. induction l as [|e l IH]; intros s Hs; cbn [env_loop]; [done|].
  destruct (ParseKeyValue e) as [[k v] ok]. by apply IH, scope_wf_Add.
Qed.

Lemma elem_of_Sorted s k : k ∈ Sorted s [WithActive] <-> is_Some (Get s k [WithActive]).
Proof.
  unfold Scope.Sorted. rewrite merge_sort_Permutation, <- Map_Get. split.
  - intros ([k' v] & -> & Hin)%list_elem_of_fmap. apply elem_of_map_to_list in Hin. by exists v.
  - intros [v Hv]. apply list_elem_of_fmap. exists (k, v). split; [done|]. by apply elem_of_map_to_list.
Qed.

(** Methods of a collection that leave the environment alone. *)
Definition same_envs {A} (f : Collection -> Collection * A) : Prop := forall v, envs (fst (f v)) = envs v.

Section Collections.
Context `{RangeOrder} `{Unicode}.

Lemma same_envs_effective : same_envs effective.
Proof. intros v. unfold effective. by repeat case_match. Qed.

Lemma same_envs_Get k opts : same_envs (Collection_Get k opts).
Proof. intros v. unfold Collection_Get. pose proof (same_envs_effective v). by destruct (effective v). Qed.

Lemma same_envs_SortedVariables opts : same_envs (SortedVariables opts).
Proof. intros v. unfold SortedVariables. pose proof (same_envs_effective v). by destruct (effective v). Qed.

Lemma same_envs_on_frame f : same_envs (on_frame f).
Proof. intros v. unfold on_frame. by case_match. Qed.

Lemma same_envs_on_imports {A} (f : ImportTracker -> ImportTracker * res A) : same_envs (on_imports f).
Proof. intros v. unfold on_imports. case_match; [|done]. by case_match. Qed.

Lemma same_envs_ExitFrame : same_envs ExitFrame.
Proof. intros v. unfold ExitFrame. by case_match. Qed.

Lemma same_envs_read_overriding : same_envs read_overriding.
Proof.
  intros v. unfold read_overriding. pose proof (same_envs_effective v). repeat case_match; [done..| |done]. by simplify_eq.
Qed.

Lemma same_envs_DeclareVar k p : same_envs (DeclareVar k p).
Proof.
  intros v. unfold DeclareVar, declareOldArg, declare_new. pose proof (same_envs_effective v) as He.
  destruct (effective v) as [v' ef]. simpl in He. repeat case_match; simplify_eq; done.
Qed.

Lemma same_envs_UpdateVar k x p : same_envs (UpdateVar k x p).
Proof.
  intros v. unfold UpdateVar. pose proof (same_envs_effective v) as He. destruct (effective v) as [v' ef]. simpl in He.
  repeat case_match; simplify_eq; done.
Qed.

Lemma same_envs_ParseArgs l p : same_envs (ParseArgs l p).
Proof.
  unfold ParseArgs. intros v. generalize NewScope. revert v. induction l as [|a l IH]; intros v s; simpl; [done|].
  assert (envs (fst (parseArg a p v)) = envs v) as Ha.
  { unfold parseArg. destruct (split_arg a) as [n [x|]]; [by case_match|]. pose proof (same_envs_Get n [WithActive] v) as Hg.
    by destruct (Collection_Get n [WithActive] v). }
  destruct (parseArg a p v) as [v' [[n x]|e|]]; simpl in *; [by rewrite IH|done..].
Qed.

End Collections.

#[export] Hint Resolve same_envs_effective same_envs_Get same_envs_SortedVariables same_envs_on_frame same_envs_on_imports
  same_envs_ExitFrame same_envs_read_overriding same_envs_DeclareVar same_envs_UpdateVar same_envs_ParseArgs : conv.

Create HintDb env.

(** ** Agreement *)

(** The state [s] has the variables of the scope [e]. *)
Definition agrees `{LLB} (s : State) (e : Scope) : Prop := scope_wf e /\ forall k, GetEnv s k = Get e k [WithActive].

Definition any {A} (a : A) : Prop := True.

#[export] Hint Extern 0 (any _) => exact I : core.

Section Agreement.
Context `{LLB}.

Definition env_agrees (c : Conv) : Prop := agrees (MainState (final c)) (envs (varCollection c)).

Definition env_inv (c : Conv) : Prop := copy_link c = false -> env_agrees c.

(** From a state that agrees, a value comes with one that agrees, and satisfies [Q]. *)
Definition keeps {A} (Q : A -> Prop) (m : cop A) : Prop := forall c a,
  env_inv c -> snd (m c) = Ret a -> env_inv (fst (m c)) /\ Q a.

Lemma keeps_bind {A B} (P : A -> Prop) (Q : B -> Prop) (m : cop A) (k : A -> cop B) :
  keeps P m -> (forall a, P a -> keeps Q (k a)) -> keeps Q (ebind m k).
Proof.
  intros Hm Hk c b Hc. unfold ebind. specialize (Hm c). destruct (m c) as [c1 [a|e|]]; simpl in *; [|done..].
  destruct (Hm a Hc eq_refl) as [Hc1 Ha]. by apply Hk.
Qed.

Lemma keeps_read_then {A B} (Q : B -> Prop) (f : Conv -> A) (k : A -> cop B) :
  (forall c, env_inv c -> keeps Q (k (f c))) -> keeps Q (ebind (read f) k).
Proof. intros Hk c b Hc. by apply (Hk c Hc c). Qed.

Lemma keeps_weaken {A} (Q : A -> Prop) (m : cop A) : keeps Q m -> keeps any m.
Proof. intros Hm c a Hc Ha. by destruct (Hm c a Hc Ha). Qed.

Lemma keeps_wrapped {A} (Q : A -> Prop) p (m : cop A) : keeps Q m -> keeps Q (wrapped p m).
Proof.
  intros Hm c a Hc. specialize (Hm c). unfold wrapped, ewrap. destruct (m c) as [c1 [b|e|]]; simpl in *; [|done..]. by apply Hm.
Qed.

Lemma keeps_ret {A} (Q : A -> Prop) a : Q a -> keeps Q (eret a).
Proof. by intros HQ c b Hc [= <-]. Qed.

Lemma keeps_fail {A} (Q : A -> Prop) e : keeps Q (efail e).
Proof. by intros c b Hc Hr. Qed.

Lemma keeps_stuck {A} (Q : A -> Prop) : keeps Q estuck.
Proof. by intros c b Hc Hr. Qed.

Lemma keeps_of_res {A} (r : res A) : keeps any (of_res r).
Proof. intros c b Hc Hr. split; [|done]. by destruct r. Qed.

Lemma keeps_iter {A} (f : A -> cop unit) l : (forall x, keeps any (f x)) -> keeps any (eiter f l).
Proof. intros Hf. induction l as [|x l IH]; simpl; [by apply keeps_ret|]. by eapply keeps_bind. Qed.

Lemma keeps_map {A B} (f : A -> cop B) l : (forall x, keeps any (f x)) -> keeps any (emap f l).
Proof.
  intros Hf. induction l as [|x l IH]; simpl; [by apply keeps_ret|].
  eapply keeps_bind; [done|]. intros y _. eapply keeps_bind; [done|]. intros ys _. by apply keeps_ret.
Qed.

(** What the agreement looks at. *)
Definition env_view (c : Conv) : Features.Features * State * Scope := (ftrs c, MainState (final c), envs (varCollection c)).

Lemma env_inv_view c c' : env_view c' = env_view c -> env_inv c -> env_inv c'.
Proof. unfold env_view, env_inv, env_agrees, copy_link. intros [= -> -> ->]. done. Qed.

Lemma keeps_view {A} (m : cop A) : (forall c, env_view (fst (m c)) = env_view c) -> keeps any m.
Proof. intros Hm c a Hc _. split; [|done]. exact (env_inv_view _ _ (Hm c) Hc). Qed.

Lemma keeps_read {A} (f : Conv -> A) : keeps any (read f).
Proof. by apply keeps_view. Qed.

Lemma keeps_guard b e : keeps any (guard b e).
Proof. apply keeps_view. intros c. by destruct b. Qed.

Lemma keeps_on_coll {A} (f : Collection -> Collection * res A) : same_envs f -> keeps any (on_coll f).
Proof.
  intros Hf. apply keeps_view. intros c. specialize (Hf (varCollection c)). unfold on_coll, env_view.
  destruct (f _) as [v []]; simpl in *; by rewrite Hf.
Qed.

Lemma keeps_on_coll' f : (forall v, envs (f v) = envs v) -> keeps any (on_coll' f).
Proof. intros Hf. apply keeps_view. intros c. unfold env_view. simpl. by rewrite Hf. Qed.

Lemma keeps_on_world f : keeps any (on_world f).
Proof. by apply keeps_view. Qed.

Lemma keeps_on_store {A} (f : Store -> Store * A) : keeps any (on_store f).
Proof. apply keeps_view. intros c. unfold on_store. by destruct (f _). Qed.

Lemma keeps_modify f : (forall c, env_view (f c) = env_view c) -> keeps any (modify f).
Proof. intros Hf. by apply keeps_view. Qed.

Lemma keeps_on_final f : (forall s, MainState (f s) = MainState s) -> keeps any (on_final f).
Proof. intros Hf. apply keeps_view. intros c. unfold env_view. simpl. by rewrite Hf. Qed.

Lemma keeps_on_image f : keeps any (on_image f).
Proof. by apply keeps_on_final. Qed.

(** A new state of the target with the variables of the old one. *)
Lemma keeps_on_state f : (forall s k, GetEnv (f s) k = GetEnv s k) -> keeps any (on_state f).
Proof.
  intros Hf c a Hc _. split; [|done]. intros Hl. destruct (Hc Hl) as [Hw He]. split; [done|]. intros k. simpl. by rewrite Hf.
Qed.

(** What is read does not change when the environment is not looked at. *)
Lemma keeps_same {A} (m : cop A) : (forall c, fst (m c) = c) -> keeps any m.
Proof. intros Hm. apply keeps_view. intros c. by rewrite Hm. Qed.

End Agreement.

#[export] Hint Resolve keeps_wrapped keeps_fail keeps_stuck keeps_of_res keeps_read keeps_guard keeps_on_coll keeps_on_world keeps_on_store
  keeps_on_image : env.

Ltac keep_step :=
  match goal with
  | |- keeps _ (ebind (read _) _) => apply keeps_read_then; intros ? ?; cbv beta
  | |- keeps _ (ebind _ _) => eapply (keeps_bind any); [|intros ? _]
  | |- keeps _ (match ?x with _ => _ end) => destruct x eqn:?
  | |- keeps _ (wrapped _ _) => apply keeps_wrapped
  | |- keeps any (eiter _ _) => apply keeps_iter; intros ?
  | |- keeps any (emap _ _) => apply keeps_map; intros ?
  | |- keeps _ (eret _) => apply keeps_ret; done
  | |- keeps any (on_coll _) => apply keeps_on_coll; solve [eauto with conv | intros ?; reflexivity]
  | |- keeps any (on_coll' _) => apply keeps_on_coll'; intros ?; reflexivity
  | |- keeps any (modify _) => apply keeps_modify; intros ?; reflexivity
  | |- keeps any (on_final _) => apply keeps_on_final; intros ?; reflexivity
  | _ => solve [eauto with env]
  end.
Ltac keeping := repeat keep_step.

(** ** Commands *)

Section Commands.
Context `{RangeOrder} `{Unicode} `{LLB} `{!LLBLaws}.

Lemma keeps_checkAllowed k : keeps any (checkAllowed k).
Proof.
  apply keeps_same. intros c. unfold checkAllowed. repeat (case_match; [done|]). by case_match; destruct k; simpl; try case_match.
Qed.

Lemma keeps_nonSaveCommand : keeps any nonSaveCommand.
Proof. apply keeps_view. intros c. unfold nonSaveCommand. by destruct (ranSave c). Qed.

Lemma keeps_newCmdID : keeps any newCmdID.
Proof. by apply keeps_view. Qed.

#[local] Hint Resolve keeps_checkAllowed keeps_nonSaveCommand keeps_newCmdID : env.

Lemma keeps_newLogbusCommand : keeps any newLogbusCommand.
Proof. unfold newLogbusCommand. keeping. Qed.

#[local] Hint Resolve keeps_newLogbusCommand : env.

Lemma keeps_newVertexMeta : keeps any newVertexMeta.
Proof. unfold newVertexMeta. keeping. Qed.

#[local] Hint Resolve keeps_newVertexMeta : env.

Lemma keeps_SUser u : keeps any (on_state (SUser u)).
Proof. apply keeps_on_state. intros s k. apply meta_user. Qed.

Lemma keeps_SHost h ip : keeps any (on_state (SHost h ip)).
Proof. apply keeps_on_state. intros s k. apply meta_host. Qed.

Lemma keeps_SDir d : keeps any (on_state (SDir d)).
Proof. apply keeps_on_state. intros s k. apply dir_env. Qed.

Lemma keeps_SFile a : keeps any (on_state (SFile a)).
Proof. apply keeps_on_state. intros s k. apply meta_file. Qed.

Lemma keeps_SRun o : keeps any (on_state (fun s => RunOn s o)).
Proof. apply keeps_on_state. intros s k. apply meta_run. Qed.

#[local] Hint Resolve keeps_SUser keeps_SHost keeps_SDir keeps_SFile keeps_SRun : env.

(** ENV sets the variable in both. *)
Lemma keeps_env_both k v : keeps any (on_coll' (DeclareEnv k v);;; on_state (SEnv k v)).
Proof.
  intros c a Hc _. split; [|done]. intros Hl. destruct (Hc Hl) as [Hw He]. simpl. split; [by apply scope_wf_Add|].
  intros k'. simpl. rewrite env_env, He. by rewrite <- Get_Add_value.
Qed.

Lemma bind_assoc {A B C} (m : cop A) (k : A -> cop B) (k' : B -> cop C) c :
  ebind m (fun a => ebind (k a) k') c = ebind (ebind m k) k' c.
Proof. unfold ebind. by destruct (m c) as [c1 [a|e|]]. Qed.

Lemma keeps_assoc {A B C} (Q : C -> Prop) (m : cop A) (k : A -> cop B) (k' : B -> cop C) :
  keeps Q (ebind (ebind m k) k') -> keeps Q (ebind m (fun a => ebind (k a) k')).
Proof. intros Hk c a. rewrite bind_assoc. apply Hk. Qed.

Lemma keeps_Env k v : keeps any (Env k v).
Proof.
  unfold Env. do 2 (eapply (keeps_bind any); [keeping|intros ? _]). apply keeps_assoc.
  eapply (keeps_bind any); [apply keeps_env_both|intros ? _]. keeping.
Qed.

Lemma keeps_pncvf pe : keeps any (pncvf pe).
Proof. unfold pncvf. keeping. Qed.

Lemma keeps_add_input k v d : keeps any (add_input k v d).
Proof. unfold add_input. keeping. Qed.

#[local] Hint Resolve keeps_pncvf keeps_add_input : env.

Lemma keeps_Workdir p : keeps any (Workdir p).
Proof. unfold Workdir. keeping. Qed.

Lemma keeps_Cache h t s m i p : keeps any (Cache h t s m i p).
Proof. unfold Cache. keeping. Qed.

Lemma keeps_checkOldPlatform `{Platforms} p : keeps any (checkOldPlatformIncompatibility p).
Proof. apply keeps_same. intros c. unfold checkOldPlatformIncompatibility. by repeat case_match. Qed.

Lemma keeps_setPlatform `{Platforms} p : keeps any (setPlatform p).
Proof. unfold setPlatform, set_platform_args. keeping. Qed.

Lemma keeps_Healthcheck n a i t p r q : keeps any (Healthcheck n a i t p r q).
Proof. unfold Healthcheck. keeping. Qed.

Lemma keeps_Import h i a g p f : keeps any (Import h i a g p f).
Proof. unfold Import. keeping. Qed.

Lemma keeps_Arg pe k d o : keeps any (Arg pe k d o).
Proof. unfold Arg. keeping. Qed.

Lemma keeps_Let k v : keeps any (Let k v).
Proof. unfold Let. keeping. Qed.

Lemma keeps_UpdateArg pe k v : keeps any (UpdateArg pe k v).
Proof. unfold UpdateArg. keeping. Qed.

(** The commands that only write a field of the image or of the variables. *)
Lemma keeps_plain :
  (forall u, keeps any (User u)) /\ (forall a b, keeps any (Cmd a b)) /\ (forall a b, keeps any (Entrypoint a b)) /\
  (forall l, keeps any (Expose l)) /\ (forall l, keeps any (Volume l)) /\ (forall l, keeps any (Label l)) /\
  (forall h i, keeps any (Host h i)) /\ (forall k v, keeps any (Conv.SetArg k v)) /\ (forall k, keeps any (Conv.UnsetArg k)) /\
  (forall o p, keeps any (Project o p)) /\ keeps any ExitScope.
Proof.
  unfold User, Cmd, Entrypoint, Expose, Volume, Label, Host, Conv.SetArg, Conv.UnsetArg, Project, ExitScope.
  split_and!; intros; keeping; apply keeps_on_coll; apply same_envs_on_frame.
Qed.

End Commands.

#[export] Hint Resolve keeps_checkAllowed keeps_nonSaveCommand keeps_newCmdID keeps_newLogbusCommand keeps_newVertexMeta keeps_SUser keeps_SHost
  keeps_SDir keeps_SFile keeps_SRun keeps_pncvf keeps_checkOldPlatform keeps_setPlatform : env.

(** ** Bases and other targets *)

(** A target that is done agrees, and the state that is made of a Dockerfile has only
    variables of its image. *)
Class EnvLaws `{LLB} `{Outside} : Prop := {
  built_agrees t o w w' b : Earthfile2LLB t o w = (w', Ret b) -> agrees (MainState (b_sts b)) (Collection.envs (b_VarCollection b));
  dockerfile_env dt args t p ctx s img k : Dockerfile2LLB dt args t p ctx = Ok (s, img) -> is_Some (GetEnv s k) ->
    is_Some (Get (ParseEnvVars (img_Env img)) k [WithActive]) }.

Section Targets.
Context `{RangeOrder} `{Unicode} `{Platforms} `{LLB} `{CacheOrder} `{Outside} `{!LLBLaws} `{!EnvLaws}.
Variable process_expression : Conv -> string -> string -> res string.

Lemma keeps_deref r : keeps any (deref r).
Proof. apply keeps_on_coll, same_envs_on_imports. Qed.

Lemma keeps_joinRefs r : keeps any (joinRefs r).
Proof. unfold joinRefs, AbsRef. keeping. Qed.

Lemma keeps_as_target r : keeps any (as_target r).
Proof. unfold as_target. keeping. Qed.

#[local] Hint Resolve keeps_deref keeps_joinRefs keeps_as_target : env.

Lemma keeps_absolutizeTarget n p : keeps any (absolutizeTarget n p).
Proof. unfold absolutizeTarget. keeping. Qed.

Lemma keeps_ResolveReference r : keeps any (ResolveReference r).
Proof. unfold ResolveReference. keeping. Qed.

Lemma keeps_frame_scope f : keeps any (frame_scope f).
Proof. unfold frame_scope. keeping. Qed.

#[local] Hint Resolve keeps_absolutizeTarget keeps_frame_scope : env.

Lemma keeps_prepOverridingVars r p l : keeps any (prepOverridingVars process_expression r p l).
Proof. unfold prepOverridingVars. keeping. Qed.

Lemma keeps_waitBlock : keeps any waitBlock_.
Proof. apply keeps_same. intros c. unfold waitBlock_. by case_match. Qed.

#[local] Hint Resolve keeps_prepOverridingVars keeps_waitBlock : env.

Lemma keeps_prepBuildTarget n p a b l d k i o : keeps any (prepBuildTarget process_expression n p a b l d k i o).
Proof. unfold prepBuildTarget. keeping. Qed.

(** The target that is built agrees. *)
Definition done_agrees (b : Built) : Prop := agrees (MainState (b_sts b)) (envs (b_VarCollection b)).

Lemma keeps_earthfile2llb t o : keeps done_agrees (earthfile2llb t o).
Proof.
  intros c b Hc. unfold earthfile2llb. destruct (Earthfile2LLB _ _ _) as [w r] eqn:E. simpl. intros ->.
  split; [|by eapply built_agrees]. by apply (env_inv_view c).
Qed.

Lemma keeps_propagate_inputs o l : keeps any (propagate_inputs o l).
Proof. unfold propagate_inputs. keeping. Qed.

Lemma keeps_propagate_global g l k : keeps any (propagate_global g l k).
Proof. unfold propagate_global. keeping. Qed.

#[local] Hint Resolve keeps_prepBuildTarget keeps_propagate_inputs keeps_propagate_global : env.

Lemma keeps_adopt_globals b : keeps any (adopt_globals b).
Proof. unfold adopt_globals. keeping. Qed.

#[local] Hint Resolve keeps_adopt_globals : env.

Lemma keeps_buildTarget n p a b l d k i o : keeps done_agrees (buildTarget process_expression n p a b l d k i o).
Proof.
  unfold buildTarget. eapply (keeps_bind any); [keeping|]. intros [[t o'] pr] _.
  eapply (keeps_bind done_agrees); [apply keeps_wrapped, keeps_earthfile2llb|]. intros mts Hm. keeping.
Qed.

Lemma keeps_buildTarget_any n p a b l d k i o : keeps any (buildTarget process_expression n p a b l d k i o).
Proof. eapply keeps_weaken, keeps_buildTarget. Qed.

#[local] Hint Resolve keeps_buildTarget_any : env.

(** *** Base images *)

(** The variables that are set one after the other. *)
Lemma GetEnv_fold (f : string -> string) l s k :
  GetEnv (fold_left (fun s name => SEnv name (f name) s) l s) k = if decide (k ∈ l) then Some (f k) else GetEnv s k.
Proof.
  revert s. induction l as [|x l IH]; intros s; [done|]. simpl. rewrite IH, env_env.
  destruct (String.eqb_spec k x) as [->|Hne]; repeat case_decide; try done; set_solver.
Qed.

Definition base_agrees (r : State * Image * option Scope) : Prop := agrees (fst (fst r)) (default NewScope (snd r)).

Lemma applyFromImage_agrees s img :
  (forall k, is_Some (GetEnv s k) -> is_Some (Get (ParseEnvVars (img_Env img)) k [WithActive])) ->
  base_agrees (fst (applyFromImage s img), Some (snd (applyFromImage s img))).
Proof.
  intros Hs. unfold applyFromImage. set (ev := ParseEnvVars _) in *. set (s1 := fold_left _ _ s).
  split; [apply scope_wf_ParseEnvVars|]. intros k. cbn [fst snd default from_option].
  assert (GetEnv s1 k = Get ev k [WithActive]) as E1.
  { unfold s1. rewrite (GetEnv_fold (fun name => default "" (Get ev name [WithActive]))). case_decide as Hin.
    - apply elem_of_Sorted in Hin as [v Hv]. simpl. by rewrite Hv.
    - rewrite elem_of_Sorted in Hin. destruct (GetEnv s k) eqn:E; [destruct Hin; apply Hs; by rewrite E|].
      by apply eq_sym, eq_None_not_Some. }
  destruct (String.eqb (img_User img) ""), (String.eqb (WorkingDir img) "");
    rewrite ?(proj2 (meta_user _ _)), ?dir_env; exact E1.
Qed.

Lemma keeps_internalFromClassical n p : keeps base_agrees (internalFromClassical n p).
Proof.
  unfold internalFromClassical. apply keeps_read_then. intros c _. cbv zeta. destruct (String.eqb n "scratch").
  - apply keeps_ret. split; [apply scope_wf_new|]. intros k. simpl. rewrite (proj2 (meta_platform _ _)). by destruct meta_scratch as [_ ->].
  - do 5 (eapply (keeps_bind any); [keeping|intros ? _]).
    pose proof (applyFromImage_agrees (SImage (Named_String a3) (Plat.ToLLBPlatform (platr c) p)) a2) as Ha.
    destruct (applyFromImage _ _) as [[s i] ev]. apply keeps_ret, Ha. intros k. destruct (meta_image (Named_String a3)
      (Plat.ToLLBPlatform (platr c) p)) as [_ ->]. by intros [? ?].
Qed.

Lemma keeps_set_base s i e : base_agrees (s, i, e) -> keeps any (set_base s i e).
Proof. intros Hb c a _ _. split; [|done]. intros _. exact Hb. Qed.

Lemma keeps_fromClassical n p : keeps any (fromClassical n p).
Proof.
  unfold fromClassical. eapply (keeps_bind any); [keeping|intros ? _].
  eapply keeps_bind; [apply keeps_internalFromClassical|]. intros [[s i] e] Hb. by apply keeps_set_base.
Qed.

Lemma agrees_Clone s e : agrees s e -> agrees s (Clone e).
Proof. intros [Hw He]. by rewrite Clone_id. Qed.

Lemma keeps_adopt_state (b : Built) :
  done_agrees b -> keeps any (on_state (fun _ => MainState (b_sts b));;; on_coll' (ResetEnvVars (Some (Clone (envs (b_VarCollection b)))))).
Proof. intros Hb c a _ _. split; [|done]. intros _. by apply agrees_Clone. Qed.

Lemma keeps_fromTarget n p a b l : keeps any (fromTarget process_expression n p a b l).
Proof.
  unfold fromTarget. do 2 (eapply (keeps_bind any); [keeping|intros ? _]).
  eapply keeps_bind; [apply keeps_wrapped, keeps_buildTarget|]. intros mts Hm. eapply (keeps_bind any); [keeping|intros ? _].
  apply keeps_assoc. eapply (keeps_bind any); [by apply keeps_adopt_state|intros ? _]. keeping.
Qed.

#[local] Hint Resolve keeps_fromClassical keeps_fromTarget : env.

Lemma keeps_From n p a b l : keeps any (From process_expression n p a b l).
Proof. unfold From. keeping. Qed.

Lemma keeps_Locally : keeps any Locally.
Proof. unfold Locally. keeping. Qed.

Lemma keeps_forceExecution s r : keeps any (forceExecution s r).
Proof. unfold forceExecution. keeping. Qed.

Lemma keeps_read_ref r n : keeps any (read_ref r n).
Proof. unfold read_ref. keeping. Qed.

#[local] Hint Resolve keeps_read_ref : env.

Lemma keeps_readArtifact b a : keeps any (readArtifact b a).
Proof. unfold readArtifact. keeping. Qed.

Lemma keeps_dockerfile_context n p : keeps any (dockerfile_context n p).
Proof. unfold dockerfile_context. keeping. Qed.

#[local] Hint Resolve keeps_readArtifact keeps_dockerfile_context : env.

Lemma keeps_named_dockerfile d p a l i : keeps any (named_dockerfile process_expression d p a l i).
Proof. unfold named_dockerfile, read_host. keeping. Qed.

Lemma keeps_dockerfile_and_context c d p a l t : keeps any (dockerfile_and_context process_expression c d p a l t).
Proof. unfold dockerfile_and_context, read_host. keeping. Qed.

#[local] Hint Resolve keeps_named_dockerfile keeps_dockerfile_and_context : env.

Lemma keeps_dockerfile2llb e dt args t p ctx :
  keeps (fun r => exists s img, r = (s, img) /\ forall k, is_Some (GetEnv s k) -> is_Some (Get (ParseEnvVars (img_Env img)) k [WithActive]))
    (wrapped e (of_res (Dockerfile2LLB dt args t p ctx))).
Proof.
  apply keeps_wrapped. intros c [s img] Hc. destruct (Dockerfile2LLB dt args t p ctx) as [r|e'|] eqn:E; [|done..].
  intros [= ->]. split; [done|]. exists s, img. split; [done|]. intros k. by eapply dockerfile_env.
Qed.

Lemma keeps_FromDockerfile c d t p a l : keeps any (FromDockerfile process_expression c d t p a l).
Proof.
  unfold FromDockerfile. do 3 (eapply (keeps_bind any); [keeping|intros ? _]). apply keeps_read_then. intros c1 _. cbv zeta.
  do 3 (eapply (keeps_bind any); [keeping|intros ? _]). eapply (keeps_bind any); [keeping|]. intros [dt ctx] _.
  do 2 (eapply (keeps_bind any); [keeping|intros ? _]).
  eapply keeps_bind; [apply keeps_dockerfile2llb|]. intros r (s & img & -> & Hs).
  pose proof (applyFromImage_agrees s img Hs) as Hb. destruct (applyFromImage s img) as [[s' i'] ev]. by apply keeps_set_base.
Qed.

Lemma keeps_Build n p a b l o : keeps any (Build process_expression n p a b l o).
Proof. unfold Build. keeping. Qed.

Lemma keeps_EnterScopeDo k b a p n l : keeps any (EnterScopeDo process_expression k b a p n l).
Proof. unfold EnterScopeDo. keeping. Qed.

Lemma keeps_PushWaitBlock : keeps any PushWaitBlock.
Proof. unfold PushWaitBlock. keeping. Qed.

Lemma keeps_add_item w : keeps any (add_item w).
Proof. unfold add_item. keeping. Qed.

Lemma keeps_wait_block b p e : keeps any (wait_block b p e).
Proof.
  apply keeps_view. intros c. unfold wait_block. case_match; [|done]. case_match. case_match; [done|]. by case_match.
Qed.

#[local] Hint Resolve keeps_add_item keeps_wait_block : env.

Lemma keeps_PopWaitBlock : keeps any PopWaitBlock.
Proof. unfold PopWaitBlock. keeping. Qed.

Lemma keeps_fake_dep d : keeps any (fake_dep d).
Proof.
  intros c a Hc. unfold fake_dep. destruct (HasDangling (b_sts d)); [|by intros _]. intros Ha.
  eapply (keeps_on_state (fun s => WithDependency s (MainState (b_sts d)) (platr c))); [|done..]. intros s k. apply WithDependency_meta.
Qed.

#[local] Hint Resolve keeps_fake_dep : env.

Lemma keeps_markFakeDeps : keeps any markFakeDeps.
Proof. unfold markFakeDeps. keeping. Qed.

End Targets.

#[export] Hint Resolve keeps_deref keeps_joinRefs keeps_as_target keeps_absolutizeTarget keeps_ResolveReference keeps_frame_scope
  keeps_prepOverridingVars keeps_waitBlock keeps_prepBuildTarget keeps_buildTarget_any keeps_forceExecution keeps_read_ref keeps_add_item
  keeps_markFakeDeps : env.

(** ** Running, copying and saving *)

Section Running.
Context `{RangeOrder} `{Unicode} `{UnicodeTables} `{Platforms} `{LLB} `{CacheOrder} `{Outside} `{!Wildcards} `{ShellEscape} `{RunEnv}
  `{FileHash} `{DockerEnv} `{!LLBLaws} `{!EnvLaws}.

Lemma forceExecution_same s r c : fst (forceExecution s r c) = c.
Proof.
  unfold forceExecution. destruct (is_scratch s); [done|]. unfold wrapped, ewrap, ebind. destruct (StateToRef s r) as [[x|]|e|]; simpl; try done.
  by destruct (ReadDir x "/").
Qed.

Lemma keeps_set_push f : keeps any (set_push f).
Proof. by apply keeps_on_final. Qed.

#[local] Hint Resolve keeps_set_push : env.

(** What is done to the state before the command keeps its variables. *)
Definition prep_ok (prep : option (State -> State)) : Prop := forall f, prep = Some f -> forall s k, GetEnv (f s) k = GetEnv s k.

Lemma keeps_place q push noCache opts fa str : prep_ok (statePrep q) -> keeps any (place q push noCache opts fa str).
Proof.
  intros Hp. destruct push; [unfold place, first_push, run_interactive; cbv zeta; keeping|].
  intros c a Hc Ha. split; [|done]. revert Ha. unfold place, first_push, run_interactive, ebind, read. simpl.
  assert (forall s o, env_view s = env_view c -> env_inv (set_final (set_MainState (RunOn (match statePrep q with Some f => f (MainState (final c))
    | None => MainState (final c) end) o) (final s)) s)) as Hrun.
  { intros s o E Hl. unfold env_view in E. injection E as Ef _ Ee.
    destruct (Hc ltac:(unfold copy_link in *; simpl in *; by rewrite <- Ef)) as [Hw He]. split; simpl; [by rewrite Ee|]. intros k. rewrite Ee, <- He. unfold RunOn.
    rewrite (proj2 (meta_run _ _)). destruct (statePrep q) as [f|]; [by apply Hp|done]. }
  destruct (isInteractive (rr_opts q)), (ro_Interactive (rr_opts q)); simpl; try (intros _; by apply (env_inv_view c));
    destruct (ro_InteractiveKeep (rr_opts q)), (ro_Transient (rr_opts q)); simpl; try (intros _; by apply (env_inv_view c));
    destruct (ro_Locally (rr_opts q)); simpl; try (intros _; by apply Hrun).
  all: match goal with |- context [forceExecution ?s ?r ?c1] => pose proof (forceExecution_same s r c1) as Hf; destruct (forceExecution s r c1) as [c2 [[]|e|]] end;
    simpl in *; try done; intros _; subst c2; by apply Hrun.
Qed.

Lemma keeps_variable_envs : keeps any variable_envs.
Proof. unfold variable_envs. keeping. Qed.

Lemma keeps_container_options o : keeps any (container_options o).
Proof. unfold container_options, save_file. keeping. Qed.

#[local] Hint Resolve keeps_place keeps_variable_envs keeps_container_options : env.

Lemma keeps_internalRun q : prep_ok (statePrep q) -> keeps any (internalRun q).
Proof. intros Hp. unfold internalRun. keeping. Qed.

#[local] Hint Resolve keeps_internalRun : env.

Lemma prep_none : prep_ok None.
Proof. by intros f. Qed.

#[local] Hint Resolve prep_none : env.

Lemma keeps_Run o : keeps any (Run o).
Proof. unfold Run. keeping. Qed.

Lemma keeps_read_back l f s a b d : keeps any (read_back l f s a b d).
Proof. unfold read_back. keeping. Qed.

Lemma keeps_answer_file l a b f d m : keeps (fun r => prep_ok (snd r)) (answer_file l a b f d m).
Proof.
  unfold answer_file. destruct l.
  - eapply (keeps_bind any); [keeping|intros ? _]. apply keeps_ret, prep_none.
  - eapply (keeps_bind any); [keeping|intros ? _]. apply keeps_ret. intros g [= <-] s k. apply meta_file.
Qed.

#[local] Hint Resolve keeps_read_back : env.

Lemma keeps_RunExitCode o : keeps any (RunExitCode o).
Proof.
  unfold RunExitCode. do 2 (eapply (keeps_bind any); [keeping|intros ? _]). apply keeps_read_then. intros c _.
  eapply keeps_bind; [apply keeps_answer_file|]. intros [file prep] Hp. keeping.
Qed.

Lemma keeps_runCommand n e o : keeps any (runCommand n e o).
Proof.
  unfold runCommand. apply keeps_read_then. intros c _. do 4 (eapply (keeps_bind any); [keeping|intros ? _]).
  eapply keeps_bind; [apply keeps_answer_file|]. intros [file prep] Hp. keeping.
Qed.

#[local] Hint Resolve keeps_runCommand : env.

(** *** Words *)

Lemma keeps_expand_command o b cmd : keeps any (expand_command o b cmd).
Proof. unfold expand_command, RunCommand. keeping. Qed.

#[local] Instance env_preorder : PreOrder (fun c c' => env_inv c -> env_inv c').
Proof. split; [by intros c|]. intros c1 c2 c3 Hab Hbc Hc. auto. Qed.

Lemma keeps_ExpandArgs o w b : keeps any (ExpandArgs o w b).
Proof.
  intros c a Hc. unfold ExpandArgs. destruct (has _ _); [|unfold ExpandOld; revert c a Hc; change (keeps any (ef <- on_coll effective;;
    eret (match docker_ProcessWord w (Map ef [WithActive]) with Ok x => x | _ => w end))); keeping].
  unfold Expand. pose proof (same_envs_effective (varCollection c)) as He. set (v := fst (effective (varCollection c))) in *.
  assert (env_inv (set_varCollection v c)) as Hv by (apply (env_inv_view c); [unfold env_view; simpl; by rewrite He|done]).
  destruct (effective v) as [v' [sc|e|]]; simpl; [|done..]. intros Ha. split; [|done]. revert Hv.
  eapply (ProcessWordWithMap_succeeds (fun c c' => env_inv c -> env_inv c')); [|exact Ha].
  intros f cmd c1 x [= <-] Hx Hc1. by destruct (keeps_expand_command o b cmd c1 x Hc1 Hx).
Qed.

(** *** Copies *)

Lemma CopyOp_env src srcs s dest w d ts own chmod ie nf s' k :
  CopyOp src srcs s dest w d ts own chmod ie nf false = Ok s' -> GetEnv s' k = GetEnv s k.
Proof.
  unfold CopyOp. destruct (copy_actions _ _ _ _ _) as [[|a fa]|e|]; simpl; [by intros [= <-]| |done..].
  intros [= <-]. apply meta_file.
Qed.

Lemma keeps_copy pre src srcs dest w d ts (own : Conv -> string) chmod ie nf :
  keeps any (c <- read (fun c => c);; assign set_MainState pre
    (CopyOp src srcs (MainState (final c)) dest w d ts (own c) chmod ie nf (copy_link c))).
Proof.
  intros c a Hc. unfold ebind, read, assign. simpl. destruct (CopyOp _ _ _ _ _ _ _ _ _ _ _ _) as [s'|e|] eqn:E; simpl; [|done..].
  intros _. split; [|done]. intros Hl. unfold copy_link in Hl. simpl in Hl. fold (copy_link c) in Hl. destruct (Hc Hl) as [Hw He].
  rewrite Hl in E. split; [done|]. intros k. simpl. by rewrite (CopyOp_env _ _ _ _ _ _ _ _ _ _ _ _ k E).
Qed.

Lemma keeps_assign_artifacts pre r : keeps any (assign set_ArtifactsState pre r).
Proof. unfold assign. keeping. Qed.

Lemma keeps_check_chmod m : keeps any (check_chmod m).
Proof. unfold check_chmod. keeping. Qed.

Lemma keeps_artifact_source n p a b l : keeps any (artifact_source n p a b l).
Proof. unfold artifact_source. keeping. Qed.

Lemma keeps_classical_source l : keeps any (classical_source l).
Proof. unfold classical_source. keeping. Qed.

#[local] Hint Resolve keeps_assign_artifacts keeps_check_chmod keeps_artifact_source keeps_classical_source : env.

Lemma keeps_CopyArtifact n d p a b l i t o h m e y : keeps any (CopyArtifact n d p a b l i t o h m e y).
Proof.
  unfold CopyArtifact. do 4 (eapply (keeps_bind any); [keeping|intros ? _]). case_match.
  exact (keeps_copy _ _ _ _ _ _ _ (copyOwner o h) _ _ _).
Qed.

Lemma keeps_CopyClassical l d i t o h m e : keeps any (CopyClassical l d i t o h m e).
Proof.
  unfold CopyClassical. do 5 (eapply (keeps_bind any); [keeping|intros ? _]). exact (keeps_copy _ _ _ _ _ _ _ (copyOwner o h) _ _ _).
Qed.

Lemma keeps_GitClone u s b d k : keeps any (GitClone u s b d k).
Proof.
  unfold GitClone. do 3 (eapply (keeps_bind any); [keeping|intros ? _]).
  exact (keeps_copy _ _ _ _ _ _ _ (fun c => img_User (MainImage (final c))) _ _ _).
Qed.

Lemma keeps_CopyArtifactLocal n d p a b l i : keeps any (CopyArtifactLocal n d p a b l i).
Proof. unfold CopyArtifactLocal. keeping. Qed.

(** *** Saves *)

Lemma keeps_after_save : keeps any after_save.
Proof. unfold after_save. keeping. Qed.

Lemma keeps_check_save f l a : keeps any (check_save f l a).
Proof. unfold check_save. keeping. Qed.

Lemma keeps_record_local l p : keeps any (record_local l p).
Proof. unfold record_local. keeping. Qed.

#[local] Hint Resolve keeps_after_save keeps_check_save keeps_record_local : env.

Lemma keeps_SaveArtifact f t l k o e y g p : keeps any (SaveArtifact f t l k o e y g p).
Proof. unfold SaveArtifact. keeping. Qed.

Lemma keeps_SaveArtifactFromLocal f t k o h : keeps any (SaveArtifactFromLocal f t k o h).
Proof. unfold SaveArtifactFromLocal. keeping. Qed.

Lemma keeps_save_image p i h n name : keeps any (save_image p i h n name).
Proof. unfold save_image, image_item, add_cache_import. keeping. Qed.

#[local] Hint Resolve keeps_save_image : env.

Lemma keeps_SaveImage l p i h cf n : keeps any (SaveImage l p i h cf n).
Proof. unfold SaveImage, add_cache_import. keeping. Qed.

(** *** Wildcards *)

(** A failure that is caught has not touched the environment. *)
Lemma ResolveReference_view r c : env_view (fst (ResolveReference r c)) = env_view c.
Proof.
  unfold ResolveReference, deref, on_coll. pose proof (same_envs_on_imports (fun ir => (ir, Deref HOME r ir)) (varCollection c)) as Hd.
  unfold ebind. destruct (on_imports _ _) as [v [[[d a] b]|e|]]; simpl in *; unfold env_view; [|simpl; by rewrite Hd..].
  unfold joinRefs, AbsRef, on_coll, ebind. simpl. destruct (frame v) as [f|]; simpl; [|by rewrite Hd].
  destruct (JoinReferences _ _); simpl; [|by rewrite Hd..]. destruct (ResolveContext _ _); simpl; by rewrite Hd.
Qed.

Lemma keeps_try_resolve r : keeps any (etry (ResolveReference r)).
Proof.
  apply keeps_view. intros c. rewrite <- (ResolveReference_view r c). unfold etry. by destruct (ResolveReference r c) as [c' [a|e|]].
Qed.

#[local] Hint Resolve keeps_try_resolve : env.

Lemma keeps_expandWildcardTargets n : keeps any (expandWildcardTargets n).
Proof. unfold expandWildcardTargets, wildcard_target. keeping. Qed.

#[local] Hint Resolve keeps_expandWildcardTargets : env.

Lemma keeps_ExpandWildcards :
  (forall a, keeps any (ExpandWildcardArtifacts a)) /\ (forall t cmd, keeps any (ExpandWildcardCmds t cmd)).
Proof. unfold ExpandWildcardArtifacts, ExpandWildcardCmds. split; intros; keeping. Qed.

(** *** WITH DOCKER *)

Lemma keeps_installDeps o : keeps any (installDeps o).
Proof. unfold installDeps. keeping. Qed.

Lemma keeps_getComposePulls o : keeps any (getComposePulls o).
Proof. unfold getComposePulls, getComposeConfig. keeping. Qed.

Lemma keeps_build_loaded p i o x : keeps any (build_loaded p i o x).
Proof.
  unfold build_loaded. pose proof (fun t o => keeps_weaken _ _ (keeps_earthfile2llb t o)) as He. keeping.
Qed.

Lemma keeps_pull_image p : keeps any (pull_image p).
Proof. unfold pull_image. pose proof (fun n p => keeps_weaken _ _ (keeps_internalFromClassical n p)) as Hi. keeping. Qed.

Lemma keeps_check_native : keeps any check_native.
Proof. apply keeps_same. intros c. unfold check_native. by case_match. Qed.

Lemma keeps_solveImage m o t : keeps any (solveImage m o t).
Proof. unfold solveImage, solve_tar. keeping. Qed.

#[local] Hint Resolve keeps_installDeps keeps_getComposePulls keeps_build_loaded keeps_pull_image keeps_check_native keeps_solveImage : env.

Lemma keeps_WithDockerRun a o p : keeps any (WithDockerRun a o p).
Proof.
  unfold WithDockerRun, run_reg, run_tar, prepareImages_reg, prepareImages_tar, load_reg, pull_reg, load_tar, pull_tar. keeping.
Qed.

Lemma keeps_docker_load x : keeps any (docker_load x).
Proof. unfold docker_load. keeping. Qed.

#[local] Hint Resolve keeps_docker_load : env.

Lemma keeps_WithDockerRunLocal a o p : keeps any (WithDockerRunLocal a o p).
Proof. unfold WithDockerRunLocal, run_local_reg, run_local_tar, load_reg, load_local_tar, fetch_image. keeping. Qed.

End Running.

(** ** Whole targets *)

Section Whole.
Context `{RangeOrder} `{Unicode} `{UnicodeTables} `{Platforms} `{LLB} `{CacheOrder} `{Outside} `{!Wildcards} `{ShellEscape} `{RunEnv}
  `{FileHash} `{DockerEnv} `{Services} `{!LLBLaws} `{!EnvLaws}.

#[local] Hint Resolve keeps_From keeps_FromDockerfile keeps_Locally keeps_Run keeps_RunExitCode keeps_runCommand keeps_ExpandArgs
  keeps_WithDockerRun keeps_WithDockerRunLocal keeps_CopyClassical keeps_CopyArtifact keeps_CopyArtifactLocal keeps_SaveArtifact
  keeps_SaveArtifactFromLocal keeps_SaveImage keeps_Build keeps_Workdir keeps_Env keeps_Arg keeps_Let keeps_UpdateArg keeps_GitClone
  keeps_Healthcheck keeps_Import keeps_Cache keeps_PushWaitBlock keeps_PopWaitBlock keeps_EnterScopeDo : env.

Lemma keeps_perform {A} (k : Call A) : keeps any (perform k).
Proof.
  destruct keeps_plain as (? & ? & ? & ? & ? & ? & ? & ? & ? & ? & ?). destruct keeps_ExpandWildcards.
  destruct k; simpl; unfold checkAutoSkip, BuildAsync, resolved, RunExpression; keeping.
Qed.

(** Commands that succeed one after the other. *)
Inductive performs : Conv -> Conv -> Prop :=
| performs_refl c : performs c c
| performs_step {A} (k : Call A) c c' a : snd (perform k c) = Ret a -> performs (fst (perform k c)) c' -> performs c c'.

Lemma performs_inv c c' : performs c c' -> env_inv c -> env_inv c'.
Proof.
  induction 1 as [|A k c c' a E _ IH]; [done|]. intros Hc. apply IH. by destruct (keeps_perform k c a Hc E).
Qed.

Lemma persistCache_env s c k : GetEnv (persistCache s c) k = GetEnv s k.
Proof.
  unfold persistCache. revert s. induction (cache_range _) as [|[d m] l IH]; intros s; simpl; [done|]. rewrite IH.
  destruct (Persisted m); [|done]. apply CopyWithRunOptions_meta.
Qed.

Lemma keeps_FinalizeStates : keeps any FinalizeStates.
Proof.
  unfold FinalizeStates, sts_SetDoSaves, sts_SetDoPushes. assert (forall c, keeps any (on_state (fun s => persistCache s c))) as Hp.
  { intros c. apply keeps_on_state. intros s k. apply persistCache_env. }
  keeping.
Qed.

Lemma new_inv target builtinArgs f path factory id r ti o wb w :
  env_inv (NewConverter target builtinArgs f path factory (new_sts id target r ti) o wb w).
Proof.
  intros _. split; [apply scope_wf_new|]. intros k. simpl. unfold platform_scratch. rewrite (proj2 (meta_platform _ _)).
  by destruct meta_scratch as [_ ->].
Qed.


End Whole.

(** ** Sample *)

Module Sample.
Import Surroundings.

#[local] Instance sample_laws : EnvLaws.
Proof. split; [done|]. by intros dt args t p ctx s img k [= <- <-] [v Hv]. Qed.

Definition fst_of {A} (k : Call A) (c : Conv) : Conv := fst (perform k c).

(** FROM alpine and ENV. *)
Definition after_env : Conv :=
  fst_of (CEnv "A" "1") (fst_of (CFrom "alpine" DefaultPlatform false false []) (sample_conv [])).

Lemma env_performs : performs (sample_conv []) after_env.
Proof.
  unfold after_env, fst_of. refine (performs_step (CFrom "alpine" DefaultPlatform false false []) _ _ tt _ _); [vm_compute; reflexivity|].
  refine (performs_step (CEnv "A" "1") _ _ tt _ _); [vm_compute; reflexivity|]. apply performs_refl.
Qed.

Lemma env_not_merged : copy_link after_env = false.
Proof. vm_compute. reflexivity. Qed.


(** The value is the one that was declared. *)
Example env_value : GetEnv (MainState (final after_env)) "A" = Some "1".
Proof. vm_compute. reflexivity. Qed.

End Sample.
