(* ===== verification/Conditions.v ===== *)
(** * Conditions of the input graph

    The parts of [inputgraph/loader.go] that look at texts only: how the condition of an
    IF is decided without running it ([evalConditions], [evalCondition]), and whether a text
    still has a shell expression in it ([containsShellExpr]). *)

From S2P Require Import Prelude GoStrings Token GoText Reference Numbers FlagUtil Builtin.

Open Scope res_scope.

(** ** Texts *)

(** [strings.Split] for a separator of several bytes; every round drops at least the separator. *)
Fixpoint split_fuel (fuel : nat) (s sep : string) : list string :=
  match fuel with
  | 0 => [s]
  | S fuel => match cut sep s with
              | Some (a, rest) => a :: split_fuel fuel rest sep
              | None => [s]
              end
  end.

Definition split_on (s sep : string) : list string := split_fuel (String.length s) s sep.

(** [strings.Trim], for an ASCII cutset *)
Fixpoint TrimLeft (s cutset : string) : string :=
  match s with
  | "" => ""
  | String c rest => if sexists (Ascii.eqb c) cutset then TrimLeft rest cutset else s
  end.

Definition Trim (s cutset : string) : string := TrimRight (TrimLeft s cutset) cutset.

(** Without the blanks and double quotes around it. *)
Definition unquote (v : string) : string := Trim v (" " +:+ dquote).

Section Conditions.
Context `{Unicode}.

(** ** A single condition *)

Definition compare_texts (a op b : string) : option bool :=
  if String.eqb op "==" || String.eqb op "=" then Some (String.eqb a b)
  else if String.eqb op "!=" then Some (negb (String.eqb a b))
  else if String.eqb op ">" then Some (String.ltb b a)
  else if String.eqb op ">=" then Some (String.leb b a)
  else if String.eqb op "<" then Some (String.ltb a b)
  else if String.eqb op "<=" then Some (String.leb a b)
  else None.

Definition compare_numbers (op : string) : option (Z -> Z -> bool) :=
  if String.eqb op "-eq" then Some Z.eqb
  else if String.eqb op "-ne" then Some (fun a b => negb (Z.eqb a b))
  else if String.eqb op "-gt" then Some Z.gtb
  else if String.eqb op "-lt" then Some Z.ltb
  else if String.eqb op "-le" then Some Z.leb
  else if String.eqb op "-ge" then Some Z.geb
  else None.

(** The value, or [None] for the second result false; of words without their quotes. *)
Definition test_words (c : list string) : option bool :=
  match c with
  | [w] => if String.eqb w "true" then Some true
           else if String.eqb w "false" then Some false
           else Some (negb (String.eqb w ""))
  | [op; w] => if String.eqb op "-z" then Some (String.eqb w "")
               else if String.eqb op "-n" then Some (negb (String.eqb w ""))
               else None
  | [a; op; b] =>
      match compare_texts a op b with
      | Some r => Some r
      | None =>
          match compare_numbers op with
          | None => None
          | Some cmp => match Atoi a, Atoi b with
                        | Ok x, Ok y => Some (cmp x y)
                        | _, _ => None
                        end
          end
      end
  | _ => None
  end.

(** The words are changed in place. *)
Definition evalCondition (c : list string) : list string * option bool :=
  let c := List.map unquote c in (c, test_words c).

(** ** Compound conditions *)

(** The loop over the words of an or-group; [Ok None] when the function returns (false, false). *)
Fixpoint eval_loop (eval : list string -> res (bool * bool)) (parts cur : list string) (result inExpr : bool)
    : res (option bool) :=
  match parts with
  | [] => Ok (Some result)
  | v :: rest =>
      if String.eqb v "[[" || String.eqb v "]]" then Ok None
      else if String.eqb v "[" then eval_loop eval rest [] result true
      else if String.eqb v "]" then
        if negb inExpr then Ok None
        else match evalCondition cur with
             | (_, None) => Ok None
             | (cur, Some r) => eval_loop eval rest cur r inExpr
             end
      else if String.eqb v "&&" then
        let* r := eval rest in
        if negb (snd r) then Ok None else eval_loop eval rest cur (result && fst r) inExpr
      else eval_loop eval rest (cur ++ [v]) result inExpr
  end.

Fixpoint eval_groups (eval : list string -> res (bool * bool)) (orGroups : list string) : res (bool * bool) :=
  match orGroups with
  | [] => Ok (false, true)
  | g :: gs =>
      let* r := eval_loop eval (Split g " "%char) [] false false in
      match r with
      | None => Ok (false, false)
      | Some true => Ok (true, true)
      | Some false => eval_groups eval gs
      end
  end.

Fixpoint eval_fuel (fuel : nat) (c : list string) : res (bool * bool) :=
  match fuel with
  | 0 => NoFuel
  | S fuel => eval_groups (eval_fuel fuel) (split_on (Join c " ") "||")
  end.

(** Every call drops a word of the text. *)
Definition evalConditions (c : list string) : res (bool * bool) := eval_fuel (S (String.length (Join c " "))) c.

End Conditions.

(** ** Shell expressions *)

Fixpoint shell_loop (rs : list Z) (last : Z) (depth : Z) (hasExpr : bool) : bool :=
  match rs with
  | [] => (depth =? 0)%Z && hasExpr
  | c :: rs =>
      let '(depth, hasExpr) :=
        if ((c =? 40) && (last =? 36))%Z then (depth + 1, true)%Z
        else if (c =? 41)%Z then (depth - 1, hasExpr)%Z
        else (depth, hasExpr) in
      if (depth <? 0)%Z then false else shell_loop rs c depth hasExpr
  end.

(** No rune comes before the first one. *)
Definition containsShellExpr (s : string) : bool := shell_loop (runes s) (-1) 0 false.

(** ** Loops and remote targets *)

(** [strings.ContainsAny], for any runes *)
Definition contains_any (s chars : string) : bool := existsb (fun r => existsb (Z.eqb r) (runes chars)) (runes s).

Definition flattenForArgs (args : list string) (seps : string) : list string :=
  match args with
  | _ :: _ :: vals =>
      flat_map (fun arg => if contains_any arg seps then FieldsFunc arg (fun r => existsb (Z.eqb r) (runes seps)) else [arg]) vals
  | _ => []
  end.

(** [^[0-9a-f]{40}$] *)
Definition sha1RE (s : string) : bool :=
  (String.length s =? 40) && sall (fun c => is_digit c || in_range 97 102 (byteZ c)) s.

Definition supportedRemoteTarget (t : Reference) : bool := HasPrefix (Reference.Tag t) "tags/" || sha1RE (Reference.Tag t).

Section Samples.
#[local] Instance all_print : Unicode := fun _ => true.

Definition run (text : string) : res (bool * bool) := evalConditions (Split text " "%char).

Example conditions :
  List.map run ["[ -f file ]"; "[ true ]"; "[ -n foo ]"; "[ foo > bar ]"; "[ 2 -gt 10 ]"; "[ 2 -gt foo ]"; "[ true ] && [ false ]";
    "[ 2 -gt 1 ] || [ foo == bar ] && [ false ]"; "[ 2 -lt 0 ] && [ foo == foo ] || [ true ]"] =
  List.map Ok [(false, false); (true, true); (true, true); (true, true); (false, true); (false, false); (false, true); (true, true);
    (true, true)].
Proof. vm_compute. reflexivity. Qed.

Example shell_expressions :
  List.map containsShellExpr ["$(echo 'hello')"; "$(echo -n $(cat /tmp/x))"; "$($()"; ")$("] = [true; true; false; false].
Proof. vm_compute. reflexivity. Qed.
End Samples.

(** ** Splitting at the bars *)

(** No two bars side by side. *)
Fixpoint no_bars (s : string) : bool :=
  match s with
  | String c (String d _ as rest) => negb (Ascii.eqb c "|" && Ascii.eqb d "|") && no_bars rest
  | _ => true
  end.

Lemma HasPrefix_bars c d s : HasPrefix (String c (String d s)) "||" = Ascii.eqb c "|" && Ascii.eqb d "|".
Proof.
  unfold HasPrefix. cbn [String.prefix]. destruct (Ascii.ascii_dec "|" c) as [<-|Hc].
  - destruct (Ascii.ascii_dec "|" d) as [<-|Hd]; [by destruct s|]. simpl. symmetry. by apply Ascii.eqb_neq.
  - symmetry. apply andb_false_iff. left. by apply Ascii.eqb_neq.
Qed.

Lemma HasPrefix_bars1 c : HasPrefix (String c "") "||" = false.
Proof. unfold HasPrefix. cbn [String.prefix]. by destruct (Ascii.ascii_dec "|" c). Qed.

Lemma cut_no_bars s : no_bars s = true -> cut "||" s = None.
Proof.
  induction s as [|c s IH]; [done|]. cbn [cut]. destruct s as [|d s].
  - by rewrite HasPrefix_bars1.
  - intros [Hc%negb_true_iff Hs]%andb_true_iff. by rewrite HasPrefix_bars, Hc, IH.
Qed.

(** The bars after a blank are the first ones. *)
Lemma cut_bars s rest : no_bars s = true -> cut "||" (s +:+ " ||" +:+ rest) = Some (s +:+ " ", rest).
Proof.
  induction s as [|c s IH]; intros Hs.
  { change ("" +:+ " ||" +:+ rest) with (String " " (String "|" (String "|" rest))). cbn [cut]. by rewrite !HasPrefix_bars. }
  rewrite !(sapp_cons c s). cbn [cut].
  assert (no_bars s = true) as Hs' by (destruct s; [done|]; by apply andb_true_iff in Hs as [_ Hs]). rewrite (IH Hs').
  destruct s as [|d s].
  - change ("" +:+ " ||" +:+ rest) with (String " " (String "|" (String "|" rest))). rewrite HasPrefix_bars.
    by rewrite andb_false_r.
  - rewrite sapp_cons, HasPrefix_bars. apply andb_true_iff in Hs as [Hc%negb_true_iff _]. by rewrite Hc.
Qed.

Lemma no_bars_blank a b : no_bars a = true -> no_bars b = true -> no_bars (a +:+ " " +:+ b) = true.
Proof.
  intros Ha Hb. induction a as [|c a IH].
  - change ("" +:+ " " +:+ b) with (String " " b). by destruct b.
  - rewrite sapp_cons. destruct a as [|d a].
    + change ("" +:+ " " +:+ b) with (String " " b). cbn [no_bars]. rewrite andb_false_r. by destruct b.
    + rewrite sapp_cons in *. cbn [no_bars] in Ha |- *. apply andb_true_iff in Ha as [-> Ha]. by apply IH.
Qed.

Lemma no_bars_Join ws : Forall (fun w => no_bars w = true) ws -> no_bars (Join ws " ") = true.
Proof.
  induction 1 as [|w ws Hw Hws IH]; [done|]. destruct ws as [|v ws]; [done|].
  change (Join (w :: v :: ws) " ") with (w +:+ " " +:+ Join (v :: ws) " "). by apply no_bars_blank.
Qed.

Lemma split_fuel_enough n m s : String.length s <= n -> String.length s <= m -> split_fuel n s "||" = split_fuel m s "||".
Proof.
  revert m s. induction n as [|n IH]; intros [|m] s Hn Hm; [done|by destruct s; simpl in *; [|lia]..|].
  cbn [split_fuel]. destruct (cut "||" s) as [[a rest]|] eqn:E; [|done]. f_equal.
  assert (String.length rest < String.length s); [|apply IH; lia].
  clear -E. revert a rest E. induction s as [|c s IH]; intros a rest; [done|]. cbn [cut].
  destruct (HasPrefix (String c s) "||") eqn:Hp.
  - apply HasPrefix_spec in Hp as [t ->]. rewrite sdrop_sapp, length_sapp. intros [= _ <-]. simpl. lia.
  - destruct (cut "||" s) as [[a' r]|]; [|done]. intros [= <- <-]. specialize (IH _ _ eq_refl). simpl. lia.
Qed.

Lemma split_on_bars s rest : no_bars s = true -> split_on (s +:+ " ||" +:+ rest) "||" = (s +:+ " ") :: split_on rest "||".
Proof.
  intros Hs. unfold split_on at 1. destruct (String.length (s +:+ " ||" +:+ rest)) as [|n] eqn:El;
    rewrite !length_sapp in El; simpl in El; [lia|].
  cbn [split_fuel]. rewrite cut_bars by done. f_equal. apply split_fuel_enough; lia.
Qed.

Lemma split_on_none s : no_bars s = true -> split_on s "||" = [s].
Proof. intros Hs. unfold split_on. destruct (String.length s); cbn [split_fuel]; [done|]. by rewrite cut_no_bars. Qed.

(** ** What is decided *)

Lemma Join_app a b : a <> [] -> b <> [] -> Join (a ++ b) " " = Join a " " +:+ " " +:+ Join b " ".
Proof.
  intros Ha Hb. induction a as [|x a IH]; [done|]. destruct a as [|y a].
  - destruct b; [done|]. done.
  - change (Join ((x :: y :: a) ++ b) " ") with (x +:+ " " +:+ Join ((y :: a) ++ b) " "). rewrite IH by done.
    change (Join (x :: y :: a) " ") with (x +:+ " " +:+ Join (y :: a) " "). by rewrite <- !sapp_assoc.
Qed.

Lemma Join_length ws : length ws <= S (String.length (Join ws " ")).
Proof.
  induction ws as [|w ws IH]; [simpl; lia|]. destruct ws as [|v ws]; [simpl; lia|].
  change (Join (w :: v :: ws) " ") with (w +:+ " " +:+ Join (v :: ws) " "). rewrite !length_sapp. simpl in *. lia.
Qed.

(** ** Every condition is decided or left undecided *)

Lemma Join_Split s : Join (Split s " "%char) " " = s.
Proof.
  assert (forall t, Split t " "%char <> []) as Hne.
  { intros [|c t]; [done|]. cbn [Split]. destruct (Ascii.eqb c " "); [done|]. by destruct (Split t " "). }
  induction s as [|c s IH]; [done|]. cbn [Split]. specialize (Hne s). destruct (Ascii.eqb_spec c " ") as [->|Hc].
  - destruct (Split s " ") as [|w ws]; [done|].
    change (Join ("" :: w :: ws) " ") with (String " " (Join (w :: ws) " ")). by rewrite IH.
  - destruct (Split s " ") as [|w ws]; [done|]. destruct ws; simpl in *; by rewrite <- IH.
Qed.

Lemma Join_suffix v rest : String.length (Join rest " ") <= String.length (Join (v :: rest) " ").
Proof. destruct rest; [simpl; lia|]. change (Join (v :: s :: rest) " ") with (v +:+ " " +:+ Join (s :: rest) " "). rewrite !length_sapp. lia. Qed.

Lemma cut_length sep s a b : cut sep s = Some (a, b) -> String.length a + String.length b <= String.length s.
Proof.
  revert a b. induction s as [|c s IH]; intros a b; cbn [cut].
  - destruct (HasPrefix _ _); [|done]. intros [= <- <-]. rewrite length_sdrop. simpl. lia.
  - destruct (HasPrefix _ _); [intros [= <- <-]; rewrite length_sdrop; simpl; lia|].
    destruct (cut sep s) as [[a' b']|]; [|done]. intros [= <- <-]. specialize (IH _ _ eq_refl). simpl. lia.
Qed.

Lemma split_on_length s sep : Forall (fun g => String.length g <= String.length s) (split_on s sep).
Proof.
  unfold split_on. generalize (String.length s) at 2 as n. intros n. revert s. induction n as [|n IH]; intros s; cbn [split_fuel].
  - by repeat constructor.
  - destruct (cut sep s) as [[a b]|] eqn:E; [|by repeat constructor]. apply cut_length in E. constructor; [lia|].
    eapply List.Forall_impl; [|apply IH]. simpl. lia.
Qed.

Lemma eval_loop_finishes `{Unicode} eval parts cur r b :
  (forall c, String.length (Join c " ") < String.length (Join parts " ") -> finished (eval c)) ->
  finished (eval_loop eval parts cur r b).
Proof.
  revert cur r b. induction parts as [|v rest IH]; intros cur r b Hev; [done|].
  pose proof (Join_suffix v rest) as Hs. cbn [eval_loop].
  assert (forall cur r b, finished (eval_loop eval rest cur r b)) as Hrest by (intros; apply IH; intros c Hc; apply Hev; lia).
  repeat case_test; try done.
  - destruct (evalCondition cur) as [cur' [r'|]]; [apply Hrest|done].
  - to_prop. subst v. apply rbind_finished; [|intros x _; by case_test]. destruct rest as [|w rest].
    + apply Hev. simpl. lia.
    + apply Hev. change (Join ("&&" :: w :: rest) " ") with ("&&" +:+ " " +:+ Join (w :: rest) " ").
      rewrite !length_sapp. simpl. lia.
Qed.

Lemma evalConditions_finishes `{Unicode} c : finished (evalConditions c).
Proof.
  unfold evalConditions. cut (forall n c, String.length (Join c " ") < n -> finished (eval_fuel n c)); [intros Hn; apply Hn; lia|].
  clear c. induction n as [|n IH]; intros c Hn; [lia|]. cbn [eval_fuel].
  pose proof (split_on_length (Join c " ") "||") as Hg. induction Hg as [|g gs Hg _ IHg]; [done|]. cbn [eval_groups].
  apply rbind_finished; [|by intros [[]|] _]. apply eval_loop_finishes. rewrite Join_Split. intros c' Hc. apply IH. lia.
Qed.

Section Spec.
Context `{Unicode}.

(** A word that is neither a bracket nor an operator, without blanks. *)
Definition word (w : string) : bool :=
  GoText.no_byte " " w && no_bars w && negb (existsb (String.eqb w) ["[["; "]]"; "["; "]"; "&&"]).

Definition test : Type := list string.

Definition test_text (t : test) : list string := "[" :: t ++ ["]"].

(** Tests that are joined by [&&]. *)
Fixpoint group_words (ts : list test) : list string :=
  match ts with
  | [] => []
  | [t] => test_text t
  | t :: ts => test_text t ++ "&&" :: group_words ts
  end.

(** Groups that are joined by [||]. *)
Fixpoint chain_words (gs : list (list test)) : list string :=
  match gs with
  | [] => []
  | [g] => group_words g
  | g :: gs => group_words g ++ "||" :: chain_words gs
  end.

Definition test_value (t : test) : option bool := test_words (List.map unquote t).

(** The last test decides, when all of them can be decided. *)
Fixpoint group_value (ts : list test) (r : bool) : option bool :=
  match ts with
  | [] => Some r
  | t :: ts => match test_value t with Some v => group_value ts v | None => None end
  end.

Fixpoint chain_value (gs : list (list test)) : bool * bool :=
  match gs with
  | [] => (false, true)
  | g :: gs => match group_value g false with
               | None => (false, false)
               | Some true => (true, true)
               | Some false => chain_value gs
               end
  end.

Definition well_formed (g : list test) : Prop := g <> [] /\ Forall (Forall (fun w => word w = true)) g.

Lemma loop_word eval w rest cur r b :
  word w = true -> eval_loop eval (w :: rest) cur r b = eval_loop eval rest (cur ++ [w]) r b.
Proof.
  intros [_ Hw]%andb_true_iff. apply negb_true_iff in Hw. simpl in Hw. repeat (apply orb_false_iff in Hw as [? Hw]).
  cbn [eval_loop]. by repeat match goal with E : String.eqb w _ = false |- _ => rewrite E end.
Qed.

Lemma loop_words eval t rest cur r b :
  Forall (fun w => word w = true) t -> eval_loop eval (t ++ rest) cur r b = eval_loop eval rest (cur ++ t) r b.
Proof.
  intros Ht. revert cur. induction Ht as [|w t Hw Ht IH]; intros cur; [by rewrite app_nil_r|].
  rewrite <- app_comm_cons, loop_word, IH by done. by rewrite <- app_assoc.
Qed.

Lemma loop_test eval t rest cur r b :
  Forall (fun w => word w = true) t ->
  eval_loop eval (test_text t ++ rest) cur r b =
    match test_value t with Some v => eval_loop eval rest (List.map unquote t) v true | None => Ok None end.
Proof.
  intros Ht. unfold test_text. rewrite <- app_comm_cons, <- app_assoc. cbn [eval_loop String.eqb Ascii.eqb Bool.eqb orb].
  rewrite loop_words by done. rewrite app_nil_l. done.
Qed.

Lemma group_words_ok g : well_formed g ->
  group_words g <> [] /\ Forall (fun w => GoText.no_byte " " w = true /\ no_bars w = true) (group_words g) /\
  2 * length g <= length (group_words g).
Proof.
  intros [Hne Hg]. induction Hg as [|t g Ht Hg IH]; [done|].
  assert (Forall (fun w => GoText.no_byte " " w = true /\ no_bars w = true) (test_text t)) as Htt.
  { unfold test_text. constructor; [done|]. apply List.Forall_app. split; [|by constructor].
    eapply List.Forall_impl; [|exact Ht]. by intros w [[? ?]%andb_true_iff _]%andb_true_iff. }
  assert (2 <= length (test_text t)) by (unfold test_text; simpl; rewrite length_app; simpl; lia).
  destruct g as [|t2 g]; [split_and!; [done|done|simpl in *; lia]|].
  change (group_words (t :: t2 :: g)) with (test_text t ++ "&&" :: group_words (t2 :: g)).
  destruct IH as (H1 & H2 & H3); [done|]. split_and!; [done| |rewrite length_app; simpl length in *; lia].
  apply List.Forall_app. split; [done|]. by constructor.
Qed.

Lemma split_words ws :
  ws <> [] -> Forall (fun w => GoText.no_byte " " w = true /\ no_bars w = true) ws ->
  no_bars (Join ws " ") = true /\ Split (Join ws " ") " "%char = ws.
Proof.
  intros Hne Hws. split.
  - apply no_bars_Join. eapply List.Forall_impl; [|exact Hws]. by intros w [_ ?].
  - apply Split_Join; [done|]. eapply List.Forall_impl; [|exact Hws]. by intros w [? _].
Qed.

(** A blank at the end of a group leaves an empty word. *)
Definition blank (l : list string) : Prop := l = [] \/ l = [""].

Lemma loop_group n g trail cur r b :
  well_formed g -> blank trail -> length g <= n ->
  eval_loop (eval_fuel n) (group_words g ++ trail) cur r b = Ok (group_value g r).
Proof.
  intros [Hne Hg] Htr. revert n cur r b. induction Hg as [|t g Ht Hg IH]; intros n cur r b Hn; [done|].
  destruct g as [|t2 g].
  - cbn [group_words group_value]. rewrite loop_test by done. destruct (test_value t); [|done]. by destruct Htr as [->| ->].
  - change (group_words (t :: t2 :: g)) with (test_text t ++ "&&" :: group_words (t2 :: g)).
    change (group_value (t :: t2 :: g) r) with
      (match test_value t with Some v => group_value (t2 :: g) v | None => None end).
    rewrite <- app_assoc, loop_test by done. destruct (test_value t) as [v|]; [|done].
    rewrite <- app_comm_cons. cbn [eval_loop String.eqb Ascii.eqb Bool.eqb orb].
    destruct n as [|n]; [simpl in Hn; lia|].
    assert (Hwf : well_formed (t2 :: g)) by done. destruct (group_words_ok _ Hwf) as (Hw1 & Hw2 & _).
    destruct (split_words (group_words (t2 :: g) ++ trail)) as [Hb Hsp].
    { intros [? _]%app_eq_nil. done. }
    { apply List.Forall_app. split; [done|]. destruct Htr as [->| ->]; repeat constructor. }
    assert (eval_fuel (S n) (group_words (t2 :: g) ++ trail) =
      Ok (match group_value (t2 :: g) false with Some x => (x, true) | None => (false, false) end)) as ->.
    { cbn [eval_fuel]. rewrite split_on_none by done. cbn [eval_groups]. rewrite Hsp, IH; [|done|simpl in *; lia].
      by destruct (group_value (t2 :: g) false) as [[]|]. }
    change (Ok (group_value (t2 :: g) v)) with (Ok (group_value (t2 :: g) false)).
    destruct (group_value (t2 :: g) false) as [x|] eqn:E; [|done]. cbn [rbind snd negb fst].
    rewrite IH by (done || (simpl in *; lia)). exact (f_equal Ok E).
Qed.

Lemma Join_cons w l : l <> [] -> Join (w :: l) " " = w +:+ " " +:+ Join l " ".
Proof. by destruct l. Qed.

(** The words of a group between the bars, and what the loop makes of them. *)
Lemma group_parts n g lead trail :
  well_formed g -> blank lead -> blank trail -> length g <= n ->
  let ws := lead ++ group_words g ++ trail in
  ws <> [] /\ no_bars (Join ws " ") = true /\ Split (Join ws " ") " "%char = ws /\
  eval_loop (eval_fuel n) ws [] false false = Ok (group_value g false).
Proof.
  intros Hg Hl Ht Hn ws. destruct (group_words_ok g Hg) as (Hw1 & Hw2 & _).
  assert (ws <> []) as Hne by (by intros [_ [? _]%app_eq_nil]%app_eq_nil).
  assert (forall b, blank b -> Forall (fun w => GoText.no_byte " " w = true /\ no_bars w = true) b) as Hb
    by (intros b [->| ->]; repeat constructor).
  destruct (split_words ws Hne) as [H1 H2]; [by unfold ws; rewrite !List.Forall_app; auto|]. split_and!; [done..|].
  unfold ws. destruct Hl as [->| ->]; [by apply loop_group|].
  change ([""] ++ ?x) with ("" :: x). rewrite loop_word by done. by apply loop_group.
Qed.

Lemma chain_words_cons g gs : Forall well_formed (g :: gs) -> chain_words (g :: gs) <> [].
Proof.
  intros Hgs. inversion_clear Hgs as [|? ? Hg _]. destruct (group_words_ok g Hg) as (Hne & _).
  destruct gs; [done|]. by intros [? _]%app_eq_nil.
Qed.

Lemma eval_chain n gs lead :
  gs <> [] -> Forall well_formed gs -> Forall (fun g => length g <= n) gs -> blank lead ->
  eval_groups (eval_fuel n) (split_on (Join (lead ++ chain_words gs) " ") "||") = Ok (chain_value gs).
Proof.
  intros Hne Hgs Hn. revert lead Hn. induction Hgs as [|g gs Hg Hgs IH]; intros lead Hn Hlead; [done|].
  inversion_clear Hn as [|? ? Hgn Hgsn].
  destruct (group_parts n g lead [] Hg Hlead (or_introl eq_refl) Hgn) as (Hn1 & Hb1 & Hs1 & Hv1).
  rewrite app_nil_r in *. destruct gs as [|g2 gs].
  { cbn [chain_words]. rewrite split_on_none by done. cbn [eval_groups chain_value]. rewrite Hs1, Hv1. cbn [rbind].
    by destruct (group_value g false) as [[]|]. }
  destruct (group_parts n g lead [""] Hg Hlead (or_intror eq_refl) Hgn) as (_ & _ & Hs2 & Hv2).
  pose proof (chain_words_cons g2 gs Hgs) as Hcw.
  change (chain_words (g :: g2 :: gs)) with (group_words g ++ "||" :: chain_words (g2 :: gs)).
  rewrite app_assoc, (Join_app (lead ++ group_words g)) by done. rewrite Join_cons by done.
  replace (_ +:+ " " +:+ "||" +:+ " " +:+ Join (chain_words (g2 :: gs)) " ")
    with (Join (lead ++ group_words g) " " +:+ " ||" +:+ Join ([""] ++ chain_words (g2 :: gs)) " ").
  2: { f_equal. by rewrite (Join_app [""]). }
  rewrite split_on_bars by done. cbn [eval_groups chain_value].
  rewrite app_assoc, Join_app in Hs2 by done. change (Join [""] " ") with "" in Hs2. rewrite sapp_nil_r in Hs2.
  rewrite Hs2, <- app_assoc, Hv2. cbn [rbind]. destruct (group_value g false) as [[]|]; [done| |done].
  rewrite IH; [done|done|done|by right].
Qed.

Lemma group_in_chain gs g : Forall well_formed gs -> g ∈ gs -> length g < length (chain_words gs).
Proof.
  induction 1 as [|g0 gs Hg0 Hgs IH]; [by intros ?%elem_of_nil|]. destruct (group_words_ok g0 Hg0) as (_ & _ & Hl).
  assert (0 < length g0) by (destruct Hg0 as [? _]; destruct g0; [done|simpl; lia]).
  intros [->|Hin]%elem_of_cons; (destruct gs as [|g2 gs]; [|change (chain_words (g0 :: g2 :: gs)) with
    (group_words g0 ++ "||" :: chain_words (g2 :: gs)); rewrite length_app]); cbn [chain_words length]; try lia.
  - by apply elem_of_nil in Hin.
  - specialize (IH Hin). simpl length in *. lia.
Qed.

(** What a shell says of tests in a row, joined by [&&] and [||], which have the same precedence. *)
Fixpoint shell_value (v : bool) (ts : list (bool * bool)) : bool :=
  match ts with
  | [] => v
  | (both, x) :: ts => shell_value (if both : bool then v && x else v || x) ts
  end.

(** How a condition of IF is decided without running it, for tests in brackets that are
    joined by [&&] and [||]: the groups between the [||] are looked at in turn, a group with
    a test that cannot be decided makes the whole undecided, and the value of a group is the
    value of its last test, whatever stands before [&&].  For tests that are joined by [||]
    alone and can all be decided, this is what a shell says. *)
Theorem evalConditions_spec gs :
  gs <> [] -> Forall well_formed gs ->
  evalConditions (chain_words gs) = Ok (chain_value gs) /\
  (forall t vs, gs = List.map (fun t => [t]) t -> List.map test_value t = List.map Some vs ->
     chain_value gs = (match vs with v :: vs => shell_value v (List.map (pair false) vs) | [] => false end, true)).
Proof.
  intros Hne Hgs. split.
  - unfold evalConditions. cbn [eval_fuel]. apply (eval_chain _ gs []); [done|done| |by left].
    apply list.Forall_forall. intros g Hg. pose proof (group_in_chain gs g Hgs Hg). pose proof (Join_length (chain_words gs)).
    lia.
  - intros t vs -> Ht. clear Hne Hgs. revert vs Ht. induction t as [|x t IH]; intros [|v vs] Ht; try done.
    injection Ht as Hx Ht. cbn [List.map chain_value group_value]. rewrite Hx. destruct v.
    + cut (forall l, shell_value true (List.map (pair false) l) = true); [by intros ->|]. induction l; [done|]. done.
    + rewrite (IH vs Ht). destruct vs as [|v vs]; [done|]. done.
Qed.

(** A condition that is a command, without brackets, is taken for false: the branch that
    depends on it is never looked at. *)
Lemma commands_are_false ws :
  ws <> [] -> Forall (fun w => word w = true) ws -> evalConditions ws = Ok (false, true).
Proof.
  intros Hne Hws. unfold evalConditions. cbn [eval_fuel]. destruct (split_words ws Hne) as [Hb Hs].
  { eapply List.Forall_impl; [|exact Hws]. by intros w [[? ?]%andb_true_iff _]%andb_true_iff. }
  rewrite split_on_none by done. cbn [eval_groups]. rewrite Hs.
  pose proof (fun eval => loop_words eval ws [] [] false false Hws) as E. rewrite app_nil_r in E. by rewrite E.
Qed.

(** A negation in front of a test is not seen. *)
Lemma negation_is_ignored t v :
  Forall (fun w => word w = true) t -> test_value t = Some v ->
  evalConditions ("!" :: test_text t) = Ok (v, true).
Proof.
  intros Ht Hv. unfold evalConditions. cbn [eval_fuel]. destruct (split_words ("!" :: test_text t)) as [Hb Hs]; [done| |].
  { constructor; [done|]. by destruct (group_words_ok [t] ltac:(split; [done|by constructor])) as (_ & ? & _). }
  rewrite split_on_none by done. cbn [eval_groups]. rewrite Hs, loop_word by done.
  rewrite <- (app_nil_r (test_text t)), loop_test, Hv by done. by destruct v.
Qed.

End Spec.

Section Surprises.
#[local] Instance print_all : Unicode := fun _ => true.

(** A false test before [&&] does not count. *)
Lemma and_is_ignored : run "[ false ] && [ true ]" = Ok (true, true).
Proof. vm_compute. reflexivity. Qed.

(** A shell gives [&&] and [||] the same precedence, and says false here. *)
Lemma or_before_and : run "[ true ] || [ true ] && [ false ]" = Ok (true, true) /\
  shell_value true [(false, true); (true, false)] = false.
Proof. vm_compute. done. Qed.

Lemma evalConditions_spec_witness :
  evalConditions ["["; "a"; "="; "b"; "]"; "||"; "["; "2"; "-gt"; "1"; "]"] = Ok (true, true).
Proof. exact (proj1 (evalConditions_spec [[["a"; "="; "b"]]; [["2"; "-gt"; "1"]]] ltac:(done) ltac:(repeat constructor; done))). Defined.
End Surprises.
