(* ===== verification/Hasher.v ===== *)
(** * The stream that is hashed

    A translation of [util/buildkitskipper/hasher/hasher.go].  A [Hasher] is the text that
    was written to SHA-1; the digest itself is a parameter of the files that use it.

    Every item is written with its length in front, and the theorems say when two streams
    with the same text have the same items: an item that does not start with a digit can be
    told from what follows it. *)

From S2P Require Import Prelude GoStrings Token GoText Numbers RuneFacts Json.

Definition Hasher : Type := string.

Definition New : Hasher := "".

Definition item (b : string) : string := fmt_d (String.length b) +:+ b.

Definition HashBytes (b : string) (h : Hasher) : Hasher := h +:+ item b.

Definition HashInt (i : nat) : Hasher -> Hasher := HashBytes ("int:" +:+ fmt_d i).

Definition HashBool (v : bool) : Hasher -> Hasher := HashBytes ("bool:" +:+ if v then "true" else "false").

Definition HashString (s : string) : Hasher -> Hasher := HashBytes ("str:" +:+ s).

(** [json.Marshal] of a slice of strings; the empty slices of the parser are nil. *)
Definition json_list (l : list string) : string :=
  match l with
  | [] => "null"
  | _ => "[" +:+ Join (List.map json_string l) "," +:+ "]"
  end.

(** The same of a slice that was made by appending to [[]string{}]. *)
Definition json_made_list (l : list string) : string :=
  match l with [] => "[]" | _ => json_list l end.

Definition HashJSONMarshalled (l : list string) : Hasher -> Hasher := HashBytes (json_list l).

(** ** Files *)

(** What [errors.Is(err, os.ErrNotExist)] tells apart. *)
Inductive os_error : Type :=
  | NotExist (text : string)
  | OtherError (text : string).

Record FileInfo : Type := mkInfo { fi_Name : string; fi_Size : nat; fi_IsDir : bool }.

(** A file that was opened gives bytes until its end, or until an error. *)
Class FileSystem : Type := {
  os_Stat : string -> FileInfo + os_error;
  os_Open : string -> (string * option os_error) + os_error;
  os_ReadDir : string -> list string + os_error;
  filepath_Glob : string -> list string + string
}.

(** What was written before an error stays written. *)
Definition HashFile `{FileSystem} (src : string) (h : Hasher) : Hasher * option os_error :=
  match os_Stat src with
  | inr e => (h, Some e)
  | inl st =>
      let h := HashString ("name: " +:+ fi_Name st +:+ ";") h in
      let h := HashString ("size: " +:+ fmt_d (fi_Size st) +:+ ";") h in
      match os_Open src with
      | inr e => (h, Some e)
      | inl (content, e) => (h +:+ content, e)
      end
  end.

(** ** Items can be told apart *)

(** The first byte is there and is not a digit. *)
Definition tagged (b : string) : bool :=
  match b with "" => false | String c _ => negb (is_decimal c) end.

Lemma fmt_d_digits n : sall is_decimal (fmt_d n) = true.
Proof. change (fmt_d n) with (pretty (N.of_nat n)). apply pretty_N_decimal. Qed.

Lemma digits_prefix d1 d2 s t :
  sall is_decimal d1 = true -> sall is_decimal d2 = true -> tagged s = true -> tagged t = true ->
  d1 +:+ s = d2 +:+ t -> d1 = d2 /\ s = t.
Proof.
  revert d2. induction d1 as [|c d1 IH]; intros [|d d2] H1 H2 Hs Ht He; rewrite ?sapp_cons in He;
    repeat match type of He with context ["" +:+ ?x] => change ("" +:+ x) with x in He end; simpl in *; try done.
  - subst s. simpl in Hs. apply andb_true_iff in H2 as [H2 _]. by rewrite H2 in Hs.
  - subst t. simpl in Ht. apply andb_true_iff in H1 as [H1 _]. by rewrite H1 in Ht.
  - apply andb_true_iff in H1 as [_ H1], H2 as [_ H2]. injection He as <- He. by destruct (IH d2 H1 H2 Hs Ht He) as [-> ->].
Qed.

Lemma tagged_app b s : tagged b = true -> tagged (b +:+ s) = true.
Proof. by destruct b. Qed.

Lemma item_inj a b s t :
  tagged a = true -> tagged b = true -> item a +:+ s = item b +:+ t -> a = b /\ s = t.
Proof.
  intros Ha Hb He. unfold item in He. rewrite <- !sapp_assoc in He.
  apply digits_prefix in He as [Hl He]; [|apply fmt_d_digits|apply fmt_d_digits|by apply tagged_app|by apply tagged_app].
  apply (inj (pretty (A := nat))) in Hl. by apply sapp_split in He.
Qed.

(** ** Lists in JSON *)

Lemma json_list_tagged l : tagged (json_list l) = true.
Proof. by destruct l. Qed.

Lemma json_Join_inj l1 l2 s t :
  Forall (fun x => utf8 x = true) l1 -> Forall (fun x => utf8 x = true) l2 -> l1 <> [] -> l2 <> [] ->
  Join (List.map json_string l1) "," +:+ "]" +:+ s = Join (List.map json_string l2) "," +:+ "]" +:+ t -> l1 = l2 /\ s = t.
Proof.
  intros H1. revert l2. induction H1 as [|x l1 Hx H1 IH]; intros l2 H2 N1 N2 He; [done|].
  destruct H2 as [|y l2 Hy H2]; [done|]. 
  assert (forall a m u, Join (List.map json_string (a :: m)) "," +:+ "]" +:+ u =
    json_string a +:+ match m with [] => "]" +:+ u | _ => "," +:+ Join (List.map json_string m) "," +:+ "]" +:+ u end) as Hj.
  { intros a [|b m] u; [done|]. cbn [List.map Join]. by rewrite <- !sapp_assoc. }
  rewrite !Hj in He. apply json_string_inj in He as [-> He]; [|done|done].
  destruct l1 as [|x1 l1], l2 as [|y1 l2]; try done; rewrite !sapp_cons in He; injection He as He; [done|].
  by destruct (IH (y1 :: l2) H2 ltac:(done) ltac:(done) He) as [-> ->].
Qed.

Lemma json_list_inj l1 l2 :
  Forall (fun x => utf8 x = true) l1 -> Forall (fun x => utf8 x = true) l2 -> json_list l1 = json_list l2 -> l1 = l2.
Proof.
  intros H1 H2 He. destruct l1 as [|x l1], l2 as [|y l2]; try done. unfold json_list in He. injection He as He.
  apply (json_Join_inj (x :: l1) (y :: l2) "" ""); try done.
Qed.

(** ** Files can be told apart *)

(** A directory entry that does not change while it is read: its size is the number of its bytes. *)
Definition steady `{FileSystem} (src : string) : Prop :=
  exists st content, os_Stat src = inl st /\ os_Open src = inl (content, None) /\ fi_Size st = String.length content.

(** Two files that leave the same stream have the same name and the same bytes. *)
Lemma HashFile_inj (F1 F2 : FileSystem) src1 src2 h r1 r2 :
  @steady F1 src1 -> @steady F2 src2 ->
  fst (@HashFile F1 src1 h) +:+ r1 = fst (@HashFile F2 src2 h) +:+ r2 ->
  @os_Open F1 src1 = @os_Open F2 src2 /\
  (exists s1 s2, @os_Stat F1 src1 = inl s1 /\ @os_Stat F2 src2 = inl s2 /\ fi_Name s1 = fi_Name s2) /\
  @HashFile F1 src1 h = @HashFile F2 src2 h /\ r1 = r2.
Proof.
  intros (s1 & c1 & E1 & O1 & L1) (s2 & c2 & E2 & O2 & L2). unfold HashFile. rewrite E1, E2, O1, O2. cbn [fst].
  unfold HashString, HashBytes. rewrite <- !sapp_assoc. intros He%sapp_cancel_l.
  apply item_inj in He as [Hn He]; [|done..]. apply item_inj in He as [Hz He]; [|done..].
  apply (sapp_cancel_l "str:"), (sapp_cancel_l "name: "), sapp_cancel_r in Hn.
  apply (sapp_cancel_l "str:"), (sapp_cancel_l "size: "), sapp_cancel_r in Hz.
  apply (inj (pretty (A := nat))) in Hz.
  apply sapp_split in He as [-> ->]; [|lia]. rewrite Hn, Hz. split_and!; [done| |done|done]. by exists s1, s2.
Qed.

(** Two files of the same name and bytes in different directories are not told apart: only
    the last part of the path is written. *)
Lemma directories_are_ignored `{FileSystem} src1 src2 st c h :
  os_Stat src1 = inl st -> os_Stat src2 = inl st -> os_Open src1 = inl c -> os_Open src2 = inl c ->
  HashFile src1 h = HashFile src2 h.
Proof. intros E1 E2 O1 O2. unfold HashFile. by rewrite E1, E2, O1, O2. Qed.
