(* ===== verification/InputGraph.v ===== *)
(** * The input graph

    A translation of [inputgraph/loader.go], [loader_hashing.go], [hash.go], [error.go] and
    of [ParseProjectCommand] in [util.go]: the walk over a target and the targets it depends on
    that hashes their inputs, for auto-skip.

    A loader is a record; the cache of hashes and the statistics, which all loaders share, are
    a part of it that a child takes over from its parent and gives back.  The resolver of build
    contexts, the files, SHA-1 and the environment of the process are parameters.  Targets call
    each other through [load], which takes fuel; log output and times are left out. *)

From stdpp Require Import gmap sorting.
From S2P Require Import Prelude GoStrings Token Ast GoText Reference Imports KeyValue Scope Collection BuildArgs.
From S2P Require Import Numbers.
From S2P Require Import Effects ShellLex Expand Matrix FlagUtil ConvApi Interp Features Json Platform Builtin.
From S2P Require Import Conditions Hasher.

Open Scope eff_scope.

#[local] Abbreviation Features := Features.Features.

(** ** Errors *)

(** [LSource] is an [Error] of this package, which does not unwrap; [LWrap] is [fmt.Errorf] with [%w]. *)
Inductive lerror : Type :=
  | LText (text : string)
  | LWrap (text : string) (cause : lerror)
  | LComplex
  | LSource (loc : option SourceLocation) (msg : string) (cause : option lerror)
  | LPanic (text : string).

(** [errors.Is(err, errComplexCondition)] *)
Fixpoint is_complex (e : lerror) : bool :=
  match e with LComplex => true | LWrap _ c => is_complex c | _ => false end.

Definition errCannotLoadRemoteTarget : lerror := LText "cannot load remote target".
Definition errInvalidRemoteTarget : lerror :=
  LText "only remote targets referenced by a complete Git SHA or an explicit tag referenced as 'tags/...' are supported".

Definition error_text (e : os_error) : string := match e with NotExist t => t | OtherError t => t end.

(** ** The loader *)

Record Stats : Type := mkStats { TargetsHashed : nat; TargetCacheHits : nat; TargetsVisited : nat }.

(** What all loaders of a walk share. *)
Record Shared : Type := mkShared { hashCache : gmap string string; stats : Stats }.

Record loader : Type := mkLoader {
  l_target : Reference;
  visited : gset string;
  l_hasher : Hasher;
  l_ci : bool;
  builtinArgs : DefaultArgs;
  overridingVars : option Scope;
  globalImports : gmap string ImportTrackerVal;
  varCollection : option Collection;
  l_features : option Features;
  baseProcessed : bool;
  primaryTarget : bool;
  shared : Shared
}.

Definition set_hasher (h : Hasher) (l : loader) : loader :=
  mkLoader (l_target l) (visited l) h (l_ci l) (builtinArgs l) (overridingVars l) (globalImports l) (varCollection l)
    (l_features l) (baseProcessed l) (primaryTarget l) (shared l).
Definition set_coll (c : Collection) (l : loader) : loader :=
  mkLoader (l_target l) (visited l) (l_hasher l) (l_ci l) (builtinArgs l) (overridingVars l) (globalImports l) (Some c)
    (l_features l) (baseProcessed l) (primaryTarget l) (shared l).
Definition set_features (f : Features) (l : loader) : loader :=
  mkLoader (l_target l) (visited l) (l_hasher l) (l_ci l) (builtinArgs l) (overridingVars l) (globalImports l) (varCollection l)
    (Some f) (baseProcessed l) (primaryTarget l) (shared l).
Definition set_shared (s : Shared) (l : loader) : loader :=
  mkLoader (l_target l) (visited l) (l_hasher l) (l_ci l) (builtinArgs l) (overridingVars l) (globalImports l) (varCollection l)
    (l_features l) (baseProcessed l) (primaryTarget l) s.

Definition count_visit (s : Shared) : Shared :=
  mkShared (hashCache s) (mkStats (TargetsHashed (stats s)) (TargetCacheHits (stats s)) (S (TargetsVisited (stats s)))).
Definition count_hit (s : Shared) : Shared :=
  mkShared (hashCache s) (mkStats (TargetsHashed (stats s)) (S (TargetCacheHits (stats s))) (TargetsVisited (stats s))).
Definition store_hash (key v : string) (s : Shared) : Shared :=
  mkShared (<[key := v]> (hashCache s)) (mkStats (S (TargetsHashed (stats s))) (TargetCacheHits (stats s)) (TargetsVisited (stats s))).

(** What the resolver gives for a target. *)
Record BuildContext : Type := mkBuildContext { bc_Earthfile : Tree; bc_Features : Features; bc_Git : option GitMetadata }.

Class InputEnv : Type := {
  Resolve : Reference -> BuildContext + string;
  sha1 : string -> string;
  LookupEnv : string -> option string;
  home : string
}.

(** [hex.EncodeToString] *)
Fixpoint hex (s : string) : string := match s with "" => "" | String c s => lower_hex 2 (byteZ c) +:+ hex s end.

Definition L (A : Type) : Type := Eff loader lerror A.

Definition of_res {A} (r : res A) : L A :=
  match r with Ok a => eret a | Err e => efail (LText e) | NoFuel => estuck end.

Definition newError {A} (loc : option SourceLocation) (msg : string) : L A := efail (LSource loc msg None).
Definition wrapError {A} (loc : option SourceLocation) (msg : string) (m : L A) : L A :=
  ewrap (fun e => LSource loc msg (Some e)) m.
Definition addErrorSrc {A} (loc : option SourceLocation) (m : L A) : L A := wrapError loc "" m.
Definition errorf {A} (text : string) (m : L A) : L A := ewrap (LWrap text) m.

Definition panic_nil : string := "invalid memory address or nil pointer dereference".
Definition panic_index : string := "index out of range".

Definition hash (f : Hasher -> Hasher) : L unit := eset (fun l => set_hasher (f (l_hasher l)) l).

(** A method of the collection. *)
Definition on_coll {A} (f : Collection -> Collection * res A) : L A := fun l =>
  match varCollection l with
  | None => (l, Fail (LPanic panic_nil))
  | Some c => let '(c, r) := f c in of_res r (set_coll c l)
  end.

Definition on_imports {A} (f : ImportTracker -> ImportTracker * res A) : L A :=
  on_coll (fun v =>
    match frame v with
    | None => (v, Err empty_stack)
    | Some fr =>
        let '(ir, r) := f (imports fr) in
        (set_frame (mkFrame (absRef fr) ir (overriding fr) (args fr) (globals fr) (vars fr) (frameName fr)) v, r)
    end).

Definition AbsRef : L Reference :=
  on_coll (fun v => (v, match frame v with None => Err empty_stack | Some fr => Ok (absRef fr) end)).

(** ** Hashing of statements ([loader_hashing.go]) *)

Definition hashCommand (c : Command) : L unit :=
  hash (HashString (cmd_Name c));;; hash (HashJSONMarshalled (cmd_Args c));;; hash (HashBool (cmd_ExecMode c)).

Definition hashIfStatement (s : IfStatement) : L unit :=
  match s with
  | mkIf elseBody _ expression elseIf ifBody execMode =>
      hash (HashString "IF");;; hash (HashJSONMarshalled expression);;; hash (HashBool execMode);;;
      hash (HashInt (length ifBody));;; hash (HashInt (length elseIf));;;
      match elseBody with Some b => hash (HashInt (length b)) | None => eret tt end
  end.

Definition hashElseIf (e : ElseIfStatement) : L unit :=
  match e with
  | mkElseIf _ expression body execMode =>
      hash (HashString "ELSE IF");;; hash (HashJSONMarshalled expression);;; hash (HashBool execMode);;;
      hash (HashInt (length body))
  end.

Definition hashWaitStatement (w : WaitStatement) : L unit :=
  match w with
  | mkWait _ args body => hash (HashString "WAIT");;; hash (HashInt (length body));;; hash (HashJSONMarshalled args)
  end.

Definition hashVersion (v : Version) : L unit := hash (HashString "VERSION");;; hash (HashJSONMarshalled (ver_Args v)).

Definition hashForStatement (f : ForStatement) : L unit :=
  match f with mkFor _ args _ => hash (HashString "FOR");;; hash (HashJSONMarshalled args) end.

Definition hashTryStatement : L unit := hash (HashString "TRY").

(** ** Texts and files *)

Section Loader.
Context `{RangeOrder} `{Unicode} `{UnicodeTables} `{SliceGrowth} `{FlagParsers} `{Platforms} `{InputEnv} `{FileSystem}.

(** A shell expression stands for the whole text. *)
Definition expandArgs (text : string) : L string := fun l =>
  match varCollection l with
  | None => (l, Fail (LPanic panic_nil))
  | Some c =>
      let '(c, (_, r)) := Expand (W := unit) text (Some (fun _ => eret text)) c tt in
      match r with
      | Ret x => (set_coll c l, Ret x)
      | Fail e => (set_coll c l, Fail (LText e))
      | Stuck => (set_coll c l, Stuck)
      end
  end.

Definition expandArgsSlice (texts : list string) : L (list string) := emap expandArgs texts.

Definition uniqStrs (all : list string) : list string :=
  (range (list_to_map (List.map (fun v => (v, "")) all))).*1.

Definition of_os {A} (text : string) (r : A + os_error) : L A :=
  match r with inl a => eret a | inr e => efail (LWrap text (LText (error_text e))) end.

(** The fuel is the depth of the directories. *)
Fixpoint expandDirs (fuel : nat) (dirs : list string) : L (list string) :=
  match fuel with
  | 0 => estuck
  | S fuel =>
      ret <- emap (fun dir =>
        stat <- of_os "failed to stat file" (os_Stat dir);;
        if fi_IsDir stat then
          entries <- of_os "failed to read dir" (os_ReadDir dir);;
          expandDirs fuel (List.map (fun e => path_Join [dir; e]) entries)
        else eret [dir]) dirs;;
      eret (uniqStrs (concat ret))
  end.

Definition contains (s sub : string) : bool := bool_decide (is_Some (cut sub s)).

Definition expandCopyFiles (fuel : nat) (src : string) (mustExist : bool) : L (list string) :=
  if contains src "**" then efail (LText "globstar (**) not supported")
  else if contains src "*" then
    match filepath_Glob src with
    | inr e => efail (LWrap "unable to expand glob pattern" (LText e))
    | inl matches => expandDirs fuel matches
    end
  else
    match os_Stat src with
    | inr (NotExist e) =>
        if negb mustExist then eret [src] else efail (LWrap "failed to stat file" (LText e))
    | inr (OtherError e) => efail (LWrap "failed to stat file" (LText e))
    | inl stat => if fi_IsDir stat then expandDirs fuel [src] else eret [src]
    end.

(** One file of a COPY. *)
Definition hash_file (loc : option SourceLocation) (path : string) (mustExist : bool) (file : string) : L unit := fun l =>
  let '(h, r) := HashFile file (l_hasher l) in
  let l := set_hasher h l in
  match r with
  | None => (l, Ret tt)
  | Some e =>
      match e, mustExist with
      | NotExist _, false => (l, Ret tt)
      | _, _ => (l, Fail (LSource loc ("failed to hash file " +:+ path) (Some (LText (error_text e)))))
      end
  end.

(** All files of a COPY, sorted. *)
Definition copy_files (depth : nat) (loc : option SourceLocation) (path : string) (mustExist : bool) : L unit :=
  files <- addErrorSrc loc (expandCopyFiles depth path mustExist);;
  eiter (hash_file loc path mustExist) (merge_sort str_le files).

Definition targetCacheKey (l : loader) : string :=
  let h := HashString (referenceStringCanonical (l_target l)) New in
  let h := match overridingVars l with
           | Some s => fold_left (fun h v => HashString ("VAR " +:+ v) h) (BuildArgs s []) h
           | None => h
           end in
  hex (sha1 h).

(** ** Targets *)

Definition derefedTarget (targetName : string) : L Reference :=
  target <- errorf ("failed to parse target " +:+ targetName) (of_res (ParseTarget home targetName));;
  d <- errorf ("failed to deref target " +:+ referenceString target) (on_imports (fun ir => (ir, Deref home target ir)));;
  l <- eget;;
  abs <- AbsRef;;
  targetRef <- errorf ("failed to join " +:+ referenceString (l_target l) +:+ " and " +:+ referenceString target)
    (of_res (JoinReferences abs (fst (fst d))));;
  match kind targetRef with
  | KTarget => eret targetRef
  | KCommand => efail (LText "want domain.Target, got domain.Command")
  end.

Definition forTarget (target : Reference) (args : list string) (passArgs : bool) : L loader :=
  l <- eget;;
  flagArgs <- of_res (ParseFlagArgs args);;
  over <- of_res (ParseCommandLineArgs LookupEnv flagArgs);;
  over <- (if passArgs then match overridingVars l with
                            | Some parent => eret (CombineScopes [over; parent])
                            | None => efail (LPanic panic_nil)
                            end
           else eret over);;
  global <- (if IsLocalInternal target then on_imports (fun ir => (ir, Ok (global ir))) else eret ∅);;
  eret (mkLoader target ({[referenceString target]} ∪ visited l) New (l_ci l) (builtinArgs l) (Some over) global None None
    (IsLocalInternal target) false (shared l)).

(** The walk of another target, which shares the cache. *)
Definition run_child (child : loader) (m : L string) : L string := fun l =>
  let '(c, r) := m (set_shared (shared l) child) in (set_shared (shared c) l, r).

Section Walk.
(** The walk of a target, and the depth of the directories. *)
Variable load : L string.
Variable depth : nat.

Definition loadTargetFromString (targetName : string) (args : list string) (passArgs : bool) (srcLoc : option SourceLocation)
    : L unit :=
  targetName <- wrapError srcLoc "failed to expand args" (expandArgs targetName);;
  args <- wrapError srcLoc "failed to expand args" (expandArgsSlice args);;
  if containsShellExpr targetName then newError srcLoc ("dynamic target " +:+ Quote targetName +:+ " cannot be resolved")
  else
    target <- addErrorSrc srcLoc (derefedTarget targetName);;
    if IsRemote target then
      if supportedRemoteTarget target then hash (HashString (referenceStringCanonical target))
      else addErrorSrc srcLoc (efail errInvalidRemoteTarget)
    else
      let fullTargetName := referenceString target in
      if String.eqb fullTargetName "" then newError srcLoc "missing target string"
      else
        l <- eget;;
        if bool_decide (fullTargetName ∈ visited l) then
          newError srcLoc ("circular dependency detected; " +:+ fullTargetName +:+ " already called")
        else
          child <- wrapError srcLoc ("failed to create loader for target " +:+ Quote targetName) (forTarget target args passArgs);;
          h <- run_child child load;;
          hash (HashBytes h).

Definition handleFrom (cmd : Command) : L unit :=
  r <- of_res (ParseArgsCleaned parse_From (cmd_Args cmd));;
  match snd r with
  | [] => efail (LPanic panic_index)
  | fromTarget :: args =>
      if negb (ContainsByte fromTarget "+") then eret tt
      else loadTargetFromString fromTarget args false (cmd_SourceLocation cmd)
  end.

Definition handleBuild (cmd : Command) : L unit :=
  r <- of_res (ParseArgsCleaned parse_Build (cmd_Args cmd));;
  match snd r with
  | [] => newError (cmd_SourceLocation cmd) "missing BUILD arg"
  | targetName :: _ =>
      eiter (fun args => loadTargetFromString targetName (List.tl args) (build_PassArgs (fst r)) (cmd_SourceLocation cmd))
        (BuildArgMatrix (snd r))
  end.

(** An artifact, with its arguments, or nothing for a file of the build context. *)
Definition copy_artifact (loc : option SourceLocation) (src : string) : L (option (Artifact * list string)) :=
  if IsInParamsForm src then
    p <- wrapError loc "failed to parse COPY params" (of_res (ParseParams src));;
    name <- wrapError loc "failed to expand COPY artifact" (expandArgs (fst p));;
    a <- wrapError loc "failed to parse artifact" (of_res (ParseArtifact home name));;
    eret (Some (a, snd p))
  else
    name <- wrapError loc "failed to expand COPY artifact" (expandArgs src);;
    r <- etry (of_res (ParseArtifact home name));;
    eret (match r with inl a => Some (a, []) | inr _ => None end).

Definition handleCopySrc (cmd : Command) (src : string) (mustExist : bool) : L unit :=
  let loc := cmd_SourceLocation cmd in
  a <- copy_artifact loc src;;
  match a with
  | Some (artifactSrc, extraArgs) =>
      extraArgs <- wrapError loc "failed to expand args" (expandArgsSlice extraArgs);;
      loadTargetFromString (referenceString (art_Target artifactSrc)) extraArgs false loc
  | None =>
      src <- wrapError loc "failed to expand args" (expandArgs src);;
      if containsShellExpr src then newError loc ("dynamic COPY source " +:+ Quote src +:+ " cannot be resolved")
      else
        l <- eget;;
        let path := path_Join [LocalPath (l_target l); src] in
        copy_files depth loc path mustExist
  end.

Definition handleCopy (cmd : Command) : L unit :=
  r <- of_res (ParseArgsCleaned parse_Copy (cmd_Args cmd));;
  if negb (String.eqb (copy_From (fst r)) "") then newError (cmd_SourceLocation cmd) "COPY --from is not supported"
  else if length (snd r) <? 2 then newError (cmd_SourceLocation cmd) "COPY must include a source and destination"
  else eiter (fun src => handleCopySrc cmd src (negb (copy_IfExists (fst r)))) (removelast (snd r)).

Definition handleImport (cmd : Command) (isBase : bool) : L unit :=
  match cmd_Args cmd with
  | [] => efail (LPanic panic_index)
  | path :: _ =>
      let alias := if length (cmd_Args cmd) =? 3 then nth 2 (cmd_Args cmd) "" else "" in
      wrapError (cmd_SourceLocation cmd) "failed to add import" (on_imports (Imports.Add home path alias isBase false false))
  end.

Definition handleFromDockerfile (cmd : Command) : L unit :=
  r <- wrapError (cmd_SourceLocation cmd) "failed to parse args" (of_res (ParseArgsCleaned parse_FromDockerfile (cmd_Args cmd)));;
  (if String.eqb (fd_Path (fst r)) "" then eret tt else handleCopySrc cmd (fd_Path (fst r)) false);;;
  match snd r with
  | [] => eret tt
  | src :: _ => handleCopySrc cmd src false
  end.

Definition get_features : L Features := fun l =>
  (l, match l_features l with Some f => Ret f | None => Fail (LPanic panic_nil) end).

Definition handleArg (cmd : Command) (isBase : bool) : L unit :=
  let loc := cmd_SourceLocation cmd in
  f <- get_features;;
  r <- wrapError loc "failed to parse args" (of_res (ParseArgArgs parse_Arg cmd isBase (has "explicit-global" f)));;
  let '(opts, key, valueOrNil) := r in
  expanded <- (match valueOrNil with
               | Some v => wrapError loc "failed to expand args" (expandArgs v)
               | None => eret ""
               end);;
  hash (HashString ("ARG " +:+ key +:+ "=" +:+ expanded));;;
  wrapError loc "failed to declare variable" (on_coll (DeclareVar key (mkPrefs None expanded (arg_Global opts) true)));;;
  eret tt.

Definition handleLet (cmd : Command) : L unit :=
  let loc := cmd_SourceLocation cmd in
  r <- wrapError loc "failed to parse LET args" (of_res (ParseArgsCleaned parse_Let (cmd_Args cmd)));;
  match snd r with
  | [key; _; baseVal] =>
      val <- wrapError loc ("failed to expand LET value " +:+ Quote baseVal) (expandArgs baseVal);;
      hash (HashString ("LET " +:+ key +:+ "=" +:+ val));;;
      wrapError loc "failed to declare variable" (on_coll (DeclareVar key (mkPrefs None val false false)));;;
      eret tt
  | _ => newError loc "failed to parse LET args"
  end.

Definition handleSet (cmd : Command) : L unit :=
  let loc := cmd_SourceLocation cmd in
  r <- wrapError loc "failed to parse SET args" (of_res (ParseArgsCleaned parse_Set (cmd_Args cmd)));;
  match snd r with
  | [key; _; baseVal] =>
      val <- wrapError loc ("failed to expand SET value " +:+ Quote baseVal) (expandArgs baseVal);;
      hash (HashString ("SET " +:+ key +:+ "=" +:+ val));;;
      wrapError loc "failed to declare variable" (on_coll (UpdateVar key val None))
  | _ => newError loc "failed to parse SET args"
  end.

(** The commands that need more than their hash. *)
Definition handle_inputs (cmd : Command) : L unit :=
  let named n := String.eqb (cmd_Name cmd) n in
  if named CmdFrom then handleFrom cmd
  else if named CmdBuild then handleBuild cmd
  else if named CmdCopy then handleCopy cmd
  else if named CmdArg then handleArg cmd false
  else if named CmdLet then handleLet cmd
  else if named CmdSet then handleSet cmd
  else if named CmdFromDockerfile then handleFromDockerfile cmd
  else if named CmdImport then handleImport cmd false
  else eret tt.

Definition handleCommand (cmd : Command) : L unit := hashCommand cmd;;; handle_inputs cmd.

(** The arguments are replaced by what they expand to, in a slice of their own. *)
Definition handleWithDocker (cmd : Command) : L unit :=
  let loc := cmd_SourceLocation cmd in
  args <- wrapError loc "failed to expand args" (expandArgsSlice (cmd_Args cmd));;
  hash (HashString (cmd_Name cmd));;; hash (HashBytes (json_made_list args));;; hash (HashBool (cmd_ExecMode cmd));;;
  r <- ewrap (fun _ => LSource loc "failed to parse WITH DOCKER flags" None) (of_res (ParseArgsCleaned parse_WithDocker args));;
  eiter (fun load_ =>
    p <- wrapError loc "failed to parse --load value" (of_res (ParseLoad load_));;
    loadTargetFromString (snd (fst p)) (snd p) false loc) (wd_Loads (fst r)).

Definition expandAndEval (expr : list string) : L bool :=
  expr <- expandArgsSlice expr;;
  r <- of_res (evalConditions expr);;
  if negb (snd r) then efail LComplex else eret (fst r).

(** The statements with blocks, given the walk of a block. *)
Section Blocks.
Variable loadBlock : Block -> L unit.

Definition load_option (b : option Block) : L unit := match b with Some b => loadBlock b | None => eret tt end.

Definition handleWith (with_ : WithStatement) : L unit :=
  match with_ with
  | mkWith _ body cmd =>
      if negb (String.eqb (cmd_Name cmd) CmdDocker) then newError (cmd_SourceLocation cmd) "expected WITH DOCKER"
      else handleWithDocker cmd;;; loadBlock body
  end.

Definition handleIfEval (ifStmt : IfStatement) : L unit :=
  match ifStmt with
  | mkIf elseBody _ expression elseIf ifBody _ =>
      result <- expandAndEval expression;;
      if (result : bool) then loadBlock ifBody
      else
        (fix each (es : list ElseIfStatement) : L unit :=
          match es with
          | [] => load_option elseBody
          | mkElseIf _ e b _ :: es =>
              result <- expandAndEval e;; if (result : bool) then loadBlock b else each es
          end) elseIf
  end.

Definition handleIfDefault (ifStmt : IfStatement) : L unit :=
  match ifStmt with
  | mkIf elseBody _ _ elseIf ifBody _ =>
      loadBlock ifBody;;;
      (fix each (es : list ElseIfStatement) : L unit :=
        match es with
        | [] => eret tt
        | mkElseIf l e b x :: es => hashElseIf (mkElseIf l e b x);;; loadBlock b;;; each es
        end) elseIf;;;
      load_option elseBody
  end.

Definition handleIf (ifStmt : IfStatement) : L unit :=
  hashIfStatement ifStmt;;;
  r <- etry (handleIfEval ifStmt);;
  match r with
  | inl _ => eret tt
  | inr err => if is_complex err then handleIfDefault ifStmt else efail err
  end.

Definition handleFor (forStmt : ForStatement) : L unit :=
  match forStmt with
  | mkFor _ fargs body =>
      hashForStatement forStmt;;;
      r <- errorf "failed to parse FOR args" (of_res (ParseArgsCleaned parse_For fargs));;
      expandedArgs <- expandArgsSlice (snd r);;
      match expandedArgs with
      | [] => efail (LPanic panic_index)
      | name :: _ =>
          let vals := flattenForArgs expandedArgs (for_Separators (fst r)) in
          hash (HashInt (length vals));;;
          eiter (fun val =>
            hash (HashString ("FOR " +:+ name +:+ "=" +:+ val));;;
            on_coll (SetArg name val);;;
            loadBlock body;;;
            on_coll (UnsetArg name)) vals
      end
  end.

Definition handleWait (waitStmt : WaitStatement) : L unit :=
  match waitStmt with mkWait _ _ body => hashWaitStatement waitStmt;;; loadBlock body end.

Definition handleTry (tryStmt : TryStatement) : L unit :=
  match tryStmt with
  | mkTry catchBody finallyBody _ tryBody =>
      hashTryStatement;;; loadBlock tryBody;;; load_option catchBody;;; load_option finallyBody
  end.
End Blocks.

Fixpoint handleStatement (s : Statement) : L unit :=
  let handleStatements (b : Block) : L unit := hash (HashInt (length b));;; eiter handleStatement b in
  match s with
  | mkStatement (SCommand cmd) _ => handleCommand cmd
  | mkStatement (SWith w) _ => handleWith handleStatements w
  | mkStatement (SIf i) _ => handleIf handleStatements i
  | mkStatement (SFor f) _ => handleFor handleStatements f
  | mkStatement (SWait w) _ => handleWait handleStatements w
  | mkStatement (STry t) _ => handleTry handleStatements t
  end.

Definition handleStatements (b : Block) : L unit := hash (HashInt (length b));;; eiter handleStatement b.

Definition loadBlock (b : Block) : L unit := handleStatements b.

(** ** A target *)

Definition find_recipe (name : string) (ts : list Target) : option Block :=
  match List.find (fun t => String.eqb (target_Name t) name) ts with
  | Some t => match target_Recipe t with [] => None | b => Some b end
  | None => None
  end.

(** A statement of the base recipe; the others are passed over. *)
Definition base_statement (s : Statement) : L unit :=
  match s with
  | mkStatement (SCommand cmd) _ =>
      if String.eqb (cmd_Name cmd) CmdImport then handleImport cmd true
      else if String.eqb (cmd_Name cmd) CmdArg then handleArg cmd true
      else if String.eqb (cmd_Name cmd) CmdFrom then handleFrom cmd
      else eret tt
  | _ => eret tt
  end.

(** The walk of a resolved target, given the fields that do not change during it. *)
Definition load_tree (l : loader) (cacheKey : string) (bc : BuildContext) : L string :=
  eset (set_coll (NewCollection
    (BuiltinArgs (l_target l) None (bc_Git bc) (builtinArgs l) (bc_Features bc) false (l_ci l))
    (overridingVars l) (l_target l) (globalImports l) (has "arg-scope-and-set" (bc_Features bc)) (has "shell-out-anywhere" (bc_Features bc))));;;
  match overridingVars l with
  | Some s => eiter (fun v => hash (HashString ("VAR " +:+ v))) (BuildArgs s [])
  | None => eret tt
  end;;;
  let ef := bc_Earthfile bc in
  match tree_Version ef with Some v => hashVersion v | None => eret tt end;;;
  (if negb (baseProcessed l) then eiter base_statement (BaseRecipe ef) else eret tt);;;
  (if String.eqb (Name (l_target l)) "base" then eret tt
   else match find_recipe (Name (l_target l)) (Targets ef) with
        | None => efail (LText ("target " +:+ Quote (Name (l_target l)) +:+ " not found"))
        | Some block => loadBlock block
        end);;;
  l <- eget;;
  let v := sha1 (l_hasher l) in
  eset (fun l => set_shared (store_hash cacheKey v (shared l)) l);;;
  eret v.

Definition load_resolved (cacheKey : string) (bc : BuildContext) : L string :=
  eset (set_features (bc_Features bc));;; l <- eget;; load_tree l cacheKey bc.

Definition load_body : L string :=
  l <- eget;;
  if IsRemote (l_target l) then efail errCannotLoadRemoteTarget
  else
    eset (fun l => set_shared (count_visit (shared l)) l);;;
    let cacheKey := targetCacheKey l in
    match hashCache (shared l) !! cacheKey with
    | Some b => eset (fun l => set_shared (count_hit (shared l)) l);;; eret b
    | None =>
        match Resolve (l_target l) with
        | inr e => efail (LText e)
        | inl bc => load_resolved cacheKey bc
        end
    end.

End Walk.

Fixpoint load (depth fuel : nat) : L string :=
  match fuel with
  | 0 => estuck
  | S fuel => load_body (load depth fuel) depth
  end.

(** ** [HashTarget] *)

Record HashOpt : Type := mkHashOpt { ho_OverridingVars : option Scope; ho_Target : Reference; ho_BuiltinArgs : DefaultArgs; ho_CI : bool }.

Definition no_stats : Stats := mkStats 0 0 0.

Definition json_DefaultArgs (d : DefaultArgs) : string :=
  "{" +:+ json_string "EarthVersion" +:+ ":" +:+ json_string (EarthVersion d) +:+ "," +:+
  json_string "EarthBuildSha" +:+ ":" +:+ json_string (EarthBuildSha d) +:+ "}".

Definition newLoader (opt : HashOpt) : loader :=
  mkLoader (ho_Target opt) ∅ (HashBytes (json_DefaultArgs (ho_BuiltinArgs opt)) New) (ho_CI opt) (ho_BuiltinArgs opt)
    (ho_OverridingVars opt) ∅ None None false true (mkShared ∅ no_stats).

Definition HashTarget (depth fuel : nat) (opt : HashOpt) : out lerror (string * Stats) :=
  let t := ho_Target opt in
  if IsRemote t then
    if supportedRemoteTarget t then Ret (sha1 (HashString (referenceStringCanonical t) New), no_stats)
    else Fail errInvalidRemoteTarget
  else
    match load depth fuel (newLoader opt) with
    | (l, Ret b) => Ret (b, stats (shared l))
    | (_, Fail e) => Fail e
    | (_, Stuck) => Stuck
    end.

(** ** [ParseProjectCommand] *)

Definition is_project (s : Statement) : option Command :=
  match s with
  | mkStatement (SCommand cmd) _ => if String.eqb (cmd_Name cmd) CmdProject then Some cmd else None
  | _ => None
  end.

Definition errProject : string := "failed to parse PROJECT command".

Definition ParseProjectCommand (target : Reference) : (string * string) + lerror :=
  if IsRemote target then inr errCannotLoadRemoteTarget
  else
    match Resolve target with
    | inr e => inr (LText e)
    | inl bc =>
        match omap is_project (BaseRecipe (bc_Earthfile bc)) with
        | [] => inr (LText "PROJECT command is required for remote storage")
        | cmd :: _ =>
            match cmd_Args cmd with
            | [arg] => match Split arg slash with
                       | [org; project] => inl (org, project)
                       | _ => inr (LText errProject)
                       end
            | _ => inr (LText errProject)
            end
        end
    end.

End Loader.

(** ** [error.go] *)

Fixpoint Error (e : lerror) : string :=
  match e with
  | LText t => t
  | LWrap t c => t +:+ ": " +:+ Error c
  | LComplex => "condition cannot be evaluated"
  | LSource _ msg cause =>
      Join ((if String.eqb msg "" then [] else [msg]) ++ match cause with Some c => [Error c] | None => [] end) ": "
  | LPanic t => t
  end.

(** The first [Error] that [errors.AsType] finds. *)
Fixpoint source_of (e : lerror) : option (option SourceLocation) :=
  match e with
  | LSource loc _ _ => Some loc
  | LWrap _ c => source_of c
  | _ => None
  end.

Definition FormatError (e : lerror) : res string :=
  match source_of e with
  | Some (Some loc) => Ok (File loc +:+ ":" +:+ fmt_d (StartLine loc) +:+ ":" +:+ fmt_d (StartColumn loc) +:+ " " +:+ Error e)
  | Some None => Err panic_nil
  | None => Ok (Error e)
  end.

(** ** A small project *)

Module Sample.

#[export] Instance list_order : RangeOrder := map_to_list.
#[export] Instance list_order_laws : RangeLaws.
Proof. intros m. reflexivity. Qed.
#[export] Instance all_print : Unicode := fun _ => true.
#[export] Instance ascii_tables : UnicodeTables := {| wide_letter := fun _ => false; wide_digit := fun _ => false |}.
#[export] Instance exact_growth : SliceGrowth := fun _ need => need.
#[export] Instance plain_platforms : Platforms := {|
  platforms_Parse := fun s => Ok (mkSpec s "linux" "" [] ""); Normalize := fun p => p; Format := fun p => Architecture p;
  DefaultSpec := mkSpec "amd64" "linux" "" [] "" |}.

(** Commands without flags. *)
#[export] Instance no_flags : FlagParsers := {|
  parse_If := fun args => Ok (mkIfOpts [] [] false false false, args);
  parse_For := fun args => Ok (mkForOpts " " [] [] false false false, args);
  parse_Run := fun args => Ok (mkRunOpts None "" [] [] false false false false false false false false false false, args);
  parse_From := fun args => Ok (mkFromOpts "" [] false false, args);
  parse_FromDockerfile := fun args => Ok (mkFromDockerfileOpts "" "" "" [] false, args);
  parse_Copy := fun args => Ok (mkCopyOpts "" "" "" "" [] false false false false false false false, args);
  parse_SaveArtifact := fun args => Ok (mkSaveArtifactOpts false false false false false, args);
  parse_SaveImage := fun args => Ok (mkSaveImageOpts [] false false false false false, args);
  parse_Build := fun args => Ok (mkBuildOpts [] [] false false false, args);
  parse_GitClone := fun args => Ok (mkGitCloneOpts "" false, args);
  parse_HealthCheck := fun args => Ok (mkHealthCheckOpts 0 0 0 0 0, args);
  parse_WithDocker := fun args => Ok (mkWithDockerOpts "" "" [] [] [] [] [] false false, args);
  parse_Do := fun args => Ok (mkDoOpts false false, args);
  parse_Import := fun args => Ok (mkImportOpts false false, args);
  parse_Arg := fun args => Ok (mkArgOpts false false, args);
  parse_Set := fun args => Ok (tt, args);
  parse_Let := fun args => Ok (tt, args);
  parse_Cache := fun args => Ok (mkCacheOpts "" "" "" false, args)
|}.

Definition command (name : Cmd) (cargs : list string) : Statement := stmt (SCommand (mkCommand name "" None cargs false)).

Definition features : Features :=
  mkFeatures (list_to_set ["explicit-global"; "arg-scope-and-set"; "shell-out-anywhere"]) 0 8.

Definition earthfile (base build dep : Block) : Tree :=
  mkTree (Some (mkVersion None ["0.8"])) None [mkTarget None "build" "" build; mkTarget None "dep" "" dep] [] base.

Definition names : gset string := {["+build"; "+dep"]}.

(** The digest is the text itself, so that the streams can be compared. *)
Definition project (ef : Tree) : InputEnv := {|
  Resolve := fun t => if bool_decide (referenceString t ∈ names) then inl (mkBuildContext ef features None) else inr "not found";
  sha1 := fun s => s; LookupEnv := fun _ => None; home := "/root" |}.

(** One directory [src] with two files in it. *)
Definition tree (a b : string) : FileSystem := {|
  os_Stat := fun p => if String.eqb p "src" then inl (mkInfo "src" 0 true)
                      else if String.eqb p "src/a" then inl (mkInfo "a" (String.length a) false)
                      else if String.eqb p "src/b" then inl (mkInfo "b" (String.length b) false)
                      else inr (NotExist "no such file");
  os_Open := fun p => if String.eqb p "src/a" then inl (a, None) else if String.eqb p "src/b" then inl (b, None)
                      else inr (NotExist "no such file");
  os_ReadDir := fun p => if String.eqb p "src" then inl ["b"; "a"] else inr (OtherError "not a directory");
  filepath_Glob := fun _ => inl [] |}.

Definition options (name : string) : HashOpt :=
  mkHashOpt None (mkRef KTarget "" "" "." "" name) (mkDefaultArgs "v0.8" "abc") false.

Definition hash_project (ef : Tree) (a b : string) : out lerror (string * Stats) :=
  @HashTarget _ _ _ _ _ _ (project ef) (tree a b) 4 4 (options "build").

Definition dep_recipe : Block := [command "COPY" ["src"; "."]; command "SAVE ARTIFACT" ["out"]].
Definition build_recipe : Block := [command "FROM" ["alpine"]; command "COPY" ["+dep/out"; "."]; command "RUN" ["make"]].

End Sample.
