(* ===== verification/InputGraphEnds.v ===== *)
(** * The walk over the input graph ends

    Targets may depend on each other in a cycle, so [load] is not structural; what ends it is
    the set of targets that were visited on the way.  [ends V m]: from a loader that has
    visited [V], [m] does not run out of fuel and leaves the set as it is. *)

From stdpp Require Import gmap sorting.
From S2P Require Import Prelude GoStrings Token Ast GoText Reference Imports KeyValue Scope Collection BuildArgs.
From S2P Require Import Numbers.
From S2P Require Import Effects ShellLex ShellFacts Expand Matrix FlagUtil ConvApi Interp Features Json Platform.
From S2P Require Import Builtin Conditions Hasher InputGraph.

(** ** Functions that cannot run out of fuel *)

Ltac finishes :=
  repeat match goal with
  | |- finished (rbind _ _) => apply rbind_finished; [|intros ? _]
  | |- finished (Ok _) => done
  | |- finished (Err _) => done
  | |- finished (if ?b then _ else _) => destruct b
  | |- finished (match ?x with _ => _ end) => destruct x
  | |- finished (let '(_, _) := ?x in _) => destruct x
  end.

Create HintDb fin.

Lemma fin_split s : finished (splitUnescapePlus s).
Proof. unfold splitUnescapePlus. destruct (split_loop _ _ _ _) as [[[] ?] ?]; done. Qed.
#[local] Hint Resolve fin_split : fin.

Lemma fin_parseCommon h s : finished (parseCommon h s).
Proof. unfold parseCommon. finishes; auto with fin. Qed.
#[local] Hint Resolve fin_parseCommon : fin.

Lemma fin_ParseTarget h s : finished (ParseTarget h s).
Proof. unfold ParseTarget. finishes; auto with fin. Qed.

Lemma fin_ParseCommand h s : finished (ParseCommand h s).
Proof. unfold ParseCommand. finishes; auto with fin. Qed.
#[local] Hint Resolve fin_ParseTarget fin_ParseCommand : fin.

Lemma fin_Join r1 r2 : finished (JoinReferences r1 r2).
Proof. unfold JoinReferences. finishes; auto with fin. Qed.

Lemma fin_Deref h r ir : finished (Deref h r ir).
Proof. unfold Deref, Reference.ParseRef. finishes; auto with fin. Qed.

Lemma fin_ParseArtifact h s : finished (ParseArtifact h s).
Proof.
  unfold ParseArtifact. repeat first [done | apply rbind_finished; [auto with fin|intros ? _] | case_goal]; try done;
    match goal with E : ParseTarget ?h ?s = NoFuel |- _ => by destruct (fin_ParseTarget h s) end.
Qed.

Lemma fin_ImportAdd h s a g p f ir : finished (snd (Imports.Add h s a g p f ir)).
Proof.
  unfold Imports.Add. repeat first [done | case_goal];
    match goal with E : ParseTarget ?h ?s = NoFuel |- _ => by destruct (fin_ParseTarget h s) end.
Qed.

Lemma fin_param_loop rs parts part a b : finished (param_loop rs parts part a b).
Proof.
  revert parts part a b. induction rs as [|r rs IH]; intros; cbn [param_loop]; repeat case_test; try done; apply IH.
Qed.

Lemma fin_params str : finished (ParseParams str).
Proof. unfold ParseParams. case_test; [done|]. apply rbind_finished; [apply fin_param_loop|by intros [] _]. Qed.

Lemma fin_load s : finished (ParseLoad s).
Proof.
  unfold ParseLoad. destruct (SplitN2 s " ") as [|w ws]; [done|].
  destruct (match SplitN2 w equals with [i; t] => _ | _ => _ end) as [i t]. case_test; [|done].
  apply rbind_finished; [apply fin_params|]. done.
Qed.

Lemma fin_command_line e a : finished (ParseCommandLineArgs e a).
Proof.
  unfold ParseCommandLineArgs. generalize NewScope as s. induction a as [|x a IH]; intros s; cbn [command_line_loop]; [done|].
  destruct (split_arg x) as [k v]. case_test; [done|]. destruct (match v with Some v => Some v | None => e k end); [apply IH|done].
Qed.

Lemma fin_flags_loop `{Unicode} a k f g : finished (flags_loop a k f g).
Proof. revert k f g. induction a as [|x a IH]; intros; cbn [flags_loop]; repeat case_goal; try done; apply IH. Qed.

Lemma fin_flags `{Unicode} a : finished (ParseFlagArgs a).
Proof. unfold ParseFlagArgs. apply rbind_finished; [apply fin_flags_loop|by intros [? []] _]. Qed.

Section Vars.
Context `{RangeOrder} `{Unicode}.

Lemma fin_effective c : finished (snd (effective c)).
Proof. unfold effective. repeat case_goal; done. Qed.

Lemma fin_on_frame f c : finished (snd (on_frame f c)).
Proof. unfold on_frame. by case_goal. Qed.

Lemma fin_DeclareVar name v g a c : finished (snd (DeclareVar name (mkPrefs None v g a) c)).
Proof.
  unfold DeclareVar, declareOldArg, declare_new, overridingOrDefault. cbn [pf_pncvf pf_val pf_global pf_arg].
  repeat first [done | case_goal; simpl in *]; match goal with E : _ = NoFuel |- _ => by repeat case_hyp E end.
Qed.

Lemma fin_UpdateVar name v c : finished (snd (UpdateVar name v None c)).
Proof. unfold UpdateVar. repeat first [done | case_goal; simpl in *]. Qed.
End Vars.

(** ** Loaders *)

Section Ends.
Context `{RangeOrder} `{Unicode} `{UnicodeTables} `{SliceGrowth} `{FlagParsers} `{Platforms} `{InputEnv} `{FileSystem}.

Definition ends {A} (V : gset string) (m : L A) : Prop :=
  forall l, visited l = V -> snd (m l) <> Stuck /\ visited (fst (m l)) = V.

Section Rules.
Context (V : gset string).

Lemma ends_ret {A} (a : A) : ends V (eret a).
Proof. intros l Hl. by split. Qed.
Lemma ends_fail {A} e : ends V (efail (A := A) e).
Proof. intros l Hl. by split. Qed.
Lemma ends_get_then {A} (k : loader -> L A) : (forall l, visited l = V -> ends V (k l)) -> ends V (ebind eget k).
Proof. intros Hk l Hl. unfold ebind, eget. by apply Hk. Qed.
Lemma ends_bind {A B} (m : L A) (k : A -> L B) : ends V m -> (forall a, ends V (k a)) -> ends V (ebind m k).
Proof.
  intros Hm Hk l Hl. unfold ebind. destruct (Hm l Hl) as [Hs Hv]. destruct (m l) as [l' [a|e|]]; simpl in *; [by apply Hk|done|done].
Qed.
(** What is known of the value of [m]. *)
Definition ends_with {A} (m : L A) (Q : A -> Prop) : Prop :=
  forall l, visited l = V -> visited (fst (m l)) = V /\ match snd (m l) with Ret a => Q a | Fail _ => True | Stuck => False end.
Lemma ends_with_bind {A B} (m : L A) (k : A -> L B) Q Q' :
  ends_with m Q -> (forall a, Q a -> ends_with (k a) Q') -> ends_with (ebind m k) Q'.
Proof.
  intros Hm Hk l Hl. unfold ebind. destruct (Hm l Hl) as [Hv Hs]. destruct (m l) as [l' [a|e|]]; simpl in *; [by apply Hk|done|done].
Qed.
Lemma ends_with_get {A} (k : loader -> L A) Q :
  (forall l, visited l = V -> ends_with (k l) Q) -> ends_with (ebind eget k) Q.
Proof. intros Hk l Hl. unfold ebind, eget. by apply Hk. Qed.
Lemma ends_with_ends {A} (m : L A) : ends V m <-> ends_with m (fun _ => True).
Proof. split; intros Hm l Hl; destruct (Hm l Hl); destruct (m l) as [? []]; done. Qed.
Lemma ends_wrap {A} h (m : L A) : ends V m -> ends V (ewrap h m).
Proof. intros Hm l Hl. unfold ewrap. destruct (Hm l Hl) as [Hs Hv]. by destruct (m l) as [l' [a|e|]]. Qed.
Lemma ends_try {A} (m : L A) : ends V m -> ends V (etry m).
Proof. intros Hm l Hl. unfold etry. destruct (Hm l Hl) as [Hs Hv]. by destruct (m l) as [l' [a|e|]]. Qed.
Lemma ends_iter {A} (f : A -> L unit) l : (forall x, ends V (f x)) -> ends V (eiter f l).
Proof. intros Hf. induction l; simpl; [apply ends_ret|by apply ends_bind]. Qed.
Lemma ends_map {A B} (f : A -> L B) l : (forall x, x ∈ l -> ends V (f x)) -> ends V (emap f l).
Proof.
  intros Hf. induction l as [|x l IH]; simpl; [apply ends_ret|]. apply ends_bind; [apply Hf; by left|]. intros y.
  apply ends_bind; [apply IH; intros; apply Hf; by right|]. intros. apply ends_ret.
Qed.
Lemma ends_of_res {A} (r : res A) : finished r -> ends V (of_res r).
Proof. intros Hr. destruct r; [apply ends_ret|apply ends_fail|done]. Qed.
Lemma ends_newError {A} loc msg : ends V (newError (A := A) loc msg).
Proof. apply ends_fail. Qed.
Lemma ends_eset f : (forall l, visited (f l) = visited l) -> ends V (eset f).
Proof. intros Hf l <-. by split; [|apply Hf]. Qed.
Lemma ends_hash f : ends V (hash f).
Proof. intros l Hl. by split. Qed.
Lemma ends_on_coll {A} (f : Collection -> Collection * res A) : (forall c, finished (snd (f c))) -> ends V (on_coll f).
Proof.
  intros Hf l Hl. unfold on_coll. destruct (varCollection l) as [c|]; [|done]. specialize (Hf c).
  destruct (f c) as [c' [a|e|]]; done.
Qed.
Lemma ends_on_imports {A} (f : ImportTracker -> ImportTracker * res A) :
  (forall c, finished (snd (f c))) -> ends V (on_imports f).
Proof.
  intros Hf. apply ends_on_coll. intros c. destruct (frame c) as [fr|]; [|done]. specialize (Hf (imports fr)).
  by destruct (f (imports fr)).
Qed.
Lemma ends_expandArgs text : ends V (expandArgs text).
Proof.
  intros l Hl. unfold expandArgs. destruct (varCollection l) as [c|]; [|done]. unfold Expand.
  pose proof (fin_effective c) as He. destruct (effective c) as [c' [s|e|]]; [|done|done].
  set (sw := new_word _ _ _ _). assert (snd (ProcessWordWithMap sw text tt) <> Stuck) as Hp.
  { unfold ProcessWordWithMap. pose proof (process_returns sw text tt) as Hp.
    destruct (process sw text tt) as [w [[a b]|e|]]; simpl in *; try done. exfalso. apply Hp; [|done]. by intros f cmd w' [= <-]. }
  by destruct (ProcessWordWithMap sw text tt) as [w [x|e|]].
Qed.

(** Directories whose nesting the fuel covers. *)
Definition shallow (depth : nat) : Prop :=
  exists rank : string -> nat,
    (forall dir, rank dir + 2 <= depth) /\
    (forall dir entries e, os_ReadDir dir = inl entries -> e ∈ entries -> rank (path_Join [dir; e]) < rank dir).

Lemma ends_of_os {A} text (r : A + os_error) : ends V (of_os text r).
Proof. destruct r; [apply ends_ret|apply ends_fail]. Qed.

Lemma ends_expandDirs depth dirs : shallow depth -> ends V (expandDirs depth dirs).
Proof.
  intros (rank & Hd & Hr).
  cut (forall fuel dirs, 1 <= fuel -> Forall (fun d => rank d + 2 <= fuel) dirs -> ends V (expandDirs fuel dirs)).
  { intros Hf. apply Hf; [specialize (Hd ""); lia|]. by apply Forall_true. }
  clear dirs. induction fuel as [|fuel IH]; intros dirs Hf Hdirs; [lia|]. cbn [expandDirs].
  apply ends_bind; [|intros; apply ends_ret]. apply ends_map. intros dir Hin.
  rewrite list.Forall_forall in Hdirs. specialize (Hdirs dir Hin).
  apply ends_bind; [apply ends_of_os|]. intros st. destruct (fi_IsDir st); [|apply ends_ret].
  destruct (os_ReadDir dir) as [entries|e] eqn:E; [|apply ends_fail].
  refine (IH (List.map (fun e => path_Join [dir; e]) entries) _ _); [lia|].
  apply Forall_map, list.Forall_forall. intros e He. simpl. specialize (Hr _ _ _ E He). lia.
Qed.

Lemma ends_expandCopyFiles depth src mustExist : shallow depth -> ends V (expandCopyFiles depth src mustExist).
Proof.
  intros Hs. unfold expandCopyFiles. case_test; [apply ends_fail|]. case_test.
  - destruct (filepath_Glob src); [by apply ends_expandDirs|apply ends_fail].
  - destruct (os_Stat src) as [st|[]]; [case_test; [by apply ends_expandDirs|apply ends_ret]| |apply ends_fail].
    case_test; [apply ends_ret|apply ends_fail].
Qed.

Lemma ends_hash_file loc path mustExist file : ends V (hash_file loc path mustExist file).
Proof.
  intros l Hl. unfold hash_file. destruct (HashFile file (l_hasher l)) as [h [[e|e]|]]; [by destruct mustExist|done|done].
Qed.

Lemma ends_get_features : ends V get_features.
Proof. intros l Hl. unfold get_features. by destruct (l_features l). Qed.
End Rules.

#[local] Hint Resolve ends_ret ends_fail ends_newError ends_wrap ends_try ends_hash ends_expandArgs ends_expandCopyFiles
  ends_hash_file ends_get_features ends_on_coll ends_on_imports ends_of_res fin_ParseTarget fin_Join fin_Deref fin_ParseArtifact
  fin_ImportAdd fin_params fin_load fin_command_line fin_flags fin_on_frame fin_DeclareVar fin_UpdateVar evalConditions_finishes : ends.

(** The parsers of flags return. *)
Record parsers_finish : Prop := {
  pf_From args : finished (parse_From args); pf_Build args : finished (parse_Build args);
  pf_Copy args : finished (parse_Copy args); pf_FromDockerfile args : finished (parse_FromDockerfile args);
  pf_Arg args : finished (parse_Arg args); pf_Let args : finished (parse_Let args); pf_Set args : finished (parse_Set args);
  pf_WithDocker args : finished (parse_WithDocker args); pf_For args : finished (parse_For args) }.

Ltac end_steps :=
  repeat match goal with
  | |- ends _ (ebind eget _) => apply ends_get_then; intros
  | |- ends _ (ebind _ _) => apply ends_bind; [|intros]
  | |- ends _ (eiter _ _) => apply ends_iter; intros
  | |- ends _ (emap _ _) => apply ends_map; intros
  | |- ends _ (wrapError _ _ _) => apply ends_wrap
  | |- ends _ (addErrorSrc _ _) => apply ends_wrap
  | |- ends _ (errorf _ _) => apply ends_wrap
  | |- ends _ (ewrap _ _) => apply ends_wrap
  | |- ends _ (if ?b then _ else _) => destruct b
  | |- ends _ (match ?x with _ => _ end) => destruct x
  | |- ends _ (let '(_, _) := ?x in _) => destruct x
  | |- ends _ _ => solve [eauto with ends]
  end.

Section Walk.
Context (V : gset string) (load : L string) (depth : nat) (Hdepth : shallow depth) (Hparse : parsers_finish).

Hypothesis Hload : forall c, referenceString (l_target c) ∉ V -> visited c = {[referenceString (l_target c)]} ∪ V ->
  snd (load c) <> Stuck.

Lemma ends_derefed s : ends V (derefedTarget s).
Proof.
  unfold derefedTarget, AbsRef. end_steps.
  - apply ends_on_imports. intros ir. apply fin_Deref.
  - apply ends_on_coll. intros c. by destruct (frame c).
Qed.

Lemma ends_forTarget target args passArgs :
  ends_with V (forTarget target args passArgs)
    (fun c => l_target c = target /\ visited c = {[referenceString target]} ∪ V).
Proof.
  unfold forTarget. apply ends_with_get. intros l0 Hl0.
  do 4 (eapply ends_with_bind; [apply ends_with_ends; end_steps|intros ? _]); [by apply ends_on_imports|].
  intros l Hl. by rewrite Hl0.
Qed.

Lemma ends_run_child c : referenceString (l_target c) ∉ V -> visited c = {[referenceString (l_target c)]} ∪ V ->
  ends V (run_child c load).
Proof.
  intros Hc Hv l Hl. unfold run_child. pose proof (Hload (set_shared (shared l) c) Hc Hv) as Hs.
  destruct (load (set_shared (shared l) c)) as [c' r]. by split.
Qed.

Lemma ends_loadTarget s args p loc : ends V (loadTargetFromString load s args p loc).
Proof.
  unfold loadTargetFromString, expandArgsSlice. pose proof ends_derefed.
  do 2 (apply ends_bind; [end_steps|intros]). case_test; [end_steps|]. apply ends_bind; [end_steps|intros t].
  case_test; [end_steps|]. case_test; [end_steps|]. apply ends_get_then. intros l Hl. case_bool_decide as Hin; [end_steps|].
  rewrite Hl in Hin. apply ends_with_ends. eapply ends_with_bind.
  - intros l' Hl'. unfold wrapError, ewrap. pose proof (ends_forTarget t a0 p l' Hl') as Hf.
    destruct (forTarget t a0 p l') as [l1 [c|e|]]; exact Hf.
  - intros c [<- Hv]. apply ends_with_ends, ends_bind; [by apply ends_run_child|intros; end_steps].
Qed.
#[local] Hint Resolve ends_loadTarget : ends.

Lemma ends_parse {O} (parse : flag_parser O) args : (forall a, finished (parse a)) -> ends V (of_res (ParseArgsCleaned parse args)).
Proof. intros Hp. apply ends_of_res, Hp. Qed.

Lemma ends_handleFrom cmd : ends V (handleFrom load cmd).
Proof. unfold handleFrom. pose proof (ends_parse _ (cmd_Args cmd) (pf_From Hparse)). end_steps. Qed.

Lemma ends_handleBuild cmd : ends V (handleBuild load cmd).
Proof. unfold handleBuild. pose proof (ends_parse _ (cmd_Args cmd) (pf_Build Hparse)). end_steps. Qed.

Lemma ends_handleCopySrc cmd src mustExist : ends V (handleCopySrc load depth cmd src mustExist).
Proof.
  unfold handleCopySrc, copy_artifact, copy_files, expandArgsSlice. end_steps.
Qed.

#[local] Hint Resolve ends_handleFrom ends_handleBuild ends_handleCopySrc : ends.

Lemma ends_handleCopy cmd : ends V (handleCopy load depth cmd).
Proof. unfold handleCopy. pose proof (ends_parse _ (cmd_Args cmd) (pf_Copy Hparse)). end_steps. Qed.

Lemma ends_handleImport cmd b : ends V (handleImport cmd b).
Proof.
  unfold handleImport. destruct (cmd_Args cmd); [end_steps|]. apply ends_wrap, ends_on_imports. intros. apply fin_ImportAdd.
Qed.

Lemma ends_handleFromDockerfile cmd : ends V (handleFromDockerfile load depth cmd).
Proof. unfold handleFromDockerfile. pose proof (ends_parse _ (cmd_Args cmd) (pf_FromDockerfile Hparse)). end_steps. Qed.

Lemma ends_handleArg cmd b : ends V (handleArg cmd b).
Proof.
  unfold handleArg. end_steps. unfold ParseArgArgs. apply ends_of_res, rbind_finished; [apply (pf_Arg Hparse)|].
  intros [] _. repeat case_goal; done.
Qed.

Lemma ends_handleLet cmd : ends V (handleLet cmd).
Proof. unfold handleLet. pose proof (ends_parse _ (cmd_Args cmd) (pf_Let Hparse)). end_steps. Qed.

Lemma ends_handleSet cmd : ends V (handleSet cmd).
Proof. unfold handleSet. pose proof (ends_parse _ (cmd_Args cmd) (pf_Set Hparse)). end_steps. Qed.
#[local] Hint Resolve ends_handleCopy ends_handleImport ends_handleFromDockerfile ends_handleArg ends_handleLet ends_handleSet : ends.

Lemma ends_handleCommand cmd : ends V (handleCommand load depth cmd).
Proof. unfold handleCommand, hashCommand, handle_inputs. cbv zeta. end_steps. Qed.

Lemma ends_handleWithDocker cmd : ends V (handleWithDocker load cmd).
Proof. unfold handleWithDocker, expandArgsSlice. end_steps. apply ends_parse, (pf_WithDocker Hparse). Qed.

Lemma ends_expandAndEval e : ends V (expandAndEval e).
Proof. unfold expandAndEval, expandArgsSlice. end_steps. Qed.
#[local] Hint Resolve ends_handleCommand ends_handleWithDocker ends_expandAndEval : ends.

Lemma ends_block b : Forall (fun s => ends V (handleStatement load depth s)) b -> ends V (handleStatements load depth b).
Proof.
  intros Hb. unfold handleStatements. apply ends_bind; [end_steps|]. intros _.
  induction Hb; simpl; [end_steps|]. apply ends_bind; [done|]. by intros.
Qed.

Lemma ends_option (o : option Block) :
  Forall (fun s => ends V (handleStatement load depth s)) (from_option id [] o) ->
  ends V (load_option (handleStatements load depth) o).
Proof. unfold load_option. destruct o; simpl; intros Ho; [by apply ends_block|end_steps]. Qed.

Lemma ends_handleStatement s : ends V (handleStatement load depth s).
Proof.
  induction s as [c loc|l body c loc Hb|eb l e ei ib x loc He Hei Hib|cb fb l tb loc Hc Hf Ht
                 |l args body loc Hb|l args body loc Hb] using statement_rect; cbn [handleStatement]; fold (handleStatements load depth).
  - end_steps.
  - unfold handleWith. case_test; [end_steps|]. apply ends_bind; [end_steps|]. intros _. by apply ends_block.
  - unfold handleIf, handleIfEval, handleIfDefault. apply ends_bind; [unfold hashIfStatement; end_steps|]. intros _.
    apply ends_bind; [apply ends_try, ends_bind; [end_steps|]|].
    + intros []; [by apply ends_block|]. induction Hei as [|[l' e' b' x'] ei Hb Hei IH]; [by apply ends_option|].
      apply ends_bind; [end_steps|]. intros []; [by apply ends_block|done].
    + intros [|err]; [end_steps|]. case_test; [|end_steps]. apply ends_bind; [by apply ends_block|]. intros _.
      apply ends_bind; [|intros _; by apply ends_option].
      induction Hei as [|[l' e' b' x'] ei Hb Hei IH]; [end_steps|]. unfold hashElseIf at 1.
      apply ends_bind; [end_steps|]. intros _. apply ends_bind; [by apply ends_block|done].
  - unfold handleTry. apply ends_bind; [unfold hashTryStatement; end_steps|]. intros _. apply ends_bind; [by apply ends_block|]. intros _.
    apply ends_bind; [by apply ends_option|]. intros _. by apply ends_option.
  - unfold handleFor. apply ends_bind; [unfold hashForStatement; end_steps|]. intros _.
    apply ends_bind; [apply ends_wrap, ends_parse, (pf_For Hparse)|]. intros r. apply ends_bind; [unfold expandArgsSlice; end_steps|].
    intros [|name vals]; [end_steps|]. apply ends_bind; [end_steps|]. intros _. apply ends_iter. intros v.
    apply ends_bind; [end_steps|]. intros _. apply ends_bind; [apply ends_on_coll; intros; apply fin_on_frame|]. intros _.
    apply ends_bind; [by apply ends_block|]. intros _. apply ends_on_coll. intros; apply fin_on_frame.
  - unfold handleWait. apply ends_bind; [unfold hashWaitStatement; end_steps|]. intros _. by apply ends_block.
Qed.

Lemma ends_load_resolved key bc : ends V (load_resolved load depth key bc).
Proof.
  unfold load_resolved, load_tree, loadBlock, hashVersion, base_statement. pose proof ends_handleStatement as Hs.
  assert (forall b, ends V (handleStatements load depth b)) as Hb by (intros b; by apply ends_block, Forall_true). clear Hs.
  end_steps; by apply ends_eset.
Qed.

End Walk.

Lemma load_body_ends load depth l :
  shallow depth -> parsers_finish ->
  (forall bc, Resolve (l_target l) = inl bc ->
     forall c, referenceString (l_target c) ∉ visited l ->
       visited c = {[referenceString (l_target c)]} ∪ visited l -> snd (load c) <> Stuck) ->
  snd (load_body load depth l) <> Stuck.
Proof.
  intros Hdepth Hparse Hload. unfold load_body. unfold ebind at 1. cbn [eget]. case_test; [done|].
  unfold ebind at 1. cbn [eset]. destruct (hashCache (shared l) !! targetCacheKey l); [done|].
  destruct (Resolve (l_target l)) as [bc|e]; [|done].
  by apply (ends_load_resolved (visited l) load depth Hdepth Hparse (Hload bc eq_refl)).
Qed.

(** C13. Hashing the inputs of a target ends: when the files let only finitely many target names be
    resolved and the directories are not deeper than [depth], [load] returns a hash or an
    error, however the targets call each other. *)
Theorem load_finishes (names : gset string) depth fuel opt :
  (forall t bc, Resolve t = inl bc -> referenceString t ∈ names) ->
  shallow depth -> parsers_finish -> size names + 2 <= fuel -> HashTarget depth fuel opt <> Stuck.
Proof.
  intros Hres Hdepth Hparse Hfuel. unfold HashTarget. case_test; [by case_test|].
  cut (forall n l, size (names ∖ visited l) + 2 <= n -> snd (load depth n l) <> Stuck).
  { intros Hn. specialize (Hn fuel (newLoader opt)). destruct (load depth fuel (newLoader opt)) as [l [a|e|]]; [done|done|].
    exfalso. apply Hn; [|done]. simpl. by rewrite difference_empty_L. }
  clear fuel Hfuel E. induction n as [|n IH]; intros l Hn; [lia|]. cbn [load].
  apply load_body_ends; [done..|]. intros bc _ c Hc Hv. destruct (decide (referenceString (l_target c) ∈ names)) as [Hin|Hout].
  - apply IH. rewrite Hv. assert (size (names ∖ ({[referenceString (l_target c)]} ∪ visited l)) < size (names ∖ visited l)); [|lia].
    apply subset_size. set_solver.
  - destruct n as [|n]; [lia|]. cbn [load]. apply load_body_ends; [done..|]. intros bc' Hb. by apply Hres in Hb.
Qed.

End Ends.

Module Sample.
Import InputGraph.Sample.

Definition cyclic : Tree := earthfile [] [command "BUILD" ["+dep"]] [command "BUILD" ["+build"]].

Lemma sample_shallow a b : @shallow (tree a b) 4.
Proof.
  exists (fun p => if String.eqb p "src" then 2 else if String.eqb p "src/a" then 1 else if String.eqb p "src/b" then 1 else 0).
  split; [intros; repeat case_match; lia|]. intros dir entries e. simpl. destruct (String.eqb_spec dir "src") as [->|]; [|done].
  intros [= <-] He. repeat (apply elem_of_cons in He as [->|He]; [vm_compute; lia|]). by apply elem_of_nil in He.
Qed.

Lemma load_finishes_witness :
  @HashTarget _ _ _ _ _ _ (project cyclic) (tree "x" "y") 4 4 (options "build") <> Stuck.
Proof.
  refine (@load_finishes _ _ _ _ _ _ (project cyclic) (tree "x" "y") names 4 4 (options "build") _ (sample_shallow _ _) _ _).
  - intros t bc. simpl. by case_bool_decide.
  - by split.
  - vm_compute. lia.
Defined.

(** Two targets that call each other are found out. *)
Example cycle_found :
  @HashTarget _ _ _ _ _ _ (project cyclic) (tree "x" "y") 4 4 (options "build") =
    Fail (LSource None "circular dependency detected; +dep already called" None).
Proof. vm_compute. reflexivity. Qed.

End Sample.
