(* ===== verification/InputGraphFacts.v ===== *)
(** * What the hash of a target covers

    Two walks that start from the same loader are compared in lockstep: as long as the
    streams are the same, so is everything that was hashed, and the handlers, which are
    functions of the command and the loader, leave the same loaders behind. *)

From stdpp Require Import gmap sorting.
From S2P Require Import Prelude GoStrings Token Ast GoText Reference RuneFacts Imports KeyValue Scope Collection.
From S2P Require Import BuildArgs Numbers.
From S2P Require Import Effects ShellLex Expand Matrix FlagUtil ConvApi Interp Features Json Platform Builtin.
From S2P Require Import Conditions Hasher InputGraph.

Open Scope eff_scope.

(** ** The stream only grows *)

Definition grows (l l' : loader) : Prop := exists s, l_hasher l' = l_hasher l +:+ s.

#[export] Instance grows_preorder : PreOrder grows.
Proof.
  split.
  - intros l. exists "". by rewrite sapp_nil_r.
  - intros a b c [s Hs] [t Ht]. exists (s +:+ t). by rewrite Ht, Hs, sapp_assoc.
Qed.

(** Code that does not touch the stream. *)
Definition silent {A} (m : L A) : Prop := forall l, l_hasher (fst (m l)) = l_hasher l.

Lemma silent_grows {A} (m : L A) : silent m -> preserves grows m.
Proof. intros Hm l. exists "". by rewrite Hm, sapp_nil_r. Qed.

Lemma grows_hash b : preserves grows (hash (HashBytes b)).
Proof. intros l. by exists (item b). Qed.
Lemma grows_HashString s : preserves grows (hash (HashString s)).
Proof. apply grows_hash. Qed.
Lemma grows_HashInt n : preserves grows (hash (HashInt n)).
Proof. apply grows_hash. Qed.
Lemma grows_HashBool b : preserves grows (hash (HashBool b)).
Proof. apply grows_hash. Qed.
Lemma grows_HashJSON a : preserves grows (hash (HashJSONMarshalled a)).
Proof. apply grows_hash. Qed.

Lemma silent_on_coll {A} (f : Collection -> Collection * res A) : silent (on_coll f).
Proof.
  intros l. unfold on_coll. destruct (varCollection l) as [c|]; [|done]. destruct (f c) as [c' [a|e|]]; done.
Qed.
Lemma grows_on_coll {A} (f : Collection -> Collection * res A) : preserves grows (on_coll f).
Proof. apply silent_grows, silent_on_coll. Qed.
Lemma grows_on_imports {A} (f : ImportTracker -> ImportTracker * res A) : preserves grows (on_imports f).
Proof. apply grows_on_coll. Qed.
Lemma grows_of_res {A} (r : res A) : preserves grows (of_res r).
Proof. apply silent_grows. intros l. by destruct r. Qed.
Lemma grows_eset f : (forall l, l_hasher (f l) = l_hasher l) -> preserves grows (eset f : L unit).
Proof. intros Hf. apply silent_grows. intros l. apply Hf. Qed.
Lemma grows_newError {A} loc msg : preserves grows (newError (A := A) loc msg).
Proof. apply preserves_fail; apply _. Qed.
Lemma grows_wrapError {A} loc msg (m : L A) : preserves grows m -> preserves grows (wrapError loc msg m).
Proof. apply preserves_wrap. Qed.
Lemma grows_errorf {A} t (m : L A) : preserves grows m -> preserves grows (errorf t m).
Proof. apply preserves_wrap. Qed.

#[local] Hint Resolve grows_hash grows_HashString grows_HashInt grows_HashBool grows_HashJSON grows_on_coll grows_on_imports grows_of_res
  grows_newError : eff.

Ltac grow :=
  repeat match goal with
  | |- preserves _ (ebind _ _) => apply (preserves_bind grows); [|intros]
  | |- preserves _ (eiter _ _) => apply (preserves_iter grows); intros
  | |- preserves _ (emap _ _) => apply (preserves_map grows); intros
  | |- preserves _ (wrapError _ _ _) => apply grows_wrapError
  | |- preserves _ (addErrorSrc _ _) => apply grows_wrapError
  | |- preserves _ (errorf _ _) => apply grows_errorf
  | |- preserves _ (ewrap _ _) => apply (preserves_wrap grows)
  | |- preserves _ (etry _) => apply (preserves_try grows)
  | |- preserves _ (if ?b then _ else _) => destruct b
  | |- preserves _ (match ?x with _ => _ end) => destruct x
  | |- preserves _ _ => solve [eauto with eff typeclass_instances]
  end.

Section Grows.
Context `{RangeOrder} `{Unicode} `{UnicodeTables} `{SliceGrowth} `{FlagParsers} `{Platforms} `{InputEnv} `{FileSystem}.

Lemma grows_expandArgs s : preserves grows (expandArgs s).
Proof.
  apply silent_grows. intros l. unfold expandArgs. destruct (varCollection l) as [c|]; [|done].
  by destruct (Expand s _ c tt) as [c' [w [x|e|]]].
Qed.
#[local] Hint Resolve grows_expandArgs : eff.

Lemma grows_expandArgsSlice l : preserves grows (expandArgsSlice l).
Proof. unfold expandArgsSlice. grow. Qed.
#[local] Hint Resolve grows_expandArgsSlice : eff.

Lemma grows_derefed s : preserves grows (derefedTarget s).
Proof. unfold derefedTarget, AbsRef. grow. Qed.

Lemma grows_forTarget t a p : preserves grows (forTarget t a p).
Proof. unfold forTarget. grow. Qed.

Lemma grows_run_child c m : preserves grows (run_child c m).
Proof. apply silent_grows. intros l. unfold run_child. by destruct (m _). Qed.
#[local] Hint Resolve grows_derefed grows_forTarget grows_run_child : eff.

Lemma grows_of_os {A} t (r : A + os_error) : preserves grows (of_os t r).
Proof. unfold of_os. grow. Qed.
#[local] Hint Resolve grows_of_os : eff.

Lemma grows_expandDirs n dirs : preserves grows (expandDirs n dirs).
Proof. revert dirs. induction n as [|n IH]; intros dirs; cbn [expandDirs]; grow. Qed.
#[local] Hint Resolve grows_expandDirs : eff.

Lemma grows_expandCopyFiles n src b : preserves grows (expandCopyFiles n src b).
Proof. unfold expandCopyFiles. grow. Qed.

Lemma grows_hash_file loc path b file : preserves grows (hash_file loc path b file).
Proof.
  intros l. unfold hash_file, HashFile. destruct (os_Stat file) as [st|[e|e]].
  2, 3: exists ""; destruct b; simpl; by rewrite sapp_nil_r.
  unfold HashString, HashBytes.
  destruct (os_Open file) as [[c [[]|]]|[]]; destruct b; simpl; eexists; rewrite <- !sapp_assoc; reflexivity.
Qed.
#[local] Hint Resolve grows_expandCopyFiles grows_hash_file : eff.

Section Walk.
Context (load : L string) (depth : nat).

Lemma grows_loadTarget s a p loc : preserves grows (loadTargetFromString load s a p loc).
Proof. unfold loadTargetFromString. grow. Qed.
#[local] Hint Resolve grows_loadTarget : eff.

Lemma grows_handleCopySrc cmd src b : preserves grows (handleCopySrc load depth cmd src b).
Proof. unfold handleCopySrc, copy_artifact, copy_files. grow. Qed.
#[local] Hint Resolve grows_handleCopySrc : eff.

Lemma grows_handleImport cmd b : preserves grows (handleImport cmd b).
Proof. unfold handleImport. grow. Qed.

Lemma grows_get_features : preserves grows get_features.
Proof. apply silent_grows. by intros l. Qed.
#[local] Hint Resolve grows_get_features : eff.

Lemma grows_handleArg cmd b : preserves grows (handleArg cmd b).
Proof. unfold handleArg. grow. Qed.

Lemma grows_handleFrom cmd : preserves grows (handleFrom load cmd).
Proof. unfold handleFrom. grow. Qed.
#[local] Hint Resolve grows_handleImport grows_handleArg grows_handleFrom : eff.

Lemma grows_inputs cmd : preserves grows (handle_inputs load depth cmd).
Proof. unfold handle_inputs, handleBuild, handleCopy, handleLet, handleSet, handleFromDockerfile. cbv zeta. grow. Qed.
#[local] Hint Resolve grows_inputs : eff.

Lemma grows_handleCommand cmd : preserves grows (handleCommand load depth cmd).
Proof. unfold handleCommand, hashCommand. grow. Qed.

#[local] Hint Resolve grows_handleCommand : eff.

Lemma grows_base s : preserves grows (base_statement load s).
Proof. unfold base_statement. grow. Qed.

End Walk.
End Grows.

#[export] Hint Resolve grows_expandArgs grows_expandArgsSlice grows_handleCommand grows_base : eff.

(** ** Code that differs in its errors only *)

Definition same {A} (m1 m2 : L A) : Prop :=
  forall l, fst (m1 l) = fst (m2 l) /\
    match snd (m1 l), snd (m2 l) with
    | Ret a, Ret b => a = b
    | Fail _, Fail _ => True
    | Stuck, Stuck => True
    | _, _ => False
    end.

Lemma same_refl {A} (m : L A) : same m m.
Proof. intros l. split; [done|]. by destruct (snd (m l)). Qed.

Lemma same_bind {A B} (m1 m2 : L A) (k1 k2 : A -> L B) :
  same m1 m2 -> (forall a, same (k1 a) (k2 a)) -> same (ebind m1 k1) (ebind m2 k2).
Proof.
  intros Hm Hk l. unfold ebind. destruct (Hm l) as [Hl Ha].
  destruct (m1 l) as [l1 [a|e|]], (m2 l) as [l2 [b|e'|]]; simpl in *; try done; subst; apply Hk.
Qed.

Lemma same_wrap {A} h1 h2 (m1 m2 : L A) : same m1 m2 -> same (ewrap h1 m1) (ewrap h2 m2).
Proof.
  intros Hm l. unfold ewrap. destruct (Hm l) as [Hl Ha]. by destruct (m1 l) as [l1 [a|e|]], (m2 l) as [l2 [b|e'|]].
Qed.

Lemma same_fail {A} e1 e2 : same (efail (A := A) e1) (efail e2).
Proof. by intros l. Qed.

Lemma same_iter {A} (f g : A -> L unit) l : (forall x, same (f x) (g x)) -> same (eiter f l) (eiter g l).
Proof. intros Hf. induction l; simpl; [apply same_refl|by apply same_bind]. Qed.

Lemma same_get_then {A} (k1 k2 : loader -> L A) : (forall l, same (k1 l) (k2 l)) -> same (ebind eget k1) (ebind eget k2).
Proof. intros Hk. by apply same_bind; [apply same_refl|]. Qed.

Ltac sames :=
  repeat match goal with
  | |- same ?m ?m => apply same_refl
  | |- same (newError _ _) (newError _ _) => apply same_fail
  | |- same (efail _) (efail _) => apply same_fail
  | |- same (ebind _ _) (ebind _ _) => apply same_bind; [|intros]
  | |- same (eiter _ _) (eiter _ _) => apply same_iter; intros
  | |- same (wrapError _ _ _) (wrapError _ _ _) => apply same_wrap
  | |- same (addErrorSrc _ _) (addErrorSrc _ _) => apply same_wrap
  | |- same (ewrap _ _) (ewrap _ _) => apply same_wrap
  | |- same (if ?b then _ else _) _ => destruct b
  | |- same (match ?x with _ => _ end) _ => destruct x
  | |- same _ _ => solve [eauto with same]
  end.

Create HintDb same.

Section Same.
Context `{RangeOrder} `{Unicode} `{UnicodeTables} `{SliceGrowth} `{FlagParsers} `{Platforms} `{InputEnv} `{FileSystem}.
Context (load : L string) (depth : nat).

Lemma same_hash_file loc1 loc2 path b file : same (hash_file loc1 path b file) (hash_file loc2 path b file).
Proof. intros l. unfold hash_file. by destruct (HashFile file (l_hasher l)) as [h [[e|e]|]], b. Qed.

Lemma same_loadTarget s a p loc1 loc2 : same (loadTargetFromString load s a p loc1) (loadTargetFromString load s a p loc2).
Proof. unfold loadTargetFromString. sames. Qed.
#[local] Hint Resolve same_hash_file same_loadTarget : same.

(** What is hashed of a command. *)
Definition hashed (c : Command) : Cmd * list string * bool := (cmd_Name c, cmd_Args c, cmd_ExecMode c).

Lemma same_handleCopySrc c1 c2 src b : same (handleCopySrc load depth c1 src b) (handleCopySrc load depth c2 src b).
Proof. unfold handleCopySrc, copy_artifact, copy_files. cbv zeta. sames. Qed.
#[local] Hint Resolve same_handleCopySrc : same.

Lemma same_inputs c1 c2 : hashed c1 = hashed c2 -> same (handle_inputs load depth c1) (handle_inputs load depth c2).
Proof.
  destruct c1 as [n d1 loc1 a e], c2 as [n2 d2 loc2 a2 e2]. intros [= <- <- <-].
  unfold handle_inputs, handleFrom, handleBuild, handleCopy, handleArg, handleLet, handleSet, handleFromDockerfile, handleImport, ParseArgArgs.
  cbn [cmd_Name cmd_Args cmd_ExecMode cmd_SourceLocation]. cbv zeta. sames.
Qed.
End Same.

(** ** Lockstep *)

(** Two runs from one loader whose streams agree, whatever is hashed after them, are the
    same run, and [Q] holds. *)
Definition lock {A} (Q : Prop) (m1 m2 : L A) : Prop :=
  forall l l1 l2 a1 a2 r1 r2, m1 l = (l1, Ret a1) -> m2 l = (l2, Ret a2) -> l_hasher l1 +:+ r1 = l_hasher l2 +:+ r2 ->
  Q /\ l1 = l2 /\ a1 = a2 /\ r1 = r2.

Lemma lock_same {A} (m1 m2 : L A) : same m1 m2 -> lock True m1 m2.
Proof.
  intros Hm l l1 l2 a1 a2 r1 r2 E1 E2 He. destruct (Hm l) as [Hl Ha]. rewrite E1, E2 in *. simpl in *. subst.
  by apply sapp_cancel_l in He.
Qed.

Lemma lock_item a b : tagged a = true -> tagged b = true -> lock (a = b) (hash (HashBytes a)) (hash (HashBytes b)).
Proof.
  intros Ha Hb l l1 l2 [] [] r1 r2 [= <-] [= <-] He. simpl in He. unfold HashBytes in He. rewrite <- !sapp_assoc in He.
  apply sapp_cancel_l, item_inj in He as [-> ->]; done.
Qed.

Lemma lock_bind {A B} Q Q' (m1 m2 : L A) (k1 k2 : A -> L B) :
  lock Q m1 m2 -> (forall a, preserves grows (k1 a)) -> (forall a, preserves grows (k2 a)) ->
  (Q -> forall a, lock Q' (k1 a) (k2 a)) -> lock (Q /\ Q') (ebind m1 k1) (ebind m2 k2).
Proof.
  intros Hm G1 G2 Hk l l1 l2 b1 b2 r1 r2 E1 E2 He. unfold ebind in *.
  destruct (m1 l) as [n1 [a1|e|]] eqn:M1; [|done|done]. destruct (m2 l) as [n2 [a2|e|]] eqn:M2; [|done|done].
  destruct (G1 a1 n1) as [s1 S1], (G2 a2 n2) as [s2 S2]. rewrite E1 in S1. rewrite E2 in S2. simpl in S1, S2.
  destruct (Hm l n1 n2 a1 a2 (s1 +:+ r1) (s2 +:+ r2) M1 M2) as (HQ & <- & <- & _).
  { by rewrite !sapp_assoc, <- S1, <- S2. }
  destruct (Hk HQ a1 n1 l1 l2 b1 b2 r1 r2 E1 E2 He) as (HQ' & ? & ? & ?). done.
Qed.

Lemma lock_prefix {A B} Q (m : L A) (k1 k2 : A -> L B) :
  (forall a, preserves grows (k1 a)) -> (forall a, preserves grows (k2 a)) -> (forall a, lock Q (k1 a) (k2 a)) ->
  lock Q (ebind m k1) (ebind m k2).
Proof.
  intros G1 G2 Hk l l1 l2 b1 b2 r1 r2 E1 E2 He.
  by destruct (lock_bind True Q m m k1 k2 (lock_same _ _ (same_refl m)) G1 G2 (fun _ => Hk) l l1 l2 b1 b2 r1 r2 E1 E2 He) as ((_ & ?) & ?).
Qed.

Lemma lock_weaken {A} (Q Q' : Prop) (m1 m2 : L A) : lock Q m1 m2 -> (Q -> Q') -> lock Q' m1 m2.
Proof. intros Hm HQ l l1 l2 a1 a2 r1 r2 E1 E2 He. destruct (Hm l l1 l2 a1 a2 r1 r2 E1 E2 He) as (? & ? & ? & ?). auto. Qed.

Lemma lock_absurd {A} Q (m1 m2 : L A) : lock False m1 m2 -> lock Q m1 m2.
Proof. intros Hm. by eapply lock_weaken. Qed.

(** ** Straight recipes *)

(** Commands and WAIT blocks, with arguments in UTF-8. *)
Fixpoint straight (s : Statement) : bool :=
  match s with
  | mkStatement (SCommand c) _ => forallb utf8 (cmd_Args c)
  | mkStatement (SWait (mkWait _ args body)) _ => forallb utf8 args && forallb straight body
  | _ => false
  end.

(** Without documentation and places in the file. *)
Fixpoint bare (s : Statement) : Statement :=
  match s with
  | mkStatement (SCommand c) _ => stmt (SCommand (mkCommand (cmd_Name c) "" None (cmd_Args c) (cmd_ExecMode c)))
  | mkStatement (SWait (mkWait _ args body)) _ => stmt (SWait (mkWait None args (List.map bare body)))
  | _ => s
  end.

Section Covered.
Context `{RangeOrder} `{Unicode} `{UnicodeTables} `{SliceGrowth} `{FlagParsers} `{Platforms} `{InputEnv} `{FileSystem}.
Context (load : L string) (depth : nat).

Lemma grows_block b :
  Forall (fun s => straight s = true -> preserves grows (handleStatement load depth s)) b -> forallb straight b = true ->
  preserves grows (handleStatements load depth b).
Proof.
  intros Hb Hs. unfold handleStatements. apply (preserves_bind grows); [eauto with eff|intros _].
  induction Hb as [|s b Hx Hb IH]; [apply preserves_ret; apply _|]. apply andb_true_iff in Hs as [Hs1 Hs2].
  apply (preserves_bind grows); auto.
Qed.

Lemma grows_straight s : straight s = true -> preserves grows (handleStatement load depth s).
Proof.
  induction s as [c loc|l body c loc Hb|eb l e ei ib x loc He Hei Hib|cb fb l tb loc Hc Hf Ht
                 |l args body loc Hb|l args body loc Hb] using statement_rect; try done.
  - intros _. apply grows_handleCommand.
  - simpl. intros [_ Hs]%andb_true_iff. apply (preserves_bind grows); [unfold hashWaitStatement; grow|]. intros _.
    by apply grows_block.
Qed.

Lemma grows_straights b : forallb straight b = true -> preserves grows (handleStatements load depth b).
Proof. apply grows_block, Forall_true, grows_straight. Qed.

Lemma utf8_args a : forallb utf8 a = true -> Forall (fun x => utf8 x = true) a.
Proof. rewrite forallb_forall. intros Ha. by apply List.Forall_forall. Qed.

Lemma lock_json a1 a2 :
  forallb utf8 a1 = true -> forallb utf8 a2 = true -> lock (a1 = a2) (hash (HashJSONMarshalled a1)) (hash (HashJSONMarshalled a2)).
Proof.
  intros H1' H2'. eapply lock_weaken; [apply lock_item; apply json_list_tagged|].
  apply json_list_inj; by apply utf8_args.
Qed.

Lemma lock_int n1 n2 : lock (n1 = n2) (hash (HashInt n1)) (hash (HashInt n2)).
Proof.
  eapply lock_weaken; [by apply lock_item|]. intros He%(sapp_cancel_l "int:"). by apply (inj (pretty (A := nat))) in He.
Qed.

Lemma lock_string s1 s2 : lock (s1 = s2) (hash (HashString s1)) (hash (HashString s2)).
Proof. eapply lock_weaken; [by apply lock_item|]. apply (sapp_cancel_l "str:"). Qed.

Lemma lock_bool b1 b2 : lock (b1 = b2) (hash (HashBool b1)) (hash (HashBool b2)).
Proof. eapply lock_weaken; [by apply lock_item|]. by destruct b1, b2. Qed.

Lemma lock_command c1 c2 :
  forallb utf8 (cmd_Args c1) = true -> forallb utf8 (cmd_Args c2) = true ->
  lock (hashed c1 = hashed c2) (handleCommand load depth c1) (handleCommand load depth c2).
Proof.
  intros U1 U2. unfold handleCommand. eapply lock_weaken; [apply (lock_bind (hashed c1 = hashed c2) True)|by intros [? _]].
  - unfold hashCommand. eapply lock_weaken.
    + apply lock_bind; [apply lock_string|intros; grow|intros; grow|]. intros _ _.
      apply lock_bind; [by apply lock_json|intros; grow|intros; grow|]. intros _ _. apply lock_bool.
    + intros (Hn & Ha & Hb). unfold hashed. by rewrite Hn, Ha, Hb.
  - intros; apply grows_inputs.
  - intros; apply grows_inputs.
  - intros Hc _. by apply lock_same, same_inputs.
Qed.

Lemma lock_block b1 b2 :
  Forall (fun s1 => forall s2, straight s1 = true -> straight s2 = true ->
    lock (bare s1 = bare s2) (handleStatement load depth s1) (handleStatement load depth s2)) b1 ->
  forallb straight b1 = true -> forallb straight b2 = true ->
  lock (List.map bare b1 = List.map bare b2) (handleStatements load depth b1) (handleStatements load depth b2).
Proof.
  intros Hb S1 S2. unfold handleStatements.
  assert (forall b, forallb straight b = true -> preserves grows (eiter (handleStatement load depth) b)) as Hg.
  { induction b as [|s b IH]; intros Hs; [apply preserves_ret; apply _|]. apply andb_true_iff in Hs as [? ?].
    apply (preserves_bind grows); [by apply grows_straight|auto]. }
  eapply lock_weaken; [apply (lock_bind (length b1 = length b2))|intros [_ He]; exact He]; [apply lock_int|intros; auto..|].
  intros Hl _. revert b2 S2 Hl. induction Hb as [|s1 b1 Hs Hb IH]; intros [|s2 b2] S2 Hl; try done; 
    [by eapply lock_weaken; [apply lock_same, same_refl|]|].
  apply andb_true_iff in S1 as [S1 S1'], S2 as [S2 S2']. simpl.
  eapply lock_weaken; [apply lock_bind; [by apply Hs|auto|auto|]|].
  - intros _ _. apply IH; [done|done|by injection Hl].
  - intros [-> ->]. done.
Qed.

(** A command is told from a WAIT block by what comes after its name. *)
Lemma lock_json_int args n : lock False (hash (HashJSONMarshalled args)) (hash (HashInt n)).
Proof. eapply lock_weaken; [apply lock_item; [apply json_list_tagged|done]|]. by destruct args. Qed.

Lemma lock_sym {A} Q (m1 m2 : L A) : lock Q m1 m2 -> lock Q m2 m1.
Proof. intros Hm l l1 l2 a1 a2 r1 r2 E1 E2 He. by destruct (Hm l l2 l1 a2 a1 r2 r1 E2 E1 (eq_sym He)) as (? & -> & -> & ->). Qed.

Lemma lock_command_wait c w : lock False (hashCommand c) (hashWaitStatement w).
Proof.
  destruct w as [l args body]. unfold hashCommand, hashWaitStatement.
  eapply lock_weaken; [apply lock_bind; [apply lock_string|intros; grow|intros; grow|]|].
  - intros _ _. apply (lock_bind False True); [apply lock_json_int|intros; grow|intros; grow|done].
  - tauto.
Qed.

Lemma lock_wait args1 args2 body1 body2 l1 l2 :
  forallb utf8 args1 = true -> forallb utf8 args2 = true ->
  lock (args1 = args2) (hashWaitStatement (mkWait l1 args1 body1)) (hashWaitStatement (mkWait l2 args2 body2)).
Proof.
  intros U1 U2. eapply lock_weaken; [apply lock_bind; [apply lock_string|intros; grow|intros; grow|]|].
  - intros _ _. apply lock_bind; [apply lock_int|intros; grow|intros; grow|]. intros _ _. by apply lock_json.
  - tauto.
Qed.

Lemma lock_straight s1 s2 :
  straight s1 = true -> straight s2 = true ->
  lock (bare s1 = bare s2) (handleStatement load depth s1) (handleStatement load depth s2).
Proof.
  revert s2. induction s1 as [c loc|l body c loc Hb|eb l e ei ib x loc He Hei Hib|cb fb l tb loc Hc Hf Ht
                 |l args body loc Hb|l args body loc Hb] using statement_rect; try done;
    intros [[c2|w2|i2|t2|f2|[l2 args2 body2]] loc2] S1 S2; try done; cbn [handleStatement straight] in *.
  - eapply lock_weaken; [by apply lock_command|]. intros [= Hn Ha Hx]. cbn. by rewrite Hn, Ha, Hx.
  - apply andb_true_iff in S2 as [_ S2]. eapply lock_weaken; [apply (lock_bind False False); [apply lock_command_wait| | |done]|tauto];
      intros; [apply grows_inputs|by apply grows_straights].
  - apply andb_true_iff in S1 as [_ S1]. eapply lock_weaken; [apply (lock_bind False False); [apply lock_sym, lock_command_wait| | |done]|tauto];
      intros; [by apply grows_straights|apply grows_inputs].
  - apply andb_true_iff in S1 as [S1 S1'], S2 as [S2 S2'].
    eapply lock_weaken; [apply lock_bind; [by apply lock_wait|intros; by apply grows_straights|intros; by apply grows_straights|]|].
    + intros _ _. by apply lock_block.
    + intros [-> He]. cbn. by rewrite He.
Qed.

Lemma lock_recipe b1 b2 :
  forallb straight b1 = true -> forallb straight b2 = true ->
  lock (List.map bare b1 = List.map bare b2) (handleStatements load depth b1) (handleStatements load depth b2).
Proof. apply lock_block, Forall_true. intros s1 s2. apply lock_straight. Qed.
(** ** The hash of a target *)

Lemma load_tree_digest l0 key bc l l' v : load_tree load depth l0 key bc l = (l', Ret v) -> v = sha1 (l_hasher l').
Proof.
  unfold load_tree. do 5 (intros (? & ? & _ & Ht)%ebind_Ret; revert Ht). cbv zeta. unfold ebind, eget, eset, eret. by intros [= <- <-].
Qed.

Lemma lock_load_tree l key ver loc1 loc2 ts1 ts2 fn1 fn2 base f g b1 b2 :
  Name (l_target l) <> "base" ->
  find_recipe (Name (l_target l)) ts1 = Some b1 -> find_recipe (Name (l_target l)) ts2 = Some b2 ->
  forallb straight b1 = true -> forallb straight b2 = true ->
  lock (List.map bare b1 = List.map bare b2)
    (load_tree load depth l key (mkBuildContext (mkTree ver loc1 ts1 fn1 base) f g))
    (load_tree load depth l key (mkBuildContext (mkTree ver loc2 ts2 fn2 base) f g)).
Proof.
  intros Hn F1 F2 S1 S2. unfold load_tree, loadBlock, hashVersion. cbn [bc_Earthfile bc_Features bc_Git tree_Version BaseRecipe Targets].
  rewrite F1, F2, (proj2 (String.eqb_neq _ _) Hn). cbv zeta.
  pose proof (grows_straights b1 S1) as G1. pose proof (grows_straights b2 S2) as G2.
  assert (forall h, preserves grows (eset (fun l => set_shared (store_hash key h (shared l)) l) : L unit)) as Gs
    by (intros; by apply grows_eset).
  do 4 (apply lock_prefix; [intros; grow|intros; grow|intros _]).
  eapply lock_weaken; [apply lock_bind; [by apply lock_recipe|intros; grow|intros; grow|]|by intros [? _]].
  intros _ _. apply lock_same, same_refl.
Qed.

(** C12. The hash of a target covers its recipe: when an Earthfile is changed in nothing but the
    recipe of the target (commands and WAIT blocks, apart from documentation and layout), and
    neither the other targets nor the files change, the hash is another one, unless SHA-1
    collides. *)
Theorem recipe_covered key ver loc1 loc2 ts1 ts2 fn1 fn2 base f g l l1 l2 v b1 b2 :
  Name (l_target l) <> "base" ->
  find_recipe (Name (l_target l)) ts1 = Some b1 -> find_recipe (Name (l_target l)) ts2 = Some b2 ->
  forallb straight b1 = true -> forallb straight b2 = true ->
  load_resolved load depth key (mkBuildContext (mkTree ver loc1 ts1 fn1 base) f g) l = (l1, Ret v) ->
  load_resolved load depth key (mkBuildContext (mkTree ver loc2 ts2 fn2 base) f g) l = (l2, Ret v) ->
  (sha1 (l_hasher l1) = sha1 (l_hasher l2) -> l_hasher l1 = l_hasher l2) ->
  List.map bare b1 = List.map bare b2.
Proof.
  intros Hn F1 F2 S1 S2 E1 E2 Hsha. unfold load_resolved, ebind, eset, eget in E1, E2. cbn [bc_Features] in E1, E2.
  pose proof (load_tree_digest _ _ _ _ _ _ E1) as D1. pose proof (load_tree_digest _ _ _ _ _ _ E2) as D2.
  eapply (lock_load_tree (set_features f l) key ver loc1 loc2 ts1 ts2 fn1 fn2 base f g b1 b2 Hn F1 F2 S1 S2 _ _ _ _ _ "" "" E1 E2).
  f_equal. apply Hsha. by rewrite <- D1, <- D2.
Qed.
End Covered.

(** ** Copied files *)

Lemma steady_hash_file `{FileSystem} loc path b f l :
  steady f -> hash_file loc path b f l = (set_hasher (fst (HashFile f (l_hasher l))) l, Ret tt).
Proof. intros (s & c & Hs & Ho & _). unfold hash_file, HashFile. by rewrite Hs, Ho. Qed.

Lemma grows_files `{FileSystem} loc path b files : preserves grows (eiter (hash_file loc path b) files).
Proof. apply preserves_iter; [apply _|]. intros. apply grows_hash_file. Qed.


(** ** The order of the files *)

Lemma sort_permutation a b : a ≡ₚ b -> merge_sort str_le a = merge_sort str_le b.
Proof.
  intros Hp. apply (StronglySorted_unique str_le); [apply StronglySorted_merge_sort; apply _..|]. by rewrite !merge_sort_Permutation.
Qed.

Section Order.
Context `{FileSystem}.

Lemma uniqStrs_permutation (o1 o2 : RangeOrder) (L1 : @RangeLaws o1) (L2 : @RangeLaws o2) a b :
  a ≡ₚ b -> @uniqStrs o1 a ≡ₚ @uniqStrs o2 b.
Proof.
  intros Hp. unfold uniqStrs. rewrite (@range_permutation o1 L1), (@range_permutation o2 L2).
  enough (list_to_map (M := gmap string string) (List.map (fun v => (v, "")) a) = list_to_map (List.map (fun v => (v, "")) b)) as ->; [done|].
  apply map_eq. intros k. assert (forall l, list_to_map (M := gmap string string) (List.map (fun v => (v, "")) l) !! k =
    if bool_decide (k ∈ l) then Some "" else None) as Hl.
  { induction l as [|x l IH]; [done|]. simpl. destruct (decide (x = k)) as [->|Hne].
    - rewrite lookup_insert_eq, bool_decide_true; [done|by left].
    - rewrite lookup_insert_ne, IH by done. by rewrite !(bool_decide_ext (k ∈ x :: l) (k ∈ l)) by set_solver. }
  rewrite !Hl. by rewrite (bool_decide_ext (k ∈ a) (k ∈ b)) by (by rewrite Hp).
Qed.

(** Two runs that give the same answer up to the order of the names, and the same loader. *)
Definition same_files (r1 r2 : loader * out lerror (list string)) : Prop :=
  fst r1 = fst r2 /\ match snd r1, snd r2 with Ret a, Ret b => a ≡ₚ b | Fail e1, Fail e2 => e1 = e2 | Stuck, Stuck => True | _, _ => False end.

Lemma same_files_refl r : same_files r r.
Proof. split; [done|]. by destruct (snd r). Qed.

Lemma emap_order (f1 f2 : string -> L (list string)) dirs l :
  (forall x l, same_files (f1 x l) (f2 x l)) ->
  same_files ((r <- emap f1 dirs;; eret (concat r)) l) ((r <- emap f2 dirs;; eret (concat r)) l).
Proof.
  intros Hf. revert l. induction dirs as [|x dirs IH]; intros l; [split; [done|apply perm_nil]|]. unfold same_files, ebind, eret in *. simpl.
  destruct (Hf x l) as [Hl Hx]. unfold ebind. destruct (f1 x l) as [l1 [a|e|]], (f2 x l) as [l2 [b|e'|]]; simpl in *; try done; subst.
  specialize (IH l2). destruct (emap f1 dirs l2) as [m1 [as_|e|]], (emap f2 dirs l2) as [m2 [bs|e'|]]; simpl in *;
    destruct IH as [? IH]; try done; subst. split; [done|]. by rewrite Hx, IH.
Qed.

Lemma expandDirs_order (o1 o2 : RangeOrder) (L1 : @RangeLaws o1) (L2 : @RangeLaws o2) n dirs l :
  same_files (@expandDirs o1 _ n dirs l) (@expandDirs o2 _ n dirs l).
Proof.
  revert dirs l. induction n as [|n IH]; intros dirs l; [done|]. cbn [expandDirs].
  set (f1 := fun dir : string => _). set (f2 := fun dir : string => ebind (of_os _ (os_Stat dir)) _).
  assert (forall x l, same_files (f1 x l) (f2 x l)) as Hf.
  { intros x l'. unfold f1, f2. destruct (os_Stat x) as [st|e]; [|done]. cbn. destruct (fi_IsDir st); [|apply same_files_refl].
    destruct (os_ReadDir x) as [entries|e]; [apply IH|done]. }
  pose proof (emap_order f1 f2 dirs l Hf) as He. unfold same_files, ebind, eret in He |- *.
  destruct (emap f1 dirs l) as [m1 [a|e|]], (emap f2 dirs l) as [m2 [b|e'|]]; simpl in *; try done.
  destruct He as [? He]. split; [done|]. by apply uniqStrs_permutation.
Qed.

(** The order in which Go visits its maps does not show in the hash: the files of a COPY,
    which are collected in a map, are hashed in the same order by every run. *)
Theorem files_in_order (o1 o2 : RangeOrder) (L1 : @RangeLaws o1) (L2 : @RangeLaws o2) depth loc path mustExist l :
  @copy_files o1 _ depth loc path mustExist l = @copy_files o2 _ depth loc path mustExist l.
Proof.
  unfold copy_files, addErrorSrc, wrapError, ewrap, ebind.
  assert (same_files (@expandCopyFiles o1 _ depth path mustExist l) (@expandCopyFiles o2 _ depth path mustExist l)) as [Hl Hs].
  { unfold expandCopyFiles. case_test; [done|]. case_test.
    - destruct (filepath_Glob path); [by apply expandDirs_order|done].
    - destruct (os_Stat path) as [st|[]]; [case_test; [by apply expandDirs_order|apply same_files_refl]| |done].
      case_test; apply same_files_refl. }
  destruct (@expandCopyFiles o1 _ depth path mustExist l) as [m1 [a|e|]], (@expandCopyFiles o2 _ depth path mustExist l) as [m2 [b|e'|]];
    simpl in *; try done; subst; [|done..]. by rewrite (sort_permutation a b).
Qed.
End Order.

Module Sample.
Import InputGraph.Sample.

Definition started : loader := newLoader (options "build").

(** The walk of +build alone, in an Earthfile with this documentation and recipe. *)
Definition walked (docs : string) (b : Block) : loader * out lerror string :=
  @load_resolved _ _ _ _ _ _ (project (earthfile [] [] [])) (tree "x" "y") estuck 4 ""
    (mkBuildContext (mkTree (Some (mkVersion None ["0.8"])) None [mkTarget None "build" docs b] [] []) features None) started.

Definition recipe (word : string) : Block := [command "FROM" ["alpine"]; command "RUN" [word]].

Lemma recipe_covered_witness : List.map bare (recipe "make") = List.map bare (recipe "make").
Proof.
  destruct (walked "" (recipe "make")) as [l1 [v|e|]] eqn:E; [|vm_compute in E; discriminate E..].
  assert (walked "docs" (recipe "make") = (l1, Ret v)) as E2 by (rewrite <- E; vm_compute; reflexivity).
  exact (@recipe_covered _ _ _ _ _ _ (project (earthfile [] [] [])) (tree "x" "y") estuck 4 "" (Some (mkVersion None ["0.8"])) None None
    [mkTarget None "build" "" (recipe "make")] [mkTarget None "build" "docs" (recipe "make")] [] [] [] features None started l1 l1 v
    (recipe "make") (recipe "make") ltac:(discriminate) eq_refl eq_refl eq_refl eq_refl E E2 (fun H => eq_refl)).
Defined.

(** Two recipes with another word have other streams. *)
Example recipes_differ :
  snd (walked "" (recipe "make")) <> snd (walked "" (recipe "test")).
Proof. vm_compute. discriminate. Qed.

Lemma tree_steady a b : Forall (@steady (tree a b)) ["src/a"; "src/b"].
Proof. repeat constructor; eexists _, _; by split_and!. Qed.


(** The maps the other way round. *)
Definition backwards : RangeOrder := fun m => rev (map_to_list m).
Lemma backwards_laws : @RangeLaws backwards.
Proof. intros m. symmetry. apply Permutation_rev. Qed.

Lemma files_in_order_witness :
  @copy_files list_order (tree "x" "y") 4 None "src" true started = @copy_files backwards (tree "x" "y") 4 None "src" true started.
Proof. exact (@files_in_order (tree "x" "y") list_order backwards list_order_laws backwards_laws 4 None "src" true started). Defined.

(** ** What the hash does not cover *)

Definition digest (r : out lerror (string * Stats)) : option string := match r with Ret (h, _) => Some h | _ => None end.

Definition with_base (base : Block) : option string :=
  digest (hash_project (earthfile base [command "RUN" ["make"]] []) "x" "y").

(** Neither the image nor the commands of the base recipe are hashed. *)
Lemma base_is_not_hashed :
  with_base [command "FROM" ["alpine:3.18"]; command "RUN" ["apk add make"]; command "COPY" ["src"; "."]] = with_base [] /\ with_base [] <> None.
Proof. vm_compute. done. Qed.

Definition with_if (body : Block) : option string :=
  digest (hash_project (earthfile [] [stmt (SIf (mkIf None None ["grep"; "foo"; "file"] [] body false))] []) "x" "y").

(** The body of an IF whose condition is a command is not hashed. *)
Lemma command_condition_is_not_hashed :
  with_if [command "RUN" ["make"]] = with_if [command "RUN" ["rm -rf /"]] /\ with_if [command "RUN" ["make"]] <> None.
Proof. vm_compute. done. Qed.

Definition with_try (catch finally : option Block) : option string :=
  digest (hash_project (earthfile [] [stmt (STry (mkTry catch finally None [command "RUN" ["make"]]))] []) "x" "y").

(** CATCH and FINALLY are not told apart. *)
Lemma catch_is_finally (b := [command "RUN" ["clean"]]) : with_try (Some b) None = with_try None (Some b) /\ with_try None (Some b) <> None.
Proof. vm_compute. done. Qed.

(** A target without commands is said not to exist. *)
Lemma empty_recipe_is_not_found : hash_project (earthfile [] [] []) "x" "y" = Fail (LText (Join ["target"; Quote "build"; "not found"] " ")).
Proof. vm_compute. reflexivity. Qed.

(** FROM without an argument, which the interpreter refuses with an error, is a panic. *)
Lemma from_panics : hash_project (earthfile [] [command "FROM" []] []) "x" "y" = Fail (LPanic panic_index).
Proof. vm_compute. reflexivity. Qed.

End Sample.
