(* ===== verification/Outcome.v ===== *)
(** * Calls that return, fail or panic

    The outcome of a Go call whose panics matter: a value, an error, or a panic.  The files
    on configuration, git remotes and completion share it. *)

From S2P Require Import Prelude GoStrings.

Inductive outcome (E A : Type) : Type :=
  | GoOk (a : A)
  | GoErr (e : E)
  | GoPanic (text : string).
Arguments GoOk {E A} _.
Arguments GoErr {E A} _.
Arguments GoPanic {E A} _.

Definition obind {E A B} (m : outcome E A) (k : A -> outcome E B) : outcome E B :=
  match m with
  | GoOk a => k a
  | GoErr e => GoErr e
  | GoPanic t => GoPanic t
  end.

(** [return ..., fmt.Errorf("...: %w", err)] *)
Definition owrap {E E' A} (f : E -> E') (m : outcome E A) : outcome E' A :=
  match m with
  | GoOk a => GoOk a
  | GoErr e => GoErr (f e)
  | GoPanic t => GoPanic t
  end.

Declare Scope outcome_scope.
Delimit Scope outcome_scope with outcome.
Notation "'try' p := m 'in' k" := (obind m (fun p => k))
  (at level 10, p pattern, m at level 100, k at level 200) : outcome_scope.

Definition index_panic : string := "runtime error: index out of range".
Definition slice_panic : string := "runtime error: slice bounds out of range".

Definition panics {E A} (m : outcome E A) : bool := match m with GoPanic _ => true | _ => false end.

Lemma obind_ok {E A B} (m : outcome E A) (k : A -> outcome E B) b :
  obind m k = GoOk b -> exists a, m = GoOk a /\ k a = GoOk b.
Proof. destruct m; [eauto|done|done]. Qed.

Lemma obind_panics {E A B} (m : outcome E A) (k : A -> outcome E B) :
  panics m = false -> (forall a, m = GoOk a -> panics (k a) = false) -> panics (obind m k) = false.
Proof. destruct m; simpl; auto. Qed.

(** [s[:i]] and [s[i:]], for an index that may be out of range. *)
Definition slice_to {E} (s : string) (i : Z) : outcome E string :=
  if (0 <=? i)%Z && (i <=? Z.of_nat (String.length s))%Z then GoOk (stake (Z.to_nat i) s) else GoPanic slice_panic.

Definition slice_from {E} (s : string) (i : Z) : outcome E string :=
  if (0 <=? i)%Z && (i <=? Z.of_nat (String.length s))%Z then GoOk (sdrop (Z.to_nat i) s) else GoPanic slice_panic.

(** [strings.IndexByte], -1 when the byte is not there. *)
Fixpoint index_byte (s : string) (c : ascii) : option nat :=
  match s with
  | "" => None
  | String d s => if Ascii.eqb d c then Some O else S <$> index_byte s c
  end.

Definition IndexByte (s : string) (c : ascii) : Z :=
  match index_byte s c with Some i => Z.of_nat i | None => (-1)%Z end.

(** [strings.Contains] *)
Fixpoint Contains (s sub : string) : bool :=
  HasPrefix s sub || match s with "" => false | String _ s => Contains s sub end.

(** [strings.Trim(s, cutset)] for a cutset of one byte. *)
Fixpoint trim_left (c : ascii) (s : string) : string :=
  match s with
  | "" => ""
  | String d s' => if Ascii.eqb d c then trim_left c s' else s
  end.

Definition Trim (s : string) (c : ascii) : string := TrimRight (trim_left c s) (String c "").

Lemma sapp_nil_l (s : string) : "" +:+ s = s.
Proof. done. Qed.

Lemma index_byte_split s c i :
  index_byte s c = Some i -> s = stake i s +:+ String c (sdrop (S i) s) /\ i < String.length s.
Proof.
  revert i. induction s as [|d s IH]; intros i; simpl; [done|]. destruct (Ascii.eqb d c) eqn:E.
  - intros [= <-]. apply Ascii.eqb_eq in E as ->. split; [done|simpl; lia].
  - destruct (index_byte s c) as [j|]; [|done]. intros [= <-]. destruct (IH j eq_refl) as [Hs Hj].
    cbn [stake]. rewrite sapp_cons. change (sdrop (S (S j)) (String d s)) with (sdrop (S j) s). rewrite <- Hs. split; [done|simpl; lia].
Qed.
