(* ===== verification/Home.v ===== *)
(** * Home directories and the directory of earth

    A translation of [util/fileutil] (the existence tests, [IsDirWritable], [HomeDir],
    [GetUserHomeDirs], [ExpandPath], [EnsureUserOwned]) and of [util/cliutil/earthlydir.go].  The
    machine (its files, its users, its environment) is a parameter; the package variables of
    [cliutil], which are set once, are the state [Once]. *)

From stdpp Require Import gmap.
From S2P Require Import Prelude GoStrings Token GoText Numbers Hasher Outcome.

Record User : Type := mkUser { Uid : string; Gid : string; Username : string; u_Name : string; u_HomeDir : string }.

(** The verb [%s] of a [*user.User]. *)
Definition fmt_user (u : User) : string :=
  "&{" +:+ Join [Uid u; Gid u; Username u; u_Name u; u_HomeDir u] " " +:+ "}".

Record Stat : Type := mkStat { st_IsDir : bool; st_Perm : Z }.

Record DirEntry : Type := mkEntry { de_Name : string; de_IsDir : bool }.

(** What the code asks of the operating system, of [os/user] and of [path/filepath]. *)
Class Machine : Type := {
  GOOS : string;
  m_Getenv : string -> option string;
  m_Current : User + string;
  m_Lookup : string -> User + string;
  m_Stat : string -> Stat + os_error;
  m_Stat_uid : string -> Z + string;
  m_ReadDir : string -> list DirEntry + string;
  (** The bytes of a file until its end, or until an error of reading. *)
  m_Open : string -> (string * option os_error) + os_error;
  m_WriteFile : string -> string -> option string;
  m_MkdirAll : string -> option string;
  m_OpenRoot : string -> option string;
  m_WalkDir : string -> list (string * option string);
  m_Rel : string -> string -> string + string;
  m_Chown : string -> Z -> Z -> option string;
  m_Getwd : string + string
}.

Section Home.
Context `{Unicode} {M : Machine}.

Definition os_text (e : os_error) : string := match e with NotExist t => t | OtherError t => t end.

(** ** [fileutil.go] *)

Definition FileExists (filename : string) : bool + string :=
  match m_Stat filename with
  | inr (NotExist _) => inl false
  | inr e => inr ("unable to stat " +:+ filename +:+ ": " +:+ os_text e)
  | inl info => inl (negb (st_IsDir info))
  end.

Definition FileExistsBestEffort (filename : string) : bool :=
  match FileExists filename with inl ok => ok | inr _ => false end.

Definition DirExists (filename : string) : bool + string :=
  match m_Stat filename with
  | inr (NotExist _) => inl false
  | inr e => inr ("unable to stat " +:+ filename +:+ ": " +:+ os_text e)
  | inl info => inl (st_IsDir info)
  end.

(** [gid, _ = strconv.Atoi(s)]: a number that is too large still gives the nearest [int]. *)
Definition atoi_value (s : string) : Z :=
  let '(neg, t) := split_sign s in
  match (if String.eqb t "" then inr "invalid syntax" else uint_loop t 0) with
  | inl n =>
      if neg : bool then (if (n <=? 2 ^ 63)%Z then - n else - 2 ^ 63)%Z
      else if (n <? 2 ^ 63)%Z then n else (2 ^ 63 - 1)%Z
  | inr reason =>
      if String.eqb reason "value out of range" then (if neg : bool then - 2 ^ 63 else 2 ^ 63 - 1)%Z else 0%Z
  end.

(** The function that [filepath.WalkDir] calls on each path; the paths it gave away, up to
    the first error. *)
Fixpoint chown_all (dir : string) (uid gid : Z) (walk : list (string * option string)) : list string * option string :=
  match walk with
  | [] => ([], None)
  | (p, Some err) :: _ => ([], Some err)
  | (p, None) :: walk =>
      match m_Rel dir p with
      | inr err => ([], Some ("get relative path for " +:+ p +:+ " to " +:+ dir +:+ ": " +:+ err))
      | inl rel =>
          match m_Chown rel uid gid with
          | Some err => ([], Some err)
          | None => let '(done, err) := chown_all dir uid gid walk in (rel :: done, err)
          end
      end
  end.

Definition EnsureUserOwned (dir : string) (owner : User) : list string * option string :=
  match Atoi (Uid owner) with
  | Ok uid =>
      let gid := if String.eqb (Gid owner) "" then 0%Z else atoi_value (Gid owner) in
      match m_OpenRoot dir with
      | Some err => ([], Some ("open root " +:+ dir +:+ ": " +:+ err))
      | None => chown_all dir uid gid (m_WalkDir dir)
      end
  | Err err => ([], Some ("convert uid " +:+ Uid owner +:+ " to int: " +:+ err))
  | NoFuel => ([], None)
  end.

(** ** [iswritable_other.go] *)

Definition IsDirWritable (path : string) : bool * option string :=
  match m_Stat path with
  | inr e => (false, Some (os_text e))
  | inl info =>
      if negb (st_IsDir info) then (false, None)
      else if (Z.land (st_Perm info) (Z.shiftl 1 7) =? 0)%Z then (false, None)
      else match m_Stat_uid path with
      | inr err => (false, Some err)
      | inl stat_uid =>
          match m_Current with
          | inr err => (false, Some err)
          | inl u =>
              match Atoi (Uid u) with
              | Ok uid => if negb (stat_uid =? uid)%Z && negb (uid =? 0)%Z then (false, None) else (true, None)
              | Err err => (false, Some ("failed to convert uid " +:+ Uid u +:+ " to int: " +:+ err))
              | NoFuel => (false, None)
              end
          end
      end
  end.

(** ** [homedir.go] *)

Definition getHomeFromSudoUser : option (string * option User) :=
  match m_Getenv "SUDO_USER" with
  | None => None
  | Some name =>
      match m_Lookup name with
      | inr _ => None
      | inl u =>
          if String.eqb (u_HomeDir u) "" then None
          else if fst (IsDirWritable (u_HomeDir u)) then Some (u_HomeDir u, Some u) else None
      end
  end.

Definition getHomeFromHomeEnv : option (string * option User) :=
  home ← m_Getenv "HOME"; Some (home, None).

Definition getHomeFromUserCurrent : option (string * option User) :=
  match m_Current with
  | inr _ => None
  | inl u => if String.eqb (u_HomeDir u) "" then None else Some (u_HomeDir u, None)
  end.

Definition HomeDir : string * option User :=
  match getHomeFromSudoUser with
  | Some r => r
  | None =>
      match getHomeFromHomeEnv with
      | Some r => r
      | None => match getHomeFromUserCurrent with Some r => r | None => ("/etc", None) end
      end
  end.

(** ** [homedirs.go] *)

(** [path.Split]: up to and including the last slash, and the rest. *)
Fixpoint path_Split (p : string) : string * string :=
  match p with
  | "" => ("", "")
  | String c p =>
      let '(dir, file) := path_Split p in
      if String.eqb dir "" && negb (Ascii.eqb c slash) then ("", String c file) else (String c dir, file)
  end.

(** [filepath.Dir] *)
Definition Dir (p : string) : string := Clean (fst (path_Split p)).

(** The lines that end with a newline; what follows the last one is not a line. *)
Definition full_lines (s : string) : list string := removelast (Split s (ascii_of_nat 10)).

Definition passwd_line (users : gmap string string) (line : string) : gmap string string :=
  let line := TrimSpace line in
  if HasPrefix line "#" then users
  else match Split line ":" with
  | user :: _ :: _ :: _ :: _ :: home :: _ => <[user:=home]> users
  | _ => users
  end.

Definition darwin_entry (home : string) (users : gmap string string) (s : DirEntry) : gmap string string :=
  if negb (de_IsDir s) then users
  else match m_Lookup (de_Name s) with
  | inr _ => users
  | inl u => <[Username u:=path_Join [home; Username u]]> users
  end.

Definition GetUserHomeDirs : gmap string string + string :=
  if String.eqb GOOS "darwin" then
    match m_Current with
    | inr err => inr ("failed to get current user: " +:+ err)
    | inl currentUser =>
        let home := Dir (u_HomeDir currentUser) in
        match m_ReadDir home with
        | inr err => inr ("failed to read dir: " +:+ err)
        | inl l => inl (fold_left (darwin_entry home) l ∅)
        end
    end
  else match m_Open "/etc/passwd" with
  | inr err => inr ("failed to open /etc/passwd: " +:+ os_text err)
  | inl (text, Some err) => inr ("failed to read line: " +:+ os_text err)
  | inl (text, None) => inl (fold_left passwd_line (full_lines text) ∅)
  end.

(** ** [expand.go] *)

(** The second result of [HomeDir] is the user to give files to, and it is tested as if it
    were an error. *)
Definition ExpandPath (s : string) : string :=
  if negb (HasPrefix s "~") then s
  else let '(homeDir, err) := HomeDir in
  if bool_decide (is_Some err) || String.eqb homeDir "" then s
  else if String.eqb s "~" then homeDir
  else
    let '(first, rest, found) := Cut s slash in
    let home :=
      if String.eqb first "~" then Some homeDir
      else match GetUserHomeDirs with
      | inr _ => None
      | inl users =>
          match users !! sdrop 1 first with
          | None => None
          | Some h => if String.eqb h "" then None else Some h
          end
      end in
    match home with
    | None => s
    | Some h => if found : bool then h +:+ "/" +:+ rest else h
    end.

(** ** [cliutil/dirs.go] *)

Record Once : Type := mkOnce {
  earthDir : option (string * option User);
  earthDirCreate : option (option string)
}.

Definition fresh : Once := mkOnce None None.

Definition getEarthDirAndUser (installName : string) : string * option User :=
  let '(homeDir, u) := HomeDir in (path_Join [homeDir; "." +:+ installName], u).

Definition GetEarthDir (installName : string) (o : Once) : Once * string :=
  let installName := if String.eqb installName "" then "earthly" else installName in
  match earthDir o with
  | Some (d, _) => (o, d)
  | None => let du := getEarthDirAndUser installName in (mkOnce (Some du) (earthDirCreate o), fst du)
  end.

(** The body of [earthDirCreateOnce]: the error it leaves. *)
Definition create_dir (dir : string) (u : option User) : option string :=
  match DirExists dir with
  | inr err => Some ("unable to create dir " +:+ dir +:+ ": " +:+ err)
  | inl true => None
  | inl false =>
      match m_MkdirAll dir with
      | Some err => Some ("unable to create dir " +:+ dir +:+ ": " +:+ err)
      | None =>
          match u with
          | None => None
          | Some owner =>
              match snd (EnsureUserOwned dir owner) with
              | Some err => Some ("failed to ensure " +:+ dir +:+ " is owned by " +:+ fmt_user owner +:+ ": " +:+ err)
              | None => None
              end
          end
      end
  end.

Definition GetOrCreateEarthDir (installName : string) (o : Once) : Once * (string * option string) :=
  let '(o, dir) := GetEarthDir installName o in
  match earthDirCreate o with
  | Some err => (o, (dir, err))
  | None =>
      let err := create_dir dir (u ← earthDir o; snd u) in
      (mkOnce (earthDir o) (Some err), (dir, err))
  end.

Definition IsBootstrapped (installName : string) (o : Once) : Once * bool :=
  let '(o, dir) := GetEarthDir installName o in
  (o, match DirExists dir with inl b => b | inr _ => false end).

Definition EnsurePermissions (installName : string) : list string * option string :=
  let '(dir, sudoUser) := getEarthDirAndUser installName in
  match sudoUser with
  | None => ([], None)
  | Some owner =>
      match EnsureUserOwned dir owner with
      | (l, Some err) => (l, Some ("failed to ensure " +:+ dir +:+ " is owned by " +:+ fmt_user owner +:+ ": " +:+ err))
      | (l, None) => (l, None)
      end
  end.

(** The first caller decides: later names of the installation are not looked at. *)
Lemma GetEarthDir_first name1 name2 :
  let '(o, d) := GetEarthDir name1 fresh in GetEarthDir name2 o = (o, d).
Proof. unfold GetEarthDir. simpl. by destruct (getEarthDirAndUser _). Qed.

(** Once the directory could not be made, it is not tried again. *)
Lemma GetOrCreate_again name1 name2 o :
  let '(o', r) := GetOrCreateEarthDir name1 o in GetOrCreateEarthDir name2 o' = (o', r).
Proof.
  destruct o as [[[d u]|] [e|]]; unfold GetOrCreateEarthDir, GetEarthDir; cbn; try done;
    by destruct (getEarthDirAndUser _).
Qed.

(** Under sudo a path that starts with a tilde is not expanded. *)
Lemma ExpandPath_sudo home u s : getHomeFromSudoUser = Some (home, Some u) -> ExpandPath s = s.
Proof. intros E. unfold ExpandPath, HomeDir. rewrite E. by case_test. Qed.

Lemma path_Split_app p : fst (path_Split p) +:+ snd (path_Split p) = p.
Proof.
  induction p as [|c p IH]; [done|]. cbn [path_Split]. destruct (path_Split p) as [dir file]. simpl in IH.
  destruct (String.eqb_spec dir "") as [->|]; [|simpl; rewrite sapp_cons; by rewrite IH].
  destruct (negb (Ascii.eqb c slash)); cbn -[String.append] in *; [|rewrite sapp_cons]; by rewrite <- IH.
Qed.

End Home.
