(* ===== verification/Yaml.v ===== *)
(** * Editing a YAML tree

    A translation of the tree operations of [config/config.go]: [pathToYaml],
    [setYamlValue], [deleteYamlValue] and the styling of a value.  The operations change
    the nodes they are given; here they return the tree as they leave it, with the part of
    the path that was not used.  [None] is the panic of a mapping whose last key has no
    value, which no parser makes. *)

From S2P Require Import Prelude GoStrings.

Inductive Kind : Type := NoKind | DocumentNode | SequenceNode | MappingNode | ScalarNode | AliasNode.

#[export] Instance Kind_eq_dec : EqDecision Kind.
Proof. solve_decision. Defined.

(** [yaml.Node]; [n_Extra] stands for the anchor, the alias, the comments and the position,
    which the code never looks at. *)
Inductive Node : Type :=
  mkNode (n_Kind : Kind) (n_Style : nat) (n_Tag n_Value n_Extra : string) (n_Content : list Node).

Definition kind (n : Node) : Kind := let 'mkNode k _ _ _ _ _ := n in k.
Definition value (n : Node) : string := let 'mkNode _ _ _ v _ _ := n in v.
Definition content (n : Node) : list Node := let 'mkNode _ _ _ _ _ c := n in c.

Definition with_content (n : Node) (c : list Node) : Node :=
  let 'mkNode k st t v x _ := n in mkNode k st t v x c.

Definition zero_node : Node := mkNode NoKind 0 "" "" "" [].

(** [yaml.Node.IsZero] *)
Definition IsZero (n : Node) : bool :=
  match n with
  | mkNode NoKind O "" "" "" [] => true
  | _ => false
  end.

Definition key_node (seg : string) : Node := mkNode ScalarNode 0 "" seg "" [].
Definition mapping_node (c : list Node) : Node := mkNode MappingNode 0 "" "" "" c.

(** The key and the value to add for a path; the mappings of the inner segments hold one
    entry each. *)
Fixpoint pathToYaml (path : list string) (v : Node) : list Node :=
  match path with
  | [] => []
  | [seg] => [key_node seg; v]
  | seg :: path => [key_node seg; mapping_node (pathToYaml path v)]
  end.

(** What the loop over the entries of a mapping leaves: its nodes, the rest of the path, and
    whether the function returned from inside of it. *)
Definition entries : Type := list Node * list string * bool.

(** After the loop, what is left of the path is built and added where we are. *)
Definition set_finish (n : Node) (v : Node) (r : entries) : Node * list string :=
  let '(c, path, returned) := r in
  if returned : bool then (with_content n c, [])
  else (with_content n (c ++ pathToYaml path v), []).

Fixpoint setYamlValue (n : Node) (path : list string) (v : Node) {struct n} : option (Node * list string) :=
  match kind n with
  | DocumentNode =>
      let fix each (l : list Node) (path : list string) : option (list Node * list string) :=
        match l with
        | [] => Some ([], path)
        | c :: l =>
            '(c', path) ← setYamlValue c path v;
            '(l', path) ← each l path;
            Some (c' :: l', path)
        end in
      '(c, path) ← each (content n) path;
      Some (set_finish n v (c, path, false))
  | MappingNode =>
      let fix each (l : list Node) (path : list string) : option entries :=
        match l with
        | [] => Some ([], path, false)
        | [_] => None
        | key :: val :: l =>
            match path with
            | seg :: rest =>
                if String.eqb (value key) seg then
                  match rest with
                  | [] => Some (key :: v :: l, [], true)
                  | _ =>
                      '(val', path) ← setYamlValue val rest v;
                      '(l', path, ret) ← each l path;
                      Some (key :: val' :: l', path, ret)
                  end
                else '(l', path, ret) ← each l path; Some (key :: val :: l', path, ret)
            | [] => '(l', path, ret) ← each l path; Some (key :: val :: l', path, ret)
            end
        end in
      r ← each (content n) path;
      Some (set_finish n v r)
  | _ => Some (n, path)
  end.

Fixpoint deleteYamlValue (n : Node) (path : list string) {struct n} : option (Node * list string) :=
  match kind n with
  | DocumentNode =>
      let fix each (l : list Node) (path : list string) : option (list Node * list string) :=
        match l with
        | [] => Some ([], path)
        | c :: l =>
            '(c', path) ← deleteYamlValue c path;
            '(l', path) ← each l path;
            Some (c' :: l', path)
        end in
      '(c, _) ← each (content n) path;
      Some (with_content n c, [])
  | MappingNode =>
      let fix each (l : list Node) (path : list string) : option entries :=
        match l with
        | [] => Some ([], path, false)
        | [_] => None
        | key :: val :: l =>
            match path with
            | seg :: rest =>
                if String.eqb (value key) seg then
                  match rest with
                  | [] => Some (l, [], true)
                  | _ =>
                      '(val', path) ← deleteYamlValue val rest;
                      '(l', path, ret) ← each l path;
                      Some (key :: val' :: l', path, ret)
                  end
                else '(l', path, ret) ← each l path; Some (key :: val :: l', path, ret)
            | [] => '(l', path, ret) ← each l path; Some (key :: val :: l', path, ret)
            end
        end in
      '(c, _, _) ← each (content n) path;
      Some (with_content n c, [])
  | _ => Some (n, path)
  end.

(** [fixStyling] of [valueToYaml] *)
Fixpoint fixStyling (n : Node) : Node :=
  let 'mkNode k _ t v x c := n in mkNode k 0 t v x (List.map fixStyling c).

(** ** The loops as functions of their own *)

Section Loops.
Variable v : Node.

Fixpoint set_docs (l : list Node) (path : list string) : option (list Node * list string) :=
  match l with
  | [] => Some ([], path)
  | c :: l =>
      '(c', path) ← setYamlValue c path v;
      '(l', path) ← set_docs l path;
      Some (c' :: l', path)
  end.

Fixpoint set_entries (l : list Node) (path : list string) : option entries :=
  match l with
  | [] => Some ([], path, false)
  | [_] => None
  | key :: val :: l =>
      match path with
      | seg :: rest =>
          if String.eqb (value key) seg then
            match rest with
            | [] => Some (key :: v :: l, [], true)
            | _ =>
                '(val', path) ← setYamlValue val rest v;
                '(l', path, ret) ← set_entries l path;
                Some (key :: val' :: l', path, ret)
            end
          else '(l', path, ret) ← set_entries l path; Some (key :: val :: l', path, ret)
      | [] => '(l', path, ret) ← set_entries l path; Some (key :: val :: l', path, ret)
      end
  end.

Fixpoint delete_entries (l : list Node) (path : list string) : option entries :=
  match l with
  | [] => Some ([], path, false)
  | [_] => None
  | key :: val :: l =>
      match path with
      | seg :: rest =>
          if String.eqb (value key) seg then
            match rest with
            | [] => Some (l, [], true)
            | _ =>
                '(val', path) ← deleteYamlValue val rest;
                '(l', path, ret) ← delete_entries l path;
                Some (key :: val' :: l', path, ret)
            end
          else '(l', path, ret) ← delete_entries l path; Some (key :: val :: l', path, ret)
      | [] => '(l', path, ret) ← delete_entries l path; Some (key :: val :: l', path, ret)
      end
  end.

Lemma set_mapping n path :
  kind n = MappingNode -> setYamlValue n path v = (r ← set_entries (content n) path; Some (set_finish n v r)).
Proof. by destruct n as [[] ? ? ? ? c]. Qed.

Lemma set_document n path :
  kind n = DocumentNode ->
  setYamlValue n path v = ('(c, path) ← set_docs (content n) path; Some (set_finish n v (c, path, false))).
Proof. by destruct n as [[] ? ? ? ? c]. Qed.

Lemma delete_mapping n path :
  kind n = MappingNode ->
  deleteYamlValue n path = ('(c, _, _) ← delete_entries (content n) path; Some (with_content n c, [])).
Proof. by destruct n as [[] ? ? ? ? c]. Qed.

End Loops.

(** * What editing a YAML tree does

    The tree is read as a finite map from paths to nodes: a value that was set is found at
    its path, a value that was deleted is not, and every path that neither leads to nor
    through the edited one keeps its value.  This holds where every section on the way is a
    mapping; the last theorems say what happens when it is not. *)

(** The first value with that key. *)
Fixpoint find_key (seg : string) (l : list Node) : option Node :=
  match l with
  | key :: val :: l => if String.eqb (value key) seg then Some val else find_key seg l
  | _ => None
  end.

Fixpoint get (n : Node) (path : list string) : option Node :=
  match path with
  | [] => Some n
  | seg :: rest =>
      match kind n with
      | MappingNode => u ← find_key seg (content n); get u rest
      | _ => None
      end
  end.

Fixpoint paired (l : list Node) : bool :=
  match l with
  | [] => true
  | [_] => false
  | _ :: _ :: l => paired l
  end.

Definition is_mapping (n : Node) : bool := bool_decide (kind n = MappingNode) && paired (content n).

(** Every section that the path goes through is a mapping. *)
Fixpoint sections (path : list string) (n : Node) : bool :=
  match path with
  | [] => true
  | seg :: rest =>
      is_mapping n &&
      match rest, find_key seg (content n) with
      | _ :: _, Some u => sections rest u
      | _, _ => true
      end
  end.

(** No key appears twice in the section that holds the last segment. *)
Fixpoint keys (l : list Node) : list string :=
  match l with
  | key :: _ :: l => value key :: keys l
  | _ => []
  end.

Fixpoint unique (path : list string) (n : Node) : bool :=
  match path with
  | [] => true
  | [_] => bool_decide (NoDup (keys (content n)))
  | seg :: rest => match find_key seg (content n) with Some u => unique rest u | None => true end
  end.

(** Neither path is a prefix of the other. *)
Definition apart (p q : list string) : Prop := ~ p `prefix_of` q /\ ~ q `prefix_of` p.

Lemma pair_ind (P : list Node -> Prop) :
  P [] -> (forall a, P [a]) -> (forall a b l, P l -> P (a :: b :: l)) -> forall l, P l.
Proof.
  intros H0 H1 H2. assert (forall l, P l /\ forall a, P (a :: l)) as H; [|intros l; apply H].
  induction l as [|b l [IH IH']]; split; auto.
Qed.

Lemma is_mapping_spec n : is_mapping n = true <-> kind n = MappingNode /\ paired (content n) = true.
Proof. unfold is_mapping. rewrite andb_true_iff, bool_decide_eq_true. done. Qed.

Lemma content_with n c : content (with_content n c) = c.
Proof. by destruct n. Qed.

Lemma kind_with n c : kind (with_content n c) = kind n.
Proof. by destruct n. Qed.

Lemma with_content_same n : with_content n (content n) = n.
Proof. by destruct n. Qed.

(** ** Entries of a mapping *)

Lemma find_key_split seg l u :
  find_key seg l = Some u ->
  exists l1 key l2, l = l1 ++ key :: u :: l2 /\ paired l1 = true /\ value key = seg /\ find_key seg l1 = None.
Proof.
  induction l as [|a|a b l IH] using pair_ind; simpl; [done|done|]. destruct (String.eqb (value a) seg) eqn:E.
  - intros [= ->]. exists [], a, l. split_and!; [done|done|by apply String.eqb_eq|done].
  - intros H. destruct (IH H) as (l1 & key & l2 & -> & Hp & Hk & Hn). exists (a :: b :: l1), key, l2.
    split_and!; [done|done|done|]. simpl. by rewrite E.
Qed.

Lemma paired_app l1 l2 : paired l1 = true -> paired (l1 ++ l2) = paired l2.
Proof. induction l1 as [|a|a b l IH] using pair_ind; simpl; done. Qed.

Lemma find_key_app seg l1 l2 :
  paired l1 = true -> find_key seg (l1 ++ l2) = match find_key seg l1 with Some u => Some u | None => find_key seg l2 end.
Proof.
  induction l1 as [|a|a b l IH] using pair_ind; simpl; [done|done|]. intros H. case_test; [done|by apply IH].
Qed.

Lemma find_key_replace q l1 key u u' l2 :
  paired l1 = true -> find_key (value key) l1 = None ->
  find_key q (l1 ++ key :: u' :: l2) = if String.eqb (value key) q then Some u' else find_key q (l1 ++ key :: u :: l2).
Proof.
  intros Hp Hn. rewrite !find_key_app by done. simpl. destruct (String.eqb (value key) q) eqn:E; [|done].
  apply String.eqb_eq in E as <-. by rewrite Hn.
Qed.

Lemma find_key_keys seg l : ~ seg ∈ keys l -> find_key seg l = None.
Proof.
  induction l as [|a|a b l IH] using pair_ind; simpl; [done|done|]. rewrite not_elem_of_cons. intros [Hn Hl].
  destruct (String.eqb_spec (value a) seg); [congruence|by apply IH].
Qed.

Lemma keys_app l1 l2 : paired l1 = true -> keys (l1 ++ l2) = keys l1 ++ keys l2.
Proof.
  induction l1 as [|a|a b l IH] using pair_ind; simpl; [done|done|]. intros H. by rewrite IH.
Qed.

(** ** The loops *)

Lemma set_entries_done v l : paired l = true -> set_entries v l [] = Some (l, [], false).
Proof. induction l as [|a|a b l IH] using pair_ind; simpl; [done|done|]. intros H. by rewrite IH. Qed.

Lemma set_entries_skip v l1 l2 seg rest :
  paired l1 = true -> find_key seg l1 = None ->
  set_entries v (l1 ++ l2) (seg :: rest) = ('(l', path, ret) ← set_entries v l2 (seg :: rest); Some (l1 ++ l', path, ret)).
Proof.
  induction l1 as [|a|a b l IH] using pair_ind; intros Hp Hn; [|done|].
  - simpl app. by destruct (set_entries v l2 (seg :: rest)) as [[[? ?] ?]|].
  - simpl in Hp, Hn. rewrite <- !app_comm_cons. cbn [set_entries]. destruct (String.eqb (value a) seg); [done|].
    rewrite IH by done. by destruct (set_entries v l2 (seg :: rest)) as [[[? ?] ?]|].
Qed.

Lemma set_entries_none v l seg rest :
  paired l = true -> find_key seg l = None -> set_entries v l (seg :: rest) = Some (l, seg :: rest, false).
Proof. intros Hp Hn. rewrite <- (app_nil_r l) at 1. rewrite set_entries_skip by done. simpl. by rewrite app_nil_r. Qed.

Lemma delete_entries_done l : paired l = true -> delete_entries l [] = Some (l, [], false).
Proof. induction l as [|a|a b l IH] using pair_ind; simpl; [done|done|]. intros H. by rewrite IH. Qed.

Lemma delete_entries_skip l1 l2 seg rest :
  paired l1 = true -> find_key seg l1 = None ->
  delete_entries (l1 ++ l2) (seg :: rest) = ('(l', path, ret) ← delete_entries l2 (seg :: rest); Some (l1 ++ l', path, ret)).
Proof.
  induction l1 as [|a|a b l IH] using pair_ind; intros Hp Hn; [|done|].
  - simpl app. by destruct (delete_entries l2 (seg :: rest)) as [[[? ?] ?]|].
  - simpl in Hp, Hn. rewrite <- !app_comm_cons. cbn [delete_entries]. destruct (String.eqb (value a) seg); [done|].
    rewrite IH by done. by destruct (delete_entries l2 (seg :: rest)) as [[[? ?] ?]|].
Qed.

Lemma delete_entries_none l seg rest :
  paired l = true -> find_key seg l = None -> delete_entries l (seg :: rest) = Some (l, seg :: rest, false).
Proof. intros Hp Hn. rewrite <- (app_nil_r l) at 1. rewrite delete_entries_skip by done. simpl. by rewrite app_nil_r. Qed.

(** ** The nodes of a new path *)

Definition chain (path : list string) (v : Node) : Node :=
  match path with [] => v | _ => mapping_node (pathToYaml path v) end.

Lemma pathToYaml_cons seg path v : pathToYaml (seg :: path) v = [key_node seg; chain path v].
Proof. by destruct path. Qed.

Lemma apart_cons s p q : apart (s :: p) (s :: q) -> apart p q.
Proof. intros [H1 H2]. split; intros H; [apply H1|apply H2]; by apply prefix_cons. Qed.

Lemma apart_nil_l q : ~ apart [] q.
Proof. intros [H _]. apply H, prefix_nil. Qed.

Lemma apart_nil_r p : ~ apart p [].
Proof. intros [_ H]. apply H, prefix_nil. Qed.

Lemma get_chain path v : get (chain path v) path = Some v.
Proof.
  induction path as [|seg path IH]; [done|]. cbn [get]. cbn [chain kind mapping_node content].
  rewrite pathToYaml_cons. cbn [find_key value key_node]. by rewrite String.eqb_refl.
Qed.

Lemma get_chain_apart path v q : apart path q -> get (chain path v) q = None.
Proof.
  revert q. induction path as [|seg path IH]; intros q H; [by apply apart_nil_l in H|].
  destruct q as [|s q]; [by apply apart_nil_r in H|]. cbn [get chain kind mapping_node content].
  rewrite pathToYaml_cons. cbn [find_key value key_node]. destruct (String.eqb_spec seg s) as [->|Hn]; [|done].
  simpl. apply IH. by apply apart_cons in H.
Qed.

(** ** Setting a value *)

(** What an edit of one path must do: the value at the path is [o], every other path keeps
    what it had. *)
Definition edited (n n' : Node) (path : list string) (o : option Node) : Prop :=
  get n' path = o /\ forall q, apart path q -> get n' q = get n q.

(** An edit below one entry of a mapping is an edit of the mapping. *)
Lemma edited_entry n l1 key u u' l2 seg rest o :
  kind n = MappingNode -> content n = l1 ++ key :: u :: l2 -> paired l1 = true -> value key = seg ->
  find_key seg l1 = None -> edited u u' rest o ->
  edited n (with_content n (l1 ++ key :: u' :: l2)) (seg :: rest) o.
Proof.
  intros Hk Hc Hp <- Hn [Hg Ho]. split.
  - cbn [get]. rewrite kind_with, Hk, content_with, (find_key_replace _ _ _ u) by done. by rewrite String.eqb_refl.
  - intros [|s q] Ha; [by apply apart_nil_r in Ha|]. cbn [get]. rewrite kind_with, Hk, content_with, Hc.
    rewrite (find_key_replace _ _ _ u) by done. destruct (String.eqb_spec (value key) s) as [<-|]; [|done].
    rewrite find_key_app by done. rewrite Hn. simpl. rewrite String.eqb_refl. simpl. apply Ho. by apply apart_cons in Ha.
Qed.

Lemma edited_new n seg rest v :
  is_mapping n = true -> find_key seg (content n) = None ->
  edited n (with_content n (content n ++ pathToYaml (seg :: rest) v)) (seg :: rest) (Some v).
Proof.
  intros [Hk Hp]%is_mapping_spec Hn. rewrite pathToYaml_cons. split.
  - cbn [get]. rewrite kind_with, Hk, content_with, find_key_app, Hn by done. simpl. rewrite String.eqb_refl. apply get_chain.
  - intros [|s q] Ha; [by apply apart_nil_r in Ha|]. cbn [get]. rewrite kind_with, Hk, content_with, find_key_app by done.
    destruct (find_key s (content n)) eqn:E; [done|]. simpl. destruct (String.eqb_spec seg s) as [->|]; [|done].
    simpl. apply get_chain_apart. by apply apart_cons in Ha.
Qed.

Lemma edited_here u v : edited u v [] (Some v).
Proof. split; [done|]. intros q H. by apply apart_nil_l in H. Qed.

Lemma set_edits path n v :
  path <> [] -> sections path n = true ->
  exists n', setYamlValue n path v = Some (n', []) /\ kind n' = kind n /\ edited n n' path (Some v).
Proof.
  revert n. induction path as [|seg rest IH]; intros n Hne Hs; [done|]. cbn [sections] in Hs.
  apply andb_true_iff in Hs as [Hm Hs]. pose proof Hm as [Hk Hp]%is_mapping_spec.
  rewrite set_mapping by done. destruct (find_key seg (content n)) as [u|] eqn:E.
  - pose proof E as (l1 & key & l2 & Hc & Hp1 & Hv & Hn)%find_key_split.
    assert (paired l2 = true) as Hp2 by (rewrite Hc, paired_app in Hp; done).
    rewrite Hc, set_entries_skip by done. cbn [set_entries]. rewrite Hv, String.eqb_refl.
    destruct rest as [|s rest].
    + simpl. eexists. split_and!; [reflexivity|by rewrite kind_with|]. apply (edited_entry _ _ _ u); try done. apply edited_here.
    + destruct (IH u ltac:(done) Hs) as (u' & Hu & Hku & He). rewrite Hu. cbn [mbind option_bind].
      rewrite set_entries_done by done. cbn [mbind option_bind set_finish pathToYaml]. rewrite app_nil_r.
      eexists. split_and!; [reflexivity|by rewrite kind_with|]. by apply (edited_entry _ _ _ u).
  - rewrite set_entries_none by done. cbn [mbind option_bind set_finish]. eexists. split_and!; [reflexivity|by rewrite kind_with|].
    by apply edited_new.
Qed.

(** ** Deleting a value *)

Lemma edited_removed n l1 key u l2 seg :
  kind n = MappingNode -> content n = l1 ++ key :: u :: l2 -> paired l1 = true -> value key = seg ->
  NoDup (keys (content n)) -> edited n (with_content n (l1 ++ l2)) [seg] None.
Proof.
  intros Hk Hc Hp <- Hd. rewrite Hc, keys_app in Hd by done. cbn [keys] in Hd.
  apply list.NoDup_app in Hd as (_ & Hd1 & Hd2). apply list.NoDup_cons in Hd2 as [Hd2 _].
  assert (find_key (value key) l1 = None) as H1 by (apply find_key_keys; intros H; apply (Hd1 _ H); left).
  apply find_key_keys in Hd2. split.
  - cbn [get]. rewrite kind_with, Hk, content_with, find_key_app, H1, Hd2 by done. done.
  - intros [|s q] Ha; [by apply apart_nil_r in Ha|]. cbn [get]. rewrite kind_with, Hk, content_with, Hc, !find_key_app by done.
    simpl. destruct (String.eqb_spec (value key) s) as [<-|]; [|done]. by apply apart_cons, apart_nil_l in Ha.
Qed.

Lemma delete_edits path n :
  path <> [] -> sections path n = true -> unique path n = true ->
  exists n', deleteYamlValue n path = Some (n', []) /\ kind n' = kind n /\ edited n n' path None /\
    (get n path = None -> n' = n).
Proof.
  revert n. induction path as [|seg rest IH]; intros n Hne Hs Hq; [done|]. cbn [sections] in Hs.
  apply andb_true_iff in Hs as [Hm Hs]. pose proof Hm as [Hk Hp]%is_mapping_spec.
  rewrite delete_mapping by done. destruct (find_key seg (content n)) as [u|] eqn:E.
  - pose proof E as (l1 & key & l2 & Hc & Hp1 & Hv & Hn)%find_key_split.
    assert (paired l2 = true) as Hp2 by (rewrite Hc, paired_app in Hp; done).
    rewrite Hc, delete_entries_skip by done. cbn [delete_entries]. rewrite Hv, String.eqb_refl.
    destruct rest as [|s rest].
    + simpl. eexists. split_and!; [reflexivity|by rewrite kind_with| |].
      * apply (edited_removed _ _ key u); try done. by apply bool_decide_eq_true in Hq.
      * by rewrite Hk, E.
    + cbn [unique] in Hq. rewrite E in Hq. destruct (IH u ltac:(done) Hs Hq) as (u' & Hu & Hku & He & Hsame). rewrite Hu.
      cbn [mbind option_bind]. rewrite delete_entries_done by done. cbn [mbind option_bind].
      eexists. split_and!; [reflexivity|by rewrite kind_with|by apply (edited_entry _ _ _ u)|].
      intros Hg. cbn [get] in Hg. rewrite Hk, E in Hg. rewrite Hsame by done. rewrite <- Hc. apply with_content_same.
  - rewrite delete_entries_none by done. cbn [mbind option_bind]. rewrite with_content_same. exists n.
    split_and!; [done|done| |done]. split; [|done]. cbn [get]. by rewrite Hk, E.
Qed.

(** ** A section that is not a mapping

    [global:] with nothing after it is a scalar.  The call for the section comes back with the
    rest of the path, and the rest is looked for among the keys that follow the section, and
    added next to it. *)

Lemma set_entries_scalar v l1 key u l2 seg s rest :
  paired l1 = true -> paired l2 = true -> value key = seg -> find_key seg l1 = None -> find_key s l2 = None ->
  kind u = ScalarNode ->
  set_entries v (l1 ++ key :: u :: l2) (seg :: s :: rest) = Some (l1 ++ key :: u :: l2, s :: rest, false).
Proof.
  intros H1 H2 Hv Hn Hs Hk. rewrite set_entries_skip by done. cbn [set_entries]. rewrite Hv, String.eqb_refl.
  destruct u as [[]]; try done. cbn [setYamlValue kind mbind option_bind]. by rewrite set_entries_none.
Qed.

Lemma set_scalar_section n seg s rest u v :
  is_mapping n = true -> find_key seg (content n) = Some u -> kind u = ScalarNode -> seg <> s ->
  find_key s (content n) = None ->
  exists n', setYamlValue n (seg :: s :: rest) v = Some (n', []) /\
    get n' (s :: rest) = Some v /\ get n' (seg :: s :: rest) = None.
Proof.
  intros Hm E Hu Hne Hs. pose proof Hm as [Hk Hp]%is_mapping_spec.
  pose proof E as (l1 & key & l2 & Hc & Hp1 & Hv & Hn)%find_key_split.
  assert (paired l2 = true) as Hp2 by (rewrite Hc, paired_app in Hp; done).
  assert (find_key s l2 = None) as Hs2.
  { rewrite Hc, find_key_app in Hs by done. destruct (find_key s l1); [done|]. simpl in Hs. by case_hyp Hs. }
  rewrite set_mapping, Hc, set_entries_scalar by done. cbn [mbind option_bind set_finish]. rewrite <- Hc.
  eexists. split_and!; [reflexivity|by apply edited_new|]. cbn [get].
  rewrite kind_with, Hk, content_with, find_key_app, E by done. simpl. by destruct u as [[]].
Qed.
