(* ===== verification/Config.v ===== *)
(** * The configuration file

    A translation of [config/config.go]: the configuration and its defaults, the paths of its
    fields ([splitPath], [validatePath]), and the commands that read, change and explain it
    ([ParseYAML], [Upsert], [Delete], [PrintHelp]).  The library that parses and prints YAML
    is a parameter; the trees it makes are edited in [Yaml.v]. *)

From stdpp Require Import gmap.
From S2P Require Import Prelude GoStrings Token GoText Numbers Hasher Outcome Home Yaml.

Open Scope outcome_scope.

(** ** The data *)

Definition DefaultLocalRegistryPort : Z := 8371.
Definition DefaultDarwinProxyImage : string := "alpine/socat:1.7.4.4".
(** A [time.Duration] counts nanoseconds. *)
Definition DefaultDarwinProxyWait : Z := 10000000000.
Definition DefaultBuildkitScheme : string := "docker-container".
Definition DefaultConversionParallelism : Z := 10.
Definition DefaultBuildkitMaxParallelism : Z := 20.
Definition DefaultCACert : string := "./certs/ca_cert.pem".
Definition DefaultCAKey : string := "./certs/ca_key.pem".
Definition DefaultClientTLSCert : string := "./certs/earthly_cert.pem".
Definition DefaultClientTLSKey : string := "./certs/earthly_key.pem".
Definition DefaultServerTLSCert : string := "./certs/buildkit_cert.pem".
Definition DefaultServerTLSKey : string := "./certs/buildkit_key.pem".
Definition DefaultContainerFrontend : string := "auto".

(** The paths that [parseTLSPaths] completes. *)
Record TLSPaths : Type := mkTLS { TLSCAKey : string; TLSCACert : string; ClientTLSKey : string; ClientTLSCert : string;
  ServerTLSKey : string; ServerTLSCert : string }.

Record GlobalConfig : Type := mkGlobal {
  g_TLS : TLSPaths;
  DarwinProxyImage : string;
  BuildkitScheme : string;
  BuildkitImage : string;
  CachePath : string;
  SecretProvider : string;
  BuildkitAdditionalConfig : string;
  IPTables : string;
  ContainerFrontend : string;
  BuildkitHost : string;
  GitImage : string;
  LocalRegistryHost : string;
  BuildkitAdditionalArgs : list string;
  BuildkitCacheSizePct : Z;
  BuildkitCacheSizeMb : Z;
  ConversionParallelism : Z;
  BuildkitMaxParallelism : Z;
  DarwinProxyWait : Z;
  BuildkitRestartTimeoutS : Z;
  BuildkitCacheKeepDurationS : Z;
  CniMtu : Z;
  TLSEnabled : bool
}.

Record GitConfig : Type := mkGit {
  StrictHostKeyChecking : option bool;
  Pattern : string;
  Substitute : string;
  Suffix : string;
  Auth : string;
  User : string;
  Prefix : string;
  Password : string;
  ServerKey : string;
  SSHCommand : string;
  Port : Z
}.

(** [None] is the nil map. *)
Record Config : Type := mkConfig { c_Git : option (gmap string GitConfig); c_Global : GlobalConfig }.

(** ** The types of the fields

    What [reflect] tells of [Config]: the tags of the fields and their types; of the types
    that have no fields only the kind matters. *)

Record Field (T : Type) : Type := mkField { f_yaml : string; f_help : string; f_Type : T }.
Arguments mkField {T} _ _ _.
Arguments f_yaml {T} _.
Arguments f_help {T} _.
Arguments f_Type {T} _.

Inductive Type_ : Type :=
  | TStruct (fields : list (Field Type_))
  | TMap (elem : Type_)
  | TBasic (kind : string).

Definition global_fields : list (Field Type_) :=
  [ mkField "darwin_proxy_image" "The container image & tag used for the Docker Desktop registry proxy." (TBasic "string");
    mkField "buildkitd_tlskey" "The path to the server key for verification. Relative paths are interpreted as relative to the config path. Only used when earth manages buildkit." (TBasic "string");
    mkField "buildkit_transport" " *Deprecated* Change how earth communicates with its buildkit daemon. Valid options are: docker-container, tcp. TCP is experimental." (TBasic "string");
    mkField "buildkit_image" "Choose a specific image for your buildkitd." (TBasic "string");
    mkField "cache_path" " *Deprecated* The path to keep earth's cache." (TBasic "string");
    mkField "secret_provider" "Command to execute to retrieve secret." (TBasic "string");
    mkField "buildkit_additional_config" "Additional config to use when starting the buildkit container; like using custom/self-signed certificates." (TBasic "string");
    mkField "ip_tables" "Which iptables binary to use. Valid values are iptables-legacy or iptables-nft. Bypasses any autodetection." (TBasic "string");
    mkField "container_frontend" "What program should be used to start and stop buildkitd, save images. Default is 'docker'. Valid options are 'docker' and 'podman' (experimental)." (TBasic "string");
    mkField "buildkitd_tlscert" "The path to the server cert for verification. Relative paths are interpreted as relative to the config path. Only used when earth manages buildkit." (TBasic "string");
    mkField "buildkit_host" "The URL of your buildkit, remote or local." (TBasic "string");
    mkField "tlsca" "The path to the CA cert for verification. Relative paths are interpreted as relative to the config path." (TBasic "string");
    mkField "tlskey" "The path to the client key for verification. Relative paths are interpreted as relative to the config path." (TBasic "string");
    mkField "git_image" "Image used to resolve git repositories" (TBasic "string");
    mkField "local_registry_host" "The URL of the local registry used for image exports to Docker." (TBasic "string");
    mkField "tlsca_key" "The path to the CA key for generating any missing certificates. Relative paths are interpreted as relative to the config path." (TBasic "string");
    mkField "tlscert" "The path to the client cert for verification. Relative paths are interpreted as relative to the config path." (TBasic "string");
    mkField "buildkit_additional_args" "Additional args to pass to buildkit when it starts. Useful for custom/self-signed certs, or user namespace complications." (TBasic "slice");
    mkField "cache_size_pct" "Size of the buildkit cache, as percentage (0-100)." (TBasic "int");
    mkField "cache_size_mb" "Size of the buildkit cache in Megabytes." (TBasic "int");
    mkField "conversion_parallelism" "Set the conversion parallelism for speeding up the use of IF, WITH, DOCKER --load, FROMDOCKERFILE and others. A value of 0 disables the feature" (TBasic "int");
    mkField "buildkit_max_parallelism" "Max parallelism for buildkit workers" (TBasic "int");
    mkField "darwin_proxy_wait" "The maximum time to wait for the Darwin registry proxy support container to become available." (TBasic "int64");
    mkField "buildkit_restart_timeout_s" "How long to wait for buildkit to (re)start, in seconds." (TBasic "int");
    mkField "buildkit_cache_keep_duration_s" "Max age of cache, in seconds. 0 disables age-based cache expiry." (TBasic "int");
    mkField "cni_mtu" "Override auto-detection of the default interface MTU, for all containers within buildkit" (TBasic "uint16");
    mkField "tls_enabled" "If TLS should be used to communicate with Buildkit. Only honored when BuildkitScheme is 'tcp'." (TBasic "bool") ].

Definition git_fields : list (Field Type_) :=
  [ mkField "strict_host_key_checking" "Allow ssh access to hosts with unknown server keys (e.g. no entries in known_hosts), defaults to true." (TBasic "ptr");
    mkField "pattern" "A regular expression defined to match git URLs, defaults to the regex: <site>/([^/]+)/([^/]+). For example if the site is github.com, then the default pattern will match github.com/<user>/<repo>." (TBasic "string");
    mkField "substitute" "If specified, a regular expression substitution will be preformed to determine which URL is cloned by git. Values like $1, $2, ... will be replaced with matched subgroup data. If no substitute is given, a URL will be created based on the requested SSH authentication mode." (TBasic "string");
    mkField "suffix" "The git repository suffix, like .git." (TBasic "string");
    mkField "auth" "What authentication method do you use? Valid options are: http, https, ssh." (TBasic "string");
    mkField "user" "The username to use when auth is set to git or https." (TBasic "string");
    mkField "prefix" "This path is prefixed to the git clone url, e.g. ssh://user@host:port/prefix/project/repo.git" (TBasic "string");
    mkField "password" "The https password to use when auth is set to https. This setting is ignored when auth is ssh." (TBasic "string");
    mkField "serverkey" "SSH fingerprints, like you would add in your known hosts file, or get from ssh-keyscan." (TBasic "string");
    mkField "ssh_command" "Set a value for the core.sshCommand git config option, which allows you to provide custom SSH configuration." (TBasic "string");
    mkField "port" "The port to connect to when using git; has no effect for http(s)." (TBasic "int") ].

Definition config_type : Type_ :=
  TStruct [ mkField "git" "Git configuration object. Requires YAML literal to set directly." (TMap (TStruct git_fields));
            mkField "global" "Global configuration object. Requires YAML literal to set directly." (TStruct global_fields) ].

Definition type_kind (t : Type_) : string :=
  match t with TStruct _ => "struct" | TMap _ => "map" | TBasic k => k end.

(** ** [PortOffset] *)

(** [crc32.ChecksumIEEE], a bit at a time. *)
Fixpoint crc_bits (n : nat) (crc : Z) : Z :=
  match n with
  | O => crc
  | S n => crc_bits n (if Z.testbit crc 0 then Z.lxor (Z.shiftr crc 1) 3988292384 else Z.shiftr crc 1)
  end.

Fixpoint crc_bytes (s : string) (crc : Z) : Z :=
  match s with
  | "" => crc
  | String c s => crc_bytes s (crc_bits 8 (Z.lxor crc (byteZ c)))
  end.

Definition ChecksumIEEE (s : string) : Z := Z.lxor (crc_bytes s 4294967295) 4294967295.

Definition PortOffset (installationName : string) : Z :=
  if String.eqb installationName "earthly" then 0%Z else (10 + Z.rem (ChecksumIEEE installationName) 1000)%Z.

Example crc_check : ChecksumIEEE "123456789" = 3421780262%Z.
Proof. vm_compute. reflexivity. Qed.

Definition default_config (installationName : string) : Config :=
  mkConfig None {|
    g_TLS := mkTLS DefaultCAKey DefaultCACert DefaultClientTLSKey DefaultClientTLSCert DefaultServerTLSKey DefaultServerTLSCert;
    DarwinProxyImage := DefaultDarwinProxyImage;
    BuildkitScheme := DefaultBuildkitScheme;
    BuildkitImage := "";
    CachePath := "";
    SecretProvider := "";
    BuildkitAdditionalConfig := "";
    IPTables := "";
    ContainerFrontend := DefaultContainerFrontend;
    BuildkitHost := "";
    GitImage := "";
    LocalRegistryHost := ("tcp://127.0.0.1:" +:+ fmt_dZ (DefaultLocalRegistryPort + PortOffset installationName));
    BuildkitAdditionalArgs := [];
    BuildkitCacheSizePct := 0%Z;
    BuildkitCacheSizeMb := 0%Z;
    ConversionParallelism := DefaultConversionParallelism;
    BuildkitMaxParallelism := DefaultBuildkitMaxParallelism;
    DarwinProxyWait := DefaultDarwinProxyWait;
    BuildkitRestartTimeoutS := 60%Z;
    BuildkitCacheKeepDurationS := 0%Z;
    CniMtu := 0%Z;
    TLSEnabled := true
  |}.

Definition with_tls (g : GlobalConfig) (t : TLSPaths) : GlobalConfig := {|
  g_TLS := t;
  DarwinProxyImage := DarwinProxyImage g;
  BuildkitScheme := BuildkitScheme g;
  BuildkitImage := BuildkitImage g;
  CachePath := CachePath g;
  SecretProvider := SecretProvider g;
  BuildkitAdditionalConfig := BuildkitAdditionalConfig g;
  IPTables := IPTables g;
  ContainerFrontend := ContainerFrontend g;
  BuildkitHost := BuildkitHost g;
  GitImage := GitImage g;
  LocalRegistryHost := LocalRegistryHost g;
  BuildkitAdditionalArgs := BuildkitAdditionalArgs g;
  BuildkitCacheSizePct := BuildkitCacheSizePct g;
  BuildkitCacheSizeMb := BuildkitCacheSizeMb g;
  ConversionParallelism := ConversionParallelism g;
  BuildkitMaxParallelism := BuildkitMaxParallelism g;
  DarwinProxyWait := DarwinProxyWait g;
  BuildkitRestartTimeoutS := BuildkitRestartTimeoutS g;
  BuildkitCacheKeepDurationS := BuildkitCacheKeepDurationS g;
  CniMtu := CniMtu g;
  TLSEnabled := TLSEnabled g
|}.

(** ** Paths of fields *)

Definition bQuote : ascii := "034"%char.
Definition bSingle : ascii := "'"%char.

Definition plain_byte (c : ascii) : bool :=
  negb (Ascii.eqb c "." || Ascii.eqb c bQuote || Ascii.eqb c bSingle).

Fixpoint span (p : ascii -> bool) (s : string) : string * string :=
  match s with
  | "" => ("", "")
  | String c s' => if p c then let '(a, b) := span p s' in (String c a, b) else ("", s)
  end.

(** [FindAllString] of the expression of [splitPath]: a run of plain bytes, what stands
    between two double quotes, or a single quote with the bytes up to the next one. *)
Fixpoint find_parts (fuel : nat) (s : string) : list string :=
  match fuel, s with
  | S fuel, String c t =>
      if plain_byte c then let '(a, b) := span plain_byte s in a :: find_parts fuel b
      else if Ascii.eqb c bQuote then
        match index_byte t bQuote with
        | Some i => (dquote +:+ stake i t +:+ dquote) :: find_parts fuel (sdrop (S i) t)
        | None => find_parts fuel t
        end
      else if Ascii.eqb c bSingle then
        let '(a, b) := span (fun d => negb (Ascii.eqb d bSingle)) t in String bSingle a :: find_parts fuel b
      else find_parts fuel t
  | _, _ => []
  end.

Definition splitPath (path : string) : list string :=
  List.map (fun p => Trim p bQuote) (find_parts (String.length path) path).

(** The text of the program is one raw string, with the quotes and the plus sign in it. *)
Definition git_help : string :=
  "Git repository. Quote names with dots in them, like this: git." +:+ dquote +:+ "github.com" +:+ dquote +:+ ". " +:+
  dquote +:+ " +" +:+ NLs +:+ byte_string rTAB +:+ byte_string rTAB +:+ byte_string rTAB +:+
  dquote +:+ "Requires YAML literal to set directly.".

Definition fields_panic (k : string) : string := "reflect: Fields of non-struct type " +:+ k.

Fixpoint validatePath (t : Type_) (path : list string) : outcome string (Type_ * string) :=
  match path with
  | [] => GoErr "no path present"
  | seg :: rest =>
      match t with
      | TMap elem => match rest with [] => GoOk (elem, git_help) | _ => validatePath elem rest end
      | TStruct fields =>
          match List.find (fun f => String.eqb (f_yaml f) seg) fields with
          | Some f => match rest with [] => GoOk (f_Type f, f_help f) | _ => validatePath (f_Type f) rest end
          | None => GoErr ("no path for " +:+ Join path ".")
          end
      | TBasic k => GoPanic (fields_panic k)
      end
  end.

(** ** The library for YAML *)

Class YamlLib : Type := {
  (** [yaml.Unmarshal] into a [yaml.Node]: no node for a text with no document. *)
  yaml_Unmarshal : string -> option Node + string;
  yaml_Marshal : Node -> string + string;
  (** Whether [value.Decode(val)] works, for a value of that type. *)
  yaml_Decode : Type_ -> Node -> bool;
  (** [yaml.Unmarshal] into a [Config] with its defaults filled in. *)
  yaml_Unmarshal_Config : string -> Config -> Config + string
}.

Section Operations.
Context `{Unicode} {M : Machine} {Y : YamlLib}.

Definition keyAndValueCompatible (key : Type_) (v : Node) : bool := yaml_Decode key v.

Definition string_node : Node := mkNode ScalarNode 0 "!!str" "" "" [].

Definition valueToYaml (v : string) : Node + string :=
  match yaml_Unmarshal v with
  | inr _ => inr (v +:+ " is not a valid YAML value")
  | inl o =>
      match content (fixStyling (default zero_node o)) with
      | c :: _ => inl c
      | [] => if String.eqb v "" then inl string_node else inr "failed setting value in yaml"
      end
  end.

(** The tree of the file, or of a manufactured document with an empty mapping. *)
Definition upsert_base (config : string) : Node + string :=
  let retry (err : option string) :=
    match yaml_Unmarshal (config +:+ NLs +:+ "---") with
    | inr otherErr => inr ("failed to parse config file: " +:+ default otherErr err)
    | inl o => inl (with_content (default zero_node o) [mapping_node []])
    end in
  match yaml_Unmarshal config with
  | inr err => retry (Some err)
  | inl o => let base := default zero_node o in if IsZero base then retry None else inl base
  end.

Definition marshal (n : Node) : outcome string string :=
  match yaml_Marshal n with inl t => GoOk t | inr err => GoErr err end.

Definition Upsert (config path v : string) : outcome string string :=
  match upsert_base config with
  | inr err => GoErr err
  | inl base =>
      let pathParts := splitPath path in
      try (t, _) := owrap (String.append "path is not valid: ") (validatePath config_type pathParts) in
      match valueToYaml v with
      | inr err => GoErr ("could not parse value: " +:+ err)
      | inl yamlValue =>
          if negb (keyAndValueCompatible t yamlValue) then
            GoErr ("cannot set " +:+ path +:+ " to " +:+ v +:+ ", as the types are incompatible")
          else match setYamlValue base pathParts yamlValue with
          | None => GoPanic index_panic
          | Some (base, _) => marshal base
          end
      end
  end.

Definition Delete (config path : string) : outcome string string :=
  match yaml_Unmarshal config with
  | inr err => GoErr ("failed to parse config file: " +:+ err)
  | inl o =>
      let base := default zero_node o in
      if IsZero base then GoErr "config is empty or missing"
      else
        let pathParts := splitPath path in
        try _ := owrap (String.append "path is not valid: ") (validatePath config_type pathParts) in
        match deleteYamlValue base pathParts with
        | None => GoPanic index_panic
        | Some (base, _) => marshal base
        end
  end.

(** The text that is printed. *)
Definition PrintHelp (path : string) : outcome string string :=
  try (t, help) :=
    owrap (fun err => "'" +:+ path +:+ "' is not a valid config value: " +:+ err) (validatePath config_type (splitPath path)) in
  GoOk ("(" +:+ type_kind t +:+ "): " +:+ help +:+ NLs).

(** ** Relative paths *)

Definition cfgPath (instName path : string) (o : Once) : Once * (string + string) :=
  if IsAbs path then (o, inl path)
  else match GetOrCreateEarthDir instName o with
  | (o, (_, Some err)) => (o, inr err)
  | (o, (cfgDir, None)) => (o, inl (path_Join [cfgDir; path]))
  end.

(** The six entries of the map of [parseTLSPaths]. *)
Inductive TLSField : Type := ca_key | ca_cert | client_key | client_cert | server_key | server_cert.

Definition field_name (f : TLSField) : string :=
  match f with
  | ca_key => "ca key" | ca_cert => "ca cert" | client_key => "client key"
  | client_cert => "client cert" | server_key => "server key" | server_cert => "server cert"
  end.

Definition tls_get (f : TLSField) (t : TLSPaths) : string :=
  match f with
  | ca_key => TLSCAKey t | ca_cert => TLSCACert t | client_key => ClientTLSKey t
  | client_cert => ClientTLSCert t | server_key => ServerTLSKey t | server_cert => ServerTLSCert t
  end.

Definition tls_set (f : TLSField) (v : string) (t : TLSPaths) : TLSPaths :=
  let '(mkTLS a b c d e g) := t in
  match f with
  | ca_key => mkTLS v b c d e g | ca_cert => mkTLS a v c d e g | client_key => mkTLS a b v d e g
  | client_cert => mkTLS a b c v e g | server_key => mkTLS a b c d v g | server_cert => mkTLS a b c d e v
  end.

(** The loop, in the order in which the map is walked. *)
Fixpoint parse_fields (instName : string) (order : list TLSField) (t : TLSPaths) (o : Once) : Once * (TLSPaths + string) :=
  match order with
  | [] => (o, inl t)
  | f :: order =>
      match cfgPath instName (tls_get f t) o with
      | (o, inr err) => (o, inr ("could not parse " +:+ field_name f +:+ " path " +:+ Quote (tls_get f t) +:+ ": " +:+ err))
      | (o, inl newPath) => parse_fields instName order (tls_set f newPath t) o
      end
  end.

Definition parseTLSPaths (instName : string) (order : list TLSField) (cfg : Config) (o : Once) : Once * (Config + string) :=
  if negb (TLSEnabled (c_Global cfg)) then (o, inl cfg)
  else match parse_fields instName order (g_TLS (c_Global cfg)) o with
  | (o, inr err) => (o, inr err)
  | (o, inl t) => (o, inl (mkConfig (c_Git cfg) (with_tls (c_Global cfg) t)))
  end.

Definition parseRelPaths (instName : string) (order : list TLSField) (cfg : Config) (o : Once) : Once * (Config + string) :=
  match parseTLSPaths instName order cfg o with
  | (o, inr err) => (o, inr ("could not parse relative TLS paths: " +:+ err))
  | r => r
  end.

Definition ParseYAML (order : list TLSField) (yamlData installationName : string) (o : Once) : Once * (Config + string) :=
  match yaml_Unmarshal_Config yamlData (default_config installationName) with
  | inr err => (o, inr ("failed to parse YAML config: " +:+ err))
  | inl config =>
      let config := mkConfig (Some (default ∅ (c_Git config))) (c_Global config) in
      match parseRelPaths installationName order config o with
      | (o, inr err) => (o, inr ("failed to parse relative path: " +:+ err))
      | r => r
      end
  end.

(** ** Files, and the command *)

Definition ReadConfigFile (configPath : string) : string + os_error :=
  match m_Open configPath with
  | inr err => inr err
  | inl (_, Some err) => inr err
  | inl (text, None) => inl text
  end.

Definition WriteConfigFile (configPath data : string) : option string :=
  match m_MkdirAll (Dir configPath) with
  | Some err => Some err
  | None => m_WriteFile configPath data
  end.

(** What the command [earth config] shows or writes. *)
Inductive config_effect : Type :=
  | Shown (text : string)
  | Written (path data : string).

Definition config_action (configPath : string) (isSet dryRun : bool) (args : list string) : outcome string config_effect :=
  match args with
  | [key; val] =>
      let run (inConfig : string) : outcome string config_effect :=
        if String.eqb val "-h" || String.eqb val "--help" then
          try text := owrap (String.append "help: ") (PrintHelp key) in GoOk (Shown text)
        else
          try outConfig :=
            (if String.eqb val "--delete" then owrap (String.append "delete config: ") (Delete inConfig key)
             else owrap (String.append "upsert config: ") (Upsert inConfig key val)) in
          if dryRun then GoOk (Shown (outConfig +:+ NLs))
          else match WriteConfigFile configPath outConfig with
          | Some err => GoErr ("write config: " +:+ err)
          | None => GoOk (Written configPath outConfig)
          end in
      match ReadConfigFile configPath with
      | inl inConfig => run inConfig
      | inr (NotExist err) =>
          if isSet then GoErr ("read config: failed to read from " +:+ configPath +:+ ": " +:+ err) else run ""
      | inr (OtherError err) => GoErr ("read config: failed to read from " +:+ configPath +:+ ": " +:+ err)
      end
  | _ => GoErr "invalid number of arguments provided"
  end.

End Operations.

(** * What the commands on the configuration do

    The names of fields survive being written as a path; a path is accepted when it names a
    field, and panics when it goes on below one that has no fields; [Upsert] and [Delete]
    edit the file at the path they are given and nowhere else; the configuration that
    [ParseYAML] returns does not depend on the order in which a map is walked. *)

Open Scope outcome_scope.

(** ** Paths *)

Definition plain (s : string) : bool := negb (String.eqb s "") && sall plain_byte s.

(** A segment as a user writes it: quoted unless it is plain. *)
Definition render (s : string) : string := if plain s then s else dquote +:+ s +:+ dquote.

Lemma span_all p s t :
  sall p s = true -> (t = "" \/ exists c t', t = String c t' /\ p c = false) -> span p (s +:+ t) = (s, t).
Proof.
  intros Hs Ht. induction s as [|c s IH].
  - change ("" +:+ t) with t. destruct Ht as [->|(c & t' & -> & Hc)]; [done|]. simpl. by rewrite Hc.
  - simpl in Hs. apply andb_true_iff in Hs as [Hc Hs]. rewrite sapp_cons. simpl. by rewrite Hc, IH.
Qed.

Lemma span_rest p s a b : span p s = (a, b) -> String.length b <= String.length s.
Proof.
  revert a. induction s as [|c s IH]; intros a; simpl; [by intros [= <- <-]|].
  destruct (p c); [|by intros [= <- <-]]. destruct (span p s) as [x y]. intros [= <- <-]. specialize (IH x eq_refl). lia.
Qed.

Lemma find_parts_enough n m s :
  String.length s <= n -> String.length s <= m -> find_parts n s = find_parts m s.
Proof.
  revert m s. induction n as [|n IH]; intros [|m] [|c t] Hn Hm; simpl in Hn, Hm; try lia; try done.
  cbn [find_parts]. destruct (plain_byte c) eqn:Ec.
  - cbn [span]. rewrite Ec. destruct (span plain_byte t) as [a b] eqn:E. apply span_rest in E. f_equal. apply IH; lia.
  - destruct (Ascii.eqb c bQuote); [|destruct (Ascii.eqb c bSingle)].
    + destruct (index_byte t bQuote) as [i|]; [|apply IH; lia]. f_equal. apply IH; rewrite length_sdrop; lia.
    + destruct (span _ t) as [a b] eqn:E. apply span_rest in E. f_equal. apply IH; lia.
    + apply IH; lia.
Qed.

Definition parts (s : string) : list string := find_parts (String.length s) s.

Lemma parts_dot t : parts (String "." t) = parts t.
Proof. unfold parts. simpl. apply find_parts_enough; lia. Qed.

Lemma index_byte_app s c t : no_byte c s = true -> index_byte (s +:+ String c t) c = Some (String.length s).
Proof.
  intros Hs. induction s as [|d s IH]; [simpl; by rewrite Ascii.eqb_refl|]. simpl in Hs.
  apply andb_true_iff in Hs as [Hd Hs]. apply negb_true_iff in Hd. rewrite sapp_cons. simpl. by rewrite Hd, IH.
Qed.

Lemma parts_quoted s t : no_byte bQuote s = true -> parts (dquote +:+ s +:+ dquote +:+ t) = (dquote +:+ s +:+ dquote) :: parts t.
Proof.
  intros Hs. unfold parts. change dquote with (String bQuote ""). rewrite !sapp_cons. cbn [String.length find_parts].
  change (plain_byte bQuote) with false. rewrite Ascii.eqb_refl. cbv iota.
  rewrite !sapp_nil_l, index_byte_app by done. rewrite stake_sapp. f_equal.
  replace (sdrop (S (String.length s)) (s +:+ String bQuote t)) with t.
  - apply find_parts_enough; [|done]. rewrite length_sapp. simpl. lia.
  - symmetry. replace (S (String.length s)) with (String.length s + 1) by lia. rewrite <- sdrop_sdrop, sdrop_sapp. simpl. apply sdrop_0.
Qed.

Lemma parts_plain s t :
  plain s = true -> (t = "" \/ exists t', t = String "." t') -> parts (s +:+ t) = s :: parts t.
Proof.
  intros Hs Ht. unfold plain in Hs. apply andb_true_iff in Hs as [Hne Hs]. destruct s as [|c s]; [done|].
  unfold parts. rewrite sapp_cons. cbn [String.length find_parts]. pose proof Hs as Hc. simpl in Hc.
  apply andb_true_iff in Hc as [Hc _]. rewrite Hc. rewrite <- sapp_cons, span_all; [|done|].
  - f_equal. apply find_parts_enough; [|done]. rewrite length_sapp. lia.
  - destruct Ht as [->|(t' & ->)]; [by left|right; eauto].
Qed.

Lemma parts_render s t :
  no_byte bQuote s = true -> (t = "" \/ exists t', t = String "." t') ->
  parts (render s +:+ t) = render s :: parts t.
Proof.
  intros Hs Ht. unfold render. destruct (plain s) eqn:E; [by apply parts_plain|].
  rewrite <- !sapp_assoc. by apply parts_quoted.
Qed.

Lemma TrimRight_none s c : no_byte c s = true -> TrimRight s (String c "") = s.
Proof.
  induction s as [|d s IH]; [done|]. simpl. intros [Hd Hs]%andb_true_iff. rewrite IH by done. apply negb_true_iff in Hd.
  destruct s; [|done]. unfold sexists. simpl. by rewrite Hd.
Qed.

Lemma TrimRight_last s c : no_byte c s = true -> TrimRight (s +:+ String c "") (String c "") = s.
Proof.
  induction s as [|d s IH]; [intros _; simpl; unfold sexists; simpl; by rewrite Ascii.eqb_refl|].
  intros Hs. rewrite sapp_cons. cbn [TrimRight]. pose proof Hs as Hc. simpl in Hc. apply andb_true_iff in Hc as [Hd Hs'].
  rewrite IH by done. apply negb_true_iff in Hd. destruct s; [|done]. unfold sexists. simpl. by rewrite Hd.
Qed.

Lemma no_byte_trim_left c s : no_byte c s = true -> trim_left c s = s.
Proof. destruct s as [|d s]; [done|]. simpl. intros [Hd _]%andb_true_iff. apply negb_true_iff in Hd. by rewrite Hd. Qed.

Lemma Trim_render s : no_byte bQuote s = true -> Trim (render s) bQuote = s.
Proof.
  intros Hs. unfold render, Trim. destruct (plain s).
  - rewrite no_byte_trim_left by done. by apply TrimRight_none.
  - change dquote with (String bQuote ""). rewrite sapp_cons, sapp_nil_l. cbn [trim_left]. rewrite Ascii.eqb_refl.
    destruct s as [|d s]; [done|]. rewrite sapp_cons. cbn [trim_left]. pose proof Hs as Hd. simpl in Hd.
    apply andb_true_iff in Hd as [Hd _]. apply negb_true_iff in Hd. rewrite Hd. rewrite <- sapp_cons. by apply TrimRight_last.
Qed.

Lemma parts_Join l :
  Forall (fun s => no_byte bQuote s = true) l -> parts (Join (List.map render l) ".") = List.map render l.
Proof.
  induction 1 as [|s l Hs Hl IH]; [done|]. destruct l as [|s' l].
  - cbn [List.map Join]. rewrite <- (sapp_nil_r (render s)) at 1. rewrite parts_render; [done|done|by left].
  - cbn [List.map Join] in *. rewrite parts_render; [|done|right; eauto]. f_equal.
    rewrite sapp_cons, sapp_nil_l. by rewrite parts_dot.
Qed.

(** The segments of a path come back from its text: [splitPath] undoes quoting the
    segments that are not plain (the names of git hosts, with their dots) and joining them
    with dots, for every list of segments without a double quote. *)
Theorem splitPath_roundtrip (l : list string) (H : Forall (fun s => no_byte bQuote s = true) l) :
  splitPath (Join (List.map render l) ".") = l.
Proof.
  unfold splitPath. change (find_parts _ _) with (parts (Join (List.map render l) ".")).
  rewrite parts_Join by done. rewrite List.map_map. induction H as [|s l Hs Hl IH]; [done|]. cbn [List.map].
  by rewrite Trim_render, IH.
Qed.

Lemma splitPath_roundtrip_witness :
  splitPath (Join (List.map render ["git"; "github.com"; "user"]) ".") = ["git"; "github.com"; "user"].
Proof. apply splitPath_roundtrip. repeat constructor. Defined.

(** Single quotes are read as an opening only, and stay in the name. *)
Example splitPath_single : splitPath "git.'github.com'.user" = ["git"; "'github.com"; "'.user"].
Proof. vm_compute. reflexivity. Qed.

(** ** Fields *)

Inductive path_class : Type := Named | BelowField | Unknown.

Definition has_field (fields : list (Field Type_)) (seg : string) : bool :=
  existsb (fun f => String.eqb (f_yaml f) seg) fields.

(** A path below the type of a section whose fields have no fields. *)
Definition classify_field (fields : list (Field Type_)) (path : list string) : path_class :=
  match path with
  | [] => Named
  | seg :: rest => if has_field fields seg then match rest with [] => Named | _ => BelowField end else Unknown
  end.

Definition classify (path : list string) : path_class :=
  match path with
  | "git" :: path => match path with [] => Named | _ :: path => classify_field git_fields path end
  | "global" :: path => classify_field global_fields path
  | _ => Unknown
  end.

Definition validates (m : outcome string (Type_ * string)) : path_class :=
  match m with GoOk _ => Named | GoErr _ => Unknown | GoPanic _ => BelowField end.

Lemma validate_fields fields path :
  Forall (fun f => exists k, f_Type f = TBasic k) fields -> path <> [] ->
  validates (validatePath (TStruct fields) path) = classify_field fields path.
Proof.
  intros Hf. destruct path as [|seg rest]; [done|]. intros _. cbn [validatePath classify_field]. unfold has_field.
  induction Hf as [|f fields (k & Hk) Hf IH]; [done|]. cbn [List.find existsb].
  destruct (String.eqb (f_yaml f) seg); [|exact IH]. destruct rest; [done|]. simpl. by rewrite Hk.
Qed.

Lemma global_basic : Forall (fun f => exists k, f_Type f = TBasic k) global_fields.
Proof. repeat (constructor; [by eexists|]). constructor. Qed.

Lemma git_basic : Forall (fun f => exists k, f_Type f = TBasic k) git_fields.
Proof. repeat (constructor; [by eexists|]). constructor. Qed.

(** Which paths are accepted: the path is valid exactly when it names the section [git], a
    host in it or a field of a host, the section [global] or one of its fields; anything else
    is an error, except that a path that goes on below a field makes the program panic. *)
Theorem validatePath_classes (path : list string) : validates (validatePath config_type path) = classify path.
Proof.
  destruct path as [|seg rest]; [done|]. cbn [validatePath config_type List.find f_yaml].
  destruct (String.eqb_spec "git" seg) as [<-|Hg].
  - cbn [classify]. destruct rest as [|host rest]; [done|]. cbn [f_Type validatePath]. destruct rest as [|f rest]; [done|].
    by rewrite (validate_fields git_fields (f :: rest) git_basic).
  - destruct (String.eqb_spec "global" seg) as [<-|Hl].
    + cbn [classify]. destruct rest as [|f rest]; [done|]. cbn [f_Type].
      by rewrite (validate_fields global_fields (f :: rest) global_basic).
    + cbn [validates]. symmetry. unfold classify.
      repeat (match goal with |- context [match ?x with _ => _ end] => is_var x; destruct x; try done end); congruence.
Qed.

(** ** The commands *)

(** A file as the parser gives it: a document with one node. *)
Definition document (d root : Node) : Prop := kind d = DocumentNode /\ content d = [root].

Lemma set_document_root d root path v root' :
  document d root -> setYamlValue root path v = Some (root', []) ->
  setYamlValue d path v = Some (with_content d [root'], []).
Proof. intros [Hk Hc] Hs. rewrite set_document, Hc by done. cbn [set_docs]. by rewrite Hs. Qed.

Lemma delete_document_root d root path root' :
  document d root -> deleteYamlValue root path = Some (root', []) ->
  deleteYamlValue d path = Some (with_content d [root'], []).
Proof.
  intros [Hk Hc] Hs. destruct d as [[] st t v x c]; try done. simpl in Hc. subst c. cbn [deleteYamlValue kind content].
  by rewrite Hs.
Qed.

Lemma validatePath_nonempty t path r : validatePath t path = GoOk r -> path <> [].
Proof. by destruct path. Qed.

Section Commands.
Context `{Unicode} {M : Machine} {Y : YamlLib}.

(** C25. What [Upsert] writes: when the path names a field, the value parses and fits the
    type of the field, and the sections on the way are mappings (or not there yet), the new
    file is the old tree with the value at that path, and every path apart from it reads as
    before.  It holds for an empty file as well, whose tree is an empty mapping. *)
Theorem Upsert_spec config path v d root t help y
  (Hbase : upsert_base config = inl d) (Hdoc : document d root)
  (Hpath : validatePath config_type (splitPath path) = GoOk (t, help))
  (Hval : valueToYaml v = inl y) (Hfit : keyAndValueCompatible t y = true)
  (Hsec : sections (splitPath path) root = true) :
  exists root', Upsert config path v = marshal (with_content d [root']) /\
    edited root root' (splitPath path) (Some y).
Proof.
  destruct (set_edits (splitPath path) root y) as (root' & Hs & _ & He);
    [by eapply validatePath_nonempty|done|].
  exists root'. split; [|done]. unfold Upsert. rewrite Hbase, Hpath. cbn [owrap obind]. rewrite Hval, Hfit. cbn [negb].
  by rewrite (set_document_root d root _ _ root').
Qed.

(** What [Delete] writes: the new file is the old tree without the value at that path, and
    every path apart from it reads as before; where there was no such value, the tree is
    written back as it was. *)
Theorem Delete_spec config path d root t help
  (Hbase : yaml_Unmarshal config = inl (Some d)) (Hdoc : document d root)
  (Hpath : validatePath config_type (splitPath path) = GoOk (t, help))
  (Hsec : sections (splitPath path) root = true) (Huniq : unique (splitPath path) root = true) :
  exists root', Delete config path = marshal (with_content d [root']) /\
    edited root root' (splitPath path) None /\
    (get root (splitPath path) = None -> root' = root).
Proof.
  destruct (delete_edits (splitPath path) root) as (root' & Hs & _ & He & Hsame);
    [by eapply validatePath_nonempty|done|done|].
  exists root'. split_and!; [|done|done]. unfold Delete. rewrite Hbase. change (default zero_node (Some d)) with d.
  assert (IsZero d = false) as Hz by (destruct Hdoc as [Hk _], d as [[]]; done).
  cbv zeta. rewrite Hz, Hpath. cbn [owrap obind]. by rewrite (delete_document_root d root _ root').
Qed.

(** An empty section is a scalar, and the value is written beside it, under a name that means
    nothing there. *)
Lemma Upsert_empty_section config path v d root t help y seg s u
  (Hbase : upsert_base config = inl d) (Hdoc : document d root)
  (Hpath : validatePath config_type (splitPath path) = GoOk (t, help))
  (Hval : valueToYaml v = inl y) (Hfit : keyAndValueCompatible t y = true)
  (Hparts : splitPath path = [seg; s]) (Hmap : is_mapping root = true)
  (Hu : find_key seg (content root) = Some u) (Hk : kind u = ScalarNode)
  (Hne : seg <> s) (Hs : find_key s (content root) = None) :
  exists root', Upsert config path v = marshal (with_content d [root']) /\
    get root' [seg; s] = None /\ get root' [s] = Some y.
Proof.
  destruct (set_scalar_section root seg s [] u y) as (root' & He & Hg & Hn); [done..|].
  exists root'. split_and!; [|done|done]. unfold Upsert. rewrite Hbase, Hpath. cbn [owrap obind]. rewrite Hval, Hfit.
  cbn [negb]. rewrite Hparts. by rewrite (set_document_root d root _ _ root').
Qed.

(** *** The order of a map *)

Definition all_fields : list TLSField := [ca_key; ca_cert; client_key; client_cert; server_key; server_cert].

#[local] Instance TLSField_eq_dec : EqDecision TLSField.
Proof. solve_decision. Defined.

Lemma tls_get_set f g v t : tls_get f (tls_set g v t) = if decide (f = g) then v else tls_get f t.
Proof. by destruct t, f, g. Qed.

Lemma tls_ext t1 t2 : (forall f, tls_get f t1 = tls_get f t2) -> t1 = t2.
Proof.
  intros He. destruct t1, t2. f_equal;
    [apply (He ca_key)|apply (He ca_cert)|apply (He client_key)|apply (He client_cert)|apply (He server_key)|apply (He server_cert)].
Qed.

(** What the directory of earth is, or why there is none; asking again changes nothing. *)
Definition dir_answer (instName : string) (o : Once) : string * option string := snd (GetOrCreateEarthDir instName o).

Definition completed (instName : string) (o : Once) (p : string) : string :=
  if IsAbs p then p else path_Join [fst (dir_answer instName o); p].

Definition relative (t : TLSPaths) (f : TLSField) : bool := negb (IsAbs (tls_get f t)).

(** The state after some fields were completed. *)
Definition after (instName : string) (asked : bool) (o : Once) : Once :=
  if asked then fst (GetOrCreateEarthDir instName o) else o.

Lemma asked_again instName asked o :
  GetOrCreateEarthDir instName (after instName asked o) = (fst (GetOrCreateEarthDir instName o), dir_answer instName o).
Proof.
  destruct asked; unfold after, dir_answer; [|apply surjective_pairing].
  pose proof (GetOrCreate_again instName instName o) as Hg. by destruct (GetOrCreateEarthDir instName o).
Qed.

Lemma parse_fields_spec instName o order asked t :
  NoDup order ->
  match parse_fields instName order t (after instName asked o) with
  | (o', inl t') =>
      o' = after instName (asked || existsb (relative t) order) o /\
      (existsb (relative t) order = true -> snd (dir_answer instName o) = None) /\
      forall f, tls_get f t' = if decide (f ∈ order) then completed instName o (tls_get f t) else tls_get f t
  | (o', inr _) =>
      o' = after instName true o /\ existsb (relative t) order = true /\ is_Some (snd (dir_answer instName o))
  end.
Proof.
  revert asked t. induction order as [|f order IH]; intros asked t Hd.
  { cbn [parse_fields existsb]. rewrite orb_false_r. split_and!; [done|done|]. intros f. by rewrite decide_False by set_solver. }
  apply list.NoDup_cons in Hd as [Hf Hd]. cbn [parse_fields]. unfold cfgPath.
  assert (forall v, existsb (relative (tls_set f v t)) order = existsb (relative t) order) as Hrel.
  { intros v. clear IH Hd. induction order as [|g order IHo]; [done|]. simpl. rewrite IHo by set_solver.
    unfold relative. rewrite tls_get_set, decide_False by set_solver. done. }
  assert (forall v g, tls_get g (tls_set f v t) = if decide (g = f) then v else tls_get g t) as Hset by (intros; apply tls_get_set).
  cbn [existsb]. replace (relative t f) with (negb (IsAbs (tls_get f t))) by done. destruct (IsAbs (tls_get f t)) eqn:Ea.
  - specialize (IH asked (tls_set f (tls_get f t) t) Hd). rewrite Hrel in IH.
    destruct (parse_fields _ _ _ _) as [o' [t'|e]]; cbn [negb orb]; [|done].
    destruct IH as (Ho & He & Hg). split_and!; [done|done|]. intros g. rewrite Hg, Hset.
    destruct (decide (g = f)) as [->|Hgf].
    + rewrite decide_False, decide_True by set_solver. unfold completed. by rewrite Ea.
    + destruct (decide (g ∈ order)); [rewrite decide_True by set_solver|rewrite decide_False by set_solver]; done.
  - rewrite asked_again. destruct (dir_answer instName o) as [dir [e|]] eqn:Eo; cbn [negb orb].
    { by split_and!. }
    specialize (IH true (tls_set f (path_Join [dir; tls_get f t]) t) Hd). rewrite Hrel in IH.
    change (fst (GetOrCreateEarthDir instName o)) with (after instName true o).
    destruct (parse_fields _ _ _ _) as [o' [t'|e']]; [|by destruct IH as (_ & _ & [? Hx])].
    destruct IH as (Ho & He & Hg). rewrite orb_true_r. split_and!; [done|done|]. intros g. rewrite Hg, Hset.
    destruct (decide (g = f)) as [->|Hgf].
    + rewrite decide_False, decide_True by set_solver. unfold completed. by rewrite Ea, Eo.
    + destruct (decide (g ∈ order)); [rewrite decide_True by set_solver|rewrite decide_False by set_solver]; done.
Qed.

Lemma existsb_perm {A} (p : A -> bool) l1 l2 : l1 ≡ₚ l2 -> existsb p l1 = existsb p l2.
Proof.
  induction 1 as [|x l1 l2 Hp IH|x y l|l1 l2 l3 H1 IH1 H2 IH2]; simpl; [done|by rewrite IH| |congruence].
  rewrite !orb_assoc. by rewrite (orb_comm (p y)).
Qed.

Definition agree {A} (r1 r2 : Once * (A + string)) : Prop :=
  fst r1 = fst r2 /\
  match snd r1, snd r2 with
  | inl c1, inl c2 => c1 = c2
  | inr _, inr _ => True
  | _, _ => False
  end.

Lemma parse_fields_agree instName order1 order2 t o :
  order1 ≡ₚ all_fields -> order2 ≡ₚ all_fields ->
  agree (parse_fields instName order1 t o) (parse_fields instName order2 t o).
Proof.
  intros H1 H2.
  assert (forall order, order ≡ₚ all_fields -> NoDup order) as Hnd.
  { intros order ->. repeat (constructor; [set_solver|]). constructor. }
  pose proof (parse_fields_spec instName o order1 false t (Hnd _ H1)) as S1.
  pose proof (parse_fields_spec instName o order2 false t (Hnd _ H2)) as S2.
  rewrite (existsb_perm _ _ _ H1) in S1. rewrite (existsb_perm _ _ _ H2) in S2.
  change (after instName false o) with o in S1, S2. unfold agree.
  destruct (parse_fields instName order1 t o) as [o1 [t1|e1]], (parse_fields instName order2 t o) as [o2 [t2|e2]]; simpl.
  - destruct S1 as (-> & _ & G1), S2 as (-> & _ & G2). split; [done|]. apply tls_ext. intros f. rewrite G1, G2.
    assert (f ∈ all_fields) as Hf by (destruct f; set_solver).
    rewrite !decide_True; [done|by rewrite H2|by rewrite H1].
  - destruct S1 as (_ & S1 & _), S2 as (_ & S2 & [x S3]). by rewrite (S1 S2) in S3.
  - destruct S2 as (_ & S2 & _), S1 as (_ & S1 & [x S3]). by rewrite (S2 S1) in S3.
  - by destruct S1 as (-> & _), S2 as (-> & _).
Qed.

(** The order in which Go walks the map of TLS paths does not matter: for any two orders
    of the six fields [ParseYAML] returns the same configuration and leaves the same
    directory behind, or fails for both. *)
Theorem ParseYAML_order order1 order2 yamlData installationName o
  (H1 : order1 ≡ₚ all_fields) (H2 : order2 ≡ₚ all_fields) :
  agree (ParseYAML order1 yamlData installationName o) (ParseYAML order2 yamlData installationName o).
Proof.
  unfold ParseYAML. destruct (yaml_Unmarshal_Config _ _) as [cfg|e]; [|done]. unfold parseRelPaths, parseTLSPaths.
  cbn [c_Global c_Git]. destruct (TLSEnabled (c_Global cfg)); cbn [negb]; [|done].
  pose proof (parse_fields_agree installationName order1 order2 (g_TLS (c_Global cfg)) o H1 H2) as [Ho Ha].
  destruct (parse_fields _ order1 _ _) as [o1 [t1|e1]], (parse_fields _ order2 _ _) as [o2 [t2|e2]]; simpl in Ho, Ha; subst; try done.
Qed.

End Commands.

(** ** Ports *)

Lemma crc_bits_nonneg n crc : (0 <= crc)%Z -> (0 <= crc_bits n crc)%Z.
Proof.
  revert crc. induction n as [|n IH]; intros crc Hc; [done|]. cbn [crc_bits]. apply IH. case_test.
  - apply Z.lxor_nonneg. split; [intros _; lia|intros _; by apply Z.shiftr_nonneg].
  - by apply Z.shiftr_nonneg.
Qed.

Lemma crc_bytes_nonneg s crc : (0 <= crc)%Z -> (0 <= crc_bytes s crc)%Z.
Proof.
  revert crc. induction s as [|c s IH]; intros crc Hc; [done|]. cbn [crc_bytes]. apply IH, crc_bits_nonneg.
  apply Z.lxor_nonneg. pose proof (byteZ_bound c). split; intros _; lia.
Qed.

(** The port of the local registry is a port, for every name of an installation; only the
    official name keeps the default. *)
Lemma registry_port_bounds name :
  (8371 <= DefaultLocalRegistryPort + PortOffset name < 9381)%Z /\
  ((DefaultLocalRegistryPort + PortOffset name = 8371)%Z <-> name = "earthly").
Proof.
  unfold PortOffset, DefaultLocalRegistryPort. destruct (String.eqb_spec name "earthly") as [->|Hn]; [split; [lia|done]|].
  assert (0 <= ChecksumIEEE name)%Z as Hc.
  { unfold ChecksumIEEE. apply Z.lxor_nonneg. split; intros _; [lia|by apply crc_bytes_nonneg]. }
  pose proof (Z.rem_bound_pos (ChecksumIEEE name) 1000 Hc ltac:(lia)). split; [lia|]. split; [lia|done].
Qed.

(** ** An instance *)

Module Sample.

(** [global:] with [cache_path: /c] in it, and the same with nothing in it. *)
Definition scalar (s : string) : Node := mkNode ScalarNode 0 "!!str" s "" [].
Definition doc (c : list Node) : Node := mkNode DocumentNode 0 "" "" "" [mapping_node c].
Definition cache_file : Node := doc [key_node "global"; mapping_node [key_node "cache_path"; scalar "/c"]].
Definition empty_section : Node := doc [key_node "global"; mkNode ScalarNode 0 "!!null" "" "" []].

Definition parser (s : string) : option Node + string :=
  if String.eqb s "cache" then inl (Some cache_file)
  else if String.eqb s "empty" then inl (Some empty_section)
  else if String.eqb s "" then inl None
  else inl (Some (mkNode DocumentNode 0 "" "" "" [scalar s])).

(** A printer that tells the values under [global] and beside it. *)
Definition printer (n : Node) : string + string :=
  let show p := match content n with [root] => match get root p with Some u => value u | None => "-" end | _ => "?" end in
  inl (Join [show ["global"; "cache_path"]; show ["global"; "git_image"]; show ["git_image"]] ",").

#[export] Instance lib : YamlLib := {|
  yaml_Unmarshal := parser; yaml_Marshal := printer; yaml_Decode := fun _ _ => true;
  yaml_Unmarshal_Config := fun _ c => inl c
|}.

#[export] Instance machine : Machine := {|
  GOOS := "linux"; m_Getenv := fun v => if String.eqb v "HOME" then Some "/root" else None;
  m_Current := inr "no user"; m_Lookup := fun _ => inr "no user"; m_Stat := fun _ => inl (mkStat true 493);
  m_Stat_uid := fun _ => inl 0%Z; m_ReadDir := fun _ => inl []; m_Open := fun _ => inl ("", None); m_WriteFile := fun _ _ => None;
  m_MkdirAll := fun _ => None; m_OpenRoot := fun _ => None; m_WalkDir := fun _ => []; m_Rel := fun _ p => inl p;
  m_Chown := fun _ _ _ => None; m_Getwd := inl "/"
|}.

#[export] Instance printable : Unicode := fun _ => true.

Example upsert_runs : Upsert "cache" "global.git_image" "img" = GoOk "/c,img,-".
Proof. vm_compute. reflexivity. Qed.

Example delete_runs : Delete "cache" "global.cache_path" = GoOk "-,-,-".
Proof. vm_compute. reflexivity. Qed.

(** The value lands beside the empty section. *)
Example upsert_empty_section : Upsert "empty" "global.git_image" "img" = GoOk "-,-,img".
Proof. vm_compute. reflexivity. Qed.

Example upsert_below_field : Upsert "cache" "global.git_image.tag" "x" = GoPanic (fields_panic "string").
Proof. vm_compute. reflexivity. Qed.

End Sample.

Import (hints) Sample.

Lemma Upsert_spec_witness :
  exists root', Upsert "cache" "global.git_image" "img" = marshal (with_content Sample.cache_file [root']) /\
    edited (mapping_node (content (default zero_node (head (content Sample.cache_file))))) root'
      (splitPath "global.git_image") (Some (Sample.scalar "img")).
Proof. eapply (Upsert_spec "cache" "global.git_image" "img"); try reflexivity. split; reflexivity. Defined.

Lemma Delete_spec_witness :
  exists root', Delete "cache" "global.cache_path" = marshal (with_content Sample.cache_file [root']) /\
    edited (mapping_node (content (default zero_node (head (content Sample.cache_file))))) root'
      (splitPath "global.cache_path") None /\
    (get (mapping_node (content (default zero_node (head (content Sample.cache_file))))) (splitPath "global.cache_path") = None ->
     root' = mapping_node (content (default zero_node (head (content Sample.cache_file))))).
Proof. eapply (Delete_spec "cache" "global.cache_path"); try reflexivity. split; reflexivity. Defined.

Lemma ParseYAML_order_witness :
  agree (ParseYAML all_fields "" "earthly" fresh) (ParseYAML (rev all_fields) "" "earthly" fresh).
Proof. apply ParseYAML_order; [done|]. symmetry. apply Permutation_rev. Defined.
