(* ===== verification/GitMeta.v ===== *)
(** * Metadata of a git directory

    A translation of [util/gitutil/detectgit.go]: the commands of git that are run in a
    directory, how their output is read, and the path of the directory within the repository.
    Running a command is a parameter, and so are symbolic links and the identity of files. *)

From stdpp Require Import gmap.
From S2P Require Import Prelude GoStrings Token GoText Numbers Ast Reference Scope Builtin Conditions Hasher Outcome.
From S2P Require Import Home.

(** ** Errors *)

(** The errors that callers look for with [errors.Is]. *)
Inductive Sentinel : Type :=
| ErrNoGitBinary | ErrNotAGitDir | ErrCouldNotDetectRemote | ErrCouldNotDetectGitHash | ErrCouldNotDetectGitShortHash
| ErrCouldNotDetectGitContentHash | ErrCouldNotDetectGitBranch | ErrCouldNotDetectGitTags | ErrCouldNotDetectGitRefs.

#[export] Instance Sentinel_eq_dec : EqDecision Sentinel.
Proof. solve_decision. Defined.

Definition sentinel_text (e : Sentinel) : string :=
  match e with
  | ErrNoGitBinary => "no git binary found"
  | ErrNotAGitDir => "not a git directory"
  | ErrCouldNotDetectRemote => "could not auto-detect or parse Git remote URL"
  | ErrCouldNotDetectGitHash => "could not auto-detect or parse Git hash"
  | ErrCouldNotDetectGitShortHash => "could not auto-detect or parse Git short hash"
  | ErrCouldNotDetectGitContentHash => "could not auto-detect or parse Git content hash"
  | ErrCouldNotDetectGitBranch => "could not auto-detect or parse Git branch"
  | ErrCouldNotDetectGitTags => "could not auto-detect or parse Git tags"
  | ErrCouldNotDetectGitRefs => "could not auto-detect or parse Git refs"
  end.

(** An error: the sentinel it wraps, and its text. *)
Record git_error : Type := mkGitError { ge_is : option Sentinel; ge_text : string }.

Definition plain_error (text : string) : git_error := mkGitError None text.
Definition sentinel_error (e : Sentinel) : git_error := mkGitError (Some e) (sentinel_text e).

(** [err] of [exec]: whether it is an [*exec.ExitError], and then what was written to stderr. *)
Record exec_error : Type := mkExec { ee_stderr : option string; ee_text : string }.

Class Git : Type := {
  (** [cmd.Output()] of a command of git in a directory. *)
  git_Output : string -> list string -> string * option exec_error;
  (** [which git] *)
  which_git : option exec_error;
  m_EvalSymlinks : string -> string + string;
  (** [os.SameFile] of what [os.Stat] says of two paths. *)
  m_SameFile : string -> string -> bool
}.

(** ** Remote URLs *)

(** [strings.SplitN(s, sep, 2)]: what is before and after the first [sep]. *)
Fixpoint cut_sep (sep s : string) : option (string * string) :=
  if HasPrefix s sep then Some ("", sdrop (String.length sep) s)
  else match s with
  | "" => None
  | String c s => match cut_sep sep s with Some (a, b) => Some (String c a, b) | None => None end
  end.

Definition after_sep (sep s : string) : string := match cut_sep sep s with Some (_, b) => b | None => s end.

(** [strings.Replace(s, old, new, 1)] *)
Definition replace_first (old new s : string) : string :=
  match cut_sep old s with Some (a, b) => a +:+ new +:+ b | None => s end.

Definition ParseGitRemoteURL (gitURL : string) : string :=
  TrimSuffix (replace_first ":" "/" (after_sep "@" (after_sep "://" gitURL))) ".git".

(** ** Output of git *)

Definition NL : ascii := ascii_of_nat 10.

(** [strings.SplitN(s, "\n", 2)[0]] *)
Definition first_line (s : string) : string := fst (fst (Cut s NL)).

Definition add_ref (refs : list string) (r : string) : list string :=
  let r := Conditions.Trim r ("'" +:+ dquote) in
  if negb (String.eqb r "") && negb (String.eqb r "HEAD") && negb (bool_decide (r ∈ refs)) then refs ++ [r] else refs.

(** The e-mail addresses of the trailers, each once. *)
Definition unbracket (email : string) : option string :=
  if (2 <? String.length email)%nat && HasPrefix email "<" && HasSuffix email ">"
  then Some (stake (String.length email - 2) (sdrop 1 email)) else None.

Section GitMeta.
Context {U : Unicode} {M : Machine} {G : Git}.

Definition coauthor_line (seen : list string) (s : string) : list string :=
  let splits := Split (TrimSpace s) " " in
  if (length splits <=? 2)%nat || negb (String.eqb (List.hd "" splits) "Co-authored-by:") then seen
  else match unbracket (List.last splits "") with
  | Some email => if bool_decide (email ∈ seen) then seen else seen ++ [email]
  | None => seen
  end.

Definition ParseCoAuthorsFromBody (body : string) : list string := fold_left coauthor_line (Split body NL) [].

Definition detectGitBinary : option git_error :=
  match which_git with
  | Some (mkExec (Some _) _) => Some (sentinel_error ErrNoGitBinary)
  | Some (mkExec None text) => Some (plain_error text)
  | None => None
  end.

Definition detectIsGitDir (dir : string) : option git_error :=
  match git_Output dir ["status"] with
  | (_, Some _) => Some (sentinel_error ErrNotAGitDir)
  | (_, None) => None
  end.

Definition returned_error (e : exec_error) (out : string) (s : Sentinel) : git_error :=
  mkGitError (Some s) ("returned error " +:+ ee_text e +:+ ": " +:+ out +:+ ": " +:+ sentinel_text s).

(** What is detected, and the error. *)
Definition found (A : Type) : Type := A * option git_error.

Definition detectGitRemoteURL (dir : string) : found string :=
  match git_Output dir ["config"; "--get"; "remote.origin.url"] with
  | (out, Some err) => ("", Some (returned_error err out ErrCouldNotDetectRemote))
  | ("", None) =>
      ("", Some (mkGitError (Some ErrCouldNotDetectRemote)
                   ("no remote origin url output: " +:+ sentinel_text ErrCouldNotDetectRemote)))
  | (out, None) => (first_line out, None)
  end.

Definition detectGitBaseDir (dir : string) : string + git_error :=
  match git_Output dir ["rev-parse"; "--show-toplevel"] with
  | (_, Some err) => inr (plain_error ("detect git directory: " +:+ ee_text err))
  | ("", None) => inr (plain_error "no output returned for git base dir")
  | (out, None) => inl (first_line out)
  end.

Definition gitRevParse (dir : string) (sentinel : Sentinel) (args : list string) : found string :=
  match git_Output dir ("rev-parse" :: args) with
  | (out, Some err) => ("", Some (returned_error err out sentinel))
  | ("", None) => ("", Some (mkGitError (Some sentinel) ("no output: " +:+ sentinel_text sentinel)))
  | (out, None) => (first_line out, None)
  end.

Definition detectGitHash (dir : string) : found string := gitRevParse dir ErrCouldNotDetectGitHash ["HEAD"].
Definition detectGitShortHash (dir : string) : found string :=
  gitRevParse dir ErrCouldNotDetectGitShortHash ["--short=8"; "HEAD"].
Definition detectGitContentHash (dir : string) : found string :=
  gitRevParse dir ErrCouldNotDetectGitContentHash ["HEAD^{tree}"].

(** A list of lines, of a command that names the sentinel when it fails. *)
Definition detect_lines (dir : string) (args : list string) (sentinel : Sentinel) (read : string -> list string) :
  found (list string) :=
  match git_Output dir args with
  | (out, Some err) => ([], Some (returned_error err out sentinel))
  | (out, None) => (if String.eqb out "" then [] else read out, None)
  end.

Definition lines (out : string) : list string := Split out NL.

Definition detectGitBranch (dir gitBranchOverride : string) : found (list string) :=
  if negb (String.eqb gitBranchOverride "") then ([gitBranchOverride], None)
  else detect_lines dir ["rev-parse"; "--abbrev-ref"; "HEAD"] ErrCouldNotDetectGitBranch lines.

Definition detectGitTags (dir : string) : found (list string) :=
  detect_lines dir ["describe"; "--exact-match"; "--tags"] ErrCouldNotDetectGitTags lines.

Definition detectGitRefs (dir : string) : found (list string) :=
  detect_lines dir ["for-each-ref"; "--points-at"; "HEAD"; "--format"; "'%(refname:lstrip=-1)'"] ErrCouldNotDetectGitRefs
    (fun out => fold_left add_ref (lines out) []).

Definition no_commits (stderr : option string) : bool :=
  match stderr with Some t => Contains t "does not have any commits yet" | None => false end.

(** A line of the log of the last commit. *)
Definition detect_log (dir format what : string) : found string :=
  match git_Output dir ["log"; "-1"; "--format=" +:+ format] with
  | (_, Some err) =>
      if no_commits (ee_stderr err) then ("", None)
      else ("", Some (plain_error ("detect git " +:+ what +:+ ": " +:+ ee_text err)))
  | (out, None) => (first_line out, None)
  end.

Inductive gitTimestampType : Type := author | committer.

Definition detectGitTimestamp (dir : string) (tsType : gitTimestampType) : found string :=
  detect_log dir (match tsType with author => "%at" | committer => "%ct" end) "timestamp".

Definition detectGitAuthor (dir format : string) : found string := detect_log dir format "author".

Definition detectGitCoAuthors (dir : string) : found (list string) :=
  match git_Output dir ["log"; "-1"; "--format=%b"] with
  | (out, Some err) =>
      if no_commits (ee_stderr err) || Contains out "does not have any commits yet" then ([], None)
      else ([], Some (plain_error ("detect git co-authors: " +:+ ee_text err)))
  | (out, None) => (ParseCoAuthorsFromBody out, None)
  end.

(** ** The path within the repository *)

Definition filepath_Abs (p : string) : string + string :=
  if IsAbs p then inl (Clean p) else match m_Getwd with inl wd => inl (path_Join [wd; p]) | inr err => inr err end.

Definition gitRelDir (basePath path : string) : (string * bool) + string :=
  if negb (IsAbs basePath) then inr ("git base path " +:+ basePath +:+ " is not absolute")
  else match filepath_Abs path with
  | inr err => inr ("get abs path for " +:+ path +:+ ": " +:+ err)
  | inl absPath =>
      match m_EvalSymlinks absPath with
      | inr err => inr ("eval symlinks for " +:+ absPath +:+ ": " +:+ err)
      | inl absPath2 =>
          let basePathParts := Split basePath slash in
          let pathParts := Split absPath2 slash in
          let n := length basePathParts in
          if (length pathParts <? n)%nat then inl ("", false)
          else match m_Stat basePath with
          | inr err => inr ("stat for " +:+ basePath +:+ ": " +:+ os_text err)
          | inl _ =>
              let pathParts := match pathParts with p :: l => ("/" +:+ p) :: l | [] => [] end in
              let upper := path_Join (firstn n pathParts) in
              match m_Stat upper with
              | inr err => inr ("stat for [" +:+ Join pathParts " " +:+ "]: " +:+ os_text err)
              | inl _ =>
                  if negb (m_SameFile basePath upper) then inl ("", false)
                  else let relPath := path_Join (skipn n pathParts) in
                  inl (if String.eqb relPath "" then "." else relPath, true)
              end
          end
      end
  end.

(** ** [Metadata] *)

(** The last of the errors that are kept while detection goes on. *)
Definition last_error (l : list (option git_error)) : option git_error :=
  fold_left (fun r e => match e with Some _ => e | None => r end) l None.

Definition Metadata (dir gitBranchOverride : string) : option GitMetadata * option git_error :=
  match detectGitBinary with
  | Some err => (None, Some err)
  | None =>
  match detectIsGitDir dir with
  | Some err => (None, Some err)
  | None =>
  match detectGitBaseDir dir with
  | inr err => (None, Some err)
  | inl baseDir =>
      let '(remoteURL, e1) := detectGitRemoteURL dir in
      let gitURL := if negb (String.eqb remoteURL "") then ParseGitRemoteURL remoteURL else "" in
      let '(hash, e2) := detectGitHash dir in
      let '(shortHash, e3) := detectGitShortHash dir in
      let '(contentHash, e4) := detectGitContentHash dir in
      let '(branch, e5) := detectGitBranch dir gitBranchOverride in
      let '(tags, e6) := detectGitTags dir in
      let '(committerTimestamp, e7) := detectGitTimestamp dir committer in
      let '(authorTimestamp, e8) := detectGitTimestamp dir author in
      let '(authorEmail, e9) := detectGitAuthor dir "%ae" in
      let '(authorName, e10) := detectGitAuthor dir "%an" in
      let '(coAuthors, e11) := detectGitCoAuthors dir in
      let '(refs, e12) := detectGitRefs dir in
      match gitRelDir baseDir dir with
      | inr err =>
          (None, Some (plain_error ("get rel dir for " +:+ dir +:+ " when base git path is " +:+ baseDir +:+ ": " +:+ err)))
      | inl (_, false) => (None, Some (plain_error "unexpected non-relative path within git dir"))
      | inl (relDir, true) =>
          (Some {| CommitterTimestamp := committerTimestamp; AuthorTimestamp := authorTimestamp; RemoteURL := remoteURL;
                   git_URL := gitURL; git_Hash := hash; ShortHash := shortHash; ContentHash := contentHash; RelDir := relDir;
                   AuthorName := authorName; AuthorEmail := authorEmail; BaseDir := baseDir; Branch := branch; Tags := tags;
                   CoAuthors := coAuthors; Refs := refs;
                   BranchOverrideTagArg := negb (String.eqb gitBranchOverride "") |},
           last_error [e1; e2; e3; e4; e5; e6; e7; e8; e9; e10; e11; e12])
      end
  end end end.

Definition Clone (gm : GitMetadata) : GitMetadata :=
  {| CommitterTimestamp := CommitterTimestamp gm; AuthorTimestamp := AuthorTimestamp gm; RemoteURL := RemoteURL gm;
     git_URL := git_URL gm; git_Hash := git_Hash gm; ShortHash := ShortHash gm; ContentHash := ContentHash gm;
     RelDir := RelDir gm; AuthorName := AuthorName gm; AuthorEmail := AuthorEmail gm; BaseDir := BaseDir gm;
     Branch := Branch gm; Tags := Tags gm; CoAuthors := CoAuthors gm; Refs := Refs gm;
     BranchOverrideTagArg := BranchOverrideTagArg gm |}.

(** ** References *)

Definition ReferenceWithGitMeta (ref : Reference) (gitMeta : option GitMetadata) : Reference :=
  match gitMeta with
  | None => ref
  | Some g =>
      if String.eqb (git_URL g) "" then ref
      else
        let gitURL := if String.eqb (RelDir g) "" then git_URL g else path_Join [git_URL g; RelDir g] in
        let tag :=
          if negb (String.eqb (Tag ref) "") then Tag ref
          else match Tags g, Branch g with
          | t :: _, _ => t
          | [], b :: _ => b
          | [], [] => git_Hash g
          end in
        mkRef (kind ref) gitURL tag (LocalPath ref) (ImportRef ref) (Name ref)
  end.

End GitMeta.

(** * What the metadata of a git directory says

    The URL that is cloned for a reference is read back as that reference; the directory within
    the repository; which error is reported; the addresses of co-authors. *)

From S2P Require Import Config GitLookup.

(** ** Cutting at separators *)

Lemma prefix_eqb (c d : ascii) (s : string) : HasPrefix (String c s) (String d "") = Ascii.eqb c d.
Proof.
  unfold HasPrefix. cbn [String.prefix]. destruct (ascii_dec d c) as [->|Hn]; [by rewrite Ascii.eqb_refl; destruct s|].
  symmetry. apply Ascii.eqb_neq. congruence.
Qed.

Lemma cut_byte_none (c : ascii) (s : string) : GoText.no_byte c s = true -> cut_sep (String c "") s = None.
Proof.
  induction s as [|d s IH]; [done|]. intros Hb. simpl in Hb. apply andb_true_iff in Hb as [Hd Hs]. apply negb_true_iff in Hd.
  cbn [cut_sep]. rewrite prefix_eqb, Hd. by rewrite IH.
Qed.

Lemma cut_byte_some (c : ascii) (s t : string) :
  GoText.no_byte c s = true -> cut_sep (String c "") (s +:+ String c t) = Some (s, t).
Proof.
  induction s as [|d s IH].
  - intros _. rewrite sapp_nil_l. cbn [cut_sep]. rewrite prefix_eqb, Ascii.eqb_refl. done.
  - intros Hb. simpl in Hb. apply andb_true_iff in Hb as [Hd Hs]. apply negb_true_iff in Hd. rewrite sapp_cons. cbn [cut_sep].
    rewrite prefix_eqb, Hd. by rewrite IH.
Qed.

(** A text without a colon, and one that has a colon not followed by a slash. *)
Lemma cut_scheme_none (s : string) : GoText.no_byte ":" s = true -> cut_sep "://" s = None.
Proof.
  induction s as [|d s IH]; [done|]. intros Hb. simpl in Hb. apply andb_true_iff in Hb as [Hd Hs]. apply negb_true_iff, Ascii.eqb_neq in Hd.
  cbn [cut_sep]. unfold HasPrefix. cbn [String.prefix]. destruct (ascii_dec ":" d) as [<-|]; [done|]. by rewrite IH.
Qed.

Lemma cut_scheme_one (s t : string) :
  GoText.no_byte ":" s = true -> GoText.no_byte ":" t = true -> HasPrefix t "/" = false -> cut_sep "://" (s +:+ ":" +:+ t) = None.
Proof.
  intros Hs Ht Hp. induction s as [|d s IH].
  - rewrite sapp_nil_l, sapp_cons, sapp_nil_l. cbn [cut_sep]. rewrite cut_scheme_none by done.
    destruct t as [|e t]; [done|]. rewrite prefix_eqb in Hp. apply Ascii.eqb_neq in Hp. unfold HasPrefix. cbn [String.prefix].
    destruct (ascii_dec ":" ":"); [|done]. by destruct (ascii_dec "/" e) as [<-|].
  - simpl in Hs. apply andb_true_iff in Hs as [Hd Hs]. apply negb_true_iff, Ascii.eqb_neq in Hd. rewrite (sapp_cons d s).
    cbn [cut_sep]. unfold HasPrefix. cbn [String.prefix]. destruct (ascii_dec ":" d) as [<-|]; [done|]. by rewrite IH.
Qed.

Lemma no_byte_app (c : ascii) (s t : string) :
  GoText.no_byte c (s +:+ t) = GoText.no_byte c s && GoText.no_byte c t.
Proof. apply sall_app. Qed.

Lemma TrimSuffix_git (s : string) : TrimSuffix (s +:+ ".git") ".git" = s.
Proof.
  unfold TrimSuffix. assert (HasSuffix (s +:+ ".git") ".git" = true) as -> by (apply HasSuffix_spec; by eexists).
  rewrite length_sapp. simpl String.length. replace (String.length s + 4 - 4) with (String.length s) by lia.
  apply stake_sapp.
Qed.

(** ** Remote URLs *)

(** Without the signs that a URL gives a meaning. *)
Definition url_part (s : string) : bool := GoText.no_byte "@" s && GoText.no_byte ":" s.

(** What is left once the transport and the user are gone. *)
Lemma parse_tail (host sep p : string) :
  url_part host = true -> url_part p = true -> sep = ":" \/ sep = "/" ->
  TrimSuffix (replace_first ":" "/" (host +:+ sep +:+ p +:+ ".git")) ".git" = host +:+ "/" +:+ p.
Proof.
  intros [Ha Hc]%andb_true_iff [Pa Pc]%andb_true_iff Hs. assert (GoText.no_byte ":" (p +:+ ".git") = true) as Hpg by (by rewrite no_byte_app, Pc).
  assert (replace_first ":" "/" (host +:+ sep +:+ p +:+ ".git") = host +:+ "/" +:+ p +:+ ".git") as ->.
  { unfold replace_first. destruct Hs as [-> | ->].
    - change (":" +:+ ?x) with (String ":" x). by rewrite cut_byte_some.
    - rewrite cut_byte_none; [done|]. rewrite !no_byte_app in *. by rewrite Hc, Pc. }
  rewrite !sapp_assoc. apply TrimSuffix_git.
Qed.

Lemma no_at_tail (host sep p : string) :
  url_part host = true -> url_part p = true -> sep = ":" \/ sep = "/" ->
  GoText.no_byte "@" (host +:+ sep +:+ p +:+ ".git") = true.
Proof.
  intros [Ha _]%andb_true_iff [Pa _]%andb_true_iff Hs. rewrite !no_byte_app, Ha, Pa. by destruct Hs as [-> | ->].
Qed.

Lemma parse_ssh (user host p : string) :
  url_part user = true -> url_part host = true -> url_part p = true -> HasPrefix (p +:+ ".git") "/" = false ->
  ParseGitRemoteURL (user +:+ "@" +:+ host +:+ ":" +:+ p +:+ ".git") = host +:+ "/" +:+ p.
Proof.
  intros Hu Hh Hp Hs. unfold ParseGitRemoteURL. unfold after_sep at 2.
  replace (user +:+ "@" +:+ host +:+ ":" +:+ p +:+ ".git") with ((user +:+ "@" +:+ host) +:+ ":" +:+ p +:+ ".git")
    by (by rewrite !sapp_assoc).
  pose proof Hu as [Ua Uc]%andb_true_iff. pose proof Hh as [Ha Hc]%andb_true_iff. pose proof Hp as [Pa Pc]%andb_true_iff.
  rewrite cut_scheme_one; [|by rewrite !no_byte_app, Uc, Hc|by rewrite no_byte_app, Pc|done].
  unfold after_sep. rewrite <- !sapp_assoc. change ("@" +:+ ?x) with (String "@" x). rewrite cut_byte_some by done.
  apply parse_tail; auto.
Qed.

(** A URL with a scheme, and perhaps credentials before the host. *)
Lemma parse_http (scheme creds host p : string) :
  GoText.no_byte ":" scheme = true -> url_part host = true -> url_part p = true ->
  (creds = "" \/ exists c, creds = c +:+ "@" /\ GoText.no_byte "@" c = true) ->
  ParseGitRemoteURL (scheme +:+ "://" +:+ creds +:+ host +:+ "/" +:+ p +:+ ".git") = host +:+ "/" +:+ p.
Proof.
  intros Hs Hh Hp Hc. unfold ParseGitRemoteURL. unfold after_sep at 2.
  assert (forall s t, GoText.no_byte ":" s = true -> cut_sep "://" (s +:+ "://" +:+ t) = Some (s, t)) as Hcut.
  { induction s as [|d s IH]; intros t Hd; [by rewrite sapp_nil_l, !sapp_cons, sapp_nil_l; destruct t|].
    simpl in Hd. apply andb_true_iff in Hd as [Hd Ht].
    apply negb_true_iff, Ascii.eqb_neq in Hd. rewrite (sapp_cons d s). cbn [cut_sep]. unfold HasPrefix. cbn [String.prefix].
    destruct (ascii_dec ":" d) as [<-|]; [done|]. by rewrite IH. }
  rewrite Hcut by done. unfold after_sep.
  destruct Hc as [-> | (c & -> & Hc)].
  - rewrite sapp_nil_l, cut_byte_none by (apply no_at_tail; auto). apply parse_tail; auto.
  - rewrite <- sapp_assoc. change ("@" +:+ ?x) with (String "@" x). rewrite cut_byte_some by done. apply parse_tail; auto.
Qed.

Section Clone.
Context {U : Unicode} {M : Machine} {L : GitLibs}.

(** What is documented of [url.QueryEscape]: an at sign is escaped. *)
Definition escapes_at : Prop := forall s, GoText.no_byte "@" (url_QueryEscape s) = true.

Lemma https_creds (user password host gitPath : string) :
  escapes_at ->
  exists creds, https_url user password host gitPath = "https" +:+ "://" +:+ creds +:+ host +:+ "/" +:+ gitPath /\
    (creds = "" \/ exists c, creds = c +:+ "@" /\ GoText.no_byte "@" c = true).
Proof.
  intros He. unfold https_url. destruct (if _ && _ then _ else _) as [u pw].
  destruct (negb (String.eqb u "") && negb (String.eqb pw "")); (eexists; split; [done|]); [right|by left].
  eexists. split; [by rewrite !sapp_assoc|]. by rewrite !no_byte_app, !He.
Qed.


(** On another port, the port is taken for a part of the path. *)
Example port_becomes_path :
  ParseGitRemoteURL "ssh://git@host.org:2222/user/repo.git" = "host.org/2222/user/repo".
Proof. reflexivity. Qed.

Example at_sign_in_path : ParseGitRemoteURL "https://host.org/team@home/repo.git" = "home/repo".
Proof. reflexivity. Qed.
End Clone.

(** ** The directory within the repository *)

Definition rooted_path (l : list string) : string := "/" +:+ Join l "/".

Lemma clean_fold_proper rooted l st :
  Forall proper l -> fold_left (clean_step rooted) l st = rev l ++ st.
Proof.
  intros Hl. revert st. induction Hl as [|c l Hc Hl IH]; intros st; [done|]. simpl. rewrite clean_step_proper by done.
  by rewrite IH, <- app_assoc.
Qed.

Lemma proper_bytes l : Forall proper l -> Forall (fun w => GoText.no_byte slash w = true) l.
Proof. intros Hl. eapply List.Forall_impl; [|exact Hl]. intros c Hc. apply Hc. Qed.

Lemma proper_filter l : Forall proper l -> List.filter (fun e => negb (String.eqb e "")) l = l.
Proof.
  intros Hl. induction Hl as [|c l (H1 & _) Hl IH]; [done|]. simpl. rewrite (proj2 (String.eqb_neq _ _)) by done. simpl. by rewrite IH.
Qed.

Lemma Split_rooted l : Forall proper l -> l <> [] -> Split (rooted_path l) slash = "" :: l.
Proof.
  intros Hl Hn. unfold rooted_path. change ("/" +:+ ?x) with (String slash x). cbn [Split]. rewrite Ascii.eqb_refl.
  f_equal. apply (Split_Join slash); [done|]. by apply proper_bytes.
Qed.

Lemma Join_rooted l : Forall proper l -> path_Join ("/" :: l) = rooted_path l.
Proof.
  intros Hl. unfold path_Join. cbn [List.filter String.eqb Ascii.eqb]. simpl negb. cbv iota. rewrite proper_filter by done.
  destruct l as [|c l]; [done|]. set (l0 := c :: l) in *.
  assert (Join ("/" :: l0) "/" = "/" +:+ rooted_path l0) as -> by done.
  rewrite Clean_text. assert (IsAbs ("/" +:+ rooted_path l0) = true) as Ha by (apply HasPrefix_spec; by eexists).
  unfold path_stack. rewrite Ha. change ("/" +:+ ?x) with (String slash x) at 1. cbn [Split]. rewrite Ascii.eqb_refl.
  rewrite Split_rooted by done. change (fold_left (clean_step true) ("" :: "" :: l0) []) with (fold_left (clean_step true) l0 []).
  rewrite clean_fold_proper, app_nil_r by done. unfold stack_text. by rewrite rev_involutive.
Qed.

Lemma Join_relative l : Forall proper l -> path_Join l = Join l "/".
Proof.
  intros Hl. unfold path_Join. rewrite proper_filter by done. destruct l as [|c l]; [done|]. set (l0 := c :: l) in *.
  rewrite Clean_text. unfold path_stack. rewrite (Split_Join slash) by (done || by apply proper_bytes).
  assert (IsAbs (Join l0 "/") = false) as ->.
  { inversion_clear Hl as [|? ? (Hn & _ & _ & Hb) _]. destruct c as [|d c]; [done|]. simpl in Hb. apply andb_true_iff in Hb as [Hd _].
    apply negb_true_iff in Hd. 
    assert (exists t, Join l0 "/" = String d t) as [t ->] by (destruct l as [|e l]; by eexists).
    unfold IsAbs. by rewrite (prefix_eqb d slash). }
  rewrite clean_fold_proper, app_nil_r by done. unfold stack_text. by rewrite rev_involutive.
Qed.

Section Facts.
Context {U : Unicode} {M : Machine} {G : Git}.

(** The directory within the repository: for a repository below the root of the file
    system, a directory whose links resolve to a path under the repository is given by the
    components after it, and [.] at its top. *)
Theorem gitRelDir_spec (path absPath : string) (base rel : list string) (a : Stat)
  (Hb : Forall proper base) (Hne : base <> []) (Hr : Forall proper rel)
  (Habs : filepath_Abs path = inl absPath) (Hlinks : m_EvalSymlinks absPath = inl (rooted_path (base ++ rel)))
  (Hstat : m_Stat (rooted_path base) = inl a) (Hsame : m_SameFile (rooted_path base) (rooted_path base) = true) :
  gitRelDir (rooted_path base) path = inl (if decide (rel = []) then "." else Join rel "/", true).
Proof.
  unfold gitRelDir. assert (IsAbs (rooted_path base) = true) as -> by (apply HasPrefix_spec; by eexists).
  cbn [negb]. rewrite Habs, Hlinks. rewrite (Split_rooted base) by done.
  rewrite Split_rooted; [|by apply Forall_app|by destruct base].
  cbv zeta. assert ((length ("" :: base ++ rel) <? length ("" :: base)) = false)%nat as ->.
  { apply Nat.ltb_ge. simpl. rewrite length_app. lia. }
  rewrite Hstat. rewrite sapp_nil_r. cbn [length firstn skipn].
  rewrite firstn_app, firstn_all, Nat.sub_diag, firstn_O, app_nil_r, Join_rooted by done. rewrite Hstat, Hsame. cbn [negb].
  rewrite skipn_app, skipn_all, Nat.sub_diag. rewrite skipn_O. cbn [app]. rewrite Join_relative by done.
  destruct (decide (rel = [])) as [->|Hrel]; [done|].
  rewrite (proj2 (String.eqb_neq _ _)); [done|]. intros E. destruct rel as [|c rel]; [done|].
  destruct (Join_head (c :: rel)) as (d & t & Hj & _); [done| |by rewrite Hj in E].
  eapply List.Forall_impl; [|exact Hr]. intros w Hw. apply Hw.
Qed.

(** A repository at the root of the file system: a directory below it is taken for one outside. *)
Lemma gitRelDir_root (c : string) (a b : Stat) :
  proper c -> m_EvalSymlinks (rooted_path [c]) = inl (rooted_path [c]) -> m_Stat "/" = inl a -> m_Stat (rooted_path [c]) = inl b ->
  m_SameFile "/" (rooted_path [c]) = false -> gitRelDir "/" (rooted_path [c]) = inl ("", false).
Proof.
  intros Hc Hl Ha Hb Hs. unfold gitRelDir. assert (Forall proper [c]) as Hp by (by constructor).
  assert (IsAbs (rooted_path [c]) = true) as Hab by (apply HasPrefix_spec; by eexists).
  unfold filepath_Abs. rewrite Hab. assert (Clean (rooted_path [c]) = rooted_path [c]) as ->.
  { rewrite Clean_text, Hab. unfold path_stack. rewrite Hab, Split_rooted by done.
    change (fold_left (clean_step true) ("" :: [c]) []) with (clean_step true [] c). by rewrite clean_step_proper. }
  rewrite Hl. rewrite Split_rooted by done. change (Split "/" slash) with [""; ""].
  cbn [IsAbs negb length Nat.ltb Nat.leb]. rewrite Ha, sapp_nil_r. cbn [firstn]. rewrite Join_rooted by done.
  by rewrite Hb, Hs.
Qed.

(** ** Errors *)

(** Of the errors that do not end the detection, the last one is reported. *)
Lemma last_error_app l e : last_error (l ++ [Some e]) = Some e.
Proof. unfold last_error. by rewrite fold_left_app. Qed.

Lemma last_error_None l : last_error l = None <-> Forall (fun e => e = None) l.
Proof.
  induction l as [|e l IH] using rev_ind; [done|]. unfold last_error in *. rewrite fold_left_app, Forall_app. simpl.
  destruct e as [e|].
  - split; [done|]. intros [_ H]. by inversion H.
  - rewrite IH. split; [intros; by repeat constructor|by intros [? _]].
Qed.

(** ** Co-authors *)

Lemma coauthor_line_NoDup seen s : NoDup seen -> NoDup (coauthor_line seen s).
Proof.
  intros Hn. unfold coauthor_line. case_test; [done|]. destruct (unbracket _) as [email|]; [|done].
  case_bool_decide as Ein; [done|]. apply list.NoDup_app. split_and!; [done| |apply NoDup_singleton].
  intros x Hx ->%list_elem_of_singleton. done.
Qed.

Lemma ParseCoAuthors_NoDup body : NoDup (ParseCoAuthorsFromBody body).
Proof.
  unfold ParseCoAuthorsFromBody. assert (NoDup (@nil string)) as H by constructor. revert H.
  generalize (@nil string). induction (Split body NL) as [|s l IH]; intros seen H; [done|]. by apply IH, coauthor_line_NoDup.
Qed.
End Facts.

(** ** An instance *)

Module GitMetaSample.

(** A repository at [/src] on a branch, whose commit cannot be read as a tree, and which has
    no refs that point at it when [bare] is set. *)
Definition repository (fail_log fail_refs : bool) (args : list string) : string * option exec_error :=
  let failed := ("", Some (mkExec (Some "fatal") "exit status 128")) in
  match args with
  | "config" :: _ => ("git@github.com:user/repo.git" +:+ NLs, None)
  | "rev-parse" :: "--show-toplevel" :: _ => ("/src" +:+ NLs, None)
  | "rev-parse" :: "--abbrev-ref" :: _ => ("main" +:+ NLs, None)
  | "rev-parse" :: "HEAD^{tree}" :: _ => failed
  | "rev-parse" :: _ => ("abc" +:+ NLs, None)
  | "describe" :: _ => ("v1" +:+ NLs, None)
  | "log" :: _ => if fail_log then failed else ("x" +:+ NLs, None)
  | "for-each-ref" :: _ => if fail_refs then failed else ("'main'" +:+ NLs, None)
  | _ => ("", None)
  end.

Definition git_of (fail_log fail_refs : bool) : Git := {|
  git_Output := fun _ => repository fail_log fail_refs; which_git := None;
  m_EvalSymlinks := fun p => inl p; m_SameFile := String.eqb
|}.

#[export] Instance git : Git := git_of false false.

(** The libraries of the other sample, with an escape of the at sign. *)
Definition escape (s : string) : string := ReplaceAll s "@" "%40".

Definition escaping (l : GitLibs) : GitLibs := {|
  Regexp := Regexp; re_Compile := re_Compile; re_FindString := re_FindString; re_MatchString := re_MatchString;
  re_ReplaceAllString := re_ReplaceAllString; re_QuoteMeta := re_QuoteMeta; base64_Decode := base64_Decode; hmac_sha1 := hmac_sha1;
  knownhosts_Normalize := knownhosts_Normalize; SplitHostPort := SplitHostPort; url_QueryEscape := escape; url_Parse := url_Parse;
  IsImplicitSSHTransport := IsImplicitSSHTransport; ssh_HostKeys := ssh_HostKeys; ParseAuthorizedKey := ParseAuthorizedKey;
  agent_Dial := agent_Dial; ssh_Dial := ssh_Dial; Netrc := Netrc; netrc_ParseString := netrc_ParseString; netrc_Parse := netrc_Parse;
  netrc_Machine := netrc_Machine
|}.

Lemma escape_at s : GoText.no_byte "@" (escape s) = true.
Proof.
  unfold escape. induction s as [|c s IH]; [done|]. cbn [ReplaceAll]. destruct (Ascii.eqb c "@") eqn:E; [by rewrite no_byte_app, IH|].
  unfold GoText.no_byte. simpl. by rewrite E.
Qed.

Definition libs : GitLibs := escaping GitSample.git_libs.
End GitMetaSample.

Import (hints) Sample.
Import (hints) GitSample.
Import (hints) GitMetaSample.


Lemma gitRelDir_spec_witness : gitRelDir (rooted_path ["src"]) "/src/a/b" = inl ("a/b", true).
Proof.
  refine (gitRelDir_spec "/src/a/b" "/src/a/b" ["src"] ["a"; "b"] (mkStat true 493) _ _ _ _ _ _ _); try reflexivity; try discriminate;
    repeat constructor; discriminate.
Defined.

(** The log of the commit cannot be read, and neither can the refs: the first error, which is a
    reason to stop, is lost behind the second, which is not. *)
Example error_is_lost :
  ge_is <$> snd (@Metadata _ (GitMetaSample.git_of true false) "/src" "") = Some None /\
  ge_is <$> snd (@Metadata _ (GitMetaSample.git_of true true) "/src" "") = Some (Some ErrCouldNotDetectGitRefs).
Proof. split; vm_compute; reflexivity. Qed.

(** The line that ends the output of git gives a second, empty, branch and tag. *)
Example empty_branch :
  option_map Branch (fst (Metadata "/src/a" "")) = Some ["main"; ""] /\ option_map Tags (fst (Metadata "/src/a" "")) = Some ["v1"; ""].
Proof. split; vm_compute; reflexivity. Qed.

Example metadata_runs :
  option_map (fun g => (git_URL g, RelDir g, ShortHash g, Refs g)) (fst (Metadata "/src/a" "")) = Some ("github.com/user/repo", "a", "abc", ["main"]).
Proof. vm_compute. reflexivity. Qed.

Example coauthors : ParseCoAuthorsFromBody ("text" +:+ NLs +:+ "Co-authored-by: A B <a@b.c>" +:+ NLs +:+ "Co-authored-by: <d@e.f>") = ["a@b.c"].
Proof. vm_compute. reflexivity. Qed.
