(* ===== verification/Complete.v ===== *)
(** * Completion on the command line

    A translation of [autocomplete/complete.go], of the functions of
    [earthfile2llb/earthfile_info.go] that it asks for targets and arguments, and of the
    entry point in [cmd/earth/helper/autocomplete.go].  The words of the line drive a state
    machine, and the last state says what can follow.

    The application is data, as [urfave/cli] describes it; the resolver of build contexts and
    the parser of the flags of ARG are parameters. *)

From stdpp Require Import gmap sorting.
From S2P Require Import Prelude GoStrings Token GoText Numbers Ast Validator Reference Imports Scope FlagUtil Hasher.
From S2P Require Import Outcome Home.

Open Scope outcome_scope.

(** ** The application *)

(** [fl_Visible] is [None] for a flag that is not a [cli.VisibleFlag]. *)
Record Flag : Type := mkFlag { fl_Names : list string; fl_Visible : option bool; fl_IsBool : bool }.

Inductive Cmd : Type := mkCmd (cmd_name : string) (hidden : bool) (flags : list Flag) (commands : list Cmd).

Definition c_Name (c : Cmd) : string := let 'mkCmd n _ _ _ := c in n.
Definition c_Hidden (c : Cmd) : bool := let 'mkCmd _ h _ _ := c in h.
Definition c_Flags (c : Cmd) : list Flag := let 'mkCmd _ _ f _ := c in f.
Definition c_Commands (c : Cmd) : list Cmd := let 'mkCmd _ _ _ l := c in l.

Class Completion : Type := {
  (** [resolver.Resolve], of which the tree is used. *)
  c_Resolve : Reference -> Tree + string;
  c_parse_Arg : flag_parser ArgOpts
}.

Section Complete.
Context `{Unicode} {M : Machine} {C : Completion}.

Definition out (A : Type) : Type := outcome string A.

Definition of_res {A} (r : res A) : out A :=
  match r with Ok a => GoOk a | Err e => GoErr e | NoFuel => GoErr "" end.

Definition of_sum {A} (r : A + string) : out A := match r with inl a => GoOk a | inr e => GoErr e end.

(** ** [earthfile_info.go] *)

Definition resolve_tree (target : Reference) : out Tree :=
  owrap (fun err => "resolve build context for target " +:+ referenceString target +:+ ": " +:+ err)
    (of_sum (c_Resolve target)).

Definition GetTargets (target : Reference) : out (list string) :=
  try tree := resolve_tree target in GoOk (List.map target_Name (Targets tree)).

(** The verb [%v] of a slice of strings. *)
Definition fmt_strings (l : list string) : string := "[" +:+ Join l " " +:+ "]".

Fixpoint arg_names (isBase : bool) (recipe : list Statement) : out (list string) :=
  match recipe with
  | [] => GoOk []
  | mkStatement (SCommand c) _ :: recipe =>
      if String.eqb (cmd_Name c) "ARG" then
        try (_, argName, _) :=
          owrap (fun err => "failed to parse ARG arguments " +:+ fmt_strings (cmd_Args c) +:+ ": " +:+ err)
            (of_res (ParseArgArgs c_parse_Arg c isBase false)) in
        try rest := arg_names isBase recipe in GoOk (argName :: rest)
      else arg_names isBase recipe
  | _ :: recipe => arg_names isBase recipe
  end.

Definition GetTargetArgs (target : Reference) : out (list string) :=
  try tree := resolve_tree target in
  match List.find (fun tt => String.eqb (target_Name tt) (Name target)) (Targets tree) with
  | None => GoErr ("failed to find " +:+ referenceString target)
  | Some t => arg_names (String.eqb (target_Name t) TargetBase) (target_Recipe t)
  end.

(** ** Paths *)

Definition isLocalPath (path : string) : bool := existsb (HasPrefix path) ["."; ".."; "/"; "~"].

Definition isCWDRoot : bool := match m_Getwd with inl path => String.eqb path "/" | inr _ => false end.

Definition containsDirectories (path : string) : bool :=
  match m_ReadDir path with inl files => existsb de_IsDir files | inr _ => false end.

Definition hasSubDirs (dirPath : string) : bool :=
  match m_ReadDir dirPath with inl files => existsb de_IsDir files | inr _ => false end.

Definition Earthfile : string := "Earthfile".

Definition hasEarthfile (dirPath : string) : bool :=
  match m_Stat (path_Join [dirPath; Earthfile]) with inl info => negb (st_IsDir info) | inr _ => false end.

(** [filepath.Abs], the empty string when the working directory is not known. *)
Definition Abs (p : string) : string :=
  if IsAbs p then Clean p else match m_Getwd with inl wd => path_Join [wd; p] | inr _ => "" end.

Definition getPotentialHomeDirs (prefix : string) (users : list string) : list string :=
  List.map (fun user => "~" +:+ user +:+ "/") (List.filter (fun user => HasPrefix user (sdrop 1 prefix)) users).

(** The closure [replaceHomePrefix], for the user that was typed and the length of a home. *)
Definition replaceHomePrefix (home : option (string * nat)) (s : string) : out string :=
  match home with
  | None => GoOk s
  | Some (user, expandedHomeLen) =>
      try rest := slice_from s (Z.of_nat expandedHomeLen) in GoOk ("~" +:+ user +:+ "/" +:+ rest)
  end.

Fixpoint potential_targets (prefix dirPath : string) (home : option (string * nat)) (targets : list string) : out (list string) :=
  match targets with
  | [] => GoOk []
  | target :: targets =>
      let s := dirPath +:+ "+" +:+ target +:+ " " in
      if HasPrefix s prefix then
        try r := replaceHomePrefix home s in
        try rest := potential_targets prefix dirPath home targets in GoOk (r :: rest)
      else potential_targets prefix dirPath home targets
  end.

Definition getPotentialTargets (prefix dirPath : string) (home : option (string * nat)) (targets : list string) : out (list string) :=
  potential_targets prefix dirPath home (match targets with [] => [TargetBase] | _ => targets end).

(** The directories of [dir] that start with [f]: with a plus sign where there is an
    Earthfile, with a slash where there are directories. *)
Fixpoint potential_dirs (prefix dir f : string) (home : option (string * nat)) (files : list DirEntry) : out (list string) :=
  match files with
  | [] => GoOk []
  | file :: files =>
      if negb (HasPrefix (de_Name file) f) || negb (de_IsDir file) then potential_dirs prefix dir f home files
      else
        let s := path_Join [dir; de_Name file] in
        let s := if HasPrefix prefix "./" then "./" +:+ s else s in
        try plus := (if hasEarthfile s then try r := replaceHomePrefix home s in GoOk [r +:+ "+"] else GoOk []) in
        try sub := (if hasSubDirs s then try r := replaceHomePrefix home s in GoOk [r +:+ "/"] else GoOk []) in
        try rest := potential_dirs prefix dir f home files in
        GoOk (plus ++ sub ++ rest)
  end.

(** Whether the word is read as a directory to look into, or as the start of a name. *)
Definition use_prefix_as_dir (prefix : string) : out bool :=
  try usePrefixAsDir := of_sum (DirExists prefix) in
  if usePrefixAsDir && negb (HasSuffix prefix "/") then
    let '(p, f) := path_Split prefix in
    try files := of_sum (m_ReadDir p) in
    GoOk (negb (hasEarthfile f) &&
          negb (existsb (fun file => HasPrefix (de_Name file) f && negb (String.eqb (de_Name file) f)) files))
  else GoOk usePrefixAsDir.

(** The part that follows the expansion of the tilde. *)
Definition expanded_paths (HOME : string) (prefix : string) (home : option (string * nat)) : out (list string) :=
  if ContainsByte prefix plus then
    let dirPath := fst (fst (Cut prefix plus)) in
    let targetToParse := if HasSuffix prefix "+" then prefix +:+ TargetBase else prefix in
    try target := of_res (ParseTarget HOME targetToParse) in
    try targets := GetTargets target in
    getPotentialTargets prefix dirPath home targets
  else
    try usePrefixAsDir := use_prefix_as_dir prefix in
    let '(dir, f) := if usePrefixAsDir : bool then (prefix, "") else path_Split prefix in
    try files := of_sum (m_ReadDir dir) in
    try paths := potential_dirs prefix dir f home files in
    if String.eqb prefix "./" || HasSuffix prefix "/./" then GoOk paths
    else if String.eqb (Abs dir) "/" then GoOk paths
    else GoOk (paths ++ (if HasSuffix prefix "/." then [prefix +:+ "./"] else []) ++
               (if HasSuffix prefix "/" then [prefix +:+ "../"] else [])).

Definition getPotentialPaths (HOME : string) (prefix : string) : out (list string) :=
  if String.eqb prefix "." then
    GoOk ((if containsDirectories "." then ["./"] else []) ++ (if isCWDRoot then [] else ["../"]))
  else if String.eqb prefix ".." then GoOk ["../"]
  else
    try currentUser := of_sum m_Current in
    if HasPrefix prefix "~" then
      try users := of_sum GetUserHomeDirs in
      match SplitN2 (sdrop 1 prefix) slash with
      | [user; rest] =>
          let homeDir := if String.eqb user "" then u_HomeDir currentUser else default "" (users !! user) in
          expanded_paths HOME (homeDir +:+ "/" +:+ rest) (Some (user, String.length (u_HomeDir currentUser) + 1))
      | _ => GoOk (getPotentialHomeDirs prefix (map_to_list users).*1)
      end
    else expanded_paths HOME prefix None.

Definition getPotentialTargetBuildArgs (HOME targetStr : string) : out (list string) :=
  try target := of_res (ParseTarget HOME targetStr) in GetTargetArgs target.

Definition getPotentialArtifactBuildArgs (HOME artifactStr : string) : out (list string) :=
  try artifact := of_res (ParseArtifact HOME artifactStr) in
  getPotentialTargetBuildArgs HOME (referenceString (art_Target artifact)).

(** ** Flags and commands *)

Definition getCmd (name : string) (cmds : list Cmd) : option Cmd := List.find (fun c => String.eqb name (c_Name c)) cmds.

Definition getVisibleFlags (flags : list Flag) : list string :=
  flat_map (fun f =>
    match fl_Visible f with
    | Some false => []
    | _ => List.filter (fun n => (1 <? String.length n)%nat) (fl_Names f)
    end) flags.

Definition isBooleanFlag (flags : list Flag) (flagName : string) : bool * bool :=
  if String.eqb flagName "" then (false, false)
  else
    let flagName := if HasPrefix flagName "--" then sdrop 2 flagName else sdrop 1 flagName in
    match List.find (fun f => existsb (String.eqb flagName) (fl_Names f)) flags with
    | Some f => (fl_IsBool f, true)
    | None => (false, false)
    end.

Definition isFlagValidAndRequiresValue (flags : list Flag) (flagName : string) : bool :=
  let '(isBool, ok) := isBooleanFlag flags flagName in ok && negb isBool.

Definition padStrings (flags : list string) (prefix suffix : string) : list string :=
  List.map (fun s => prefix +:+ s +:+ suffix) flags.

Definition getVisibleCommands (commands : list Cmd) : list string :=
  List.map c_Name (List.filter (fun c => negb (c_Hidden c)) commands).

(** ** The state machine *)

Inductive completeState : Type :=
  | unknownState | rootState | flagState | flagValueState | commandState
  | targetState | targetFlagState | artifactFlagState | endOfSuggestionsState.

#[export] Instance completeState_eq_dec : EqDecision completeState.
Proof. solve_decision. Defined.

Record words_state : Type := mkWords {
  w_state : completeState;
  prevWord : string;
  w_target : string;
  artifactMode : bool;
  w_flag : string;
  w_cmd : option Cmd;
  w_commands : list Cmd;
  flagValues : gmap string string
}.

Definition getFlags (app : Cmd) (s : words_state) : list Flag :=
  match w_cmd s with Some c => c_Flags c | None => c_Flags app end.

Definition is_state (s : words_state) (l : list completeState) : bool := bool_decide (w_state s ∈ l).

(** A word after a value of a flag: the value is complete. *)
Definition end_value (s : words_state) : words_state :=
  if is_state s [flagValueState] then
    mkWords flagState "" (w_target s) (artifactMode s) (w_flag s) (w_cmd s) (w_commands s)
      (<[w_flag s:=prevWord s]> (flagValues s))
  else s.

Definition read_word (app : Cmd) (s : words_state) (w : string) : words_state :=
  let s := end_value s in
  let go (st : completeState) := mkWords st w (w_target s) (artifactMode s) (w_flag s) (w_cmd s) (w_commands s) (flagValues s) in
  if is_state s [flagState] && isFlagValidAndRequiresValue (getFlags app s) (prevWord s) then
    mkWords flagValueState w (w_target s) (artifactMode s) (prevWord s) (w_cmd s) (w_commands s) (flagValues s)
  else if is_state s [rootState; commandState; flagState] then
    if HasPrefix w "-" then
      mkWords flagState w (w_target s) (artifactMode s || String.eqb w "-a" || String.eqb w "--artifact")
        (w_flag s) (w_cmd s) (w_commands s) (flagValues s)
    else if bool_decide (w_cmd s = None) && (isLocalPath w || HasPrefix w "+") then
      mkWords targetState w w (artifactMode s) (w_flag s) (w_cmd s) (w_commands s) (flagValues s)
    else match getCmd w (w_commands s) with
    | Some foundCmd =>
        mkWords commandState w (w_target s) (artifactMode s) (w_flag s) (Some foundCmd) (c_Commands foundCmd) (flagValues s)
    | None => go commandState
    end
  else if is_state s [targetState; targetFlagState] then
    if negb (HasPrefix w "-") || HasSuffix w "=" then go endOfSuggestionsState
    else if artifactMode s then go artifactFlagState
    else go targetFlagState
  else go (w_state s).

(** The words that [getWord] gives; none for an empty line. *)
Definition line_words (compLine : string) : list string :=
  if String.eqb compLine "" then [] else Split compLine " ".

Definition start (app : Cmd) (first : string) : words_state :=
  mkWords rootState first "" false "" None (c_Commands app) ∅.

Definition read_line (app : Cmd) (compLine : string) : words_state :=
  match line_words compLine with
  | [] => start app ""
  | first :: words => fold_left (read_word app) words (start app first)
  end.

Definition suggestions (HOME : string) (app : Cmd) (s : words_state) : out (list string) :=
  match w_state s with
  | flagState =>
      GoOk (padStrings
        (match w_cmd s with
         | Some cmd => getVisibleFlags (c_Flags cmd)
         | None => getVisibleFlags (c_Flags app) ++ ["version"; "help"]
         end) "--" " ")
  | rootState | commandState =>
      match w_cmd s with
      | Some cmd => GoOk (padStrings (getVisibleCommands (c_Commands cmd)) "" " ")
      | None =>
          GoOk (padStrings (getVisibleCommands (c_Commands app)) "" " " ++
                (if containsDirectories "." then ["./"] else []) ++
                (if FileExistsBestEffort Earthfile then ["+"] else []))
      end
  | targetState => getPotentialPaths HOME (prevWord s)
  | targetFlagState => try l := getPotentialTargetBuildArgs HOME (w_target s) in GoOk (padStrings l "--" "=")
  | artifactFlagState => try l := getPotentialArtifactBuildArgs HOME (w_target s) in GoOk (padStrings l "--" "=")
  | flagValueState | unknownState | endOfSuggestionsState => GoOk []
  end.

Definition GetPotentials (HOME compLine : string) (compPoint : Z) (app : Cmd) : out (list string) :=
  if (Z.of_nat (String.length compLine) <? compPoint)%Z then GoErr "COMP_POINT out of bounds"
  else
    try compLine := slice_to compLine compPoint in
    let s := read_line app compLine in
    try potentials := suggestions HOME app s in
    GoOk (merge_sort str_le (List.filter (fun p => HasPrefix p (prevWord s)) potentials)).

(** ** The entry point *)

(** [strconv.ParseUint(s, 10, 64)] *)
Definition ParseUint10 (s : string) : Z + string :=
  match (if String.eqb s "" then inr "invalid syntax" else uint_loop s 0) with
  | inl n => inl n
  | inr reason => inr ("strconv.ParseUint: parsing " +:+ Quote s +:+ ": " +:+ reason)
  end.

(** What is printed, or the error; a panic is recovered, [stack] being what is known of it. *)
Definition autoCompleteImp (HOME stack : string) (app : Cmd) : list string + string :=
  let compLine := default "" (m_Getenv "COMP_LINE") in
  match ParseUint10 (default "" (m_Getenv "COMP_POINT")) with
  | inr err => inr err
  | inl n =>
      if (n =? 0)%Z || (2 ^ 63 - 1 <=? n)%Z then inr "compPointInt is out of bounds"
      else match GetPotentials HOME compLine n app with
      | GoOk l => inl l
      | GoErr e => inr e
      | GoPanic t => inr ("recovered panic in autocomplete " +:+ t +:+ ": " +:+ stack)
      end
  end.

End Complete.

(** * What completion offers

    Every suggestion extends the word at the cursor and the list is sorted; flags and
    commands are offered when they are visible and fit, and only then; the program does not
    panic for a word without a tilde. *)

Open Scope outcome_scope.

Section Facts.
Context `{Unicode} {M : Machine} {C : Completion}.

(** ** The words *)

Definition last_word (line : string) : string := List.last (line_words line) "".

Lemma read_word_prev app s w : prevWord (read_word app s w) = w.
Proof. unfold read_word. cbv zeta. by repeat case_goal. Qed.

Lemma last_cons {A} (a : A) l d : List.last (a :: l) d = List.last l a.
Proof.
  revert a d. induction l as [|b l IH]; intros a d; [done|]. change (List.last (a :: b :: l) d) with (List.last (b :: l) d).
  by rewrite (IH b d), (IH b a).
Qed.

Lemma read_words_prev app words s : prevWord (fold_left (read_word app) words s) = List.last words (prevWord s).
Proof.
  revert s. induction words as [|w words IH]; intros s; [done|]. cbn [fold_left]. rewrite IH, read_word_prev.
  by rewrite last_cons.
Qed.

Lemma read_line_prev app line : prevWord (read_line app line) = last_word line.
Proof.
  unfold read_line, last_word. destruct (line_words line) as [|first words]; [done|]. rewrite read_words_prev.
  by rewrite last_cons.
Qed.

(** Every suggestion extends the word at the cursor, and the suggestions are sorted: for
    every line, every cursor and every application, what is returned starts with what was
    typed since the last space. *)
Theorem potentials_extend HOME compLine compPoint app l (Hl : GetPotentials HOME compLine compPoint app = GoOk l) :
  StronglySorted str_le l /\
  Forall (fun p => HasPrefix p (last_word (stake (Z.to_nat compPoint) compLine)) = true) l.
Proof.
  unfold GetPotentials in Hl. case_hyp Hl; [done|]. apply obind_ok in Hl as (line & Hline & Hl).
  apply obind_ok in Hl as (pots & Hp & [= <-]). split; [apply StronglySorted_merge_sort; apply _|].
  rewrite read_line_prev. unfold slice_to in Hline. case_hyp Hline; [|done]. injection Hline as <-.
  rewrite merge_sort_Permutation. apply Forall_forall. intros p Hp'. by apply filter_In in Hp' as [_ Hp'].
Qed.

(** ** The commands *)

(** The commands of the tree below a command. *)
Inductive below (app : Cmd) : Cmd -> Prop :=
  | below_top c : c ∈ c_Commands app -> below app c
  | below_sub c c' : below app c -> c' ∈ c_Commands c -> below app c'.

Definition current (app : Cmd) (s : words_state) : Cmd := default app (w_cmd s).

Record words_ok (app : Cmd) (s : words_state) : Prop := {
  wo_commands : w_commands s = c_Commands (current app s);
  wo_below : forall c, w_cmd s = Some c -> below app c
}.

Lemma getCmd_elem n cmds c : getCmd n cmds = Some c -> c ∈ cmds.
Proof. intros [Hg _]%find_some. by apply list_elem_of_In. Qed.

Lemma read_word_ok app s w : words_ok app s -> words_ok app (read_word app s w).
Proof.
  intros Hok. assert (words_ok app (end_value s)) as [Hc Hb].
  { unfold end_value. case_test; [|done]. by destruct Hok. }
  unfold read_word. cbv zeta. set (s' := end_value s) in *. repeat case_test; try done.
  destruct (getCmd w (w_commands s')) as [c|] eqn:Eg; [|done]. split; [done|]. simpl. intros ? [= <-].
  apply getCmd_elem in Eg. rewrite Hc in Eg. unfold current in Eg. destruct (w_cmd s') as [c'|]; simpl in Eg;
    [eapply below_sub; [by apply Hb|done]|by apply below_top].
Qed.

Lemma read_line_ok app line : words_ok app (read_line app line).
Proof.
  assert (forall first, words_ok app (start app first)) as Hs by done. unfold read_line.
  destruct (line_words line) as [|first words]; [done|]. specialize (Hs first). revert Hs.
  generalize (start app first). induction words as [|w words IH]; intros s Hs; [done|]. apply IH. by apply read_word_ok.
Qed.

(** What can follow, where flags or commands are completed. *)
Definition flag_offer (cmd : Cmd) (p : string) : Prop :=
  exists f n, f ∈ c_Flags cmd /\ fl_Visible f <> Some false /\ n ∈ fl_Names f /\ 1 < String.length n /\ p = "--" +:+ n +:+ " ".

Definition command_offer (cmd : Cmd) (p : string) : Prop :=
  exists c, c ∈ c_Commands cmd /\ c_Hidden c = false /\ p = c_Name c +:+ " ".

Definition offered (app : Cmd) (s : words_state) (p : string) : Prop :=
  match w_state s with
  | flagState => flag_offer (current app s) p \/ (w_cmd s = None /\ p ∈ ["--version "; "--help "])
  | rootState | commandState =>
      command_offer (current app s) p \/
      (w_cmd s = None /\ ((p = "./" /\ containsDirectories "." = true) \/ (p = "+" /\ FileExistsBestEffort Earthfile = true)))
  | _ => False
  end.

Lemma visible_flags cmd p : p ∈ padStrings (getVisibleFlags (c_Flags cmd)) "--" " " <-> flag_offer cmd p.
Proof.
  unfold padStrings, getVisibleFlags, flag_offer. rewrite list_elem_of_In, in_map_iff. split.
  - intros (n & <- & (f & Hf & Hn)%in_flat_map). exists f, n. rewrite <- list_elem_of_In in Hf.
    destruct (fl_Visible f) as [[]|]; [|done|]; apply filter_In in Hn as [Hn Hlen%Nat.ltb_lt];
      rewrite <- list_elem_of_In in Hn; done.
  - intros (f & n & Hf & Hv & Hn & Hlen & ->). exists n. split; [done|]. apply in_flat_map. exists f.
    split; [by apply list_elem_of_In|]. apply Nat.ltb_lt in Hlen. rewrite list_elem_of_In in Hn.
    destruct (fl_Visible f) as [[]|]; [|done|]; by apply filter_In.
Qed.

Lemma visible_commands cmd p : p ∈ padStrings (getVisibleCommands (c_Commands cmd)) "" " " <-> command_offer cmd p.
Proof.
  unfold padStrings, getVisibleCommands, command_offer. rewrite list_elem_of_In, in_map_iff. setoid_rewrite in_map_iff.
  setoid_rewrite filter_In. setoid_rewrite list_elem_of_In. setoid_rewrite negb_true_iff. split.
  - intros (n & <- & c & <- & Hc & Hh). by exists c.
  - intros (c & Hc & Hh & ->). exists (c_Name c). split; [done|]. by exists c.
Qed.

Lemma elem_if {A} (b : bool) (x y : A) : x ∈ (if b then [y] else []) <-> x = y /\ b = true.
Proof. destruct b; set_solver. Qed.

Lemma suggestions_offered HOME app s l :
  is_state s [flagState; rootState; commandState] = true -> suggestions HOME app s = GoOk l ->
  forall p, p ∈ l <-> offered app s p.
Proof.
  unfold is_state, suggestions, offered, current. rewrite bool_decide_eq_true. intros Hs Hl p.
  assert (forall l1 l2 a b, padStrings (l1 ++ l2) a b = padStrings l1 a b ++ padStrings l2 a b) as Hpad
    by (intros; apply map_app).
  destruct (w_state s); try (exfalso; set_solver); destruct (w_cmd s) as [c|]; simpl; injection Hl as <-;
    rewrite ?Hpad, ?elem_of_app, ?visible_flags, ?visible_commands, ?elem_if; cbn [padStrings List.map]; naive_solver.
Qed.

(** Which flags and commands are offered: where a flag or a command is being typed, a text is
    offered exactly when it extends the word and is a visible flag or command of the current
    command, which is a command of the application (or, at the top, the flags version and
    help, a directory to enter or a target of the Earthfile that is there).  Hidden ones
    never are. *)
Theorem offers_visible HOME compLine compPoint app l
  (Hl : GetPotentials HOME compLine compPoint app = GoOk l)
  (Hs : is_state (read_line app (stake (Z.to_nat compPoint) compLine)) [flagState; rootState; commandState] = true) :
  let s := read_line app (stake (Z.to_nat compPoint) compLine) in
  (forall c, w_cmd s = Some c -> below app c) /\
  forall p, p ∈ l <-> HasPrefix p (prevWord s) = true /\ offered app s p.
Proof.
  intros s. split; [apply read_line_ok|]. intros p. unfold GetPotentials in Hl. case_hyp Hl; [done|].
  apply obind_ok in Hl as (line & Hline & Hl). unfold slice_to in Hline. case_hyp Hline; [|done]. injection Hline as <-.
  apply obind_ok in Hl as (pots & Hp & [= <-]). rewrite merge_sort_Permutation, list_elem_of_In, filter_In.
  rewrite <- list_elem_of_In, (suggestions_offered HOME app s pots Hs Hp). tauto.
Qed.

(** ** Panics *)

Lemma of_res_panics {A} (r : res A) : panics (of_res r) = false.
Proof. by destruct r. Qed.
Lemma of_sum_panics {A} (r : A + string) : panics (of_sum r) = false.
Proof. by destruct r. Qed.
Lemma owrap_panics {E E' A} (f : E -> E') (m : outcome E A) : panics (owrap f m) = panics m.
Proof. by destruct m. Qed.
Hint Resolve of_res_panics of_sum_panics : complete.

Ltac no_panic :=
  repeat first
    [ progress auto with complete
    | rewrite owrap_panics
    | apply obind_panics; [|intros ? ?]
    | case_goal ].

Lemma resolve_panics t : panics (resolve_tree t) = false.
Proof. unfold resolve_tree. no_panic. Qed.
Hint Resolve resolve_panics : complete.

Lemma arg_names_panics b recipe : panics (arg_names b recipe) = false.
Proof. induction recipe as [|[[c|?|?|?|?|?] loc] recipe IH]; cbn [arg_names]; no_panic. Qed.
Hint Resolve arg_names_panics : complete.

Lemma args_panics HOME t : panics (getPotentialTargetBuildArgs HOME t) = false.
Proof. unfold getPotentialTargetBuildArgs, GetTargetArgs. no_panic. Qed.
Hint Resolve args_panics : complete.

Lemma potential_targets_panics prefix dirPath targets : panics (potential_targets prefix dirPath None targets) = false.
Proof. induction targets as [|t targets IH]; cbn [potential_targets replaceHomePrefix]; no_panic. Qed.
Hint Resolve potential_targets_panics : complete.

Lemma potential_dirs_panics prefix dir f files : panics (potential_dirs prefix dir f None files) = false.
Proof.
  induction files as [|file files IH]; [done|]. cbn [potential_dirs replaceHomePrefix]. case_test; [done|]. cbv zeta.
  apply obind_panics; [by case_test|intros ? _]. apply obind_panics; [by case_test|intros ? _]. no_panic.
Qed.
Hint Resolve potential_dirs_panics : complete.

Lemma expanded_panics HOME prefix : panics (expanded_paths HOME prefix None) = false.
Proof.
  unfold expanded_paths. case_test.
  - unfold getPotentialTargets, GetTargets. no_panic.
  - apply obind_panics; [|intros usePrefixAsDir _].
    + unfold use_prefix_as_dir. apply obind_panics; [auto with complete|intros b _]. case_test; [|done].
      destruct (path_Split prefix). no_panic.
    + destruct (if usePrefixAsDir then _ else _). no_panic.
Qed.
Hint Resolve expanded_panics : complete.

Lemma paths_panics HOME w : HasPrefix w "~" = false -> panics (getPotentialPaths HOME w) = false.
Proof. intros Hw. unfold getPotentialPaths. rewrite Hw. no_panic. Qed.

Lemma suggestions_panics HOME app s : HasPrefix (prevWord s) "~" = false -> panics (suggestions HOME app s) = false.
Proof.
  intros Hw. unfold suggestions, getPotentialArtifactBuildArgs. destruct (w_state s); try (by apply paths_panics); no_panic.
Qed.

(** Completion does not panic: for a cursor that is not negative and a last word that does
    not start with a tilde, the answer is a list or an error, whatever is on the machine. *)
Theorem completion_no_panic HOME compLine compPoint app
  (Hpoint : (0 <= compPoint)%Z) (Hword : HasPrefix (last_word (stake (Z.to_nat compPoint) compLine)) "~" = false) :
  panics (GetPotentials HOME compLine compPoint app) = false.
Proof.
  unfold GetPotentials. case_test; [done|]. apply obind_panics.
  - unfold slice_to. to_prop. rewrite (proj2 (Z.leb_le _ _)), (proj2 (Z.leb_le _ _)) by lia. done.
  - intros line Hline. unfold slice_to in Hline. case_hyp Hline; [|done]. injection Hline as <-.
    apply obind_panics; [|done]. apply suggestions_panics. by rewrite read_line_prev.
Qed.
End Facts.

(** ** An instance *)

Module CompleteSample.

Definition alice : User := mkUser "1000" "1000" "alice" "Alice" "/home/alice".

(** Two users, one with a short home; every directory holds [sub] and an Earthfile. *)
#[export] Instance machine : Machine := {|
  GOOS := "linux"; m_Getenv := fun _ => None; m_Current := inl alice; m_Lookup := fun _ => inr "no user";
  m_Stat := fun p => inl (mkStat (negb (HasSuffix p "Earthfile")) 493);
  m_Stat_uid := fun _ => inl 1000%Z; m_ReadDir := fun _ => inl [mkEntry "sub" true];
  m_Open := fun _ => inl ("alice:x:1000:1000::/home/alice:" +:+ NLs +:+ "bob:x:1001:1001::/b:" +:+ NLs, None);
  m_WriteFile := fun _ _ => None; m_MkdirAll := fun _ => None; m_OpenRoot := fun _ => None; m_WalkDir := fun _ => [];
  m_Rel := fun _ p => inl p; m_Chown := fun _ _ _ => None; m_Getwd := inl "/home/alice"
|}.

#[export] Instance completion : Completion := {|
  c_Resolve := fun _ => inr "no Earthfile"; c_parse_Arg := fun l => Ok (mkArgOpts false false, l)
|}.

#[export] Instance printable : Unicode := fun _ => true.

Definition app : Cmd :=
  mkCmd "earth" false [mkFlag ["push"] (Some true) true; mkFlag ["config"; "c"] (Some true) false; mkFlag ["secret-flag"] (Some false) true]
    [mkCmd "prune" false [mkFlag ["all"; "a"] None true] []; mkCmd "debug" true [] []].

End CompleteSample.

Import (hints) CompleteSample.

Example complete_commands : GetPotentials "/home/alice" "earth pr" 8 CompleteSample.app = GoOk ["prune "].
Proof. vm_compute. reflexivity. Qed.

Example complete_flags : GetPotentials "/home/alice" "earth --config x --p" 20 CompleteSample.app = GoOk ["--push "].
Proof. vm_compute. reflexivity. Qed.

Example complete_own_home : GetPotentials "/home/alice" "earth ~/su" 10 CompleteSample.app = GoOk ["~/sub+"; "~/sub/"].
Proof. vm_compute. reflexivity. Qed.

(** The home of another user is cut off by the length of one's own. *)
Example complete_other_home : GetPotentials "/home/alice" "earth ~bob/su" 13 CompleteSample.app = GoPanic slice_panic.
Proof. vm_compute. reflexivity. Qed.

Example complete_above_home : GetPotentials "/home/alice" "earth ~/../../su" 16 CompleteSample.app = GoPanic slice_panic.
Proof. vm_compute. reflexivity. Qed.

Lemma potentials_extend_witness :
  StronglySorted str_le ["prune "] /\ Forall (fun p => HasPrefix p (last_word (stake (Z.to_nat 8) "earth pr")) = true) ["prune "].
Proof. apply (potentials_extend "/home/alice" "earth pr" 8 CompleteSample.app). vm_compute. reflexivity. Defined.

Lemma offers_visible_witness :
  let s := read_line CompleteSample.app (stake (Z.to_nat 8) "earth pr") in
  (forall c, w_cmd s = Some c -> below CompleteSample.app c) /\
  forall p, p ∈ ["prune "] <-> HasPrefix p (prevWord s) = true /\ offered CompleteSample.app s p.
Proof. apply (offers_visible "/home/alice" "earth pr" 8 CompleteSample.app); vm_compute; reflexivity. Defined.

Lemma completion_no_panic_witness : panics (GetPotentials "/home/alice" "earth ./su" 10 CompleteSample.app) = false.
Proof. apply completion_no_panic; [lia|vm_compute; reflexivity]. Defined.
