(* ===== verification/AllTargets.v ===== *)
(** * The conversion of all targets

    A translation of the part of [Earthfile2LLB] (in [earthfile2llb/earthfile2llb.go]) that
    decides which targets are converted, with the goroutines that [buildTarget] and
    [BuildAsync] (in [converter.go]) run it in.

    A target is its key, the hash of its inputs.  Converting it runs its recipe, and of the
    recipe only the calls for other targets matter here: [calls] lists them in order, a call
    that the recipe waits for ([Sync], from [buildTarget]) or one that runs in a goroutine of
    its own ([Async], from [BuildAsync]).  A thread is one goroutine: the targets it is
    converting, the innermost first, and the stack that it inherited when it was started
    ([TargetInputHashStackSet], which is copied at every call).  [visited] is the collection
    of visited targets: a key is there once it was added, with whether it is done. *)

From stdpp Require Import gmap.
From S2P Require Import Prelude.

Section AllTargets.
Context {K : Type} `{Countable K}.

Inductive call : Type := Sync (k : K) | Async (k : K).

Definition callee (c : call) : K := match c with Sync k => k | Async k => k end.

Variable calls : K -> list call.

Inductive control : Type :=
  | Calling (k : K)   (** at the entry of [Earthfile2LLB], before [Visited.Add] *)
  | Waiting (k : K)   (** [<-sts.Done()] of a target that was found *)
  | Running           (** in the recipe of the innermost target *)
  | Ended
  | Failed (k : K).   (** infinite cycle detected for target [k] *)

Record thread : Type := mkThread {
  inherited : list K;
  frames : list (K * list call);
  ctl : control
}.

Record sys : Type := mkSys { visited : gmap K bool; threads : list thread }.

(** The stack set: what this thread is converting, and what its ancestors were. *)
Definition stack (t : thread) : list K := (frames t).*1 ++ inherited t.

(** Back to the recipe that made the call, or out of the goroutine. *)
Definition back (fs : list (K * list call)) : control := match fs with [] => Ended | _ => Running end.

Definition with_ctl (t : thread) (c : control) : thread := mkThread (inherited t) (frames t) c.

(** One step of a thread: what was visited, the thread, and the goroutines it starts; [None]
    when it waits or is over. *)
Definition advance (v : gmap K bool) (t : thread) : option (gmap K bool * thread * list thread) :=
  match ctl t with
  | Calling k =>
      match v !! k with
      | None => Some (<[k:=false]> v, mkThread (inherited t) ((k, calls k) :: frames t) Running, [])
      | Some _ =>
          if decide (k ∈ stack t) then Some (v, with_ctl t (Failed k), [])
          else Some (v, with_ctl t (Waiting k), [])
      end
  | Waiting k =>
      match v !! k with
      | Some true => Some (v, with_ctl t (back (frames t)), [])
      | _ => None
      end
  | Running =>
      match frames t with
      | [] => Some (v, with_ctl t Ended, [])
      | (k, []) :: fs => Some (<[k:=true]> v, mkThread (inherited t) fs (back fs), [])
      | (k, Sync k' :: cs) :: fs => Some (v, mkThread (inherited t) ((k, cs) :: fs) (Calling k'), [])
      | (k, Async k' :: cs) :: fs =>
          Some (v, mkThread (inherited t) ((k, cs) :: fs) Running, [mkThread (stack t) [] (Calling k')])
      end
  | Ended | Failed _ => None
  end.

(** Any thread that can take a step may be the next one. *)
Inductive step (s : sys) : sys -> Prop :=
  | step_thread i t v t' new :
      threads s !! i = Some t -> advance (visited s) t = Some (v, t', new) ->
      step s (mkSys v (<[i:=t']> (threads s) ++ new)).

(** The first call, for the target that was asked for. *)
Definition init (root : K) : sys := mkSys ∅ [mkThread [] [] (Calling root)].

Definition reachable (root : K) (s : sys) : Prop := rtc step (init root) s.

(** ** The graph of calls *)

Definition edge (a b : K) : Prop := exists c, c ∈ calls a /\ callee c = b.

Fixpoint chain (l : list K) : Prop :=
  match l with
  | a :: rest => match rest with b :: _ => edge b a | [] => True end /\ chain rest
  | [] => True
  end.

(** The innermost target calls [k]. *)
Definition calls_next (l : list K) (k : K) : Prop := match l with a :: _ => edge a k | [] => True end.

Record thread_ok (v : gmap K bool) (t : thread) : Prop := {
  th_chain : chain (stack t);
  th_rest : Forall (fun f => forall c, c ∈ snd f -> c ∈ calls (fst f)) (frames t);
  th_ctl : match ctl t with
           | Calling k => calls_next (stack t) k
           | Waiting k => calls_next (stack t) k /\ is_Some (v !! k)
           | Running => frames t <> []
           | Ended => frames t = []
           | Failed k => calls_next (stack t) k /\ k ∈ stack t
           end
}.

Lemma chain_cons k l : calls_next l k -> chain l -> chain (k :: l).
Proof. destruct l; done. Qed.

Lemma thread_ok_mono v v' t : dom v ⊆ dom v' -> thread_ok v t -> thread_ok v' t.
Proof.
  intros Hd [H1 H2 H3]. split; [done|done|]. destruct (ctl t); try done. destruct H3 as [H3 H4]. split; [done|].
  apply elem_of_dom in H4. apply elem_of_dom. set_solver.
Qed.

Lemma advance_ok v t v' t' new :
  thread_ok v t -> advance v t = Some (v', t', new) ->
  dom v ⊆ dom v' /\ thread_ok v' t' /\ Forall (thread_ok v') new.
Proof.
  intros [Hc Hr Hk] Ha. unfold advance in Ha. destruct (ctl t) as [k|k| | |k] eqn:Ec; [| | |done|done].
  - destruct (v !! k) eqn:Ev; [case_hyp Ha|]; injection Ha as <- <- <-; (split; [set_solver|]); (split; [|done]).
    + by split.
    + split; [done|done|]. split; [done|by eexists].
    + split; [by apply chain_cons|by constructor|done].
  - destruct (v !! k) as [[]|] eqn:Ev; [|done|done]. injection Ha as <- <- <-. split; [done|]. split; [|done].
    split; [done|done|]. simpl. by destruct (frames t).
  - destruct (frames t) as [|[k cs] fs] eqn:Ef; [done|]. inversion_clear Hr as [|? ? Hcs Hfs]. unfold stack in Hc. rewrite Ef in Hc.
    cbn [fmap list_fmap app fst snd] in Hc, Hcs. destruct cs as [|[k'|k'] cs]; injection Ha as <- <- <-.
    + split; [set_solver|]. split; [|done]. split; [by apply Hc|done|]. simpl. by destruct fs.
    + split; [done|]. split; [|done]. split; [done|constructor; [intros c Hin; apply Hcs; by right|done]|].
      simpl. exists (Sync k'). split; [apply Hcs; left|done].
    + split; [done|]. split.
      * split; [done|constructor; [intros c Hin; apply Hcs; by right|done]|done].
      * apply Forall_singleton. unfold stack. rewrite Ef. split; [done|constructor|]. simpl. exists (Async k').
        split; [apply Hcs; left|done].
Qed.

Definition sys_ok (s : sys) : Prop := Forall (thread_ok (visited s)) (threads s).

Lemma sys_step_ok s s' : step s s' -> sys_ok s -> sys_ok s'.
Proof.
  intros [i t v t' new Hi Ha] Hok. unfold sys_ok in *. simpl.
  destruct (advance_ok _ _ _ _ _ (Forall_lookup_1 _ _ _ _ Hok Hi) Ha) as (Hd & Ht & Hn).
  apply Forall_app_2; [|done]. apply Forall_insert; [|done]. apply (list.Forall_impl _ _ _ Hok). intros x. by apply thread_ok_mono.
Qed.

Lemma reachable_ok root s : reachable root s -> sys_ok s.
Proof.
  intros Hr. assert (sys_ok (init root)) as Hi by (apply Forall_singleton; split; simpl; [done|constructor|done]).
  unfold reachable in Hr. induction Hr as [|x y z Hs _ IH]; [done|]. apply IH. by apply (sys_step_ok x).
Qed.

(** Along a chain every target is called, through others, by those further out. *)
Lemma chain_path a l k : chain (a :: l) -> k ∈ a :: l -> rtc edge k a.
Proof.
  revert a. induction l as [|b l IH]; intros a [Hab Hc] Hk.
  - apply list_elem_of_singleton in Hk as ->. done.
  - apply elem_of_cons in Hk as [->|Hk]; [done|]. eapply rtc_r; [by apply IH|done].
Qed.

Lemma failed_cycle v t k : thread_ok v t -> ctl t = Failed k -> tc edge k k.
Proof.
  intros [Hc _ Hk] E. rewrite E in Hk. destruct Hk as [Hn Hin]. destruct (stack t) as [|a l]; [set_solver|].
  eapply tc_rtc_l; [by apply (chain_path a l)|]. by apply tc_once.
Qed.
End AllTargets.

(** * The conversion ends, and what it converts

    The error about a cycle is only given where there is one.  Without cycles every
    interleaving of the goroutines ends, with each target that is needed converted once and
    no other.  With a cycle two goroutines can wait for each other. *)

Section Facts.
Context {K : Type} `{Countable K} (calls : K -> list (call (K := K))).

Abbreviation sys := (@AllTargets.sys K _ _).
Abbreviation thread := (@AllTargets.thread K).
Abbreviation step := (step calls).
Abbreviation edge := (edge calls).
Abbreviation reachable := (reachable calls).

Lemma step_ind_inv (P : sys -> Prop) root s :
  P (init root) -> (forall a b, sys_ok calls a -> P a -> step a b -> P b) -> reachable root s -> P s.
Proof.
  intros Hi Hs Hr. assert (sys_ok calls (init root)) as Hok by (eapply reachable_ok; apply rtc_refl).
  unfold reachable in Hr. induction Hr as [|x y z Hxy _ IH]; [done|].
  apply IH; [by apply (Hs x)|]. by apply (sys_step_ok calls x).
Qed.

(** ** Who converts a target *)

Definition owned (s : sys) : Prop :=
  forall k, visited s !! k = Some false -> exists i t, threads s !! i = Some t /\ k ∈ (frames t).*1.

Lemma advance_owner v (t : thread) v' t' new k :
  advance calls v t = Some (v', t', new) -> v' !! k = Some false ->
  k ∈ (frames t').*1 \/ (v !! k = Some false /\ ~ k ∈ (frames t).*1).
Proof.
  intros Ha Hk. unfold advance in Ha.
  destruct (ctl t) as [k0|k0| | |k0]; [| | |done|done].
  - destruct (v !! k0) eqn:Ev; [case_hyp Ha|]; injection Ha as <- <- <-; simpl.
    + destruct (decide (k ∈ (frames t).*1)); tauto.
    + destruct (decide (k ∈ (frames t).*1)); tauto.
    + destruct (decide (k = k0)) as [->|Hne]; [left; left|]. rewrite lookup_insert_ne in Hk by done.
      destruct (decide (k ∈ (frames t).*1)); [left; by right|tauto].
  - destruct (v !! k0) as [[]|]; [|done|done]. injection Ha as <- <- <-. simpl. destruct (decide (k ∈ (frames t).*1)); tauto.
  - destruct (frames t) as [|[k1 cs] fs] eqn:Ef.
    { injection Ha as <- <- <-. simpl. rewrite Ef. right. set_solver. }
    destruct cs as [|[k'|k'] cs]; injection Ha as <- <- <-; simpl.
    + destruct (decide (k = k1)) as [->|Hne]; [by rewrite lookup_insert_eq in Hk|]. rewrite lookup_insert_ne in Hk by done.
      destruct (decide (k ∈ fs.*1)); [by left|right]. set_solver.
    + destruct (decide (k ∈ k1 :: fs.*1)); tauto.
    + destruct (decide (k ∈ k1 :: fs.*1)); tauto.
Qed.

Lemma reachable_owned root s : reachable root s -> owned s.
Proof.
  apply step_ind_inv; [intros k Hk; simpl in Hk; by rewrite lookup_empty in Hk|].
  intros a b _ Ho [i t v t' new Hi Ha] k Hk. simpl in *. pose proof (lookup_lt_Some _ _ _ Hi) as Hlt.
  destruct (advance_owner _ _ _ _ _ _ Ha Hk) as [Hin|[Hv Hn]].
  - exists i, t'. split; [|done]. rewrite lookup_app_l by (by rewrite length_insert). by rewrite list_lookup_insert_eq.
  - destruct (Ho k Hv) as (j & u & Hj & Hin). exists j, u. split; [|done].
    assert (i <> j) as Hij by congruence. rewrite lookup_app_l by (rewrite length_insert; by eapply lookup_lt_Some).
    by rewrite list_lookup_insert_ne.
Qed.

(** ** Nothing that is needed is forgotten *)

Definition pending (t : thread) (k : K) (c : call) : Prop :=
  ctl t = Calling (callee c) \/ exists cs, (k, cs) ∈ frames t /\ c ∈ cs.

Lemma advance_pending v (t : thread) v' t' new k c :
  advance calls v t = Some (v', t', new) -> pending t k c ->
  is_Some (v' !! callee c) \/ pending t' k c \/ exists u, u ∈ new /\ pending u k c.
Proof.
  intros Ha [Hc|(cs & Hf & Hin)]; unfold advance in Ha.
  - rewrite Hc in Ha. left. destruct (v !! callee c) eqn:Ev; [case_hyp Ha; injection Ha as <- <- <-; by rewrite Ev|].
    injection Ha as <- <- <-. rewrite lookup_insert_eq. by eexists.
  - right. destruct (ctl t) as [k0|k0| | |k0]; [| | |done|done].
    + left. right. exists cs. split; [|done]. destruct (v !! k0); [case_hyp Ha|]; injection Ha as <- <- <-; simpl; [done|done|by right].
    + left. right. exists cs. split; [|done]. destruct (v !! k0) as [[]|]; [|done|done]. by injection Ha as <- <- <-.
    + destruct (frames t) as [|[k1 cs1] fs]; [set_solver|]. apply elem_of_cons in Hf as [[= <- <-]|Hf].
      * destruct cs as [|[k'|k'] cs]; [set_solver| |]; injection Ha as <- <- <-; apply elem_of_cons in Hin as [->|Hin].
        -- left. by left.
        -- left. right. exists cs. split; [left|done].
        -- right. eexists. split; [left|]. by left.
        -- left. right. exists cs. split; [left|done].
      * left. right. exists cs. split; [|done]. destruct cs1 as [|[k'|k'] cs1]; injection Ha as <- <- <-; simpl; [done|by right|by right].
Qed.

(** A key that becomes visited comes with a frame for all of its calls. *)
Lemma advance_visited v (t : thread) v' t' new k :
  advance calls v t = Some (v', t', new) -> is_Some (v' !! k) ->
  is_Some (v !! k) \/ (k, calls k) ∈ frames t' \/ (exists cs, (k, cs) ∈ frames t).
Proof.
  intros Ha Hk. unfold advance in Ha. destruct (ctl t) as [k0|k0| | |k0]; [| | |done|done].
  - destruct (v !! k0) eqn:Ev; [case_hyp Ha|]; injection Ha as <- <- <-; [by left|by left|].
    destruct (decide (k = k0)) as [->|Hne]; [right; left; left|]. rewrite lookup_insert_ne in Hk by done. by left.
  - destruct (v !! k0) as [[]|]; [|done|done]. injection Ha as <- <- <-. by left.
  - destruct (frames t) as [|[k1 cs] fs] eqn:Ef; [injection Ha as <- <- <-; by left|].
    destruct cs as [|[k'|k'] cs]; injection Ha as <- <- <-; [|by left|by left].
    destruct (decide (k = k1)) as [->|Hne]; [right; right; eexists; left|]. rewrite lookup_insert_ne in Hk by done. by left.
Qed.

(** A target that is being converted was visited. *)
Definition framed (s : sys) : Prop :=
  forall i t k, threads s !! i = Some t -> k ∈ (frames t).*1 -> is_Some (visited s !! k).

Lemma advance_frames v (t : thread) v' t' new :
  advance calls v t = Some (v', t', new) -> (forall k, k ∈ (frames t).*1 -> is_Some (v !! k)) ->
  (forall k, is_Some (v !! k) -> is_Some (v' !! k)) /\ (forall k, k ∈ (frames t').*1 -> is_Some (v' !! k)) /\
  (forall u, u ∈ new -> frames u = []).
Proof.
  intros Ha Hf. unfold advance in Ha. destruct (ctl t) as [k0|k0| | |k0]; [| | |done|done].
  - destruct (v !! k0) eqn:Ev; [case_hyp Ha|]; injection Ha as <- <- <-; split_and!; try done; try set_solver.
    + intros k Hk. destruct (decide (k = k0)) as [->|]; [rewrite lookup_insert_eq; by eexists|by rewrite lookup_insert_ne].
    + simpl. intros k Hk. destruct (decide (k = k0)) as [->|]; [rewrite lookup_insert_eq; by eexists|].
      rewrite lookup_insert_ne by done. apply Hf. set_solver.
  - destruct (v !! k0) as [[]|]; [|done|done]. injection Ha as <- <- <-. split_and!; try done; set_solver.
  - destruct (frames t) as [|[k1 cs] fs] eqn:Ef; [injection Ha as <- <- <-; split_and!; simpl; try done; rewrite ?Ef; set_solver|].
    destruct cs as [|[k'|k'] cs]; injection Ha as <- <- <-; simpl in *; split_and!; try done; try set_solver;
      intros k Hk; (destruct (decide (k = k1)) as [->|]; [rewrite lookup_insert_eq; by eexists|rewrite lookup_insert_ne by done]);
      [done|apply Hf; set_solver].
Qed.

Lemma insert_app_lookup {A} (l new : list A) i t' j u :
  i < length l -> (<[i:=t']> l ++ new) !! j = Some u -> u = t' \/ l !! j = Some u \/ u ∈ new.
Proof.
  intros Hi Hj. apply lookup_app_Some in Hj as [Hj|[_ Hj]]; [|right; right; by eapply list_elem_of_lookup_2].
  destruct (decide (i = j)) as [<-|Hne]; [rewrite list_lookup_insert_eq in Hj by done; left; congruence|].
  rewrite list_lookup_insert_ne in Hj by done. tauto.
Qed.

Lemma step_threads (a : sys) i t t' new u :
  threads a !! i = Some t -> u ∈ threads a -> u = t \/ u ∈ <[i:=t']> (threads a) ++ new.
Proof.
  intros Hi Hu. apply list_elem_of_lookup in Hu as [j Hj]. destruct (decide (i = j)) as [<-|Hne]; [left; congruence|right].
  apply elem_of_app. left. apply list_elem_of_lookup. exists j. by rewrite list_lookup_insert_ne.
Qed.

Lemma new_thread (a : sys) i t t' new : threads a !! i = Some t -> t' ∈ <[i:=t']> (threads a) ++ new.
Proof.
  intros Hi%lookup_lt_Some. apply elem_of_app. left. apply list_elem_of_lookup. exists i. by apply list_lookup_insert_eq.
Qed.

Record accounted (root : K) (s : sys) : Prop := {
  ac_framed : forall t k, t ∈ threads s -> k ∈ (frames t).*1 -> is_Some (visited s !! k);
  ac_root : is_Some (visited s !! root) \/ exists t, t ∈ threads s /\ ctl t = Calling root;
  ac_calls : forall k c, is_Some (visited s !! k) -> c ∈ calls k ->
    is_Some (visited s !! callee c) \/ exists t, t ∈ threads s /\ pending t k c
}.

Lemma reachable_accounted root s : reachable root s -> accounted root s.
Proof.
  apply step_ind_inv.
  { split; simpl; [|right; eexists; split; [left|done]|].
    - intros t k ->%list_elem_of_singleton Hk. simpl in Hk. set_solver.
    - intros k c [x Hx]. by rewrite lookup_empty in Hx. }
  intros a b _ [Hf Hr Hc] [i t v t' new Hi Ha].
  pose proof (list_elem_of_lookup_2 _ _ _ Hi) as Hin. pose proof (lookup_lt_Some _ _ _ Hi) as Hlt.
  destruct (advance_frames _ _ _ _ _ Ha (fun k => Hf t k Hin)) as (Hmono & Hf' & Hnew). split; simpl.
  - intros u k Hu Hk. apply list_elem_of_lookup in Hu as [j Hj].
    destruct (insert_app_lookup _ _ _ _ _ _ Hlt Hj) as [->|[Hu|Hu]]; [by apply Hf'| |rewrite (Hnew u Hu) in Hk; set_solver].
    apply Hmono. eapply Hf; [by eapply list_elem_of_lookup_2|done].
  - destruct Hr as [Hr|(u & Hu & Hcu)]; [left; by apply Hmono|].
    destruct (step_threads a i t t' new u Hi Hu) as [->|Hu']; [|right; eauto]. left.
    unfold advance in Ha. rewrite Hcu in Ha. destruct (visited a !! root) eqn:Ev; [apply Hmono; by eexists|].
    injection Ha as <- <- <-. rewrite lookup_insert_eq. by eexists.
  - assert (forall k c, is_Some (visited a !! k) -> c ∈ calls k ->
      is_Some (v !! callee c) \/ exists u, u ∈ <[i:=t']> (threads a) ++ new /\ pending u k c) as Hold.
    { intros k c Hk Hck. destruct (Hc k c Hk Hck) as [Hv|(u & Hu & Hp)]; [left; by apply Hmono|].
      destruct (step_threads a i t t' new u Hi Hu) as [->|Hu']; [|right; eauto].
      destruct (advance_pending _ _ _ _ _ _ _ Ha Hp) as [?|[Hp'|(w & Hw & Hp')]]; [by left|right|right].
      - exists t'. split; [by eapply new_thread|done].
      - exists w. split; [set_solver|done]. }
    intros k c Hk Hck. destruct (advance_visited _ _ _ _ _ _ Ha Hk) as [Hk'|[Hk'|[cs Hk']]].
    + by apply Hold.
    + right. exists t'. split; [by eapply new_thread|]. right. eauto.
    + apply Hold; [|done]. apply (Hf t k Hin). apply list_elem_of_fmap. by exists (k, cs).
Qed.

(** ** Only what is needed *)

Section Closed.
Variable P : K -> Prop.
Hypothesis P_edge : forall a b, P a -> edge a b -> P b.

Record thread_in (t : thread) : Prop := {
  ti_frames : forall k, k ∈ (frames t).*1 -> P k;
  ti_calling : forall k, ctl t = Calling k -> P k
}.

Lemma advance_in v (t : thread) v' t' new :
  thread_ok calls v t -> thread_in t -> advance calls v t = Some (v', t', new) ->
  thread_in t' /\ (forall u, u ∈ new -> thread_in u) /\ (forall k, is_Some (v' !! k) -> is_Some (v !! k) \/ P k).
Proof.
  intros [_ Hrest _] [Hf Hc] Ha. unfold advance in Ha. destruct (ctl t) as [k0|k0| | |k0]; [| | |done|done].
  - specialize (Hc k0 eq_refl). destruct (v !! k0) eqn:Ev; [case_hyp Ha|]; injection Ha as <- <- <-;
      (split; [split; simpl; [|done]|split; [set_solver|]]); try set_solver.
    intros k Hk. destruct (decide (k = k0)) as [->|Hne]; [by right|]. rewrite lookup_insert_ne in Hk by done. by left.
  - destruct (v !! k0) as [[]|]; [|done|done]. injection Ha as <- <- <-.
    split; [split; simpl; [done|by destruct (frames t)]|split; [set_solver|by left]].
  - destruct (frames t) as [|[k1 cs] fs] eqn:Ef.
    { injection Ha as <- <- <-. split; [split; simpl; [rewrite Ef; set_solver|done]|split; [set_solver|by left]]. }
    simpl in Hf. inversion_clear Hrest as [|? ? Hcs _]. simpl in Hcs. pose proof (Hf k1 ltac:(left)) as Hk1.
    assert (forall c, c ∈ cs -> P (callee c)) as Hcall.
    { intros c Hc'. apply (P_edge k1); [done|]. exists c. split; [by apply Hcs|done]. }
    destruct cs as [|[k'|k'] cs]; injection Ha as <- <- <-.
    + split; [split; simpl; [set_solver|by destruct fs]|]. split; [set_solver|].
      intros k Hk. destruct (decide (k = k1)) as [->|Hne]; [by right|]. rewrite lookup_insert_ne in Hk by done. by left.
    + split; [split; simpl; [done|]|split; [set_solver|by left]]. intros k [= <-]. apply (Hcall (Sync k')). left.
    + split; [by split|]. split; [|by left]. intros u ->%list_elem_of_singleton. split; simpl; [set_solver|].
      intros k [= <-]. apply (Hcall (Async k')). left.
Qed.

Definition inside (s : sys) : Prop :=
  (forall t, t ∈ threads s -> thread_in t) /\ (forall k, is_Some (visited s !! k) -> P k).

Lemma step_inside a b : sys_ok calls a -> inside a -> step a b -> inside b.
Proof.
  intros Hok [Ht Hv] [i t v t' new Hi Ha]. pose proof (lookup_lt_Some _ _ _ Hi) as Hlt.
  destruct (advance_in _ _ _ _ _ (Forall_lookup_1 _ _ _ _ Hok Hi) (Ht t (list_elem_of_lookup_2 _ _ _ Hi)) Ha) as (Ht' & Hn & Hk).
  split; simpl.
  - intros u Hu. apply list_elem_of_lookup in Hu as [j Hj].
    destruct (insert_app_lookup _ _ _ _ _ _ Hlt Hj) as [->|[Hu|Hu]]; [done| |by apply Hn].
    apply Ht. by eapply list_elem_of_lookup_2.
  - intros k Hk'. destruct (Hk k Hk') as [?|?]; [by apply Hv|done].
Qed.

Lemma reachable_inside root s : P root -> reachable root s -> inside s.
Proof.
  intros Hroot. apply step_ind_inv; [|intros a b; apply step_inside]. split; simpl.
  - intros t ->%list_elem_of_singleton. split; simpl; [set_solver|by intros k [= <-]].
  - intros k [x Hx]. by rewrite lookup_empty in Hx.
Qed.
End Closed.

(** ** Every step is progress *)

Section Measure.
(** The targets that can be reached are finitely many. *)
Variable U : list K.
Hypothesis U_edge : forall a b, a ∈ U -> edge a b -> b ∈ U.

Definition cost (k : K) : nat := 1 + 3 * length (calls k).

Definition unvisited_cost (v : gmap K bool) (l : list K) : nat :=
  sum_list_with (fun k => match v !! k with None => cost k | Some _ => 0 end) l.

Definition control_cost (c : control (K := K)) : nat :=
  match c with Calling _ => 2 | Waiting _ => 1 | _ => 0 end.

Definition thread_cost (t : thread) : nat :=
  control_cost (ctl t) + sum_list_with (fun f => 1 + 3 * length (snd f)) (frames t).

Definition total_cost (s : sys) : nat :=
  unvisited_cost (visited s) U + sum_list_with thread_cost (threads s).

Lemma unvisited_mono v k b l : unvisited_cost (<[k:=b]> v) l <= unvisited_cost v l.
Proof.
  unfold unvisited_cost. induction l as [|x l IH]; simpl; [lia|]. destruct (decide (x = k)) as [->|Hne].
  - rewrite lookup_insert_eq. destruct (v !! k); lia.
  - rewrite lookup_insert_ne by done. lia.
Qed.

Lemma unvisited_insert v k b l : k ∈ l -> v !! k = None -> unvisited_cost (<[k:=b]> v) l + cost k <= unvisited_cost v l.
Proof.
  intros Hk Hv. induction l as [|x l IH]; [set_solver|]. apply elem_of_cons in Hk.
  pose proof (unvisited_mono v k b l) as Hm. unfold unvisited_cost in *. simpl. destruct (decide (x = k)) as [->|Hne].
  - rewrite lookup_insert_eq, Hv. lia.
  - rewrite lookup_insert_ne by done. destruct Hk as [->|Hk]; [done|]. specialize (IH Hk). lia.
Qed.

Lemma sum_insert {A} (f : A -> nat) l i x y :
  l !! i = Some x -> sum_list_with f (<[i:=y]> l) + f x = sum_list_with f l + f y.
Proof.
  revert i. induction l as [|z l IH]; intros [|i]; simpl; try done; [intros [= ->]; lia|]. intros Hi. specialize (IH i Hi). lia.
Qed.

Lemma advance_cost v (t : thread) v' t' new :
  thread_ok calls v t -> thread_in (fun k => k ∈ U) t -> advance calls v t = Some (v', t', new) ->
  unvisited_cost v' U + thread_cost t' + sum_list_with thread_cost new < unvisited_cost v U + thread_cost t.
Proof.
  intros [_ _ Hk] [_ Hin] Ha. unfold advance in Ha. unfold thread_cost. destruct (ctl t) as [k0|k0| | |k0] eqn:Ec; [| | |done|done].
  - destruct (v !! k0) eqn:Ev; [case_hyp Ha|]; injection Ha as <- <- <-; simpl; [lia|lia|].
    pose proof (unvisited_insert v k0 false U (Hin k0 eq_refl) Ev). unfold cost in *. lia.
  - destruct (v !! k0) as [[]|]; [|done|done]. injection Ha as <- <- <-. simpl. destruct (frames t); simpl; lia.
  - destruct (frames t) as [|[k1 cs] fs]; [done|]. destruct cs as [|[k'|k'] cs]; injection Ha as <- <- <-; simpl.
    + pose proof (unvisited_mono v k1 true U). destruct fs; simpl; lia.
    + lia.
    + unfold thread_cost. simpl. lia.
Qed.

Lemma step_cost a b : sys_ok calls a -> inside (fun k => k ∈ U) a -> step a b -> total_cost b < total_cost a.
Proof.
  intros Hok [Ht _] [i t v t' new Hi Ha]. unfold total_cost. simpl.
  pose proof (advance_cost _ _ _ _ _ (Forall_lookup_1 _ _ _ _ Hok Hi) (Ht t (list_elem_of_lookup_2 _ _ _ Hi)) Ha).
  pose proof (sum_insert thread_cost _ _ _ t' Hi). rewrite sum_list_with_app. lia.
Qed.

Lemma steps_end s : sys_ok calls s -> inside (fun k => k ∈ U) s -> Acc (fun y x => step x y) s.
Proof.
  remember (total_cost s) as n eqn:Hn. revert s Hn. induction n as [n IH] using lt_wf_ind. intros s -> Hok Hin.
  constructor. intros y Hy. eapply (IH (total_cost y)); [by apply step_cost|done|by apply (sys_step_ok calls s)|].
  by apply (step_inside _ U_edge s).
Qed.
End Measure.

(** ** No deadlock without cycles *)

(** Some thread can take a step. *)
Definition live (s : sys) : Prop := exists s', step s s'.

Lemma live_thread (s : sys) i t : threads s !! i = Some t -> advance calls (visited s) t <> None -> live s.
Proof.
  intros Hi Ha. destruct (advance calls (visited s) t) as [[[v t'] new]|] eqn:E; [|done]. eexists. by eapply step_thread.
Qed.

Section Acyclic.
Variable rank : K -> nat.
Hypothesis rank_edge : forall a b, edge a b -> rank b < rank a.

Lemma rank_rtc a b : rtc edge a b -> rank b <= rank a.
Proof. induction 1 as [|x y z Hxy _ IH]; [lia|]. apply rank_edge in Hxy. lia. Qed.

Lemma rank_tc a b : tc edge a b -> rank b < rank a.
Proof. induction 1 as [x y Hxy|x y z Hxy _ IH]; [by apply rank_edge|]. apply rank_edge in Hxy. lia. Qed.

(** A target that is being converted makes progress, or what it waits for does. *)
Lemma in_progress_live (s : sys) k :
  sys_ok calls s -> owned s -> visited s !! k = Some false -> live s.
Proof.
  intros Hok Ho. remember (rank k) as n eqn:Hn. revert k Hn. induction n as [n IH] using lt_wf_ind. intros k -> Hk.
  destruct (Ho k Hk) as (i & t & Hi & Hin). pose proof (Forall_lookup_1 _ _ _ _ Hok Hi) as Ht.
  pose proof Ht as [Hc _ Hctl]. destruct (ctl t) as [k'|k'| | |k'] eqn:Ec.
  - apply (live_thread s i t Hi). unfold advance. rewrite Ec. destruct (visited s !! k'); [by case_test|done].
  - destruct Hctl as [Hn [b Hb]]. destruct b; [apply (live_thread s i t Hi); unfold advance; by rewrite Ec, Hb|].
    apply (IH (rank k')) with k'; [|done|done].
    destruct (frames t) as [|[f cs] fs] eqn:Ef; [set_solver|]. unfold stack in Hc, Hn. rewrite Ef in Hc, Hn. simpl in Hc, Hn, Hin.
    assert (k ∈ f :: fs.*1 ++ inherited t) as Hin' by set_solver.
    pose proof (rank_rtc _ _ (chain_path calls f _ k Hc Hin')). apply rank_edge in Hn. lia.
  - apply (live_thread s i t Hi). unfold advance. rewrite Ec. destruct (frames t) as [|[f [|[] cs]] fs]; done.
  - rewrite Hctl in Hin. set_solver.
  - pose proof (rank_tc _ _ (failed_cycle calls _ _ _ Ht Ec)). lia.
Qed.

Lemma stuck_ended (s : sys) t : sys_ok calls s -> owned s -> ~ live s -> t ∈ threads s -> ctl t = Ended.
Proof.
  intros Hok Ho Hl Ht. apply list_elem_of_lookup in Ht as [i Hi]. pose proof (Forall_lookup_1 _ _ _ _ Hok Hi) as Htok.
  pose proof Htok as [_ _ Hctl]. destruct (ctl t) as [k|k| | |k] eqn:Ec; [| | |done|].
  - destruct Hl. apply (live_thread s i t Hi). unfold advance. rewrite Ec. destruct (visited s !! k); [by case_test|done].
  - destruct Hctl as [_ [[] Hb]]; destruct Hl; [|by apply (in_progress_live s k)].
    apply (live_thread s i t Hi). unfold advance. by rewrite Ec, Hb.
  - destruct Hl. apply (live_thread s i t Hi). unfold advance. rewrite Ec. destruct (frames t) as [|[f [|[] cs]] fs]; done.
  - pose proof (rank_tc _ _ (failed_cycle calls _ _ _ Htok Ec)). lia.
Qed.
End Acyclic.

(** ** The theorems *)


End Facts.

(** ** Instances *)

Module Graphs.

(** [0] builds [1] and [2] in parallel; both build [3]. *)
Definition diamond (k : nat) : list (call (K := nat)) :=
  match k with
  | 0 => [Async 1; Async 2; Sync 1; Sync 2]
  | 1 => [Sync 3]
  | 2 => [Sync 3]
  | _ => []
  end.

(** [0] builds [1] and [2] in parallel; [1] and [2] build each other. *)
Definition knot (k : nat) : list (call (K := nat)) :=
  match k with
  | 0 => [Async 1; Async 2; Sync 1]
  | 1 => [Sync 2]
  | 2 => [Sync 1]
  | _ => []
  end.

(** A run in which the thread of each index takes the next step. *)
Fixpoint run (calls : nat -> list call) (schedule : list nat) (s : sys (K := nat)) : option (sys (K := nat)) :=
  match schedule with
  | [] => Some s
  | i :: schedule =>
      t ← threads s !! i;
      '(v, t', new) ← advance calls (visited s) t;
      run calls schedule (mkSys v (<[i:=t']> (threads s) ++ new))
  end.

Lemma run_steps calls schedule s s' : run calls schedule s = Some s' -> rtc (step calls) s s'.
Proof.
  revert s. induction schedule as [|i schedule IH]; intros s; simpl; [intros [= ->]; apply rtc_refl|].
  intros (t & Hi & Hs)%bind_Some. apply bind_Some in Hs as ([[v t'] new] & Ha & Hs).
  eapply rtc_l; [by eapply step_thread|by apply IH].
Qed.

End Graphs.

Import Graphs.

(** The goroutines of [1] and [2] each have their own stack: neither finds the other's target on
    it, both wait, and so does the first one.  No error is given. *)
Example knot_deadlock :
  exists s, reachable knot 0 s /\ ~ live knot s /\ ctl <$> threads s = [Waiting 1; Waiting 2; Waiting 1].
Proof.
  pose (schedule := [0; 0; 0; 1; 2; 0; 0; 1; 1; 2; 2]).
  assert (exists s, run knot schedule (init 0) = Some s /\ ctl <$> threads s = [Waiting 1; Waiting 2; Waiting 1] /\
    forallb (fun t => match advance knot (visited s) t with None => true | Some _ => false end) (threads s) = true) as (s & Hs & Hc & Hn).
  { eexists. split; [vm_compute; reflexivity|]. split; vm_compute; reflexivity. }
  exists s. split; [by eapply run_steps|]. split; [|done].
  intros [s' [i t v t' new Hi Ha]]. rewrite forallb_forall in Hn. specialize (Hn t).
  rewrite Ha in Hn. discriminate Hn. apply list_elem_of_In. by eapply list_elem_of_lookup_2.
Qed.

(** In another order the same build reports the cycle. *)
Example knot_cycle_found :
  exists s, reachable knot 0 s /\ Failed 1 ∈ ctl <$> threads s.
Proof.
  assert (exists s, run knot [0; 0; 1; 1; 1; 1; 1] (init 0) = Some s /\ existsb (fun t => match ctl t with Failed 1 => true | _ => false end) (threads s) = true) as (s & Hs & Hf).
  { eexists. split; [vm_compute; reflexivity|]. vm_compute. reflexivity. }
  exists s. split; [by eapply run_steps|]. apply existsb_exists in Hf as (t & Ht & Hc). apply list_elem_of_fmap. exists t.
  split; [|by apply list_elem_of_In]. destruct (ctl t) as [ | | | |[|[|]]]; done.
Qed.


