(* ===== verification/StatsStream.v ===== *)
(** * The stream of execution statistics

    A translation of [util/statsstreamparser/parser.go]: a parser that is fed the bytes of a
    stream as they arrive, and returns the packets that are complete.  A packet is the byte 1,
    the length of its payload in four bytes, the lowest first, and the payload, JSON that a
    parameter reads.

    However the stream is cut, the packets come out whole and in order. *)

From S2P Require Import Prelude GoStrings Outcome.

Section StatsStream.
Context {Stats : Type} (json_Unmarshal : string -> Stats + string).

Definition maxPayloadSize : Z := 10 * 1024 * 1024.

Record Parser : Type := mkParser { buf : string; hasReadVersion : bool }.

Definition New : Parser := mkParser "" false.

(** [binary.LittleEndian.Uint32] *)
Definition Uint32 (s : string) : option Z :=
  match s with
  | String a (String b (String c (String d _))) =>
      Some (byteZ a + 256 * byteZ b + 65536 * byteZ c + 16777216 * byteZ d)%Z
  | _ => None
  end.

Definition version_error (c : ascii) : string := "stats stream parser: unexpected protocol version " +:+ pretty (byteZ c).
Definition length_error (n : Z) : string :=
  "stats stream parser: payload length exceeds " +:+ pretty maxPayloadSize +:+ " bytes: " +:+ pretty n.

(** What the version byte leaves: [None] to go on. *)
Definition read_version (p : Parser) : Parser * option (option string) :=
  if hasReadVersion p then (p, None)
  else match buf p with
  | "" => (p, Some None)
  | String c rest =>
      if (byteZ c =? 1)%Z then (mkParser rest true, None) else (mkParser rest false, Some (Some (version_error c)))
  end.

(** The loop; a packet that is not complete stays in the buffer. *)
Fixpoint loop (fuel : nat) (p : Parser) (stats : list Stats) : Parser * (list Stats + string) :=
  match fuel with
  | O => (p, inl stats)
  | S fuel =>
      match read_version p with
      | (p, Some None) => (p, inl stats)
      | (p, Some (Some e)) => (p, inr e)
      | (p, None) =>
          match Uint32 (buf p) with
          | None => (p, inl stats)
          | Some n =>
              if (n <? 0)%Z || (maxPayloadSize <? n)%Z then (p, inr (length_error n))
              else if (String.length (buf p) <? 4 + Z.to_nat n)%nat then (p, inl stats)
              else
                let payload := slice 4 (4 + Z.to_nat n) (buf p) in
                let p := mkParser (sdrop (4 + Z.to_nat n) (buf p)) (hasReadVersion p) in
                match json_Unmarshal payload with
                | inr e => (p, inr ("stats stream parser: unmarshal stats: " +:+ e))
                | inl st => loop fuel (mkParser (buf p) false) (stats ++ [st])
                end
          end
      end
  end.

Definition Parse (p : Parser) (b : string) : Parser * (list Stats + string) :=
  let p := mkParser (buf p +:+ b) (hasReadVersion p) in loop (S (String.length (buf p))) p [].

(** ** Packets *)

Definition byte_of (n : Z) : ascii := ascii_of_N (Z.to_N n).

Definition le32 (n : Z) : string :=
  String (byte_of (n mod 256)) (String (byte_of ((n / 256) mod 256))
    (String (byte_of ((n / 65536) mod 256)) (String (byte_of ((n / 16777216) mod 256)) ""))).

Definition packet (payload : string) : string :=
  String (byte_of 1) (le32 (Z.of_nat (String.length payload)) +:+ payload).

Lemma byteZ_byte_of n : (0 <= n < 256)%Z -> byteZ (byte_of n) = n.
Proof. intros Hn. unfold byteZ, byte_of. rewrite N_ascii_embedding by lia. lia. Qed.

Lemma Uint32_le32 n s : (0 <= n < 2 ^ 32)%Z -> Uint32 (le32 n +:+ s) = Some n.
Proof.
  intros Hn. unfold le32. rewrite !sapp_cons. cbn [Uint32].
  rewrite !byteZ_byte_of by (apply Z.mod_pos_bound; lia). f_equal.
  pose proof (Z.div_mod n 256). pose proof (Z.div_mod (n / 256) 256). pose proof (Z.div_mod (n / 65536) 256).
  rewrite !Z.div_div in * by lia. change (256 * 256)%Z with 65536%Z in *. change (65536 * 256)%Z with 16777216%Z in *.
  rewrite (Z.mod_small (n / 16777216) 256) by (split; [apply Z.div_pos; lia|apply Z.div_lt_upper_bound; lia]). lia.
Qed.

Lemma length_le32 n : String.length (le32 n) = 4.
Proof. done. Qed.

(** The packet that stands first is taken off. *)
Lemma loop_packet fuel payload st s stats :
  json_Unmarshal payload = inl st -> (Z.of_nat (String.length payload) <= maxPayloadSize)%Z ->
  loop (S fuel) (mkParser (packet payload +:+ s) false) stats = loop fuel (mkParser s false) (stats ++ [st]).
Proof.
  intros Hj Hlen. unfold maxPayloadSize in Hlen. set (n := Z.of_nat (String.length payload)) in *.
  cbn [loop]. unfold packet. fold n. rewrite sapp_cons. unfold read_version. cbn [hasReadVersion buf].
  rewrite byteZ_byte_of by lia. change (1 =? 1)%Z with true. cbn [buf hasReadVersion].
  rewrite <- sapp_assoc, Uint32_le32 by (unfold n; lia). unfold maxPayloadSize.
  rewrite (proj2 (Z.ltb_ge n 0)), (proj2 (Z.ltb_ge _ n)) by lia. cbn [orb].
  rewrite (proj2 (Nat.ltb_ge _ _)) by (rewrite !length_sapp, length_le32; unfold n; lia).
  assert (slice 4 (4 + Z.to_nat n) (le32 n +:+ payload +:+ s) = payload) as ->.
  { unfold slice. replace (4 + Z.to_nat n - 4) with (String.length payload) by (unfold n; lia).
    rewrite <- (length_le32 n), sdrop_sapp. apply stake_sapp. }
  rewrite Hj. assert (sdrop (4 + Z.to_nat n) (le32 n +:+ payload +:+ s) = s) as ->; [|done].
  rewrite <- sdrop_sdrop, <- (length_le32 n), sdrop_sapp. replace (Z.to_nat n) with (String.length payload) by (unfold n; lia).
  apply sdrop_sapp.
Qed.

(** ** The loop without its fuel *)

Definition run (p : Parser) (stats : list Stats) : Parser * (list Stats + string) := loop (S (String.length (buf p))) p stats.

(** The part after the version byte. *)
Definition body (k : Parser -> list Stats -> Parser * (list Stats + string)) (s : string) (stats : list Stats) :
  Parser * (list Stats + string) :=
  let p := mkParser s true in
  match Uint32 s with
  | None => (p, inl stats)
  | Some n =>
      if (n <? 0)%Z || (maxPayloadSize <? n)%Z then (p, inr (length_error n))
      else if (String.length s <? 4 + Z.to_nat n)%nat then (p, inl stats)
      else
        match json_Unmarshal (slice 4 (4 + Z.to_nat n) s) with
        | inr e => (mkParser (sdrop (4 + Z.to_nat n) s) true, inr ("stats stream parser: unmarshal stats: " +:+ e))
        | inl st => k (mkParser (sdrop (4 + Z.to_nat n) s) false) (stats ++ [st])
        end
  end.

Lemma loop_enough n m p stats :
  String.length (buf p) < n -> String.length (buf p) < m -> loop n p stats = loop m p stats.
Proof.
  revert m p stats. induction n as [|n IH]; intros [|m] p stats Hn Hm; try lia. cbn [loop].
  destruct (read_version p) as [p' [o|]] eqn:Ev; [done|].
  assert (String.length (buf p') <= String.length (buf p)) as Hle.
  { unfold read_version in Ev. destruct (hasReadVersion p); [by injection Ev as <-|]. destruct (buf p); [done|].
    case_hyp Ev; [|done]. injection Ev as <-. simpl. lia. }
  destruct (Uint32 (buf p')) as [z|]; [|done]. case_test; [done|]. destruct (_ <? _)%nat eqn:El; [done|].
  apply Nat.ltb_ge in El. destruct (json_Unmarshal _); [|done]. apply IH; cbn [buf]; rewrite length_sdrop; lia.
Qed.

Lemma run_true s stats : run (mkParser s true) stats = body run s stats.
Proof.
  unfold run at 1, body. cbn [loop read_version hasReadVersion buf]. destruct (Uint32 s) as [n|]; [|done].
  case_test; [done|]. destruct (_ <? _)%nat eqn:El; [done|]. destruct (json_Unmarshal _); [|done].
  apply Nat.ltb_ge in El. unfold run. apply loop_enough; cbn [buf]; rewrite length_sdrop; lia.
Qed.

Lemma run_false s stats :
  run (mkParser s false) stats =
    match s with
    | "" => (mkParser "" false, inl stats)
    | String c rest =>
        if (byteZ c =? 1)%Z then run (mkParser rest true) stats else (mkParser rest false, inr (version_error c))
    end.
Proof.
  destruct s as [|c rest]; [done|]. rewrite run_true. unfold run at 1. cbn [buf String.length].
  remember (S (String.length rest)) as f eqn:Hf. cbn [loop]. unfold read_version. cbn [hasReadVersion buf].
  destruct (byteZ c =? 1)%Z; [|done]. cbn [buf hasReadVersion]. unfold body. destruct (Uint32 rest) as [n|]; [|done].
  case_test; [done|]. destruct (_ <? _)%nat eqn:El; [done|]. apply Nat.ltb_ge in El. destruct (json_Unmarshal _); [|done].
  unfold run. apply loop_enough; cbn [buf]; rewrite length_sdrop; lia.
Qed.

Definition app_buf (p : Parser) (b : string) : Parser := mkParser (buf p +:+ b) (hasReadVersion p).

Lemma Uint32_app s b n : Uint32 s = Some n -> Uint32 (s +:+ b) = Some n.
Proof. destruct s as [|? [|? [|? [|? s]]]]; try done. Qed.

Lemma stake_app_le n s b : n <= String.length s -> stake n (s +:+ b) = stake n s.
Proof.
  revert s. induction n as [|n IH]; intros [|c s] Hn; cbn [String.length] in Hn; [done|done|lia|]. rewrite sapp_cons. cbn [stake].
  f_equal. apply IH. lia.
Qed.

Lemma sdrop_app_le n s b : n <= String.length s -> sdrop n (s +:+ b) = sdrop n s +:+ b.
Proof.
  revert s. induction n as [|n IH]; intros s Hn; [by rewrite !sdrop_0|]. destruct s as [|c s]; cbn [String.length] in Hn; [lia|].
  rewrite sapp_cons. cbn [sdrop]. apply IH. lia.
Qed.

(** A packet that is complete is not changed by what follows it. *)
Lemma body_app s b stats n :
  Uint32 s = Some n -> (n <? 0)%Z || (maxPayloadSize <? n)%Z = false -> (String.length s <? 4 + Z.to_nat n)%nat = false ->
  body run (s +:+ b) stats =
    match json_Unmarshal (slice 4 (4 + Z.to_nat n) s) with
    | inr e => (mkParser (sdrop (4 + Z.to_nat n) s +:+ b) true, inr ("stats stream parser: unmarshal stats: " +:+ e))
    | inl st => run (mkParser (sdrop (4 + Z.to_nat n) s +:+ b) false) (stats ++ [st])
    end.
Proof.
  intros Hn Hr Hl. unfold body. rewrite (Uint32_app s b n Hn), Hr. apply Nat.ltb_ge in Hl.
  rewrite (proj2 (Nat.ltb_ge _ _)) by (rewrite length_sapp; lia).
  assert (slice 4 (4 + Z.to_nat n) (s +:+ b) = slice 4 (4 + Z.to_nat n) s) as ->.
  { unfold slice. rewrite (sdrop_app_le 4) by lia. apply stake_app_le. rewrite length_sdrop. lia. }
  by rewrite sdrop_app_le by lia.
Qed.

(** Induction on the bytes that are left. *)
Lemma buffer_ind (P : Parser -> Prop) :
  (forall s, (forall t, String.length t < String.length s -> P (mkParser t false)) -> P (mkParser s true)) ->
  (forall s, (forall c rest, s = String c rest -> P (mkParser rest true)) -> P (mkParser s false)) -> forall p, P p.
Proof.
  intros Ht Hf. assert (forall n s b, String.length s <= n -> P (mkParser s b)) as Hall; [|intros [s b]; by eapply Hall].
  induction n as [|n IH]; intros s b Hn.
  - destruct s; [|simpl in Hn; lia]. destruct b; [apply Ht; simpl; lia|by apply Hf].
  - destruct b; [apply Ht; intros t Hlt; apply IH; lia|]. apply Hf. intros c rest ->. simpl in Hn. apply Ht. intros t Hlt. apply IH. lia.
Qed.

(** What the loop leaves is where it goes on when more arrives. *)
Lemma run_app p stats b :
  match run p stats with
  | (p1, inl s1) => run (app_buf p b) stats = run (app_buf p1 b) s1 /\ run p1 [] = (p1, inl [])
  | (p1, inr e) => exists p2, run (app_buf p b) stats = (p2, inr e)
  end.
Proof.
  revert stats. induction p as [s IH|s IH] using buffer_ind; intros stats.
  - unfold app_buf at 1 3. cbn [buf hasReadVersion]. rewrite !run_true. unfold body at 1.
    destruct (Uint32 s) as [n|] eqn:En; [|split; [by rewrite <- run_true|]; rewrite run_true; unfold body; by rewrite En].
    destruct ((n <? 0)%Z || _) eqn:Er.
    { unfold body. rewrite (Uint32_app s b n En), Er. by eexists. }
    destruct (String.length s <? _)%nat eqn:El.
    { split; [by rewrite <- run_true|]. rewrite run_true. unfold body. by rewrite En, Er, El. }
    rewrite (body_app s b stats n En Er El). apply Nat.ltb_ge in El. destruct (json_Unmarshal _) as [st|e]; [|by eexists].
    apply (IH (sdrop (4 + Z.to_nat n) s)). rewrite length_sdrop. lia.
  - unfold app_buf at 1 3. cbn [buf hasReadVersion]. rewrite (run_false s stats). destruct s as [|c rest].
    { split; [done|]. done. }
    rewrite sapp_cons, run_false. destruct (byteZ c =? 1)%Z; [|by eexists]. by apply (IH c rest eq_refl).
Qed.

Lemma run_stats p stats :
  run p stats = (fst (run p []), match snd (run p []) with inl s => inl (stats ++ s) | inr e => inr e end).
Proof.
  revert stats. induction p as [s IH|s IH] using buffer_ind; intros stats.
  - rewrite !run_true. unfold body. destruct (Uint32 s) as [n|]; [|cbn; by rewrite app_nil_r]. case_test; [done|].
    destruct (_ <? _)%nat eqn:El; [cbn; by rewrite app_nil_r|]. apply Nat.ltb_ge in El. destruct (json_Unmarshal _) as [st|e]; [|done].
    specialize (IH (sdrop (4 + Z.to_nat n) s) ltac:(rewrite length_sdrop; lia)). rewrite (IH (stats ++ [st])), (IH ([] ++ [st])). cbn [fst snd].
    destruct (snd (run _ [])); [|done]. by rewrite <- app_assoc.
  - rewrite !run_false. destruct s as [|c rest]; [cbn; by rewrite app_nil_r|]. case_test; [|done]. by apply (IH c rest eq_refl).
Qed.

(** ** A stream in pieces *)

(** The calls of [Parse], one for each piece, until the first error. *)
Fixpoint feed (p : Parser) (chunks : list string) : Parser * (list Stats + string) :=
  match chunks with
  | [] => (p, inl [])
  | c :: chunks =>
      match Parse p c with
      | (p, inr e) => (p, inr e)
      | (p, inl s) =>
          match feed p chunks with
          | (p, inl s') => (p, inl (s ++ s'))
          | r => r
          end
      end
  end.

Lemma feed_whole chunks p p' stats :
  run p [] = (p, inl []) -> run (app_buf p (sconcat chunks)) [] = (p', inl stats) -> feed p chunks = (p', inl stats).
Proof.
  revert p stats. induction chunks as [|c chunks IH]; intros p stats Hq Hr.
  - unfold app_buf in Hr. cbn [sconcat foldr] in Hr. rewrite sapp_nil_r in Hr. destruct p as [s b]. cbn [buf hasReadVersion] in Hr.
    rewrite Hq in Hr. by injection Hr as <- <-.
  - cbn [feed]. change (Parse p c) with (run (app_buf p c) []).
    pose proof (run_app (app_buf p c) [] (sconcat chunks)) as Ha.
    assert (app_buf (app_buf p c) (sconcat chunks) = app_buf p (sconcat (c :: chunks))) as Eb
      by (unfold app_buf; cbn [buf hasReadVersion sconcat foldr]; by rewrite <- sapp_assoc).
    rewrite Eb, Hr in Ha. destruct (run (app_buf p c) []) as [p1 [s1|e]]; [|by destruct Ha].
    destruct Ha as [Ha Hq1]. rewrite run_stats in Ha. injection Ha as Hp Hs.
    destruct (snd (run (app_buf p1 (sconcat chunks)) [])) as [s2|] eqn:E2; [|done].
    rewrite (IH p1 s2 Hq1); [congruence|]. rewrite (surjective_pairing (run (app_buf p1 (sconcat chunks)) [])). congruence.
Qed.

Lemma run_packets payloads stats done_ :
  Forall2 (fun payload st => json_Unmarshal payload = inl st /\ (Z.of_nat (String.length payload) <= maxPayloadSize)%Z) payloads stats ->
  run (mkParser (sconcat (packet <$> payloads)) false) done_ = (New, inl (done_ ++ stats)).
Proof.
  intros Hf. revert done_. induction Hf as [|payload st payloads stats [Hj Hl] _ IH]; intros done_.
  - unfold run. simpl. by rewrite app_nil_r.
  - unfold run. cbn [buf fmap list_fmap sconcat foldr]. rewrite (loop_packet _ _ st) by done.
    change (foldr String.append "" (packet <$> payloads)) with (sconcat (packet <$> payloads)).
    rewrite (loop_enough _ (S (String.length (sconcat (packet <$> payloads))))); [|cbn [buf]; rewrite length_sapp; simpl; lia|cbn [buf]; lia].
    specialize (IH (done_ ++ [st])). unfold run in IH. cbn [buf] in IH. rewrite IH. by rewrite <- app_assoc.
Qed.

(** C28. However the stream of packets is cut into pieces, every packet comes out, once and in
    order, no error is given and nothing is left in the parser: for all payloads that can be
    read and are not too long, and all pieces that make up their packets. *)
Theorem stream_in_pieces (chunks payloads : list string) (stats : list Stats)
  (Hpayloads : Forall2 (fun payload st => json_Unmarshal payload = inl st /\ (Z.of_nat (String.length payload) <= maxPayloadSize)%Z) payloads stats)
  (Hchunks : sconcat chunks = sconcat (packet <$> payloads)) :
  feed New chunks = (New, inl stats).
Proof.
  apply feed_whole; [done|]. unfold app_buf, New at 1. cbn [buf hasReadVersion]. rewrite sapp_nil_l, Hchunks. by apply (run_packets payloads stats []).
Qed.
End StatsStream.

(** After a payload that is not JSON the version counts as read, and the next packet is read from
    its second byte on. *)
Example out_of_step :
  let json (s : string) : unit + string := if String.eqb s "x" then inr "bad" else inl tt in
  let '(p, r) := Parse json New (packet "x") in
  r = inr "stats stream parser: unmarshal stats: bad" /\
  snd (Parse json p (packet "y")) = inl [] /\ snd (Parse json New (packet "y")) = inl [tt].
Proof. vm_compute. repeat split. Qed.

Lemma stream_in_pieces_witness :
  feed (fun s => inl s) New [stake 3 (packet "ab"); sdrop 3 (packet "ab" +:+ packet "")] = (New, inl ["ab"; ""]).
Proof. apply (stream_in_pieces (fun s => inl s) _ ["ab"; ""] ["ab"; ""]); [repeat constructor; vm_compute; discriminate|reflexivity]. Defined.
