(* ===== verification/BuildContext.v ===== *)
(** * Build contexts

    A translation of [buildcontext] apart from the lookup of remotes, which is [GitLookup.v]:
    the files that are left out ([excludes.go]), the build file ([detectbuildfile.go]), the
    resolver of local references ([local.go]), that of git references ([git.go]), [Resolve] and
    [ExpandWildcard] ([resolver.go]).

    The caches are those of [internal/synccache], used by one caller at a time: a key that was
    loaded keeps its value, or its error.  BuildKit, and the libraries for patterns, are
    parameters. *)

From stdpp Require Import gmap.
From S2P Require Import Prelude GoStrings Token GoText Numbers Ast Reference Scope FlagUtil Features Builtin.
From S2P Require Import Conditions Hasher Outcome Home GitLookup GitMeta.

(** ** The libraries and BuildKit *)

(** [llb.Git]: the URL, the reference, and the options. *)
Record GitState : Type := mkGitState {
  gs_url : string; gs_ref : string;
  gs_KnownSSHHosts : option string; gs_LFSInclude : option string; gs_SSHCommand : option string; gs_LogLevel : option Z
}.

(** A state that can be solved: a clone, or the directory [/dest] of the commands that are run on
    a clone in an image. *)
Inductive BkState : Type :=
| CloneState (g : GitState)
| MetaState (image : string) (g : GitState).

(** A reference of the gateway: [ReadDir] of a path and a pattern, the names with whether each is a
    directory, and [ReadFile]. *)
Record GwRef : Type := mkGwRef {
  rf_ReadDir : string -> string -> list (string * bool) + string;
  rf_ReadFile : string -> string + string
}.

Class ContextLibs : Type := {
  ignorefile_ReadAll : string -> list string + string;
  filepath_Match : string -> string -> bool + string;
  filepath_Glob : string -> list string + string;
  earthfile_ParseFile : string -> Tree + string;
  version_flags : flag_parser (gset string);
  (** [llbutil.StateToRef] on the native platform, which is [OS/architecture]. *)
  StateToRef : BkState -> GwRef + string;
  native_platform : string;
  (** The directory that is made by the n-th call of [os.MkdirTemp]. *)
  m_MkdirTemp : nat -> string + string;
  (** The error of [llbutil.CopyOp] of a directory of the clone, if any. *)
  CopyOp_error : GitState -> string -> option string
}.

(** ** Ignored files *)

Definition earthIgnoreFile : string := ".earthignore".
Definition earthlyIgnoreFile : string := ".earthlyignore".
Definition dockerIgnoreFile : string := ".dockerignore".
Definition buildEarthFile : string := "build.earth".
Definition EarthfileName : string := "Earthfile".
Definition DockerfileMetaTarget : string := "@dockerfile:".

Definition ImplicitExcludes : list string :=
  [".tmp-earth-out/"; buildEarthFile; EarthfileName; earthIgnoreFile; earthlyIgnoreFile].

Definition errDuplicateIgnoreFile : string := "both .earthignore and .earthlyignore exist - please remove one".

Section BuildContext.
Context {U : Unicode} {M : Machine} {R : RangeOrder} {G : GitLibs} {T : Git} {L : ContextLibs}.

Definition exists_or (path : string) : bool + string :=
  match FileExists path with
  | inl b => inl b
  | inr err => inr ("failed to check if " +:+ path +:+ " exists: " +:+ err)
  end.

(** The patterns, and the error; the one about two files comes with the implicit patterns. *)
Definition readExcludes (dir : string) (noImplicitIgnore useDockerIgnore : bool) : list string * option string :=
  match exists_or (path_Join [dir; earthIgnoreFile]) with
  | inr err => ([], Some err)
  | inl earthExists =>
      match exists_or (path_Join [dir; earthlyIgnoreFile]) with
      | inr err => ([], Some err)
      | inl earthlyExists =>
          match (if useDockerIgnore then exists_or (path_Join [dir; dockerIgnoreFile]) else inl false) with
          | inr err => ([], Some err)
          | inl dockerExists =>
              let defaultExcludes := if noImplicitIgnore then [] else ImplicitExcludes in
              let read (ignoreFile : string) :=
                let filePath := path_Join [dir; ignoreFile] in
                match m_Open filePath with
                | inr err => ([], Some ("read " +:+ filePath +:+ ": " +:+ os_text err))
                | inl (_, Some err) => ([], Some ("parse " +:+ filePath +:+ ": " +:+ os_text err))
                | inl (text, None) =>
                    match ignorefile_ReadAll text with
                    | inr err => ([], Some ("parse " +:+ filePath +:+ ": " +:+ err))
                    | inl excludes => (excludes ++ defaultExcludes, None)
                    end
                end in
              if earthExists && earthlyExists then (defaultExcludes, Some errDuplicateIgnoreFile)
              else if Bool.eqb earthExists earthlyExists then
                if negb dockerExists then (defaultExcludes, None) else read dockerIgnoreFile
              else if earthlyExists then read earthlyIgnoreFile
              else read earthIgnoreFile
          end
      end
  end.

(** ** The build file *)

Definition not_exist_error (ref : Reference) : string :=
  "No Earthfile nor build.earth file found for target " +:+ referenceString ref.

Definition detectBuildFile (ref : Reference) (localDir : string) : string + string :=
  if HasPrefix (Name ref) DockerfileMetaTarget then inl (path_Join [localDir; TrimPrefix (Name ref) DockerfileMetaTarget])
  else
    let earthfilePath := path_Join [localDir; EarthfileName] in
    match m_Stat earthfilePath with
    | inl _ => inl earthfilePath
    | inr (OtherError err) => inr ("stat file " +:+ earthfilePath +:+ ": " +:+ err)
    | inr (NotExist _) =>
        let buildEarthPath := path_Join [localDir; buildEarthFile] in
        match m_Stat buildEarthPath with
        | inl _ => inl buildEarthPath
        | inr (NotExist _) => inr (not_exist_error ref)
        | inr (OtherError err) => inr ("stat file " +:+ buildEarthPath +:+ ": " +:+ err)
        end
    end.

(** [path.Base] *)
Definition path_Base (p : string) : string :=
  if String.eqb p "" then "."
  else match snd (path_Split (TrimRight p "/")) with "" => "/" | f => f end.

Definition fileExists (ref : GwRef) (fpath : string) : bool + string :=
  let '(dir, file) := path_Split fpath in
  match rf_ReadDir ref dir file with
  | inr err => inr ("cannot read dir " +:+ dir +:+ ": " +:+ err)
  | inl fstats => inl (existsb (fun '(p, isDir) => String.eqb (path_Base p) file && negb isDir) fstats)
  end.

Definition detectBuildFileInRef (earthRef : Reference) (ref : GwRef) (subDir : string) : string + string :=
  if HasPrefix (Name earthRef) DockerfileMetaTarget then inl (path_Join [subDir; TrimPrefix (Name earthRef) DockerfileMetaTarget])
  else
    let earthfilePath := path_Join [subDir; EarthfileName] in
    match fileExists ref earthfilePath with
    | inr err => inr err
    | inl true => inl earthfilePath
    | inl false =>
        let buildEarthPath := path_Join [subDir; buildEarthFile] in
        match fileExists ref buildEarthPath with
        | inr err => inr err
        | inl true => inl buildEarthPath
        | inl false => inr (not_exist_error earthRef)
        end
    end.

(** ** The root of a project *)

Definition hasEarthfile (dir : string) : bool :=
  match m_Stat (path_Join [dir; EarthfileName]) with inl fi => negb (st_IsDir fi) | inr _ => false end.

Definition withLocalPath (ref : Reference) (newLocalPath : string) : Reference :=
  mkRef (kind ref) (GitURL ref) (Tag ref) newLocalPath (ImportRef ref) (Name ref).

(** The loop: up from a directory, until one has an Earthfile. *)
Fixpoint find_root (fuel : nat) (curr : string) : option string :=
  match fuel with
  | O => None
  | S fuel =>
      if hasEarthfile curr then Some curr
      else let parent := Dir curr in if String.eqb parent curr then None else find_root fuel parent
  end.

Definition resolveLocalRootEarthfile (ref : Reference) : Reference :=
  if IsRemote ref || IsImportReference ref || negb (String.eqb (Clean (LocalPath ref)) ".") ||
     HasPrefix (Name ref) DockerfileMetaTarget then ref
  else match m_Getwd with
  | inr _ => ref
  | inl cwd =>
      match find_root (S (String.length cwd)) cwd with
      | None => ref
      | Some curr =>
          match m_Rel cwd curr with
          | inr _ => withLocalPath ref curr
          | inl relPath =>
              withLocalPath ref (if negb (HasPrefix relPath ".") && negb (IsAbs relPath) then "./" +:+ relPath else relPath)
          end
      end
  end.

(** ** What is resolved *)

Record buildFile : Type := mkBuildFile { bf_path : string; bf_ftrs : Features }.

(** The factory of the build context: a local directory without some patterns, or a directory of
    a clone. *)
Inductive Context : Type :=
| LocalContext (path : string) (excludes : list string)
| CloneContext (state : GitState)
| CopyContext (state : GitState) (subDir : string).

Record Data : Type := mkData {
  d_BuildContext : option Context;
  d_Ref : option Reference;
  d_GitMetadata : option GitMetadata;
  d_LocalDirs : list (string * string);
  d_Features : Features;
  d_BuildFilePath : string;
  d_Earthfile : option Tree
}.

(** [resolvedGitProject] *)
Record GitProject : Type := mkProject {
  gp_hash : string; gp_shortHash : string; gp_contentHash : string;
  gp_branches : list string; gp_tags : list string; gp_committerTs : string; gp_authorTs : string;
  gp_authorEmail : string; gp_authorName : string; gp_coAuthors : list string; gp_refs : list string;
  gp_state : GitState; earthfilePaths : list string
}.

(** What does not change: the fields of the resolvers that come from the command line and the
    configuration, and the order in which the protocols are looked for. *)
Record Settings : Type := mkSettings {
  gitBranchOverride : string; lfsInclude : string; gitImage : string; logLevel : Z;
  featureFlagOverrides : string; protocols : list (string * Protocol)
}.

(** The caches of the resolvers; the lookup of remotes; the entries that goroutines still have to
    store in [projectCache], each goroutine with its entries in turn; the number of temporary
    directories that were asked for and those that the clean-up will remove. *)
Record Resolver : Type := mkResolver {
  gitMetaCache : gmap string (option GitMetadata + git_error);
  buildFileCache : gmap string (buildFile + string);
  parseCache : gmap string (Tree + string);
  projectCache : gmap string (GitProject + string);
  gitFileCache : gmap string (buildFile + string);
  gitLookup : GitLookup;
  stores : list (list (string * GitProject));
  temps : nat;
  cleanups : list string
}.

Definition NewResolver (gl : GitLookup) : Resolver := mkResolver ∅ ∅ ∅ ∅ ∅ gl [] 0 [].

Definition with_local (r : Resolver) (metas : gmap string (option GitMetadata + git_error)) (files : gmap string (buildFile + string)) :
  Resolver :=
  mkResolver metas files (parseCache r) (projectCache r) (gitFileCache r) (gitLookup r) (stores r) (temps r) (cleanups r).

Definition with_trees (r : Resolver) (trees : gmap string (Tree + string)) : Resolver :=
  mkResolver (gitMetaCache r) (buildFileCache r) trees (projectCache r) (gitFileCache r) (gitLookup r) (stores r) (temps r)
    (cleanups r).

Definition with_projects (r : Resolver) (gl : GitLookup) (projects : gmap string (GitProject + string))
  (sts : list (list (string * GitProject))) : Resolver :=
  mkResolver (gitMetaCache r) (buildFileCache r) (parseCache r) projects (gitFileCache r) gl sts (temps r) (cleanups r).

Definition with_git_files (r : Resolver) (files : gmap string (buildFile + string)) (n : nat) (dirs : list string) : Resolver :=
  mkResolver (gitMetaCache r) (buildFileCache r) (parseCache r) (projectCache r) files (gitLookup r) (stores r) n dirs.

(** [Load] of a cache. *)
Definition cache_load {V} (c : gmap string V) (key : string) (loader : V) : gmap string V * V :=
  match c !! key with Some v => (c, v) | None => (<[key:=loader]> c, loader) end.

Definition isDockerfile (ref : Reference) : bool := HasPrefix (Name ref) DockerfileMetaTarget.

Definition no_features : Features := mkFeatures ∅ 0 0.

(** [parseFeatures] of a file, or no features for a Dockerfile. *)
Definition features_of (cfg : Settings) (ref : Reference) (path projectRef : string) : buildFile + string :=
  if isDockerfile ref then inl (mkBuildFile path no_features)
  else match read_file path with
  | inr err => inr err
  | inl text =>
      match parseFeatures version_flags text path (featureFlagOverrides cfg) projectRef with
      | Ok (f, _) => inl (mkBuildFile path f)
      | Err err => inr err
      | NoFuel => inr ""
      end
  end.

(** ** Local references *)

(** The errors of [Metadata] that are no reason to stop. *)
Definition tolerated (e : Sentinel) : bool :=
  match e with ErrCouldNotDetectGitContentHash => false | _ => true end.

Definition load_metadata (cfg : Settings) (path : string) : option GitMetadata + git_error :=
  match Metadata path (gitBranchOverride cfg) with
  | (meta, None) => inl meta
  | (meta, Some err) => if match ge_is err with Some e => tolerated e | None => false end then inl meta else inr err
  end.

Definition load_build_file (cfg : Settings) (ref : Reference) : buildFile + string :=
  match detectBuildFile ref (LocalPath ref) with
  | inr err => inr err
  | inl path => features_of cfg ref path (LocalPath ref)
  end.

(** [ctxFeatures] are the features of the context of the call, when there are any, and
    [gateway] says whether there is a client of BuildKit: completion has none. *)
Definition resolveLocal (cfg : Settings) (gateway : bool) (ctxFeatures : option Features) (ref : Reference) (r : Resolver) :
  Resolver * (Data + string) :=
  if IsRemote ref then (r, inr ("unexpected remote target " +:+ referenceString ref))
  else
    let '(metas, meta) := cache_load (gitMetaCache r) (LocalPath ref) (load_metadata cfg (LocalPath ref)) in
    let r := with_local r metas (buildFileCache r) in
    match meta with
    | inr err => (r, inr (ge_text err))
    | inl metadata =>
        let key := if isDockerfile ref then referenceString ref else LocalPath ref in
        let '(files, bf) := cache_load (buildFileCache r) key (load_build_file cfg ref) in
        let r := with_local r (gitMetaCache r) files in
        match bf with
        | inr err => (r, inr err)
        | inl bf =>
            let data ctx := mkData ctx None metadata [] (bf_ftrs bf) (bf_path bf) None in
            if negb gateway || negb (bool_decide (kind ref = KTarget)) then (r, inl (data None))
            else
              let useDockerIgnore := isDockerfile ref &&
                match ctxFeatures with Some f => has "use-docker-ignore" f | None => true end in
              match readExcludes (LocalPath ref) (has "no-implicit-ignore" (bf_ftrs bf)) useDockerIgnore with
              | (_, Some err) => (r, inr err)
              | (excludes, None) => (r, inl (data (Some (LocalContext (LocalPath ref) excludes))))
              end
        end
    end.

(** ** Git references *)

Definition isNotHead (s : string) : bool := negb (String.eqb s "") && negb (String.eqb s "HEAD").

(** The machine of the image, as [uname -m] prints it. *)
Definition img_arch (unameM : string) : string :=
  if existsb (String.eqb unameM) ["aarch64"; "arm64"] then "arm64"
  else if existsb (String.eqb unameM) ["x86"; "x86_64"; "x64"; "amd64"] then "amd64"
  else "".

Definition defaultGitImage : string := "alpine/git:v2.54.0".

Definition metaFiles : list string :=
  ["git-hash"; "git-short-hash"; "git-content-hash"; "git-default-branch"; "git-tags"; "git-committer-ts"; "git-author-ts";
   "git-author-email"; "git-author-name"; "git-body"; "git-refs"; "Earthfile-paths"].

(** The branches: the one that is checked out, or what the reference says when it is not the
    hash, or the default. *)
Definition git_branches (gitBranch gitRef shortHash defaultBranch : string) : list string :=
  match List.filter isNotHead (SplitN2 gitBranch NL) with
  | [] =>
      if negb (String.eqb gitRef "") then (if negb (HasPrefix gitRef shortHash) then [gitRef] else [])
      else [first_line defaultBranch]
  | l => l
  end.

Definition non_empty (s : string) : option string := if String.eqb s "" then None else Some s.
Definition hosts_option (keyScans : list string) : option string :=
  match keyScans with [] => None | _ => Some (Join keyScans NLs) end.

Definition project_of (cfg : Settings) (meta : string -> string) (gitBranch gitURL gitRef : string) (keyScans : list string) : GitProject :=
  let hash := first_line (meta "git-hash") in
  let shortHash := first_line (meta "git-short-hash") in
  {| gp_hash := hash; gp_shortHash := shortHash;
     gp_contentHash := first_line (meta "git-content-hash");
     gp_branches := git_branches gitBranch gitRef shortHash (meta "git-default-branch");
     gp_tags := List.filter isNotHead (SplitN2 (meta "git-tags") NL);
     gp_committerTs := first_line (meta "git-committer-ts"); gp_authorTs := first_line (meta "git-author-ts");
     gp_authorEmail := first_line (meta "git-author-email"); gp_authorName := first_line (meta "git-author-name");
     gp_coAuthors := ParseCoAuthorsFromBody (meta "git-body");
     gp_refs := fold_left add_ref (Split (meta "git-refs") NL) [];
     gp_state := mkGitState gitURL hash (hosts_option keyScans) (non_empty (lfsInclude cfg)) None None;
     earthfilePaths := Split (TrimSpace (meta "Earthfile-paths")) NL |}.

(** The files of the metadata, read in turn. *)
Fixpoint read_meta (ref : GwRef) (names : list string) : gmap string string + string :=
  match names with
  | [] => inl ∅
  | n :: names =>
      match rf_ReadFile ref n with
      | inr err => inr ("read " +:+ n +:+ ": " +:+ err)
      | inl text => match read_meta ref names with inl m => inl (<[n:=text]> m) | inr err => inr err end
      end
  end.

Definition readGitBranch (cfg : Settings) (ref : GwRef) : string + string :=
  if negb (String.eqb (gitBranchOverride cfg) "") then inl (gitBranchOverride cfg) else rf_ReadFile ref "git-branch".

(** The loader of [projectCache]. *)
Definition load_project (cfg : Settings) (gitURL gitRef : string) (keyScans : list string) (sshCommand : string) :
  GitProject + string :=
  let image := match gitImage cfg with "" => defaultGitImage | i => i end in
  let clone := mkGitState gitURL gitRef (hosts_option keyScans) (non_empty (lfsInclude cfg)) (non_empty sshCommand)
                 (Some (logLevel cfg)) in
  match StateToRef (MetaState image clone) with
  | inr err => inr ("state to ref git meta: " +:+ err)
  | inl ref =>
      match rf_ReadFile ref "uname-m" with
      | inr err => inr ("read uname-m: " +:+ err)
      | inl _ =>
          match read_meta ref metaFiles with
          | inr err => inr err
          | inl m =>
              match readGitBranch cfg ref with
              | inr err => inr ("read git-branch: " +:+ err)
              | inl gitBranch => inl (project_of cfg (fun n => default "" (m !! n)) gitBranch gitURL gitRef keyScans)
              end
          end
      end
  end.

Definition cache_key (gitURL gitRef : string) : string := ScrubCredentials gitURL +:+ "#" +:+ gitRef.

(** The entries for the branch and for the tag, which a goroutine adds. *)
Definition aliases (gitURL : string) (p : GitProject) : list (string * GitProject) :=
  match gp_branches p with b :: _ => [(cache_key gitURL b, p)] | [] => [] end ++
  match gp_tags p with t :: _ => [(cache_key gitURL t, p)] | [] => [] end.

Definition resolveGitProject (cfg : Settings) (ref : Reference) (r : Resolver) :
  Resolver * outcome string (GitProject * string * string) :=
  let gitRef := Tag ref in
  let '(gl, url) := GetCloneURL (protocols cfg) (GitURL ref) (gitLookup r) in
  let r := with_projects r gl (projectCache r) (stores r) in
  match url with
  | GoPanic t => (r, GoPanic t)
  | GoErr err => (r, GoErr ("failed to get url for cloning: " +:+ err))
  | GoOk (gitURL, subDir, keyScans, sshCommand) =>
      let key := cache_key gitURL gitRef in
      match projectCache r !! key with
      | Some (inl p) => (r, GoOk (p, gitURL, subDir))
      | Some (inr err) => (r, GoErr err)
      | None =>
          match load_project cfg gitURL gitRef keyScans sshCommand with
          | inr err => (with_projects r gl (<[key:=inr err]> (projectCache r)) (stores r), GoErr err)
          | inl p =>
              (with_projects r gl (<[key:=inl p]> (projectCache r)) (stores r ++ [aliases gitURL p]), GoOk (p, gitURL, subDir))
          end
      end
  end.

(** A goroutine stores its next entry: [Store] leaves a key that is there as it is. *)
Definition run_store (i : nat) (r : Resolver) : Resolver :=
  match stores r !! i with
  | Some ((key, p) :: rest) =>
      let projects := match projectCache r !! key with Some _ => projectCache r | None => <[key:=inl p]> (projectCache r) end in
      with_projects r (gitLookup r) projects (<[i:=rest]> (stores r))
  | _ => r
  end.

Definition project_metadata (cfg : Settings) (gitURL subDir : string) (p : GitProject) : GitMetadata :=
  {| CommitterTimestamp := gp_committerTs p; AuthorTimestamp := gp_authorTs p; RemoteURL := gitURL; git_URL := "";
     git_Hash := gp_hash p; ShortHash := gp_shortHash p; ContentHash := gp_contentHash p; RelDir := subDir;
     AuthorName := gp_authorName p; AuthorEmail := gp_authorEmail p; BaseDir := ""; Branch := gp_branches p;
     Tags := gp_tags p; CoAuthors := gp_coAuthors p; Refs := gp_refs p;
     BranchOverrideTagArg := negb (String.eqb (gitBranchOverride cfg) "") |}.

(** The loader of the build file of a clone: the number of temporary directories, those to remove,
    and the file. *)
Definition load_git_file (cfg : Settings) (ref : Reference) (p : GitProject) (subDir : string) (r : Resolver) :
  nat * list string * (buildFile + string) :=
  match m_MkdirTemp (temps r) with
  | inr err => (S (temps r), cleanups r, inr ("create temp dir for Earthfile: " +:+ err))
  | inl earthfileTmpDir =>
      (S (temps r), cleanups r ++ [earthfileTmpDir],
       match StateToRef (CloneState (gp_state p)) with
       | inr err => inr ("state to ref git meta: " +:+ err)
       | inl gitState =>
           match detectBuildFileInRef ref gitState subDir with
           | inr err => inr err
           | inl bf =>
               match rf_ReadFile gitState bf with
               | inr err => inr ("read build file: " +:+ err)
               | inl bfBytes =>
                   let localBuildFilePath := path_Join [earthfileTmpDir; path_Base bf] in
                   match m_WriteFile localBuildFilePath bfBytes with
                   | Some err => inr ("write build file to tmp dir at " +:+ localBuildFilePath +:+ ": " +:+ err)
                   | None => features_of cfg ref localBuildFilePath (referenceProjectCanonical ref)
                   end
               end
           end
       end)
  end.

Definition failed_project (err : string) : string :=
  "failed resolving git project [platform: " +:+ native_platform +:+ "]: " +:+ err.

Definition resolveEarthProject (cfg : Settings) (ref : Reference) (r : Resolver) : Resolver * outcome string Data :=
  if negb (IsRemote ref) then (r, GoErr ("unexpected local reference " +:+ referenceString ref))
  else
    let '(r, project) := resolveGitProject cfg ref r in
    match project with
    | GoPanic t => (r, GoPanic t)
    | GoErr err => (r, GoErr (failed_project err))
    | GoOk (rgp, gitURL, subDir) =>
        let context :=
          if negb (bool_decide (kind ref = KTarget)) then inl None
          else if String.eqb subDir "." then inl (Some (CloneContext (gp_state rgp)))
          else match CopyOp_error (gp_state rgp) subDir with
          | Some err => inr ("copyOp failed in resolveEarthProject: " +:+ err)
          | None => inl (Some (CopyContext (gp_state rgp) subDir))
          end in
        match context with
        | inr err => (r, GoErr err)
        | inl context =>
            let key := if isDockerfile ref then referenceStringCanonical ref else referenceProjectCanonical ref in
            let data bf := mkData context None (Some (project_metadata cfg gitURL subDir rgp)) [] (bf_ftrs bf) (bf_path bf) None in
            match gitFileCache r !! key with
            | Some (inr err) => (r, GoErr err)
            | Some (inl bf) => (r, GoOk (data bf))
            | None =>
                let '(n, dirs, bf) := load_git_file cfg ref rgp subDir r in
                (with_git_files r (<[key:=bf]> (gitFileCache r)) n dirs,
                 match bf with inr err => GoErr err | inl bf => GoOk (data bf) end)
            end
        end
    end.

(** ** [Resolve] *)

Definition of_sum {A} (x : A + string) : outcome string A := match x with inl a => GoOk a | inr err => GoErr err end.

Definition Resolve (cfg : Settings) (gateway : bool) (ctxFeatures : option Features) (ref : Reference) (r : Resolver) :
  Resolver * outcome string Data :=
  if IsUnresolvedImportReference ref then
    (r, GoErr ("cannot resolve non-dereferenced import ref " +:+ referenceString ref))
  else
    let ref := resolveLocalRootEarthfile ref in
    let localDirs :=
      if negb (IsRemote ref) && bool_decide (kind ref = KTarget) then [(LocalPath ref, LocalPath ref)] else [] in
    let '(r, d) :=
      if IsRemote ref then resolveEarthProject cfg ref r
      else let '(r, d) := resolveLocal cfg gateway ctxFeatures ref r in (r, of_sum d) in
    match d with
    | GoPanic t => (r, GoPanic t)
    | GoErr err => (r, GoErr err)
    | GoOk d =>
        let finish tree := mkData (d_BuildContext d) (Some (ReferenceWithGitMeta ref (d_GitMetadata d))) (d_GitMetadata d)
                             localDirs (d_Features d) (d_BuildFilePath d) tree in
        if isDockerfile ref then (r, GoOk (finish None))
        else
          let path := Clean (d_BuildFilePath d) in
          let '(trees, tree) := cache_load (parseCache r) path (earthfile_ParseFile path) in
          (with_trees r trees, match tree with inr err => GoErr err | inl t => GoOk (finish (Some t)) end)
    end.

(** ** Wildcards *)

Fixpoint wildcard_matches (fullPattern subDir : string) (paths : list string) : list string + string :=
  match paths with
  | [] => inl []
  | p :: paths =>
      let p := TrimSuffix p "/Earthfile" in
      match filepath_Match fullPattern p with
      | inr err => inr err
      | inl ok =>
          match wildcard_matches fullPattern subDir paths with
          | inr err => inr err
          | inl l => inl (if ok : bool then TrimPrefix p ("./" +:+ subDir +:+ "/") :: l else l)
          end
      end
  end.

(** [gitResolver.expandWildcard] *)
Definition expandWildcard (cfg : Settings) (target : Reference) (pattern : string) (r : Resolver) :
  Resolver * outcome string (list string) :=
  if negb (IsRemote target) then (r, GoErr ("unexpected local reference " +:+ referenceString target))
  else
    let '(r, project) := resolveGitProject cfg target r in
    match project with
    | GoPanic t => (r, GoPanic t)
    | GoErr err => (r, GoErr (failed_project err))
    | GoOk (rgp, _, subDir) =>
        let fullPattern := path_Join [subDir; pattern] in
        let fullPattern := if negb (HasPrefix fullPattern ".") then "./" +:+ fullPattern else fullPattern in
        (r, of_sum (wildcard_matches fullPattern subDir (earthfilePaths rgp)))
    end.

(** [fileutil.GlobDirs]: the directories among the matches. *)
Fixpoint glob_dirs (matches : list string) : list string + string :=
  match matches with
  | [] => inl []
  | m :: matches =>
      match m_Stat m with
      | inr err => inr ("failed to stat expanded path " +:+ Quote m +:+ ": " +:+ os_text err)
      | inl st =>
          match glob_dirs matches with
          | inr err => inr err
          | inl l => inl (if st_IsDir st then m :: l else l)
          end
      end
  end.

Definition GlobDirs (pattern : string) : list string + string :=
  match filepath_Glob pattern with
  | inr err => inr ("failed to expand glob path " +:+ Quote pattern +:+ ": " +:+ err)
  | inl matches => glob_dirs matches
  end.

Fixpoint relative_to (base : string) (matches : list string) : list string + string :=
  match matches with
  | [] => inl []
  | m :: matches =>
      match m_Rel base m with
      | inr err => inr ("failed to resolve relative path: " +:+ err)
      | inl rel => match relative_to base matches with inl l => inl (rel :: l) | inr err => inr err end
      end
  end.

Definition ExpandWildcard (cfg : Settings) (parentTarget target : Reference) (r : Resolver) :
  Resolver * outcome string (list string) :=
  if IsRemote parentTarget then
    match expandWildcard cfg parentTarget (LocalPath target) r with
    | (r, GoErr err) => (r, GoErr ("failed to expand remote BUILD target path: " +:+ err))
    | res => res
    end
  else match JoinReferences parentTarget target with
  | Err err => (r, GoErr ("failed to join references: " +:+ err))
  | NoFuel => (r, GoErr "")
  | Ok ref =>
      match GlobDirs (LocalPath ref) with
      | inr err => (r, GoErr ("failed to expand BUILD target path: " +:+ err))
      | inl matches => (r, of_sum (relative_to (LocalPath parentTarget) matches))
      end
  end.

End BuildContext.

(** * What resolving a reference gives

    The search for the root of a project ends, and finds the nearest directory with an
    Earthfile; the patterns that are left out, for each of the files that may be there; a local
    reference that was resolved is resolved again to the same, from the caches.  Of git
    references: what is in the cache of projects, whatever was resolved and whenever the
    goroutines stored their entries; every temporary directory is removed in the end. *)

From S2P Require Import Config.

(** ** Parents *)

(** The directory of a stack of components, and those above it. *)
Fixpoint ancestors (st : list string) : list string :=
  stack_text true st :: match st with [] => [] | _ :: st => ancestors st end.

Lemma path_Split_no_slash (c : string) : GoText.no_byte slash c = true -> path_Split c = ("", c).
Proof.
  induction c as [|a c IH]; [done|]. simpl. intros [Ha Hc]%andb_true_iff. apply negb_true_iff in Ha.
  rewrite IH by done. simpl. by rewrite Ha.
Qed.

Lemma path_Split_sep (a c : string) : GoText.no_byte slash c = true -> path_Split (a +:+ "/" +:+ c) = (a +:+ "/", c).
Proof.
  intros Hc. induction a as [|x a IH].
  - rewrite !sapp_nil_l, sapp_cons, sapp_nil_l. cbn [path_Split]. by rewrite path_Split_no_slash.
  - rewrite !(sapp_cons x a). cbn [path_Split]. rewrite IH. destruct (String.eqb_spec (a +:+ "/") "") as [E|]; [|done].
    apply (f_equal String.length) in E. rewrite length_sapp in E. simpl in E. lia.
Qed.

Lemma stack_text_cons (c : string) (st : list string) :
  stack_text true (c :: st) = (if bool_decide (st = []) then "" else stack_text true st) +:+ "/" +:+ c.
Proof.
  unfold stack_text. cbn [rev]. destruct (decide (st = [])) as [->|Hne]; [by rewrite bool_decide_true|].
  rewrite bool_decide_false by done. rewrite <- sapp_assoc. f_equal.
  assert (forall l, l <> [] -> Join (l ++ [c]) "/" = Join l "/" +:+ "/" +:+ c) as Hj.
  { induction l as [|x l IH]; [done|]. intros _. destruct l as [|y l]; [done|].
    change ((x :: y :: l) ++ [c]) with (x :: ((y :: l) ++ [c])). cbn [Join] in *. rewrite (IH ltac:(done)).
    destruct ((y :: l) ++ [c]) eqn:E; [done|]. by rewrite <- !sapp_assoc. }
  apply Hj. intros E. apply Hne. apply (f_equal (@rev _)) in E. by rewrite rev_involutive in E.
Qed.

Lemma clean_tail (c : string) (st : list string) : clean_stack true (c :: st) -> clean_stack true st /\ GoText.no_byte slash c = true /\ c <> "".
Proof.
  intros (ns & n & He & Hns & Hn). specialize (Hn eq_refl). subst n. rewrite app_nil_r in He. subst ns.
  inversion_clear Hns as [|? ? (H1 & _ & _ & H2) Hst]. split_and!; [|done|done]. exists st, 0. by rewrite app_nil_r.
Qed.

Lemma Dir_stack (c : string) (st : list string) : clean_stack true (c :: st) -> Dir (stack_text true (c :: st)) = stack_text true st.
Proof.
  intros Hc. pose proof (clean_tail c st Hc) as (Hst & Hb & _). unfold Dir. rewrite stack_text_cons, path_Split_sep by done.
  cbn [fst]. case_bool_decide as E; [by subst|]. rewrite Clean_text. destruct (stack_text_read true st Hst) as [Ha Hp].
  assert (stack_text true st <> "") as Hne by done.
  rewrite <- (sapp_nil_r "/") at 1 2. rewrite IsAbs_app, path_stack_app by done. rewrite Ha, Hp. done.
Qed.

Section Facts.
Context {U : Unicode} {M : Machine} {R : RangeOrder} {G : GitLibs} {T : Git} {L : ContextLibs}.

Lemma find_root_nearest fuel st :
  clean_stack true st -> length st < fuel -> find_root fuel (stack_text true st) = List.find hasEarthfile (ancestors st).
Proof.
  revert fuel. induction st as [|c st IH]; intros [|fuel] Hc Hf; try (simpl in Hf; lia).
  - cbn [find_root ancestors List.find]. by destruct (hasEarthfile _).
  - cbn [find_root ancestors List.find]. destruct (hasEarthfile (stack_text true (c :: st))); [done|].
    rewrite Dir_stack by done. pose proof (clean_tail c st Hc) as (Hst & _ & Hne).
    destruct (String.eqb_spec (stack_text true st) (stack_text true (c :: st))) as [E|_].
    + destruct (stack_text_read true st Hst) as [_ H1], (stack_text_read true (c :: st) Hc) as [_ H2].
      rewrite E, H2 in H1. apply (f_equal length) in H1. simpl in H1. lia.
    + apply IH; [done|]. simpl in Hf. lia.
Qed.

Lemma length_stack st : clean_stack true st -> length st <= String.length (stack_text true st).
Proof.
  induction st as [|c st IH]; intros Hc; [simpl; lia|]. pose proof (clean_tail c st Hc) as (Hst & _ & Hne). specialize (IH Hst).
  rewrite stack_text_cons, !length_sapp. destruct c; [done|]. case_bool_decide; subst; simpl in *; lia.
Qed.

(** The reference to the root of a project is that of the nearest directory, from the working
    directory up, that has an Earthfile; the search always ends. *)
Lemma root_is_nearest ref st :
  clean_stack true st -> m_Getwd = inl (stack_text true st) ->
  IsRemote ref = false -> IsImportReference ref = false -> Clean (LocalPath ref) = "." -> isDockerfile ref = false ->
  resolveLocalRootEarthfile ref =
    match List.find hasEarthfile (ancestors st) with
    | None => ref
    | Some dir =>
        match m_Rel (stack_text true st) dir with
        | inr _ => withLocalPath ref dir
        | inl rel => withLocalPath ref (if negb (HasPrefix rel ".") && negb (IsAbs rel) then "./" +:+ rel else rel)
        end
    end.
Proof.
  intros Hst Hwd Hr Hi Hl Hd. unfold resolveLocalRootEarthfile. unfold isDockerfile in Hd. rewrite Hr, Hi, Hl, Hd, Hwd.
  cbn [orb negb String.eqb]. rewrite find_root_nearest; [done|done|]. pose proof (length_stack st Hst). lia.
Qed.

(** ** Caches *)

Lemma cache_again {V} (c : gmap string V) key v w :
  let r := cache_load c key v in cache_load (fst r) key w = r.
Proof.
  cbv zeta. unfold cache_load at 2 3. destruct (c !! key) eqn:E; cbn [fst]; unfold cache_load; [by rewrite E|].
  by rewrite lookup_insert_eq.
Qed.

(** What [resolveLocal] keeps, and that it looks at its own caches only. *)
Lemma resolveLocal_again cfg gw cf ref r t :
  let '(r', d) := resolveLocal cfg gw cf ref r in resolveLocal cfg gw cf ref (with_trees r' t) = (with_trees r' t, d).
Proof.
  unfold resolveLocal. destruct (IsRemote ref); [done|].
  pose proof (cache_again (gitMetaCache r) (LocalPath ref) (load_metadata cfg (LocalPath ref)) (load_metadata cfg (LocalPath ref))) as H1.
  cbv zeta in H1. destruct (cache_load (gitMetaCache r) _ _) as [metas [meta|e]]; cbn [fst] in H1;
    [|cbn [with_trees with_local gitMetaCache buildFileCache]; by rewrite H1].
  cbv zeta. cbn [with_local buildFileCache gitMetaCache].
  set (key := if isDockerfile ref then referenceString ref else LocalPath ref).
  pose proof (cache_again (buildFileCache r) key (load_build_file cfg ref) (load_build_file cfg ref)) as H2. cbv zeta in H2.
  destruct (cache_load (buildFileCache r) key _) as [files [bf|e]]; cbn [fst] in H2.
  - case_test; [cbn [with_trees with_local gitMetaCache buildFileCache]; by rewrite H1, H2|].
    destruct (readExcludes _ _ _) as [ex [e|]] eqn:Ee; cbn [with_trees with_local gitMetaCache buildFileCache];
      by rewrite H1, H2, Ee.
  - cbn [with_trees with_local gitMetaCache buildFileCache]. by rewrite H1, H2.
Qed.

(** A local reference is resolved once: resolving it again, on the same machine, gives the same
    data or the same error and changes nothing. *)
Lemma Resolve_again cfg gw cf ref r :
  IsRemote (resolveLocalRootEarthfile ref) = false ->
  let '(r', d) := Resolve cfg gw cf ref r in Resolve cfg gw cf ref r' = (r', d).
Proof.
  intros Hrem. unfold Resolve. case_test; [done|]. rewrite Hrem. set (ref' := resolveLocalRootEarthfile ref).
  pose proof (resolveLocal_again cfg gw cf ref' r) as H1.
  assert (forall r' : Resolver, with_trees r' (parseCache r') = r') as Heta by (by intros []).
  destruct (resolveLocal cfg gw cf ref' r) as [r' [d|e]]; cbn [of_sum];
    [|specialize (H1 (parseCache r')); rewrite Heta in H1; by rewrite H1].
  destruct (isDockerfile ref') eqn:Ed; [specialize (H1 (parseCache r')); rewrite Heta in H1; by rewrite H1; cbn [of_sum]|].
  set (path := Clean (d_BuildFilePath d)).
  pose proof (cache_again (parseCache r') path (earthfile_ParseFile path) (earthfile_ParseFile path)) as H3. cbv zeta in H3.
  destruct (cache_load (parseCache r') path _) as [trees tree]; cbn [fst] in H3. rewrite H1. cbn [of_sum].
  fold path. cbn [with_trees parseCache]. by rewrite H3.
Qed.

(** The patterns that are left out, when the files can be read: those of the one ignore file that
    is there, and then the implicit ones; two ignore files are an error. *)
Lemma readExcludes_spec dir noImplicit docker (earth earthly dock : bool) texts :
  FileExists (path_Join [dir; earthIgnoreFile]) = inl earth ->
  FileExists (path_Join [dir; earthlyIgnoreFile]) = inl earthly ->
  FileExists (path_Join [dir; dockerIgnoreFile]) = inl dock ->
  (forall f, m_Open (path_Join [dir; f]) = inl (texts f, None)) ->
  let implicit := if noImplicit : bool then [] else ImplicitExcludes in
  let patterns f := match ignorefile_ReadAll (texts f) with
                    | inl l => (l ++ implicit, None)
                    | inr e => ([], Some ("parse " +:+ path_Join [dir; f] +:+ ": " +:+ e))
                    end in
  readExcludes dir noImplicit docker =
    if earth && earthly then (implicit, Some errDuplicateIgnoreFile)
    else if earth then patterns earthIgnoreFile
    else if earthly then patterns earthlyIgnoreFile
    else if docker && dock then patterns dockerIgnoreFile
    else (implicit, None).
Proof.
  intros H1 H2 H3 Ht. cbv zeta. unfold readExcludes, exists_or. rewrite H1, H2, H3.
  destruct docker, earth, earthly, dock; cbn [andb Bool.eqb negb]; rewrite ?Ht; done.
Qed.

(** What [uname -m] prints ends with a newline, and no name of an architecture does. *)
Lemma img_arch_unknown m : img_arch (m +:+ NLs) = "".
Proof.
  assert (forall s, HasSuffix s NLs = false -> String.eqb (m +:+ NLs) s = false) as Hn.
  { intros s Hs. destruct (String.eqb_spec (m +:+ NLs) s) as [<-|]; [|done].
    apply not_true_iff_false in Hs. destruct Hs. apply HasSuffix_spec. by eexists. }
  unfold img_arch. cbn [existsb]. by rewrite !Hn.
Qed.

(** ** The cache of projects *)

(** An entry: a project that was loaded for the URL and the reference of the key, or one that was
    loaded for another reference and is stored under its branch or its tag; an error is that of
    loading the key itself. *)
Definition entry_ok (cfg : Settings) (key : string) (v : GitProject + string) : Prop :=
  exists url ref keys cmd, load_project cfg url ref keys cmd = v /\
  (key = cache_key url ref \/ match v with inl p => (key, p) ∈ aliases url p | inr _ => False end).

Definition cache_ok (cfg : Settings) (r : Resolver) : Prop :=
  (forall key v, projectCache r !! key = Some v -> entry_ok cfg key v) /\
  Forall (Forall (fun '(key, p) => entry_ok cfg key (inl p))) (stores r) /\
  (forall n dir, n < temps r -> m_MkdirTemp n = inl dir -> dir ∈ cleanups r).

(** What may happen to a resolver, in any order. *)
Inductive resolver_step (cfg : Settings) (r : Resolver) : Resolver -> Prop :=
| step_Resolve gw cf ref : resolver_step cfg r (fst (Resolve cfg gw cf ref r))
| step_ExpandWildcard parent target : resolver_step cfg r (fst (ExpandWildcard cfg parent target r))
| step_store i : resolver_step cfg r (run_store i r).

Lemma entry_self cfg url ref keys cmd : entry_ok cfg (cache_key url ref) (load_project cfg url ref keys cmd).
Proof. eexists _, _, _, _. split; [done|by left]. Qed.

(** A change that keeps the invariant and every project that was there. *)
Definition keeps_projects (cfg : Settings) (r r' : Resolver) : Prop :=
  (cache_ok cfg r -> cache_ok cfg r') /\ projectCache r ⊆ projectCache r'.

#[export] Instance keeps_preorder cfg : PreOrder (keeps_projects cfg).
Proof.
  split; [by intros r|]. intros r1 r2 r3 [H1 S1] [H2 S2]. split; [auto|]. by etrans.
Qed.

(** The same projects, entries to store and temporary directories. *)
Lemma projects_same cfg r r' :
  projectCache r' = projectCache r -> stores r' = stores r -> temps r' = temps r -> cleanups r' = cleanups r -> keeps_projects cfg r r'.
Proof. intros H1 H2 H3 H4. unfold keeps_projects, cache_ok. by rewrite H1, H2, H3, H4. Qed.

Lemma resolveLocal_keeps cfg gw cf ref r : keeps_projects cfg r (fst (resolveLocal cfg gw cf ref r)).
Proof.
  unfold resolveLocal. destruct (IsRemote ref); [done|]. destruct (cache_load (gitMetaCache r) _ _) as [metas [meta|e]];
    [|by apply projects_same]. cbv zeta. destruct (cache_load (buildFileCache _) _ _) as [files [bf|e]]; [|by apply projects_same].
  case_test; [by apply projects_same|]. destruct (readExcludes _ _ _) as [ex [e|]]; by apply projects_same.
Qed.

Lemma aliases_known cfg url ref keys cmd p :
  load_project cfg url ref keys cmd = inl p -> Forall (fun '(key, p) => entry_ok cfg key (inl p)) (aliases url p).
Proof.
  intros Hl. apply list.Forall_forall. intros [key q] Hq. assert (q = p) as ->.
  { unfold aliases in Hq. apply elem_of_app in Hq. destruct (gp_branches p), (gp_tags p); set_solver. }
  eexists url, ref, keys, cmd. split; [done|by right].
Qed.

Lemma resolveGitProject_keeps cfg ref r : keeps_projects cfg r (fst (resolveGitProject cfg ref r)).
Proof.
  unfold resolveGitProject. destruct (GetCloneURL _ _ _) as [gl [[[[gitURL subDir] keyScans] sshCommand]|e|t]];
    [|by apply projects_same..]. cbv zeta. cbn [with_projects projectCache stores].
  destruct (projectCache r !! cache_key gitURL (Tag ref)) as [[p|e]|] eqn:Ek; [by apply projects_same..|].
  pose proof (entry_self cfg gitURL (Tag ref) keyScans sshCommand) as Hk.
  destruct (load_project cfg gitURL (Tag ref) keyScans sshCommand) as [p|e] eqn:El;
    (split; [|cbn [fst with_projects projectCache]; by apply insert_subseteq]); intros (H1 & H2 & H3); split_and!; try done.
  - intros key v. cbn [fst with_projects projectCache]. rewrite lookup_insert_Some. intros [[<- <-]|[_ Hv]]; [done|by apply H1].
  - cbn [fst with_projects stores]. apply Forall_app. split; [done|]. constructor; [|constructor]. by eapply aliases_known.
  - intros key v. cbn [fst with_projects projectCache]. rewrite lookup_insert_Some. intros [[<- <-]|[_ Hv]]; [done|by apply H1].
Qed.

Lemma load_git_file_temps cfg ref p subDir r :
  let '(n, dirs, _) := load_git_file cfg ref p subDir r in
  n = S (temps r) /\ cleanups r ⊆ dirs /\ forall dir, m_MkdirTemp (temps r) = inl dir -> dir ∈ dirs.
Proof.
  unfold load_git_file. destruct (m_MkdirTemp (temps r)) as [dir|e]; split_and!; try done; set_solver.
Qed.

Lemma resolveEarthProject_keeps cfg ref r : keeps_projects cfg r (fst (resolveEarthProject cfg ref r)).
Proof.
  unfold resolveEarthProject. case_test; [done|]. pose proof (resolveGitProject_keeps cfg ref r) as H.
  destruct (resolveGitProject cfg ref r) as [r1 [[[rgp gitURL] subDir]|e|t]]; [|done..]. cbn [fst] in H. cbv zeta.
  destruct (if negb _ then _ else _) as [ctx|e]; [|done]. destruct (gitFileCache r1 !! _) as [[bf|e]|]; [done..|].
  pose proof (load_git_file_temps cfg ref rgp subDir r1) as Ht.
  destruct (load_git_file cfg ref rgp subDir r1) as [[n dirs] bf]. destruct Ht as (-> & Hd & Hn).
  etrans; [exact H|]. split; [|done]. intros (H1 & H2 & H3). split_and!; [done..|]. cbn [fst with_git_files temps cleanups].
  intros k dir Hk Hm. destruct (decide (k = temps r1)) as [->|]; [by apply Hn|]. apply Hd, (H3 k); [lia|done].
Qed.

Lemma Resolve_keeps cfg gw cf ref r : keeps_projects cfg r (fst (Resolve cfg gw cf ref r)).
Proof.
  unfold Resolve. case_test; [done|]. set (ref' := resolveLocalRootEarthfile ref).
  assert (keeps_projects cfg r (fst (if IsRemote ref' then resolveEarthProject cfg ref' r
    else let '(r, d) := resolveLocal cfg gw cf ref' r in (r, of_sum d)))) as H.
  { destruct (IsRemote ref'); [apply resolveEarthProject_keeps|]. pose proof (resolveLocal_keeps cfg gw cf ref' r) as H.
    by destruct (resolveLocal cfg gw cf ref' r). }
  destruct (if IsRemote ref' then _ else _) as [r1 [d|e|t]]; [|done..]. cbn [fst] in H. case_test; [done|].
  destruct (cache_load (parseCache r1) _ _) as [trees tree]. etrans; [exact H|]. by apply projects_same.
Qed.

Lemma ExpandWildcard_keeps cfg parent target r : keeps_projects cfg r (fst (ExpandWildcard cfg parent target r)).
Proof.
  unfold ExpandWildcard. case_test.
  - unfold expandWildcard. rewrite E. cbn [negb]. pose proof (resolveGitProject_keeps cfg parent r) as H.
    destruct (resolveGitProject cfg parent r) as [r1 [[[rgp gitURL] subDir]|e|t]]; [|done..].
    cbv zeta. by destruct (of_sum (wildcard_matches _ _ _)).
  - destruct (JoinReferences _ _); [|done..]. by destruct (GlobDirs _).
Qed.

Lemma run_store_keeps cfg i r : keeps_projects cfg r (run_store i r).
Proof.
  unfold run_store. destruct (stores r !! i) as [[|[key p] rest]|] eqn:Ei; [done| |done]. split.
  - intros (H1 & H2 & H3). pose proof (Forall_lookup_1 _ _ _ _ H2 Ei) as Hi. inversion_clear Hi as [|? ? Hk Hrest].
    split_and!; [|cbn [with_projects stores]; by apply Forall_insert|done].
    intros key' v. cbn [with_projects projectCache]. destruct (projectCache r !! key) eqn:Ek; [apply H1|].
    rewrite lookup_insert_Some. intros [[<- <-]|[_ Hv]]; [done|by apply H1].
  - cbn [with_projects projectCache]. destruct (projectCache r !! key) eqn:Ek; [done|]. by apply insert_subseteq.
Qed.

Lemma resolver_step_keeps cfg r r' : resolver_step cfg r r' -> keeps_projects cfg r r'.
Proof. intros []; [apply Resolve_keeps|apply ExpandWildcard_keeps|apply run_store_keeps]. Qed.


(** The clone of the build context is made without the configured ssh command, which the clone of
    the metadata has. *)
Lemma context_without_ssh_command cfg url ref keys cmd p :
  load_project cfg url ref keys cmd = inl p -> gs_SSHCommand (gp_state p) = None.
Proof.
  unfold load_project. destruct (StateToRef _) as [rf|]; [|done]. destruct (rf_ReadFile rf _); [|done].
  destruct (read_meta _ _); [|done]. destruct (readGitBranch _ _); [|done]. by intros [= <-].
Qed.

(** With an override of the branch, every project is stored under the name of the override. *)
Lemma override_alias cfg url ref keys cmd p :
  load_project cfg url ref keys cmd = inl p -> isNotHead (gitBranchOverride cfg) = true ->
  GoText.no_byte NL (gitBranchOverride cfg) = true -> (cache_key url (gitBranchOverride cfg), p) ∈ aliases url p.
Proof.
  intros Hl Hn Hb. unfold load_project in Hl. destruct (StateToRef _) as [rf|]; [|done]. destruct (rf_ReadFile rf _); [|done].
  destruct (read_meta _ _); [|done]. unfold readGitBranch in Hl.
  assert (negb (String.eqb (gitBranchOverride cfg) "") = true) as Ho by (by apply andb_true_iff in Hn as [? _]).
  rewrite Ho in Hl. injection Hl as <-. unfold aliases, project_of, git_branches. cbn [gp_branches].
  assert (SplitN2 (gitBranchOverride cfg) NL = [gitBranchOverride cfg]) as ->.
  { unfold SplitN2. assert (forall w, GoText.no_byte NL w = true -> snd (Cut w NL) = false) as Hc.
    { induction w as [|d w IH]; [done|]. intros Hd. simpl in Hd. apply andb_true_iff in Hd as [Hd Hs]. apply negb_true_iff in Hd.
      cbn [Cut]. rewrite Hd. specialize (IH Hs). by destruct (Cut w NL) as [[? ?] ?]. }
    specialize (Hc _ Hb). destruct (Cut _ NL) as [[? ?] ?]. simpl in Hc. by rewrite Hc. }
  cbn [List.filter]. rewrite Hn. set_solver.
Qed.
End Facts.

(** ** An instance *)

Import (hints) Sample.
Import (hints) GitSample.
Import (hints) GitMetaSample.

Module ContextSample.

(** Every reference of a repository has its own hash; an Earthfile at the top. *)
Definition state_files (st : BkState) (name : string) : string + string :=
  match st with
  | MetaState _ g => inl (if String.eqb name "git-hash" then "hash-of-" +:+ gs_ref g else "")
  | CloneState g => inl "VERSION 0.8"
  end.

#[export] Instance context_libs : ContextLibs := {|
  ignorefile_ReadAll := fun s => inl [s]; filepath_Match := fun p q => inl (String.eqb p q); filepath_Glob := fun p => inl [p];
  earthfile_ParseFile := fun _ => inr "no parser"; version_flags := fun l => Ok (∅, l);
  StateToRef := fun st => inl (mkGwRef (fun _ p => inl [(p, false)]) (state_files st));
  native_platform := "linux/amd64"; m_MkdirTemp := fun n => inl ("/tmp/earth-git" +:+ pretty n); CopyOp_error := fun _ _ => None
|}.

#[export] Instance range_list : RangeOrder := map_to_list.

Definition overriding : Settings := mkSettings "next" "" "" 0 "" prefixes.

Definition git_ref (tag : string) : Reference := mkRef KTarget "github.com/user/repo" tag "" "" "build".

Definition hash_of (cfg : Settings) (tag : string) (r : Resolver) : option string :=
  match snd (resolveGitProject cfg (git_ref tag) r) with GoOk (p, _, _) => Some (gp_hash p) | _ => None end.

Definition started : Resolver := NewResolver (NewGitLookup "").
Definition after_v1 (cfg : Settings) : Resolver := run_store 0 (fst (Resolve cfg true None (git_ref "v1") started)).
End ContextSample.

Import (hints) ContextSample.
Import ContextSample.

(** With the branch overridden, the project that was cloned for [v1] is also stored under the name
    of the override: a reference to that branch is then given the wrong commit. *)
Example override_mixes_up :
  hash_of overriding "next" started = Some "hash-of-next" /\ hash_of overriding "next" (after_v1 overriding) = Some "hash-of-v1".
Proof. split; vm_compute; reflexivity. Qed.

