(* ===== verification/LogBus.v ===== *)
(** * The log bus

    A translation of [logbus] ([bus.go], [run.go], [target.go], [command.go], [generic.go] and
    [formattedwriter.go]): what happens to a run is written to the bus as deltas, which are kept
    and handed to the subscribers.  Before it the messages of [logstream] (as [manifest.proto] and
    [delta.proto] declare them) and a translation of [util/deltautil/apply.go], which applies a
    delta to a manifest.

    A message that is absent is the message whose fields are zero, as the getters of the
    generated code read it; a target or a command of a delta has the fields of the manifest's,
    and those of a command come with flags that say whether they are set.  The two maps of a
    delta are visited in some order ([DeltaOrder]); the theorems say that it does not matter.
    A manifest that is set as a whole shares its maps with the delta it came from, which is not
    represented: no code sends one.

    A subscriber is a number, and what it was given is part of the state.  The handles of
    targets and commands are their identifiers.  Every method of a run, a target or a command is
    one step: the mutexes are held while the state changes, and what is written after one is
    released is written by the same step.  Times are nanoseconds.  Whether a URL means ssh is
    decided by BuildKit ([isSSH]).  Left out of the manifest of a run are the fields that only a
    server fills: the identifiers of the build, of its organization, project and user, when it
    was created and the token that resumes it. *)

From stdpp Require Import gmap.
From S2P Require Import Prelude GoStrings Token GoText Ast Reference CircBuf.

(** ** Messages *)

Inductive RunStatus : Type :=
| RUN_STATUS_UNKNOWN | RUN_STATUS_NOT_STARTED | RUN_STATUS_IN_PROGRESS | RUN_STATUS_SUCCESS | RUN_STATUS_FAILURE
| RUN_STATUS_CANCELED.

#[export] Instance RunStatus_eq_dec : EqDecision RunStatus.
Proof. solve_decision. Defined.

Inductive FailureType : Type :=
| FAILURE_TYPE_UNKNOWN | FAILURE_TYPE_OTHER | FAILURE_TYPE_NONZERO_EXIT | FAILURE_TYPE_FILE_NOT_FOUND | FAILURE_TYPE_SYNTAX
| FAILURE_TYPE_OOM_KILLED | FAILURE_TYPE_BUILDKIT_CRASHED | FAILURE_TYPE_CONNECTION_FAILURE | FAILURE_TYPE_NEEDS_PRIVILEGED
| FAILURE_TYPE_GIT | FAILURE_TYPE_RATE_LIMITED | FAILURE_TYPE_INVALID_PARAM | FAILURE_TYPE_AUTO_SKIP.

Record FailureMsg : Type := mkFailure {
  fm_Type : FailureType; fm_TargetId : string; fm_CommandId : string; fm_Output : string; fm_HelpMessage : string;
  fm_ErrorMessage : string
}.

Record TargetManifest : Type := mkTargetManifest {
  tm_Name : string; tm_CanonicalName : string; tm_OverrideArgs : list string; tm_GitUrl : string; tm_LocalPath : string;
  tm_Tag : string; tm_ImportRef : string; tm_InitialPlatform : string; tm_FinalPlatform : string; tm_Runner : string;
  tm_Status : RunStatus; tm_StartedAt : Z; tm_EndedAt : Z; tm_DependsOn : list string
}.

Definition no_target : TargetManifest := mkTargetManifest "" "" [] "" "" "" "" "" "" "" RUN_STATUS_UNKNOWN 0 0 [].

Record LogLocation : Type := mkLogLocation {
  ll_RepositoryUrl : string; ll_RepositoryHash : string; ll_File : string;
  ll_StartLine : Z; ll_StartColumn : Z; ll_EndLine : Z; ll_EndColumn : Z
}.

Record CommandTarget : Type := mkCommandTarget { ct_TargetId : string; ct_ReferencedName : string }.

Record CommandManifest : Type := mkCommandManifest {
  cm_Name : string; cm_TargetId : string; cm_Category : string; cm_Platform : string; cm_Status : RunStatus;
  cm_IsCached : bool; cm_IsLocal : bool; cm_IsInteractive : bool; cm_StartedAt : Z; cm_EndedAt : Z;
  cm_HasProgress : bool; cm_Progress : Z; cm_ErrorMessage : string; cm_SourceLocation : option LogLocation;
  cm_DependsOn : list CommandTarget
}.

Definition no_command : CommandManifest :=
  mkCommandManifest "" "" "" "" RUN_STATUS_UNKNOWN false false false 0 0 false 0 "" None [].

(** A command of a delta: the flags say which of the fields that could be zero are set. *)
Record DeltaCommandManifest : Type := mkDeltaCommand {
  dc_fields : CommandManifest;
  dc_HasCached : bool; dc_HasLocal : bool; dc_HasInteractive : bool; dc_HasHasProgress : bool; dc_HasSourceLocation : bool
}.

(** The flags of a delta are unset, and its fields those of a command. *)
Definition plain_delta (c : CommandManifest) : DeltaCommandManifest := mkDeltaCommand c false false false false false.

Record RunManifest : Type := mkRunManifest {
  rm_Version : Z; rm_StartedAt : Z; rm_EndedAt : Z; rm_Status : RunStatus; rm_Targets : gmap string TargetManifest;
  rm_Commands : gmap string CommandManifest; rm_MainTargetId : string; rm_Failure : option FailureMsg; rm_IsCi : bool;
  rm_GitAuthor : string; rm_GitConfigEmail : string
}.

Definition no_manifest : RunManifest := mkRunManifest 0 0 0 RUN_STATUS_UNKNOWN ∅ ∅ "" None false "" "".

Record FieldsDelta : Type := mkFieldsDelta {
  fd_StartedAt : Z; fd_EndedAt : Z; fd_Status : RunStatus; fd_HasFailure : bool; fd_Failure : option FailureMsg;
  fd_MainTargetId : string; fd_IsCi : bool; fd_GitAuthor : string; fd_GitConfigEmail : string;
  fd_Targets : gmap string TargetManifest; fd_Commands : gmap string DeltaCommandManifest
}.

Definition no_fields : FieldsDelta := mkFieldsDelta 0 0 RUN_STATUS_UNKNOWN false None "" false "" "" ∅ ∅.

Record DeltaLog : Type := mkDeltaLog {
  dl_TargetId : string; dl_CommandId : string; dl_Stream : Z; dl_Timestamp : Z; dl_Data : string
}.

Record DeltaFormattedLog : Type := mkDeltaFormattedLog {
  df_TargetId : string; df_CommandId : string; df_Timestamp : Z; df_Data : string
}.

Inductive DeltaType : Type :=
| DeltaManifest_ResetAll (m : RunManifest)
| DeltaManifest_Fields (f : FieldsDelta)
| DeltaManifest_Resume
| Delta_DeltaLog (l : DeltaLog)
| Delta_DeltaFormattedLog (l : DeltaFormattedLog).

Record Delta : Type := mkDelta { d_Version : Z; d_type : DeltaType }.

(** ** Applying a delta *)

Definition Version : Z := 2.

Definition checkVersion (m : RunManifest) (d : Delta) : option string :=
  if negb (rm_Version m =? 0)%Z && negb (rm_Version m =? Version)%Z then
    Some ("unsupported manifest version " +:+ pretty (rm_Version m))
  else if negb (d_Version d =? 0)%Z && negb (d_Version d =? Version)%Z then
    Some ("unsupported delta version " +:+ pretty (d_Version d))
  else None.

(** [if new != zero { old = new }] *)
Definition set_string (old new : string) : string := if String.eqb new "" then old else new.
Definition set_time (old new : Z) : Z := if (new =? 0)%Z then old else new.
Definition set_status (old new : RunStatus) : RunStatus := if decide (new = RUN_STATUS_UNKNOWN) then old else new.
Definition set_if {A} (b : bool) (old new : A) : A := if b then new else old.

Definition merge_target (t t2 : TargetManifest) : TargetManifest := {|
  tm_Name := set_string (tm_Name t) (tm_Name t2);
  tm_CanonicalName := set_string (tm_CanonicalName t) (tm_CanonicalName t2);
  tm_OverrideArgs := match tm_OverrideArgs t2 with [] => tm_OverrideArgs t | l => l end;
  tm_GitUrl := set_string (tm_GitUrl t) (tm_GitUrl t2);
  tm_LocalPath := set_string (tm_LocalPath t) (tm_LocalPath t2);
  tm_Tag := set_string (tm_Tag t) (tm_Tag t2);
  tm_ImportRef := set_string (tm_ImportRef t) (tm_ImportRef t2);
  tm_InitialPlatform := set_string (tm_InitialPlatform t) (tm_InitialPlatform t2);
  tm_FinalPlatform := set_string (tm_FinalPlatform t) (tm_FinalPlatform t2);
  tm_Runner := set_string (tm_Runner t) (tm_Runner t2);
  tm_Status := set_status (tm_Status t) (tm_Status t2);
  tm_StartedAt := set_time (tm_StartedAt t) (tm_StartedAt t2);
  tm_EndedAt := set_time (tm_EndedAt t) (tm_EndedAt t2);
  tm_DependsOn := tm_DependsOn t ++ tm_DependsOn t2
|}.

Definition merge_command (c : CommandManifest) (d : DeltaCommandManifest) : CommandManifest :=
  let c2 := dc_fields d in {|
  cm_Name := set_string (cm_Name c) (cm_Name c2);
  cm_TargetId := set_string (cm_TargetId c) (cm_TargetId c2);
  cm_Category := set_string (cm_Category c) (cm_Category c2);
  cm_Platform := set_string (cm_Platform c) (cm_Platform c2);
  cm_Status := set_status (cm_Status c) (cm_Status c2);
  cm_IsCached := set_if (dc_HasCached d) (cm_IsCached c) (cm_IsCached c2);
  cm_IsLocal := set_if (dc_HasLocal d) (cm_IsLocal c) (cm_IsLocal c2);
  cm_IsInteractive := set_if (dc_HasInteractive d) (cm_IsInteractive c) (cm_IsInteractive c2);
  cm_StartedAt := set_time (cm_StartedAt c) (cm_StartedAt c2);
  cm_EndedAt := set_time (cm_EndedAt c) (cm_EndedAt c2);
  cm_HasProgress := set_if (dc_HasHasProgress d) (cm_HasProgress c) (cm_HasProgress c2);
  cm_Progress := set_if (cm_HasProgress c2) (cm_Progress c) (cm_Progress c2);
  cm_ErrorMessage := set_string (cm_ErrorMessage c) (cm_ErrorMessage c2);
  cm_SourceLocation := set_if (dc_HasSourceLocation d) (cm_SourceLocation c) (cm_SourceLocation c2);
  cm_DependsOn := cm_DependsOn c ++ cm_DependsOn c2
|}.

Definition with_targets (m : RunManifest) (l : gmap string TargetManifest) : RunManifest :=
  mkRunManifest (rm_Version m) (rm_StartedAt m) (rm_EndedAt m) (rm_Status m) l (rm_Commands m) (rm_MainTargetId m) (rm_Failure m)
    (rm_IsCi m) (rm_GitAuthor m) (rm_GitConfigEmail m).

Definition with_commands (m : RunManifest) (l : gmap string CommandManifest) : RunManifest :=
  mkRunManifest (rm_Version m) (rm_StartedAt m) (rm_EndedAt m) (rm_Status m) (rm_Targets m) l (rm_MainTargetId m) (rm_Failure m)
    (rm_IsCi m) (rm_GitAuthor m) (rm_GitConfigEmail m).

Definition ensureTargetExists (m : RunManifest) (targetID : string) : RunManifest :=
  match rm_Targets m !! targetID with
  | Some _ => m
  | None => with_targets m (<[targetID:=no_target]> (rm_Targets m))
  end.

Definition ensureCommandExists (m : RunManifest) (commandID : string) : RunManifest :=
  match rm_Commands m !! commandID with
  | Some _ => m
  | None => with_commands m (<[commandID:=no_command]> (rm_Commands m))
  end.

(** The body of the loop over targets, and of that over commands. *)
Definition apply_target (m : RunManifest) (e : string * TargetManifest) : RunManifest :=
  let '(targetID, t2) := e in
  let m := ensureTargetExists m targetID in
  with_targets m (alter (fun t => merge_target t t2) targetID (rm_Targets m)).

Definition apply_command (m : RunManifest) (e : string * DeltaCommandManifest) : RunManifest :=
  let '(commandID, c2) := e in
  let m := ensureCommandExists m commandID in
  let m := with_commands m (alter (fun c => merge_command c c2) commandID (rm_Commands m)) in
  if String.eqb (cm_TargetId (dc_fields c2)) "" then m else ensureTargetExists m (cm_TargetId (dc_fields c2)).

(** The order in which Go visits the two maps of a delta. *)
Class DeltaOrder : Type := {
  range_targets : gmap string TargetManifest -> list (string * TargetManifest);
  range_commands : gmap string DeltaCommandManifest -> list (string * DeltaCommandManifest)
}.

Class DeltaOrderLaws `{DeltaOrder} : Prop := {
  range_targets_perm m : range_targets m ≡ₚ map_to_list m;
  range_commands_perm m : range_commands m ≡ₚ map_to_list m
}.

Definition scalar_fields (f : FieldsDelta) (m : RunManifest) : RunManifest := {|
  rm_Version := rm_Version m;
  rm_StartedAt := set_time (rm_StartedAt m) (fd_StartedAt f);
  rm_EndedAt := set_time (rm_EndedAt m) (fd_EndedAt f);
  rm_Status := set_status (rm_Status m) (fd_Status f);
  rm_Targets := rm_Targets m; rm_Commands := rm_Commands m;
  rm_MainTargetId := set_string (rm_MainTargetId m) (fd_MainTargetId f);
  rm_Failure := set_if (fd_HasFailure f) (rm_Failure m) (fd_Failure f);
  rm_IsCi := rm_IsCi m || fd_IsCi f;
  rm_GitAuthor := set_string (rm_GitAuthor m) (fd_GitAuthor f);
  rm_GitConfigEmail := set_string (rm_GitConfigEmail m) (fd_GitConfigEmail f)
|}.

Definition setManifestFields `{DeltaOrder} (f : FieldsDelta) (m : RunManifest) : RunManifest :=
  let m := fold_left apply_target (range_targets (fd_Targets f)) (scalar_fields f m) in
  fold_left apply_command (range_commands (fd_Commands f)) m.

Definition ApplyDelta `{DeltaOrder} (m : RunManifest) (d : Delta) : RunManifest * option string :=
  match checkVersion m d with
  | Some err => (m, Some err)
  | None =>
      match d_type d with
      | DeltaManifest_ResetAll r => (r, None)
      | DeltaManifest_Fields f => (setManifestFields f m, None)
      | _ => (m, None)
      end
  end.

(** ** Facts *)

Lemma ensureTarget_lookup m t k :
  rm_Targets (ensureTargetExists m t) !! k = if decide (k = t) then Some (default no_target (rm_Targets m !! t)) else rm_Targets m !! k.
Proof.
  unfold ensureTargetExists. destruct (rm_Targets m !! t) eqn:E; simpl.
  - case_decide; [by subst; rewrite E|done].
  - case_decide as Hk; [subst; by rewrite lookup_insert_eq|by rewrite lookup_insert_ne].
Qed.

Lemma ensureCommand_lookup m c k :
  rm_Commands (ensureCommandExists m c) !! k = if decide (k = c) then Some (default no_command (rm_Commands m !! c)) else rm_Commands m !! k.
Proof.
  unfold ensureCommandExists. destruct (rm_Commands m !! c) eqn:E; simpl.
  - case_decide; [by subst; rewrite E|done].
  - case_decide as Hk; [subst; by rewrite lookup_insert_eq|by rewrite lookup_insert_ne].
Qed.

(** What a manifest has besides its two maps. *)
Definition scalars (m : RunManifest) : Z * Z * Z * RunStatus * string * option FailureMsg * bool * string * string :=
  (rm_Version m, rm_StartedAt m, rm_EndedAt m, rm_Status m, rm_MainTargetId m, rm_Failure m, rm_IsCi m, rm_GitAuthor m,
   rm_GitConfigEmail m).

Lemma manifest_ext m1 m2 :
  scalars m1 = scalars m2 -> (forall k, rm_Targets m1 !! k = rm_Targets m2 !! k) ->
  (forall k, rm_Commands m1 !! k = rm_Commands m2 !! k) -> m1 = m2.
Proof.
  destruct m1, m2. unfold scalars. simpl. intros [= -> -> -> -> -> -> -> -> ->] Ht Hc.
  by rewrite (map_eq _ _ Ht), (map_eq _ _ Hc).
Qed.

Lemma ensureTarget_rest m t : scalars (ensureTargetExists m t) = scalars m /\ rm_Commands (ensureTargetExists m t) = rm_Commands m.
Proof. unfold ensureTargetExists. by destruct (_ !! _). Qed.

Lemma ensureCommand_rest m c : scalars (ensureCommandExists m c) = scalars m /\ rm_Targets (ensureCommandExists m c) = rm_Targets m.
Proof. unfold ensureCommandExists. by destruct (_ !! _). Qed.

Lemma apply_target_spec m k t2 :
  scalars (apply_target m (k, t2)) = scalars m /\ rm_Commands (apply_target m (k, t2)) = rm_Commands m /\
  forall j, rm_Targets (apply_target m (k, t2)) !! j =
    if decide (j = k) then Some (merge_target (default no_target (rm_Targets m !! k)) t2) else rm_Targets m !! j.
Proof.
  destruct (ensureTarget_rest m k) as [H1 H2]. split_and!; [done|done|]. intros j. cbn [apply_target with_targets rm_Targets].
  case_decide as Hj.
  - subst. rewrite lookup_alter_eq, ensureTarget_lookup, decide_True by done. done.
  - rewrite lookup_alter_ne, ensureTarget_lookup, decide_False by done. done.
Qed.

Lemma apply_command_spec m k c2 :
  scalars (apply_command m (k, c2)) = scalars m /\
  (forall j, rm_Commands (apply_command m (k, c2)) !! j =
    if decide (j = k) then Some (merge_command (default no_command (rm_Commands m !! k)) c2) else rm_Commands m !! j) /\
  (forall t, rm_Targets (apply_command m (k, c2)) !! t =
    if decide (t = cm_TargetId (dc_fields c2) /\ t <> "") then Some (default no_target (rm_Targets m !! t)) else rm_Targets m !! t).
Proof.
  destruct (ensureCommand_rest m k) as [H1 H2].
  set (m1 := with_commands (ensureCommandExists m k) (alter (fun c => merge_command c c2) k (rm_Commands (ensureCommandExists m k)))).
  assert (forall j, rm_Commands m1 !! j =
    if decide (j = k) then Some (merge_command (default no_command (rm_Commands m !! k)) c2) else rm_Commands m !! j) as Hc.
  { intros j. cbn [m1 with_commands rm_Commands]. case_decide as Hj.
    - subst. rewrite lookup_alter_eq, ensureCommand_lookup, decide_True by done. done.
    - rewrite lookup_alter_ne, ensureCommand_lookup, decide_False by done. done. }
  unfold apply_command. fold m1. destruct (String.eqb_spec (cm_TargetId (dc_fields c2)) "") as [E|E].
  - split_and!; [done|done|]. intros t. rewrite decide_False by (intros [-> ?]; done). cbn [m1 with_commands rm_Targets]. by rewrite H2.
  - destruct (ensureTarget_rest m1 (cm_TargetId (dc_fields c2))) as [H3 H4]. split_and!; [by rewrite H3|by rewrite H4|].
    intros t. rewrite ensureTarget_lookup. cbn [m1 with_commands rm_Targets]. rewrite H2. case_decide as Ht.
    + rewrite decide_True by (by subst). by subst.
    + rewrite decide_False by (by intros [? _]). done.
Qed.

(** ** The loops, in any order *)

Lemma fold_targets l m :
  NoDup l.*1 ->
  scalars (fold_left apply_target l m) = scalars m /\ rm_Commands (fold_left apply_target l m) = rm_Commands m /\
  forall j, rm_Targets (fold_left apply_target l m) !! j =
    match (list_to_map l : gmap string TargetManifest) !! j with
    | Some t2 => Some (merge_target (default no_target (rm_Targets m !! j)) t2)
    | None => rm_Targets m !! j
    end.
Proof.
  revert m. induction l as [|[k t2] l IH]; intros m Hn; [done|]. simpl in Hn. apply list.NoDup_cons in Hn as [Hk Hn].
  cbn [fold_left]. destruct (IH (apply_target m (k, t2)) Hn) as (H1 & H2 & H3). destruct (apply_target_spec m k t2) as (S1 & S2 & S3).
  split_and!; [by rewrite H1|by rewrite H2|]. intros j. rewrite H3, S3. cbn [list_to_map foldr].
  assert ((list_to_map l : gmap string TargetManifest) !! k = None) as Hl by (by apply not_elem_of_list_to_map_1).
  cbn [fst snd uncurry]. case_decide as Hj.
  - subst. by rewrite Hl, lookup_insert_eq.
  - by rewrite lookup_insert_ne.
Qed.

(** Whether a command of the list is in a target. *)
Definition mentions (l : list (string * DeltaCommandManifest)) (t : string) : bool :=
  negb (String.eqb t "") && existsb (fun e => String.eqb (cm_TargetId (dc_fields (snd e))) t) l.

Lemma mentions_perm l l' t : l ≡ₚ l' -> mentions l t = mentions l' t.
Proof.
  intros Hp. unfold mentions. f_equal. induction Hp as [|x l l' _ IH|x y l|l l' l'' _ IH _ IH']; simpl; [done|by rewrite IH| |by rewrite IH].
  destruct (String.eqb _ t), (String.eqb _ t); done.
Qed.

Lemma fold_commands l m :
  NoDup l.*1 ->
  scalars (fold_left apply_command l m) = scalars m /\
  (forall j, rm_Commands (fold_left apply_command l m) !! j =
    match (list_to_map l : gmap string DeltaCommandManifest) !! j with
    | Some c2 => Some (merge_command (default no_command (rm_Commands m !! j)) c2)
    | None => rm_Commands m !! j
    end) /\
  (forall t, rm_Targets (fold_left apply_command l m) !! t =
    if mentions l t then Some (default no_target (rm_Targets m !! t)) else rm_Targets m !! t).
Proof.
  revert m. induction l as [|[k c2] l IH]; intros m Hn.
  { split_and!; [done|done|]. intros t. unfold mentions. by rewrite andb_false_r. }
  simpl in Hn. apply list.NoDup_cons in Hn as [Hk Hn].
  cbn [fold_left]. destruct (IH (apply_command m (k, c2)) Hn) as (H1 & H2 & H3). destruct (apply_command_spec m k c2) as (S1 & S2 & S3).
  split_and!; [by rewrite H1| |].
  - intros j. rewrite H2, S2. cbn [list_to_map foldr].
    assert ((list_to_map l : gmap string DeltaCommandManifest) !! k = None) as Hl by (by apply not_elem_of_list_to_map_1).
    cbn [fst snd uncurry]. case_decide as Hj; [subst; by rewrite Hl, lookup_insert_eq|by rewrite lookup_insert_ne].
  - intros t. rewrite H3, S3. unfold mentions. cbn [existsb snd]. destruct (String.eqb_spec t "") as [->|Ht]; cbn [negb andb].
    + by rewrite decide_False by (by intros [_ ?]).
    + destruct (String.eqb_spec (cm_TargetId (dc_fields c2)) t) as [E|E]; cbn [orb].
      * rewrite decide_True by done. by destruct (existsb _ l).
      * rewrite decide_False by (intros [? _]; congruence). done.
Qed.

Section Apply.
Context `{DeltaOrderLaws}.

Lemma range_targets_map (d : gmap string TargetManifest) :
  NoDup (range_targets d).*1 /\ (list_to_map (range_targets d) : gmap string TargetManifest) = d.
Proof.
  assert (NoDup (range_targets d).*1) as Hn by (rewrite range_targets_perm; apply NoDup_fst_map_to_list).
  split; [done|]. rewrite (list_to_map_proper _ _ Hn (range_targets_perm d)). apply list_to_map_to_list.
Qed.

Lemma range_commands_map (d : gmap string DeltaCommandManifest) :
  NoDup (range_commands d).*1 /\ (list_to_map (range_commands d) : gmap string DeltaCommandManifest) = d.
Proof.
  assert (NoDup (range_commands d).*1) as Hn by (rewrite range_commands_perm; apply NoDup_fst_map_to_list).
  split; [done|]. rewrite (list_to_map_proper _ _ Hn (range_commands_perm d)). apply list_to_map_to_list.
Qed.

(** What a delta of fields does to a manifest: every field that is set replaces the old one, the
    targets and commands of the delta are merged into those of the manifest, which are added if
    need be, a target that a command of the delta belongs to is added too, and nothing else
    changes; whatever order the maps are visited in. *)
Lemma setManifestFields_spec f m :
  scalars (setManifestFields f m) = scalars (scalar_fields f m) /\
  (forall k, rm_Commands (setManifestFields f m) !! k =
    match fd_Commands f !! k with
    | Some c2 => Some (merge_command (default no_command (rm_Commands m !! k)) c2)
    | None => rm_Commands m !! k
    end) /\
  (forall t, rm_Targets (setManifestFields f m) !! t =
    let old := match fd_Targets f !! t with
               | Some t2 => Some (merge_target (default no_target (rm_Targets m !! t)) t2)
               | None => rm_Targets m !! t
               end in
    if mentions (map_to_list (fd_Commands f)) t then Some (default no_target old) else old).
Proof.
  destruct (range_targets_map (fd_Targets f)) as [T1 T2]. destruct (range_commands_map (fd_Commands f)) as [C1 C2].
  destruct (fold_targets (range_targets (fd_Targets f)) (scalar_fields f m) T1) as (H1 & H2 & H3).
  destruct (fold_commands (range_commands (fd_Commands f))
    (fold_left apply_target (range_targets (fd_Targets f)) (scalar_fields f m)) C1) as (K1 & K2 & K3).
  unfold setManifestFields. split_and!.
  - by rewrite K1, H1.
  - intros k. by rewrite K2, C2, H2.
  - intros t. by rewrite K3, H3, T2, (mentions_perm _ _ t (range_commands_perm _)).
Qed.
End Apply.

(** Two orders of Go's maps give one manifest. *)
Lemma ApplyDelta_order (o1 o2 : DeltaOrder) m d : @DeltaOrderLaws o1 -> @DeltaOrderLaws o2 -> @ApplyDelta o1 m d = @ApplyDelta o2 m d.
Proof.
  intros L1 L2. unfold ApplyDelta. destruct (checkVersion m d); [done|]. destruct (d_type d); try done. f_equal.
  destruct (@setManifestFields_spec o1 L1 f m) as (H1 & H2 & H3). destruct (@setManifestFields_spec o2 L2 f m) as (K1 & K2 & K3).
  apply manifest_ext; [by rewrite H1, K1| |]; intros k; [by rewrite H3, K3|by rewrite H2, K2].
Qed.

(** ** The bus *)

Record Bus : Type := mkBus {
  createdAt : Z;
  rawSubs : list nat;
  rawHistory : list Delta;
  formattedSubs : list nat;
  formattedHistory : list Delta;
  received : gmap nat (list Delta)
}.

Definition NewBus (now : Z) : Bus := mkBus now [] [] [] [] ∅.

(** [t2.Sub(createdAt)], which saturates, and the sum of unsigned numbers. *)
Definition clamp64 (z : Z) : Z := Z.max (- 2 ^ 63) (Z.min (2 ^ 63 - 1) z).
Definition uint64 (z : Z) : Z := (z mod 2 ^ 64)%Z.

Definition TsUnixNanos (b : Bus) (t2 : Z) : Z :=
  let deltaT := clamp64 (t2 - createdAt b) in uint64 (uint64 (createdAt b) + uint64 deltaT).

(** [sub.Write(delta)] *)
Definition give (got : gmap nat (list Delta)) (sub : nat) (d : Delta) : gmap nat (list Delta) :=
  <[sub := default [] (got !! sub) ++ [d]]> got.

Definition give_all (got : gmap nat (list Delta)) (sub : nat) (l : list Delta) : gmap nat (list Delta) :=
  fold_left (fun got d => give got sub d) l got.

Definition AddRawSubscriber (sub : nat) (b : Bus) : Bus :=
  mkBus (createdAt b) (rawSubs b ++ [sub]) (rawHistory b) (formattedSubs b) (formattedHistory b)
    (give_all (received b) sub (rawHistory b)).

Definition AddFormattedSubscriber (sub : nat) (b : Bus) : Bus :=
  mkBus (createdAt b) (rawSubs b) (rawHistory b) (formattedSubs b ++ [sub]) (formattedHistory b)
    (give_all (received b) sub (formattedHistory b)).

(** The first of the list that is the subscriber is taken out. *)
Fixpoint remove_sub (sub : nat) (l : list nat) : list nat :=
  match l with [] => [] | s :: l => if decide (s = sub) then l else s :: remove_sub sub l end.

Definition RemoveRawSubscriber (sub : nat) (b : Bus) : Bus :=
  mkBus (createdAt b) (remove_sub sub (rawSubs b)) (rawHistory b) (formattedSubs b) (formattedHistory b) (received b).

Definition RemoveFormattedSubscriber (sub : nat) (b : Bus) : Bus :=
  mkBus (createdAt b) (rawSubs b) (rawHistory b) (remove_sub sub (formattedSubs b)) (formattedHistory b) (received b).

Definition AddSubscriber (sub : nat) (b : Bus) : Bus := AddFormattedSubscriber sub (AddRawSubscriber sub b).
Definition RemoveSubscriber (sub : nat) (b : Bus) : Bus := RemoveFormattedSubscriber sub (RemoveRawSubscriber sub b).

Definition write_raw (d : Delta) (b : Bus) : Bus :=
  mkBus (createdAt b) (rawSubs b) (rawHistory b ++ [d]) (formattedSubs b) (formattedHistory b)
    (fold_left (fun got sub => give got sub d) (rawSubs b) (received b)).

Definition WriteDeltaManifest (f : FieldsDelta) (b : Bus) : Bus := write_raw (mkDelta 0 (DeltaManifest_Fields f)) b.
Definition WriteRawLog (l : DeltaLog) (b : Bus) : Bus := write_raw (mkDelta 0 (Delta_DeltaLog l)) b.

Definition WriteFormattedLog (l : DeltaFormattedLog) (b : Bus) : Bus :=
  let d := mkDelta 0 (Delta_DeltaFormattedLog l) in
  mkBus (createdAt b) (rawSubs b) (rawHistory b) (formattedSubs b) (formattedHistory b ++ [d])
    (fold_left (fun got sub => give got sub d) (formattedSubs b) (received b)).

(** [FormattedWriter.Write] *)
Definition FormattedWriter_Write (targetID commandID data : string) (now : Z) (b : Bus) : Bus :=
  let ts := TsUnixNanos b now in
  WriteFormattedLog (mkDeltaFormattedLog "_full" commandID ts data) (WriteFormattedLog (mkDeltaFormattedLog targetID commandID ts data) b).

(** ** The run *)

Record LogTarget : Type := mkLogTarget { lt_dependsOn : gset string }.

Record LogCommand : Type := mkLogCommand {
  lc_targetID : string; lc_tailOutput : Buffer; lc_dependsOn : gset string; lc_started : bool; lc_lastProgress : Z
}.

Record LogRun : Type := mkLogRun {
  lr_bus : Bus; lr_targets : gmap string LogTarget; lr_commands : gmap string LogCommand;
  lr_ended : bool; lr_hasMainTarget : bool
}.

Definition newRun (b : Bus) : LogRun := mkLogRun b ∅ ∅ false false.

Definition GenericDefault : string := "_generic:default".
Definition tailErrorBufferSizeBytes : Z := 80 * 1024.

Definition on_bus (g : Bus -> Bus) (r : LogRun) : LogRun :=
  mkLogRun (g (lr_bus r)) (lr_targets r) (lr_commands r) (lr_ended r) (lr_hasMainTarget r).

Definition buildDelta (f : FieldsDelta) : LogRun -> LogRun := on_bus (WriteDeltaManifest f).

Definition ts (r : LogRun) (t : Z) : Z := TsUnixNanos (lr_bus r) t.

(** Deltas of one target, of one command, and of the run itself. *)
Definition target_fields (main id : string) (t : TargetManifest) : FieldsDelta :=
  mkFieldsDelta 0 0 RUN_STATUS_UNKNOWN false None main false "" "" {[id := t]} ∅.
Definition command_fields (id : string) (c : DeltaCommandManifest) : FieldsDelta :=
  mkFieldsDelta 0 0 RUN_STATUS_UNKNOWN false None "" false "" "" ∅ {[id := c]}.
Definition run_fields (started ended : Z) (status : RunStatus) (failure : option FailureMsg) : FieldsDelta :=
  mkFieldsDelta started ended status (match failure with Some _ => true | None => false end) failure "" false "" "" ∅ ∅.

Definition NewTarget (targetID : string) (target : Reference) (overrideArgs : list string) (initialPlatform runner : string)
  (r : LogRun) : LogRun * option string :=
  let mainTargetID := if lr_hasMainTarget r then "" else targetID in
  let r := mkLogRun (lr_bus r) (lr_targets r) (lr_commands r) (lr_ended r) true in
  match lr_targets r !! targetID with
  | Some _ => (r, Some "target printer already exists")
  | None =>
      let t := mkTargetManifest (referenceString target) (referenceStringCanonical target) overrideArgs (GitURL target) (LocalPath target)
                 (Tag target) (ImportRef target) initialPlatform "" runner RUN_STATUS_UNKNOWN 0 0 [] in
      let r := buildDelta (target_fields mainTargetID targetID t) r in
      (mkLogRun (lr_bus r) (<[targetID := mkLogTarget ∅]> (lr_targets r)) (lr_commands r) (lr_ended r) (lr_hasMainTarget r), None)
  end.

(** [sshUserRE], anchored at the start. *)
Definition ssh_user_byte (c : ascii) : bool :=
  let z := byteZ c in
  ((97 <=? z) && (z <=? 122) || (65 <=? z) && (z <=? 90) || (48 <=? z) && (z <=? 57) || (z =? 45) || (z =? 95))%Z.

Fixpoint span_user (s : string) : string * string :=
  match s with
  | "" => ("", "")
  | String c s' => if ssh_user_byte c then let '(a, b) := span_user s' in (String c a, b) else ("", s)
  end.

Definition cut_ssh_user (s : string) : string :=
  match span_user s with
  | (String _ _, String c rest) => if Ascii.eqb c "@" then rest else s
  | _ => s
  end.

Definition gitSSHToURL (repoURL : string) : string :=
  "https://" +:+ Join (Split (TrimSuffix (cut_ssh_user repoURL) ".git") ":") "/".

(** [int32(n)] *)
Definition int32 (n : nat) : Z := ((Z.of_nat n + 2 ^ 31) mod 2 ^ 32 - 2 ^ 31)%Z.

Definition sourceLocationToProto (isSSH : string -> bool) (repoURL repoHash fileRelToRepo : string) (sl : option SourceLocation) :
  option LogLocation :=
  match sl with
  | None => None
  | Some sl =>
      let file := if String.eqb fileRelToRepo "" && String.eqb repoURL "" then File sl else fileRelToRepo in
      let repoURL := if isSSH repoURL then gitSSHToURL repoURL else repoURL in
      Some (mkLogLocation repoURL repoHash file (int32 (StartLine sl)) (int32 (StartColumn sl)) (int32 (EndLine sl)) (int32 (EndColumn sl)))
  end.

Definition empty_tail : Buffer := match NewBuffer tailErrorBufferSizeBytes with Ok b => b | _ => mkBuffer [] 0 0 end.

Definition NewCommand (isSSH : string -> bool) (commandID command targetID category platform : string) (cached local interactive : bool)
  (sourceLocation : option SourceLocation) (repoURL repoHash fileRelToRepo : string) (r : LogRun) : LogRun * option string :=
  match lr_commands r !! commandID with
  | Some _ => (r, Some "command printer already exists")
  | None =>
      let sl := sourceLocationToProto isSSH repoURL repoHash fileRelToRepo sourceLocation in
      let c := mkCommandManifest command targetID category platform RUN_STATUS_UNKNOWN cached local interactive 0 0 false 0 "" sl [] in
      let r := buildDelta (command_fields commandID
                 (mkDeltaCommand c true true true false (match sl with Some _ => true | None => false end))) r in
      (mkLogRun (lr_bus r) (lr_targets r) (<[commandID := mkLogCommand targetID empty_tail ∅ false 0]> (lr_commands r)) (lr_ended r)
         (lr_hasMainTarget r), None)
  end.

Definition Run_SetStart (start : Z) (r : LogRun) : LogRun :=
  buildDelta (run_fields (ts r start) 0 RUN_STATUS_IN_PROGRESS None) r.

Definition set_ended (r : LogRun) : LogRun := mkLogRun (lr_bus r) (lr_targets r) (lr_commands r) true (lr_hasMainTarget r).

Definition TailOutput (c : LogCommand) : string := String.string_of_list_byte (Bytes (lc_tailOutput c)).

Definition SetFatalError (end_ : Z) (targetID commandID : string) (failureType : FailureType) (helpMsg errorMsg : string) (r : LogRun) : LogRun :=
  if lr_ended r then r
  else
    let r := set_ended r in
    let tailOutput :=
      if String.eqb commandID "" then ""
      else match lr_commands r !! commandID with Some c => TailOutput c | None => "" end in
    buildDelta (run_fields 0 (ts r end_) RUN_STATUS_FAILURE
      (Some (mkFailure failureType targetID commandID tailOutput helpMsg errorMsg))) r.

Definition SetGenericFatalError (end_ : Z) (failureType : FailureType) (helpMsg errorMsg : string) : LogRun -> LogRun :=
  SetFatalError end_ "" GenericDefault failureType helpMsg errorMsg.

Definition Run_SetEnd (end_ : Z) (status : RunStatus) (r : LogRun) : LogRun :=
  if lr_ended r then r
  else let r := set_ended r in buildDelta (run_fields 0 (ts r end_) status None) r.

(** ** Targets *)

Definition targetDelta (id : string) (t : TargetManifest) : LogRun -> LogRun := buildDelta (target_fields "" id t).

(** A method of a handle that was given out. *)
Definition on_target (id : string) (g : LogTarget -> LogRun -> LogRun) (r : LogRun) : LogRun :=
  match lr_targets r !! id with Some t => g t r | None => r end.
Definition on_command (id : string) (g : LogCommand -> LogRun -> LogRun) (r : LogRun) : LogRun :=
  match lr_commands r !! id with Some c => g c r | None => r end.

Definition times_target (status : RunStatus) (started ended : Z) (finalPlatform : string) : TargetManifest :=
  mkTargetManifest "" "" [] "" "" "" "" "" finalPlatform "" status started ended [].

Definition Target_SetStart (id : string) (start : Z) : LogRun -> LogRun :=
  on_target id (fun _ r => targetDelta id (times_target RUN_STATUS_IN_PROGRESS (ts r start) 0 "") r).

Definition Target_SetEnd (id : string) (end_ : Z) (status : RunStatus) (finalPlatform : string) : LogRun -> LogRun :=
  on_target id (fun _ r => targetDelta id (times_target status 0 (ts r end_) finalPlatform) r).

Definition put_target (id : string) (t : LogTarget) (r : LogRun) : LogRun :=
  mkLogRun (lr_bus r) (<[id := t]> (lr_targets r)) (lr_commands r) (lr_ended r) (lr_hasMainTarget r).
Definition put_command (id : string) (c : LogCommand) (r : LogRun) : LogRun :=
  mkLogRun (lr_bus r) (lr_targets r) (<[id := c]> (lr_commands r)) (lr_ended r) (lr_hasMainTarget r).

Definition Target_AddDependsOn (id targetID : string) : LogRun -> LogRun :=
  on_target id (fun t r =>
    if decide (targetID ∈ lt_dependsOn t) then r
    else targetDelta id (mkTargetManifest "" "" [] "" "" "" "" "" "" "" RUN_STATUS_UNKNOWN 0 0 [targetID])
           (put_target id (mkLogTarget ({[targetID]} ∪ lt_dependsOn t)) r)).

(** ** Commands *)

Definition commandDelta (id : string) (c : DeltaCommandManifest) : LogRun -> LogRun := buildDelta (command_fields id c).

Definition stdout : Z := 1.
Definition stderr : Z := 2.

(** [Write] of the circular buffer never fails. *)
Definition Command_Write (id dt : string) (t stream : Z) : LogRun -> LogRun :=
  on_command id (fun c r =>
    let tail := if (stream =? stdout)%Z || (stream =? stderr)%Z
                then snd (CircBuf.Write (String.list_byte_of_string dt) (lc_tailOutput c)) else lc_tailOutput c in
    let r := put_command id (mkLogCommand (lc_targetID c) tail (lc_dependsOn c) (lc_started c) (lc_lastProgress c)) r in
    on_bus (WriteRawLog (mkDeltaLog (lc_targetID c) id stream (ts r t) dt)) r).

Definition status_command (status : RunStatus) (errorMessage : string) (started ended : Z) : DeltaCommandManifest :=
  plain_delta (mkCommandManifest "" "" "" "" status false false false started ended false 0 errorMessage None []).

Definition Command_SetStart (id : string) (start : Z) : LogRun -> LogRun :=
  on_command id (fun c r =>
    if lc_started c then r
    else commandDelta id (status_command RUN_STATUS_IN_PROGRESS "" (ts r start) 0)
           (put_command id (mkLogCommand (lc_targetID c) (lc_tailOutput c) (lc_dependsOn c) true (lc_lastProgress c)) r)).

Definition Command_AddDependsOn (id targetID refName : string) : LogRun -> LogRun :=
  on_command id (fun c r =>
    if decide (targetID ∈ lc_dependsOn c) then r
    else commandDelta id (plain_delta (mkCommandManifest "" "" "" "" RUN_STATUS_UNKNOWN false false false 0 0 false 0 "" None
                            [mkCommandTarget targetID refName]))
           (put_command id (mkLogCommand (lc_targetID c) (lc_tailOutput c) ({[targetID]} ∪ lc_dependsOn c) (lc_started c) (lc_lastProgress c)) r)).

Definition SetProgress (id : string) (progress : Z) : LogRun -> LogRun :=
  on_command id (fun c r =>
    if (lc_lastProgress c =? progress)%Z then r
    else
      put_command id (mkLogCommand (lc_targetID c) (lc_tailOutput c) (lc_dependsOn c) (lc_started c) progress)
        (commandDelta id (mkDeltaCommand (mkCommandManifest "" "" "" "" RUN_STATUS_UNKNOWN false false false 0 0 true progress "" None [])
           false false false true false) r)).

Definition SetCached (id : string) (cached : bool) : LogRun -> LogRun :=
  on_command id (fun _ => commandDelta id
    (mkDeltaCommand (mkCommandManifest "" "" "" "" RUN_STATUS_UNKNOWN cached false false 0 0 false 0 "" None []) true false false false false)).

Definition Command_SetEnd (id : string) (end_ : Z) (status : RunStatus) (errorStr : string) : LogRun -> LogRun :=
  on_command id (fun _ r => commandDelta id (status_command status errorStr 0 (ts r end_)) r).

(** [SetEndError]: the error, and whether it is a cancellation. *)
Definition SetEndError (id : string) (err : option (string * bool)) (now : Z) : LogRun -> LogRun :=
  on_command id (fun _ r =>
    match err with
    | Some (text, canceled) =>
        commandDelta id (status_command (if canceled : bool then RUN_STATUS_CANCELED else RUN_STATUS_FAILURE) text 0 (ts r now)) r
    | None => commandDelta id (status_command RUN_STATUS_SUCCESS "" 0 (ts r now)) r
    end).

Definition SetName (id name : string) : LogRun -> LogRun :=
  on_command id (fun _ => commandDelta id
    (plain_delta (mkCommandManifest name "" "" "" RUN_STATUS_UNKNOWN false false false 0 0 false 0 "" None []))).

(** [Generic.WriteWithTimestamp], for the category of [WithPrefix]. *)
Definition Generic_Write (category dt : string) (t : Z) (r : LogRun) : LogRun :=
  on_bus (WriteRawLog (mkDeltaLog "" ("_generic:" +:+ category) 0 (ts r t) dt)) r.

(** ** What may happen to a run *)

Definition is_formatted (d : Delta) : bool := match d_type d with Delta_DeltaFormattedLog _ => true | _ => false end.
Definition raw_part (l : list Delta) : list Delta := List.filter (fun d => negb (is_formatted d)) l.
Definition formatted_part (l : list Delta) : list Delta := List.filter is_formatted l.

Definition got (b : Bus) (s : nat) : list Delta := default [] (received b !! s).

(** A subscriber that has not been given deltas of the kind it subscribes to.  [AddSubscriber] is
    two steps, between which others may happen, as are the two writes of a [FormattedWriter]. *)
Definition new_raw (b : Bus) (s : nat) : Prop := s ∉ rawSubs b /\ raw_part (got b s) = [].
Definition new_formatted (b : Bus) (s : nat) : Prop := s ∉ formattedSubs b /\ formatted_part (got b s) = [].

Inductive log_step (isSSH : string -> bool) (r : LogRun) : LogRun -> Prop :=
| log_NewTarget id t args p n : log_step isSSH r (fst (NewTarget id t args p n r))
| log_NewCommand id c t cat p b1 b2 b3 sl u h f : log_step isSSH r (fst (NewCommand isSSH id c t cat p b1 b2 b3 sl u h f r))
| log_SetStart t : log_step isSSH r (Run_SetStart t r)
| log_SetFatalError t tid cid ft h e : log_step isSSH r (SetFatalError t tid cid ft h e r)
| log_SetEnd t s : log_step isSSH r (Run_SetEnd t s r)
| log_Target_SetStart id t : log_step isSSH r (Target_SetStart id t r)
| log_Target_SetEnd id t s p : log_step isSSH r (Target_SetEnd id t s p r)
| log_Target_AddDependsOn id d : log_step isSSH r (Target_AddDependsOn id d r)
| log_Command_Write id dt t s : log_step isSSH r (Command_Write id dt t s r)
| log_Command_SetStart id t : log_step isSSH r (Command_SetStart id t r)
| log_Command_AddDependsOn id d n : log_step isSSH r (Command_AddDependsOn id d n r)
| log_SetProgress id p : log_step isSSH r (SetProgress id p r)
| log_SetCached id b : log_step isSSH r (SetCached id b r)
| log_Command_SetEnd id t s e : log_step isSSH r (Command_SetEnd id t s e r)
| log_SetEndError id e t : log_step isSSH r (SetEndError id e t r)
| log_SetName id n : log_step isSSH r (SetName id n r)
| log_Generic_Write c dt t : log_step isSSH r (Generic_Write c dt t r)
| log_WriteFormattedLog l : log_step isSSH r (on_bus (WriteFormattedLog l) r)
| log_AddRaw s : new_raw (lr_bus r) s -> log_step isSSH r (on_bus (AddRawSubscriber s) r)
| log_AddFormatted s : new_formatted (lr_bus r) s -> log_step isSSH r (on_bus (AddFormattedSubscriber s) r)
| log_RemoveRaw s : log_step isSSH r (on_bus (RemoveRawSubscriber s) r)
| log_RemoveFormatted s : log_step isSSH r (on_bus (RemoveFormattedSubscriber s) r).

(** ** Subscribers *)

(** Every subscriber of a kind has been given the whole history of that kind, in order and once;
    subscribers have all been given something, if there was anything. *)
Definition bus_ok (b : Bus) : Prop :=
  NoDup (rawSubs b) /\ NoDup (formattedSubs b) /\
  raw_part (rawHistory b) = rawHistory b /\ formatted_part (formattedHistory b) = formattedHistory b /\
  (forall s, s ∈ rawSubs b -> raw_part (got b s) = rawHistory b) /\
  (forall s, s ∈ formattedSubs b -> formatted_part (got b s) = formattedHistory b).

Lemma give_lookup g s d t : default [] (give g s d !! t) = if decide (t = s) then default [] (g !! s) ++ [d] else default [] (g !! t).
Proof. unfold give. case_decide; [subst; by rewrite lookup_insert_eq|by rewrite lookup_insert_ne]. Qed.

Lemma give_all_lookup g s l t :
  default [] (give_all g s l !! t) = if decide (t = s) then default [] (g !! s) ++ l else default [] (g !! t).
Proof.
  revert g. induction l as [|d l IH]; intros g; cbn [give_all fold_left].
  - case_decide; [subst; by rewrite app_nil_r|done].
  - unfold give_all in IH. rewrite IH, !give_lookup. case_decide; [|done]. rewrite decide_True by done. by rewrite <- app_assoc.
Qed.

Lemma give_subs_lookup g l d t :
  NoDup l -> default [] (fold_left (fun g s => give g s d) l g !! t) = if decide (t ∈ l) then default [] (g !! t) ++ [d] else default [] (g !! t).
Proof.
  revert g. induction l as [|s l IH]; intros g Hn; cbn [fold_left]; [by rewrite decide_False by set_solver|].
  apply list.NoDup_cons in Hn as [Hs Hn]. rewrite (IH _ Hn), give_lookup. destruct (decide (t = s)) as [->|Ht].
  - rewrite decide_False, decide_True by set_solver. done.
  - destruct (decide (t ∈ l)); [rewrite decide_True by set_solver|rewrite decide_False by set_solver]; done.
Qed.

Lemma raw_part_app l1 l2 : raw_part (l1 ++ l2) = raw_part l1 ++ raw_part l2.
Proof. apply filter_app. Qed.
Lemma formatted_part_app l1 l2 : formatted_part (l1 ++ l2) = formatted_part l1 ++ formatted_part l2.
Proof. apply filter_app. Qed.

(** A history of one kind has nothing of the other. *)
Lemma raw_of_formatted l : formatted_part l = l -> raw_part l = [].
Proof.
  unfold formatted_part, raw_part. induction l as [|d l IH]; [done|]. simpl. destruct (is_formatted d) eqn:E; simpl.
  - intros [= H]. auto.
  - intros H. exfalso. pose proof (filter_length_le is_formatted l) as Hl. rewrite H in Hl. simpl in Hl. lia.
Qed.

Lemma formatted_of_raw l : raw_part l = l -> formatted_part l = [].
Proof.
  unfold formatted_part, raw_part. induction l as [|d l IH]; [done|]. simpl. destruct (is_formatted d) eqn:E; simpl.
  - intros H. exfalso. pose proof (filter_length_le (fun d => negb (is_formatted d)) l) as Hl. rewrite H in Hl. simpl in Hl. lia.
  - intros [= H]. auto.
Qed.

Lemma remove_sub_elem s l t : t ∈ remove_sub s l -> t ∈ l.
Proof. induction l as [|u l IH]; simpl; [done|]. case_decide; set_solver. Qed.

Lemma remove_sub_NoDup s l : NoDup l -> NoDup (remove_sub s l).
Proof.
  induction l as [|u l IH]; intros Hn; simpl; [done|]. apply list.NoDup_cons in Hn as [Hu Hn]. case_decide; [done|].
  apply list.NoDup_cons. split; [|by apply IH]. intros Hin. apply Hu. by eapply remove_sub_elem.
Qed.

Lemma NoDup_snoc (s : nat) l : NoDup l -> s ∉ l -> NoDup (l ++ [s]).
Proof. intros H Hs. apply list.NoDup_app. split_and!; [done|set_solver|apply NoDup_singleton]. Qed.

Lemma write_raw_ok d b : is_formatted d = false -> bus_ok b -> bus_ok (write_raw d b).
Proof.
  intros Hd (N1 & N2 & R & F & HR & HF).
  assert (forall t, got (write_raw d b) t = if decide (t ∈ rawSubs b) then got b t ++ [d] else got b t) as Hg
    by (intros t; by apply give_subs_lookup).
  assert (raw_part [d] = [d] /\ formatted_part [d] = []) as [Hr Hf] by (unfold raw_part, formatted_part; simpl; by rewrite Hd).
  split_and!; try done; cbn [write_raw rawHistory rawSubs formattedSubs formattedHistory].
  - by rewrite raw_part_app, R, Hr.
  - intros t Ht. rewrite Hg, decide_True, raw_part_app, Hr, (HR t Ht) by done. done.
  - intros t Ht. rewrite Hg. case_decide; [rewrite formatted_part_app, Hf, app_nil_r|]; by apply HF.
Qed.

Lemma WriteFormattedLog_ok l b : bus_ok b -> bus_ok (WriteFormattedLog l b).
Proof.
  intros (N1 & N2 & R & F & HR & HF). set (d := mkDelta 0 (Delta_DeltaFormattedLog l)).
  assert (forall t, got (WriteFormattedLog l b) t = if decide (t ∈ formattedSubs b) then got b t ++ [d] else got b t) as Hg
    by (intros t; by apply give_subs_lookup).
  split_and!; try done; cbn [WriteFormattedLog rawHistory rawSubs formattedSubs formattedHistory].
  - by rewrite formatted_part_app, F.
  - intros t Ht. rewrite Hg. case_decide; [rewrite raw_part_app, app_nil_r|]; by apply HR.
  - intros t Ht. rewrite Hg, decide_True, formatted_part_app, (HF t Ht) by done. done.
Qed.

Lemma AddRaw_ok s b : new_raw b s -> bus_ok b -> bus_ok (AddRawSubscriber s b).
Proof.
  intros [Hn Hs] (N1 & N2 & R & F & HR & HF).
  assert (forall t, got (AddRawSubscriber s b) t = if decide (t = s) then got b s ++ rawHistory b else got b t) as Hg.
  { intros t. unfold got at 1. cbn [AddRawSubscriber received]. by rewrite give_all_lookup. }
  split_and!; try done; cbn [AddRawSubscriber rawHistory rawSubs formattedSubs formattedHistory].
  - by apply NoDup_snoc.
  - intros t Ht. rewrite Hg. case_decide as E; [subst; by rewrite raw_part_app, Hs, R|]. apply HR. set_solver.
  - intros t Ht. rewrite Hg. case_decide as E; [|by apply HF]. subst. rewrite formatted_part_app, (formatted_of_raw _ R), app_nil_r. by apply HF.
Qed.

Lemma AddFormatted_ok s b : new_formatted b s -> bus_ok b -> bus_ok (AddFormattedSubscriber s b).
Proof.
  intros [Hn Hs] (N1 & N2 & R & F & HR & HF).
  assert (forall t, got (AddFormattedSubscriber s b) t = if decide (t = s) then got b s ++ formattedHistory b else got b t) as Hg.
  { intros t. unfold got at 1. cbn [AddFormattedSubscriber received]. by rewrite give_all_lookup. }
  split_and!; try done; cbn [AddFormattedSubscriber rawHistory rawSubs formattedSubs formattedHistory].
  - by apply NoDup_snoc.
  - intros t Ht. rewrite Hg. case_decide as E; [|by apply HR]. subst. rewrite raw_part_app, (raw_of_formatted _ F), app_nil_r. by apply HR.
  - intros t Ht. rewrite Hg. case_decide as E; [subst; by rewrite formatted_part_app, Hs, F|]. apply HF. set_solver.
Qed.

Lemma RemoveRaw_ok s b : bus_ok b -> bus_ok (RemoveRawSubscriber s b).
Proof.
  intros (N1 & N2 & R & F & HR & HF). split_and!; try done; try (by apply remove_sub_NoDup).
  intros t Ht. apply HR. exact (remove_sub_elem _ _ _ Ht).
Qed.

Lemma RemoveFormatted_ok s b : bus_ok b -> bus_ok (RemoveFormattedSubscriber s b).
Proof.
  intros (N1 & N2 & R & F & HR & HF). split_and!; try done; try (by apply remove_sub_NoDup).
  intros t Ht. apply HF. exact (remove_sub_elem _ _ _ Ht).
Qed.

(** ** Steps, as what they do to the bus *)

(** A step writes deltas that are not formatted ones, and formatted ones, or changes who is
    subscribed. *)
Inductive bus_change (b : Bus) : Bus -> Prop :=
| change_none : bus_change b b
| change_raw d : is_formatted d = false -> bus_change b (write_raw d b)
| change_formatted l : bus_change b (WriteFormattedLog l b)
| change_add_raw s : new_raw b s -> bus_change b (AddRawSubscriber s b)
| change_add_formatted s : new_formatted b s -> bus_change b (AddFormattedSubscriber s b)
| change_remove_raw s : bus_change b (RemoveRawSubscriber s b)
| change_remove_formatted s : bus_change b (RemoveFormattedSubscriber s b).

#[local] Hint Constructors bus_change : core.

Lemma log_step_bus isSSH r r' : log_step isSSH r r' -> bus_change (lr_bus r) (lr_bus r').
Proof.
  destruct 1; unfold NewTarget, NewCommand, SetFatalError, Run_SetEnd, Target_SetStart, Target_SetEnd, Target_AddDependsOn,
    Command_Write, Command_SetStart, Command_AddDependsOn, SetProgress, SetCached, Command_SetEnd, SetEndError, SetName, on_target,
    on_command; repeat case_match; simplify_eq/=; auto; try (by apply change_raw).
Qed.

Lemma bus_change_ok b b' : bus_change b b' -> bus_ok b -> bus_ok b'.
Proof.
  destruct 1; [done|apply write_raw_ok|apply WriteFormattedLog_ok|apply AddRaw_ok|apply AddFormatted_ok|apply RemoveRaw_ok|
    apply RemoveFormatted_ok]; done.
Qed.

Lemma NewBus_ok t : bus_ok (NewBus t).
Proof. split_and!; try done; try apply NoDup_nil_2; intros s Hs; by apply elem_of_nil in Hs. Qed.

(** ** The manifest that the deltas of a run build *)

Definition manifest_of `{DeltaOrder} (hist : list Delta) : RunManifest := fold_left (fun m d => fst (ApplyDelta m d)) hist no_manifest.

Definition run_manifest `{DeltaOrder} (r : LogRun) : RunManifest := manifest_of (rawHistory (lr_bus r)).

Definition target_agrees (t : LogTarget) (tm : TargetManifest) : Prop :=
  NoDup (tm_DependsOn tm) /\ list_to_set (tm_DependsOn tm) = lt_dependsOn t.

Definition command_agrees (c : LogCommand) (cm : CommandManifest) : Prop :=
  cm_TargetId cm = lc_targetID c /\ cm_Progress cm = lc_lastProgress c /\
  NoDup (ct_TargetId <$> cm_DependsOn cm) /\ list_to_set (ct_TargetId <$> cm_DependsOn cm) = lc_dependsOn c /\
  (lc_started c = false -> cm_StartedAt cm = 0%Z).

(** The manifest has the run's commands and no others, and the run's targets; the other targets
    of it are only named by commands, and blank.  Dependencies are those of the run, each once. *)
Record agrees (r : LogRun) (m : RunManifest) : Prop := {
  ag_version : rm_Version m = 0%Z;
  ag_targets id :
    match lr_targets r !! id with
    | Some t => exists tm, rm_Targets m !! id = Some tm /\ target_agrees t tm
    | None => rm_Targets m !! id = None \/ rm_Targets m !! id = Some no_target
    end;
  ag_commands id :
    match lr_commands r !! id with
    | Some c => exists cm, rm_Commands m !! id = Some cm /\ command_agrees c cm
    | None => rm_Commands m !! id = None
    end;
  ag_refs id cm : rm_Commands m !! id = Some cm -> cm_TargetId cm <> "" -> is_Some (rm_Targets m !! cm_TargetId cm);
  ag_main : lr_hasMainTarget r = false -> lr_targets r = ∅ /\ rm_MainTargetId m = "";
  ag_ended : lr_ended r = false -> rm_Failure m = None /\ rm_EndedAt m = 0%Z
}.

(** What every step keeps, every run of steps keeps. *)
Lemma rtc_keeps {A} (R : relation A) (P : A -> Prop) : (forall x y, R x y -> P x -> P y) -> forall x y, rtc R x y -> P x -> P y.
Proof. intros HR x y Hxy. induction Hxy; eauto. Qed.

(** The raw history after a step, and what the step's delta says of the end and of the main
    target of a run that has them. *)
Lemma log_step_history isSSH r r' :
  log_step isSSH r r' ->
  (lr_ended r = true -> lr_ended r' = true) /\ (lr_hasMainTarget r = true -> lr_hasMainTarget r' = true) /\
  (rawHistory (lr_bus r') = rawHistory (lr_bus r) \/
   (exists l, rawHistory (lr_bus r') = rawHistory (lr_bus r) ++ [mkDelta 0 (Delta_DeltaLog l)]) \/
   (exists f, rawHistory (lr_bus r') = rawHistory (lr_bus r) ++ [mkDelta 0 (DeltaManifest_Fields f)] /\
      (lr_ended r = true -> fd_EndedAt f = 0%Z /\ fd_HasFailure f = false) /\ (lr_hasMainTarget r = true -> fd_MainTargetId f = ""))).
Proof.
  destruct 1; unfold NewTarget, NewCommand, SetFatalError, Run_SetEnd, Target_SetStart, Target_SetEnd, Target_AddDependsOn,
    Command_Write, Command_SetStart, Command_AddDependsOn, SetProgress, SetCached, Command_SetEnd, SetEndError, SetName, on_target,
    on_command; repeat case_match; simplify_eq/=; split_and!; try done; try (by left);
    solve [right; left; by eexists | right; right; eexists; (split_and!; [done|done|]; simpl; congruence) | right; right; by eexists].
Qed.

Section Manifest.
Context `{DeltaOrderLaws}.

Lemma manifest_snoc hist d : manifest_of (hist ++ [d]) = fst (ApplyDelta (manifest_of hist) d).
Proof. unfold manifest_of. by rewrite fold_left_app. Qed.

(** What the three kinds of delta do to a manifest. *)
Lemma set_target_fields main id t2 m :
  rm_Targets (setManifestFields (target_fields main id t2) m) = <[id := merge_target (default no_target (rm_Targets m !! id)) t2]> (rm_Targets m) /\
  rm_Commands (setManifestFields (target_fields main id t2) m) = rm_Commands m.
Proof.
  destruct (setManifestFields_spec (target_fields main id t2) m) as (_ & HC & HT).
  split; apply map_eq; intros k; [rewrite HT|by rewrite HC]. unfold mentions. simpl. rewrite map_to_list_empty, andb_false_r.
  destruct (decide (k = id)) as [->|Hk]; [by rewrite lookup_singleton_eq, lookup_insert_eq|by rewrite lookup_singleton_ne, lookup_insert_ne].
Qed.

Lemma set_command_fields id c2 m :
  rm_Commands (setManifestFields (command_fields id c2) m) = <[id := merge_command (default no_command (rm_Commands m !! id)) c2]> (rm_Commands m) /\
  forall t, rm_Targets (setManifestFields (command_fields id c2) m) !! t =
    if decide (t = cm_TargetId (dc_fields c2) /\ t <> "") then Some (default no_target (rm_Targets m !! t)) else rm_Targets m !! t.
Proof.
  destruct (setManifestFields_spec (command_fields id c2) m) as (_ & HC & HT). split.
  - apply map_eq. intros k. rewrite HC. simpl.
    destruct (decide (k = id)) as [->|Hk]; [by rewrite lookup_singleton_eq, lookup_insert_eq|by rewrite lookup_singleton_ne, lookup_insert_ne].
  - intros t. rewrite HT. simpl. rewrite map_to_list_singleton. unfold mentions. simpl. rewrite orb_false_r.
    destruct (String.eqb_spec t "") as [->|Ht]; simpl; [by rewrite decide_False by (by intros [_ ?])|].
    destruct (String.eqb_spec (cm_TargetId (dc_fields c2)) t) as [E|E].
    + by rewrite decide_True.
    + by rewrite decide_False by (intros [? _]; congruence).
Qed.

Lemma set_run_fields s e st f m :
  rm_Targets (setManifestFields (run_fields s e st f) m) = rm_Targets m /\
  rm_Commands (setManifestFields (run_fields s e st f) m) = rm_Commands m.
Proof.
  destruct (setManifestFields_spec (run_fields s e st f) m) as (_ & HC & HT).
  split; apply map_eq; intros k; [rewrite HT|by rewrite HC]. unfold mentions. simpl. by rewrite map_to_list_empty, andb_false_r.
Qed.

Lemma set_fields_scalars f m : scalars (setManifestFields f m) = scalars (scalar_fields f m).
Proof. apply setManifestFields_spec. Qed.

(** Deltas of a target, of a command and of the run, with the changes of the run's own maps that
    come with them. *)
Lemma agrees_target_delta r m main id t2 t' :
  agrees r m -> target_agrees t' (merge_target (default no_target (rm_Targets m !! id)) t2) ->
  agrees (mkLogRun (lr_bus r) (<[id := t']> (lr_targets r)) (lr_commands r) (lr_ended r) true) (setManifestFields (target_fields main id t2) m).
Proof.
  intros [V T C R M E] Ht. destruct (set_target_fields main id t2 m) as [ET EC].
  pose proof (set_fields_scalars (target_fields main id t2) m) as [= EV _ EE _ _ EF _ _ _].
  split; cbn [lr_targets lr_commands lr_ended lr_hasMainTarget].
  - by rewrite EV.
  - intros k. rewrite ET. destruct (decide (k = id)) as [->|Hk].
    + rewrite !lookup_insert_eq. eauto.
    + rewrite !lookup_insert_ne by done. apply T.
  - intros k. rewrite EC. apply C.
  - intros k cm. rewrite EC, ET. intros Hk Hn. apply lookup_insert_is_Some'. right. by eapply R.
  - done.
  - intros He. rewrite EE, EF. simpl. by apply E.
Qed.

Lemma agrees_command_delta r m id c2 c' :
  agrees r m -> command_agrees c' (merge_command (default no_command (rm_Commands m !! id)) c2) ->
  agrees (put_command id c' r) (setManifestFields (command_fields id c2) m).
Proof.
  intros [V T C R M E] Ht. destruct (set_command_fields id c2 m) as [EC ET].
  pose proof (set_fields_scalars (command_fields id c2) m) as [= EV _ EE _ EM EF _ _ _].
  assert (forall t, is_Some (rm_Targets m !! t) -> is_Some (rm_Targets (setManifestFields (command_fields id c2) m) !! t)) as Hmono.
  { intros t Hs. rewrite ET. case_decide; [by eexists|done]. }
  split; cbn [put_command lr_targets lr_commands lr_ended lr_hasMainTarget].
  - by rewrite EV.
  - intros k. specialize (T k). rewrite ET. case_decide as Hd; [|done]. destruct (lr_targets r !! k).
    + destruct T as (tm & -> & ?). simpl. eauto.
    + right. by destruct T as [-> | ->].
  - intros k. rewrite EC. destruct (decide (k = id)) as [->|Hk]; [rewrite !lookup_insert_eq; eauto|rewrite !lookup_insert_ne by done; apply C].
  - intros k cm. rewrite EC. destruct (decide (k = id)) as [->|Hk].
    + rewrite lookup_insert_eq. intros [= <-]. simpl. unfold set_string. destruct (String.eqb_spec (cm_TargetId (dc_fields c2)) "") as [E0|E0].
      * destruct (rm_Commands m !! id) eqn:El; simpl; [|done]. intros Hn. apply Hmono. by eapply R.
      * intros Hn. rewrite ET, decide_True by done. by eexists.
    + rewrite lookup_insert_ne by done. intros Hl Hn. apply Hmono. by eapply R.
  - intros Hm. rewrite EM. simpl. by apply M.
  - intros He. rewrite EE, EF. simpl. by apply E.
Qed.

Lemma agrees_run_delta r m b s e st f ended :
  agrees r m -> (ended = false -> lr_ended r = false /\ e = 0%Z /\ f = None) ->
  agrees (mkLogRun b (lr_targets r) (lr_commands r) ended (lr_hasMainTarget r)) (setManifestFields (run_fields s e st f) m).
Proof.
  intros [V T C R M E] He. destruct (set_run_fields s e st f m) as [ET EC].
  pose proof (set_fields_scalars (run_fields s e st f) m) as [= EV _ EE _ EM EF _ _ _].
  split; cbn [lr_targets lr_commands lr_ended lr_hasMainTarget]; rewrite ?ET, ?EC; try done.
  - by rewrite EV.
  - rewrite EM. apply M.
  - intros Hf. destruct (He Hf) as (Hr & -> & ->). rewrite EE, EF. simpl. by apply E.
Qed.

(** The bus is not part of what agrees. *)
Lemma agrees_ext r r' m :
  lr_targets r' = lr_targets r -> lr_commands r' = lr_commands r -> lr_ended r' = lr_ended r -> lr_hasMainTarget r' = lr_hasMainTarget r ->
  agrees r m -> agrees r' m.
Proof. destruct r, r'. simpl. intros -> -> -> -> []. by split. Qed.

Definition run_agrees (r : LogRun) : Prop := agrees r (run_manifest r).

Lemma run_manifest_build f r : rm_Version (run_manifest r) = 0%Z -> run_manifest (buildDelta f r) = setManifestFields f (run_manifest r).
Proof.
  intros V. unfold run_manifest. cbn [buildDelta on_bus lr_bus WriteDeltaManifest write_raw rawHistory]. rewrite manifest_snoc.
  unfold ApplyDelta, checkVersion. unfold run_manifest in V. by rewrite V.
Qed.

Lemma run_manifest_log l r : run_manifest (on_bus (WriteRawLog l) r) = run_manifest r.
Proof.
  unfold run_manifest. cbn [on_bus lr_bus WriteRawLog write_raw rawHistory]. rewrite manifest_snoc. unfold ApplyDelta. by destruct (checkVersion _ _).
Qed.

Lemma run_agrees_target id t t' t2 r :
  lr_targets r !! id = Some t -> run_agrees r -> (forall tm, target_agrees t tm -> target_agrees t' (merge_target tm t2)) ->
  run_agrees (targetDelta id t2 (put_target id t' r)).
Proof.
  intros Hl Hr Hm. pose proof (ag_targets _ _ Hr id) as Ht. rewrite Hl in Ht. destruct Ht as (tm & Etm & Htm).
  assert (lr_hasMainTarget r = true) as Hh.
  { destruct (lr_hasMainTarget r) eqn:E; [done|]. destruct (ag_main _ _ Hr E) as [E0 _]. by rewrite E0 in Hl. }
  unfold run_agrees, targetDelta. rewrite run_manifest_build by apply Hr.
  eapply agrees_ext; [| | | |apply (agrees_target_delta r _ "" id t2 t' Hr)]; try done.
  change (run_manifest (put_target id t' r)) with (run_manifest r). rewrite Etm. by apply Hm.
Qed.

Lemma run_agrees_command id c c' c2 r :
  lr_commands r !! id = Some c -> run_agrees r -> (forall cm, command_agrees c cm -> command_agrees c' (merge_command cm c2)) ->
  run_agrees (commandDelta id c2 (put_command id c' r)).
Proof.
  intros Hl Hr Hm. pose proof (ag_commands _ _ Hr id) as Hc. rewrite Hl in Hc. destruct Hc as (cm & Ecm & Hcm).
  unfold run_agrees, commandDelta. rewrite run_manifest_build by apply Hr.
  eapply agrees_ext; [| | | |apply (agrees_command_delta r _ id c2 c' Hr)]; try done.
  change (run_manifest (put_command id c' r)) with (run_manifest r). rewrite Ecm. by apply Hm.
Qed.

Lemma put_target_id id t r : lr_targets r !! id = Some t -> put_target id t r = r.
Proof. destruct r. simpl. intros Hl. unfold put_target. simpl. by rewrite insert_id. Qed.

Lemma put_command_id id c r : lr_commands r !! id = Some c -> put_command id c r = r.
Proof. destruct r. simpl. intros Hl. unfold put_command. simpl. by rewrite insert_id. Qed.

(** Deltas that leave the run's own record of a target or command as it is. *)
Lemma run_agrees_target_same id t2 r :
  tm_DependsOn t2 = [] -> run_agrees r -> run_agrees (on_target id (fun _ => targetDelta id t2) r).
Proof.
  intros Hd Hr. unfold on_target. destruct (lr_targets r !! id) as [t|] eqn:El; [|done].
  rewrite <- (put_target_id id t r El) at 1. eapply run_agrees_target; [done|done|]. intros tm [H1 H2]. unfold target_agrees. simpl.
  by rewrite Hd, app_nil_r.
Qed.

Lemma run_agrees_command_same id c2 r :
  cm_DependsOn (dc_fields c2) = [] -> cm_TargetId (dc_fields c2) = "" -> cm_HasProgress (dc_fields c2) = false ->
  cm_StartedAt (dc_fields c2) = 0%Z -> run_agrees r -> run_agrees (on_command id (fun _ => commandDelta id c2) r).
Proof.
  intros Hd Ht Hp Hs Hr. unfold on_command. destruct (lr_commands r !! id) as [c|] eqn:El; [|done].
  rewrite <- (put_command_id id c r El) at 1. eapply run_agrees_command; [done|done|]. intros cm (H1 & H2 & H3 & H4 & H5).
  unfold command_agrees. simpl. by rewrite Hd, app_nil_r, Ht, Hp, Hs.
Qed.

Lemma NewTarget_agrees id t args p n r : run_agrees r -> run_agrees (fst (NewTarget id t args p n r)).
Proof.
  intros Hr. unfold NewTarget. cbn [lr_targets]. destruct (lr_targets r !! id) as [t0|] eqn:El; cbn [fst].
  - unfold run_agrees. change (run_manifest _) with (run_manifest r). destruct Hr as [V T C R M E]. by split.
  - set (f := target_fields _ _ _).
    set (r1 := mkLogRun (lr_bus r) (lr_targets r) (lr_commands r) (lr_ended r) true).
    unfold run_agrees. change (run_manifest _) with (run_manifest (buildDelta f r1)).
    rewrite run_manifest_build by apply Hr.
    eapply agrees_ext; [| | | |apply (agrees_target_delta r _ _ id _ (mkLogTarget ∅) Hr)]; try done.
    pose proof (ag_targets _ _ Hr id) as Ht. rewrite El in Ht. by destruct Ht as [-> | ->]; split; [apply NoDup_nil_2| |apply NoDup_nil_2|].
Qed.

Lemma NewCommand_agrees isSSH id c t cat p b1 b2 b3 sl u h f r :
  run_agrees r -> run_agrees (fst (NewCommand isSSH id c t cat p b1 b2 b3 sl u h f r)).
Proof.
  intros Hr. unfold NewCommand. destruct (lr_commands r !! id) as [c0|] eqn:El; cbn [fst]; [done|]. set (fd := command_fields _ _).
  unfold run_agrees. change (run_manifest _) with (run_manifest (buildDelta fd r)). rewrite run_manifest_build by apply Hr.
  eapply agrees_ext; [| | | |apply (agrees_command_delta r _ id _ (mkLogCommand t empty_tail ∅ false 0) Hr)]; try done.
  pose proof (ag_commands _ _ Hr id) as Hc. rewrite El in Hc. rewrite Hc. unfold command_agrees. simpl. split_and!; try done.
  - unfold set_string. destruct (String.eqb_spec t ""); congruence.
  - apply NoDup_nil_2.
Qed.

Lemma run_agrees_run s e st f ended r :
  run_agrees r -> (ended = false -> lr_ended r = false /\ e = 0%Z /\ f = None) ->
  run_agrees (buildDelta (run_fields s e st f) (mkLogRun (lr_bus r) (lr_targets r) (lr_commands r) ended (lr_hasMainTarget r))).
Proof.
  intros Hr He. unfold run_agrees. rewrite run_manifest_build by apply Hr.
  eapply agrees_ext; [| | | |apply (agrees_run_delta r _ (lr_bus r) s e st f ended Hr He)]; done.
Qed.

Lemma Command_Write_agrees id dt t s r : run_agrees r -> run_agrees (Command_Write id dt t s r).
Proof.
  intros Hr. unfold Command_Write, on_command. destruct (lr_commands r !! id) as [c|] eqn:El; [|done].
  unfold run_agrees. rewrite run_manifest_log. change (run_manifest _) with (run_manifest r).
  destruct Hr as [V T C R M E]. split; try done. intros k. cbn [on_bus put_command lr_commands].
  destruct (decide (k = id)) as [->|Hk]; [|rewrite lookup_insert_ne by done; apply C].
  rewrite lookup_insert_eq. specialize (C id). by rewrite El in C.
Qed.

Lemma Target_AddDependsOn_agrees id d r : run_agrees r -> run_agrees (Target_AddDependsOn id d r).
Proof.
  intros Hr. unfold Target_AddDependsOn, on_target. destruct (lr_targets r !! id) as [t|] eqn:El; [|done]. case_decide as Hd; [done|].
  eapply run_agrees_target; [done|done|]. intros tm [H1 H2]. split; simpl.
  - apply list.NoDup_app. split_and!; [done| |apply NoDup_singleton]. intros x Hx ->%list_elem_of_singleton. apply Hd. rewrite <- H2. set_solver.
  - rewrite list_to_set_app_L. rewrite H2. set_solver.
Qed.

Lemma Command_AddDependsOn_agrees id d n r : run_agrees r -> run_agrees (Command_AddDependsOn id d n r).
Proof.
  intros Hr. unfold Command_AddDependsOn, on_command. destruct (lr_commands r !! id) as [c|] eqn:El; [|done]. case_decide as Hd; [done|].
  eapply run_agrees_command; [done|done|]. intros cm (H1 & H2 & H3 & H4 & H5). unfold command_agrees. simpl. rewrite fmap_app. simpl.
  split_and!; [done|done| | |done].
  - apply list.NoDup_app. split_and!; [done| |apply NoDup_singleton]. intros x Hx ->%list_elem_of_singleton. apply Hd. rewrite <- H4. set_solver.
  - rewrite list_to_set_app_L, H4. set_solver.
Qed.

Lemma Command_SetStart_agrees id t r : run_agrees r -> run_agrees (Command_SetStart id t r).
Proof.
  intros Hr. unfold Command_SetStart, on_command. destruct (lr_commands r !! id) as [c|] eqn:El; [|done]. destruct (lc_started c); [done|].
  eapply run_agrees_command; [done|done|]. intros cm (H1 & H2 & H3 & H4 & H5). unfold command_agrees. simpl. by rewrite app_nil_r.
Qed.

Lemma SetProgress_agrees id p r : run_agrees r -> run_agrees (SetProgress id p r).
Proof.
  intros Hr. unfold SetProgress, on_command. destruct (lr_commands r !! id) as [c|] eqn:El; [|done]. destruct (Z.eqb _ _); [done|].
  match goal with |- run_agrees (put_command id ?c' (commandDelta id ?c2 r)) =>
    change (put_command id c' (commandDelta id c2 r)) with (commandDelta id c2 (put_command id c' r)) end.
  eapply run_agrees_command; [done|done|]. intros cm (H1 & H2 & H3 & H4 & H5). unfold command_agrees. simpl. by rewrite app_nil_r.
Qed.

Lemma SetFatalError_agrees t tid cid ft h e r : run_agrees r -> run_agrees (SetFatalError t tid cid ft h e r).
Proof. intros Hr. unfold SetFatalError. destruct (lr_ended r) eqn:E; [done|]. by apply run_agrees_run. Qed.

Lemma Run_SetEnd_agrees t s r : run_agrees r -> run_agrees (Run_SetEnd t s r).
Proof. intros Hr. unfold Run_SetEnd. destruct (lr_ended r) eqn:E; [done|]. by apply run_agrees_run. Qed.

Lemma Run_SetStart_agrees t r : run_agrees r -> run_agrees (Run_SetStart t r).
Proof. intros Hr. destruct r as [b T C e h]. exact (run_agrees_run (ts (mkLogRun b T C e h) t) 0 RUN_STATUS_IN_PROGRESS None e (mkLogRun b T C e h) Hr
  (fun He => conj He (conj eq_refl eq_refl))). Qed.

(** Who is subscribed, formatted logs and generic ones are not in the manifest. *)
Lemma run_agrees_bus g r : rawHistory (g (lr_bus r)) = rawHistory (lr_bus r) -> run_agrees r -> run_agrees (on_bus g r).
Proof.
  intros Hg Hr. unfold run_agrees, run_manifest. cbn [on_bus lr_bus]. rewrite Hg. eapply agrees_ext; [| | | |apply Hr]; done.
Qed.

Lemma log_step_agrees isSSH r r' : log_step isSSH r r' -> run_agrees r -> run_agrees r'.
Proof.
  intros Hs Hr. destruct Hs;
    [by apply NewTarget_agrees|by apply NewCommand_agrees|by apply Run_SetStart_agrees|by apply SetFatalError_agrees|by apply Run_SetEnd_agrees|
     by apply (run_agrees_target_same id (times_target _ _ _ _))|by apply (run_agrees_target_same id (times_target _ _ _ _))|
     by apply Target_AddDependsOn_agrees|by apply Command_Write_agrees|by apply Command_SetStart_agrees|by apply Command_AddDependsOn_agrees|
     by apply SetProgress_agrees|by apply run_agrees_command_same| | |by apply run_agrees_command_same| | | | | |];
    try (by apply run_agrees_bus).
  - by apply (run_agrees_command_same id (status_command _ _ _ _)).
  - destruct e as [[text canceled]|]; by apply (run_agrees_command_same id (status_command _ _ _ _)).
  - unfold Generic_Write, run_agrees. rewrite run_manifest_log. eapply agrees_ext; [| | | |apply Hr]; done.
Qed.

Lemma newRun_agrees t : run_agrees (newRun (NewBus t)).
Proof. split; try done. intros id. by left. Qed.

Lemma reachable_agrees isSSH t r : rtc (log_step isSSH) (newRun (NewBus t)) r -> run_agrees r.
Proof. intros Hr. eapply (rtc_keeps _ run_agrees); [apply log_step_agrees|done|apply newRun_agrees]. Qed.

(** The manifest after a step, where the step's delta leaves alone what is settled. *)
Lemma log_step_settled isSSH r r' :
  log_step isSSH r r' -> rm_Version (run_manifest r) = 0%Z ->
  (lr_ended r = true -> rm_Failure (run_manifest r') = rm_Failure (run_manifest r) /\ rm_EndedAt (run_manifest r') = rm_EndedAt (run_manifest r)) /\
  (lr_hasMainTarget r = true -> rm_MainTargetId (run_manifest r') = rm_MainTargetId (run_manifest r)).
Proof.
  intros Hs V. destruct (log_step_history _ _ _ Hs) as (_ & _ & [Hh|[[l Hh]|(f & Hh & He & Hm)]]);
    unfold run_manifest in *; rewrite Hh; [done| |]; rewrite manifest_snoc.
  { unfold ApplyDelta. by destruct (checkVersion _ _). }
  unfold ApplyDelta, checkVersion. rewrite V. cbn [Z.eqb negb andb d_Version d_type fst].
  pose proof (set_fields_scalars f (manifest_of (rawHistory (lr_bus r)))) as [= _ _ EE _ EM EF _ _ _]. rewrite EE, EM, EF. split.
  - intros Hx. destruct (He Hx) as [E1 E2]. unfold scalar_fields. simpl. by rewrite E1, E2.
  - intros Hx. unfold scalar_fields. simpl. by rewrite (Hm Hx).
Qed.
End Manifest.

(** ** Properties *)

Section Properties.
Context `{DeltaOrderLaws}.

(** Formatted logs do not change a manifest. *)
Lemma manifest_raw_part l : manifest_of (raw_part l) = manifest_of l.
Proof.
  unfold manifest_of. generalize no_manifest. induction l as [|d l IH]; intros m; [done|]. unfold raw_part. simpl.
  destruct (is_formatted d) eqn:E; simpl; [|apply IH]. unfold raw_part in IH. rewrite IH. f_equal.
  unfold is_formatted in E. unfold ApplyDelta. destruct (checkVersion m d); [done|]. by destruct (d_type d).
Qed.

Lemma reachable_bus isSSH t r : rtc (log_step isSSH) (newRun (NewBus t)) r -> bus_ok (lr_bus r).
Proof.
  intros Hr. eapply (rtc_keeps _ (fun r => bus_ok (lr_bus r))); [|done|apply NewBus_ok].
  intros x y Hxy Hb. eapply bus_change_ok; [by eapply log_step_bus|done].
Qed.

(** C16. Whatever has happened to a run, and whenever a subscriber of the raw deltas was added, the
    manifest it builds by applying the deltas it was given is the run's: it has the run's commands
    and no others, the run's targets and otherwise only blank ones that commands name, every
    dependency once, the last progress of every command, the target of every command, and no end
    and no failure before the run has ended. *)
Theorem raw_subscriber_manifest isSSH t r s :
  rtc (log_step isSSH) (newRun (NewBus t)) r -> s ∈ rawSubs (lr_bus r) -> agrees r (manifest_of (got (lr_bus r) s)).
Proof.
  intros Hr Hs. destruct (reachable_bus _ _ _ Hr) as (_ & _ & _ & _ & HR & _).
  rewrite <- manifest_raw_part, (HR s Hs). by eapply reachable_agrees.
Qed.

(** Once a run has ended, by an error or otherwise, nothing that happens to it changes its end
    or its failure, and once a target was made nothing changes which is the main one. *)
Theorem ended_run_settled isSSH t r r' :
  rtc (log_step isSSH) (newRun (NewBus t)) r -> rtc (log_step isSSH) r r' ->
  (lr_ended r = true -> rm_Failure (run_manifest r') = rm_Failure (run_manifest r) /\ rm_EndedAt (run_manifest r') = rm_EndedAt (run_manifest r)) /\
  (lr_hasMainTarget r = true -> rm_MainTargetId (run_manifest r') = rm_MainTargetId (run_manifest r)).
Proof.
  intros Hr Hrr. induction Hrr as [r|r r1 r' Hs _ IH]; [done|].
  destruct (IH (rtc_r _ _ _ Hr Hs)) as [I1 I2]. destruct (log_step_history _ _ _ Hs) as (K1 & K2 & _).
  destruct (log_step_settled _ _ _ Hs (ag_version _ _ (reachable_agrees _ _ _ Hr))) as [S1 S2]. split; intros Hx.
  - destruct (I1 (K1 Hx)) as [-> ->]. by apply S1.
  - rewrite (I2 (K2 Hx)). by apply S2.
Qed.
End Properties.

(** ** Witnesses *)

Definition listed_order : DeltaOrder := {| range_targets := map_to_list; range_commands := map_to_list |}.

Lemma listed_order_laws : @DeltaOrderLaws listed_order.
Proof. by split. Qed.

(** A target, a command in it that writes and depends on another target twice, and a failure;
    then a subscriber, which is given what has happened. *)
Definition demo_failed : LogRun :=
  SetFatalError 20 "t1" "c1" FAILURE_TYPE_NONZERO_EXIT "" "exit code 1"
    (Command_AddDependsOn "c1" "t2" "+b" (Command_AddDependsOn "c1" "t2" "+b" (Command_Write "c1" "oops" 15 stderr
      (fst (NewCommand (fun _ => false) "c1" "RUN false" "t1" "" "" false false false None "" "" ""
        (fst (NewTarget "t1" (mkRef KTarget "" "" "." "" "build") [] "" "" (newRun (NewBus 10))))))))).

Definition demo_run : LogRun := Run_SetEnd 30 RUN_STATUS_SUCCESS (on_bus (AddRawSubscriber 7) demo_failed).

Lemma demo_failed_reachable : rtc (log_step (fun _ => false)) (newRun (NewBus 10)) demo_failed.
Proof.
  unfold demo_failed. eapply rtc_r; [|apply log_SetFatalError]. eapply rtc_r; [|apply log_Command_AddDependsOn].
  eapply rtc_r; [|apply log_Command_AddDependsOn]. eapply rtc_r; [|apply log_Command_Write]. eapply rtc_r; [|apply log_NewCommand].
  eapply rtc_r; [|apply log_NewTarget]. apply rtc_refl.
Qed.

Lemma demo_run_after : rtc (log_step (fun _ => false)) demo_failed demo_run.
Proof.
  eapply rtc_r; [|apply log_SetEnd]. eapply rtc_r; [apply rtc_refl|]. apply log_AddRaw. split; [by apply not_elem_of_nil|]. by vm_compute.
Qed.

Lemma raw_subscriber_manifest_witness :
  agrees demo_run (@manifest_of listed_order (got (lr_bus demo_run) 7)) /\
  (fm_Output <$> rm_Failure (@manifest_of listed_order (got (lr_bus demo_run) 7))) = Some "oops" /\
  (cm_DependsOn <$> rm_Commands (@manifest_of listed_order (got (lr_bus demo_run) 7)) !! "c1") = Some [mkCommandTarget "t2" "+b"].
Proof.
  split_and!; [|by vm_compute|by vm_compute].
  apply (@raw_subscriber_manifest listed_order listed_order_laws (fun _ => false) 10 demo_run 7).
  - etrans; [apply demo_failed_reachable|apply demo_run_after].
  - apply list_elem_of_singleton. reflexivity.
Defined.

Lemma ended_run_settled_witness :
  rm_Failure (@run_manifest listed_order demo_run) = rm_Failure (@run_manifest listed_order demo_failed) /\
  rm_EndedAt (@run_manifest listed_order demo_run) = rm_EndedAt (@run_manifest listed_order demo_failed).
Proof.
  apply (@ended_run_settled listed_order listed_order_laws (fun _ => false) 10 demo_failed demo_run demo_failed_reachable demo_run_after).
  vm_compute. reflexivity.
Defined.
