(* ===== verification/ConsLog.v ===== *)
(** * The console

    A translation of [conslogging] ([conslogging.go], [prefix_formatter.go], [color.go] and
    [buffered.go]) and of [util/progressbar]: what is written for a message, with its prefix and
    its colours.

    A method returns what it writes.  The colours that were given to prefixes are shared by all
    loggers made from one another, and so is the cache of prefixes ([Shared]).  Where a message
    goes is a value of a type [W] of writers; [with_prefix] is the method of a [PrefixWriter].
    What a colour does to a text is a parameter ([paint]); the colour that is disabled does
    nothing.  Methods are those of a logger that is not nil. *)

From stdpp Require Import gmap.
From S2P Require Import Prelude GoStrings Token GoText Numbers Reference.

(** ** Prefixes *)

Section Prefix.

Definition blen (s : string) : Z := Z.of_nat (String.length s).
Definition byte_rune (c : ascii) : string := EncodeRune (byteZ c).
Definition first_rune (s : string) : string := match s with "" => "" | String c _ => byte_rune c end.

Definition is_NL (c : ascii) : bool := Ascii.eqb c "010".

(** [truncateURL]: the function that is called for every match of [urlPathPartRegex], which is a
    piece of a line up to its next slash; what is left of the length is threaded. *)
Definition shorten_part (part : string) (padding curLen : Z) : string * Z :=
  if (curLen <=? padding)%Z || (blen part <=? 1)%Z || String.eqb part ".." then (part, curLen)
  else if HasSuffix part "/" then (first_rune part +:+ "/", curLen - (blen part - 1))%Z
  else (first_rune part, curLen - (blen part - 1))%Z.

Fixpoint url_parts (s acc : string) (padding curLen : Z) : string :=
  match s with
  | "" => acc
  | String c s =>
      let acc := acc +:+ String c "" in
      if Ascii.eqb c "/" then
        let '(part, curLen) := shorten_part acc padding curLen in part +:+ url_parts s "" padding curLen
      else if is_NL c then acc +:+ url_parts s "" padding curLen
      else url_parts s acc padding curLen
  end.

Definition truncateURL (str : string) (padding curLen : Z) : string := url_parts str "" padding curLen.

(** [githubRegex]: a colon, 40 hexadecimal digits and a plus sign. *)
Definition lower_hex_byte (c : ascii) : bool :=
  let z := byteZ c in ((97 <=? z) && (z <=? 102) || (48 <=? z) && (z <=? 57))%Z.

Definition sha_at (s : string) : bool :=
  HasPrefix s ":" && (String.length (slice 1 41 s) =? 40) && sall lower_hex_byte (slice 1 41 s) && HasPrefix (sdrop 41 s) "+".

(** [skip] bytes belong to a match that was replaced. *)
Fixpoint replace_sha (s : string) (skip : nat) : string :=
  match s with
  | "" => ""
  | String c s' =>
      match skip with
      | S skip => replace_sha s' skip
      | 0 => if sha_at s then stake 8 s +:+ "+" +:+ replace_sha s' 41 else String c (replace_sha s' 0)
      end
  end.

Definition truncateSha (str : string) (_ _ : Z) : string := replace_sha str 0.

(** The first byte at or after [from] that satisfies [p], if no line ends before it. *)
Fixpoint find_in_line (p : string -> bool) (from : nat) (s : string) : option nat :=
  match s with
  | "" => None
  | String c s' =>
      if (from =? 0) && p s then Some 0
      else if is_NL c then None
      else option_map S (find_in_line p (pred from) s')
  end.

Definition normalize (s : string) : string := if HasPrefix s "./" then "./" +:+ Clean s else Clean s.

(** [urlPrefixRegex] *)
Definition url_protocol (s : string) : string :=
  match find_in_line (fun t => HasPrefix t "//") 1 s with Some i => stake (i + 2) s | None => "" end.

(** The function of [truncateGITURL], for what is between the parentheses. *)
Definition shorten_git_url (s : string) (padding curLen : Z) : string * Z :=
  let urlProtocol := url_protocol s in
  let s := TrimPrefix s urlProtocol in
  let l1 := blen s in
  let s := normalize s in
  let curLen := (curLen - (l1 - blen s))%Z in
  if (curLen <=? padding)%Z then ("(" +:+ s +:+ ")", curLen)
  else ("(" +:+ urlProtocol +:+ truncateURL s padding curLen +:+ ")", curLen).

(** [gitURLRegex]: an opening parenthesis, at least one byte and the next closing one. *)
Fixpoint replace_git_url (s : string) (skip : nat) (padding curLen : Z) : string :=
  match s with
  | "" => ""
  | String c s' =>
      match skip with
      | S skip => replace_git_url s' skip padding curLen
      | 0 =>
          match (if Ascii.eqb c "(" then find_in_line (fun t => HasPrefix t ")") 1 s' else None) with
          | Some i =>
              let '(text, curLen) := shorten_git_url (stake i s') padding curLen in
              text +:+ replace_git_url s' (S i) padding curLen
          | None => String c (replace_git_url s' 0 padding curLen)
          end
      end
  end.

Definition truncateGITURL (str : string) (padding curLen : Z) : string := replace_git_url str 0 padding curLen.

(** [targetURLRegex]: from the start to the next colon or plus sign. *)
Definition truncateTargetURL (str : string) (padding curLen : Z) : string :=
  match find_in_line (fun t => HasPrefix t ":" || HasPrefix t "+") 1 str with
  | None => str
  | Some i =>
      let s := normalize (stake i str) in
      let curLen := (curLen - (Z.of_nat i - blen s))%Z in
      (if (curLen <=? padding)%Z then s else truncateURL s padding curLen) +:+ sdrop i str
  end.

(** [gitURLWithCredsRegex], whose match ends at the end of the text, so that it starts after the
    last newline; every part is the shortest. *)
Fixpoint last_line (s acc : string) : string :=
  match s with
  | "" => acc
  | String c s => last_line s (if is_NL c then "" else acc +:+ String c "")
  end.

Definition first_width (s : string) : nat := snd (DecodeRuneInString s).

(** The text up to the next separator, which is not at the start, and the text after it. *)
Definition cut_part (p : string -> bool) (width : string -> nat) (s : string) : option (string * string) :=
  match find_in_line p (first_width s) s with
  | Some i => Some (stake i s, sdrop (width (sdrop i s)) (sdrop i s))
  | None => None
  end.

Definition creds_parts (str : string) : option (string * string * string * string * string) :=
  '(protocol, s) ← cut_part (fun t => HasPrefix t "://") (fun _ => 3) (last_line str "");
  '(user, s) ← cut_part (fun t => HasPrefix t ":") (fun _ => 1) s;
  '(password, s) ← cut_part (fun t => HasPrefix t "@") (fun _ => 1) s;
  '(repoURL, ref) ← cut_part (fun t => HasPrefix (sdrop (first_width t) t) "git#") (fun t => first_width t + 4) s;
  if String.eqb ref "" then None else Some (protocol, user, password, repoURL, ref).

(** One part of the loop over the named groups. *)
Definition shorten_group (is_repo : bool) (part : string) (padding curLen : Z) : string * Z :=
  if (curLen <=? padding)%Z || String.eqb part "" then (part, curLen)
  else if is_repo then let t := truncateURL part padding curLen in (t, curLen - (blen part - blen t))%Z
  else (first_rune part, curLen - (blen part - 1))%Z.

Definition truncateURLWithCreds (str : string) (padding curLen : Z) : string :=
  match creds_parts str with
  | None => str
  | Some (protocol, user, password, repoURL, ref) =>
      let '(protocol, curLen) := shorten_group false protocol padding curLen in
      let '(user, curLen) := shorten_group false user padding curLen in
      let '(password, curLen) := shorten_group false password padding curLen in
      let '(repoURL, curLen) := shorten_group true repoURL padding curLen in
      let '(ref, curLen) := shorten_group false ref padding curLen in
      protocol +:+ "://" +:+ user +:+ ":" +:+ password +:+ "@" +:+ repoURL +:+ "#" +:+ ref
  end.

Definition formatOpt : Type := string -> Z -> Z -> string.
Definition formatOpts : list formatOpt := [truncateURLWithCreds; truncateSha; truncateGITURL; truncateTargetURL].

Definition NoPadding : Z := -1.
Definition DefaultPadding : Z := 20.

Definition getKey (prefix : string) (padding : Z) : string := prefix +:+ "-" +:+ pretty padding.

(** The loop over the options, which stops when the prefix is short enough. *)
Fixpoint apply_opts (opts : list formatOpt) (prefix : string) (padding : Z) : string :=
  match opts with
  | [] => prefix
  | opt :: opts => if (blen prefix <=? padding)%Z then prefix else apply_opts opts (opt prefix padding (blen prefix)) padding
  end.

Fixpoint Repeat (s : string) (n : nat) : string := match n with 0 => "" | S n => s +:+ Repeat s n end.

(** [fmt.Sprintf("%*s", padding, prefix)], which counts runes. *)
Definition pad_left (padding : Z) (s : string) : string := Repeat " " (Z.to_nat (padding - Z.of_nat (length (runes s)))) +:+ s.

Definition Format (opts : list formatOpt) (prefix : string) (padding : Z) (cache : gmap string string) : gmap string string * string :=
  if (padding <=? NoPadding)%Z then (cache, prefix)
  else match cache !! getKey prefix padding with
       | Some s => (cache, s)
       | None => let s := pad_left padding (apply_opts opts prefix padding) in (<[getKey prefix padding := s]> cache, s)
       end.
End Prefix.

(** ** Colours *)

Inductive Color : Type :=
| noColor | cachedColor | metadataModeColor | phaseColor | disabledPhaseColor | specialPhaseColor | successColor | warnColor
| localColor | helpColor
| prefixColor (i : nat).

(** [len(availablePrefixColors)] *)
Definition prefix_colors : nat := 9.

(** The terminal: [color.NoColor] and what [Fprintf] of a colour writes. *)
Class Paint : Type := { color_NoColor : bool; paint : Color -> string -> string }.

(** [c.Fprintf(w, "%s", s)] *)
Definition Fprint `{Paint} (c : Color) (s : string) : string := match c with noColor => s | _ => paint c s end.

(** What the loggers made from one share. *)
Record Shared : Type := mkShared { saltColors : gmap string Color; nextColorIndex : nat; prefixCache : gmap string string }.

Definition no_shared : Shared := mkShared ∅ 0 ∅.

(** ** Loggers *)

Inductive LogLevel : Type := Silent | Warn | Info | Verbose | Debug.

Definition level (l : LogLevel) : nat := match l with Silent => 0 | Warn => 1 | Info => 2 | Verbose => 3 | Debug => 4 end.

Record ConsoleLogger (W : Type) : Type := mkLogger {
  prefixWriter : option W; consoleErrW : W; errW : W; salt : string; prefix : string; logLevel : LogLevel; prefixPadding : Z;
  githubAnnotations : bool; isFailed : bool; isCached : bool; isLocal : bool; metadataMode : bool; trailingLine : bool
}.
Arguments mkLogger {W}. Arguments prefixWriter {W}. Arguments consoleErrW {W}. Arguments errW {W}. Arguments salt {W}.
Arguments prefix {W}. Arguments logLevel {W}. Arguments prefixPadding {W}. Arguments githubAnnotations {W}. Arguments isFailed {W}.
Arguments isCached {W}. Arguments isLocal {W}. Arguments metadataMode {W}. Arguments trailingLine {W}.

(** What a method does outside: it writes to a writer, to the standard output, or appends to a file. *)
Inductive Event (W : Type) : Type :=
| Written (w : W) (s : string)
| Stdout (s : string)
| Appended (path s : string).
Arguments Written {W}. Arguments Stdout {W}. Arguments Appended {W}.

Section Logger.
Context `{Paint} {W : Type} (with_prefix : W -> string -> W).
Implicit Types (l : ConsoleLogger W) (sh : Shared).

Definition NewLogger (w : W) (padding : Z) (lev : LogLevel) (gha : bool) : ConsoleLogger W :=
  mkLogger None w w "" "" lev padding gha false false false false false.

Definition clone l : ConsoleLogger W :=
  mkLogger (prefixWriter l) (consoleErrW l) (errW l) (salt l) (prefix l) (logLevel l) (prefixPadding l) (githubAnnotations l)
    (isFailed l) (isCached l) (isLocal l) (metadataMode l) false.

Definition WithPrefixAndSalt l (prefix0 salt0 : string) : ConsoleLogger W :=
  let pw := option_map (fun w => with_prefix w prefix0) (prefixWriter l) in
  mkLogger pw (consoleErrW l) (default (errW l) pw) salt0 prefix0 (logLevel l) (prefixPadding l) (githubAnnotations l)
    (isFailed l) (isCached l) (isLocal l) (metadataMode l) false.

Definition WithPrefix l (prefix0 : string) : ConsoleLogger W := WithPrefixAndSalt l prefix0 prefix0.

Definition WithMetadataMode l (b : bool) : ConsoleLogger W :=
  mkLogger (prefixWriter l) (consoleErrW l) (errW l) (salt l) (prefix l) (logLevel l) (prefixPadding l) (githubAnnotations l)
    (isFailed l) (isCached l) (isLocal l) b false.
Definition WithLocal l (b : bool) : ConsoleLogger W :=
  mkLogger (prefixWriter l) (consoleErrW l) (errW l) (salt l) (prefix l) (logLevel l) (prefixPadding l) (githubAnnotations l)
    (isFailed l) (isCached l) b (metadataMode l) false.
Definition WithCached l (b : bool) : ConsoleLogger W :=
  mkLogger (prefixWriter l) (consoleErrW l) (errW l) (salt l) (prefix l) (logLevel l) (prefixPadding l) (githubAnnotations l)
    (isFailed l) b (isLocal l) (metadataMode l) false.
Definition WithFailed l (b : bool) : ConsoleLogger W :=
  mkLogger (prefixWriter l) (consoleErrW l) (errW l) (salt l) (prefix l) (logLevel l) (prefixPadding l) (githubAnnotations l)
    b (isCached l) (isLocal l) (metadataMode l) false.
Definition WithWriter l (w : W) : ConsoleLogger W :=
  mkLogger (prefixWriter l) (consoleErrW l) w (salt l) (prefix l) (logLevel l) (prefixPadding l) (githubAnnotations l)
    (isFailed l) (isCached l) (isLocal l) (metadataMode l) false.
Definition WithPrefixWriter l (w : W) : ConsoleLogger W :=
  mkLogger (Some w) (consoleErrW l) w (salt l) (prefix l) (logLevel l) (prefixPadding l) (githubAnnotations l)
    (isFailed l) (isCached l) (isLocal l) (metadataMode l) false.
Definition WithLogLevel l (lev : LogLevel) : ConsoleLogger W :=
  mkLogger (prefixWriter l) (consoleErrW l) (errW l) (salt l) (prefix l) lev (prefixPadding l) (githubAnnotations l)
    (isFailed l) (isCached l) (isLocal l) (metadataMode l) false.

(** The method [color]. *)
Definition color (c : Color) : Color := if color_NoColor then noColor else c.

Definition PrefixColor l sh : Shared * Color :=
  match saltColors sh !! salt l with
  | Some c => (sh, color c)
  | None =>
      let c := prefixColor (nextColorIndex sh) in
      (mkShared (<[salt l := c]> (saltColors sh)) ((nextColorIndex sh + 1) mod prefix_colors) (prefixCache sh), color c)
  end.

Definition prettyPrefix (padding : Z) (prefix0 : string) sh : Shared * string :=
  let '(cache, s) := Format formatOpts prefix0 padding (prefixCache sh) in (mkShared (saltColors sh) (nextColorIndex sh) cache, s).

(** [printPrefix] *)
Definition printPrefix l sh : Shared * string :=
  match prefixWriter l with
  | Some _ => (sh, "")
  | None =>
      if String.eqb (prefix l) "" then (sh, "")
      else
        let '(sh, c) := PrefixColor l sh in
        let '(sh, p) := prettyPrefix (prefixPadding l) (prefix l) sh in
        (sh, Fprint c p
             +:+ (if isLocal l then " *" +:+ Fprint (color localColor) "local" +:+ "*" else "")
             +:+ (if isFailed l then " *" +:+ Fprint (color warnColor) "failed" +:+ "*" else "")
             +:+ " | "
             +:+ (if isCached l then "*" +:+ Fprint (color cachedColor) "cached" +:+ "* " else ""))
  end.

(** [w.WriteTo(l.errW)]: a buffer that is empty is not written. *)
Definition emit l (s : string) : list (Event W) := if String.eqb s "" then [] else [Written (errW l) s].

Definition message_color l : Color := if metadataMode l then color metadataModeColor else color noColor.

(** The lines of [colorPrint]. *)
Fixpoint print_lines l (c : Color) (lines : list string) sh : Shared * string :=
  match lines with
  | [] => (sh, "")
  | line :: lines =>
      let '(sh, p) := printPrefix l sh in
      let '(sh, rest) := print_lines l c lines sh in
      (sh, p +:+ Fprint c line +:+ NLs +:+ rest)
  end.

Definition colorPrint l (lev : LogLevel) (c : Color) (msg : string) sh : Shared * list (Event W) :=
  if level (logLevel l) <? level lev then (sh, [])
  else let '(sh, s) := print_lines l c (Split (TrimSuffix msg NLs) "010") sh in (sh, emit l s).

Definition ColorPrint l (c : Color) (msg : string) sh : Shared * list (Event W) := colorPrint l Info c msg sh.
Definition Print l (msg : string) sh : Shared * list (Event W) := ColorPrint l (message_color l) msg sh.
Definition Warnp l (msg : string) sh : Shared * list (Event W) := colorPrint l Warn (color warnColor) msg sh.
Definition VerboseWarn l (msg : string) sh : Shared * list (Event W) :=
  if level (logLevel l) <? level Verbose then (sh, []) else Warnp l msg sh.
Definition HelpPrint l (msg : string) sh : Shared * list (Event W) :=
  ColorPrint l (color helpColor) (NLs +:+ "Help: " +:+ msg +:+ NLs) sh.
Definition VerbosePrint l (msg : string) sh : Shared * list (Event W) :=
  if level (logLevel l) <? level Verbose then (sh, []) else Print (WithMetadataMode l true) msg sh.
Definition DebugPrint l (msg : string) sh : Shared * list (Event W) :=
  if level (logLevel l) <? level Debug then (sh, []) else Print (WithMetadataMode l true) msg sh.

(** The loop of [PrintBytes]: [output] is what was read and not written, [trailing] says that a
    line has begun. *)
Fixpoint bytes_loop l (c : Color) (fuel : nat) (data output : string) (trailing : bool) sh : Shared * string * bool :=
  match fuel, data with
  | S fuel, String _ _ =>
      let '(r, size) := DecodeRuneInString data in
      let ch := stake size data in
      let data := sdrop size data in
      if (r =? 13)%Z || (r =? 10)%Z then bytes_loop l c fuel data (output +:+ ch) false sh
      else if trailing then bytes_loop l c fuel data (output +:+ ch) true sh
      else
        let before := if String.eqb output "" then "" else Fprint c output in
        let '(sh, p) := printPrefix l sh in
        let '(sh, rest, trailing) := bytes_loop l c fuel data ch true sh in
        (sh, before +:+ p +:+ rest, trailing)
  | _, _ => (sh, if String.eqb output "" then "" else Fprint c output, trailing)
  end.

(** [PrintBytes] sets the [trailingLine] of the logger it is called on. *)
Definition PrintBytes l (data : string) sh : ConsoleLogger W * Shared * list (Event W) :=
  let '(sh, s, trailing) := bytes_loop l (message_color l) (String.length data) data "" (trailingLine l) sh in
  (mkLogger (prefixWriter l) (consoleErrW l) (errW l) (salt l) (prefix l) (logLevel l) (prefixPadding l) (githubAnnotations l)
     (isFailed l) (isCached l) (isLocal l) (metadataMode l) trailing, sh, emit l s).

(** [VerboseBytes] and [DebugBytes] print with a copy of the logger. *)
Definition VerboseBytes l (data : string) sh : Shared * list (Event W) :=
  if level (logLevel l) <? level Verbose then (sh, [])
  else let '(_, sh, ev) := PrintBytes (WithMetadataMode l true) data sh in (sh, ev).
Definition DebugBytes l (data : string) sh : Shared * list (Event W) :=
  if level (logLevel l) <? level Debug then (sh, [])
  else let '(_, sh, ev) := PrintBytes (WithMetadataMode l true) data sh in (sh, ev).

(** ** Bars, phases and GitHub Actions *)

Definition barWidth : Z := 80.

Definition rune_count (s : string) : Z := Z.of_nat (length (runes s)).

Definition bar_text (msg phase : string) : string :=
  let center := " " +:+ (if String.eqb phase "" then msg else msg +:+ " [" +:+ phase +:+ "]") +:+ " " in
  let sideWidth := Z.max (Z.quot (barWidth - rune_count center) 2) 0 in
  let eqBar := Repeat "=" (Z.to_nat sideWidth) in
  let rightBar := if (Z.rem (rune_count center) 2 =? 1)%Z && (0 <? sideWidth)%Z then eqBar +:+ "=" else eqBar in
  eqBar +:+ center +:+ rightBar.

Definition PrintBar l (c : Color) (msg phase : string) : list (Event W) :=
  emit l (NLs +:+ Fprint (color c) (bar_text msg phase) +:+ NLs +:+ NLs).

Definition PrintSuccess l : list (Event W) := PrintBar l successColor "🌍 Earth Build  ✅ SUCCESS" "".
Definition PrintFailure l (phase : string) : list (Event W) := PrintBar l warnColor "❌ FAILURE" phase.

Definition errorCommand : string := "::error".
Definition groupCommand : string := "::group::".
Definition endGroupCommand : string := "::endgroup::".

Definition printGithubActionsControl l (header msg : string) : list (Event W) :=
  if negb (githubAnnotations l) then []
  else emit l (header +:+ " " +:+ (if HasSuffix msg NLs then "" else NLs) +:+ msg).

(** The control is written at once, the text when the method returns. *)
Definition PrintPhaseHeader l (phase : string) (disabled : bool) (special : string) : list (Event W) :=
  let '(c, msg) :=
    if disabled then (color disabledPhaseColor, phase +:+ " (disabled)")
    else if String.eqb special "" then (color phaseColor, phase)
    else (color specialPhaseColor, phase +:+ " (" +:+ special +:+ ")") in
  let underlineLength := Z.max (rune_count msg + 2) barWidth in
  printGithubActionsControl l groupCommand msg ++
  emit l (Fprint c (" " +:+ msg) +:+ NLs +:+ Fprint c (Repeat "—" (Z.to_nat underlineLength)) +:+ NLs +:+ NLs).

Definition PrintPhaseFooter l (phase : string) : list (Event W) :=
  printGithubActionsControl l endGroupCommand phase ++ emit l (Fprint (color noColor) NLs).

(** [GHAError.FormattedMessage], with the option of a source location. *)
Definition FormattedMessage (message : string) (loc : option (string * Z * Z)) : string :=
  match loc with
  | Some (file, line, col) =>
      if String.eqb file "" then "title=Error::" +:+ message
      else "file=" +:+ file +:+ ",line=" +:+ pretty line +:+ ",col=" +:+ pretty col +:+ ",title=Error::" +:+ message
  | None => "title=Error::" +:+ message
  end.

Definition PrintGHAError l (message : string) (loc : option (string * Z * Z)) : list (Event W) :=
  printGithubActionsControl l errorCommand (FormattedMessage message loc).

(** [PrintGHASummary], for the value of GITHUB_STEP_SUMMARY and whether its file can be opened.
    [fmt.Print(w, message)] prints the empty buffer and the message to the standard output. *)
Definition PrintGHASummary l (path : string) (opens : bool) (message : string) : list (Event W) :=
  if negb (githubAnnotations l) then []
  else if String.eqb path "" then [Stdout message]
  else if opens then [Appended path (message +:+ NLs)]
  else [].

(** ** [BufferedLogger] *)

Definition Buffered_Printf (queue : list string) (msg : string) : list string := queue ++ [msg].

Fixpoint Flush l (queue : list string) sh : Shared * list (Event W) :=
  match queue with
  | [] => (sh, [])
  | s :: queue => let '(sh, ev) := Print l s sh in let '(sh, rest) := Flush l queue sh in (sh, ev ++ rest)
  end.
End Logger.

(** ** [progressbar.ProgressBar] *)

Definition progressChars : list string := [" "; "1"; "2"; "3"; "4"; "5"; "6"; "7"; "8"; "9"; "-"].

Definition ProgressBar (progress width : Z) : string :=
  let progress := if (100 <? progress)%Z then 100%Z else progress in
  let progress := if (progress <? 0)%Z then 0%Z else progress in
  let fullChars := Z.quot (progress * width) 100 in
  let blankChars := (width - fullChars - 1)%Z in
  let deltaProgress := Z.quot (Z.rem (progress * width) 100 * 11) 100 in
  Repeat "-" (Z.to_nat fullChars)
  +:+ (if (progress =? 100)%Z then "" else nth (Z.to_nat deltaProgress) progressChars "")
  +:+ Repeat " " (Z.to_nat blankChars).

(** ** Facts *)

Lemma Repeat_length s n : String.length (Repeat s n) = n * String.length s.
Proof. induction n as [|n IH]; [done|]. simpl. rewrite length_sapp, IH. lia. Qed.

(** The bar has the width it is asked for, whatever the progress is. *)
Lemma ProgressBar_length progress width : (0 < width)%Z -> Z.of_nat (String.length (ProgressBar progress width)) = width.
Proof.
  intros Hw. unfold ProgressBar. set (p := if (_ <? 0)%Z then _ else _).
  assert (0 <= p <= 100)%Z as Hp by (unfold p; repeat case_match; lia). clearbody p. rewrite !length_sapp, !Repeat_length.
  change (String.length "-") with 1. change (String.length " ") with 1.
  rewrite Z.quot_div_nonneg, Z.rem_mod_nonneg by lia.
  destruct (Z.eqb_spec p 100) as [->|Hn].
  - replace (100 * width / 100)%Z with width by (rewrite Z.mul_comm, Z.div_mul; lia). simpl. lia.
  - assert (p * width / 100 < width)%Z by (apply Z.div_lt_upper_bound; nia). assert (0 <= p * width / 100)%Z by (apply Z.div_pos; nia).
    assert (0 <= (p * width) mod 100 < 100)%Z by (apply Z.mod_pos_bound; lia).
    set (d := Z.to_nat (Z.quot ((p * width) mod 100 * 11) 100)).
    assert (d < 11) as Hd.
    { unfold d. rewrite Z.quot_div_nonneg by lia. assert ((p * width) mod 100 * 11 / 100 < 11)%Z by (apply Z.div_lt_upper_bound; lia). lia. }
    assert (String.length (nth d progressChars "") = 1) as ->; [|lia].
    clearbody d. by do 11 (destruct d as [|d]; [done|]); lia.
Qed.

(** *** The cache of prefixes *)

(** Every entry is what would be computed for its prefix and padding. *)
Definition cache_sound (opts : list formatOpt) (cache : gmap string string) : Prop :=
  forall k v, cache !! k = Some v ->
  exists prefix padding, (NoPadding < padding)%Z /\ k = getKey prefix padding /\ v = pad_left padding (apply_opts opts prefix padding).

Lemma key_cancel p d p' d' :
  sall is_decimal d = true -> sall is_decimal d' = true -> p +:+ "-" +:+ d = p' +:+ "-" +:+ d' -> p = p' /\ d = d'.
Proof.
  intros Hd Hd'. revert p'. induction p as [|c p IH]; intros [|c' p']; simpl; intros E.
  - by injection E.
  - exfalso. injection E as <- E. change ("" +:+ d) with d in E. rewrite E, sall_app in Hd. by apply andb_true_iff in Hd as [_ Hd].
  - exfalso. injection E as -> E. change ("" +:+ d') with d' in E. rewrite <- E, sall_app in Hd'. by apply andb_true_iff in Hd' as [_ Hd'].
  - injection E as -> E. by destruct (IH p' E) as [-> ->].
Qed.

(** The number at the end of a key is not negative, so a key has one prefix and one padding. *)
Lemma getKey_inj p n p' n' : (0 <= n)%Z -> (0 <= n')%Z -> getKey p n = getKey p' n' -> p = p' /\ n = n'.
Proof.
  assert (forall n : Z, (0 <= n)%Z -> sall is_decimal (pretty n) = true) as Hpos.
  { intros m Hm. destruct m as [|m|m]; [done| |lia]. apply (pretty_N_decimal (N.pos m)). }
  intros Hn Hn' E. destruct (key_cancel _ _ _ _ (Hpos n Hn) (Hpos n' Hn') E) as [-> E']. by apply (inj pretty) in E'.
Qed.

(** The cache is an optimisation: [Format] gives what it would compute, and keeps the cache sound. *)
Lemma Format_spec opts prefix padding cache :
  cache_sound opts cache ->
  snd (Format opts prefix padding cache) =
    (if (padding <=? NoPadding)%Z then prefix else pad_left padding (apply_opts opts prefix padding)) /\
  cache_sound opts (fst (Format opts prefix padding cache)).
Proof.
  intros Hc. unfold Format. destruct (Z.leb_spec padding NoPadding) as [Hp|Hp]; [done|]. unfold NoPadding in Hp.
  destruct (cache !! getKey prefix padding) as [v|] eqn:E; simpl.
  - split; [|done]. destruct (Hc _ _ E) as (p' & n' & Hn' & Ek & ->). unfold NoPadding in Hn'.
    apply getKey_inj in Ek as [-> ->]; [done|lia|lia].
  - split; [done|]. intros k v. destruct (decide (k = getKey prefix padding)) as [->|Hk].
    + rewrite lookup_insert_eq. intros [= <-]. by exists prefix, padding.
    + rewrite lookup_insert_ne by done. apply Hc.
Qed.

(** *** What is written without colours *)

Section Plain.
Context `{Paint} {W : Type}.
Implicit Types (l : ConsoleLogger W) (sh : Shared).
Hypothesis plain : color_NoColor = true.

Definition shared_sound sh : Prop := cache_sound formatOpts (prefixCache sh).

(** The prefix of a logger. *)
Definition prefix_text l : string :=
  match prefixWriter l with
  | Some _ => ""
  | None =>
      if String.eqb (prefix l) "" then ""
      else
        (if (prefixPadding l <=? NoPadding)%Z then prefix l else pad_left (prefixPadding l) (apply_opts formatOpts (prefix l) (prefixPadding l)))
        +:+ (if isLocal l then " *local*" else "") +:+ (if isFailed l then " *failed*" else "") +:+ " | "
        +:+ (if isCached l then "*cached* " else "")
  end.

Lemma color_plain c : color c = noColor.
Proof. unfold color. by rewrite plain. Qed.

Lemma printPrefix_spec l sh : shared_sound sh -> snd (printPrefix l sh) = prefix_text l /\ shared_sound (fst (printPrefix l sh)).
Proof.
  intros Hs. unfold printPrefix, prefix_text. destruct (prefixWriter l); [done|]. destruct (String.eqb _ _); [done|].
  assert (snd (PrefixColor l sh) = noColor /\ prefixCache (fst (PrefixColor l sh)) = prefixCache sh) as [Hc Hp].
  { unfold PrefixColor. destruct (_ !! _); simpl; by rewrite color_plain. }
  destruct (PrefixColor l sh) as [sh1 c]. simpl in Hc, Hp. subst c. unfold prettyPrefix.
  destruct (Format_spec formatOpts (prefix l) (prefixPadding l) (prefixCache sh1)) as [F1 F2]; [by rewrite Hp|].
  destruct (Format _ _ _ _) as [cache s]. simpl in F1, F2. subst s. rewrite !color_plain. simpl. split; [|done].
  by destruct (isLocal l), (isFailed l), (isCached l).
Qed.

(** Bytes with a prefix before the first byte of every line that has one. *)
Fixpoint show (p : string) (trailing : bool) (data : string) : string :=
  match data with
  | "" => ""
  | String c data =>
      if (byteZ c =? 13)%Z || (byteZ c =? 10)%Z then String c (show p false data)
      else (if trailing then "" else p) +:+ String c (show p true data)
  end.

Lemma show_high p t a data :
  a <> "" -> sall (fun c => negb ((byteZ c =? 13)%Z || (byteZ c =? 10)%Z)) a = true ->
  show p t (a +:+ data) = (if t then "" else p) +:+ a +:+ show p true data.
Proof.
  revert t. induction a as [|c a IH]; [done|]. intros t _. simpl. intros [Hc Ha]%andb_true_iff. apply negb_true_iff in Hc. rewrite Hc.
  f_equal. destruct a as [|c' a]; [done|]. by rewrite (IH true) by done.
Qed.

Lemma decode_line_end s r w :
  s <> "" -> DecodeRuneInString s = (r, w) ->
  if (r =? 13)%Z || (r =? 10)%Z then exists c t, s = String c t /\ byteZ c = r /\ w = 1
  else stake w s <> "" /\ sall (fun c => negb ((byteZ c =? 13)%Z || (byteZ c =? 10)%Z)) (stake w s) = true.
Proof.
  intros Hs Hd. destruct (decode_spec s r w Hs Hd) as (H0 & Hw & Hlt). unfold RuneSelf in Hlt.
  destruct (Z.eqb_spec r 13) as [->|H13]; simpl; [destruct Hlt as (-> & c & t & -> & E); [lia|]; eauto|].
  destruct (Z.eqb_spec r 10) as [->|H10]; simpl; [destruct Hlt as (-> & c & t & -> & E); [lia|]; eauto|].
  split; [intros E; apply (f_equal String.length) in E; rewrite length_stake in E; simpl in E; lia|].
  destruct (Z.ltb_spec r 128) as [Hr|Hr].
  - destruct (Hlt Hr) as (-> & c & t & -> & <-). simpl. rewrite (proj2 (Z.eqb_neq _ _) H13), (proj2 (Z.eqb_neq _ _) H10). by destruct t.
  - eapply sall_impl; [|by eapply decode_high]. intros c Hc. unfold high in Hc. apply Z.leb_le in Hc.
    rewrite (proj2 (Z.eqb_neq (byteZ c) 13)), (proj2 (Z.eqb_neq (byteZ c) 10)) by lia. done.
Qed.

Lemma bytes_loop_spec l c fuel data output trailing sh :
  c = noColor -> String.length data <= fuel -> shared_sound sh ->
  let '(sh', text, _) := bytes_loop l c fuel data output trailing sh in
  shared_sound sh' /\ text = output +:+ show (prefix_text l) trailing data.
Proof.
  intros ->. revert data output trailing sh. induction fuel as [|fuel IH]; intros data output trailing sh Hf Hs.
  { destruct data; [|simpl in Hf; lia]. simpl. split; [done|]. rewrite sapp_nil_r. by destruct output. }
  destruct data as [|a data]; [simpl; split; [done|]; rewrite sapp_nil_r; by destruct output|].
  cbn [bytes_loop]. destruct (DecodeRuneInString (String a data)) as [r w] eqn:Hd.
  assert (String a data <> "") as Hne by done. destruct (decode_spec _ _ _ Hne Hd) as (_ & Hw & _).
  pose proof (decode_line_end _ _ _ Hne Hd) as Hl. set (s := String a data) in *.
  assert (String.length (sdrop w s) <= fuel) as Hlen by (rewrite length_sdrop; simpl in *; lia).
  destruct ((r =? 13)%Z || (r =? 10)%Z) eqn:Er.
  - destruct Hl as (c & t & Es & Hc & ->). specialize (IH (sdrop 1 s) (output +:+ stake 1 s) false sh Hlen Hs).
    destruct (bytes_loop _ _ _ _ _ _ _) as [[sh' text] t']. destruct IH as [I1 ->]. split; [done|].
    rewrite <- sapp_assoc. f_equal. rewrite Es. simpl. by rewrite Hc, Er.
  - destruct Hl as [Hn Hh].
    assert (show (prefix_text l) trailing s = (if trailing then "" else prefix_text l) +:+ stake w s +:+ show (prefix_text l) true (sdrop w s)) as ->.
    { rewrite <- (stake_sdrop w s) at 1. by apply show_high. }
    destruct trailing.
    + specialize (IH (sdrop w s) (output +:+ stake w s) true sh Hlen Hs).
      destruct (bytes_loop _ _ _ _ _ _ _) as [[sh' text] t']. destruct IH as [I1 ->]. split; [done|]. by rewrite <- sapp_assoc.
    + destruct (printPrefix_spec l sh Hs) as [P1 P2]. destruct (printPrefix l sh) as [sh1 p]. simpl in P1, P2. subst p.
      specialize (IH (sdrop w s) (stake w s) true sh1 Hlen P2).
      destruct (bytes_loop _ _ _ _ _ _ _) as [[sh' text] t']. destruct IH as [I1 ->]. split; [done|]. by destruct output.
Qed.

(** [PrintBytes] writes the bytes as they are, with the prefix at the start of every line that is
    not empty. *)
Lemma PrintBytes_spec l data sh :
  shared_sound sh ->
  let '(_, sh', ev) := PrintBytes l data sh in
  shared_sound sh' /\ ev = emit l (show (prefix_text l) (trailingLine l) data).
Proof.
  intros Hs. unfold PrintBytes. assert (message_color l = noColor) as Hc by (unfold message_color; rewrite !color_plain; by destruct (metadataMode l)).
  pose proof (bytes_loop_spec l (message_color l) (String.length data) data "" (trailingLine l) sh Hc (le_n _) Hs) as Hb.
  destruct (bytes_loop _ _ _ _ _ _ _) as [[sh' text] t']. destruct Hb as [? ->]. done.
Qed.

Lemma print_lines_spec l lines sh :
  shared_sound sh ->
  let '(sh', text) := print_lines l noColor lines sh in
  shared_sound sh' /\ text = sconcat ((fun line => prefix_text l +:+ line +:+ NLs) <$> lines).
Proof.
  revert sh. induction lines as [|line lines IH]; intros sh Hs; [done|]. cbn [print_lines].
  destruct (printPrefix_spec l sh Hs) as [P1 P2]. destruct (printPrefix l sh) as [sh1 p]. simpl in P1, P2. subst p.
  specialize (IH sh1 P2). destruct (print_lines _ _ _ _) as [sh' rest]. destruct IH as [? ->]. split; [done|].
  cbn [fmap list_fmap sconcat foldr]. by rewrite <- !sapp_assoc.
Qed.

(** [Print] writes its message line by line, every line with the prefix, if the level allows it. *)
Lemma Print_spec l msg sh :
  shared_sound sh ->
  let '(sh', ev) := Print l msg sh in
  shared_sound sh' /\
  ev = if level (logLevel l) <? level Info then []
       else emit l (sconcat ((fun line => prefix_text l +:+ line +:+ NLs) <$> Split (TrimSuffix msg NLs) "010")).
Proof.
  intros Hs. unfold Print, ColorPrint, colorPrint. destruct (_ <? _); [done|].
  assert (message_color l = noColor) as -> by (unfold message_color; rewrite !color_plain; by destruct (metadataMode l)).
  pose proof (print_lines_spec l (Split (TrimSuffix msg NLs) "010") sh Hs) as Hp.
  destruct (print_lines _ _ _ _) as [sh' text]. destruct Hp as [? ->]. done.
Qed.
End Plain.

(** The comment of [DefaultPadding] says that 20 characters are always printed. *)
Lemma prefix_too_long : snd (Format formatOpts "github.com/earthly/earthly+run" DefaultPadding ∅) = "g/earthly/earthly+run".
Proof. by vm_compute. Qed.

(** The newline comes before the message of a control for GitHub Actions, not after it. *)
Lemma control_split (P : Paint) :
  PrintGHAError (W:=nat) (mkLogger None 0 0 "" "" Info 20 true false false false false false) "failed" None =
    [Written 0 ("::error " +:+ NLs +:+ "title=Error::failed")].
Proof. done. Qed.
