(* ===== verification/LogFormatter.v ===== *)
(** * The formatter

    A translation of [logbus/formatter/formatter.go], the subscriber of the log bus that turns
    raw deltas into what is printed, with [util/execstatssummary] (what is observed) and
    [logbus/writersub/writersub.go] (what of it reaches the console).

    A method returns the formatter and what it wrote: to which writer of the bus ([Dest]), to the
    standard output, or to the file of GitHub Actions.  The [command] that was printed last is its
    identifier, since the entries of the map are never replaced.  The time of a call is an
    argument.  Decoding the statistics of runc, the names of sizes, the terminal and the
    environment are parameters ([FormatterEnv]). *)

From stdpp Require Import gmap.
From S2P Require Import Prelude GoStrings Token GoText ShellLex FlagUtil Numbers Reference Outcome.
From S2P Require Import CircBuf LogBus ConsLog.

(** ** Parameters *)

Class FormatterEnv : Type := {
  ansiSupported : bool;
  (** [json.Unmarshal] into [runc.Stats]: the total CPU time and the memory that is used. *)
  unmarshal_stats : string -> (Z * Z) + string;
  humanize_Bytes : Z -> string;
  (** GITHUB_STEP_SUMMARY, and whether its file can be opened. *)
  summary_path : string;
  summary_opens : bool
}.

(** ** Text *)

(** [strings.Fields] *)
Definition Fields (s : string) : list string := FieldsFunc s IsSpace.

(** [ScrubANSICodes]: the expression matches an escape, a bracket, digits and semicolons, and a letter. *)
Definition ansi_letter (c : ascii) : bool := let z := byteZ c in ((97 <=? z) && (z <=? 122) || (65 <=? z) && (z <=? 90))%Z.
Definition ansi_param (c : ascii) : bool := let z := byteZ c in ((48 <=? z) && (z <=? 57) || (z =? 59))%Z.

Fixpoint ansi_tail (s : string) : option nat :=
  match s with
  | "" => None
  | String c s => if ansi_param c then option_map S (ansi_tail s) else if ansi_letter c then Some 1 else None
  end.

Definition ansi_code (s : string) : option nat :=
  match s with
  | String e (String b s) => if (byteZ e =? 27)%Z && Ascii.eqb b "[" then option_map (fun n => n + 2) (ansi_tail s) else None
  | _ => None
  end.

Fixpoint scrub_ansi (s : string) (skip : nat) : string :=
  match s with
  | "" => ""
  | String c s' =>
      match skip with
      | S skip => scrub_ansi s' skip
      | 0 => match ansi_code s with Some n => scrub_ansi s' (pred n) | None => String c (scrub_ansi s' 0) end
      end
  end.

Definition ScrubANSICodes (input : string) : string := scrub_ansi input 0.

(** [time.Duration.String]: digits after the point, the last zeros left out. *)
Fixpoint digits (prec : nat) (u : Z) : string :=
  match prec with 0 => "" | S prec => digits prec (u / 10) +:+ pretty (u mod 10)%Z end.

Definition fraction (prec : nat) (u : Z) : string :=
  let d := TrimRight (digits prec (u mod 10 ^ Z.of_nat prec)) "0" in if String.eqb d "" then "" else "." +:+ d.

Definition with_fraction (prec : nat) (u : Z) : string := pretty (u / 10 ^ Z.of_nat prec)%Z +:+ fraction prec u.

Definition Duration_String (d : Z) : string :=
  let u := Z.abs d in
  let text :=
    if (u =? 0)%Z then "0s"
    else if (u <? 1000)%Z then pretty u +:+ "ns"
    else if (u <? 10 ^ 6)%Z then with_fraction 3 u +:+ "µs"
    else if (u <? 10 ^ 9)%Z then with_fraction 6 u +:+ "ms"
    else
      let sec := (u / 10 ^ 9)%Z in
      let s := pretty (sec mod 60)%Z +:+ fraction 9 u +:+ "s" in
      let min := (sec / 60)%Z in
      if (min =? 0)%Z then s
      else let s := pretty (min mod 60)%Z +:+ "m" +:+ s in
           let h := (min / 60)%Z in if (h =? 0)%Z then s else pretty h +:+ "h" +:+ s in
  if (d <? 0)%Z then "-" +:+ text else text.

(** [time.Duration(n)] of an unsigned number. *)
Definition int64 (z : Z) : Z := ((z + 2 ^ 63) mod 2 ^ 64 - 2 ^ 63)%Z.

(** ** Execution statistics *)

Record ExecStats : Type := mkExecStats { es_target : string; es_command : string; es_memory : Z; es_cpu : Z }.

Definition Tracker : Type := gmap string ExecStats.

Definition Observe (target command : string) (memory cpu : Z) (t : Tracker) : Tracker :=
  let k := target +:+ "|" +:+ command in
  let stat := default (mkExecStats target command 0 0) (t !! k) in
  let mem := if (es_memory stat <? memory)%Z then memory else es_memory stat in
  let cpu' := if (es_cpu stat <? cpu)%Z then cpu else es_cpu stat in
  <[k := mkExecStats (es_target stat) (es_command stat) mem cpu']> t.

(** ** The state *)

Definition second : Z := 10 ^ 9.
Definition durationBetweenProgressUpdateIfSame : Z := 5 * 10 ^ 6.
Definition durationBetweenOngoingUpdates : Z := 5 * second.
Definition BuildkitStatsStream : Z := 99.
Definition genericPrefix : string := "_generic:".

Definition ESC : string := byte_string 27.
Definition ansiUp : string := ESC +:+ "[A".
Definition ansiEraseRestLine : string := ESC +:+ "[K".

(** [command]: a time that was never set is [None]. *)
Record OpenCommand : Type := mkOpen { oc_lastProgress : option Z; oc_openLine : string; oc_lastPercentage : Z }.

Definition no_open : OpenCommand := mkOpen None "" 0.

(** A writer of the bus for a target and a command; none is the nil writer of the first logger. *)
Definition Dest : Type := option (string * string).
Definition no_prefix_writer (w : Dest) (_ : string) : Dest := w.

Record Formatter : Type := mkFormatter {
  f_err : list string;
  f_interactives : gset string;
  f_ticking : bool;
  f_lastCommandOutput : option string;
  f_manifest : RunManifest;
  f_log : ConsoleLogger Dest;
  f_shared : Shared;
  f_commands : gmap string OpenCommand;
  f_tracker : option Tracker;
  f_defaultPlatform : string;
  f_displayStats : bool;
  f_verbose : bool;
  f_lastOutputWasProgress : bool;
  f_lastOutputWasOngoingUpdate : bool
}.

Definition NewFormatter (debug verbose displayStats : bool) (disableOngoingUpdates : bool) (tracker : option Tracker) (isGitHubActions : bool) :
  Formatter :=
  let logLevel := if debug then Debug else if verbose then Verbose else Info in
  mkFormatter [] ∅ (negb disableOngoingUpdates) None no_manifest (NewLogger None DefaultPadding logLevel isGitHubActions) no_shared ∅ tracker
    "" displayStats verbose false false.

(** ** Changes of the state *)

Section Formatter.
Context `{DeltaOrder} `{Paint} `{FormatterEnv} `{Unicode}.
Implicit Types (f : Formatter).

(** What a method does: the formatter after it and what it wrote. *)
Definition Act : Type := Formatter -> Formatter * list (Event Dest).

Definition quiet : Act := fun f => (f, []).
Definition seq (a b : Act) : Act := fun f => let '(f, e1) := a f in let '(f, e2) := b f in (f, e1 ++ e2).

Definition set_shared (sh : Shared) f : Formatter :=
  mkFormatter (f_err f) (f_interactives f) (f_ticking f) (f_lastCommandOutput f) (f_manifest f) (f_log f) sh (f_commands f) (f_tracker f)
    (f_defaultPlatform f) (f_displayStats f) (f_verbose f) (f_lastOutputWasProgress f) (f_lastOutputWasOngoingUpdate f).
Definition set_interactives (i : gset string) (ticking : bool) f : Formatter :=
  mkFormatter (f_err f) i ticking (f_lastCommandOutput f) (f_manifest f) (f_log f) (f_shared f) (f_commands f) (f_tracker f)
    (f_defaultPlatform f) (f_displayStats f) (f_verbose f) (f_lastOutputWasProgress f) (f_lastOutputWasOngoingUpdate f).
Definition set_manifest (m : RunManifest) f : Formatter :=
  mkFormatter (f_err f) (f_interactives f) (f_ticking f) (f_lastCommandOutput f) m (f_log f) (f_shared f) (f_commands f) (f_tracker f)
    (f_defaultPlatform f) (f_displayStats f) (f_verbose f) (f_lastOutputWasProgress f) (f_lastOutputWasOngoingUpdate f).
Definition set_tracker (t : option Tracker) f : Formatter :=
  mkFormatter (f_err f) (f_interactives f) (f_ticking f) (f_lastCommandOutput f) (f_manifest f) (f_log f) (f_shared f) (f_commands f) t
    (f_defaultPlatform f) (f_displayStats f) (f_verbose f) (f_lastOutputWasProgress f) (f_lastOutputWasOngoingUpdate f).
Definition set_command (id : string) (c : OpenCommand) f : Formatter :=
  mkFormatter (f_err f) (f_interactives f) (f_ticking f) (f_lastCommandOutput f) (f_manifest f) (f_log f) (f_shared f)
    (<[id := c]> (f_commands f)) (f_tracker f) (f_defaultPlatform f) (f_displayStats f) (f_verbose f) (f_lastOutputWasProgress f)
    (f_lastOutputWasOngoingUpdate f).
(** The three fields that say what was printed last. *)
Definition set_last (ongoing progress : bool) (command : option string) f : Formatter :=
  mkFormatter (f_err f) (f_interactives f) (f_ticking f) command (f_manifest f) (f_log f) (f_shared f) (f_commands f) (f_tracker f)
    (f_defaultPlatform f) (f_displayStats f) (f_verbose f) progress ongoing.
Definition add_err (err : string) f : Formatter :=
  mkFormatter (f_err f ++ [err]) (f_interactives f) (f_ticking f) (f_lastCommandOutput f) (f_manifest f) (f_log f) (f_shared f)
    (f_commands f) (f_tracker f) (f_defaultPlatform f) (f_displayStats f) (f_verbose f) (f_lastOutputWasProgress f)
    (f_lastOutputWasOngoingUpdate f).
Definition SetDefaultPlatform (p : string) f : Formatter :=
  mkFormatter (f_err f) (f_interactives f) (f_ticking f) (f_lastCommandOutput f) (f_manifest f) (f_log f) (f_shared f) (f_commands f)
    (f_tracker f) p (f_displayStats f) (f_verbose f) (f_lastOutputWasProgress f) (f_lastOutputWasOngoingUpdate f).

Definition upd (g : Formatter -> Formatter) : Act := fun f => (g f, []).
Definition tell (e : list (Event Dest)) : Act := fun f => (f, e).

(** A method of a logger, which may give a prefix a colour or add to the cache. *)
Definition say (p : Shared -> Shared * list (Event Dest)) : Act :=
  fun f => let '(sh, e) := p (f_shared f) in (set_shared sh f, e).
Definition say_bytes (c : ConsoleLogger Dest) (data : string) : Act :=
  say (fun sh => let '(_, sh, e) := PrintBytes c data sh in (sh, e)).

(** ** Consoles *)

Definition getCommand (id : string) f : OpenCommand := default no_open (f_commands f !! id).

Definition targetName f (targetID : string) : string :=
  match rm_Targets (f_manifest f) !! targetID with Some tm => tm_Name tm | None => "unknown" end.
Definition commandName f (commandID : string) : string :=
  match rm_Commands (f_manifest f) !! commandID with Some cm => cm_Name cm | None => "unknown" end.

(** The name and the identifier that [targetConsole] prints with, and whether it is verbose only. *)
Definition console_name f (targetID commandID : string) : string * string * bool :=
  if negb (String.eqb targetID "") then (tm_Name (default no_target (rm_Targets (f_manifest f) !! targetID)), targetID, false)
  else if String.eqb commandID GenericDefault then ("", commandID, false)
  else if HasPrefix commandID genericPrefix then
    let name := TrimPrefix commandID genericPrefix in (name, commandID, String.eqb name "context")
  else if negb (String.eqb commandID "") then
    let name := match rm_Commands (f_manifest f) !! commandID with
                | Some cm => if String.eqb (cm_Category cm) "" then cm_Name cm else cm_Category cm
                | None => ""
                end in
    if HasPrefix name "internal " then (TrimPrefix name "internal ", commandID, true)
    else if String.eqb name "internal" then (name, commandID, true)
    else if String.eqb name "context" then (name, commandID, true)
    else if String.eqb name "" then ("_internal:" +:+ commandID, commandID, true)
    else (name, commandID, false)
  else ("_unknown", "_unknown", false).

Definition targetConsole f (targetID commandID : string) (rawOutput : bool) : ConsoleLogger Dest * bool :=
  let '(name, writerTargetID, verboseOnly) := console_name f targetID commandID in
  let c := WithWriter (f_log f) (Some (writerTargetID, commandID)) in
  (if rawOutput then c else WithPrefixAndSalt no_prefix_writer c name writerTargetID, verboseOnly).

(** ** What is printed *)

Definition printHeader (targetID commandID : string) (tm : option TargetManifest) (cm : CommandManifest) (failure : bool) : Act := fun f =>
  let '(c, verboseOnly) := targetConsole f targetID commandID false in
  if verboseOnly && negb (f_verbose f) then quiet f
  else
    let c := if failure then WithFailed c true else c in
    let metaParts :=
      (if negb (String.eqb (cm_Platform cm) "") && negb (String.eqb (cm_Platform cm) (f_defaultPlatform f)) then [cm_Platform cm] else [])
      ++ match tm with Some tm => match tm_OverrideArgs tm with [] => [] | args => [Join args " "] end | None => [] end in
    seq (match metaParts with [] => quiet | _ => say (Print (WithMetadataMode c true) (Join metaParts " | " +:+ NLs)) end)
      (seq (say (Print (if cm_IsCached cm then WithCached c true else c) ("--> " +:+ cm_Name cm +:+ NLs)))
        (upd (set_last false false None))) f.

(** [%3d] *)
Definition width3 (n : Z) : string := let s := pretty n in Repeat " " (3 - String.length s) +:+ s.

Definition printProgress (targetID commandID : string) (cm : CommandManifest) : Act := fun f =>
  let '(c, verboseOnly) := targetConsole f targetID commandID false in
  if verboseOnly && negb (f_verbose f) then quiet f
  else
    seq (say_bytes c ((if f_lastOutputWasProgress f then ansiUp else "")
           +:+ "[" +:+ ProgressBar (cm_Progress cm) 10 +:+ "] " +:+ width3 (cm_Progress cm) +:+ "% " +:+ cm_Name cm +:+ ansiEraseRestLine +:+ NLs))
      (upd (set_last false (negb (cm_Progress cm =? 100)%Z) None)) f.

(** [time.Since], for a time that may not be set. *)
Definition Since (now : Z) (t : option Z) : Z := match t with Some t => clamp64 (now - t) | None => (2 ^ 63 - 1)%Z end.

(** [shouldPrintProgress]; [getCommand] adds the command to the map. *)
Definition shouldPrintProgress (now : Z) (commandID : string) (cm : CommandManifest) f : bool * Formatter :=
  if negb (cm_HasProgress cm) then (false, f)
  else
    let minDelta := if f_lastOutputWasProgress f && ansiSupported then durationBetweenProgressUpdateIfSame else durationBetweenOngoingUpdates in
    let cmd := getCommand commandID f in
    let f := set_command commandID cmd f in
    if (Since now (oc_lastProgress cmd) <? minDelta)%Z && (cm_Progress cm <? 100)%Z then (false, f)
    else if (oc_lastPercentage cmd =? cm_Progress cm)%Z then (false, f)
    else (true, set_command commandID (mkOpen (Some now) (oc_openLine cmd) (cm_Progress cm)) f).

Definition printError (targetID commandID : string) (tm : option TargetManifest) (cm : CommandManifest) : Act := fun f =>
  let '(c, _) := targetConsole f targetID commandID false in
  seq (say (Print c (cm_ErrorMessage cm +:+ NLs)))
    (seq (say (VerbosePrint c ("Overriding args used: " +:+ Join (tm_OverrideArgs (default no_target tm)) " " +:+ NLs)))
      (upd (set_last false false None))) f.

Definition no_failure : FailureMsg := mkFailure FAILURE_TYPE_UNKNOWN "" "" "" "" "".
Definition failure_of f : FailureMsg := default no_failure (rm_Failure (f_manifest f)).

Definition printBuildFailure : Act := fun f =>
  let failure := failure_of f in
  if String.eqb (fm_ErrorMessage failure) "" then quiet f
  else
    let tid := fm_TargetId failure in
    let cid := fm_CommandId failure in
    let tm := if String.eqb tid "" then None else rm_Targets (f_manifest f) !! tid in
    let cm := default no_command (if String.eqb cid "" then None else rm_Commands (f_manifest f) !! cid) in
    let c := WithFailed (fst (targetConsole f tid cid false)) true in
    let repeats := negb (String.eqb cid "") && negb (String.eqb cid GenericDefault) in
    seq (if repeats then
           seq (tell (PrintFailure c ""))
             (seq (say (Print c ("Repeating the failure error..." +:+ NLs)))
               (seq (printHeader tid cid tm cm true)
                 (if String.eqb (fm_Output failure) "" then say (Print c ("[no output]" +:+ NLs)) else say_bytes c (fm_Output failure))))
         else quiet)
      (seq (say (Print c ((if repeats then "" else "Error: ") +:+ fm_ErrorMessage failure +:+ NLs)))
        (upd (set_last false false None))) f.

Definition summary_text (message output : string) : string :=
  Join [""; "# ❌ Build Failure ❌"; ""; "### Error Message"; ""; "~~~"; message; "~~~"; ""; "### Command Output"; ""; "~~~"; output; "~~~"; ""] NLs.

Definition single_line (message : string) : string :=
  ScrubANSICodes
    (match Split message "010" with
     | _ :: ((_ :: _) as rest) => Join (Fields (Join rest " ")) " "
     | l => Join (Fields (Join l "")) " "
     end).

Definition printGHAFailure : Act := fun f =>
  let failure := failure_of f in
  if String.eqb (fm_ErrorMessage failure) "" then quiet f
  else
    let cid := fm_CommandId failure in
    let cm := default no_command (if String.eqb cid "" then None else rm_Commands (f_manifest f) !! cid) in
    let c := WithFailed (fst (targetConsole f (fm_TargetId failure) cid false)) true in
    let message := single_line (fm_ErrorMessage failure) in
    let loc := match cm_SourceLocation cm with
               | Some sl => if negb (String.eqb (ll_File sl) "") && (0 <? ll_StartLine sl)%Z
                            then Some (ll_File sl, ll_StartLine sl, ll_StartColumn sl) else None
               | None => None
               end in
    tell (PrintGHAError c message loc
          ++ PrintGHASummary c summary_path summary_opens
               (summary_text (ScrubANSICodes (fm_ErrorMessage failure)) (ScrubANSICodes (fm_Output failure)))) f.

(** ** Deltas *)

(** The changes of [interactives], with the ticker. *)
Definition track_interactive (commandID : string) (cmd : DeltaCommandManifest) (cm : CommandManifest) f : Formatter :=
  if dc_HasInteractive cmd && cm_IsInteractive (dc_fields cmd) then
    if (cm_EndedAt cm =? 0)%Z then
      set_interactives ({[commandID]} ∪ f_interactives f) (if decide (f_interactives f = ∅) then false else f_ticking f) f
    else if (0 <? cm_EndedAt (dc_fields cmd))%Z then
      let rest := f_interactives f ∖ {[commandID]} in
      set_interactives rest (if decide (rest = ∅) then true else f_ticking f) f
    else f
  else f.

(** The body of the loop over the commands of a delta, once the command and its target are found. *)
Definition handle_found (now : Z) (commandID : string) (cmd : DeltaCommandManifest) (tm : option TargetManifest) (cm : CommandManifest) : Act := fun f =>
  let tid := cm_TargetId cm in
  let f := track_interactive commandID cmd cm f in
  let status := cm_Status (dc_fields cmd) in
  let '(f, e1) := (if decide (status = RUN_STATUS_IN_PROGRESS) then printHeader tid commandID tm cm false else quiet) f in
  let '(prints, f) := if dc_HasHasProgress cmd then shouldPrintProgress now commandID cm f else (false, f) in
  let '(f, e2) := (if (prints : bool) then printProgress tid commandID cm else quiet) f in
  let '(f, e3) := (if decide (status = RUN_STATUS_FAILURE /\ tid <> "") then printError tid commandID tm cm else quiet) f in
  (f, e1 ++ e2 ++ e3).

Definition handle_command (now : Z) (commandID : string) (cmd : DeltaCommandManifest) f : Formatter * list (Event Dest) * option string :=
  match rm_Commands (f_manifest f) !! commandID with
  | None => (f, [], Some ("command " +:+ Quote commandID +:+ " not found in manifest"))
  | Some cm =>
      if String.eqb (cm_TargetId cm) "" then (handle_found now commandID cmd None cm f, None)
      else match rm_Targets (f_manifest f) !! cm_TargetId cm with
           | Some tm => (handle_found now commandID cmd (Some tm) cm f, None)
           | None => (f, [], Some ("target " +:+ cm_TargetId cm +:+ " not found in manifest"))
           end
  end.

Fixpoint handle_commands (now : Z) (l : list (string * DeltaCommandManifest)) f : Formatter * list (Event Dest) * option string :=
  match l with
  | [] => (f, [], None)
  | (id, cmd) :: l =>
      match handle_command now id cmd f with
      | (f, e, Some err) => (f, e, Some err)
      | (f, e, None) => let '(f, e', err) := handle_commands now l f in (f, e ++ e', err)
      end
  end.

(** [dm.GetFields()] is empty when the delta is not one of fields. *)
Definition fields_of (d : DeltaType) : FieldsDelta := match d with DeltaManifest_Fields fd => fd | _ => no_fields end.

Definition handleDeltaManifest (now : Z) (d : DeltaType) f : Formatter * list (Event Dest) * option string :=
  match handle_commands now (range_commands (fd_Commands (fields_of d))) f with
  | (f, e, Some err) => (f, e, Some err)
  | (f, e, None) =>
      let '(f, e') := (if fd_HasFailure (fields_of d) then seq printBuildFailure printGHAFailure else quiet) f in (f, e ++ e', None)
  end.

(** [bytes.LastIndexByte]: the text after the last newline, if there is one. *)
Fixpoint after_newline (s : string) : option string :=
  match s with
  | "" => None
  | String c s =>
      match after_newline s with
      | Some t => Some t
      | None => if is_NL c then Some s else None
      end
  end.

(** What is printed for an output, and the line that is then open. *)
Definition line_output (sameAsLast : bool) (openLine output : string) : string * string :=
  let closes := HasPrefix output NLs && negb (String.eqb openLine "") in
  let openLine := if closes then "" else openLine in
  let output := if closes then sdrop 1 output else output in
  let printOutput := (if sameAsLast && negb (String.eqb openLine "") then ansiUp else "") +:+ openLine +:+ output in
  let openLine := match after_newline printOutput with Some t => t | None => openLine +:+ output end in
  (if HasSuffix printOutput NLs then printOutput else printOutput +:+ NLs, openLine).

Definition handleDeltaLog (dl : DeltaLog) f : Formatter * list (Event Dest) * option string :=
  let commandID := dl_CommandId dl in
  let rawOutput := match rm_Commands (f_manifest f) !! commandID with
                   | Some cm => Outcome.Contains (cm_Name cm) "RUN --raw-output"
                   | None => false
                   end in
  let '(c, verboseOnly) := targetConsole f (dl_TargetId dl) commandID rawOutput in
  if verboseOnly && negb (f_verbose f) then (f, [], None)
  else
    let cmd := getCommand commandID f in
    let f := set_command commandID cmd f in
    let sameAsLast := negb (f_lastOutputWasOngoingUpdate f) && negb (f_lastOutputWasProgress f)
                      && bool_decide (f_lastCommandOutput f = Some commandID) in
    let print (output : string) f :=
      let '(text, openLine) := line_output sameAsLast (oc_openLine cmd) output in
      let '(f, e) := say_bytes c text (set_command commandID (mkOpen (oc_lastProgress cmd) openLine (oc_lastPercentage cmd)) f) in
      (set_last false false (Some commandID) f, e, None) in
    if (dl_Stream dl =? BuildkitStatsStream)%Z then
      match unmarshal_stats (dl_Data dl) with
      | inr err => (f, [], Some ("failed to parse stats: " +:+ err))
      | inl (cpu, totalMem) =>
          let totalCPU := int64 cpu in
          let f := set_tracker (Observe (targetName f (dl_TargetId dl)) (commandName f commandID) totalMem totalCPU <$> f_tracker f) f in
          if negb (f_displayStats f) then (f, [], None)
          else print ("[stats] total CPU: " +:+ Duration_String totalCPU +:+ "; total memory: " +:+ humanize_Bytes totalMem +:+ NLs) f
      end
    else print (dl_Data dl) f.

Definition processOngoingTick : Act := fun f =>
  let c := WithPrefix no_prefix_writer (WithWriter (f_log f) (Some ("ongoing", ""))) "ongoing" in
  seq (say (VerbosePrint c ("ongoing TODO" +:+ NLs))) (upd (set_last true false None)) f.

Definition processDelta (now : Z) (d : Delta) f : Formatter * list (Event Dest) * option string :=
  match ApplyDelta (f_manifest f) d with
  | (_, Some err) => (f, [], Some ("failed to apply delta: " +:+ err))
  | (m, None) =>
      let f := set_manifest m f in
      match d_type d with
      | Delta_DeltaLog dl => handleDeltaLog dl f
      | Delta_DeltaFormattedLog _ => (f, [], Some "unknown delta type *logstream.Delta_DeltaFormattedLog")
      | dm => match handleDeltaManifest now dm f with
              | (f, e, Some err) => (f, e, Some ("failed to handle delta manifest: " +:+ err))
              | r => r
              end
      end
  end.

Definition Formatter_Write (now : Z) (d : Delta) : Act := fun f =>
  match processDelta now d f with
  | (f, e, Some err) => (add_err err f, e)
  | (f, e, None) => (f, e)
  end.
End Formatter.

(** ** The console *)

(** [FormattedWriter.Write] hands a text to the subscribers twice: for its target and for [_full]. *)
Definition formatted_of (now : Z) (b : Bus) (e : Event Dest) : list DeltaFormattedLog :=
  match e with
  | Written (Some (tid, cid)) data =>
      [mkDeltaFormattedLog tid cid (TsUnixNanos b now) data; mkDeltaFormattedLog "_full" cid (TsUnixNanos b now) data]
  | _ => []
  end.

(** [WriterSub.Write], on a writer that does not fail: what it adds to the output. *)
Definition WriterSub_Write (targetIDFilter : string) (d : Delta) : string :=
  match d_type d with
  | Delta_DeltaFormattedLog l =>
      if negb (String.eqb targetIDFilter "") && negb (String.eqb (df_TargetId l) targetIDFilter) then "" else df_Data l
  | _ => ""
  end.

(** ** The formatter on the bus never fails *)

(** A text is printed for every delta in turn, each at its time. *)
Fixpoint write_all `{DeltaOrder} `{Paint} `{FormatterEnv} `{Unicode} (l : list (Z * Delta)) : Act :=
  match l with [] => quiet | (now, d) :: l => seq (Formatter_Write now d) (write_all l) end.

Section Safe.
Context `{DeltaOrderLaws} `{Paint} `{FormatterEnv} `{Unicode}.
Implicit Types (f : Formatter).

Definition refs_ok (m : RunManifest) : Prop :=
  forall id cm, rm_Commands m !! id = Some cm -> cm_TargetId cm <> "" -> is_Some (rm_Targets m !! cm_TargetId cm).

(** An action that leaves the manifest and the errors alone. *)
Definition keeps (a : Act) : Prop := forall f, f_manifest (fst (a f)) = f_manifest f /\ f_err (fst (a f)) = f_err f.

Lemma keeps_quiet : keeps quiet.
Proof. done. Qed.
Lemma keeps_seq a b : keeps a -> keeps b -> keeps (seq a b).
Proof.
  intros Ha Hb f. unfold seq. destruct (Ha f) as [A1 A2]. destruct (a f) as [f1 e1]. destruct (Hb f1) as [B1 B2]. destruct (b f1) as [f2 e2].
  simpl in *. split; congruence.
Qed.
Lemma keeps_say p : keeps (say p).
Proof. intros f. unfold say. by destruct (p (f_shared f)). Qed.
Lemma keeps_bytes c d : keeps (say_bytes c d).
Proof. apply keeps_say. Qed.
Lemma keeps_last a b c : keeps (upd (set_last a b c)).
Proof. done. Qed.
Lemma keeps_tell e : keeps (tell e).
Proof. done. Qed.
#[local] Hint Resolve keeps_quiet keeps_seq keeps_say keeps_bytes keeps_last keeps_tell : keeps.

Lemma keeps_header t c tm cm b : keeps (printHeader t c tm cm b).
Proof.
  intros f. unfold printHeader. destruct (targetConsole _ _ _ _) as [l v]. destruct (v && _); [done|].
  match goal with |- context [seq ?a ?b f] => assert (keeps (seq a b)) as Hk; [|apply Hk] end.
  apply keeps_seq; [destruct (_ ++ _)|]; auto with keeps.
Qed.
Lemma keeps_progress t c cm : keeps (printProgress t c cm).
Proof. intros f. unfold printProgress. destruct (targetConsole _ _ _ _) as [l v]. destruct (v && _); [done|]. apply keeps_seq; auto with keeps. Qed.
Lemma keeps_error t c tm cm : keeps (printError t c tm cm).
Proof. intros f. unfold printError. destruct (targetConsole _ _ _ _) as [l v]. apply keeps_seq; auto with keeps. Qed.
Lemma keeps_failure : keeps printBuildFailure.
Proof.
  intros f. unfold printBuildFailure. destruct (String.eqb _ _); [done|]. apply keeps_seq; [|auto with keeps].
  destruct (_ && _); [|done]. repeat apply keeps_seq; auto using keeps_header with keeps. destruct (String.eqb _ _); auto with keeps.
Qed.
Lemma keeps_gha : keeps printGHAFailure.
Proof. intros f. unfold printGHAFailure. by destruct (String.eqb _ _). Qed.

Lemma keeps_if {P} (d : Decision P) a : keeps a -> keeps (if d then a else quiet).
Proof. by destruct d. Qed.

Lemma keeps_found now id cmd tm cm : keeps (handle_found now id cmd tm cm).
Proof.
  intros f. unfold handle_found.
  assert (f_manifest (track_interactive id cmd cm f) = f_manifest f /\ f_err (track_interactive id cmd cm f) = f_err f) as [I1 I2]
    by (unfold track_interactive; repeat case_match; done).
  set (f0 := track_interactive id cmd cm f) in *. clearbody f0.
  match goal with |- context [let '(_, _) := ?a in _] => destruct a as [f1 e1] eqn:E1 end.
  assert (f_manifest f1 = f_manifest f0 /\ f_err f1 = f_err f0) as [A1 A2].
  { change f1 with (fst (f1, e1)). rewrite <- E1. apply keeps_if, keeps_header. }
  match goal with |- context [let '(_, _) := ?a in _] => destruct a as [pr f2] eqn:E2 end.
  assert (f_manifest f2 = f_manifest f1 /\ f_err f2 = f_err f1) as [B1 B2].
  { destruct (dc_HasHasProgress cmd); [|by simplify_eq]. unfold shouldPrintProgress in E2. repeat case_match; simplify_eq/=; done. }
  match goal with |- context [let '(_, _) := ?a in _] => destruct a as [f3 e3] eqn:E3 end.
  assert (f_manifest f3 = f_manifest f2 /\ f_err f3 = f_err f2) as [C1 C2].
  { destruct pr; [pose proof (keeps_progress (cm_TargetId cm) id cm f2) as K; rewrite E3 in K; exact K|unfold quiet in E3; by simplify_eq/=]. }
  match goal with |- context [let '(_, _) := ?a in _] => destruct a as [f4 e4] eqn:E4 end.
  assert (f_manifest f4 = f_manifest f3 /\ f_err f4 = f_err f3) as [D1 D2].
  { change f4 with (fst (f4, e4)). rewrite <- E4. apply keeps_if, keeps_error. }
  simpl. split; congruence.
Qed.

Lemma handle_commands_keeps now l f :
  refs_ok (f_manifest f) -> (forall id cmd, (id, cmd) ∈ l -> is_Some (rm_Commands (f_manifest f) !! id)) ->
  exists f' e, handle_commands now l f = (f', e, None) /\ f_manifest f' = f_manifest f /\ f_err f' = f_err f.
Proof.
  revert f. induction l as [|[id cmd] l IH]; intros f Hr Hl; [by exists f, []|]. cbn [handle_commands].
  assert (exists f1 e1, handle_command now id cmd f = (f1, e1, None) /\ f_manifest f1 = f_manifest f /\ f_err f1 = f_err f) as (f1 & e1 & -> & M1 & R1).
  { destruct (Hl id cmd) as [cm Hc]; [left|]. unfold handle_command. rewrite Hc.
    destruct (String.eqb_spec (cm_TargetId cm) "") as [E|E]; [|destruct (Hr _ _ Hc E) as [tm ->]].
    - destruct (handle_found now id cmd None cm f) as [f1 e1] eqn:Ef. exists f1, e1. pose proof (keeps_found now id cmd None cm f) as K. rewrite Ef in K; by split.
    - destruct (handle_found now id cmd (Some tm) cm f) as [f1 e1] eqn:Ef. exists f1, e1. pose proof (keeps_found now id cmd (Some tm) cm f) as K. rewrite Ef in K; by split. }
  destruct (IH f1) as (f2 & e2 & -> & M2 & R2); [by rewrite M1| |].
  - intros id' cmd' Hin. rewrite M1. eapply Hl. by right.
  - exists f2, (e1 ++ e2). split; [done|]. split; congruence.
Qed.

Lemma handleDeltaManifest_keeps now fd f :
  refs_ok (f_manifest f) -> (forall id, is_Some (fd_Commands fd !! id) -> is_Some (rm_Commands (f_manifest f) !! id)) ->
  exists f' e, handleDeltaManifest now (DeltaManifest_Fields fd) f = (f', e, None) /\ f_manifest f' = f_manifest f /\ f_err f' = f_err f.
Proof.
  intros Hr Hc. unfold handleDeltaManifest. cbn [fields_of].
  destruct (handle_commands_keeps now (range_commands (fd_Commands fd)) f Hr) as (f1 & e1 & -> & M1 & R1).
  { intros id cmd Hin. apply Hc. exists cmd. apply elem_of_map_to_list. by rewrite <- range_commands_perm. }
  assert (keeps (if fd_HasFailure fd then seq printBuildFailure printGHAFailure else quiet)) as Hk
    by (destruct (fd_HasFailure fd); auto using keeps_seq, keeps_failure, keeps_gha, keeps_quiet).
  match goal with |- context [let '(_, _) := ?a in _] => destruct a as [f2 e2] eqn:E2 end.
  assert (f_manifest f2 = f_manifest f1 /\ f_err f2 = f_err f1) as [K1 K2] by (change f2 with (fst (f2, e2)); rewrite <- E2; apply Hk).
  exists f2, (e1 ++ e2). split; [done|]. split; congruence.
Qed.

(** Any delta of fields keeps the targets that commands name. *)
Lemma setManifestFields_refs fd m : refs_ok m -> refs_ok (setManifestFields fd m).
Proof.
  intros Hr id cm. destruct (setManifestFields_spec fd m) as (_ & HC & HT).
  assert (forall t, is_Some (rm_Targets m !! t) -> is_Some (rm_Targets (setManifestFields fd m) !! t)) as Hm.
  { intros t Ht. rewrite HT. cbv zeta. destruct (fd_Targets fd !! t); destruct (mentions _ t); simpl; try by eexists. done. }
  rewrite HC. destruct (fd_Commands fd !! id) as [c2|] eqn:Ec; [|intros Hl Hn; apply Hm; by eapply Hr].
  intros [= <-]. simpl. unfold set_string. destruct (String.eqb_spec (cm_TargetId (dc_fields c2)) "") as [E|E].
  - destruct (rm_Commands m !! id) as [c|] eqn:Em; simpl; [|done]. intros Hn. apply Hm. by eapply Hr.
  - intros _. rewrite HT. cbv zeta.
    assert (mentions (map_to_list (fd_Commands fd)) (cm_TargetId (dc_fields c2)) = true) as ->; [|by eexists].
    unfold mentions. destruct (String.eqb_spec (cm_TargetId (dc_fields c2)) ""); [done|]. simpl. apply existsb_exists.
    exists (id, c2). split; [|apply String.eqb_refl]. apply list_elem_of_In. by apply elem_of_map_to_list.
Qed.

(** A delta that the bus hands to its raw subscribers, whose statistics can be decoded. *)
Definition raw_delta (d : Delta) : Prop :=
  d_Version d = 0%Z /\
  match d_type d with
  | DeltaManifest_Fields _ => True
  | Delta_DeltaLog l => dl_Stream l = BuildkitStatsStream -> exists s, unmarshal_stats (dl_Data l) = inl s
  | _ => False
  end.

Lemma handleDeltaLog_keeps dl f :
  (dl_Stream dl = BuildkitStatsStream -> exists s, unmarshal_stats (dl_Data dl) = inl s) ->
  exists f' e, handleDeltaLog dl f = (f', e, None) /\ f_manifest f' = f_manifest f /\ f_err f' = f_err f.
Proof.
  intros Hs. unfold handleDeltaLog. destruct (targetConsole _ _ _ _) as [c v]. destruct (v && _); [by exists f, []|].
  destruct (Z.eqb_spec (dl_Stream dl) BuildkitStatsStream) as [E|E].
  - destruct (Hs E) as [[cpu mem] ->]. destruct (negb _); [by eexists _, _|].
    destruct (line_output _ _ _) as [text op]. match goal with |- context [say_bytes c text ?g] => destruct (keeps_bytes c text g) as [K1 K2] end.
    destruct (say_bytes _ _ _) as [f' e]. by eexists _, _.
  - destruct (line_output _ _ _) as [text op]. match goal with |- context [say_bytes c text ?g] => destruct (keeps_bytes c text g) as [K1 K2] end.
    destruct (say_bytes _ _ _) as [f' e]. by eexists _, _.
Qed.

Lemma Formatter_Write_keeps now d f :
  rm_Version (f_manifest f) = 0%Z -> refs_ok (f_manifest f) -> raw_delta d ->
  f_manifest (fst (Formatter_Write now d f)) = fst (ApplyDelta (f_manifest f) d) /\ f_err (fst (Formatter_Write now d f)) = f_err f /\
  rm_Version (fst (ApplyDelta (f_manifest f) d)) = 0%Z /\ refs_ok (fst (ApplyDelta (f_manifest f) d)).
Proof.
  intros V Hr [Vd Hd]. unfold Formatter_Write, processDelta, ApplyDelta, checkVersion. rewrite V, Vd. cbn [Z.eqb negb andb].
  destruct (d_type d) as [?|fd|?|dl|?] eqn:Et; try done.
  - set (m := setManifestFields fd (f_manifest f)). destruct (handleDeltaManifest_keeps now fd (set_manifest m f)) as (f' & e & -> & M & R).
    + by apply setManifestFields_refs.
    + intros id Hi. destruct (setManifestFields_spec fd (f_manifest f)) as (_ & HC & _). cbn [set_manifest f_manifest m]. unfold m. rewrite HC.
      destruct Hi as [x ->]. by eexists.
    + simpl. split_and!; [done|done| |by apply setManifestFields_refs].
      pose proof (set_fields_scalars fd (f_manifest f)) as [= EV _ _ _ _ _ _ _ _]. unfold m. by rewrite EV.
  - destruct (handleDeltaLog_keeps dl (set_manifest (f_manifest f) f) Hd) as (f' & e & -> & M & R). by split_and!.
Qed.

Lemma write_all_keeps l f :
  rm_Version (f_manifest f) = 0%Z -> refs_ok (f_manifest f) -> Forall raw_delta l.*2 ->
  f_manifest (fst (write_all l f)) = fold_left (fun m d => fst (ApplyDelta m d)) l.*2 (f_manifest f) /\ f_err (fst (write_all l f)) = f_err f.
Proof.
  revert f. induction l as [|[now d] l IH]; intros f V Hr Hl; [done|]. simpl in Hl. apply list.Forall_cons in Hl as [Hd Hl].
  destruct (Formatter_Write_keeps now d f V Hr Hd) as (K1 & K2 & K3 & K4). cbn [write_all]. unfold seq.
  destruct (Formatter_Write now d f) as [f1 e1]. cbn [fst] in K1, K2. rewrite <- K1 in K3, K4.
  destruct (IH f1 K3 K4 Hl) as [I1 I2]. destruct (write_all l f1) as [f2 e2]. cbn [fst] in *. split; [|congruence].
  rewrite I1. cbn [fmap list_fmap fold_left snd]. by rewrite K1.
Qed.

(** The history of a run has only deltas of fields and raw logs. *)
Lemma history_raw isSSH t r :
  rtc (log_step isSSH) (newRun (NewBus t)) r ->
  Forall (fun d => d_Version d = 0%Z /\ match d_type d with DeltaManifest_Fields _ | Delta_DeltaLog _ => True | _ => False end) (rawHistory (lr_bus r)).
Proof.
  intros Hr. set (P := fun d => _). eapply (rtc_keeps _ (fun r => Forall P (rawHistory (lr_bus r)))); [|done|by apply list.Forall_nil].
  intros x y Hxy Hx. destruct (log_step_history _ _ _ Hxy) as (_ & _ & [Hh|[[l Hh]|(fd & Hh & _)]]); rewrite Hh; [done| |];
    apply list.Forall_app; (split; [done|]); apply list.Forall_cons; by split.
Qed.

(** C26. The formatter, given what the bus gives to its raw subscribers, never fails: whatever has
    happened to a run, no delta is refused and every command and target that a delta is about is
    known, provided that the statistics that were logged can be decoded; and the manifest that it
    prints from is the run's. *)
Theorem formatter_never_fails isSSH t r l debug verbose displayStats noTicks tracker gha :
  rtc (log_step isSSH) (newRun (NewBus t)) r -> l.*2 = rawHistory (lr_bus r) ->
  (forall dl, mkDelta 0 (Delta_DeltaLog dl) ∈ l.*2 -> dl_Stream dl = BuildkitStatsStream -> exists s, unmarshal_stats (dl_Data dl) = inl s) ->
  let f := fst (write_all l (NewFormatter debug verbose displayStats noTicks tracker gha)) in
  f_err f = [] /\ agrees r (f_manifest f).
Proof.
  intros Hr Hl Hs. assert (Forall raw_delta l.*2) as Hraw.
  { apply list.Forall_forall. intros d Hd. pose proof (history_raw _ _ _ Hr) as Hh. rewrite <- Hl in Hh.
    destruct (proj1 (list.Forall_forall _ _) Hh d Hd) as [V Ht]. split; [done|]. destruct d as [v ty]. simpl in V, Ht. subst v.
    destruct ty; try done. exact (Hs _ Hd). }
  destruct (write_all_keeps l (NewFormatter debug verbose displayStats noTicks tracker gha)) as [K1 K2]; [done|by intros ? ?|done|].
  split; [done|]. rewrite K1. cbn [NewFormatter f_manifest]. rewrite Hl. by eapply reachable_agrees.
Qed.
End Safe.

(** ** A terminal *)

(** The rows above the cursor, the last first, the row of the cursor, those below it, and the
    column. *)
Record Screen : Type := mkScreen { sc_above : list string; sc_row : string; sc_below : list string; sc_col : nat }.

Definition put (c : ascii) (t : Screen) : Screen :=
  let row := sc_row t in
  mkScreen (sc_above t) (stake (sc_col t) row +:+ Repeat " " (sc_col t - String.length row) +:+ String c (sdrop (S (sc_col t)) row))
    (sc_below t) (S (sc_col t)).

Definition down (t : Screen) : Screen :=
  match sc_below t with
  | [] => mkScreen (sc_row t :: sc_above t) "" [] 0
  | r :: below => mkScreen (sc_row t :: sc_above t) r below 0
  end.

Definition up (t : Screen) : Screen :=
  match sc_above t with
  | [] => t
  | r :: above => mkScreen above r (sc_row t :: sc_below t) (sc_col t)
  end.

(** What the terminal makes of a text: newlines, the sequence that goes up, and other bytes. *)
Fixpoint render (s : string) (t : Screen) : Screen :=
  match s with
  | "" => t
  | String c s' =>
      if is_NL c then render s' (down t)
      else match s' with
           | String b (String a s'') =>
               if (byteZ c =? 27)%Z && Ascii.eqb b "[" && Ascii.eqb a "A" then render s'' (up t) else render s' (put c t)
           | _ => render s' (put c t)
           end
  end.

(** The lines of a text and what follows the last newline. *)
Fixpoint lines (s : string) : list string * string :=
  match s with
  | "" => ([], "")
  | String c s =>
      let '(ls, o) := lines s in
      if is_NL c then ("" :: ls, o) else match ls with [] => ([], String c o) | l :: ls => (String c l :: ls, o) end
  end.

Definition all_lines (s : string) : list string := let '(ls, o) := lines s in ls ++ (if String.eqb o "" then [] else [o]).

(** A byte that is only a cell of the screen. *)
Definition printable (c : ascii) : bool := negb ((byteZ c =? 27)%Z || (byteZ c =? 13)%Z || (byteZ c =? 10)%Z).
Definition text_byte (c : ascii) : bool := printable c || is_NL c.

Lemma is_NL_byteZ c : is_NL c = (byteZ c =? 10)%Z.
Proof. by destruct c as [[] [] [] [] [] [] [] []]. Qed.

(** Text within a row. *)
Lemma render_text a k t :
  sall printable a = true -> sc_col t <= String.length (sc_row t) ->
  render (a +:+ k) t =
    render k (mkScreen (sc_above t) (stake (sc_col t) (sc_row t) +:+ a +:+ sdrop (sc_col t + String.length a) (sc_row t)) (sc_below t)
                (sc_col t + String.length a)).
Proof.
  revert t. induction a as [|c a IH]; intros t Ha Hc.
  { destruct t as [ab row be col]. simpl in *. by rewrite Nat.add_0_r, stake_sdrop. }
  simpl in Ha. apply andb_true_iff in Ha as [Hp Ha].
  assert (is_NL c = false /\ (byteZ c =? 27)%Z = false) as [Hn He].
  { rewrite is_NL_byteZ. unfold printable in Hp. by destruct (byteZ c =? 27)%Z, (byteZ c =? 13)%Z, (byteZ c =? 10)%Z. }
  assert (render (String c (a +:+ k)) t = render (a +:+ k) (put c t)) as E.
  { cbn [render]. rewrite Hn. destruct (a +:+ k) as [|b [|a' s'']]; [done|done|]. by rewrite He. }
  change (String c a +:+ k) with (String c (a +:+ k)). rewrite E. unfold put.
  replace (sc_col t - String.length (sc_row t)) with 0 by lia. cbn [Repeat String.append].
  set (row := stake (sc_col t) (sc_row t) +:+ "" +:+ String c (sdrop (S (sc_col t)) (sc_row t))).
  assert (String.length row >= S (sc_col t)) as Hlen.
  { unfold row. rewrite !length_sapp, length_stake. cbn [String.length]. lia. }
  rewrite IH by (simpl; try done; lia). cbn [sc_above sc_row sc_below sc_col]. f_equal. f_equal; [|simpl; lia].
  assert (stake (S (sc_col t)) row = stake (sc_col t) (sc_row t) +:+ String c "" /\
          sdrop (S (sc_col t) + String.length a) row = sdrop (S (sc_col t) + String.length a) (sc_row t)) as [-> ->].
  { assert (String.length (stake (sc_col t) (sc_row t) +:+ String c "") = S (sc_col t)) as Hl by (rewrite length_sapp, length_stake; simpl; lia).
    assert (row = (stake (sc_col t) (sc_row t) +:+ String c "") +:+ sdrop (S (sc_col t)) (sc_row t)) as Er by (unfold row; by rewrite <- sapp_assoc).
    split; rewrite Er; rewrite <- Hl at 1; [apply stake_sapp|]. rewrite <- sdrop_sdrop, sdrop_sapp. by rewrite sdrop_sdrop. }
  rewrite <- sapp_assoc. simpl. by rewrite <- plus_n_Sm.
Qed.

(** *** Lines *)

Lemma lines_app a b : lines (a +:+ b) = (fst (lines a) ++ fst (lines (snd (lines a) +:+ b)), snd (lines (snd (lines a) +:+ b))).
Proof.
  induction a as [|c a IH]; [simpl; change ("" +:+ b) with b; by destruct (lines b)|]. change (String c a +:+ b) with (String c (a +:+ b)). cbn [lines].
  rewrite IH. clear IH. destruct (lines a) as [la oa]. simpl. destruct (is_NL c) eqn:Hc; [done|]. destruct la as [|l la]; [|done]. simpl.
  change (String c oa +:+ b) with (String c (oa +:+ b)). cbn [lines]. rewrite Hc. destruct (lines (oa +:+ b)) as [lb ob]. simpl. by destruct lb.
Qed.

Lemma lines_open a : sall (fun c => negb (is_NL c)) a = true -> lines a = ([], a).
Proof. induction a as [|c a IH]; [done|]. simpl. intros [Hc Ha]%andb_true_iff. rewrite (IH Ha). by destruct (is_NL c). Qed.

Lemma lines_open_snd a : sall (fun c => negb (is_NL c)) (snd (lines a)) = true.
Proof.
  induction a as [|c a IH]; [done|]. simpl. destruct (lines a) as [la oa]. simpl in IH. destruct (is_NL c) eqn:Hc; [done|].
  destruct la; [|done]. simpl. by rewrite Hc.
Qed.

Lemma all_lines_app a b : all_lines (a +:+ b) = fst (lines a) ++ all_lines (snd (lines a) +:+ b).
Proof. unfold all_lines. rewrite lines_app. destruct (lines (snd (lines a) +:+ b)) as [lb ob]. simpl. by rewrite app_assoc. Qed.

Lemma lines_closed o rest : sall (fun c => negb (is_NL c)) o = true -> lines (o +:+ NLs +:+ rest) = (o :: fst (lines rest), snd (lines rest)).
Proof.
  induction o as [|c o IH]; [intros _; change ("" +:+ NLs +:+ rest) with (String "010" rest); cbn [lines]; by destruct (lines rest)|].
  cbn [sall]. intros [Hc Ho]%andb_true_iff. change (String c o +:+ NLs +:+ rest) with (String c (o +:+ NLs +:+ rest)). cbn [lines].
  rewrite (IH Ho). by destruct (is_NL c).
Qed.

Lemma all_lines_closed o rest : sall (fun c => negb (is_NL c)) o = true -> all_lines (o +:+ NLs +:+ rest) = o :: all_lines rest.
Proof. intros Ho. unfold all_lines. rewrite (lines_closed _ _ Ho). by destruct (lines rest). Qed.

Definition unlines (ls : list string) : string := sconcat ((fun l => l +:+ NLs) <$> ls).

Lemma unlines_app a b : unlines (a ++ b) = unlines a +:+ unlines b.
Proof. unfold unlines. by rewrite fmap_app, sconcat_app. Qed.

Lemma unlines_lines s : s = unlines (fst (lines s)) +:+ snd (lines s).
Proof.
  induction s as [|c s IH]; [done|]. cbn [lines]. destruct (lines s) as [ls o]. cbn [fst snd] in IH. destruct (is_NL c) eqn:Hc.
  - apply Ascii.eqb_eq in Hc as ->. simpl. by rewrite IH at 1.
  - destruct ls as [|l ls]; rewrite IH at 1; done.
Qed.

Lemma lines_nil s : fst (lines s) = [] -> snd (lines s) = s.
Proof. intros E. pose proof (unlines_lines s) as H. rewrite E in H. by rewrite H at 2. Qed.

Lemma HasSuffix_lines s : s <> "" -> HasSuffix s NLs = String.eqb (snd (lines s)) "".
Proof.
  intros Hs. apply eq_true_iff_eq. rewrite HasSuffix_spec, String.eqb_eq. split.
  - intros [t ->]. rewrite lines_app. cbn [snd]. change NLs with (NLs +:+ ""). by rewrite (lines_closed _ "" (lines_open_snd t)).
  - intros Ho. pose proof (unlines_lines s) as Hu. rewrite Ho, sapp_nil_r in Hu. destruct (fst (lines s)) as [|l ls _] using rev_ind; [done|].
    exists (unlines ls +:+ l). rewrite Hu, unlines_app. unfold unlines at 2. cbn [fmap list_fmap sconcat foldr]. by rewrite sapp_nil_r, sapp_assoc.
Qed.

(** A text that is not empty, with a newline at its end if there was none. *)
Lemma closed_lines s : s <> "" -> (if HasSuffix s NLs then s else s +:+ NLs) = unlines (all_lines s).
Proof.
  intros Hs. rewrite (HasSuffix_lines s Hs). unfold all_lines. pose proof (unlines_lines s) as Hu. destruct (lines s) as [ls o]. cbn [fst snd] in *.
  destruct (String.eqb_spec o "") as [->|Ho]; [by rewrite app_nil_r; rewrite sapp_nil_r in Hu|].
  rewrite unlines_app. unfold unlines at 2. cbn [fmap list_fmap sconcat foldr]. by rewrite sapp_nil_r, sapp_assoc, <- Hu.
Qed.

Lemma lines_prefix a s :
  sall (fun c => negb (is_NL c)) a = true ->
  lines (a +:+ s) = match fst (lines s) with [] => ([], a +:+ s) | l :: ls => ((a +:+ l) :: ls, snd (lines s)) end.
Proof.
  intros Ha. pose proof (lines_nil s) as Hn. induction a as [|c a IH].
  - change ("" +:+ s) with s. destruct (lines s) as [[|l ls] o]; [|done]. simpl in *. by rewrite Hn.
  - simpl in Ha. apply andb_true_iff in Ha as [Hc Ha]. apply negb_true_iff in Hc.
    change (String c a +:+ s) with (String c (a +:+ s)). cbn [lines]. rewrite (IH Ha), Hc. by destruct (lines s) as [[|l ls] o].
Qed.

Lemma after_newline_lines s : after_newline s = match fst (lines s) with [] => None | _ => Some (snd (lines s)) end.
Proof.
  induction s as [|c s IH]; [done|]. cbn [after_newline lines]. rewrite IH. pose proof (lines_nil s) as Hn. destruct (lines s) as [ls o]. simpl in *.
  destruct ls as [|l ls]; [|by destruct (is_NL c)]. destruct (is_NL c); [|done]. simpl. by rewrite Hn.
Qed.

(** What [line_output] prints, and the line that it leaves open. *)
Lemma line_output_spec same o p s :
  s = (if HasPrefix p NLs && negb (String.eqb o "") then sdrop 1 p else o +:+ p) -> s <> "" ->
  line_output same o p =
    ((if same && negb (String.eqb o "") && negb (HasPrefix p NLs) then ansiUp else "") +:+ unlines (all_lines s), snd (lines s)).
Proof.
  intros Hs Hn. unfold line_output.
  assert (forall a, sall (fun c => negb (is_NL c)) a = true ->
    (if HasSuffix (a +:+ s) NLs then a +:+ s else (a +:+ s) +:+ NLs) = a +:+ unlines (all_lines s) /\
    match after_newline (a +:+ s) with Some t => t | None => s end = snd (lines s)) as Ha.
  { intros a Ha. assert (a +:+ s <> "") as Hne by (by destruct a). split.
    - rewrite <- (closed_lines s Hn), (HasSuffix_lines _ Hn), (HasSuffix_lines _ Hne), (lines_prefix a s Ha).
      pose proof (lines_nil s) as Hl. destruct (lines s) as [[|l ls] os]; simpl in *.
      + rewrite Hl by done. destruct (String.eqb_spec (a +:+ s) ""); [done|]. destruct (String.eqb_spec s ""); [done|]. by rewrite sapp_assoc.
      + destruct (String.eqb os ""); [done|by rewrite sapp_assoc].
    - rewrite after_newline_lines, (lines_prefix a s Ha). pose proof (lines_nil s) as Hl. destruct (lines s) as [[|l ls] os]; simpl in *; [|done].
      by rewrite Hl. }
  destruct (Ha "" eq_refl) as [A1 A2]. destruct (Ha ansiUp eq_refl) as [B1 B2].
  change ("" +:+ s) with s in A1, A2. change ("" +:+ unlines (all_lines s)) with (unlines (all_lines s)) in *.
  destruct (HasPrefix p NLs) eqn:Hp, (String.eqb_spec o "") as [->|Ho]; cbn [andb negb] in *; rewrite ?andb_false_r, ?andb_true_r;
    change ("" +:+ p) with p in *; rewrite <- ?Hs; change ("" +:+ s) with s; rewrite ?A1, ?A2; try done.
  - change ("" +:+ s) with s. by rewrite A1, A2.
  - destruct (String.eqb_spec o ""); [done|]. destruct same; cbn [negb andb]; [by rewrite B1, B2|]. change ("" +:+ s) with s. by rewrite A1, A2.
Qed.

(** *** Rows *)

Section Rows.
Context (P : string) (HP : sall printable P = true).

(** A row shows a line with the prefix, or nothing for a line that is empty. *)
Definition shown (l row : string) : Prop := row = P +:+ l \/ l = "" /\ row = "".

(** The cursor is at the start of the last row, which is empty or has the prefix that was printed
    before going up. *)
Definition settled (t : Screen) : Prop := sc_below t = [] /\ sc_col t = 0 /\ (sc_row t = "" \/ sc_row t = P).

Lemma printable_plain a : sall printable a = true -> sall (fun c => negb ((byteZ c =? 13)%Z || (byteZ c =? 10)%Z)) a = true.
Proof.
  apply sall_impl. intros c. unfold printable. by destruct (byteZ c =? 27)%Z, (byteZ c =? 13)%Z, (byteZ c =? 10)%Z.
Qed.

Lemma show_text t a k :
  a <> "" -> sall printable a = true -> show P t (a +:+ k) = (if t then "" else P) +:+ a +:+ show P true k.
Proof. intros Hn Ha. apply show_high; [done|by apply printable_plain]. Qed.

Lemma show_newline t k : show P t (NLs +:+ k) = NLs +:+ show P false k.
Proof. done. Qed.

Lemma render_newline k t : render (NLs +:+ k) t = render k (down t).
Proof. done. Qed.

Lemma render_up k t : render (ansiUp +:+ k) t = render k (up t).
Proof. done. Qed.

(** Text over text that is not longer. *)
Lemma render_over b x a k ab be :
  sall printable a = true -> String.length x <= String.length a ->
  render (a +:+ k) (mkScreen ab (b +:+ x) be (String.length b)) = render k (mkScreen ab (b +:+ a) be (String.length b + String.length a)).
Proof.
  intros Ha Hx. rewrite render_text by (simpl; rewrite ?length_sapp; try done; lia). cbn [sc_above sc_row sc_below sc_col].
  by rewrite stake_sapp, <- sdrop_sdrop, sdrop_sapp, (sdrop_all _ x Hx), sapp_nil_r.
Qed.

(** One line, printed on the last row. *)
Lemma render_line l k t :
  sall printable l = true -> settled t ->
  exists row, shown l row /\ render (show P false (l +:+ NLs +:+ k)) t = render (show P false k) (mkScreen (row :: sc_above t) "" [] 0).
Proof.
  intros Hl (Hb & Hc & Hr). destruct t as [ab r be col]. simpl in *. subst be col. destruct (decide (l = "")) as [->|Hn].
  - exists r. split; [|done]. destruct Hr as [-> | ->]; [by right|left; by rewrite sapp_nil_r].
  - exists (P +:+ l). split; [by left|]. rewrite (show_text false l _ Hn Hl), show_newline.
    rewrite (render_over "" r P) by (try done; by destruct Hr as [-> | ->]; simpl; lia). cbn [String.length Nat.add].
    change ("" +:+ P) with P. rewrite <- (sapp_nil_r P) at 2. rewrite (render_over P "" l) by (simpl; try done; lia). by rewrite render_newline.
Qed.

Lemma render_lines ls t :
  Forall (fun l => sall printable l = true) ls -> settled t ->
  exists rows row, Forall2 shown ls rows /\ (row = "" \/ row = P) /\ render (show P false (unlines ls)) t = mkScreen (rev rows ++ sc_above t) row [] 0.
Proof.
  revert t. induction ls as [|l ls IH]; intros t Hl Ht.
  { destruct t as [ab r be col]. destruct Ht as (Hb & Hc & Hr). simpl in *. subst. by exists [], r. }
  apply list.Forall_cons in Hl as [Hl Hls]. change (unlines (l :: ls)) with ((l +:+ NLs) +:+ unlines ls). rewrite <- sapp_assoc.
  destruct (render_line l (unlines ls) t Hl Ht) as (row & Hs & ->).
  destruct (IH (mkScreen (row :: sc_above t) "" [] 0) Hls) as (rows & row' & H2 & Hr & ->); [split_and!; try done; by left|].
  exists (row :: rows), row'. split_and!; [by constructor|done|]. simpl. by rewrite <- app_assoc.
Qed.

(** Lines whose first continues the line that is open, on the row above. *)
Lemma render_again o x ls ab row :
  o <> "" -> sall printable (o +:+ x) = true -> row = "" \/ row = P ->
  render (show P false (ansiUp +:+ unlines ((o +:+ x) :: ls))) (mkScreen ((P +:+ o) :: ab) row [] 0) =
    render (show P false (unlines ls)) (mkScreen ((P +:+ o +:+ x) :: ab) P [] 0).
Proof.
  intros Ho Hx Hr. change (unlines ((o +:+ x) :: ls)) with (((o +:+ x) +:+ NLs) +:+ unlines ls). rewrite <- sapp_assoc.
  rewrite (show_high P false ansiUp) by done. rewrite (show_text true) by (try done; by destruct o). rewrite show_newline.
  rewrite (render_over "" row P) by (try done; by destruct Hr as [-> | ->]; simpl; lia). rewrite render_up. cbn [up sc_above sc_row sc_below sc_col].
  cbn [String.length Nat.add]. change ("" +:+ P) with P. change ("" +:+ ?a) with a.
  rewrite (render_over P o (o +:+ x)) by (rewrite ?length_sapp; try done; lia). by rewrite render_newline.
Qed.

Lemma all_lines_printable s : sall text_byte s = true -> Forall (fun l => sall printable l = true) (all_lines s).
Proof.
  intros Hs. assert (Forall (fun l => sall printable l = true) (fst (lines s)) /\ sall printable (snd (lines s)) = true) as [H1 H2].
  { induction s as [|c s IH]; [by split; [apply list.Forall_nil|]|]. cbn [sall] in Hs. apply andb_true_iff in Hs as [Hc Hs]. specialize (IH Hs).
    cbn [lines]. destruct (lines s) as [ls o]. simpl in IH. destruct IH as [I1 I2]. unfold text_byte in Hc. destruct (is_NL c).
    - split; [|done]. by apply list.Forall_cons.
    - rewrite orb_false_r in Hc. destruct ls as [|l ls]; simpl; [rewrite Hc; by split|]. apply list.Forall_cons in I1 as [? ?].
      split; [|done]. apply list.Forall_cons. simpl. by rewrite Hc. }
  unfold all_lines. destruct (lines s) as [ls o]. simpl in *. apply list.Forall_app. split; [done|]. destruct (String.eqb o ""); [by apply list.Forall_nil|].
  apply list.Forall_cons. by split; [|apply list.Forall_nil].
Qed.

Lemma lines_open_text s : sall text_byte s = true -> sall text_byte (snd (lines s)) = true.
Proof.
  intros Hs. rewrite (unlines_lines s) in Hs. rewrite sall_app in Hs. by apply andb_true_iff in Hs as [_ ?].
Qed.

(** The screen shows the lines of a text, below what was there. *)
Definition shows (base : list string) (text : string) (t : Screen) : Prop :=
  settled t /\ exists rows, Forall2 shown (all_lines text) rows /\ sc_above t = rev rows ++ base.

(** A piece of output: it is not empty, it has no escapes or carriage returns, and it is not only
    the newline that closes a line. *)
Definition piece_ok (o p : string) : Prop := p <> "" /\ sall text_byte p = true /\ (p = NLs -> o = "").

Lemma shows_more base text ls rows t t' row :
  Forall2 shown (all_lines text) rows -> Forall2 shown ls t' -> row = "" \/ row = P -> all_lines t = all_lines text ++ ls ->
  shows base t (mkScreen (rev t' ++ rev rows ++ base) row [] 0).
Proof.
  intros H1 H2 Hr Ha. split; [by split_and!|]. exists (rows ++ t'). rewrite Ha. split; [by apply Forall2_app|]. simpl. by rewrite rev_app_distr, app_assoc.
Qed.

Lemma all_lines_prefix o p :
  sall (fun c => negb (is_NL c)) o = true -> o <> "" -> p <> "" ->
  exists x ls, all_lines p = x :: ls /\ all_lines (o +:+ p) = (o +:+ x) :: ls.
Proof.
  intros Ho Hn Hp. unfold all_lines. rewrite (lines_prefix _ _ Ho). pose proof (lines_nil p) as Hl. destruct (lines p) as [[|l ls] op]; simpl in *.
  - rewrite Hl by done. destruct (String.eqb_spec p ""); [done|]. destruct (String.eqb_spec (o +:+ p) "") as [E|]; [by destruct o|]. eauto.
  - eauto.
Qed.

Lemma shows_piece base text p same t :
  sall text_byte text = true -> shows base text t -> piece_ok (snd (lines text)) p -> same = true \/ snd (lines text) = "" ->
  let '(printed, o) := line_output same (snd (lines text)) p in
  o = snd (lines (text +:+ p)) /\ shows base (text +:+ p) (render (show P false printed) t).
Proof.
  intros Ht [Hs (rows & Hrows & Hab)] (Hp & Htp & Hnl) Hsame. pose proof (lines_open_snd text) as Hopen. pose proof (lines_open_text text Ht) as Hot.
  assert (snd (lines (text +:+ p)) = snd (lines (snd (lines text) +:+ p))) as El by (by rewrite lines_app).
  pose proof (all_lines_app text p) as Ea. assert (all_lines text = fst (lines text) ++ (if String.eqb (snd (lines text)) "" then [] else [snd (lines text)])) as Et.
  { unfold all_lines. by destruct (lines text). }
  set (o := snd (lines text)) in *. destruct (String.eqb_spec o "") as [Eo|Eo].
  - rewrite (line_output_spec same o p p); [|rewrite Eo, andb_false_r; done|done]. rewrite Eo, andb_false_r in *. cbn [andb].
    change ("" +:+ p) with p in El, Ea. split; [done|]. change ("" +:+ ?a) with a.
    destruct (render_lines (all_lines p) t (all_lines_printable p Htp) Hs) as (rows' & row & H2 & Hr & ->). rewrite Hab.
    eapply shows_more; [done|done|done|]. by rewrite Ea, Et, app_nil_r.
  - destruct (HasPrefix p NLs) eqn:Hpre.
    + assert (exists rest, p = NLs +:+ rest) as [rest ->].
      { by apply HasPrefix_spec. }
      assert (rest <> "") as Hrest by (intros ->; by apply Eo, Hnl).
      rewrite (line_output_spec same o (NLs +:+ rest) rest); [|destruct (String.eqb_spec o ""); [done|]; by rewrite Hpre|done].
      rewrite Hpre, andb_false_r. cbn [sall] in Htp. assert (sall text_byte rest = true) as Htr by (by apply andb_true_iff in Htp as [_ ?]).
      split; [by rewrite El, (lines_closed _ _ Hopen)|]. change ("" +:+ ?a) with a.
      destruct (render_lines (all_lines rest) t (all_lines_printable rest Htr) Hs) as (rows' & row & H2 & Hr & ->). rewrite Hab.
      eapply shows_more; [done|done|done|]. rewrite Ea, (all_lines_closed _ _ Hopen), Et, <- app_assoc. done.
    + destruct Hsame as [-> |]; [|done].
      destruct (all_lines_prefix o p Hopen Eo Hp) as (x & ls & Ep & Eop).
      rewrite (line_output_spec true o p (o +:+ p)); [|by rewrite Hpre|by destruct o]. rewrite Hpre. destruct (String.eqb_spec o ""); [done|]. cbn [negb andb].
      split; [done|]. rewrite Eop.
      assert (Forall (fun l => sall printable l = true) ((o +:+ x) :: ls)) as Hpr.
      { rewrite <- Eop. apply all_lines_printable. by rewrite sall_app, Hot, Htp. }
      apply list.Forall_cons in Hpr as [Hox Hls]. rewrite Et in Hrows. apply Forall2_app_inv_l in Hrows as (rows0 & lst & Hr0 & Hr1 & ->).
      apply Forall2_cons_inv_l in Hr1 as (r & nil & Hsh & Hnil & ->). apply Forall2_nil_inv_l in Hnil as ->.
      destruct Hsh as [-> | [? _]]; [|done]. destruct t as [ab row be col]. destruct Hs as (Hb & Hc & Hr). simpl in Hb, Hc, Hr, Hab. subst be col ab.
      rewrite rev_app_distr. cbn [rev app]. rewrite render_again by done.
      destruct (render_lines ls (mkScreen ((P +:+ o +:+ x) :: rev rows0 ++ base) P [] 0) Hls) as (rows' & row' & H2 & Hr' & ->);
        [split_and!; try done; by right|].
      split; [by split_and!|]. exists (rows0 ++ (P +:+ o +:+ x) :: rows'). split.
      * rewrite Ea, Eop. apply Forall2_app; [done|]. constructor; [by left|done].
      * simpl. rewrite rev_app_distr. simpl. by rewrite <- !app_assoc.
Qed.

(** Pieces of the output of one command, and what is printed for them. *)
Fixpoint pieces_ok (o : string) (ps : list string) : Prop :=
  match ps with [] => True | p :: ps => piece_ok o p /\ pieces_ok (snd (lines (o +:+ p))) ps end.

Fixpoint printed (same : bool) (o : string) (ps : list string) : list string :=
  match ps with
  | [] => []
  | p :: ps => let '(text, o) := line_output same o p in show P false text :: printed true o ps
  end.

Lemma shows_pieces base ps text same t :
  sall text_byte text = true -> shows base text t -> pieces_ok (snd (lines text)) ps -> same = true \/ snd (lines text) = "" ->
  shows base (text +:+ sconcat ps) (fold_left (fun t s => render s t) (printed same (snd (lines text)) ps) t).
Proof.
  revert text same t. induction ps as [|p ps IH]; intros text same t Ht Hs Hps Hsame; [simpl; by rewrite sapp_nil_r|].
  destruct Hps as [Hp Hps]. pose proof (shows_piece base text p same t Ht Hs Hp Hsame) as Hstep. cbn [printed].
  destruct (line_output same (snd (lines text)) p) as [pr o]. destruct Hstep as [-> Hstep].
  change (sconcat (p :: ps)) with (p +:+ sconcat ps). rewrite sapp_assoc. cbn [fold_left].
  assert (snd (lines (snd (lines text) +:+ p)) = snd (lines (text +:+ p))) as E by (by rewrite (lines_app text)).
  apply IH; [|done|by rewrite <- E|by left]. destruct Hp as (_ & Hp & _). by rewrite sall_app, Ht, Hp.
Qed.
End Rows.

(** *** The output of one command *)

(** What the console is given for what the formatter wrote. *)
Definition console_texts (now : Z) (b : Bus) (evs : list (Event Dest)) : list string :=
  (fun l => WriterSub_Write "_full" (mkDelta 0 (Delta_DeltaFormattedLog l))) <$> flat_map (formatted_of now b) evs.

Section OneCommand.
Context `{DeltaOrderLaws} `{Paint} `{FormatterEnv} `{Unicode} (plain : color_NoColor = true).
Context (tid cid : string) (stream : Z) (Hstream : stream <> BuildkitStatsStream).
Implicit Types (f : Formatter).

(** The console of the command, as [handleDeltaLog] gets it. *)
Definition log_console f : ConsoleLogger Dest * bool :=
  targetConsole f tid cid (match rm_Commands (f_manifest f) !! cid with
                           | Some cm => Outcome.Contains (cm_Name cm) "RUN --raw-output" | None => false end).

(** A formatter that prints what the command writes. *)
Definition ready f : Prop :=
  shared_sound (f_shared f) /\ rm_Version (f_manifest f) = 0%Z /\ prefixWriter (f_log f) = None /\ snd (log_console f) && negb (f_verbose f) = false.

Definition log_of (p : Z * Z * string) : Z * Delta := let '(now, time, data) := p in (now, mkDelta 0 (Delta_DeltaLog (mkDeltaLog tid cid stream time data))).

Definition same_as_last f : bool :=
  negb (f_lastOutputWasOngoingUpdate f) && negb (f_lastOutputWasProgress f) && bool_decide (f_lastCommandOutput f = Some cid).

(** What stays when the command writes. *)
Definition same_console f f' : Prop := f_manifest f' = f_manifest f /\ f_log f' = f_log f /\ f_verbose f' = f_verbose f.

Lemma same_console_log f f' : same_console f f' -> log_console f' = log_console f.
Proof. intros (Hm & Hl & _). unfold log_console, targetConsole, console_name. by rewrite Hm, Hl. Qed.

Lemma console_writer f : prefixWriter (f_log f) = None -> errW (fst (log_console f)) = Some (snd (fst (console_name f tid cid)), cid).
Proof.
  intros Hp. unfold log_console, targetConsole. destruct (console_name f tid cid) as [[name wid] v]. case_match; [case_match|]; simpl; by rewrite ?Hp.
Qed.

Lemma console_trailing f : trailingLine (fst (log_console f)) = false.
Proof. unfold log_console, targetConsole. destruct (console_name f tid cid) as [[name wid] v]. by repeat case_match. Qed.

Lemma line_output_NL same o p : exists t, fst (line_output same o p) = t +:+ NLs.
Proof.
  unfold line_output. cbn [fst]. match goal with |- context [HasSuffix ?x NLs] => destruct (HasSuffix x NLs) eqn:E end; [|by eexists].
  by apply HasSuffix_spec.
Qed.

Lemma show_nonempty P t a : show P t (a +:+ NLs) <> "".
Proof. revert t. induction a as [|c a IH]; intros t; [done|]. change (String c a +:+ NLs) with (String c (a +:+ NLs)). cbn [show]. case_match; [done|]. case_match; [done|by destruct P]. Qed.

Lemma Write_log now time p f :
  ready f ->
  let '(text, o) := line_output (same_as_last f) (oc_openLine (getCommand cid f)) p in
  let '(f', e) := Formatter_Write now (snd (log_of (now, time, p))) f in
  e = [Written (Some (snd (fst (console_name f tid cid)), cid)) (show (prefix_text (fst (log_console f))) false text)] /\
  same_console f f' /\ ready f' /\ oc_openLine (getCommand cid f') = o /\ same_as_last f' = true.
Proof.
  intros (Hsh & HV & Hpw & Hvis). destruct (line_output _ _ p) as [text o] eqn:El.
  unfold Formatter_Write, processDelta, ApplyDelta, checkVersion. cbn [log_of snd d_Version d_type]. rewrite HV. cbn [Z.eqb negb andb].
  set (f0 := set_manifest (f_manifest f) f). unfold handleDeltaLog. cbn [dl_CommandId dl_TargetId dl_Stream dl_Data].
  change (targetConsole f0 tid cid _) with (log_console f).
  pose proof (console_writer f Hpw) as Hw. pose proof (console_trailing f) as Htr. destruct (log_console f) as [c v] eqn:Elc. cbn [fst snd] in *.
  change (f_verbose f0) with (f_verbose f). rewrite Hvis. destruct (Z.eqb_spec stream BuildkitStatsStream); [done|].
  change (negb (f_lastOutputWasOngoingUpdate _) && _ && _) with (same_as_last f). change (getCommand cid f0) with (getCommand cid f). rewrite El.
  set (f1 := set_command cid _ (set_command cid _ f0)). unfold say_bytes, say. change (f_shared f1) with (f_shared f).
  pose proof (PrintBytes_spec plain c text (f_shared f) Hsh) as Hpb. destruct (PrintBytes c text (f_shared f)) as [[c' sh'] e].
  destruct Hpb as [Hsh' ->]. destruct (line_output_NL (same_as_last f) (oc_openLine (getCommand cid f)) p) as [tx Htx]. rewrite El in Htx. simpl in Htx.
  assert (same_console f (set_last false false (Some cid) (set_shared sh' f1))) as Hsame by done. split_and!; [|done| | |].
  - unfold emit. rewrite Htr, Hw. destruct (String.eqb_spec (show (prefix_text c) false text) "") as [E|]; [|done].
    exfalso. rewrite Htx in E. by apply show_nonempty in E.
  - split_and!; [done|done|done|]. rewrite (same_console_log _ _ Hsame), Elc. done.
  - unfold getCommand. cbn [set_last set_shared f_commands]. unfold f1. cbn [set_command f_commands]. by rewrite lookup_insert_eq.
  - unfold same_as_last. cbn [set_last f_lastOutputWasOngoingUpdate f_lastOutputWasProgress f_lastCommandOutput negb andb]. by apply bool_decide_eq_true.
Qed.

Lemma console_texts_app now b e1 e2 : console_texts now b (e1 ++ e2) = console_texts now b e1 ++ console_texts now b e2.
Proof. unfold console_texts. by rewrite flat_map_app, fmap_app. Qed.

(** The console is given what [printed] says, between texts that are empty. *)
Lemma write_all_printed now0 b ps f t :
  ready f -> snd (fst (console_name f tid cid)) <> "_full" ->
  fold_left (fun t s => render s t) (console_texts now0 b (snd (write_all (log_of <$> ps) f))) t =
  fold_left (fun t s => render s t) (printed (prefix_text (fst (log_console f))) (same_as_last f) (oc_openLine (getCommand cid f)) ps.*2) t.
Proof.
  revert f t. induction ps as [|[[now time] p] ps IH]; intros f t Hr Hid; [done|]. cbn [fmap list_fmap]. cbn [snd printed].
  pose proof (Write_log now time p f Hr) as Hw. cbn [log_of write_all]. unfold seq. cbn [log_of snd] in Hw.
  destruct (line_output _ _ p) as [text o]. destruct (Formatter_Write _ _ f) as [f1 e1]. destruct Hw as (-> & Hsame & Hr1 & Ho & Hl).
  destruct (write_all (log_of <$> ps) f1) as [f2 e2] eqn:E2. cbn [snd]. rewrite console_texts_app, fold_left_app.
  assert (forall x, fold_left (fun t s => render s t) (console_texts now0 b [Written (Some (snd (fst (console_name f tid cid)), cid)) x]) t = render x t) as ->.
  { intros x. unfold console_texts. cbn [flat_map formatted_of app fmap list_fmap fold_left WriterSub_Write d_type df_TargetId df_Data].
    destruct (String.eqb_spec (snd (fst (console_name f tid cid))) "_full"); [done|]. done. }
  specialize (IH f1 (render (show (prefix_text (fst (log_console f))) false text) t) Hr1). rewrite E2 in IH. cbn [snd] in IH. rewrite IH.
  - cbn [fold_left]. by rewrite (same_console_log _ _ Hsame), Ho, Hl.
  - destruct Hsame as (Hm & _ & _). unfold console_name in *. by rewrite Hm.
Qed.

End OneCommand.

(** ** What goes wrong *)

(** A piece that is only the newline of an open line prints another one. *)
Lemma newline_adds_row P :
  printed P true "" ["done"; NLs] = [P +:+ "done" +:+ NLs; NLs].
Proof. reflexivity. Qed.

(** Whether the delta says that an interactive command has ended. *)
Definition ends_interactive (d : Delta) : Prop :=
  match d_type d with
  | DeltaManifest_Fields f => exists id c, fd_Commands f !! id = Some c /\ dc_HasInteractive c = true /\ cm_EndedAt (dc_fields c) <> 0%Z
  | _ => False
  end.

(** No delta of a run says so, since the end of a command is sent without its flag: the formatter
    does not start its ticker again after an interactive command. *)
Lemma interactive_never_ends isSSH t r : rtc (log_step isSSH) (newRun (NewBus t)) r -> Forall (fun d => ~ ends_interactive d) (rawHistory (lr_bus r)).
Proof.
  intros Hr. eapply (rtc_keeps _ (fun r => Forall (fun d => ~ ends_interactive d) (rawHistory (lr_bus r)))); [|done|by apply list.Forall_nil].
  assert (forall f h, (forall id c, fd_Commands f !! id = Some c -> dc_HasInteractive c = true -> cm_EndedAt (dc_fields c) = 0%Z) ->
    Forall (fun d => ~ ends_interactive d) h -> Forall (fun d => ~ ends_interactive d) (h ++ [mkDelta 0 (DeltaManifest_Fields f)])) as Hf.
  { intros f h Hc Hh. apply list.Forall_app. split; [done|]. apply list.Forall_cons. split; [|by apply list.Forall_nil].
    intros (id & c & E & Hi & He). by apply He, (Hc id). }
  assert (forall l h, Forall (fun d => ~ ends_interactive d) h -> Forall (fun d => ~ ends_interactive d) (h ++ [mkDelta 0 (Delta_DeltaLog l)])) as Hlog.
  { intros l h Hh. apply list.Forall_app. split; [done|]. apply list.Forall_cons. by split; [intros []|apply list.Forall_nil]. }
  intros x y [] Hx; unfold NewTarget, NewCommand, SetFatalError, Run_SetEnd, Target_SetStart, Target_SetEnd, Target_AddDependsOn,
    Command_Write, Command_SetStart, Command_AddDependsOn, SetProgress, SetCached, Command_SetEnd, SetEndError, SetName, on_target,
    on_command in *; repeat case_match; simplify_eq/=; try done; try (by apply Hlog); apply Hf; try done;
    intros id' c' E'; cbn [fd_Commands command_fields target_fields run_fields] in E';
    first [by rewrite lookup_empty in E'|apply lookup_singleton_Some in E' as [<- <-]; done].
Qed.

(** ** Witnesses *)

Module Sample.
#[local] Instance order : DeltaOrder := listed_order.
#[local] Instance order_laws : DeltaOrderLaws := listed_order_laws.
#[local] Instance no_colors : Paint := {| color_NoColor := true; paint := fun _ s => s |}.
#[local] Instance env : FormatterEnv :=
  {| ansiSupported := true; unmarshal_stats := fun _ => inr "no statistics"; humanize_Bytes := fun n => pretty n +:+ " B"; summary_path := "";
     summary_opens := false |}.
#[local] Instance all_print : Unicode := fun _ => true.

Definition deltas : list (Z * Delta) := pair 0%Z <$> rawHistory (lr_bus demo_run).

Definition start : Formatter := NewFormatter false false false true None false.

Lemma deltas_plain : Forall (fun d => match d_type d with Delta_DeltaLog dl => dl_Stream dl <> BuildkitStatsStream | _ => True end) deltas.*2.
Proof. repeat constructor; vm_compute; done. Qed.

(** The run that failed, from its history. *)
Lemma formatter_never_fails_witness : f_err (fst (write_all deltas start)) = [] /\ agrees demo_run (f_manifest (fst (write_all deltas start))).
Proof.
  apply (formatter_never_fails (fun _ => false) 10 demo_run deltas false false false true None false).
  - etrans; [apply demo_failed_reachable|apply demo_run_after].
  - reflexivity.
  - intros dl Hin Hs. exfalso. pose proof (proj1 (list.Forall_forall _ _) deltas_plain _ Hin) as Hn. by apply Hn.
Defined.

Definition pieces : list (Z * Z * string) := (fun p => (0%Z, 0%Z, p)) <$> ["comp"; "iling" +:+ NLs +:+ "do"; "ne"; NLs +:+ "bye" +:+ NLs].

End Sample.
